(* ===== verification/_CoqProject ===== *)
-Q . S2P
Prelude.v
GoStrings.v
GoFloat.v
RangeSet.v
Bracket.v
Glob.v
Parser.v
NodeFold.v
NodeSet.v
Match.v
GoNet.v
Nucleus.v
Sonar.v
Resolver.v
Reconnect.v
Gradient.v
CapIndex.v
Node.v
Stream.v
TopK.v
Codec.v
Vault.v
Tools.v
Relay.v
Process.v
Plugins.v
Delegate.v
Circuit.v
Stitch.v
Pair.v
Transfer.v
Upload.v
Config.v
Overview.v
McpServer.v
Cpu.v
GoOs.v
GoHex.v
DiskIO.v
Mounts.v
BlockTopo.v
Memory.v
Lifecycle.v
SharedMem.v
FileLocks.v
Oom.v
Pressure.v
NetThroughput.v
Cgroup.v
Routes.v
LustreJobs.v
Conntrack.v
Bond.v
Listening.v
Arp.v
