(* ===== verification/Prelude.v ===== *)
(** * cortex-mcp: a verification library of the mesh

    cortex-mcp joins the machines of a cluster into a mesh and lets a language
    model run diagnostic tools on them. A node keeps authenticated connections to
    its peers, gossips routes and capabilities over them, answers capability
    queries that flood the mesh, opens data streams to nodes that are not its
    peers through relay circuits, holds credentials it hands out on sealed
    requests, and serves the tools registered on it. A gateway translates the
    calls of a language model into calls of remote tools. This library models
    those parts as they are written in Go and proves what makes each correct.

    ** The parts and their files

    Each file says at its top which source file it models; paths are relative to
    the repository.

    - The language and its library. This file: 64-bit integers, errors and panics
      as [outcome], errors of [fmt.Errorf], [for] loops that count with an int,
      [sort.Slice] and [range] over a map. [GoStrings], [GoFloat], [GoNet] and [Glob]
      are the string functions, float64, the scanner with the address syntax, and
      the path matcher of the standard library as far as the program calls them.
    - Node sets, pkg/mesh/nodeset: [RangeSet] (rangeset.go), [Bracket] and [Parser]
      (parser.go), [NodeFold] (fold.go), [NodeSet] and [Match] (nodeset.go). A pattern
      such as rack[1-3]node[01-16] is parsed into the set of names it denotes;
      folding goes back.
    - Routing, pkg/mesh/routing: [Gradient] (gradient.go), [CapIndex]
      (capability_index.go), [Sonar] (sonar.go), [Circuit] (circuit.go, bufpool.go) and
      [Stitch], a stitched circuit as a machine of its two directions and the
      watchdog ([StitchWithTimeout] of circuit.go).
    - The node's own state, pkg/mesh/nucleus: [Nucleus] (manifest.go, impedance.go)
      and [Resolver] (resolver.go).
    - The control plane, pkg/mesh/api: [Node] composes the routing and nucleus
      files into the frame handlers of control.go, bootstrap.go and health.go with
      the peer manager and the write queues, and a network of nodes; [Relay] is
      connect.go and the relay handlers on a network with blocking control loops;
      [Delegate] is credential.go and its handlers on top of the vault; [Reconnect]
      is the loop of reconnect.go.
    - The wire and the streams: [Codec] (proto/codec.go, proto/pair.go), [Pair]
      (membrane/pair.go), [Transfer] (internal/mesh/transfer.go, pki.go) and [Upload],
      an upload as a machine of its two goroutines and the connection between them.
      A stream is read through the class [Reader] of [Tools]: the tool server is
      verified against its laws, and a connection with its first byte put back has
      them ([Transfer]).
    - Credentials: [Vault] (pkg/mesh/vault) and [Config] (internal/config).
    - Tools: [Tools] (pkg/mesh/tools and pkg/mesh/gateway), [Plugins]
      (internal/registry), [Stream] and [TopK] (internal/registry/stream), [Overview]
      (internal/mcp/mesh_overview.go, with the topology snapshot of api/neuron.go)
      and [McpServer] (internal/mcp/server.go).
    - What a node measures, internal/sys: [Process] and [Cpu]; [DiskIO] (diskstats.go,
      scheduler.go, nvme.go of storage, and the tool tools/diskio), [Mounts] (mounts.go
      and tools/mountusage), [BlockTopo] (block.go), [Memory] (buddyinfo.go and
      hugepage.go of memory, edac.go of hardware, and tools/hugepageinfo). [GoOs] has
      what they call of the standard library: the files they read as a class,
      [strconv], [math].
    - Installing and removing a node, internal/registry/tools/lifecycle: [Lifecycle],
      the plans and their execution on a machine where every system call may fail.
    - Diagnostic tools, internal/registry/tools: [SharedMem] (sharedmemory), [FileLocks]
      (filelocks), [Oom] (oomevents), [Pressure] (pressurestall), [NetThroughput]
      (networkthroughput), [Cgroup] (cgrouplimits), [Routes] (routingtable), [LustreJobs]
      (lustrejobstats), [Conntrack] (conntracksummary), [Bond] (bondstatus), [Listening]
      (listeningservices) and [Arp] (arpneighbors). Each is the parser of what the kernel
      prints, the computation on it, and the tool. [GoHex] has the hexadecimal numbers they
      share.

    ** How definitions correspond to the code

    A definition has the name of the function or type it translates; a method
    [T.M] is [T_M] where the plain name would clash, and a loop or a branch that is
    a definition of its own is named after what it does. A struct is a record,
    its fields prefixed. Times are nanoseconds, and a call that reads the clock
    takes what it reads as an argument ([now]).

    A method that holds its lock for its whole body is a function from state to
    state, so that a concurrent history is a list of calls; where a call releases
    the lock in between, or waits on a channel, its parts are separate transitions
    ([Sonar], [Node], [Relay], [Delegate]). Pointers the code shares (peer
    connections, collectors, tree nodes, the maps and slices of a configuration)
    live in a store and are named by their index. The order in which Go ranges over
    a map is an argument with the law that it enumerates the map ([GoRange] and the
    [range_ints] and [PidRange] of the files that range over numbers), and so is what
    [sort.Slice] does among equals ([GoSort]); theorems hold for every choice.

    A call ends as [Ret], as [Err] with the error the code builds, as [Panic], or
    as [Diverge]. An error keeps its format and the error it wraps; the printed
    arguments are left out unless the code looks at them.

    ** Fuel and bounds

    [loop64] iterates a loop on an [int] up to 2^64 times, as many as there are
    values, so it gives [Diverge] only where the code does not return; the lemmas
    about ranges have the bound under which nothing wraps around. The fuel of the
    other recursive definitions is the length of the input they consume, plus one
    ([Parser], [Glob], [GoNet], [Stream]), the number of frames in flight of a network
    with the hop budget of each ([Node.flood_terminates] bounds it), or the depth of
    a tree ([Process]); where it could run out a lemma says that it does not.

    ** What the theorems show

    - Node sets: the range operations are the set operations and keep the ranges
      canonical; a bracket expression and a pattern denote what they should;
      folding numbered names of one padding and expanding is the identity; [Match]
      agrees with [Expand] on a pattern with one bracket, without a comma.
    - Routing: a table is the map of its paths and cached gossip is never stale;
      the capability indexes agree and refine a map by node; the window of the query
      deduplication; forwarding buffers have one owner; a stitched
      circuit forwards what its peers sent in any interleaving of its goroutines, and
      one that goes silent is closed and returns.
    - Control plane: gossip is applied, bootstrap frames merge the host table into
      the other side's, a flooded query ends within its budget; a relay dial reaches its
      target where routes lead there, two crossing dials block each other; a
      credential request is answered with the credential, and a grant can be lost.
    - Wire: frames, reads and writes are inverse; a first byte tells an upload from a
      tool call, and the tool server sees the stream as if nothing had been read; an
      upload ends, and what each side knows when it fails; a data connection is
      paired with the control connection that waits for it.
    - Vault and configuration: a grant opens for the requester alone, within the time
      window; a deployed configuration shares nothing with its source.
    - Tools: a remote call is the local call; a fan-out answers for each node, or
      with nothing where one content is not JSON; the bridge serves the supported
      tools; the cache returns what was computed, whatever its callers do to the bytes
      they were given; the reducers refine their specification; arguments are checked
      before a call; the overview has the nodes and edges that were reported.
    - Measurements: the parsers read what the kernel prints; a tree contains its
      target with its ancestors; with L3 information each CPU has one place in
      the topology, without it those of the first core of each number; rates and
      scores stay in their bounds; disks, partitions and mounts are listed exactly;
      warnings are given exactly where they apply.
    - Lifecycle: a plan runs up to its first failure, the installed binary is the old
      or the new one whatever fails, and without failures nothing is left behind.
    - Diagnostic tools: what the kernel prints is read back, the events, counts and
      rates reported are those of the data read, each verdict is given exactly where its
      condition holds, the limits of a control group are the tightest above it, and a
      leaderboard has the first jobs whatever the order in which a map was visited.

    ** Parameters

    Code that is not in the repository is a parameter with the laws the code relies
    on: cryptography ([Vault.Crypto]), protobuf and JSON encodings, x509, TOML,
    [strconv.ParseFloat], lower- and upper-casing beyond ASCII, the contents of
    procfs, sysfs and the user database, what statfs answers, and which system calls
    fail. Each file's witnesses instantiate them.

    ** Not modelled

    TLS, yamux, zstd and gRPC adapters; accept loops and deadlines; ssh, HTTP
    proxies and child processes of the deployment code; the command line,
    self-upgrade and files of identities; decoding of the configuration file;
    logging; generated code. These forward to third-party code or to the operating
    system. Of the diagnostic tools under internal/registry/tools those named above
    are modelled; the others, further tables of the kernel and outputs of commands,
    are not. *)

From Stdlib Require Import Ascii.
From stdpp Require Import base numbers gmap strings sorting list.

(** ** Scope and data shared by the components *)

Declare Scope go_scope.
Delimit Scope go_scope with go.

(** A Go string is a byte sequence; an [ascii] is one byte. *)
Abbreviation gostring := (list ascii).

(** A Go string literal. *)
Definition go (s : string) : gostring := String.list_ascii_of_string s.

(** ** Machine integers: Go's [int] and [int64] on a 64-bit platform *)

Definition MaxInt64 : Z := 9223372036854775807.

Definition MinInt64 : Z := -9223372036854775808.

(** The value a 64-bit register holds after computing [z]: two's complement
    wrap-around. *)
Definition i64 (z : Z) : Z := (z + 2 ^ 63) mod 2 ^ 64 - 2 ^ 63.

(** The same for unsigned words: Go's [uint64]. *)
Definition u64 (z : Z) : Z := z mod 2 ^ 64.

(** [time.Second], in nanoseconds. *)
Definition second : Z := 1000000000.

(** [t.Sub(u)], which saturates. *)
Definition time_Sub (t u : Z) : Z := Z.max MinInt64 (Z.min MaxInt64 (t - u)).

Definition in_i64 (z : Z) : Prop := (MinInt64 ≤ z ≤ MaxInt64)%Z.

(** ** Outcomes of a Go computation *)

(** A Go error value: the format of the [fmt.Errorf] (or the sentinel's text)
    that built it, and the error it wraps with [%w], if any. The arguments that
    are only printed are left out. *)
Inductive goerr :=
| Errorf (format : string)
| Wrapf (format : string) (cause : goerr).

#[export] Instance goerr_eq_dec : EqDecision goerr.
Proof. solve_decision. Defined.

(** [Ret] is a normal return with a nil error, [Err] a non-nil error, [Panic] a
    run-time panic and [Diverge] a loop that never ends. *)
Inductive outcome (A : Type) :=
| Ret (a : A)
| Err (e : goerr)
| Panic
| Diverge.
Arguments Ret {A} a.
Arguments Err {A} e.
Arguments Panic {A}.
Arguments Diverge {A}.

#[export] Instance outcome_eq_dec {A} `{EqDecision A} : EqDecision (outcome A).
Proof. solve_decision. Defined.

#[export] Instance outcome_ret : MRet outcome := @Ret.

#[export] Instance outcome_bind : MBind outcome := λ A B k m,
  match m with
  | Ret a => k a
  | Err e => Err e
  | Panic => Panic
  | Diverge => Diverge
  end.

#[export] Instance outcome_fmap : FMap outcome := λ A B f m,
  m ≫= λ a, Ret (f a).

(** [if err != nil { return ..., fmt.Errorf("...: %w", err) }] *)
Definition wrap_err {A} (format : string) (m : outcome A) : outcome A :=
  match m with
  | Err e => Err (Wrapf format e)
  | _ => m
  end.

(** [ok m]: the computation returns a value. *)
Definition returns {A} (m : outcome A) : Prop := ∃ a, m = Ret a.

(** The computation does not panic. *)
Definition no_panic {A} (m : outcome A) : Prop := m ≠ Panic.

(** [for _, x := range l { v, err := f(x); if err ... ; out = append(out, v) }] *)
Fixpoint mapM_go {A B} (f : A → outcome B) (l : list A) : outcome (list B) :=
  match l with
  | [] => Ret []
  | x :: l => y ← f x; ys ← mapM_go f l; Ret (y :: ys)
  end.

(** [for _, x := range l { s, err = f(s, x); if err ... }] *)
Fixpoint foldM_go {A B} (f : B → A → outcome B) (b : B) (l : list A) : outcome B :=
  match l with
  | [] => Ret b
  | x :: l => b ← f b x; foldM_go f b l
  end.

(** ** Loops whose end depends on wrapping arithmetic *)

(** Run [body] until it leaves with [inr], for at most [p] turns. *)
Fixpoint loop_pos {S R} (p : positive) (body : S → S + R) (s : S) : S + R :=
  match p with
  | xH => body s
  | xO p => match loop_pos p body s with inl s => loop_pos p body s | r => r end
  | xI p =>
      match body s with
      | inl s => match loop_pos p body s with inl s => loop_pos p body s | r => r end
      | r => r
      end
  end.

(** A loop whose condition reads one [int] that its body steps by a constant has
    visited every [int] it ever will after 2^64 turns: [None] is a loop that
    never ends. *)
Definition loop64 {S R} (body : S → S + R) (s : S) : option R :=
  match loop_pos (2 ^ 64) body s with inr r => Some r | inl _ => None end.

Fixpoint loop_nat {S R} (n : nat) (body : S → S + R) (s : S) : S + R :=
  match n with
  | O => inl s
  | Datatypes.S n => match body s with inl s => loop_nat n body s | r => r end
  end.

(** ** [sort.Search], the standard library's binary search *)

Fixpoint search_loop (fuel : nat) (f : nat → bool) (i j : nat) : nat :=
  match fuel with
  | O => i
  | S fuel =>
      if decide (i < j)
      then let h := Nat.div (i + j) 2 in
           if f h then search_loop fuel f i h
           else search_loop fuel f (S h) j
      else i
  end.

(** [sort.Search(n, f)]. The window halves at each turn, so [S n] turns are
    more than the loop makes. *)
Definition sort_search (n : nat) (f : nat → bool) : nat := search_loop (S n) f 0 n.

(** ** Interfaces of the run-time system *)

(** Ranging over a Go map visits every entry once, in an order the language
    leaves open: a run is an enumeration of the map's entries. *)
Class GoRange := {
  range_map : ∀ {V : Type}, gmap gostring V → list (gostring * V);
  range_map_perm : ∀ {V : Type} (m : gmap gostring V), range_map m ≡ₚ map_to_list m
}.

(** [l] has no adjacent pair out of order under [less]. *)
Definition less_sorted {A} (less : A → A → bool) : list A → Prop :=
  StronglySorted (λ a b, less b a = false).

(** What [sort.Slice] asks of its [less] argument on the elements it compares. *)
Record strict_weak {A} (less : A → A → bool) (l : list A) : Prop := {
  sw_irrefl : ∀ a, a ∈ l → less a a = false;
  sw_trans : ∀ a b c, a ∈ l → b ∈ l → c ∈ l →
    less a b = true → less b c = true → less a c = true;
  sw_cotrans : ∀ a b c, a ∈ l → b ∈ l → c ∈ l →
    less a b = true → less a c = true ∨ less c b = true
}.

(** [sort.Slice] is not stable: it returns some sorted permutation. *)
Class GoSort := {
  sort_slice : ∀ {A : Type}, (A → A → bool) → list A → list A;
  sort_slice_perm : ∀ {A : Type} (less : A → A → bool) l, sort_slice less l ≡ₚ l;
  sort_slice_sorted : ∀ {A : Type} (less : A → A → bool) l,
    strict_weak less l → less_sorted less (sort_slice less l)
}.

(** ** Hints and tactics *)

Create HintDb go discriminated.

(** [lia] with the 64-bit bounds unfolded. *)
Ltac i64_lia := unfold in_i64, MaxInt64, MinInt64 in *; lia.

(** Prove a closed decidable proposition by running its decision procedure. *)
Ltac by_decide :=
  match goal with |- ?P => apply (bool_decide_eq_true_1 P); vm_compute; reflexivity end.

(** Case split on every boolean integer comparison in the goal and context. *)
Ltac zcases :=
  repeat match goal with
  | |- context [(?a <? ?b)%Z] => destruct (Z.ltb_spec a b)
  | |- context [(?a <=? ?b)%Z] => destruct (Z.leb_spec a b)
  | |- context [(?a =? ?b)%Z] => destruct (Z.eqb_spec a b)
  | H : context [(?a <? ?b)%Z] |- _ => destruct (Z.ltb_spec a b)
  | H : context [(?a <=? ?b)%Z] |- _ => destruct (Z.leb_spec a b)
  | H : context [(?a =? ?b)%Z] |- _ => destruct (Z.eqb_spec a b)
  end.

(** ** Lemmas: machine integers *)

Lemma i64_id z : in_i64 z → i64 z = z.
Proof. unfold i64. intros. rewrite Z.mod_small; i64_lia. Qed.

Lemma i64_range z : in_i64 (i64 z).
Proof.
  unfold i64. pose proof (Z.mod_pos_bound (z + 2 ^ 63) (2 ^ 64)). i64_lia.
Qed.

Lemma u64_range z : (0 ≤ u64 z < 2 ^ 64)%Z.
Proof. unfold u64. apply Z.mod_pos_bound. lia. Qed.

Lemma u64_id z : (0 ≤ z < 2 ^ 64)%Z → u64 z = z.
Proof. apply Z.mod_small. Qed.

Lemma i64_add_l (a b : Z) : i64 (i64 a + b)%Z = i64 (a + b)%Z.
Proof.
  unfold i64. replace ((a + 2 ^ 63) mod 2 ^ 64 - 2 ^ 63 + b + 2 ^ 63)%Z
    with ((a + 2 ^ 63) mod 2 ^ 64 + b)%Z by lia.
  rewrite Zplus_mod_idemp_l. f_equal. f_equal. lia.
Qed.

Lemma i64_succ_max : i64 (MaxInt64 + 1) = MinInt64.
Proof. reflexivity. Qed.

#[export] Hint Resolve i64_range : go.

(** ** Lemmas: lists *)

Lemma seqZ_sorted m n : StronglySorted Z.lt (seqZ m n).
Proof.
  destruct (Z.le_gt_cases n 0); [by rewrite seqZ_nil by done; constructor|].
  rewrite <-(Z2Nat.id n) by lia. generalize (Z.to_nat n). clear. intros k.
  induction k as [|k IH]; [constructor|]. rewrite seqZ_S. apply StronglySorted_app.
  split_and!; [|done|repeat constructor].
  intros x y Hx%elem_of_seqZ ->%list_elem_of_singleton. lia.
Qed.

Lemma List_last_cons {A} (l : list A) x d : List.last (x :: l) d = List.last l x.
Proof.
  revert x d. induction l as [|y l IH]; intros x d; [done|].
  change (List.last (y :: l) d = List.last (y :: l) x). by rewrite !IH.
Qed.

Lemma List_last_elem {A} (x : A) l d : List.last (x :: l) d ∈ x :: l.
Proof.
  revert x d. induction l as [|y l IH]; intros x d; [by left|]. right. apply (IH y d).
Qed.

Lemma lt_sorted_NoDup (l : list Z) : StronglySorted Z.lt l → NoDup l.
Proof.
  induction 1 as [|x l Hl IH Hx]; constructor; [|done]. rewrite Forall_forall in Hx.
  intros Hin%Hx. lia.
Qed.

(** A strictly sorted list is determined by its elements. *)
Lemma lt_sorted_ext (l1 l2 : list Z) :
  StronglySorted Z.lt l1 → StronglySorted Z.lt l2 → (∀ v, v ∈ l1 ↔ v ∈ l2) → l1 = l2.
Proof.
  intros H1 H2 Hext.
  pose proof lt_sorted_NoDup as Hnd.
  assert (∀ l, StronglySorted Z.lt l → StronglySorted Z.le l) as Hle.
  { induction 1 as [|x l Hl IH Hx]; constructor; [done|].
    eapply Forall_impl; [done|]. simpl. lia. }
  apply (StronglySorted_unique Z.le); [eauto..|]. apply NoDup_Permutation; eauto.
Qed.

(** ** Lemmas: outcomes *)

Lemma outcome_bind_Ret {A B} (m : outcome A) (k : A → outcome B) b :
  m ≫= k = Ret b ↔ ∃ a, m = Ret a ∧ k a = Ret b.
Proof. destruct m; simpl; naive_solver. Qed.

Lemma outcome_fmap_Ret {A B} (f : A → B) (m : outcome A) b :
  f <$> m = Ret b ↔ ∃ a, m = Ret a ∧ f a = b.
Proof. destruct m; cbv [fmap outcome_fmap mbind outcome_bind]; naive_solver. Qed.

Lemma outcome_bind_assoc {A B C} (m : outcome A) (k : A → outcome B) (h : B → outcome C) :
  (m ≫= k) ≫= h = m ≫= λ a, k a ≫= h.
Proof. by destruct m. Qed.

Lemma wrap_err_Ret {A} f (m : outcome A) a : wrap_err f m = Ret a ↔ m = Ret a.
Proof. destruct m; simpl; naive_solver. Qed.

(** Invert [... ← m; k = Ret b] into the value [m] returned and the rest. *)
Ltac inv_ret :=
  repeat match goal with
  | H : (_ ≫= _) = Ret _ |- _ =>
      apply outcome_bind_Ret in H; destruct H as (? & ? & H)
  | H : Ret _ = Ret _ |- _ => injection H as H; subst
  | H : Err _ = Ret _ |- _ => discriminate H
  | H : Panic = Ret _ |- _ => discriminate H
  | H : Diverge = Ret _ |- _ => discriminate H
  end.

Lemma mapM_go_Ret {A B} (f : A → outcome B) l ys :
  mapM_go f l = Ret ys ↔ Forall2 (λ x y, f x = Ret y) l ys.
Proof.
  revert ys. induction l as [|x l IH]; intros ys; simpl.
  - split; [intros [= <-]; constructor | by inversion 1].
  - rewrite outcome_bind_Ret. setoid_rewrite outcome_bind_Ret. setoid_rewrite IH.
    split.
    + intros (y & Hy & ys' & Hys & [= <-]). by constructor.
    + inversion 1; subst. eauto.
Qed.

Lemma mapM_go_map {A B C} (f : B → outcome C) (g : A → B) (h : A → C) l :
  (∀ x, x ∈ l → f (g x) = Ret (h x)) → mapM_go f (map g l) = Ret (map h l).
Proof.
  induction l as [|x l IH]; intros H; [done|]. cbn [map mapM_go].
  rewrite H by left. simpl. by rewrite IH by (intros; apply H; by right).
Qed.

Lemma foldM_go_app {A B} (f : B → A → outcome B) b l1 l2 :
  foldM_go f b (l1 ++ l2) = foldM_go f b l1 ≫= λ b, foldM_go f b l2.
Proof.
  revert b. induction l1 as [|x l1 IH]; intros b; simpl; [done|].
  destruct (f b x); simpl; [apply IH|done..].
Qed.

Lemma no_panic_bind {A B} (m : outcome A) (k : A → outcome B) :
  no_panic m → (∀ a, m = Ret a → no_panic (k a)) → no_panic (m ≫= k).
Proof. unfold no_panic. destruct m; simpl; naive_solver. Qed.

Lemma no_panic_fmap {A B} (f : A → B) (m : outcome A) : no_panic m → no_panic (f <$> m).
Proof. unfold no_panic. by destruct m. Qed.

Lemma no_panic_wrap_err {A} f (m : outcome A) : no_panic m → no_panic (wrap_err f m).
Proof. unfold no_panic. by destruct m. Qed.

Lemma no_panic_Ret {A} (a : A) : no_panic (Ret a).
Proof. done. Qed.

Lemma no_panic_Err {A} e : no_panic (@Err A e).
Proof. done. Qed.

Lemma foldM_go_no_panic {A B} (f : B → A → outcome B) b l :
  (∀ b x, no_panic (f b x)) → no_panic (foldM_go f b l).
Proof.
  intros Hf. revert b. induction l as [|x l IH]; intros b; simpl; [done|].
  apply no_panic_bind; auto.
Qed.

#[export] Hint Resolve no_panic_Ret no_panic_Err no_panic_bind no_panic_fmap
  no_panic_wrap_err foldM_go_no_panic : go.

(** ** Lemmas: loops *)

Lemma loop_nat_add {S R} n m (body : S → S + R) s :
  loop_nat (n + m) body s =
  match loop_nat n body s with inl s => loop_nat m body s | r => r end.
Proof. revert s. induction n as [|n IH]; intros s; simpl; [done|]. by destruct (body s). Qed.

Lemma loop_pos_nat {S R} p (body : S → S + R) s :
  loop_pos p body s = loop_nat (Pos.to_nat p) body s.
Proof.
  revert s. induction p as [p IH|p IH|]; intros s.
  - rewrite Pos2Nat.inj_xI. simpl loop_nat at 1. cbn [loop_pos].
    destruct (body s) as [s'|r]; [|done]. rewrite Nat.add_0_r, loop_nat_add, IH.
    by destruct (loop_nat _ _ s').
  - rewrite Pos2Nat.inj_xO. cbn [loop_pos]. simpl Nat.mul.
    rewrite Nat.add_0_r, loop_nat_add, IH. by destruct (loop_nat _ _ s).
  - simpl. by destruct (body s).
Qed.

(** A run of [n] turns that ends is what [loop64] returns. *)
Lemma loop64_Some {S R} n (body : S → S + R) s r :
  (Z.of_nat n ≤ 2 ^ 64)%Z → loop_nat n body s = inr r → loop64 body s = Some r.
Proof.
  intros Hn Hr. unfold loop64. rewrite loop_pos_nat.
  replace (Pos.to_nat (2 ^ 64)) with (n + (Pos.to_nat (2 ^ 64) - n)) by lia.
  by rewrite loop_nat_add, Hr.
Qed.

(** ** Lemmas: binary search *)

Lemma search_loop_spec n f fuel i j :
  i ≤ j → j ≤ n → j - i < fuel →
  (∀ a b, a < n → b < n → a ≤ b → f a = true → f b = true) →
  let r := search_loop fuel f i j in
  i ≤ r ≤ j ∧ (∀ a, i ≤ a < r → f a = false) ∧ (∀ b, r ≤ b < j → f b = true).
Proof.
  intros Hij Hj Hfuel Hmono. revert i j Hij Hj Hfuel.
  induction fuel as [|fuel IH]; intros i j Hij Hj Hfuel; cbn [search_loop]; [lia|].
  case_decide as Hlt; [|repeat split; intros; lia].
  set (h := Nat.div (i + j) 2).
  assert (i ≤ h < j) as Hh.
  { unfold h. pose proof (Nat.div_mod_eq (i + j) 2).
    pose proof (Nat.mod_upper_bound (i + j) 2). lia. }
  destruct (f h) eqn:Hf.
  - destruct (IH i h) as (? & ? & Hr); [lia..|]. repeat split; [lia..|eauto|].
    intros b Hb. destruct (decide (b < h)); [apply Hr; lia|].
    apply (Hmono h); (lia || done).
  - destruct (IH (S h) j) as (? & Hl & ?); [lia..|]. repeat split; [lia..| |eauto].
    intros a Ha. destruct (decide (S h ≤ a)); [apply Hl; lia|].
    destruct (f a) eqn:Ha1; [|done]. rewrite (Hmono a h) in Hf; (done || lia).
Qed.

(** [sort.Search] returns the least index at which a predicate that is monotone
    on the indices holds, and [n] when there is none. *)
Lemma search_first n f :
  (∀ a b, a < n → b < n → a ≤ b → f a = true → f b = true) →
  sort_search n f ≤ n ∧
  (∀ a, a < sort_search n f → f a = false) ∧
  (∀ b, sort_search n f ≤ b < n → f b = true).
Proof.
  intros Hmono. destruct (search_loop_spec n f (S n) 0 n) as (? & Ha & Hb); [lia..|done|].
  unfold sort_search. repeat split; [lia| |done]. intros a ?. apply Ha. lia.
Qed.

(** ** Lemmas: concatenated blocks of one length *)

Lemma length_bind_const {A B} (f : A → list B) n (l : list A) :
  (∀ x, x ∈ l → length (f x) = n) → length (l ≫= f) = length l * n.
Proof.
  induction l as [|x l IH]; intros H; [done|]. cbn [mbind list_bind length].
  rewrite length_app, (H x), IH by (left || (intros; apply H; by right)). lia.
Qed.

Lemma lookup_bind_const {A B} (f : A → list B) n (l : list A) k j :
  (∀ x, x ∈ l → length (f x) = n) → j < n →
  (l ≫= f) !! (k * n + j) = l !! k ≫= λ x, f x !! j.
Proof.
  revert k. induction l as [|x l IH]; intros k H Hj; [done|].
  cbn [mbind list_bind]. assert (length (f x) = n) by (apply H; left). destruct k as [|k].
  - simpl. by rewrite lookup_app_l by lia.
  - rewrite lookup_app_r by lia. replace (S k * n + j - length (f x)) with (k * n + j) by lia.
    simpl. apply IH; [|done]. intros; apply H; by right.
Qed.

(** ** Lemmas: lists cut into classes *)

Lemma bind_ext_in {A B} (f g : A → list B) l :
  (∀ x, x ∈ l → f x = g x) → l ≫= f = l ≫= g.
Proof.
  induction l as [|x l IH]; intros H; [done|]. cbn [mbind list_bind].
  rewrite H by left. f_equal. apply IH. intros; apply H; by right.
Qed.

Lemma bind_perm_in {A B} (f g : A → list B) l :
  (∀ x, x ∈ l → f x ≡ₚ g x) → l ≫= f ≡ₚ l ≫= g.
Proof.
  induction l as [|x l IH]; intros H; [done|]. cbn [mbind list_bind].
  rewrite H by left. f_equiv. apply IH. intros; apply H; by right.
Qed.

Lemma filter_false {A} (P : A → Prop) `{∀ x, Decision (P x)} l :
  (∀ x, x ∈ l → ¬ P x) → filter P l = [].
Proof.
  induction l as [|x l IH]; intros Hl; [done|]. rewrite filter_cons, decide_False by (apply Hl; left).
  apply IH. intros; apply Hl; by right.
Qed.

(** Cutting a list into the classes of a function loses nothing. *)
Lemma bind_filter_perm {A B} `{EqDecision B} (f : A → B) (keys : list B) (l : list A) :
  NoDup keys → (∀ x, x ∈ l → f x ∈ keys) →
  (keys ≫= λ k, filter (λ x, f x = k) l) ≡ₚ l.
Proof.
  revert l. induction keys as [|k keys IH]; intros l Hnd Hall.
  - destruct l as [|x l]; [done|]. exfalso. apply (not_elem_of_nil (f x)), Hall. left.
  - apply NoDup_cons in Hnd as [Hk Hnd]. cbn [mbind list_bind].
    rewrite (bind_ext_in _ (λ k', filter (λ x, f x = k') (filter (λ x, f x ≠ k) l))).
    + rewrite IH; [apply filter_app_complement|done|].
      intros x [Hx Hl]%list_elem_of_filter. apply Hall in Hl. set_solver.
    + intros k' Hk'. rewrite list_filter_filter. apply list_filter_iff.
      intros x. split; [|tauto]. intros ->. split; [done|]. intros ->. done.
Qed.

Lemma filter_snoc {A} (P : A → Prop) `{∀ x, Decision (P x)} l x :
  filter P (l ++ [x]) = if decide (P x) then filter P l ++ [x] else filter P l.
Proof. rewrite filter_app, filter_cons, filter_nil. case_decide; [done|apply app_nil_r]. Qed.

Lemma size_list_le (l : list gostring) : size (list_to_set l : gset gostring) ≤ length l.
Proof.
  unfold size, set_size. simpl. apply submseteq_length, NoDup_submseteq; [apply NoDup_elements|].
  intros x. by rewrite elem_of_elements, elem_of_list_to_set.
Qed.

(** [sort.Slice] by a strict total order on distinct elements sorts strictly. *)
Lemma sort_slice_strict `{GoSort} {A} (less : A → A → bool) (l : list A) :
  NoDup l → StrictOrder (λ a b, less a b = true) →
  (∀ a b, a ∈ l → b ∈ l → less a b = true ∨ a = b ∨ less b a = true) →
  StronglySorted (λ a b, less a b = true) (sort_slice less l).
Proof.
  intros Hnd [Hirr Htr] Htot.
  assert (less_sorted less (sort_slice less l)) as Hs.
  { apply sort_slice_sorted. split.
    - intros a _. apply not_true_iff_false, Hirr.
    - intros a b c _ _ _. apply Htr.
    - intros a b c Ha Hb Hc Hab. destruct (Htot a c Ha Hc) as [?|[->|Hca]]; [auto..|].
      right. by eapply Htr. }
  assert (∀ l', l' ⊆ l → NoDup l' → less_sorted less l' → StronglySorted (λ a b, less a b = true) l') as Hall.
  { clear Hs. induction l' as [|x l' IH]; intros Hsub Hnd' Hl; [constructor|].
    apply StronglySorted_inv in Hl as [Hl Hx]. apply NoDup_cons in Hnd' as [Hnx Hnd']. rewrite Forall_forall in Hx.
    constructor; [apply IH; [set_solver|done|done]|]. apply Forall_forall. intros y Hy.
    destruct (Htot x y) as [?|[->|Hyx]]; [set_solver..|done|done|]. rewrite Hx in Hyx; done. }
  apply Hall; [|by rewrite sort_slice_perm|done]. intros x. by rewrite sort_slice_perm.
Qed.

(** ** Concrete run-time systems *)

(** Insertion in key order is one enumeration of a map. *)
Definition list_range : GoRange :=
  {| range_map := λ V (m : gmap gostring V), map_to_list m;
     range_map_perm := λ V (m : gmap gostring V), reflexivity (map_to_list m) |}.

(** Insertion sort. *)
Fixpoint insert_less {A} (less : A → A → bool) (x : A) (l : list A) : list A :=
  match l with
  | [] => [x]
  | y :: l' => if less y x then y :: insert_less less x l' else x :: l
  end.

Definition insertion_sort {A} (less : A → A → bool) (l : list A) : list A :=
  foldr (insert_less less) [] l.

Lemma insert_less_perm {A} (less : A → A → bool) x l : insert_less less x l ≡ₚ x :: l.
Proof.
  induction l as [|y l IH]; simpl; [done|]. destruct (less y x); [|done].
  rewrite IH. apply Permutation_swap.
Qed.

Lemma insertion_sort_perm {A} (less : A → A → bool) l : insertion_sort less l ≡ₚ l.
Proof. induction l as [|x l IH]; simpl; [done|]. by rewrite insert_less_perm, IH. Qed.

Lemma strict_weak_perm {A} (less : A → A → bool) l l' :
  l ⊆ l' → strict_weak less l' → strict_weak less l.
Proof. intros Hl [H1 H2 H3]. split; eauto. Qed.

Lemma insert_less_sorted {A} (less : A → A → bool) x l :
  strict_weak less (x :: l) → less_sorted less l → less_sorted less (insert_less less x l).
Proof.
  unfold less_sorted. intros [Hirr Htr Hco] Hl.
  induction Hl as [|y l Hl IH Hy]; simpl; [by repeat constructor|].
  rewrite Forall_forall in Hy. destruct (less y x) eqn:Hyx.
  - constructor.
    + apply IH; intros; [apply Hirr|eapply Htr|apply Hco]; set_solver.
    + apply Forall_forall. intros z. rewrite insert_less_perm, elem_of_cons. intros [->|Hz]; [|auto].
      destruct (less x y) eqn:Hxy; [|done].
      rewrite <-(Hirr x) by left. symmetry. apply (Htr x y x); set_solver.
  - constructor; [by constructor; [|apply Forall_forall]|].
    apply Forall_forall. intros z [->|Hz]%elem_of_cons; [done|].
    destruct (less z x) eqn:Hzx; [|done].
    destruct (Hco z x y) as [H|H]; [set_solver..| |congruence]. rewrite Hy in H; done.
Qed.

Lemma insertion_sort_sorted {A} (less : A → A → bool) (l : list A) :
  strict_weak less l → less_sorted less (insertion_sort less l).
Proof.
  induction l as [|x l IH]; intros H; simpl; [constructor|]. apply insert_less_sorted.
  - eapply strict_weak_perm; [|exact H]. intros y. rewrite !elem_of_cons, insertion_sort_perm. done.
  - apply IH. eapply strict_weak_perm; [|exact H]. set_solver.
Qed.

(** Insertion sort is one [sort.Slice]. *)
Definition insertion_GoSort : GoSort :=
  {| sort_slice := @insertion_sort;
     sort_slice_perm := @insertion_sort_perm;
     sort_slice_sorted := @insertion_sort_sorted |}.
