(* ===== verification/GoStrings.v ===== *)
(** * The string functions of Go's standard library the mesh uses

    [strings.IndexByte], [Index], [HasPrefix], [HasSuffix], [Split], [Join],
    [TrimSpace], [strconv.Atoi], [strconv.Itoa], [fmt]'s [%0*d] verb and
    [sort.Strings], on byte strings, each with the lemmas its clients need. *)

From Stdlib Require Import Ascii.
From stdpp Require Import base numbers gmap strings sorting list.
From S2P Require Import Prelude.

Open Scope Z_scope.

(** ** Searching and cutting *)

(** [strings.IndexByte(s, c)]; Go's [-1] is [None]. *)
Fixpoint strings_IndexByte (s : gostring) (c : ascii) : option nat :=
  match s with
  | [] => None
  | x :: s => if decide (x = c) then Some O else S <$> strings_IndexByte s c
  end.

Definition strings_HasPrefix (s p : gostring) : bool := bool_decide (p `prefix_of` s).

Definition strings_HasSuffix (s p : gostring) : bool := bool_decide (p `suffix_of` s).

(** [strings.TrimSuffix(s, suffix)] *)
Definition strings_TrimSuffix (s suffix : gostring) : gostring :=
  if strings_HasSuffix s suffix then take (length s - length suffix) s else s.

(** [strings.Index(s, sub)]: the first position at which [sub] occurs. *)
Fixpoint strings_Index (s sub : gostring) : option nat :=
  if strings_HasPrefix s sub then Some O
  else match s with
       | [] => None
       | _ :: s => S <$> strings_Index s sub
       end.

(** [strings.Split(s, sep)] for a one-byte separator. *)
Fixpoint strings_Split (s : gostring) (sep : ascii) : list gostring :=
  match s with
  | [] => [[]]
  | x :: s =>
      if decide (x = sep) then [] :: strings_Split s sep
      else match strings_Split s sep with
           | [] => [[x]]
           | p :: ps => (x :: p) :: ps
           end
  end.

(** [strings.SplitN(s, sep, 2)] for a one-byte separator, where there are two parts. *)
Definition strings_Cut (s : gostring) (sep : ascii) : option (gostring * gostring) :=
  i ← strings_IndexByte s sep; Some (take i s, drop (S i) s).

(** [strings.Join(l, sep)] *)
Fixpoint strings_Join (l : list gostring) (sep : gostring) : gostring :=
  match l with
  | [] => []
  | [x] => x
  | x :: l => x ++ sep ++ strings_Join l sep
  end.

(** The UTF-8 encodings of the runes [unicode.IsSpace] accepts. *)
Definition space_runes : list gostring :=
  map (map ascii_of_N)
    ([[9]; [10]; [11]; [12]; [13]; [32]; [0xC2; 0x85]; [0xC2; 0xA0];
      [0xE1; 0x9A; 0x80]; [0xE2; 0x80; 0x80]; [0xE2; 0x80; 0x81];
      [0xE2; 0x80; 0x82]; [0xE2; 0x80; 0x83]; [0xE2; 0x80; 0x84];
      [0xE2; 0x80; 0x85]; [0xE2; 0x80; 0x86]; [0xE2; 0x80; 0x87];
      [0xE2; 0x80; 0x88]; [0xE2; 0x80; 0x89]; [0xE2; 0x80; 0x8A];
      [0xE2; 0x80; 0xA8]; [0xE2; 0x80; 0xA9]; [0xE2; 0x80; 0xAF];
      [0xE2; 0x81; 0x9F]; [0xE3; 0x80; 0x80]]%N).

Fixpoint trim_prefixes (fuel : nat) (runes : list gostring) (s : gostring) : gostring :=
  match fuel with
  | O => s
  | S fuel =>
      match list_find (λ r, r `prefix_of` s) runes with
      | Some (_, r) => trim_prefixes fuel runes (drop (length r) s)
      | None => s
      end
  end.

(** [strings.TrimSpace(s)]: drop the space runes in front, then those behind.
    Every turn drops at least one byte, so [length s] turns are enough. *)
Definition strings_TrimSpace (s : gostring) : gostring :=
  let s := trim_prefixes (length s) space_runes s in
  reverse (trim_prefixes (length s) (map reverse space_runes) (reverse s)).

(** ** Decimal numbers *)

Definition is_digit (c : ascii) : bool := (48 <=? N_of_ascii c)%N && (N_of_ascii c <=? 57)%N.

Definition digit_val (c : ascii) : Z := Z.of_N (N_of_ascii c) - 48.

Definition digit_char (d : Z) : ascii := ascii_of_N (Z.to_N (d + 48)).

Fixpoint dec_digits (fuel : nat) (n : Z) : gostring :=
  match fuel with
  | O => []
  | S fuel =>
      if n <? 10 then [digit_char n]
      else dec_digits fuel (n / 10) ++ [digit_char (n mod 10)]
  end.

(** The digits of a non-negative number. A division by 10 takes off at least
    one bit, so [log2 n + 1] digits are enough. *)
Definition udec (n : Z) : gostring := dec_digits (S (Z.to_nat (Z.log2 n))) n.

(** [strconv.Itoa(v)], and [fmt.Sprintf("%d", v)] *)
Definition strconv_Itoa (v : Z) : gostring :=
  if v <? 0 then "-"%char :: udec (- v) else udec v.

Definition zero_pad (width : Z) (s : gostring) : gostring :=
  replicate (Z.to_nat (width - Z.of_nat (length s))) "0"%char ++ s.

(** [fmt.Sprintf("%0*d", width, v)]: zeros go between the sign and the digits. *)
Definition fmt_0d (width v : Z) : gostring :=
  if v <? 0 then "-"%char :: zero_pad (width - 1) (udec (- v)) else zero_pad width (udec v).

Fixpoint atoi_digits (acc : Z) (s : gostring) : option Z :=
  match s with
  | [] => Some acc
  | c :: s => if is_digit c then atoi_digits (acc * 10 + digit_val c) s else None
  end.

(** [strconv.Atoi(s)]: an optional sign, at least one digit, nothing else, and
    a value an [int] holds. *)
Definition strconv_Atoi (s : gostring) : outcome Z :=
  let '(neg, body) :=
    match s with
    | "-"%char :: r => (true, r)
    | "+"%char :: r => (false, r)
    | _ => (false, s)
    end in
  match body with
  | [] => Err (Errorf "invalid syntax")
  | _ =>
      match atoi_digits 0 body with
      | None => Err (Errorf "invalid syntax")
      | Some v =>
          let v := if (neg : bool) then - v else v in
          if (MinInt64 <=? v) && (v <=? MaxInt64) then Ret v
          else Err (Errorf "value out of range")
      end
  end.

(** ** Order on strings *)

Fixpoint str_leb (a b : gostring) : bool :=
  match a, b with
  | [], _ => true
  | _ :: _, [] => false
  | x :: a, y :: b =>
      (N_of_ascii x <? N_of_ascii y)%N
      || ((N_of_ascii x =? N_of_ascii y)%N && str_leb a b)
  end.

Definition str_le (a b : gostring) : Prop := str_leb a b = true.

#[export] Instance str_le_dec : RelDecision str_le.
Proof. intros a b. unfold str_le. apply _. Defined.

Definition str_ltb (a b : gostring) : bool := negb (str_leb b a).

(** The order by a key, as [sort.Slice] takes it. *)
Definition name_less {A} (name : A → gostring) (a b : A) : bool := str_ltb (name a) (name b).

(** [sort.Strings(l)]: the order is total and antisymmetric, so any sorting
    algorithm gives this list ([sort_Strings_unique]). *)
Definition sort_Strings (l : list gostring) : list gostring := merge_sort str_le l.

(** [unicode_ToLower] is [strings.ToLower] of a text with a byte above 127. *)
Class UnicodeLower := unicode_ToLower : gostring → gostring.

Definition lower_byte (c : ascii) : ascii :=
  let n := N_of_ascii c in
  if (65 <=? n)%N && (n <=? 90)%N then ascii_of_N (n + 32) else c.

Definition is_ascii (s : gostring) : bool := forallb (λ c, (N_of_ascii c <? 128)%N) s.

Definition strings_ToLower `{UnicodeLower} (s : gostring) : gostring :=
  if is_ascii s then map lower_byte s else unicode_ToLower s.

(** ** Lemmas: order *)

#[export] Instance str_le_total : Total str_le.
Proof.
  unfold str_le. intros a. induction a as [|x a IH]; intros [|y b]; simpl; [auto..|].
  destruct (N.ltb_spec (N_of_ascii x) (N_of_ascii y)); [auto|].
  destruct (N.ltb_spec (N_of_ascii y) (N_of_ascii x)); [auto|].
  assert (N_of_ascii x = N_of_ascii y) as -> by lia. rewrite N.eqb_refl. apply IH.
Qed.

#[export] Instance str_le_trans : Transitive str_le.
Proof.
  unfold str_le. intros a. induction a as [|x a IH]; intros [|y b] [|z c]; simpl; try done.
  intros [?|[? ?]%andb_true_iff]%orb_true_iff [?|[? ?]%andb_true_iff]%orb_true_iff;
    apply orb_true_iff; rewrite ?andb_true_iff, ?N.ltb_lt, ?N.eqb_eq in *; [left; lia..|].
  right. split; [lia|eauto].
Qed.

#[export] Instance str_le_antisymm : AntiSymm (=) str_le.
Proof.
  unfold str_le. intros a. induction a as [|x a IH]; intros [|y b]; simpl; try done.
  intros [?|[? ?]%andb_true_iff]%orb_true_iff [?|[? ?]%andb_true_iff]%orb_true_iff;
    rewrite ?N.ltb_lt, ?N.eqb_eq in *; [lia..|]. f_equal; [|eauto].
  rewrite <-(ascii_N_embedding x), <-(ascii_N_embedding y). congruence.
Qed.

#[export] Instance str_le_refl : Reflexive str_le.
Proof. intros a. by destruct (str_le_total a a). Qed.

Lemma sort_Strings_perm l : sort_Strings l ≡ₚ l.
Proof. apply merge_sort_Permutation. Qed.

Lemma sort_Strings_sorted l : StronglySorted str_le (sort_Strings l).
Proof. apply StronglySorted_merge_sort; apply _. Qed.

(** A sorted permutation is the one [sort.Strings] returns. *)
Lemma sort_Strings_unique l l' :
  StronglySorted str_le l' → l' ≡ₚ l → l' = sort_Strings l.
Proof.
  intros Hs Hp. apply (StronglySorted_unique str_le); [done|apply sort_Strings_sorted|].
  by rewrite sort_Strings_perm.
Qed.

#[export] Instance sort_Strings_Proper : Proper ((≡ₚ) ==> (=)) sort_Strings.
Proof.
  intros l l' Hl. apply sort_Strings_unique; [apply sort_Strings_sorted|].
  by rewrite sort_Strings_perm.
Qed.

Lemma elem_of_sort_Strings x l : x ∈ sort_Strings l ↔ x ∈ l.
Proof. by rewrite sort_Strings_perm. Qed.

Lemma NoDup_sort_Strings l : NoDup (sort_Strings l) ↔ NoDup l.
Proof. by rewrite sort_Strings_perm. Qed.

#[export] Hint Resolve sort_Strings_perm sort_Strings_sorted : go.

Lemma NoDup_key_inj {A B} (f : A → B) (l : list A) x y :
  NoDup (map f l) → x ∈ l → y ∈ l → f x = f y → x = y.
Proof.
  intros Hnd [i Hi]%list_elem_of_lookup [j Hj]%list_elem_of_lookup Heq.
  assert (i = j) as ->; [|congruence].
  eapply NoDup_lookup; [exact Hnd|rewrite list_lookup_fmap, Hi; done|rewrite list_lookup_fmap, Hj; simpl; by rewrite Heq].
Qed.

Lemma str_ltb_le a b : str_ltb a b = true ↔ str_le a b ∧ a ≠ b.
Proof.
  unfold str_ltb. rewrite negb_true_iff. split.
  - intros Hba. split.
    + destruct (str_le_total a b) as [?|Hle]; [done|]. unfold str_le in Hle. congruence.
    + intros ->. pose proof (str_le_refl b) as Hr. unfold str_le in Hr. congruence.
  - intros [Hab Hne]. apply not_true_iff_false. intros Hba. by apply Hne, (anti_symm str_le).
Qed.

Lemma str_ltb_strict : StrictOrder (λ a b, str_ltb a b = true).
Proof.
  split.
  - intros a [_ ?]%str_ltb_le. done.
  - intros a b c [L1 N1]%str_ltb_le [L2 N2]%str_ltb_le. apply str_ltb_le. split; [by etrans|].
    intros ->. by apply N1, (anti_symm str_le).
Qed.

Lemma str_ltb_total a b : str_ltb a b = true ∨ a = b ∨ str_ltb b a = true.
Proof.
  destruct (decide (a = b)); [auto|]. rewrite !str_ltb_le. destruct (str_le_total a b); naive_solver.
Qed.

Lemma sort_by_name `{GoSort} {A} (name : A → gostring) (l : list A) :
  NoDup (map name l) → StronglySorted (λ a b, name_less name a b = true) (sort_slice (name_less name) l).
Proof.
  intros Hnd. destruct str_ltb_strict as [Hirr Htr]. apply sort_slice_strict.
  - by eapply NoDup_fmap_1.
  - split; [intros a; apply Hirr|intros a b c; apply Htr].
  - intros a b Ha Hb. unfold name_less. destruct (str_ltb_total (name a) (name b)) as [?|[?|?]]; auto.
    right. left. by eapply NoDup_key_inj.
Qed.

(** ** Lemmas: searching and cutting *)

Lemma IndexByte_Some s c i :
  strings_IndexByte s c = Some i →
  s = take i s ++ c :: drop (S i) s ∧ c ∉ take i s ∧ (i < length s)%nat.
Proof.
  revert i. induction s as [|x s IH]; intros i; simpl; [done|].
  case_decide as Hx; [intros [= <-]; subst; split_and!; [done|apply not_elem_of_nil|simpl; lia]|].
  intros (j & Hj & ->)%fmap_Some. destruct (IH j Hj) as (Hs & Hn & Hl). split_and!; simpl.
  - by f_equal.
  - by rewrite not_elem_of_cons.
  - lia.
Qed.

Lemma IndexByte_None s c : strings_IndexByte s c = None ↔ c ∉ s.
Proof.
  induction s as [|x s IH]; simpl; [split; [intros _; apply not_elem_of_nil|done]|].
  rewrite not_elem_of_cons, <-IH. case_decide; [naive_solver|].
  rewrite fmap_None. naive_solver.
Qed.

Lemma IndexByte_app s c s' :
  c ∉ s → strings_IndexByte (s ++ c :: s') c = Some (length s).
Proof.
  induction s as [|x s IH]; simpl; [by rewrite decide_True|].
  rewrite not_elem_of_cons. intros [? ?]. rewrite decide_False by done.
  by rewrite IH.
Qed.

Lemma TrimSuffix_app s suffix : strings_TrimSuffix (s ++ suffix) suffix = s.
Proof.
  unfold strings_TrimSuffix, strings_HasSuffix. rewrite bool_decide_true by (by exists s).
  rewrite length_app. replace (length s + length suffix - length suffix)%nat with (length s) by lia. apply take_app_length.
Qed.

Lemma Cut_app s c s' : c ∉ s → strings_Cut (s ++ c :: s') c = Some (s, s').
Proof.
  intros Hc. unfold strings_Cut. rewrite IndexByte_app by done. simpl. rewrite take_app_length, drop_app_ge by lia.
  by replace (S (length s) - length s)%nat with 1%nat by lia.
Qed.

Lemma strings_HasPrefix_spec s p : strings_HasPrefix s p = true ↔ p `prefix_of` s.
Proof. apply bool_decide_eq_true. Qed.

Lemma strings_Split_nonempty s c : strings_Split s c ≠ [].
Proof. destruct s; simpl; [done|]. case_decide; [done|]. by destruct (strings_Split _ _). Qed.

Lemma strings_Split_no_sep s c : c ∉ s → strings_Split s c = [s].
Proof.
  induction s as [|x s IH]; simpl; [done|]. rewrite not_elem_of_cons. intros [? ?].
  rewrite decide_False, IH by done. done.
Qed.

Lemma strings_Split_app s c s' :
  c ∉ s → strings_Split (s ++ c :: s') c = s :: strings_Split s' c.
Proof.
  induction s as [|x s IH]; simpl; [by rewrite decide_True|].
  rewrite not_elem_of_cons. intros [? ?]. rewrite decide_False, IH by done. done.
Qed.

(** Splitting undoes joining, for parts without the separator. *)
Lemma strings_Split_Join l c :
  l ≠ [] → Forall (λ s, c ∉ s) l → strings_Split (strings_Join l [c]) c = l.
Proof.
  intros Hne Hl. induction Hl as [|s l Hs Hl IH]; [done|].
  destruct l as [|s' l]; [by apply strings_Split_no_sep|].
  change (strings_Join (s :: s' :: l) [c]) with (s ++ c :: strings_Join (s' :: l) [c]).
  rewrite strings_Split_app by done. f_equal. by apply IH.
Qed.

(** ** Lemmas: trimming *)

(** A byte that neither starts nor ends the encoding of a space. *)
Definition solid (c : ascii) : bool :=
  (33 <=? N_of_ascii c)%N && (N_of_ascii c <=? 126)%N.

Definition no_solid_front (r : gostring) : bool :=
  match r with x :: _ => negb (solid x) | [] => false end.

Lemma trim_prefixes_solid fuel runes c s :
  forallb no_solid_front runes = true →
  solid c = true → trim_prefixes fuel runes (c :: s) = c :: s.
Proof.
  intros Hr Hc. destruct fuel as [|fuel]; [done|]. cbn [trim_prefixes].
  destruct (list_find _ runes) as [[i r]|] eqn:Hf; [|done].
  apply list_find_Some in Hf as (Hi & [k Hk] & _).
  rewrite forallb_forall in Hr.
  assert (no_solid_front r = true) as Hx.
  { apply Hr, list_elem_of_In. by eapply list_elem_of_lookup_2. }
  destruct r as [|x r]; [done|]. simpl in Hx, Hk. injection Hk as -> _.
  by rewrite Hc in Hx.
Qed.

Lemma solid_fronts : forallb no_solid_front space_runes = true.
Proof. reflexivity. Qed.

Lemma solid_backs : forallb no_solid_front (map reverse space_runes) = true.
Proof. reflexivity. Qed.

(** Trimming leaves a string alone when its end bytes are no space bytes. *)
Lemma TrimSpace_solid_ends c s d :
  solid c = true → solid d = true →
  strings_TrimSpace (c :: s ++ [d]) = c :: s ++ [d].
Proof.
  intros Hc Hd. unfold strings_TrimSpace.
  rewrite (trim_prefixes_solid _ _ c) by (done || apply solid_fronts).
  assert (reverse (c :: s ++ [d]) = d :: reverse (c :: s)) as Hrev.
  { by rewrite app_comm_cons, reverse_app. }
  rewrite Hrev, (trim_prefixes_solid _ _ d) by (done || apply solid_backs).
  by rewrite <-Hrev, reverse_involutive.
Qed.

Lemma TrimSpace_solid s : Forall (λ c, solid c = true) s → strings_TrimSpace s = s.
Proof.
  intros Hs. destruct s as [|c s]; [done|].
  destruct s as [|d s] using rev_ind.
  - inversion Hs as [|?? Hc _]; subst. unfold strings_TrimSpace.
    rewrite (trim_prefixes_solid _ _ c) by (done || apply solid_fronts).
    change (reverse [c]) with [c].
    by rewrite (trim_prefixes_solid _ _ c) by (done || apply solid_backs).
  - apply Forall_cons in Hs as [Hc Hs]. apply Forall_app in Hs as [_ Hd].
    apply TrimSpace_solid_ends; [done|]. by inversion Hd.
Qed.

(** ** Lemmas: decimal numbers *)

Lemma digit_char_spec d :
  0 ≤ d ≤ 9 → is_digit (digit_char d) = true ∧ digit_val (digit_char d) = d.
Proof.
  intros Hd. unfold is_digit, digit_val, digit_char.
  rewrite N_ascii_embedding by lia. split; [apply andb_true_iff; split; apply N.leb_le; lia|lia].
Qed.

Lemma is_digit_solid c : is_digit c = true → solid c = true.
Proof.
  unfold is_digit, solid. rewrite !andb_true_iff, !N.leb_le. lia.
Qed.

Lemma atoi_digits_app acc s s' :
  atoi_digits acc (s ++ s') = (v ← atoi_digits acc s; atoi_digits v s').
Proof.
  revert acc. induction s as [|c s IH]; intros acc; simpl; [done|].
  by destruct (is_digit c).
Qed.

Lemma dec_digits_spec fuel n :
  0 ≤ n → (Z.to_nat (Z.log2 n) < fuel)%nat →
  let s := dec_digits fuel n in
  s ≠ [] ∧ Forall (λ c, is_digit c = true) s ∧
  (∀ acc, atoi_digits acc s = Some (acc * 10 ^ Z.of_nat (length s) + n)) ∧
  (∀ r, s = "0"%char :: r → n = 0 ∧ r = []).
Proof.
  revert n. induction fuel as [|fuel IH]; intros n Hn Hf; [lia|]. cbn [dec_digits].
  destruct (Z.ltb_spec n 10).
  - destruct (digit_char_spec n) as [Hd Hv]; [lia|]. split_and!; [done|by repeat constructor|..].
    + intros acc. cbn [atoi_digits]. rewrite Hd, Hv. reflexivity.
    + intros r [= Hc <-]. split; [|done]. rewrite <-Hv, Hc. reflexivity.
  - assert (0 < n / 10) by (apply Z.div_str_pos; lia).
    assert (n / 10 * 2 ≤ n) by (pose proof (Z.mul_div_le n 10); lia).
    assert (Z.log2 (n / 10) + 1 ≤ Z.log2 n).
    { pose proof (Z.log2_double (n / 10)). pose proof (Z.log2_le_mono (2 * (n / 10)) n). lia. }
    pose proof (Z.log2_nonneg (n / 10)).
    destruct (IH (n / 10)) as (Hne & Hall & Hval & Hz); [lia..|].
    destruct (digit_char_spec (n mod 10)) as [Hd Hv]; [pose proof (Z.mod_pos_bound n 10); lia|].
    split_and!.
    + by destruct (dec_digits fuel (n / 10)).
    + apply Forall_app. split; [done|]. by repeat constructor.
    + intros acc. rewrite atoi_digits_app, Hval. cbn [mbind option_bind atoi_digits].
      rewrite Hd, Hv, length_app. cbn [length].
      rewrite Nat.add_1_r, Nat2Z.inj_succ, Z.pow_succ_r by lia. f_equal.
      pose proof (Z.div_mod n 10). lia.
    + intros r Hr. destruct (dec_digits fuel (n / 10)) as [|c l] eqn:Hl; [done|].
      injection Hr as -> _. destruct (Hz l eq_refl). lia.
Qed.

Lemma udec_spec n :
  0 ≤ n →
  udec n ≠ [] ∧ Forall (λ c, is_digit c = true) (udec n) ∧
  (∀ acc, atoi_digits acc (udec n) = Some (acc * 10 ^ Z.of_nat (length (udec n)) + n)) ∧
  (∀ r, udec n = "0"%char :: r → n = 0 ∧ r = []).
Proof. intros Hn. apply dec_digits_spec; lia. Qed.

Lemma atoi_digits_zeros k s : atoi_digits 0 (replicate k "0"%char ++ s) = atoi_digits 0 s.
Proof. by induction k. Qed.

Lemma zero_pad_digits w n :
  0 ≤ n →
  zero_pad w (udec n) ≠ [] ∧ Forall (λ c, is_digit c = true) (zero_pad w (udec n)) ∧
  atoi_digits 0 (zero_pad w (udec n)) = Some n.
Proof.
  intros Hn. destruct (udec_spec n Hn) as (Hne & Hd & Hv & _). unfold zero_pad. split_and!.
  - by destruct (udec n), (replicate _ _).
  - apply Forall_app. split; [|done]. by apply Forall_replicate.
  - by rewrite atoi_digits_zeros, Hv.
Qed.

(** A digit string is no signed string: [Atoi] reads all of it. *)
Lemma Atoi_digits s v :
  s ≠ [] → Forall (λ c, is_digit c = true) s → atoi_digits 0 s = Some v →
  0 ≤ v ≤ MaxInt64 → strconv_Atoi s = Ret v.
Proof.
  intros Hne Hd Hv Hr. destruct s as [|c s]; [done|].
  assert (c ≠ "-"%char ∧ c ≠ "+"%char) as [Hm Hp].
  { apply Forall_cons in Hd as [Hc _]. split; intros ->; discriminate Hc. }
  assert (strconv_Atoi (c :: s) =
          match atoi_digits 0 (c :: s) with
          | None => Err (Errorf "invalid syntax")
          | Some v => if (MinInt64 <=? v) && (v <=? MaxInt64) then Ret v
                      else Err (Errorf "value out of range")
          end) as ->.
  { unfold strconv_Atoi. by destruct c as [[] [] [] [] [] [] [] []]. }
  rewrite Hv. destruct (Z.leb_spec MinInt64 v), (Z.leb_spec v MaxInt64); i64_lia || done.
Qed.

Lemma Atoi_fmt_0d w v : 0 ≤ v ≤ MaxInt64 → strconv_Atoi (fmt_0d w v) = Ret v.
Proof.
  intros Hv. unfold fmt_0d. destruct (Z.ltb_spec v 0); [lia|].
  destruct (zero_pad_digits w v) as (? & ? & ?); [lia|]. by apply Atoi_digits.
Qed.

Lemma zero_pad_0 s w : w ≤ 0 → zero_pad w s = s.
Proof. intros. unfold zero_pad. by replace (Z.to_nat _) with O by lia. Qed.

(** [%d] is [%0*d] without a width. *)
Lemma fmt_0d_Itoa w v : w ≤ 0 → fmt_0d w v = strconv_Itoa v.
Proof. intros. unfold fmt_0d, strconv_Itoa. by rewrite !zero_pad_0 by lia. Qed.

Lemma Itoa_digits n : 0 ≤ n → strconv_Itoa n = udec n.
Proof. intros Hn. unfold strconv_Itoa. by rewrite (proj2 (Z.ltb_ge _ _)). Qed.

Lemma udec_not_in c n : 0 ≤ n → is_digit c = false → c ∉ udec n.
Proof.
  intros Hn Hc. destruct (udec_spec n) as (_ & Hall & _); [done|].
  intros Hin. rewrite Forall_forall in Hall. apply Hall in Hin. congruence.
Qed.

Lemma Itoa_not_in c v : is_digit c = false → c ≠ "-"%char → c ∉ strconv_Itoa v.
Proof.
  intros Hc Hm. unfold strconv_Itoa. destruct (Z.ltb_spec v 0) as [Hv|Hv]; [|by apply udec_not_in].
  rewrite not_elem_of_cons. split; [done|]. apply udec_not_in; [lia|done].
Qed.

Lemma Atoi_Itoa v : 0 ≤ v ≤ MaxInt64 → strconv_Atoi (strconv_Itoa v) = Ret v.
Proof. rewrite <-(fmt_0d_Itoa 0 v) by done. apply Atoi_fmt_0d. Qed.

(** What [Atoi] returns when the string has no minus sign is not negative. *)
Lemma atoi_digits_nonneg acc s v : 0 ≤ acc → atoi_digits acc s = Some v → 0 ≤ v.
Proof.
  revert acc. induction s as [|c s IH]; intros acc Hacc; simpl; [naive_solver|].
  destruct (is_digit c) eqn:Hc; [|done]. apply IH.
  unfold is_digit in Hc. rewrite andb_true_iff, !N.leb_le in Hc. unfold digit_val. lia.
Qed.

Lemma Atoi_Ret s v :
  strconv_Atoi s = Ret v → in_i64 v ∧ ("-"%char ∉ s → 0 ≤ v).
Proof.
  unfold strconv_Atoi.
  destruct (match s with "-"%char :: r => (true, r) | "+"%char :: r => (false, r) | _ => (false, s) end)
    as [neg body] eqn:Hs.
  destruct body as [|c body]; [done|]. destruct (atoi_digits 0 _) as [u|] eqn:Hu; [|done].
  apply atoi_digits_nonneg in Hu; [|lia].
  destruct (Z.leb_spec MinInt64 (if neg then - u else u)),
    (Z.leb_spec (if neg then - u else u) MaxInt64); simpl; intros [= <-].
  split; [done|]. intros Hm. destruct neg; [|done]. exfalso. apply Hm.
  destruct s as [|[[] [] [] [] [] [] [] []] s]; try discriminate Hs. left.
Qed.

Lemma dec_digits_length fuel n :
  0 ≤ n → (Z.to_nat (Z.log2 n) < fuel)%nat →
  let k := Z.of_nat (length (dec_digits fuel n)) in
  1 ≤ k ∧ n < 10 ^ k ∧ (n = 0 → k = 1) ∧ (0 < n → 10 ^ (k - 1) ≤ n).
Proof.
  revert n. induction fuel as [|fuel IH]; intros n Hn Hf; [lia|]. cbn [dec_digits].
  destruct (Z.ltb_spec n 10).
  - simpl. lia.
  - assert (0 < n / 10) by (apply Z.div_str_pos; lia).
    pose proof (Z.log2_double (n / 10)). pose proof (Z.log2_nonneg (n / 10)).
    pose proof (Z.log2_le_mono (2 * (n / 10)) n). pose proof (Z.mul_div_le n 10).
    pose proof (Z.div_mod n 10). pose proof (Z.mod_pos_bound n 10).
    destruct (IH (n / 10)) as (? & Hlt & _ & Hge); [lia..|].
    rewrite length_app, Nat.add_1_r, Nat2Z.inj_succ.
    set (k := Z.of_nat (length (dec_digits fuel (n / 10)))) in *.
    split_and!; [lia| |lia|].
    + rewrite Z.pow_succ_r by lia. lia.
    + intros _. replace (Z.succ k - 1) with (Z.succ (k - 1)) by lia.
      rewrite Z.pow_succ_r by lia. lia.
Qed.

(** The larger number has at least as many digits. *)
Lemma udec_length_mono a b : 0 ≤ a ≤ b → (length (udec a) ≤ length (udec b))%nat.
Proof.
  intros Hab.
  destruct (dec_digits_length (S (Z.to_nat (Z.log2 a))) a) as (Ha1 & _ & Ha0 & Ha); [lia..|].
  destruct (dec_digits_length (S (Z.to_nat (Z.log2 b))) b) as (Hb1 & Hb & _); [lia..|].
  fold (udec a) (udec b) in *. destruct (decide (a = 0)); [lia|].
  apply Nat2Z.inj_le. destruct (Z.le_gt_cases (Z.of_nat (length (udec a))) (Z.of_nat (length (udec b))))
    as [|Hlt]; [done|].
  assert (10 ^ Z.of_nat (length (udec b)) ≤ 10 ^ (Z.of_nat (length (udec a)) - 1)).
  { apply Z.pow_le_mono_r; lia. } lia.
Qed.

(** A padded number of at least the width is the number. *)
Lemma zero_pad_long w s : w ≤ Z.of_nat (length s) → zero_pad w s = s.
Proof. intros. unfold zero_pad. by replace (Z.to_nat _) with O by lia. Qed.

Lemma length_zero_pad w s : Z.of_nat (length s) ≤ w → Z.of_nat (length (zero_pad w s)) = w.
Proof. intros. unfold zero_pad. rewrite length_app, length_replicate. lia. Qed.

Lemma digits_no_char c s :
  is_digit c = false → Forall (λ x, is_digit x = true) s → c ∉ s.
Proof. rewrite Forall_forall. intros Hc Hs Hin. apply Hs in Hin. congruence. Qed.

Lemma digits_solid s : Forall (λ c, is_digit c = true) s → Forall (λ c, solid c = true) s.
Proof. intros. eapply Forall_impl; [done|]. apply is_digit_solid. Qed.

#[export] Hint Resolve digits_no_char digits_solid : go.
