(* ===== verification/GoFloat.v ===== *)
(** * float64

    Costs and impedances are IEEE 754 binary64 numbers: [spec_float] with 53 bits
    of precision, the Standard Library's reference semantics. Comparisons with
    NaN are false; on numbers [<] is a strict weak order (both zeros are equal). *)

From Stdlib Require Export Floats.SpecFloat.
From stdpp Require Import base numbers strings sorting list.
From S2P Require Import Prelude.

Open Scope Z_scope.

Abbreviation float64 := spec_float.

Definition f64_add (x y : float64) : float64 := SFadd 53 1024 x y.
Definition f64_sub (x y : float64) : float64 := SFsub 53 1024 x y.
Definition f64_mul (x y : float64) : float64 := SFmul 53 1024 x y.
Definition f64_div (x y : float64) : float64 := SFdiv 53 1024 x y.

(** [x < y], [x <= y], [x == y] *)
Definition f64_ltb (x y : float64) : bool := SFltb x y.
Definition f64_leb (x y : float64) : bool := SFleb x y.
Definition f64_eqb (x y : float64) : bool := SFeqb x y.

(** [float64(n)] *)
Definition f64_of_Z (n : Z) : float64 := binary_normalize 53 1024 n 0 false.

(** The constant [n / d], correctly rounded (a Go literal such as 0.5 or 1.5
    whose value is a quotient of two exact integers). *)
Definition f64_ratio (n d : Z) : float64 := f64_div (f64_of_Z n) (f64_of_Z d).

Definition is_nan (x : float64) : bool := match x with S754_nan => true | _ => false end.

#[export] Instance float64_eq_dec : EqDecision float64.
Proof. solve_decision. Defined.

(** The order of the numbers as a key: sign and magnitude, zeros alike. *)
Inductive rank := NegInf | Neg (e : Z) (m : positive) | Zero | Pos (e : Z) (m : positive) | PosInf.

Definition f64_rank (x : float64) : option rank :=
  match x with
  | S754_nan => None
  | S754_infinity true => Some NegInf
  | S754_infinity false => Some PosInf
  | S754_zero _ => Some Zero
  | S754_finite true m e => Some (Neg e m)
  | S754_finite false m e => Some (Pos e m)
  end.

(** A lexicographic code of a rank: the order of numbers is the order of codes. *)
Definition rank_code (r : rank) : Z * Z * Z :=
  match r with
  | NegInf => (-2, 0, 0)
  | Neg e m => (-1, - e, - Z.pos m)
  | Zero => (0, 0, 0)
  | Pos e m => (1, e, Z.pos m)
  | PosInf => (2, 0, 0)
  end.

Definition code_lt (a b : Z * Z * Z) : Prop :=
  let '(a1, a2, a3) := a in
  let '(b1, b2, b3) := b in
  a1 < b1 ∨ a1 = b1 ∧ (a2 < b2 ∨ a2 = b2 ∧ a3 < b3).

(** [x < y] for numbers. *)
Definition f64_lt (x y : float64) : Prop :=
  match f64_rank x, f64_rank y with
  | Some a, Some b => code_lt (rank_code a) (rank_code b)
  | _, _ => False
  end.

(** ** Lemmas *)

Lemma f64_ltb_lt x y : f64_ltb x y = true ↔ f64_lt x y.
Proof.
  unfold f64_ltb, SFltb, f64_lt.
  destruct x as [s|[]| |[] m e], y as [s'|[]| |[] m' e']; simpl;
    try (split; (done || lia)).
  - change (Pos.compare_cont Eq m m') with (Pos.compare m m').
    destruct (Z.compare_spec e e'), (Pos.compare_spec m m'); simpl; split; (done || lia).
  - change (Pos.compare_cont Eq m m') with (Pos.compare m m').
    destruct (Z.compare_spec e e'), (Pos.compare_spec m m'); simpl; split; (done || lia).
Qed.

Lemma code_lt_trans a b c : code_lt a b → code_lt b c → code_lt a c.
Proof. destruct a as [[??]?], b as [[??]?], c as [[??]?]. simpl. lia. Qed.

Lemma code_lt_cotrans a b c : code_lt a b → code_lt a c ∨ code_lt c b.
Proof. destruct a as [[??]?], b as [[??]?], c as [[??]?]. simpl. lia. Qed.

Lemma f64_ltb_irrefl x : f64_ltb x x = false.
Proof.
  apply not_true_iff_false. rewrite f64_ltb_lt. unfold f64_lt.
  destruct (f64_rank x) as [r|]; [|tauto]. destruct (rank_code r) as [[??]?]. simpl. lia.
Qed.

Lemma f64_ltb_trans x y z : f64_ltb x y = true → f64_ltb y z = true → f64_ltb x z = true.
Proof.
  rewrite !f64_ltb_lt. unfold f64_lt.
  destruct (f64_rank x), (f64_rank y), (f64_rank z); try done. apply code_lt_trans.
Qed.

Lemma f64_ltb_asym x y : f64_ltb x y = true → f64_ltb y x = false.
Proof.
  intros H. apply not_true_iff_false. intros H'.
  pose proof (f64_ltb_trans _ _ _ H H') as E. by rewrite f64_ltb_irrefl in E.
Qed.

Lemma f64_ltb_cotrans x y z :
  is_nan z = false → f64_ltb x y = true → f64_ltb x z = true ∨ f64_ltb z y = true.
Proof.
  intros Hz. rewrite !f64_ltb_lt. unfold f64_lt.
  assert (is_Some (f64_rank z)) as [r ->] by (destruct z as [|[]| |[]]; simpl in *; eauto; done).
  destruct (f64_rank x), (f64_rank y); try done. apply code_lt_cotrans.
Qed.

(** On numbers, not less and not less back is the total preorder [<=]. *)
Lemma f64_ltb_ge_trans x y z :
  is_nan y = false → f64_ltb y x = false → f64_ltb z y = false → f64_ltb z x = false.
Proof.
  intros Hy H1 H2. apply not_true_iff_false. intros H.
  destruct (f64_ltb_cotrans z x y Hy H); congruence.
Qed.

Lemma f64_ltb_strict_weak {A} (key : A → float64) (l : list A) :
  Forall (λ a, is_nan (key a) = false) l → strict_weak (λ a b, f64_ltb (key a) (key b)) l.
Proof.
  rewrite Forall_forall. intros Hn. split.
  - intros a _. apply f64_ltb_irrefl.
  - intros a b c _ _ _. apply f64_ltb_trans.
  - intros a b c _ _ Hc. apply f64_ltb_cotrans. auto.
Qed.

(** ** Lemmas: which operations give numbers *)

(** A number of sign [s] (a zero of any sign counts). *)
Definition has_sign (s : bool) (x : float64) : Prop :=
  match x with
  | S754_zero _ => True
  | S754_finite s' _ _ | S754_infinity s' => s' = s
  | S754_nan => False
  end.

Definition is_finite (x : float64) : bool :=
  match x with S754_zero _ | S754_finite _ _ _ => true | _ => false end.

Lemma has_sign_not_nan s x : has_sign s x → is_nan x = false.
Proof. by destruct x. Qed.

Lemma shr_nonneg mrs e n : 0 ≤ shr_m mrs → 0 ≤ shr_m (fst (shr mrs e n)).
Proof.
  intros H. destruct n as [|p|p]; simpl; try done. revert mrs H.
  assert (∀ mrs, 0 ≤ shr_m mrs → 0 ≤ shr_m (shr_1 mrs)) as H1.
  { intros [[|[p'|p'|]|p'] r s]; simpl; lia. }
  induction p as [p IH|p IH|]; intros mrs H; simpl; auto.
Qed.

Lemma shr_fexp_nonneg m e l : 0 ≤ m → 0 ≤ shr_m (fst (shr_fexp 53 1024 m e l)).
Proof. intros H. unfold shr_fexp. apply shr_nonneg. by destruct l as [|[]]. Qed.

Lemma binary_round_aux_sign s m e l : 0 ≤ m → has_sign s (binary_round_aux 53 1024 s m e l).
Proof.
  intros Hm. unfold binary_round_aux.
  pose proof (shr_fexp_nonneg m e l Hm) as H1. destruct (shr_fexp 53 1024 m e l) as [mrs e1]. simpl in H1.
  set (m1 := round_nearest_even _ _).
  assert (0 ≤ m1) as H2.
  { unfold m1, round_nearest_even. destruct (loc_of_shr_record mrs) as [|[]]; repeat case_match; lia. }
  pose proof (shr_fexp_nonneg m1 e1 loc_Exact H2) as H3.
  destruct (shr_fexp 53 1024 m1 e1 loc_Exact) as [mrs2 e2]. simpl in H3.
  destruct (shr_m mrs2) as [|p|p]; simpl; [done| |lia]. by destruct (_ <=? _).
Qed.

Lemma binary_round_sign s m e : has_sign s (binary_round 53 1024 s m e).
Proof.
  unfold binary_round. destruct (shl_align _ _ _) as [mz ez]. apply binary_round_aux_sign. lia.
Qed.

Lemma binary_normalize_sign m e z : 0 ≤ m → has_sign false (binary_normalize 53 1024 m e z).
Proof. intros H. destruct m; simpl; [done|apply binary_round_sign|lia]. Qed.

Lemma f64_mul_sign x y :
  has_sign false x → is_finite x = true → has_sign false y → is_finite y = true →
  has_sign false (f64_mul x y).
Proof.
  unfold f64_mul. destruct x as [| | |[]], y as [| | |[]]; simpl; try done.
  intros _ _ _ _. apply (binary_round_aux_sign false). lia.
Qed.

(** Times a positive number: an infinity stays one. *)
Lemma f64_mul_pos_sign x m e : has_sign false x → has_sign false (f64_mul x (S754_finite false m e)).
Proof.
  unfold f64_mul. destruct x as [|[]| |[]]; simpl; try done.
  intros _. apply (binary_round_aux_sign false). lia.
Qed.

Lemma f64_add_sign x y : has_sign false x → has_sign false y → has_sign false (f64_add x y).
Proof.
  unfold f64_add. destruct x as [[]|[]| |[]], y as [[]|[]| |[]]; simpl; try done.
  intros _ _. apply binary_round_sign.
Qed.

Lemma div_core_nonneg m1 e1 m2 e2 : 0 ≤ fst (fst (SFdiv_core_binary 53 1024 (Z.pos m1) e1 (Z.pos m2) e2)).
Proof.
  unfold SFdiv_core_binary. cbn zeta.
  match goal with |- context [Z.div_eucl ?a ?b] =>
    assert (0 ≤ a) as Hm; [|pose proof (Z.div_pos a b Hm eq_refl) as Hq; unfold Z.div in Hq;
                            by destruct (Z.div_eucl a b)]
  end.
  case_match; try lia. apply Z.shiftl_nonneg. lia.
Qed.

Lemma f64_div_sign x s m e : has_sign s x → has_sign s (f64_div x (S754_finite false m e)).
Proof.
  unfold f64_div. destruct x as [|s'| |s' m' e']; simpl; try done; intros ->; try by destruct s.
  pose proof (div_core_nonneg m' e' m e) as Hq.
  destruct (SFdiv_core_binary 53 1024 (Z.pos m') e' (Z.pos m) e) as [[q ez] lz].
  rewrite xorb_false_r. by apply binary_round_aux_sign.
Qed.

Lemma f64_div_nan x m e : is_nan (f64_div x (S754_finite false m e)) = is_nan x.
Proof.
  destruct x as [|s| |s m' e']; [done| |done|]; eapply has_sign_not_nan, f64_div_sign; reflexivity.
Qed.

(** A number that is not below zero has a positive sign. *)
Lemma not_negative_sign x : is_nan x = false → f64_ltb x (f64_of_Z 0) = false → has_sign false x.
Proof. by destruct x as [|[]| |[]]. Qed.

Lemma f64_of_Z_not_nan n : is_nan (f64_of_Z n) = false.
Proof.
  unfold f64_of_Z, binary_normalize. destruct n; [done|..]; eapply has_sign_not_nan, binary_round_sign.
Qed.

Lemma f64_mul_nan_l x y : is_nan x = true → is_nan (f64_mul x y) = true.
Proof. by destruct x. Qed.

Lemma f64_add_nan_l x y : is_nan x = true → is_nan (f64_add x y) = true.
Proof. by destruct x. Qed.

Lemma f64_add_nan_r x y : is_nan y = true → is_nan (f64_add x y) = true.
Proof. by destruct x, y. Qed.

Lemma f64_mul_nan_r x y : is_nan y = true → is_nan (f64_mul x y) = true.
Proof. by destruct x, y. Qed.

(** ** Lemmas: integers of 64 bits are finite numbers *)

Lemma digits2_pos_lower p : 2 ^ (Z.pos (digits2_pos p) - 1) ≤ Z.pos p.
Proof.
  induction p as [p IH|p IH|]; cbn [digits2_pos]; [..|done];
    rewrite Pos2Z.inj_succ; replace (Z.succ (Z.pos (digits2_pos p)) - 1) with (Z.succ (Z.pos (digits2_pos p) - 1)) by lia;
    rewrite Z.pow_succ_r by lia; lia.
Qed.

Lemma Zdigits2_le m k : 0 ≤ k → 0 ≤ m < 2 ^ k → Zdigits2 m ≤ k.
Proof.
  intros Hk Hm. destruct m as [|p|p]; simpl; [done| |lia]. pose proof (digits2_pos_lower p) as Hp.
  destruct (decide (Z.pos (digits2_pos p) ≤ k)); [done|]. exfalso.
  assert (2 ^ k ≤ 2 ^ (Z.pos (digits2_pos p) - 1)) by (apply Z.pow_le_mono_r; lia). lia.
Qed.

(** Rounding does not enlarge the mantissa, and the exponent only to fit it. *)
Lemma shr_le mrs e n : 0 ≤ shr_m mrs → shr_m (shr mrs e n).1 ≤ shr_m mrs ∧ (shr mrs e n).2 = Z.max e (e + n).
Proof.
  intros H. destruct n as [|p|p]; simpl; [split; lia| |split; lia]. split; [|lia].
  assert (∀ mrs, 0 ≤ shr_m mrs → 0 ≤ shr_m (shr_1 mrs) ≤ shr_m mrs) as H1.
  { intros [[|[p'|p'|]|p'] r s]; simpl; lia. }
  assert (∀ q mrs, 0 ≤ shr_m mrs → 0 ≤ shr_m (SpecFloat.iter_pos shr_1 q mrs) ≤ shr_m mrs) as Hq; [|by apply Hq].
  clear -H1. intros q. induction q as [q IH|q IH|]; intros mrs H; simpl; [..|auto].
  - pose proof (H1 mrs H) as [H2 ?]. pose proof (IH _ H2) as [H3 ?]. pose proof (IH _ H3). lia.
  - pose proof (IH _ H) as [H3 ?]. pose proof (IH _ H3). lia.
Qed.

Lemma binary_round_aux_finite s m e l : 0 ≤ m < 2 ^ 64 → e ≤ 64 → is_finite (binary_round_aux 53 1024 s m e l) = true.
Proof.
  intros Hm He. unfold binary_round_aux, shr_fexp.
  assert (∀ m l, shr_m (shr_record_of_loc m l) = m) as Hrec by by intros ? [|[]].
  set (n1 := fexp 53 1024 (Zdigits2 m + e) - e).
  destruct (shr_le (shr_record_of_loc m l) e n1) as [Hm1 He1]; [rewrite Hrec; lia|].
  pose proof (shr_nonneg (shr_record_of_loc m l) e n1) as Hn1. rewrite Hrec in *.
  destruct (shr _ _ n1) as [mrs1 e1]. simpl in *.
  set (m2 := round_nearest_even _ _).
  assert (0 ≤ m2 ≤ shr_m mrs1 + 1) as Hm2.
  { unfold m2, round_nearest_even. destruct (loc_of_shr_record mrs1) as [|[]]; repeat case_match; lia. }
  set (n2 := fexp 53 1024 (Zdigits2 m2 + e1) - e1).
  destruct (shr_le (shr_record_of_loc m2 loc_Exact) e1 n2) as [Hm3 He2]; [rewrite Hrec; lia|].
  pose proof (shr_nonneg (shr_record_of_loc m2 loc_Exact) e1 n2) as Hn2. rewrite Hrec in *.
  destruct (shr _ _ n2) as [mrs2 e2]. simpl in *.
  assert (Zdigits2 m ≤ 64) by (apply Zdigits2_le; lia). assert (Zdigits2 m2 ≤ 65) by (apply Zdigits2_le; lia).
  assert (e1 ≤ 128) by (unfold n1, fexp, emin in *; lia). assert (e2 ≤ 200) by (unfold n2, fexp, emin in *; lia).
  destruct (shr_m mrs2) as [|p|p]; simpl; [done| |lia]. by rewrite (proj2 (Z.leb_le _ _)) by lia.
Qed.

Lemma digits2_pos_upper p : Z.pos p < 2 ^ Z.pos (digits2_pos p).
Proof.
  induction p as [p IH|p IH|]; cbn [digits2_pos]; [..|done]; rewrite Pos2Z.inj_succ, Z.pow_succ_r by lia; lia.
Qed.

Lemma shl_align_value p e e' :
  Z.pos (shl_align p e e').1 = Z.pos p * 2 ^ Z.max 0 (e - e') ∧ (shl_align p e e').2 = Z.min e e'.
Proof.
  unfold shl_align. destruct (e' - e) as [|d|d] eqn:Hd; cbn [fst snd].
  1,2: rewrite Z.max_l by lia; lia.
  rewrite Z.max_r by lia. replace (e - e') with (Z.pos d) by lia. split; [|lia].
  clear. induction d as [|d IH] using Pos.peano_ind; [simpl; lia|].
  rewrite Pos.iter_succ, Pos2Z.inj_succ, Z.pow_succ_r by lia. lia.
Qed.

Lemma f64_of_Z_finite n : 0 ≤ n < 2 ^ 64 → is_finite (f64_of_Z n) = true.
Proof.
  intros Hn. unfold f64_of_Z, binary_normalize. destruct n as [|p|p]; [done| |lia].
  unfold binary_round. set (e' := fexp _ _ _).
  pose proof (digits2_pos_upper p) as Hu. pose proof (Zdigits2_le (Z.pos p) 64 ltac:(lia) ltac:(lia)) as Hd. simpl in Hd.
  destruct (shl_align_value p 0 e') as [Hm He]. destruct (shl_align p 0 e') as [m e]. simpl in Hm, He.
  apply binary_round_aux_finite; [|lia].
  assert (e' = Z.pos (digits2_pos p) - 53) as He' by (unfold e', fexp, emin; lia).
  split; [lia|]. rewrite Hm. destruct (decide (0 ≤ e')).
  - rewrite Z.max_l by lia. lia.
  - rewrite Z.max_r by lia. apply Z.lt_le_trans with (2 ^ Z.pos (digits2_pos p) * 2 ^ (0 - e')).
    + apply Z.mul_lt_mono_pos_r; [lia|done].
    + rewrite <-Z.pow_add_r by lia. apply Z.pow_le_mono_r; lia.
Qed.
