(* ===== verification/RangeSet.v ===== *)
(** * Integer range sets: pkg/mesh/nodeset/rangeset.go

    [rangeSet] keeps a set of integers as inclusive ranges. Every arithmetic
    step that the code makes on [int] is taken modulo 2^64 here ([i64]), so the
    invariant carries the bound under which nothing wraps. The group of
    theorems shows that each operation keeps the ranges sorted, disjoint and
    not adjacent, that it computes the set operation its name says, and that
    equal sets have equal range lists. *)

From Stdlib Require Import Ascii.
From stdpp Require Import base numbers gmap strings sorting list.
From S2P Require Import Prelude GoStrings.

Open Scope Z_scope.

(** ** Data *)

Record rang := Rang { r_lo : Z; r_hi : Z }.

Record rangeSet := RangeSet { rs_ranges : list rang; rs_padding : Z }.

#[export] Instance rang_eq_dec : EqDecision rang.
Proof. solve_decision. Defined.

Definition newRangeSet (padding : Z) : rangeSet := RangeSet [] padding.

(** ** Queries *)

Definition rangeSet_Len (rs : rangeSet) : Z :=
  fold_left (λ n r, i64 (n + (r_hi r - r_lo r + 1))) (rs_ranges rs) 0.

Definition rangeSet_IsEmpty (rs : rangeSet) : bool :=
  match rs_ranges rs with [] => true | _ => false end.

Definition rangeSet_Contains (rs : rangeSet) (v : Z) : bool :=
  let ranges := rs_ranges rs in
  let i := sort_search (length ranges)
             (λ i, match ranges !! i with Some r => v <=? r_hi r | None => false end) in
  match ranges !! i with
  | Some r => r_lo r <=? v
  | None => false
  end.

(** ** Mutators *)

(** The overlapping or adjacent case of [Add]: [newR] grows to cover [r]. *)
Definition merge_rang (newR r : rang) : rang :=
  let newR := if r_lo r <? r_lo newR then Rang (r_lo r) (r_hi newR) else newR in
  if r_hi newR <? r_hi r then Rang (r_lo newR) (r_hi r) else newR.

(** The loop of [Add]: what it appends to [merged], for the current [newR] and
    [inserted]; the last case is the append after the loop. *)
Fixpoint add_loop (newR : rang) (inserted : bool) (ranges : list rang) : list rang :=
  match ranges with
  | [] => if inserted then [] else [newR]
  | r :: ranges =>
      if r_hi r <? i64 (r_lo newR - 1) then r :: add_loop newR inserted ranges
      else if i64 (r_hi newR + 1) <? r_lo r then
        (if inserted then [] else [newR]) ++ r :: add_loop newR true ranges
      else add_loop (merge_rang newR r) inserted ranges
  end.

Definition rangeSet_Add (rs : rangeSet) (lo hi : Z) : rangeSet :=
  if hi <? lo then rs
  else RangeSet (add_loop (Rang lo hi) false (rs_ranges rs)) (rs_padding rs).

Fixpoint remove_loop (lo hi : Z) (ranges : list rang) : list rang :=
  match ranges with
  | [] => []
  | r :: ranges =>
      (if (r_hi r <? lo) || (hi <? r_lo r) then [r]
       else (if r_lo r <? lo then [Rang (r_lo r) (i64 (lo - 1))] else [])
            ++ (if hi <? r_hi r then [Rang (i64 (hi + 1)) (r_hi r)] else []))
      ++ remove_loop lo hi ranges
  end.

Definition rangeSet_Remove (rs : rangeSet) (lo hi : Z) : rangeSet :=
  if (hi <? lo) || rangeSet_IsEmpty rs then rs
  else RangeSet (remove_loop lo hi (rs_ranges rs)) (rs_padding rs).

(** ** Expansion *)

(** [for v := v; v <= hi; v++ { result = append(result, v) }]; [None] when the
    loop is still running after [fuel] turns. *)
Fixpoint count_up (fuel : nat) (v hi : Z) : option (list Z) :=
  match fuel with
  | O => None
  | S fuel => if v <=? hi then cons v <$> count_up fuel (i64 (v + 1)) hi else Some []
  end.

(** One turn per value and one to leave: a loop that has not ended by then has
    wrapped around and never ends ([range_values_adequate]). *)
Definition range_values (r : rang) : option (list Z) :=
  count_up (S (Z.to_nat (r_hi r - r_lo r + 1))) (r_lo r) (r_hi r).

Fixpoint expand_ranges (ranges : list rang) : option (list Z) :=
  match ranges with
  | [] => Some []
  | r :: ranges => vs ← range_values r; ws ← expand_ranges ranges; Some (vs ++ ws)
  end.

(** [Expand]: [make] panics on the negative capacity of an overflown [Len]. *)
Definition rangeSet_Expand (rs : rangeSet) : outcome (list Z) :=
  if rangeSet_Len rs <? 0 then Panic
  else match expand_ranges (rs_ranges rs) with
       | Some vs => Ret vs
       | None => Diverge
       end.

Definition rangeSet_formatInt (rs : rangeSet) (v : Z) : gostring :=
  if rs_padding rs <=? 0 then strconv_Itoa v else fmt_0d (rs_padding rs) v.

Definition rangeSet_ExpandStrings (rs : rangeSet) : outcome (list gostring) :=
  ints ← rangeSet_Expand rs; Ret (map (rangeSet_formatInt rs) ints).

(** ** Folding *)

(** [for i := 2; i < len(values); i++]: [prev] is [values[i-1]]. *)
Fixpoint same_step (step prev : Z) (values : list Z) : bool :=
  match values with
  | [] => true
  | v :: values => if i64 (v - prev) =? step then same_step step v values else false
  end.

Definition detectStep (values : list Z) : Z :=
  match values with
  | v0 :: v1 :: values =>
      let step := i64 (v1 - v0) in
      if step <=? 0 then 0 else if same_step step v1 values then step else 0
  | _ => 1
  end.

Definition fold_part (rs : rangeSet) (r : rang) : gostring :=
  if r_lo r =? r_hi r then rangeSet_formatInt rs (r_lo r)
  else rangeSet_formatInt rs (r_lo r) ++ "-"%char :: rangeSet_formatInt rs (r_hi r).

Definition rangeSet_foldRanges (rs : rangeSet) : gostring :=
  strings_Join (map (fold_part rs) (rs_ranges rs)) (go ",").

Definition rangeSet_Fold (rs : rangeSet) : outcome gostring :=
  match rs_ranges rs with
  | [] => Ret []
  | _ =>
      values ← rangeSet_Expand rs;
      match values with
      | [] => Ret []
      | [v] => Ret (rangeSet_formatInt rs v)
      | v0 :: rest =>
          let step := detectStep values in
          if 0 <? step then
            if step =? 1 then Ret (rangeSet_foldRanges rs)
            else Ret (rangeSet_formatInt rs v0
                        ++ "-"%char :: rangeSet_formatInt rs (List.last rest v0)
                        ++ "/"%char :: strconv_Itoa step)
          else Ret (rangeSet_foldRanges rs)
      end
  end.

(** ** Set algebra *)

Definition rangeSet_Copy (rs : rangeSet) : rangeSet := RangeSet (rs_ranges rs) (rs_padding rs).

Definition rangeSet_Union (rs other : rangeSet) : rangeSet :=
  fold_left (λ result r, rangeSet_Add result (r_lo r) (r_hi r))
    (rs_ranges other) (rangeSet_Copy rs).

Definition rangeSet_Difference (rs other : rangeSet) : rangeSet :=
  fold_left (λ result r, rangeSet_Remove result (r_lo r) (r_hi r))
    (rs_ranges other) (rangeSet_Copy rs).

(** The body of the inner loop of [Intersection]. *)
Definition add_overlap (a : rang) (result : rangeSet) (b : rang) : rangeSet :=
  let lo := if r_lo a <? r_lo b then r_lo b else r_lo a in
  let hi := if r_hi b <? r_hi a then r_hi b else r_hi a in
  if lo <=? hi then rangeSet_Add result lo hi else result.

Definition rangeSet_Intersection (rs other : rangeSet) : rangeSet :=
  fold_left (λ result a, fold_left (add_overlap a) (rs_ranges other) result)
    (rs_ranges rs) (newRangeSet (rs_padding rs)).

Definition rangeSet_SymmetricDifference (rs other : rangeSet) : rangeSet :=
  rangeSet_Difference (rangeSet_Union rs other) (rangeSet_Intersection rs other).

Definition rangeSet_IsSubset (rs other : rangeSet) : bool :=
  rangeSet_IsEmpty (rangeSet_Difference rs other).

Definition rangeSet_IsSuperset (rs other : rangeSet) : bool := rangeSet_IsSubset other rs.

Fixpoint ranges_equal (l1 l2 : list rang) : bool :=
  match l1, l2 with
  | r1 :: l1, r2 :: l2 => if decide (r1 = r2) then ranges_equal l1 l2 else false
  | _, _ => true
  end.

Definition rangeSet_Equal (rs other : rangeSet) : bool :=
  if negb (length (rs_ranges rs) =? length (rs_ranges other))%nat then false
  else ranges_equal (rs_ranges rs) (rs_ranges other).

(** ** Specification: the set a range list stands for, and the invariant *)

Definition in_ranges (v : Z) (l : list rang) : Prop :=
  Exists (λ r, r_lo r ≤ v ≤ r_hi r) l.

#[export] Instance rangeSet_elem_of : ElemOf Z rangeSet := λ v rs, in_ranges v (rs_ranges rs).

#[export] Instance rangeSet_elem_of_dec : RelDecision (∈@{rangeSet}).
Proof. intros v rs. unfold elem_of, rangeSet_elem_of, in_ranges. apply _. Defined.

(** Non-empty ranges above [b], each at least two above the one before, and
    below the largest [int], which [Add] and [Expand] cannot step past. *)
Fixpoint chain (b : Z) (l : list rang) : Prop :=
  match l with
  | [] => True
  | r :: l => b < r_lo r ∧ r_lo r ≤ r_hi r ∧ r_hi r < MaxInt64 ∧ chain (r_hi r + 1) l
  end.

(** A set of non-negative integers, as the type's comment promises. *)
Definition rangeSet_wf (rs : rangeSet) : Prop := chain (-1) (rs_ranges rs).

(** ** Lemmas: chains *)

Lemma in_ranges_nil v : in_ranges v [] ↔ False.
Proof. apply Exists_nil. Qed.

Lemma in_ranges_cons v r l : in_ranges v (r :: l) ↔ r_lo r ≤ v ≤ r_hi r ∨ in_ranges v l.
Proof. apply Exists_cons. Qed.

Lemma in_ranges_app v l1 l2 : in_ranges v (l1 ++ l2) ↔ in_ranges v l1 ∨ in_ranges v l2.
Proof. apply Exists_app. Qed.

#[export] Hint Rewrite in_ranges_nil in_ranges_cons in_ranges_app : go.

Lemma chain_weaken b c l : b ≤ c → chain c l → chain b l.
Proof. destruct l; simpl; [done|]. intuition lia. Qed.

Lemma chain_elem b l r : chain b l → r ∈ l → b < r_lo r ≤ r_hi r ∧ r_hi r < MaxInt64.
Proof.
  revert b. induction l as [|x l IH]; intros b; simpl; [intros _ []%not_elem_of_nil|].
  intros (? & ? & ? & Hl) [->|Hr]%elem_of_cons; [lia|]. apply (IH _ Hl) in Hr. lia.
Qed.

Lemma chain_in b l v : chain b l → in_ranges v l → b < v < MaxInt64.
Proof.
  revert b. induction l as [|r l IH]; intros b; simpl; autorewrite with go; [done|].
  intros (? & ? & ? & Hl) [?|Hv]; [lia|]. apply (IH _ Hl) in Hv. lia.
Qed.

Lemma chain_app b l1 l2 :
  chain b (l1 ++ l2) ↔
  chain b l1 ∧ chain (match last l1 with Some r => r_hi r + 1 | None => b end) l2.
Proof.
  revert b. induction l1 as [|r l1 IH]; intros b; [simpl; tauto|].
  rewrite last_cons. simpl. rewrite IH. destruct (last l1); tauto.
Qed.

(** Two chains with the same elements are the same list. *)
Lemma chain_ext b l1 l2 :
  chain b l1 → chain b l2 → (∀ v, in_ranges v l1 ↔ in_ranges v l2) → l1 = l2.
Proof.
  revert b l2. induction l1 as [|[lo1 hi1] l1 IH]; intros b [|[lo2 hi2] l2] H1 H2 Hext;
    simpl in *; [done|..].
  - exfalso. apply (in_ranges_nil lo2), Hext, in_ranges_cons. simpl. lia.
  - exfalso. apply (in_ranges_nil lo1), Hext, in_ranges_cons. simpl. lia.
  - destruct H1 as (? & ? & ? & H1), H2 as (? & ? & ? & H2).
    assert (∀ v, lo1 ≤ v ≤ hi1 ∨ in_ranges v l1 ↔ lo2 ≤ v ≤ hi2 ∨ in_ranges v l2) as E.
    { intros v. specialize (Hext v). by rewrite !in_ranges_cons in Hext. }
    pose proof (λ v, chain_in _ _ v H1) as B1. pose proof (λ v, chain_in _ _ v H2) as B2.
    assert (lo1 = lo2) as <-.
    { pose proof (proj1 (E lo1) ltac:(lia)). pose proof (proj2 (E lo2) ltac:(lia)).
      specialize (B1 lo2). specialize (B2 lo1). intuition lia. }
    assert (hi1 = hi2) as <-.
    { destruct (Z.lt_total hi1 hi2) as [?|[?|?]]; [|done|].
      - pose proof (proj2 (E (hi1 + 1)) ltac:(lia)). specialize (B1 (hi1 + 1)). intuition lia.
      - pose proof (proj1 (E (hi2 + 1)) ltac:(lia)). specialize (B2 (hi2 + 1)). intuition lia. }
    f_equal. apply (IH (hi1 + 1)); [done..|]. intros v. specialize (E v).
    specialize (B1 v). specialize (B2 v). intuition lia.
Qed.

(** ** Lemmas: [Add] and [Remove] *)

Lemma add_loop_inserted newR c l :
  chain c l → r_hi newR + 1 ≤ c → r_lo newR ≤ r_hi newR → -1 ≤ r_lo newR → c ≤ MaxInt64 →
  add_loop newR true l = l.
Proof.
  revert c. induction l as [|r l IH]; intros c; simpl; [done|].
  intros (? & ? & ? & Hl) ? ? ? ?.
  rewrite !i64_id by i64_lia.
  rewrite (IH (r_hi r + 1)) by (done || lia).
  zcases; simpl; (done || lia).
Qed.

Lemma add_loop_spec newR b l :
  -1 ≤ b → chain b l → b < r_lo newR → r_lo newR ≤ r_hi newR → r_hi newR < MaxInt64 →
  let l' := add_loop newR false l in
  chain b l' ∧ ∀ v, in_ranges v l' ↔ r_lo newR ≤ v ≤ r_hi newR ∨ in_ranges v l.
Proof.
  revert newR b. induction l as [|r l IH]; intros [nlo nhi] b Hb Hl Hlo Hle Hhi; simpl in *.
  - split; [lia|]. intros v. by autorewrite with go.
  - destruct Hl as (? & ? & ? & Hl). rewrite !i64_id by i64_lia.
    destruct (Z.ltb_spec (r_hi r) (nlo - 1)).
    { destruct (IH (Rang nlo nhi) (r_hi r + 1)) as [Hc Hin]; simpl in *; [done || lia..|].
      split; [simpl; tauto|]. intros v. autorewrite with go. rewrite Hin. simpl. tauto. }
    destruct (Z.ltb_spec (nhi + 1) (r_lo r)).
    { rewrite (add_loop_inserted _ (r_hi r + 1)) by (simpl; (done || lia)).
      split; [simpl; intuition lia|]. intros v. autorewrite with go. simpl. tauto. }
    set (n := Rang (Z.min nlo (r_lo r)) (Z.max nhi (r_hi r))).
    assert (merge_rang (Rang nlo nhi) r = n) as ->.
    { unfold n, merge_rang. simpl. destruct (Z.ltb_spec (r_lo r) nlo); simpl;
        destruct (Z.ltb_spec nhi (r_hi r)); simpl; f_equal; lia. }
    destruct (IH n b) as [Hc Hin]; unfold n in *; simpl in *; [lia| |lia..|].
    { eapply chain_weaken, Hl. lia. }
    split; [done|]. intros v. rewrite Hin. autorewrite with go. intuition lia.
Qed.

Lemma remove_loop_spec b lo hi l :
  chain b l → lo ≤ hi → -1 ≤ b →
  chain b (remove_loop lo hi l) ∧
  ∀ v, in_ranges v (remove_loop lo hi l) ↔ in_ranges v l ∧ ¬ lo ≤ v ≤ hi.
Proof.
  intros Hl Hle. revert b Hl. induction l as [|r l IH]; intros b Hl Hb; simpl in *.
  - split; [done|]. intros v. autorewrite with go. tauto.
  - destruct Hl as (? & ? & ? & Hl). destruct (IH _ Hl) as [Hc Hin]; [lia|].
    destruct ((r_hi r <? lo) || (hi <? r_lo r)) eqn:Hout.
    { simpl. split; [tauto|]. intros v. autorewrite with go. rewrite Hin.
      apply orb_true_iff in Hout. rewrite !Z.ltb_lt in Hout. intuition lia. }
    apply orb_false_iff in Hout. rewrite !Z.ltb_ge in Hout.
    destruct (Z.ltb_spec (r_lo r) lo), (Z.ltb_spec hi (r_hi r));
      rewrite ?i64_id by i64_lia; simpl; (split;
        [ intuition (try lia); eapply chain_weaken, Hc; lia
        | intros v; autorewrite with go; rewrite Hin; simpl; intuition lia ]).
Qed.

Lemma rangeSet_Add_spec rs lo hi :
  rangeSet_wf rs → 0 ≤ lo → hi < MaxInt64 →
  rangeSet_wf (rangeSet_Add rs lo hi) ∧
  ∀ v, v ∈ rangeSet_Add rs lo hi ↔ lo ≤ v ≤ hi ∨ v ∈ rs.
Proof.
  unfold rangeSet_wf, rangeSet_Add, elem_of, rangeSet_elem_of. intros Hwf ??.
  destruct (Z.ltb_spec hi lo); simpl; [split; [done|intuition lia]|].
  apply (add_loop_spec (Rang lo hi)); simpl; (done || lia).
Qed.

Lemma rangeSet_Remove_spec rs lo hi :
  rangeSet_wf rs →
  rangeSet_wf (rangeSet_Remove rs lo hi) ∧
  ∀ v, v ∈ rangeSet_Remove rs lo hi ↔ v ∈ rs ∧ ¬ lo ≤ v ≤ hi.
Proof.
  unfold rangeSet_wf, rangeSet_Remove, rangeSet_IsEmpty, elem_of, rangeSet_elem_of.
  intros Hwf. destruct (Z.ltb_spec hi lo); simpl; [split; [done|intuition lia]|].
  destruct rs as [[|r l] p]; cbn [rs_ranges] in *.
  - split; [done|]. intros v. autorewrite with go. tauto.
  - apply remove_loop_spec; (done || lia).
Qed.

(** ** Lemmas: [Contains] *)

Lemma chain_hi_lt b l i j r s :
  chain b l → l !! i = Some r → l !! j = Some s → (i < j)%nat → r_hi r < r_lo s.
Proof.
  revert b i j. induction l as [|x l IH]; intros b [|i] [|j]; simpl; try (done || lia).
  - intros (? & ? & ? & Hl) [= ->] Hs _.
    apply (chain_elem _ _ s) in Hl; [lia|]. by eapply list_elem_of_lookup_2.
  - intros (? & ? & ? & Hl) ? ? ?. eapply IH; eauto. lia.
Qed.

Lemma rangeSet_Contains_spec rs v :
  rangeSet_wf rs → rangeSet_Contains rs v = true ↔ v ∈ rs.
Proof.
  unfold rangeSet_wf, rangeSet_Contains, elem_of, rangeSet_elem_of, in_ranges.
  generalize (rs_ranges rs). intros l Hl.
  set (f := λ i, match l !! i with Some r => v <=? r_hi r | None => false end).
  assert (∀ i j r s, (i ≤ j)%nat → l !! i = Some r → l !! j = Some s → r_hi r ≤ r_hi s) as Hmono.
  { intros i j r s Hij Hr Hs. destruct (decide (i = j)) as [->|]; [simplify_eq; lia|].
    pose proof (chain_hi_lt _ _ i j r s Hl Hr Hs).
    apply list_elem_of_lookup_2, (chain_elem _ _ _ Hl) in Hs. lia. }
  assert (∀ i j, (i < length l)%nat → (j < length l)%nat → (i ≤ j)%nat → f i = true → f j = true) as Hf.
  { unfold f. intros i j [r Hr]%lookup_lt_is_Some [s Hs]%lookup_lt_is_Some Hij.
    rewrite Hr, Hs, !Z.leb_le. specialize (Hmono _ _ _ _ Hij Hr Hs). lia. }
  rewrite Exists_exists.
  destruct (search_first (length l) f Hf) as (Hle & Hbelow & Habove).
  fold f. set (i := sort_search (length l) f) in *.
  destruct (l !! i) as [r|] eqn:Hr.
  - assert (f i = true) as Hfi by (apply Habove; apply lookup_lt_Some in Hr; lia).
    unfold f in Hfi. rewrite Hr, Z.leb_le in Hfi. rewrite Z.leb_le. split.
    + intros. exists r. split; [by eapply list_elem_of_lookup_2|lia].
    + intros (s & [j Hs]%list_elem_of_lookup & Hv).
      destruct (Nat.lt_trichotomy i j) as [?|[->|Hlt]].
      * pose proof (chain_hi_lt _ _ i j r s Hl Hr Hs).
        apply list_elem_of_lookup_2, (chain_elem _ _ _ Hl) in Hr. lia.
      * simplify_eq. lia.
      * apply Hbelow in Hlt. unfold f in Hlt. rewrite Hs, Z.leb_gt in Hlt. lia.
  - split; [done|]. intros (s & [j Hs]%list_elem_of_lookup & Hv).
    assert (f j = true) as Hfj by (unfold f; rewrite Hs; lia).
    apply lookup_ge_None in Hr. apply lookup_lt_Some in Hs.
    rewrite Hbelow in Hfj by lia. done.
Qed.

(** ** Lemmas: set algebra *)

(** Ranges that [Add] can take: non-negative and below the largest [int]. *)
Definition addable (r : rang) : Prop := 0 ≤ r_lo r ∧ r_hi r < MaxInt64.

Lemma chain_addable l : chain (-1) l → Forall addable l.
Proof.
  intros Hl. apply Forall_forall. intros r Hr. apply (chain_elem _ _ _ Hl) in Hr.
  unfold addable. lia.
Qed.

Lemma fold_Add_spec l rs :
  rangeSet_wf rs → Forall addable l →
  let res := fold_left (λ result r, rangeSet_Add result (r_lo r) (r_hi r)) l rs in
  rangeSet_wf res ∧ rs_padding res = rs_padding rs ∧
  ∀ v, v ∈ res ↔ v ∈ rs ∨ in_ranges v l.
Proof.
  intros Hrs Hl. revert rs Hrs. induction Hl as [|r l [? ?] Hl IH]; intros rs Hrs; simpl.
  - split_and!; [done..|]. intros v. autorewrite with go. tauto.
  - destruct (rangeSet_Add_spec rs (r_lo r) (r_hi r)) as [Hwf Hin]; [done..|].
    destruct (IH _ Hwf) as (? & Hp & Hin'). split_and!; [done| |].
    + rewrite Hp. unfold rangeSet_Add. by case_match.
    + intros v. rewrite Hin', Hin. autorewrite with go. tauto.
Qed.

Lemma fold_Remove_spec l rs :
  rangeSet_wf rs →
  let res := fold_left (λ result r, rangeSet_Remove result (r_lo r) (r_hi r)) l rs in
  rangeSet_wf res ∧ rs_padding res = rs_padding rs ∧
  ∀ v, v ∈ res ↔ v ∈ rs ∧ ¬ in_ranges v l.
Proof.
  revert rs. induction l as [|r l IH]; intros rs Hrs; simpl.
  - split_and!; [done..|]. intros v. autorewrite with go. tauto.
  - destruct (rangeSet_Remove_spec rs (r_lo r) (r_hi r)) as [Hwf Hin]; [done|].
    destruct (IH _ Hwf) as (? & Hp & Hin'). split_and!; [done| |].
    + rewrite Hp. unfold rangeSet_Remove. by case_match.
    + intros v. rewrite Hin', Hin. autorewrite with go. tauto.
Qed.

Lemma fold_overlap_spec a l rs :
  rangeSet_wf rs → addable a → Forall addable l →
  let res := fold_left (add_overlap a) l rs in
  rangeSet_wf res ∧ rs_padding res = rs_padding rs ∧
  ∀ v, v ∈ res ↔ v ∈ rs ∨ (r_lo a ≤ v ≤ r_hi a ∧ in_ranges v l).
Proof.
  intros Hrs [? ?] Hl. revert rs Hrs.
  induction Hl as [|b l [? ?] Hl IH]; intros rs Hrs; simpl.
  - split_and!; [done..|]. intros v. autorewrite with go. tauto.
  - assert (rangeSet_wf (add_overlap a rs b) ∧
            rs_padding (add_overlap a rs b) = rs_padding rs ∧
            ∀ v, v ∈ add_overlap a rs b ↔
                 v ∈ rs ∨ (r_lo a ≤ v ≤ r_hi a ∧ r_lo b ≤ v ≤ r_hi b)) as (Hwf & Hp & Hin).
    { unfold add_overlap.
      set (lo := if r_lo a <? r_lo b then _ else _). set (hi := if r_hi b <? r_hi a then _ else _).
      assert (lo = Z.max (r_lo a) (r_lo b)) by (unfold lo; zcases; lia).
      assert (hi = Z.min (r_hi a) (r_hi b)) by (unfold hi; zcases; lia).
      clearbody lo hi. destruct (Z.leb_spec lo hi).
      - destruct (rangeSet_Add_spec rs lo hi) as [? Hin]; [done|lia..|].
        split_and!; [done| |intros v; rewrite Hin; intuition lia].
        unfold rangeSet_Add. by case_match.
      - split_and!; [done..|]. intuition lia. }
    destruct (IH _ Hwf) as (? & Hp' & Hin'). split_and!; [done|congruence|].
    intros v. rewrite Hin', Hin. autorewrite with go. tauto.
Qed.

Lemma rangeSet_Intersection_spec rs other :
  rangeSet_wf rs → rangeSet_wf other →
  rangeSet_wf (rangeSet_Intersection rs other) ∧
  rs_padding (rangeSet_Intersection rs other) = rs_padding rs ∧
  ∀ v, v ∈ rangeSet_Intersection rs other ↔ v ∈ rs ∧ v ∈ other.
Proof.
  intros Hrs Ho%chain_addable. unfold rangeSet_Intersection.
  assert (∀ l res, Forall addable l → rangeSet_wf res →
    let res' := fold_left (λ result a, fold_left (add_overlap a) (rs_ranges other) result) l res in
    rangeSet_wf res' ∧ rs_padding res' = rs_padding res ∧
    ∀ v, v ∈ res' ↔ v ∈ res ∨ (in_ranges v l ∧ v ∈ other)) as Hfold.
  { intros l res Hl. revert res. induction Hl as [|a l Ha Hl IH]; intros res Hres; simpl.
    - split_and!; [done..|]. intros v. autorewrite with go. tauto.
    - destruct (fold_overlap_spec a _ res Hres Ha Ho) as (Hwf & Hp & Hin).
      destruct (IH _ Hwf) as (? & Hp' & Hin'). split_and!; [done|congruence|].
      intros v. rewrite Hin', Hin. autorewrite with go.
      unfold elem_of at 2 4, rangeSet_elem_of. tauto. }
  destruct (Hfold (rs_ranges rs) (newRangeSet (rs_padding rs))) as (? & ? & Hin);
    [by apply chain_addable|done|]. split_and!; [done..|].
  intros v. rewrite Hin. unfold elem_of, rangeSet_elem_of. simpl. autorewrite with go. tauto.
Qed.

Lemma rangeSet_Union_spec rs other :
  rangeSet_wf rs → rangeSet_wf other →
  rangeSet_wf (rangeSet_Union rs other) ∧
  rs_padding (rangeSet_Union rs other) = rs_padding rs ∧
  ∀ v, v ∈ rangeSet_Union rs other ↔ v ∈ rs ∨ v ∈ other.
Proof. intros Hrs Ho%chain_addable. by apply fold_Add_spec. Qed.

Lemma rangeSet_Difference_spec rs other :
  rangeSet_wf rs →
  rangeSet_wf (rangeSet_Difference rs other) ∧
  rs_padding (rangeSet_Difference rs other) = rs_padding rs ∧
  ∀ v, v ∈ rangeSet_Difference rs other ↔ v ∈ rs ∧ v ∉ other.
Proof. intros Hrs. by apply fold_Remove_spec. Qed.

Lemma rangeSet_SymmetricDifference_spec rs other :
  rangeSet_wf rs → rangeSet_wf other →
  rangeSet_wf (rangeSet_SymmetricDifference rs other) ∧
  rs_padding (rangeSet_SymmetricDifference rs other) = rs_padding rs ∧
  ∀ v, v ∈ rangeSet_SymmetricDifference rs other ↔
       (v ∈ rs ∧ v ∉ other) ∨ (v ∈ other ∧ v ∉ rs).
Proof.
  intros Hrs Ho. unfold rangeSet_SymmetricDifference.
  destruct (rangeSet_Union_spec _ _ Hrs Ho) as (Hu & Hpu & Hiu).
  destruct (rangeSet_Intersection_spec _ _ Hrs Ho) as (_ & _ & Hii).
  destruct (rangeSet_Difference_spec _ (rangeSet_Intersection rs other) Hu) as (? & ? & Hid).
  split_and!; [done|congruence|]. intros v. rewrite Hid, Hiu, Hii.
  destruct (decide (v ∈ rs)), (decide (v ∈ other)); tauto.
Qed.

(** ** Lemmas: comparisons *)

Lemma rangeSet_IsEmpty_spec rs :
  rangeSet_wf rs → rangeSet_IsEmpty rs = true ↔ ∀ v, v ∉ rs.
Proof.
  unfold rangeSet_IsEmpty, rangeSet_wf, elem_of, rangeSet_elem_of.
  destruct (rs_ranges rs) as [|r l]; simpl.
  - intros _. split; [|done]. intros _ v. autorewrite with go. tauto.
  - intros (? & ? & _). split; [done|]. intros Hn. destruct (Hn (r_lo r)).
    autorewrite with go. lia.
Qed.

Lemma ranges_equal_spec l1 l2 :
  length l1 = length l2 → ranges_equal l1 l2 = true ↔ l1 = l2.
Proof.
  revert l2. induction l1 as [|r1 l1 IH]; intros [|r2 l2]; simpl; try done.
  intros [= Hlen]. case_decide as Hr; [|split; congruence].
  rewrite (IH _ Hlen). split; congruence.
Qed.

Lemma rangeSet_Equal_spec rs other :
  rangeSet_wf rs → rangeSet_wf other →
  rangeSet_Equal rs other = true ↔ ∀ v, v ∈ rs ↔ v ∈ other.
Proof.
  intros Hrs Ho. transitivity (rs_ranges rs = rs_ranges other).
  - unfold rangeSet_Equal. destruct (Nat.eqb_spec (length (rs_ranges rs)) (length (rs_ranges other)));
      simpl; [by apply ranges_equal_spec|]. split; congruence.
  - split; [|by eapply chain_ext]. unfold elem_of, rangeSet_elem_of. by intros ->.
Qed.

Lemma rangeSet_IsSubset_spec rs other :
  rangeSet_wf rs → rangeSet_IsSubset rs other = true ↔ ∀ v, v ∈ rs → v ∈ other.
Proof.
  intros Hrs. unfold rangeSet_IsSubset.
  destruct (rangeSet_Difference_spec rs other Hrs) as (Hwf & _ & Hin).
  rewrite rangeSet_IsEmpty_spec by done. setoid_rewrite Hin. split; [|naive_solver].
  intros H v Hv. destruct (decide (v ∈ other)); [done|]. by destruct (H v).
Qed.

(** ** Lemmas: expansion *)

(** The values of a range list, in the order [Expand] visits them. *)
Definition ranges_values (l : list rang) : list Z :=
  l ≫= λ r, seqZ (r_lo r) (r_hi r - r_lo r + 1).

Lemma count_up_spec fuel v hi :
  in_i64 v → v ≤ hi + 1 → hi < MaxInt64 → (Z.to_nat (hi - v + 1) < fuel)%nat →
  count_up fuel v hi = Some (seqZ v (hi - v + 1)).
Proof.
  revert v. induction fuel as [|fuel IH]; intros v Hv Hle Hhi Hf; simpl; [lia|].
  destruct (Z.leb_spec v hi).
  - rewrite i64_id, IH by i64_lia. rewrite (seqZ_cons v) by lia. simpl. do 2 f_equal.
    f_equal; lia.
  - by rewrite seqZ_nil by lia.
Qed.

(** Counting up to the largest [int] wraps around and goes on for ever. *)
Lemma count_up_max fuel v : in_i64 v → count_up fuel v MaxInt64 = None.
Proof.
  revert v. induction fuel as [|fuel IH]; intros v Hv; simpl; [done|].
  destruct (Z.leb_spec v MaxInt64); [|i64_lia]. rewrite IH by apply i64_range. done.
Qed.

(** The fuel of [range_values] is enough: when it runs out, any fuel does. *)
Lemma range_values_adequate r :
  in_i64 (r_lo r) → in_i64 (r_hi r) → range_values r = None →
  ∀ fuel, count_up fuel (r_lo r) (r_hi r) = None.
Proof.
  intros Hlo Hhi Hr fuel. destruct (decide (r_hi r = MaxInt64)) as [E|].
  - rewrite E. by apply count_up_max.
  - unfold range_values in Hr. destruct (decide (r_lo r ≤ r_hi r + 1)).
    + rewrite count_up_spec in Hr by i64_lia. done.
    + simpl in Hr. destruct (Z.leb_spec (r_lo r) (r_hi r)); [lia|done].
Qed.

Lemma expand_ranges_spec l : chain (-1) l → expand_ranges l = Some (ranges_values l).
Proof.
  assert (∀ b, -1 ≤ b → chain b l → expand_ranges l = Some (ranges_values l)) as H;
    [|by apply H].
  induction l as [|r l IH]; intros b Hb; simpl; [done|]. intros (? & ? & ? & Hl).
  unfold range_values. rewrite count_up_spec by i64_lia. simpl.
  by rewrite (IH (r_hi r + 1)) by (done || lia).
Qed.

Lemma elem_of_ranges_values v l : v ∈ ranges_values l ↔ in_ranges v l.
Proof.
  unfold ranges_values. rewrite list_elem_of_bind. unfold in_ranges. rewrite Exists_exists.
  setoid_rewrite elem_of_seqZ. split; intros (r & ? & ?); exists r; intuition lia.
Qed.

Lemma ranges_values_sorted b l : chain b l → StronglySorted Z.lt (ranges_values l).
Proof.
  revert b. induction l as [|r l IH]; intros b; simpl; [constructor|].
  intros (? & ? & ? & Hl). apply StronglySorted_app. split_and!; [|apply seqZ_sorted|eauto].
  intros x y Hx%elem_of_seqZ Hy%elem_of_ranges_values. apply (chain_in _ _ _ Hl) in Hy. lia.
Qed.

Lemma rangeSet_Len_spec rs :
  rangeSet_wf rs → rangeSet_Len rs = Z.of_nat (length (ranges_values (rs_ranges rs))).
Proof.
  unfold rangeSet_wf, rangeSet_Len. generalize (rs_ranges rs). intros l Hl.
  assert (∀ b n, chain b l → 0 ≤ n ≤ b + 1 →
    fold_left (λ n r, i64 (n + (r_hi r - r_lo r + 1))) l n =
    n + Z.of_nat (length (ranges_values l))) as H; [|rewrite (H (-1)); (done || lia)].
  clear Hl. induction l as [|r l IH]; intros b n; simpl; [lia|].
  intros (? & ? & ? & Hl) ?. rewrite length_app, length_seqZ, i64_id by i64_lia.
  rewrite (IH (r_hi r + 1)) by (done || lia). unfold ranges_values. lia.
Qed.

Lemma rangeSet_Expand_spec rs :
  rangeSet_wf rs → rangeSet_Expand rs = Ret (ranges_values (rs_ranges rs)).
Proof.
  intros Hwf. unfold rangeSet_Expand. rewrite rangeSet_Len_spec by done.
  destruct (Z.ltb_spec (Z.of_nat (length (ranges_values (rs_ranges rs)))) 0); [lia|].
  by rewrite expand_ranges_spec.
Qed.

#[export] Hint Resolve rangeSet_Expand_spec : go.

(** ** Properties *)

(** C1: every operation that builds a rangeSet keeps the ranges sorted, disjoint
    and apart, and computes the set operation it is named after: insertion and
    removal of an interval, union, intersection, difference, symmetric
    difference. *)
Theorem rangeSet_set_algebra a b lo hi :
  rangeSet_wf a → rangeSet_wf b → 0 ≤ lo → hi < MaxInt64 →
  (rangeSet_wf (rangeSet_Add a lo hi) ∧
   ∀ v, v ∈ rangeSet_Add a lo hi ↔ lo ≤ v ≤ hi ∨ v ∈ a) ∧
  (rangeSet_wf (rangeSet_Remove a lo hi) ∧
   ∀ v, v ∈ rangeSet_Remove a lo hi ↔ v ∈ a ∧ ¬ lo ≤ v ≤ hi) ∧
  (rangeSet_wf (rangeSet_Union a b) ∧ ∀ v, v ∈ rangeSet_Union a b ↔ v ∈ a ∨ v ∈ b) ∧
  (rangeSet_wf (rangeSet_Intersection a b) ∧
   ∀ v, v ∈ rangeSet_Intersection a b ↔ v ∈ a ∧ v ∈ b) ∧
  (rangeSet_wf (rangeSet_Difference a b) ∧
   ∀ v, v ∈ rangeSet_Difference a b ↔ v ∈ a ∧ v ∉ b) ∧
  (rangeSet_wf (rangeSet_SymmetricDifference a b) ∧
   ∀ v, v ∈ rangeSet_SymmetricDifference a b ↔ (v ∈ a ∧ v ∉ b) ∨ (v ∈ b ∧ v ∉ a)).
Proof.
  intros Ha Hb Hlo Hhi.
  destruct (rangeSet_Union_spec a b Ha Hb) as (? & _ & ?).
  destruct (rangeSet_Intersection_spec a b Ha Hb) as (? & _ & ?).
  destruct (rangeSet_Difference_spec a b Ha) as (? & _ & ?).
  destruct (rangeSet_SymmetricDifference_spec a b Ha Hb) as (? & _ & ?).
  auto 10 using rangeSet_Add_spec, rangeSet_Remove_spec.
Qed.

(** the queries decide what they ask: membership by binary search,
    emptiness, inclusion, equality of the sets; [Len] is the cardinality. *)
Theorem rangeSet_queries_decide a b :
  rangeSet_wf a → rangeSet_wf b →
  (∀ v, rangeSet_Contains a v = true ↔ v ∈ a) ∧
  (rangeSet_IsEmpty a = true ↔ ∀ v, v ∉ a) ∧
  (rangeSet_IsSubset a b = true ↔ ∀ v, v ∈ a → v ∈ b) ∧
  (rangeSet_IsSuperset a b = true ↔ ∀ v, v ∈ b → v ∈ a) ∧
  (rangeSet_Equal a b = true ↔ ∀ v, v ∈ a ↔ v ∈ b) ∧
  ∃ X : gset Z, (∀ v, v ∈ X ↔ v ∈ a) ∧ rangeSet_Len a = Z.of_nat (size X).
Proof.
  intros Ha Hb. split_and!.
  - intros v. by apply rangeSet_Contains_spec.
  - by apply rangeSet_IsEmpty_spec.
  - by apply rangeSet_IsSubset_spec.
  - unfold rangeSet_IsSuperset. by apply rangeSet_IsSubset_spec.
  - by apply rangeSet_Equal_spec.
  - exists (list_to_set (ranges_values (rs_ranges a))). split.
    + intros v. rewrite elem_of_list_to_set. apply elem_of_ranges_values.
    + rewrite rangeSet_Len_spec, size_list_to_set by eauto using lt_sorted_NoDup, ranges_values_sorted.
      reflexivity.
Qed.

(** [Expand] ends on a well-formed set and returns its members, each once,
    in increasing order. *)
Theorem rangeSet_Expand_complete rs :
  rangeSet_wf rs →
  ∃ vs, rangeSet_Expand rs = Ret vs ∧ StronglySorted Z.lt vs ∧ (∀ v, v ∈ vs ↔ v ∈ rs) ∧
        Z.of_nat (length vs) = rangeSet_Len rs.
Proof.
  intros Hrs. exists (ranges_values (rs_ranges rs)).
  rewrite rangeSet_Expand_spec, rangeSet_Len_spec by done.
  split_and!; [done|by eapply ranges_values_sorted|intros; apply elem_of_ranges_values|done].
Qed.

(** with the largest [int] in the set, [Expand] has no result: the capacity
    it asks for overflows to a negative one and [make] panics, or the counter
    wraps around below its bound and the loop never ends. *)
Theorem rangeSet_Expand_max_int lo :
  lo = 0 ∨ MaxInt64 - 2 ^ 32 ≤ lo ≤ MaxInt64 →
  rangeSet_Expand (rangeSet_Add (newRangeSet 0) lo MaxInt64) = if lo =? 0 then Panic else Diverge.
Proof.
  intros [->|Hlo]; [done|]. unfold rangeSet_Add.
  destruct (Z.ltb_spec MaxInt64 lo); [lia|]. cbn.
  destruct (Z.eqb_spec lo 0); [i64_lia|].
  unfold rangeSet_Expand, rangeSet_Len. cbn.
  rewrite (i64_id (0 + _)) by i64_lia.
  destruct (Z.ltb_spec (0 + (MaxInt64 - lo + 1)) 0); [lia|].
  destruct (Z.leb_spec lo MaxInt64); [|lia]. by rewrite count_up_max by auto with go.
Qed.

(** ** Witnesses *)

(** The sets 1,3,5 and 3-9, built as the parser builds them. *)
Definition odd_rs : rangeSet :=
  fold_left (λ rs v, rangeSet_Add rs v v) [1; 3; 5] (newRangeSet 0).

Definition mid_rs : rangeSet := rangeSet_Add (newRangeSet 0) 3 9.

Lemma odd_rs_wf : rangeSet_wf odd_rs.
Proof. vm_compute. intuition congruence. Qed.

Lemma mid_rs_wf : rangeSet_wf mid_rs.
Proof. vm_compute. intuition congruence. Qed.

Lemma rangeSet_set_algebra_witness :
  5 ∈ rangeSet_Intersection odd_rs mid_rs ∧ 7 ∉ rangeSet_Intersection odd_rs mid_rs.
Proof.
  destruct (rangeSet_set_algebra odd_rs mid_rs 0 1 odd_rs_wf mid_rs_wf) as (_ & _ & _ & [_ H] & _);
    [lia|i64_lia|].
  split; [apply H; split; by_decide|].
  intros [H7 _]%H. revert H7. by_decide.
Defined.

Lemma rangeSet_queries_decide_witness :
  rangeSet_Contains odd_rs 3 = true ∧ rangeSet_IsSubset odd_rs mid_rs = false ∧ 3 ∈ odd_rs.
Proof.
  destruct (rangeSet_queries_decide odd_rs mid_rs odd_rs_wf mid_rs_wf) as [H _].
  split_and!; [reflexivity..|]. apply H. reflexivity.
Defined.

Lemma rangeSet_Expand_complete_witness :
  rangeSet_Expand odd_rs = Ret [1; 3; 5] ∧ ∃ vs, rangeSet_Expand odd_rs = Ret vs ∧ 5 ∈ vs.
Proof.
  destruct (rangeSet_Expand_complete odd_rs odd_rs_wf) as (vs & He & _ & Hin & _).
  split; [reflexivity|]. exists vs. split; [done|]. apply Hin. by_decide.
Defined.

Lemma rangeSet_Expand_max_int_witness :
  rangeSet_Expand (rangeSet_Add (newRangeSet 0) MaxInt64 MaxInt64) = Diverge.
Proof. apply (rangeSet_Expand_max_int MaxInt64). right. unfold MaxInt64. lia. Defined.
