(* ===== verification/Bracket.v ===== *)
(** * Bracket expressions: parseBracketExpr of pkg/mesh/nodeset/parser.go

    The inside of a bracket is a comma-separated list of values, ranges and
    stepped ranges ([parse_item]); each is added to a [rangeSet], which is
    expanded at the end. The lemmas give the set an expression denotes and show
    that parsing what [rangeSet.Fold] prints gives the set back, in its own
    number format. *)

From Stdlib Require Import Ascii.
From stdpp Require Import base numbers gmap strings sorting list.
From S2P Require Import Prelude GoStrings RangeSet.

Open Scope Z_scope.

(** ** Bracket expressions *)

Definition detectPadding (s : gostring) : Z :=
  match s with
  | "0"%char :: _ :: _ => Z.of_nat (length s)
  | _ => 0
  end.

(** One comma-separated part of a bracket: [lo-hi/step], or a value. *)
Record item := Item { it_pad : Z; it_lo : Z; it_hi : Z; it_step : Z }.

(** The [N-M/S] branch of the loop body, up to the insertion. *)
Definition parse_range (loStr hiStr stepStr : gostring) : outcome item :=
  let pad := detectPadding loStr in
  lo ← wrap_err "invalid range start %q: %w" (strconv_Atoi loStr);
  hi ← wrap_err "invalid range end %q: %w" (strconv_Atoi hiStr);
  if hi <? lo then Err (Errorf "invalid range: start %d > end %d")
  else
    step ←
      (match stepStr with
       | [] => Ret 1
       | _ =>
           step ← wrap_err "invalid step %q: %w" (strconv_Atoi stepStr);
           if step <=? 0 then Err (Errorf "step must be positive, got %d") else Ret step
       end);
    Ret (Item pad lo hi step).

(** [part] and [stepStr] after the check for a step. *)
Definition cut_slash (part : gostring) : gostring * gostring :=
  match strings_Index part (go "/") with
  | Some slashIdx => (take slashIdx part, drop (S slashIdx) part)
  | None => (part, [])
  end.

(** The loop body up to the insertion; [None] is the [continue] on a blank part. *)
Definition parse_item (part : gostring) : outcome (option item) :=
  let part := strings_TrimSpace part in
  match part with
  | [] => Ret None
  | _ =>
      let '(part, stepStr) := cut_slash part in
      match strings_Index part (go "-") with
      | Some dashIdx => Some <$> parse_range (take dashIdx part) (drop (S dashIdx) part) stepStr
      | None =>
          v ← wrap_err "invalid value %q: %w" (strconv_Atoi part);
          Ret (Some (Item (detectPadding part) v v 1))
      end
  end.

(** [for v := lo; v <= hi; v += step { rs.Add(v, v) }] *)
Definition step_loop (lo hi step : Z) (rs : rangeSet) : outcome rangeSet :=
  match loop64 (λ '(v, rs),
                  if v <=? hi then inl (i64 (v + step), rangeSet_Add rs v v) else inr rs)
               (lo, rs) with
  | Some rs => Ret rs
  | None => Diverge
  end.

Definition add_item (rs : rangeSet) (it : item) : outcome rangeSet :=
  if it_step it =? 1 then Ret (rangeSet_Add rs (it_lo it) (it_hi it))
  else step_loop (it_lo it) (it_hi it) (it_step it) rs.

(** The loop body: the state is [padding] and [rs]. *)
Definition parse_part (st : Z * rangeSet) (part : gostring) : outcome (Z * rangeSet) :=
  let '(padding, rs) := st in
  oit ← parse_item part;
  match oit with
  | None => Ret (padding, rs)
  | Some it =>
      let padding := if padding <? it_pad it then it_pad it else padding in
      rs ← add_item rs it;
      Ret (padding, rs)
  end.

Definition parseBracketExpr (expr : gostring) : outcome (list Z * Z) :=
  match expr with
  | [] => Err (Errorf "empty bracket expression")
  | _ =>
      '(padding, rs) ← foldM_go parse_part (0, newRangeSet 0) (strings_Split expr ",");
      ints ← rangeSet_Expand rs;
      Ret (ints, padding)
  end.

(** How [splitBrackets] prints a value. *)
Definition format_value (padding v : Z) : gostring :=
  if 0 <? padding then fmt_0d padding v else strconv_Itoa v.

(** ** Specification of a bracket expression *)

(** The values an item denotes. *)
Definition in_item (v : Z) (it : item) : Prop :=
  it_lo it ≤ v ≤ it_hi it ∧ (v - it_lo it) mod it_step it = 0.

(** The loop over the item's values does not step past the largest [int]. *)
Definition safe_item (it : item) : Prop := it_hi it + it_step it ≤ MaxInt64.

Definition max_pad (items : list item) : Z := fold_left (λ p it, Z.max p (it_pad it)) items 0.

(** ** Lemmas: items *)

Lemma detectPadding_nonneg s : 0 ≤ detectPadding s.
Proof.
  unfold detectPadding. destruct s as [|[[] [] [] [] [] [] [] []] [|??]]; lia.
Qed.

(** [strings.Index] with a one-byte needle is [strings.IndexByte]. *)
Lemma Index_byte s c : strings_Index s [c] = strings_IndexByte s c.
Proof.
  assert (∀ x l, strings_HasPrefix (x :: l) [c] = bool_decide (x = c)) as Hp.
  { intros x l. unfold strings_HasPrefix. apply bool_decide_ext. split.
    - intros [k Hk]. by injection Hk.
    - intros ->. by exists l. }
  induction s as [|x s IH]; simpl.
  - reflexivity.
  - rewrite Hp, IH. by case_decide; case_bool_decide.
Qed.

Lemma parse_item_bounds part it :
  parse_item part = Ret (Some it) →
  0 ≤ it_lo it ≤ it_hi it ∧ it_hi it ≤ MaxInt64 ∧ 1 ≤ it_step it ∧ 0 ≤ it_pad it.
Proof.
  unfold parse_item. destruct (strings_TrimSpace part) as [|c l]; [done|].
  destruct (cut_slash (c :: l)) as [p stepStr].
  change (go "-") with ["-"%char]. rewrite Index_byte.
  destruct (strings_IndexByte p "-") as [d|] eqn:Hd.
  - intros (i & Hi & [= ->])%outcome_fmap_Ret. revert Hi. unfold parse_range.
    intros (lo & Hlo%wrap_err_Ret & Hi)%outcome_bind_Ret.
    apply outcome_bind_Ret in Hi as (hi & Hhi%wrap_err_Ret & Hi).
    destruct (Z.ltb_spec hi lo); [done|].
    apply outcome_bind_Ret in Hi as (step & Hstep & [= <-]). simpl.
    apply IndexByte_Some in Hd as (_ & Hd & _).
    apply Atoi_Ret in Hlo as [_ Hlo]. apply Atoi_Ret in Hhi as [Hhi _].
    specialize (Hlo Hd). pose proof (detectPadding_nonneg (take d p)).
    assert (1 ≤ step); [|i64_lia].
    destruct stepStr; [injection Hstep; lia|].
    apply outcome_bind_Ret in Hstep as (s & _ & Hs).
    destruct (Z.leb_spec s 0); [done|]. injection Hs. lia.
  - intros (v & Hv%wrap_err_Ret & [= <-])%outcome_bind_Ret. simpl.
    apply IndexByte_None in Hd. apply Atoi_Ret in Hv as [Hr Hv]. specialize (Hv Hd).
    pose proof (detectPadding_nonneg p). i64_lia.
Qed.

Lemma step_loop_turns hi step n v rs :
  rangeSet_wf rs → 0 ≤ v → 0 < step → hi + step ≤ MaxInt64 → v ≤ hi + step →
  Z.to_nat ((hi - v) / step + 1) = n →
  ∃ rs', loop_nat (S n) (λ '(v, rs),
           if v <=? hi then inl (i64 (v + step), rangeSet_Add rs v v) else inr rs) (v, rs) = inr rs' ∧
         rangeSet_wf rs' ∧
         ∀ x, x ∈ rs' ↔ x ∈ rs ∨ (v ≤ x ≤ hi ∧ (x - v) mod step = 0).
Proof.
  intros Hrs Hv Hstep Hmax. revert v rs Hrs Hv. induction n as [|n IH]; intros v rs Hrs Hv Hle Hn.
  - assert (hi < v). { destruct (Z.le_gt_cases v hi); [|done].
      assert (0 ≤ (hi - v) / step) by (apply Z.div_pos; lia). lia. }
    exists rs. cbn [loop_nat]. destruct (Z.leb_spec v hi); [lia|].
    split_and!; [done..|]. intuition lia.
  - assert (v ≤ hi).
    { destruct (Z.le_gt_cases v hi); [done|].
      assert ((hi - v) / step < 0) by (apply Z.div_lt_upper_bound; lia). lia. }
    assert ((hi - (v + step)) / step = (hi - v) / step - 1) as Hdiv.
    { replace (hi - (v + step)) with (hi - v + (-1) * step) by lia. rewrite Z.div_add by lia. lia. }
    destruct (rangeSet_Add_spec rs v v) as [Hwf Hin]; [done|lia..|].
    destruct (IH (v + step) (rangeSet_Add rs v v)) as (rs' & Hloop & ? & Hin'); [done|lia..|].
    exists rs'. split_and!; [|done|].
    + rewrite <-Hloop. cbn [loop_nat]. destruct (Z.leb_spec v hi); [|lia].
      by rewrite i64_id by i64_lia.
    + intros x. rewrite Hin', Hin.
      assert ((x - (v + step)) mod step = (x - v) mod step) as ->.
      { replace (x - (v + step)) with (x - v + (-1) * step) by lia. by apply Z.mod_add; lia. }
      assert ((x - v) mod step = 0 → v < x → v + step ≤ x) as Hgap.
      { intros Hm ?. apply Z.mod_divide in Hm as [k Hk]; [|lia]. assert (1 ≤ k) by nia. nia. }
      assert (x = v → (x - v) mod step = 0) by (intros ->; by rewrite Z.sub_diag, Zmod_0_l).
      split; [intros [[?|?]|[? ?]]; [right|tauto|right]|].
      * destruct (decide (x = v)); intuition lia.
      * intuition lia.
      * intros [?|[? Hm]]; [tauto|]. destruct (decide (x = v)); intuition lia.
Qed.

Lemma step_loop_spec lo hi step rs :
  rangeSet_wf rs → 0 ≤ lo ≤ hi → 0 < step → hi + step ≤ MaxInt64 →
  ∃ rs', step_loop lo hi step rs = Ret rs' ∧ rangeSet_wf rs' ∧
         ∀ x, x ∈ rs' ↔ x ∈ rs ∨ (lo ≤ x ≤ hi ∧ (x - lo) mod step = 0).
Proof.
  intros Hrs ???. destruct (step_loop_turns hi step (Z.to_nat ((hi - lo) / step + 1)) lo rs) as (rs' & Hl & ? & ?);
    [done|lia..|reflexivity|]. exists rs'. split_and!; [|done..].
  unfold step_loop. erewrite loop64_Some; [done| |exact Hl].
  assert ((hi - lo) / step ≤ hi - lo) by (apply Z.div_le_upper_bound; nia). i64_lia.
Qed.

Lemma add_item_spec rs it :
  rangeSet_wf rs → 0 ≤ it_lo it ≤ it_hi it → 1 ≤ it_step it → safe_item it →
  ∃ rs', add_item rs it = Ret rs' ∧ rangeSet_wf rs' ∧ ∀ x, x ∈ rs' ↔ x ∈ rs ∨ in_item x it.
Proof.
  unfold safe_item, add_item, in_item. intros ????.
  destruct (Z.eqb_spec (it_step it) 1) as [E|].
  - destruct (rangeSet_Add_spec rs (it_lo it) (it_hi it)) as [? Hin]; [done|lia..|].
    eexists. split_and!; [done..|]. intros x. rewrite Hin, E, Z.mod_1_r. intuition.
  - apply step_loop_spec; (done || lia).
Qed.

Lemma parse_parts_spec parts oits padding rs :
  rangeSet_wf rs → mapM_go parse_item parts = Ret oits → Forall safe_item (omap id oits) →
  ∃ rs', foldM_go parse_part (padding, rs) parts
         = Ret (fold_left (λ p it, Z.max p (it_pad it)) (omap id oits) padding, rs') ∧
         rangeSet_wf rs' ∧ ∀ x, x ∈ rs' ↔ x ∈ rs ∨ Exists (in_item x) (omap id oits).
Proof.
  rewrite mapM_go_Ret. intros Hrs Hall. revert padding rs Hrs.
  induction Hall as [|part [it|] parts oits Hit Hall IH]; intros padding rs Hrs Hsafe; simpl in *.
  - exists rs. split_and!; [done..|]. intros x. rewrite Exists_nil. tauto.
  - apply Forall_cons in Hsafe as [Hs Hsafe].
    pose proof (parse_item_bounds _ _ Hit) as (? & ? & ? & ?).
    destruct (add_item_spec rs it) as (rs1 & Hadd & Hwf & Hin); [done..|].
    destruct (IH (Z.max padding (it_pad it)) rs1 Hwf Hsafe) as (rs' & Hf & ? & Hin').
    exists rs'. rewrite Hit. simpl. rewrite Hadd. simpl. split_and!; [|done|].
    + assert ((if padding <? it_pad it then it_pad it else padding) = Z.max padding (it_pad it))
        as -> by (zcases; lia). exact Hf.
    + intros x. rewrite Hin', Hin, Exists_cons. tauto.
  - rewrite Hit. simpl. by apply IH.
Qed.

Lemma parseBracketExpr_spec expr oits :
  expr ≠ [] → mapM_go parse_item (strings_Split expr ",") = Ret oits →
  Forall safe_item (omap id oits) →
  ∃ vs, parseBracketExpr expr = Ret (vs, max_pad (omap id oits)) ∧
        StronglySorted Z.lt vs ∧ (∀ v, v ∈ vs → 0 ≤ v < MaxInt64) ∧
        ∀ v, v ∈ vs ↔ Exists (in_item v) (omap id oits).
Proof.
  intros Hne Hp Hs. unfold parseBracketExpr. destruct expr; [done|].
  destruct (parse_parts_spec _ _ 0 (newRangeSet 0) I Hp Hs) as (rs & -> & Hwf & Hin).
  simpl. rewrite rangeSet_Expand_spec by done. simpl. eexists. split_and!; [done|..].
  - by eapply ranges_values_sorted.
  - intros v Hv%elem_of_ranges_values. apply (chain_in _ _ _ Hwf) in Hv. lia.
  - intros v. rewrite elem_of_ranges_values.
    unfold elem_of, rangeSet_elem_of in Hin. rewrite Hin. simpl. autorewrite with go. tauto.
Qed.

(** ** Lemmas: parsing what [Fold] prints *)

Lemma formatInt_digits rs v :
  0 ≤ v ≤ MaxInt64 →
  rangeSet_formatInt rs v ≠ [] ∧
  Forall (λ c, is_digit c = true) (rangeSet_formatInt rs v) ∧
  strconv_Atoi (rangeSet_formatInt rs v) = Ret v.
Proof.
  intros Hv. unfold rangeSet_formatInt.
  assert (fmt_0d (rs_padding rs) v = zero_pad (rs_padding rs) (udec v)) as E.
  { unfold fmt_0d. by destruct (Z.ltb_spec v 0); [lia|]. }
  destruct (Z.leb_spec (rs_padding rs) 0).
  - rewrite <-(fmt_0d_Itoa (rs_padding rs)), E by done.
    destruct (zero_pad_digits (rs_padding rs) v) as (? & ? & ?); [lia|].
    split_and!; [done..|]. by apply Atoi_digits.
  - rewrite E. destruct (zero_pad_digits (rs_padding rs) v) as (? & ? & ?); [lia|].
    split_and!; [done..|]. by apply Atoi_digits.
Qed.

(** A printed number shows its width exactly when it is padded. *)
Lemma formatInt_padding rs v :
  0 ≤ v →
  detectPadding (rangeSet_formatInt rs v)
  = if Z.of_nat (length (udec v)) <? rs_padding rs then rs_padding rs else 0.
Proof.
  intros Hv. destruct (udec_spec v Hv) as (Hne & _ & _ & Hz).
  assert (0 < length (udec v))%nat by (destruct (udec v); simpl; [done|lia]).
  assert (detectPadding (udec v) = 0) as Hu.
  { unfold detectPadding. destruct (udec v) as [|[[] [] [] [] [] [] [] []] [|? l]]; try done.
    by destruct (Hz _ eq_refl). }
  assert (rangeSet_formatInt rs v = zero_pad (rs_padding rs) (udec v)) as ->.
  { unfold rangeSet_formatInt, strconv_Itoa, fmt_0d. destruct (Z.ltb_spec v 0); [lia|].
    destruct (Z.leb_spec (rs_padding rs) 0); [|done]. by rewrite zero_pad_0. }
  destruct (Z.ltb_spec (Z.of_nat (length (udec v))) (rs_padding rs)).
  - rewrite <-(length_zero_pad (rs_padding rs) (udec v)) at 2 by lia.
    generalize (rs_padding rs) as w, H0. intros w Hw. unfold zero_pad.
    destruct (Z.to_nat _) as [|n] eqn:Hn; [lia|]. cbn [replicate app].
    destruct (replicate n "0"%char ++ udec v) as [|y l] eqn:Hr; [|done].
    by apply app_nil in Hr as [_ ?].
  - by rewrite zero_pad_long by lia.
Qed.

Lemma formatInt_reformat rs v w pad :
  0 ≤ w ≤ v → (pad = 0 ∨ pad = rs_padding rs) →
  detectPadding (rangeSet_formatInt rs w) ≤ pad →
  format_value pad v = rangeSet_formatInt rs v.
Proof.
  intros Hw Hpad. rewrite formatInt_padding by lia.
  pose proof (udec_length_mono w v Hw).
  unfold format_value, rangeSet_formatInt. intros Hd.
  destruct Hpad as [->| ->]; [simpl; destruct (Z.leb_spec (rs_padding rs) 0); [done|]|].
  2: { by destruct (Z.ltb_spec 0 (rs_padding rs)), (Z.leb_spec (rs_padding rs) 0); [lia|..|lia]. }
  unfold strconv_Itoa, fmt_0d. destruct (Z.ltb_spec v 0); [lia|].
  rewrite zero_pad_long; [done|].
  destruct (Z.ltb_spec (Z.of_nat (length (udec w))) (rs_padding rs)); lia.
Qed.

Lemma cut_slash_none part : "/"%char ∉ part → cut_slash part = (part, []).
Proof. intros H. unfold cut_slash. change (go "/") with ["/"%char]. by rewrite Index_byte, (proj2 (IndexByte_None _ _) H). Qed.

Lemma cut_slash_some part rest : "/"%char ∉ part → cut_slash (part ++ "/"%char :: rest) = (part, rest).
Proof.
  intros H. unfold cut_slash. change (go "/") with ["/"%char].
  rewrite Index_byte, IndexByte_app, take_app_length by done.
  by rewrite (cons_middle "/"%char), app_assoc, drop_app_length' by (rewrite length_app; simpl; lia).
Qed.

Lemma parse_item_value s v :
  s ≠ [] → Forall (λ c, is_digit c = true) s → strconv_Atoi s = Ret v →
  parse_item s = Ret (Some (Item (detectPadding s) v v 1)).
Proof.
  intros Hne Hd Hv. unfold parse_item. rewrite TrimSpace_solid by auto with go.
  destruct s as [|c s]; [done|]. rewrite cut_slash_none by auto with go.
  change (go "-") with ["-"%char].
  by rewrite Index_byte, (proj2 (IndexByte_None _ _)), Hv by auto with go.
Qed.

Definition digits_of (s : gostring) (v : Z) : Prop :=
  s ≠ [] ∧ Forall (λ c, is_digit c = true) s ∧ strconv_Atoi s = Ret v.

Lemma parse_item_dash s1 s2 suffix stepStr lo hi step :
  digits_of s1 lo → digits_of s2 hi → lo ≤ hi →
  (suffix = [] ∧ stepStr = [] ∧ step = 1) ∨
    (suffix = "/"%char :: stepStr ∧ digits_of stepStr step ∧ 0 < step) →
  parse_item (s1 ++ "-"%char :: s2 ++ suffix) = Ret (Some (Item (detectPadding s1) lo hi step)).
Proof.
  intros (Hn1 & Hd1 & Hv1) (Hn2 & Hd2 & Hv2) Hle Hsuf. unfold parse_item.
  assert (Forall (λ c, solid c = true) (s1 ++ "-"%char :: s2 ++ suffix)) as Hsolid.
  { rewrite !Forall_app, Forall_cons, Forall_app. split_and!; auto with go.
    destruct Hsuf as [(-> & _)|(-> & (_ & ? & _) & _)]; [constructor|].
    constructor; auto with go. }
  rewrite TrimSpace_solid by done.
  assert (cut_slash (s1 ++ "-"%char :: s2 ++ suffix) = (s1 ++ "-"%char :: s2, stepStr)) as Hcut.
  { assert ("/"%char ∉ s1 ++ "-"%char :: s2) as Hno.
    { rewrite not_elem_of_app, not_elem_of_cons. split_and!; auto with go. }
    destruct Hsuf as [(-> & -> & _)|(-> & _)].
    - rewrite app_nil_r. by apply cut_slash_none.
    - rewrite app_comm_cons, app_assoc. by apply cut_slash_some. }
  destruct (s1 ++ "-"%char :: s2 ++ suffix) as [|c l] eqn:E; [by destruct s1|].
  rewrite Hcut. change (go "-") with ["-"%char].
  rewrite Index_byte, IndexByte_app, take_app_length by auto with go.
  rewrite (cons_middle "-"%char), app_assoc, drop_app_length' by (rewrite length_app; simpl; lia).
  unfold parse_range. rewrite Hv1, Hv2. simpl. destruct (Z.ltb_spec hi lo); [lia|].
  destruct Hsuf as [(_ & -> & ->)|(_ & (Hn3 & _ & Hv3) & ?)]; [done|].
  destruct stepStr; [done|]. rewrite Hv3. simpl. by destruct (Z.leb_spec step 0); [lia|].
Qed.

Lemma max_pad_cases items p acc :
  Forall (λ it, it_pad it = 0 ∨ it_pad it = p) items → 0 ≤ acc → (acc = 0 ∨ acc = p) →
  let m := fold_left (λ p it, Z.max p (it_pad it)) items acc in
  (m = 0 ∨ m = p) ∧ acc ≤ m ∧ Forall (λ it, it_pad it ≤ m) items.
Proof.
  intros Hall. revert acc. induction Hall as [|it items Hit Hall IH]; intros acc H0 Hacc; simpl.
  - auto with lia.
  - destruct (IH (Z.max acc (it_pad it))) as (? & ? & ?); [lia..|].
    split_and!; [done|lia|]. constructor; [lia|done].
Qed.

(** A string whose items denote the set, printed in the set's own format. *)
Lemma roundtrip_items rs s its :
  rangeSet_wf rs → s ≠ [] →
  mapM_go parse_item (strings_Split s ",") = Ret (map Some its) →
  Forall (λ it, 0 ≤ it_lo it ∧ it_pad it = detectPadding (rangeSet_formatInt rs (it_lo it))) its →
  Forall safe_item its → (∀ v, v ∈ rs ↔ Exists (in_item v) its) →
  ∃ pad, parseBracketExpr s = Ret (ranges_values (rs_ranges rs), pad) ∧
         ∀ v, v ∈ rs → format_value pad v = rangeSet_formatInt rs v.
Proof.
  intros Hwf Hne Hp Hpad Hsafe Hin.
  assert (omap id (map Some its) = its) as Hid.
  { clear. induction its; simpl; [done|]. by f_equal. }
  destruct (parseBracketExpr_spec s (map Some its)) as (vs & Hvs & Hsort & _ & Hel);
    [done..|by rewrite Hid|]. rewrite Hid in Hvs, Hel.
  assert (vs = ranges_values (rs_ranges rs)) as ->.
  { apply lt_sorted_ext; [done|by eapply ranges_values_sorted|].
    intros v. rewrite Hel, <-Hin, elem_of_ranges_values. done. }
  exists (max_pad its). split; [done|]. intros v Hv.
  apply Hin, Exists_exists in Hv as (it & Hit & [Hv _]).
  assert (Forall (λ it, it_pad it = 0 ∨ it_pad it = rs_padding rs) its) as Hcases.
  { eapply Forall_impl; [exact Hpad|]. simpl. intros i [? ->]. rewrite formatInt_padding by done.
    case_match; auto. }
  destruct (max_pad_cases its (rs_padding rs) 0) as (Hm & _ & Hle); [done|lia|by left|].
  fold (max_pad its) in *. rewrite Forall_forall in Hpad, Hle.
  specialize (Hpad it Hit) as [? Hpit]. specialize (Hle it Hit). simpl in Hle.
  eapply (formatInt_reformat rs v (it_lo it)); [lia|done|]. by rewrite <-Hpit.
Qed.

Lemma same_step_spec step prev values :
  0 < step → 0 ≤ prev → StronglySorted Z.lt (prev :: values) →
  Forall (λ v, v < MaxInt64) values → same_step step prev values = true →
  prev ≤ List.last values prev ∧
  ∀ v, v ∈ prev :: values ↔ prev ≤ v ≤ List.last values prev ∧ (v - prev) mod step = 0.
Proof.
  intros Hs. revert prev. induction values as [|w values IH]; intros prev Hp Hsort Hmax.
  - intros _. simpl. split; [lia|]. intros v. rewrite list_elem_of_singleton.
    split; [intros ->; rewrite Z.sub_diag, Zmod_0_l|]; lia.
  - cbn [same_step]. apply Forall_cons in Hmax as [Hw Hmax].
    apply StronglySorted_inv in Hsort as [Hsort Hlt].
    apply Forall_cons in Hlt as [Hlt _]. rewrite i64_id by i64_lia.
    destruct (Z.eqb_spec (w - prev) step) as [E|]; [|done]. intros Hstep.
    destruct (IH w) as [Hle Hel]; [lia|done..|].
    rewrite List_last_cons.
    split; [lia|]. intros v. rewrite elem_of_cons, Hel.
    assert ((v - prev) mod step = (v - w) mod step) as ->.
    { replace (v - prev) with (v - w + 1 * step) by lia. by rewrite Z.mod_add by lia. }
    split; [intros [->|?]; [|intuition lia]|].
    + replace (prev - w) with (0 + (-1) * step) by lia.
      rewrite Z.mod_add, Zmod_0_l by lia. lia.
    + intros [Hv Hm]. destruct (decide (v < w)); [left|right; split; [lia|done]].
      apply Z.mod_divide in Hm as [k Hk]; [|lia]. assert (k = -1) by nia. nia.
Qed.

Definition range_item (rs : rangeSet) (r : rang) : item :=
  Item (detectPadding (rangeSet_formatInt rs (r_lo r))) (r_lo r) (r_hi r) 1.

Lemma digits_of_formatInt rs v : 0 ≤ v ≤ MaxInt64 → digits_of (rangeSet_formatInt rs v) v.
Proof. apply formatInt_digits. Qed.

Lemma parse_fold_part rs r :
  0 ≤ r_lo r ≤ r_hi r → r_hi r < MaxInt64 →
  parse_item (fold_part rs r) = Ret (Some (range_item rs r)) ∧ ","%char ∉ fold_part rs r ∧
  fold_part rs r ≠ [].
Proof.
  intros ??. destruct (digits_of_formatInt rs (r_lo r)) as (Hn1 & Hd1 & Hv1); [lia|].
  destruct (digits_of_formatInt rs (r_hi r)) as (Hn2 & Hd2 & Hv2); [lia|].
  unfold fold_part, range_item. destruct (Z.eqb_spec (r_lo r) (r_hi r)) as [E|].
  - rewrite <-E. split_and!; [by apply parse_item_value|auto with go|done].
  - split_and!.
    + rewrite <-(app_nil_r (rangeSet_formatInt rs (r_hi r))).
      apply (parse_item_dash _ _ _ []); [done..|lia|by left].
    + rewrite not_elem_of_app, not_elem_of_cons. split_and!; auto with go.
    + by destruct (rangeSet_formatInt rs (r_lo r)).
Qed.

Lemma parse_foldRanges rs :
  rangeSet_wf rs → rs_ranges rs ≠ [] →
  ∃ pad, parseBracketExpr (rangeSet_foldRanges rs) = Ret (ranges_values (rs_ranges rs), pad) ∧
         ∀ v, v ∈ rs → format_value pad v = rangeSet_formatInt rs v.
Proof.
  intros Hwf Hne. unfold rangeSet_foldRanges.
  assert (∀ r, r ∈ rs_ranges rs → 0 ≤ r_lo r ≤ r_hi r ∧ r_hi r < MaxInt64) as Hr.
  { intros r Hr. apply (chain_elem _ _ _ Hwf) in Hr. lia. }
  assert (∀ r, r ∈ rs_ranges rs → parse_item (fold_part rs r) = Ret (Some (range_item rs r)) ∧
            ","%char ∉ fold_part rs r ∧ fold_part rs r ≠ []) as Hpart.
  { intros r [? ?]%Hr. by apply parse_fold_part. }
  apply (roundtrip_items rs _ (map (range_item rs) (rs_ranges rs))); [done|..].
  - destruct (rs_ranges rs) as [|r l]; [done|]. destruct (Hpart r) as (_ & _ & Hf); [left|].
    simpl. by destruct (map (fold_part rs) l), (fold_part rs r).
  - change (go ",") with [","%char]. rewrite strings_Split_Join.
    + rewrite map_map. apply mapM_go_map. by intros r []%Hpart.
    + by destruct (rs_ranges rs).
    + apply Forall_fmap, Forall_forall. by intros r (_ & ? & _)%Hpart.
  - apply Forall_fmap, Forall_forall. intros r []%Hr. simpl. split; [lia|done].
  - apply Forall_fmap, Forall_forall. intros r []%Hr. unfold safe_item. simpl. lia.
  - intros v. rewrite Exists_fmap. unfold elem_of, rangeSet_elem_of, in_ranges.
    apply Exists_proper; [|done]. intros r. simpl. unfold in_item. simpl.
    rewrite Z.mod_1_r. tauto.
Qed.

(** A fold that is one item: a value, or a range with a step. *)
Lemma roundtrip_one rs s it :
  rangeSet_wf rs → s ≠ [] → ","%char ∉ s → parse_item s = Ret (Some it) →
  0 ≤ it_lo it → it_pad it = detectPadding (rangeSet_formatInt rs (it_lo it)) →
  safe_item it → (∀ v, v ∈ rs ↔ in_item v it) →
  ∃ pad, parseBracketExpr s = Ret (ranges_values (rs_ranges rs), pad) ∧
         ∀ v, v ∈ rs → format_value pad v = rangeSet_formatInt rs v.
Proof.
  intros Hwf Hne Hc Hp Hlo Hpad Hsafe Hin. apply (roundtrip_items rs s [it]); [done..| | | |].
  - rewrite strings_Split_no_sep by done. simpl. by rewrite Hp.
  - by repeat constructor.
  - by repeat constructor.
  - intros v. rewrite Hin, Exists_cons, Exists_nil. tauto.
Qed.

Lemma detectStep_spec v0 v1 rest :
  StronglySorted Z.lt (v0 :: v1 :: rest) → (∀ v, v ∈ v0 :: v1 :: rest → 0 ≤ v < MaxInt64) →
  let step := detectStep (v0 :: v1 :: rest) in
  0 < step →
  step ≤ v1 ∧ List.last (v1 :: rest) v0 ∈ v0 :: v1 :: rest ∧
  v0 ≤ List.last (v1 :: rest) v0 ∧
  ∀ v, v ∈ v0 :: v1 :: rest ↔ v0 ≤ v ≤ List.last (v1 :: rest) v0 ∧ (v - v0) mod step = 0.
Proof.
  intros Hsort Hb. unfold detectStep.
  assert (0 ≤ v0 < MaxInt64) by (apply Hb; left).
  assert (0 ≤ v1 < MaxInt64) by (apply Hb; right; left).
  rewrite i64_id by i64_lia. destruct (Z.leb_spec (v1 - v0) 0); [done|].
  destruct (same_step (v1 - v0) v1 rest) eqn:Hst; [|done]. intros _.
  destruct (same_step_spec (v1 - v0) v0 (v1 :: rest)) as [Hle Hel]; [lia..|done| | |].
  - apply Forall_forall. intros v Hv. apply Hb. by right.
  - cbn [same_step]. rewrite i64_id by i64_lia. by rewrite Z.eqb_refl.
  - split_and!; [lia| |done|done]. rewrite List_last_cons. clear.
    destruct rest as [|x rest] using rev_ind; [right; left|].
    rewrite List.last_last. rewrite app_comm_cons, app_comm_cons, elem_of_app. right. left.
Qed.

Lemma parse_Fold_values rs v0 v1 rest :
  rangeSet_wf rs → (∀ v, v ∈ rs → v < 2 ^ 62) →
  ranges_values (rs_ranges rs) = v0 :: v1 :: rest →
  let step := detectStep (v0 :: v1 :: rest) in
  0 < step →
  ∃ pad, parseBracketExpr (rangeSet_formatInt rs v0
            ++ "-"%char :: rangeSet_formatInt rs (List.last (v1 :: rest) v0)
            ++ "/"%char :: strconv_Itoa step)
         = Ret (ranges_values (rs_ranges rs), pad) ∧
         ∀ v, v ∈ rs → format_value pad v = rangeSet_formatInt rs v.
Proof.
  intros Hwf Hsmall Hvs step Hpos.
  pose proof (ranges_values_sorted _ _ Hwf) as Hsort.
  assert (∀ v, v ∈ rs ↔ v ∈ v0 :: v1 :: rest) as Hel.
  { intros v. by rewrite <-Hvs, elem_of_ranges_values. }
  assert (∀ v, v ∈ rs → 0 ≤ v < 2 ^ 62) as Hb.
  { intros v Hv. split; [|auto]. apply (chain_in _ _ _ Hwf) in Hv. lia. }
  rewrite Hvs in Hsort. destruct (detectStep_spec v0 v1 rest Hsort) as (Hle & Hlast & Hvl & Hin).
  { intros v Hv%Hel%Hb. i64_lia. } { done. }
  fold step in Hle, Hin. set (vl := List.last (v1 :: rest) v0) in *.
  assert (0 ≤ v0 < 2 ^ 62) by (apply Hb, Hel; left).
  assert (0 ≤ v1 < 2 ^ 62) by (apply Hb, Hel; right; left).
  assert (0 ≤ vl < 2 ^ 62) by (by apply Hb, Hel).
  destruct (digits_of_formatInt rs v0) as (Hn0 & Hd0 & Ha0); [i64_lia|].
  destruct (digits_of_formatInt rs vl) as (Hnl & Hdl & Hal); [i64_lia|].
  destruct (digits_of_formatInt (newRangeSet 0) step) as (Hns & Hds & Has); [i64_lia|].
  change (rangeSet_formatInt (newRangeSet 0) step) with (strconv_Itoa step) in *.
  apply (roundtrip_one rs _ (Item (detectPadding (rangeSet_formatInt rs v0)) v0 vl step));
    [done|by destruct (rangeSet_formatInt rs v0)| | |simpl; lia|done|unfold safe_item; simpl; i64_lia|].
  - rewrite not_elem_of_app, not_elem_of_cons, not_elem_of_app, not_elem_of_cons.
    split_and!; auto with go.
  - apply parse_item_dash with (stepStr := strconv_Itoa step); [done..|].
    right. split_and!; [done..|lia].
  - intros v. rewrite Hel, Hin. unfold in_item. simpl. tauto.
Qed.

Lemma parse_Fold rs :
  rangeSet_wf rs → rs_ranges rs ≠ [] → (∀ v, v ∈ rs → v < 2 ^ 62) →
  ∃ s pad, rangeSet_Fold rs = Ret s ∧
    parseBracketExpr s = Ret (ranges_values (rs_ranges rs), pad) ∧
    ∀ v, v ∈ rs → format_value pad v = rangeSet_formatInt rs v.
Proof.
  intros Hwf Hne Hsmall. unfold rangeSet_Fold.
  destruct (parse_foldRanges rs Hwf Hne) as (padr & Hfold).
  destruct (rs_ranges rs) as [|r l] eqn:Hrs; [done|]. rewrite <-Hrs in *.
  rewrite rangeSet_Expand_spec by done. cbn [mbind outcome_bind].
  destruct (ranges_values (rs_ranges rs)) as [|v0 [|v1 rest]] eqn:Hvs; [| |].
  - destruct (not_elem_of_nil (r_lo r)). rewrite <-Hvs, elem_of_ranges_values, Hrs. left.
    unfold rangeSet_wf in Hwf. rewrite Hrs in Hwf. destruct Hwf as (? & ? & _). lia.
  - assert (∀ v, v ∈ rs ↔ v = v0) as Hel.
    { intros v. by rewrite <-list_elem_of_singleton, <-Hvs, elem_of_ranges_values. }
    assert (-1 < v0 < MaxInt64) by (eapply chain_in, Hel; done).
    destruct (digits_of_formatInt rs v0) as (Hn0 & Hd0 & Ha0); [lia|].
    destruct (roundtrip_one rs (rangeSet_formatInt rs v0)
      (Item (detectPadding (rangeSet_formatInt rs v0)) v0 v0 1)) as (pad & Hpad); simpl;
      [done..|auto with go|by apply parse_item_value|lia|done|unfold safe_item; simpl; lia| |].
    { intros v. rewrite Hel. unfold in_item. simpl. rewrite Z.mod_1_r. lia. }
    rewrite Hvs in Hpad. eauto.
  - destruct (Z.ltb_spec 0 (detectStep (v0 :: v1 :: rest))); [|eauto].
    case_match; [eauto|].
    destruct (parse_Fold_values rs v0 v1 rest) as (pad & Hpad); [done..|].
    rewrite Hvs in Hpad. eauto.
Qed.

(** ** Properties *)

(** C11: when every part of a bracket expression parses and no part ends so near
    the largest [int] that its loop would step past it, the expression denotes
    the union of its items: its values come out each once in increasing order,
    with the widest zero padding among the items' first numbers. *)
Theorem parseBracketExpr_denotes expr oits :
  expr ≠ [] → mapM_go parse_item (strings_Split expr ",") = Ret oits →
  Forall safe_item (omap id oits) →
  ∃ vs, parseBracketExpr expr = Ret (vs, max_pad (omap id oits)) ∧
        StronglySorted Z.lt vs ∧ (∀ v, v ∈ vs → 0 ≤ v < MaxInt64) ∧
        ∀ v, v ∈ vs ↔ Exists (in_item v) (omap id oits).
Proof. apply parseBracketExpr_spec. Qed.

(** parsing what [Fold] prints, autostep form included, gives the set back,
    and the padding found prints each value the way the set itself does. *)
Theorem Fold_parse_roundtrip rs :
  rangeSet_wf rs → rs_ranges rs ≠ [] → (∀ v, v ∈ rs → v < 2 ^ 62) →
  ∃ s pad vs, rangeSet_Fold rs = Ret s ∧ parseBracketExpr s = Ret (vs, pad) ∧
    (∀ v, v ∈ vs ↔ v ∈ rs) ∧ ∀ v, v ∈ rs → format_value pad v = rangeSet_formatInt rs v.
Proof.
  intros Hwf Hne Hmax. destruct (parse_Fold rs Hwf Hne Hmax) as (s & pad & Hs & Hp & Hf).
  exists s, pad, (ranges_values (rs_ranges rs)). split_and!; [done|done| |done].
  intros v. apply elem_of_ranges_values.
Qed.

(** ** Witnesses *)

Lemma parseBracketExpr_denotes_witness :
  parseBracketExpr (go "1-9/4, 007,3") = Ret ([1; 3; 5; 7; 9], 3) ∧
  ∃ vs, parseBracketExpr (go "1-9/4, 007,3") = Ret (vs, 3) ∧ 5 ∈ vs.
Proof.
  split; [vm_compute; reflexivity|].
  destruct (parseBracketExpr_denotes (go "1-9/4, 007,3")
              [Some (Item 0 1 9 4); Some (Item 3 7 7 1); Some (Item 0 3 3 1)])
    as (vs & Hp & _ & _ & Hin).
  - done.
  - vm_compute. reflexivity.
  - repeat constructor; vm_compute; discriminate.
  - exists vs. split; [exact Hp|]. apply Hin. apply Exists_cons. left.
    split; [simpl; lia|reflexivity].
Defined.

Lemma Fold_parse_roundtrip_witness :
  rangeSet_Fold odd_rs = Ret (go "1-5/2") ∧
  ∃ s pad vs, rangeSet_Fold odd_rs = Ret s ∧ parseBracketExpr s = Ret (vs, pad) ∧ 3 ∈ vs.
Proof.
  split; [vm_compute; reflexivity|].
  destruct (Fold_parse_roundtrip odd_rs odd_rs_wf) as (s & pad & vs & Hs & Hp & Hin & _).
  - done.
  - assert (Forall (λ v, v < 2 ^ 62) (ranges_values (rs_ranges odd_rs))) as Hsmall by by_decide.
    intros v Hv. rewrite Forall_forall in Hsmall. apply Hsmall. by apply elem_of_ranges_values.
  - exists s, pad, vs. split_and!; [done..|]. apply Hin. by_decide.
Defined.
