(* ===== verification/Glob.v ===== *)
(** * Shell patterns: path/filepath.Match on Unix, as the source uses it

    The standard library's matcher: a pattern is cut at its stars into chunks, a
    chunk is matched byte by byte (rune by rune for [?] and classes), and the
    rest of a pattern is checked for syntax after a mismatch. *)

From Stdlib Require Import Ascii.
From stdpp Require Import base numbers gmap strings sorting list.
From S2P Require Import Prelude GoStrings.

Open Scope Z_scope.

Definition byte_val (c : ascii) : Z := Z.of_N (N_of_ascii c).

(** [utf8.DecodeRuneInString(s)]: the first rune and its width; an invalid byte
    is U+FFFD of width 1. *)
Definition RuneError : Z := 65533.

Definition is_cont (b : Z) : bool := (0x80 <=? b) && (b <=? 0xBF).

Definition DecodeRune (s : gostring) : Z * nat :=
  match map byte_val (take 4 s) with
  | [] => (RuneError, O)
  | b0 :: rest =>
      if b0 <? 0x80 then (b0, 1%nat)
      else match rest with
      | b1 :: rest =>
          if (0xC2 <=? b0) && (b0 <=? 0xDF) && is_cont b1
          then ((b0 - 0xC0) * 64 + (b1 - 0x80), 2%nat)
          else match rest with
          | b2 :: rest =>
              if (0xE0 <=? b0) && (b0 <=? 0xEF) && is_cont b1 && is_cont b2
                 && (if b0 =? 0xE0 then 0xA0 <=? b1 else true)
                 && (if b0 =? 0xED then b1 <=? 0x9F else true)
              then ((b0 - 0xE0) * 4096 + (b1 - 0x80) * 64 + (b2 - 0x80), 3%nat)
              else match rest with
              | b3 :: _ =>
                  if (0xF0 <=? b0) && (b0 <=? 0xF4) && is_cont b1 && is_cont b2 && is_cont b3
                     && (if b0 =? 0xF0 then 0x90 <=? b1 else true)
                     && (if b0 =? 0xF4 then b1 <=? 0x8F else true)
                  then ((b0 - 0xF0) * 262144 + (b1 - 0x80) * 4096 + (b2 - 0x80) * 64 + (b3 - 0x80), 4%nat)
                  else (RuneError, 1%nat)
              | [] => (RuneError, 1%nat)
              end
          | [] => (RuneError, 1%nat)
          end
      | [] => (RuneError, 1%nat)
      end
  end.

Definition ErrBadPattern : goerr := Errorf "syntax error in pattern".

Fixpoint strip_stars (pattern : gostring) : bool * gostring :=
  match pattern with
  | "*"%char :: pattern => (true, snd (strip_stars pattern))
  | _ => (false, pattern)
  end.

(** The [Scan] loop: the chunk up to the next star outside a class. *)
Fixpoint scan_loop (inrange : bool) (pattern : gostring) : gostring * gostring :=
  match pattern with
  | [] => ([], [])
  | "\"%char :: rest =>
      match rest with
      | c :: rest => let '(chunk, rest) := scan_loop inrange rest in ("\"%char :: c :: chunk, rest)
      | [] => (["\"%char], [])
      end
  | "["%char :: rest => let '(chunk, rest) := scan_loop true rest in ("["%char :: chunk, rest)
  | "]"%char :: rest => let '(chunk, rest) := scan_loop false rest in ("]"%char :: chunk, rest)
  | "*"%char :: rest =>
      if inrange then let '(chunk, rest) := scan_loop inrange rest in ("*"%char :: chunk, rest)
      else ([], pattern)
  | c :: rest => let '(chunk, rest) := scan_loop inrange rest in (c :: chunk, rest)
  end.

Definition scanChunk (pattern : gostring) : bool * gostring * gostring :=
  let '(star, pattern) := strip_stars pattern in
  let '(chunk, rest) := scan_loop false pattern in (star, chunk, rest).

(** A possibly escaped character of a class. *)
Definition getEsc (chunk : gostring) : outcome (Z * gostring) :=
  let body chunk :=
    let '(r, n) := DecodeRune chunk in
    if (r =? RuneError) && (n =? 1)%nat then Err ErrBadPattern
    else match drop n chunk with
         | [] => Err ErrBadPattern
         | nchunk => Ret (r, nchunk)
         end in
  match chunk with
  | [] | "-"%char :: _ | "]"%char :: _ => Err ErrBadPattern
  | "\"%char :: chunk => match chunk with [] => Err ErrBadPattern | _ => body chunk end
  | _ => body chunk
  end.

(** The ranges of a class, up to the closing bracket. Each turn consumes a
    character of [chunk]. *)
Fixpoint class_loop (fuel : nat) (r : Z) (first match_ : bool) (chunk : gostring)
    : outcome (bool * gostring) :=
  match fuel with
  | O => Diverge
  | S fuel =>
      match chunk with
      | "]"%char :: rest =>
          if first then Err ErrBadPattern else Ret (match_, rest)
      | _ =>
          '(lo, chunk) ← getEsc chunk;
          '(hi, chunk) ←
            (match chunk with
             | "-"%char :: chunk => getEsc chunk
             | _ => Ret (lo, chunk)
             end);
          class_loop fuel r false (match_ || ((lo <=? r) && (r <=? hi))) chunk
      end
  end.

(** [s] is [None] once the match has failed: the chunk is then only checked. *)
Fixpoint chunk_loop (fuel : nat) (chunk : gostring) (s : option gostring)
    : outcome (option gostring) :=
  match fuel with
  | O => Diverge
  | S fuel =>
      match chunk with
      | [] => Ret s
      | c :: chunk =>
          let s := match s with Some [] => None | _ => s end in
          let step1 (c : ascii) chunk :=
            chunk_loop fuel chunk
              (match s with
               | Some (x :: s) => if decide (c = x) then Some s else None
               | _ => None
               end) in
          if decide (c = "["%char) then
            let '(r, s) :=
              match s with
              | Some s => let '(r, n) := DecodeRune s in (r, Some (drop n s))
              | None => (0, None)
              end in
            let '(negated, chunk) :=
              match chunk with "^"%char :: chunk => (true, chunk) | _ => (false, chunk) end in
            '(match_, chunk) ← class_loop (S (length chunk)) r true false chunk;
            chunk_loop fuel chunk (if eqb match_ negated then None else s)
          else if decide (c = "?"%char) then
            chunk_loop fuel chunk
              (match s with
               | Some ("/"%char :: _) => None
               | Some s => Some (drop (snd (DecodeRune s)) s)
               | None => None
               end)
          else if decide (c = "\"%char) then
            match chunk with
            | [] => Err ErrBadPattern
            | c :: chunk => step1 c chunk
            end
          else step1 c chunk
      end
  end.

(** [matchChunk]: [Some rest] is [rest, true], [None] is no match. *)
Definition matchChunk (chunk s : gostring) : outcome (option gostring) :=
  chunk_loop (S (length chunk)) chunk (Some s).

(** The end of [Match]: nothing matched, the rest of the pattern is checked. *)
Fixpoint check_rest (fuel : nat) (pattern : gostring) : outcome bool :=
  match fuel with
  | O => Diverge
  | S fuel =>
      match pattern with
      | [] => Ret false
      | _ =>
          let '(_, chunk, pattern) := scanChunk pattern in
          _ ← matchChunk chunk [];
          check_rest fuel pattern
      end
  end.

(** Skip [i+1] bytes of the name, none of them a separator, and match there. *)
Fixpoint star_loop (chunk : gostring) (last : bool) (name : gostring) : outcome (option gostring) :=
  match name with
  | [] => Ret None
  | c :: name =>
      if decide (c = "/"%char) then Ret None
      else
        t ← matchChunk chunk name;
        match t with
        | Some t =>
            match last, t with
            | true, _ :: _ => star_loop chunk last name
            | _, _ => Ret (Some t)
            end
        | None => star_loop chunk last name
        end
  end.

Fixpoint match_loop (fuel : nat) (pattern name : gostring) : outcome bool :=
  match fuel with
  | O => Diverge
  | S fuel =>
      match pattern with
      | [] => Ret (match name with [] => true | _ => false end)
      | _ =>
          let '(star, chunk, pattern) := scanChunk pattern in
          let last := match pattern with [] => true | _ => false end in
          match star, chunk with
          | true, [] => Ret (negb (bool_decide ("/"%char ∈ name)))
          | _, _ =>
              t ← matchChunk chunk name;
              let next (_ : unit) :=
                if star : bool then
                  o ← star_loop chunk last name;
                  match o with
                  | Some t => match_loop fuel pattern t
                  | None => check_rest (S (length pattern)) pattern
                  end
                else check_rest (S (length pattern)) pattern in
              match t with
              | Some t =>
                  match t, last with
                  | _ :: _, true => next tt
                  | _, _ => match_loop fuel pattern t
                  end
              | None => next tt
              end
          end
      end
  end.

(** Every turn consumes a star or a byte of the pattern. *)
Definition filepath_Match (pattern name : gostring) : outcome bool :=
  match_loop (S (length pattern)) pattern name.

(** ** Lemmas *)

(** A byte that stands for itself in a pattern. *)
Definition plain (c : ascii) : bool :=
  negb (bool_decide (c ∈ ["*"; "?"; "["; "]"; "\"]%char)).

Lemma scan_loop_plain p rest :
  Forall (λ c, plain c = true) p → (rest = [] ∨ ∃ r, rest = "*"%char :: r) →
  scan_loop false (p ++ rest) = (p, rest).
Proof.
  intros Hp Hr. induction Hp as [|c p Hc Hp IH].
  - destruct Hr as [->|[r ->]]; reflexivity.
  - cbn [app]. assert (scan_loop false (c :: p ++ rest)
      = (let '(chunk, r) := scan_loop false (p ++ rest) in (c :: chunk, r))) as ->.
    { destruct c as [[] [] [] [] [] [] [] []]; try reflexivity; discriminate Hc. }
    by rewrite IH.
Qed.

Lemma chunk_loop_plain p fuel s :
  Forall (λ c, plain c = true) p → (length p < fuel)%nat →
  chunk_loop fuel p s =
  Ret (match s with
       | Some s => if strings_HasPrefix s p then Some (drop (length p) s) else None
       | None => None
       end).
Proof.
  intros Hp. revert fuel s. induction Hp as [|c p Hc Hp IH]; intros [|fuel] s Hf; simpl in Hf;
    [lia| |lia|].
  - destruct s as [s|]; [|done]. done.
  - cbn [chunk_loop].
    assert (c ≠ "["%char ∧ c ≠ "?"%char ∧ c ≠ "\"%char) as (? & ? & ?)
      by (split_and!; intros ->; discriminate Hc).
    rewrite !decide_False, IH by (done || lia).
    destruct s as [[|x s]|]; [done| |done]. unfold strings_HasPrefix. simpl.
    case_decide as Hcx.
    + subst x. rewrite (bool_decide_ext (c :: p `prefix_of` c :: s) (p `prefix_of` s)); [done|].
      split; [apply prefix_cons_inv_2|apply prefix_cons].
    + rewrite bool_decide_eq_false_2; [done|]. intros Hx%prefix_cons_inv_1. done.
Qed.

(** A literal matches itself only; a literal and a star match the names that
    extend the literal without a separator. *)
Lemma filepath_Match_literal p name :
  Forall (λ c, plain c = true) p → filepath_Match p name = Ret (bool_decide (p = name)).
Proof.
  intros Hp. unfold filepath_Match. cbn [match_loop].
  destruct p as [|c p]; [by destruct name|]. set (lit := c :: p) in *.
  assert (scanChunk lit = (false, lit, [])) as ->.
  { unfold scanChunk. replace (strip_stars lit) with (false, lit).
    - pose proof (scan_loop_plain lit [] Hp) as E. rewrite app_nil_r in E. rewrite E by auto. done.
    - apply Forall_cons_1 in Hp as [Hc _].
      unfold lit. by destruct c as [[] [] [] [] [] [] [] []]. }
  unfold matchChunk. rewrite chunk_loop_plain by (done || lia). simpl.
  destruct (strings_HasPrefix name lit) eqn:Hpre.
  - apply strings_HasPrefix_spec in Hpre as [t ->].
    replace (drop (S (length p)) (lit ++ t)) with t by (by rewrite (drop_app_length lit)).
    destruct t as [|d t].
    + rewrite app_nil_r. by rewrite bool_decide_eq_true_2.
    + rewrite bool_decide_eq_false_2; [done|]. intros E%(f_equal length).
      rewrite length_app in E. simpl in E. lia.
  - rewrite bool_decide_eq_false_2; [by destruct name|]. intros <-.
    assert (strings_HasPrefix lit lit = true) by (by apply strings_HasPrefix_spec). congruence.
Qed.
