(* ===== verification/Parser.v ===== *)
(** * Terms and expressions: pkg/mesh/nodeset/parser.go

    [splitBrackets] cuts a term into literals and brackets, [cartesianExpand]
    enumerates the product, [tokenize] splits an expression at its set
    operators and [parseExpr] evaluates it from left to right. [GroupResolver]
    (groups.go) is an interface the embedding program implements, so it is a
    parameter. *)

From Stdlib Require Import Ascii.
From stdpp Require Import base numbers gmap strings sorting list.
From S2P Require Import Prelude GoStrings RangeSet Bracket.

Open Scope Z_scope.

(** ** Terms *)

(** [segment]: a literal ([segLiteral]) or the values of a bracket ([segBracket]). *)
Inductive segment :=
| segLiteral (literal : gostring)
| segBracket (values : list gostring).

(** The loop of [splitBrackets] on [term[i:]]. *)
Fixpoint split_loop (fuel : nat) (rest : gostring) : outcome (list segment) :=
  match fuel with
  | O => Diverge
  | S fuel =>
      match rest with
      | [] => Ret []
      | _ =>
          match strings_IndexByte rest "[" with
          | None => Ret [segLiteral rest]
          | Some b =>
              let pre := match b with O => [] | _ => [segLiteral (take b rest)] end in
              let after := drop b rest in
              match strings_IndexByte after "]" with
              | None => Err (Errorf "unclosed bracket in %q")
              | Some e =>
                  let content := drop 1 (take e after) in
                  '(values, padding) ←
                    wrap_err "invalid bracket expression [%s]: %w" (parseBracketExpr content);
                  segments ← split_loop fuel (drop (S e) after);
                  Ret (pre ++ segBracket (map (format_value padding) values) :: segments)
              end
          end
      end
  end.

(** Every turn of the loop moves [i] forward, so [len(term)] turns and one more
    to leave are enough ([splitBrackets_terminates]). *)
Definition splitBrackets (term : gostring) : outcome (list segment) :=
  split_loop (S (length term)) term.

(** The first loop of [cartesianExpand]; [None] is the early return of no
    strings at an empty bracket. *)
Fixpoint total_loop (segments : list segment) (maxExpand totalCount : Z) : outcome (option Z) :=
  match segments with
  | [] => Ret (Some totalCount)
  | segLiteral _ :: segments => total_loop segments maxExpand totalCount
  | segBracket values :: segments =>
      let n := Z.of_nat (length values) in
      if n =? 0 then Ret None
      else if (0 <? maxExpand) && (Z.quot maxExpand n <? totalCount)
      then Err (Errorf "nodeset: cartesian product %d x %d exceeds limit of %d")
      else total_loop segments maxExpand (i64 (totalCount * n))
  end.

(** [strides]: the product of the bracket sizes to the right; the second
    component is [stride] when the loop gets to this position. *)
Fixpoint strides_loop (segments : list segment) : list Z * Z :=
  match segments with
  | [] => ([], 1)
  | segLiteral _ :: segments =>
      let '(strides, stride) := strides_loop segments in (0 :: strides, stride)
  | segBracket values :: segments =>
      let '(strides, stride) := strides_loop segments in
      (stride :: strides, i64 (stride * Z.of_nat (length values)))
  end.

(** The inner loop: the [i]-th output string. An index out of range and a
    division by a zero stride panic. *)
Fixpoint build_string (i : Z) (segments : list segment) (strides : list Z) : outcome gostring :=
  match segments, strides with
  | segLiteral s :: segments, _ :: strides =>
      rest ← build_string i segments strides; Ret (s ++ rest)
  | segBracket values :: segments, stride :: strides =>
      if stride =? 0 then Panic
      else
        let idx := Z.rem (Z.quot i stride) (Z.of_nat (length values)) in
        match values !! Z.to_nat idx with
        | Some v => rest ← build_string i segments strides; Ret (v ++ rest)
        | None => Panic
        end
  | _, _ => Ret []
  end.

Definition cartesianExpand (segments : list segment) (maxExpand : Z) : outcome (list gostring) :=
  match segments with
  | [] => Ret [[]]
  | _ =>
      ototal ← total_loop segments maxExpand 1;
      match ototal with
      | None => Ret []
      | Some totalCount =>
          if (0 <? maxExpand) && (maxExpand <? totalCount)
          then Err (Errorf "nodeset: expansion of %d nodes exceeds limit of %d")
          else if totalCount <? 0 then Panic
          else
            let strides := fst (strides_loop segments) in
            mapM_go (λ i, build_string i segments strides) (seqZ 0 totalCount)
      end
  end.

(** ** Groups *)

(** The [GroupResolver] interface: [Resolve(source, group)]. *)
Abbreviation GroupResolver := (gostring → gostring → outcome (list gostring)).

Definition expandGroup (ref : gostring) (resolver : option GroupResolver) : outcome (list gostring) :=
  match resolver with
  | None => Err (Errorf "group reference @%s but no GroupResolver configured")
  | Some resolve =>
      let '(source, group) :=
        match strings_IndexByte ref ":" with
        | Some colonIdx => (take colonIdx ref, drop (S colonIdx) ref)
        | None => ([], ref)
        end in
      wrap_err "resolving group @%s: %w" (resolve source group)
  end.

Definition expandTerm (term : gostring) (resolver : option GroupResolver) (maxExpand : Z)
    : outcome (list gostring) :=
  match term with
  | "@"%char :: ref => expandGroup ref resolver
  | _ =>
      segments ← splitBrackets term;
      match segments with
      | [segLiteral _] => Ret [term]
      | _ => cartesianExpand segments maxExpand
      end
  end.

(** ** Expressions *)

(** The operators of the source: [,] [!] [&] [^]. *)
Definition is_op (c : ascii) : bool :=
  bool_decide (c = ","%char) || bool_decide (c = "!"%char)
  || bool_decide (c = "&"%char) || bool_decide (c = "^"%char).

(** The loop of [tokenize] and the code after it: [cur] is [expr[start:i]],
    [rest] is [expr[i:]]. *)
Fixpoint tokenize_loop (depth : Z) (cur rest : gostring) : outcome (list gostring * list ascii) :=
  match rest with
  | [] =>
      if negb (depth =? 0) then Err (Errorf "unclosed bracket in %q")
      else match strings_TrimSpace cur with
           | [] => Err (Errorf "trailing operator in %q")
           | term => Ret ([term], [])
           end
  | c :: rest =>
      if decide (c = "["%char) then tokenize_loop (depth + 1) (cur ++ [c]) rest
      else if decide (c = "]"%char) then
        if depth - 1 <? 0 then Err (Errorf "unmatched ']' in %q")
        else tokenize_loop (depth - 1) (cur ++ [c]) rest
      else if is_op c && (depth =? 0) then
        match strings_TrimSpace cur with
        | [] => Err (Errorf "empty operand near position %d in %q")
        | term =>
            '(terms, ops) ← tokenize_loop depth [] rest;
            Ret (term :: terms, c :: ops)
        end
      else tokenize_loop depth (cur ++ [c]) rest
  end.

Definition tokenize (expr : gostring) : outcome (list gostring * list ascii) :=
  tokenize_loop 0 [] expr.

Definition sliceToSet (slice : list gostring) : gset gostring := list_to_set slice.

(** Ranging over the map gives some enumeration of the set; sorting makes the
    order irrelevant ([sort_Strings_Proper]). *)
Definition setToSortedSlice (m : gset gostring) : list gostring := sort_Strings (elements m).

(** The [switch op] of [parseExpr]. *)
Definition apply_op (op : ascii) (resultSet rhsSet : gset gostring) : gset gostring :=
  if decide (op = ","%char) then resultSet ∪ rhsSet
  else if decide (op = "!"%char) then resultSet ∖ rhsSet
  else if decide (op = "&"%char) then resultSet ∩ rhsSet
  else if decide (op = "^"%char) then (resultSet ∖ rhsSet) ∪ (rhsSet ∖ resultSet)
  else resultSet.

(** [for i, op := range ops]: [tokens[i+1]] panics when there is none. *)
Fixpoint apply_ops (resolver : option GroupResolver) (maxExpand : Z)
    (resultSet : gset gostring) (ops : list ascii) (tokens : list gostring)
    : outcome (gset gostring) :=
  match ops with
  | [] => Ret resultSet
  | op :: ops =>
      match tokens with
      | [] => Panic
      | token :: tokens =>
          rhs ← expandTerm token resolver maxExpand;
          apply_ops resolver maxExpand (apply_op op resultSet (sliceToSet rhs)) ops tokens
      end
  end.

(** The cap and the conversion at the end of [parseExpr]. *)
Definition finish (maxExpand : Z) (resultSet : gset gostring) : outcome (list gostring) :=
  if maxExpand <? Z.of_nat (size resultSet)
  then Err (Errorf "expansion of %d nodes exceeds limit of %d")
  else Ret (setToSortedSlice resultSet).

Definition parseExpr (expr : gostring) (resolver : option GroupResolver) (maxExpand : Z)
    : outcome (list gostring) :=
  let expr := strings_TrimSpace expr in
  match expr with
  | [] => Err (Errorf "empty pattern")
  | _ =>
      '(tokens, ops) ← tokenize expr;
      match tokens with
      | [] => Panic
      | token :: tokens =>
          result ← expandTerm token resolver maxExpand;
          resultSet ← apply_ops resolver maxExpand (sliceToSet result) ops tokens;
          finish maxExpand resultSet
      end
  end.


(** ** Specification of the product *)

(** The nested product [cartesianExpand] computes by modular arithmetic: the
    leftmost bracket varies slowest. *)
Fixpoint product (segments : list segment) : list gostring :=
  match segments with
  | [] => [[]]
  | segLiteral s :: segments => map (app s) (product segments)
  | segBracket values :: segments => values ≫= λ v, map (app v) (product segments)
  end.

Definition seg_count (seg : segment) : Z :=
  match seg with segLiteral _ => 1 | segBracket values => Z.of_nat (length values) end.

Definition count (segments : list segment) : Z :=
  foldr (λ seg n, seg_count seg * n) 1 segments.

Definition nonempty_bracket (seg : segment) : Prop := 1 ≤ seg_count seg.

(** ** Lemmas: the product *)

Lemma count_pos segments : Forall nonempty_bracket segments → 1 ≤ count segments.
Proof. unfold nonempty_bracket. induction 1; simpl; nia. Qed.

Lemma length_product segments : Z.of_nat (length (product segments)) = count segments.
Proof.
  induction segments as [|[s|values] segments IH]; simpl; [done|rewrite length_map; lia|].
  rewrite (length_bind_const _ (length (product segments))) by (intros; apply length_map). lia.
Qed.

Lemma total_loop_spec segments m t :
  Forall nonempty_bracket segments → 0 < t ≤ m → m ≤ MaxInt64 →
  total_loop segments m t =
  if t * count segments <=? m then Ret (Some (t * count segments))
  else Err (Errorf "nodeset: cartesian product %d x %d exceeds limit of %d").
Proof.
  intros Hall. revert t. induction Hall as [|[s|values] segments Hs Hall IH]; intros t Ht Hm.
  - simpl. rewrite Z.mul_1_r. by destruct (Z.leb_spec t m); [|lia].
  - cbn [total_loop]. rewrite IH by done. simpl count. by rewrite Z.mul_1_l.
  - cbn [total_loop]. unfold nonempty_bracket in Hs. simpl seg_count in Hs. cbn [count foldr seg_count].
    fold (count segments). pose proof (count_pos _ Hall) as Hc.
    set (n := Z.of_nat (length values)) in *.
    destruct (Z.eqb_spec n 0); [lia|]. destruct (Z.ltb_spec 0 m); [|lia]. simpl.
    rewrite Z.quot_div_nonneg by lia. pose proof (Z.div_mod m n). pose proof (Z.mod_pos_bound m n).
    destruct (Z.ltb_spec (m / n) t).
    + destruct (Z.leb_spec (t * (n * count segments)) m); [|done].
      exfalso. assert (m < t * n) by nia. nia.
    + assert (t * n ≤ m) by nia. rewrite i64_id by i64_lia.
      rewrite IH by nia. by rewrite Z.mul_assoc.
Qed.

Lemma strides_loop_spec segments :
  Forall nonempty_bracket segments → count segments ≤ MaxInt64 →
  snd (strides_loop segments) = count segments.
Proof.
  induction 1 as [|[s|values] segments Hs Hall IH]; [done|..];
    cbn [strides_loop count foldr seg_count]; fold (count segments); intros Hm;
    pose proof (count_pos _ Hall); unfold nonempty_bracket in Hs; simpl in Hs;
    destruct (strides_loop segments) as [strides stride]; simpl in *.
  - rewrite IH; lia.
  - rewrite IH by nia. rewrite i64_id by i64_lia. lia.
Qed.

Lemma build_string_spec segments i :
  Forall nonempty_bracket segments → count segments ≤ MaxInt64 → 0 ≤ i →
  ∃ s, build_string i segments (fst (strides_loop segments)) = Ret s ∧
       product segments !! Z.to_nat (i mod count segments) = Some s.
Proof.
  intros Hall Hm Hi. induction Hall as [|[s|values] segments Hs Hall IH].
  - exists []. split; [done|]. simpl. by rewrite Z.mod_1_r.
  - cbn [count foldr seg_count] in *. fold (count segments) in *. rewrite Z.mul_1_l in *.
    destruct (IH Hm) as (s' & Hb & Hl). exists (s ++ s'). cbn [strides_loop product].
    destruct (strides_loop segments) as [strides stride]. simpl in *.
    rewrite Hb. split; [done|]. by rewrite list_lookup_fmap, Hl.
  - pose proof (count_pos _ Hall) as Hc. unfold nonempty_bracket in Hs.
    cbn [count foldr seg_count] in *. fold (count segments) in *.
    destruct IH as (s' & Hb & Hl); [nia|].
    pose proof (strides_loop_spec segments Hall ltac:(nia)) as Hst. cbn [strides_loop product].
    destruct (strides_loop segments) as [strides stride]. simpl in Hst, Hb. subst stride.
    simpl. set (c := count segments) in *. set (n := Z.of_nat (length values)) in *.
    destruct (Z.eqb_spec c 0); [lia|].
    rewrite Z.quot_div_nonneg by lia.
    assert (0 ≤ i / c) by (apply Z.div_pos; lia). rewrite Z.rem_mod_nonneg by lia.
    pose proof (Z.mod_pos_bound (i / c) n). pose proof (Z.mod_pos_bound i c).
    destruct (lookup_lt_is_Some_2 values (Z.to_nat ((i / c) mod n))) as [v Hv]; [lia|].
    exists (v ++ s'). rewrite Hv, Hb. split; [done|].
    rewrite (Z.mul_comm n c), Z.rem_mul_r by lia.
    assert (Z.to_nat (i mod c + c * ((i / c) mod n))
            = (Z.to_nat ((i / c) mod n) * Z.to_nat c + Z.to_nat (i mod c))%nat) as -> by nia.
    rewrite lookup_bind_const, Hv; simpl.
    + by rewrite list_lookup_fmap, Hl.
    + intros x _. rewrite length_map. pose proof (length_product segments). lia.
    + lia.
Qed.

Lemma cartesianExpand_spec segments m :
  0 < m ≤ MaxInt64 → Forall nonempty_bracket segments →
  cartesianExpand segments m =
  if count segments <=? m then Ret (product segments)
  else Err (Errorf "nodeset: cartesian product %d x %d exceeds limit of %d").
Proof.
  intros Hm Hall. destruct segments as [|seg segments]; [simpl; by destruct (Z.leb_spec 1 m); [|lia]|].
  unfold cartesianExpand. generalize (seg :: segments), Hall. clear Hall. intros l Hall. clear seg segments. rename l into segments.
  rewrite total_loop_spec, Z.mul_1_l by (done || lia).
  destruct (Z.leb_spec (count segments) m); [|done]. simpl.
  destruct (Z.ltb_spec 0 m), (Z.ltb_spec m (count segments)); simpl; try lia.
  pose proof (count_pos _ Hall). destruct (Z.ltb_spec (count segments) 0); [lia|].
  apply mapM_go_Ret, Forall2_same_length_lookup. split.
  - rewrite length_seqZ. pose proof (length_product segments). lia.
  - intros k i s [-> Hk]%lookup_seqZ Hs.
    destruct (build_string_spec segments (0 + Z.of_nat k)) as (s' & -> & Hs'); [done|i64_lia|lia|].
    rewrite Z.mod_small in Hs' by lia. replace (Z.to_nat (0 + Z.of_nat k)) with k in Hs' by lia. congruence.
Qed.

(** The first loop reaches its end only when no bracket is empty. *)
Lemma total_loop_nonempty segments m t total :
  total_loop segments m t = Ret (Some total) → Forall nonempty_bracket segments.
Proof.
  revert t. induction segments as [|[s|values] segments IH]; intros t; cbn [total_loop].
  - constructor.
  - intros H. constructor; [done|eauto].
  - destruct (Z.eqb_spec (Z.of_nat (length values)) 0); [done|]. case_match; [done|].
    intros Ht. constructor; [unfold nonempty_bracket; simpl; lia|eauto].
Qed.

Lemma total_loop_no_panic segments m t : no_panic (total_loop segments m t).
Proof.
  revert t. induction segments as [|[s|values] segments IH]; intros t; cbn [total_loop];
    repeat case_match; auto with go.
Qed.

Lemma cartesianExpand_no_panic segments m :
  0 < m ≤ MaxInt64 → no_panic (cartesianExpand segments m).
Proof.
  intros Hm. destruct (total_loop segments m 1) as [[total|]|e| |] eqn:Ht.
  - rewrite cartesianExpand_spec by eauto using total_loop_nonempty. case_match; auto with go.
  - destruct segments; [done|]. unfold cartesianExpand. by rewrite Ht.
  - destruct segments; [done|]. unfold cartesianExpand. by rewrite Ht.
  - by destruct (total_loop_no_panic segments m 1).
  - destruct segments; [done|]. unfold cartesianExpand. by rewrite Ht.
Qed.

(** ** Lemmas: terms *)

(** Enough fuel gives the one result, whatever the amount: the loop ends. *)
Lemma split_loop_fuel f1 f2 rest :
  (length rest < f1)%nat → (length rest < f2)%nat → split_loop f1 rest = split_loop f2 rest.
Proof.
  revert f2 rest. induction f1 as [|f1 IH]; intros [|f2] rest H1 H2; [lia..|]. cbn [split_loop].
  destruct rest as [|c rest]; [done|]. set (s := c :: rest) in *.
  destruct (strings_IndexByte s "[") as [b|] eqn:Hb; [|done].
  destruct (strings_IndexByte (drop b s) "]") as [e|] eqn:He; [|done].
  destruct (wrap_err _ _) as [[values padding]| | |]; simpl; [|done..].
  rewrite (IH f2); [done|..]; rewrite !length_drop; subst s; simpl in *; lia.
Qed.

(** The text before the first bracket, as segments. *)
Definition literal (s : gostring) : list segment :=
  match s with [] => [] | _ => [segLiteral s] end.

Lemma splitBrackets_plain s : "["%char ∉ s → splitBrackets s = Ret (literal s).
Proof.
  intros Hs%IndexByte_None. unfold splitBrackets. cbn [split_loop].
  destruct s; [done|]. by rewrite Hs.
Qed.

Lemma splitBrackets_bracket s content rest :
  "["%char ∉ s → "]"%char ∉ content →
  splitBrackets (s ++ "["%char :: content ++ "]"%char :: rest) =
  ('(values, padding) ← wrap_err "invalid bracket expression [%s]: %w" (parseBracketExpr content);
   segments ← splitBrackets rest;
   Ret (literal s ++ segBracket (map (format_value padding) values) :: segments)).
Proof.
  intros Hs Hc. unfold splitBrackets at 1. cbn [split_loop].
  assert (∃ c l, s ++ "["%char :: content ++ "]"%char :: rest = c :: l) as (c & l & E)
    by (destruct s; simpl; eauto).
  rewrite E at 1. rewrite IndexByte_app by done.
  rewrite take_app_length, drop_app_length.
  change ("["%char :: content ++ "]"%char :: rest) with (("["%char :: content) ++ "]"%char :: rest).
  rewrite IndexByte_app by (rewrite not_elem_of_cons; done).
  rewrite take_app_length. cbn [drop].
  destruct (wrap_err _ _) as [[values padding]| | |]; simpl; [|done..].
  rewrite (cons_middle "]"%char), app_assoc, drop_app_length'
    by (rewrite length_app; simpl; lia).
  rewrite (split_loop_fuel _ (S (length rest)))
    by (rewrite ?length_app; simpl; rewrite ?length_app; simpl; lia).
  unfold splitBrackets. destruct (split_loop _ rest); simpl; [|done..].
  unfold literal. by destruct s.
Qed.

(** A bracket between two plain texts: one name per value of the bracket. *)
Lemma expandTerm_bracket s content rest values padding resolver m :
  "["%char ∉ s → "]"%char ∉ content → "["%char ∉ rest → head s ≠ Some "@"%char →
  parseBracketExpr content = Ret (values, padding) → values ≠ [] →
  0 < m ≤ MaxInt64 → Z.of_nat (length values) ≤ m →
  expandTerm (s ++ "["%char :: content ++ "]"%char :: rest) resolver m
  = Ret (map (λ v, s ++ format_value padding v ++ rest) values).
Proof.
  intros Hs Hc Hrest Hat Hp Hne Hm Hlen.
  set (term := s ++ _).
  assert (expandTerm term resolver m =
    (segments ← splitBrackets term;
     match segments with [segLiteral _] => Ret [term] | _ => cartesianExpand segments m end)) as ->.
  { unfold expandTerm, term. destruct s as [|c s]; [done|]. simpl in *.
    destruct c as [[] [] [] [] [] [] [] []]; done || congruence. }
  unfold term. rewrite splitBrackets_bracket, Hp by done. simpl.
  rewrite splitBrackets_plain by done. simpl.
  set (brk := map (format_value padding) values).
  assert (Forall nonempty_bracket (literal s ++ segBracket brk :: literal rest)) as Hall.
  { assert (∀ t, Forall nonempty_bracket (literal t)) as Hl by (intros []; simpl; repeat constructor; done).
    apply Forall_app. split; [done|]. constructor; [|done]. unfold nonempty_bracket, brk. simpl.
    rewrite length_map. destruct values; simpl; [done|lia]. }
  assert (product (literal s ++ segBracket brk :: literal rest)
          = map (λ v, s ++ format_value padding v ++ rest) values) as Hprod.
  { assert (product (segBracket brk :: literal rest)
            = map (λ v, format_value padding v ++ rest) values) as E.
    { unfold brk. clear. cbn [product]. induction values as [|v values IH]; [done|].
      cbn [map mbind list_bind]. rewrite IH. destruct rest; simpl; by rewrite ?app_nil_r. }
    destruct s as [|c s]; unfold literal at 1; cbn [app]; [exact E|].
    cbn [product] in *. rewrite E, map_map. done. }
  pose proof (cartesianExpand_spec _ m Hm Hall) as Hcart.
  rewrite <-length_product, Hprod, length_map in Hcart.
  destruct (Z.leb_spec (Z.of_nat (length values)) m); [|lia].
  rewrite <-Hcart. unfold literal. by destruct s, rest.
Qed.

(** ** Lemmas: expressions *)

Lemma is_op_cases c :
  is_op c = true ↔ c = ","%char ∨ c = "!"%char ∨ c = "&"%char ∨ c = "^"%char.
Proof. unfold is_op. rewrite !orb_true_iff, !bool_decide_eq_true. tauto. Qed.

(** One more term than operators, no empty term, only operators. *)
Definition tokens_ok (t : list gostring * list ascii) : Prop :=
  length (fst t) = S (length (snd t)) ∧ Forall (λ s, s ≠ []) (fst t) ∧
  Forall (λ c, is_op c = true) (snd t).

Lemma tokenize_loop_ok depth cur rest t : tokenize_loop depth cur rest = Ret t → tokens_ok t.
Proof.
  revert depth cur t. induction rest as [|c rest IH]; intros depth cur t; cbn [tokenize_loop].
  - destruct (negb _); [done|]. destruct (strings_TrimSpace cur); [done|].
    intros [= <-]. repeat constructor. done.
  - case_decide; [by apply IH|]. case_decide; [case_match; [done|by apply IH]|].
    destruct (is_op c && (depth =? 0)) eqn:Hop; [|by apply IH].
    apply andb_true_iff in Hop as [Hop _].
    destruct (strings_TrimSpace cur) eqn:Ht; [done|].
    intros ([terms ops] & Hl & [= <-])%outcome_bind_Ret.
    apply IH in Hl as (? & ? & ?). unfold tokens_ok in *. simpl in *.
    split_and!; [lia|by constructor..].
Qed.

(** Appending an operator at depth zero starts the next term. *)
Lemma tokenize_loop_app depth cur e op rest terms ops :
  tokenize_loop depth cur e = Ret (terms, ops) → is_op op = true →
  tokenize_loop depth cur (e ++ op :: rest) =
  ('(terms', ops') ← tokenize_loop 0 [] rest; Ret (terms ++ terms', ops ++ op :: ops')).
Proof.
  intros He Hop. revert depth cur terms ops He.
  induction e as [|c e IH]; intros depth cur terms ops; cbn [tokenize_loop app].
  - destruct (negb (depth =? 0)) eqn:Hd; [done|]. apply negb_false_iff, Z.eqb_eq in Hd as ->.
    rewrite !decide_False by (intros ->; done). rewrite Hop. simpl.
    destruct (strings_TrimSpace cur); [done|]. intros [= <- <-].
    by destruct (tokenize_loop 0 [] rest) as [[]| | |].
  - case_decide; [by apply IH|]. case_decide; [case_match; [done|by apply IH]|].
    destruct (is_op c && (depth =? 0)); [|by apply IH].
    destruct (strings_TrimSpace cur); [done|].
    intros ([terms1 ops1] & Hl & [= <- <-])%outcome_bind_Ret.
    rewrite (IH _ _ _ _ Hl). by destruct (tokenize_loop 0 [] rest) as [[]| | |].
Qed.

Lemma apply_ops_snoc resolver m set ops tokens op token :
  length tokens = length ops →
  apply_ops resolver m set (ops ++ [op]) (tokens ++ [token]) =
  (set' ← apply_ops resolver m set ops tokens; rhs ← expandTerm token resolver m;
   Ret (apply_op op set' (sliceToSet rhs))).
Proof.
  revert set tokens. induction ops as [|o ops IH]; intros set [|t tokens] Hlen; try done; simpl.
  destruct (expandTerm t resolver m); simpl; [|done..]. apply IH. simpl in Hlen. lia.
Qed.

Lemma sliceToSet_sorted X : sliceToSet (setToSortedSlice X) = X.
Proof.
  unfold sliceToSet, setToSortedSlice. apply set_eq. intros x.
  by rewrite elem_of_list_to_set, elem_of_sort_Strings, elem_of_elements.
Qed.

Lemma finish_Ret m X l :
  finish m X = Ret l → l = setToSortedSlice X ∧ Z.of_nat (size X) ≤ m.
Proof. unfold finish. destruct (Z.ltb_spec m (Z.of_nat (size X))); naive_solver. Qed.

Lemma parseExpr_finish expr resolver m l :
  parseExpr expr resolver m = Ret l → ∃ X, finish m X = Ret l.
Proof.
  unfold parseExpr. destruct (strings_TrimSpace expr); [done|].
  intros ([tokens ops] & _ & H)%outcome_bind_Ret. destruct tokens; [done|].
  apply outcome_bind_Ret in H as (result & _ & H).
  apply outcome_bind_Ret in H as (X & _ & H). eauto.
Qed.

Lemma parseExpr_snoc_spec e op t resolver m A token B :
  strings_TrimSpace e = e →
  strings_TrimSpace (e ++ op :: t) = e ++ op :: t →
  is_op op = true → tokenize t = Ret ([token], []) →
  parseExpr e resolver m = Ret A → expandTerm token resolver m = Ret B →
  parseExpr (e ++ op :: t) resolver m
  = finish m (apply_op op (sliceToSet A) (sliceToSet B)).
Proof.
  intros He Het Hop Ht. unfold parseExpr. rewrite He, Het.
  destruct e as [|c e]; [done|]. cbn [app]. change (c :: e ++ op :: t) with ((c :: e) ++ op :: t).
  generalize (c :: e). clear c e He Het. intros e.
  intros ([tokens ops] & Htok & HA)%outcome_bind_Ret HB.
  unfold tokenize in *. rewrite (tokenize_loop_app _ _ _ _ _ _ _ Htok Hop), Ht. simpl.
  apply tokenize_loop_ok in Htok as [Hlen _]. simpl in Hlen.
  destruct tokens as [|tok tokens]; [done|]. cbn [app].
  apply outcome_bind_Ret in HA as (res & -> & HA). simpl.
  apply outcome_bind_Ret in HA as (X & HX & HA%finish_Ret).
  destruct HA as [-> Hsz]. simpl in Hlen.
  rewrite apply_ops_snoc, HX by lia. simpl. rewrite HB. simpl. by rewrite sliceToSet_sorted.
Qed.

(** An expression that is one term. *)
Lemma parseExpr_single e resolver m :
  strings_TrimSpace e = e → e ≠ [] → tokenize e = Ret ([e], []) →
  parseExpr e resolver m = (names ← expandTerm e resolver m; finish m (sliceToSet names)).
Proof. intros He Hne Ht. unfold parseExpr. rewrite He, Ht. by destruct e. Qed.

(** ** Lemmas: patterns of plain text and one bracket *)

(** A byte with no meaning in patterns, and no space. *)
Definition name_char (c : ascii) : bool :=
  solid c && negb (bool_decide (c ∈ ["*"; "?"; "["; "]"; "@"; ","; "!"; "&"; "^"]%char)).

Definition name_text (s : gostring) : Prop := Forall (λ c, name_char c = true) s.

(** The inside of a bracket: no bracket, no space. *)
Definition bracket_text (s : gostring) : Prop :=
  Forall (λ c, solid c = true ∧ c ≠ "["%char ∧ c ≠ "]"%char) s.

Lemma name_text_bracket_text s : name_text s → bracket_text s.
Proof.
  intros Hs. eapply Forall_impl; [exact Hs|]. intros c Hc. split_and!.
  - unfold name_char in Hc. by apply andb_true_iff in Hc as [? _].
  - by intros ->.
  - by intros ->.
Qed.

Lemma name_text_not_in s c : name_text s → name_char c = false → c ∉ s.
Proof.
  intros Hs Hc Hin. unfold name_text in Hs. rewrite Forall_forall in Hs.
  apply Hs in Hin. congruence.
Qed.

Lemma name_text_solid s : name_text s → Forall (λ c, solid c = true) s.
Proof.
  intros Hs. eapply Forall_impl; [exact Hs|]. intros c. unfold name_char.
  by intros [? _]%andb_true_iff.
Qed.

Section bracket_pattern.
Context (s content rest : gostring) (Hs : name_text s) (Hc : bracket_text content) (Hr : name_text rest).
Let pattern : gostring := s ++ "["%char :: content ++ "]"%char :: rest.

Lemma pattern_trim : strings_TrimSpace pattern = pattern.
Proof.
  apply TrimSpace_solid. unfold pattern. apply Forall_app. split; [by apply name_text_solid|].
  constructor; [done|]. apply Forall_app. split; [|constructor; [done|by apply name_text_solid]].
  eapply Forall_impl; [exact Hc|]. by intros c [? _].
Qed.

Lemma pattern_nonempty : pattern ≠ [].
Proof. unfold pattern. by destruct s. Qed.

(** Plain text goes to the current term, and so does anything in a bracket. *)
Lemma tokenize_text cur more text depth :
  name_text text → tokenize_loop depth cur (text ++ more) = tokenize_loop depth (cur ++ text) more.
Proof.
  intros Ht. revert cur. induction Ht as [|c text Hch Ht IH]; intros cur; [by rewrite app_nil_r|].
  cbn [app tokenize_loop].
  assert (c ≠ "["%char ∧ c ≠ "]"%char ∧ is_op c = false) as (? & ? & Hop).
  { split_and!; [intros ->; discriminate Hch..|].
    apply not_true_iff_false. rewrite is_op_cases. intros [->|[->|[->| ->]]]; discriminate Hch. }
  rewrite !decide_False, Hop by done. cbn [andb]. by rewrite IH, <-app_assoc.
Qed.

Lemma tokenize_bracket_text cur more :
  tokenize_loop 1 cur (content ++ more) = tokenize_loop 1 (cur ++ content) more.
Proof.
  clear pattern Hs Hr. revert cur. induction Hc as [|c text (_ & H1 & H2) Ht IH]; intros cur;
    [by rewrite app_nil_r|].
  cbn [app tokenize_loop]. rewrite !decide_False, andb_false_r by done.
  by rewrite IH, <-app_assoc.
Qed.

(** Such a pattern is one term. *)
Lemma tokenize_pattern : tokenize pattern = Ret ([pattern], []).
Proof.
  unfold tokenize. unfold pattern at 1. rewrite tokenize_text by done. cbn [tokenize_loop app].
  rewrite decide_True by done. change (0 + 1) with 1. rewrite tokenize_bracket_text.
  cbn [tokenize_loop]. rewrite decide_False, decide_True by done. simpl.
  rewrite <-(app_nil_r rest) at 1. rewrite tokenize_text by done. cbn [tokenize_loop].
  rewrite <-!app_assoc. change (s ++ ["["%char] ++ content ++ ["]"%char] ++ rest) with pattern.
  rewrite pattern_trim. pose proof pattern_nonempty. by destruct pattern.
Qed.

Lemma parseExpr_pattern resolver m values padding :
  parseBracketExpr content = Ret (values, padding) → values ≠ [] →
  0 < m ≤ MaxInt64 → Z.of_nat (length values) ≤ m →
  ∃ l, parseExpr pattern resolver m = Ret l ∧
       ∀ n, n ∈ l ↔ ∃ v, v ∈ values ∧ n = s ++ format_value padding v ++ rest.
Proof.
  intros Hp Hne Hm Hlen.
  pose proof (expandTerm_bracket s content rest values padding resolver m) as He.
  assert ("]"%char ∉ content) as Hbr.
  { intros H. unfold bracket_text in Hc. rewrite Forall_forall in Hc. by apply Hc in H as (_ & _ & ?). }
  rewrite Hp in He. specialize (He ltac:(by apply name_text_not_in) Hbr
    ltac:(by apply name_text_not_in)).
  assert (head s ≠ Some "@"%char) as Hat.
  { destruct s as [|c t]; [done|]. intros [= ->]. apply Forall_cons_1 in Hs as [H _]. discriminate H. }
  specialize (He Hat eq_refl Hne Hm Hlen). fold pattern in He.
  rewrite parseExpr_single, He by auto using pattern_trim, pattern_nonempty, tokenize_pattern.
  simpl. unfold finish. set (X := sliceToSet _).
  assert (∀ n, n ∈ X ↔ ∃ v, v ∈ values ∧ n = s ++ format_value padding v ++ rest) as HX.
  { intros n. unfold X, sliceToSet. rewrite elem_of_list_to_set, list_elem_of_fmap.
    naive_solver. }
  assert (Z.of_nat (size X) ≤ m) as Hsz.
  { unfold X, sliceToSet. etransitivity; [|exact Hlen].
    etransitivity; [apply inj_le, size_list_le|]. by rewrite length_map. }
  destruct (Z.ltb_spec m (Z.of_nat (size X))); [lia|]. eexists. split; [done|].
  intros n. unfold setToSortedSlice. rewrite elem_of_sort_Strings, elem_of_elements. apply HX.
Qed.

End bracket_pattern.

(** ** Properties *)

(** C9: under a positive limit [cartesianExpand] never panics, on any segments;
    without an empty bracket it returns exactly the nested product, leftmost
    bracket slowest, when the number of names is within the limit, and the
    limit error, decided without overflow, when it is not. *)
Theorem cartesianExpand_product segments m :
  0 < m ≤ MaxInt64 →
  no_panic (cartesianExpand segments m) ∧
  (Forall nonempty_bracket segments →
   cartesianExpand segments m =
   if count segments <=? m then Ret (product segments)
   else Err (Errorf "nodeset: cartesian product %d x %d exceeds limit of %d")).
Proof. auto using cartesianExpand_no_panic, cartesianExpand_spec. Qed.

(** A term with one bracket expands to one name per value of the bracket,
    printed at the bracket's padding between the text before and after it. *)
Theorem expandTerm_one_bracket s content rest values padding resolver m :
  "["%char ∉ s → "]"%char ∉ content → "["%char ∉ rest → head s ≠ Some "@"%char →
  parseBracketExpr content = Ret (values, padding) → values ≠ [] →
  0 < m ≤ MaxInt64 → Z.of_nat (length values) ≤ m →
  expandTerm (s ++ "["%char :: content ++ "]"%char :: rest) resolver m
  = Ret (map (λ v, s ++ format_value padding v ++ rest) values).
Proof. apply expandTerm_bracket. Qed.

(** expressions are evaluated from left to right: appending an operator and
    one more term applies the operator to the set of the expression so far and
    the names of the term, and then checks the limit. *)
Theorem parseExpr_snoc e op t resolver m A token B :
  strings_TrimSpace e = e →
  strings_TrimSpace (e ++ op :: t) = e ++ op :: t →
  is_op op = true → tokenize t = Ret ([token], []) →
  parseExpr e resolver m = Ret A → expandTerm token resolver m = Ret B →
  parseExpr (e ++ op :: t) resolver m
  = finish m (apply_op op (sliceToSet A) (sliceToSet B)).
Proof. apply parseExpr_snoc_spec. Qed.

(** whatever the expression and the resolver, a result of [parseExpr] is
    strictly sorted (sorted and free of duplicates) and within the limit. *)
Theorem parseExpr_sorted_bounded expr resolver m l :
  parseExpr expr resolver m = Ret l →
  StronglySorted str_le l ∧ NoDup l ∧ Z.of_nat (length l) ≤ m.
Proof.
  intros (X & [-> HX]%finish_Ret)%parseExpr_finish. unfold setToSortedSlice.
  rewrite NoDup_sort_Strings. split_and!; [apply sort_Strings_sorted|apply NoDup_elements|].
  by rewrite sort_Strings_perm.
Qed.

(** ** Witnesses *)

Definition rack_segments : list segment :=
  [segLiteral (go "r"); segBracket [go "1"; go "2"]; segLiteral (go "n"); segBracket [go "7"; go "8"]].

Lemma cartesianExpand_product_witness :
  cartesianExpand rack_segments 4 = Ret [go "r1n7"; go "r1n8"; go "r2n7"; go "r2n8"] ∧
  no_panic (cartesianExpand rack_segments 3).
Proof.
  split; [reflexivity|]. apply cartesianExpand_product. unfold MaxInt64. lia.
Defined.

Lemma expandTerm_one_bracket_witness :
  expandTerm (go "mds-[08-10].eu") None 10 = Ret [go "mds-08.eu"; go "mds-09.eu"; go "mds-10.eu"].
Proof.
  apply (expandTerm_one_bracket (go "mds-") (go "08-10") (go ".eu") [8; 9; 10] 2 None 10);
    by_decide.
Defined.

Lemma parseExpr_snoc_witness :
  parseExpr (go "n[1-3]!n2") None 10 = Ret [go "n1"; go "n3"] ∧
  parseExpr (go "n[1-3]!n2") None 10
  = finish 10 (apply_op "!"%char (sliceToSet [go "n1"; go "n2"; go "n3"]) (sliceToSet [go "n2"])).
Proof.
  split; [vm_compute; reflexivity|].
  apply (parseExpr_snoc (go "n[1-3]") "!"%char (go "n2") None 10
           [go "n1"; go "n2"; go "n3"] (go "n2") [go "n2"]); vm_compute; reflexivity.
Defined.

Lemma parseExpr_sorted_bounded_witness :
  parseExpr (go "b,a,b") None 10 = Ret [go "a"; go "b"] ∧ NoDup [go "a"; go "b"].
Proof.
  split; [vm_compute; reflexivity|].
  eapply (parseExpr_sorted_bounded (go "b,a,b") None 10). vm_compute. reflexivity.
Defined.
