(* ===== verification/NodeFold.v ===== *)
(** * Folding names: pkg/mesh/nodeset/fold.go

    [Fold] groups names by their prefix, turns the numeric suffixes of a group
    into a [rangeSet] and prints it between brackets. *)

From Stdlib Require Import Ascii.
From stdpp Require Import base numbers gmap strings sorting list.
From S2P Require Import Prelude GoStrings RangeSet Bracket Parser.

Open Scope Z_scope.

(** ** Definitions *)

(** The digits at the end of a name: the loop runs from the last byte, so on the
    reversed name. *)
Fixpoint span_digits (s : gostring) : gostring * gostring :=
  match s with
  | [] => ([], [])
  | c :: s' => if is_digit c then let '(ds, r) := span_digits s' in (c :: ds, r) else ([], s)
  end.

Definition splitTrailingNumber (name : gostring) : gostring * gostring :=
  let '(ds, r) := span_digits (reverse name) in (reverse r, reverse ds).

(** [groups[prefix] = append(groups[prefix], node)] *)
Definition add_group (groups : gmap gostring (list gostring)) (node : gostring)
    : gmap gostring (list gostring) :=
  let prefix := fst (splitTrailingNumber node) in
  <[prefix := default [] (groups !! prefix) ++ [node]]> groups.

Definition groupByPrefix (nodes : list gostring) : gmap gostring (list gostring) :=
  fold_left add_group nodes ∅.

(** [nodeEntry]: the value and the padding of a suffix, and the suffix itself. *)
Record nodeEntry := NodeEntry { ne_value : Z; ne_padding : Z; ne_raw : gostring }.

(** The body of the loop of [foldGroup] on one name: an entry, or a name kept as
    it is. *)
Definition parse_entry (node : gostring) : nodeEntry + gostring :=
  let suffix := snd (splitTrailingNumber node) in
  match suffix with
  | [] => inr node
  | _ =>
      match strconv_Atoi suffix with
      | Ret v => inl (NodeEntry v (detectPadding suffix) suffix)
      | _ => inr node
      end
  end.

Fixpoint parse_entries (nodes : list gostring) : list nodeEntry * list gostring :=
  match nodes with
  | [] => ([], [])
  | node :: nodes =>
      let '(entries, nonNumeric) := parse_entries nodes in
      match parse_entry node with
      | inl e => (e :: entries, nonNumeric)
      | inr node => (entries, node :: nonNumeric)
      end
  end.

(** The loop that turns sorted values into ranges: [cur] is the last range. *)
Fixpoint build_ranges (cur : rang) (values : list Z) : list rang :=
  match values with
  | [] => [cur]
  | v :: values =>
      if i64 (v - 1) <=? r_hi cur
      then build_ranges (if r_hi cur <? v then Rang (r_lo cur) v else cur) values
      else cur :: build_ranges (Rang v v) values
  end.

Definition ranges_of (values : list Z) : list rang :=
  match values with
  | [] => []
  | v :: values => build_ranges (Rang v v) values
  end.

Definition formatPadded (v padding : Z) : gostring :=
  if 0 <? padding then fmt_0d padding v else strconv_Itoa v.

Definition entry_less (a b : nodeEntry) : bool := ne_value a <? ne_value b.

Definition max_padding (entries : list nodeEntry) : Z :=
  fold_left (λ p e, if p <? ne_padding e then ne_padding e else p) entries 0.

Section sort.
Context `{GoSort}.

Definition foldGroup (prefix : gostring) (nodes : list gostring) : outcome gostring :=
  let '(entries, nonNumeric) := parse_entries nodes in
  match sort_slice entry_less entries with
  | [] => Ret (strings_Join (sort_Strings nonNumeric) (go ","))
  | e0 :: es =>
      let entries := e0 :: es in
      let padding := max_padding entries in
      folded ← rangeSet_Fold (RangeSet (ranges_of (map ne_value entries)) padding);
      let result :=
        match es with
        | [] => prefix ++ formatPadded (ne_value e0) padding
        | _ => prefix ++ "["%char :: folded ++ go "]"
        end in
      match nonNumeric with
      | [] => Ret result
      | _ => Ret (result ++ go "," ++ strings_Join (sort_Strings nonNumeric) (go ","))
      end
  end.

(** The keys of a map, sorted: [for k := range groups { keys = append(keys, k) }]
    and [sort.Strings(keys)]. *)
Definition sorted_keys {V} (groups : gmap gostring V) : list gostring :=
  sort_Strings (map fst (map_to_list groups)).

(** The parts of one group. *)
Definition fold_prefix (groups : gmap gostring (list gostring)) (prefix : gostring)
    : outcome (list gostring) :=
  let entries := default [] (groups !! prefix) in
  match prefix with
  | [] => Ret (sort_Strings entries)
  | _ => part ← foldGroup prefix entries; Ret [part]
  end.

Definition Fold (nodes : list gostring) : outcome gostring :=
  match nodes with
  | [] => Ret []
  | [node] => Ret node
  | _ =>
      let groups := groupByPrefix nodes in
      partss ← mapM_go (fold_prefix groups) (sorted_keys groups);
      Ret (strings_Join (concat partss) (go ","))
  end.

End sort.

(** ** Lemmas: groups *)

Definition prefix_of (node : gostring) : gostring := fst (splitTrailingNumber node).

Lemma groupByPrefix_snoc nodes node :
  groupByPrefix (nodes ++ [node]) = add_group (groupByPrefix nodes) node.
Proof. unfold groupByPrefix. by rewrite fold_left_app. Qed.

(** A group holds the names of its prefix in the order of the list. *)
Lemma groupByPrefix_lookup nodes p :
  default [] (groupByPrefix nodes !! p) = filter (λ n, prefix_of n = p) nodes.
Proof.
  induction nodes as [|n nodes IH] using rev_ind; [reflexivity|].
  rewrite groupByPrefix_snoc, filter_app, <-IH. unfold add_group. fold (prefix_of n).
  rewrite filter_cons, filter_nil. case_decide as Hp.
  - subst p. by rewrite lookup_insert_eq.
  - by rewrite lookup_insert_ne, app_nil_r by done.
Qed.

Lemma groupByPrefix_dom nodes p :
  is_Some (groupByPrefix nodes !! p) ↔ ∃ n, n ∈ nodes ∧ prefix_of n = p.
Proof.
  induction nodes as [|n nodes IH] using rev_ind.
  - change (groupByPrefix []) with (∅ : gmap gostring (list gostring)).
    rewrite lookup_empty. split; [by intros []|]. set_solver.
  - rewrite groupByPrefix_snoc. unfold add_group. fold (prefix_of n).
    rewrite lookup_insert_is_Some', IH. set_solver.
Qed.

Lemma elem_of_sorted_keys {V} (m : gmap gostring V) k : k ∈ sorted_keys m ↔ is_Some (m !! k).
Proof.
  unfold sorted_keys. rewrite elem_of_sort_Strings, list_elem_of_fmap. split.
  - intros ([k' v] & -> & Hkv%elem_of_map_to_list). eauto.
  - intros [v Hv]. exists (k, v). split; [done|]. by apply elem_of_map_to_list.
Qed.

Lemma NoDup_sorted_keys {V} (m : gmap gostring V) : NoDup (sorted_keys m).
Proof. unfold sorted_keys. rewrite NoDup_sort_Strings. apply NoDup_fst_map_to_list. Qed.

(** Taken together, the groups hold the names they were made from. *)
Lemma groupByPrefix_perm nodes :
  (sorted_keys (groupByPrefix nodes) ≫= λ p, default [] (groupByPrefix nodes !! p)) ≡ₚ nodes.
Proof.
  rewrite (bind_ext_in _ (λ p, filter (λ n, prefix_of n = p) nodes))
    by auto using groupByPrefix_lookup.
  apply bind_filter_perm; [apply NoDup_sorted_keys|].
  intros n Hn. apply elem_of_sorted_keys, groupByPrefix_dom. eauto.
Qed.

(** ** Lemmas: the ranges of a sorted list *)

Lemma build_ranges_spec cur values b :
  b < r_lo cur → -1 ≤ b → StronglySorted Z.lt (r_hi cur :: values) → r_lo cur ≤ r_hi cur →
  Forall (λ v, v < MaxInt64) (r_hi cur :: values) →
  chain b (build_ranges cur values) ∧
  ranges_values (build_ranges cur values) = seqZ (r_lo cur) (r_hi cur - r_lo cur + 1) ++ values.
Proof.
  revert cur b. induction values as [|v values IH]; intros cur b Hb Hb0 Hs Hle Hall; cbn [build_ranges].
  - apply Forall_cons_1 in Hall as [Hmax _]. split; [simpl; lia|].
    unfold ranges_values. simpl. by rewrite !app_nil_r.
  - apply StronglySorted_inv in Hs as [Hs Hv]. apply Forall_cons_1 in Hall as [Hmax Hall].
    apply Forall_cons_1 in Hv as [Hv _]. pose proof (Forall_inv Hall) as Hvm. simpl in Hvm.
    rewrite i64_id by i64_lia. destruct (Z.leb_spec (v - 1) (r_hi cur)).
    + destruct (Z.ltb_spec (r_hi cur) v); [|lia].
      destruct (IH (Rang (r_lo cur) v) b) as [IH1 IH2]; [simpl; (done || lia)..|].
      split; [done|]. rewrite IH2. simpl. assert (v = r_hi cur + 1) as -> by lia.
      replace (r_hi cur + 1 - r_lo cur + 1) with ((r_hi cur - r_lo cur + 1) + 1) by lia.
      rewrite (seqZ_app _ (r_hi cur - r_lo cur + 1) 1) by lia. rewrite <-app_assoc. f_equal.
      simpl. f_equal. lia.
    + destruct (IH (Rang v v) (r_hi cur + 1)) as [IH1 IH2]; [simpl; (done || lia)..|].
      split; [simpl; split_and!; (done || lia)|].
      unfold ranges_values in *. cbn [mbind list_bind]. rewrite IH2. simpl.
      by replace (v - v + 1) with 1 by lia.
Qed.

Lemma ranges_of_spec values :
  StronglySorted Z.lt values → Forall (λ v, 0 ≤ v < MaxInt64) values →
  chain (-1) (ranges_of values) ∧ ranges_values (ranges_of values) = values.
Proof.
  destruct values as [|v values]; [done|]. intros Hs Hall. cbn [ranges_of].
  destruct (build_ranges_spec (Rang v v) values (-1)) as [H1 H2]; simpl.
  - apply Forall_cons_1 in Hall as [? _]. lia.
  - lia.
  - done.
  - lia.
  - eapply Forall_impl; [exact Hall|]. simpl. lia.
  - split; [done|]. rewrite H2. simpl. by replace (v - v + 1) with 1 by lia.
Qed.

(** ** Lemmas: entries *)

Lemma span_digits_app ds r :
  Forall (λ c, is_digit c = true) ds → (∀ c, head r = Some c → is_digit c = false) →
  span_digits (ds ++ r) = (ds, r).
Proof.
  intros Hds Hr. induction Hds as [|c ds Hc Hds IH]; simpl.
  - destruct r as [|c r]; [done|]. simpl. by rewrite (Hr c).
  - by rewrite Hc, IH.
Qed.

Lemma splitTrailingNumber_app s ds :
  Forall (λ c, is_digit c = true) ds → (∀ c, last s = Some c → is_digit c = false) →
  splitTrailingNumber (s ++ ds) = (s, ds).
Proof.
  intros Hds Hs. unfold splitTrailingNumber. rewrite reverse_app, span_digits_app.
  - by rewrite !reverse_involutive.
  - by apply Forall_reverse.
  - intros c Hc. apply Hs. by rewrite <-head_reverse.
Qed.

Lemma format_value_formatInt l p v : format_value p v = rangeSet_formatInt (RangeSet l p) v.
Proof.
  unfold format_value, rangeSet_formatInt. simpl.
  by destruct (Z.ltb_spec 0 p), (Z.leb_spec p 0); [lia|..|lia].
Qed.

(** The entry of a number printed at padding [p]. *)
Definition entry (p v : Z) : nodeEntry :=
  NodeEntry v (detectPadding (format_value p v)) (format_value p v).

Section one_prefix.
Context (s : gostring) (p : Z).
Context (Hs : s ≠ []) (Hlast : ∀ c, last s = Some c → is_digit c = false).

Lemma name_split v : 0 ≤ v ≤ MaxInt64 → splitTrailingNumber (s ++ format_value p v) = (s, format_value p v).
Proof.
  intros Hv. apply splitTrailingNumber_app; [|done].
  rewrite (format_value_formatInt []). by apply formatInt_digits.
Qed.

Lemma parse_entries_names vs :
  Forall (λ v, 0 ≤ v ≤ MaxInt64) vs →
  parse_entries (map (λ v, s ++ format_value p v) vs) = (map (entry p) vs, []).
Proof.
  induction 1 as [|v vs Hv Hvs IH]; [done|]. cbn [map parse_entries]. rewrite IH.
  unfold parse_entry. rewrite name_split by done. cbn [snd].
  destruct (formatInt_digits (RangeSet [] p) v Hv) as (Hne & _ & Ha).
  rewrite <-format_value_formatInt in Hne, Ha. unfold entry. rewrite Ha.
  by destruct (format_value p v).
Qed.

Lemma group_names vs :
  vs ≠ [] → Forall (λ v, 0 ≤ v ≤ MaxInt64) vs →
  let nodes := map (λ v, s ++ format_value p v) vs in
  sorted_keys (groupByPrefix nodes) = [s] ∧ default [] (groupByPrefix nodes !! s) = nodes.
Proof.
  intros Hne Hvs nodes.
  assert (∀ n, n ∈ nodes → prefix_of n = s) as Hpre.
  { intros n (v & -> & Hv)%list_elem_of_fmap. rewrite Forall_forall in Hvs.
    unfold prefix_of. by rewrite name_split by auto. }
  split.
  - apply Permutation_singleton_r, NoDup_Permutation; [apply NoDup_sorted_keys|apply NoDup_singleton|].
    intros k. rewrite elem_of_sorted_keys, groupByPrefix_dom, list_elem_of_singleton. split.
    + by intros (n & Hn%Hpre & <-).
    + intros ->. destruct vs as [|v vs]; [done|].
      exists (s ++ format_value p v). split; [left|]. apply Hpre. left.
  - rewrite groupByPrefix_lookup. clear Hne. induction nodes as [|n nodes IH]; [done|].
    rewrite filter_cons, decide_True by (apply Hpre; left). f_equal. apply IH.
    intros m Hm. apply Hpre. by right.
Qed.

Lemma entry_padding v :
  0 ≤ v → ne_padding (entry p v) = 0 ∨ ne_padding (entry p v) = p.
Proof.
  intros Hv. unfold entry. cbn [ne_padding]. rewrite (format_value_formatInt []).
  rewrite formatInt_padding by done. simpl. case_match; auto.
Qed.

Lemma max_padding_spec entries acc :
  0 ≤ acc → (acc = 0 ∨ acc = p) →
  Forall (λ e, ne_padding e = 0 ∨ ne_padding e = p) entries →
  let M := fold_left (λ p e, if p <? ne_padding e then ne_padding e else p) entries acc in
  (M = 0 ∨ M = p) ∧ acc ≤ M ∧ Forall (λ e, ne_padding e ≤ M) entries.
Proof.
  intros Hacc Hc Hall. revert acc Hacc Hc. induction Hall as [|e entries He Hall IH]; intros acc Hacc Hc.
  - simpl. auto with lia.
  - cbn [fold_left]. set (acc' := if acc <? ne_padding e then ne_padding e else acc).
    assert (acc ≤ acc' ∧ ne_padding e ≤ acc' ∧ (acc' = 0 ∨ acc' = p)) as (? & ? & ?)
      by (unfold acc'; destruct (Z.ltb_spec acc (ne_padding e)); intuition lia).
    destruct (IH acc') as (HM1 & HM2 & HM3); [lia|done|]. cbn zeta in *.
    split_and!; [done|lia|]. constructor; [lia|done].
Qed.

(** The padding found prints every name of the group the way it was. *)
Lemma max_padding_prints l vs v :
  Forall (λ v, 0 ≤ v) vs → v ∈ vs →
  rangeSet_formatInt (RangeSet l (max_padding (map (entry p) vs))) v = format_value p v.
Proof.
  intros Hvs Hv. rewrite <-(format_value_formatInt l), (format_value_formatInt [] p).
  destruct (max_padding_spec (map (entry p) vs) 0) as (Hm & _ & Hall); [done|by left| |].
  { apply Forall_map. eapply Forall_impl; [exact Hvs|]. intros w Hw. by apply entry_padding. }
  rewrite Forall_forall in Hvs. apply (formatInt_reformat _ v v); [split; [auto|done]|done|].
  rewrite <-format_value_formatInt. apply (proj1 (Forall_forall _ _) Hall (entry p v)).
  apply list_elem_of_fmap. eauto.
Qed.

End one_prefix.

(** ** Lemmas: what [Fold] prints has no bracket and no space *)

Lemma digits_bracket_text t : Forall (λ c, is_digit c = true) t → bracket_text t.
Proof.
  intros Ht. eapply Forall_impl; [exact Ht|]. intros c Hc.
  split_and!; [by apply is_digit_solid|by intros ->..].
Qed.

Lemma formatInt_bracket_text rs v : 0 ≤ v ≤ MaxInt64 → bracket_text (rangeSet_formatInt rs v).
Proof. intros Hv. apply digits_bracket_text. by apply formatInt_digits. Qed.

Lemma bracket_text_app a b : bracket_text (a ++ b) ↔ bracket_text a ∧ bracket_text b.
Proof. apply Forall_app. Qed.

Lemma bracket_text_cons c b :
  solid c = true → c ≠ "["%char → c ≠ "]"%char → bracket_text b → bracket_text (c :: b).
Proof. intros. by constructor. Qed.

Lemma foldRanges_bracket_text rs :
  Forall (λ r, 0 ≤ r_lo r ≤ MaxInt64 ∧ 0 ≤ r_hi r ≤ MaxInt64) (rs_ranges rs) →
  bracket_text (rangeSet_foldRanges rs).
Proof.
  unfold rangeSet_foldRanges. intros Hr.
  assert (Forall bracket_text (map (fold_part rs) (rs_ranges rs))) as Hparts.
  { apply Forall_map. eapply Forall_impl; [exact Hr|]. intros r [Hlo Hhi]. unfold fold_part.
    case_match; [by apply formatInt_bracket_text|].
    apply bracket_text_app. split; [by apply formatInt_bracket_text|].
    apply bracket_text_cons; [done..|]. by apply formatInt_bracket_text. }
  induction Hparts as [|t parts Ht Hparts IH]; [constructor|].
  destruct parts as [|u parts]; [done|]. change (strings_Join (t :: u :: parts) (go ","))
    with (t ++ go "," ++ strings_Join (u :: parts) (go ",")).
  apply bracket_text_app. split; [done|]. by apply bracket_text_cons.
Qed.

Lemma Fold_bracket_text rs t :
  rangeSet_wf rs → rangeSet_Fold rs = Ret t → bracket_text t.
Proof.
  intros Hwf. unfold rangeSet_Fold. destruct (rs_ranges rs) as [|r0 l] eqn:Hl; [intros [= <-]; constructor|].
  clear r0 l Hl. rewrite rangeSet_Expand_spec by done. cbn [mbind outcome_bind].
  assert (Forall (λ v, 0 ≤ v ≤ MaxInt64) (ranges_values (rs_ranges rs))) as Hv.
  { apply Forall_forall. intros v Hv%elem_of_ranges_values. apply (chain_in _ _ _ Hwf) in Hv. lia. }
  assert (bracket_text (rangeSet_foldRanges rs)) as Hfold.
  { apply foldRanges_bracket_text, Forall_forall. intros r Hr.
    apply (chain_elem _ _ _ Hwf) in Hr. lia. }
  destruct (ranges_values (rs_ranges rs)) as [|v0 rest]; [intros [= <-]; constructor|].
  apply Forall_cons_1 in Hv as [Hv0 Hrest].
  destruct rest as [|v1 rest]; [intros [= <-]; by apply formatInt_bracket_text|].
  set (step := detectStep _). destruct (Z.ltb_spec 0 step); [|by intros [= <-]].
  destruct (Z.eqb_spec step 1); [by intros [= <-]|]. intros [= <-].
  apply bracket_text_app. split; [by apply formatInt_bracket_text|].
  apply bracket_text_cons; [done..|]. apply bracket_text_app. split.
  - apply formatInt_bracket_text. rewrite Forall_forall in Hrest. apply Hrest.
    apply (List_last_elem v1 rest v0).
  - apply bracket_text_cons; [done..|]. apply digits_bracket_text. unfold strconv_Itoa.
    destruct (Z.ltb_spec step 0); [lia|]. by apply udec_spec.
Qed.

(** ** Lemmas: one group *)

Lemma lt_sorted_NoDup_le (l : list Z) :
  StronglySorted Z.le l → NoDup l → StronglySorted Z.lt l.
Proof.
  induction 1 as [|x l Hl IH Hx]; intros Hnd; constructor; apply NoDup_cons in Hnd as [Hn Hnd]; [auto|].
  rewrite Forall_forall in *. intros y Hy. specialize (Hx y Hy).
  assert (x ≠ y) by (by intros ->). lia.
Qed.

Lemma entry_less_strict_weak l : strict_weak entry_less l.
Proof.
  unfold entry_less. split.
  - intros a _. apply Z.ltb_irrefl.
  - intros a b c _ _ _. rewrite !Z.ltb_lt. lia.
  - intros a b c _ _ _. rewrite !Z.ltb_lt. lia.
Qed.

Section fold_group.
Context `{GoSort} (s : gostring) (p : Z) (vs : list Z).
Context (Hs : s ≠ []) (Hlast : ∀ c, last s = Some c → is_digit c = false).
Context (Hnd : NoDup vs) (Hlen : (2 ≤ length vs)%nat) (Hvs : Forall (λ v, 0 ≤ v < 2 ^ 62) vs).

Lemma vs_int : Forall (λ v, 0 ≤ v ≤ MaxInt64) vs.
Proof. eapply Forall_impl; [exact Hvs|]. intros v Hv. cbn beta in Hv. i64_lia. Qed.

(** The sorted entries: the values in increasing order. *)
Lemma sorted_entries :
  ∃ ws, sort_slice entry_less (map (entry p) vs) = map (entry p) ws ∧ ws ≡ₚ vs ∧
        StronglySorted Z.lt ws.
Proof.
  set (es := sort_slice entry_less (map (entry p) vs)).
  assert (es ≡ₚ map (entry p) vs) as Hperm by apply sort_slice_perm.
  assert (less_sorted entry_less es) as Hsorted
    by apply sort_slice_sorted, entry_less_strict_weak.
  apply Permutation_map_inv in Hperm as (ws & Hes & Hws). rewrite Hes in *.
  exists ws. split_and!; [done|done|]. apply lt_sorted_NoDup_le; [|by rewrite <-Hws].
  clear -Hsorted. unfold less_sorted in Hsorted.
  induction ws as [|w ws IH]; [constructor|]. cbn [map] in Hsorted.
  apply StronglySorted_inv in Hsorted as [Hsorted Hw]. constructor; [auto|].
  apply Forall_map in Hw. eapply Forall_impl; [exact Hw|]. intros v. unfold entry_less. simpl.
  rewrite Z.ltb_ge. done.
Qed.

Lemma foldGroup_names :
  ∃ t ws pad,
    foldGroup s (map (λ v, s ++ format_value p v) vs) = Ret (s ++ "["%char :: t ++ ["]"%char]) ∧
    bracket_text t ∧ parseBracketExpr t = Ret (ws, pad) ∧ ws ≡ₚ vs ∧
    ∀ v, v ∈ vs → format_value pad v = format_value p v.
Proof.
  destruct sorted_entries as (ws & Hes & Hws & Hsort).
  unfold foldGroup. rewrite parse_entries_names by auto using vs_int. rewrite Hes.
  assert (Forall (λ v, 0 ≤ v < 2 ^ 62) ws) as Hws' by (by rewrite Hws).
  destruct (ranges_of_spec ws Hsort) as [Hwf Hvals].
  { eapply Forall_impl; [exact Hws'|]. intros v Hv. cbn beta in Hv. i64_lia. }
  set (M := max_padding (map (entry p) ws)).
  set (rs := RangeSet (ranges_of ws) M).
  assert (∀ v, v ∈ rs ↔ v ∈ ws) as Hin.
  { intros v. pose proof (elem_of_ranges_values v (ranges_of ws)) as E. rewrite Hvals in E. by rewrite E. }
  assert (2 ≤ length ws)%nat as Hlen' by (by rewrite Hws).
  destruct (parse_Fold rs) as (t & pad & Hfold & Hparse & Hprint).
  { done. }
  { simpl. destruct ws; [simpl in Hlen'; lia|]. intros E. rewrite E in Hvals. done. }
  { intros v Hv%Hin. rewrite Forall_forall in Hws'. by apply Hws'. }
  exists t, ws, pad. destruct ws as [|w0 [|w1 ws]]; [simpl in Hlen'; lia..|].
  cbn [map]. change (max_padding (entry p w0 :: entry p w1 :: map (entry p) ws)) with M.
  replace (ranges_of _) with (rs_ranges rs).
  2: { unfold rs. cbn [rs_ranges map]. rewrite map_map. unfold entry. cbn [ne_value].
       by rewrite map_id. }
  change (RangeSet (rs_ranges rs) M) with rs. rewrite Hfold.
  split_and!; [done| |by rewrite <-Hvals|done|].
  - by apply (Fold_bracket_text rs).
  - intros v Hv. rewrite <-Hws in Hv. rewrite Hprint by (by apply Hin).
    apply max_padding_prints; [|done]. eapply Forall_impl; [exact Hws'|]. simpl. lia.
Qed.

Lemma Fold_names :
  ∃ t ws pad,
    Fold (map (λ v, s ++ format_value p v) vs) = Ret (s ++ "["%char :: t ++ ["]"%char]) ∧
    bracket_text t ∧ parseBracketExpr t = Ret (ws, pad) ∧ ws ≡ₚ vs ∧
    ∀ v, v ∈ vs → format_value pad v = format_value p v.
Proof.
  destruct foldGroup_names as (t & ws & pad & Hg & Hrest). exists t, ws, pad. split; [|done].
  destruct (group_names s p Hlast vs) as [Hk Hd];
    [by destruct vs; [simpl in Hlen; lia|]|apply vs_int|].
  unfold Fold. set (nodes := map _ vs) in *.
  assert (2 ≤ length nodes)%nat as Hl by (unfold nodes; by rewrite length_map).
  assert (fold_prefix (groupByPrefix nodes) s = Ret [s ++ "["%char :: t ++ ["]"%char]]) as Hf.
  { unfold fold_prefix. rewrite Hd. destruct s; [done|]. by rewrite Hg. }
  destruct nodes as [|n0 [|n1 nodes]]; [simpl in Hl; lia..|].
  rewrite Hk. cbn [mapM_go]. rewrite Hf. simpl. done.
Qed.

End fold_group.

(** ** Properties *)

(** C2: folding two or more distinct numbered names of one prefix, all printed at
    one padding, in any order and with any [sort.Slice], gives one pattern, and
    expanding it under a limit that admits them gives back exactly those names, zero
    padding included. The prefix is not empty, does not end in a digit and has no
    character with a meaning in patterns; the numbers are below 2^62. Names of
    different paddings do not come back ([Fold_mixed_padding]). *)
Theorem Fold_expand_roundtrip `{GoSort} s p vs resolver m :
  name_text s → s ≠ [] → (∀ c, last s = Some c → is_digit c = false) →
  NoDup vs → (2 ≤ length vs)%nat → Forall (λ v, 0 ≤ v < 2 ^ 62) vs →
  0 < m ≤ MaxInt64 → Z.of_nat (length vs) ≤ m →
  let names := map (λ v, s ++ format_value p v) vs in
  ∃ pattern l, Fold names = Ret pattern ∧ parseExpr pattern resolver m = Ret l ∧
               ∀ n, n ∈ l ↔ n ∈ names.
Proof.
  intros Ht Hs Hlast Hnd Hlen Hvs Hm Hle names.
  destruct (Fold_names s p vs Hs Hlast Hnd Hlen Hvs) as (t & ws & pad & Hf & Hbt & Hp & Hws & Hprint).
  destruct (parseExpr_pattern s t [] Ht Hbt (Forall_nil_2 _) resolver m ws pad Hp) as (l & Hl & Hin).
  - intros ->. apply Permutation_nil_l in Hws. subst vs. simpl in Hlen. lia.
  - done.
  - by rewrite Hws.
  - exists (s ++ "["%char :: t ++ ["]"%char]), l. split_and!; [done..|].
    intros n. rewrite Hin. unfold names. rewrite list_elem_of_fmap. setoid_rewrite Hws. setoid_rewrite app_nil_r.
    split; intros (v & H1 & H2); exists v; naive_solver (rewrite Hprint; done).
Qed.

(** Names of two paddings are folded at the larger one: the other name is lost. *)
Lemma Fold_mixed_padding :
  @Fold insertion_GoSort [go "node1"; go "node01"] = Ret (go "node[01]") ∧
  parseExpr (go "node[01]") None 10 = Ret [go "node01"].
Proof. split; vm_compute; reflexivity. Qed.

(** ** Witnesses *)

Lemma Fold_expand_roundtrip_witness :
  @Fold insertion_GoSort [go "oss09"; go "oss11"; go "oss10"; go "oss07"] = Ret (go "oss[07,09-11]") ∧
  ∃ pattern l, @Fold insertion_GoSort [go "oss09"; go "oss11"; go "oss10"; go "oss07"] = Ret pattern ∧
    parseExpr pattern None 10 = Ret l ∧
    ∀ n, n ∈ l ↔ n ∈ [go "oss09"; go "oss11"; go "oss10"; go "oss07"].
Proof.
  split; [vm_compute; reflexivity|].
  apply (@Fold_expand_roundtrip insertion_GoSort (go "oss") 2 [9; 11; 10; 7] None 10).
  - repeat constructor.
  - discriminate.
  - intros c [= <-]. reflexivity.
  - by_decide.
  - simpl. lia.
  - by_decide.
  - by_decide.
  - by_decide.
Defined.
