(* ===== verification/NodeSet.v ===== *)
(** * Node sets: the container of pkg/mesh/nodeset/nodeset.go

    A [NodeSet] is a set of names; the operations that loop over one map to
    change another are folds over an enumeration of the first. [Contiguous] and
    [Split] cut a set into parts. *)

From Stdlib Require Import Ascii.
From stdpp Require Import base numbers gmap strings sorting list.
From S2P Require Import Prelude GoStrings RangeSet Bracket Parser NodeFold.

Open Scope Z_scope.

(** ** Definitions *)

Definition defaultMaxExpand : Z := 25000.

Record options := Options { o_resolver : option GroupResolver; o_maxExpand : Z }.

(** [Option]: a function that changes an [options] in place. *)
Definition Option : Type := options → options.

Definition WithGroupResolver (r : GroupResolver) : Option :=
  λ o, Options (Some r) (o_maxExpand o).

Definition WithMaxExpand (n : Z) : Option := λ o, Options (o_resolver o) n.

Definition defaultOptions : options := Options None defaultMaxExpand.

Definition apply_options (opts : list Option) : options :=
  fold_left (λ o opt, opt o) opts defaultOptions.

Record NodeSet := MkNodeSet { ns_nodes : gset gostring }.

(** [for _, n := range l { m[n] = struct{}{} }] *)
Definition add_all (m : gset gostring) (l : list gostring) : gset gostring :=
  fold_left (λ m n, {[n]} ∪ m) l m.

(** [for _, n := range l { delete(m, n) }] *)
Definition delete_all (m : gset gostring) (l : list gostring) : gset gostring :=
  fold_left (λ m n, m ∖ {[n]}) l m.

Definition NewFromSlice (nodes : list gostring) : NodeSet := MkNodeSet (add_all ∅ nodes).

Definition New (pattern : gostring) (opts : list Option) : outcome NodeSet :=
  let o := apply_options opts in
  nodes ← parseExpr pattern (o_resolver o) (o_maxExpand o);
  Ret (MkNodeSet (add_all ∅ nodes)).

Definition NodeSet_Contains (ns : NodeSet) (node : gostring) : bool :=
  bool_decide (node ∈ ns_nodes ns).

Definition NodeSet_Len (ns : NodeSet) : Z := Z.of_nat (size (ns_nodes ns)).

Definition NodeSet_Nodes (ns : NodeSet) : list gostring := sort_Strings (elements (ns_nodes ns)).

Definition NodeSet_Add (ns : NodeSet) (pattern : gostring) (opts : list Option) : outcome NodeSet :=
  let o := apply_options opts in
  nodes ← parseExpr pattern (o_resolver o) (o_maxExpand o);
  Ret (MkNodeSet (add_all (ns_nodes ns) nodes)).

Definition NodeSet_AddNode (ns : NodeSet) (node : gostring) : NodeSet :=
  MkNodeSet ({[node]} ∪ ns_nodes ns).

Definition NodeSet_Remove (ns : NodeSet) (pattern : gostring) (opts : list Option) : outcome NodeSet :=
  let o := apply_options opts in
  nodes ← parseExpr pattern (o_resolver o) (o_maxExpand o);
  Ret (MkNodeSet (delete_all (ns_nodes ns) nodes)).

Definition NodeSet_Copy (ns : NodeSet) : NodeSet :=
  MkNodeSet (add_all ∅ (elements (ns_nodes ns))).

Definition NodeSet_Union (ns other : NodeSet) : NodeSet :=
  MkNodeSet (add_all (ns_nodes (NodeSet_Copy ns)) (elements (ns_nodes other))).

Definition NodeSet_Difference (ns other : NodeSet) : NodeSet :=
  MkNodeSet (delete_all (ns_nodes (NodeSet_Copy ns)) (elements (ns_nodes other))).

Definition NodeSet_Intersection (ns other : NodeSet) : NodeSet :=
  MkNodeSet (add_all ∅ (filter (λ n, NodeSet_Contains other n = true) (elements (ns_nodes ns)))).

Definition NodeSet_SymmetricDifference (ns other : NodeSet) : NodeSet :=
  let result := add_all ∅ (filter (λ n, NodeSet_Contains other n = false) (elements (ns_nodes ns))) in
  MkNodeSet (add_all result (filter (λ n, NodeSet_Contains ns n = false) (elements (ns_nodes other)))).

Definition NodeSet_IsSubset (ns other : NodeSet) : bool :=
  forallb (NodeSet_Contains other) (elements (ns_nodes ns)).

Definition NodeSet_IsSuperset (ns other : NodeSet) : bool := NodeSet_IsSubset other ns.

Definition NodeSet_Equal (ns other : NodeSet) : bool :=
  if negb (size (ns_nodes ns) =? size (ns_nodes other))%nat then false
  else NodeSet_IsSubset ns other.

Definition Expand (pattern : gostring) (opts : list Option) : outcome (list gostring) :=
  ns ← New pattern opts; Ret (NodeSet_Nodes ns).

(** [parseIntAtoi]: a local parser of digits, with the wrap-around of [v*10 + d].
    It accepts the empty string, as 0. *)
Fixpoint parseIntAtoi_loop (v : Z) (s : gostring) : option Z :=
  match s with
  | [] => Some v
  | c :: s => if is_digit c then parseIntAtoi_loop (i64 (v * 10 + digit_val c)) s else None
  end.

Definition parseIntAtoi (s : gostring) : outcome Z :=
  match parseIntAtoi_loop 0 s with
  | Some v => Ret v
  | None => Err (Errorf "not a number: ")
  end.

Definition parseInt (s : gostring) : outcome Z := parseIntAtoi s.

Section sort.
Context `{GoSort}.

Definition NodeSet_String (ns : NodeSet) : outcome gostring := Fold (NodeSet_Nodes ns).

(** The loop over the entries of one prefix: what it appends to [result] right
    away, and [se]. *)
Fixpoint suffix_entries (entries : list gostring) : list NodeSet * list (Z * gostring) :=
  match entries with
  | [] => ([], [])
  | node :: entries =>
      let '(result, se) := suffix_entries entries in
      match snd (splitTrailingNumber node) with
      | [] => (NewFromSlice [node] :: result, se)
      | suffix =>
          match parseInt suffix with
          | Ret v => (result, (v, node) :: se)
          | _ => (NewFromSlice [node] :: result, se)
          end
      end
  end.

Definition suffix_less (a b : Z * gostring) : bool := fst a <? fst b.

(** The loop from [i := 1]: [prev] is [se[i-1].value]. *)
Fixpoint split_runs (current : list gostring) (prev : Z) (se : list (Z * gostring)) : list NodeSet :=
  match se with
  | [] => [NewFromSlice current]
  | (value, node) :: se =>
      if value =? i64 (prev + 1) then split_runs (current ++ [node]) value se
      else NewFromSlice current :: split_runs [node] value se
  end.

(** One turn of the loop over the sorted prefixes. *)
Definition contiguous_group (groups : gmap gostring (list gostring)) (prefix : gostring)
    : list NodeSet :=
  let entries := default [] (groups !! prefix) in
  match prefix with
  | [] => map (λ node, NewFromSlice [node]) entries
  | _ =>
      let '(result, se) := suffix_entries entries in
      match sort_slice suffix_less se with
      | [] => result
      | (value, node) :: se => result ++ split_runs [node] value se
      end
  end.

Definition NodeSet_Contiguous (ns : NodeSet) : list NodeSet :=
  let groups := groupByPrefix (NodeSet_Nodes ns) in
  sorted_keys groups ≫= contiguous_group groups.

End sort.

(** The loop of [Split]: [n - i] parts are left. *)
Fixpoint split_parts (parts : nat) (i chunkSize remainder : Z) (nodes : list gostring) : list NodeSet :=
  match parts with
  | O => []
  | S parts =>
      let size := if i <? remainder then chunkSize + 1 else chunkSize in
      NewFromSlice (take (Z.to_nat size) nodes)
        :: split_parts parts (i + 1) chunkSize remainder (drop (Z.to_nat size) nodes)
  end.

(** [Split]: the division by [n] panics when the set is empty. *)
Definition NodeSet_Split (ns : NodeSet) (n : Z) : outcome (list NodeSet) :=
  let nodes := NodeSet_Nodes ns in
  let len := Z.of_nat (length nodes) in
  let n := if (n <=? 0) || (len <? n) then len else n in
  if n =? 0 then Panic
  else Ret (split_parts (Z.to_nat n) 0 (Z.quot len n) (Z.rem len n) nodes).

(** ** Lemmas: sets *)

Lemma elem_of_add_all m l x : x ∈ add_all m l ↔ x ∈ m ∨ x ∈ l.
Proof.
  revert m. induction l as [|n l IH]; intros m; simpl; [set_solver|]. rewrite IH. set_solver.
Qed.

Lemma add_all_list l : add_all ∅ l = list_to_set l.
Proof. apply set_eq. intros x. rewrite elem_of_add_all. set_solver. Qed.

Lemma elem_of_delete_all m l x : x ∈ delete_all m l ↔ x ∈ m ∧ x ∉ l.
Proof.
  revert m. induction l as [|n l IH]; intros m; simpl; [set_solver|]. rewrite IH. set_solver.
Qed.

Lemma NodeSet_Contains_spec ns n : NodeSet_Contains ns n = true ↔ n ∈ ns_nodes ns.
Proof. apply bool_decide_eq_true. Qed.

Lemma NodeSet_not_Contains ns n : NodeSet_Contains ns n = false ↔ n ∉ ns_nodes ns.
Proof. apply bool_decide_eq_false. Qed.

Lemma NodeSet_Copy_id ns : NodeSet_Copy ns = ns.
Proof.
  destruct ns as [m]. unfold NodeSet_Copy. f_equal. apply set_eq. intros x.
  rewrite elem_of_add_all, elem_of_elements. set_solver.
Qed.

Lemma NodeSet_IsSubset_spec ns other : NodeSet_IsSubset ns other = true ↔ ns_nodes ns ⊆ ns_nodes other.
Proof.
  unfold NodeSet_IsSubset. rewrite forallb_forall. setoid_rewrite NodeSet_Contains_spec.
  setoid_rewrite <-list_elem_of_In. setoid_rewrite elem_of_elements. done.
Qed.

Lemma NodeSet_Nodes_spec ns :
  StronglySorted str_le (NodeSet_Nodes ns) ∧ NoDup (NodeSet_Nodes ns) ∧
  ∀ n, n ∈ NodeSet_Nodes ns ↔ n ∈ ns_nodes ns.
Proof.
  unfold NodeSet_Nodes. split_and!; [apply sort_Strings_sorted| |].
  - rewrite NoDup_sort_Strings. apply NoDup_elements.
  - intros n. rewrite elem_of_sort_Strings. apply elem_of_elements.
Qed.

(** The sizes of the parts of [split_parts] sum up to what they cut. *)
Lemma split_parts_spec parts i chunk r nodes :
  0 ≤ chunk → 0 ≤ i → r ≤ i + Z.of_nat parts →
  Z.of_nat (length nodes) = Z.of_nat parts * chunk + Z.max 0 (r - i) →
  NoDup nodes → StronglySorted str_le nodes →
  concat (map NodeSet_Nodes (split_parts parts i chunk r nodes)) = nodes ∧
  length (split_parts parts i chunk r nodes) = parts ∧
  Forall (λ p, chunk ≤ NodeSet_Len p ≤ chunk + 1) (split_parts parts i chunk r nodes).
Proof.
  intros Hc. revert i nodes. induction parts as [|parts IH]; intros i nodes Hi Hr Hlen Hnd Hs.
  - destruct nodes; simpl in *; [done|lia].
  - cbn [split_parts]. set (size := if i <? r then chunk + 1 else chunk).
    assert (chunk ≤ size ≤ chunk + 1 ∧ 0 ≤ size) as Hsize by (unfold size; zcases; lia).
    assert (Hle : size ≤ Z.of_nat (length nodes)) by (unfold size; zcases; nia).
    rewrite <-(take_drop (Z.to_nat size) nodes) in Hnd, Hs.
    apply NoDup_app in Hnd as (Hnd1 & _ & Hnd2).
    apply StronglySorted_app in Hs as (_ & Hs1 & Hs2).
    destruct (IH (i + 1) (drop (Z.to_nat size) nodes)) as (IH1 & IH2 & IH3); [lia|lia| |done..|].
    { rewrite length_drop. unfold size in *. destruct (Z.ltb_spec i r); nia. }
    cbn [map concat length].
    assert (NodeSet_Nodes (NewFromSlice (take (Z.to_nat size) nodes)) = take (Z.to_nat size) nodes) as E.
    { symmetry. apply sort_Strings_unique; [done|]. unfold NewFromSlice. cbn [ns_nodes].
      by rewrite add_all_list, elements_list_to_set. }
    rewrite E, IH1, IH2, take_drop. split_and!; [done..|]. constructor; [|done].
    unfold NodeSet_Len, NewFromSlice. cbn [ns_nodes].
    rewrite add_all_list, size_list_to_set by done. rewrite length_take. lia.
Qed.

Lemma NodeSet_Split_spec ns n :
  ns_nodes ns ≠ ∅ →
  ∃ parts, NodeSet_Split ns n = Ret parts ∧
    Z.of_nat (length parts) = (if (n <=? 0) || (NodeSet_Len ns <? n) then NodeSet_Len ns else n) ∧
    concat (map NodeSet_Nodes parts) = NodeSet_Nodes ns ∧
    Forall (λ p, NodeSet_Len ns / Z.of_nat (length parts) ≤ NodeSet_Len p
                 ≤ NodeSet_Len ns / Z.of_nat (length parts) + 1) parts.
Proof.
  intros Hne. destruct (NodeSet_Nodes_spec ns) as (Hs & Hnd & Hin).
  assert (Z.of_nat (length (NodeSet_Nodes ns)) = NodeSet_Len ns) as Hlen.
  { unfold NodeSet_Nodes, NodeSet_Len. by rewrite sort_Strings_perm. }
  assert (0 < NodeSet_Len ns) as Hpos.
  { unfold NodeSet_Len. assert (size (ns_nodes ns) ≠ 0%nat); [|lia].
    apply size_non_empty_iff. by rewrite leibniz_equiv_iff. }
  unfold NodeSet_Split. rewrite Hlen. set (len := NodeSet_Len ns) in *.
  set (k := if (n <=? 0) || (len <? n) then len else n).
  assert (0 < k ≤ len) as Hk by (unfold k; zcases; simpl; lia).
  destruct (Z.eqb_spec k 0); [lia|]. rewrite Z.quot_div_nonneg, Z.rem_mod_nonneg by lia.
  pose proof (Z.div_mod len k). pose proof (Z.mod_pos_bound len k). 
  assert (0 ≤ len / k) by (apply Z.div_pos; lia).
  destruct (split_parts_spec (Z.to_nat k) 0 (len / k) (len mod k) (NodeSet_Nodes ns))
    as (Hcat & Hparts & Hsz); [lia|lia|lia|nia|done|done|].
  eexists. split_and!; [done|lia|done|]. rewrite Hparts. by replace (Z.of_nat (Z.to_nat k)) with k by lia.
Qed.

(** ** Lemmas: contiguous parts *)

Lemma NodeSet_Nodes_perm l : NoDup l → NodeSet_Nodes (NewFromSlice l) ≡ₚ l.
Proof.
  intros Hl. unfold NodeSet_Nodes, NewFromSlice. cbn [ns_nodes].
  by rewrite sort_Strings_perm, add_all_list, elements_list_to_set.
Qed.

Definition part_nodes (parts : list NodeSet) : list gostring := concat (map NodeSet_Nodes parts).

Lemma part_nodes_app l1 l2 : part_nodes (l1 ++ l2) = part_nodes l1 ++ part_nodes l2.
Proof. unfold part_nodes. by rewrite map_app, concat_app. Qed.

Lemma part_nodes_one l parts :
  NoDup l → part_nodes (NewFromSlice l :: parts) ≡ₚ l ++ part_nodes parts.
Proof.
  intros Hl. unfold part_nodes. cbn [map concat]. by rewrite NodeSet_Nodes_perm.
Qed.

(** Names of one prefix whose suffixes count up from [v0]. *)
Definition consecutive (prefix : gostring) (v0 : Z) (nodes : list gostring) : Prop :=
  ∀ i node, nodes !! i = Some node →
    prefix_of node = prefix ∧ parseInt (snd (splitTrailingNumber node)) = Ret (i64 (v0 + Z.of_nat i)).

(** A part [Contiguous] may return: one name, or names that count up. *)
Definition is_run (part : NodeSet) : Prop :=
  (∃ node, part = NewFromSlice [node]) ∨
  ∃ prefix v0 nodes, part = NewFromSlice nodes ∧ consecutive prefix v0 nodes.

Lemma parseIntAtoi_loop_range acc s v :
  in_i64 acc → parseIntAtoi_loop acc s = Some v → in_i64 v.
Proof.
  revert acc. induction s as [|c s IH]; intros acc Hacc; simpl; [by intros [= <-]|].
  destruct (is_digit c); [|done]. apply IH. auto with go.
Qed.

Lemma parseInt_range s v : parseInt s = Ret v → i64 v = v.
Proof.
  unfold parseInt, parseIntAtoi. destruct (parseIntAtoi_loop 0 s) eqn:Hs; [|done]. intros [= <-].
  apply i64_id, (parseIntAtoi_loop_range 0 s); [i64_lia|done].
Qed.

Lemma split_runs_nodes current prev se :
  NoDup (current ++ map snd se) →
  part_nodes (split_runs current prev se) ≡ₚ current ++ map snd se.
Proof.
  revert current prev. induction se as [|[v node] se IH]; intros current prev; cbn [split_runs map snd].
  - rewrite app_nil_r. intros H. by rewrite part_nodes_one, app_nil_r.
  - intros H. case_match.
    + rewrite IH by (by rewrite <-app_assoc). by rewrite <-app_assoc.
    + apply NoDup_app in H as (H1 & _ & H2). by rewrite part_nodes_one, IH.
Qed.

Lemma split_runs_runs prefix current v0 prev se :
  current ≠ [] → prev = i64 (v0 + Z.of_nat (length current - 1)) →
  consecutive prefix v0 current →
  Forall (λ e, prefix_of (snd e) = prefix
               ∧ parseInt (snd (splitTrailingNumber (snd e))) = Ret (fst e)) se →
  Forall is_run (split_runs current prev se).
Proof.
  revert current v0 prev. induction se as [|[v node] se IH]; intros current v0 prev Hne Hp Hc Hse;
    cbn [split_runs].
  - constructor; [right; eauto|done].
  - apply Forall_cons_1 in Hse as [[Hpre Hv] Hse]. simpl in Hpre, Hv.
    destruct (Z.eqb_spec v (i64 (prev + 1))) as [E|].
    + apply (IH _ v0).
      * by destruct current.
      * rewrite E, Hp, i64_add_l, length_app. destruct current; [done|]. simpl. f_equal. lia.
      * intros i n [Hi|[Hle Hi]]%lookup_app_Some; [by apply Hc|].
        destruct (i - length current)%nat eqn:Hd; [|done]. injection Hi as <-. split; [done|].
        rewrite Hv, E, Hp, i64_add_l. f_equal. f_equal. destruct current; [done|]. simpl in *. lia.
      * done.
    + constructor; [right; eauto|]. apply parseInt_range in Hv as Hr. apply (IH _ v); [done| | |done].
      * simpl. by rewrite Z.add_0_r.
      * intros [|i] nd; [|done]. intros [= <-]. split; [done|]. simpl. by rewrite Z.add_0_r, Hr.
Qed.

(** The entries of one group: what is kept as a part of its own, and the rest. *)
Lemma suffix_entries_spec entries prefix :
  NoDup entries → Forall (λ n, prefix_of n = prefix) entries →
  let '(result, se) := suffix_entries entries in
  part_nodes result ++ map snd se ≡ₚ entries ∧ Forall is_run result ∧
  Forall (λ e, prefix_of (snd e) = prefix
               ∧ parseInt (snd (splitTrailingNumber (snd e))) = Ret (fst e)) se.
Proof.
  induction entries as [|node entries IH]; intros Hnd Hpre; cbn [suffix_entries]; [by repeat constructor|].
  apply NoDup_cons in Hnd as [_ Hnd]. apply Forall_cons_1 in Hpre as [Hn Hpre].
  specialize (IH Hnd Hpre). destruct (suffix_entries entries) as [result se].
  destruct IH as (Hperm & Hruns & Hse).
  assert (∀ r, Forall is_run r → Forall is_run (NewFromSlice [node] :: r)) as Hone.
  { intros r Hr. constructor; [left; eauto|done]. }
  assert (part_nodes (NewFromSlice [node] :: result) ++ map snd se ≡ₚ node :: entries) as Hperm1.
  { rewrite part_nodes_one by apply NoDup_singleton. by rewrite <-Hperm. }
  destruct (snd (splitTrailingNumber node)) eqn:Hs; [auto|]. rewrite <-Hs in *.
  destruct (parseInt _) as [v| | |] eqn:Hv; [|auto..].
  split_and!; [|done|constructor; auto]. simpl. by rewrite <-Permutation_middle, Hperm.
Qed.

Lemma contiguous_group_spec `{GoSort} groups prefix :
  let entries := default [] (groups !! prefix) in
  NoDup entries → Forall (λ n, prefix_of n = prefix) entries →
  part_nodes (contiguous_group groups prefix) ≡ₚ entries ∧
  Forall is_run (contiguous_group groups prefix).
Proof.
  unfold contiguous_group. set (entries := default [] (groups !! prefix)). intros Hnd Hpre.
  destruct prefix as [|c prefix].
  - clear Hpre. induction entries as [|node entries IH]; [by repeat constructor|].
    apply NoDup_cons in Hnd as [_ Hnd]. destruct (IH Hnd) as [IH1 IH2]. cbn [map]. split.
    + by rewrite part_nodes_one, IH1 by apply NoDup_singleton.
    + constructor; [left; eauto|done].
  - pose proof (suffix_entries_spec entries (c :: prefix) Hnd Hpre) as Hse.
    destruct (suffix_entries entries) as [result se]. destruct Hse as (Hperm & Hruns & Hse).
    pose proof (sort_slice_perm suffix_less se) as Hsort.
    destruct (sort_slice suffix_less se) as [|[v node] se'].
    + apply Permutation_nil_l in Hsort. subst se. by rewrite app_nil_r in Hperm.
    + assert (map snd se ≡ₚ node :: map snd se') as Hse' by (by rewrite <-Hsort).
      rewrite <-Hsort in Hse. rewrite Hse' in Hperm.
      apply Forall_cons_1 in Hse as [[Hp Hv] Hse]. simpl in Hp, Hv.
      rewrite part_nodes_app, split_runs_nodes.
      * split; [done|]. apply Forall_app. split; [done|].
        apply parseInt_range in Hv as Hr.
        apply (split_runs_runs (c :: prefix) _ v); [done| | |done].
        -- simpl. by rewrite Z.add_0_r.
        -- intros [|i] n; [|done]. intros [= <-]. split; [done|]. simpl. by rewrite Z.add_0_r, Hr.
      * rewrite <-Hperm in Hnd. by apply NoDup_app in Hnd as (_ & _ & Hnd).
Qed.

Lemma NodeSet_Contiguous_spec `{GoSort} ns :
  part_nodes (NodeSet_Contiguous ns) ≡ₚ NodeSet_Nodes ns ∧ Forall is_run (NodeSet_Contiguous ns).
Proof.
  unfold NodeSet_Contiguous. destruct (NodeSet_Nodes_spec ns) as (_ & Hnd & _).
  set (nodes := NodeSet_Nodes ns) in *.
  assert (∀ p, part_nodes (contiguous_group (groupByPrefix nodes) p)
               ≡ₚ default [] (groupByPrefix nodes !! p) ∧
               Forall is_run (contiguous_group (groupByPrefix nodes) p)) as Hg.
  { intros p. apply contiguous_group_spec; rewrite groupByPrefix_lookup.
    - by apply NoDup_filter.
    - apply Forall_forall. by intros n [? _]%list_elem_of_filter. }
  split.
  - etransitivity; [|apply groupByPrefix_perm]. generalize (sorted_keys (groupByPrefix nodes)).
    intros keys. induction keys as [|k keys IH]; [done|]. cbn [mbind list_bind].
    by rewrite part_nodes_app, IH, (proj1 (Hg k)).
  - apply Forall_forall. intros p (k & Hk & Hp)%list_elem_of_bind. revert p Hk.
    apply Forall_forall, Hg.
Qed.

(** ** Properties *)

(** the operations of a node set are those of sets of names: union,
    difference, intersection, symmetric difference, and the tests of inclusion
    and equality, whatever the order the maps are enumerated in. *)
Theorem NodeSet_set_algebra a b :
  ns_nodes (NodeSet_Union a b) = ns_nodes a ∪ ns_nodes b ∧
  ns_nodes (NodeSet_Difference a b) = ns_nodes a ∖ ns_nodes b ∧
  ns_nodes (NodeSet_Intersection a b) = ns_nodes a ∩ ns_nodes b ∧
  ns_nodes (NodeSet_SymmetricDifference a b)
  = (ns_nodes a ∖ ns_nodes b) ∪ (ns_nodes b ∖ ns_nodes a) ∧
  (NodeSet_IsSubset a b = true ↔ ns_nodes a ⊆ ns_nodes b) ∧
  (NodeSet_IsSuperset a b = true ↔ ns_nodes b ⊆ ns_nodes a) ∧
  (NodeSet_Equal a b = true ↔ ns_nodes a = ns_nodes b).
Proof.
  unfold NodeSet_Union, NodeSet_Difference, NodeSet_Intersection, NodeSet_SymmetricDifference.
  rewrite !NodeSet_Copy_id. cbn [ns_nodes]. split_and!.
  1-4: apply set_eq; intros x; rewrite ?elem_of_add_all, ?elem_of_delete_all,
    ?list_elem_of_filter, ?elem_of_elements, ?NodeSet_Contains_spec, ?NodeSet_not_Contains;
    set_solver.
  - apply NodeSet_IsSubset_spec.
  - apply NodeSet_IsSubset_spec.
  - unfold NodeSet_Equal.
    destruct (Nat.eqb_spec (size (ns_nodes a)) (size (ns_nodes b))) as [Hsz|Hsz]; simpl.
    + rewrite NodeSet_IsSubset_spec. split; [|by intros ->].
      intros Hsub. apply leibniz_equiv, set_subseteq_size_equiv; [done|lia].
    + split; [done|]. intros E. by rewrite E in Hsz.
Qed.

(** [Split] cuts the sorted names of a non-empty set into [n] consecutive
    parts (as many as there are names when [n] is not between 1 and that) whose
    sizes differ by at most one; on the empty set it panics, whatever [n]. *)
Theorem NodeSet_Split_partition ns n :
  (ns_nodes ns = ∅ → NodeSet_Split ns n = Panic) ∧
  (ns_nodes ns ≠ ∅ →
   ∃ parts, NodeSet_Split ns n = Ret parts ∧
    Z.of_nat (length parts) = (if (n <=? 0) || (NodeSet_Len ns <? n) then NodeSet_Len ns else n) ∧
    concat (map NodeSet_Nodes parts) = NodeSet_Nodes ns ∧
    Forall (λ p, NodeSet_Len ns / Z.of_nat (length parts) ≤ NodeSet_Len p
                 ≤ NodeSet_Len ns / Z.of_nat (length parts) + 1) parts).
Proof.
  split; [|apply NodeSet_Split_spec]. intros He. unfold NodeSet_Split, NodeSet_Nodes. rewrite He.
  change (length (sort_Strings (elements ∅))) with O. by destruct (Z.leb_spec n 0), (Z.ltb_spec (Z.of_nat 0) n); [..|lia].
Qed.

(** [Contiguous] partitions the set, for any [sort.Slice]: its parts hold
    each name exactly once, and each part is one name or names of one prefix
    whose numeric suffixes count up by one. *)
Theorem NodeSet_Contiguous_partition `{GoSort} ns :
  part_nodes (NodeSet_Contiguous ns) ≡ₚ NodeSet_Nodes ns ∧ Forall is_run (NodeSet_Contiguous ns).
Proof. apply NodeSet_Contiguous_spec. Qed.

(** ** Witnesses *)

Definition three_nodes : NodeSet := NewFromSlice [go "n1"; go "n2"; go "n7"].

Lemma NodeSet_Split_partition_witness :
  NodeSet_Split (NewFromSlice []) 3 = Panic ∧
  ∃ parts, NodeSet_Split three_nodes 2 = Ret parts ∧ length parts = 2%nat.
Proof.
  split; [apply NodeSet_Split_partition; reflexivity|].
  destruct (NodeSet_Split_partition three_nodes 2) as [_ H].
  destruct H as (parts & Hs & Hlen & _); [by_decide|]. exists parts. split; [exact Hs|].
  apply Nat2Z.inj. rewrite Hlen. vm_compute. reflexivity.
Defined.

Lemma NodeSet_Contiguous_partition_witness :
  map NodeSet_Nodes (@NodeSet_Contiguous insertion_GoSort three_nodes)
  = [[go "n1"; go "n2"]; [go "n7"]] ∧
  Forall is_run (@NodeSet_Contiguous insertion_GoSort three_nodes).
Proof.
  split; [vm_compute; reflexivity|].
  apply (@NodeSet_Contiguous_partition insertion_GoSort three_nodes).
Defined.
