(* ===== verification/Match.v ===== *)
(** * Matching a name against a pattern: Match of pkg/mesh/nodeset/nodeset.go

    [Match] answers from the text of the pattern where it can ([matchFast]) and
    expands it otherwise. The lemmas say on which patterns the two agree, and on
    which they do not. *)

From Stdlib Require Import Ascii.
From stdpp Require Import base numbers gmap strings sorting list.
From S2P Require Import Prelude GoStrings RangeSet Bracket Glob Parser NodeFold NodeSet.

Open Scope Z_scope.

(** ** Definitions *)

(** [for _, c := range s { if c == ... { return true } }] on ASCII characters. *)
Definition contains_any (chars : list ascii) (s : gostring) : bool :=
  existsb (λ c, bool_decide (c ∈ chars)) s.

Definition containsGlob (s : gostring) : bool := contains_any ["*"; "?"]%char s.
Definition containsBracket (s : gostring) : bool := contains_any ["["]%char s.
Definition containsSetOrGroup (s : gostring) : bool := contains_any ["@"; ","; "!"; "&"; "^"]%char s.
Definition containsComplex (s : gostring) : bool := contains_any ["@"; "!"; "&"; "^"]%char s.

Definition checkNumStr (numStr : gostring) (ints : list Z) (padding : Z) : bool :=
  if (0 <? padding) && negb (Z.of_nat (length numStr) =? padding) then false
  else match numStr with
       | [] => false
       | _ =>
           match parseInt numStr with
           | Ret val =>
               let idx := sort_search (length ints)
                            (λ i, match ints !! i with Some x => val <=? x | None => false end) in
               match ints !! idx with Some x => x =? val | None => false end
           | _ => false
           end
       end.

(** The loop of [matchSimplePattern] on [pattern[pIdx:]] and [hostname[hIdx:]]. *)
Fixpoint simple_loop (fuel : nat) (pattern hostname : gostring) : outcome bool :=
  match fuel with
  | O => Diverge
  | S fuel =>
      match pattern with
      | [] => Ret (match hostname with [] => true | _ => false end)
      | _ =>
          match strings_IndexByte pattern "[" with
          | None => Ret (bool_decide (hostname = pattern))
          | Some bracketStart =>
              let literal := take bracketStart pattern in
              if negb (strings_HasPrefix hostname literal) then Ret false
              else
                let hostname := drop (length literal) hostname in
                let after := drop bracketStart pattern in
                match strings_IndexByte after "]" with
                | None => Err (Errorf "unclosed bracket in %q")
                | Some bracketEnd =>
                    let content := drop 1 (take bracketEnd after) in
                    '(ints, padding) ← wrap_err "invalid bracket expr: %w" (parseBracketExpr content);
                    let pattern := drop (S bracketEnd) after in
                    match pattern with
                    | [] => Ret (checkNumStr hostname ints padding)
                    | _ =>
                        let nextLiteral :=
                          match strings_IndexByte pattern "[" with
                          | None => pattern
                          | Some nextBracketStart => take nextBracketStart pattern
                          end in
                        match strings_Index hostname nextLiteral with
                        | None => Ret false
                        | Some litIdx =>
                            let numStr := take litIdx hostname in
                            if negb (checkNumStr numStr ints padding) then Ret false
                            else simple_loop fuel pattern (drop (length numStr) hostname)
                        end
                    end
                end
          end
      end
  end.

(** [pIdx] moves past a bracket at each turn: [len(pattern)] turns and one to
    leave are enough. *)
Definition matchSimplePattern (pattern hostname : gostring) : outcome bool :=
  simple_loop (S (length pattern)) pattern hostname.

Fixpoint fast_loop (parts : list gostring) (hostname : gostring) : outcome bool :=
  match parts with
  | [] => Ret false
  | part :: parts =>
      match strings_TrimSpace part with
      | [] => fast_loop parts hostname
      | part =>
          matched ← matchSimplePattern part hostname;
          if matched : bool then Ret true else fast_loop parts hostname
      end
  end.

Definition matchFast (pattern hostname : gostring) : outcome bool :=
  fast_loop (strings_Split pattern ",") hostname.

(** The loop over the expanded names. *)
Fixpoint match_nodes (nodes : list gostring) (hostname : gostring) : outcome bool :=
  match nodes with
  | [] => Ret false
  | node :: nodes =>
      if containsGlob node then
        matched ← filepath_Match node hostname;
        if matched : bool then Ret true else match_nodes nodes hostname
      else if decide (node = hostname) then Ret true else match_nodes nodes hostname
  end.

Definition Match (pattern hostname : gostring) (opts : list Option) : outcome bool :=
  if decide (pattern = hostname) then Ret true
  else
    let hasGlob := containsGlob pattern in
    let hasExpansion := hasGlob || containsBracket pattern || containsSetOrGroup pattern in
    if negb hasExpansion then Ret (bool_decide (pattern = hostname))
    else if negb hasGlob && negb (containsComplex pattern) then matchFast pattern hostname
    else if hasGlob && negb (containsBracket pattern) && negb (containsSetOrGroup pattern)
    then filepath_Match pattern hostname
    else ns ← New pattern opts; match_nodes (NodeSet_Nodes ns) hostname.

(** ** Lemmas: characters *)

Lemma contains_any_false chars s :
  contains_any chars s = false ↔ ∀ c, c ∈ s → c ∉ chars.
Proof.
  unfold contains_any. rewrite <-not_true_iff_false, existsb_exists.
  setoid_rewrite bool_decide_eq_true. setoid_rewrite <-list_elem_of_In. naive_solver.
Qed.

Lemma contains_any_true chars s c : c ∈ s → c ∈ chars → contains_any chars s = true.
Proof.
  intros Hs Hc. apply not_false_iff_true. intros H. by apply (proj1 (contains_any_false _ _) H c).
Qed.

(** ** Lemmas: numbers *)

(** The value of a digit string, as the wrapping parser sees it. *)
Lemma parseIntAtoi_loop_spec v s :
  parseIntAtoi_loop (i64 v) s = i64 <$> atoi_digits v s.
Proof.
  revert v. induction s as [|c s IH]; intros v; simpl; [done|]. destruct (is_digit c); [|done].
  rewrite <-IH. f_equal. unfold i64.
  set (d := digit_val c).
  replace (((v + 2 ^ 63) mod 2 ^ 64 - 2 ^ 63) * 10 + d + 2 ^ 63)
    with (((v + 2 ^ 63) mod 2 ^ 64) * 10 + (d - 9 * 2 ^ 63)) by lia.
  rewrite Zplus_mod, Zmult_mod_idemp_l, <-Zplus_mod. f_equal. f_equal. lia.
Qed.

Lemma parseInt_spec s v :
  parseInt s = Ret v ↔ ∃ n, atoi_digits 0 s = Some n ∧ v = i64 n.
Proof.
  unfold parseInt, parseIntAtoi. change 0 with (i64 0) at 1. rewrite parseIntAtoi_loop_spec.
  destruct (atoi_digits 0 s); simpl; naive_solver.
Qed.

Lemma SearchInts_spec ints v :
  StronglySorted Z.lt ints →
  (let idx := sort_search (length ints)
                (λ i, match ints !! i with Some x => v <=? x | None => false end) in
   match ints !! idx with Some x => x =? v | None => false end) = true ↔ v ∈ ints.
Proof.
  intros Hs. cbn zeta. set (f := λ i, _).
  assert (∀ i j x y, (i < j)%nat → ints !! i = Some x → ints !! j = Some y → x < y) as Hlt.
  { clear f. induction Hs as [|z ints Hs IH Hz]; intros i j x y Hij Hi Hj; [done|].
    destruct j as [|j]; [lia|]. destruct i as [|i]; simpl in *.
    - injection Hi as ->. rewrite Forall_forall in Hz. apply Hz. by eapply list_elem_of_lookup_2.
    - eapply (IH i j); eauto. lia. }
  destruct (search_first (length ints) f) as (Hle & Hlo & Hhi).
  { intros a b Ha Hb Hab. unfold f.
    destruct (lookup_lt_is_Some_2 ints a Ha) as [x Hx], (lookup_lt_is_Some_2 ints b Hb) as [y Hy].
    rewrite Hx, Hy. rewrite !Z.leb_le. destruct (decide (a = b)) as [->|]; [naive_solver|].
    assert (x < y) by (apply (Hlt a b); (done || lia)). lia. }
  split.
  - destruct (ints !! _) eqn:E; [|done]. rewrite Z.eqb_eq. intros <-.
    by eapply list_elem_of_lookup_2.
  - intros (i & Hi)%list_elem_of_lookup_1. apply lookup_lt_Some in Hi as Hil.
    set (k := sort_search _ f) in *.
    assert (f i = true) as Hfi by (unfold f; rewrite Hi; apply Z.leb_refl).
    assert (k ≤ i)%nat as Hki. { destruct (decide (k ≤ i)%nat); [done|]. rewrite Hlo in Hfi; [done|lia]. }
    destruct (lookup_lt_is_Some_2 ints k) as [x Hx]; [lia|]. rewrite Hx.
    assert (f k = true) as Hfk by (apply Hhi; lia). unfold f in Hfk. rewrite Hx in Hfk.
    apply Z.leb_le in Hfk. apply Z.eqb_eq. destruct (decide (k = i)) as [->|]; [congruence|].
    assert (x < v) by (apply (Hlt k i); (done || lia)). lia.
Qed.

(** [checkNumStr] accepts the digit strings of the right width whose value, as
    an overflowing [int], is among the values. *)
Lemma checkNumStr_spec num ints padding :
  StronglySorted Z.lt ints →
  checkNumStr num ints padding = true ↔
  num ≠ [] ∧ (0 < padding → Z.of_nat (length num) = padding) ∧
  ∃ n, atoi_digits 0 num = Some n ∧ i64 n ∈ ints.
Proof.
  intros Hs. unfold checkNumStr.
  destruct ((0 <? padding) && negb (Z.of_nat (length num) =? padding)) eqn:Hw.
  - apply andb_true_iff in Hw as [Hp%Z.ltb_lt Hw%negb_true_iff%Z.eqb_neq].
    split; [done|]. intros (_ & H & _). specialize (H Hp). done.
  - assert (0 < padding → Z.of_nat (length num) = padding) as Hw'.
    { intros Hp. apply Z.ltb_lt in Hp. rewrite Hp in Hw. simpl in Hw. by apply negb_false_iff, Z.eqb_eq in Hw. }
    destruct num as [|c num]; [naive_solver|].
    destruct (parseInt (c :: num)) as [v| | |] eqn:Hv.
    + apply parseInt_spec in Hv as (n & Hn & ->). rewrite SearchInts_spec by done.
      rewrite Hn. naive_solver.
    + split; [done|]. intros (_ & _ & n & Hn & _).
      assert (parseInt (c :: num) = Ret (i64 n)) by (apply parseInt_spec; eauto). congruence.
    + split; [done|]. intros (_ & _ & n & Hn & _).
      assert (parseInt (c :: num) = Ret (i64 n)) by (apply parseInt_spec; eauto). congruence.
    + split; [done|]. intros (_ & _ & n & Hn & _).
      assert (parseInt (c :: num) = Ret (i64 n)) by (apply parseInt_spec; eauto). congruence.
Qed.

(** ** Lemmas: a pattern with one bracket *)

(** A text that does not start with a digit is first found right after the digits. *)
Lemma Index_after_digits ds c rest :
  Forall (λ c, is_digit c = true) ds → is_digit c = false → strings_Index (ds ++ c :: rest) (c :: rest) = Some (length ds).
Proof.
  intros Hds Hc. induction Hds as [|d ds Hd Hds IH].
  - assert (strings_HasPrefix (c :: rest) (c :: rest) = true) as Hp by (apply strings_HasPrefix_spec; exists []; by rewrite app_nil_r).
    cbn [app strings_Index]. by rewrite Hp.
  - cbn [app strings_Index]. destruct (strings_HasPrefix (d :: ds ++ c :: rest) (c :: rest)) eqn:Hp; [|by rewrite IH].
    apply strings_HasPrefix_spec in Hp as [k [= -> _]]. congruence.
Qed.

(** What a name leaves for the bracket, where it starts with the text before it
    and ends with the text after it. *)
Lemma matchSimplePattern_bracket s content rest values padding ds :
  "["%char ∉ s → "]"%char ∉ content → "["%char ∉ rest → (∀ c, head rest = Some c → is_digit c = false) →
  Forall (λ c, is_digit c = true) ds → parseBracketExpr content = Ret (values, padding) →
  matchSimplePattern (s ++ "["%char :: content ++ "]"%char :: rest) (s ++ ds ++ rest) =
  Ret (checkNumStr ds values padding).
Proof.
  intros Hs Hc Hrest Hhead Hds Hp. unfold matchSimplePattern.
  assert (∃ c l, s ++ "["%char :: content ++ "]"%char :: rest = c :: l) as (c & l & E)
    by (destruct s; simpl; eauto).
  assert (∃ fuel, length (s ++ "["%char :: content ++ "]"%char :: rest) = S fuel) as [fuel Hfuel] by (rewrite E; by eexists).
  rewrite Hfuel. cbn [simple_loop]. rewrite E at 1. rewrite IndexByte_app, take_app_length, drop_app_length by done.
  assert (strings_HasPrefix (s ++ ds ++ rest) s = true) as -> by (apply strings_HasPrefix_spec; by eexists).
  cbn [negb]. rewrite drop_app_length.
  change ("["%char :: content ++ "]"%char :: rest) with (("["%char :: content) ++ "]"%char :: rest).
  rewrite IndexByte_app by (rewrite not_elem_of_cons; done).
  rewrite take_app_length. change (drop 1 ("["%char :: content)) with content. rewrite Hp. cbn [wrap_err mbind outcome_bind].
  rewrite (cons_middle "]"%char), app_assoc, drop_app_length' by (rewrite length_app; simpl; lia).
  destruct rest as [|c0 rest]; [by rewrite app_nil_r|].
  rewrite (proj2 (IndexByte_None _ _) Hrest), Index_after_digits, take_app_length, drop_app_length by auto.
  destruct (checkNumStr ds values padding); [|done]. cbn [negb]. by rewrite bool_decide_true.
Qed.

Lemma fast_loop_one p h :
  p ≠ [] → strings_TrimSpace p = p → fast_loop [p] h = matchSimplePattern p h.
Proof.
  intros Hne Hp. cbn [fast_loop]. rewrite Hp. destruct p; [done|].
  by destruct (matchSimplePattern _ h) as [[]| | |].
Qed.

Lemma Match_pattern s content rest values padding ds opts :
  name_text s → name_text content → name_text rest → (∀ c, head rest = Some c → is_digit c = false) →
  let pattern := s ++ "["%char :: content ++ "]"%char :: rest in
  parseBracketExpr content = Ret (values, padding) → Forall (λ c, is_digit c = true) ds → s ++ ds ++ rest ≠ pattern →
  Match pattern (s ++ ds ++ rest) opts = Ret (checkNumStr ds values padding).
Proof.
  intros Hs Hc Hr Hhead pattern Hp Hds Hh. unfold Match. rewrite decide_False by done.
  assert (∀ c, name_char c = false → c ≠ "["%char → c ≠ "]"%char → c ∉ pattern) as pattern_not_in.
  { intros c Hn H1 H2. unfold pattern. unfold name_text in *. rewrite Forall_forall in Hs, Hc, Hr.
    set_unfold. naive_solver congruence. }
  pose proof (name_text_bracket_text _ Hc) as Hcb.
  assert (∀ chars, Forall (λ c, name_char c = false ∧ c ≠ "["%char ∧ c ≠ "]"%char) chars →
          contains_any chars pattern = false) as Hno.
  { intros chars Hch. apply contains_any_false. intros c Hc' Hin. rewrite Forall_forall in Hch.
    apply Hch in Hin as (H1 & H2 & H3). by apply (pattern_not_in c). }
  assert (containsGlob pattern = false) as -> by (apply Hno; repeat constructor; discriminate).
  assert (containsComplex pattern = false) as -> by (apply Hno; repeat constructor; discriminate).
  assert (containsBracket pattern = true) as ->.
  { apply (contains_any_true _ _ "["%char); unfold pattern; set_solver. }
  simpl. unfold matchFast.
  rewrite strings_Split_no_sep by (apply pattern_not_in; [reflexivity|discriminate..]).
  rewrite fast_loop_one by first [by apply pattern_nonempty | by apply pattern_trim].
  by apply matchSimplePattern_bracket; [by apply name_text_not_in..|done|done|].
Qed.

(** ** Lemmas: names of a range *)

(** A non-negative number printed with a padding reads back as itself. *)
Lemma format_value_digits padding v :
  0 ≤ v → format_value padding v ≠ [] ∧ atoi_digits 0 (format_value padding v) = Some v.
Proof.
  intros Hv. destruct (zero_pad_digits padding v Hv) as (H1 & _ & H2).
  assert (format_value padding v = zero_pad padding (udec v)) as ->; [|done].
  unfold format_value. destruct (Z.ltb_spec 0 padding).
  - unfold fmt_0d. by destruct (Z.ltb_spec v 0); [lia|].
  - rewrite <-(fmt_0d_Itoa padding) by done. unfold fmt_0d. by destruct (Z.ltb_spec v 0); [lia|].
Qed.

Lemma format_value_width padding v :
  0 ≤ v → 0 < padding → Z.of_nat (length (udec v)) ≤ padding →
  Z.of_nat (length (format_value padding v)) = padding.
Proof.
  intros Hv Hp Hl. unfold format_value. destruct (Z.ltb_spec 0 padding); [|lia]. unfold fmt_0d.
  destruct (Z.ltb_spec v 0); [lia|]. by apply length_zero_pad.
Qed.

Lemma Match_Expand_spec s content rest values padding opts v :
  name_text s → name_text content → name_text rest → (∀ c, head rest = Some c → is_digit c = false) →
  parseBracketExpr content = Ret (values, padding) →
  StronglySorted Z.lt values → values ≠ [] → (∀ w, w ∈ values → 0 ≤ w) →
  0 < o_maxExpand (apply_options opts) ≤ MaxInt64 →
  Z.of_nat (length values) ≤ o_maxExpand (apply_options opts) →
  0 ≤ v ≤ MaxInt64 → (0 < padding → Z.of_nat (length (udec v)) ≤ padding) →
  let pattern := s ++ "["%char :: content ++ "]"%char :: rest in
  let h := s ++ format_value padding v ++ rest in
  ∃ l b, Expand pattern opts = Ret l ∧ Match pattern h opts = Ret b ∧ (b = true ↔ h ∈ l).
Proof.
  intros Hs Hc Hr Hhead Hp Hsort Hne Hnn Hm Hlen Hv Hw pattern h.
  destruct (parseExpr_pattern s content rest Hs (name_text_bracket_text _ Hc) Hr (o_resolver (apply_options opts)) _ values padding
              Hp Hne Hm Hlen) as (l & Hl & Hin).
  destruct (format_value_digits padding v) as [Hd1 Hd2]; [lia|].
  assert (Forall (λ c, is_digit c = true) (format_value padding v)) as Hdig.
  { rewrite (format_value_formatInt []). by apply formatInt_digits. }
  assert (h ≠ pattern) as Hh.
  { intros E%(app_inv_head s). destruct (format_value padding v) as [|c t]; [done|].
    injection E as -> _. discriminate Hd2. }
  eexists _, _. split; [|split; [by apply Match_pattern|]].
  - unfold Expand, New. fold pattern in Hl. rewrite Hl. done.
  - unfold NodeSet_Nodes. rewrite elem_of_sort_Strings, elem_of_elements. cbn [ns_nodes].
    rewrite elem_of_add_all, Hin. unfold h. rewrite checkNumStr_spec, Hd2 by done. rewrite elem_of_empty. split.
    + intros (_ & _ & n & [= <-] & Hn). right. rewrite i64_id in Hn by i64_lia. eauto.
    + intros [[]|(w & Hwv & E%(app_inv_head s)%(app_inv_tail rest))]. split_and!; [done| |].
      * intros Hpad. apply format_value_width; (auto || lia).
      * exists v. split; [done|]. rewrite i64_id by i64_lia.
        destruct (format_value_digits padding w) as [_ Hd]; [auto|]. congruence.
Qed.

(** ** Properties *)

(** C10: on a pattern of plain text (no operator, wildcard, bracket, comma or
    space), one bracket whose content has no comma and is parsed to a sorted, non-empty
    list of at most [maxExpand] values, and plain text that does not begin with a
    digit (or none), the fast path accepts a name made of the two texts and a number
    printed at the bracket's padding exactly when the expansion of the pattern holds
    it, as long as the number is an [int] that fits the padding. Outside these
    conditions the two can disagree ([Match_fast_path_gaps]). *)
Theorem Match_agrees_with_Expand s content rest values padding opts v :
  name_text s → name_text content → name_text rest → (∀ c, head rest = Some c → is_digit c = false) →
  parseBracketExpr content = Ret (values, padding) →
  StronglySorted Z.lt values → values ≠ [] → (∀ w, w ∈ values → 0 ≤ w) →
  0 < o_maxExpand (apply_options opts) ≤ MaxInt64 →
  Z.of_nat (length values) ≤ o_maxExpand (apply_options opts) →
  0 ≤ v ≤ MaxInt64 → (0 < padding → Z.of_nat (length (udec v)) ≤ padding) →
  let pattern := s ++ "["%char :: content ++ "]"%char :: rest in
  let h := s ++ format_value padding v ++ rest in
  ∃ l b, Expand pattern opts = Ret l ∧ Match pattern h opts = Ret b ∧ (b = true ↔ h ∈ l).
Proof. apply Match_Expand_spec. Qed.

(** a comma inside a bracket breaks the fast path: it cuts the pattern at
    every comma, so the first piece has an unclosed bracket and every name that
    starts with the text before the bracket gets an error instead of an answer. *)
Theorem Match_comma_in_bracket s content rest h opts :
  name_text s → name_text content →
  containsGlob rest = false → containsComplex rest = false →
  strings_HasPrefix h s = true → h ≠ s ++ "["%char :: content ++ ","%char :: rest →
  Match (s ++ "["%char :: content ++ ","%char :: rest) h opts
  = Err (Errorf "unclosed bracket in %q").
Proof.
  intros Hs Hc Hg Hx Hpre Hne. set (first := s ++ "["%char :: content).
  assert (s ++ "["%char :: content ++ ","%char :: rest = first ++ ","%char :: rest) as E
    by (unfold first; by rewrite <-app_assoc).
  rewrite E in *. unfold Match. rewrite decide_False by done.
  assert (∀ c, c ∈ first → name_char c = true ∨ c = "["%char) as Hfirst.
  { unfold first. unfold name_text in *. rewrite Forall_forall in Hs, Hc. set_unfold. naive_solver. }
  assert (∀ chars, contains_any chars rest = false →
            Forall (λ c, name_char c = false ∧ c ≠ "["%char ∧ c ≠ ","%char) chars →
            contains_any chars (first ++ ","%char :: rest) = false) as Hno.
  { intros chars Hr Hch. apply contains_any_false. rewrite contains_any_false in Hr.
    rewrite Forall_forall in Hch. intros c [Hc1%Hfirst|[->|Hc1]%elem_of_cons]%elem_of_app Hin.
    - apply Hch in Hin as (? & ? & _). destruct Hc1; congruence.
    - by apply Hch in Hin as (_ & _ & ?).
    - by apply (Hr c). }
  unfold containsGlob, containsComplex in *.
  rewrite !Hno by (done || (repeat constructor; discriminate)).
  assert (containsBracket (first ++ ","%char :: rest) = true) as ->.
  { apply (contains_any_true _ _ "["%char); unfold first; set_solver. }
  cbn [orb negb andb]. unfold matchFast.
  rewrite strings_Split_app by (intros [H|H]%Hfirst; discriminate). cbn [fast_loop].
  rewrite TrimSpace_solid.
  2: { apply Forall_forall. intros c [H| ->]%Hfirst; [|done].
       unfold name_char in H. by apply andb_true_iff in H as [? _]. }
  assert (matchSimplePattern first h = Err (Errorf "unclosed bracket in %q")) as Hm.
  { unfold matchSimplePattern. cbn [simple_loop].
    assert (∃ c l, first = c :: l) as (c & l & E1) by (unfold first; destruct s; simpl; eauto).
    rewrite E1 at 1. unfold first.
    rewrite IndexByte_app, take_app_length, drop_app_length, Hpre
      by (by apply name_text_not_in). cbn [negb].
    rewrite (proj2 (IndexByte_None _ _)); [done|].
    intros [?|H]%elem_of_cons; [done|]. by apply (name_text_not_in content "]"%char). }
  destruct first; [done|]. by rewrite Hm.
Qed.

(** outside those conditions the fast path and the expansion disagree: a
    leading zero is ignored when the bracket is not padded, a number wider than
    the padding is refused, a number that wraps around the [int] range is taken
    for its residue, adjacent brackets and brackets followed by a digit are
    never matched. *)
Theorem Match_fast_path_gaps :
  (Match (go "node[1-3]") (go "node01") [] = Ret true ∧
   Expand (go "node[1-3]") [] = Ret [go "node1"; go "node2"; go "node3"]) ∧
  (Match (go "node[08-10]") (go "node010") [] = Ret false ∧
   Match (go "node[99,0100]") (go "node0100") [] = Err (Errorf "unclosed bracket in %q")) ∧
  (Match (go "node[098-1000/902]") (go "node1000") [] = Ret false ∧
   Expand (go "node[098-1000/902]") [] = Ret [go "node098"; go "node1000"]) ∧
  Match (go "node[1-3]") (go "node18446744073709551617") [] = Ret true ∧
  (Match (go "r[1-2][3-4]") (go "r13") [] = Ret false ∧
   Expand (go "r[1-2][3-4]") [] = Ret [go "r13"; go "r14"; go "r23"; go "r24"]) ∧
  (Match (go "n[1-2]1") (go "n11") [] = Ret false ∧
   Expand (go "n[1-2]1") [] = Ret [go "n11"; go "n21"]).
Proof. vm_compute. split_and!; reflexivity. Qed.

(** ** Witnesses *)

Lemma Match_agrees_with_Expand_witness :
  ∃ l b, Expand (go "mds-[08-10]-ib") [] = Ret l ∧ Match (go "mds-[08-10]-ib") (go "mds-09-ib") [] = Ret b ∧
         (b = true ↔ go "mds-09-ib" ∈ l).
Proof.
  apply (Match_agrees_with_Expand (go "mds-") (go "08-10") (go "-ib") [8; 9; 10] 2 [] 9).
  - repeat constructor.
  - repeat constructor.
  - repeat constructor.
  - intros c [= <-]. reflexivity.
  - vm_compute. reflexivity.
  - repeat constructor; lia.
  - discriminate.
  - set_unfold. lia.
  - split; reflexivity || discriminate.
  - discriminate.
  - split; discriminate.
  - discriminate.
Defined.

Lemma Match_comma_in_bracket_witness :
  Match (go "node[1,3]") (go "node1") [] = Err (Errorf "unclosed bracket in %q") ∧
  Expand (go "node[1,3]") [] = Ret [go "node1"; go "node3"].
Proof.
  split; [|vm_compute; reflexivity].
  apply (Match_comma_in_bracket (go "node") (go "1") (go "3]") (go "node1") []).
  - repeat constructor.
  - repeat constructor.
  - reflexivity.
  - reflexivity.
  - reflexivity.
  - discriminate.
Defined.
