(* ===== verification/GoNet.v ===== *)
(** * Text input of Go's standard library the resolver uses

    [strings.Fields], the lines of [bufio.Scanner] with its buffer limit, and the
    syntax [net.ParseIP] accepts. *)

From Stdlib Require Import Ascii.
From stdpp Require Import base numbers gmap strings sorting list.
From S2P Require Import Prelude GoStrings.

Open Scope Z_scope.

(** ** strings.Fields *)

Definition flush_field (cur : gostring) : list gostring :=
  match cur with [] => [] | _ => [cur] end.

Fixpoint fields_loop (fuel : nat) (s cur : gostring) : list gostring :=
  match fuel with
  | O => flush_field cur
  | S fuel =>
      match s with
      | [] => flush_field cur
      | c :: rest =>
          match list_find (λ r, r `prefix_of` s) space_runes with
          | Some (_, r) => flush_field cur ++ fields_loop fuel (drop (length r) s) []
          | None => fields_loop fuel rest (cur ++ [c])
          end
      end
  end.

(** [strings.Fields(s)]. Every turn drops at least one byte. *)
Definition strings_Fields (s : gostring) : list gostring := fields_loop (S (length s)) s [].

(** ** bufio.Scanner *)

(** [bufio.MaxScanTokenSize]: the buffer holds a line with its newline. *)
Definition MaxScanTokenSize : Z := 64 * 1024.

Definition ErrTooLong : goerr := Errorf "bufio.Scanner: token too long".

Definition newline : ascii := ascii_of_N 10.

(** The text [Scan] makes of a raw line: one trailing carriage return goes. *)
Definition drop_cr (line : gostring) : gostring :=
  match reverse line with
  | c :: r => if decide (c = ascii_of_N 13) then reverse r else line
  | [] => line
  end.

(** The raw lines of an input; what follows the last newline is a line unless
    it is empty. *)
Definition raw_lines (s : gostring) : list gostring :=
  let l := strings_Split s newline in
  match List.last l [] with [] => removelast l | _ => l end.

(** The lines [Scan] returns before the first that does not fit the buffer, and
    whether there was one. *)
Fixpoint scan_lines (raw : list gostring) : list gostring * bool :=
  match raw with
  | [] => ([], false)
  | line :: raw =>
      if MaxScanTokenSize <=? Z.of_nat (length line) then ([], true)
      else let '(l, long) := scan_lines raw in (drop_cr line :: l, long)
  end.

(** ** net.ParseIP *)

(** The scan of a dotted quad: the value and the digits of the current octet,
    the octets before it, and whether the last byte was no separator. *)
Fixpoint ipv4_loop (val digLen pos : Z) (s : gostring) : bool :=
  match s with
  | [] => pos =? 3
  | c :: s =>
      if is_digit c then
        if (digLen =? 1) && (val =? 0) then false
        else
          let val := val * 10 + digit_val c in
          if 255 <? val then false else ipv4_loop val (digLen + 1) pos s
      else if decide (c = "."%char) then
        if (digLen =? 0) || bool_decide (s = []) then false
        else if pos =? 3 then false
        else ipv4_loop 0 0 (pos + 1) s
      else false
  end.

(** [parseIPv4Fields]; its test that a dot is neither first nor after a dot is
    [digLen = 0]. An empty text has too few octets. *)
Definition parse_ipv4 (s : gostring) : bool := ipv4_loop 0 0 0 s.

Definition hex_val (c : ascii) : option Z :=
  let n := Z.of_N (N_of_ascii c) in
  if (48 <=? n) && (n <=? 57) then Some (n - 48)
  else if (97 <=? n) && (n <=? 102) then Some (n - 97 + 10)
  else if (65 <=? n) && (n <=? 70) then Some (n - 65 + 10)
  else None.

(** The hex digits in front of [s]: their number and the rest; [None] after more
    than four. *)
Fixpoint hex_run (off : nat) (s : gostring) : option (nat * gostring) :=
  match s with
  | [] => Some (off, [])
  | c :: r =>
      match hex_val c with
      | None => Some (off, s)
      | Some _ => if (3 <? off)%nat then None else hex_run (S off) r
      end
  end.

(** The loop of [parseIPv6] at byte [i] of the address; every turn advances [i]
    by two, so nine turns are more than it makes. *)
Fixpoint ipv6_loop (fuel : nat) (i : Z) (ellipsis : bool) (s : gostring) : bool :=
  let finish (i : Z) (ellipsis : bool) (s : gostring) : bool :=
    bool_decide (s = []) && (if i <? 16 then ellipsis else negb ellipsis) in
  match fuel with
  | O => false
  | S fuel =>
      if 16 <=? i then finish i ellipsis s
      else
        match hex_run 0 s with
        | None => false
        | Some (O, _) => false
        | Some (_, "."%char :: _) =>
            if negb ellipsis && negb (i =? 12) then false
            else if 16 <? i + 4 then false
            else parse_ipv4 s && finish (i + 4) ellipsis []
        | Some (_, []) => finish (i + 2) ellipsis []
        | Some (_, ":"%char :: []) => false
        | Some (_, ":"%char :: ":"%char :: r) =>
            if ellipsis then false
            else match r with
                 | [] => finish (i + 2) true []
                 | _ => ipv6_loop fuel (i + 2) true r
                 end
        | Some (_, ":"%char :: r) => ipv6_loop fuel (i + 2) ellipsis r
        | Some _ => false
        end
  end.

Definition parse_ipv6 (s : gostring) : bool :=
  match s with
  | ":"%char :: ":"%char :: [] => true
  | ":"%char :: ":"%char :: r => ipv6_loop 9 0 true r
  | _ => ipv6_loop 9 0 false s
  end.

(** Whether [net.ParseIP(s)] is not nil. An address with a zone is refused; what
    comes first of "." and ":" decides the family. *)
Definition net_ParseIP (s : gostring) : bool :=
  if decide ("%"%char ∈ s) then false
  else
    match list_find (λ c, c = "."%char ∨ c = ":"%char) s with
    | Some (_, "."%char) => parse_ipv4 s
    | Some _ => parse_ipv6 s
    | None => false
    end.

(** ** Lemmas *)

Example ParseIP_accepts :
  map net_ParseIP (map go ["10.0.0.1"; "::1"; "fe80::1:2"; "::ffff:1.2.3.4"; "1:2:3:4:5:6:7:8"; "::"]%string)
  = replicate 6 true.
Proof. reflexivity. Qed.

Example ParseIP_refuses :
  map net_ParseIP (map go
    ["10.0.0"; "010.0.0.1"; "1.2.3.256"; "1..2.3"; "fe80::1%eth0"; "1::2::3"; "12345::"; "1:2:3:4:5:6:7";
     "host"; ""; "1.2.3.4."; "1:2:3:4:5:6:7::8:9"]%string)
  = replicate 12 false.
Proof. reflexivity. Qed.

Lemma flush_field_ne cur : cur ≠ [] → flush_field cur = [cur].
Proof. by destruct cur. Qed.

(** A byte of no space encoding starts no space. *)
Lemma solid_no_space c s :
  solid c = true → list_find (λ r, r `prefix_of` (c :: s)) space_runes = None.
Proof.
  intros Hc. apply list_find_None. apply Forall_forall. intros r Hr [k Hk].
  pose proof solid_fronts as Hf. rewrite forallb_forall in Hf.
  specialize (Hf r (proj1 (list_elem_of_In _ _) Hr)). unfold no_solid_front in Hf.
  destruct r as [|d r]; [done|]. injection Hk as <- _. rewrite Hc in Hf. done.
Qed.

Lemma not_solid_newline : solid newline = false.
Proof. reflexivity. Qed.

Lemma solid_not_in c s : solid c = false → Forall (λ x, solid x = true) s → c ∉ s.
Proof. intros Hc Hs Hin. rewrite Forall_forall in Hs. specialize (Hs c Hin). congruence. Qed.

(** Fields of solid bytes joined with single spaces are found again. *)
Lemma fields_loop_solid fuel s cur rest :
  Forall (λ c, solid c = true) s →
  fields_loop (length s + fuel) (s ++ rest) cur = fields_loop fuel rest (cur ++ s).
Proof.
  revert cur. induction s as [|c s IH]; intros cur Hs; [simpl; by rewrite app_nil_r|].
  apply Forall_cons in Hs as [Hc Hs]. cbn [length Nat.add app fields_loop].
  rewrite (solid_no_space c (s ++ rest)) by done. rewrite IH by done. by rewrite <-app_assoc.
Qed.

Lemma TrimSpace_space s : strings_TrimSpace (" "%char :: s) = strings_TrimSpace s.
Proof.
  unfold strings_TrimSpace. cbn [length trim_prefixes].
  assert (list_find (λ r, r `prefix_of` (" "%char :: s)) space_runes = Some (5%nat, go " ")) as ->; [|done].
  apply list_find_Some. split_and!; [done|by exists s|].
  intros j y Hj Hlt [k Hk]. do 5 (destruct j as [|j]; [injection Hj as <-; done|]). lia.
Qed.

Lemma Fields_space s : strings_Fields (" "%char :: s) = strings_Fields s.
Proof.
  unfold strings_Fields. cbn [length fields_loop].
  assert (list_find (λ r, r `prefix_of` (" "%char :: s)) space_runes = Some (5%nat, go " ")) as ->; [|done].
  apply list_find_Some. split_and!; [done|by exists s|].
  intros j y Hj Hlt [k Hk]. do 5 (destruct j as [|j]; [injection Hj as <-; done|]). lia.
Qed.

Lemma Fields_Join l :
  Forall (λ f, f ≠ [] ∧ Forall (λ c, solid c = true) f) l →
  strings_Fields (strings_Join l (go " ")) = l.
Proof.
  unfold strings_Fields.
  assert (∀ l fuel, Forall (λ f, f ≠ [] ∧ Forall (λ c, solid c = true) f) l →
    l ≠ [] → fields_loop (length (strings_Join l (go " ")) + S fuel) (strings_Join l (go " ")) [] = l) as Hj.
  { clear l. induction l as [|f l IH]; intros fuel Hl Hne; [done|].
    apply Forall_cons in Hl as [[Hf Hs] Hl]. destruct l as [|f' l].
    - simpl. pose proof (fields_loop_solid (S fuel) f [] [] Hs) as Hrun. rewrite app_nil_r in Hrun.
      rewrite Hrun. simpl. by apply flush_field_ne.
    - set (rest := strings_Join (f' :: l) (go " ")) in *.
      change (strings_Join (f :: f' :: l) (go " ")) with (f ++ go " " ++ rest).
      rewrite !length_app, <-Nat.add_assoc, fields_loop_solid by done.
      change (length (go " ") + length rest + S fuel)%nat with (S (length rest + S fuel)).
      cbn [fields_loop app]. change (go " " ++ rest) with (" "%char :: rest).
      assert (list_find (λ r, r `prefix_of` (" "%char :: rest)) space_runes = Some (5%nat, go " ")) as ->.
      { apply list_find_Some. split_and!; [done|by exists rest|].
        intros j y Hj Hlt [k Hk]. do 5 (destruct j as [|j]; [injection Hj as <-; done|]). lia. }
      change (drop (length (go " ")) (" "%char :: rest)) with rest.
      rewrite flush_field_ne by done. simpl. f_equal. by apply IH. }
  destruct l as [|f l]; [done|]. intros Hl. rewrite <-Nat.add_1_r. by apply (Hj _ 0%nat).
Qed.

Lemma Split_lines ls :
  Forall (λ l, newline ∉ l) ls → strings_Split (concat (map (λ l, l ++ [newline]) ls)) newline = ls ++ [[]].
Proof.
  induction 1 as [|l ls Hl _ IH]; [done|]. simpl. rewrite <-app_assoc.
  change ([newline] ++ concat (map (λ l, l ++ [newline]) ls)) with (newline :: concat (map (λ l, l ++ [newline]) ls)).
  rewrite strings_Split_app by done. by rewrite IH.
Qed.

(** Lines written one by one are read one by one. *)
Lemma raw_lines_concat ls :
  Forall (λ l, newline ∉ l) ls → raw_lines (concat (map (λ l, l ++ [newline]) ls)) = ls.
Proof.
  intros Hls. unfold raw_lines. rewrite Split_lines by done.
  rewrite List.last_last. apply removelast_last.
Qed.

Lemma drop_cr_solid s c : solid c = true → drop_cr (s ++ [c]) = s ++ [c].
Proof.
  intros Hc. unfold drop_cr. rewrite reverse_snoc. rewrite decide_False; [done|].
  intros ->. done.
Qed.

Lemma scan_lines_short ls :
  Forall (λ l, Z.of_nat (length l) < MaxScanTokenSize) ls → scan_lines ls = (map drop_cr ls, false).
Proof.
  induction 1 as [|l ls Hl _ IH]; [done|]. cbn [scan_lines]. destruct (Z.leb_spec MaxScanTokenSize (Z.of_nat (length l))); [lia|].
  by rewrite IH.
Qed.

(** A line of words has solid ends. *)
Lemma Join_ends l :
  l ≠ [] → Forall (λ f, f ≠ [] ∧ Forall (λ c, solid c = true) f) l →
  ∃ c d s, strings_Join l (go " ") = s ++ [d] ∧ solid d = true ∧
    (∃ t, strings_Join l (go " ") = c :: t) ∧ solid c = true ∧
    newline ∉ strings_Join l (go " ").
Proof.
  intros Hne Hl. induction l as [|f l IH]; [done|]. apply Forall_cons in Hl as [[Hf Hs] Hl].
  assert (newline ∉ f) as Hnl by (by apply solid_not_in).
  destruct l as [|f' l].
  - simpl. destruct f as [|c f] using rev_ind; [done|]. clear IHf.
    apply Forall_app in Hs as [Hs Hc]. inversion Hc as [|?? Hc' _]; subst.
    destruct f as [|b f]; [exists c, c, []; naive_solver|].
    apply Forall_cons in Hs as [Hb _]. exists b, c, (b :: f). split_and!; eauto.
  - destruct IH as (c & d & s & E & Hd & _ & _ & Hn); [done..|].
    destruct f as [|b f]; [done|]. apply Forall_cons in Hs as [Hb _].
    exists b, d, ((b :: f) ++ go " " ++ s).
    change (strings_Join ((b :: f) :: f' :: l) (go " "))
      with ((b :: f) ++ go " " ++ strings_Join (f' :: l) (go " ")). rewrite E in *.
    split_and!; [by rewrite <-!app_assoc|done|eauto|done|].
    rewrite !not_elem_of_app. rewrite not_elem_of_app in Hn. split_and!; [done| |by destruct Hn..].
    by intros Hin%list_elem_of_singleton.
Qed.

Lemma TrimSpace_ends s c d t :
  s = c :: t → (∃ u, s = u ++ [d]) → solid c = true → solid d = true → strings_TrimSpace s = s.
Proof.
  intros -> [u Hu] Hc Hd. destruct u as [|x u]; injection Hu as -> Hu; subst.
  - apply TrimSpace_solid. by repeat constructor.
  - by apply TrimSpace_solid_ends.
Qed.

(** A word: what [strings.Fields] keeps together. *)
Definition word (f : gostring) : Prop := f ≠ [] ∧ Forall (λ c, solid c = true) f.

(** A line of words that fits the scanner's buffer. *)
Definition word_line (l : list gostring) : Prop :=
  l ≠ [] ∧ Forall word l ∧ Z.of_nat (length (strings_Join l (go " "))) < MaxScanTokenSize.

#[export] Instance word_dec f : Decision (word f).
Proof. unfold word. apply _. Defined.

#[export] Instance word_line_dec l : Decision (word_line l).
Proof. unfold word_line. apply _. Defined.

Definition print_lines (ls : list (list gostring)) : gostring :=
  concat (map (λ l, strings_Join l (go " ") ++ [newline]) ls).

(** Lines of words are scanned and split into the same words. *)
Lemma scan_words ls :
  Forall word_line ls →
  (scan_lines (raw_lines (print_lines ls))).2 = false ∧
  map strings_Fields (scan_lines (raw_lines (print_lines ls))).1 = ls.
Proof.
  intros Hls. unfold print_lines. rewrite <-(map_map (λ l, strings_Join l (go " ")) (λ s, s ++ [newline])).
  rewrite raw_lines_concat, scan_lines_short.
  - split; [done|]. cbn [fst]. induction Hls as [|l ls (Hne & Hw & _) _ IH]; [done|]. cbn [map]. f_equal; [|exact IH].
    destruct (Join_ends l Hne Hw) as (c & d & s & E & Hd & _). rewrite E, drop_cr_solid, <-E by done. by apply Fields_Join.
  - apply Forall_map. eapply Forall_impl; [exact Hls|]. by intros l (_ & _ & ?).
  - apply Forall_map. eapply Forall_impl; [exact Hls|]. intros l (Hne & Hw & _).
    by destruct (Join_ends l Hne Hw) as (c & d & s & _ & _ & _ & _ & Hn).
Qed.

Lemma word_line_text l : word_line l → newline ∉ strings_Join l (go " ") ∧ strings_TrimSpace (strings_Join l (go " ")) = strings_Join l (go " ") ∧
  strings_Fields (strings_Join l (go " ")) = l.
Proof.
  intros (Hne & Hw & _). destruct (Join_ends l Hne Hw) as (c & d & s & E & Hd & (t & E') & Hc & Hn).
  split_and!; [done|by eapply TrimSpace_ends; eauto|by apply Fields_Join].
Qed.

(** Text split at newlines: the lines, and nothing after the last. *)
Lemma split_words {A} (f : gostring → option A) (ls : list (list gostring)) :
  Forall word_line ls → f [] = None →
  omap f (strings_Split (print_lines ls) newline) = omap (λ l, f (strings_Join l (go " "))) ls.
Proof.
  intros Hls Hnil. unfold print_lines. rewrite <-(map_map (λ l, strings_Join l (go " ")) (λ s, s ++ [newline])).
  rewrite Split_lines by (apply Forall_map; eapply Forall_impl; [exact Hls|]; by intros l (? & _)%word_line_text).
  rewrite omap_app. cbn [omap list_omap]. rewrite Hnil, app_nil_r. clear. induction ls as [|l ls IH]; [done|]. cbn [map omap list_omap]. by rewrite IH.
Qed.

(** The newline at the end of a text is trimmed. *)
Lemma TrimSpace_newline s c d : (∃ t, s = c :: t) → (∃ u, s = u ++ [d]) → solid c = true → solid d = true →
  strings_TrimSpace (s ++ [newline]) = s.
Proof.
  intros [t Ht] [u Hu] Hc Hd. unfold strings_TrimSpace.
  assert (trim_prefixes (length (s ++ [newline])) space_runes (s ++ [newline]) = s ++ [newline]) as ->.
  { rewrite Ht. rewrite <-app_comm_cons. apply trim_prefixes_solid; [apply solid_fronts|done]. }
  rewrite length_app, Nat.add_1_r, reverse_snoc. cbn [trim_prefixes].
  assert (list_find (λ r, r `prefix_of` (newline :: reverse s)) (map reverse space_runes) = Some (1%nat, [newline])) as ->.
  { apply list_find_Some. split_and!; [done|by exists (reverse s)|]. intros j y Hj Hlt [k Hk]. destruct j; [|lia]. injection Hj as <-. discriminate Hk. }
  change (drop (length [newline]) (newline :: reverse s)) with (reverse s). rewrite Hu at 2. rewrite Hu at 2. rewrite reverse_snoc.
  rewrite trim_prefixes_solid; [|apply solid_backs|done]. rewrite <-reverse_snoc, <-Hu. apply reverse_involutive.
Qed.

Lemma print_lines_Join ls : ls ≠ [] → print_lines ls = strings_Join (map (λ l, strings_Join l (go " ")) ls) [newline] ++ [newline].
Proof.
  intros Hne. unfold print_lines. induction ls as [|l ls IH]; [done|]. destruct ls as [|l' ls]; [simpl; by rewrite app_nil_r|].
  cbn [map concat] in *. rewrite IH by done. cbn [strings_Join map]. by rewrite <-!(assoc_L (++)).
Qed.

(** A text of lines of words, trimmed and split at newlines. *)
Lemma split_trimmed ls : ls ≠ [] → Forall word_line ls →
  strings_Split (strings_TrimSpace (print_lines ls)) newline = map (λ l, strings_Join l (go " ")) ls.
Proof.
  intros Hne Hls. rewrite print_lines_Join by done.
  assert (∃ c t u d, strings_Join (map (λ l, strings_Join l (go " ")) ls) [newline] = c :: t ∧ c :: t = u ++ [d] ∧ solid c = true ∧ solid d = true)
    as (c & t & u & d & E & E' & Hc & Hd).
  { destruct ls as [|l ls]; [done|]. clear Hne.
    assert (∀ l, word_line l → ∃ c d s, strings_Join l (go " ") = s ++ [d] ∧ solid d = true ∧ (∃ t, strings_Join l (go " ") = c :: t) ∧ solid c = true) as Hends.
    { intros l0 (Hne & Hw & _). destruct (Join_ends l0 Hne Hw) as (c & d & s & ? & ? & ? & ? & _). by exists c, d, s. }
    apply Forall_cons in Hls as [Hl Hls]. destruct (Hends l Hl) as (c & d0 & s0 & E0 & Hd0 & [t0 Et0] & Hc).
    assert (∃ d s, strings_Join (map (λ l, strings_Join l (go " ")) (l :: ls)) [newline] = s ++ [d] ∧ solid d = true) as (d & s & Es & Hd).
    { clear -Hls Hends E0 Hd0. revert l s0 d0 E0 Hd0. induction Hls as [|l' ls Hl' _ IH]; intros l s0 d0 E0 Hd0; [by exists d0, s0|].
      destruct (Hends l' Hl') as (_ & d1 & s1 & E1 & Hd1 & _). destruct (IH l' s1 d1 E1 Hd1) as (d & s & Es & Hd). exists d.
      eexists. split; [|exact Hd]. cbn [map strings_Join] in *. rewrite Es. by rewrite !(assoc_L (++)). }
    assert (∃ t, strings_Join (map (λ l, strings_Join l (go " ")) (l :: ls)) [newline] = c :: t) as [t Et].
    { cbn [map strings_Join]. rewrite Et0. destruct (map _ ls); by eexists. }
    exists c, t, s, d. split_and!; [done|congruence|done|done]. }
  erewrite TrimSpace_newline; [|by eexists|rewrite E; by eexists|done|done].
  apply strings_Split_Join; [by destruct ls|]. apply Forall_map. eapply Forall_impl; [exact Hls|]. by intros l (? & _)%word_line_text.
Qed.
