(* ===== verification/Nucleus.v ===== *)
(** * The node's own state: pkg/mesh/nucleus/manifest.go and impedance.go

    A [Manifest] is guarded by a lock each method holds for its whole body, and
    the calculator's stream counter is atomic, so each method is one transition.
    Metrics come from a [MetricSource] the embedding program supplies: the values
    it returns are arguments. *)

From Stdlib Require Import Ascii.
From stdpp Require Import base numbers gmap strings sorting list.
From S2P Require Import Prelude GoStrings GoFloat.

Open Scope Z_scope.

(** ** Manifest *)

Definition MinImpedance : float64 := f64_of_Z 1.
Definition MaxImpedance : float64 := f64_of_Z 100.

Record Manifest := MkManifest {
  m_nodeID : gostring;
  m_capabilities : gset gostring;
  m_impedance : float64;
  m_addresses : list gostring
}.

Definition NewManifest (nodeID : gostring) : Manifest := MkManifest nodeID ∅ MinImpedance [].

Definition Manifest_NodeID (m : Manifest) : gostring := m_nodeID m.

Definition Manifest_RegisterCapability (m : Manifest) (capability : gostring) : Manifest :=
  MkManifest (m_nodeID m) ({[capability]} ∪ m_capabilities m) (m_impedance m) (m_addresses m).

Definition Manifest_HasCapability (m : Manifest) (capability : gostring) : bool :=
  if strings_HasSuffix capability (go ":*") then
    let prefix := strings_TrimSuffix capability (go "*") in
    existsb (λ cap, strings_HasPrefix cap prefix) (elements (m_capabilities m))
  else bool_decide (capability ∈ m_capabilities m).

Definition Manifest_Capabilities (m : Manifest) : list gostring := elements (m_capabilities m).

Definition Manifest_SetImpedance (m : Manifest) (value : float64) : Manifest :=
  let value := if f64_ltb value MinImpedance then MinImpedance else value in
  let value := if f64_ltb MaxImpedance value then MaxImpedance else value in
  MkManifest (m_nodeID m) (m_capabilities m) value (m_addresses m).

Definition Manifest_Impedance (m : Manifest) : float64 := m_impedance m.

Definition Manifest_SetAddresses (m : Manifest) (addrs : list gostring) : Manifest :=
  MkManifest (m_nodeID m) (m_capabilities m) (m_impedance m) addrs.

Record ManifestSnapshot := MkManifestSnapshot {
  ms_NodeID : gostring;
  ms_Capabilities : list gostring;
  ms_Impedance : float64;
  ms_Addresses : list gostring
}.

Definition Manifest_Snapshot (m : Manifest) : ManifestSnapshot :=
  MkManifestSnapshot (m_nodeID m) (elements (m_capabilities m)) (m_impedance m) (m_addresses m).

(** ** Impedance *)

Definition cpuWeight : float64 := f64_ratio 60 100.
Definition memWeight : float64 := f64_ratio 25 100.
Definition streamWeight : float64 := f64_ratio 15 100.
Definition maxStreamPressure : Z := 500.

(** The calculator: the manifest it updates and the stream counter. *)
Record ImpedanceCalculator := MkImpedanceCalculator {
  ic_manifest : Manifest;
  ic_streams : Z
}.

Definition NewImpedanceCalculator (m : Manifest) : ImpedanceCalculator := MkImpedanceCalculator m 0.

Definition clampNorm (v : float64) : float64 :=
  if f64_ltb v (f64_of_Z 0) then f64_of_Z 0
  else if f64_ltb (f64_of_Z 1) v then f64_of_Z 1
  else v.

(** [streamNorm] *)
Definition stream_norm (streams : Z) : float64 :=
  let streamCount := f64_of_Z streams in
  let streamCount := if f64_ltb streamCount (f64_of_Z 0) then f64_of_Z 0 else streamCount in
  let streamNorm := f64_div streamCount (f64_of_Z maxStreamPressure) in
  if f64_ltb (f64_of_Z 1) streamNorm then f64_of_Z 1 else streamNorm.

(** [Calculate] with [source.CPUPercent() = cpu] and [source.MemoryPercent() = mem]. *)
Definition ImpedanceCalculator_Calculate (c : ImpedanceCalculator) (cpu mem : float64) : float64 :=
  let cpuNorm := clampNorm (f64_div cpu (f64_of_Z 100)) in
  let memNorm := clampNorm (f64_div mem (f64_of_Z 100)) in
  let streamNorm := stream_norm (ic_streams c) in
  let composite :=
    f64_add (f64_add (f64_mul cpuNorm cpuWeight) (f64_mul memNorm memWeight))
      (f64_mul streamNorm streamWeight) in
  let impedance := f64_add MinImpedance (f64_mul composite (f64_of_Z 99)) in
  let impedance := if f64_ltb impedance MinImpedance then MinImpedance else impedance in
  if f64_ltb MaxImpedance impedance then MaxImpedance else impedance.

Definition ImpedanceCalculator_Update (c : ImpedanceCalculator) (cpu mem : float64) : ImpedanceCalculator :=
  MkImpedanceCalculator
    (Manifest_SetImpedance (ic_manifest c) (ImpedanceCalculator_Calculate c cpu mem)) (ic_streams c).

Definition ImpedanceCalculator_AddStreams (c : ImpedanceCalculator) (n : Z) : ImpedanceCalculator :=
  MkImpedanceCalculator (ic_manifest c) (i64 (ic_streams c + n)).

(** The turn of the compare-and-swap loop whose swap succeeds. *)
Definition ImpedanceCalculator_RemoveStreams (c : ImpedanceCalculator) (n : Z) : ImpedanceCalculator :=
  let newVal := i64 (ic_streams c - n) in
  MkImpedanceCalculator (ic_manifest c) (if newVal <? 0 then 0 else newVal).

(** ** Lemmas *)

(** Within [MinImpedance, MaxImpedance]. *)
Definition in_range (v : float64) : Prop :=
  is_nan v = false ∧ f64_ltb v MinImpedance = false ∧ f64_ltb MaxImpedance v = false.

Definition clamp (v : float64) : float64 :=
  let v := if f64_ltb v MinImpedance then MinImpedance else v in
  if f64_ltb MaxImpedance v then MaxImpedance else v.

Lemma clamp_range v : is_nan v = false → in_range (clamp v).
Proof.
  intros Hn. unfold clamp. destruct (f64_ltb v MinImpedance) eqn:E1.
  - rewrite (eq_refl : f64_ltb MaxImpedance MinImpedance = false). done.
  - destruct (f64_ltb MaxImpedance v) eqn:E2; [done|]. done.
Qed.

Lemma clamp_id v : in_range v → clamp v = v.
Proof. intros (_ & H1 & H2). unfold clamp. by rewrite H1, H2. Qed.

Lemma clamp_nan v : is_nan v = true → clamp v = S754_nan.
Proof. by destruct v. Qed.

(** A normalised metric is a finite number of positive sign. *)
Lemma clampNorm_spec v :
  is_nan v = false → has_sign false (clampNorm v) ∧ is_finite (clampNorm v) = true.
Proof.
  intros Hn. unfold clampNorm. destruct (f64_ltb v (f64_of_Z 0)) eqn:E0; [done|].
  destruct (f64_ltb (f64_of_Z 1) v) eqn:E1; [done|].
  destruct v as [s|[]| |[] m e]; try done.
Qed.

Lemma clampNorm_nan v : is_nan v = true → clampNorm v = S754_nan.
Proof. by destruct v. Qed.

Lemma stream_norm_spec n : has_sign false (stream_norm n) ∧ is_finite (stream_norm n) = true.
Proof.
  unfold stream_norm. set (c := if f64_ltb (f64_of_Z n) (f64_of_Z 0) then _ else _).
  assert (has_sign false c) as Hc.
  { unfold c. destruct (f64_ltb (f64_of_Z n) (f64_of_Z 0)) eqn:E; [done|].
    apply not_negative_sign; [apply f64_of_Z_not_nan|done]. }
  pose proof (f64_div_sign c false _ _ Hc : has_sign false (f64_div c (f64_of_Z maxStreamPressure))) as Hv.
  cbn zeta. destruct (f64_ltb (f64_of_Z 1) _) eqn:E; [done|]. split; [done|].
  destruct (f64_div c (f64_of_Z maxStreamPressure)) as [|[]| |]; done.
Qed.

(** The value before the final clamps. *)
Definition raw_impedance (c : ImpedanceCalculator) (cpu mem : float64) : float64 :=
  let cpuNorm := clampNorm (f64_div cpu (f64_of_Z 100)) in
  let memNorm := clampNorm (f64_div mem (f64_of_Z 100)) in
  let streamNorm := stream_norm (ic_streams c) in
  let composite :=
    f64_add (f64_add (f64_mul cpuNorm cpuWeight) (f64_mul memNorm memWeight))
      (f64_mul streamNorm streamWeight) in
  f64_add MinImpedance (f64_mul composite (f64_of_Z 99)).

Lemma Calculate_clamp c cpu mem : ImpedanceCalculator_Calculate c cpu mem = clamp (raw_impedance c cpu mem).
Proof. reflexivity. Qed.

Lemma weighted_sign x (w : float64) :
  has_sign false x → is_finite x = true → has_sign false w → is_finite w = true →
  has_sign false (f64_mul x w).
Proof. apply f64_mul_sign. Qed.

Lemma raw_impedance_number c cpu mem :
  is_nan cpu = false → is_nan mem = false → is_nan (raw_impedance c cpu mem) = false.
Proof.
  intros Hc Hm. unfold raw_impedance. cbn zeta.
  rewrite <-(f64_div_nan cpu _ _ : is_nan (f64_div cpu (f64_of_Z 100)) = _) in Hc.
  rewrite <-(f64_div_nan mem _ _ : is_nan (f64_div mem (f64_of_Z 100)) = _) in Hm.
  destruct (clampNorm_spec _ Hc) as [Hc1 Hc2], (clampNorm_spec _ Hm) as [Hm1 Hm2],
    (stream_norm_spec (ic_streams c)) as [Hs1 Hs2].
  eapply has_sign_not_nan, f64_add_sign; [done|]. apply f64_mul_pos_sign.
  apply f64_add_sign; [apply f64_add_sign|]; by apply f64_mul_sign.
Qed.

Lemma raw_impedance_nan c cpu mem :
  is_nan cpu = true ∨ is_nan mem = true → is_nan (raw_impedance c cpu mem) = true.
Proof.
  intros Hn. unfold raw_impedance. cbn zeta.
  apply f64_add_nan_r, f64_mul_nan_l, f64_add_nan_l.
  destruct Hn as [Hn|Hn]; [apply f64_add_nan_l|apply f64_add_nan_r]; apply f64_mul_nan_l;
    rewrite clampNorm_nan by (by rewrite (f64_div_nan _ _ _ : is_nan (f64_div _ (f64_of_Z 100)) = _));
    done.
Qed.

Lemma Calculate_spec c cpu mem :
  (is_nan cpu || is_nan mem = true → ImpedanceCalculator_Calculate c cpu mem = S754_nan) ∧
  (is_nan cpu || is_nan mem = false → in_range (ImpedanceCalculator_Calculate c cpu mem)).
Proof.
  rewrite Calculate_clamp. split.
  - intros Hn%orb_true_iff. by apply clamp_nan, raw_impedance_nan.
  - intros [Hc Hm]%orb_false_iff. by apply clamp_range, raw_impedance_number.
Qed.

(** One call on a calculator; [MetricSource] may return any numbers but NaN. *)
Inductive ic_step : ImpedanceCalculator → ImpedanceCalculator → Prop :=
| ic_Update c cpu mem : is_nan cpu = false → is_nan mem = false →
    ic_step c (ImpedanceCalculator_Update c cpu mem)
| ic_AddStreams c n : 0 ≤ n → ic_streams c + n ≤ MaxInt64 → ic_step c (ImpedanceCalculator_AddStreams c n)
| ic_RemoveStreams c n : 0 ≤ n ≤ MaxInt64 → ic_step c (ImpedanceCalculator_RemoveStreams c n)
| ic_SetImpedance c v : is_nan v = false →
    ic_step c (MkImpedanceCalculator (Manifest_SetImpedance (ic_manifest c) v) (ic_streams c))
| ic_RegisterCapability c cap :
    ic_step c (MkImpedanceCalculator (Manifest_RegisterCapability (ic_manifest c) cap) (ic_streams c))
| ic_SetAddresses c addrs :
    ic_step c (MkImpedanceCalculator (Manifest_SetAddresses (ic_manifest c) addrs) (ic_streams c)).

Definition ic_inv (c : ImpedanceCalculator) : Prop :=
  in_range (m_impedance (ic_manifest c)) ∧ 0 ≤ ic_streams c ≤ MaxInt64.

Lemma ic_step_inv c c' : ic_step c c' → ic_inv c → ic_inv c'.
Proof.
  intros [] [Hr Hs]; split; simpl; try done.
  - apply (clamp_range (ImpedanceCalculator_Calculate _ _ _)).
    apply Calculate_spec. apply orb_false_iff. done.
  - rewrite i64_id; [lia|i64_lia].
  - rewrite i64_id by i64_lia. case_match; lia.
  - by apply (clamp_range v).
Qed.

Lemma HasSuffix_colon_star capability :
  strings_HasSuffix capability (go ":*") = true →
  ∃ p, capability = p ++ go ":*" ∧ strings_TrimSuffix capability (go "*") = p ++ go ":".
Proof.
  intros [p ->]%bool_decide_eq_true. exists p. split; [done|]. unfold strings_TrimSuffix.
  assert (strings_HasSuffix (p ++ go ":*") (go "*") = true) as ->.
  { apply bool_decide_eq_true. exists (p ++ go ":"). by rewrite <-app_assoc. }
  rewrite length_app. replace (length p + length (go ":*") - length (go "*"))%nat
    with (length (p ++ go ":")) by (rewrite length_app; simpl; lia).
  change (go ":*") with (go ":" ++ go "*"). by rewrite app_assoc, take_app_length.
Qed.

(** ** Properties *)

(** The impedance a calculator computes is within [1, 100] for every
    metric that is a number, whatever the stream count; a NaN metric makes it
    NaN. *)
Theorem Calculate_bounded c cpu mem :
  (is_nan cpu || is_nan mem = true → ImpedanceCalculator_Calculate c cpu mem = S754_nan) ∧
  (is_nan cpu || is_nan mem = false → in_range (ImpedanceCalculator_Calculate c cpu mem)).
Proof. apply Calculate_spec. Qed.

(** after any sequence of updates with metrics and values that are numbers
    and stream changes that do not overflow, the manifest's impedance is within
    [1, 100] and the stream count is not negative. *)
Theorem impedance_always_in_range m c :
  in_range (m_impedance m) → rtc ic_step (NewImpedanceCalculator m) c → ic_inv c.
Proof.
  intros Hm Hr. remember (NewImpedanceCalculator m) as c0 eqn:E.
  assert (ic_inv c0) as H0 by (subst; split; [done|simpl; i64_lia]).
  clear E. induction Hr; eauto using ic_step_inv.
Qed.

(** A query ending in ":*" asks for any capability of that namespace, any
    other query for the capability itself. *)
Theorem HasCapability_decides m capability :
  Manifest_HasCapability m capability = true ↔
  match decide (go ":*" `suffix_of` capability) with
  | left _ => ∃ p name, capability = p ++ go ":*" ∧ p ++ go ":" ++ name ∈ m_capabilities m
  | right _ => capability ∈ m_capabilities m
  end.
Proof.
  unfold Manifest_HasCapability. case_decide as Hs.
  - assert (strings_HasSuffix capability (go ":*") = true) as E by by apply bool_decide_eq_true.
    rewrite E. destruct (HasSuffix_colon_star capability E) as (p & Hcap & ->).
    rewrite existsb_exists. setoid_rewrite <-list_elem_of_In. setoid_rewrite elem_of_elements. split.
    + intros (cap & Hin & [name ->]%strings_HasPrefix_spec). exists p, name. split; [done|].
      by rewrite app_assoc.
    + intros (p' & name & Hcap' & Hin). rewrite Hcap in Hcap'. apply app_inv_tail in Hcap' as <-.
      exists (p ++ go ":" ++ name). split; [done|]. apply strings_HasPrefix_spec. exists name.
      by rewrite app_assoc.
  - assert (strings_HasSuffix capability (go ":*") = false) as -> by by apply bool_decide_eq_false.
    apply bool_decide_eq_true.
Qed.

(** ** Witnesses *)

Lemma Calculate_bounded_witness :
  in_range (ImpedanceCalculator_Calculate (NewImpedanceCalculator (NewManifest (go "n")))
              (f64_of_Z 100) (f64_of_Z 100)).
Proof.
  exact (proj2 (Calculate_bounded (NewImpedanceCalculator (NewManifest (go "n")))
                  (f64_of_Z 100) (f64_of_Z 100)) eq_refl).
Defined.

Lemma impedance_always_in_range_witness :
  ic_inv (ImpedanceCalculator_RemoveStreams
            (ImpedanceCalculator_Update (NewImpedanceCalculator (NewManifest (go "n")))
               (f64_of_Z 250) (f64_of_Z 3)) 5).
Proof.
  apply (impedance_always_in_range (NewManifest (go "n"))).
  - vm_compute. done.
  - eapply rtc_l.
    + exact (ic_Update _ (f64_of_Z 250) (f64_of_Z 3) eq_refl eq_refl).
    + apply rtc_once, ic_RemoveStreams. simpl. i64_lia.
Defined.

Definition mds_manifest : Manifest :=
  Manifest_RegisterCapability (NewManifest (go "mds-01")) (go "tool:health").

Lemma HasCapability_decides_witness : Manifest_HasCapability mds_manifest (go "tool:*") = true.
Proof.
  apply (proj2 (HasCapability_decides mds_manifest (go "tool:*"))).
  rewrite decide_True by by_decide. exists (go "tool"), (go "health"). split; [reflexivity|]. by_decide.
Defined.
