(* ===== verification/Sonar.v ===== *)
(** * Capability discovery: pkg/mesh/routing/sonar.go

    A [Sonar] keeps the deduplication set of broadcast queries, a counter for
    fresh identifiers and the collectors of pending queries. Each lock is held
    for the part that touches the state it guards, so each call is one
    transition; a collector is a pointer, shared by the map and by the caller
    that collects, so collectors live in a store ([s_heap]) and are named by
    their index. The node's manifest is shared too: its current content is an
    argument. [Collect] is the loop of the transitions [Collect_receive] and
    [Collect_return]. *)

From Stdlib Require Import Ascii.
From stdpp Require Import base numbers gmap strings sorting list relations.
From S2P Require Import Prelude GoStrings GoFloat Nucleus.

Open Scope Z_scope.

(** ** Frames and state *)

Definition defaultSeenTTL : Z := 3 * second.

Record WhoHasFrame := MkWhoHasFrame {
  wh_UUID : gostring;
  wh_Capability : gostring;
  wh_OriginID : gostring;
  wh_MaxHops : Z
}.

Record IHaveFrame := MkIHaveFrame {
  ih_UUID : gostring;
  ih_NodeID : gostring;
  ih_Impedance : float64
}.

(** The collector's identifier and the frames buffered in its channel. *)
Record ResponseCollector := MkResponseCollector {
  rc_uuid : gostring;
  rc_results : list IHaveFrame
}.

Record Sonar := MkSonar {
  s_uuidPrefix : gostring;
  s_uuidCounter : Z;
  s_seen : gmap gostring Z;
  s_seenTTL : Z;
  s_collectors : gmap gostring nat;
  s_heap : list ResponseCollector
}.

Definition set_seen (s : Sonar) (seen : gmap gostring Z) : Sonar :=
  MkSonar (s_uuidPrefix s) (s_uuidCounter s) seen (s_seenTTL s) (s_collectors s) (s_heap s).

Definition set_heap (s : Sonar) (heap : list ResponseCollector) : Sonar :=
  MkSonar (s_uuidPrefix s) (s_uuidCounter s) (s_seen s) (s_seenTTL s) (s_collectors s) heap.

Definition SonarOption : Type := Sonar → Sonar.

Definition WithSeenTTL (ttl : Z) : SonarOption := λ s,
  MkSonar (s_uuidPrefix s) (s_uuidCounter s) (s_seen s) ttl (s_collectors s) (s_heap s).

Definition NewSonar (m : Manifest) (opts : list SonarOption) : Sonar :=
  fold_left (λ s opt, opt s) opts
    (MkSonar (Manifest_NodeID m ++ go ":") 0 ∅ defaultSeenTTL ∅ []).

(** ** The deduplication set *)

Definition addSeenLocked (now : Z) (s : Sonar) (uuid : gostring) : Sonar :=
  let cutoff := now + i64 (- s_seenTTL s) in
  set_seen s (<[uuid := now]> (filter (λ e, cutoff < e.2) (s_seen s))).

Definition containsSeenLocked (now : Z) (s : Sonar) (uuid : gostring) : Sonar * bool :=
  match s_seen s !! uuid with
  | None => (s, false)
  | Some t =>
      if s_seenTTL s <? time_Sub now t then (set_seen s (delete uuid (s_seen s)), false)
      else (s, true)
  end.

Definition Sonar_seenSetSizeForTest (s : Sonar) : Z := Z.of_nat (size (s_seen s)).

Definition Sonar_SeenTTL (s : Sonar) : Z := s_seenTTL s.

(** The reply, if any, and whether the identifier is fresh. *)
Definition Sonar_ProcessWhoHas (now : Z) (m : Manifest) (s : Sonar) (frame : WhoHasFrame)
    : Sonar * (option IHaveFrame * bool) :=
  let '(s, seen) := containsSeenLocked now s (wh_UUID frame) in
  let s := if negb seen then addSeenLocked now s (wh_UUID frame) else s in
  if seen then (s, (None, false))
  else if negb (Manifest_HasCapability m (wh_Capability frame)) then (s, (None, true))
  else (s, (Some (MkIHaveFrame (wh_UUID frame) (Manifest_NodeID m) (Manifest_Impedance m)), true)).

Definition Sonar_HandleWhoHas (now : Z) (m : Manifest) (s : Sonar) (frame : WhoHasFrame)
    : Sonar * option IHaveFrame :=
  let '(s, (resp, _)) := Sonar_ProcessWhoHas now m s frame in (s, resp).

Definition Sonar_ShouldForward (now : Z) (m : Manifest) (s : Sonar) (frame : WhoHasFrame)
    : Sonar * bool :=
  if decide (wh_OriginID frame = Manifest_NodeID m) then (s, false)
  else if wh_MaxHops frame =? 0 then (s, false)
  else
    let '(s, seen) := containsSeenLocked now s (wh_UUID frame) in
    if seen then (s, false) else (addSeenLocked now s (wh_UUID frame), true).

(** ** Fresh identifiers *)

Definition base36_char (d : Z) : ascii :=
  if d <? 10 then ascii_of_N (Z.to_N (48 + d)) else ascii_of_N (Z.to_N (97 + (d - 10))).

Fixpoint base36_digits (fuel : nat) (n : Z) : gostring :=
  match fuel with
  | O => []
  | S fuel =>
      if n <? 36 then [base36_char n]
      else base36_digits fuel (n / 36) ++ [base36_char (n mod 36)]
  end.

(** [strconv.FormatUint(n, 36)]: a 64-bit number has at most 13 digits. *)
Definition strconv_FormatUint36 (n : Z) : gostring := base36_digits 64 n.

Definition generateUUID (s : Sonar) : Sonar * gostring :=
  let seq := (s_uuidCounter s + 1) mod 2 ^ 64 in
  (MkSonar (s_uuidPrefix s) seq (s_seen s) (s_seenTTL s) (s_collectors s) (s_heap s),
   s_uuidPrefix s ++ strconv_FormatUint36 seq).

Definition Sonar_CreateWhoHas (m : Manifest) (s : Sonar) (capability : gostring) (maxHops : Z)
    : Sonar * WhoHasFrame :=
  let '(s, uuid) := generateUUID s in
  (s, MkWhoHasFrame uuid capability (Manifest_NodeID m) maxHops).

(** ** Collectors *)

Definition collector_buffer : nat := 100.

Definition Sonar_StartCollection (s : Sonar) (uuid : gostring) : Sonar * nat :=
  let collector := length (s_heap s) in
  (MkSonar (s_uuidPrefix s) (s_uuidCounter s) (s_seen s) (s_seenTTL s)
     (<[uuid := collector]> (s_collectors s)) (s_heap s ++ [MkResponseCollector uuid []]),
   collector).

Definition Sonar_StopCollection (s : Sonar) (uuid : gostring) : Sonar :=
  MkSonar (s_uuidPrefix s) (s_uuidCounter s) (s_seen s) (s_seenTTL s)
    (delete uuid (s_collectors s)) (s_heap s).

(** A send that gives up when the channel is full. *)
Definition try_send (s : Sonar) (collector : nat) (frame : IHaveFrame) : Sonar * bool :=
  match s_heap s !! collector with
  | Some rc =>
      if (length (rc_results rc) <? collector_buffer)%nat
      then (set_heap s (<[collector := MkResponseCollector (rc_uuid rc) (rc_results rc ++ [frame])]> (s_heap s)), true)
      else (s, false)
  | None => (s, false)
  end.

Definition Sonar_DeliverResponse (s : Sonar) (frame : IHaveFrame) : Sonar * bool :=
  match s_collectors s !! ih_UUID frame with
  | None => (s, false)
  | Some collector => try_send s collector frame
  end.

Definition ResponseCollector_Add (s : Sonar) (collector : nat) (frame : IHaveFrame) : Sonar :=
  fst (try_send s collector frame).

Definition DefaultSonarTimeout : Z := 1 * second.

(** The deadline of a [Collect] that starts at [now] with the caller's. *)
Definition Collect_deadline (now : Z) (deadline : option Z) : Z :=
  match deadline with Some d => d | None => now + DefaultSonarTimeout end.

(** The loop's two cases: a frame is received, or the context is done (its
    deadline has passed or it was canceled). *)
Definition Collect_receive (s : Sonar) (collector : nat) (results : list IHaveFrame)
    : option (Sonar * list IHaveFrame) :=
  match s_heap s !! collector with
  | Some (MkResponseCollector uuid (frame :: rest)) =>
      Some (set_heap s (<[collector := MkResponseCollector uuid rest]> (s_heap s)), results ++ [frame])
  | _ => None
  end.

Definition Collect_return (now deadline : Z) (canceled : bool) (results : list IHaveFrame)
    : option (list IHaveFrame) :=
  if canceled || (deadline <=? now) then Some results else None.

(** ** Histories

    The ghost fields record the admitted identifiers with their times, the
    created identifiers, the deliveries that looked a collector up and have not
    sent yet ([DeliverResponse] releases the lock in between), and the frames each
    collector accepted and handed to its [Collect]. *)

Record world := MkWorld {
  w_now : Z;
  w_sonar : Sonar;
  w_admitted : list (gostring * Z);
  w_created : list gostring;
  w_sending : list (nat * IHaveFrame);
  w_accepted : list (nat * IHaveFrame);
  w_received : list (nat * IHaveFrame)
}.

Definition w_start (now : Z) (s : Sonar) : world := MkWorld now s [] [] [] [] [].

Inductive sonar_step : world → world → Prop :=
| st_tick w t :
    w_now w ≤ t →
    sonar_step w (MkWorld t (w_sonar w) (w_admitted w) (w_created w) (w_sending w)
                    (w_accepted w) (w_received w))
| st_ProcessWhoHas w m f s resp first :
    Sonar_ProcessWhoHas (w_now w) m (w_sonar w) f = (s, (resp, first)) →
    sonar_step w (MkWorld (w_now w) s
      (if first then w_admitted w ++ [(wh_UUID f, w_now w)] else w_admitted w)
      (w_created w) (w_sending w) (w_accepted w) (w_received w))
| st_ShouldForward w m f s fwd :
    Sonar_ShouldForward (w_now w) m (w_sonar w) f = (s, fwd) →
    sonar_step w (MkWorld (w_now w) s
      (if fwd then w_admitted w ++ [(wh_UUID f, w_now w)] else w_admitted w)
      (w_created w) (w_sending w) (w_accepted w) (w_received w))
| st_CreateWhoHas w m cap hops s f :
    Sonar_CreateWhoHas m (w_sonar w) cap hops = (s, f) →
    sonar_step w (MkWorld (w_now w) s (w_admitted w) (w_created w ++ [wh_UUID f])
                    (w_sending w) (w_accepted w) (w_received w))
| st_StartCollection w uuid s i :
    Sonar_StartCollection (w_sonar w) uuid = (s, i) →
    sonar_step w (MkWorld (w_now w) s (w_admitted w) (w_created w) (w_sending w)
                    (w_accepted w) (w_received w))
| st_StopCollection w uuid :
    sonar_step w (MkWorld (w_now w) (Sonar_StopCollection (w_sonar w) uuid) (w_admitted w)
                    (w_created w) (w_sending w) (w_accepted w) (w_received w))
| st_deliver_lookup w f i :
    s_collectors (w_sonar w) !! ih_UUID f = Some i →
    sonar_step w (MkWorld (w_now w) (w_sonar w) (w_admitted w) (w_created w)
                    (w_sending w ++ [(i, f)]) (w_accepted w) (w_received w))
| st_deliver_send w l1 i f l2 s ok :
    w_sending w = l1 ++ (i, f) :: l2 →
    try_send (w_sonar w) i f = (s, ok) →
    sonar_step w (MkWorld (w_now w) s (w_admitted w) (w_created w) (l1 ++ l2)
                    (if ok then w_accepted w ++ [(i, f)] else w_accepted w) (w_received w))
| st_receive w i results s f :
    Collect_receive (w_sonar w) i results = Some (s, results ++ [f]) →
    sonar_step w (MkWorld (w_now w) s (w_admitted w) (w_created w) (w_sending w)
                    (w_accepted w) (w_received w ++ [(i, f)])).

Definition sonar_reachable (m : Manifest) (ttl now : Z) (w : world) : Prop :=
  rtc sonar_step (w_start now (NewSonar m [WithSeenTTL ttl])) w.

(** ** Invariants *)

(** Deduplication: the set holds admissions; one younger than the TTL is not
    missing; admissions of one identifier are at least the TTL apart. *)
Record dedup_inv (ttl : Z) (w : world) : Prop := {
  di_ttl : s_seenTTL (w_sonar w) = ttl;
  di_seen u t : s_seen (w_sonar w) !! u = Some t → (u, t) ∈ w_admitted w;
  di_past u t : (u, t) ∈ w_admitted w → t ≤ w_now w;
  di_fresh u t : (u, t) ∈ w_admitted w → w_now w - t < ttl →
    ∃ t', s_seen (w_sonar w) !! u = Some t' ∧ t ≤ t';
  di_apart i j u t1 t2 : (i < j)%nat → w_admitted w !! i = Some (u, t1) →
    w_admitted w !! j = Some (u, t2) → ttl ≤ t2 - t1
}.

Definition of_collector (i : nat) (l : list (nat * IHaveFrame)) : list IHaveFrame :=
  map snd (filter (λ p, p.1 = i) l).

Definition buffered (s : Sonar) (i : nat) : list IHaveFrame :=
  match s_heap s !! i with Some rc => rc_results rc | None => [] end.

Record collector_inv (w : world) : Prop := {
  ci_fifo i : of_collector i (w_accepted w) = of_collector i (w_received w) ++ buffered (w_sonar w) i;
  ci_buffer i : (length (buffered (w_sonar w) i) ≤ collector_buffer)%nat;
  ci_map u i : s_collectors (w_sonar w) !! u = Some i →
    ∃ l, s_heap (w_sonar w) !! i = Some (MkResponseCollector u l);
  ci_sending i f : (i, f) ∈ w_sending w →
    ∃ l, s_heap (w_sonar w) !! i = Some (MkResponseCollector (ih_UUID f) l);
  ci_accepted i f : (i, f) ∈ w_accepted w →
    ∃ l, s_heap (w_sonar w) !! i = Some (MkResponseCollector (ih_UUID f) l)
}.

Definition uuid_of (prefix : gostring) (k : nat) : gostring :=
  prefix ++ strconv_FormatUint36 ((Z.of_nat k + 1) mod 2 ^ 64).

Record uuid_inv (prefix : gostring) (w : world) : Prop := {
  ui_prefix : s_uuidPrefix (w_sonar w) = prefix;
  ui_counter : s_uuidCounter (w_sonar w) = Z.of_nat (length (w_created w)) mod 2 ^ 64;
  ui_created : w_created w = map (uuid_of prefix) (seq 0 (length (w_created w)))
}.

(** ** Lemmas: base 36 *)

Definition base36_val (c : ascii) : Z :=
  if is_digit c then digit_val c else Z.of_N (N_of_ascii c) - 97 + 10.

Definition base36_value (s : gostring) : Z := fold_left (λ acc c, acc * 36 + base36_val c) s 0.

Lemma base36_char_spec d : 0 ≤ d < 36 → base36_val (base36_char d) = d ∧ base36_char d ≠ ":"%char.
Proof.
  intros Hd.
  assert (forallb (λ d, (base36_val (base36_char d) =? d) && negb (Ascii.eqb (base36_char d) ":"))
            (seqZ 0 36) = true) as Hall by (vm_compute; reflexivity).
  rewrite forallb_forall in Hall. specialize (Hall d).
  rewrite <-list_elem_of_In, elem_of_seqZ in Hall.
  apply andb_true_iff in Hall as [Hv Hc]; [|lia]. split; [by apply Z.eqb_eq|].
  intros Heq. rewrite Heq in Hc. done.
Qed.

Lemma base36_digits_spec fuel n :
  0 ≤ n < 36 ^ Z.of_nat fuel →
  base36_value (base36_digits fuel n) = n ∧ ":"%char ∉ base36_digits fuel n.
Proof.
  revert n. induction fuel as [|fuel IH]; intros n Hn.
  - simpl in Hn. replace n with 0 by lia. split; [done|]. apply not_elem_of_nil.
  - cbn [base36_digits]. destruct (Z.ltb_spec n 36).
    + destruct (base36_char_spec n) as [Hv Hc]; [lia|]. split.
      * unfold base36_value. simpl. lia.
      * apply not_elem_of_cons. split; [done|]. apply not_elem_of_nil.
    + rewrite Nat2Z.inj_succ, Z.pow_succ_r in Hn by lia.
      destruct (IH (n / 36)) as [Hv Hc].
      { split; [apply Z.div_pos; lia|]. apply Z.div_lt_upper_bound; lia. }
      destruct (base36_char_spec (n mod 36)) as [Hv' Hc']; [pose proof (Z.mod_pos_bound n 36); lia|].
      split.
      * unfold base36_value in *. rewrite fold_left_app, Hv. cbn [fold_left]. rewrite Hv'.
        pose proof (Z.div_mod n 36). lia.
      * rewrite not_elem_of_app, list_elem_of_singleton. done.
Qed.

Lemma FormatUint36_spec n :
  0 ≤ n < 2 ^ 64 →
  base36_value (strconv_FormatUint36 n) = n ∧ ":"%char ∉ strconv_FormatUint36 n.
Proof.
  intros Hn. apply base36_digits_spec. split; [lia|]. etrans; [apply Hn|]. by vm_compute.
Qed.

(** A text with a last ":" splits in one way at it. *)
Lemma last_sep_inj (c : ascii) s1 s2 d1 d2 :
  c ∉ d1 → c ∉ d2 → s1 ++ c :: d1 = s2 ++ c :: d2 → s1 = s2 ∧ d1 = d2.
Proof.
  revert s2. induction s1 as [|a s1 IH]; intros [|b s2] H1 H2 Heq; simpl in Heq.
  - injection Heq as ->. done.
  - injection Heq as <- ->. destruct H1. apply elem_of_app. right. by left.
  - injection Heq as -> <-. destruct H2. apply elem_of_app. right. by left.
  - injection Heq as -> Heq. destruct (IH s2 H1 H2 Heq) as [-> ->]. done.
Qed.

Lemma uuid_of_inj a b j k :
  Z.of_nat j < 2 ^ 64 → Z.of_nat k < 2 ^ 64 →
  uuid_of (a ++ go ":") j = uuid_of (b ++ go ":") k → a = b ∧ j = k.
Proof.
  intros Hj Hk. unfold uuid_of. rewrite <-!app_assoc.
  pose proof (FormatUint36_spec ((Z.of_nat j + 1) mod 2 ^ 64)) as Hfj.
  pose proof (FormatUint36_spec ((Z.of_nat k + 1) mod 2 ^ 64)) as Hfk.
  pose proof (Z.mod_pos_bound (Z.of_nat j + 1) (2 ^ 64)) as Bj.
  pose proof (Z.mod_pos_bound (Z.of_nat k + 1) (2 ^ 64)) as Bk.
  destruct Hfj as [Vj Cj], Hfk as [Vk Ck]; [lia..|].
  intros [-> Heq]%last_sep_inj; [|done..]. split; [done|].
  assert ((Z.of_nat j + 1) mod 2 ^ 64 = (Z.of_nat k + 1) mod 2 ^ 64) as Hm by congruence.
  destruct (decide (Z.of_nat j + 1 = 2 ^ 64)) as [Ej|Ej],
    (decide (Z.of_nat k + 1 = 2 ^ 64)) as [Ek|Ek].
  - lia.
  - rewrite Ej, Z.mod_same, Z.mod_small in Hm by lia. lia.
  - rewrite Ek, Z.mod_same, Z.mod_small in Hm by lia. lia.
  - rewrite !Z.mod_small in Hm by lia. lia.
Qed.

(** ** Lemmas: deduplication *)

(** What [ProcessWhoHas] and [ShouldForward] do to the set. *)
Definition accept_uuid (now : Z) (s : Sonar) (uuid : gostring) : Sonar * bool :=
  let '(s, seen) := containsSeenLocked now s uuid in
  if seen then (s, false) else (addSeenLocked now s uuid, true).

Lemma ProcessWhoHas_accept now m s f s' resp first :
  Sonar_ProcessWhoHas now m s f = (s', (resp, first)) → accept_uuid now s (wh_UUID f) = (s', first).
Proof.
  unfold Sonar_ProcessWhoHas, accept_uuid. destruct (containsSeenLocked now s (wh_UUID f)) as [s1 []]; simpl.
  - by intros [= <- <- <-].
  - destruct (Manifest_HasCapability m (wh_Capability f)); simpl; by intros [= <- <- <-].
Qed.

Lemma ShouldForward_accept now m s f s' fwd :
  Sonar_ShouldForward now m s f = (s', fwd) →
  (s' = s ∧ fwd = false) ∨ accept_uuid now s (wh_UUID f) = (s', fwd).
Proof.
  unfold Sonar_ShouldForward, accept_uuid. case_decide; [by intros [= <- <-]; left|].
  destruct (wh_MaxHops f =? 0); [by intros [= <- <-]; left|]. by right.
Qed.

(** The fields [accept_uuid] leaves alone. *)
Lemma accept_frame now s uuid s' ok :
  accept_uuid now s uuid = (s', ok) →
  s_uuidPrefix s' = s_uuidPrefix s ∧ s_uuidCounter s' = s_uuidCounter s ∧
  s_seenTTL s' = s_seenTTL s ∧ s_collectors s' = s_collectors s ∧ s_heap s' = s_heap s.
Proof.
  unfold accept_uuid, containsSeenLocked.
  destruct (s_seen s !! uuid); [destruct (_ <? _)|]; by intros [= <- <-].
Qed.

Lemma time_Sub_ltb ttl a b :
  0 ≤ ttl < MaxInt64 → (ttl <? time_Sub a b) = (ttl <? a - b).
Proof. intros. unfold time_Sub. zcases; i64_lia. Qed.

Definition w_accept (w : world) (s : Sonar) (uuid : gostring) (ok : bool) : world :=
  MkWorld (w_now w) s (if ok then w_admitted w ++ [(uuid, w_now w)] else w_admitted w)
    (w_created w) (w_sending w) (w_accepted w) (w_received w).

(** A refusal means a recent admission, an admission the lack of one. *)
Lemma accept_decides ttl w uuid s' ok :
  0 < ttl < MaxInt64 → dedup_inv ttl w → accept_uuid (w_now w) (w_sonar w) uuid = (s', ok) →
  (ok = false → s' = w_sonar w ∧ ∃ t, (uuid, t) ∈ w_admitted w ∧ w_now w - t ≤ ttl) ∧
  (ok = true → (∀ t, (uuid, t) ∈ w_admitted w → ttl ≤ w_now w - t) ∧
     ∃ seen, s' = addSeenLocked (w_now w) (set_seen (w_sonar w) seen) uuid ∧
       (seen = s_seen (w_sonar w) ∨ seen = delete uuid (s_seen (w_sonar w)))).
Proof.
  intros Httl Hinv. unfold accept_uuid, containsSeenLocked.
  assert (s_seenTTL (w_sonar w) = ttl) as -> by apply Hinv.
  destruct (s_seen (w_sonar w) !! uuid) as [t|] eqn:E.
  - rewrite time_Sub_ltb by lia. pose proof (di_seen _ _ Hinv uuid t E) as Hin.
    destruct (Z.ltb_spec ttl (w_now w - t)).
    + intros [= <- <-]. split; [done|]. intros _. split.
      * intros t' Ht'. destruct (decide (w_now w - t' < ttl)) as [Hlt|]; [|lia].
        destruct (di_fresh _ _ Hinv uuid t' Ht' Hlt) as (t'' & Ht'' & Hle).
        rewrite E in Ht''. injection Ht'' as ->. lia.
      * eexists. split; [done|by right].
    + intros [= <- <-]. split; [|done]. intros _. split; [done|]. exists t. split; [done|lia].
  - intros [= <- <-]. split; [done|]. intros _. split.
    + intros t' Ht'. destruct (decide (w_now w - t' < ttl)) as [Hlt|]; [|lia].
      destruct (di_fresh _ _ Hinv uuid t' Ht' Hlt) as (t'' & Ht'' & _). congruence.
    + exists (s_seen (w_sonar w)). split; [|by left]. by destruct (w_sonar w).
Qed.

Lemma addSeen_lookup now s uuid u :
  s_seen (addSeenLocked now s uuid) !! u =
  if decide (u = uuid) then Some now
  else t ← s_seen s !! u; if now + i64 (- s_seenTTL s) <? t then Some t else None.
Proof.
  unfold addSeenLocked. simpl. case_decide as Hu; [subst; apply lookup_insert_eq|].
  rewrite lookup_insert_ne, map_lookup_filter by done.
  destruct (s_seen s !! u) as [t|]; simpl; [|done]. zcases; case_guard; simpl in *; done || lia.
Qed.

Lemma accept_inv ttl w uuid s' ok :
  0 < ttl < MaxInt64 → dedup_inv ttl w → accept_uuid (w_now w) (w_sonar w) uuid = (s', ok) →
  dedup_inv ttl (w_accept w s' uuid ok).
Proof.
  intros Httl Hinv Hadm. destruct (accept_decides ttl w uuid s' ok) as [Hf Ht]; [done..|].
  destruct ok; [|destruct Hf as [-> _]; [done|destruct Hinv; by split]].
  destruct Ht as (Hold & seen & -> & Hseen); [done|]. clear Hf Hadm.
  assert (∀ u, u ≠ uuid → seen !! u = s_seen (w_sonar w) !! u) as Heq.
  { intros u Hu. destruct Hseen as [-> | ->]; [done|]. by rewrite lookup_delete_ne. }
  assert (i64 (- ttl) = - ttl) as Hneg by (apply i64_id; i64_lia).
  pose proof (di_ttl _ _ Hinv) as HT.
  split; cbn [w_accept w_sonar w_admitted w_now].
  - apply Hinv.
  - intros u t. rewrite addSeen_lookup.
    rewrite elem_of_app, list_elem_of_singleton. case_decide as Hu.
    + intros [= <-]. right. by subst.
    + simpl. rewrite Heq by done. intros (t0 & Hu0 & Ht0)%bind_Some.
      destruct (_ <? _); [|done]. injection Ht0 as ->. left. by eapply di_seen.
  - intros u t. rewrite elem_of_app, list_elem_of_singleton. intros [Hin|[= _ ->]]; [|lia].
    by eapply di_past.
  - intros u t. rewrite elem_of_app, list_elem_of_singleton.
    rewrite addSeen_lookup.
    case_decide as Hu.
    + intros Hin _. exists (w_now w). split; [done|].
      destruct Hin as [Hin|[= _ ->]]; [|lia]. by eapply di_past.
    + intros [Hin|[= ? _]] Hlt; [|done]. simpl. rewrite Heq, HT, Hneg by done.
      destruct (di_fresh _ _ Hinv u t Hin Hlt) as (t' & -> & Hle). exists t'. split; [|done]. simpl.
      destruct (Z.ltb_spec (w_now w + - ttl) t'); [done|lia].
  - intros i j u t1 t2 Hij Hi Hj.
    assert (i < length (w_admitted w))%nat as Hlen.
    { apply lookup_lt_Some in Hj. rewrite length_app in Hj. simpl in Hj. lia. }
    rewrite lookup_app_l in Hi by done.
    destruct (decide (j < length (w_admitted w))%nat) as [Hjl|Hjl].
    + rewrite lookup_app_l in Hj by done. by eapply (di_apart _ _ Hinv i j).
    + assert (j = length (w_admitted w)) as ->.
      { apply lookup_lt_Some in Hj. rewrite length_app in Hj. simpl in Hj. lia. }
      rewrite list_lookup_middle in Hj by done. injection Hj as <- <-.
      apply Hold. by eapply list_elem_of_lookup_2.
Qed.

Lemma dedup_frame ttl w w' :
  s_seen (w_sonar w') = s_seen (w_sonar w) → s_seenTTL (w_sonar w') = s_seenTTL (w_sonar w) →
  w_admitted w' = w_admitted w → w_now w ≤ w_now w' →
  dedup_inv ttl w → dedup_inv ttl w'.
Proof.
  intros Hs Ht Ha Hn [I1 I2 I3 I4 I5]. split; rewrite ?Hs, ?Ht, ?Ha; try done.
  - intros u t Hin. specialize (I3 u t Hin). lia.
  - intros u t Hin Hlt. apply I4; [done|lia].
Qed.

(** ** Lemmas: collectors *)

Lemma try_send_spec s i f s' ok :
  try_send s i f = (s', ok) →
  (ok = false ∧ s' = s) ∨
  (ok = true ∧ ∃ rc, s_heap s !! i = Some rc ∧ (length (rc_results rc) < collector_buffer)%nat ∧
     s' = set_heap s (<[i := MkResponseCollector (rc_uuid rc) (rc_results rc ++ [f])]> (s_heap s))).
Proof.
  unfold try_send. destruct (s_heap s !! i) as [rc|] eqn:E; [|intros [= <- <-]; by left].
  destruct (Nat.ltb_spec (length (rc_results rc)) collector_buffer); intros [= <- <-]; [right|by left].
  split; [done|]. by exists rc.
Qed.

Lemma receive_spec s i results s' f :
  Collect_receive s i results = Some (s', results ++ [f]) →
  ∃ u rest, s_heap s !! i = Some (MkResponseCollector u (f :: rest)) ∧
    s' = set_heap s (<[i := MkResponseCollector u rest]> (s_heap s)).
Proof.
  unfold Collect_receive. destruct (s_heap s !! i) as [[u [|f' rest]]|]; [done| |done].
  intros [= <- Heq]. apply app_inj_tail in Heq as [_ ->]. eauto.
Qed.

Lemma of_collector_app i l1 l2 : of_collector i (l1 ++ l2) = of_collector i l1 ++ of_collector i l2.
Proof. unfold of_collector. by rewrite filter_app, map_app. Qed.

Lemma of_collector_one i j f : of_collector i [(j, f)] = if decide (j = i) then [f] else [].
Proof. unfold of_collector. rewrite filter_cons, filter_nil. simpl. by case_decide. Qed.

Lemma buffered_set_heap s i u l0 l j :
  s_heap s !! i = Some (MkResponseCollector u l0) →
  buffered (set_heap s (<[i := MkResponseCollector u l]> (s_heap s))) j =
  if decide (j = i) then l else buffered s j.
Proof.
  intros Hi. unfold buffered. simpl. case_decide as Hj.
  - subst. by rewrite list_lookup_insert_eq by (by eapply lookup_lt_Some).
  - by rewrite list_lookup_insert_ne by done.
Qed.

(** A write to a collector's buffer keeps every collector's identifier. *)
Lemma heap_uuid_set s i u l0 l j v :
  s_heap s !! i = Some (MkResponseCollector u l0) →
  (∃ l', s_heap s !! j = Some (MkResponseCollector v l')) →
  ∃ l', <[i := MkResponseCollector u l]> (s_heap s) !! j = Some (MkResponseCollector v l').
Proof.
  intros Hi [l' Hj]. destruct (decide (i = j)) as [->|].
  - rewrite Hi in Hj. injection Hj as -> ->.
    rewrite list_lookup_insert_eq by (by eapply lookup_lt_Some). eauto.
  - rewrite list_lookup_insert_ne by done. eauto.
Qed.

Lemma collector_frame w w' :
  s_heap (w_sonar w') = s_heap (w_sonar w) →
  (∀ u i, s_collectors (w_sonar w') !! u = Some i → s_collectors (w_sonar w) !! u = Some i) →
  w_sending w' = w_sending w → w_accepted w' = w_accepted w → w_received w' = w_received w →
  collector_inv w → collector_inv w'.
Proof.
  intros Hh Hc Hs Ha Hr [I1 I2 I3 I4 I5].
  assert (∀ i, buffered (w_sonar w') i = buffered (w_sonar w) i) as Hb
    by (intros i; unfold buffered; by rewrite Hh).
  split; rewrite ?Hs, ?Ha, ?Hr, ?Hh; try done.
  - intros i. by rewrite Hb.
  - intros i. by rewrite Hb.
  - intros u i Hu. by apply I3, Hc.
Qed.

Lemma collector_send w l1 i f l2 s ok :
  w_sending w = l1 ++ (i, f) :: l2 → try_send (w_sonar w) i f = (s, ok) →
  collector_inv w →
  collector_inv (MkWorld (w_now w) s (w_admitted w) (w_created w) (l1 ++ l2)
                   (if ok then w_accepted w ++ [(i, f)] else w_accepted w) (w_received w)).
Proof.
  intros Hs Htry [I1 I2 I3 I4 I5].
  assert (∀ p, p ∈ l1 ++ l2 → p ∈ w_sending w) as Hsub by (rewrite Hs; set_solver).
  assert ((i, f) ∈ w_sending w) as Hif by (rewrite Hs; set_solver).
  apply try_send_spec in Htry as [[-> ->] | (-> & [u l] & Hi & Hlen & ->)].
  { split; simpl; eauto. }
  destruct (I4 _ _ Hif) as [l' Hl']. rewrite Hi in Hl'. injection Hl' as -> <-. simpl in *.
  split; simpl.
  - intros j. rewrite of_collector_app, of_collector_one, I1.
    rewrite (buffered_set_heap _ _ _ l) by done.
    destruct (decide (j = i)) as [->|]; [|rewrite decide_False by done; by rewrite app_nil_r].
    rewrite decide_True by done. unfold buffered. by rewrite Hi, <-app_assoc.
  - intros j. rewrite (buffered_set_heap _ _ _ l) by done. case_decide; [|apply I2].
    rewrite length_app. simpl. lia.
  - intros v j Hv. eapply heap_uuid_set; eauto.
  - intros j g Hg. eapply heap_uuid_set; eauto.
  - intros j g. rewrite elem_of_app, list_elem_of_singleton. intros [Hg|[= -> ->]]; eapply heap_uuid_set; eauto.
Qed.

Lemma collector_receive w i results s f :
  Collect_receive (w_sonar w) i results = Some (s, results ++ [f]) →
  collector_inv w →
  collector_inv (MkWorld (w_now w) s (w_admitted w) (w_created w) (w_sending w)
                   (w_accepted w) (w_received w ++ [(i, f)])).
Proof.
  intros (u & rest & Hi & ->)%receive_spec [I1 I2 I3 I4 I5]. split; simpl.
  - intros j. rewrite of_collector_app, of_collector_one, I1.
    rewrite (buffered_set_heap _ _ _ (f :: rest)) by done.
    destruct (decide (j = i)) as [->|]; [|rewrite decide_False by done; by rewrite app_nil_r].
    rewrite decide_True by done. unfold buffered. by rewrite Hi, <-app_assoc.
  - intros j. rewrite (buffered_set_heap _ _ _ (f :: rest)) by done. case_decide; [|apply I2].
    specialize (I2 i). unfold buffered in I2. rewrite Hi in I2. simpl in I2. lia.
  - intros v j Hv. eapply heap_uuid_set; eauto.
  - intros j g Hg. eapply heap_uuid_set; eauto.
  - intros j g Hg. eapply heap_uuid_set; eauto.
Qed.

Lemma collector_start w uuid s i :
  Sonar_StartCollection (w_sonar w) uuid = (s, i) →
  collector_inv w →
  collector_inv (MkWorld (w_now w) s (w_admitted w) (w_created w) (w_sending w)
                   (w_accepted w) (w_received w)).
Proof.
  intros [= <- <-] [I1 I2 I3 I4 I5]. set (h := s_heap (w_sonar w)) in *.
  assert (∀ j, buffered (MkSonar (s_uuidPrefix (w_sonar w)) (s_uuidCounter (w_sonar w))
     (s_seen (w_sonar w)) (s_seenTTL (w_sonar w)) (<[uuid := length h]> (s_collectors (w_sonar w)))
     (h ++ [MkResponseCollector uuid []])) j = buffered (w_sonar w) j) as Hb.
  { intros j. unfold buffered. simpl. fold h. destruct (decide (j < length h)%nat) as [Hj|Hj].
    - by rewrite lookup_app_l by done.
    - rewrite lookup_app_r by lia. rewrite (lookup_ge_None_2 h j) by lia.
      by destruct (j - length h)%nat. }
  assert (∀ v j, (∃ l, h !! j = Some (MkResponseCollector v l)) →
     ∃ l, (h ++ [MkResponseCollector uuid []]) !! j = Some (MkResponseCollector v l)) as Hw.
  { intros v j [l Hl]. exists l. by apply lookup_app_l_Some. }
  split; simpl; eauto.
  - intros j. by rewrite Hb.
  - intros j. by rewrite Hb.
  - intros v j. destruct (decide (v = uuid)) as [->|].
    + rewrite lookup_insert_eq. intros [= <-]. exists []. by rewrite list_lookup_middle.
    + rewrite lookup_insert_ne by done. eauto.
Qed.

(** ** Lemmas: histories *)

Lemma sonar_step_inv ttl prefix w w' :
  0 < ttl < MaxInt64 → sonar_step w w' →
  dedup_inv ttl w ∧ collector_inv w ∧ uuid_inv prefix w →
  dedup_inv ttl w' ∧ collector_inv w' ∧ uuid_inv prefix w'.
Proof.
  intros Httl Hstep (D & C & U).
  destruct Hstep as [w t Ht|w m f s resp first Hp|w m f s fwd Hp|w m cap hops s f Hc|w uuid s i Hst
    |w uuid|w f i Hi|w l1 i f l2 s ok Hs Hsend|w i results s f Hrec].
  - split_and!; [eapply dedup_frame, D; done|eapply collector_frame, C; done|]. by destruct U.
  - apply ProcessWhoHas_accept in Hp.
    pose proof (accept_frame _ _ _ _ _ Hp) as (E1 & E2 & E3 & E4 & E5). split_and!.
    + by apply accept_inv.
    + eapply collector_frame, C; simpl; rewrite ?E4; done.
    + destruct U. by split; simpl; rewrite ?E1, ?E2.
  - apply ShouldForward_accept in Hp as [[-> ->]|Hp]; [by destruct w|].
    pose proof (accept_frame _ _ _ _ _ Hp) as (E1 & E2 & E3 & E4 & E5). split_and!.
    + by apply accept_inv.
    + eapply collector_frame, C; simpl; rewrite ?E4; done.
    + destruct U. by split; simpl; rewrite ?E1, ?E2.
  - injection Hc as <- <-. split_and!; [eapply dedup_frame, D; done|eapply collector_frame, C; done|].
    destruct U as [U1 U2 U3]. simpl. rewrite U2.
    assert ((Z.of_nat (length (w_created w)) mod 2 ^ 64 + 1) mod 2 ^ 64 =
            (Z.of_nat (length (w_created w)) + 1) mod 2 ^ 64) as Hm by apply Zplus_mod_idemp_l.
    split; cbn [w_sonar w_created s_uuidPrefix s_uuidCounter]; [done|..].
    + rewrite Hm, length_app, Nat2Z.inj_add. done.
    + rewrite length_app, seq_app, map_app, <-U3. cbn [length seq map]. rewrite Nat.add_0_l.
      unfold uuid_of. by rewrite U1, Hm.
  - split_and!; [|by eapply collector_start|]; injection Hst as <- <-; [eapply dedup_frame, D; done|].
    by destruct U.
  - split_and!; [eapply dedup_frame, D; done| |by destruct U].
    eapply collector_frame, C; try done. simpl. intros v i.
    rewrite lookup_delete_Some. tauto.
  - split_and!; [eapply dedup_frame, D; done| |by destruct U]. destruct C as [I1 I2 I3 I4 I5].
    split; simpl; try done. intros j g. rewrite elem_of_app, list_elem_of_singleton.
    intros [Hg|[= -> ->]]; eauto.
  - split_and!; [|by eapply collector_send|];
      apply try_send_spec in Hsend as [[-> ->] | (-> & rc & _ & _ & ->)];
      first [by destruct U | eapply dedup_frame, D; done].
  - split_and!; [|by eapply collector_receive|];
      apply receive_spec in Hrec as (u & rest & _ & ->); [eapply dedup_frame, D; done|by destruct U].
Qed.

Lemma sonar_reachable_inv m ttl now w :
  0 < ttl < MaxInt64 → sonar_reachable m ttl now w →
  dedup_inv ttl w ∧ collector_inv w ∧ uuid_inv (m_nodeID m ++ go ":") w.
Proof.
  intros Httl Hr. unfold sonar_reachable in Hr.
  remember (w_start now (NewSonar m [WithSeenTTL ttl])) as w0 eqn:E.
  assert (dedup_inv ttl w0 ∧ collector_inv w0 ∧ uuid_inv (m_nodeID m ++ go ":") w0) as H0.
  { subst. split_and!; split; simpl; try done; try (intros; set_solver).
    intros _. lia. }
  clear E. induction Hr; eauto using sonar_step_inv.
Qed.

Lemma sonar_admit_spec ttl w uuid s' ok :
  0 < ttl < MaxInt64 → dedup_inv ttl w → accept_uuid (w_now w) (w_sonar w) uuid = (s', ok) →
  (∀ t, (uuid, t) ∈ w_admitted w → w_now w - t < ttl → ok = false) ∧
  ((∀ t, (uuid, t) ∈ w_admitted w → ttl < w_now w - t) → ok = true) ∧
  (ok = true → ∀ u t, s_seen s' !! u = Some t →
     (u, t) ∈ w_admitted w ++ [(uuid, w_now w)] ∧ w_now w - t < ttl).
Proof.
  intros Httl Hinv Hadm. destruct (accept_decides ttl w uuid s' ok) as [Hf Ht]; [done..|].
  split_and!.
  - intros t Hin Hlt. destruct ok; [|done]. destruct Ht as [Hold _]; [done|].
    specialize (Hold t Hin). lia.
  - intros Hold. destruct ok; [done|]. destruct Hf as (_ & t & Hin & Hle); [done|].
    specialize (Hold t Hin). lia.
  - intros -> u t Hu. pose proof (accept_inv ttl w uuid s' true Httl Hinv Hadm) as Hinv'.
    split; [by apply (di_seen _ _ Hinv')|].
    destruct Ht as (_ & seen & -> & _); [done|]. rewrite addSeen_lookup in Hu.
    case_decide; [injection Hu as <-; lia|].
    apply bind_Some in Hu as (t0 & _ & Ht0). cbn [set_seen s_seenTTL] in Ht0.
    rewrite (di_ttl _ _ Hinv), i64_id in Ht0 by i64_lia.
    destruct (Z.ltb_spec (w_now w + - ttl) t0); [|done]. injection Ht0 as ->. lia.
Qed.

Lemma collectors_spec w :
  collector_inv w →
  ∀ i, of_collector i (w_received w) `prefix_of` of_collector i (w_accepted w) ∧
  (length (of_collector i (w_accepted w)) ≤ length (of_collector i (w_received w)) + collector_buffer)%nat ∧
  (∀ f, f ∈ of_collector i (w_accepted w) →
     ∃ l, s_heap (w_sonar w) !! i = Some (MkResponseCollector (ih_UUID f) l)).
Proof.
  intros [I1 I2 I3 I4 I5] i. rewrite I1. split_and!.
  - by eexists.
  - rewrite length_app. specialize (I2 i). lia.
  - rewrite <-I1. unfold of_collector. intros f ([j g] & -> & [Hj Hin]%list_elem_of_filter)%list_elem_of_fmap.
    simpl in Hj. subst. by apply I5.
Qed.

Lemma uuid_of_in prefix w u :
  uuid_inv prefix w → u ∈ w_created w →
  ∃ k, (k < length (w_created w))%nat ∧ u = uuid_of prefix k.
Proof.
  intros [_ _ Hc] Hu. rewrite Hc in Hu. apply list_elem_of_fmap in Hu as (k & -> & Hk).
  apply elem_of_seq in Hk. exists k. split; [lia|done].
Qed.

(** ** Properties *)

(** C5: deduplication of broadcasts. In every reachable state, of a frame that
    arrives: it is a duplicate if its identifier was admitted less than the TTL
    ago, and processed if every earlier admission is older than the TTL; an
    admission leaves only identifiers admitted within the TTL in the set, and two
    admissions of one identifier are at least the TTL apart. *)
Theorem dedup_window m ttl now w m' f :
  0 < ttl < MaxInt64 → sonar_reachable m ttl now w →
  let '(s', (_, first)) := Sonar_ProcessWhoHas (w_now w) m' (w_sonar w) f in
  (∀ t, (wh_UUID f, t) ∈ w_admitted w → w_now w - t < ttl → first = false) ∧
  ((∀ t, (wh_UUID f, t) ∈ w_admitted w → ttl < w_now w - t) → first = true) ∧
  (first = true → ∀ u t, s_seen s' !! u = Some t →
     (u, t) ∈ w_admitted w ++ [(wh_UUID f, w_now w)] ∧ w_now w - t < ttl) ∧
  (∀ i j u t1 t2, (i < j)%nat → w_admitted w !! i = Some (u, t1) →
     w_admitted w !! j = Some (u, t2) → ttl ≤ t2 - t1).
Proof.
  intros Httl (D & _ & _)%sonar_reachable_inv; [|done].
  destruct (Sonar_ProcessWhoHas _ _ _ _) as [s' [resp first]] eqn:E.
  apply ProcessWhoHas_accept in E.
  destruct (sonar_admit_spec ttl w _ s' first Httl D E) as (H1 & H2 & H3).
  split_and!; [done..|]. apply D.
Qed.

(** A frame is answered exactly when it is processed and the manifest has
    the capability; the answer carries its identifier, and the node's name and
    impedance. *)
Theorem ProcessWhoHas_answers now m s f :
  let '(_, (resp, first)) := Sonar_ProcessWhoHas now m s f in
  resp = if first && Manifest_HasCapability m (wh_Capability f)
         then Some (MkIHaveFrame (wh_UUID f) (m_nodeID m) (m_impedance m)) else None.
Proof.
  unfold Sonar_ProcessWhoHas. destruct (containsSeenLocked _ _ _) as [s1 []]; simpl; [done|].
  by destruct (Manifest_HasCapability _ _).
Qed.

(** collectors lose nothing they accepted and hold at most 100 frames: what
    [Collect] received is a prefix of what its collector accepted, in that order,
    at most 100 frames behind, and every accepted frame answers its query. *)
Theorem collectors_fifo m ttl now w i :
  0 < ttl < MaxInt64 → sonar_reachable m ttl now w →
  of_collector i (w_received w) `prefix_of` of_collector i (w_accepted w) ∧
  (length (of_collector i (w_accepted w)) ≤ length (of_collector i (w_received w)) + 100)%nat ∧
  (∀ f, f ∈ of_collector i (w_accepted w) →
     ∃ l, s_heap (w_sonar w) !! i = Some (MkResponseCollector (ih_UUID f) l)).
Proof. intros Httl (_ & C & _)%sonar_reachable_inv; [|done]. by apply collectors_spec. Qed.

(** identifiers are unique: a node's first 2^64 - 1 are pairwise different,
    and nodes with different names, ":" in them or not, never create the same. *)
Theorem uuids_unique m1 m2 ttl now1 now2 w1 w2 :
  0 < ttl < MaxInt64 → sonar_reachable m1 ttl now1 w1 → sonar_reachable m2 ttl now2 w2 →
  Z.of_nat (length (w_created w1)) < 2 ^ 64 → Z.of_nat (length (w_created w2)) < 2 ^ 64 →
  NoDup (w_created w1) ∧
  (m_nodeID m1 ≠ m_nodeID m2 → w_created w1 ## w_created w2).
Proof.
  intros Httl (_ & _ & U1)%sonar_reachable_inv (_ & _ & U2)%sonar_reachable_inv L1 L2; [|done..].
  split.
  - rewrite (ui_created _ _ U1). apply NoDup_fmap_2_strong; [|apply NoDup_seq].
    intros j k Hj Hk Heq. apply elem_of_seq in Hj, Hk. eapply uuid_of_inj in Heq as [_ ?]; [done|lia..].
  - intros Hne u Hu1 Hu2.
    destruct (uuid_of_in _ _ _ U1 Hu1) as (j & Hj & ->), (uuid_of_in _ _ _ U2 Hu2) as (k & Hk & Heq).
    apply uuid_of_inj in Heq as [? _]; [done|lia..].
Qed.

(** ** Witnesses *)

Definition whohas_x : WhoHasFrame := MkWhoHasFrame (go "b:1") (go "tool:x") (go "b") 5.

Definition sonar_a : Sonar := NewSonar (NewManifest (go "a")) [WithSeenTTL 10].

(** Node [a] admits the identifier at time 0; the clock is at 4. *)
Definition world_a : world :=
  MkWorld 4 (fst (Sonar_ProcessWhoHas 0 (NewManifest (go "a")) sonar_a whohas_x))
    [(go "b:1", 0)] [] [] [] [].

Lemma world_a_reachable : sonar_reachable (NewManifest (go "a")) 10 0 world_a.
Proof.
  eapply rtc_l.
  { eapply (st_ProcessWhoHas (w_start 0 sonar_a) (NewManifest (go "a")) whohas_x). reflexivity. }
  apply rtc_once. apply (st_tick (MkWorld 0 _ [(go "b:1", 0)] [] [] [] [])). simpl. lia.
Defined.

Lemma dedup_window_witness :
  snd (snd (Sonar_ProcessWhoHas 4 (NewManifest (go "a")) (w_sonar world_a) whohas_x)) = false.
Proof.
  pose proof (dedup_window (NewManifest (go "a")) 10 0 world_a (NewManifest (go "a")) whohas_x) as Hd.
  destruct (Sonar_ProcessWhoHas (w_now world_a) _ _ _) as [s' [resp first]] eqn:E.
  destruct Hd as (Hd & _); [i64_lia|apply world_a_reachable|].
  change (w_now world_a) with 4 in E. rewrite E. simpl. apply (Hd 0); [by left|simpl; lia].
Defined.

(** Node [b] creates two queries, collects for the second and accepts a reply. *)
Definition node_b : Manifest := NewManifest (go "b").
Definition reply_b : IHaveFrame := MkIHaveFrame (go "b:2") (go "a") MinImpedance.
Definition sonar_b0 : Sonar := NewSonar node_b [WithSeenTTL 10].
Definition sonar_b1 : Sonar := fst (Sonar_CreateWhoHas node_b sonar_b0 (go "tool:x") 9).
Definition sonar_b2 : Sonar := fst (Sonar_CreateWhoHas node_b sonar_b1 (go "tool:y") 9).
Definition sonar_b3 : Sonar := fst (Sonar_StartCollection sonar_b2 (go "b:2")).
Definition sonar_b4 : Sonar := fst (Sonar_DeliverResponse sonar_b3 reply_b).
Definition world_b : world :=
  MkWorld 0 sonar_b4 [] [go "b:1"; go "b:2"] [] [(0%nat, reply_b)] [].

Lemma world_b_reachable : sonar_reachable node_b 10 0 world_b.
Proof.
  eapply rtc_l.
  { apply (st_CreateWhoHas (w_start 0 sonar_b0) node_b (go "tool:x") 9 sonar_b1
             (MkWhoHasFrame (go "b:1") (go "tool:x") (go "b") 9)). reflexivity. }
  eapply rtc_l.
  { apply (st_CreateWhoHas (MkWorld 0 sonar_b1 [] [go "b:1"] [] [] []) node_b (go "tool:y") 9 sonar_b2
             (MkWhoHasFrame (go "b:2") (go "tool:y") (go "b") 9)). reflexivity. }
  eapply rtc_l.
  { apply (st_StartCollection (MkWorld 0 sonar_b2 [] [go "b:1"; go "b:2"] [] [] []) (go "b:2") sonar_b3 0%nat).
    reflexivity. }
  eapply rtc_l.
  { apply (st_deliver_lookup (MkWorld 0 sonar_b3 [] [go "b:1"; go "b:2"] [] [] []) reply_b 0%nat). reflexivity. }
  apply rtc_once.
  apply (st_deliver_send (MkWorld 0 sonar_b3 [] [go "b:1"; go "b:2"] [(0%nat, reply_b)] [] [])
           [] 0%nat reply_b [] sonar_b4 true); reflexivity.
Defined.

Lemma collectors_fifo_witness :
  of_collector 0 (w_accepted world_b) = [reply_b] ∧
  ∃ l, s_heap (w_sonar world_b) !! 0%nat = Some (MkResponseCollector (go "b:2") l).
Proof.
  split; [reflexivity|].
  apply (collectors_fifo node_b 10 0 world_b 0%nat) with (f := reply_b);
    [i64_lia|apply world_b_reachable|by left].
Defined.

Lemma uuids_unique_witness : NoDup (w_created world_b) ∧ w_created world_b ## w_created world_a.
Proof.
  destruct (uuids_unique node_b (NewManifest (go "a")) 10 0 0 world_b world_a) as [H1 H2];
    [i64_lia|apply world_b_reachable|apply world_a_reachable|simpl; lia|simpl; lia|].
  split; [exact H1|by apply H2].
Defined.
