(* ===== verification/Resolver.v ===== *)
(** * The host cache: pkg/mesh/nucleus/resolver.go

    A cache of host names with their addresses, filled from configuration, hosts
    files and gossip. Each method holds the lock while it touches the cache, so
    each is one transition; only [ParseHostsContent] takes it once per host name,
    and is the fold of those transitions. A record without a set of addresses
    (Go's nil map) would panic when it is written to: the invariant rules it out.
    Times are the clock's value at the call. *)

From Stdlib Require Import Ascii.
From stdpp Require Import base numbers gmap strings sorting list relations.
From S2P Require Import Prelude GoStrings GoNet.

Open Scope Z_scope.

(** ** Data *)

Record ResolverEntry := MkResolverEntry {
  re_Hostname : gostring;
  re_Addresses : list gostring;
  re_Transport : gostring;
  re_ProxyURL : gostring;
  re_ExpiresAt : option Z
}.

Record resolverRecord := MkResolverRecord {
  rr_addresses : list gostring;
  rr_addrSet : option (gset gostring);
  rr_transport : gostring;
  rr_proxyURL : gostring;
  rr_expiresAt : option Z
}.

Record Resolver := MkResolver { rv_cache : gmap gostring resolverRecord }.

#[export] Instance resolverRecord_eq_dec : EqDecision resolverRecord.
Proof. solve_decision. Defined.

#[export] Instance Resolver_eq_dec : EqDecision Resolver.
Proof. solve_decision. Defined.

(** The zero time ([None]) means no expiry. *)
Definition isExpired (now : Z) (r : resolverRecord) : bool :=
  match rr_expiresAt r with None => false | Some e => e <? now end.

Definition NewResolver : Resolver := MkResolver ∅.

Definition set_entry (r : Resolver) (hostname : gostring) (rec : resolverRecord) : Resolver :=
  MkResolver (<[hostname := rec]> (rv_cache r)).

(** ** Operations *)

Definition Resolver_AddEntryFull (now : Z) (r : Resolver) (hostname : gostring)
    (addresses : list gostring) (ttl : Z) (transport proxyURL : gostring) : Resolver :=
  set_entry r hostname
    (MkResolverRecord addresses (Some (list_to_set addresses)) transport proxyURL
       (if 0 <? ttl then Some (now + ttl) else None)).

Definition Resolver_AddEntry (now : Z) (r : Resolver) (hostname : gostring)
    (addresses : list gostring) (ttl : Z) : Resolver :=
  Resolver_AddEntryFull now r hostname addresses ttl [] [].

Definition Resolver_AddEntryWithTransport (now : Z) (r : Resolver) (hostname : gostring)
    (addresses : list gostring) (ttl : Z) (transport : gostring) : Resolver :=
  Resolver_AddEntryFull now r hostname addresses ttl transport [].

(** [None] is the nil slice. *)
Definition Resolver_Resolve (now : Z) (r : Resolver) (hostname : gostring) : option (list gostring) :=
  match rv_cache r !! hostname with
  | None => None
  | Some rec => if isExpired now rec then None else Some (rr_addresses rec)
  end.

(** A write to the record's address set: the addresses and the set after
    appending [addr] unless it is there. *)
Definition add_address (rec : resolverRecord) (addr : gostring) : outcome resolverRecord :=
  match rr_addrSet rec with
  | Some addrSet =>
      if decide (addr ∈ addrSet) then Ret rec
      else Ret (MkResolverRecord (rr_addresses rec ++ [addr]) (Some ({[addr]} ∪ addrSet))
                  (rr_transport rec) (rr_proxyURL rec) (rr_expiresAt rec))
  | None => Panic
  end.

Definition add_host (ip : gostring) (r : Resolver) (hostname : gostring) : outcome Resolver :=
  match rv_cache r !! hostname with
  | None => Ret (set_entry r hostname (MkResolverRecord [ip] (Some {[ip]}) [] [] None))
  | Some rec => set_entry r hostname <$> add_address rec ip
  end.

(** The address and the names of a line, if it has both. *)
Definition hosts_line (line : gostring) : option (gostring * list gostring) :=
  let line := strings_TrimSpace line in
  if bool_decide (line = []) || strings_HasPrefix line (go "#") then None
  else
    match strings_Fields line with
    | ip :: h :: hs => if net_ParseIP ip then Some (ip, h :: hs) else None
    | _ => None
    end.

Definition add_line (st : Resolver * gset gostring) (line : gostring)
    : outcome (Resolver * gset gostring) :=
  match hosts_line line with
  | None => Ret st
  | Some (ip, names) =>
      foldM_go (λ st hostname,
          r ← add_host ip (fst st) hostname; Ret (r, {[hostname]} ∪ snd st)) st names
  end.

(** A reader is its content and the error it ends with, if any. The result is
    the resolver, the number of names and the scanner's error. *)
Definition Resolver_ParseHostsContent (r : Resolver) (content : gostring) (rerr : option goerr)
    : outcome (Resolver * Z * option goerr) :=
  let '(lines, long) := scan_lines (raw_lines content) in
  st ← foldM_go add_line (r, ∅) lines;
  Ret (fst st, Z.of_nat (size (snd st)), if long : bool then Some ErrTooLong else rerr).

(** [addrSet] rebuilt when it is nil. *)
Definition ensure_set (rec : resolverRecord) : resolverRecord :=
  match rr_addrSet rec with
  | Some _ => rec
  | None => MkResolverRecord (rr_addresses rec) (Some (list_to_set (rr_addresses rec)))
              (rr_transport rec) (rr_proxyURL rec) (rr_expiresAt rec)
  end.

Definition is_empty (s : gostring) : bool := bool_decide (s = []).

Definition merge_entry (r : Resolver) (entry : ResolverEntry) : outcome Resolver :=
  match rv_cache r !! re_Hostname entry with
  | None =>
      Ret (set_entry r (re_Hostname entry)
             (MkResolverRecord (re_Addresses entry) (Some (list_to_set (re_Addresses entry)))
                (re_Transport entry) (re_ProxyURL entry) None))
  | Some rec =>
      let transport :=
        if is_empty (rr_transport rec) && negb (is_empty (re_Transport entry))
        then re_Transport entry else rr_transport rec in
      let proxyURL :=
        if is_empty (rr_proxyURL rec) && negb (is_empty (re_ProxyURL entry))
        then re_ProxyURL entry else rr_proxyURL rec in
      let rec :=
        ensure_set (MkResolverRecord (rr_addresses rec) (rr_addrSet rec) transport proxyURL
                      (rr_expiresAt rec)) in
      set_entry r (re_Hostname entry) <$> foldM_go add_address rec (re_Addresses entry)
  end.

Definition Resolver_Merge (r : Resolver) (entries : list ResolverEntry) : outcome Resolver :=
  foldM_go merge_entry r entries.

Record DialTarget := MkDialTarget {
  dt_Hostname : gostring;
  dt_Address : gostring;
  dt_Transport : gostring;
  dt_ProxyURL : gostring
}.

Section runtime.
Context `{GoRange}.

Definition Resolver_SeedKnownHosts (now : Z) (r : Resolver) (hosts : gmap gostring (list gostring))
    : Resolver :=
  fold_left (λ r e, Resolver_AddEntry now r e.1 e.2 0) (range_map hosts) r.

Definition Resolver_AllEntries (now : Z) (r : Resolver) : list ResolverEntry :=
  range_map (rv_cache r) ≫= λ '(hostname, rec),
    if isExpired now rec then []
    else [MkResolverEntry hostname (rr_addresses rec) (rr_transport rec) (rr_proxyURL rec)
            (rr_expiresAt rec)].

Definition Resolver_AllDialTargets (now : Z) (r : Resolver) : list DialTarget :=
  range_map (rv_cache r) ≫= λ '(hostname, rec),
    if isExpired now rec then []
    else map (λ addr, MkDialTarget hostname addr (rr_transport rec) (rr_proxyURL rec))
           (rr_addresses rec).

End runtime.

(** ** Specification *)

Definition with_addresses (rec : resolverRecord) (addrs : list gostring) : resolverRecord :=
  MkResolverRecord addrs (Some (list_to_set addrs)) (rr_transport rec) (rr_proxyURL rec)
    (rr_expiresAt rec).

(** The address set mirrors the list. *)
Definition rec_ok (rec : resolverRecord) : Prop :=
  rr_addrSet rec = Some (list_to_set (rr_addresses rec)).

Definition resolver_inv (r : Resolver) : Prop := map_Forall (λ _, rec_ok) (rv_cache r).

(** [old], then what is new in [new], each once, in order. *)
Definition add_new (old new : list gostring) : list gostring :=
  fold_left (λ l a, if decide (a ∈ l) then l else l ++ [a]) new old.

Definition first_nonempty (a b : gostring) : gostring := if is_empty a then b else a.

(** The record of a host after an entry of a peer is merged. *)
Definition merged (o : option resolverRecord) (e : ResolverEntry) : resolverRecord :=
  match o with
  | None => MkResolverRecord (re_Addresses e) (Some (list_to_set (re_Addresses e)))
              (re_Transport e) (re_ProxyURL e) None
  | Some rec =>
      let addrs := add_new (rr_addresses rec) (re_Addresses e) in
      MkResolverRecord addrs (Some (list_to_set addrs))
        (first_nonempty (rr_transport rec) (re_Transport e))
        (first_nonempty (rr_proxyURL rec) (re_ProxyURL e)) (rr_expiresAt rec)
  end.

(** The record of a host after a line of a hosts file. *)
Definition seeded (o : option resolverRecord) (ip : gostring) : resolverRecord :=
  match o with
  | None => MkResolverRecord [ip] (Some {[ip]}) [] [] None
  | Some rec => with_addresses rec (add_new (rr_addresses rec) [ip])
  end.

(** What a sequence of items makes of the record of [h]. *)
Definition run_key {A} (key : A → gostring) (g : option resolverRecord → A → resolverRecord)
    (h : gostring) (o : option resolverRecord) (l : list A) : option resolverRecord :=
  fold_left (λ o a, if decide (key a = h) then Some (g o a) else o) l o.

(** The (address, name) pairs of a hosts file. *)
Definition line_pairs (line : gostring) : list (gostring * gostring) :=
  match hosts_line line with
  | None => []
  | Some (ip, names) => map (pair ip) names
  end.

Definition host_pairs (content : gostring) : list (gostring * gostring) :=
  fst (scan_lines (raw_lines content)) ≫= line_pairs.

Inductive resolver_step `{GoRange} : Resolver → Resolver → Prop :=
| rs_AddEntryFull now r h addrs ttl tr px :
    resolver_step r (Resolver_AddEntryFull now r h addrs ttl tr px)
| rs_Seed now r hosts : resolver_step r (Resolver_SeedKnownHosts now r hosts)
| rs_ParseHosts r content rerr r' n e :
    Resolver_ParseHostsContent r content rerr = Ret (r', n, e) → resolver_step r r'
| rs_Merge r es r' : Resolver_Merge r es = Ret r' → resolver_step r r'.

Definition resolver_reachable `{GoRange} (r : Resolver) : Prop := rtc resolver_step NewResolver r.

(** ** Lemmas: addresses *)

Lemma elem_of_add_new x old new : x ∈ add_new old new ↔ x ∈ old ∨ x ∈ new.
Proof.
  unfold add_new. revert old. induction new as [|a new IH]; intros old; simpl; [set_solver|].
  rewrite IH. case_decide; set_solver.
Qed.

Lemma add_new_prefix old new : old `prefix_of` add_new old new.
Proof.
  unfold add_new. revert old. induction new as [|a new IH]; intros old; simpl; [done|].
  case_decide; [done|]. etrans; [|apply IH]. by eexists.
Qed.

Lemma add_new_absorb old new : (∀ x, x ∈ new → x ∈ old) → add_new old new = old.
Proof.
  unfold add_new. induction new as [|a new IH]; simpl; intros Hsub; [done|].
  rewrite decide_True by set_solver. apply IH. set_solver.
Qed.

Lemma NoDup_add_new old new : NoDup old → NoDup (add_new old new).
Proof.
  unfold add_new. revert old. induction new as [|a new IH]; intros old Hold; simpl; [done|].
  apply IH. case_decide; [done|]. apply NoDup_app. split_and!; [done|set_solver|apply NoDup_singleton].
Qed.

Lemma add_addresses_spec rec l :
  rec_ok rec →
  foldM_go add_address rec l = Ret (with_addresses rec (add_new (rr_addresses rec) l)).
Proof.
  revert rec. induction l as [|a l IH]; intros rec Hok; cbn [foldM_go].
  - unfold with_addresses, add_new. cbn [fold_left]. rewrite <-Hok. by destruct rec.
  - assert (add_address rec a = if decide (a ∈ rr_addresses rec) then Ret rec
            else Ret (with_addresses rec (rr_addresses rec ++ [a]))) as ->.
    { unfold add_address, with_addresses. rewrite Hok.
      destruct (decide (a ∈ rr_addresses rec)) as [Ha|Ha]; [rewrite decide_True|rewrite decide_False];
        [done|by apply elem_of_list_to_set| |by rewrite elem_of_list_to_set].
      do 3 f_equal. rewrite list_to_set_app_L. simpl. set_solver. }
    assert (add_new (rr_addresses rec) (a :: l) =
            add_new (if decide (a ∈ rr_addresses rec) then rr_addresses rec
                     else rr_addresses rec ++ [a]) l) as -> by done.
    case_decide; cbn [mbind outcome_bind]; by rewrite IH.
Qed.

(** ** Lemmas: the cache *)

Lemma run_key_cons {A} key g h o (a : A) l :
  run_key key g h o (a :: l) = run_key key g h (if decide (key a = h) then Some (g o a) else o) l.
Proof. done. Qed.

Lemma run_key_app {A} key g h o (l1 l2 : list A) :
  run_key key g h o (l1 ++ l2) = run_key key g h (run_key key g h o l1) l2.
Proof. apply fold_left_app. Qed.

Definition opt_ok (o : option resolverRecord) : Prop :=
  match o with Some rec => rec_ok rec | None => True end.

Lemma inv_lookup r h : resolver_inv r → opt_ok (rv_cache r !! h).
Proof. intros Hr. destruct (rv_cache r !! h) as [rec|] eqn:E; [|done]. by apply (Hr h). Qed.

Lemma inv_set r h rec : resolver_inv r → rec_ok rec → resolver_inv (set_entry r h rec).
Proof. intros Hr Hrec. by apply map_Forall_insert_2. Qed.

(** A fold of single-record updates, seen from one host. *)
Lemma foldM_keyed {A} (f : Resolver → A → outcome Resolver) key g l r :
  (∀ r a, resolver_inv r → f r a = Ret (set_entry r (key a) (g (rv_cache r !! key a) a))) →
  (∀ o a, opt_ok o → rec_ok (g o a)) →
  resolver_inv r →
  ∃ r', foldM_go f r l = Ret r' ∧ resolver_inv r' ∧
    ∀ h, rv_cache r' !! h = run_key key g h (rv_cache r !! h) l.
Proof.
  intros Hf Hg. revert r. induction l as [|a l IH]; intros r Hr; cbn [foldM_go]; [by exists r|].
  rewrite Hf by done. cbn [mbind outcome_bind].
  destruct (IH (set_entry r (key a) (g (rv_cache r !! key a) a))) as (r' & E & Hr' & Hh).
  { apply inv_set; [done|]. apply Hg. by apply inv_lookup. }
  exists r'. split_and!; [done..|]. intros h. rewrite Hh, run_key_cons. cbn [set_entry rv_cache]. case_decide as Hk.
  - subst. by rewrite lookup_insert_eq.
  - by rewrite lookup_insert_ne.
Qed.

Lemma merged_ok o e : rec_ok (merged o e).
Proof. by destruct o. Qed.

Lemma seeded_ok o ip : rec_ok (seeded o ip).
Proof. destruct o; [done|]. unfold rec_ok. simpl. f_equal. set_solver. Qed.

Lemma merge_entry_spec r e :
  resolver_inv r →
  merge_entry r e = Ret (set_entry r (re_Hostname e) (merged (rv_cache r !! re_Hostname e) e)).
Proof.
  intros Hr. pose proof (inv_lookup r (re_Hostname e) Hr) as Hok. unfold merge_entry.
  destruct (rv_cache r !! re_Hostname e) as [rec|]; [|done].
  unfold ensure_set. simpl. simpl in Hok. rewrite Hok. rewrite add_addresses_spec by done.
  unfold merged, with_addresses, first_nonempty, is_empty, outcome_fmap. simpl. do 3 f_equal.
  all: repeat case_bool_decide; simpl; congruence.
Qed.

Lemma add_host_spec ip r h :
  resolver_inv r → add_host ip r h = Ret (set_entry r h (seeded (rv_cache r !! h) ip)).
Proof.
  intros Hr. pose proof (inv_lookup r h Hr) as Hok. unfold add_host.
  destruct (rv_cache r !! h) as [rec|]; [|done]. simpl in Hok.
  pose proof (add_addresses_spec rec [ip] Hok) as Hs. simpl in Hs.
  destruct (add_address rec ip) as [rec'| | |]; [|done..]. simpl in Hs. by injection Hs as ->.
Qed.

Lemma Merge_spec r es :
  resolver_inv r →
  ∃ r', Resolver_Merge r es = Ret r' ∧ resolver_inv r' ∧
    ∀ h, rv_cache r' !! h = run_key re_Hostname merged h (rv_cache r !! h) es.
Proof.
  intros Hr. apply foldM_keyed; [intros; by apply merge_entry_spec|intros; apply merged_ok|done].
Qed.

Definition add_pair (st : Resolver * gset gostring) (p : gostring * gostring)
    : outcome (Resolver * gset gostring) :=
  r ← add_host p.1 (fst st) p.2; Ret (r, {[p.2]} ∪ snd st).

Lemma add_line_pairs st line : add_line st line = foldM_go add_pair st (line_pairs line).
Proof.
  unfold add_line, line_pairs. destruct (hosts_line line) as [[ip names]|]; [|done].
  revert st. induction names as [|h names IH]; intros st; simpl; [done|].
  unfold add_pair at 2. simpl. destruct (add_host ip st.1 h); simpl; [|done..]. apply IH.
Qed.

Lemma add_lines_pairs st lines : foldM_go add_line st lines = foldM_go add_pair st (lines ≫= line_pairs).
Proof.
  revert st. induction lines as [|l lines IH]; intros st; simpl; [done|].
  rewrite foldM_go_app, <-add_line_pairs. destruct (add_line st l); simpl; [|done..]. apply IH.
Qed.

Lemma add_pairs_split r ns l :
  resolver_inv r →
  foldM_go add_pair (r, ns) l =
  (r' ← foldM_go (λ r p, add_host p.1 r p.2) r l; Ret (r', list_to_set (map snd l) ∪ ns)).
Proof.
  revert r ns. induction l as [|[ip h] l IH]; intros r ns Hr; simpl.
  - do 2 f_equal. set_solver.
  - unfold add_pair at 2. simpl. rewrite add_host_spec by done. cbn [mbind outcome_bind].
    rewrite IH by (apply inv_set; [done|apply seeded_ok]).
    destruct (foldM_go _ _ l); cbn [mbind outcome_bind]; [|done..]. do 2 f_equal. set_solver.
Qed.

Lemma ParseHosts_spec r content rerr :
  resolver_inv r →
  ∃ r', Resolver_ParseHostsContent r content rerr =
      Ret (r', Z.of_nat (size (list_to_set (map snd (host_pairs content)) : gset gostring)),
           if snd (scan_lines (raw_lines content)) then Some ErrTooLong else rerr) ∧
    resolver_inv r' ∧
    ∀ h, rv_cache r' !! h = run_key snd (λ o p, seeded o p.1) h (rv_cache r !! h) (host_pairs content).
Proof.
  intros Hr. unfold Resolver_ParseHostsContent, host_pairs.
  destruct (scan_lines (raw_lines content)) as [lines long]. simpl.
  rewrite add_lines_pairs, add_pairs_split by done.
  destruct (foldM_keyed (λ r p, add_host p.1 r p.2) snd (λ o p, seeded o p.1) (lines ≫= line_pairs) r)
    as (r' & E & Hr' & Hh); [intros; by apply add_host_spec|intros; apply seeded_ok|done|].
  exists r'. split_and!; [|done..]. rewrite E. cbn [mbind outcome_bind fst snd].
  do 3 f_equal. by rewrite (right_id_L ∅ (∪)).
Qed.

(** ** Lemmas: merging *)

Definition addrs_of (o : option resolverRecord) : list gostring :=
  match o with Some rec => rr_addresses rec | None => [] end.

Definition transport_of (o : option resolverRecord) : gostring :=
  match o with Some rec => rr_transport rec | None => [] end.

Definition absorbed (o : option resolverRecord) (e : ResolverEntry) : Prop :=
  match o with
  | None => False
  | Some rec =>
      (∀ x, x ∈ re_Addresses e → x ∈ rr_addresses rec) ∧
      (rr_transport rec = [] → re_Transport e = []) ∧ (rr_proxyURL rec = [] → re_ProxyURL e = [])
  end.

Lemma first_nonempty_nil a b : first_nonempty a b = [] ↔ a = [] ∧ b = [].
Proof. unfold first_nonempty, is_empty. case_bool_decide; naive_solver. Qed.

Lemma merged_absorbs o e : absorbed (Some (merged o e)) e.
Proof.
  destruct o as [rec|]; simpl; [|done]. split_and!.
  - intros x Hx. apply elem_of_add_new. by right.
  - intros Hn%first_nonempty_nil. tauto.
  - intros Hn%first_nonempty_nil. tauto.
Qed.

Lemma merged_keeps_absorbed o e e' : absorbed o e → absorbed (Some (merged o e')) e.
Proof.
  destruct o as [rec|]; simpl; [|done]. intros (H1 & H2 & H3). split_and!.
  - intros x Hx. apply elem_of_add_new. left. by apply H1.
  - intros Hn%first_nonempty_nil. apply H2. tauto.
  - intros Hn%first_nonempty_nil. apply H3. tauto.
Qed.

Lemma absorbed_merged o e : opt_ok o → absorbed o e → Some (merged o e) = o.
Proof.
  destruct o as [rec|]; simpl; [|done]. intros Hok (H1 & H2 & H3).
  rewrite add_new_absorb by done. rewrite <-Hok. f_equal. destruct rec as [as_ st tr px ex]. simpl in *.
  unfold first_nonempty, is_empty. f_equal; case_bool_decide as Hb; try done; subst; auto.
Qed.

Lemma run_absorbs h o es e :
  e ∈ es → re_Hostname e = h → absorbed (run_key re_Hostname merged h o es) e.
Proof.
  revert o. induction es as [|e' es IH]; intros o He Hh; [by apply not_elem_of_nil in He|].
  rewrite run_key_cons. apply elem_of_cons in He as [<-|He]; [|by apply IH].
  rewrite decide_True by done. clear IH.
  assert (absorbed (Some (merged o e)) e) as Ha by apply merged_absorbs.
  revert Ha. generalize (Some (merged o e)). induction es as [|e2 es IH2]; intros o' Ha; [done|].
  rewrite run_key_cons. apply IH2. case_decide; [|done]. by apply merged_keeps_absorbed.
Qed.

Lemma run_absorbed h o es :
  opt_ok o → (∀ e, e ∈ es → re_Hostname e = h → absorbed o e) → run_key re_Hostname merged h o es = o.
Proof.
  intros Hok Ha. induction es as [|e es IH]; [done|]. rewrite run_key_cons. case_decide.
  - rewrite absorbed_merged by (auto; set_solver). apply IH. set_solver.
  - apply IH. set_solver.
Qed.

Lemma run_merged_addrs h o es x :
  x ∈ addrs_of (run_key re_Hostname merged h o es) ↔
  x ∈ addrs_of o ∨ ∃ e, e ∈ es ∧ re_Hostname e = h ∧ x ∈ re_Addresses e.
Proof.
  revert o. induction es as [|e es IH]; intros o; [set_solver|]. rewrite run_key_cons, IH.
  assert (x ∈ addrs_of (Some (merged o e)) ↔ x ∈ addrs_of o ∨ x ∈ re_Addresses e) as Hm.
  { destruct o; simpl; [apply elem_of_add_new|set_solver]. }
  case_decide; [rewrite Hm|]; set_solver.
Qed.

Lemma run_merged_transport h o es :
  transport_of (run_key re_Hostname merged h o es) =
  fold_left first_nonempty (map re_Transport (filter (λ e, re_Hostname e = h) es)) (transport_of o).
Proof.
  revert o. induction es as [|e es IH]; intros o; [done|]. rewrite run_key_cons, IH, filter_cons.
  case_decide; [|done]. simpl. by destruct o.
Qed.

Lemma run_key_expiry {A} key g h (l : list A) rec :
  (∀ rec a, rr_expiresAt (g (Some rec) a) = rr_expiresAt rec) →
  ∃ rec', run_key key g h (Some rec) l = Some rec' ∧ rr_expiresAt rec' = rr_expiresAt rec.
Proof.
  intros Hg. revert rec. induction l as [|a l IH]; intros rec; [by exists rec|].
  rewrite run_key_cons. case_decide; [|apply IH].
  destruct (IH (g (Some rec) a)) as (rec' & ? & Hrec). exists rec'. by rewrite Hrec, Hg.
Qed.

Lemma run_key_other {A} key g h o (l : list A) : h ∉ map key l → run_key key g h o l = o.
Proof.
  intros Hh. induction l as [|a l IH]; [done|]. rewrite run_key_cons. simpl in Hh.
  apply not_elem_of_cons in Hh as [Hne Hh]. rewrite decide_False by done. by apply IH.
Qed.

Lemma run_key_once {A} (key : A → gostring) g o l a :
  NoDup (map key l) → a ∈ l → run_key key g (key a) o l = Some (g o a).
Proof.
  intros Hnd Ha. induction l as [|b l IH]; [by apply not_elem_of_nil in Ha|].
  simpl in Hnd. apply NoDup_cons in Hnd as [Hb Hnd]. rewrite run_key_cons.
  apply elem_of_cons in Ha as [->|Ha].
  - rewrite decide_True by done. by apply run_key_other.
  - rewrite decide_False; [by apply IH|]. intros Heq. apply Hb. rewrite Heq. by apply list_elem_of_fmap_2.
Qed.

(** ** Lemmas: what the cache shows *)

Section show.
Context `{GoRange}.

Lemma elem_of_AllEntries now r e :
  e ∈ Resolver_AllEntries now r ↔
  ∃ rec, rv_cache r !! re_Hostname e = Some rec ∧ isExpired now rec = false ∧
    e = MkResolverEntry (re_Hostname e) (rr_addresses rec) (rr_transport rec) (rr_proxyURL rec)
          (rr_expiresAt rec).
Proof.
  unfold Resolver_AllEntries. rewrite list_elem_of_bind. split.
  - intros ([h rec] & He & Hin). rewrite range_map_perm, elem_of_map_to_list in Hin.
    destruct (isExpired now rec) eqn:E; [by apply not_elem_of_nil in He|].
    apply list_elem_of_singleton in He as ->. by exists rec.
  - intros (rec & Hrec & E & ->). exists (re_Hostname e, rec). rewrite E. split; [by left|].
    by rewrite range_map_perm, elem_of_map_to_list.
Qed.

Lemma AllEntries_hosts now r :
  map re_Hostname (Resolver_AllEntries now r) =
  map fst (filter (λ p, isExpired now p.2 = false) (range_map (rv_cache r))).
Proof.
  unfold Resolver_AllEntries. induction (range_map (rv_cache r)) as [|[h rec] l IH]; [done|].
  rewrite bind_cons, map_app, IH, filter_cons. simpl. by destruct (isExpired now rec).
Qed.

Lemma AllEntries_NoDup now r : NoDup (map re_Hostname (Resolver_AllEntries now r)).
Proof.
  rewrite AllEntries_hosts.
  assert (NoDup (map fst (range_map (rv_cache r)))) as Hnd.
  { assert (map fst (range_map (rv_cache r)) ≡ₚ map fst (map_to_list (rv_cache r))) as ->
      by by rewrite range_map_perm. apply NoDup_fst_map_to_list. }
  induction (range_map (rv_cache r)) as [|[h rec] l IH]; [done|]. simpl in Hnd.
  apply NoDup_cons in Hnd as [Hh Hnd]. rewrite filter_cons. case_decide; [|by apply IH].
  simpl. apply NoDup_cons. split; [|by apply IH]. intros ([h' rec'] & Heq & Hin)%list_elem_of_fmap.
  apply Hh. simpl in Heq. subst. apply list_elem_of_filter in Hin as [_ Hin].
  apply (list_elem_of_fmap_2 fst) in Hin. done.
Qed.

Lemma Resolve_entry now r h addrs :
  Resolver_Resolve now r h = Some addrs ↔
  ∃ e, e ∈ Resolver_AllEntries now r ∧ re_Hostname e = h ∧ re_Addresses e = addrs.
Proof.
  unfold Resolver_Resolve. split.
  - destruct (rv_cache r !! h) as [rec|] eqn:E; [|done].
    destruct (isExpired now rec) eqn:Ex; [done|]. intros [= <-].
    exists (MkResolverEntry h (rr_addresses rec) (rr_transport rec) (rr_proxyURL rec) (rr_expiresAt rec)).
    split; [|done]. apply elem_of_AllEntries. by exists rec.
  - intros (e & (rec & Hrec & Ex & He)%elem_of_AllEntries & <- & <-). rewrite Hrec, Ex. by rewrite He.
Qed.

Lemma AllDialTargets_entries now r :
  Resolver_AllDialTargets now r =
  Resolver_AllEntries now r ≫= λ e,
    map (λ addr, MkDialTarget (re_Hostname e) addr (re_Transport e) (re_ProxyURL e)) (re_Addresses e).
Proof.
  unfold Resolver_AllDialTargets, Resolver_AllEntries.
  induction (range_map (rv_cache r)) as [|[h rec] l IH]; [done|].
  rewrite !bind_cons, bind_app, IH. f_equal. destruct (isExpired now rec); [done|]. simpl.
  by rewrite app_nil_r.
Qed.

Lemma SeedKnownHosts_inv now r hosts : resolver_inv r → resolver_inv (Resolver_SeedKnownHosts now r hosts).
Proof.
  unfold Resolver_SeedKnownHosts. revert r.
  induction (range_map hosts) as [|e l IH]; intros r Hr; [done|]. apply IH. by apply inv_set.
Qed.

Lemma resolver_step_inv r r' : resolver_step r r' → resolver_inv r → resolver_inv r'.
Proof.
  intros [now r0 h addrs ttl tr px|now r0 hosts|r0 content rerr r1 k e Hp|r0 es r1 Hm] Hr.
  - by apply inv_set.
  - by apply SeedKnownHosts_inv.
  - destruct (ParseHosts_spec r0 content rerr Hr) as (r2 & E & Hr2 & _).
    rewrite E in Hp. by injection Hp as <- _ _.
  - destruct (Merge_spec r0 es Hr) as (r2 & E & Hr2 & _). rewrite E in Hm. by injection Hm as <-.
Qed.

Lemma resolver_reachable_inv r : resolver_reachable r → resolver_inv r.
Proof.
  intros Hr. unfold resolver_reachable in Hr. remember NewResolver as r0 eqn:E.
  assert (resolver_inv r0) as H0 by (subst; apply map_Forall_empty).
  clear E. induction Hr; eauto using resolver_step_inv.
Qed.

End show.

(** ** Lemmas: writing a hosts file *)

Definition hosts_text (entries : list (gostring * list gostring)) : gostring :=
  concat (map (λ e, strings_Join (e.1 :: e.2) (go " ") ++ [newline]) entries).

(** An address, at least one name, no spaces, and a line that fits the buffer. *)
Definition printable (e : gostring * list gostring) : Prop :=
  net_ParseIP e.1 = true ∧ e.2 ≠ [] ∧
  Forall (λ f, f ≠ [] ∧ Forall (λ c, solid c = true) f) (e.1 :: e.2) ∧
  Z.of_nat (length (strings_Join (e.1 :: e.2) (go " "))) < MaxScanTokenSize.

Lemma ParseIP_no_hash s : net_ParseIP ("#"%char :: s) = false.
Proof.
  unfold net_ParseIP. case_decide; [done|].
  destruct (list_find _ _) as [[i c]|]; [|done].
  by destruct c as [[] [] [] [] [] [] [] []].
Qed.

Lemma hosts_line_words e :
  printable e →
  newline ∉ strings_Join (e.1 :: e.2) (go " ") ∧
  hosts_line (drop_cr (strings_Join (e.1 :: e.2) (go " "))) = Some e.
Proof.
  intros (Hip & Hne & Hw & _). destruct e as [ip names]. cbn [fst snd] in *.
  destruct (Join_ends (ip :: names)) as (c & d & s & E & Hd & (t & Ec) & Hc & Hn); [done..|].
  split; [exact Hn|]. unfold hosts_line. rewrite E, drop_cr_solid, <-E by done.
  rewrite (TrimSpace_ends _ c d t) by eauto. rewrite Fields_Join by done.
  rewrite bool_decide_false by (by rewrite Ec).
  assert (strings_HasPrefix (strings_Join (ip :: names) (go " ")) (go "#") = false) as ->.
  { apply bool_decide_eq_false. intros [k Hk].
    apply Forall_cons in Hw as [[Hip' _] _]. destruct ip as [|b ip]; [done|].
    assert (b = "#"%char) as ->; [|by rewrite ParseIP_no_hash in Hip].
    destruct names; injection Hk as ->; done. }
  destruct names as [|h names]; [done|]. simpl. by rewrite Hip.
Qed.

Lemma host_pairs_text entries :
  Forall printable entries →
  host_pairs (hosts_text entries) = (entries ≫= λ e, map (pair e.1) e.2) ∧
  snd (scan_lines (raw_lines (hosts_text entries))) = false.
Proof.
  intros He. unfold host_pairs, hosts_text.
  set (ls := map (λ e, strings_Join (e.1 :: e.2) (go " ")) entries).
  assert (concat (map (λ e, strings_Join (e.1 :: e.2) (go " ") ++ [newline]) entries) =
          concat (map (λ l, l ++ [newline]) ls)) as -> by (unfold ls; by rewrite map_map).
  rewrite raw_lines_concat, scan_lines_short; simpl.
  - split; [|done]. unfold ls. clear ls.
    induction He as [|e entries He _ IH]; [done|]. rewrite !map_cons, !bind_cons, IH. f_equal.
    unfold line_pairs. rewrite (proj2 (hosts_line_words e He)). by destruct e.
  - unfold ls. apply Forall_map. eapply Forall_impl; [exact He|]. intros e (_ & _ & _ & Hlen). exact Hlen.
  - unfold ls. apply Forall_map. eapply Forall_impl; [exact He|]. intros e Hp. by apply hosts_line_words.
Qed.

Lemma run_seeded_addrs h o l x :
  x ∈ addrs_of (run_key snd (λ o p, seeded o p.1) h o l) ↔ x ∈ addrs_of o ∨ (x, h) ∈ l.
Proof.
  revert o. induction l as [|[ip h'] l IH]; intros o; [set_solver|]. rewrite run_key_cons, IH. simpl.
  case_decide as Hh; [subst|].
  - assert (x ∈ addrs_of (Some (seeded o ip)) ↔ x ∈ addrs_of o ∨ x = ip) as ->; [|set_solver].
    destruct o as [rec|].
    + change (addrs_of (Some (seeded (Some rec) ip))) with (add_new (rr_addresses rec) [ip]).
      rewrite elem_of_add_new. set_solver.
    + simpl. set_solver.
  - set_solver.
Qed.

Lemma Merge_twice r es r1 :
  resolver_inv r → Resolver_Merge r es = Ret r1 → Resolver_Merge r1 es = Ret r1.
Proof.
  intros Hr E. destruct (Merge_spec r es Hr) as (r1' & E' & Hr1 & H1). rewrite E in E'. injection E' as <-.
  destruct (Merge_spec r1 es Hr1) as (r2 & -> & _ & H2). f_equal. destruct r1 as [m1], r2 as [m2].
  f_equal. apply map_eq. intros h. simpl in *. rewrite H2. apply run_absorbed.
  - by apply (inv_lookup (MkResolver m1)).
  - intros e He Hh. rewrite H1. by apply run_absorbs.
Qed.

(** ** Properties *)

(** in every reachable state each record's address set mirrors its list, so
    [Merge] and [ParseHostsContent] never write to a nil map: they return on
    every input. *)
Theorem resolver_never_panics `{GoRange} r es content rerr :
  resolver_reachable r →
  map_Forall (λ _ rec, rr_addrSet rec = Some (list_to_set (rr_addresses rec))) (rv_cache r) ∧
  returns (Resolver_Merge r es) ∧ returns (Resolver_ParseHostsContent r content rerr).
Proof.
  intros Hr%resolver_reachable_inv. split; [exact Hr|].
  destruct (Merge_spec r es Hr) as (r1 & -> & _), (ParseHosts_spec r content rerr Hr) as (r2 & -> & _).
  split; by eexists.
Qed.

(** C7: merging gossip is a join: a host's addresses become the union of what
    was known and what the entries say, the first transport named wins, merging
    again changes nothing, and two batches give the same address sets in either
    order. *)
Theorem Merge_is_join `{GoRange} r es es' r1 r2 r12 r21 :
  resolver_reachable r →
  Resolver_Merge r es = Ret r1 → Resolver_Merge r1 es' = Ret r12 →
  Resolver_Merge r es' = Ret r2 → Resolver_Merge r2 es = Ret r21 →
  (∀ h a, a ∈ addrs_of (rv_cache r1 !! h) ↔
     a ∈ addrs_of (rv_cache r !! h) ∨ ∃ e, e ∈ es ∧ re_Hostname e = h ∧ a ∈ re_Addresses e) ∧
  (∀ h, transport_of (rv_cache r1 !! h) =
     fold_left first_nonempty (map re_Transport (filter (λ e, re_Hostname e = h) es))
       (transport_of (rv_cache r !! h))) ∧
  Resolver_Merge r1 es = Ret r1 ∧
  (∀ h a, a ∈ addrs_of (rv_cache r12 !! h) ↔ a ∈ addrs_of (rv_cache r21 !! h)).
Proof.
  intros Hr%resolver_reachable_inv E1 E12 E2 E21.
  pose proof (Merge_twice r es r1 Hr E1) as Htwice.
  destruct (Merge_spec r es Hr) as (? & E & Hr1 & H1). rewrite E1 in E. injection E as <-.
  destruct (Merge_spec r es' Hr) as (? & E & Hr2 & H2). rewrite E2 in E. injection E as <-.
  destruct (Merge_spec r1 es' Hr1) as (? & E & _ & H12). rewrite E12 in E. injection E as <-.
  destruct (Merge_spec r2 es Hr2) as (? & E & _ & H21). rewrite E21 in E. injection E as <-.
  split_and!; [|..|done|].
  - intros h a. rewrite H1. apply run_merged_addrs.
  - intros h. rewrite H1. apply run_merged_transport.
  - intros h a. rewrite H12, H21, !run_merged_addrs, H1, H2, !run_merged_addrs. tauto.
Qed.

(** gossip hands a cache on: what [AllEntries] sends, merged into a fresh
    resolver, resolves every host as the sender does at that moment, for ever;
    and the dial targets are exactly the addresses that resolve. *)
Theorem gossip_roundtrip `{GoRange} now r :
  (∃ r', Resolver_Merge NewResolver (Resolver_AllEntries now r) = Ret r' ∧
     ∀ now' h, Resolver_Resolve now' r' h = Resolver_Resolve now r h) ∧
  (∀ h a, (∃ t, t ∈ Resolver_AllDialTargets now r ∧ dt_Hostname t = h ∧ dt_Address t = a) ↔
     ∃ l, Resolver_Resolve now r h = Some l ∧ a ∈ l).
Proof.
  split.
  - destruct (Merge_spec NewResolver (Resolver_AllEntries now r)) as (r' & E & _ & Hh);
      [apply map_Forall_empty|]. exists r'. split; [done|]. intros now' h.
    unfold Resolver_Resolve at 1. rewrite Hh. simpl. rewrite lookup_empty.
    destruct (Resolver_Resolve now r h) as [l|] eqn:Er.
    + apply Resolve_entry in Er as (e & He & <- & <-).
      by rewrite run_key_once by (apply AllEntries_NoDup || done).
    + rewrite run_key_other; [done|]. intros (e & -> & He)%list_elem_of_fmap.
      assert (Resolver_Resolve now r (re_Hostname e) = Some (re_Addresses e)) as Hc
        by (apply Resolve_entry; eauto). congruence.
  - intros h a. rewrite AllDialTargets_entries. setoid_rewrite list_elem_of_bind.
    setoid_rewrite list_elem_of_fmap. setoid_rewrite Resolve_entry. split.
    + intros (t & (e & (a' & -> & Ha) & He) & <- & <-). simpl. eauto 10.
    + intros (l & (e & He & <- & <-) & Ha). eexists. split_and!; [by eauto 10|done..].
Qed.

(** a hosts file written one line per address, its names after it, is read
    back: every name resolves to what it did before and the addresses of its
    lines, and the count is the number of names. *)
Theorem ParseHosts_roundtrip `{GoRange} r entries :
  resolver_reachable r → Forall printable entries →
  ∃ r', Resolver_ParseHostsContent r (hosts_text entries) None =
      Ret (r', Z.of_nat (size (list_to_set (entries ≫= snd) : gset gostring)), None) ∧
    ∀ h a, a ∈ addrs_of (rv_cache r' !! h) ↔
      a ∈ addrs_of (rv_cache r !! h) ∨ ∃ names, (a, names) ∈ entries ∧ h ∈ names.
Proof.
  intros Hr%resolver_reachable_inv He. destruct (host_pairs_text entries He) as [Hp Hlong].
  destruct (ParseHosts_spec r (hosts_text entries) None Hr) as (r' & E & _ & Hh).
  rewrite Hlong, Hp in E. rewrite Hp in Hh. exists r'. split.
  - rewrite E. do 4 f_equal. clear. f_equal. f_equal.
    induction entries as [|[ip names] l IH]; [done|]. rewrite !bind_cons, map_app, IH. f_equal.
    rewrite map_map. apply map_id.
  - intros h a. rewrite Hh, run_seeded_addrs, list_elem_of_bind. split.
    + intros [Ha|([ip names] & Hin & He')]; [by left|]. right. simpl in Hin.
      apply list_elem_of_fmap in Hin as (h' & [= -> ->] & Hh'). eauto.
    + intros [Ha|(names & Hin & Hn)]; [by left|]. right. exists (a, names). split; [|done].
      by apply list_elem_of_fmap_2.
Qed.

(** an expired host stays hidden: gossip and hosts files add addresses to
    its record and keep its expiry, so the host does not resolve until it is
    added anew. *)
Theorem expired_stays_hidden `{GoRange} r now h rec es content rerr r1 r2 n e :
  resolver_reachable r → rv_cache r !! h = Some rec → isExpired now rec = true →
  Resolver_Merge r es = Ret r1 → Resolver_ParseHostsContent r content rerr = Ret (r2, n, e) →
  ∀ now', now ≤ now' → Resolver_Resolve now' r1 h = None ∧ Resolver_Resolve now' r2 h = None.
Proof.
  intros Hr%resolver_reachable_inv Hrec Hex E1 E2 now' Hnow.
  destruct (Merge_spec r es Hr) as (? & E & _ & H1). rewrite E1 in E. injection E as <-.
  destruct (ParseHosts_spec r content rerr Hr) as (? & E & _ & H2). rewrite E2 in E. injection E as <- _ _.
  assert (∀ rec', rr_expiresAt rec' = rr_expiresAt rec → isExpired now' rec' = true) as Hkeep.
  { intros rec' Heq. unfold isExpired in *. rewrite Heq. destruct (rr_expiresAt rec); [|done].
    apply Z.ltb_lt in Hex. apply Z.ltb_lt. lia. }
  unfold Resolver_Resolve. rewrite H1, H2, Hrec.
  destruct (run_key_expiry re_Hostname merged h es rec) as (rec1 & -> & X1); [done|].
  destruct (run_key_expiry snd (λ o p, seeded o p.1) h (host_pairs content) rec) as (rec2 & -> & X2); [done|].
  by rewrite !Hkeep.
Qed.

(** ** Witnesses *)

Definition cache_a : Resolver :=
  Resolver_AddEntry 0 NewResolver (go "mds-01") [go "10.0.0.1"] 5.

Lemma cache_a_reachable : @resolver_reachable list_range cache_a.
Proof. apply rtc_once. apply (rs_AddEntryFull 0 NewResolver (go "mds-01") [go "10.0.0.1"] 5 [] []). Defined.

Definition entry_b : ResolverEntry := MkResolverEntry (go "mds-01") [go "10.0.0.2"] (go "ssh") [] None.

Definition cache_ab : Resolver :=
  MkResolver {[go "mds-01" := MkResolverRecord [go "10.0.0.1"; go "10.0.0.2"]
    (Some {[go "10.0.0.1"; go "10.0.0.2"]}) (go "ssh") [] (Some 5)]}.

Lemma cache_merge : Resolver_Merge cache_a [entry_b] = Ret cache_ab.
Proof. by_decide. Defined.

Lemma resolver_never_panics_witness : returns (Resolver_Merge cache_a [entry_b]).
Proof. apply (resolver_never_panics cache_a [entry_b] [] None cache_a_reachable). Defined.

Lemma Merge_is_join_witness : Resolver_Merge cache_ab [entry_b] = Ret cache_ab.
Proof.
  apply (Merge_is_join cache_a [entry_b] [] cache_ab cache_a cache_ab cache_ab cache_a_reachable);
    try reflexivity; apply cache_merge.
Defined.

Definition hosts_file : list (gostring * list gostring) :=
  [(go "10.0.0.3", [go "oss-01"; go "oss"]); (go "fe80::1", [go "mds-01"])].

Lemma ParseHosts_roundtrip_witness :
  ∃ r', Resolver_ParseHostsContent cache_a (hosts_text hosts_file) None = Ret (r', 3, None) ∧
    go "10.0.0.3" ∈ addrs_of (rv_cache r' !! go "oss").
Proof.
  destruct (ParseHosts_roundtrip cache_a hosts_file cache_a_reachable) as (r' & E & Ha).
  { repeat constructor; by_decide. }
  exists r'. split; [rewrite E; reflexivity|]. apply Ha. right.
  exists [go "oss-01"; go "oss"]. by_decide.
Defined.

Lemma expired_stays_hidden_witness : Resolver_Resolve 7 cache_ab (go "mds-01") = None.
Proof.
  apply (expired_stays_hidden cache_a 6 (go "mds-01")
           (MkResolverRecord [go "10.0.0.1"] (Some {[go "10.0.0.1"]}) [] [] (Some 5))
           [entry_b] [] None cache_ab cache_a 0 None cache_a_reachable);
    [reflexivity|reflexivity|apply cache_merge|reflexivity|lia].
Defined.
