(* ===== verification/Reconnect.v ===== *)
(** * Reconnection after isolation: pkg/mesh/api/reconnect.go and health.go

    The loop of [run] as a state machine: one step per suspension point (the check
    of the context, a dial, a wait). What the environment supplies at a step, the
    clock, whether the context was canceled, the dial targets of the resolver and
    the outcome of a dial, is the step's input. *)

From Stdlib Require Import Ascii.
From stdpp Require Import base numbers gmap strings sorting list relations.
From S2P Require Import Prelude GoStrings Resolver.

Open Scope Z_scope.

(** ** Policy *)

Record ReconnectPolicy := MkReconnectPolicy {
  rp_Enabled : bool;
  rp_InitialDelay : Z;
  rp_MaxDelay : Z;
  rp_MaxAttempts : Z;
  rp_Timeout : Z
}.

#[export] Instance ReconnectPolicy_eq_dec : EqDecision ReconnectPolicy.
Proof. solve_decision. Defined.

Definition DefaultReconnectPolicy : ReconnectPolicy :=
  MkReconnectPolicy true (1 * second) (30 * second) 0 (5 * 60 * second).

(** [delay *= 2] up to [round] times, stopping at the cap. *)
Fixpoint backoff_loop (maxDelay delay : Z) (round : nat) : Z :=
  match round with
  | O => delay
  | S round =>
      let delay := i64 (delay * 2) in
      if maxDelay <? delay then maxDelay else backoff_loop maxDelay delay round
  end.

Definition reconnectLoop_backoff (p : ReconnectPolicy) (round : Z) : Z :=
  backoff_loop (rp_MaxDelay p) (rp_InitialDelay p) (Z.to_nat round).

(** ** The loop *)

Inductive rl_result := RL_Cancelled | RL_Reconnected (nodeID : gostring) | RL_Orphaned.

Inductive rl_pc :=
| RL_Top
| RL_Trying (targets : list DialTarget)
| RL_Sleeping (wake : Z)
| RL_Done (r : rl_result).

Record rl_state := MkRlState {
  rl_at : rl_pc;
  rl_round : Z;
  rl_dialed : list DialTarget
}.

(** [in_wake]: which case a [select] takes when the context is done and the
    timer has fired. *)
Record rl_input := MkRlInput {
  in_now : Z;
  in_canceled : bool;
  in_targets : list DialTarget;
  in_dial : option gostring;
  in_wake : bool
}.

Definition rl_start : rl_state := MkRlState RL_Top 0 [].

(** The deadline of the context [run] makes when it starts. *)
Definition rl_deadline (p : ReconnectPolicy) (start : Z) : option Z :=
  if 0 <? rp_Timeout p then Some (start + rp_Timeout p) else None.

Definition ctx_done (deadline : option Z) (i : rl_input) : bool :=
  in_canceled i || match deadline with Some d => d <=? in_now i | None => false end.

Definition rl_step (p : ReconnectPolicy) (deadline : option Z) (st : rl_state) (i : rl_input) : rl_state :=
  let goto pc := MkRlState pc (rl_round st) (rl_dialed st) in
  match rl_at st with
  | RL_Top =>
      if ctx_done deadline i then goto (RL_Done RL_Cancelled)
      else if bool_decide (in_targets i = []) && (0 <? rp_MaxAttempts p) && (rp_MaxAttempts p <=? rl_round st)
      then goto (RL_Done RL_Orphaned)
      else goto (RL_Trying (in_targets i))
  | RL_Trying (target :: targets) =>
      if ctx_done deadline i then goto (RL_Done RL_Cancelled)
      else
        let dialed := rl_dialed st ++ [target] in
        match in_dial i with
        | Some nodeID => MkRlState (RL_Done (RL_Reconnected nodeID)) (rl_round st) dialed
        | None => MkRlState (RL_Trying targets) (rl_round st) dialed
        end
  | RL_Trying [] =>
      let round := i64 (rl_round st + 1) in
      if (0 <? rp_MaxAttempts p) && (rp_MaxAttempts p <=? round)
      then MkRlState (RL_Done RL_Orphaned) round (rl_dialed st)
      else MkRlState (RL_Sleeping (in_now i + reconnectLoop_backoff p (round - 1))) round (rl_dialed st)
  | RL_Sleeping wake =>
      if ctx_done deadline i && negb (in_wake i && (wake <=? in_now i))
      then goto (RL_Done RL_Cancelled)
      else if wake <=? in_now i then goto RL_Top
      else st
  | RL_Done _ => st
  end.

Definition rl_run (p : ReconnectPolicy) (deadline : option Z) (inputs : list rl_input) : rl_state :=
  fold_left (rl_step p deadline) inputs rl_start.

(** The callbacks [run] fires by its result. *)
Inductive rl_event := Ev_OnReconnected (nodeID : gostring) | Ev_OnOrphaned.

Definition rl_events (st : rl_state) : list rl_event :=
  match rl_at st with
  | RL_Done (RL_Reconnected id) => [Ev_OnReconnected id]
  | RL_Done RL_Orphaned => [Ev_OnOrphaned]
  | _ => []
  end.

(** ** Starting and stopping *)

(** The flag and the number of [run] goroutines that have not returned. *)
Record reconnectLoop := MkReconnectLoop { rl_running : bool; rl_live : nat }.

Definition newReconnectLoop : reconnectLoop := MkReconnectLoop false 0.

Definition reconnectLoop_Start (rl : reconnectLoop) : reconnectLoop :=
  if rl_running rl then rl else MkReconnectLoop true (S (rl_live rl)).

Definition reconnectLoop_Stop (rl : reconnectLoop) : reconnectLoop :=
  MkReconnectLoop false (rl_live rl).

(** A [run] returns. *)
Definition run_returns (rl : reconnectLoop) : reconnectLoop := MkReconnectLoop false (pred (rl_live rl)).

(** ** Lemmas *)

(** Where the state can be, by the attempts allowed and made; [n] rounds have
    passed. *)
Definition rl_inv (p : ReconnectPolicy) (st : rl_state) : Prop :=
  0 ≤ rl_round st ∧
  (0 < rp_MaxAttempts p → rl_round st ≤ rp_MaxAttempts p) ∧
  match rl_at st with
  | RL_Done RL_Orphaned => 0 < rp_MaxAttempts p ∧ rl_round st = rp_MaxAttempts p
  | _ => 0 < rp_MaxAttempts p → rl_round st < rp_MaxAttempts p
  end.

Lemma rl_step_inv p d st i :
  0 ≤ rp_MaxAttempts p ≤ MaxInt64 → (rl_round st < MaxInt64) → rl_inv p st → rl_inv p (rl_step p d st i).
Proof.
  intros Hp Hlt (H0 & Hb & Hat). unfold rl_step, rl_inv.
  destruct st as [pc round dialed]. simpl in *. destruct pc as [|[|t ts]|wake|res]; simpl in *.
  - destruct (ctx_done d i); simpl; [done|].
    destruct (bool_decide (in_targets i = [])); simpl; [|done].
    destruct (Z.ltb_spec 0 (rp_MaxAttempts p)); simpl; [|done].
    destruct (Z.leb_spec (rp_MaxAttempts p) round); simpl; [|done]. lia.
  - rewrite i64_id by i64_lia.
    destruct (Z.ltb_spec 0 (rp_MaxAttempts p)); simpl;
      [destruct (Z.leb_spec (rp_MaxAttempts p) (round + 1)); simpl|]; lia.
  - destruct (ctx_done d i); simpl; [done|]. by destruct (in_dial i).
  - destruct (_ && _); simpl; [done|]. by destruct (wake <=? in_now i).
  - done.
Qed.

Lemma rl_step_round p d st i :
  0 ≤ rl_round st < MaxInt64 → rl_round (rl_step p d st i) ≤ rl_round st + 1.
Proof.
  intros Hr. unfold rl_step. destruct (rl_at st) as [|[|t ts]|wake|res]; simpl; [..|lia].
  - destruct (ctx_done d i); simpl; [lia|]. destruct (_ && _); simpl; lia.
  - rewrite i64_id by i64_lia. destruct (_ && _); simpl; lia.
  - destruct (ctx_done d i); simpl; [lia|]. destruct (in_dial i); simpl; lia.
  - destruct (_ && _); simpl; [lia|]. destruct (_ <=? _); simpl; lia.
Qed.

Lemma rl_run_snoc p d inputs i : rl_run p d (inputs ++ [i]) = rl_step p d (rl_run p d inputs) i.
Proof. unfold rl_run. by rewrite fold_left_app. Qed.

Lemma rl_run_inv p d inputs :
  0 ≤ rp_MaxAttempts p ≤ MaxInt64 → Z.of_nat (length inputs) ≤ MaxInt64 →
  rl_inv p (rl_run p d inputs) ∧ rl_round (rl_run p d inputs) ≤ Z.of_nat (length inputs).
Proof.
  intros Hp. induction inputs as [|i inputs IH] using rev_ind; intros Hlen.
  - split; [|done]. unfold rl_inv. simpl. split_and!; [done|lia|done].
  - rewrite length_app in Hlen. simpl in Hlen. destruct IH as [Hi Hr]; [lia|].
    rewrite rl_run_snoc, length_app. simpl.
    split; [apply rl_step_inv; [done|lia|done]|].
    pose proof (rl_step_round p d (rl_run p d inputs) i) as Hs. destruct Hi as [H0 _]. lia.
Qed.

(** Within three steps after the deadline the loop has returned, and not because
    of its attempts if they are unlimited. *)
Lemma rl_steps_expired p dl st i1 i2 i3 :
  rp_MaxAttempts p = 0 → (∀ i, i ∈ [i1; i2; i3] → dl ≤ in_now i) → rl_at st ≠ RL_Done RL_Orphaned →
  ∃ r, rl_at (rl_step p (Some dl) (rl_step p (Some dl) (rl_step p (Some dl) st i1) i2) i3) = RL_Done r ∧
    r ≠ RL_Orphaned.
Proof.
  intros Hp Hi Hst.
  assert (∀ i, i ∈ [i1; i2; i3] → ctx_done (Some dl) i = true) as Hd.
  { intros i Hin. unfold ctx_done. specialize (Hi i Hin).
    rewrite (proj2 (Z.leb_le dl (in_now i)) Hi). apply orb_true_r. }
  assert (∀ st i r, rl_at st = RL_Done r → rl_at (rl_step p (Some dl) st i) = RL_Done r) as Hdone.
  { intros st' i r E. unfold rl_step. by rewrite E. }
  assert (∀ st i, i ∈ [i1; i2; i3] → rl_at st = RL_Top →
    rl_at (rl_step p (Some dl) st i) = RL_Done RL_Cancelled) as Htop.
  { intros st' i Hin E. unfold rl_step. rewrite E. by rewrite Hd. }
  assert (∀ st i wake, i ∈ [i1; i2; i3] → rl_at st = RL_Sleeping wake →
    rl_at (rl_step p (Some dl) st i) = RL_Done RL_Cancelled ∨ rl_at (rl_step p (Some dl) st i) = RL_Top) as Hsl.
  { intros st' i wake Hin E. unfold rl_step. rewrite E, Hd by done. simpl.
    destruct (in_wake i), (wake <=? in_now i) eqn:E2; simpl; auto. }
  destruct (rl_at st) as [|[|t ts]|wake|res] eqn:E.
  - exists RL_Cancelled. split; [|done]. apply Hdone, Hdone, Htop; [set_solver|done].
  - assert (∃ wake, rl_at (rl_step p (Some dl) st i1) = RL_Sleeping wake) as [wake Hw].
    { unfold rl_step. rewrite E, Hp. simpl. eauto. }
    destruct (Hsl _ i2 wake ltac:(set_solver) Hw) as [Hc|Ht]; exists RL_Cancelled; split; try done.
    + by apply Hdone.
    + apply Htop; [set_solver|done].
  - exists RL_Cancelled. split; [|done]. apply Hdone, Hdone. unfold rl_step. rewrite E.
    by rewrite Hd by set_solver.
  - destruct (Hsl _ i1 wake ltac:(set_solver) E) as [Hc|Ht]; exists RL_Cancelled; split; try done.
    + by apply Hdone, Hdone.
    + apply Hdone, Htop; [set_solver|done].
  - exists res. split; [|naive_solver]. by apply Hdone, Hdone, Hdone.
Qed.

Lemma backoff_loop_spec m delay n :
  0 < delay ≤ m → 2 * m ≤ MaxInt64 →
  backoff_loop m delay n = Z.min (delay * 2 ^ Z.of_nat n) m.
Proof.
  revert delay. induction n as [|n IH]; intros delay Hd Hm; cbn [backoff_loop]; [simpl; lia|].
  rewrite i64_id by i64_lia. rewrite Nat2Z.inj_succ, Z.pow_succ_r by lia.
  destruct (Z.ltb_spec m (delay * 2)) as [Hlt|Hle].
  - assert (1 ≤ 2 ^ Z.of_nat n) by (pose proof (Z.pow_pos_nonneg 2 (Z.of_nat n)); lia). nia.
  - rewrite IH by lia. f_equal. lia.
Qed.

(** ** Properties *)

(** the program hears that a node is orphaned only when the allowed rounds
    are used up, never because of the timeout: when that passes the loop returns
    within three steps, and under the default policy, which has a timeout and no
    limit on rounds, it never calls [OnOrphaned]. *)
Theorem timeout_is_silent start inputs :
  let p := DefaultReconnectPolicy in
  let d := start + rp_Timeout p in
  rl_deadline p start = Some d ∧
  (Z.of_nat (length inputs) ≤ MaxInt64 →
   Ev_OnOrphaned ∉ rl_events (rl_run p (Some d) inputs) ∧
   ∀ i1 i2 i3, d ≤ in_now i1 → d ≤ in_now i2 → d ≤ in_now i3 →
     ∃ r, rl_at (rl_run p (Some d) (inputs ++ [i1; i2; i3])) = RL_Done r ∧ r ≠ RL_Orphaned).
Proof.
  cbn zeta. split; [done|]. intros Hlen.
  destruct (rl_run_inv DefaultReconnectPolicy (Some (start + rp_Timeout DefaultReconnectPolicy)) inputs)
    as [(_ & _ & Hat) _]; [done|done|].
  set (st := rl_run _ _ inputs) in *.
  assert (rl_at st ≠ RL_Done RL_Orphaned) as Hno by (intros E; rewrite E in Hat; simpl in Hat; lia).
  split.
  - unfold rl_events. destruct (rl_at st) as [| | |[| |]]; set_solver.
  - intros i1 i2 i3 H1 H2 H3. unfold rl_run in *. rewrite fold_left_app. simpl.
    apply rl_steps_expired; [done| |done].
    intros i Hin. rewrite !elem_of_cons, elem_of_nil in Hin. by destruct Hin as [-> |[-> |[-> |[]]]].
Qed.

(** with limited rounds, [OnOrphaned] is called exactly when all of them
    were made and failed, and no round follows the last. *)
Theorem orphaned_after_all_rounds p d inputs :
  0 < rp_MaxAttempts p ≤ MaxInt64 → Z.of_nat (length inputs) ≤ MaxInt64 →
  let st := rl_run p d inputs in
  rl_round st ≤ rp_MaxAttempts p ∧
  (Ev_OnOrphaned ∈ rl_events st ↔ rl_round st = rp_MaxAttempts p).
Proof.
  intros Hp Hlen. destruct (rl_run_inv p d inputs) as [(H0 & Hb & Hat) _]; [lia|done|].
  cbn zeta. split; [lia|]. unfold rl_events.
  destruct (rl_at _) as [| | |[| |]]; rewrite ?elem_of_nil, ?list_elem_of_singleton; split;
    done || lia.
Qed.

(** The wait after a failed round doubles from the initial delay up to the
    cap, where the initial delay is within the cap and the cap's double fits. *)
Theorem backoff_doubles_to_cap p round :
  0 < rp_InitialDelay p ≤ rp_MaxDelay p → 2 * rp_MaxDelay p ≤ MaxInt64 → 0 ≤ round →
  reconnectLoop_backoff p round = Z.min (rp_InitialDelay p * 2 ^ round) (rp_MaxDelay p).
Proof.
  intros Hd Hm Hr. unfold reconnectLoop_backoff. rewrite backoff_loop_spec by done.
  by rewrite Z2Nat.id.
Qed.

(** ** Witnesses *)

Definition input_at (now : Z) : rl_input := MkRlInput now false [MkDialTarget [] [] [] []] None true.

Lemma timeout_is_silent_witness :
  ∃ r, rl_at (rl_run DefaultReconnectPolicy (Some (300 * second))
                (replicate 3 (input_at 0) ++ replicate 3 (input_at (300 * second)))) = RL_Done r ∧
    r ≠ RL_Orphaned.
Proof.
  destruct (timeout_is_silent 0 (replicate 3 (input_at 0))) as [_ Ht].
  destruct Ht as [_ Hexp]; [simpl; i64_lia|].
  apply (Hexp (input_at (300 * second)) (input_at (300 * second)) (input_at (300 * second))); reflexivity || done.
Defined.

Definition two_rounds : ReconnectPolicy := MkReconnectPolicy true 1 4 2 0.

Lemma orphaned_after_all_rounds_witness :
  let st := rl_run two_rounds None (map input_at [0; 0; 0; 1; 1; 1; 1]) in
  rl_events st = [Ev_OnOrphaned] ∧ rl_round st = 2.
Proof.
  cbn zeta. split; [reflexivity|].
  apply (orphaned_after_all_rounds two_rounds None); [simpl; i64_lia|simpl; i64_lia|].
  vm_compute. left.
Defined.

Lemma backoff_doubles_to_cap_witness :
  map (reconnectLoop_backoff DefaultReconnectPolicy) [0; 1; 5] = [1 * second; 2 * second; 30 * second] ∧
  reconnectLoop_backoff DefaultReconnectPolicy 9 = Z.min (1 * second * 2 ^ 9) (30 * second).
Proof.
  split; [reflexivity|]. apply (backoff_doubles_to_cap DefaultReconnectPolicy 9); by_decide.
Defined.
