(* ===== verification/Gradient.v ===== *)
(** * The gradient routing table: pkg/mesh/routing/gradient.go

    A table keeps, for each target, the known paths with their next hop, cost
    and age. Every method takes the table's lock for its whole body, so a
    concurrent history is a sequence of calls: each method is one transition,
    [now] being the clock it reads. *)

From Stdlib Require Import Ascii.
From stdpp Require Import base numbers gmap strings sorting list.
From S2P Require Import Prelude GoStrings GoFloat.

Open Scope Z_scope.

(** ** Data *)

Definition DefaultGossipFrameBudget : Z := 32 * 1024.
Definition avgRouteOnWire : Z := 40.
Definition gossipOverheadEstimate : Z := 128.

Record PathCost := MkPathCost { pc_NextHop : gostring; pc_TotalCost : float64 }.

Record GossipRoute := MkGossipRoute { gr_TargetID : gostring; gr_Cost : float64 }.

Record pathEntry := MkPathEntry {
  pe_nextHop : gostring;
  pe_totalCost : float64;
  pe_lastSeen : Z
}.

Abbreviation caps_map := (gmap gostring (list gostring)).

(** A nil map of capabilities is [None]. *)
Record GossipVector := MkGossipVector {
  gv_FromNodeID : gostring;
  gv_FromImpedance : float64;
  gv_Routes : list GossipRoute;
  gv_FromCapabilities : list gostring;
  gv_NodeCapabilities : option caps_map
}.

(** The cache is [None] when nil. *)
Record GradientTable := MkGradientTable {
  gt_selfID : gostring;
  gt_routes : gmap gostring (list pathEntry);
  gt_gossipCache : option (list GossipRoute);
  gt_gossipImpedance : float64;
  gt_gossipBudget : Z;
  gt_gossipGen : Z;
  gt_dirty : bool
}.

Record GossipInput := MkGossipInput {
  gi_LocalCapabilities : list gostring;
  gi_KnownCapabilities : caps_map
}.

(** ** Operations *)

Definition NewGradientTable (selfID : gostring) : GradientTable :=
  MkGradientTable selfID ∅ None (S754_zero false) 0 0 false.

Definition set_routes (gt : GradientTable) (routes : gmap gostring (list pathEntry)) (dirty : bool)
    : GradientTable :=
  MkGradientTable (gt_selfID gt) routes (gt_gossipCache gt) (gt_gossipImpedance gt)
    (gt_gossipBudget gt) (gt_gossipGen gt) dirty.

(** The loop of [UpdateRoute]: the first path through [nextHop] is refreshed.
    [None] is the end of the loop without one; the flag says the cost changed. *)
Fixpoint update_path (now : Z) (nextHop : gostring) (totalCost : float64) (paths : list pathEntry)
    : option (list pathEntry * bool) :=
  match paths with
  | [] => None
  | p :: paths =>
      if decide (pe_nextHop p = nextHop) then
        if negb (f64_eqb (pe_totalCost p) totalCost)
        then Some (MkPathEntry (pe_nextHop p) totalCost now :: paths, true)
        else Some (MkPathEntry (pe_nextHop p) (pe_totalCost p) now :: paths, false)
      else
        match update_path now nextHop totalCost paths with
        | Some (paths, changed) => Some (p :: paths, changed)
        | None => None
        end
  end.

Definition GradientTable_UpdateRoute (now : Z) (gt : GradientTable)
    (targetID nextHop : gostring) (totalCost : float64) : GradientTable :=
  let paths := default [] (gt_routes gt !! targetID) in
  match update_path now nextHop totalCost paths with
  | Some (paths, changed) =>
      set_routes gt (<[targetID := paths]> (gt_routes gt)) (gt_dirty gt || changed)
  | None =>
      set_routes gt (<[targetID := paths ++ [MkPathEntry nextHop totalCost now]]> (gt_routes gt)) true
  end.

(** [best := paths[0]; for _, p := range paths[1:] { ... }] *)
Definition best_path (best : pathEntry) (paths : list pathEntry) : pathEntry :=
  fold_left (λ best p, if f64_ltb (pe_totalCost p) (pe_totalCost best) then p else best) paths best.

Definition GradientTable_BestRoute (gt : GradientTable) (targetID : gostring) : option PathCost :=
  match gt_routes gt !! targetID with
  | None | Some [] => None
  | Some (p :: paths) =>
      let best := best_path p paths in
      Some (MkPathCost (pe_nextHop best) (pe_totalCost best))
  end.

Definition GradientTable_ProcessGossip (now : Z) (gt : GradientTable) (gossip : GossipVector)
    : GradientTable :=
  fold_left (λ gt route,
      if decide (gr_TargetID route = gt_selfID gt) then gt
      else
        let totalCost := f64_add (gr_Cost route) (gv_FromImpedance gossip) in
        GradientTable_UpdateRoute now gt (gr_TargetID route) (gv_FromNodeID gossip) totalCost)
    (gv_Routes gossip) gt.

Definition RouteBudget (frameBudgetBytes : Z) : Z :=
  let available := i64 (frameBudgetBytes - gossipOverheadEstimate) in
  if available <? avgRouteOnWire then 1 else Z.quot available avgRouteOnWire.

(** The first loop of [capHorizonRanked]. *)
Fixpoint drain_ranked (caps : caps_map) (selfID : gostring) (budget : Z)
    (rankedRoutes : list GossipRoute) (result : caps_map) : caps_map :=
  match rankedRoutes with
  | [] => result
  | r :: rankedRoutes =>
      if budget <=? Z.of_nat (size result) then result
      else if decide (gr_TargetID r = selfID) then drain_ranked caps selfID budget rankedRoutes result
      else match caps !! gr_TargetID r with
           | None => drain_ranked caps selfID budget rankedRoutes result
           | Some c =>
               if decide (is_Some (result !! gr_TargetID r))
               then drain_ranked caps selfID budget rankedRoutes result
               else drain_ranked caps selfID budget rankedRoutes (<[gr_TargetID r := c]> result)
           end
  end.

(** The slack fill over the sorted remaining nodes. *)
Fixpoint fill_slack (caps : caps_map) (budget : Z) (remaining : list gostring) (result : caps_map)
    : caps_map :=
  match remaining with
  | [] => result
  | nodeID :: remaining =>
      if budget <=? Z.of_nat (size result) then result
      else fill_slack caps budget remaining (<[nodeID := default [] (caps !! nodeID)]> result)
  end.

Section runtime.
Context `{GoRange} `{GoSort}.

Definition capHorizonRanked (caps : caps_map) (selfID : gostring) (rankedRoutes : list GossipRoute)
    (budget : Z) : option caps_map :=
  if (Z.of_nat (size caps) =? 0) || (budget <=? 0) then None
  else
    let result := drain_ranked caps selfID budget rankedRoutes ∅ in
    let result :=
      if Z.of_nat (size result) <? budget then
        let remaining :=
          filter (λ nodeID, nodeID ≠ selfID ∧ ¬ is_Some (result !! nodeID))
            (map fst (range_map caps)) in
        fill_slack caps budget (sort_Strings remaining) result
      else result in
    if Z.of_nat (size result) =? 0 then None else Some result.

(** The best route of every target, in the order the map is visited. *)
Definition best_routes (routes : gmap gostring (list pathEntry)) : list GossipRoute :=
  range_map routes ≫= λ '(targetID, paths),
    match paths with
    | [] => []
    | p :: paths => [MkGossipRoute targetID (pe_totalCost (best_path p paths))]
    end.

Definition route_less (a b : GossipRoute) : bool := f64_ltb (gr_Cost a) (gr_Cost b).

Definition cut_horizon (routes : list GossipRoute) (horizon : Z) : list GossipRoute :=
  if horizon <? Z.of_nat (length routes)
  then take (Z.to_nat horizon) (sort_slice route_less routes)
  else routes.

Definition GradientTable_GenerateGossipBudgeted (gt : GradientTable) (localImpedance : float64)
    (input : GossipInput) (frameBudgetBytes : Z) : GradientTable * GossipVector :=
  let horizon := RouteBudget frameBudgetBytes in
  let vector routes :=
    MkGossipVector (gt_selfID gt) localImpedance routes (gi_LocalCapabilities input)
      (capHorizonRanked (gi_KnownCapabilities input) (gt_selfID gt) routes horizon) in
  let miss :=
    let routes := cut_horizon (best_routes (gt_routes gt)) horizon in
    (MkGradientTable (gt_selfID gt) (gt_routes gt) (Some routes) localImpedance
       frameBudgetBytes ((gt_gossipGen gt + 1) mod 2 ^ 64) false,
     vector routes) in
  match gt_gossipCache gt with
  | Some cache =>
      if negb (gt_dirty gt) && f64_eqb (gt_gossipImpedance gt) localImpedance
         && (gt_gossipBudget gt =? frameBudgetBytes)
      then (gt, vector cache)
      else miss
  | None => miss
  end.

Definition GradientTable_GenerateGossip (gt : GradientTable) (localImpedance : float64)
    (input : GossipInput) : GradientTable * GossipVector :=
  GradientTable_GenerateGossipBudgeted gt localImpedance input DefaultGossipFrameBudget.

End runtime.

Definition GradientTable_AddDirectNeighbor (now : Z) (gt : GradientTable)
    (neighborID : gostring) (impedance : float64) : GradientTable :=
  GradientTable_UpdateRoute now gt neighborID neighborID impedance.

(** [filtered]; an emptied target is deleted. *)
Definition keep_paths (keep : pathEntry → bool) (paths : list pathEntry) : option (list pathEntry) :=
  match filter (λ p, keep p = true) paths with
  | [] => None
  | filtered => Some filtered
  end.

Definition dropped (keep : pathEntry → bool) (paths : list pathEntry) : nat :=
  length paths - length (filter (λ p, keep p = true) paths).

(** The number of path entries a loop drops over the whole map; a sum does not
    depend on the order. *)
Definition total_dropped (keep : pathEntry → bool) (routes : gmap gostring (list pathEntry)) : nat :=
  sum_list (map (λ e, dropped keep e.2) (map_to_list routes)).

Definition GradientTable_RemoveNeighbor (gt : GradientTable) (neighborID : gostring) : GradientTable :=
  let keep p := bool_decide (pe_nextHop p ≠ neighborID) in
  let mutated := negb (total_dropped keep (gt_routes gt) =? 0)%nat in
  set_routes gt (omap (keep_paths keep) (gt_routes gt)) (gt_dirty gt || mutated).

Definition GradientTable_PurgeStale (now : Z) (gt : GradientTable) (maxAge : Z) : GradientTable * Z :=
  let cutoff := now + i64 (- maxAge) in
  let keep p := cutoff <? pe_lastSeen p in
  let purged := Z.of_nat (total_dropped keep (gt_routes gt)) in
  (set_routes gt (omap (keep_paths keep) (gt_routes gt)) (gt_dirty gt || (0 <? purged)), purged).

Definition GradientTable_AllRoutes (gt : GradientTable) : gmap gostring PathCost :=
  omap (λ paths, match paths with
                 | [] => None
                 | p :: paths =>
                     let best := best_path p paths in
                     Some (MkPathCost (pe_nextHop best) (pe_totalCost best))
                 end) (gt_routes gt).

Definition GradientTable_gossipCacheGeneration (gt : GradientTable) : Z := gt_gossipGen gt.

(** ** Specification: the paths of a table *)

(** The path to [target] through [nextHop]. *)
Definition path_of (gt : GradientTable) (target nextHop : gostring) : option pathEntry :=
  head (filter (λ p, pe_nextHop p = nextHop) (default [] (gt_routes gt !! target))).

(** No target without a path, no two paths of a target through one next hop. *)
Definition paths_wf (routes : gmap gostring (list pathEntry)) : Prop :=
  map_Forall (λ _ paths, paths ≠ [] ∧ NoDup (map pe_nextHop paths)) routes.

Definition best_cost (paths : list pathEntry) : option float64 :=
  match paths with
  | [] => None
  | p :: paths => Some (pe_totalCost (best_path p paths))
  end.

(** The cost of the best route of every target. *)
Definition costs (routes : gmap gostring (list pathEntry)) : gmap gostring float64 :=
  omap best_cost routes.

(** What a gossip vector must carry: as many of the best routes as the horizon
    allows, each target once, and, when no cost is NaN, none dearer than a
    route left out. *)
Definition valid_gossip (cs : gmap gostring float64) (horizon : Z) (l : list GossipRoute) : Prop :=
  NoDup (map gr_TargetID l) ∧
  (∀ r, r ∈ l → cs !! gr_TargetID r = Some (gr_Cost r)) ∧
  Z.of_nat (length l) = Z.min (Z.of_nat (size cs)) horizon ∧
  (map_Forall (λ _ c, is_nan c = false) cs →
   ∀ r t c, r ∈ l → cs !! t = Some c → t ∉ map gr_TargetID l → f64_ltb c (gr_Cost r) = false).

Definition cache_ok (gt : GradientTable) : Prop :=
  gt_dirty gt = false →
  ∀ cache, gt_gossipCache gt = Some cache →
    valid_gossip (costs (gt_routes gt)) (RouteBudget (gt_gossipBudget gt)) cache.

Definition gt_inv (gt : GradientTable) : Prop := paths_wf (gt_routes gt) ∧ cache_ok gt.

(** One call on a table, by any goroutine at any time. *)
Inductive gt_step `{GoRange} `{GoSort} : GradientTable → GradientTable → Prop :=
| step_UpdateRoute now gt t nh c : gt_step gt (GradientTable_UpdateRoute now gt t nh c)
| step_AddDirectNeighbor now gt n c : gt_step gt (GradientTable_AddDirectNeighbor now gt n c)
| step_ProcessGossip now gt g : gt_step gt (GradientTable_ProcessGossip now gt g)
| step_Generate gt imp input b : gt_step gt (fst (GradientTable_GenerateGossipBudgeted gt imp input b))
| step_RemoveNeighbor gt n : gt_step gt (GradientTable_RemoveNeighbor gt n)
| step_PurgeStale now gt a : gt_step gt (fst (GradientTable_PurgeStale now gt a)).

Definition gt_reachable `{GoRange} `{GoSort} (selfID : gostring) (gt : GradientTable) : Prop :=
  rtc gt_step (NewGradientTable selfID) gt.

(** ** Lemmas: the best path *)

Lemma best_path_elem p paths : best_path p paths ∈ p :: paths.
Proof.
  unfold best_path. revert p. induction paths as [|q paths IH]; intros p; [left|]. cbn [fold_left].
  destruct (f64_ltb _ _); [right; apply IH|].
  specialize (IH p). apply elem_of_cons in IH as [->|]; [left|]. right. by right.
Qed.

Lemma best_path_least p paths q :
  Forall (λ p, is_nan (pe_totalCost p) = false) (p :: paths) → q ∈ p :: paths →
  f64_ltb (pe_totalCost q) (pe_totalCost (best_path p paths)) = false.
Proof.
  unfold best_path. revert p q. induction paths as [|p' paths IH]; intros p q Hn Hq.
  - apply list_elem_of_singleton in Hq as ->. apply f64_ltb_irrefl.
  - apply Forall_cons_1 in Hn as [Hp Hn]. apply Forall_cons_1 in Hn as [Hp' Hn]. cbn [fold_left].
    set (b := if f64_ltb (pe_totalCost p') (pe_totalCost p) then p' else p).
    assert (is_nan (pe_totalCost b) = false) as Hb by (unfold b; by case_match).
    assert (Forall (λ p, is_nan (pe_totalCost p) = false) (b :: paths)) as Hall by by constructor.
    pose proof (IH b b Hall ltac:(left)) as Hbb.
    assert (q = p ∨ q = p' → f64_ltb (pe_totalCost q) (pe_totalCost b) = false) as Hcase.
    { unfold b. intros [->| ->]; destruct (f64_ltb (pe_totalCost p') (pe_totalCost p)) eqn:E;
        auto using f64_ltb_irrefl.
      destruct (f64_ltb (pe_totalCost p) (pe_totalCost p')) eqn:E'; [|done].
      pose proof (f64_ltb_trans _ _ _ E E') as Hx. by rewrite f64_ltb_irrefl in Hx. }
    apply elem_of_cons in Hq as [->|[->|Hq]%elem_of_cons].
    + eapply f64_ltb_ge_trans; [exact Hb|exact Hbb|]. auto.
    + eapply f64_ltb_ge_trans; [exact Hb|exact Hbb|]. auto.
    + apply IH; [done|by right].
Qed.

(** The best cost reads next hops and costs only. *)
Lemma best_cost_ext l l' :
  map pe_totalCost l = map pe_totalCost l' → best_cost l = best_cost l'.
Proof.
  destruct l as [|p l], l' as [|p' l']; simpl; try done. intros [= Hp Hl]. f_equal.
  unfold best_path. revert p p' l' Hp Hl. induction l as [|q l IH]; intros p p' [|q' l'] Hp Hl; simplify_eq/=; [done|].
  apply IH; [|done]. rewrite H, Hp. by case_match.
Qed.

(** ** Lemmas: updating *)

Lemma update_path_Some now nh c paths paths' changed :
  update_path now nh c paths = Some (paths', changed) →
  map pe_nextHop paths' = map pe_nextHop paths ∧
  (changed = false → map pe_totalCost paths' = map pe_totalCost paths) ∧
  (∀ nh', nh' ≠ nh → filter (λ p, pe_nextHop p = nh') paths' = filter (λ p, pe_nextHop p = nh') paths) ∧
  ∃ p p', head (filter (λ p, pe_nextHop p = nh) paths) = Some p ∧
    head (filter (λ p, pe_nextHop p = nh) paths') = Some p' ∧ pe_lastSeen p' = now ∧
    pe_totalCost p' = if f64_eqb (pe_totalCost p) c then pe_totalCost p else c.
Proof.
  revert paths' changed. induction paths as [|p paths IH]; intros paths' changed; [done|].
  cbn [update_path]. case_decide as Hp.
  - destruct (f64_eqb (pe_totalCost p) c) eqn:E; cbn [negb]; intros [= <- <-]; simpl;
      (split_and!; [done|done| |]);
      try (intros nh' Hne; rewrite !filter_cons, !decide_False by (simpl; congruence); done);
      exists p; eexists; rewrite !filter_cons, !decide_True by (simpl; congruence);
      (do 3 (split; [reflexivity|])); by rewrite E.
  - destruct (update_path now nh c paths) as [[l ch]|] eqn:Hu; [|done]. intros [= <- <-].
    destruct (IH l ch eq_refl) as (H1 & H2 & H3 & H4). simpl. split_and!.
    + by rewrite H1.
    + intros Hch. by rewrite H2.
    + intros nh' Hne. rewrite !filter_cons. by rewrite H3.
    + by rewrite !filter_cons, !decide_False by done.
Qed.

Lemma update_path_None now nh c paths :
  update_path now nh c paths = None ↔ nh ∉ map pe_nextHop paths.
Proof.
  induction paths as [|p paths IH]; simpl; [split; [intros _; apply not_elem_of_nil|done]|].
  rewrite not_elem_of_cons. case_decide as Hp; [case_match; naive_solver|].
  destruct (update_path now nh c paths) as [[]|]; naive_solver.
Qed.

Lemma update_wf now gt t nh c :
  paths_wf (gt_routes gt) → paths_wf (gt_routes (GradientTable_UpdateRoute now gt t nh c)).
Proof.
  intros Hwf. unfold GradientTable_UpdateRoute. set (paths := default [] (gt_routes gt !! t)).
  assert (NoDup (map pe_nextHop paths)) as Hnd.
  { unfold paths. destruct (gt_routes gt !! t) as [l|] eqn:E; [|constructor]. by apply (Hwf t). }
  destruct (update_path now nh c paths) as [[paths' ch]|] eqn:Hu; cbn [set_routes gt_routes].
  - apply map_Forall_insert_2; [|done]. apply update_path_Some in Hu as (H1 & _ & _ & p & p' & Hh & Hh' & _).
    rewrite H1. split; [|done]. by intros ->.
  - apply map_Forall_insert_2; [|done]. split; [by destruct paths|]. rewrite map_app.
    apply update_path_None in Hu. apply NoDup_app. split_and!; [done| |apply NoDup_singleton].
    intros x Hx ->%list_elem_of_singleton. done.
Qed.

Lemma update_cache now gt t nh c :
  cache_ok gt → cache_ok (GradientTable_UpdateRoute now gt t nh c).
Proof.
  intros Hc. unfold GradientTable_UpdateRoute. set (paths := default [] (gt_routes gt !! t)).
  destruct (update_path now nh c paths) as [[paths' ch]|] eqn:Hu; unfold cache_ok; simpl; [|done].
  intros [Hd ->]%orb_false_iff cache Hcache. specialize (Hc Hd cache Hcache).
  assert (costs (<[t:=paths']> (gt_routes gt)) = costs (gt_routes gt)) as ->; [|done].
  apply update_path_Some in Hu as (_ & H2 & _ & p & _ & Hh & _). apply map_eq. intros k.
  unfold costs. rewrite !lookup_omap. destruct (decide (k = t)) as [->|];
    [|by rewrite lookup_insert_ne].
  rewrite lookup_insert_eq. simpl. rewrite (best_cost_ext _ _ (H2 eq_refl)). unfold paths in *.
  by destruct (gt_routes gt !! t).
Qed.

(** ** Lemmas: gossip *)

Lemma RouteBudget_pos b : 1 ≤ RouteBudget b.
Proof.
  unfold RouteBudget, avgRouteOnWire. set (a := i64 _). destruct (Z.ltb_spec a 40); [lia|].
  rewrite Z.quot_div_nonneg by lia. apply Z.div_le_lower_bound; lia.
Qed.

Section gossip.
Context `{GoRange} `{GoSort}.

Lemma best_routes_targets routes :
  paths_wf routes → map gr_TargetID (best_routes routes) ≡ₚ map fst (map_to_list routes).
Proof.
  intros Hwf. unfold best_routes. rewrite <-(range_map_perm routes).
  assert (∀ e, e ∈ range_map routes → e.2 ≠ []) as Hne.
  { intros [t ps] He. rewrite range_map_perm in He. apply elem_of_map_to_list in He. by apply (Hwf t ps). }
  induction (range_map routes) as [|[t ps] l IH]; [done|]. cbn [mbind list_bind].
  destruct ps as [|p ps]; [by destruct (Hne (t, [])); [left|]|].
  simpl. constructor. apply IH. intros e He. apply Hne. by right.
Qed.

Lemma elem_of_best_routes routes r :
  r ∈ best_routes routes ↔ costs routes !! gr_TargetID r = Some (gr_Cost r).
Proof.
  unfold best_routes, costs. rewrite lookup_omap, list_elem_of_bind. setoid_rewrite range_map_perm.
  split.
  - intros ([t ps] & Hr & Ht%elem_of_map_to_list). destruct ps as [|p ps]; [by apply not_elem_of_nil in Hr|].
    apply list_elem_of_singleton in Hr as ->. simpl. by rewrite Ht.
  - destruct (routes !! gr_TargetID r) as [[|p ps]|] eqn:E; simpl; [done| |done].
    intros [= Hc]. exists (gr_TargetID r, p :: ps). split; [|by apply elem_of_map_to_list].
    apply list_elem_of_singleton. destruct r; simpl in *. by subst.
Qed.

Lemma size_costs routes : paths_wf routes → size (costs routes) = size routes.
Proof.
  intros Hwf. rewrite <-!size_dom. f_equal. apply set_eq. intros t.
  rewrite !elem_of_dom. unfold costs. rewrite lookup_omap.
  destruct (routes !! t) as [ps|] eqn:E; simpl; [|done].
  apply Hwf in E as [Hne _]. destruct ps; [done|]. simpl. split; eauto.
Qed.

Lemma cut_horizon_valid routes h :
  paths_wf routes → 1 ≤ h → valid_gossip (costs routes) h (cut_horizon (best_routes routes) h).
Proof.
  intros Hwf Hh. set (full := best_routes routes).
  assert (NoDup (map gr_TargetID full)) as Hnd.
  { unfold full. rewrite best_routes_targets by done. apply NoDup_fst_map_to_list. }
  assert (length full = size routes) as Hlen.
  { rewrite <-(length_map gr_TargetID). unfold full. rewrite best_routes_targets by done.
    by rewrite length_map, length_map_to_list. }
  assert (∀ r, r ∈ full ↔ costs routes !! gr_TargetID r = Some (gr_Cost r)) as Hin
    by apply elem_of_best_routes.
  unfold cut_horizon. destruct (Z.ltb_spec h (Z.of_nat (length full))) as [Hlt|Hge].
  - set (s := sort_slice route_less full).
    assert (s ≡ₚ full) as Hs by apply sort_slice_perm.
    assert (NoDup (map gr_TargetID s)) as Hnds by (by rewrite Hs).
    rewrite <-(take_drop (Z.to_nat h) s), map_app in Hnds. apply NoDup_app in Hnds as (Hnd1 & _ & _).
    split_and!; [done| | |].
    + intros r Hr. apply Hin. rewrite <-Hs. rewrite <-(take_drop (Z.to_nat h) s). set_solver.
    + rewrite length_take, size_costs by done. rewrite Hs. lia.
    + intros Hn r t c Hr Hc Ht.
      assert (less_sorted route_less s) as Hsorted.
      { apply sort_slice_sorted, f64_ltb_strict_weak, Forall_forall. intros q Hq%Hin. by apply Hn in Hq. }
      unfold less_sorted in Hsorted. rewrite <-(take_drop (Z.to_nat h) s) in Hsorted.
      apply StronglySorted_app in Hsorted as (Hcross & _ & _).
      assert (MkGossipRoute t c ∈ s) as Hts by (rewrite Hs; by apply Hin).
      rewrite <-(take_drop (Z.to_nat h) s) in Hts. apply elem_of_app in Hts as [Hts|Hts].
      * destruct Ht. apply list_elem_of_fmap. eexists. split; [|exact Hts]. done.
      * apply (Hcross _ _ Hr Hts).
  - split_and!; [done|by intros r Hr; apply Hin| |].
    + rewrite size_costs by done. lia.
    + intros _ r t c _ Hc Ht. destruct Ht. apply list_elem_of_fmap.
      exists (MkGossipRoute t c). split; [done|]. by apply Hin.
Qed.

Lemma Generate_spec gt imp input b :
  gt_inv gt →
  let '(gt', v) := GradientTable_GenerateGossipBudgeted gt imp input b in
  gt_inv gt' ∧ gt_routes gt' = gt_routes gt ∧
  valid_gossip (costs (gt_routes gt)) (RouteBudget b) (gv_Routes v) ∧
  gv_FromNodeID v = gt_selfID gt ∧ gv_FromImpedance v = imp ∧
  gv_FromCapabilities v = gi_LocalCapabilities input ∧
  gv_NodeCapabilities v
  = capHorizonRanked (gi_KnownCapabilities input) (gt_selfID gt) (gv_Routes v) (RouteBudget b).
Proof.
  intros [Hwf Hc]. pose proof (cut_horizon_valid (gt_routes gt) (RouteBudget b) Hwf (RouteBudget_pos b)) as Hv.
  unfold GradientTable_GenerateGossipBudgeted. cbn zeta.
  set (miss := (MkGradientTable _ _ _ _ _ _ _, _)).
  assert (let '(gt', v) := miss in
    gt_inv gt' ∧ gt_routes gt' = gt_routes gt ∧
    valid_gossip (costs (gt_routes gt)) (RouteBudget b) (gv_Routes v) ∧
    gv_FromNodeID v = gt_selfID gt ∧ gv_FromImpedance v = imp ∧
    gv_FromCapabilities v = gi_LocalCapabilities input ∧
    gv_NodeCapabilities v
    = capHorizonRanked (gi_KnownCapabilities input) (gt_selfID gt) (gv_Routes v) (RouteBudget b)) as Hmiss.
  { unfold miss. split_and!; [split; [done|]|done..]. intros _ cache [= <-]. done. }
  destruct (gt_gossipCache gt) as [cache|] eqn:Hcache; [|exact Hmiss].
  destruct (negb (gt_dirty gt) && _ && _) eqn:Hhit; [|exact Hmiss].
  apply andb_true_iff in Hhit as [[Hd%negb_true_iff _]%andb_true_iff Hb%Z.eqb_eq].
  split; [by split|]. split; [done|]. split; [|done]. cbn [gv_Routes]. rewrite <-Hb. by apply Hc.
Qed.

End gossip.

(** ** Lemmas: removing *)

Lemma keep_paths_wf keep routes : paths_wf routes → paths_wf (omap (keep_paths keep) routes).
Proof.
  intros Hwf t ps. rewrite lookup_omap. destruct (routes !! t) as [l|] eqn:E; [|done]. simpl.
  unfold keep_paths. destruct (filter _ l) as [|p l'] eqn:Hf; [done|]. intros [= <-]. split; [done|].
  rewrite <-Hf. apply Hwf in E as [_ Hnd]. clear -Hnd.
  induction l as [|q l IH]; [constructor|]. apply NoDup_cons in Hnd as [Hq Hnd].
  rewrite filter_cons. case_decide; [|auto]. cbn [map]. apply NoDup_cons. split; [|auto].
  intros (x & Hx1 & [_ Hx2]%list_elem_of_filter)%list_elem_of_fmap. apply Hq.
  apply list_elem_of_fmap. eauto.
Qed.

Lemma dropped_zero keep paths :
  dropped keep paths = O → filter (λ p, keep p = true) paths = paths.
Proof.
  unfold dropped. induction paths as [|p paths IH]; [done|]. rewrite filter_cons.
  pose proof (length_filter (λ p, keep p = true) paths). case_decide; simpl; [|lia].
  intros Hz. f_equal. apply IH. lia.
Qed.

Lemma total_dropped_zero keep routes :
  paths_wf routes → total_dropped keep routes = O → omap (keep_paths keep) routes = routes.
Proof.
  intros Hwf Hz. apply map_eq. intros t. rewrite lookup_omap.
  destruct (routes !! t) as [ps|] eqn:E; [|done]. simpl.
  assert (dropped keep ps = O) as Hd.
  { apply elem_of_map_to_list in E. unfold total_dropped in Hz.
    induction (map_to_list routes) as [|e l IH]; [by apply not_elem_of_nil in E|].
    simpl in Hz. apply elem_of_cons in E as [<-|E]; [simpl in Hz; lia|]. apply IH; [lia|done]. }
  unfold keep_paths. rewrite dropped_zero by done. apply Hwf in E as [Hne _]. by destruct ps.
Qed.

Lemma remove_inv gt keep dirty :
  gt_inv gt →
  (dirty = false → gt_dirty gt = false ∧ total_dropped keep (gt_routes gt) = O) →
  gt_inv (set_routes gt (omap (keep_paths keep) (gt_routes gt)) dirty).
Proof.
  intros [Hwf Hc] Hd. split; [by apply keep_paths_wf|]. intros Hdirty cache Hcache.
  simpl in *. destruct (Hd Hdirty) as [Hd1 Hd2]. rewrite total_dropped_zero by done. by apply Hc.
Qed.

Lemma RemoveNeighbor_inv gt n : gt_inv gt → gt_inv (GradientTable_RemoveNeighbor gt n).
Proof.
  intros Hinv. apply remove_inv; [done|].
  intros [Hd Hm%negb_false_iff%Nat.eqb_eq]%orb_false_iff. done.
Qed.

Lemma PurgeStale_inv now gt a : gt_inv gt → gt_inv (fst (GradientTable_PurgeStale now gt a)).
Proof.
  intros Hinv. unfold GradientTable_PurgeStale. cbn [fst]. apply remove_inv; [done|].
  intros [Hd Hm%Z.ltb_ge]%orb_false_iff. split; [done|]. lia.
Qed.

(** ** Lemmas: histories *)

Lemma UpdateRoute_inv now gt t nh c : gt_inv gt → gt_inv (GradientTable_UpdateRoute now gt t nh c).
Proof. intros [Hwf Hc]. split; [by apply update_wf|by apply update_cache]. Qed.

Lemma ProcessGossip_inv now gt g : gt_inv gt → gt_inv (GradientTable_ProcessGossip now gt g).
Proof.
  unfold GradientTable_ProcessGossip. revert gt.
  induction (gv_Routes g) as [|r rs IH]; intros gt Hgt; simpl; [done|]. apply IH.
  case_decide; [done|]. by apply UpdateRoute_inv.
Qed.

Lemma gt_step_inv `{GoRange} `{GoSort} gt gt' : gt_step gt gt' → gt_inv gt → gt_inv gt'.
Proof.
  intros [] Hinv.
  - by apply UpdateRoute_inv.
  - by apply UpdateRoute_inv.
  - by apply ProcessGossip_inv.
  - pose proof (Generate_spec gt0 imp input b Hinv) as Hg.
    destruct (GradientTable_GenerateGossipBudgeted gt0 imp input b). by destruct Hg.
  - by apply RemoveNeighbor_inv.
  - by apply PurgeStale_inv.
Qed.

Lemma reachable_inv `{GoRange} `{GoSort} self gt : gt_reachable self gt → gt_inv gt.
Proof.
  intros Hr. unfold gt_reachable in Hr. remember (NewGradientTable self) as gt0 eqn:E.
  assert (gt_inv gt0) as Hinv.
  { subst. split; [apply map_Forall_empty|]. by intros _ cache. }
  clear E. induction Hr; eauto using gt_step_inv.
Qed.

(** ** Lemmas: the paths of a table *)

Lemma path_of_nextHop gt t nh p : path_of gt t nh = Some p → pe_nextHop p = nh.
Proof.
  unfold path_of. intros Hp. assert (p ∈ filter (λ p, pe_nextHop p = nh) (default [] (gt_routes gt !! t))) as Hin.
  { destruct (filter _ _); [done|]. injection Hp as ->. left. }
  by apply list_elem_of_filter in Hin as [? _].
Qed.

Lemma UpdateRoute_path now gt t nh c t' nh' :
  path_of (GradientTable_UpdateRoute now gt t nh c) t' nh' =
  if decide (t' = t ∧ nh' = nh)
  then Some (MkPathEntry nh
         (match path_of gt t nh with
          | Some p => if f64_eqb (pe_totalCost p) c then pe_totalCost p else c
          | None => c
          end) now)
  else path_of gt t' nh'.
Proof.
  unfold GradientTable_UpdateRoute. set (paths := default [] (gt_routes gt !! t)).
  destruct (update_path now nh c paths) as [[paths' ch]|] eqn:Hu.
  - apply update_path_Some in Hu as (_ & _ & Hother & p & p' & Hp & Hp' & Hseen & Hcost).
    unfold path_of at 1. cbn [set_routes gt_routes].
    destruct (decide (t' = t)) as [->|Ht].
    + rewrite lookup_insert_eq. cbn [from_option id]. destruct (decide (nh' = nh)) as [->|Hnh].
      * rewrite decide_True by done. change (path_of gt t nh) with (head (filter (λ p, pe_nextHop p = nh) paths)).
        rewrite Hp, <-Hcost, <-Hseen. transitivity (Some p'); [exact Hp'|].
        assert (pe_nextHop p' = nh) as <-; [|by destruct p'].
        assert (p' ∈ filter (λ p, pe_nextHop p = nh) paths') as Hin
          by (destruct (filter _ paths'); [done|]; injection Hp' as ->; left).
        by apply list_elem_of_filter in Hin as [? _].
      * rewrite decide_False by tauto. by rewrite Hother.
    + rewrite decide_False by tauto. by rewrite lookup_insert_ne.
  - apply update_path_None in Hu. unfold path_of. cbn [set_routes gt_routes].
    destruct (decide (t' = t)) as [->|Ht].
    + rewrite lookup_insert_eq. cbn [from_option id]. rewrite filter_app, filter_cons, filter_nil. simpl.
      fold paths. destruct (decide (nh' = nh)) as [->|Hnh].
      * rewrite !decide_True by done.
        rewrite filter_false by (intros x Hx Hxn; apply Hu, list_elem_of_fmap; eauto). done.
      * rewrite !decide_False by naive_solver. by rewrite app_nil_r.
    + rewrite decide_False by tauto. by rewrite lookup_insert_ne.
Qed.

Lemma keep_paths_filter (keep : pathEntry → bool) (routes : gmap gostring (list pathEntry)) (t : gostring) :
  default [] (omap (keep_paths keep) routes !! t)
  = filter (λ p, keep p = true) (default [] (routes !! t)).
Proof.
  rewrite lookup_omap. destruct (routes !! t) as [l|]; [|done]. simpl. unfold keep_paths.
  by destruct (filter _ l).
Qed.

Lemma RemoveNeighbor_path gt n t nh :
  path_of (GradientTable_RemoveNeighbor gt n) t nh = if decide (nh = n) then None else path_of gt t nh.
Proof.
  unfold path_of, GradientTable_RemoveNeighbor. cbn [set_routes gt_routes].
  rewrite keep_paths_filter, list_filter_filter. case_decide as Hn.
  - rewrite filter_false; [done|]. intros p _ [Hp Hk]. apply bool_decide_eq_true in Hk. congruence.
  - f_equal. apply list_filter_iff. intros p. rewrite bool_decide_eq_true. naive_solver.
Qed.

(** With one path per next hop, filtering keeps or drops the path there is. *)
Lemma head_filter_keep (keep : pathEntry → bool) (nh : gostring) (l : list pathEntry) :
  NoDup (map pe_nextHop l) →
  head (filter (λ p, pe_nextHop p = nh) (filter (λ p, keep p = true) l)) =
  (p ← head (filter (λ p, pe_nextHop p = nh) l); if keep p then Some p else None).
Proof.
  induction l as [|p l IH]; cbn [map]; intros Hnd; [done|].
  apply NoDup_cons in Hnd as [Hp Hnd]. rewrite (filter_cons (λ p, keep p = true) p l).
  rewrite (filter_cons (λ p, pe_nextHop p = nh) p l).
  destruct (decide (pe_nextHop p = nh)) as [E|E].
  - assert (filter (λ q, pe_nextHop q = nh) (filter (λ q, keep q = true) l) = []) as Hnil.
    { apply filter_false. intros q [_ Hq]%list_elem_of_filter Hqn. apply Hp.
      apply list_elem_of_fmap. exists q. split; [congruence|done]. }
    destruct (keep p) eqn:Hk; simpl; rewrite ?Hk.
    + by rewrite filter_cons, decide_True.
    + by rewrite Hnil.
  - rewrite <-IH by done. destruct (keep p); simpl; [|done]. by rewrite filter_cons, decide_False.
Qed.

Lemma PurgeStale_path now gt maxAge t nh :
  paths_wf (gt_routes gt) →
  path_of (fst (GradientTable_PurgeStale now gt maxAge)) t nh =
  (p ← path_of gt t nh; if now + i64 (- maxAge) <? pe_lastSeen p then Some p else None).
Proof.
  intros Hwf. unfold path_of, GradientTable_PurgeStale. cbn [fst set_routes gt_routes].
  rewrite keep_paths_filter. apply (head_filter_keep (λ p, now + i64 (- maxAge) <? pe_lastSeen p)).
  destruct (gt_routes gt !! t) as [l|] eqn:E; [|constructor]. by apply (Hwf t).
Qed.

Lemma UpdateRoute_self now gt t nh c : gt_selfID (GradientTable_UpdateRoute now gt t nh c) = gt_selfID gt.
Proof. unfold GradientTable_UpdateRoute. by destruct (update_path _ _ _ _) as [[]|]. Qed.

(** One route of a gossip vector. *)
Lemma ProcessGossip_path now gt g :
  NoDup (map gr_TargetID (gv_Routes g)) →
  let gt' := GradientTable_ProcessGossip now gt g in
  (∀ r, r ∈ gv_Routes g → gr_TargetID r ≠ gt_selfID gt →
     path_of gt' (gr_TargetID r) (gv_FromNodeID g)
     = path_of (GradientTable_UpdateRoute now gt (gr_TargetID r) (gv_FromNodeID g)
                  (f64_add (gr_Cost r) (gv_FromImpedance g))) (gr_TargetID r) (gv_FromNodeID g)) ∧
  (∀ t nh, nh ≠ gv_FromNodeID g ∨ t = gt_selfID gt ∨ t ∉ map gr_TargetID (gv_Routes g) →
     path_of gt' t nh = path_of gt t nh).
Proof.
  unfold GradientTable_ProcessGossip. revert gt.
  induction (gv_Routes g) as [|r rs IH]; intros gt Hnd; simpl; [by split; [intros r Hr%not_elem_of_nil|]|].
  apply NoDup_cons in Hnd as [Hr Hnd].
  set (gt1 := if decide (gr_TargetID r = gt_selfID gt) then gt else _).
  assert (gt_selfID gt1 = gt_selfID gt) as Hself
    by (unfold gt1; case_decide; [done|apply UpdateRoute_self]).
  assert (∀ t nh, nh ≠ gv_FromNodeID g ∨ t = gt_selfID gt ∨ t ≠ gr_TargetID r →
            path_of gt1 t nh = path_of gt t nh) as Hother.
  { intros t nh Ht. unfold gt1. case_decide; [done|]. rewrite UpdateRoute_path.
    rewrite decide_False; [done|]. naive_solver. }
  destruct (IH gt1 Hnd) as [IH1 IH2]. rewrite Hself in *. split.
  - intros r' [->|Hr']%elem_of_cons Hne.
    + rewrite IH2 by auto. unfold gt1. by rewrite decide_False.
    + rewrite IH1 by done. rewrite !UpdateRoute_path, !decide_True by done.
      rewrite Hother; [done|]. right. right. intros E. apply Hr. rewrite <-E.
      apply list_elem_of_fmap. eauto.
  - intros t nh Ht. rewrite not_elem_of_cons in Ht. rewrite IH2 by naive_solver.
    apply Hother. naive_solver.
Qed.

(** ** Lemmas: the capability horizon *)

Lemma drain_ranked_spec caps self budget ranked result :
  result ⊆ caps → result !! self = None → Z.of_nat (size result) ≤ budget →
  let res := drain_ranked caps self budget ranked result in
  res ⊆ caps ∧ res !! self = None ∧ Z.of_nat (size res) ≤ budget ∧
  (∀ k, is_Some (res !! k) → is_Some (result !! k) ∨ k ∈ map gr_TargetID ranked) ∧
  (Z.of_nat (size res) < budget → ∀ k, k ∈ map gr_TargetID ranked → k ≠ self →
     is_Some (caps !! k) → is_Some (res !! k)) ∧
  result ⊆ res.
Proof.
  revert result. induction ranked as [|r ranked IH]; intros result Hsub Hself Hsz; cbn [drain_ranked].
  { split_and!; [done..|auto| |done]. intros _ k Hk. by apply not_elem_of_nil in Hk. }
  destruct (Z.leb_spec budget (Z.of_nat (size result))).
  { split_and!; [done..|auto|lia|done]. }
  assert (∀ result', result ⊆ result' → result' ⊆ caps → result' !! self = None →
     Z.of_nat (size result') ≤ budget →
     (∀ k, is_Some (result' !! k) → is_Some (result !! k) ∨ k = gr_TargetID r) →
     (gr_TargetID r ≠ self → is_Some (caps !! gr_TargetID r) → is_Some (result' !! gr_TargetID r)) →
     let res := drain_ranked caps self budget ranked result' in
     res ⊆ caps ∧ res !! self = None ∧ Z.of_nat (size res) ≤ budget ∧
     (∀ k, is_Some (res !! k) → is_Some (result !! k) ∨ k ∈ map gr_TargetID (r :: ranked)) ∧
     (Z.of_nat (size res) < budget → ∀ k, k ∈ map gr_TargetID (r :: ranked) → k ≠ self →
        is_Some (caps !! k) → is_Some (res !! k)) ∧
     result ⊆ res) as Hstep.
  { intros result' Hs1 Hs2 Hs3 Hs4 Hk Hr. destruct (IH result' Hs2 Hs3 Hs4) as (I1 & I2 & I3 & I4 & I5 & I6).
    split_and!; [done|done|done| | |by etrans].
    - intros k [Hk'|Hk']%I4; [|right; by right]. apply Hk in Hk' as [| ->]; [auto|]. right. left.
    - intros Hlt k [->|Hk']%elem_of_cons Hne Hc; [|auto].
      destruct (Hr Hne Hc) as [x Hx]. exists x. eapply lookup_weaken; eauto. }
  case_decide as Hs.
  { apply Hstep; auto. intros Hne. done. }
  destruct (caps !! gr_TargetID r) as [c|] eqn:Hc.
  2: { apply Hstep; auto. by intros _ []. }
  case_decide as Hin; [by apply Hstep; auto|].
  apply eq_None_not_Some in Hin. apply Hstep.
  - by apply insert_subseteq.
  - by apply insert_subseteq_l.
  - by rewrite lookup_insert_ne.
  - rewrite map_size_insert_None by done. lia.
  - intros k [x Hx]. apply lookup_insert_Some in Hx as [[<- _]|[_ Hx]]; eauto.
  - intros _ _. rewrite lookup_insert_eq. eauto.
Qed.

Lemma fill_slack_spec caps budget remaining result :
  NoDup remaining → (∀ k, k ∈ remaining → is_Some (caps !! k) ∧ result !! k = None) →
  result ⊆ caps → Z.of_nat (size result) ≤ budget →
  let res := fill_slack caps budget remaining result in
  res ⊆ caps ∧ result ⊆ res ∧
  Z.of_nat (size res) = Z.min budget (Z.of_nat (size result + length remaining)) ∧
  (∀ k, is_Some (res !! k) → is_Some (result !! k) ∨ k ∈ remaining).
Proof.
  revert result. induction remaining as [|n remaining IH]; intros result Hnd Hrem Hsub Hsz;
    cbn [fill_slack].
  { split_and!; [done|done|simpl; lia|auto]. }
  destruct (Z.leb_spec budget (Z.of_nat (size result))).
  { split_and!; [done|done|simpl; lia|auto]. }
  apply NoDup_cons in Hnd as [Hn Hnd].
  destruct (Hrem n) as [[c Hc] Hnone]; [left|]. rewrite Hc. cbn [default].
  destruct (IH (<[n:=c]> result)) as (I1 & I2 & I3 & I4).
  - done.
  - intros k Hk. destruct (Hrem k) as [Hk1 Hk2]; [by right|]. split; [done|].
    rewrite lookup_insert_ne; [done|]. by intros ->.
  - by apply insert_subseteq_l.
  - rewrite map_size_insert_None by done. lia.
  - rewrite map_size_insert_None in I3 by done. split_and!; [done| |simpl; lia|].
    + etrans; [|exact I2]. by apply insert_subseteq.
    + intros k [[x Hx]|Hk]%I4; [|right; by right].
      apply lookup_insert_Some in Hx as [[<- _]|[_ Hx]]; [right; left|eauto].
Qed.

Lemma capHorizonRanked_spec `{GoRange} caps self ranked budget :
  let avail := delete self caps in
  let res := default ∅ (capHorizonRanked caps self ranked budget) in
  (capHorizonRanked caps self ranked budget = None ↔ res = ∅) ∧
  res ⊆ avail ∧
  Z.of_nat (size res) = Z.max 0 (Z.min budget (Z.of_nat (size avail))) ∧
  (∀ k j, k ∈ map gr_TargetID ranked → is_Some (avail !! k) → res !! k = None →
          is_Some (res !! j) → j ∈ map gr_TargetID ranked).
Proof.
  intros avail. unfold capHorizonRanked.
  destruct ((Z.of_nat (size caps) =? 0) || (budget <=? 0)) eqn:Hnil.
  { split_and!; [done|apply map_empty_subseteq| |].
    - simpl. rewrite map_size_empty. apply orb_true_iff in Hnil as [Hc%Z.eqb_eq|Hb%Z.leb_le]; [|lia].
      assert (caps = ∅) as E by (apply map_size_empty_inv; lia).
      unfold avail. rewrite E, delete_empty, map_size_empty. lia.
    - intros k j _ _ _ [x Hx]. done. }
  apply orb_false_iff in Hnil as [_ Hb%Z.leb_gt].
  destruct (drain_ranked_spec caps self budget ranked ∅) as (D1 & D2 & D3 & D4 & D5 & _);
    [apply map_empty_subseteq|done|rewrite map_size_empty; lia|].
  set (r1 := drain_ranked caps self budget ranked ∅) in *.
  set (remaining := filter _ _).
  assert (∀ k, k ∈ remaining ↔ is_Some (caps !! k) ∧ k ≠ self ∧ r1 !! k = None) as Hrem.
  { intros k. unfold remaining. rewrite list_elem_of_filter, list_elem_of_fmap.
    setoid_rewrite range_map_perm. rewrite <-eq_None_not_Some. split.
    - intros ([? ?] & [? v] & -> & Hv%elem_of_map_to_list). eauto.
    - intros ([v Hv] & ? & ?). split; [done|]. exists (k, v). split; [done|].
      by apply elem_of_map_to_list. }
  assert (NoDup remaining) as Hnd.
  { apply NoDup_filter. rewrite range_map_perm. apply NoDup_fst_map_to_list. }
  assert (size r1 + length remaining = size avail)%nat as Hcount.
  { rewrite <-(size_list_to_set (C := gset gostring) remaining) by done.
    rewrite <-size_dom, <-(size_dom (D := gset gostring) avail), <-size_union.
    - f_equal. apply set_eq. intros k. rewrite elem_of_union, elem_of_list_to_set, Hrem, !elem_of_dom.
      unfold avail. rewrite lookup_delete_is_Some. split.
      + intros [[x Hx]|(? & ? & ?)]; [|done]. split; [by intros ->; rewrite D2 in Hx|].
        eapply lookup_weaken in Hx; eauto.
      + intros [Hne Hc]. destruct (r1 !! k) eqn:E; [left; eauto|]. right. auto.
    - intros k [x Hx]%elem_of_dom. rewrite elem_of_list_to_set, Hrem. intros (_ & _ & E). congruence. }
  set (res := if Z.of_nat (size r1) <? budget then _ else _).
  assert (res ⊆ caps ∧ res !! self = None ∧
          Z.of_nat (size res) = Z.min budget (Z.of_nat (size avail)) ∧
          (∀ k j, k ∈ map gr_TargetID ranked → is_Some (avail !! k) → res !! k = None →
                  is_Some (res !! j) → j ∈ map gr_TargetID ranked)) as (R1 & R2 & R3 & R4).
  { unfold res. destruct (Z.ltb_spec (Z.of_nat (size r1)) budget) as [Hlt|Hge].
    - destruct (fill_slack_spec caps budget (sort_Strings remaining) r1) as (F1 & F2 & F3 & F4).
      { by rewrite sort_Strings_perm. }
      { intros k. rewrite elem_of_sort_Strings, Hrem. tauto. }
      { done. } { lia. }
      rewrite (Permutation_length (sort_Strings_perm remaining)), Hcount in F3. split_and!; [done| |done|].
      + apply eq_None_not_Some. intros Hs. apply F4 in Hs as [[x Hx]|Hs]; [congruence|].
        apply elem_of_sort_Strings, Hrem in Hs. tauto.
      + intros k j Hk Hav Hno _. apply eq_None_not_Some in Hno. destruct Hno.
        unfold avail in Hav. apply lookup_delete_is_Some in Hav as [Hne Hc].
        destruct (D5 Hlt k Hk (not_eq_sym Hne) Hc) as [x Hx]. exists x. eapply lookup_weaken; eauto.
    - split_and!; [done|done|lia|]. intros k j _ _ _ Hj. apply D4 in Hj as [[x Hx]|]; done. }
  assert (∀ m : caps_map, default ∅ (if Z.of_nat (size m) =? 0 then None else Some m) = m) as Hdef.
  { intros m. destruct (Z.eqb_spec (Z.of_nat (size m)) 0); [|done]. symmetry.
    apply map_size_empty_inv. lia. }
  cbn zeta. rewrite Hdef. split_and!.
  - destruct (Z.eqb_spec (Z.of_nat (size res)) 0) as [Hz|Hz].
    + split; [intros _; apply map_size_empty_inv; lia|done].
    + split; [done|]. intros E. rewrite E, map_size_empty in Hz. done.
  - apply map_subseteq_spec. intros k x Hx. unfold avail. rewrite lookup_delete_Some.
    split; [by intros ->; congruence|]. eapply lookup_weaken; eauto.
  - lia.
  - done.
Qed.

(** ** Properties *)

(** C3: in every state any sequence of calls can reach, the vector
    [GenerateGossipBudgeted] returns, from the cache or not, carries the current
    best routes: each target once at its current best cost, as many as the
    budget allows, and (no cost being NaN) none dearer than one left out; the
    table's routes are unchanged. *)
Theorem gossip_always_current `{GoRange} `{GoSort} self gt imp input b :
  gt_reachable self gt →
  let '(gt', v) := GradientTable_GenerateGossipBudgeted gt imp input b in
  gt_routes gt' = gt_routes gt ∧
  valid_gossip (costs (gt_routes gt)) (RouteBudget b) (gv_Routes v) ∧
  gv_NodeCapabilities v
  = capHorizonRanked (gi_KnownCapabilities input) (gt_selfID gt) (gv_Routes v) (RouteBudget b).
Proof.
  intros Hr%reachable_inv. pose proof (Generate_spec gt imp input b Hr) as Hg.
  destruct (GradientTable_GenerateGossipBudgeted gt imp input b).
  destruct Hg as (_ & ? & ? & _ & _ & _ & ?). done.
Qed.

(** C13: in every reachable state a target holds at most one path per next hop,
    and the mutators act on the paths as on a map from (target, next hop):
    [UpdateRoute] sets one path's cost and age, [RemoveNeighbor] drops exactly
    the paths through the neighbour, [PurgeStale] exactly those last seen at or
    before the cutoff. *)
Theorem table_refines_path_map `{GoRange} `{GoSort} self gt t nh :
  gt_reachable self gt →
  (∀ paths, gt_routes gt !! t = Some paths → paths ≠ [] ∧ NoDup (map pe_nextHop paths)) ∧
  (∀ now t' nh' c, path_of (GradientTable_UpdateRoute now gt t' nh' c) t nh =
     if decide (t = t' ∧ nh = nh')
     then Some (MkPathEntry nh'
            (match path_of gt t' nh' with
             | Some p => if f64_eqb (pe_totalCost p) c then pe_totalCost p else c
             | None => c
             end) now)
     else path_of gt t nh) ∧
  (∀ n, path_of (GradientTable_RemoveNeighbor gt n) t nh
        = if decide (nh = n) then None else path_of gt t nh) ∧
  (∀ now maxAge, path_of (fst (GradientTable_PurgeStale now gt maxAge)) t nh
     = (p ← path_of gt t nh; if now + i64 (- maxAge) <? pe_lastSeen p then Some p else None)).
Proof.
  intros [Hwf _]%reachable_inv. split_and!.
  - intros paths. apply Hwf.
  - intros. apply UpdateRoute_path.
  - intros. apply RemoveNeighbor_path.
  - intros. by apply PurgeStale_path.
Qed.

(** [BestRoute] returns a path of the target, and when no cost is NaN no
    path of the target is cheaper; it finds none only for a target without
    paths. [AllRoutes] is [BestRoute] on every target. *)
Theorem BestRoute_cheapest gt t :
  (GradientTable_BestRoute gt t = None ↔ default [] (gt_routes gt !! t) = []) ∧
  (∀ pc, GradientTable_BestRoute gt t = Some pc →
     ∃ p, p ∈ default [] (gt_routes gt !! t) ∧ pc = MkPathCost (pe_nextHop p) (pe_totalCost p) ∧
       (Forall (λ q, is_nan (pe_totalCost q) = false) (default [] (gt_routes gt !! t)) →
        ∀ q, q ∈ default [] (gt_routes gt !! t) → f64_ltb (pe_totalCost q) (pc_TotalCost pc) = false)) ∧
  GradientTable_AllRoutes gt !! t = GradientTable_BestRoute gt t.
Proof.
  unfold GradientTable_BestRoute, GradientTable_AllRoutes. rewrite lookup_omap.
  destruct (gt_routes gt !! t) as [[|p ps]|]; simpl; split_and!; try done.
  intros pc [= <-]. exists (best_path p ps). split; [apply best_path_elem|]. split; [done|].
  intros Hn q Hq. by apply best_path_least.
Qed.

(** A gossip vector that names each target once sets, for each of its
    targets other than the receiver, the path through the sender to the sum of
    the advertised cost and the sender's impedance, and changes no other path:
    in particular it never gives the receiver a route to itself. *)
Theorem ProcessGossip_adds_impedance now gt g :
  NoDup (map gr_TargetID (gv_Routes g)) →
  let gt' := GradientTable_ProcessGossip now gt g in
  (∀ r, r ∈ gv_Routes g → gr_TargetID r ≠ gt_selfID gt →
     path_of gt' (gr_TargetID r) (gv_FromNodeID g)
     = path_of (GradientTable_UpdateRoute now gt (gr_TargetID r) (gv_FromNodeID g)
                  (f64_add (gr_Cost r) (gv_FromImpedance g))) (gr_TargetID r) (gv_FromNodeID g)) ∧
  (∀ t nh, nh ≠ gv_FromNodeID g ∨ t = gt_selfID gt ∨ t ∉ map gr_TargetID (gv_Routes g) →
     path_of gt' t nh = path_of gt t nh).
Proof. apply ProcessGossip_path. Qed.

(** the capabilities of a gossip vector are a subset of the known ones,
    never the sender's own, as many as the budget allows; a ranked node is left
    out only when every node chosen is a ranked one; and the choice does not
    depend on the order maps are enumerated in. *)
Theorem capHorizonRanked_bounded (R1 R2 : GoRange) caps self ranked budget :
  let avail := delete self caps in
  let res := default ∅ (@capHorizonRanked R1 caps self ranked budget) in
  (@capHorizonRanked R1 caps self ranked budget = None ↔ res = ∅) ∧
  res ⊆ avail ∧
  Z.of_nat (size res) = Z.max 0 (Z.min budget (Z.of_nat (size avail))) ∧
  (∀ k j, k ∈ map gr_TargetID ranked → is_Some (avail !! k) → res !! k = None →
          is_Some (res !! j) → j ∈ map gr_TargetID ranked) ∧
  @capHorizonRanked R1 caps self ranked budget = @capHorizonRanked R2 caps self ranked budget.
Proof.
  destruct (@capHorizonRanked_spec R1 caps self ranked budget) as (? & ? & ? & ?).
  split_and!; [done..|]. unfold capHorizonRanked. destruct (_ || _); [done|]. cbn zeta.
  set (r1 := drain_ranked caps self budget ranked ∅).
  assert (∀ P : gostring → Prop, ∀ dec : ∀ k, Decision (P k),
    sort_Strings (filter P (map fst (@range_map R1 _ caps)))
    = sort_Strings (filter P (map fst (@range_map R2 _ caps)))) as E.
  { intros P dec. apply sort_Strings_Proper. by rewrite !range_map_perm. }
  by rewrite E.
Qed.

(** The number of routes of a gossip frame is at least one, and whenever
    the budget can hold one route the routes and the fixed part fit in it. *)
Theorem RouteBudget_fits b :
  MinInt64 + gossipOverheadEstimate ≤ b ≤ MaxInt64 →
  1 ≤ RouteBudget b ∧
  (gossipOverheadEstimate + avgRouteOnWire ≤ b →
   gossipOverheadEstimate + RouteBudget b * avgRouteOnWire ≤ b
   < gossipOverheadEstimate + (RouteBudget b + 1) * avgRouteOnWire).
Proof.
  intros Hb. split; [apply RouteBudget_pos|]. unfold RouteBudget, gossipOverheadEstimate, avgRouteOnWire in *.
  intros Hfit. rewrite i64_id by i64_lia. destruct (Z.ltb_spec (b - 128) 40); [lia|].
  rewrite Z.quot_div_nonneg by lia. pose proof (Z.div_mod (b - 128) 40).
  pose proof (Z.mod_pos_bound (b - 128) 40). lia.
Qed.

(** ** Witnesses *)

Definition gossip_ab : GossipVector :=
  MkGossipVector (go "b") (f64_of_Z 2)
    [MkGossipRoute (go "c") (f64_of_Z 5); MkGossipRoute (go "a") (f64_of_Z 1)] [] None.

(** Node a hears from its neighbour b about c. *)
Definition table_a : GradientTable :=
  GradientTable_ProcessGossip 10
    (GradientTable_AddDirectNeighbor 7 (NewGradientTable (go "a")) (go "b") (f64_of_Z 2)) gossip_ab.

Lemma table_a_reachable : @gt_reachable list_range insertion_GoSort (go "a") table_a.
Proof.
  unfold gt_reachable, table_a. eapply rtc_l; [apply step_AddDirectNeighbor|].
  apply rtc_once, step_ProcessGossip.
Qed.

Definition no_input : GossipInput := MkGossipInput [] ∅.

Lemma gossip_always_current_witness :
  gv_Routes (snd (@GradientTable_GenerateGossipBudgeted list_range insertion_GoSort table_a
                    (f64_of_Z 1) no_input 200))
  = [MkGossipRoute (go "b") (f64_of_Z 2)] ∧
  valid_gossip (costs (gt_routes table_a)) (RouteBudget 200)
    (gv_Routes (snd (@GradientTable_GenerateGossipBudgeted list_range insertion_GoSort table_a
                       (f64_of_Z 1) no_input 200))).
Proof.
  split; [vm_compute; reflexivity|].
  pose proof (@gossip_always_current list_range insertion_GoSort (go "a") table_a (f64_of_Z 1)
    no_input 200 table_a_reachable) as H.
  destruct (@GradientTable_GenerateGossipBudgeted list_range insertion_GoSort table_a
    (f64_of_Z 1) no_input 200) as [gt' v]. destruct H as (_ & H & _). exact H.
Defined.

Lemma table_refines_path_map_witness :
  path_of table_a (go "c") (go "b") = Some (MkPathEntry (go "b") (f64_of_Z 7) 10) ∧
  path_of (GradientTable_RemoveNeighbor table_a (go "b")) (go "c") (go "b") = None.
Proof.
  split; [vm_compute; reflexivity|].
  destruct (@table_refines_path_map list_range insertion_GoSort (go "a") table_a (go "c") (go "b")
    table_a_reachable) as (_ & _ & H & _).
  rewrite H. reflexivity.
Defined.

Lemma BestRoute_cheapest_witness :
  GradientTable_BestRoute table_a (go "c") = Some (MkPathCost (go "b") (f64_of_Z 7)) ∧
  (GradientTable_BestRoute table_a (go "x") = None ↔ default [] (gt_routes table_a !! go "x") = []).
Proof.
  split; [vm_compute; reflexivity|]. apply (BestRoute_cheapest table_a (go "x")).
Defined.

Lemma ProcessGossip_adds_impedance_witness :
  path_of (GradientTable_ProcessGossip 10 (NewGradientTable (go "a")) gossip_ab) (go "c") (go "b")
  = Some (MkPathEntry (go "b") (f64_of_Z 7) 10).
Proof.
  destruct (ProcessGossip_adds_impedance 10 (NewGradientTable (go "a")) gossip_ab) as [H _].
  - by_decide.
  - etransitivity; [apply (H (MkGossipRoute (go "c") (f64_of_Z 5))); [left|discriminate]|].
    vm_compute. reflexivity.
Defined.

Lemma RouteBudget_fits_witness : RouteBudget DefaultGossipFrameBudget = 816 ∧ 1 ≤ RouteBudget 0.
Proof.
  split; [reflexivity|]. apply (RouteBudget_fits 0). vm_compute. split; discriminate.
Defined.
