(* ===== verification/CapIndex.v ===== *)
(** * The capability index: pkg/mesh/routing/capability_index.go

    Three indexes over the same facts: capabilities of a node, nodes of a
    capability, and the same by namespace; plus the impedance and the age of each
    node. Every method holds the lock for its whole body. The invariant says the
    indexes agree; under it each method acts on the nodes as on one finite map. *)

From Stdlib Require Import Ascii.
From stdpp Require Import base numbers gmap strings sorting list.
From S2P Require Import Prelude GoStrings GoFloat.

Open Scope Z_scope.

(** ** Data *)

Record NodeCapEntry := MkNodeCapEntry { nce_NodeID : gostring; nce_Impedance : float64 }.

Record IngestLimits := MkIngestLimits {
  MaxCapabilityLength : Z;
  MaxCapabilitiesPerNode : Z
}.

Definition DefaultMaxCapabilityLength : Z := 256.
Definition DefaultMaxCapabilitiesPerNode : Z := 256.

Abbreviation node_map := (gmap gostring float64).
Abbreviation cap_map := (gmap gostring node_map).

Record CapabilityIndex := MkCapabilityIndex {
  ci_byCap : cap_map;
  ci_byNs : gmap gostring cap_map;
  ci_byNode : gmap gostring (list gostring);
  ci_impedances : gmap gostring float64;
  ci_lastSeen : gmap gostring Z;
  ci_limits : IngestLimits
}.

Definition NewCapabilityIndex : CapabilityIndex :=
  MkCapabilityIndex ∅ ∅ ∅ ∅ ∅ (MkIngestLimits 0 0).

Definition CapabilityIndex_SetLimits (ci : CapabilityIndex) (l : IngestLimits) : CapabilityIndex :=
  MkCapabilityIndex (ci_byCap ci) (ci_byNs ci) (ci_byNode ci) (ci_impedances ci) (ci_lastSeen ci) l.

Definition effectiveLimits (ci : CapabilityIndex) : IngestLimits :=
  let l := ci_limits ci in
  MkIngestLimits
    (if MaxCapabilityLength l <=? 0 then DefaultMaxCapabilityLength else MaxCapabilityLength l)
    (if MaxCapabilitiesPerNode l <=? 0 then DefaultMaxCapabilitiesPerNode
     else MaxCapabilitiesPerNode l).

(** ** Namespaces *)

Definition capNamespace (cap : gostring) : gostring :=
  match strings_IndexByte cap ":" with Some i => take i cap | None => [] end.

Definition extractNamespacePrefix (prefix : gostring) : option gostring :=
  match strings_IndexByte prefix ":" with Some i => Some (take i prefix) | None => None end.

(** ** One entry of the forward and namespace indexes *)

(** [if nodes, ok := byCap[c]; ok { nodes[nodeID] = impedance }] *)
Definition touch_cap (m : cap_map) (c nodeID : gostring) (impedance : float64) : cap_map :=
  match m !! c with
  | Some nodes => <[c := <[nodeID := impedance]> nodes]> m
  | None => m
  end.

Definition touch_ns (m : gmap gostring cap_map) (c nodeID : gostring) (impedance : float64)
    : gmap gostring cap_map :=
  match m !! capNamespace c with
  | Some nsBucket => <[capNamespace c := touch_cap nsBucket c nodeID impedance]> m
  | None => m
  end.

(** The same with the inner maps created when they are missing. *)
Definition put_cap (m : cap_map) (c nodeID : gostring) (impedance : float64) : cap_map :=
  <[c := <[nodeID := impedance]> (default ∅ (m !! c))]> m.

Definition put_ns (m : gmap gostring cap_map) (c nodeID : gostring) (impedance : float64)
    : gmap gostring cap_map :=
  <[capNamespace c := put_cap (default ∅ (m !! capNamespace c)) c nodeID impedance]> m.

(** Removal, with the inner maps deleted when they become empty. *)
Definition drop_cap (m : cap_map) (c nodeID : gostring) : cap_map :=
  match m !! c with
  | Some nodes =>
      let nodes := delete nodeID nodes in
      if decide (nodes = ∅) then delete c m else <[c := nodes]> m
  | None => m
  end.

Definition drop_ns (m : gmap gostring cap_map) (c nodeID : gostring) : gmap gostring cap_map :=
  match m !! capNamespace c with
  | Some nsBucket =>
      let nsBucket := drop_cap nsBucket c nodeID in
      if decide (nsBucket = ∅) then delete (capNamespace c) m
      else <[capNamespace c := nsBucket]> m
  | None => m
  end.

(** ** Operations *)

(** The loop over a node's capabilities that sets its impedance everywhere. *)
Definition touch_all (ci : CapabilityIndex) (nodeID : gostring) (impedance : float64)
    (caps : list gostring) : CapabilityIndex :=
  MkCapabilityIndex
    (fold_left (λ m c, touch_cap m c nodeID impedance) caps (ci_byCap ci))
    (fold_left (λ m c, touch_ns m c nodeID impedance) caps (ci_byNs ci))
    (ci_byNode ci) (<[nodeID := impedance]> (ci_impedances ci)) (ci_lastSeen ci) (ci_limits ci).

Definition set_lastSeen (ci : CapabilityIndex) (nodeID : gostring) (now : Z) : CapabilityIndex :=
  MkCapabilityIndex (ci_byCap ci) (ci_byNs ci) (ci_byNode ci) (ci_impedances ci)
    (<[nodeID := now]> (ci_lastSeen ci)) (ci_limits ci).

Definition purgeNodeLocked (ci : CapabilityIndex) (nodeID : gostring) : CapabilityIndex :=
  match ci_byNode ci !! nodeID with
  | None => ci
  | Some caps =>
      MkCapabilityIndex
        (fold_left (λ m c, drop_cap m c nodeID) caps (ci_byCap ci))
        (fold_left (λ m c, drop_ns m c nodeID) caps (ci_byNs ci))
        (delete nodeID (ci_byNode ci)) (delete nodeID (ci_impedances ci))
        (delete nodeID (ci_lastSeen ci)) (ci_limits ci)
  end.

(** The capabilities the three loops of [Update] accept: not too long, and the
    first [room] of those. *)
Fixpoint accept_caps (maxLen : Z) (room : nat) (caps : list gostring) : list gostring :=
  match room, caps with
  | O, _ | _, [] => []
  | S room', c :: caps =>
      if maxLen <? Z.of_nat (length c) then accept_caps maxLen room caps
      else c :: accept_caps maxLen room' caps
  end.

(** The comparison loop of the fast path, [existing] from [idx] on. *)
Fixpoint same_caps (maxLen : Z) (room : nat) (existing caps : list gostring) : bool :=
  match room, caps with
  | O, _ | _, [] => true
  | S room', c :: caps =>
      if maxLen <? Z.of_nat (length c) then same_caps maxLen room existing caps
      else match existing with
           | e :: existing => if decide (e = c) then same_caps maxLen room' existing caps else false
           | [] => false
           end
  end.

Definition CapabilityIndex_Update (now : Z) (ci : CapabilityIndex) (nodeID : gostring)
    (impedance : float64) (caps : list gostring) : CapabilityIndex :=
  let limits := effectiveLimits ci in
  let maxLen := MaxCapabilityLength limits in
  let room := Z.to_nat (MaxCapabilitiesPerNode limits) in
  let slow :=
    let ci := purgeNodeLocked ci nodeID in
    let capsCopy := accept_caps maxLen room caps in
    MkCapabilityIndex
      (fold_left (λ m c, put_cap m c nodeID impedance) capsCopy (ci_byCap ci))
      (fold_left (λ m c, put_ns m c nodeID impedance) capsCopy (ci_byNs ci))
      (<[nodeID := capsCopy]> (ci_byNode ci)) (<[nodeID := impedance]> (ci_impedances ci))
      (<[nodeID := now]> (ci_lastSeen ci)) (ci_limits ci) in
  match ci_byNode ci !! nodeID with
  | Some existing =>
      if (length existing =? length (accept_caps maxLen room caps))%nat
         && same_caps maxLen room existing caps
      then set_lastSeen (touch_all ci nodeID impedance existing) nodeID now
      else slow
  | None => slow
  end.

Definition CapabilityIndex_Refresh (now : Z) (ci : CapabilityIndex) (nodeID : gostring)
    (impedance : float64) : CapabilityIndex :=
  match ci_byNode ci !! nodeID with
  | None => ci
  | Some caps => set_lastSeen (touch_all ci nodeID impedance caps) nodeID now
  end.

Definition CapabilityIndex_UpdateImpedance (ci : CapabilityIndex) (nodeID : gostring)
    (impedance : float64) : CapabilityIndex :=
  match ci_byNode ci !! nodeID with
  | None => ci
  | Some caps => touch_all ci nodeID impedance caps
  end.

Definition CapabilityIndex_BackdateForTest (ci : CapabilityIndex) (nodeID : gostring) (t : Z)
    : CapabilityIndex :=
  match ci_byNode ci !! nodeID with
  | Some _ => set_lastSeen ci nodeID t
  | None => ci
  end.

Definition CapabilityIndex_PurgeNode (ci : CapabilityIndex) (nodeID : gostring) : CapabilityIndex :=
  purgeNodeLocked ci nodeID.

Definition CapabilityIndex_Snapshot (ci : CapabilityIndex) : gmap gostring (list gostring) :=
  ci_byNode ci.

Definition CapabilityIndex_Count (ci : CapabilityIndex) : Z := Z.of_nat (size (ci_byNode ci)).

Section runtime.
Context `{GoRange} `{GoSort}.

Definition CapabilityIndex_PurgeStale (now : Z) (ci : CapabilityIndex) (maxAge : Z)
    : CapabilityIndex * Z :=
  let cutoff := now + i64 (- maxAge) in
  let stale := map fst (filter (λ e, (cutoff <? e.2) = false) (range_map (ci_lastSeen ci))) in
  (fold_left purgeNodeLocked stale ci, Z.of_nat (length stale)).

Definition cap_entry_less (a b : NodeCapEntry) : bool := f64_ltb (nce_Impedance a) (nce_Impedance b).

(** The entries of a node map, sorted by impedance. *)
Definition sorted_node_entries (nodes : node_map) : list NodeCapEntry :=
  sort_slice cap_entry_less (map (λ e, MkNodeCapEntry e.1 e.2) (range_map nodes)).

Definition CapabilityIndex_Lookup (ci : CapabilityIndex) (capability : gostring) : list NodeCapEntry :=
  match ci_byCap ci !! capability with
  | None => []
  | Some nodes => sorted_node_entries nodes
  end.

(** [if existing, ok := seen[nodeID]; !ok || impedance < existing] *)
Definition see (seen : node_map) (e : gostring * float64) : node_map :=
  match seen !! e.1 with
  | Some existing => if f64_ltb e.2 existing then <[e.1 := e.2]> seen else seen
  | None => <[e.1 := e.2]> seen
  end.

(** The scan of a capability map for a prefix. *)
Definition scan_prefix (prefix : gostring) (m : cap_map) : node_map :=
  fold_left (λ seen '(cap, nodes),
      if strings_HasPrefix cap prefix then fold_left see (range_map nodes) seen else seen)
    (range_map m) ∅.

Definition CapabilityIndex_LookupWildcard (ci : CapabilityIndex) (prefix : gostring)
    : list NodeCapEntry :=
  let seen :=
    match extractNamespacePrefix prefix with
    | Some ns => match ci_byNs ci !! ns with Some nsBucket => scan_prefix prefix nsBucket | None => ∅ end
    | None => scan_prefix prefix (ci_byCap ci)
    end in
  sorted_node_entries seen.

End runtime.

(** ** Specification *)

Definition in_cap (m : cap_map) (c n : gostring) : option float64 := nodes ← m !! c; nodes !! n.

Definition in_ns (m : gmap gostring cap_map) (ns c n : gostring) : option float64 :=
  bucket ← m !! ns; in_cap bucket c n.

(** What the index knows of a node. *)
Definition view (ci : CapabilityIndex) (n : gostring) : option (list gostring * float64 * Z) :=
  caps ← ci_byNode ci !! n; imp ← ci_impedances ci !! n; ts ← ci_lastSeen ci !! n;
  Some (caps, imp, ts).

(** The impedance of [n] when it offers [c]. *)
Definition offer (ci : CapabilityIndex) (c n : gostring) : option float64 :=
  '(caps, imp, _) ← view ci n; if decide (c ∈ caps) then Some imp else None.

Definition no_empty {A} (m : gmap gostring (gmap gostring A)) : Prop := map_Forall (λ _ b, b ≠ ∅) m.

(** The three indexes hold the same facts, and no empty map is kept. *)
Record ci_inv (ci : CapabilityIndex) : Prop := {
  inv_imp : ∀ n, is_Some (ci_byNode ci !! n) ↔ is_Some (ci_impedances ci !! n);
  inv_seen : ∀ n, is_Some (ci_byNode ci !! n) ↔ is_Some (ci_lastSeen ci !! n);
  inv_cap : ∀ c n, in_cap (ci_byCap ci) c n = offer ci c n;
  inv_ns : ∀ ns c n, in_ns (ci_byNs ci) ns c n
                     = if decide (ns = capNamespace c) then offer ci c n else None;
  inv_cap_ne : no_empty (ci_byCap ci);
  inv_ns_ne : no_empty (ci_byNs ci) ∧ map_Forall (λ _ b, no_empty b) (ci_byNs ci)
}.

(** ** Lemmas: single entries *)

Ltac in_cap_cases c c' :=
  unfold in_cap; destruct (decide (c' = c)) as [->|];
  [rewrite ?lookup_insert_eq, ?lookup_delete_eq | rewrite ?lookup_insert_ne, ?lookup_delete_ne by done].

Lemma in_cap_put m c n i c' n' :
  in_cap (put_cap m c n i) c' n' = if decide (c' = c ∧ n' = n) then Some i else in_cap m c' n'.
Proof.
  unfold put_cap. in_cap_cases c c'; [|by rewrite decide_False by tauto]. simpl.
  destruct (decide (n' = n)) as [->|].
  - by rewrite lookup_insert_eq, decide_True.
  - rewrite lookup_insert_ne, decide_False by naive_solver. destruct (m !! c); simpl; [done|].
    apply lookup_empty.
Qed.

Lemma in_cap_touch m c n i c' n' :
  is_Some (m !! c) →
  in_cap (touch_cap m c n i) c' n' = if decide (c' = c ∧ n' = n) then Some i else in_cap m c' n'.
Proof.
  intros [nodes E]. rewrite <-in_cap_put. unfold touch_cap, put_cap. by rewrite E.
Qed.

Lemma in_cap_drop m c n c' n' :
  in_cap (drop_cap m c n) c' n' = if decide (c' = c ∧ n' = n) then None else in_cap m c' n'.
Proof.
  unfold drop_cap. destruct (m !! c) as [nodes|] eqn:E.
  - assert (in_cap (<[c:=delete n nodes]> m) c' n'
            = if decide (c' = c ∧ n' = n) then None else in_cap m c' n') as H.
    { in_cap_cases c c'; [|by rewrite decide_False by tauto]. rewrite E. simpl.
      destruct (decide (n' = n)) as [->|]; [by rewrite lookup_delete_eq, decide_True|].
      by rewrite lookup_delete_ne, decide_False by naive_solver. }
    destruct (decide (delete n nodes = ∅)) as [He|]; [|exact H]. rewrite <-H, He.
    in_cap_cases c c'; [|done]. simpl. by rewrite lookup_empty.
  - case_decide as Hd; [|done]. destruct Hd as [-> ->]. unfold in_cap. by rewrite E.
Qed.

Lemma touch_cap_is_Some m c n i c' : is_Some (touch_cap m c n i !! c') ↔ is_Some (m !! c').
Proof.
  unfold touch_cap. destruct (m !! c) eqn:E; [|done]. rewrite lookup_insert_is_Some'.
  split; [intros [<-|]|]; eauto.
Qed.

Lemma put_cap_no_empty m c n i : no_empty m → no_empty (put_cap m c n i).
Proof. intros Hm. apply map_Forall_insert_2; [apply insert_non_empty|done]. Qed.

Lemma put_cap_ne m c n i : put_cap m c n i ≠ ∅.
Proof. apply insert_non_empty. Qed.

Lemma touch_cap_no_empty m c n i : no_empty m → no_empty (touch_cap m c n i).
Proof.
  intros Hm. unfold touch_cap. destruct (m !! c); [|done].
  apply map_Forall_insert_2; [apply insert_non_empty|done].
Qed.

Lemma drop_cap_no_empty m c n : no_empty m → no_empty (drop_cap m c n).
Proof.
  intros Hm. unfold drop_cap. destruct (m !! c); [|done].
  case_decide; [by apply map_Forall_delete|by apply map_Forall_insert_2].
Qed.

(** The namespace index, entry by entry, is the forward index. *)
Lemma in_ns_put m c n i ns c' n' :
  in_ns (put_ns m c n i) ns c' n'
  = if decide (ns = capNamespace c ∧ c' = c ∧ n' = n) then Some i else in_ns m ns c' n'.
Proof.
  unfold in_ns, put_ns. destruct (decide (ns = capNamespace c)) as [->|].
  - rewrite lookup_insert_eq. simpl. rewrite in_cap_put.
    destruct (decide (c' = c ∧ n' = n)); [by rewrite decide_True|]. rewrite decide_False by tauto.
    destruct (m !! capNamespace c); simpl; [done|]. unfold in_cap. by rewrite lookup_empty.
  - by rewrite lookup_insert_ne, decide_False by (congruence || tauto).
Qed.

Lemma in_ns_touch m c n i ns c' n' :
  is_Some (in_ns m (capNamespace c) c n) →
  in_ns (touch_ns m c n i) ns c' n'
  = if decide (ns = capNamespace c ∧ c' = c ∧ n' = n) then Some i else in_ns m ns c' n'.
Proof.
  intros [x Hx]. unfold in_ns in Hx. rewrite <-in_ns_put. unfold in_ns, touch_ns, put_ns.
  destruct (m !! capNamespace c) as [bucket|] eqn:E; [|done]. simpl in *.
  unfold touch_cap, put_cap. unfold in_cap in Hx. by destruct (bucket !! c).
Qed.

Lemma in_ns_drop m c n ns c' n' :
  in_ns (drop_ns m c n) ns c' n'
  = if decide (ns = capNamespace c ∧ c' = c ∧ n' = n) then None else in_ns m ns c' n'.
Proof.
  unfold in_ns, drop_ns. destruct (m !! capNamespace c) as [bucket|] eqn:E.
  - assert ((b ← <[capNamespace c:=drop_cap bucket c n]> m !! ns; in_cap b c' n')
            = if decide (ns = capNamespace c ∧ c' = c ∧ n' = n) then None
              else b ← m !! ns; in_cap b c' n') as H.
    { destruct (decide (ns = capNamespace c)) as [->|];
        [|by rewrite lookup_insert_ne, decide_False by (congruence || tauto)].
      rewrite lookup_insert_eq, E. simpl. rewrite in_cap_drop.
      destruct (decide (c' = c ∧ n' = n)); [by rewrite decide_True|]. by rewrite decide_False by tauto. }
    destruct (decide (drop_cap bucket c n = ∅)) as [He|]; [|exact H]. rewrite <-H, He.
    destruct (decide (ns = capNamespace c)) as [->|].
    + rewrite lookup_delete_eq, lookup_insert_eq. simpl. unfold in_cap. by rewrite lookup_empty.
    + by rewrite lookup_delete_ne, lookup_insert_ne.
  - case_decide as Hd; [|done]. destruct Hd as (-> & _ & _). by rewrite E.
Qed.

Definition ns_ne (m : gmap gostring cap_map) : Prop := no_empty m ∧ map_Forall (λ _ b, no_empty b) m.

Lemma put_ns_ne m c n i : ns_ne m → ns_ne (put_ns m c n i).
Proof.
  intros [H1 H2]. split; apply map_Forall_insert_2; try done; [apply put_cap_ne|].
  apply put_cap_no_empty. destruct (m !! capNamespace c) eqn:E; [by eapply H2|apply map_Forall_empty].
Qed.

Lemma touch_ns_ne m c n i : ns_ne m → ns_ne (touch_ns m c n i).
Proof.
  intros [H1 H2]. unfold touch_ns. destruct (m !! capNamespace c) as [b|] eqn:E; [|done].
  split; apply map_Forall_insert_2; try done.
  - unfold touch_cap. destruct (b !! c); [apply insert_non_empty|by apply (H1 _ _ E)].
  - apply touch_cap_no_empty. by apply (H2 _ _ E).
Qed.

Lemma drop_ns_ne m c n : ns_ne m → ns_ne (drop_ns m c n).
Proof.
  intros [H1 H2]. unfold drop_ns. destruct (m !! capNamespace c) as [b|] eqn:E; [|done].
  case_decide; [by split; apply map_Forall_delete|].
  split; apply map_Forall_insert_2; try done. apply drop_cap_no_empty. by apply (H2 _ _ E).
Qed.

(** ** Lemmas: loops over a node's capabilities *)

Section loops.
Context (n : gostring) (i : float64).

Lemma in_cap_put_all caps m c' n' :
  in_cap (fold_left (λ m c, put_cap m c n i) caps m) c' n'
  = if decide (c' ∈ caps ∧ n' = n) then Some i else in_cap m c' n'.
Proof.
  revert m. induction caps as [|c caps IH]; intros m; cbn [fold_left].
  - by rewrite decide_False by set_solver.
  - rewrite IH, in_cap_put. repeat case_decide; rewrite ?elem_of_cons in *; naive_solver.
Qed.

Lemma in_cap_touch_all caps m c' n' :
  (∀ c, c ∈ caps → is_Some (m !! c)) →
  in_cap (fold_left (λ m c, touch_cap m c n i) caps m) c' n'
  = if decide (c' ∈ caps ∧ n' = n) then Some i else in_cap m c' n'.
Proof.
  revert m. induction caps as [|c caps IH]; intros m Hm; cbn [fold_left].
  - by rewrite decide_False by set_solver.
  - rewrite IH, in_cap_touch.
    + repeat case_decide; rewrite ?elem_of_cons in *; naive_solver.
    + apply Hm. left.
    + intros c1 Hc1. apply touch_cap_is_Some, Hm. by right.
Qed.

Lemma in_cap_drop_all caps m c' n' :
  in_cap (fold_left (λ m c, drop_cap m c n) caps m) c' n'
  = if decide (c' ∈ caps ∧ n' = n) then None else in_cap m c' n'.
Proof.
  revert m. induction caps as [|c caps IH]; intros m; cbn [fold_left].
  - by rewrite decide_False by set_solver.
  - rewrite IH, in_cap_drop. repeat case_decide; rewrite ?elem_of_cons in *; naive_solver.
Qed.

Lemma in_ns_put_all caps m ns c' n' :
  in_ns (fold_left (λ m c, put_ns m c n i) caps m) ns c' n'
  = if decide (ns = capNamespace c' ∧ c' ∈ caps ∧ n' = n) then Some i else in_ns m ns c' n'.
Proof.
  revert m. induction caps as [|c caps IH]; intros m; cbn [fold_left].
  - by rewrite decide_False by set_solver.
  - rewrite IH, in_ns_put. repeat case_decide; rewrite ?elem_of_cons in *; naive_solver.
Qed.

Lemma in_ns_touch_all caps m ns c' n' :
  (∀ c, c ∈ caps → is_Some (in_ns m (capNamespace c) c n)) →
  in_ns (fold_left (λ m c, touch_ns m c n i) caps m) ns c' n'
  = if decide (ns = capNamespace c' ∧ c' ∈ caps ∧ n' = n) then Some i else in_ns m ns c' n'.
Proof.
  revert m. induction caps as [|c caps IH]; intros m Hm; cbn [fold_left].
  - by rewrite decide_False by set_solver.
  - rewrite IH, in_ns_touch.
    + repeat case_decide; rewrite ?elem_of_cons in *; naive_solver.
    + apply Hm. left.
    + intros c1 Hc1. rewrite in_ns_touch by (apply Hm; left).
      destruct (decide (_ ∧ c1 = c ∧ _)); [eauto|]. apply Hm. by right.
Qed.

Lemma in_ns_drop_all caps m ns c' n' :
  in_ns (fold_left (λ m c, drop_ns m c n) caps m) ns c' n'
  = if decide (ns = capNamespace c' ∧ c' ∈ caps ∧ n' = n) then None else in_ns m ns c' n'.
Proof.
  revert m. induction caps as [|c caps IH]; intros m; cbn [fold_left].
  - by rewrite decide_False by set_solver.
  - rewrite IH, in_ns_drop. repeat case_decide; rewrite ?elem_of_cons in *; naive_solver.
Qed.

End loops.

Lemma fold_left_inv {A B} (P : A → Prop) (f : A → B → A) (l : list B) (a : A) :
  P a → (∀ a b, P a → P (f a b)) → P (fold_left f l a).
Proof. intros Ha Hf. revert a Ha. induction l; simpl; auto. Qed.

(** ** Lemmas: the invariant and the view *)

Lemma view_Some ci n caps imp ts :
  view ci n = Some (caps, imp, ts) ↔
  ci_byNode ci !! n = Some caps ∧ ci_impedances ci !! n = Some imp ∧ ci_lastSeen ci !! n = Some ts.
Proof.
  unfold view. destruct (ci_byNode ci !! n), (ci_impedances ci !! n), (ci_lastSeen ci !! n); simpl;
    naive_solver.
Qed.

Lemma view_byNode ci n : ci_inv ci → fst ∘ fst <$> view ci n = ci_byNode ci !! n.
Proof.
  intros Hinv. unfold view. pose proof (inv_imp ci Hinv n) as H1. pose proof (inv_seen ci Hinv n) as H2.
  destruct (ci_byNode ci !! n) as [caps|]; [|done]. simpl.
  destruct (proj1 H1 ltac:(eauto)) as [imp ->]. simpl.
  by destruct (proj1 H2 ltac:(eauto)) as [ts ->].
Qed.

(** The invariant follows from what the indexes hold. *)
Lemma offer_known ci c n caps :
  ci_inv ci → ci_byNode ci !! n = Some caps → c ∈ caps → is_Some (offer ci c n).
Proof.
  intros Hinv Hn Hc. pose proof (view_byNode ci n Hinv) as Hv. rewrite Hn in Hv. unfold offer.
  destruct (view ci n) as [[[caps' imp] ts]|]; [|done]. injection Hv as ->. simpl.
  rewrite decide_True by done. eauto.
Qed.

Lemma view_touch ci n i caps n' :
  ci_inv ci → ci_byNode ci !! n = Some caps →
  view (touch_all ci n i caps) n'
  = if decide (n' = n) then (λ '(caps, _, ts), (caps, i, ts)) <$> view ci n else view ci n'.
Proof.
  intros Hinv Hn. unfold view, touch_all. simpl. case_decide as E.
  - subst n'. rewrite lookup_insert_eq, Hn. simpl.
    destruct (proj1 (inv_imp ci Hinv n) ltac:(eauto)) as [imp ->]. simpl.
    by destruct (ci_lastSeen ci !! n).
  - by rewrite lookup_insert_ne.
Qed.

Lemma touch_inv ci n i caps :
  ci_inv ci → ci_byNode ci !! n = Some caps → ci_inv (touch_all ci n i caps).
Proof.
  intros Hinv Hn.
  assert (∀ c n', offer (touch_all ci n i caps) c n'
            = if decide (c ∈ caps ∧ n' = n) then Some i else offer ci c n') as Hoffer.
  { intros c n'. unfold offer. rewrite (view_touch ci n i caps n' Hinv Hn).
    pose proof (view_byNode ci n Hinv) as Hv. rewrite Hn in Hv.
    destruct (decide (n' = n)) as [->|]; [|by rewrite decide_False by tauto].
    destruct (view ci n) as [[[caps' imp] ts]|]; [|done]. injection Hv as ->. simpl.
    repeat case_decide; naive_solver. }
  split; simpl.
  - intros n'. rewrite (inv_imp ci Hinv n'), lookup_insert_is_Some'. split; [auto|].
    intros [<-|]; [|done]. apply (inv_imp ci Hinv). eauto.
  - apply (inv_seen ci Hinv).
  - intros c n'. rewrite Hoffer, in_cap_touch_all, (inv_cap ci Hinv); [done|].
    intros c1 Hc1. destruct (offer_known ci c1 n caps Hinv Hn Hc1) as [x Hx].
    rewrite <-(inv_cap ci Hinv) in Hx. unfold in_cap in Hx. destruct (ci_byCap ci !! c1); [eauto|done].
  - intros ns c n'. rewrite Hoffer, in_ns_touch_all, (inv_ns ci Hinv).
    + repeat case_decide; naive_solver.
    + intros c1 Hc1. rewrite (inv_ns ci Hinv), decide_True by done. by eapply offer_known.
  - apply (fold_left_inv no_empty); [apply (inv_cap_ne ci Hinv)|]. intros. by apply touch_cap_no_empty.
  - apply (fold_left_inv ns_ne); [apply (inv_ns_ne ci Hinv)|]. intros. by apply touch_ns_ne.
Qed.

Lemma view_lastSeen ci n t n' :
  ci_inv ci → is_Some (ci_byNode ci !! n) →
  view (set_lastSeen ci n t) n'
  = if decide (n' = n) then (λ '(caps, imp, _), (caps, imp, t)) <$> view ci n else view ci n'.
Proof.
  intros Hinv [caps Hn]. unfold view, set_lastSeen. simpl. case_decide as E.
  - subst n'. rewrite lookup_insert_eq, Hn. simpl.
    destruct (proj1 (inv_imp ci Hinv n) ltac:(eauto)) as [imp ->].
    by destruct (proj1 (inv_seen ci Hinv n) ltac:(eauto)) as [ts ->].
  - by rewrite lookup_insert_ne.
Qed.

Lemma lastSeen_inv ci n t :
  ci_inv ci → is_Some (ci_byNode ci !! n) → ci_inv (set_lastSeen ci n t).
Proof.
  intros Hinv Hn.
  assert (∀ c n', offer (set_lastSeen ci n t) c n' = offer ci c n') as Hoffer.
  { intros c n'. unfold offer. rewrite view_lastSeen by done. case_decide as E; [|done]. subst n'.
    by destruct (view ci n) as [[[caps' imp] ts]|]. }
  split; simpl.
  - apply (inv_imp ci Hinv).
  - intros n'. rewrite (inv_seen ci Hinv n'), lookup_insert_is_Some'. split; [auto|].
    intros [<-|]; [|done]. by apply (inv_seen ci Hinv).
  - intros c n'. rewrite Hoffer. apply (inv_cap ci Hinv).
  - intros ns c n'. rewrite Hoffer. apply (inv_ns ci Hinv).
  - apply (inv_cap_ne ci Hinv).
  - apply (inv_ns_ne ci Hinv).
Qed.

Lemma view_purge ci n n' :
  ci_inv ci → view (purgeNodeLocked ci n) n' = if decide (n' = n) then None else view ci n'.
Proof.
  intros Hinv. unfold purgeNodeLocked. destruct (ci_byNode ci !! n) as [caps|] eqn:Hn.
  - unfold view. simpl. case_decide as E; [subst; by rewrite (lookup_delete_eq (ci_byNode ci))|].
    by rewrite !lookup_delete_ne.
  - case_decide as E; [|done]. subst. unfold view. by rewrite Hn.
Qed.

Lemma purge_inv ci n : ci_inv ci → ci_inv (purgeNodeLocked ci n).
Proof.
  intros Hinv.
  assert (∀ c n', offer (purgeNodeLocked ci n) c n' = if decide (n' = n) then None else offer ci c n') as Hoffer.
  { intros c n'. unfold offer. rewrite view_purge by done. by case_decide. }
  revert Hoffer. unfold purgeNodeLocked. destruct (ci_byNode ci !! n) as [caps|] eqn:Hn; [|done].
  intros Hoffer. split; simpl.
  - intros n'. rewrite !lookup_delete_is_Some. by rewrite (inv_imp ci Hinv).
  - intros n'. rewrite !lookup_delete_is_Some. by rewrite (inv_seen ci Hinv).
  - intros c n'. rewrite Hoffer, in_cap_drop_all, (inv_cap ci Hinv).
    destruct (decide (n' = n)) as [->|]; [|by rewrite decide_False by tauto].
    case_decide; [done|]. unfold offer. pose proof (view_byNode ci n Hinv) as Hv. rewrite Hn in Hv.
    destruct (view ci n) as [[[caps' imp] ts]|]; [|done]. injection Hv as ->. simpl.
    by rewrite decide_False by tauto.
  - intros ns c n'. rewrite Hoffer, in_ns_drop_all, (inv_ns ci Hinv).
    destruct (decide (ns = capNamespace c)) as [->|]; [|by rewrite decide_False by tauto].
    destruct (decide (n' = n)) as [->|]; [|by rewrite decide_False by tauto].
    case_decide; [done|]. unfold offer. pose proof (view_byNode ci n Hinv) as Hv. rewrite Hn in Hv.
    destruct (view ci n) as [[[caps' imp] ts]|]; [|done]. injection Hv as ->. simpl.
    by rewrite decide_False by tauto.
  - apply (fold_left_inv no_empty); [apply (inv_cap_ne ci Hinv)|]. intros. by apply drop_cap_no_empty.
  - apply (fold_left_inv ns_ne); [apply (inv_ns_ne ci Hinv)|]. intros. by apply drop_ns_ne.
Qed.

(** ** Lemmas: Update *)

(** The fast path is taken exactly when the stored list is the one the slow path
    would store. *)
Lemma same_caps_spec maxLen room existing caps :
  (length existing =? length (accept_caps maxLen room caps))%nat
  && same_caps maxLen room existing caps = true
  ↔ existing = accept_caps maxLen room caps.
Proof.
  rewrite andb_true_iff, Nat.eqb_eq. revert room existing.
  induction caps as [|c caps IH]; intros [|room] existing; simpl.
  - split; [intros [H%length_zero_iff_nil _]; done|by intros ->].
  - split; [intros [H%length_zero_iff_nil _]; done|by intros ->].
  - split; [intros [H%length_zero_iff_nil _]; done|by intros ->].
  - destruct (maxLen <? Z.of_nat (length c)); [apply (IH (S room))|].
    destruct existing as [|e existing]; simpl; [split; [by intros []|done]|].
    specialize (IH room existing). case_decide as E.
    + subst e. split; [intros [Hl Hs]; f_equal; apply IH; auto|].
      intros [= H]. apply IH in H as [-> ->]. done.
    + split; [by intros []|congruence].
Qed.

Lemma accept_caps_bounds maxLen room caps :
  (length (accept_caps maxLen room caps) ≤ room)%nat ∧
  Forall (λ c, Z.of_nat (length c) ≤ maxLen) (accept_caps maxLen room caps) ∧
  accept_caps maxLen room caps `sublist_of` caps.
Proof.
  revert room. induction caps as [|c caps IH]; intros [|room]; cbn [accept_caps length];
    [repeat split; (lia || constructor)..| |].
  { repeat split; [lia|constructor|apply sublist_nil_l]. }
  destruct (Z.ltb_spec maxLen (Z.of_nat (length c))).
  - destruct (IH (S room)) as (H1 & H2 & H3). split_and!; [done|done|by constructor].
  - destruct (IH room) as (H1 & H2 & H3). simpl. split_and!; [lia|by constructor|by constructor].
Qed.

(** What [Update] stores. *)
Definition accepted (ci : CapabilityIndex) (caps : list gostring) : list gostring :=
  accept_caps (MaxCapabilityLength (effectiveLimits ci))
    (Z.to_nat (MaxCapabilitiesPerNode (effectiveLimits ci))) caps.

Lemma in_byNode ci n caps :
  ci_inv ci → ci_byNode ci !! n = Some caps → ∃ imp ts, view ci n = Some (caps, imp, ts).
Proof.
  intros Hinv Hn. pose proof (view_byNode ci n Hinv) as Hv. rewrite Hn in Hv.
  destruct (view ci n) as [[[caps' imp] ts]|]; [|done]. injection Hv as ->. eauto.
Qed.

Lemma Update_spec now ci n i caps :
  ci_inv ci →
  ci_inv (CapabilityIndex_Update now ci n i caps) ∧
  ∀ n', view (CapabilityIndex_Update now ci n i caps) n'
        = if decide (n' = n) then Some (accepted ci caps, i, now) else view ci n'.
Proof.
  intros Hinv. unfold CapabilityIndex_Update. cbn zeta. fold (accepted ci caps).
  set (slow := MkCapabilityIndex _ _ _ _ _ _).
  assert (ci_inv slow ∧
    ∀ n', view slow n' = if decide (n' = n) then Some (accepted ci caps, i, now) else view ci n')
    as [Hslow Hview].
  { pose proof (purge_inv ci n Hinv) as Hp. pose proof (view_purge ci n) as Hvp.
    set (ci0 := purgeNodeLocked ci n) in *.
    assert (∀ n', view slow n' = if decide (n' = n) then Some (accepted ci caps, i, now) else view ci n') as Hv.
    { intros n'. unfold view, slow. simpl. destruct (decide (n' = n)) as [->|Hn].
      - by rewrite !lookup_insert_eq.
      - rewrite !lookup_insert_ne by done. fold (view ci0 n'). rewrite Hvp by done.
        by rewrite decide_False. }
    split; [|exact Hv].
    assert (∀ c n', offer slow c n'
              = if decide (c ∈ accepted ci caps ∧ n' = n) then Some i else offer ci0 c n') as Hoffer.
    { intros c n'. unfold offer. rewrite Hv, Hvp by done.
      destruct (decide (n' = n)) as [->|]; simpl.
      - repeat case_decide; naive_solver.
      - by rewrite decide_False by tauto. }
    split; unfold slow; simpl.
    - intros n'. by rewrite !lookup_insert_is_Some', (inv_imp ci0 Hp).
    - intros n'. by rewrite !lookup_insert_is_Some', (inv_seen ci0 Hp).
    - intros c n'. by rewrite Hoffer, in_cap_put_all, (inv_cap ci0 Hp).
    - intros ns c n'. rewrite Hoffer, in_ns_put_all, (inv_ns ci0 Hp). repeat case_decide; naive_solver.
    - apply (fold_left_inv no_empty); [apply (inv_cap_ne ci0 Hp)|]. intros. by apply put_cap_no_empty.
    - apply (fold_left_inv ns_ne); [apply (inv_ns_ne ci0 Hp)|]. intros. by apply put_ns_ne. }
  destruct (ci_byNode ci !! n) as [existing|] eqn:Hn; [|done].
  destruct (_ && _) eqn:Hsame; [|done].
  apply same_caps_spec in Hsame. fold (accepted ci caps) in Hsame. subst existing.
  pose proof (touch_inv ci n i _ Hinv Hn) as Htouch.
  assert (is_Some (ci_byNode (touch_all ci n i (accepted ci caps)) !! n)) as Hk by (simpl; eauto).
  split; [by apply lastSeen_inv|]. intros n'. rewrite view_lastSeen, !(view_touch ci n i _ _ Hinv Hn) by done.
  rewrite (decide_True (P := n = n)) by done. case_decide as E; [|done].
  by destruct (in_byNode ci n _ Hinv Hn) as (imp & ts & ->).
Qed.

Lemma Refresh_spec now ci n i :
  ci_inv ci →
  ci_inv (CapabilityIndex_Refresh now ci n i) ∧
  ∀ n', view (CapabilityIndex_Refresh now ci n i) n'
        = if decide (n' = n) then (λ '(caps, _, _), (caps, i, now)) <$> view ci n else view ci n'.
Proof.
  intros Hinv. unfold CapabilityIndex_Refresh. destruct (ci_byNode ci !! n) as [caps|] eqn:Hn.
  - pose proof (touch_inv ci n i _ Hinv Hn) as Htouch.
    assert (is_Some (ci_byNode (touch_all ci n i caps) !! n)) as Hk by (simpl; eauto).
    split; [by apply lastSeen_inv|]. intros n'.
    rewrite view_lastSeen, !(view_touch ci n i _ _ Hinv Hn) by done.
    rewrite (decide_True (P := n = n)) by done. case_decide as E; [|done].
    by destruct (in_byNode ci n _ Hinv Hn) as (imp & ts & ->).
  - split; [done|]. intros n'. case_decide as E; [|done]. subst. unfold view. by rewrite Hn.
Qed.

Lemma UpdateImpedance_spec ci n i :
  ci_inv ci →
  ci_inv (CapabilityIndex_UpdateImpedance ci n i) ∧
  ∀ n', view (CapabilityIndex_UpdateImpedance ci n i) n'
        = if decide (n' = n) then (λ '(caps, _, ts), (caps, i, ts)) <$> view ci n else view ci n'.
Proof.
  intros Hinv. unfold CapabilityIndex_UpdateImpedance. destruct (ci_byNode ci !! n) as [caps|] eqn:Hn.
  - split; [by apply touch_inv|]. intros n'. by apply view_touch.
  - split; [done|]. intros n'. case_decide as E; [|done]. subst. unfold view. by rewrite Hn.
Qed.

Lemma purge_all_spec ci l :
  ci_inv ci →
  ci_inv (fold_left purgeNodeLocked l ci) ∧
  ∀ n', view (fold_left purgeNodeLocked l ci) n' = if decide (n' ∈ l) then None else view ci n'.
Proof.
  revert ci. induction l as [|n l IH]; intros ci Hinv; simpl.
  - split; [done|]. intros n'. first [done | by rewrite decide_False by set_solver].
  - destruct (IH (purgeNodeLocked ci n)) as [IH1 IH2]; [by apply purge_inv|]. split; [done|].
    intros n'. rewrite IH2, view_purge by done. repeat case_decide; set_solver.
Qed.

Lemma PurgeStale_spec `{GoRange} now ci maxAge :
  ci_inv ci →
  let cutoff := now + i64 (- maxAge) in
  let '(ci', purged) := CapabilityIndex_PurgeStale now ci maxAge in
  ci_inv ci' ∧
  (∀ n, view ci' n = ('(caps, imp, ts) ← view ci n;
                      if cutoff <? ts then Some (caps, imp, ts) else None)) ∧
  purged = Z.of_nat (length (filter (λ e, (cutoff <? e.2) = false) (map_to_list (ci_lastSeen ci)))).
Proof.
  intros Hinv cutoff. unfold CapabilityIndex_PurgeStale. fold cutoff.
  set (stale := map fst _). destruct (purge_all_spec ci stale Hinv) as [H1 H2]. split_and!; [done| |].
  - intros n. rewrite H2.
    assert (n ∈ stale ↔ ∃ ts, ci_lastSeen ci !! n = Some ts ∧ (cutoff <? ts) = false) as Hstale.
    { unfold stale. rewrite list_elem_of_fmap. setoid_rewrite list_elem_of_filter.
      setoid_rewrite range_map_perm. split.
      - intros ([k ts] & -> & Hts & Hk%elem_of_map_to_list). eauto.
      - intros (ts & Hts & Hk). exists (n, ts). split_and!; [done|done|]. by apply elem_of_map_to_list. }
    destruct (view ci n) as [[[caps imp] ts]|] eqn:Hv; simpl; [|by case_decide].
    apply view_Some in Hv as (_ & _ & Hts). rewrite Hts in Hstale.
    clearbody stale. destruct (decide (n ∈ stale)) as [Hd|Hd], (cutoff <? ts) eqn:Hc; try done.
      + apply Hstale in Hd as (ts' & [= <-] & Hx). congruence.
      + destruct Hd. apply Hstale. eauto.
  - unfold stale. rewrite length_map. f_equal. apply Permutation_length. by rewrite range_map_perm.
Qed.

(** ** Histories *)

Inductive ci_step `{GoRange} : CapabilityIndex → CapabilityIndex → Prop :=
| ci_SetLimits ci l : ci_step ci (CapabilityIndex_SetLimits ci l)
| ci_Update now ci n i caps : ci_step ci (CapabilityIndex_Update now ci n i caps)
| ci_Refresh now ci n i : ci_step ci (CapabilityIndex_Refresh now ci n i)
| ci_UpdateImpedance ci n i : ci_step ci (CapabilityIndex_UpdateImpedance ci n i)
| ci_PurgeNode ci n : ci_step ci (CapabilityIndex_PurgeNode ci n)
| ci_PurgeStale now ci a : ci_step ci (fst (CapabilityIndex_PurgeStale now ci a))
| ci_Backdate ci n t : ci_step ci (CapabilityIndex_BackdateForTest ci n t).

Definition ci_reachable `{GoRange} (ci : CapabilityIndex) : Prop := rtc ci_step NewCapabilityIndex ci.

Lemma ci_step_inv `{GoRange} ci ci' : ci_step ci ci' → ci_inv ci → ci_inv ci'.
Proof.
  intros [] Hinv.
  - destruct Hinv. by split.
  - by apply Update_spec.
  - by apply Refresh_spec.
  - by apply UpdateImpedance_spec.
  - by apply purge_inv.
  - pose proof (PurgeStale_spec now ci0 a Hinv) as Hp. cbn zeta in Hp.
    destruct (CapabilityIndex_PurgeStale now ci0 a). by destruct Hp.
  - unfold CapabilityIndex_BackdateForTest. destruct (ci_byNode ci0 !! n) eqn:E; [|done].
    apply lastSeen_inv; eauto.
Qed.

Lemma ci_reachable_inv `{GoRange} ci : ci_reachable ci → ci_inv ci.
Proof.
  intros Hr. unfold ci_reachable in Hr. remember NewCapabilityIndex as ci0 eqn:E.
  assert (ci_inv ci0) as Hinv.
  { subst. split; simpl.
    - intros n. by rewrite !lookup_empty.
    - intros n. by rewrite !lookup_empty.
    - done.
    - intros ns c n. by case_decide.
    - apply map_Forall_empty.
    - split; apply map_Forall_empty. }
  clear E. induction Hr; eauto using ci_step_inv.
Qed.

(** ** Lemmas: lookups *)

Section lookups.
Context `{GoRange} `{GoSort}.

Lemma elem_of_range_map {V} (m : gmap gostring V) k v : (k, v) ∈ range_map m ↔ m !! k = Some v.
Proof. rewrite range_map_perm. apply elem_of_map_to_list. Qed.

Lemma sorted_node_entries_spec nodes :
  NoDup (map nce_NodeID (sorted_node_entries nodes)) ∧
  (∀ n i, MkNodeCapEntry n i ∈ sorted_node_entries nodes ↔ nodes !! n = Some i) ∧
  (map_Forall (λ _ i, is_nan i = false) nodes → less_sorted cap_entry_less (sorted_node_entries nodes)).
Proof.
  unfold sorted_node_entries. set (l := map _ (range_map nodes)). split_and!.
  - rewrite (sort_slice_perm cap_entry_less l). unfold l. rewrite map_map.
    change (NoDup (map fst (range_map nodes))). rewrite range_map_perm. apply NoDup_fst_map_to_list.
  - intros n i. rewrite (sort_slice_perm cap_entry_less l). unfold l. rewrite list_elem_of_fmap. split.
    + intros ([n' i'] & [= -> ->] & Hin). by apply elem_of_range_map.
    + intros Hn. exists (n, i). split; [done|]. by apply elem_of_range_map.
  - intros Hn. apply sort_slice_sorted, f64_ltb_strict_weak. unfold l. apply Forall_map, Forall_forall.
    intros [n i] Hin%elem_of_range_map. by apply Hn in Hin.
Qed.

(** The values seen for a node are all its one impedance. *)
Lemma fold_see_spec (f : gostring → option float64) l seen :
  (∀ n i, (n, i) ∈ l → f n = Some i) → (∀ n i, seen !! n = Some i → f n = Some i) →
  ∀ n i, fold_left see l seen !! n = Some i ↔
         f n = Some i ∧ (is_Some (seen !! n) ∨ ∃ j, (n, j) ∈ l).
Proof.
  revert seen. induction l as [|[k v] l IH]; intros seen Hl Hseen n i; simpl.
  - split.
    + intros Hn. split; [auto|]. left. eauto.
    + intros [Hf [[j Hj]|[j Hj%not_elem_of_nil]]]; [|done]. rewrite (Hseen _ _ Hj) in Hf. congruence.
  - assert (f k = Some v) as Hk by (apply Hl; left).
    assert ((∀ n i, see seen (k, v) !! n = Some i → f n = Some i) ∧
            ∀ n, is_Some (see seen (k, v) !! n) ↔ is_Some (seen !! n) ∨ n = k) as [Hsee Hdom].
    { unfold see. cbn [fst snd]. destruct (seen !! k) as [e|] eqn:E.
      - assert (e = v) as -> by (apply Hseen in E; congruence). rewrite f64_ltb_irrefl.
        split; [done|]. intros m. split; [auto|]. intros [| ->]; [done|eauto].
      - split.
        + intros m x [[<- <-]|[_ Hm]]%lookup_insert_Some; auto.
        + intros m. rewrite lookup_insert_is_Some'. naive_solver. }
    rewrite IH; [|intros m x Hm; apply Hl; by right|done].
    rewrite Hdom. split; intros [Hf Hx]; (split; [done|]).
    + destruct Hx as [[Hx| ->]|[j Hj]]; [auto|right; exists v; left|right; exists j; by right].
    + destruct Hx as [Hx|[j [[= -> ->]|Hj]%elem_of_cons]]; [auto|auto|right; eauto].
Qed.

Lemma scan_prefix_spec (f : gostring → option float64) prefix m :
  (∀ c n i, in_cap m c n = Some i → f n = Some i) →
  ∀ n i, scan_prefix prefix m !! n = Some i ↔
         f n = Some i ∧ ∃ c, strings_HasPrefix c prefix = true ∧ is_Some (in_cap m c n).
Proof.
  intros Hf. unfold scan_prefix.
  assert (∀ c nodes, (c, nodes) ∈ range_map m → m !! c = Some nodes) as Hm
    by (intros; by apply elem_of_range_map).
  assert (∀ l seen, (∀ c nodes, (c, nodes) ∈ l → m !! c = Some nodes) →
    (∀ n i, seen !! n = Some i → f n = Some i) →
    ∀ n i, fold_left (λ seen '(cap, nodes),
             if strings_HasPrefix cap prefix then fold_left see (range_map nodes) seen else seen) l seen
           !! n = Some i ↔
           f n = Some i ∧ (is_Some (seen !! n) ∨
             ∃ c nodes, (c, nodes) ∈ l ∧ strings_HasPrefix c prefix = true ∧ is_Some (nodes !! n))) as Hloop.
  { induction l as [|[c nodes] l IH]; intros seen Hl Hseen n i; cbn [fold_left].
    - split.
      + intros Hn. split; [auto|]. left. eauto.
      + intros [Hfn [[j Hj]|(c & nodes & Hc%not_elem_of_nil & _)]]; [|done].
        rewrite (Hseen _ _ Hj) in Hfn. congruence.
    - assert (m !! c = Some nodes) as Hc by (apply Hl; left).
      destruct (strings_HasPrefix c prefix) eqn:Hp.
      + assert (∀ k v, (k, v) ∈ range_map nodes → f k = Some v) as Hv.
        { intros k v Hkv%elem_of_range_map. apply (Hf c). unfold in_cap. by rewrite Hc. }
        pose proof (fold_see_spec f (range_map nodes) seen Hv Hseen) as Hsee.
        rewrite IH; [|intros c' ns Hin; apply Hl; by right|intros k v Hk; by apply Hsee in Hk as [? _]].
        split; intros [Hfn Hx]; (split; [done|]).
        * destruct Hx as [[j Hj]|(c' & ns & Hc' & Hp' & Hn)].
          -- apply Hsee in Hj as [_ [Hs|[j' Hj']]]; [auto|]. right. exists c, nodes.
             split; [left|]. split; [done|]. apply elem_of_range_map in Hj'. eauto.
          -- right. exists c', ns. split; [by right|done].
        * destruct Hx as [Hs|(c' & ns & [[= -> ->]|Hc']%elem_of_cons & Hp' & Hn)].
          -- left. exists i. apply Hsee. auto.
          -- left. exists i. apply Hsee. split; [done|]. right. destruct Hn as [j Hj]. exists j.
             by apply elem_of_range_map.
          -- right. eauto.
      + rewrite IH; [|intros c' ns Hin; apply Hl; by right|done].
        split; intros [Hfn Hx]; (split; [done|]).
        * destruct Hx as [Hs|(c' & ns & Hc' & Hp' & Hn)]; [auto|]. right. exists c', ns.
          split; [by right|done].
        * destruct Hx as [Hs|(c' & ns & [[= -> ->]|Hc']%elem_of_cons & Hp' & Hn)]; [auto|congruence|].
          right. eauto. }
  intros n i. rewrite Hloop by (done || (intros k v Hk; by rewrite lookup_empty in Hk)).
  rewrite lookup_empty. split; intros [Hfn Hx]; (split; [done|]).
  - destruct Hx as [[? ?]|(c & nodes & Hc%elem_of_range_map & Hp & Hn)]; [done|].
    exists c. split; [done|]. unfold in_cap. by rewrite Hc.
  - destruct Hx as (c & Hp & Hn). unfold in_cap in Hn. destruct (m !! c) as [nodes|] eqn:E;
      [|by destruct Hn]. right. exists c, nodes. split_and!; [by apply elem_of_range_map|done|done].
Qed.

Lemma offer_imp ci c n i : offer ci c n = Some i → ci_impedances ci !! n = Some i.
Proof.
  unfold offer. destruct (view ci n) as [[[caps imp] ts]|] eqn:Hv; simpl; [|done].
  case_decide; [|done]. intros [= <-]. by apply view_Some in Hv as (_ & ? & _).
Qed.

(** A capability with the prefix is in the namespace of the prefix. *)
Lemma prefix_namespace prefix ns c :
  extractNamespacePrefix prefix = Some ns → strings_HasPrefix c prefix = true → capNamespace c = ns.
Proof.
  unfold extractNamespacePrefix, capNamespace.
  destruct (strings_IndexByte prefix ":") as [k|] eqn:E; [|done]. intros [= <-].
  intros [t ->]%strings_HasPrefix_spec. apply IndexByte_Some in E as (E & Hk & _).
  rewrite E at 1. rewrite <-app_assoc. cbn [app].
  rewrite IndexByte_app by done. rewrite E at 2. rewrite <-app_assoc, take_app_length. done.
Qed.

Lemma LookupWildcard_seen ci prefix n i :
  ci_inv ci →
  MkNodeCapEntry n i ∈ CapabilityIndex_LookupWildcard ci prefix ↔
  ∃ c, strings_HasPrefix c prefix = true ∧ offer ci c n = Some i.
Proof.
  intros Hinv. unfold CapabilityIndex_LookupWildcard.
  rewrite (proj1 (proj2 (sorted_node_entries_spec _))).
  set (f := λ n, ci_impedances ci !! n).
  assert (∀ c x y, offer ci c n = Some x → f n = Some y → x = y) as Huniq.
  { intros c x y Hx%offer_imp Hy. unfold f in Hy. congruence. }
  destruct (extractNamespacePrefix prefix) as [ns|] eqn:Hns.
  - assert (∀ c, strings_HasPrefix c prefix = true → in_ns (ci_byNs ci) ns c n = offer ci c n) as Hin.
    { intros c Hc. rewrite (inv_ns ci Hinv). by rewrite (prefix_namespace prefix ns c Hns Hc), decide_True. }
    unfold in_ns in Hin. destruct (ci_byNs ci !! ns) as [bucket|] eqn:Hb; simpl in Hin.
    + assert (∀ c n i, in_cap bucket c n = Some i → f n = Some i) as Hf.
      { intros c m x Hx. assert (in_ns (ci_byNs ci) ns c m = Some x) as H' by (unfold in_ns; by rewrite Hb).
        rewrite (inv_ns ci Hinv) in H'. case_decide; [|done]. by apply offer_imp in H'. }
      rewrite (scan_prefix_spec f prefix bucket Hf). split.
      * intros [Hfi (c & Hp & [x Hx])]. exists c. split; [done|]. rewrite Hin in Hx by done.
        rewrite Hx. f_equal. by apply (Huniq c).
      * intros (c & Hp & Hc). split; [by apply offer_imp in Hc|]. exists c. rewrite Hin by done. eauto.
    + rewrite lookup_empty. split; [done|]. intros (c & Hp & Hc). rewrite <-Hin in Hc by done. done.
  - assert (∀ c n i, in_cap (ci_byCap ci) c n = Some i → f n = Some i) as Hf.
    { intros c m x Hx. rewrite (inv_cap ci Hinv) in Hx. by apply offer_imp in Hx. }
    rewrite (scan_prefix_spec f prefix _ Hf). setoid_rewrite (inv_cap ci Hinv). split.
    + intros [Hfi (c & Hp & [x Hx])]. exists c. split; [done|]. rewrite Hx. f_equal. by apply (Huniq c).
    + intros (c & Hp & Hc). split; [by apply offer_imp in Hc|]. eauto.
Qed.

Lemma Lookup_seen ci c n i :
  ci_inv ci → MkNodeCapEntry n i ∈ CapabilityIndex_Lookup ci c ↔ offer ci c n = Some i.
Proof.
  intros Hinv. unfold CapabilityIndex_Lookup. rewrite <-(inv_cap ci Hinv). unfold in_cap.
  destruct (ci_byCap ci !! c) as [nodes|]; simpl; [apply sorted_node_entries_spec|].
  split; [by intros ?%not_elem_of_nil|done].
Qed.

(** Both lookups return sorted lists without a node twice. *)
Definition lookup_result (l : list NodeCapEntry) : Prop :=
  NoDup (map nce_NodeID l) ∧
  (Forall (λ e, is_nan (nce_Impedance e) = false) l → less_sorted cap_entry_less l).

Lemma sorted_node_entries_result nodes : lookup_result (sorted_node_entries nodes).
Proof.
  destruct (sorted_node_entries_spec nodes) as (H1 & H2 & H3). split; [done|].
  intros Hn. apply H3. intros n i Hi. apply H2 in Hi. rewrite Forall_forall in Hn.
  by apply Hn in Hi.
Qed.

End lookups.

(** ** Properties *)

(** C4: after any sequence of calls the three indexes hold the same facts: the
    forward index, the namespace index and the per-node lists agree on who
    offers what at which impedance, and no empty bucket is left behind. *)
Theorem indexes_agree `{GoRange} ci :
  ci_reachable ci →
  (∀ c n, in_cap (ci_byCap ci) c n = offer ci c n) ∧
  (∀ ns c n, in_ns (ci_byNs ci) ns c n = if decide (ns = capNamespace c) then offer ci c n else None) ∧
  (∀ n, is_Some (ci_byNode ci !! n) ↔ is_Some (view ci n)) ∧
  no_empty (ci_byCap ci) ∧ no_empty (ci_byNs ci) ∧ map_Forall (λ _ b, no_empty b) (ci_byNs ci).
Proof.
  intros Hinv%ci_reachable_inv. split_and!; try apply Hinv.
  intros n. rewrite <-(view_byNode ci n Hinv), fmap_is_Some. done.
Qed.

(** C12: on a reachable index each method acts on the nodes as on one finite
    map, with or without [Update]'s fast path: [Update] stores the accepted
    capabilities (the first that fit the limits, in order), the impedance and
    the time; [Refresh] and [UpdateImpedance] change a known node only;
    [PurgeNode] and [PurgeStale] remove exactly the node, and the nodes last
    seen at or before the cutoff. *)
Theorem index_refines_node_map `{GoRange} ci n n' now i caps maxAge :
  ci_reachable ci →
  view (CapabilityIndex_Update now ci n i caps) n'
  = (if decide (n' = n) then Some (accepted ci caps, i, now) else view ci n') ∧
  view (CapabilityIndex_Refresh now ci n i) n'
  = (if decide (n' = n) then (λ '(caps, _, _), (caps, i, now)) <$> view ci n else view ci n') ∧
  view (CapabilityIndex_UpdateImpedance ci n i) n'
  = (if decide (n' = n) then (λ '(caps, _, ts), (caps, i, ts)) <$> view ci n else view ci n') ∧
  view (CapabilityIndex_PurgeNode ci n) n' = (if decide (n' = n) then None else view ci n') ∧
  view (fst (CapabilityIndex_PurgeStale now ci maxAge)) n'
  = ('(caps, imp, ts) ← view ci n';
     if now + i64 (- maxAge) <? ts then Some (caps, imp, ts) else None).
Proof.
  intros Hinv%ci_reachable_inv. split_and!.
  - by apply Update_spec.
  - by apply Refresh_spec.
  - by apply UpdateImpedance_spec.
  - by apply view_purge.
  - pose proof (PurgeStale_spec now ci maxAge Hinv) as Hp. cbn zeta in Hp.
    destruct (CapabilityIndex_PurgeStale now ci maxAge). apply Hp.
Qed.

(** What a peer can store in one [Update] is bounded: at most the limit of
    capabilities, none longer than the limit, taken in order from its list,
    whatever limits are configured (a limit of zero or less is the default). *)
Theorem Update_bounded ci caps :
  Z.of_nat (length (accepted ci caps)) ≤ MaxCapabilitiesPerNode (effectiveLimits ci) ∧
  Forall (λ c, Z.of_nat (length c) ≤ MaxCapabilityLength (effectiveLimits ci)) (accepted ci caps) ∧
  accepted ci caps `sublist_of` caps ∧
  0 < MaxCapabilitiesPerNode (effectiveLimits ci) ∧ 0 < MaxCapabilityLength (effectiveLimits ci).
Proof.
  assert (0 < MaxCapabilitiesPerNode (effectiveLimits ci) ∧ 0 < MaxCapabilityLength (effectiveLimits ci)) as [? ?].
  { unfold effectiveLimits. simpl. unfold DefaultMaxCapabilitiesPerNode, DefaultMaxCapabilityLength.
    zcases; lia. }
  destruct (accept_caps_bounds (MaxCapabilityLength (effectiveLimits ci))
    (Z.to_nat (MaxCapabilitiesPerNode (effectiveLimits ci))) caps) as (? & ? & ?).
  unfold accepted. split_and!; [lia|done..].
Qed.

(** [Lookup] returns exactly the nodes that offer a capability, and
    [LookupWildcard] exactly those that offer one with the prefix, each once
    with its current impedance, sorted by it when none is NaN: the namespace
    shortcut for prefixes with a colon loses nothing. *)
Theorem lookups_exact `{GoRange} `{GoSort} ci c prefix :
  ci_reachable ci →
  (∀ n i, MkNodeCapEntry n i ∈ CapabilityIndex_Lookup ci c ↔ offer ci c n = Some i) ∧
  lookup_result (CapabilityIndex_Lookup ci c) ∧
  (∀ n i, MkNodeCapEntry n i ∈ CapabilityIndex_LookupWildcard ci prefix ↔
          ∃ c, strings_HasPrefix c prefix = true ∧ offer ci c n = Some i) ∧
  lookup_result (CapabilityIndex_LookupWildcard ci prefix).
Proof.
  intros Hinv%ci_reachable_inv. split_and!.
  - intros. by apply Lookup_seen.
  - unfold CapabilityIndex_Lookup. destruct (ci_byCap ci !! c); [apply sorted_node_entries_result|].
    split; constructor.
  - intros. by apply LookupWildcard_seen.
  - apply sorted_node_entries_result.
Qed.

(** ** Witnesses *)

Definition index_ab : CapabilityIndex :=
  CapabilityIndex_Update 20
    (CapabilityIndex_Update 10 NewCapabilityIndex (go "a") (f64_of_Z 3) [go "tool:x"; go "tool:y"])
    (go "b") (f64_of_Z 2) [go "tool:x"; go "role"].

Lemma index_ab_reachable : @ci_reachable list_range index_ab.
Proof.
  unfold ci_reachable, index_ab. eapply rtc_l; [apply ci_Update|]. apply rtc_once, ci_Update.
Qed.

Lemma indexes_agree_witness :
  offer index_ab (go "tool:x") (go "b") = Some (f64_of_Z 2) ∧
  in_ns (ci_byNs index_ab) (go "tool") (go "tool:x") (go "b") = offer index_ab (go "tool:x") (go "b").
Proof.
  split; [vm_compute; reflexivity|].
  destruct (@indexes_agree list_range index_ab index_ab_reachable) as (_ & H & _).
  rewrite H. reflexivity.
Defined.

Lemma index_refines_node_map_witness :
  view (CapabilityIndex_Update 30 index_ab (go "a") (f64_of_Z 9) [go "tool:x"; go "tool:y"]) (go "a")
  = Some ([go "tool:x"; go "tool:y"], f64_of_Z 9, 30).
Proof.
  destruct (@index_refines_node_map list_range index_ab (go "a") (go "a") 30 (f64_of_Z 9)
    [go "tool:x"; go "tool:y"] 0 index_ab_reachable) as (H & _).
  rewrite H. vm_compute. reflexivity.
Defined.

Lemma lookups_exact_witness :
  map nce_NodeID (@CapabilityIndex_Lookup list_range insertion_GoSort index_ab (go "tool:x"))
  = [go "b"; go "a"] ∧
  MkNodeCapEntry (go "a") (f64_of_Z 3)
    ∈ @CapabilityIndex_LookupWildcard list_range insertion_GoSort index_ab (go "tool:").
Proof.
  split; [vm_compute; reflexivity|].
  destruct (@lookups_exact list_range insertion_GoSort index_ab (go "tool:x") (go "tool:")
    index_ab_reachable) as (_ & _ & H & _).
  apply H. exists (go "tool:y"). split; vm_compute; reflexivity.
Defined.
