(* ===== verification/Node.v ===== *)
(** * The mesh node's control plane: pkg/mesh/api

    control.go (gossip, WhoHas and IHave handlers), bootstrap.go (paginated host
    tables), health.go (peer death), the peer manager and the hop budget of
    neuron.go, and the write queues and broadcasts of async_writer.go. A [Node]
    holds the state of its subsystems; a peer connection is a pointer, shared by
    the peer manager and the goroutines that read and write it, so connections
    live in a store and are named by their index. Each handler is the composition
    of the subsystems' transitions in the order of the code; the clock is read
    once per handler. The frames of credential delegation and of relays are
    handled by code this file does not model. *)

From Stdlib Require Import Ascii.
From stdpp Require Import base numbers gmap strings sorting list relations.
From S2P Require Import Prelude GoStrings GoFloat Nucleus Gradient CapIndex Sonar Resolver Reconnect.

Open Scope Z_scope.

(** Go's [uint32]. *)
Definition u32 (z : Z) : Z := z mod 2 ^ 32.

(** ** Frames *)

Record GossipFrame := MkGossipFrame {
  gf_FromNode : gostring;
  gf_FromImpedance : float64;
  gf_Routes : gmap gostring float64;
  gf_FromCapabilities : list gostring;
  gf_NodeCapabilities : gmap gostring (list gostring)
}.

(** The wire form of a reply carries the origin of the query as well. *)
Record IHaveMsg := MkIHaveMsg { im_IHave : IHaveFrame; im_OriginNode : gostring }.

Record HostEntry := MkHostEntry {
  he_Addresses : list gostring;
  he_Transport : gostring;
  he_ProxyUrl : gostring
}.

Record BootstrapFrame := MkBootstrapFrame {
  bf_Hosts : gmap gostring HostEntry;
  bf_Sequence : Z;
  bf_Total : Z;
  bf_ProtocolVersion : Z;
  bf_ApplicationVersion : gostring
}.

Inductive ControlFrame :=
| CF_Gossip (g : GossipFrame)
| CF_WhoHas (w : WhoHasFrame)
| CF_IHave (h : IHaveMsg)
| CF_Bootstrap (b : BootstrapFrame).

(** ** Peers *)

Definition controlWriteQueueSize : nat := 64.

(** [pc_wire] is what the writer goroutine has put on the control connection and
    the other side has not read. *)
Record peerConn := MkPeerConn {
  pc_nodeID : gostring;
  pc_writeCh : list ControlFrame;
  pc_writerStopped : bool;
  pc_dead : bool;
  pc_wire : list ControlFrame
}.

Definition newPeerConnWithWriter (nodeID : gostring) : peerConn := MkPeerConn nodeID [] false false [].

Abbreviation peerManager := (gmap gostring nat).

Definition peerManager_Add (pm : peerManager) (nodeID : gostring) (pc : nat) : peerManager :=
  <[nodeID := pc]> pm.

Definition peerManager_Remove (pm : peerManager) (nodeID : gostring) : peerManager := delete nodeID pm.

Definition peerManager_Get (pm : peerManager) (nodeID : gostring) : option nat := pm !! nodeID.

Definition peerManager_Count (pm : peerManager) : Z := Z.of_nat (size pm).

(** Which callbacks are set. *)
Record NodeEvents := MkNodeEvents {
  ev_OnPeerJoined : bool;
  ev_OnPeerLost : bool;
  ev_OnIsolated : bool;
  ev_OnReconnected : bool;
  ev_OnOrphaned : bool
}.

Inductive event :=
| PeerJoined (nodeID : gostring)
| PeerLost (nodeID : gostring)
| Isolated
| ReconnectStarted.

Record Node := MkNode {
  n_manifest : Manifest;
  n_sonar : Sonar;
  n_gradient : GradientTable;
  n_resolver : Resolver;
  n_capIndex : CapabilityIndex;
  n_peers : peerManager;
  n_conns : list peerConn;
  n_protocolVersion : Z;
  n_applicationVersion : gostring;
  n_events : NodeEvents;
  n_reconnect : ReconnectPolicy;
  n_gossipInterval : Z;
  n_capabilityStaleTTL : Z;
  n_maxSonarHops : Z
}.

Definition set_sonar (n : Node) (s : Sonar) : Node :=
  MkNode (n_manifest n) s (n_gradient n) (n_resolver n) (n_capIndex n) (n_peers n) (n_conns n)
    (n_protocolVersion n) (n_applicationVersion n) (n_events n) (n_reconnect n)
    (n_gossipInterval n) (n_capabilityStaleTTL n) (n_maxSonarHops n).

Definition set_gradient (n : Node) (gt : GradientTable) : Node :=
  MkNode (n_manifest n) (n_sonar n) gt (n_resolver n) (n_capIndex n) (n_peers n) (n_conns n)
    (n_protocolVersion n) (n_applicationVersion n) (n_events n) (n_reconnect n)
    (n_gossipInterval n) (n_capabilityStaleTTL n) (n_maxSonarHops n).

Definition set_resolver (n : Node) (r : Resolver) : Node :=
  MkNode (n_manifest n) (n_sonar n) (n_gradient n) r (n_capIndex n) (n_peers n) (n_conns n)
    (n_protocolVersion n) (n_applicationVersion n) (n_events n) (n_reconnect n)
    (n_gossipInterval n) (n_capabilityStaleTTL n) (n_maxSonarHops n).

Definition set_capIndex (n : Node) (ci : CapabilityIndex) : Node :=
  MkNode (n_manifest n) (n_sonar n) (n_gradient n) (n_resolver n) ci (n_peers n) (n_conns n)
    (n_protocolVersion n) (n_applicationVersion n) (n_events n) (n_reconnect n)
    (n_gossipInterval n) (n_capabilityStaleTTL n) (n_maxSonarHops n).

Definition set_peers (n : Node) (pm : peerManager) : Node :=
  MkNode (n_manifest n) (n_sonar n) (n_gradient n) (n_resolver n) (n_capIndex n) pm (n_conns n)
    (n_protocolVersion n) (n_applicationVersion n) (n_events n) (n_reconnect n)
    (n_gossipInterval n) (n_capabilityStaleTTL n) (n_maxSonarHops n).

Definition set_conns (n : Node) (cs : list peerConn) : Node :=
  MkNode (n_manifest n) (n_sonar n) (n_gradient n) (n_resolver n) (n_capIndex n) (n_peers n) cs
    (n_protocolVersion n) (n_applicationVersion n) (n_events n) (n_reconnect n)
    (n_gossipInterval n) (n_capabilityStaleTTL n) (n_maxSonarHops n).

(** The connection [i] after [f]. *)
Definition update_conn (n : Node) (i : nat) (f : peerConn → peerConn) : Node :=
  set_conns n (alter f i (n_conns n)).

Definition set_writeCh (pc : peerConn) (q : list ControlFrame) : peerConn :=
  MkPeerConn (pc_nodeID pc) q (pc_writerStopped pc) (pc_dead pc) (pc_wire pc).

(** [pc.sendControl(frame)], and [sendControlRaw] of the marshaled frame. *)
Definition sendControl (n : Node) (pc : nat) (frame : ControlFrame) : Node * bool :=
  match n_conns n !! pc with
  | None => (n, false)
  | Some c =>
      if pc_writerStopped c then (n, false)
      else if (length (pc_writeCh c) <? controlWriteQueueSize)%nat
      then (update_conn n pc (λ c, set_writeCh c (pc_writeCh c ++ [frame])), true)
      else (n, false)
  end.

(** [pc.closeDead()] *)
Definition closeDead (n : Node) (pc : nat) : Node :=
  update_conn n pc (λ c, MkPeerConn (pc_nodeID c) (pc_writeCh c) (pc_writerStopped c) true (pc_wire c)).

(** [pc.stopWriter()]: no more sends; the control connection is closed, so what
    is queued is not delivered. *)
Definition stopWriter (n : Node) (pc : nat) : Node :=
  update_conn n pc (λ c, MkPeerConn (pc_nodeID c) [] true (pc_dead c) (pc_wire c)).

Definition sendToPeer (n : Node) (nodeID : gostring) (frame : ControlFrame) : Node * bool :=
  match peerManager_Get (n_peers n) nodeID with
  | None => (n, false)
  | Some pc => sendControl n pc frame
  end.

(** ** Hop budget *)

(** [ceil(log2(max(peerCount, 32))) + 4]; the float logarithm of a peer count is
    exact at the powers of two and between its neighbours elsewhere. *)
Definition defaultSonarHops (peerCount : Z) : Z :=
  let base := if peerCount <? 32 then 32 else peerCount in
  (Z.log2_up base + 4) mod 2 ^ 32.

Definition Node_MaxSonarHops (n : Node) : Z :=
  if negb (n_maxSonarHops n =? 0) then n_maxSonarHops n
  else defaultSonarHops (peerManager_Count (n_peers n)).

Section runtime.
Context `{GoRange} `{GoSort}.

Definition peerManager_All (pm : peerManager) : list nat := map snd (range_map pm).

(** The peers in turn; the result counts the sends that were queued and those
    that were dropped. *)
Definition broadcast_to (n : Node) (pcs : list nat) (excludeNodeID : option gostring)
    (frame : ControlFrame) : Node * (Z * Z) :=
  fold_left (λ '(n, (sent, dropped)) pc,
      match n_conns n !! pc with
      | Some c =>
          if bool_decide (Some (pc_nodeID c) = excludeNodeID) then (n, (sent, dropped))
          else
            let '(n, ok) := sendControl n pc frame in
            if ok : bool then (n, (sent + 1, dropped)) else (n, (sent, dropped + 1))
      | None => (n, (sent, dropped))
      end)
    pcs (n, (0, 0)).

Definition broadcastExceptPeer (n : Node) (excludeNodeID : gostring) (frame : ControlFrame)
    : Node * (Z * Z) :=
  broadcast_to n (peerManager_All (n_peers n)) (Some excludeNodeID) frame.

(** [broadcastAllPeers], and [broadcastAllRaw] of the marshaled frame *)
Definition broadcastAllPeers (n : Node) (frame : ControlFrame) : Node * (Z * Z) :=
  broadcast_to n (peerManager_All (n_peers n)) None frame.

(** ** Gossip *)

Definition handleGossipFrame (now : Z) (n : Node) (gossip : GossipFrame) : Node :=
  let routes := map (λ e, MkGossipRoute e.1 e.2) (range_map (gf_Routes gossip)) in
  let vec := MkGossipVector (gf_FromNode gossip) (gf_FromImpedance gossip) routes [] None in
  let n := set_gradient n (GradientTable_ProcessGossip now (n_gradient n) vec) in
  let n :=
    if bool_decide (gf_FromCapabilities gossip = []) then n
    else set_capIndex n (CapabilityIndex_Update now (n_capIndex n) (gf_FromNode gossip)
                           (gf_FromImpedance gossip) (gf_FromCapabilities gossip)) in
  fold_left (λ n '(nodeID, caps),
      if bool_decide (nodeID = Manifest_NodeID (n_manifest n)) then n
      else if bool_decide (caps = []) then n
      else
        let impedance :=
          match gf_Routes gossip !! nodeID with
          | Some routeCost => f64_add routeCost (gf_FromImpedance gossip)
          | None => f64_of_Z 100
          end in
        set_capIndex n (CapabilityIndex_Update now (n_capIndex n) nodeID impedance caps))
    (range_map (gf_NodeCapabilities gossip)) n.

(** The frame of a gossip vector: a map has one cost per target. *)
Definition gossip_frame (g : GossipVector) : GossipFrame :=
  MkGossipFrame (gv_FromNodeID g) (gv_FromImpedance g)
    (fold_left (λ m r, <[gr_TargetID r := gr_Cost r]> m) (gv_Routes g) ∅)
    (gv_FromCapabilities g) (default ∅ (gv_NodeCapabilities g)).

(** [marshal_ok]: whether the protobuf library accepts the frame. *)
Definition sendGossipToAll (marshal_ok : ControlFrame → bool) (now : Z) (n : Node) : Node :=
  let n :=
    if 0 <? n_capabilityStaleTTL n
    then set_capIndex n (fst (CapabilityIndex_PurgeStale now (n_capIndex n) (n_capabilityStaleTTL n)))
    else n in
  let n := set_gradient n (fst (GradientTable_PurgeStale now (n_gradient n) (i64 (3 * n_gossipInterval n)))) in
  let input :=
    MkGossipInput (Manifest_Capabilities (n_manifest n)) (CapabilityIndex_Snapshot (n_capIndex n)) in
  let '(gt, gossip) :=
    GradientTable_GenerateGossip (n_gradient n) (Manifest_Impedance (n_manifest n)) input in
  let n := set_gradient n gt in
  let frame := CF_Gossip (gossip_frame gossip) in
  if marshal_ok frame then fst (broadcastAllPeers n frame) else n.

(** ** Discovery *)

Definition handleWhoHasFrame (now : Z) (n : Node) (pc : nat) (whoHas : WhoHasFrame) : Node :=
  if bool_decide (wh_OriginID whoHas = Manifest_NodeID (n_manifest n)) then n
  else
    let '(s, (resp, firstSeen)) := Sonar_ProcessWhoHas now (n_manifest n) (n_sonar n) whoHas in
    let n := set_sonar n s in
    if negb firstSeen then n
    else
      let n :=
        match resp with
        | Some resp => fst (sendControl n pc (CF_IHave (MkIHaveMsg resp (wh_OriginID whoHas))))
        | None => n
        end in
      if bool_decide (wh_OriginID whoHas = Manifest_NodeID (n_manifest n)) then n
      else if wh_MaxHops whoHas =? 0 then n
      else
        let fwdFrame :=
          CF_WhoHas (MkWhoHasFrame (wh_UUID whoHas) (wh_Capability whoHas) (wh_OriginID whoHas)
                       (u32 (wh_MaxHops whoHas - 1))) in
        match n_conns n !! pc with
        | Some c => fst (broadcastExceptPeer n (pc_nodeID c) fwdFrame)
        | None => n
        end.

Definition handleIHaveFrame (n : Node) (iHave : IHaveMsg) : Node :=
  let '(s, delivered) := Sonar_DeliverResponse (n_sonar n) (im_IHave iHave) in
  let n := set_sonar n s in
  if delivered then n
  else if bool_decide (im_OriginNode iHave = []) then n
  else
    match GradientTable_BestRoute (n_gradient n) (im_OriginNode iHave) with
    | None => n
    | Some route => fst (sendToPeer n (pc_NextHop route) (CF_IHave iHave))
    end.

(** [Sonar] up to the wait for replies: the collector to wait on. *)
Definition Node_Sonar (n : Node) (capability : gostring) : Node * nat :=
  let '(s, whoHas) := Sonar_CreateWhoHas (n_manifest n) (n_sonar n) capability (Node_MaxSonarHops n) in
  let '(s, collector) := Sonar_StartCollection s (wh_UUID whoHas) in
  (fst (broadcastAllPeers (set_sonar n s) (CF_WhoHas whoHas)), collector).

(** ** Bootstrap *)

Definition bootstrapChunkSize : nat := 500.

Definition host_table (chunk : list ResolverEntry) : gmap gostring HostEntry :=
  fold_left (λ hosts entry,
      <[re_Hostname entry := MkHostEntry (re_Addresses entry) (re_Transport entry) (re_ProxyURL entry)]> hosts)
    chunk ∅.

Definition buildBootstrapFrame (now : Z) (n : Node) : BootstrapFrame :=
  MkBootstrapFrame (host_table (Resolver_AllEntries now (n_resolver n))) 0 1
    (u32 (n_protocolVersion n)) (n_applicationVersion n).

(** The loop over the chunks; every turn takes at least one entry. *)
Fixpoint bootstrap_loop (fuel : nat) (n : Node) (totalChunks : Z) (i : nat)
    (entries : list ResolverEntry) : list BootstrapFrame :=
  match fuel with
  | O => []
  | S fuel =>
      match entries with
      | [] => []
      | _ =>
          MkBootstrapFrame (host_table (take bootstrapChunkSize entries)) (u32 (Z.of_nat i))
            (u32 totalChunks) (u32 (n_protocolVersion n)) (n_applicationVersion n)
          :: bootstrap_loop fuel n totalChunks (S i) (drop bootstrapChunkSize entries)
      end
  end.

Definition buildBootstrapFrames (now : Z) (n : Node) : list BootstrapFrame :=
  match Resolver_AllEntries now (n_resolver n) with
  | [] => [MkBootstrapFrame ∅ 0 1 (u32 (n_protocolVersion n)) (n_applicationVersion n)]
  | entries =>
      let len := Z.of_nat (length entries) in
      let size := Z.of_nat bootstrapChunkSize in
      bootstrap_loop (length entries) n ((len + size - 1) / size) 0 entries
  end.

Definition frame_entries (bf : BootstrapFrame) : list ResolverEntry :=
  map (λ '(hostname, he),
      MkResolverEntry hostname (he_Addresses he) (he_Transport he) (he_ProxyUrl he) None)
    (range_map (bf_Hosts bf)).

Definition handleBootstrapFrame (n : Node) (pc : nat) (bf : BootstrapFrame) : outcome Node :=
  if negb (bf_ProtocolVersion bf =? u32 (n_protocolVersion n)) then Ret (closeDead n pc)
  else if bool_decide (bf_Hosts bf = ∅) then Ret n
  else set_resolver n <$> Resolver_Merge (n_resolver n) (frame_entries bf).

(** [startControlLoop]'s dispatch of one frame *)
Definition handle_frame (now : Z) (n : Node) (pc : nat) (frame : ControlFrame) : outcome Node :=
  match frame with
  | CF_Gossip g => Ret (handleGossipFrame now n g)
  | CF_WhoHas w => Ret (handleWhoHasFrame now n pc w)
  | CF_IHave h => Ret (handleIHaveFrame n h)
  | CF_Bootstrap b => handleBootstrapFrame n pc b
  end.

End runtime.

(** ** Creation *)

(** The configuration, less the vault and the dialer. *)
Record NodeConfig := MkNodeConfig {
  cfg_NodeID : gostring;
  cfg_ProtocolVersion : Z;
  cfg_ApplicationVersion : gostring;
  cfg_KnownHosts : gmap gostring (list gostring);
  cfg_Events : NodeEvents;
  cfg_Reconnect : ReconnectPolicy;
  cfg_GossipInterval : Z;
  cfg_CapabilityStaleTTL : Z;
  cfg_MaxCapabilityLength : Z;
  cfg_MaxCapabilitiesPerNode : Z;
  cfg_MaxSonarHops : Z;
  cfg_SonarSeenTTL : Z
}.

Definition NewNode `{GoRange} (now : Z) (cfg : NodeConfig) : outcome Node :=
  if bool_decide (cfg_NodeID cfg = []) then Err (Errorf "api: NodeID is required")
  else
    let manifest := NewManifest (cfg_NodeID cfg) in
    let resolver :=
      if bool_decide (cfg_KnownHosts cfg = ∅) then NewResolver
      else Resolver_SeedKnownHosts now NewResolver (cfg_KnownHosts cfg) in
    let gossipInterval := if cfg_GossipInterval cfg =? 0 then 3 * second else cfg_GossipInterval cfg in
    let capabilityStaleTTL :=
      if cfg_CapabilityStaleTTL cfg =? 0 then i64 (3 * gossipInterval) else cfg_CapabilityStaleTTL cfg in
    let capIndex :=
      CapabilityIndex_SetLimits NewCapabilityIndex
        (MkIngestLimits (cfg_MaxCapabilityLength cfg) (cfg_MaxCapabilitiesPerNode cfg)) in
    let sonarOpts := if 0 <? cfg_SonarSeenTTL cfg then [WithSeenTTL (cfg_SonarSeenTTL cfg)] else [] in
    let reconnect :=
      if bool_decide (cfg_Reconnect cfg = MkReconnectPolicy false 0 0 0 0)
      then DefaultReconnectPolicy else cfg_Reconnect cfg in
    Ret (MkNode manifest (NewSonar manifest sonarOpts) (NewGradientTable (cfg_NodeID cfg)) resolver
           capIndex ∅ [] (cfg_ProtocolVersion cfg) (cfg_ApplicationVersion cfg) (cfg_Events cfg)
           reconnect gossipInterval capabilityStaleTTL (cfg_MaxSonarHops cfg)).

(** ** Peers joining and dying *)

Definition default_impedance : float64 := f64_of_Z 1.

(** The end of [AddPeer] once the handshake has named the peer: register the
    connection, make it a direct neighbor, tell the program. *)
Definition register_peer (now : Z) (n : Node) (peerID : gostring) : Node * list event :=
  let pc := length (n_conns n) in
  let n := set_conns n (n_conns n ++ [newPeerConnWithWriter peerID]) in
  let n := set_peers n (peerManager_Add (n_peers n) peerID pc) in
  let n := set_gradient n (GradientTable_AddDirectNeighbor now (n_gradient n) peerID default_impedance) in
  (n, if ev_OnPeerJoined (n_events n) then [PeerJoined peerID] else []).

Definition handlePeerDeath (n : Node) (pc : nat) : Node * list event :=
  match n_conns n !! pc with
  | None => (n, [])
  | Some c =>
      let n := closeDead n pc in
      let n := set_peers n (peerManager_Remove (n_peers n) (pc_nodeID c)) in
      let remaining := peerManager_Count (n_peers n) in
      let n := set_gradient n (GradientTable_RemoveNeighbor (n_gradient n) (pc_nodeID c)) in
      let n := stopWriter n pc in
      (n,
       (if ev_OnPeerLost (n_events n) then [PeerLost (pc_nodeID c)] else []) ++
       (if remaining =? 0 then
          (if ev_OnIsolated (n_events n) then [Isolated] else []) ++
          (if rp_Enabled (n_reconnect n) then [ReconnectStarted] else [])
        else []))
  end.

(** ** The network

    Nodes by name. A writer moves frames from a queue to the wire; the node the
    connection is named for reads them on a connection named for the sender and
    handles them. Wires can fail, peers die, nodes gossip, and whatever does not
    send frames or add peers may happen at any time. *)

Abbreviation net := (gmap gostring Node).

Inductive label := L_WhoHas | L_IHave | L_other.

Definition frame_label (f : ControlFrame) : label :=
  match f with CF_WhoHas _ => L_WhoHas | CF_IHave _ => L_IHave | _ => L_other end.

Definition set_wire (pc : peerConn) (w : list ControlFrame) : peerConn :=
  MkPeerConn (pc_nodeID pc) (pc_writeCh pc) (pc_writerStopped pc) (pc_dead pc) w.

Section network.
Context `{GoRange} `{GoSort}.

Inductive net_step : net → label → net → Prop :=
| ns_write (N : net) a n i c f q :
    N !! a = Some n → n_conns n !! i = Some c → pc_writeCh c = f :: q →
    net_step N L_other (<[a := update_conn n i (λ c, set_wire (set_writeCh c q) (pc_wire c ++ [f]))]> N)
| ns_read (N N1 : net) a n i c f w b nb j cb now nb' :
    N !! a = Some n → n_conns n !! i = Some c → pc_wire c = f :: w →
    N1 = <[a := update_conn n i (λ c, set_wire c w)]> N →
    b = pc_nodeID c → N1 !! b = Some nb → n_conns nb !! j = Some cb → pc_nodeID cb = a →
    handle_frame now nb j f = Ret nb' →
    net_step N (frame_label f) (<[b := nb']> N1)
| ns_lose (N : net) a n i :
    N !! a = Some n → net_step N L_other (<[a := update_conn n i (λ c, set_wire c [])]> N)
| ns_gossip (N : net) a n ok now :
    N !! a = Some n → net_step N L_other (<[a := sendGossipToAll ok now n]> N)
| ns_death (N : net) a n i :
    N !! a = Some n → net_step N L_other (<[a := fst (handlePeerDeath n i)]> N)
| ns_local (N : net) a n n' :
    N !! a = Some n → n_conns n' = n_conns n → n_peers n' = n_peers n →
    net_step N L_other (<[a := n']> N).

Inductive net_run : net → list label → net → Prop :=
| nr_refl N : net_run N [] N
| nr_step N1 l N2 tr N3 : net_step N1 l N2 → net_run N2 tr N3 → net_run N1 (l :: tr) N3.

End network.

(** ** What a flood can cost *)

(** The handlings a query frame with [h] hops left can cause where no node has
    more than [D] peers: 1 + D + ... + D^h. *)
Fixpoint flood_cost (D h : nat) : nat :=
  match h with
  | O => 1
  | S h => 1 + D * flood_cost D h
  end.

(** The hops a query has left. A value that no [uint32] has is worth one more than
    them all. *)
Definition hops_left (h : Z) : nat :=
  if (0 <=? h) && (h <? 2 ^ 32) then Z.to_nat h else Z.to_nat (2 ^ 32).

Definition frame_cost (D : nat) (f : ControlFrame) : nat :=
  match f with CF_WhoHas w => flood_cost D (hops_left (wh_MaxHops w)) | _ => 0 end.

Definition conn_cost (D : nat) (c : peerConn) : nat :=
  sum_list_with (frame_cost D) (pc_writeCh c) + sum_list_with (frame_cost D) (pc_wire c).

Definition node_cost (D : nat) (n : Node) : nat := sum_list_with (conn_cost D) (n_conns n).

Definition net_cost (D : nat) (N : net) : nat := sum_list_with (λ e, node_cost D e.2) (map_to_list N).

Definition degree_le (D : nat) (N : net) : Prop := map_Forall (λ _ n, (size (n_peers n) ≤ D)%nat) N.

Definition count_IHave (tr : list label) : nat :=
  sum_list_with (λ l, match l with L_IHave => 1%nat | _ => 0%nat end) tr.

Definition count_WhoHas (tr : list label) : nat :=
  sum_list_with (λ l, match l with L_WhoHas => 1%nat | _ => 0%nat end) tr.

(** ** Lemmas: costs *)

Lemma sum_alter {A} (w : A → nat) (f : A → A) i l x :
  l !! i = Some x →
  (sum_list_with w (alter f i l) + w x = sum_list_with w l + w (f x))%nat.
Proof.
  revert i. induction l as [|y l IH]; intros [|i] Hi; [done..| |].
  - injection Hi as ->. change (alter f 0%nat (x :: l)) with (f x :: l). simpl. lia.
  - change (alter f (S i) (y :: l)) with (y :: alter f i l). specialize (IH i Hi). simpl. lia.
Qed.

Lemma alter_none {A} (f : A → A) i (l : list A) : l !! i = None → alter f i l = l.
Proof.
  revert i. induction l as [|x l IH]; intros [|i] Hi; [done..|].
  change (alter f (S i) (x :: l)) with (x :: alter f i l). f_equal. by apply IH.
Qed.

Lemma node_cost_update D n i c f :
  n_conns n !! i = Some c →
  (node_cost D (update_conn n i f) + conn_cost D c = node_cost D n + conn_cost D (f c))%nat.
Proof. apply sum_alter. Qed.

Lemma node_cost_update_le D n i f :
  (∀ c, conn_cost D (f c) ≤ conn_cost D c)%nat → (node_cost D (update_conn n i f) ≤ node_cost D n)%nat.
Proof.
  intros Hf. destruct (n_conns n !! i) as [c|] eqn:E.
  - pose proof (node_cost_update D n i c f E). specialize (Hf c). lia.
  - unfold node_cost. simpl. by rewrite alter_none.
Qed.

Lemma net_cost_insert D N a n n' :
  N !! a = Some n →
  (net_cost D (<[a := n']> N) + node_cost D n = net_cost D N + node_cost D n')%nat.
Proof.
  intros Ha. unfold net_cost. rewrite <-insert_delete_eq.
  assert (∀ l1 l2 : list (gostring * Node), l1 ≡ₚ l2 →
    sum_list_with (λ e, node_cost D e.2) l1 = sum_list_with (λ e, node_cost D e.2) l2) as Hp
    by (intros l1 l2 ->; done).
  rewrite (Hp _ _ (map_to_list_insert (delete a N) a n' (lookup_delete_eq _ _))).
  rewrite <-(Hp _ _ (map_to_list_delete N a n Ha)). simpl. lia.
Qed.

Lemma sendControl_cost D n pc f :
  (node_cost D (fst (sendControl n pc f)) ≤ node_cost D n + frame_cost D f)%nat.
Proof.
  unfold sendControl. destruct (n_conns n !! pc) as [c|] eqn:E; simpl; [|lia].
  destruct (pc_writerStopped c); simpl; [lia|]. case_match; simpl; [|lia].
  pose proof (node_cost_update D n pc c (λ c, set_writeCh c (pc_writeCh c ++ [f])) E) as Hu.
  unfold conn_cost in Hu. simpl in Hu. rewrite sum_list_with_app in Hu. simpl in Hu.
  unfold set_conns, node_cost in *. simpl in *. lia.
Qed.

(** What a send leaves alone. *)
Lemma sendControl_frame n pc f :
  let n' := fst (sendControl n pc f) in
  n_peers n' = n_peers n ∧ n_manifest n' = n_manifest n ∧ n_sonar n' = n_sonar n ∧
  n_gradient n' = n_gradient n ∧ n_capIndex n' = n_capIndex n ∧ n_resolver n' = n_resolver n.
Proof.
  unfold sendControl. destruct (n_conns n !! pc); [|done]. destruct (pc_writerStopped _); [done|].
  by case_match.
Qed.

Lemma flood_cost_mono D h h' : (h ≤ h')%nat → (flood_cost D h ≤ flood_cost D h')%nat.
Proof.
  revert h'. induction h as [|h IH]; intros [|h'] Hh; simpl; try lia.
  specialize (IH h' ltac:(lia)). nia.
Qed.

(** A query that may be forwarded pays for its copies. *)
Lemma flood_cost_forward D h :
  h ≠ 0 → (1 + D * flood_cost D (hops_left (u32 (h - 1))) ≤ flood_cost D (hops_left h))%nat.
Proof.
  intros Hh. assert (0 ≤ u32 (h - 1) < 2 ^ 32) as Hu by (apply Z.mod_pos_bound; lia).
  assert (S (hops_left (u32 (h - 1))) ≤ hops_left h)%nat as Hle.
  { unfold hops_left at 1. rewrite (proj2 (Z.leb_le _ _)), (proj2 (Z.ltb_lt _ _)) by lia. cbn [andb].
    unfold hops_left. destruct (Z.leb_spec 0 h), (Z.ltb_spec h (2 ^ 32)); cbn [andb]; try lia.
    unfold u32 in *. rewrite Z.mod_small by lia. lia. }
  apply (flood_cost_mono D) in Hle. cbn [flood_cost] in Hle. lia.
Qed.

Section flood.
Context `{GoRange} `{GoSort}.

Lemma broadcast_to_cost D pcs ex f n :
  let n' := fst (broadcast_to n pcs ex f) in
  n_peers n' = n_peers n ∧ (node_cost D n' ≤ node_cost D n + length pcs * frame_cost D f)%nat.
Proof.
  cbn zeta. unfold broadcast_to. generalize (0, 0). revert n.
  induction pcs as [|pc pcs IH]; intros n [x y]; [split; [done|simpl; lia]|]. cbn [fold_left length].
  destruct (n_conns n !! pc) as [c|]; [|specialize (IH n (x, y)); destruct IH as [-> ?]; split; [done|lia]].
  case_bool_decide; [specialize (IH n (x, y)); destruct IH as [-> ?]; split; [done|lia]|].
  pose proof (sendControl_cost D n pc f) as Hc. pose proof (sendControl_frame n pc f) as Hf.
  cbn zeta in Hf. destruct (sendControl n pc f) as [n1 ok]. simpl in Hc, Hf. destruct Hf as (Hf & _).
  destruct ok; [specialize (IH n1 (x + 1, y))|specialize (IH n1 (x, y + 1))];
    destruct IH as [-> ?]; split; try done; lia.
Qed.

Lemma peerManager_All_length pm : length (peerManager_All pm) = size pm.
Proof.
  unfold peerManager_All. rewrite length_map, <-length_map_to_list. by rewrite range_map_perm.
Qed.

Lemma broadcastAll_cost D f n :
  let n' := fst (broadcastAllPeers n f) in
  n_peers n' = n_peers n ∧ (node_cost D n' ≤ node_cost D n + size (n_peers n) * frame_cost D f)%nat.
Proof. cbn zeta. rewrite <-peerManager_All_length. apply broadcast_to_cost. Qed.

Lemma broadcastExcept_cost D ex f n :
  let n' := fst (broadcastExceptPeer n ex f) in
  n_peers n' = n_peers n ∧ (node_cost D n' ≤ node_cost D n + size (n_peers n) * frame_cost D f)%nat.
Proof. cbn zeta. rewrite <-peerManager_All_length. apply broadcast_to_cost. Qed.

Lemma handleWhoHas_cost D now n pc w :
  (size (n_peers n) ≤ D)%nat →
  let n' := handleWhoHasFrame now n pc w in
  n_peers n' = n_peers n ∧
  (node_cost D n' + 1 ≤ node_cost D n + flood_cost D (hops_left (wh_MaxHops w)))%nat.
Proof.
  intros HD. cbn zeta. unfold handleWhoHasFrame.
  assert (∀ h, 1 ≤ flood_cost D h)%nat as H1 by (intros []; simpl; lia).
  specialize (H1 (hops_left (wh_MaxHops w))).
  case_bool_decide as Ho; [split; [done|lia]|].
  destruct (Sonar_ProcessWhoHas now (n_manifest n) (n_sonar n) w) as [s [resp first]].
  assert (node_cost D (set_sonar n s) = node_cost D n) as Hs by done.
  destruct first; cbn [negb]; [|split; [done|rewrite Hs; lia]].
  set (n1 := match resp with Some _ => _ | None => _ end).
  assert (n_peers n1 = n_peers n ∧ n_manifest n1 = n_manifest n ∧ node_cost D n1 ≤ node_cost D n)%nat
    as (Hp1 & Hm1 & Hc1).
  { unfold n1. destruct resp as [resp|]; [|by rewrite Hs].
    pose proof (sendControl_cost D (set_sonar n s) pc (CF_IHave (MkIHaveMsg resp (wh_OriginID w)))) as Hc.
    pose proof (sendControl_frame (set_sonar n s) pc (CF_IHave (MkIHaveMsg resp (wh_OriginID w)))) as Hf.
    cbn zeta in Hf. destruct Hf as (-> & -> & _). simpl in Hc. rewrite Hs in Hc. split_and!; [done|done|lia]. }
  clearbody n1. rewrite Hm1. rewrite bool_decide_false by done.
  destruct (Z.eqb_spec (wh_MaxHops w) 0); [split; [done|lia]|].
  destruct (n_conns n1 !! pc) as [c|]; [|split; [done|lia]].
  destruct (broadcastExcept_cost D (pc_nodeID c)
    (CF_WhoHas (MkWhoHasFrame (wh_UUID w) (wh_Capability w) (wh_OriginID w) (u32 (wh_MaxHops w - 1)))) n1) as [-> Hb].
  split; [done|]. cbn [frame_cost wh_MaxHops] in Hb. rewrite Hp1 in Hb.
  pose proof (flood_cost_forward D (wh_MaxHops w) ltac:(done)). nia.
Qed.

Lemma handle_frame_cost D now n pc f n' :
  (size (n_peers n) ≤ D)%nat →
  handle_frame now n pc f = Ret n' →
  n_peers n' = n_peers n ∧
  (node_cost D n' + (match frame_label f with L_WhoHas => 1 | _ => 0 end) ≤ node_cost D n + frame_cost D f)%nat.
Proof.
  intros HD. destruct f as [g|w|m|b]; simpl.
  - intros [= <-]. unfold handleGossipFrame.
    set (l := range_map (gf_NodeCapabilities g)). clearbody l.
    match goal with |- context [fold_left ?step l ?n0] => set (st := step); set (n1 := n0) end.
    assert (n_peers n1 = n_peers n ∧ n_conns n1 = n_conns n) as H1
      by (unfold n1; case_bool_decide; done).
    clearbody n1. assert (n_peers (fold_left st l n1) = n_peers n ∧ n_conns (fold_left st l n1) = n_conns n) as [-> Hc].
    { revert n1 H1. induction l as [|[id caps] l IH]; intros n1 H1; [done|]. simpl. apply IH.
      unfold st. by repeat case_bool_decide. }
    split; [done|]. unfold node_cost. rewrite Hc. lia.
  - intros [= <-]. by apply handleWhoHas_cost.
  - intros [= <-]. unfold handleIHaveFrame. destruct (Sonar_DeliverResponse (n_sonar n) (im_IHave m)) as [s d].
    assert (node_cost D (set_sonar n s) = node_cost D n) as Hs by done.
    destruct d; [split; [done|lia]|]. case_bool_decide; [split; [done|lia]|]. simpl.
    destruct (GradientTable_BestRoute _ _) as [route|]; [|split; [done|lia]].
    unfold sendToPeer. destruct (peerManager_Get _ _) as [j|]; [|split; [simpl; done|simpl; lia]].
    pose proof (sendControl_cost D (set_sonar n s) j (CF_IHave m)) as Hc.
    destruct (sendControl_frame (set_sonar n s) j (CF_IHave m)) as (-> & _).
    split; [done|]. simpl in Hc. lia.
  - unfold handleBootstrapFrame. destruct (negb _).
    + intros [= <-]. split; [done|]. unfold closeDead.
      pose proof (node_cost_update_le D n pc (λ c, MkPeerConn (pc_nodeID c) (pc_writeCh c)
        (pc_writerStopped c) true (pc_wire c))) as Hu. specialize (Hu ltac:(done)). lia.
    + case_bool_decide; [intros [= <-]; split; [done|lia]|].
      destruct (Resolver_Merge _ _) as [r| | |]; intros [= <-]. split; [done|].
      unfold node_cost. simpl. lia.
Qed.

Lemma sendGossip_cost D ok now n :
  n_peers (sendGossipToAll ok now n) = n_peers n ∧
  (node_cost D (sendGossipToAll ok now n) ≤ node_cost D n)%nat.
Proof.
  unfold sendGossipToAll.
  match goal with |- context [if 0 <? n_capabilityStaleTTL n then ?n1 else n] =>
    set (n2 := if 0 <? n_capabilityStaleTTL n then n1 else n) end.
  assert (n_peers n2 = n_peers n ∧ node_cost D n2 = node_cost D n) as [Hp Hc]
    by (unfold n2; by case_match).
  clearbody n2. cbn zeta. destruct (GradientTable_GenerateGossip _ _ _) as [gt gossip].
  destruct (ok _); [|split; [exact Hp|change (node_cost D n2 ≤ node_cost D n)%nat; lia]].
  match goal with |- context [broadcastAllPeers ?n3 ?f] =>
    destruct (broadcastAll_cost D f n3) as [-> Hb] end.
  split; [exact Hp|]. etrans; [exact Hb|]. cbn [frame_cost]. rewrite Nat.mul_0_r, Nat.add_0_r.
  change (node_cost D n2 ≤ node_cost D n)%nat. lia.
Qed.

Lemma handlePeerDeath_cost D n i :
  (size (n_peers (fst (handlePeerDeath n i))) ≤ size (n_peers n))%nat ∧
  (node_cost D (fst (handlePeerDeath n i)) ≤ node_cost D n)%nat.
Proof.
  unfold handlePeerDeath. destruct (n_conns n !! i) as [c|]; [|done]. simpl. split.
  - apply map_subseteq_size, delete_subseteq.
  - unfold stopWriter. etrans; [apply node_cost_update_le|].
    + intros c'. unfold conn_cost. simpl. lia.
    + unfold closeDead. apply node_cost_update_le. done.
Qed.

Lemma net_step_cost D N l N' :
  net_step N l N' → degree_le D N →
  degree_le D N' ∧
  (net_cost D N' + match l with L_WhoHas => 1 | _ => 0 end ≤ net_cost D N)%nat.
Proof.
  assert (∀ N a n n', N !! a = Some n → degree_le D N → (size (n_peers n') ≤ size (n_peers n))%nat →
    degree_le D (<[a := n']> N)) as Hdeg.
  { intros M a n n' Ha HD Hs. apply map_Forall_insert_2; [|done].
    pose proof (HD a n Ha) as Hd. cbn beta in Hd. lia. }
  assert (∀ N a n n', N !! a = Some n → degree_le D N → (size (n_peers n') ≤ size (n_peers n))%nat →
    (node_cost D n' ≤ node_cost D n)%nat →
    degree_le D (<[a := n']> N) ∧ (net_cost D (<[a := n']> N) + 0 ≤ net_cost D N)%nat) as Hle.
  { intros M a n n' Ha HD Hs Hc. split; [by eapply Hdeg|].
    pose proof (net_cost_insert D M a n n' Ha). lia. }
  intros [M a n i c f q Ha Hi Hq|M M1 a n i c f w b nb j cb now nb' Ha Hi Hw -> _ Hb _ _ Hf|M a n i Ha
    |M a n ok now Ha|M a n i Ha|M a n n' Ha Hcs Hps] HD.
  - apply (Hle M a n); [done..|]. pose proof (node_cost_update D n i c
      (λ c, set_wire (set_writeCh c q) (pc_wire c ++ [f])) Hi) as Hu. cbn beta in Hu.
    assert (conn_cost D (set_wire (set_writeCh c q) (pc_wire c ++ [f])) = conn_cost D c) as He.
    { unfold conn_cost. simpl. rewrite Hq, sum_list_with_app. simpl. lia. }
    lia.
  - pose proof (node_cost_update D n i c (λ c, set_wire c w) Hi) as Hu. cbn beta in Hu.
    assert (conn_cost D c = conn_cost D (set_wire c w) + frame_cost D f)%nat as He.
    { unfold conn_cost. simpl. rewrite Hw. simpl. lia. }
    pose proof (net_cost_insert D M a n (update_conn n i (λ c, set_wire c w)) Ha) as Hn.
    assert (degree_le D (<[a := update_conn n i (λ c, set_wire c w)]> M)) as HD1 by (by eapply Hdeg).
    destruct (handle_frame_cost D now nb j f nb') as [Hp Hc]; [by apply (HD1 b nb)|done..|].
    pose proof (net_cost_insert D _ b nb nb' Hb) as Hn'.
    split; [|lia]. eapply Hdeg; [done..|]. by rewrite Hp.
  - apply (Hle M a n); [done..|]. apply node_cost_update_le. intros c. unfold conn_cost. simpl. lia.
  - destruct (sendGossip_cost D ok now n) as [Hp Hc]. apply (Hle M a n); [done..|by rewrite Hp|done].
  - destruct (handlePeerDeath_cost D n i). by apply (Hle M a n).
  - apply (Hle M a n); [done..|by rewrite Hps|]. unfold node_cost. by rewrite Hcs.
Qed.

Lemma net_run_cost D N tr N' :
  net_run N tr N' → degree_le D N → (count_WhoHas tr + net_cost D N' ≤ net_cost D N)%nat.
Proof.
  intros Hrun. induction Hrun as [M|M1 l M2 tr M3 Hs _ IH]; intros HD; simpl; [lia|].
  destruct (net_step_cost D M1 l M2 Hs HD) as [HD2 Hc]. specialize (IH HD2). destruct l; lia.
Qed.

Lemma Node_Sonar_cost D n cap :
  n_peers (fst (Node_Sonar n cap)) = n_peers n ∧
  (node_cost D (fst (Node_Sonar n cap)) ≤
   node_cost D n + size (n_peers n) * flood_cost D (hops_left (Node_MaxSonarHops n)))%nat.
Proof.
  unfold Node_Sonar. simpl.
  match goal with |- context [broadcastAllPeers ?n3 ?f] =>
    destruct (broadcastAll_cost D f n3) as [-> Hb] end.
  split; [done|exact Hb].
Qed.

End flood.

(** ** Lemmas: running the network *)

Section exec.
Context `{GoRange} `{GoSort}.

Inductive cmd :=
| C_write (a : gostring) (i : nat)
| C_read (a : gostring) (i j : nat) (now : Z)
| C_gossip (a : gostring) (now : Z)
| C_death (a : gostring) (i : nat).

(** The step a command names, if it can be taken. *)
Definition exec (c : cmd) (N : net) : option (label * net) :=
  match c with
  | C_write a i =>
      n ← N !! a; pc ← n_conns n !! i;
      match pc_writeCh pc with
      | [] => None
      | f :: q => Some (L_other, <[a := update_conn n i (λ c, set_wire (set_writeCh c q) (pc_wire c ++ [f]))]> N)
      end
  | C_read a i j now =>
      n ← N !! a; pc ← n_conns n !! i;
      match pc_wire pc with
      | [] => None
      | f :: w =>
          let N1 := <[a := update_conn n i (λ c, set_wire c w)]> N in
          nb ← N1 !! pc_nodeID pc; cb ← n_conns nb !! j;
          if bool_decide (pc_nodeID cb = a) then
            match handle_frame now nb j f with
            | Ret nb' => Some (frame_label f, <[pc_nodeID pc := nb']> N1)
            | _ => None
            end
          else None
      end
  | C_gossip a now => n ← N !! a; Some (L_other, <[a := sendGossipToAll (λ _, true) now n]> N)
  | C_death a i => n ← N !! a; Some (L_other, <[a := fst (handlePeerDeath n i)]> N)
  end.

Fixpoint exec_all (cs : list cmd) (N : net) : option (list label * net) :=
  match cs with
  | [] => Some ([], N)
  | c :: cs => '(l, N1) ← exec c N; '(tr, N2) ← exec_all cs N1; Some (l :: tr, N2)
  end.

Lemma exec_step c N l N' : exec c N = Some (l, N') → net_step N l N'.
Proof.
  destruct c as [a i|a i j now|a now|a i]; simpl.
  - intros (n & Ha & (pc & Hi & Hq)%bind_Some)%bind_Some. destruct (pc_writeCh pc) as [|f q] eqn:E; [done|].
    injection Hq as <- <-. by eapply ns_write.
  - intros (n & Ha & (pc & Hi & Hw)%bind_Some)%bind_Some. destruct (pc_wire pc) as [|f w] eqn:E; [done|].
    apply bind_Some in Hw as (nb & Hb & (cb & Hj & Hw)%bind_Some).
    case_bool_decide as Hcb; [|done]. simpl in Hw.
    destruct (handle_frame now nb j f) as [nb'| | |] eqn:Hf; [|done..]. injection Hw as <- <-.
    by eapply ns_read.
  - intros (n & Ha & [= <- <-])%bind_Some. by apply ns_gossip.
  - intros (n & Ha & [= <- <-])%bind_Some. by apply ns_death.
Qed.

Lemma exec_all_run cs N tr N' : exec_all cs N = Some (tr, N') → net_run N tr N'.
Proof.
  revert N tr. induction cs as [|c cs IH]; intros N tr; simpl; [intros [= <- <-]; constructor|].
  intros ([l N1] & Hc & ([tr' N2] & Hcs & [= <- <-])%bind_Some)%bind_Some.
  econstructor; [eapply exec_step; exact Hc|by apply IH].
Qed.

(** ** Lemmas: gossip and bootstrap *)

Lemma handleGossip_gradient now n g :
  n_gradient (handleGossipFrame now n g) =
  GradientTable_ProcessGossip now (n_gradient n)
    (MkGossipVector (gf_FromNode g) (gf_FromImpedance g)
       (map (λ e, MkGossipRoute e.1 e.2) (range_map (gf_Routes g))) [] None).
Proof.
  unfold handleGossipFrame.
  match goal with |- n_gradient (fold_left ?step _ ?n0) = _ => set (st := step); set (n1 := n0) end.
  assert (n_gradient n1 = GradientTable_ProcessGossip now (n_gradient n)
    (MkGossipVector (gf_FromNode g) (gf_FromImpedance g)
       (map (λ e, MkGossipRoute e.1 e.2) (range_map (gf_Routes g))) [] None)) as <-
    by (unfold n1; by case_bool_decide).
  clearbody n1. generalize (range_map (gf_NodeCapabilities g)). intros l. revert n1.
  induction l as [|[id caps] l IH]; intros n1; [done|]. simpl. rewrite IH.
  unfold st. by repeat case_bool_decide.
Qed.

Lemma NoDup_fst_range {V} (m : gmap gostring V) : NoDup (map fst (range_map m)).
Proof.
  assert (map fst (range_map m) ≡ₚ map fst (map_to_list m)) as -> by by rewrite range_map_perm.
  apply NoDup_fst_map_to_list.
Qed.

(** The cost of a node named in a gossip frame. *)
Definition gossip_cost (g : GossipFrame) (x : gostring) : float64 :=
  match gf_Routes g !! x with
  | Some c => f64_add c (gf_FromImpedance g)
  | None => f64_of_Z 100
  end.

(** What a gossip frame says of the capabilities of [x] to node [self]. *)
Definition gossip_says (self : gostring) (g : GossipFrame) (x : gostring)
    : option (list gostring * float64) :=
  match gf_NodeCapabilities g !! x with
  | Some (c :: cs) => if decide (x = self) then None else Some (c :: cs, gossip_cost g x)
  | _ => None
  end.

Definition sender_says (g : GossipFrame) (x : gostring) : option (list gostring * float64) :=
  if decide (x = gf_FromNode g ∧ gf_FromCapabilities g ≠ [])
  then Some (gf_FromCapabilities g, gf_FromImpedance g) else None.

Lemma accepted_update now ci n i caps x :
  accepted (CapabilityIndex_Update now ci n i caps) x = accepted ci x.
Proof.
  unfold accepted.
  assert (ci_limits (CapabilityIndex_Update now ci n i caps) = ci_limits ci) as Hl.
  { unfold CapabilityIndex_Update. cbn zeta.
    assert (ci_limits (purgeNodeLocked ci n) = ci_limits ci) as Hpl.
    { unfold purgeNodeLocked. by destruct (ci_byNode ci !! n). }
    destruct (ci_byNode ci !! n); [|done]. by destruct (_ && _). }
  unfold effectiveLimits. by rewrite Hl.
Qed.

Lemma handleGossip_view now n g x :
  ci_inv (n_capIndex n) →
  ci_inv (n_capIndex (handleGossipFrame now n g)) ∧
  view (n_capIndex (handleGossipFrame now n g)) x =
  match gossip_says (m_nodeID (n_manifest n)) g x with
  | Some (caps, i) => Some (accepted (n_capIndex n) caps, i, now)
  | None =>
      match sender_says g x with
      | Some (caps, i) => Some (accepted (n_capIndex n) caps, i, now)
      | None => view (n_capIndex n) x
      end
  end.
Proof.
  intros Hinv. unfold handleGossipFrame.
  match goal with |- context [fold_left ?step _ ?n0] => set (st := step); set (n1 := n0) end.
  assert (ci_inv (n_capIndex n1) ∧ n_manifest n1 = n_manifest n ∧
    (∀ caps, accepted (n_capIndex n1) caps = accepted (n_capIndex n) caps) ∧
    view (n_capIndex n1) x = match sender_says g x with
      | Some (caps, i) => Some (accepted (n_capIndex n) caps, i, now)
      | None => view (n_capIndex n) x end) as (Hi1 & Hm1 & Ha1 & Hv1).
  { unfold n1, sender_says. case_bool_decide as Hc; simpl.
    - split_and!; [done..|]. rewrite decide_False by tauto. done.
    - destruct (Update_spec now (n_capIndex n) (gf_FromNode g) (gf_FromImpedance g) (gf_FromCapabilities g) Hinv)
        as [Hi Hv]. split_and!; [done|done|intros; apply accepted_update|].
      rewrite Hv. destruct (decide (x = gf_FromNode g)); [rewrite decide_True|rewrite decide_False]; tauto. }
  rewrite <-Hv1. clear Hv1. clearbody n1.
  assert (gossip_says (m_nodeID (n_manifest n)) g x =
    match list_to_map (M := gmap gostring (list gostring)) (range_map (gf_NodeCapabilities g)) !! x with
    | Some (c :: cs) => if decide (x = m_nodeID (n_manifest n)) then None else Some (c :: cs, gossip_cost g x)
    | _ => None end) as ->.
  { unfold gossip_says. f_equal. assert (gf_NodeCapabilities g = list_to_map (range_map (gf_NodeCapabilities g))) as <-; [|done].
    rewrite <-(list_to_map_to_list (gf_NodeCapabilities g)) at 1. apply list_to_map_proper.
    - apply NoDup_fst_map_to_list.
    - by rewrite range_map_perm. }
  pose proof (NoDup_fst_range (gf_NodeCapabilities g)) as Hnd.
  induction (range_map (gf_NodeCapabilities g)) as [|[id caps] l IH] in n1, Hi1, Hm1, Ha1, Hnd |- *.
  - simpl. split; [done|]. by rewrite lookup_empty.
  - cbn [fold_left map] in *. apply NoDup_cons in Hnd as [Hid Hnd].
    assert (st n1 (id, caps) = if decide (id = m_nodeID (n_manifest n) ∨ caps = []) then n1
              else set_capIndex n1 (CapabilityIndex_Update now (n_capIndex n1) id (gossip_cost g id) caps)) as ->.
    { unfold st. rewrite Hm1. unfold Manifest_NodeID.
      repeat case_bool_decide; repeat case_decide; try done; tauto. }
    rewrite list_to_map_cons. destruct (decide (id = _ ∨ caps = [])) as [Hskip|Hskip].
    + destruct (IH n1) as [Hi Hv]; [done..|]. split; [done|]. rewrite Hv.
      destruct (decide (x = id)) as [->|]; [|by rewrite lookup_insert_ne by done].
      rewrite lookup_insert_eq, not_elem_of_list_to_map_1 by done.
      destruct Hskip as [->| ->]; [|done]. destruct caps; [done|]. by rewrite decide_True.
    + destruct (Update_spec now (n_capIndex n1) id (gossip_cost g id) caps Hi1) as [Hi2 Hv2].
      set (n2 := set_capIndex n1 _) in *.
      assert (∀ caps, accepted (n_capIndex n2) caps = accepted (n_capIndex n) caps) as Ha2.
      { intros caps'. unfold n2. simpl. by rewrite accepted_update. }
      destruct (IH n2 Hi2 Hm1 Ha2 Hnd) as [Hi Hv]. split; [done|]. rewrite Hv. unfold n2 at 1. simpl.
      rewrite Hv2. destruct (decide (x = id)) as [->|]; [|by rewrite lookup_insert_ne by done].
      rewrite lookup_insert_eq, not_elem_of_list_to_map_1 by done.
      destruct caps as [|c cs]; [tauto|]. rewrite decide_False by tauto. by rewrite Ha1.
Qed.

End exec.

Section boot.
Context `{GoRange}.

Definition strip (e : ResolverEntry) : ResolverEntry :=
  MkResolverEntry (re_Hostname e) (re_Addresses e) (re_Transport e) (re_ProxyURL e) None.

Definition host_of (e : ResolverEntry) : gostring * HostEntry :=
  (re_Hostname e, MkHostEntry (re_Addresses e) (re_Transport e) (re_ProxyURL e)).

Lemma host_table_list chunk acc :
  NoDup (map re_Hostname chunk) → (∀ e, e ∈ chunk → acc !! re_Hostname e = None) →
  map_to_list (fold_left (λ hosts entry,
      <[re_Hostname entry := MkHostEntry (re_Addresses entry) (re_Transport entry) (re_ProxyURL entry)]> hosts)
    chunk acc) ≡ₚ map host_of chunk ++ map_to_list acc.
Proof.
  revert acc. induction chunk as [|e chunk IH]; intros acc Hnd Hacc; [done|].
  simpl in Hnd. apply NoDup_cons in Hnd as [He Hnd]. cbn [fold_left map app]. rewrite IH; [|done|].
  - rewrite map_to_list_insert by (apply Hacc; by left). by rewrite Permutation_middle.
  - intros e' He'. rewrite lookup_insert_ne; [apply Hacc; by right|].
    intros Heq. apply He. rewrite Heq. by apply list_elem_of_fmap_2.
Qed.

Lemma frame_entries_chunk chunk seq total v av :
  NoDup (map re_Hostname chunk) →
  frame_entries (MkBootstrapFrame (host_table chunk) seq total v av) ≡ₚ map strip chunk ∧
  size (host_table chunk) = length chunk.
Proof.
  intros Hnd. pose proof (host_table_list chunk ∅ Hnd) as Hl.
  specialize (Hl (λ e _, lookup_empty _)). rewrite map_to_list_empty, app_nil_r in Hl. split.
  - unfold frame_entries. cbn [bf_Hosts]. rewrite range_map_perm. unfold host_table. rewrite Hl, map_map. done.
  - rewrite <-length_map_to_list. unfold host_table. by rewrite Hl, length_map.
Qed.

Lemma bootstrap_loop_spec fuel n total i entries :
  NoDup (map re_Hostname entries) → (length entries ≤ fuel)%nat →
  let frames := bootstrap_loop fuel n total i entries in
  (frames ≫= frame_entries) ≡ₚ map strip entries ∧
  Forall (λ bf, (size (bf_Hosts bf) ≤ bootstrapChunkSize)%nat ∧ bf_Total bf = u32 total ∧
            bf_ProtocolVersion bf = u32 (n_protocolVersion n)) frames ∧
  map bf_Sequence frames = map (λ k, u32 (Z.of_nat k)) (seq i (length frames)) ∧
  Z.of_nat (length frames) = (Z.of_nat (length entries) + 499) / 500.
Proof.
  revert i entries. induction fuel as [|fuel IH]; intros i entries Hnd Hf.
  { destruct entries; [|simpl in Hf; lia]. simpl. split_and!; [done|constructor|done|done]. }
  destruct entries as [|e es]; [simpl; split_and!; [done|constructor|done|done]|].
  set (all := e :: es) in *. cbn zeta.
  change (bootstrap_loop (S fuel) n total i all) with
    (MkBootstrapFrame (host_table (take bootstrapChunkSize all)) (u32 (Z.of_nat i)) (u32 total)
       (u32 (n_protocolVersion n)) (n_applicationVersion n)
     :: bootstrap_loop fuel n total (S i) (drop bootstrapChunkSize all)).
  assert (NoDup (map re_Hostname (take bootstrapChunkSize all)) ∧
          NoDup (map re_Hostname (drop bootstrapChunkSize all))) as [Hn1 Hn2].
  { rewrite <-(take_drop bootstrapChunkSize all), map_app in Hnd. apply NoDup_app in Hnd. tauto. }
  destruct (IH (S i) (drop bootstrapChunkSize all) Hn2) as (I1 & I2 & I3 & I4).
  { rewrite length_drop. unfold all, bootstrapChunkSize in *. simpl length in *. lia. }
  destruct (frame_entries_chunk (take bootstrapChunkSize all) (u32 (Z.of_nat i)) (u32 total)
    (u32 (n_protocolVersion n)) (n_applicationVersion n) Hn1) as [F1 F2].
  split_and!.
  - rewrite bind_cons, F1, I1, <-map_app, take_drop. done.
  - constructor; [|done]. cbn [bf_Hosts bf_Total bf_ProtocolVersion]. rewrite F2, length_take. split_and!; [lia|done|done].
  - cbn [map length seq bf_Sequence]. by rewrite I3.
  - cbn [length]. rewrite Nat2Z.inj_succ, I4, length_drop.
    assert (0 < length all)%nat by (unfold all; simpl; lia). unfold bootstrapChunkSize.
    destruct (decide (length all ≤ 500)%nat).
    + replace (length all - 500)%nat with 0%nat by lia. cbn [Z.of_nat].
      assert ((Z.of_nat (length all) + 499) / 500 = 1) as -> by (symmetry; apply Z.div_unique with (Z.of_nat (length all) - 1); lia).
      done.
    + rewrite Nat2Z.inj_sub by lia.
      replace (Z.of_nat (length all) + 499) with ((Z.of_nat (length all) - Z.of_nat 500 + 499) + 1 * 500) by lia.
      rewrite Z.div_add by lia. lia.
Qed.

(** Whatever the cache, the frames carry it, at most 500 hosts a frame, numbered
    in order. *)
Lemma buildBootstrapFrames_spec now n :
  let frames := buildBootstrapFrames now n in
  (frames ≫= frame_entries) ≡ₚ map strip (Resolver_AllEntries now (n_resolver n)) ∧
  Forall (λ bf, (size (bf_Hosts bf) ≤ 500)%nat ∧ bf_Total bf = u32 (Z.of_nat (length frames)) ∧
            bf_ProtocolVersion bf = u32 (n_protocolVersion n)) frames ∧
  map bf_Sequence frames = map (λ k, u32 (Z.of_nat k)) (seq 0 (length frames)).
Proof.
  cbn zeta. unfold buildBootstrapFrames. pose proof (AllEntries_NoDup now (n_resolver n)) as Hnd.
  destruct (Resolver_AllEntries now (n_resolver n)) as [|e es].
  - split_and!; [|by repeat constructor|done]. simpl. unfold frame_entries. simpl.
    assert (range_map (∅ : gmap gostring HostEntry) = []) as ->; [|done].
    apply Permutation_nil_r. by rewrite range_map_perm, map_to_list_empty.
  - destruct (bootstrap_loop_spec (length (e :: es)) n
      ((Z.of_nat (length (e :: es)) + Z.of_nat bootstrapChunkSize - 1) / Z.of_nat bootstrapChunkSize) 0 (e :: es)
      Hnd) as (B1 & B2 & B3 & B4); [done|].
    cbn zeta. split_and!; [exact B1| |exact B3].
    eapply Forall_impl; [exact B2|]. intros bf (S1 & S2 & S3). split_and!; [exact S1| |exact S3].
    rewrite S2, B4. do 2 f_equal. change (Z.of_nat bootstrapChunkSize) with 500. lia.
Qed.

Lemma handleBootstrap_merge m pc bf :
  bf_ProtocolVersion bf = u32 (n_protocolVersion m) →
  handleBootstrapFrame m pc bf = set_resolver m <$> Resolver_Merge (n_resolver m) (frame_entries bf).
Proof.
  intros Hv. unfold handleBootstrapFrame. rewrite Hv, Z.eqb_refl. simpl. case_bool_decide as He; [|done].
  unfold frame_entries. rewrite He.
  assert (range_map (∅ : gmap gostring HostEntry) = []) as ->.
  { apply Permutation_nil_r. by rewrite range_map_perm, map_to_list_empty. }
  by destruct m.
Qed.

Lemma handleBootstraps_merge m pc bfs :
  Forall (λ bf, bf_ProtocolVersion bf = u32 (n_protocolVersion m)) bfs →
  foldM_go (λ m bf, handleBootstrapFrame m pc bf) m bfs =
  set_resolver m <$> Resolver_Merge (n_resolver m) (bfs ≫= frame_entries).
Proof.
  revert m. induction bfs as [|bf bfs IH]; intros m Hv; [by destruct m|].
  apply Forall_cons in Hv as [Hb Hv]. cbn [foldM_go]. rewrite handleBootstrap_merge by done.
  rewrite bind_cons. unfold Resolver_Merge. rewrite foldM_go_app. fold (Resolver_Merge (n_resolver m) (frame_entries bf)).
  destruct (Resolver_Merge (n_resolver m) (frame_entries bf)) as [r| | |]; [|done..].
  cbn [fmap outcome_fmap mbind outcome_bind]. rewrite IH by done. by destruct m.
Qed.

Lemma Merge_entries now r r0 es :
  map_Forall (λ _ rec, rr_addrSet rec = Some (list_to_set (rr_addresses rec))) (rv_cache r0) →
  es ≡ₚ map strip (Resolver_AllEntries now r) →
  ∃ r', Resolver_Merge r0 es = Ret r' ∧
    (∀ h a, a ∈ addrs_of (rv_cache r' !! h) ↔
       a ∈ addrs_of (rv_cache r0 !! h) ∨ ∃ l, Resolver_Resolve now r h = Some l ∧ a ∈ l) ∧
    ∀ now' h, rv_cache r0 !! h = None → Resolver_Resolve now' r' h = Resolver_Resolve now r h.
Proof.
  intros Hr0 Hes. destruct (Merge_spec r0 es Hr0) as (r' & E & _ & Hh).
  exists r'. split; [done|]. split.
  { intros h a. rewrite Hh, run_merged_addrs. f_equiv. split.
    - intros (e & He & <- & Ha). rewrite Hes in He. apply list_elem_of_fmap in He as (e' & -> & He').
      exists (re_Addresses e'). split; [apply Resolve_entry; eauto|done].
    - intros (l & (e & He & <- & <-)%Resolve_entry & Ha). exists (strip e). split_and!; [|done|done].
      rewrite Hes. by apply list_elem_of_fmap_2. }
  intros now' h Hnone. unfold Resolver_Resolve at 1. rewrite Hh, Hnone.
  assert (NoDup (map re_Hostname es)) as Hnd.
  { assert (map re_Hostname es ≡ₚ map re_Hostname (map strip (Resolver_AllEntries now r))) as -> by by rewrite Hes.
    rewrite map_map. apply AllEntries_NoDup. }
  destruct (Resolver_Resolve now r h) as [l|] eqn:Er.
  - apply Resolve_entry in Er as (e & He & <- & <-).
    change (re_Hostname e) with (re_Hostname (strip e)).
    rewrite run_key_once; [done|done|]. rewrite Hes. by apply list_elem_of_fmap_2.
  - rewrite run_key_other; [done|]. intros (e & -> & He)%list_elem_of_fmap. rewrite Hes in He.
    apply list_elem_of_fmap in He as (e' & -> & He').
    assert (Resolver_Resolve now r (re_Hostname e') = Some (re_Addresses e')) as Hc by (apply Resolve_entry; eauto).
    simpl in Er. congruence.
Qed.

Lemma buildBootstrapFrames_some now n : buildBootstrapFrames now n ≠ [].
Proof. unfold buildBootstrapFrames. by destruct (Resolver_AllEntries now (n_resolver n)). Qed.

(** Frames of another version close the connection and do nothing else. *)
Lemma handleBootstraps_mismatch m pc bfs :
  Forall (λ bf, bf_ProtocolVersion bf ≠ u32 (n_protocolVersion m)) bfs → bfs ≠ [] →
  ∃ m', foldM_go (λ m bf, handleBootstrapFrame m pc bf) m bfs = Ret m' ∧ n_resolver m' = n_resolver m ∧
    n_protocolVersion m' = n_protocolVersion m ∧
    ∀ c, n_conns m !! pc = Some c → ∃ c', n_conns m' !! pc = Some c' ∧ pc_dead c' = true.
Proof.
  revert m. induction bfs as [|bf bfs IH]; intros m Hv Hne; [done|]. apply Forall_cons in Hv as [Hb Hv].
  assert (handleBootstrapFrame m pc bf = Ret (closeDead m pc)) as He.
  { unfold handleBootstrapFrame. by rewrite (proj2 (Z.eqb_neq _ _)). }
  cbn [foldM_go]. rewrite He. cbn [mbind outcome_bind].
  assert (∀ c, n_conns m !! pc = Some c → ∃ c', n_conns (closeDead m pc) !! pc = Some c' ∧ pc_dead c' = true) as Hd.
  { intros c Hc. simpl. rewrite list_lookup_alter_eq, Hc. by eexists. }
  destruct bfs as [|bf' bfs]; [by exists (closeDead m pc)|].
  destruct (IH (closeDead m pc)) as (m' & E & Hr & Hp & Hc); [done|done|]. exists m'. split_and!; [done..|].
  intros c Hc0. destruct (Hd c Hc0) as (c1 & Hc1 & _). by apply (Hc c1).
Qed.

End boot.

Lemma sendControl_stopped n i c f :
  n_conns n !! i = Some c → pc_writerStopped c = true → snd (sendControl n i f) = false.
Proof. intros Hi Hs. unfold sendControl. by rewrite Hi, Hs. Qed.

Lemma lookup_alter_conn (cs : list peerConn) f i j :
  alter f i cs !! j = if decide (j = i) then f <$> cs !! j else cs !! j.
Proof.
  case_decide as Hj; [subst; apply list_lookup_alter_eq|by apply list_lookup_alter_ne].
Qed.

Lemma death_conns n i c :
  n_conns n !! i = Some c →
  n_conns (fst (handlePeerDeath n i)) =
  alter (λ c, MkPeerConn (pc_nodeID c) [] true (pc_dead c) (pc_wire c)) i
    (alter (λ c, MkPeerConn (pc_nodeID c) (pc_writeCh c) (pc_writerStopped c) true (pc_wire c)) i (n_conns n)).
Proof. intros Hi. unfold handlePeerDeath. by rewrite Hi. Qed.

(** ** A network whose replies circulate

    Node [a] has the peers [b] and [o]; [b] offers a tool that [o] has just asked
    for. [a] and [b] gossip, the query reaches [b], the reply is on its way to [a],
    and [o] disconnects. *)

Definition plain_config (id : gostring) : NodeConfig :=
  MkNodeConfig id 1 [] ∅ (MkNodeEvents false false true false false)
    (MkReconnectPolicy false 0 0 0 0) 0 0 0 0 0 0.

Definition fresh_node (id : gostring) : Node :=
  MkNode (NewManifest id) (NewSonar (NewManifest id) []) (NewGradientTable id) NewResolver
    NewCapabilityIndex ∅ [] 1 [] (MkNodeEvents false false true false false) DefaultReconnectPolicy
    (3 * second) (9 * second) 0.

Lemma NewNode_fresh `{GoRange} now id : id ≠ [] → NewNode now (plain_config id) = Ret (fresh_node id).
Proof. intros Hid. unfold NewNode. by rewrite bool_decide_false. Qed.

Definition join (n : Node) (p : gostring) : Node := fst (register_peer 0 n p).

Definition with_tool (n : Node) (cap : gostring) : Node :=
  MkNode (Manifest_RegisterCapability (n_manifest n) cap) (n_sonar n) (n_gradient n) (n_resolver n)
    (n_capIndex n) (n_peers n) (n_conns n) (n_protocolVersion n) (n_applicationVersion n) (n_events n)
    (n_reconnect n) (n_gossipInterval n) (n_capabilityStaleTTL n) (n_maxSonarHops n).

Definition loop_net : net :=
  {[ go "a" := join (join (fresh_node (go "a")) (go "b")) (go "o");
     go "b" := join (with_tool (fresh_node (go "b")) (go "tool:x")) (go "a");
     go "o" := fst (@Node_Sonar list_range (join (fresh_node (go "o")) (go "a")) (go "tool:x")) ]}.

Definition setup : list cmd :=
  [C_gossip (go "a") 1; C_write (go "a") 0; C_read (go "a") 0 0 1;
   C_gossip (go "b") 1; C_write (go "b") 0; C_read (go "b") 0 0 1;
   C_write (go "o") 0; C_read (go "o") 0 1 1; C_write (go "a") 0; C_read (go "a") 0 0 1;
   C_write (go "b") 0; C_death (go "a") 1].

Definition bounce : list cmd :=
  [C_read (go "b") 0 0 1; C_write (go "a") 0; C_read (go "a") 0 0 1; C_write (go "b") 0].

Lemma net_run_app `{GoRange} `{GoSort} N1 t1 N2 t2 N3 :
  net_run N1 t1 N2 → net_run N2 t2 N3 → net_run N1 (t1 ++ t2) N3.
Proof. induction 1; intros H12; [done|]. simpl. econstructor; eauto. Qed.

Lemma net_run_repeat `{GoRange} `{GoSort} N t k :
  net_run N t N → ∃ t', net_run N t' N ∧ count_IHave t' = (k * count_IHave t)%nat.
Proof.
  intros Ht. induction k as [|k (t' & Hr & Hc)]; [exists []; split; [constructor|done]|].
  exists (t ++ t'). split; [by eapply net_run_app|]. unfold count_IHave in *.
  rewrite sum_list_with_app, Hc. lia.
Qed.

Definition exec_list : list cmd → net → option (list label * net) :=
  @exec_all list_range insertion_GoSort.

(** The network after the setup. *)
Definition looping_net : net :=
  match exec_list setup loop_net with Some (_, N) => N | None => ∅ end.

Lemma setup_runs : ∃ tr, exec_list setup loop_net = Some (tr, looping_net).
Proof.
  unfold looping_net. assert (match exec_list setup loop_net with Some _ => true | None => false end = true) as Hs
    by (vm_compute; reflexivity).
  destruct (exec_list setup loop_net) as [[tr N]|]; [by eexists|done].
Qed.

Lemma bounce_closes :
  exec_list bounce looping_net = Some ([L_IHave; L_other; L_IHave; L_other], looping_net).
Proof. vm_compute. reflexivity. Qed.

(** ** Properties *)

(** C6: floods end: on a network without queries, whose nodes have at most [D]
    peers, one query with a hop budget of [h] (a [uint32]) is handled at most
    D * (1 + D + ... + D^h) times, whatever the topology, the delays, the losses,
    the deaths, the gossip in between and the deduplication sets. It is the test
    for a budget of zero that ends a flood: the decrement wraps around. *)
Theorem flood_terminates `{GoRange} `{GoSort} D N a n cap tr N' :
  degree_le D N → net_cost D N = 0%nat → N !! a = Some n → 0 ≤ n_maxSonarHops n < 2 ^ 32 →
  net_run (<[a := fst (Node_Sonar n cap)]> N) tr N' →
  (count_WhoHas tr ≤ D * flood_cost D (Z.to_nat (Node_MaxSonarHops n)))%nat.
Proof.
  intros HD Hz Ha Hh Hrun. destruct (Node_Sonar_cost D n cap) as [Hp Hc].
  assert (0 ≤ Node_MaxSonarHops n < 2 ^ 32) as Hm.
  { unfold Node_MaxSonarHops, defaultSonarHops. destruct (negb _); [done|]. apply Z.mod_pos_bound. lia. }
  unfold hops_left in Hc. rewrite (proj2 (Z.leb_le _ _)), (proj2 (Z.ltb_lt _ _)) in Hc by lia. cbn [andb] in Hc.
  pose proof (HD a n Ha) as Hd. cbn beta in Hd.
  assert (degree_le D (<[a := fst (Node_Sonar n cap)]> N)) as HD'.
  { apply map_Forall_insert_2; [|done]. by rewrite Hp. }
  pose proof (net_run_cost D _ tr N' Hrun HD').
  pose proof (net_cost_insert D N a n (fst (Node_Sonar n cap)) Ha). nia.
Qed.

(** C14: what a node learns from a gossip frame: the routes it names, through the
    sender, at its cost plus the sender's impedance, and no other path; and of
    the capabilities of every node what the frame says of it, but of itself only
    what the sender claims as its own. *)
Theorem gossip_handled `{GoRange} now n g :
  ci_inv (n_capIndex n) →
  let n' := handleGossipFrame now n g in
  (∀ t c, gf_Routes g !! t = Some c → t ≠ gt_selfID (n_gradient n) →
     path_of (n_gradient n') t (gf_FromNode g)
     = path_of (GradientTable_UpdateRoute now (n_gradient n) t (gf_FromNode g)
                  (f64_add c (gf_FromImpedance g))) t (gf_FromNode g)) ∧
  (∀ t nh, nh ≠ gf_FromNode g ∨ t = gt_selfID (n_gradient n) ∨ gf_Routes g !! t = None →
     path_of (n_gradient n') t nh = path_of (n_gradient n) t nh) ∧
  (∀ x, view (n_capIndex n') x =
     match gossip_says (m_nodeID (n_manifest n)) g x with
     | Some (caps, i) => Some (accepted (n_capIndex n) caps, i, now)
     | None =>
         match sender_says g x with
         | Some (caps, i) => Some (accepted (n_capIndex n) caps, i, now)
         | None => view (n_capIndex n) x
         end
     end).
Proof.
  intros Hinv. cbn zeta. rewrite handleGossip_gradient.
  set (routes := map (λ e, MkGossipRoute e.1 e.2) (range_map (gf_Routes g))).
  assert (map gr_TargetID routes = map fst (range_map (gf_Routes g))) as Ht
    by (unfold routes; by rewrite map_map).
  destruct (ProcessGossip_path now (n_gradient n)
    (MkGossipVector (gf_FromNode g) (gf_FromImpedance g) routes [] None)) as [P1 P2].
  { cbn [gv_Routes]. rewrite Ht. apply NoDup_fst_range. }
  split_and!.
  - intros t c Hc Hne. apply (P1 (MkGossipRoute t c)); [|done]. cbn [gv_Routes]. unfold routes.
    apply list_elem_of_fmap. exists (t, c). split; [done|]. by rewrite range_map_perm, elem_of_map_to_list.
  - intros t nh Hnh. apply P2. destruct Hnh as [Hnh|[Hs|Hn]]; [by left|by right; left|]. right. right.
    cbn [gv_Routes]. rewrite Ht. intros ([t' c] & -> & Hin)%list_elem_of_fmap.
    rewrite range_map_perm, elem_of_map_to_list in Hin. simpl in Hn. congruence.
  - intros x. by apply handleGossip_view.
Qed.

(** C8: what a peer learns from the bootstrap frames. A peer of the same protocol
    version, whatever its cache holds, handles all of them; then it knows for each
    host the addresses it knew and those the sender resolved when it made the
    frames, and a host it had no record of it resolves as the sender did (a fresh
    peer resolves every host so). A peer of another version learns nothing and the
    connection is declared dead. The frames hold at most 500 hosts each, are
    numbered in order and carry their number; there is always one at least. *)
Theorem bootstrap_roundtrip `{GoRange} now n m pc :
  resolver_reachable (n_resolver m) →
  let frames := buildBootstrapFrames now n in
  (∃ m', foldM_go (λ m bf, handleBootstrapFrame m pc bf) m frames = Ret m' ∧
     if decide (u32 (n_protocolVersion m) = u32 (n_protocolVersion n)) then
       (∀ h a, a ∈ addrs_of (rv_cache (n_resolver m') !! h) ↔
          a ∈ addrs_of (rv_cache (n_resolver m) !! h) ∨
          ∃ l, Resolver_Resolve now (n_resolver n) h = Some l ∧ a ∈ l) ∧
       (∀ now' h, rv_cache (n_resolver m) !! h = None →
          Resolver_Resolve now' (n_resolver m') h = Resolver_Resolve now (n_resolver n) h)
     else
       n_resolver m' = n_resolver m ∧ ∀ c, n_conns m !! pc = Some c → ∃ c', n_conns m' !! pc = Some c' ∧ pc_dead c' = true) ∧
  frames ≠ [] ∧
  Forall (λ bf, (size (bf_Hosts bf) ≤ 500)%nat ∧ bf_Total bf = u32 (Z.of_nat (length frames))) frames ∧
  map bf_Sequence frames = map (λ k, u32 (Z.of_nat k)) (seq 0 (length frames)).
Proof.
  intros Hm%resolver_reachable_inv. destruct (buildBootstrapFrames_spec now n) as (B1 & B2 & B3). cbn zeta.
  pose proof (buildBootstrapFrames_some now n) as Hne. split_and!; [|done| |exact B3].
  - case_decide as Hv.
    + rewrite handleBootstraps_merge.
      * destruct (Merge_entries now (n_resolver n) (n_resolver m) _ Hm B1) as (r' & -> & Hr). by eexists.
      * eapply Forall_impl; [exact B2|]. intros bf (_ & _ & ->). done.
    + destruct (handleBootstraps_mismatch m pc (buildBootstrapFrames now n)) as (m' & E & Hr & _ & Hd); [|exact Hne|by exists m'].
      eapply Forall_impl; [exact B2|]. intros bf (_ & _ & ->). done.
  - eapply Forall_impl; [exact B2|]. intros bf (S1 & S2 & _). done.
Qed.

(** a peer's death removes the peer of its name, every path through it and
    nothing else from the table, closes its connection for sends and leaves the
    other connections alone; the isolation callback runs exactly when no peer
    remains. *)
Theorem peer_death_cleans_up n i c :
  n_conns n !! i = Some c →
  let '(n', evs) := handlePeerDeath n i in
  n_peers n' = delete (pc_nodeID c) (n_peers n) ∧
  (∀ t nh, path_of (n_gradient n') t nh =
     if decide (nh = pc_nodeID c) then None else path_of (n_gradient n) t nh) ∧
  (∀ f, snd (sendControl n' i f) = false) ∧ (∀ j, j ≠ i → n_conns n' !! j = n_conns n !! j) ∧
  (Isolated ∈ evs ↔ ev_OnIsolated (n_events n) = true ∧ n_peers n' = ∅).
Proof.
  intros Hi. destruct (handlePeerDeath n i) as [n' evs] eqn:E.
  assert (n' = fst (handlePeerDeath n i)) as Hn' by by rewrite E.
  pose proof (death_conns n i c Hi) as Hc. rewrite <-Hn' in Hc.
  unfold handlePeerDeath in E. rewrite Hi in E. injection E as E1 E2.
  assert (n_peers n' = delete (pc_nodeID c) (n_peers n)) as Hp by by rewrite <-E1.
  split_and!; [done|..].
  - intros t nh. rewrite <-E1. apply RemoveNeighbor_path.
  - intros f. eapply sendControl_stopped.
    + rewrite Hc, !lookup_alter_conn, !decide_True, Hi by done. reflexivity.
    + done.
  - intros j Hj. by rewrite Hc, !lookup_alter_conn, !decide_False by done.
  - rewrite Hp, <-E2. unfold peerManager_Count, peerManager_Remove.
    cbn [n_peers n_events n_reconnect set_gradient set_peers update_conn set_conns closeDead].
    destruct (Z.eqb_spec (Z.of_nat (size (delete (pc_nodeID c) (n_peers n)))) 0) as [H0|H0].
    + assert (delete (pc_nodeID c) (n_peers n) = ∅) as -> by (apply map_size_empty_inv; lia).
      destruct (ev_OnPeerLost _), (ev_OnIsolated _), (rp_Enabled _); simpl; set_solver.
    + assert (delete (pc_nodeID c) (n_peers n) ≠ ∅) by (intros He; rewrite He, map_size_empty in H0; done).
      destruct (ev_OnPeerLost _); simpl; set_solver.
Qed.

(** a peer that reconnects before its old connection is found dead is lost:
    the old connection's death removes the new one, still open, from the peers
    and tells the program that the peer is gone. *)
Theorem stale_death_drops_new_connection now n p :
  let old := length (n_conns n) in
  let n2 := fst (register_peer now (fst (register_peer now n p)) p) in
  let '(n3, evs) := handlePeerDeath n2 old in
  peerManager_Get (n_peers n2) p = Some (S old) ∧ peerManager_Get (n_peers n3) p = None ∧
  n_conns n3 !! S old = Some (newPeerConnWithWriter p) ∧
  (ev_OnPeerLost (n_events n) = true → PeerLost p ∈ evs).
Proof.
  cbn zeta. set (n2 := fst _).
  assert (n_conns n2 = n_conns n ++ [newPeerConnWithWriter p; newPeerConnWithWriter p]) as Hcs
    by (unfold n2; simpl; by rewrite <-app_assoc).
  assert (n_peers n2 = <[p := S (length (n_conns n))]> (<[p := length (n_conns n)]> (n_peers n))) as Hp.
  { unfold n2. simpl. rewrite length_app. simpl. by rewrite Nat.add_1_r. }
  assert (n_conns n2 !! length (n_conns n) = Some (newPeerConnWithWriter p)) as Hold
    by (rewrite Hcs; by apply list_lookup_middle).
  assert (n_events n2 = n_events n) as Hev by done.
  destruct (handlePeerDeath n2 (length (n_conns n))) as [n3 evs] eqn:E.
  assert (n3 = fst (handlePeerDeath n2 (length (n_conns n)))) as Hn3 by by rewrite E.
  pose proof (death_conns n2 _ _ Hold) as Hc. rewrite <-Hn3 in Hc.
  unfold handlePeerDeath in E. rewrite Hold in E. injection E as E1 E2.
  split_and!.
  - unfold peerManager_Get. by rewrite Hp, lookup_insert_eq.
  - unfold peerManager_Get. rewrite <-E1. apply lookup_delete_eq.
  - rewrite Hc, !lookup_alter_conn, !decide_False by lia. rewrite Hcs, lookup_app_r by lia.
    by replace (S (length (n_conns n)) - length (n_conns n))%nat with 1%nat by lia.
  - intros Hl. rewrite <-E2. change (ev_OnPeerLost _) with (ev_OnPeerLost (n_events n2)).
    rewrite Hev, Hl. by left.
Qed.

(** nothing bounds how often a reply is forwarded. From three fresh nodes,
    two gossip ticks, a query and the disconnection of its origin lead to a state
    in which the reply goes back and forth between two nodes, each the other's
    best route to the origin, any number of times. *)
Theorem replies_can_circulate :
  ∃ N, (∃ tr, @net_run list_range insertion_GoSort loop_net tr N) ∧
    ∀ k, ∃ tr, @net_run list_range insertion_GoSort N tr N ∧ count_IHave tr = (k * 2)%nat.
Proof.
  destruct setup_runs as [tr Hs]. exists looping_net. split.
  - exists tr. exact (@exec_all_run list_range insertion_GoSort _ _ _ _ Hs).
  - intros k. apply (@net_run_repeat list_range insertion_GoSort looping_net
      [L_IHave; L_other; L_IHave; L_other]).
    exact (@exec_all_run list_range insertion_GoSort _ _ _ _ bounce_closes).
Qed.

(** ** Witnesses *)

(** Two nodes, one of them about to ask; hop budget 2. *)
Definition asking_node : Node :=
  let n := join (fresh_node (go "a")) (go "b") in
  MkNode (n_manifest n) (n_sonar n) (n_gradient n) (n_resolver n) (n_capIndex n) (n_peers n) (n_conns n)
    (n_protocolVersion n) (n_applicationVersion n) (n_events n) (n_reconnect n) (n_gossipInterval n)
    (n_capabilityStaleTTL n) 2.

Definition two_nodes : net :=
  {[ go "a" := asking_node; go "b" := join (fresh_node (go "b")) (go "a") ]}.

Definition asked : list cmd := [C_write (go "a") 0; C_read (go "a") 0 0 1].

Lemma flood_terminates_witness :
  ∃ tr N', exec_list asked (<[go "a" := fst (@Node_Sonar list_range asking_node (go "tool:x"))]> two_nodes)
    = Some (tr, N') ∧ (count_WhoHas tr ≤ 3)%nat.
Proof.
  eexists _, _. split; [vm_compute; reflexivity|].
  refine (@flood_terminates list_range insertion_GoSort 1 two_nodes (go "a") asking_node (go "tool:x") _ _ _ _ _ _ _).
  - apply map_Forall_insert_2; [vm_compute; lia|]. apply map_Forall_singleton. vm_compute. lia.
  - vm_compute. reflexivity.
  - vm_compute. reflexivity.
  - vm_compute. split; [discriminate|reflexivity].
  - apply (@exec_all_run list_range insertion_GoSort asked). vm_compute. reflexivity.
Defined.

Definition gossip_b : GossipFrame :=
  MkGossipFrame (go "b") (f64_of_Z 2) {[go "c" := f64_of_Z 5]} [go "tool:x"] {[go "c" := [go "tool:y"]]}.

Lemma new_index_inv : ci_inv NewCapabilityIndex.
Proof. apply (@ci_reachable_inv list_range). constructor. Defined.

Lemma gossip_handled_witness :
  view (n_capIndex (@handleGossipFrame list_range 9 (fresh_node (go "a")) gossip_b)) (go "c")
  = Some ([go "tool:y"], f64_of_Z 7, 9).
Proof.
  destruct (@gossip_handled list_range 9 (fresh_node (go "a")) gossip_b new_index_inv) as (_ & _ & Hv).
  rewrite Hv. vm_compute. reflexivity.
Defined.

Definition node_with_hosts : Node := set_resolver (fresh_node (go "a")) cache_ab.

(** A node that knows an address of its own for the host. *)
Definition seeded_node : Node := set_resolver (fresh_node (go "b")) cache_a.

Lemma bootstrap_roundtrip_witness :
  ∃ m', foldM_go (λ m bf, @handleBootstrapFrame list_range m 0 bf) seeded_node
      (@buildBootstrapFrames list_range 0 node_with_hosts) = Ret m' ∧
    go "10.0.0.2" ∈ addrs_of (rv_cache (n_resolver m') !! go "mds-01").
Proof.
  destruct (@bootstrap_roundtrip list_range 0 node_with_hosts seeded_node 0 cache_a_reachable) as ((m' & E & Hr) & _).
  exists m'. split; [exact E|]. rewrite decide_True in Hr by reflexivity. destruct Hr as [Hr _].
  apply Hr. right. exists [go "10.0.0.1"; go "10.0.0.2"]. split; [vm_compute; reflexivity|]. by_decide.
Defined.

Lemma peer_death_cleans_up_witness :
  n_peers (fst (handlePeerDeath asking_node 0)) = ∅ ∧
  Isolated ∈ snd (handlePeerDeath asking_node 0).
Proof.
  pose proof (peer_death_cleans_up asking_node 0 (newPeerConnWithWriter (go "b")) eq_refl) as Hd.
  destruct (handlePeerDeath asking_node 0) as [n' evs] eqn:E. destruct Hd as (Hp & _ & _ & _ & Hi).
  assert (n_peers n' = ∅) as Hn by (rewrite Hp; vm_compute; reflexivity).
  split; [exact Hn|]. apply Hi. split; [reflexivity|exact Hn].
Defined.

Lemma stale_death_drops_new_connection_witness :
  peerManager_Get (n_peers (fst (handlePeerDeath (join (join (fresh_node (go "a")) (go "b")) (go "b")) 0)))
    (go "b") = None.
Proof.
  pose proof (stale_death_drops_new_connection 0 (fresh_node (go "a")) (go "b")) as Hs.
  cbn zeta in Hs. change (length (n_conns (fresh_node (go "a")))) with 0%nat in Hs.
  unfold join. destruct (handlePeerDeath _ _) as [n3 evs]. apply Hs.
Defined.
