(* ===== verification/Stream.v ===== *)
(** * Streaming reducers: internal/registry/stream

    The ring buffer, the Top-K heap (with the functions of the standard library's
    container/heap it uses), the deduplicator, the threshold emitter and the
    group-by aggregator. None of them is shared between goroutines. *)

From Stdlib Require Import Ascii.
From stdpp Require Import base numbers gmap strings sorting list.
From S2P Require Import Prelude GoStrings GoFloat.

Open Scope Z_scope.

(** The last [n] elements. *)
Definition last_n {A} (n : nat) (l : list A) : list A := drop (length l - n) l.

Module RingBuf.
Section ring.
Context {T : Type} (zero : T).

Record RingBuffer := MkRingBuffer { rb_items : list T; rb_cap : Z; rb_head : Z; rb_full : bool }.

Definition NewRingBuffer (cap : Z) : outcome RingBuffer :=
  if cap <=? 0 then Panic else Ret (MkRingBuffer (replicate (Z.to_nat cap) zero) cap 0 false).

Definition RingBuffer_Push (rb : RingBuffer) (item : T) : outcome RingBuffer :=
  if (0 <=? rb_head rb) && (rb_head rb <? Z.of_nat (length (rb_items rb))) then
    let items := <[Z.to_nat (rb_head rb) := item]> (rb_items rb) in
    let head := Z.rem (i64 (rb_head rb + 1)) (rb_cap rb) in
    Ret (MkRingBuffer items (rb_cap rb) head
           (if (head =? 0) && negb (rb_full rb) then true else rb_full rb))
  else Panic.

Definition RingBuffer_Len (rb : RingBuffer) : Z := if rb_full rb then rb_cap rb else rb_head rb.

(** [copy(dst, src)] *)
Definition go_copy (dst src : list T) : list T := take (length dst) src ++ drop (length src) dst.

(** The slices [items[head:]] and [items[:head]] are within bounds by the
    invariant. *)
Definition RingBuffer_Snapshot (rb : RingBuffer) : list T :=
  let out := replicate (Z.to_nat (RingBuffer_Len rb)) zero in
  let head := Z.to_nat (rb_head rb) in
  if rb_full rb then
    let out := go_copy out (drop head (rb_items rb)) in
    let k := Z.to_nat (rb_cap rb - rb_head rb) in
    take k out ++ go_copy (drop k out) (take head (rb_items rb))
  else go_copy out (take head (rb_items rb)).

Definition RingBuffer_Latest (rb : RingBuffer) : option T :=
  if RingBuffer_Len rb =? 0 then None
  else rb_items rb !! Z.to_nat (Z.rem (i64 (rb_head rb - 1 + rb_cap rb)) (rb_cap rb)).

(** *** Lemmas *)

(** [rb] after the items [l] were pushed. *)
Definition ring_inv (cap : nat) (rb : RingBuffer) (l : list T) : Prop :=
  rb_cap rb = Z.of_nat cap ∧
  ∃ a y b, rb_items rb = a ++ y :: b ∧ length (a ++ y :: b) = cap ∧
    rb_head rb = Z.of_nat (length a) ∧
    if rb_full rb then y :: b ++ a = last_n cap l ∧ (cap ≤ length l)%nat else a = l.

Lemma last_n_short n (l : list T) : (length l ≤ n)%nat → last_n n l = l.
Proof. intros Hl. unfold last_n. by replace (length l - n)%nat with 0%nat by lia. Qed.

Lemma last_n_snoc n (l : list T) y r x :
  (n ≤ length l)%nat → y :: r = last_n n l → last_n n (l ++ [x]) = r ++ [x].
Proof.
  unfold last_n. intros Hn Hy. rewrite length_app. simpl.
  assert (length (y :: r) = n) by (rewrite Hy, length_drop; lia). simpl in *.
  replace (length l + 1 - n)%nat with (length l - n + 1)%nat by lia.
  rewrite drop_app_le by lia. rewrite <-drop_drop, <-Hy. done.
Qed.

Lemma last_last_n n (l : list T) : (0 < n)%nat → last (last_n n l) = last l.
Proof.
  intros Hn. unfold last_n. destruct l as [|x l] using rev_ind; [done|].
  rewrite length_app. simpl. rewrite drop_app_le by lia. by rewrite !last_snoc.
Qed.

Lemma go_copy_eq (dst src : list T) : length src = length dst → go_copy dst src = src.
Proof.
  intros Hl. unfold go_copy. rewrite <-Hl, firstn_all, drop_ge by lia. apply app_nil_r.
Qed.

Lemma ring_new cap : 0 < cap →
  ∃ rb, NewRingBuffer cap = Ret rb ∧ ring_inv (Z.to_nat cap) rb [].
Proof.
  intros Hc. unfold NewRingBuffer. rewrite (proj2 (Z.leb_gt _ _)) by lia.
  eexists. split; [done|]. split; simpl; [lia|].
  exists [], zero, (replicate (Z.to_nat cap - 1) zero).
  replace (Z.to_nat cap) with (S (Z.to_nat cap - 1)) by lia. simpl.
  rewrite Nat.sub_0_r. split_and!; try done. simpl. rewrite length_replicate. lia.
Qed.

Lemma ring_push cap rb l x :
  Z.of_nat cap ≤ 2 ^ 62 → ring_inv cap rb l →
  ∃ rb', RingBuffer_Push rb x = Ret rb' ∧ ring_inv cap rb' (l ++ [x]).
Proof.
  intros Hc (Hcap & a & y & b & Hi & Hl & Hh & Hf). rewrite length_app in Hl. simpl in Hl.
  unfold RingBuffer_Push. rewrite Hi, Hh, Hcap, length_app. simpl.
  rewrite (proj2 (Z.leb_le 0 _)), (proj2 (Z.ltb_lt _ _)) by lia. simpl.
  rewrite i64_id by i64_lia. rewrite Nat2Z.id.
  rewrite insert_app_r_alt, Nat.sub_diag by lia. simpl.
  eexists. split; [done|]. split; simpl; [done|]. destruct b as [|y' b].
  - replace (Z.rem _ _) with 0 by (rewrite <-(Z.rem_same (Z.of_nat cap)); simpl in *; f_equal; lia).
    replace (if _ && _ then true else _) with true by (by destruct (rb_full rb)).
    assert (last_n cap (l ++ [x]) = a ++ [x] ∧ (cap ≤ length (l ++ [x]))%nat) as (Hw & Hlen).
    { rewrite length_app. destruct (rb_full rb).
      - destruct Hf as [Hf ?]. split; [|lia]. by eapply last_n_snoc.
      - subst a. simpl in *. split; [|lia]. apply last_n_short. rewrite length_app. simpl. lia. }
    destruct (a ++ [x]) as [|z r] eqn:E; [by destruct a|].
    exists [], z, r. rewrite app_nil_r. simpl. split_and!; try done.
    change (length (z :: r) = cap). rewrite <-E, length_app. simpl in *. lia.
  - exists (a ++ [x]), y', b. simpl in *. rewrite <-app_assoc. simpl.
    rewrite !length_app. simpl. rewrite Z.rem_small by lia.
    replace (_ =? 0) with false by (symmetry; apply Z.eqb_neq; lia). simpl.
    split_and!; [done|lia|lia|].
    destruct (rb_full rb); [|congruence]. destruct Hf as [Hf H]. split; [|lia].
    symmetry. rewrite (assoc_L (++) b a [x]). exact (last_n_snoc cap l y (y' :: b ++ a) x H Hf).
Qed.

Lemma ring_pushes cap rb l l' :
  Z.of_nat cap ≤ 2 ^ 62 → ring_inv cap rb l →
  ∃ rb', foldM_go RingBuffer_Push rb l' = Ret rb' ∧ ring_inv cap rb' (l ++ l').
Proof.
  intros Hc. revert rb l. induction l' as [|x l' IH]; intros rb l Hi; simpl.
  - rewrite app_nil_r. eauto.
  - destruct (ring_push cap rb l x Hc Hi) as (rb1 & -> & H1). simpl.
    rewrite (cons_middle x l l'), (assoc_L (++)). eauto.
Qed.

Lemma ring_snapshot cap rb l : ring_inv cap rb l → RingBuffer_Snapshot rb = last_n cap l.
Proof.
  intros (Hcap & a & y & b & Hi & Hl & Hh & Hf). rewrite length_app in Hl.
  unfold RingBuffer_Snapshot, RingBuffer_Len. rewrite Hi, Hcap, Hh, Nat2Z.id.
  rewrite drop_app_length, take_app_length. destruct (rb_full rb).
  - destruct Hf as [<- ?]. rewrite Nat2Z.id.
    replace (Z.to_nat _) with (length (y :: b)) by lia.
    assert (go_copy (replicate cap zero) (y :: b) = (y :: b) ++ replicate (length a) zero) as ->.
    { unfold go_copy. rewrite length_replicate, (firstn_all2 (y :: b)), drop_replicate by lia.
      do 2 f_equal. lia. }
    rewrite take_app_length, drop_app_length, go_copy_eq; [done|].
    by rewrite length_replicate.
  - subst a. rewrite Nat2Z.id, go_copy_eq by (by rewrite length_replicate).
    rewrite last_n_short; [done|]. lia.
Qed.

Lemma ring_len cap rb l : ring_inv cap rb l →
  RingBuffer_Len rb = Z.of_nat (cap `min` length l).
Proof.
  intros (Hcap & a & y & b & Hi & Hl & Hh & Hf). rewrite length_app in Hl. simpl in Hl.
  unfold RingBuffer_Len. destruct (rb_full rb); [destruct Hf as [? ?]|subst a]; lia.
Qed.

Lemma ring_latest cap rb l : Z.of_nat cap ≤ 2 ^ 62 → ring_inv cap rb l →
  RingBuffer_Latest rb = last l.
Proof.
  intros Hc Hinv. unfold RingBuffer_Latest. rewrite (ring_len cap rb l Hinv).
  destruct Hinv as (Hcap & a & y & b & Hi & Hl & Hh & Hf). rewrite length_app in Hl. simpl in Hl.
  destruct (Z.eqb_spec (Z.of_nat (cap `min` length l)) 0) as [E|E].
  { assert (length l = 0)%nat by lia. by destruct l. }
  rewrite Hi, Hh, Hcap, i64_id by i64_lia. destruct a as [|z a _] using rev_ind.
  - destruct (rb_full rb); [|subst l; simpl in *; lia]. destruct Hf as [Hf ?]. rewrite app_nil_r in Hf.
    rewrite <-(last_last_n cap) by (simpl in *; lia). rewrite <-Hf. simpl length.
    rewrite Z.rem_small by (simpl in *; lia). simpl app.
    rewrite last_lookup. f_equal. simpl in *. lia.
  - assert (last l = Some z) as ->.
    { destruct (rb_full rb); [|subst l; by rewrite last_snoc].
      destruct Hf as [Hf ?]. rewrite <-(last_last_n cap) by lia. rewrite <-Hf.
      rewrite app_comm_cons, app_assoc. by rewrite last_snoc. }
    rewrite length_app in *. simpl in *.
    replace (_ - 1 + Z.of_nat cap) with (Z.of_nat (length a) + 1 * Z.of_nat cap) by lia.
    rewrite Z.rem_add, Z.rem_small by lia. rewrite Nat2Z.id, <-app_assoc.
    by apply list_lookup_middle.
Qed.

(** *** Properties *)

(** The ring buffer is a sliding window. However many items are pushed into a
    buffer of capacity [cap], no push panics; the snapshot is the last [cap]
    items, oldest first; [Len] counts them; and [Latest] is the item pushed last.
    (The bound on [cap] keeps [head - 1 + cap] within an [int].) *)
Theorem ring_window (cap : Z) (l : list T) (Hcap : 0 < cap ≤ 2 ^ 62) :
  ∃ rb, (NewRingBuffer cap ≫= λ rb, foldM_go RingBuffer_Push rb l) = Ret rb ∧
    RingBuffer_Snapshot rb = last_n (Z.to_nat cap) l ∧
    RingBuffer_Len rb = Z.min cap (Z.of_nat (length l)) ∧
    RingBuffer_Latest rb = last l.
Proof.
  destruct (ring_new cap) as (rb & -> & Hi); [lia|].
  destruct (ring_pushes (Z.to_nat cap) rb [] l) as (rb' & H' & Hi'); [lia|done|].
  exists rb'. simpl. split; [done|]. split_and!.
  - by apply ring_snapshot.
  - rewrite (ring_len _ _ _ Hi'). simpl. lia.
  - apply (ring_latest (Z.to_nat cap)); [lia|done].
Qed.

End ring.

Lemma ring_window_witness : 0 < 2 ≤ 2 ^ 62 ∧
  ∃ rb, (NewRingBuffer 0 2 ≫= λ rb, foldM_go RingBuffer_Push rb [1; 2; 3]) = Ret rb ∧
    RingBuffer_Snapshot 0 rb = [2; 3] ∧ RingBuffer_Latest rb = Some 3.
Proof.
  split; [lia|]. destruct (ring_window 0 2 [1; 2; 3] ltac:(lia)) as (rb & H & Hs & _ & Hl).
  exists rb. auto.
Defined.

End RingBuf.

(** ** Deduplication: dedup.go *)

Module Dedup.

Record Dedup := MkDedup { d_seen : gset Z; d_order : list Z; d_cap : Z }.

(** [make([]uint64, 0, cap)] panics as well when [cap] is negative, but the guard
    comes first. *)
Definition NewDedup (cap : Z) : outcome Dedup :=
  if cap <=? 0 then Panic else Ret (MkDedup ∅ [] cap).

(** The standard library's 64-bit FNV-1a hash. *)
Definition fnv_offset64 : Z := 14695981039346656037.
Definition fnv_prime64 : Z := 1099511628211.

Definition hashFNV (data : gostring) : Z :=
  foldl (λ h c, (Z.lxor h (Z.of_N (N_of_ascii c)) * fnv_prime64) mod 2 ^ 64) fnv_offset64 data.

Definition hashFNVString (s : gostring) : Z := hashFNV s.

Definition isDuplicateHash (d : Dedup) (h : Z) : outcome (bool * Dedup) :=
  if decide (h ∈ d_seen d) then Ret (true, d)
  else
    let accept (d : Dedup) :=
      Ret (false, MkDedup ({[ h ]} ∪ d_seen d) (d_order d ++ [h]) (d_cap d)) in
    if d_cap d <=? Z.of_nat (length (d_order d)) then
      match d_order d with
      | [] => Panic
      | oldest :: order => accept (MkDedup (d_seen d ∖ {[ oldest ]}) order (d_cap d))
      end
    else accept d.

Definition Dedup_IsDuplicate (d : Dedup) (data : gostring) : outcome (bool * Dedup) :=
  isDuplicateHash d (hashFNV data).

Definition Dedup_IsDuplicateString (d : Dedup) (s : gostring) : outcome (bool * Dedup) :=
  isDuplicateHash d (hashFNVString s).

Definition Dedup_Len (d : Dedup) : Z := Z.of_nat (size (d_seen d)).

Definition Dedup_Reset (d : Dedup) : Dedup := MkDedup ∅ [] (d_cap d).

(** The answers to a stream of records. *)
Fixpoint answers (d : Dedup) (l : list gostring) : outcome (list bool * Dedup) :=
  match l with
  | [] => Ret ([], d)
  | x :: l =>
      '(b, d) ← Dedup_IsDuplicate d x;
      '(bs, d) ← answers d l;
      Ret (b :: bs, d)
  end.

(** The hashes that were answered "new", in order. *)
Definition news (hs : list Z) (bs : list bool) : list Z :=
  (filter (λ p, p.2 = false) (zip hs bs)).*1.

(** *** Lemmas *)

Definition dedup_inv (cap : nat) (d : Dedup) (acc : list Z) : Prop :=
  (0 < cap)%nat ∧ d_cap d = Z.of_nat cap ∧ d_order d = last_n cap acc ∧
  NoDup (d_order d) ∧ d_seen d = list_to_set (d_order d).

Lemma length_last_n {A} n (l : list A) : length (last_n n l) = (n `min` length l)%nat.
Proof. unfold last_n. rewrite length_drop. lia. Qed.

Lemma dedup_step cap d acc h : dedup_inv cap d acc →
  ∃ d', isDuplicateHash d h = Ret (bool_decide (h ∈ last_n cap acc), d') ∧
    dedup_inv cap d' (acc ++ if bool_decide (h ∈ last_n cap acc) then [] else [h]).
Proof.
  intros (Hpos & Hcap & Ho & Hnd & Hs). unfold isDuplicateHash.
  assert (h ∈ d_seen d ↔ h ∈ last_n cap acc) as Hiff by (rewrite Hs, Ho; set_solver).
  destruct (decide (h ∈ d_seen d)) as [Hin|Hin].
  { rewrite bool_decide_true by tauto. rewrite app_nil_r. eexists. split; [done|].
    by split_and!. }
  rewrite bool_decide_false by tauto. rewrite Hcap.
  assert (h ∉ d_order d) by (rewrite Ho; tauto).
  pose proof (length_last_n cap acc) as Hlen. rewrite <-Ho in Hlen. zcases.
  - destruct (d_order d) as [|oldest order] eqn:E; [simpl in *; lia|].
    eexists. split; [done|]. apply NoDup_cons in Hnd as [Hold Hnd].
    split_and!; simpl; [done|done| | |].
    + symmetry. apply (RingBuf.last_n_snoc cap acc oldest); [lia|done].
    + apply NoDup_app. split_and!; [done|set_solver|apply NoDup_singleton].
    + rewrite Hs. simpl. rewrite list_to_set_app_L. set_solver.
  - eexists. split; [done|]. split_and!; simpl; [done|done| | |].
    + rewrite Ho, !RingBuf.last_n_short; [done| |lia]. rewrite length_app. simpl. lia.
    + apply NoDup_app. split_and!; [done|set_solver|apply NoDup_singleton].
    + rewrite Hs, list_to_set_app_L. set_solver.
Qed.

Lemma news_cons h hs b bs : news (h :: hs) (b :: bs) = (if b then [] else [h]) ++ news hs bs.
Proof. unfold news. simpl. by destruct b. Qed.

Lemma dedup_run cap d acc l : dedup_inv cap d acc →
  ∃ bs d', answers d l = Ret (bs, d') ∧ length bs = length l ∧
    dedup_inv cap d' (acc ++ news (map hashFNV l) bs) ∧
    ∀ i x, l !! i = Some x → bs !! i = Some (bool_decide
      (hashFNV x ∈ last_n cap (acc ++ news (map hashFNV (take i l)) (take i bs)))).
Proof.
  revert d acc. induction l as [|x l IH]; intros d acc Hd; simpl.
  { exists [], d. rewrite app_nil_r. split_and!; try done. }
  unfold Dedup_IsDuplicate. destruct (dedup_step cap d acc (hashFNV x) Hd) as (d1 & -> & H1).
  simpl. set (b := bool_decide _) in *.
  destruct (IH d1 _ H1) as (bs & d2 & -> & Hl & H2 & Hi). simpl.
  exists (b :: bs), d2. rewrite news_cons, (assoc_L (++)). split_and!; [done|simpl; lia|done|].
  intros [|i] y Hy; simpl in *.
  - injection Hy as ->. unfold news. simpl. by rewrite app_nil_r.
  - rewrite news_cons, (assoc_L (++)). by apply Hi.
Qed.

(** *** Properties *)

(** Deduplication over a stream: no call panics, and record [i] is reported a
    duplicate exactly when its hash is one of the last [cap] hashes reported new
    before it. So nothing within the window is reported new twice, a record is
    only suppressed because of a record with its hash, and [Len] counts the
    window, never more than [cap]. *)
Theorem dedup_exact (cap : Z) (l : list gostring) (Hcap : 0 < cap) :
  ∃ bs d, (NewDedup cap ≫= λ d, answers d l) = Ret (bs, d) ∧ length bs = length l ∧
    (∀ i x, l !! i = Some x → bs !! i = Some (bool_decide (hashFNV x ∈
       last_n (Z.to_nat cap) (news (map hashFNV (take i l)) (take i bs))))) ∧
    Dedup_Len d = Z.min cap (Z.of_nat (length (news (map hashFNV l) bs))).
Proof.
  unfold NewDedup. rewrite (proj2 (Z.leb_gt _ _)) by lia.
  destruct (dedup_run (Z.to_nat cap) (MkDedup ∅ [] cap) [] l) as (bs & d & Hr & Hl & Hd & Hi).
  { split_and!; simpl; [lia|lia|done|constructor|done]. }
  exists bs, d. split_and!; [done..|]. destruct Hd as (_ & _ & Ho & Hnd & Hs).
  unfold Dedup_Len. rewrite Hs, size_list_to_set, Ho, length_last_n by done. simpl app. lia.
Qed.

Lemma dedup_exact_witness : 0 < 1 ∧
  ∃ bs d, (NewDedup 1 ≫= λ d, answers d [go "a"; go "a"; go "b"; go "a"]) = Ret (bs, d) ∧
    length bs = 4%nat.
Proof.
  split; [lia|].
  destruct (dedup_exact 1 [go "a"; go "a"; go "b"; go "a"] ltac:(lia)) as (bs & d & Hr & Hl & _).
  exists bs, d. auto.
Defined.

Example dedup_evicts :
  (NewDedup 1 ≫= λ d, fst <$> answers d [go "a"; go "a"; go "b"; go "a"])
  = Ret [false; true; false; false].
Proof. vm_compute. reflexivity. Qed.

End Dedup.

(** ** Threshold annotation: threshold.go *)

Module Threshold.

Inductive Severity := SeverityOK | SeverityWarning | SeverityCritical.

#[export] Instance severity_eq_dec : EqDecision Severity.
Proof. solve_decision. Defined.

Record ThresholdEmitter := MkEmitter {
  warnThreshold : float64;
  criticalThreshold : float64;
  totalSeen : Z;
  totalWarning : Z;
  totalCritical : Z
}.

Record ThresholdResult := MkResult { tr_Value : float64; tr_Severity : Severity }.

Record ThresholdStats := MkStats {
  TotalSeen : Z; TotalOK : Z; TotalWarning : Z; TotalCritical : Z
}.

Definition NewThresholdEmitter (warn critical : float64) : ThresholdEmitter :=
  if f64_ltb critical warn then MkEmitter critical warn 0 0 0 else MkEmitter warn critical 0 0 0.

Definition ThresholdEmitter_Evaluate (te : ThresholdEmitter) (value : float64)
  : ThresholdResult * ThresholdEmitter :=
  let '(MkEmitter w c seen warning critical) := te in
  let seen := i64 (seen + 1) in
  if f64_leb c value then
    (MkResult value SeverityCritical, MkEmitter w c seen warning (i64 (critical + 1)))
  else if f64_leb w value then
    (MkResult value SeverityWarning, MkEmitter w c seen (i64 (warning + 1)) critical)
  else (MkResult value SeverityOK, MkEmitter w c seen warning critical).

Definition ThresholdEmitter_Stats (te : ThresholdEmitter) : ThresholdStats :=
  MkStats (totalSeen te) (i64 (i64 (totalSeen te - totalWarning te) - totalCritical te))
    (totalWarning te) (totalCritical te).

(** A stream of values. *)
Fixpoint evaluate_all (te : ThresholdEmitter) (vs : list float64)
  : list ThresholdResult * ThresholdEmitter :=
  match vs with
  | [] => ([], te)
  | v :: vs =>
      let '(r, te) := ThresholdEmitter_Evaluate te v in
      let '(rs, te) := evaluate_all te vs in
      (r :: rs, te)
  end.

Definition severity_rank (s : Severity) : Z :=
  match s with SeverityOK => 0 | SeverityWarning => 1 | SeverityCritical => 2 end.

(** How many results have severity [s]. *)
Definition count_severity (s : Severity) (rs : list ThresholdResult) : Z :=
  Z.of_nat (length (filter (λ r, tr_Severity r = s) rs)).

(** *** Lemmas *)

(** The severity [te] gives a value. *)
Definition severity (te : ThresholdEmitter) (v : float64) : Severity :=
  tr_Severity (fst (ThresholdEmitter_Evaluate te v)).

Lemma evaluate_thresholds te v :
  let te' := snd (ThresholdEmitter_Evaluate te v) in
  warnThreshold te' = warnThreshold te ∧ criticalThreshold te' = criticalThreshold te.
Proof. destruct te as [w c s x y]. simpl. by repeat case_match. Qed.

Lemma severity_thresholds te te' v :
  warnThreshold te' = warnThreshold te → criticalThreshold te' = criticalThreshold te →
  severity te' v = severity te v.
Proof.
  destruct te, te'. unfold severity. simpl. intros -> ->. by repeat case_match.
Qed.

Lemma evaluate_all_spec te vs rs te' :
  evaluate_all te vs = (rs, te') →
  0 ≤ totalSeen te → totalSeen te + Z.of_nat (length vs) ≤ MaxInt64 →
  0 ≤ totalWarning te → 0 ≤ totalCritical te → totalWarning te + totalCritical te ≤ totalSeen te →
  rs = map (λ v, MkResult v (severity te v)) vs ∧
  totalSeen te' = totalSeen te + Z.of_nat (length vs) ∧
  totalWarning te' = totalWarning te + count_severity SeverityWarning rs ∧
  totalCritical te' = totalCritical te + count_severity SeverityCritical rs.
Proof.
  unfold count_severity. revert te rs te'.
  induction vs as [|v vs IH]; intros te rs te' He Hs Hb Hw Hc Hle; simpl in He.
  { injection He as <- <-. simpl. repeat split; lia. }
  cbn [length] in *. rewrite Nat2Z.inj_succ in *. pose proof (Nat2Z.is_nonneg (length vs)).
  destruct (ThresholdEmitter_Evaluate te v) as [r te1] eqn:E.
  pose proof (evaluate_thresholds te v) as [H1 H2]. rewrite E in H1, H2. simpl in H1, H2.
  destruct (evaluate_all te1 vs) as [rs1 te2] eqn:E2. injection He as <- <-.
  assert (r = MkResult v (severity te v)) as Hr.
  { unfold severity. rewrite E. destruct te. simpl in E. by repeat case_match; simplify_eq. }
  assert (totalSeen te1 = totalSeen te + 1 ∧
    totalWarning te1 = totalWarning te + (if decide (tr_Severity r = SeverityWarning) then 1 else 0) ∧
    totalCritical te1 = totalCritical te + (if decide (tr_Severity r = SeverityCritical) then 1 else 0))
    as (T1 & T2 & T3).
  { clear Hr E2 H1 H2. destruct te as [w c a b d]. simpl in *.
    destruct (f64_leb c v); [|destruct (f64_leb w v)]; simplify_eq; simpl;
      rewrite ?i64_id by i64_lia; repeat split; repeat case_decide; (lia || congruence). }
  destruct (IH te1 rs1 te2 E2) as (-> & I1 & I2 & I3);
    [rewrite ?T1, ?T2, ?T3; repeat case_decide; (lia || congruence)..|].
  split_and!.
  - cbn [map]. f_equal; [done|]. apply map_ext. intros a. f_equal. by apply severity_thresholds.
  - lia.
  - rewrite filter_cons. rewrite I2, T2. repeat case_decide; cbn [length]; (lia || congruence).
  - rewrite filter_cons. rewrite I3, T3. repeat case_decide; cbn [length]; (lia || congruence).
Qed.

Lemma f64_leb_spec x y :
  f64_leb x y = true ↔ is_nan x = false ∧ is_nan y = false ∧ f64_ltb y x = false.
Proof.
  rewrite <-(not_true_iff_false (f64_ltb y x)), f64_ltb_lt. unfold f64_leb, SFleb, f64_lt.
  destruct x as [s|[]| |[] m e], y as [s'|[]| |[] m' e']; simpl;
    try (intuition (done || lia)).
  - change (Pos.compare_cont Eq m m') with (Pos.compare m m').
    destruct (Z.compare_spec e e'), (Pos.compare_spec m m'); simpl; intuition (done || lia).
  - change (Pos.compare_cont Eq m m') with (Pos.compare m m').
    destruct (Z.compare_spec e e'), (Pos.compare_spec m m'); simpl; intuition (done || lia).
Qed.

Lemma f64_leb_trans x y z : f64_leb x y = true → f64_leb y z = true → f64_leb x z = true.
Proof.
  rewrite !f64_leb_spec. intros (? & ? & ?) (? & ? & ?). split_and!; [done..|].
  by apply (f64_ltb_ge_trans x y z).
Qed.

Lemma severity_mono te v v' :
  f64_leb v v' = true → severity_rank (severity te v) ≤ severity_rank (severity te v').
Proof.
  intros Hv. destruct te as [w c a b d]. unfold severity. simpl.
  destruct (f64_leb c v) eqn:E1; simpl.
  - by rewrite (f64_leb_trans c v v') by done.
  - destruct (f64_leb w v) eqn:E2; simpl.
    + destruct (f64_leb c v'); [simpl; lia|]. by rewrite (f64_leb_trans w v v') by done.
    + by repeat case_match.
Qed.

(** *** Properties *)

(** A stream through the threshold emitter: every value comes out in its place
    with one severity; [Stats] counts the values of each severity, and the three
    counts add up to [TotalSeen]; a larger value never gets a lower severity; and
    the two thresholds may be given in either order, the larger one being the
    critical one. *)
Theorem threshold_partition (warn critical : float64) (vs : list float64)
  (Hw : is_nan warn = false) (Hc : is_nan critical = false)
  (Hlen : Z.of_nat (length vs) ≤ MaxInt64) :
  let te := NewThresholdEmitter warn critical in
  let '(rs, te') := evaluate_all te vs in
  let st := ThresholdEmitter_Stats te' in
  map tr_Value rs = vs ∧
  TotalSeen st = Z.of_nat (length vs) ∧
  TotalOK st = count_severity SeverityOK rs ∧
  TotalWarning st = count_severity SeverityWarning rs ∧
  TotalCritical st = count_severity SeverityCritical rs ∧
  TotalOK st + TotalWarning st + TotalCritical st = TotalSeen st ∧
  (∀ r1 r2, r1 ∈ rs → r2 ∈ rs → f64_leb (tr_Value r1) (tr_Value r2) = true →
     severity_rank (tr_Severity r1) ≤ severity_rank (tr_Severity r2)) ∧
  f64_leb (warnThreshold te) (criticalThreshold te) = true ∧
  [warnThreshold te; criticalThreshold te] ≡ₚ [warn; critical].
Proof.
  intros te. destruct (evaluate_all te vs) as [rs te'] eqn:E. intros st.
  assert (totalSeen te = 0 ∧ totalWarning te = 0 ∧ totalCritical te = 0) as (T1 & T2 & T3)
    by (unfold te, NewThresholdEmitter; by case_match).
  destruct (evaluate_all_spec te vs rs te' E) as (Hrs & I1 & I2 & I3); [lia..|].
  rewrite T1, T2, T3, ?Z.add_0_l in *.
  assert (count_severity SeverityOK rs + count_severity SeverityWarning rs
    + count_severity SeverityCritical rs = Z.of_nat (length vs)) as Hsum.
  { unfold count_severity. rewrite <-(length_map (λ v, MkResult v (severity te v)) vs), <-Hrs.
    clear. induction rs as [|[v s] rs IH]; [done|]. rewrite !filter_cons.
    destruct s; repeat case_decide; simpl in *; try done; lia. }
  assert (∀ s, 0 ≤ count_severity s rs) as Hnn by (intros; unfold count_severity; lia).
  pose proof (Hnn SeverityOK). pose proof (Hnn SeverityWarning). pose proof (Hnn SeverityCritical).
  assert (TotalOK st = count_severity SeverityOK rs).
  { unfold st, ThresholdEmitter_Stats. cbn [TotalOK]. rewrite I1, I2, I3.
    rewrite (i64_id (_ - count_severity SeverityWarning rs)) by i64_lia.
    rewrite i64_id by i64_lia. lia. }
  split_and!; try done.
  - rewrite Hrs, map_map. simpl. by rewrite map_id.
  - unfold st, ThresholdEmitter_Stats in *. simpl in *. lia.
  - intros r1 r2. rewrite Hrs, !list_elem_of_fmap. intros (v1 & -> & _) (v2 & -> & _).
    apply severity_mono.
  - apply f64_leb_spec. unfold te, NewThresholdEmitter.
    destruct (f64_ltb critical warn) eqn:L; simpl; split_and!; try done.
    destruct (f64_ltb warn critical) eqn:L'; [|done].
    pose proof (f64_ltb_trans _ _ _ L L'). by rewrite f64_ltb_irrefl in *.
  - unfold te, NewThresholdEmitter. destruct (f64_ltb critical warn); simpl; [apply Permutation_swap|done].
Qed.

Lemma threshold_partition_witness :
  is_nan (f64_of_Z 95) = false ∧
  severity (NewThresholdEmitter (f64_of_Z 95) (f64_of_Z 90)) (f64_of_Z 92) = SeverityWarning ∧
  f64_leb (warnThreshold (NewThresholdEmitter (f64_of_Z 95) (f64_of_Z 90)))
    (criticalThreshold (NewThresholdEmitter (f64_of_Z 95) (f64_of_Z 90))) = true.
Proof.
  split; [reflexivity|]. split; [reflexivity|].
  assert (Z.of_nat (length (@nil float64)) ≤ MaxInt64) as Hl by (vm_compute; discriminate).
  pose proof (threshold_partition (f64_of_Z 95) (f64_of_Z 90) [] eq_refl eq_refl Hl) as H.
  cbn [evaluate_all] in H. apply H.
Defined.

End Threshold.

(** ** Group-by aggregation: aggregator.go *)

Module Aggregate.

Record GroupStats := MkGroup { Count : Z; Sum : float64; Min : float64; Max : float64 }.

Definition GroupStats_Avg (gs : GroupStats) : float64 :=
  if Count gs =? 0 then f64_of_Z 0 else f64_div (Sum gs) (f64_of_Z (Count gs)).

Record Aggregator := MkAggregator {
  groups : gmap gostring GroupStats; order : list gostring; maxGroups : Z
}.

Definition NewAggregator (maxGroups : Z) : outcome Aggregator :=
  if maxGroups <=? 0 then Panic else Ret (MkAggregator ∅ [] maxGroups).

(** The end of [Add]: one more value in a group. *)
Definition record_value (gs : GroupStats) (value : float64) : GroupStats :=
  MkGroup (i64 (Count gs + 1)) (f64_add (Sum gs) value)
    (if f64_ltb value (Min gs) then value else Min gs)
    (if f64_ltb (Max gs) value then value else Max gs).

(** [&GroupStats{Min: value, Max: value}] *)
Definition new_group (value : float64) : GroupStats := MkGroup 0 (f64_of_Z 0) value value.

Definition Aggregator_Add (a : Aggregator) (key : gostring) (value : float64) : outcome Aggregator :=
  match groups a !! key with
  | Some gs => Ret (MkAggregator (<[key := record_value gs value]> (groups a)) (order a) (maxGroups a))
  | None =>
      let insert_group (g : gmap gostring GroupStats) (o : list gostring) :=
        Ret (MkAggregator (<[key := record_value (new_group value) value]> g) (o ++ [key])
               (maxGroups a)) in
      if maxGroups a <=? Z.of_nat (size (groups a)) then
        match order a with
        | [] => Panic
        | oldest :: o => insert_group (delete oldest (groups a)) o
        end
      else insert_group (groups a) (order a)
  end.

Definition Aggregator_Get (a : Aggregator) (key : gostring) : option GroupStats := groups a !! key.

Definition Aggregator_Groups (a : Aggregator) : Z := Z.of_nat (size (groups a)).

(** A copy of every group. *)
Definition Aggregator_All (a : Aggregator) : gmap gostring GroupStats := groups a.

Definition add_all (a : Aggregator) (l : list (gostring * float64)) : outcome Aggregator :=
  foldM_go (λ a p, Aggregator_Add a p.1 p.2) a l.

(** *** Abstract specification: a window of groups, oldest first, each with the
    values added to it since it was last created. *)

Definition window := list (gostring * list float64).

Definition spec_add (cap : nat) (w : window) (p : gostring * float64) : window :=
  if decide (p.1 ∈ w.*1)
  then map (λ g, if decide (g.1 = p.1) then (g.1, g.2 ++ [p.2]) else g) w
  else last_n cap (w ++ [(p.1, [p.2])]).

(** The running statistics of the values of a group. *)
Definition stats_of (vs : list float64) : option GroupStats :=
  match vs with
  | [] => None
  | v :: _ => Some (foldl record_value (new_group v) vs)
  end.

(** What the statistics of a group mean: the count of its values, their sum added
    in order of arrival, and values of the group that no other one beats. *)
Definition describes (gs : GroupStats) (vs : list float64) : Prop :=
  (Z.of_nat (length vs) ≤ MaxInt64 → Count gs = Z.of_nat (length vs)) ∧
  Sum gs = foldl f64_add (f64_of_Z 0) vs ∧
  Min gs ∈ vs ∧ Max gs ∈ vs ∧
  (Forall (λ v, is_nan v = false) vs →
     ∀ v, v ∈ vs → f64_ltb v (Min gs) = false ∧ f64_ltb (Max gs) v = false).

(** *** Lemmas *)

(** Finding a key in a window. *)
Definition lookup_group (w : window) (k : gostring) : option (list float64) :=
  (list_to_map w : gmap gostring (list float64)) !! k.

Lemma lookup_group_app w k' vs k :
  k' ∉ w.*1 →
  lookup_group (w ++ [(k', vs)]) k = if decide (k = k') then Some vs else lookup_group w k.
Proof.
  intros Hk. unfold lookup_group. rewrite list_to_map_snoc by done.
  destruct (decide (k = k')) as [->|]; [by rewrite lookup_insert_eq|by rewrite lookup_insert_ne].
Qed.

Lemma lookup_group_update w k v k' :
  lookup_group (map (λ g, if decide (g.1 = k) then (g.1, g.2 ++ [v]) else g) w) k'
  = if decide (k' = k) then (λ vs, vs ++ [v]) <$> lookup_group w k' else lookup_group w k'.
Proof.
  unfold lookup_group. induction w as [|[g vs] w IH]; simpl.
  { rewrite lookup_empty. by case_decide. }
  destruct (decide (g = k)) as [->|Hg]; simpl.
  - destruct (decide (k' = k)) as [->|Hk]; [by rewrite !lookup_insert_eq|].
    by rewrite !lookup_insert_ne.
  - destruct (decide (k' = g)) as [->|Hk'].
    + rewrite !lookup_insert_eq. by rewrite decide_False.
    + by rewrite !lookup_insert_ne.
Qed.

Definition agg_inv (cap : nat) (a : Aggregator) (w : window) : Prop :=
  (0 < cap)%nat ∧ maxGroups a = Z.of_nat cap ∧ order a = w.*1 ∧ NoDup w.*1 ∧
  (length w ≤ cap)%nat ∧ (∀ g, g ∈ w → g.2 ≠ []) ∧
  ∀ k, groups a !! k = lookup_group w k ≫= stats_of.

Lemma stats_of_snoc vs v : vs ≠ [] →
  stats_of (vs ++ [v]) = (λ gs, record_value gs v) <$> stats_of vs.
Proof. destruct vs as [|x vs]; [done|]. intros _. simpl. by rewrite foldl_app. Qed.

Lemma lookup_group_Some w k : NoDup w.*1 → (∀ g, g ∈ w → g.2 ≠ []) →
  match lookup_group w k with
  | Some vs => k ∈ w.*1 ∧ vs ≠ []
  | None => k ∉ w.*1
  end.
Proof.
  intros Hnd Hne. unfold lookup_group. destruct (_ !! k) as [vs|] eqn:E.
  - apply elem_of_list_to_map_2 in E. split; [|by apply Hne in E].
    apply list_elem_of_fmap. by exists (k, vs).
  - by apply not_elem_of_list_to_map_2.
Qed.

Lemma agg_keys cap a w k : agg_inv cap a w → is_Some (groups a !! k) ↔ k ∈ w.*1.
Proof.
  intros (_ & _ & _ & Hnd & _ & Hne & Hg). rewrite Hg.
  pose proof (lookup_group_Some w k Hnd Hne) as H.
  destruct (lookup_group w k) as [[|v vs]|]; simpl; [tauto| |].
  - split; [tauto|eauto].
  - split; [by intros []|done].
Qed.

Lemma agg_size cap a w : agg_inv cap a w → size (groups a) = length w.
Proof.
  intros Ha. pose proof Ha as (_ & _ & _ & Hnd & _).
  rewrite <-size_dom. replace (dom (groups a)) with (list_to_set (C := gset gostring) w.*1).
  - by rewrite size_list_to_set, length_fmap.
  - apply set_eq. intros k. rewrite elem_of_dom, elem_of_list_to_set. symmetry. by eapply agg_keys.
Qed.

Lemma agg_add cap a w p : agg_inv cap a w →
  ∃ a', Aggregator_Add a p.1 p.2 = Ret a' ∧ agg_inv cap a' (spec_add cap w p).
Proof.
  intros Ha. pose proof (agg_keys cap a w p.1 Ha) as Hk. pose proof (agg_size cap a w Ha) as Hsz.
  destruct Ha as (Hpos & Hmax & Ho & Hnd & Hlen & Hne & Hg). destruct p as [k v].
  unfold Aggregator_Add, spec_add. simpl in *. case_decide as Hin.
  - apply Hk in Hin as [gs Hgs]. rewrite Hgs. eexists. split; [done|].
    set (f := λ g : gostring * list float64, _).
    assert ((map f w).*1 = w.*1) as Hf.
    { rewrite <-list_fmap_compose. apply list_fmap_ext.
      intros i [g vs] _. unfold f. simpl. by case_decide. }
    split_and!; simpl; [done|done|by rewrite Hf|by rewrite Hf|by rewrite length_map| |].
    + intros g (g' & -> & Hg')%list_elem_of_fmap. unfold f. case_decide; [by destruct (g'.2)|auto].
    + intros k'. unfold f. rewrite lookup_group_update.
      destruct (decide (k' = k)) as [->|]; [|by rewrite lookup_insert_ne].
      rewrite lookup_insert_eq. rewrite Hg in Hgs.
      pose proof (lookup_group_Some w k Hnd Hne) as Hs.
      destruct (lookup_group w k) as [vs|]; simpl in *; [|done].
      destruct Hs as [_ Hs]. by rewrite stats_of_snoc, Hgs.
  - destruct (groups a !! k) as [gs|] eqn:E; [exfalso; apply Hin, Hk; eauto|].
    rewrite Hmax, Hsz. zcases.
    + rewrite Ho. destruct w as [|[k0 vs0] w]; [simpl in *; lia|]. simpl.
      eexists. split; [done|].
      assert (last_n cap ((k0, vs0) :: w ++ [(k, [v])]) = w ++ [(k, [v])]) as ->.
      { rewrite app_comm_cons. apply (RingBuf.last_n_snoc _ _ (k0, vs0)); [lia|]. unfold last_n.
        by replace (_ - cap)%nat with 0%nat by lia. }
      simpl in *. apply NoDup_cons in Hnd as [Hk0 Hnd].
      apply not_elem_of_cons in Hin as [Hkk0 Hin].
      split_and!; simpl; [done|done|by rewrite fmap_app| | | |].
      * rewrite fmap_app. apply NoDup_app. split_and!; [done|set_solver|apply NoDup_singleton].
      * rewrite length_app. simpl. lia.
      * intros g [Hgw| ->%list_elem_of_singleton]%elem_of_app; [|done]. apply Hne. by right.
      * intros k'. rewrite lookup_group_app by done. case_decide as E'.
        { subst k'. by rewrite lookup_insert_eq. }
        rewrite lookup_insert_ne by done. destruct (decide (k' = k0)) as [->|Hk'].
        { rewrite lookup_delete_eq. pose proof (lookup_group_Some w k0 Hnd) as Hs.
          destruct (lookup_group w k0); [|done]. exfalso. apply Hk0, Hs. intros. apply Hne. by right. }
        rewrite lookup_delete_ne, Hg by done. unfold lookup_group. simpl. by rewrite lookup_insert_ne.
    + eexists. split; [done|].
      rewrite RingBuf.last_n_short by (rewrite length_app; simpl; lia).
      split_and!; simpl; [done|done|by rewrite fmap_app, Ho| | | |].
      * rewrite fmap_app. apply NoDup_app. split_and!; [done|set_solver|apply NoDup_singleton].
      * rewrite length_app. simpl. lia.
      * intros g [Hgw| ->%list_elem_of_singleton]%elem_of_app; [|done]. by apply Hne.
      * intros k'. rewrite lookup_group_app by done. case_decide as E'.
        { subst k'. by rewrite lookup_insert_eq. }
        by rewrite lookup_insert_ne.
Qed.

Lemma agg_run cap a w l : agg_inv cap a w →
  ∃ a', add_all a l = Ret a' ∧ agg_inv cap a' (foldl (spec_add cap) w l).
Proof.
  unfold add_all. revert a w. induction l as [|p l IH]; intros a w Ha; simpl; [eauto|].
  destruct (agg_add cap a w p Ha) as (a1 & -> & H1). simpl. auto.
Qed.

Lemma stats_of_describes v vs :
  ∃ gs, stats_of (v :: vs) = Some gs ∧ describes gs (v :: vs).
Proof.
  induction vs as [|x vs IH] using rev_ind.
  - eexists. split; [done|]. unfold describes. simpl. rewrite f64_ltb_irrefl.
    split_and!; try (by left); [done|done|]. intros _ y ->%list_elem_of_singleton.
    by rewrite f64_ltb_irrefl.
  - destruct IH as (gs & Hgs & Hc & Hs & Hmin & Hmax & Hb).
    rewrite app_comm_cons, stats_of_snoc, Hgs by done. eexists. split; [done|].
    unfold describes. rewrite length_app, foldl_snoc. cbn [record_value Count Sum Min Max].
    split_and!.
    + simpl length in *. intros Hl. rewrite Hc, i64_id by i64_lia. lia.
    + by rewrite Hs.
    + apply elem_of_app. case_match; [right; by left|by left].
    + apply elem_of_app. case_match; [right; by left|by left].
    + intros [Hn Hx]%Forall_app y Hy. apply Forall_singleton in Hx. specialize (Hb Hn).
      pose proof Hn as Hn'. rewrite Forall_forall in Hn'.
      pose proof (Hn' _ Hmin). pose proof (Hn' _ Hmax).
      apply elem_of_app in Hy as [Hy| ->%list_elem_of_singleton].
      * destruct (Hb y Hy) as [H1 H2]. pose proof (Hn' y Hy). split; case_match; try done.
        -- apply (f64_ltb_ge_trans x (Min gs)); [done| |done]. by apply f64_ltb_asym.
        -- apply (f64_ltb_ge_trans y (Max gs)); [done|done|]. by apply f64_ltb_asym.
      * split; case_match; by rewrite ?f64_ltb_irrefl.
Qed.

(** *** Properties *)

(** The aggregator implements a window of at most [cap] groups. Whatever is
    added, no call panics; the groups are those of the window, in which a new
    key pushes out the group created first; and [Get] returns, for a group of the
    window, the count of the values added since the group was (re)created, their
    sum in order, and their least and greatest values. *)
Theorem aggregator_refines (cap : Z) (l : list (gostring * float64)) (Hcap : 0 < cap) :
  let w := foldl (spec_add (Z.to_nat cap)) [] l in
  ∃ a, (NewAggregator cap ≫= λ a, add_all a l) = Ret a ∧
    order a = w.*1 ∧ NoDup w.*1 ∧
    Aggregator_Groups a = Z.of_nat (length w) ∧ Aggregator_Groups a ≤ cap ∧
    ∀ k, match lookup_group w k with
         | Some vs => ∃ gs, Aggregator_Get a k = Some gs ∧ describes gs vs
         | None => Aggregator_Get a k = None
         end.
Proof.
  intros w. unfold NewAggregator. rewrite (proj2 (Z.leb_gt _ _)) by lia.
  destruct (agg_run (Z.to_nat cap) (MkAggregator ∅ [] cap) [] l) as (a & Hr & Ha).
  { split_and!; simpl; try (done || lia); [constructor|]. intros g Hg. by apply elem_of_nil in Hg. }
  exists a. split; [done|]. pose proof (agg_size _ _ _ Ha) as Hsz.
  destruct Ha as (_ & _ & Ho & Hnd & Hlen & Hne & Hg). fold w in Hsz, Ho, Hnd, Hlen, Hne, Hg.
  unfold Aggregator_Groups, Aggregator_Get. split_and!; [done|done|lia|lia|].
  intros k. rewrite Hg. pose proof (lookup_group_Some w k Hnd Hne) as Hk.
  destruct (lookup_group w k) as [[|v vs]|]; [by destruct Hk| |done]. apply stats_of_describes.
Qed.

Lemma aggregator_refines_witness : 0 < 1 ∧
  ∃ a, (NewAggregator 1 ≫= λ a, add_all a
          [(go "oss1", f64_of_Z 42); (go "oss1", f64_of_Z 58); (go "oss2", f64_of_Z 17)]) = Ret a ∧
    order a = [go "oss2"].
Proof.
  split; [lia|].
  destruct (aggregator_refines 1
    [(go "oss1", f64_of_Z 42); (go "oss1", f64_of_Z 58); (go "oss2", f64_of_Z 17)] ltac:(lia))
    as (a & Hr & Ho & _).
  exists a. split; [exact Hr|]. rewrite Ho. vm_compute. reflexivity.
Defined.

(** The package's example: count 2, sum 100, min 42, max 58, average 50. *)
Example aggregate_example :
  (NewAggregator 1000 ≫= λ a, (λ a, (Aggregator_Get a (go "oss1"), GroupStats_Avg <$> Aggregator_Get a (go "oss1"))) <$>
     add_all a [(go "oss1", f64_of_Z 42); (go "oss2", f64_of_Z 17); (go "oss1", f64_of_Z 58)])
  = Ret (Some (MkGroup 2 (f64_of_Z 100) (f64_of_Z 42) (f64_of_Z 58)), Some (f64_of_Z 50)).
Proof. vm_compute. reflexivity. Qed.

End Aggregate.
