(* ===== verification/TopK.v ===== *)
(** * Top-K: internal/registry/stream/topk.go

    The bounded min-heap with the functions of the standard library's
    container/heap it calls ([up], [down], [Push], [Fix]), and the exchange sort of
    [Results]. The heap functions only touch indices their guards have compared
    with the length, so [Less] and [Swap] are total here. *)

From stdpp Require Import base numbers gmap strings sorting list.
From S2P Require Import Prelude.

Section topk.
Context {T : Type}.

(** ** container/heap on a slice ordered by [less] *)

Definition heap_Less (less : T → T → bool) (l : list T) (i j : nat) : bool :=
  match l !! i, l !! j with Some a, Some b => less a b | _, _ => false end.

Definition heap_Swap (l : list T) (i j : nat) : list T :=
  match l !! i, l !! j with Some a, Some b => <[j := a]> (<[i := b]> l) | _, _ => l end.

(** The parent of a node; [(0 - 1) / 2] is 0. *)
Definition parent (j : nat) : nat := Nat.div (j - 1) 2.

(** [up(h, j)]: the index at least halves, so [S j] turns are enough. *)
Fixpoint heap_up (fuel : nat) (less : T → T → bool) (l : list T) (j : nat) : list T :=
  match fuel with
  | O => l
  | S fuel =>
      let i := parent j in
      if (i =? j) || negb (heap_Less less l j i) then l
      else heap_up fuel less (heap_Swap l i j) i
  end%nat.

(** [down(h, i, n)] and the index at which it ends: the index grows, so [n] turns
    are enough. *)
Fixpoint heap_down (fuel : nat) (less : T → T → bool) (l : list T) (i n : nat) : list T * nat :=
  match fuel with
  | O => (l, i)
  | S fuel =>
      let j1 := 2 * i + 1 in
      if n <=? j1 then (l, i)
      else
        let j2 := j1 + 1 in
        let j := if (j2 <? n) && heap_Less less l j2 j1 then j2 else j1 in
        if negb (heap_Less less l j i) then (l, i)
        else heap_down fuel less (heap_Swap l i j) j n
  end%nat.

Definition heap_Push (less : T → T → bool) (l : list T) (x : T) : list T :=
  heap_up (S (length l)) less (l ++ [x]) (length l).

Definition heap_Fix (less : T → T → bool) (l : list T) (i : nat) : list T :=
  let '(l', i') := heap_down (length l) less l i (length l) in
  if i <? i' then l' else heap_up (S i) less l' i.

(** ** The reducer *)

Record TopK := MkTopK { tk_k : Z; tk_less : T → T → bool; tk_items : list T }.

(** [heap.Init] does nothing on an empty heap. *)
Definition NewTopK (k : Z) (less : T → T → bool) : TopK := MkTopK k less [].

Definition TopK_Push (tk : TopK) (item : T) : outcome TopK :=
  let '(MkTopK k less items) := tk in
  if (Z.of_nat (length items) <? k)%Z then Ret (MkTopK k less (heap_Push less items item))
  else
    match items with
    | [] => Panic
    | min :: _ =>
        if less min item then Ret (MkTopK k less (heap_Fix less (<[0 := item]> items) 0))
        else Ret tk
    end.

(** One turn of the inner loop of [Results]. *)
Definition sort_step (less : T → T → bool) (i : nat) (out : list T) (j : nat) : list T :=
  if heap_Less less out i j then heap_Swap out i j else out.

Definition sort_row (less : T → T → bool) (out : list T) (i : nat) : list T :=
  foldl (sort_step less i) out (seq (i + 1) (length out - (i + 1))).

Definition TopK_Results (tk : TopK) : list T :=
  foldl (sort_row (tk_less tk)) (tk_items tk) (seq 0 (length (tk_items tk))).

Definition TopK_Len (tk : TopK) : Z := Z.of_nat (length (tk_items tk)).

(** ** Lemmas: swapping *)

Definition swap_index (i j c : nat) : nat :=
  if decide (c = i) then j else if decide (c = j) then i else c.

Lemma heap_Swap_lookup l i j c : i < length l → j < length l →
  heap_Swap l i j !! c = l !! swap_index i j c.
Proof.
  intros Hi Hj. unfold heap_Swap, swap_index.
  apply lookup_lt_is_Some_2 in Hi as [a Ha]. apply lookup_lt_is_Some_2 in Hj as [b Hb].
  rewrite Ha, Hb. destruct (decide (c = i)) as [->|Hci].
  - destruct (decide (i = j)) as [->|].
    + rewrite list_lookup_insert_eq by (rewrite length_insert; eauto using lookup_lt_Some). congruence.
    + rewrite list_lookup_insert_ne by done.
      by rewrite list_lookup_insert_eq by eauto using lookup_lt_Some.
  - destruct (decide (c = j)) as [->|].
    + by rewrite list_lookup_insert_eq by (rewrite length_insert; eauto using lookup_lt_Some).
    + by rewrite !list_lookup_insert_ne.
Qed.

Lemma heap_Swap_perm l i j : heap_Swap l i j ≡ₚ l.
Proof.
  unfold heap_Swap. destruct (l !! i) eqn:?, (l !! j) eqn:?; try done.
  by apply Permutation_insert_swap.
Qed.

(** ** Lemmas: the order, on the items [dom] *)

Section order.
Context (less : T → T → bool) (dom : list T) (Hw : strict_weak less dom).

Lemma less_asym a b : a ∈ dom → b ∈ dom → less a b = true → less b a = false.
Proof.
  intros Ha Hb H. apply not_true_iff_false. intros H'.
  pose proof (sw_trans less dom Hw a b a Ha Hb Ha H H') as E.
  by rewrite (sw_irrefl less dom Hw a Ha) in E.
Qed.

(** [a <= b <= c] *)
Lemma less_ge_trans a b c : a ∈ dom → b ∈ dom → c ∈ dom →
  less b a = false → less c b = false → less c a = false.
Proof.
  intros Ha Hb Hc H1 H2. apply not_true_iff_false. intros H.
  destruct (sw_cotrans less dom Hw c a b Hc Ha Hb H); congruence.
Qed.

(** [l[a] <= l[b]], where both exist. *)
Definition le_at (l : list T) (a b : nat) : Prop :=
  ∀ x y, l !! a = Some x → l !! b = Some y → less y x = false.

Lemma le_at_trans l b a c : Forall (.∈ dom) l → b < length l →
  le_at l a b → le_at l b c → le_at l a c.
Proof.
  rewrite Forall_lookup. intros Hl Hb H1 H2 x y Hx Hy.
  apply lookup_lt_is_Some_2 in Hb as [z Hz]. apply (less_ge_trans x z y); eauto.
Qed.

Lemma le_at_less l a b : Forall (.∈ dom) l → heap_Less less l a b = true → le_at l a b.
Proof.
  rewrite Forall_lookup. unfold heap_Less. intros Hl H x y Hx Hy. rewrite Hx, Hy in H.
  apply less_asym; eauto.
Qed.

Lemma le_at_not_less l a b : heap_Less less l b a = false → le_at l a b.
Proof. unfold heap_Less. intros H x y Hx Hy. by rewrite Hx, Hy in H. Qed.

Lemma le_at_out l a b : length l ≤ b → le_at l a b.
Proof. intros Hb x y _ Hy%lookup_lt_Some. lia. Qed.

Lemma le_at_swap l i j a b : i < length l → j < length l →
  le_at l (swap_index i j a) (swap_index i j b) → le_at (heap_Swap l i j) a b.
Proof. intros Hi Hj H x y. rewrite !heap_Swap_lookup by done. apply H. Qed.

Lemma le_at_refl l a : Forall (.∈ dom) l → le_at l a a.
Proof.
  rewrite Forall_lookup. intros Hl x y Hx Hy. rewrite Hx in Hy. injection Hy as <-.
  apply (sw_irrefl less dom Hw). eauto.
Qed.

(** ** Lemmas: the heap *)

Lemma parent_spec c i : 0 < c → parent c = i ↔ c = 2 * i + 1 ∨ c = 2 * i + 2.
Proof.
  intros Hc. unfold parent. pose proof (Nat.div_mod_eq (c - 1) 2).
  pose proof (Nat.mod_upper_bound (c - 1) 2). lia.
Qed.

Lemma parent_lt c : 0 < c → parent c < c.
Proof. intros Hc. pose proof (parent_spec c (parent c) Hc). lia. Qed.

(** Every node but [j] is at least its parent, and [j]'s children are at least
    [j]'s parent: what [up] and [down] start from. *)
Definition heap_but (l : list T) (j : nat) : Prop :=
  (∀ c, 0 < c → c ≠ j → parent c ≠ j → le_at l (parent c) c) ∧
  (∀ c, 0 < c → parent c = j → 0 < j → le_at l (parent j) c).

Definition heap (l : list T) : Prop := ∀ c, 0 < c → le_at l (parent c) c.

(** Prove an inequality in the swapped heap from one in the heap before. *)
Ltac swapped := apply le_at_swap; [lia|lia|]; unfold swap_index; repeat case_decide; subst; try lia.

Lemma up_swap l j : Forall (.∈ dom) l → 0 < j → j < length l →
  heap_but l j → (∀ c, 0 < c → parent c = j → le_at l j c) → le_at l j (parent j) →
  let l' := heap_Swap l (parent j) j in
  heap_but l' (parent j) ∧ ∀ c, 0 < c → parent c = parent j → le_at l' (parent j) c.
Proof.
  intros Hd Hj Hlen [H1 H2] Hc Hlt l'. pose proof (parent_lt j Hj) as Hp.
  assert (∀ c, 0 < c → parent c = j → parent j < j < c) as Hlt'.
  { intros c ? <-. split; [done|by apply parent_lt]. }
  split; [split|].
  - intros c Hc0 Hcp Hpp. unfold l'. destruct (decide (parent c = j)) as [Hcj|Hcj].
    + pose proof (Hlt' c Hc0 Hcj). rewrite Hcj. swapped. by apply H2.
    + swapped. by apply H1.
  - intros c Hc0 Hcp Hp0. unfold l'. pose proof (parent_lt (parent j) Hp0).
    pose proof (parent_lt c Hc0). swapped.
    + apply H1; [done|lia|lia].
    + apply (le_at_trans _ (parent j)); [done|lia|apply H1; lia|].
      rewrite <-Hcp. apply H1; [done..|lia].
  - intros c Hc0 Hcp. unfold l'. pose proof (parent_lt c Hc0). swapped; [done|].
    apply (le_at_trans _ (parent j)); [done|lia|done|]. rewrite <-Hcp. apply H1; [done..|lia].
Qed.

Lemma heap_but_heap l j :
  heap_but l j → (∀ c, 0 < c → parent c = j → le_at l j c) →
  (0 < j → le_at l (parent j) j) → heap l.
Proof.
  intros [H1 _] Hc Hp c Hc0. destruct (decide (c = j)) as [->|]; [auto|].
  destruct (decide (parent c = j)) as [<-|]; auto.
Qed.

Lemma heap_up_spec fuel l j : Forall (.∈ dom) l → j < length l → j < fuel →
  heap_but l j → (∀ c, 0 < c → parent c = j → le_at l j c) →
  heap (heap_up fuel less l j) ∧ heap_up fuel less l j ≡ₚ l.
Proof.
  revert l j. induction fuel as [|fuel IH]; intros l j Hd Hj Hf Hb Hc; [lia|].
  cbn [heap_up]. destruct (Nat.eqb_spec (parent j) j) as [E|E]; cbn [orb].
  { split; [|done]. apply (heap_but_heap l j); [done..|]. intros H0%parent_lt. lia. }
  assert (0 < j) as H0 by (destruct j; [done|lia]).
  destruct (heap_Less less l j (parent j)) eqn:L; cbn [negb].
  - apply le_at_less in L; [|done]. destruct (up_swap l j Hd H0 Hj Hb Hc L) as [Hb' Hc'].
    pose proof (parent_lt j H0). pose proof (heap_Swap_perm l (parent j) j) as Hp.
    destruct (IH (heap_Swap l (parent j) j) (parent j)) as [? Hp'];
      [by rewrite Hp|rewrite Hp; lia|lia|done|done|]. split; [done|]. by rewrite Hp', Hp.
  - split; [|done]. apply (heap_but_heap l j); [done..|]. intros _. by apply le_at_not_less.
Qed.

Lemma down_swap l i j : 0 < j → parent j = i → j < length l → heap_but l i → le_at l j i →
  (∀ c, 0 < c → parent c = i → c ≠ j → le_at l j c) →
  let l' := heap_Swap l i j in heap_but l' j ∧ le_at l' (parent j) j.
Proof.
  intros H0 Hp Hj [H1 H2] Hji Hs l'. pose proof (parent_lt j H0). unfold l'.
  split; [split|].
  - intros c Hc0 Hcj Hcp. pose proof (parent_lt c Hc0). swapped; auto.
  - intros c Hc0 Hcj _. pose proof (parent_lt c Hc0). rewrite Hp. swapped. apply H1; lia || congruence.
  - rewrite Hp. by swapped.
Qed.

Lemma heap_down_spec fuel l i : Forall (.∈ dom) l → length l - i ≤ fuel →
  heap_but l i → (0 < i → le_at l (parent i) i) →
  let r := heap_down fuel less l i (length l) in
  heap (fst r) ∧ fst r ≡ₚ l ∧ i ≤ snd r.
Proof.
  revert l i. induction fuel as [|fuel IH]; intros l i Hd Hf Hb Hp; cbn [heap_down].
  { split_and!; [|done|done]. apply (heap_but_heap l i); [done| |done].
    intros c H0 <-. pose proof (parent_lt c H0). apply le_at_out. lia. }
  set (j1 := 2 * i + 1). destruct (Nat.leb_spec (length l) j1) as [Hn|Hn].
  { split_and!; [|done|done]. apply (heap_but_heap l i); [done| |done].
    intros c H0 Hc%parent_spec; [|done]. apply le_at_out. lia. }
  set (j := if (j1 + 1 <? length l) && heap_Less less l (j1 + 1) j1 then j1 + 1 else j1).
  assert ((j = j1 ∨ j = j1 + 1) ∧ j < length l ∧
    ∀ c, 0 < c → parent c = i → c ≠ j → le_at l j c) as (Hj & Hjl & Hs).
  { unfold j. destruct (Nat.ltb_spec (j1 + 1) (length l)) as [H2|H2]; cbn [andb].
    - destruct (heap_Less less l (j1 + 1) j1) eqn:L; split_and!; auto.
      + intros c H0 Hc%parent_spec ?; [|done]. apply le_at_less in L; [|done].
        replace c with j1 by lia. done.
      + intros c H0 Hc%parent_spec ?; [|done]. apply le_at_not_less in L.
        replace c with (j1 + 1) by lia. done.
    - split_and!; auto. intros c H0 Hc%parent_spec ?; [|done]. apply le_at_out. lia. }
  assert (0 < j ∧ parent j = i) as [H0 Hpj].
  { split; [lia|]. apply parent_spec; lia. }
  clearbody j. destruct (heap_Less less l j i) eqn:L; cbn [negb].
  - apply le_at_less in L; [|done]. destruct (down_swap l i j H0 Hpj Hjl Hb L Hs) as [Hb' Hp'].
    pose proof (heap_Swap_perm l i j) as Hsw.
    replace (length l) with (length (heap_Swap l i j)) by (by rewrite Hsw).
    destruct (IH (heap_Swap l i j) j) as (Hh & Hp2 & Hle);
      [by rewrite Hsw|rewrite Hsw; lia|done|done|]. split_and!; [done|by rewrite Hp2, Hsw|lia].
  - apply le_at_not_less in L. split_and!; [|done|done].
    apply (heap_but_heap l i); [done| |done]. intros c Hc0 Hc.
    destruct (decide (c = j)) as [->|]; [done|]. apply (le_at_trans l j); auto.
Qed.

(** The first item is a least one. *)
Lemma heap_root l c : Forall (.∈ dom) l → heap l → le_at l 0 c.
Proof.
  intros Hd Hh. induction (lt_wf c) as [c _ IH]. destruct (decide (c = 0)) as [->|Hc].
  { by apply le_at_refl. }
  destruct (decide (c < length l)) as [Hcl|]; [|apply le_at_out; lia].
  assert (0 < c) as H0 by lia. pose proof (parent_lt c H0).
  apply (le_at_trans l (parent c)); [done|lia|by apply IH|by apply Hh].
Qed.

Lemma heap_Push_spec l x : Forall (.∈ dom) (x :: l) → heap l →
  heap (heap_Push less l x) ∧ heap_Push less l x ≡ₚ x :: l.
Proof.
  intros Hd Hh. unfold heap_Push.
  assert (∀ a b, a < length l → b < length l → le_at l a b → le_at (l ++ [x]) a b) as Happ.
  { intros a b Ha Hb H u v. rewrite !lookup_app_l by done. apply H. }
  assert (length (l ++ [x]) = S (length l)) as Hlen by (rewrite length_app; simpl; lia).
  assert (l ++ [x] ≡ₚ x :: l) as Hp by (by rewrite Permutation_app_comm).
  destruct (heap_up_spec (S (length l)) (l ++ [x]) (length l)) as [H1 H2];
    [by rewrite Hp|lia|lia| | |].
  - split.
    + intros c H0 Hc _. pose proof (parent_lt c H0). destruct (decide (c < length l)).
      * apply Happ; [lia|done|]. by apply Hh.
      * apply le_at_out. lia.
    + intros c H0 Hc _. pose proof (parent_lt c H0). apply le_at_out. lia.
  - intros c H0 Hc. pose proof (parent_lt c H0). apply le_at_out. lia.
  - split; [done|]. by rewrite H2.
Qed.

(** Replacing the first item and fixing the heap. *)
Lemma heap_Fix_spec m l x : Forall (.∈ dom) (x :: l) → heap (m :: l) →
  heap (heap_Fix less (x :: l) 0) ∧ heap_Fix less (x :: l) 0 ≡ₚ x :: l.
Proof.
  intros Hd Hh. unfold heap_Fix.
  destruct (heap_down_spec (length (x :: l)) (x :: l) 0 Hd) as (H1 & H2 & _); [lia| |lia|].
  - split; [|lia]. intros c H0 Hc Hpc u v. pose proof (Hh c H0 u v) as Hv.
    destruct c as [|c]; [done|]. destruct (parent (S c)) as [|p]; [done|]. exact Hv.
  - destruct (heap_down _ _ _ _ _) as [l' i'] eqn:E. simpl fst in *.
    destruct (Nat.ltb_spec 0 i'); [done|]. cbn [heap_up]. by rewrite Nat.eqb_refl.
Qed.

(** ** Lemmas: the exchange sort *)

(** The first [i] items are in place. *)
Definition placed (out : list T) (i : nat) : Prop := ∀ a b, a < i → a < b → le_at out b a.

Lemma sort_step_spec out i j : Forall (.∈ dom) out → i < j → j < length out →
  placed out i → (∀ b, i < b < j → le_at out b i) →
  let out' := sort_step less i out j in
  out' ≡ₚ out ∧ placed out' i ∧ ∀ b, i < b < S j → le_at out' b i.
Proof.
  intros Hd Hij Hj Hp Hb out'. unfold out', sort_step. destruct (heap_Less less out i j) eqn:L.
  - apply le_at_less in L; [|done]. split_and!; [apply heap_Swap_perm| |].
    + intros a b Ha Hab. swapped; apply Hp; lia.
    + intros b Hib. swapped; [done|]. apply (le_at_trans out i); [done|lia|apply Hb; lia|done].
  - apply le_at_not_less in L. split_and!; [done|done|]. intros b Hib.
    destruct (decide (b = j)) as [->|]; [done|]. apply Hb. lia.
Qed.

Lemma sort_row_spec out i : Forall (.∈ dom) out → i < length out → placed out i →
  sort_row less out i ≡ₚ out ∧ placed (sort_row less out i) (S i).
Proof.
  intros Hd Hi Hp. unfold sort_row.
  assert (∀ m, i + 1 + m ≤ length out →
    let out' := foldl (sort_step less i) out (seq (i + 1) m) in
    out' ≡ₚ out ∧ placed out' i ∧ ∀ b, i < b < i + 1 + m → le_at out' b i) as H.
  { induction m as [|m IH]; intros Hm out'.
    - split_and!; [done|done|lia].
    - destruct (IH ltac:(lia)) as (H1 & H2 & H3). unfold out'. rewrite seq_S, foldl_snoc.
      set (o := foldl _ _ _) in *.
      destruct (sort_step_spec o i (i + 1 + m)) as (H4 & H5 & H6);
        [by rewrite H1|lia|rewrite H1; lia|done|done|].
      split_and!; [by rewrite H4|done|]. intros b Hb. apply H6. lia. }
  destruct (H (length out - (i + 1)) ltac:(lia)) as (H1 & H2 & H3). split; [done|].
  set (out' := foldl _ _ _) in *. intros a b Ha Hab.
  destruct (decide (a = i)) as [->|]; [|apply H2; lia].
  destruct (decide (b < length out)); [apply H3; lia|].
  intros x y Hx%lookup_lt_Some. rewrite H1 in Hx. lia.
Qed.

Lemma placed_sorted out :
  placed out (length out) → StronglySorted (λ a b, less a b = false) out.
Proof.
  induction out as [|x out IH]; intros Hp; constructor.
  - apply IH. intros a b Ha Hab u v. apply (Hp (S a) (S b)); simpl; lia.
  - apply Forall_lookup. intros b y Hy. apply (Hp 0 (S b)); simpl; [lia|lia|done|done].
Qed.

Lemma results_spec k items : Forall (.∈ dom) items →
  let out := TopK_Results (MkTopK k less items) in
  out ≡ₚ items ∧ StronglySorted (λ a b, less a b = false) out.
Proof.
  intros Hd out. unfold out, TopK_Results. simpl.
  assert (∀ m, m ≤ length items → let o := foldl (sort_row less) items (seq 0 m) in
    o ≡ₚ items ∧ placed o m) as H.
  { induction m as [|m IH]; intros Hm o.
    - split; [done|]. intros a b Ha. lia.
    - destruct (IH ltac:(lia)) as (H1 & H2). unfold o. rewrite seq_S, foldl_snoc. simpl.
      set (o' := foldl _ _ _) in *.
      destruct (sort_row_spec o' m) as [H3 H4]; [by rewrite H1|rewrite H1; lia|done|].
      split; [by rewrite H3|done]. }
  destruct (H (length items) ltac:(done)) as [H1 H2]. split; [done|].
  apply placed_sorted. by rewrite H1 at 2.
Qed.

(** ** Lemmas: the reducer *)

(** After the items [l] were pushed: the heap holds the best, [rest] the others. *)
Definition topk_inv (k : Z) (l : list T) (tk : TopK) : Prop :=
  ∃ items rest, tk = MkTopK k less items ∧ heap items ∧ items ++ rest ≡ₚ l ∧
    Z.of_nat (length items) = Z.min k (Z.of_nat (length l)) ∧
    ∀ x y, x ∈ items → y ∈ rest → less x y = false.

Lemma topk_push k l tk item : (0 < k)%Z → l ++ [item] ⊆ dom → topk_inv k l tk →
  ∃ tk', TopK_Push tk item = Ret tk' ∧ topk_inv k (l ++ [item]) tk'.
Proof.
  intros Hk Hdom (items & rest & -> & Hh & Hp & Hlen & Hbest). unfold TopK_Push.
  assert (∀ x, x ∈ items ++ rest → x ∈ dom) as Hin
    by (intros x; rewrite Hp; intros; apply Hdom; set_solver).
  assert (item ∈ dom) as Hitem by (apply Hdom; set_solver).
  assert (Forall (.∈ dom) items) as Hd by (apply Forall_forall; set_solver).
  pose proof (Permutation_length Hp) as Hpl. rewrite length_app in Hpl.
  destruct (Z.ltb_spec (Z.of_nat (length items)) k) as [Hlt|Hge].
  - destruct (heap_Push_spec items item) as [H1 H2]; [by constructor|done|].
    eexists. split; [done|]. assert (rest = []) as ->.
    { apply nil_length_inv. lia. }
    exists (heap_Push less items item), []. rewrite app_nil_r in *. split_and!; [done|done| | |].
    + rewrite H2, Hp. apply Permutation_cons_append.
    + rewrite H2, length_app. simpl in *. lia.
    + intros x y _ Hy. by apply elem_of_nil in Hy.
  - destruct items as [|min items]; [simpl in *; lia|].
    assert (min ∈ dom) as Hmin by (apply Hin; set_solver).
    assert (∀ x, x ∈ min :: items → less x min = false) as Hroot.
    { intros x [c Hc]%list_elem_of_lookup. by apply (heap_root (min :: items) c Hd Hh). }
    destruct (less min item) eqn:L.
    + destruct (heap_Fix_spec min items item) as [H1 H2]; [|done|].
      { constructor; [done|]. by inversion Hd. }
      eexists. split; [done|]. eexists (heap_Fix less (item :: items) 0), (min :: rest).
      split_and!; [done|done| | |].
      * rewrite H2, <-Hp. simpl. rewrite <-Permutation_middle, <-Permutation_cons_append.
        apply Permutation_swap.
      * rewrite H2, length_app. simpl in *. lia.
      * intros x y. rewrite H2. intros Hx Hy.
        assert (less x min = false) as Hxm.
        { apply elem_of_cons in Hx as [->|Hx]; [by apply less_asym|]. apply Hroot. by right. }
        apply elem_of_cons in Hy as [->|Hy]; [done|].
        apply (less_ge_trans y min x); [apply Hin; set_solver|done| |by apply Hbest; [left|]|done].
        apply elem_of_cons in Hx as [->|Hx]; [done|]. apply Hin. set_solver.
    + eexists. split; [done|]. exists (min :: items), (item :: rest). split_and!; [done|done| | |].
      * rewrite <-Permutation_middle, Hp. apply Permutation_cons_append.
      * rewrite length_app. simpl in *. lia.
      * intros x y Hx Hy. apply elem_of_cons in Hy as [->|Hy]; [|by apply Hbest].
        apply (less_ge_trans item min x); [done|done|apply Hin; set_solver|done|by apply Hroot].
Qed.

Lemma topk_run k tk l l' : (0 < k)%Z → l ++ l' ⊆ dom → topk_inv k l tk →
  ∃ tk', foldM_go TopK_Push tk l' = Ret tk' ∧ topk_inv k (l ++ l') tk'.
Proof.
  intros Hk. revert tk l. induction l' as [|x l' IH]; intros tk l Hdom Hi; simpl.
  { rewrite app_nil_r. eauto. }
  destruct (topk_push k l tk x Hk) as (tk1 & -> & H1); [set_solver|done|]. simpl.
  rewrite (cons_middle x l l'), (assoc_L (++)). apply IH; [set_solver|done].
Qed.

End order.

(** ** Properties *)

(** C32: Top-K finds the top k, for a positive k. When [less] orders the items pushed (a
    strict weak order; scores without NaN are one), no push panics, and [Results] is
    sorted from the highest down, has as many of the items pushed as fit in [k], and
    none of the items left out ranks above one of them. (With [k <= 0] a push panics:
    [topk_no_room].) *)
Theorem topk_correct (k : Z) (less : T → T → bool) (l : list T)
  (Hk : (0 < k)%Z) (Hw : strict_weak less l) :
  ∃ tk rest, foldM_go TopK_Push (NewTopK k less) l = Ret tk ∧
    TopK_Len tk = Z.min k (Z.of_nat (length l)) ∧
    length (TopK_Results tk) = Z.to_nat (TopK_Len tk) ∧
    TopK_Results tk ++ rest ≡ₚ l ∧
    StronglySorted (λ a b, less a b = false) (TopK_Results tk) ∧
    ∀ x y, x ∈ TopK_Results tk → y ∈ rest → less x y = false.
Proof.
  destruct (topk_run less l Hw k (NewTopK k less) [] l Hk) as (tk & Hr & Hi); [done| |].
  { exists [], []. split_and!; [done| |done|simpl; lia|].
    - intros c _. apply le_at_out. simpl. lia.
    - intros x y Hx. by apply elem_of_nil in Hx. }
  destruct Hi as (items & rest & -> & _ & Hp & Hlen & Hbest).
  destruct (results_spec less l Hw k items) as [H1 H2].
  { apply Forall_forall. intros x Hx. simpl app in Hp. rewrite <-Hp. set_solver. }
  eexists _, rest. split; [exact Hr|]. unfold TopK_Len. simpl tk_items.
  split_and!; [done|by rewrite H1; lia|by rewrite H1|done|]. intros x y. rewrite H1. apply Hbest.
Qed.

End topk.

(** A reducer with no room panics on its first item. *)
Lemma topk_no_room (k : Z) (less : Z → Z → bool) (x : Z) : (k ≤ 0)%Z → TopK_Push (NewTopK k less) x = Panic.
Proof. intros Hk. unfold TopK_Push, NewTopK. change (Z.of_nat (length [])) with 0%Z. by rewrite (proj2 (Z.ltb_ge 0 k)). Qed.

Lemma topk_correct_witness : (0 < 2)%Z ∧ strict_weak Z.ltb [3; 1; 2]%Z ∧
  ∃ tk rest, foldM_go TopK_Push (NewTopK 2 Z.ltb) [3; 1; 2]%Z = Ret tk ∧
    TopK_Results tk ++ rest ≡ₚ [3; 1; 2]%Z.
Proof.
  assert (strict_weak Z.ltb [3; 1; 2]%Z) as Hw by (split; intros; zcases; try (done || lia); auto; left; lia).
  split; [lia|]. split; [done|].
  destruct (topk_correct 2 Z.ltb [3; 1; 2]%Z ltac:(lia) Hw) as (tk & rest & H1 & _ & _ & H2 & _).
  eauto.
Defined.

Example topk_example :
  (TopK_Results <$> foldM_go TopK_Push (NewTopK 3 Z.ltb) [5; 1; 9; 3; 7; 9; 2]%Z) = Ret [9; 9; 7]%Z.
Proof. reflexivity. Qed.
