(* ===== verification/Codec.v ===== *)
(** * Control-frame framing: proto/codec.go and proto/pair.go

    Length-prefixed frames on a byte stream: 4 bytes of big-endian length, then the
    protobuf encoding, which is a parameter ([marshal], [unmarshal]). A writer is a
    stream with the room it has left before writing fails; a reader is the list
    of the bytes that will arrive before the end of the stream. The pool of read
    buffers is left out: a pooled buffer is overwritten up to the length in use
    before it is read. *)

From Stdlib Require Import Ascii.
From stdpp Require Import base numbers gmap strings sorting list.
From S2P Require Import Prelude.

Open Scope Z_scope.

Abbreviation bytes := (list ascii).

Definition MaxFrameSize : Z := 256 * 1024.

Definition maxPairFrameSize : Z := 1024.

(** ** encoding/binary and io *)

Definition byte_of (z : Z) : ascii := ascii_of_N (Z.to_N (z mod 256)).

Definition of_byte (c : ascii) : Z := Z.of_N (N_of_ascii c).

(** [binary.BigEndian.PutUint32] of a [uint32]. *)
Definition PutUint32 (v : Z) : bytes :=
  [byte_of (Z.shiftr v 24); byte_of (Z.shiftr v 16); byte_of (Z.shiftr v 8); byte_of v].

Definition Uint32 (b : bytes) : Z :=
  match b with
  | [b0; b1; b2; b3] =>
      Z.lor (of_byte b3) (Z.lor (Z.shiftl (of_byte b2) 8)
        (Z.lor (Z.shiftl (of_byte b1) 16) (Z.shiftl (of_byte b0) 24)))
  | _ => 0
  end.

(** An [io.Writer]: the bytes written and how many more it takes. A short write
    is an error. *)
Record writer := MkWriter { w_data : bytes; w_room : nat }.

Definition Write (w : writer) (p : bytes) : writer * bool :=
  (MkWriter (w_data w ++ take (w_room w) p) (w_room w - length p),
   bool_decide (length p ≤ w_room w)%nat).

(** [io.ReadFull(r, buf)] with a buffer of [n] bytes: the bytes or an error, and
    the rest of the stream. *)
Definition ReadFull (n : nat) (r : bytes) : (bytes + goerr) * bytes :=
  if decide (n ≤ length r)%nat then (inl (take n r), drop n r)
  else (inr (Errorf (if decide (r = []) then "EOF" else "unexpected EOF")), []).

(** [io.CopyN(io.Discard, r, n)] *)
Definition Discard (n : Z) (r : bytes) : bytes := drop (Z.to_nat n) r.

Section codec.
Context {F : Type}.
(** [pb.Marshal] and [pb.Unmarshal] for the message type. *)
Variable marshal : F → option bytes.
Variable unmarshal : bytes → option F.

(** ** Writing *)

Definition WriteRawFrame (w : writer) (data : bytes) : writer * outcome unit :=
  let '(w, ok) := Write w (PutUint32 (Z.of_nat (length data) mod 2 ^ 32)) in
  if negb ok then (w, Err (Errorf "proto: write header: %w"))
  else if decide (0 < length data)%nat then
    let '(w, ok) := Write w data in
    if negb ok then (w, Err (Errorf "proto: write payload: %w")) else (w, Ret tt)
  else (w, Ret tt).

Definition WriteFrame (w : writer) (frame : F) : writer * outcome unit :=
  match marshal frame with
  | None => (w, Err (Errorf "proto: marshal frame: %w"))
  | Some data =>
      let '(w, ok) := Write w (PutUint32 (Z.of_nat (length data) mod 2 ^ 32)) in
      if negb ok then (w, Err (Errorf "proto: write header: %w"))
      else
        let '(w, ok) := Write w data in
        if negb ok then (w, Err (Errorf "proto: write payload: %w")) else (w, Ret tt)
  end.

Definition WritePairFrame (w : writer) (frame : F) : writer * outcome unit :=
  match marshal frame with
  | None => (w, Err (Errorf "proto: marshal pair frame: %w"))
  | Some data =>
      let '(w, ok) := Write w (PutUint32 (Z.of_nat (length data) mod 2 ^ 32)) in
      if negb ok then (w, Err (Errorf "proto: write pair header: %w"))
      else
        let '(w, ok) := Write w data in
        if negb ok then (w, Err (Errorf "proto: write pair payload: %w")) else (w, Ret tt)
  end.

(** ** Reading *)

Definition UnmarshalFrame (data : bytes) : outcome F :=
  match unmarshal data with
  | Some frame => Ret frame
  | None => Err (Errorf "proto: unmarshal frame: %w")
  end.

Record FrameReader := MkFrameReader { memoryUsed : Z; memoryBudget : Z }.

Definition NewFrameReader (budget : Z) : FrameReader := MkFrameReader 0 budget.

(** [fr.memoryUsed.Add(n)] *)
Definition add_used (fr : FrameReader) (n : Z) : FrameReader :=
  MkFrameReader (i64 (memoryUsed fr + n)) (memoryBudget fr).

(** The result, the rest of the stream and the reader's counter after the call. *)
Definition FrameReader_ReadFrame (fr : FrameReader) (r : bytes) : outcome F * bytes * FrameReader :=
  match ReadFull 4 r with
  | (inl header, r) =>
      let length := Uint32 header in
      if MaxFrameSize <? length then
        (Err (Errorf "proto: frame too large: %d bytes (max %d)"), Discard MaxFrameSize r, fr)
      else if length =? 0 then (UnmarshalFrame [], r, fr)
      else
        let fr := add_used fr length in
        if memoryBudget fr <? memoryUsed fr then
          (Err (Errorf "proto: frame memory budget exceeded: %d bytes in flight (budget %d)"),
           Discard length r, add_used fr (- length))
        else
          match ReadFull (Z.to_nat length) r with
          | (inl data, r) => (UnmarshalFrame data, r, add_used fr (- length))
          | (inr e, r) => (Err (Wrapf "proto: read payload: %w" e), r, add_used fr (- length))
          end
  | (inr e, r) => (Err (Wrapf "proto: read header: %w" e), r, fr)
  end.

Definition ReadPairFrame (r : bytes) : outcome F * bytes :=
  match ReadFull 4 r with
  | (inl header, r) =>
      let length := Uint32 header in
      if maxPairFrameSize <? length then
        (Err (Errorf "proto: pair frame too large: %d bytes (max %d)"), Discard length r)
      else
        match ReadFull (Z.to_nat length) r with
        | (inl data, r) =>
            (match unmarshal data with
             | Some frame => Ret frame
             | None => Err (Errorf "proto: unmarshal pair frame: %w")
             end, r)
        | (inr e, r) => (Err (Wrapf "proto: read pair payload: %w" e), r)
        end
  | (inr e, r) => (Err (Wrapf "proto: read pair header: %w" e), r)
  end.

(** ** A stream of frames *)

(** Write frames until one fails. *)
Fixpoint write_all (w : writer) (fs : list F) : writer * outcome unit :=
  match fs with
  | [] => (w, Ret tt)
  | f :: fs =>
      match WriteFrame w f with
      | (w, Ret _) => write_all w fs
      | r => r
      end
  end.

(** The read loop of a control stream: it reads until the first error, which a
    stream of [n] bytes gives after at most [n / 4 + 1] frames. *)
Fixpoint read_loop (fuel : nat) (fr : FrameReader) (r : bytes) : list F * outcome F * FrameReader :=
  match fuel with
  | O => ([], Diverge, fr)
  | S fuel =>
      match FrameReader_ReadFrame fr r with
      | (Ret f, r, fr) => let '(fs, e, fr) := read_loop fuel fr r in (f :: fs, e, fr)
      | (e, _, fr) => ([], e, fr)
      end
  end.

Definition read_all (fr : FrameReader) (r : bytes) : list F * outcome F * FrameReader :=
  read_loop (S (length r)) fr r.

(** ** Lemmas *)

Lemma of_byte_of z : of_byte (byte_of z) = z mod 256.
Proof.
  unfold of_byte, byte_of. pose proof (Z.mod_pos_bound z 256). rewrite N_ascii_embedding; lia.
Qed.

Lemma byte_testbit z n : 0 ≤ n →
  Z.testbit (of_byte (byte_of z)) n = if n <? 8 then Z.testbit z n else false.
Proof.
  intros Hn. rewrite of_byte_of. change 256 with (2 ^ 8). zcases.
  - by rewrite Z.mod_pow2_bits_low.
  - by rewrite Z.mod_pow2_bits_high by lia.
Qed.

Lemma Uint32_PutUint32 v : 0 ≤ v < 2 ^ 32 → Uint32 (PutUint32 v) = v.
Proof.
  intros Hv. apply Z.bits_inj'. intros n Hn. unfold Uint32, PutUint32.
  rewrite !Z.lor_spec, !Z.shiftl_spec by done.
  assert (∀ k, 0 ≤ k → Z.testbit (of_byte (byte_of (Z.shiftr v k))) (n - k)
    = if (k <=? n) && (n <? k + 8) then Z.testbit v n else false) as Hb.
  { intros k Hk. destruct (Z.leb_spec k n); cbn [andb].
    - rewrite byte_testbit by lia. rewrite Z.shiftr_spec by lia.
      replace (n - k + k) with n by lia. zcases; (done || lia).
    - apply Z.testbit_neg_r. lia. }
  rewrite (byte_testbit v n), !Hb by lia.
  assert (32 ≤ n → Z.testbit v n = false) as Hhi.
  { intros ?. rewrite <-(Z.mod_small v (2 ^ 32)) by done. by apply Z.mod_pow2_bits_high. }
  zcases; cbn [andb orb]; try lia; rewrite ?orb_false_r; try done. by rewrite Hhi by lia.
Qed.

Lemma length_PutUint32 v : length (PutUint32 v) = 4%nat.
Proof. done. Qed.

Lemma ReadFull_app p r : ReadFull (length p) (p ++ r) = (inl p, r).
Proof.
  unfold ReadFull. rewrite decide_True by (rewrite length_app; lia).
  by rewrite take_app_length, drop_app_length.
Qed.

Lemma read_header v r : 0 ≤ v < 2 ^ 32 → ReadFull 4 (PutUint32 v ++ r) = (inl (PutUint32 v), r).
Proof. intros _. apply (ReadFull_app (PutUint32 v)). Qed.

Lemma Write_fits w p : (length p ≤ w_room w)%nat →
  Write w p = (MkWriter (w_data w ++ p) (w_room w - length p), true).
Proof. intros H. unfold Write. by rewrite bool_decide_true, firstn_all2 by done. Qed.

Lemma add_used_back fr n : in_i64 (memoryUsed fr) → in_i64 (memoryUsed fr + n) →
  add_used (add_used fr n) (- n) = fr.
Proof.
  intros H1 H2. destruct fr as [u b]. unfold add_used. simpl in *. f_equal.
  rewrite (i64_id (u + n)) by done. rewrite i64_id; [lia|]. by replace (u + n + - n) with u by lia.
Qed.

(** The frame of a payload. *)
Definition framed (d : bytes) : bytes := PutUint32 (Z.of_nat (length d)) ++ d.

Lemma length_framed d : length (framed d) = (4 + length d)%nat.
Proof. unfold framed. by rewrite length_app. Qed.

Lemma WriteFrame_fits w f d :
  marshal f = Some d → Z.of_nat (length d) < 2 ^ 32 → (length (framed d) ≤ w_room w)%nat →
  WriteFrame w f
  = (MkWriter (w_data w ++ framed d) (w_room w - length (framed d)), Ret tt).
Proof.
  intros Hm Hd Hr. unfold WriteFrame. rewrite length_framed in Hr.
  rewrite Hm, Z.mod_small, Write_fits by (simpl; lia). cbn [negb].
  rewrite Write_fits by (simpl; lia). cbn [negb w_data w_room]. rewrite length_framed.
  unfold framed. rewrite (assoc_L (++)). f_equal. f_equal. simpl. lia.
Qed.

(** A frame within the limit is consumed exactly, whatever follows it. *)
Lemma ReadFrame_framed fr d tail :
  0 ≤ memoryUsed fr ≤ MaxInt64 - 2 ^ 32 → Z.of_nat (length d) ≤ MaxFrameSize →
  FrameReader_ReadFrame fr (framed d ++ tail)
  = (if (length d =? 0)%nat || (memoryUsed fr + Z.of_nat (length d) <=? memoryBudget fr)
     then UnmarshalFrame d
     else Err (Errorf "proto: frame memory budget exceeded: %d bytes in flight (budget %d)"),
     tail, fr).
Proof.
  intros Hu Hd. assert (MaxFrameSize = 262144) as Hmax by done.
  unfold FrameReader_ReadFrame, framed. rewrite <-(assoc_L (++)).
  rewrite read_header, Uint32_PutUint32, (proj2 (Z.ltb_ge _ _)) by lia.
  destruct (Z.eqb_spec (Z.of_nat (length d)) 0) as [E|E].
  { by destruct d. }
  rewrite (proj2 (Nat.eqb_neq _ _)) by lia. cbn [orb].
  rewrite add_used_back by i64_lia. unfold add_used. cbn [memoryBudget memoryUsed].
  rewrite i64_id by i64_lia.
  destruct (Z.ltb_spec (memoryBudget fr) (memoryUsed fr + Z.of_nat (length d))) as [Hb|Hb].
  - rewrite (proj2 (Z.leb_gt _ _)) by lia. unfold Discard. by rewrite Nat2Z.id, drop_app_length.
  - rewrite (proj2 (Z.leb_le _ _)), Nat2Z.id, ReadFull_app by lia. done.
Qed.

Lemma read_loop_framed fuel fr fs ds :
  (length fs < fuel)%nat → 0 ≤ memoryUsed fr ≤ MaxInt64 - 2 ^ 32 →
  Forall2 (λ f d, unmarshal d = Some f ∧ Z.of_nat (length d) ≤ MaxFrameSize ∧
    memoryUsed fr + Z.of_nat (length d) ≤ memoryBudget fr) fs ds →
  read_loop fuel fr (concat (map framed ds))
  = (fs, Err (Wrapf "proto: read header: %w" (Errorf "EOF")), fr).
Proof.
  intros Hfuel Hu Hds. revert fuel Hfuel.
  induction Hds as [|f d fs ds (Hf & Hd & Hb) _ IH]; intros [|fuel] Hfuel;
    [simpl in *; lia|done|simpl in *; lia|].
  cbn [map concat read_loop]. rewrite ReadFrame_framed by done.
  rewrite (proj2 (Z.leb_le _ _)), orb_true_r by done. unfold UnmarshalFrame. rewrite Hf.
  rewrite IH by (cbn [length] in *; lia). done.
Qed.

Lemma write_all_framed w fs ds :
  Forall2 (λ f d, marshal f = Some d ∧ Z.of_nat (length d) < 2 ^ 32) fs ds →
  (length (concat (map framed ds)) ≤ w_room w)%nat →
  write_all w fs = (MkWriter (w_data w ++ concat (map framed ds))
    (w_room w - length (concat (map framed ds))), Ret tt).
Proof.
  intros Hds. revert w. induction Hds as [|f d fs ds [Hf Hd] _ IH]; intros w Hr.
  { simpl. rewrite app_nil_r, Nat.sub_0_r. by destruct w. }
  cbn [map concat write_all] in *. rewrite length_app in *.
  rewrite (WriteFrame_fits w f d) by (done || lia). rewrite IH by (cbn [w_room]; lia).
  cbn [w_data w_room]. rewrite (assoc_L (++)). do 2 f_equal. lia.
Qed.

Lemma length_concat_framed ds : (length ds ≤ length (concat (map framed ds)))%nat.
Proof. induction ds; [done|]. cbn [map concat length]. rewrite length_app, length_framed. lia. Qed.

(** *** Properties *)

(** Every branch of [ReadFrame] on a stream that starts with the header of
    length [v]. Within the limit and the budget the payload is decoded; a frame
    over the budget is refused; either way exactly the frame is consumed and the
    reader's account is back where it was. A frame over [MaxFrameSize] is refused
    but only [MaxFrameSize] bytes of it are skipped: the rest of its payload is
    left in the stream. A stream that ends inside the payload is an error. *)
Theorem ReadFrame_branches (fr : FrameReader) (v : Z) (payload tail : bytes)
  (Hv : 0 ≤ v < 2 ^ 32) (Hused : 0 ≤ memoryUsed fr ≤ MaxInt64 - 2 ^ 32) :
  let '(res, rest, fr') := FrameReader_ReadFrame fr (PutUint32 v ++ payload ++ tail) in
  fr' = fr ∧
  (Z.of_nat (length payload) = v → v ≤ MaxFrameSize → rest = tail ∧
     res = if (v =? 0) || (memoryUsed fr + v <=? memoryBudget fr) then UnmarshalFrame payload
           else Err (Errorf "proto: frame memory budget exceeded: %d bytes in flight (budget %d)")) ∧
  (Z.of_nat (length payload) = v → MaxFrameSize < v →
     rest = drop (Z.to_nat MaxFrameSize) payload ++ tail ∧
     res = Err (Errorf "proto: frame too large: %d bytes (max %d)")) ∧
  (Z.of_nat (length payload) < v → v ≤ MaxFrameSize → tail = [] →
     rest = [] ∧ ∃ e, res = Err e).
Proof.
  assert (MaxFrameSize = 262144) as Hmax by done.
  destruct (decide (Z.of_nat (length payload) = v ∧ v ≤ MaxFrameSize)) as [[<- Hd]|Hn].
  { rewrite (assoc_L (++)). fold (framed payload). rewrite ReadFrame_framed by done.
    split_and!; [done| |lia|lia]. intros _ _. split; [done|].
    destruct (Nat.eqb_spec (length payload) 0), (Z.eqb_spec (Z.of_nat (length payload)) 0); (done || lia). }
  unfold FrameReader_ReadFrame. rewrite read_header, Uint32_PutUint32 by done.
  destruct (Z.ltb_spec MaxFrameSize v) as [Hbig|Hsmall].
  { unfold Discard. split_and!; [done|lia| |lia]. intros Hl _. split; [|done].
    apply drop_app_le. lia. }
  destruct (Z.eqb_spec v 0) as [->|Hv0].
  { split_and!; [done|lia..]. }
  rewrite add_used_back by i64_lia. destruct (memoryBudget (add_used fr v) <? _).
  { split_and!; [done|lia|lia|]. intros Hl _ ->. unfold Discard.
    rewrite app_nil_r, drop_ge by lia. eauto. }
  destruct (ReadFull (Z.to_nat v) (payload ++ tail)) as [[data|e] r] eqn:E.
  - split_and!; [done|lia|lia|]. intros Hlt _ ->. unfold ReadFull in E. rewrite app_nil_r in E.
    case_decide; [lia|done].
  - split_and!; [done|lia|lia|]. intros Hlt _ ->. unfold ReadFull in E.
    case_decide; [done|]. injection E as _ <-. eauto.
Qed.

(** C33: Frames cross the wire. When every frame of a list encodes to at most
    [MaxFrameSize] bytes that decode back, and each fits the reader's budget,
    writing them to a stream that has room succeeds, and the reader of what was
    written gets exactly these frames in order, then the end of the stream, with
    its memory account back at zero. *)
Theorem frames_roundtrip (fs : list F) (ds : list bytes) (room : nat) (budget : Z)
  (Henc : Forall2 (λ f d, marshal f = Some d ∧ unmarshal d = Some f ∧
     Z.of_nat (length d) ≤ Z.min MaxFrameSize budget) fs ds)
  (Hroom : (sum_list_with (λ d, 4 + length d) ds ≤ room)%nat) :
  ∃ w, write_all (MkWriter [] room) fs = (w, Ret tt) ∧
    read_all (NewFrameReader budget) (w_data w)
    = (fs, Err (Wrapf "proto: read header: %w" (Errorf "EOF")), NewFrameReader budget).
Proof.
  assert (MaxFrameSize = 262144) as Hmax by done.
  assert (length (concat (map framed ds)) = sum_list_with (λ d, 4 + length d)%nat ds) as Hlen.
  { clear. induction ds as [|d ds IH]; [done|]. cbn [map concat sum_list_with].
    by rewrite length_app, length_framed, IH. }
  eexists. split.
  - apply (write_all_framed _ _ ds); [|simpl; lia].
    eapply Forall2_impl; [exact Henc|]. intros f d (? & ? & ?). split; [done|lia].
  - cbn [w_data app]. apply read_loop_framed.
    + rewrite (Forall2_length _ _ _ Henc). pose proof (length_concat_framed ds). lia.
    + simpl. i64_lia.
    + eapply Forall2_impl; [exact Henc|]. simpl. intros f d (? & ? & ?). split_and!; (done || lia).
Qed.

(** A pair frame of at most 1024 bytes is read back as written, and leaves
    the bytes after it untouched; a longer one is refused with the stream left at
    the byte after it. *)
Theorem pair_frame_roundtrip (f : F) (d tail : bytes) (room : nat)
  (Hm : marshal f = Some d) (Hu : unmarshal d = Some f) (Hd : Z.of_nat (length d) < 2 ^ 32)
  (Hroom : (4 + length d ≤ room)%nat) :
  ∃ w, WritePairFrame (MkWriter [] room) f = (w, Ret tt) ∧
    ReadPairFrame (w_data w ++ tail)
    = (if Z.of_nat (length d) <=? maxPairFrameSize then Ret f
       else Err (Errorf "proto: pair frame too large: %d bytes (max %d)"), tail).
Proof.
  eexists. split.
  - unfold WritePairFrame. rewrite Hm, Z.mod_small, Write_fits by (simpl; lia). cbn [negb].
    rewrite Write_fits by (simpl; lia). done.
  - cbn [w_data app]. unfold ReadPairFrame. rewrite <-(assoc_L (++)).
    rewrite read_header, Uint32_PutUint32 by lia. rewrite Z.leb_antisym.
    destruct (Z.ltb_spec maxPairFrameSize (Z.of_nat (length d))); cbn [negb].
    + unfold Discard. by rewrite Nat2Z.id, drop_app_length.
    + by rewrite Nat2Z.id, ReadFull_app, Hu.
Qed.

End codec.

Lemma ReadFrame_branches_witness : 0 ≤ 3 < 2 ^ 32 ∧
  snd (fst (FrameReader_ReadFrame (F := bytes) Some (NewFrameReader 2)
    (PutUint32 3 ++ String.list_ascii_of_string "abc" ++ String.list_ascii_of_string "xy")))
  = String.list_ascii_of_string "xy".
Proof.
  split; [lia|].
  pose proof (ReadFrame_branches (F := bytes) Some (NewFrameReader 2) 3
    (String.list_ascii_of_string "abc") (String.list_ascii_of_string "xy") ltac:(lia) ltac:(simpl; i64_lia)) as H.
  destruct (FrameReader_ReadFrame _ _ _) as [[res rest] fr'].
  destruct H as (_ & H & _). destruct H as [H _]; [done|vm_compute; discriminate|]. exact H.
Defined.

Lemma frames_roundtrip_witness :
  ∃ w, write_all Some (MkWriter [] 100)
         [String.list_ascii_of_string "abc"; []; String.list_ascii_of_string "x"] = (w, Ret tt) ∧
    fst (fst (read_all (F := bytes) Some (NewFrameReader 10) (w_data w)))
    = [String.list_ascii_of_string "abc"; []; String.list_ascii_of_string "x"].
Proof.
  destruct (frames_roundtrip (F := bytes) Some Some
    [String.list_ascii_of_string "abc"; []; String.list_ascii_of_string "x"]
    [String.list_ascii_of_string "abc"; []; String.list_ascii_of_string "x"] 100 10) as (w & H1 & H2).
  - repeat constructor; vm_compute; discriminate.
  - simpl. lia.
  - exists w. split; [exact H1|]. by rewrite H2.
Defined.

Lemma pair_frame_roundtrip_witness :
  ∃ w, WritePairFrame Some (MkWriter [] 10) (String.list_ascii_of_string "abc") = (w, Ret tt) ∧
    fst (ReadPairFrame (F := bytes) Some (w_data w ++ [])) = Ret (String.list_ascii_of_string "abc").
Proof.
  destruct (pair_frame_roundtrip (F := bytes) Some Some (String.list_ascii_of_string "abc")
    (String.list_ascii_of_string "abc") [] 10 eq_refl eq_refl) as (w & H1 & H2);
    [vm_compute; reflexivity|simpl; lia|].
  exists w. split; [exact H1|]. by rewrite H2.
Defined.
