(* ===== verification/Vault.v ===== *)
(** * The credential vault: vault/store.go, vault/delegate.go, vault/convert.go

    Credentials keyed by host pattern, the choice of the most specific pattern that
    matches a host, sealing to one opaque blob, and the delegation protocol with
    its replay protection. Cryptography and JSON are parameters ([Crypto], whose
    laws are what the code relies on); the key handling, the framing of nonce and
    ciphertext, and every check are the code's. *)

From Stdlib Require Import Ascii.
From stdpp Require Import base numbers gmap strings sorting list.
From S2P Require Import Prelude GoStrings Match Codec.

Open Scope Z_scope.

(** [CredSSHKey], [CredSSHPassword], [CredTLSCert] *)
Record Credential := MkCredential {
  c_Type : Z;
  c_Username : gostring;
  c_Password : gostring;
  c_PrivateKey : bytes;
  c_Certificate : bytes
}.

#[export] Instance credential_eq_dec : EqDecision Credential.
Proof. solve_decision. Defined.

Record entry := MkEntry { e_Pattern : gostring; e_Credential : Credential }.

#[export] Instance entry_eq_dec : EqDecision entry.
Proof. solve_decision. Defined.

(** The derived AEAD is kept as the 32-byte key it was built from. *)
Record Vault := MkVault { v_entries : list entry; v_aead : bytes; v_privateKey : bytes }.

Record SealedPayload := MkSealedPayload {
  sp_Credential : Credential;
  sp_Nonce : bytes;
  sp_IssuedAt : Z;
  sp_ExpiresAt : Z
}.

Record CredentialRequest := MkCredentialRequest {
  cr_HostPattern : gostring;
  cr_RequesterPubKey : bytes;
  cr_Nonce : bytes;
  cr_RequestedAt : Z
}.

(** ** The store *)

(** [Store]: the credential of the first entry with this pattern is replaced. *)
Fixpoint store_entry (entries : list entry) (pattern : gostring) (cred : Credential) : list entry :=
  match entries with
  | [] => [MkEntry pattern cred]
  | e :: entries =>
      if decide (e_Pattern e = pattern) then MkEntry pattern cred :: entries
      else e :: store_entry entries pattern cred
  end.

Definition Vault_Store (v : Vault) (pattern : gostring) (cred : Credential) : Vault :=
  MkVault (store_entry (v_entries v) pattern cred) (v_aead v) (v_privateKey v).

Definition Vault_AllPatterns (v : Vault) : list gostring := map e_Pattern (v_entries v).

(** [len(pattern)*10 - 100] per wildcard character. *)
Definition glob_score (pattern : gostring) : Z :=
  foldl (λ score c, if bool_decide (c = "*"%char) || bool_decide (c = "?"%char) then score - 100 else score)
    (Z.of_nat (length pattern) * 10) pattern.

Definition patternSpecificity (pattern : gostring) : Z :=
  let hasWildcard := contains_any ["*"; "?"]%char pattern in
  let hasBracket := contains_any ["["]%char pattern in
  if negb hasWildcard && negb hasBracket then 10000 + Z.of_nat (length pattern)
  else if hasBracket && negb hasWildcard then 5000 + Z.of_nat (length pattern)
  else glob_score pattern.

(** The loop of [Vault.Match]: best credential, its specificity, found. A pattern
    that is an error for [nodeset.Match] is skipped. *)
Fixpoint match_loop (entries : list entry) (hostname : gostring) (best : option Credential)
    (bestSpecificity : Z) : outcome (option Credential) :=
  match entries with
  | [] => Ret best
  | e :: entries =>
      match Match (e_Pattern e) hostname [] with
      | Panic => Panic
      | Diverge => Diverge
      | Ret true =>
          let spec := patternSpecificity (e_Pattern e) in
          if bestSpecificity <? spec then match_loop entries hostname (Some (e_Credential e)) spec
          else match_loop entries hostname best bestSpecificity
      | _ => match_loop entries hostname best bestSpecificity
      end
  end.

Definition Vault_Match (v : Vault) (hostname : gostring) : outcome (option Credential) :=
  match_loop (v_entries v) hostname None (- 2 ^ 31).

(** ** Cryptography and JSON *)

(** The functions of the libraries the vault calls. [ed_pub] and [x_pub] are the
    public keys of an Ed25519 and of a Curve25519 private key. *)
Class Crypto := {
  hkdf : bytes → bytes → bytes → bytes;  (** seed, salt, info: 32 bytes *)
  gcm_Seal : bytes → bytes → bytes → bytes;  (** key, nonce, plaintext *)
  gcm_Open : bytes → bytes → bytes → option bytes;
  json_entries : list entry → option bytes;
  json_parse_entries : bytes → option (list entry);
  json_payload : SealedPayload → option bytes;
  json_parse_payload : bytes → option SealedPayload;
  sha512 : bytes → bytes;
  point_BytesMontgomery : bytes → option bytes;  (** SetBytes, then BytesMontgomery *)
  box_Seal : bytes → bytes → bytes → bytes → bytes;  (** plaintext, nonce, peer public, private *)
  box_Open : bytes → bytes → bytes → bytes → option bytes
}.

Definition SeedSize : nat := 32.
Definition PublicKeySize : Z := 32.
Definition PrivateKeySize : Z := 64.
Definition gcm_NonceSize : nat := 12.
Definition box_Overhead : Z := 16.

Section crypto.
Context `{Crypto}.

(** [privateKey.Seed()] slices the key and panics when it is too short. *)
Definition Seed (key : bytes) : outcome bytes :=
  if decide (SeedSize ≤ length key)%nat then Ret (take SeedSize key) else Panic.

(** The AES cipher of a 32-byte key and its GCM mode never fail. *)
Definition deriveAEAD (privateKey : bytes) : outcome bytes :=
  seed ← Seed privateKey;
  Ret (hkdf seed (go "cortex-mcp-vault-v1") (go "aes-256-gcm")).

(** [None] is the nil key. *)
Definition New (privateKey : option bytes) : outcome Vault :=
  match privateKey with
  | None => Err (Errorf "vault: private key is required")
  | Some k => aead ← wrap_err "vault: derive key: %w" (deriveAEAD k); Ret (MkVault [] aead k)
  end.

(** [nonce] is what the random source gives, if it does. *)
Definition Vault_Seal (v : Vault) (nonce : option bytes) : outcome bytes :=
  match json_entries (v_entries v) with
  | None => Err (Errorf "vault: marshal: %w")
  | Some plaintext =>
      match nonce with
      | None => Err (Errorf "vault: generate nonce: %w")
      | Some nonce => Ret (nonce ++ gcm_Seal (v_aead v) nonce plaintext)
      end
  end.

Definition Unseal (privateKey sealed : bytes) : outcome Vault :=
  aead ← wrap_err "vault: derive key: %w" (deriveAEAD privateKey);
  if decide (length sealed < gcm_NonceSize)%nat then Err (Errorf "vault: sealed data too short")
  else
    match gcm_Open aead (take gcm_NonceSize sealed) (drop gcm_NonceSize sealed) with
    | None => Err (Errorf "vault: unseal: %w")
    | Some plaintext =>
        match json_parse_entries plaintext with
        | None => Err (Errorf "vault: unmarshal: %w")
        | Some entries => Ret (MkVault entries aead privateKey)
        end
    end.

(** ** Key conversion *)

(** [*out = ...] where [out] is a [32]byte: [copy] of at most 32 bytes over zeros. *)
Definition to32 (b : bytes) : bytes := take 32 b ++ replicate (32 - length b) zero.

Definition edwardsToMontgomeryPub (pub : bytes) : bytes :=
  match point_BytesMontgomery pub with
  | None => replicate 32 zero
  | Some m => to32 m
  end.

Definition map_byte (f : Z → Z) (i : nat) (h : bytes) : bytes :=
  alter (λ c, byte_of (f (of_byte c))) i h.

(** The clamping of a Curve25519 scalar. *)
Definition clamp (h : bytes) : bytes :=
  map_byte (λ b, Z.lor b 64) 31 (map_byte (λ b, Z.land b 127) 31 (map_byte (λ b, Z.land b 248) 0 h)).

Definition edwardsToMontgomeryPriv (priv : bytes) : outcome bytes :=
  seed ← Seed priv;
  Ret (take 32 (clamp (sha512 seed))).

Definition ed25519PubToCurve25519 (pub : bytes) : outcome bytes :=
  if negb (Z.of_nat (length pub) =? PublicKeySize) then Err (Errorf "invalid public key size: %d")
  else Ret (edwardsToMontgomeryPub pub).

Definition ed25519PrivToCurve25519 (priv : bytes) : outcome bytes :=
  if negb (Z.of_nat (length priv) =? PrivateKeySize) then Err (Errorf "invalid private key size: %d")
  else edwardsToMontgomeryPriv priv.

(** ** Delegation *)

Definition DelegationSkewWindow : Z := 2 * 60 * second.
Definition DelegationGrantTTL : Z := 5 * 60 * second.
Definition DelegationMinNonceLen : Z := 16.

(** [result |= a[i] ^ b[i]] over the bytes. *)
Definition nonceEqual (a b : bytes) : bool :=
  if negb (length a =? length b)%nat then false
  else foldl (λ r p, Z.lor r (Z.lxor (of_byte p.1) (of_byte p.2))) 0 (zip a b) =? 0.

Definition SealGrantWithNonce (now : Z) (rand : option bytes) (cred : Credential)
    (recipientPub senderPriv requestNonce : bytes) (ttl : Z) : outcome bytes :=
  match json_payload (MkSealedPayload cred requestNonce now (i64 (now + ttl))) with
  | None => Err (Errorf "vault: marshal payload: %w")
  | Some plaintext =>
      recipientCurve ← wrap_err "vault: convert recipient key: %w" (ed25519PubToCurve25519 recipientPub);
      senderCurve ← wrap_err "vault: convert sender key: %w" (ed25519PrivToCurve25519 senderPriv);
      match rand with
      | None => Err (Errorf "vault: generate nonce: %w")
      | Some nonce => Ret (nonce ++ box_Seal plaintext nonce recipientCurve senderCurve)
      end
  end.

Definition UnsealGrantWithNonce (now : Z) (sealed recipientPriv senderPub expectedNonce : bytes)
  : outcome SealedPayload :=
  if Z.of_nat (length sealed) <? 24 + box_Overhead then Err (Errorf "vault: sealed data too short")
  else
    let nonce := take 24 sealed in
    recipientCurve ← wrap_err "vault: convert recipient key: %w" (ed25519PrivToCurve25519 recipientPriv);
    senderCurve ← wrap_err "vault: convert sender key: %w" (ed25519PubToCurve25519 senderPub);
    match box_Open (drop 24 sealed) nonce senderCurve recipientCurve with
    | None => Err (Errorf "vault: unseal failed (wrong key or corrupted)")
    | Some plaintext =>
        match json_parse_payload plaintext with
        | None => Err (Errorf "vault: unmarshal payload: %w")
        | Some payload =>
            if negb (nonceEqual (sp_Nonce payload) expectedNonce) then
              Err (Errorf "vault: nonce mismatch (possible replay attack)")
            else if sp_ExpiresAt payload <? now then Err (Errorf "vault: grant expired at %d")
            else Ret payload
        end
    end.

Definition validateRequest (now : Z) (req : CredentialRequest) : outcome unit :=
  if negb (Z.of_nat (length (cr_RequesterPubKey req)) =? PublicKeySize) then
    Err (Errorf "vault: requester public key wrong size: %d")
  else if Z.of_nat (length (cr_Nonce req)) <? DelegationMinNonceLen then
    Err (Errorf "vault: request nonce too short: %d bytes (min %d)")
  else if cr_RequestedAt req =? 0 then Err (Errorf "vault: request missing RequestedAt timestamp")
  else
    let delta := i64 (now - cr_RequestedAt req) in
    let delta := if delta <? 0 then i64 (- delta) else delta in
    if DelegationSkewWindow <? delta then
      Err (Errorf "vault: request timestamp outside skew window: skew=%s (max %s)")
    else Ret tt.

(** [now] at the check and [now'] when the grant is sealed; [None] is the nil
    grant. *)
Definition Vault_HandleRequest (now now' : Z) (rand : option bytes) (v : Vault)
    (req : CredentialRequest) : outcome (option bytes) :=
  _ ← validateRequest now req;
  m ← Vault_Match v (cr_HostPattern req);
  match m with
  | None => Ret None
  | Some cred =>
      sealed ← wrap_err "vault: seal grant: %w"
        (SealGrantWithNonce now' rand cred (cr_RequesterPubKey req) (v_privateKey v) (cr_Nonce req)
           DelegationGrantTTL);
      Ret (Some sealed)
  end.

End crypto.

(** ** Lemmas: matching *)

Definition matches (hostname : gostring) (e : entry) : Prop := Match (e_Pattern e) hostname [] = Ret true.

(** The best of the entries seen: the first of the most specific matching ones. *)
Definition best_entry (hostname : gostring) (entries : list entry) (best : option Credential)
    (spec : Z) : Prop :=
  match best with
  | None => spec = - 2 ^ 31 ∧ ∀ e, e ∈ entries → ¬ matches hostname e
  | Some c => ∃ pre e post, entries = pre ++ e :: post ∧ c = e_Credential e ∧ matches hostname e ∧
      spec = patternSpecificity (e_Pattern e) ∧
      (∀ e', e' ∈ pre → matches hostname e' → patternSpecificity (e_Pattern e') < spec) ∧
      (∀ e', e' ∈ post → matches hostname e' → patternSpecificity (e_Pattern e') ≤ spec)
  end.

Lemma best_entry_skip hostname seen e best spec :
  best_entry hostname seen best spec →
  (matches hostname e → patternSpecificity (e_Pattern e) ≤ spec) →
  (best = None → ¬ matches hostname e) →
  best_entry hostname (seen ++ [e]) best spec.
Proof.
  intros Hb He Hn. destruct best as [c|]; simpl in *.
  - destruct Hb as (pre & e0 & post & -> & Hc & Hm & Hs & Hpre & Hpost).
    exists pre, e0, (post ++ [e]). rewrite <-(assoc_L (++)). simpl. split_and!; [done..|].
    intros e' [?| ->%list_elem_of_singleton]%elem_of_app; auto.
  - destruct Hb as [? Hb]. split; [done|].
    intros e' [?| ->%list_elem_of_singleton]%elem_of_app; auto.
Qed.

Lemma best_entry_take hostname seen e best spec :
  best_entry hostname seen best spec → matches hostname e → spec < patternSpecificity (e_Pattern e) →
  best_entry hostname (seen ++ [e]) (Some (e_Credential e)) (patternSpecificity (e_Pattern e)).
Proof.
  intros Hb He Hlt. exists seen, e, []. split_and!; [done..| |].
  - intros e' He' Hm. destruct best as [c|]; simpl in Hb.
    + destruct Hb as (pre & e0 & post & -> & _ & _ & -> & Hpre & Hpost).
      apply elem_of_app in He' as [He'|[->|He']%elem_of_cons]; [|done|].
      * specialize (Hpre e' He' Hm). lia.
      * specialize (Hpost e' He' Hm). lia.
    + by destruct (proj2 Hb e' He').
  - intros e' He'. by apply elem_of_nil in He'.
Qed.

Lemma match_loop_spec hostname entries seen best spec :
  (∀ e, e ∈ entries → ∃ b, Match (e_Pattern e) hostname [] = Ret b ∨
     ∃ err, Match (e_Pattern e) hostname [] = Err err) →
  (∀ e, e ∈ entries → - 2 ^ 31 < patternSpecificity (e_Pattern e)) →
  best_entry hostname seen best spec →
  ∃ best' spec', match_loop entries hostname best spec = Ret best' ∧
    best_entry hostname (seen ++ entries) best' spec'.
Proof.
  revert seen best spec. induction entries as [|e entries IH]; intros seen best spec Hok Hlow Hb.
  { exists best, spec. rewrite app_nil_r. done. }
  cbn [match_loop]. rewrite (cons_middle e seen entries), (assoc_L (++)).
  assert (∀ e', e' ∈ entries → e' ∈ e :: entries) as Hsub by (intros; by right).
  pose proof (Hlow e ltac:(by left)) as Hlow_e.
  assert (best_entry hostname (seen ++ [e]) best spec →
    ∃ best' spec', match_loop entries hostname best spec = Ret best' ∧
      best_entry hostname ((seen ++ [e]) ++ entries) best' spec') as Hskip by (intros; apply IH; auto).
  destruct (Hok e ltac:(by left)) as (b & [Hm|(err & Hm)]); rewrite Hm; [destruct b|].
  - destruct (Z.ltb_spec spec (patternSpecificity (e_Pattern e))) as [Hlt|Hge].
    + apply IH; [by auto..|]. by eapply best_entry_take.
    + apply Hskip, best_entry_skip; [done|done|]. intros ->. simpl in Hb. lia.
  - apply Hskip, best_entry_skip; [done|unfold matches; congruence..].
  - apply Hskip, best_entry_skip; [done|unfold matches; congruence..].
Qed.

Lemma glob_score_le pattern :
  contains_any ["*"; "?"]%char pattern = true → glob_score pattern ≤ Z.of_nat (length pattern) * 10 - 100.
Proof.
  unfold glob_score. generalize (Z.of_nat (length pattern) * 10). intros z.
  assert (∀ p z, foldl (λ score c, if bool_decide (c = "*"%char) || bool_decide (c = "?"%char)
    then score - 100 else score) z p ≤ z) as Hle.
  { clear. induction p as [|c p IH]; intros z; simpl; [done|].
    etrans; [apply IH|]. case_match; lia. }
  unfold contains_any. revert z. induction pattern as [|c p IH]; intros z; [done|].
  cbn [existsb foldl]. intros Hc.
  destruct (bool_decide (c = "*"%char) || bool_decide (c = "?"%char)) eqn:E; [apply Hle|].
  apply IH. apply orb_false_elim in E as [E1 E2]. apply bool_decide_eq_false in E1, E2.
  rewrite bool_decide_false in Hc; [done|]. by rewrite elem_of_cons, list_elem_of_singleton; intros [].
Qed.

Lemma glob_score_ge pattern : - 90 * Z.of_nat (length pattern) ≤ glob_score pattern.
Proof.
  unfold glob_score. assert (∀ z, z - 100 * Z.of_nat (length pattern) ≤
    foldl (λ score c, if bool_decide (c = "*"%char) || bool_decide (c = "?"%char)
      then score - 100 else score) z pattern) as Hge.
  { induction pattern as [|c p IH]; intros z; [simpl; lia|]. cbn [length foldl].
    etrans; [|apply IH]. case_match; lia. }
  etrans; [|apply Hge]. lia.
Qed.

(** ** Lemmas: the entries as a map *)

Definition cred_of (entries : list entry) (pattern : gostring) : option Credential :=
  e_Credential <$> find (λ e, bool_decide (e_Pattern e = pattern)) entries.

Lemma store_entry_patterns entries p c :
  map e_Pattern (store_entry entries p c)
  = map e_Pattern entries ++ if decide (p ∈ map e_Pattern entries) then [] else [p].
Proof.
  induction entries as [|e entries IH]; [done|]. cbn [store_entry map].
  destruct (decide (e_Pattern e = p)) as [Hp|Hp].
  - rewrite decide_True by (rewrite Hp; left). rewrite app_nil_r. simpl. by rewrite Hp.
  - simpl. rewrite IH. f_equal.
    destruct (decide (p ∈ map e_Pattern entries)), (decide (p ∈ e_Pattern e :: map e_Pattern entries)) as [Hin|Hin];
      try done; exfalso.
    + apply Hin. by right.
    + by apply elem_of_cons in Hin as [Hin|Hin].
Qed.

Lemma store_entry_lookup entries p c q :
  cred_of (store_entry entries p c) q = if decide (q = p) then Some c else cred_of entries q.
Proof.
  unfold cred_of. induction entries as [|e entries IH]; simpl.
  - case_bool_decide; destruct (decide (q = p)); naive_solver.
  - destruct (decide (e_Pattern e = p)) as [Hp|Hp]; simpl.
    + repeat case_bool_decide; destruct (decide (q = p)); naive_solver.
    + case_bool_decide; [|done]. destruct (decide (q = p)); naive_solver.
Qed.

(** ** Lemmas: nonces and keys *)

Lemma of_byte_inj a b : of_byte a = of_byte b → a = b.
Proof.
  unfold of_byte. intros Hab%N2Z.inj. by rewrite <-(ascii_N_embedding a), Hab, ascii_N_embedding.
Qed.

Lemma fold_lor_zero {A} (f : A → Z) l r :
  foldl (λ r p, Z.lor r (f p)) r l = 0 ↔ r = 0 ∧ Forall (λ p, f p = 0) l.
Proof.
  revert r. induction l as [|x l IH]; intros r; simpl.
  - split; [auto|by intros []].
  - rewrite IH, Z.lor_eq_0_iff, Forall_cons. tauto.
Qed.

Lemma nonceEqual_spec a b : nonceEqual a b = bool_decide (a = b).
Proof.
  apply eq_bool_prop_intro. rewrite bool_decide_spec. unfold nonceEqual.
  destruct (Nat.eqb_spec (length a) (length b)) as [Hl|Hl]; cbn [negb].
  - rewrite Is_true_true, Z.eqb_eq, fold_lor_zero. split; [intros [_ Hf]|intros ->; split; [done|]].
    + revert b Hl Hf. induction a as [|x a IH]; intros [|y b] Hl Hf; simpl in *; try done; try lia.
      apply Forall_cons in Hf as [Hx Hf]. simpl in Hx. apply Z.lxor_eq_0_iff, of_byte_inj in Hx as <-.
      f_equal. apply IH; [lia|done].
    + clear Hl. induction b as [|y b IH]; constructor; simpl; [apply Z.lxor_nilpotent|done].
  - split; [done|]. by intros ->.
Qed.

Lemma length_to32 b : length (to32 b) = 32%nat.
Proof. unfold to32. rewrite length_app, length_take, length_replicate. lia. Qed.

(** The laws of the cryptographic functions. [ed_pub] and [x_pub] give the public
    key of an Ed25519 and of a Curve25519 private key; the conversions of the two
    halves of a key pair agree. *)
Class CryptoLaws `{Crypto} := {
  ed_pub : bytes → bytes;
  x_pub : bytes → bytes;
  length_ed_pub : ∀ k, length (ed_pub k) = 32%nat;
  convert_pub : ∀ k c, edwardsToMontgomeryPriv k = Ret c → edwardsToMontgomeryPub (ed_pub k) = x_pub c;
  gcm_Open_Seal : ∀ key nonce p, length nonce = gcm_NonceSize →
    gcm_Open key nonce (gcm_Seal key nonce p) = Some p;
  length_box_Seal : ∀ p nonce pub priv,
    Z.of_nat (length (box_Seal p nonce pub priv)) = Z.of_nat (length p) + box_Overhead;
  box_Open_Seal : ∀ p nonce a b, length nonce = 24%nat →
    box_Open (box_Seal p nonce (x_pub a) b) nonce (x_pub b) a = Some p
}.

(** ** Properties *)

(** The vault picks the best credential. When no pattern makes the matcher
    panic or run forever, [Match] returns the credential of an entry that matches
    the host and is at least as specific as every other matching entry (the first
    such entry when several are), and none exactly when no entry matches. *)
Theorem Vault_Match_best (v : Vault) (hostname : gostring)
  (Hok : ∀ e, e ∈ v_entries v → ∃ b, Match (e_Pattern e) hostname [] = Ret b ∨
     ∃ err, Match (e_Pattern e) hostname [] = Err err)
  (Hlow : ∀ e, e ∈ v_entries v → Z.of_nat (length (e_Pattern e)) < 2 ^ 24) :
  match Vault_Match v hostname with
  | Ret (Some c) => ∃ pre e post, v_entries v = pre ++ e :: post ∧ c = e_Credential e ∧
      matches hostname e ∧
      (∀ e', e' ∈ pre → matches hostname e' →
         patternSpecificity (e_Pattern e') < patternSpecificity (e_Pattern e)) ∧
      (∀ e', e' ∈ post → matches hostname e' →
         patternSpecificity (e_Pattern e') ≤ patternSpecificity (e_Pattern e))
  | Ret None => ∀ e, e ∈ v_entries v → ¬ matches hostname e
  | _ => False
  end.
Proof.
  unfold Vault_Match.
  destruct (match_loop_spec hostname (v_entries v) [] None (- 2 ^ 31) Hok) as (best & spec & -> & Hb).
  - intros e He. specialize (Hlow e He). pose proof (glob_score_ge (e_Pattern e)).
    unfold patternSpecificity. repeat case_match; lia.
  - split; [done|]. intros e He. by apply elem_of_nil in He.
  - destruct best as [c|]; simpl in Hb; [|apply Hb].
    destruct Hb as (pre & e & post & ? & ? & ? & -> & ? & ?). by exists pre, e, post.
Qed.

(** Which pattern is the more specific: a literal one beats one with
    brackets, which beats one with wildcards (for patterns up to 500 characters),
    and within the first two classes the longer pattern wins. *)
Theorem specificity_order (p q : gostring)
  (Hp : (length p ≤ 500)%nat) (Hq : (length q ≤ 500)%nat) :
  let wild s := contains_any ["*"; "?"]%char s in
  let bracket s := contains_any ["["]%char s in
  (wild p = false → bracket p = false → wild q || bracket q = true →
     patternSpecificity q < patternSpecificity p) ∧
  (wild p = false → bracket p = true → wild q = true → patternSpecificity q < patternSpecificity p) ∧
  (wild p = false → wild q = false → bracket p = bracket q →
     (patternSpecificity q < patternSpecificity p ↔ (length q < length p)%nat)).
Proof.
  intros wild bracket. unfold patternSpecificity. fold (wild p) (wild q) (bracket p) (bracket q).
  pose proof (glob_score_le p) as Gp. pose proof (glob_score_le q) as Gq.
  fold (wild p) in Gp. fold (wild q) in Gq.
  destruct (wild p) eqn:?, (wild q) eqn:?, (bracket p) eqn:?, (bracket q) eqn:?; simpl;
    split_and!; intros; try done; try (specialize (Gq eq_refl)); lia.
Qed.

(** The store is a map from patterns to credentials, in the order the patterns
    were first stored: storing under a pattern changes that pattern's credential
    and no other's, and patterns stay distinct. *)
Theorem Store_is_map (v : Vault) (p : gostring) (c : Credential) (Hnd : NoDup (Vault_AllPatterns v)) :
  let v' := Vault_Store v p c in
  (∀ q, cred_of (v_entries v') q = if decide (q = p) then Some c else cred_of (v_entries v) q) ∧
  Vault_AllPatterns v' = Vault_AllPatterns v ++ (if decide (p ∈ Vault_AllPatterns v) then [] else [p]) ∧
  NoDup (Vault_AllPatterns v').
Proof.
  intros v'. assert (Vault_AllPatterns v' = Vault_AllPatterns v ++
    if decide (p ∈ Vault_AllPatterns v) then [] else [p]) as Hpat by apply store_entry_patterns.
  split_and!; [intros q; apply store_entry_lookup|done|]. rewrite Hpat.
  case_decide as Hin; [by rewrite app_nil_r|].
  apply NoDup_app. split_and!; [done|set_solver|apply NoDup_singleton].
Qed.

(** C39: The replay window of a credential request. A request passes validation
    exactly when its key and nonce have the required sizes and its timestamp is
    within two minutes of the clock, with one exception: the negation of the most
    negative [int64] is itself, so a timestamp exactly 2^63 nanoseconds before
    the clock passes as well. *)
Theorem validateRequest_window (now : Z) (req : CredentialRequest)
  (Hnow : 0 ≤ now ≤ 2 ^ 62) (Hreq : in_i64 (cr_RequestedAt req)) :
  validateRequest now req = Ret tt ↔
  Z.of_nat (length (cr_RequesterPubKey req)) = PublicKeySize ∧
  DelegationMinNonceLen ≤ Z.of_nat (length (cr_Nonce req)) ∧ cr_RequestedAt req ≠ 0 ∧
  (Z.abs (now - cr_RequestedAt req) ≤ DelegationSkewWindow ∨ cr_RequestedAt req = now - 2 ^ 63).
Proof.
  assert (DelegationSkewWindow = 120000000000) as HW by done. unfold validateRequest.
  destruct (Z.eqb_spec (Z.of_nat (length (cr_RequesterPubKey req))) PublicKeySize); cbn [negb]; [|split; [done|tauto]].
  destruct (Z.ltb_spec (Z.of_nat (length (cr_Nonce req))) DelegationMinNonceLen); [split; [done|lia]|].
  destruct (Z.eqb_spec (cr_RequestedAt req) 0); [split; [done|tauto]|].
  remember (now - cr_RequestedAt req) as d eqn:Hd0.
  assert (i64 d = if d <=? MaxInt64 then d else d - 2 ^ 64) as ->.
  { destruct (Z.leb_spec d MaxInt64); [apply i64_id; i64_lia|].
    unfold i64. rewrite <-(Z.mod_unique (d + 2 ^ 63) (2 ^ 64) 1 (d + 2 ^ 63 - 2 ^ 64)); i64_lia. }
  destruct (Z.leb_spec d MaxInt64) as [Hd|Hd].
  - destruct (Z.ltb_spec d 0); [rewrite i64_id by i64_lia|];
      (case_match eqn:E; [apply Z.ltb_lt in E|apply Z.ltb_ge in E]); split; try done; i64_lia.
  - rewrite (proj2 (Z.ltb_lt (d - 2 ^ 64) 0)) by i64_lia. destruct (decide (d = 2 ^ 63)) as [->|Hne].
    + replace (i64 _) with MinInt64 by done. split; [intros _|done]. split_and!; i64_lia.
    + rewrite i64_id by i64_lia. rewrite (proj2 (Z.ltb_lt _ _)) by i64_lia. split; [done|i64_lia].
Qed.

Section laws.
Context `{CryptoLaws}.

(** A sealed vault opens again under the key it was sealed with, whatever
    nonce was drawn: the same entries, the same key. *)
Theorem Unseal_Seal (v : Vault) (nonce plaintext : bytes)
  (Hkey : deriveAEAD (v_privateKey v) = Ret (v_aead v))
  (Hnonce : length nonce = gcm_NonceSize)
  (Hjson : json_entries (v_entries v) = Some plaintext)
  (Hparse : json_parse_entries plaintext = Some (v_entries v)) :
  ∃ sealed, Vault_Seal v (Some nonce) = Ret sealed ∧ Unseal (v_privateKey v) sealed = Ret v.
Proof.
  unfold Vault_Seal. rewrite Hjson. eexists. split; [done|]. unfold Unseal. rewrite Hkey. simpl.
  rewrite decide_False by (rewrite length_app; lia).
  rewrite take_app_length', drop_app_length', gcm_Open_Seal, Hparse by done.
  by destruct v.
Qed.

(** Opening what [SealGrantWithNonce] sealed for the key [k]. *)
Lemma Unseal_SealGrant (now ttl : Z) (cred : Credential) (k sender nonce rand plaintext : bytes)
  (Hk : length k = 64%nat) (Hv : length sender = 64%nat) (Hrand : length rand = 24%nat)
  (Hnow : in_i64 (now + ttl)) :
  let payload := MkSealedPayload cred nonce now (now + ttl) in
  json_payload payload = Some plaintext → json_parse_payload plaintext = Some payload →
  ∃ sealed, SealGrantWithNonce now (Some rand) cred (ed_pub k) sender nonce ttl = Ret sealed ∧
    ∀ later nonce', UnsealGrantWithNonce later sealed k (ed_pub sender) nonce'
      = if decide (nonce' = nonce)
        then if later <=? now + ttl then Ret payload else Err (Errorf "vault: grant expired at %d")
        else Err (Errorf "vault: nonce mismatch (possible replay attack)").
Proof.
  intros payload Hjson Hparse.
  assert (∀ key, length key = 64%nat → ∃ c, edwardsToMontgomeryPriv key = Ret c) as Hconv.
  { intros key Hkey. unfold edwardsToMontgomeryPriv, Seed.
    rewrite decide_True by (unfold SeedSize; lia). simpl. eauto. }
  destruct (Hconv k Hk) as (ck & Hck). destruct (Hconv _ Hv) as (cv & Hcv).
  unfold SealGrantWithNonce. rewrite i64_id by done. fold payload. rewrite Hjson.
  unfold ed25519PubToCurve25519 at 1, ed25519PrivToCurve25519 at 1. rewrite length_ed_pub, Hv.
  cbn [negb wrap_err mbind outcome_bind Z.eqb]. rewrite Hcv, (convert_pub k ck Hck).
  cbn [wrap_err mbind outcome_bind]. eexists. split; [done|]. intros later nonce'.
  unfold UnsealGrantWithNonce.
  rewrite (proj2 (Z.ltb_ge _ _)) by (rewrite length_app, Nat2Z.inj_add, length_box_Seal, Hrand; lia).
  unfold ed25519PubToCurve25519, ed25519PrivToCurve25519. rewrite length_ed_pub, Hk.
  rewrite Hck, (convert_pub _ cv Hcv).
  change (Z.of_nat 64 =? PrivateKeySize) with true. change (Z.of_nat 32 =? PublicKeySize) with true.
  cbn [negb wrap_err mbind outcome_bind].
  rewrite take_app_length', drop_app_length', box_Open_Seal, Hparse by done.
  rewrite nonceEqual_spec. cbn [sp_Nonce sp_ExpiresAt payload]. rewrite Z.leb_antisym.
  destruct (decide (nonce' = nonce)) as [->|Hne].
  - rewrite bool_decide_true by done. cbn [negb]. by destruct (_ <? _).
  - by rewrite bool_decide_false by done.
Qed.

(** C17: A delegated credential. For a request that validates and that the vault
    has a credential for, [HandleRequest] returns a grant that the requester's key
    opens to this credential, before the grant expires and with the nonce of the
    request; with any other nonce, or once the grant has expired, opening it is
    an error. *)
Theorem grant_roundtrip (now now' : Z) (v : Vault) (req : CredentialRequest) (k : bytes)
  (cred : Credential) (rand plaintext : bytes)
  (Hvalid : validateRequest now req = Ret tt)
  (Hmatch : Vault_Match v (cr_HostPattern req) = Ret (Some cred))
  (Hreq : cr_RequesterPubKey req = ed_pub k)
  (Hk : length k = 64%nat) (Hv : length (v_privateKey v) = 64%nat) (Hrand : length rand = 24%nat)
  (Hnow : 0 ≤ now' ≤ 2 ^ 62) :
  let payload := MkSealedPayload cred (cr_Nonce req) now' (now' + DelegationGrantTTL) in
  json_payload payload = Some plaintext → json_parse_payload plaintext = Some payload →
  ∃ sealed, Vault_HandleRequest now now' (Some rand) v req = Ret (Some sealed) ∧
    ∀ later nonce', UnsealGrantWithNonce later sealed k (ed_pub (v_privateKey v)) nonce'
      = if decide (nonce' = cr_Nonce req)
        then if later <=? now' + DelegationGrantTTL then Ret payload
             else Err (Errorf "vault: grant expired at %d")
        else Err (Errorf "vault: nonce mismatch (possible replay attack)").
Proof.
  intros payload Hjson Hparse. unfold Vault_HandleRequest. rewrite Hvalid. cbn [mbind outcome_bind]. rewrite Hmatch.
  cbn [mbind outcome_bind]. assert (DelegationGrantTTL = 300000000000) as HT by done.
  destruct (Unseal_SealGrant now' DelegationGrantTTL cred k (v_privateKey v) (cr_Nonce req) rand plaintext)
    as (sealed & Hs & Hu); try done; [i64_lia|].
  rewrite Hreq, Hs. by exists sealed.
Qed.

End laws.

(** ** Witnesses *)

Definition cred0 : Credential := MkCredential 2 (go "root") (go "secret") [] [].

Definition vault0 : Vault :=
  MkVault [MkEntry (go "*") (MkCredential 2 (go "any") [] [] []); MkEntry (go "node[1-3]") cred0]
    [] (replicate 64 zero).

(** A degenerate instance: no encryption, one key pair, and an encoder for the
    values of the witnesses. *)
Definition curve0 : bytes := take 32 (clamp (replicate 64 zero)).

Definition payload0 : SealedPayload :=
  MkSealedPayload cred0 (replicate 16 one) 1000 (1000 + DelegationGrantTTL).

#[local] Instance crypto0 : Crypto := {
  hkdf seed salt info := seed;
  gcm_Seal key nonce p := p;
  gcm_Open key nonce c := Some c;
  json_entries es := if decide (es = v_entries vault0) then Some [] else None;
  json_parse_entries b := Some (v_entries vault0);
  json_payload p := if decide (sp_Credential p = cred0) then Some [] else None;
  json_parse_payload b := Some payload0;
  sha512 b := replicate 64 zero;
  point_BytesMontgomery b := Some curve0;
  box_Seal p nonce pub priv := replicate 16 zero ++ p;
  box_Open c nonce pub priv := Some (drop 16 c)
}.

#[local] Instance crypto_laws0 : CryptoLaws.
Proof.
  refine {| ed_pub k := replicate 32 zero; x_pub k := k |}; try done.
  2: { intros. cbn -[Z.of_nat Z.add]. unfold box_Overhead. lia. }
  intros k c Hc. unfold edwardsToMontgomeryPriv in Hc.
  destruct (Seed k) as [s| | |]; [|discriminate Hc..]. injection Hc as <-. reflexivity.
Defined.

Definition request0 : CredentialRequest :=
  MkCredentialRequest (go "node2") (replicate 32 zero) (replicate 16 one) 500.

Lemma Vault_Match_best_witness : Vault_Match vault0 (go "node2") = Ret (Some cred0) ∧
  ∃ pre e post, v_entries vault0 = pre ++ e :: post ∧ cred0 = e_Credential e ∧ matches (go "node2") e.
Proof.
  assert (Vault_Match vault0 (go "node2") = Ret (Some cred0)) as Hm by (vm_compute; reflexivity).
  split; [done|]. pose proof (Vault_Match_best vault0 (go "node2")) as H. rewrite Hm in H.
  destruct H as (pre & e & post & H1 & H2 & H3 & _).
  - intros e [->|[->|[]%elem_of_nil]%elem_of_cons]%elem_of_cons; exists true; left; vm_compute; reflexivity.
  - intros e [->|[->|[]%elem_of_nil]%elem_of_cons]%elem_of_cons; vm_compute; reflexivity.
  - exists pre, e, post. split; [exact H1|]. split; [exact H2|exact H3].
Defined.

Lemma specificity_order_witness :
  patternSpecificity (go "node[1-3]") < patternSpecificity (go "node2").
Proof.
  destruct (specificity_order (go "node2") (go "node[1-3]")) as [H _]; [simpl; lia|simpl; lia|].
  apply H; reflexivity.
Defined.

Lemma Store_is_map_witness : NoDup (Vault_AllPatterns vault0) ∧
  NoDup (Vault_AllPatterns (Vault_Store vault0 (go "node9") cred0)).
Proof.
  assert (NoDup (Vault_AllPatterns vault0)) as Hnd by by_decide.
  split; [done|]. apply (Store_is_map vault0 (go "node9") cred0 Hnd).
Defined.

Lemma validateRequest_window_witness :
  let req := MkCredentialRequest (go "h") (replicate 32 zero) (replicate 16 zero) (1000 - 2 ^ 63) in
  validateRequest 1000 req = Ret tt.
Proof.
  intros req. apply (validateRequest_window 1000 req); [lia|unfold req; simpl; i64_lia|].
  split; [reflexivity|]. split; [vm_compute; discriminate|]. split; [vm_compute; discriminate|].
  right. reflexivity.
Defined.

Lemma Unseal_Seal_witness :
  ∃ sealed, Vault_Seal (MkVault (v_entries vault0) (replicate 32 zero) (replicate 64 zero))
      (Some (replicate 12 zero)) = Ret sealed ∧
    Unseal (replicate 64 zero) sealed
    = Ret (MkVault (v_entries vault0) (replicate 32 zero) (replicate 64 zero)).
Proof.
  apply (Unseal_Seal (MkVault (v_entries vault0) (replicate 32 zero) (replicate 64 zero))
    (replicate 12 zero) []); reflexivity.
Defined.

Lemma grant_roundtrip_witness :
  ∃ sealed, Vault_HandleRequest 900 1000 (Some (replicate 24 zero)) vault0 request0
      = Ret (Some sealed) ∧
    UnsealGrantWithNonce 2000 sealed (replicate 64 zero) (ed_pub (replicate 64 zero))
      (replicate 16 one) = Ret payload0.
Proof.
  destruct (grant_roundtrip 900 1000 vault0 request0 (replicate 64 zero) cred0 (replicate 24 zero) [])
    as (sealed & H1 & H2); [vm_compute; reflexivity..|lia|vm_compute; reflexivity|reflexivity|].
  exists sealed. split; [exact H1|]. refine (eq_trans (H2 2000 (replicate 16 one)) _).
  vm_compute. reflexivity.
Defined.
