(* ===== verification/Tools.v ===== *)
(** * The tool framework: pkg/mesh/tools and pkg/mesh/gateway

    The registry of a node's tools, the request/response protocol over a stream,
    discovery and remote invocation, and the gateway's three meta-tools with their
    dispatch modes. The protobuf and JSON encodings are parameters; a tool's
    handler is any function. Contexts are never cancelled here. *)

From Stdlib Require Import Ascii.
From stdpp Require Import base numbers gmap strings sorting list.
From S2P Require Import Prelude GoStrings GoFloat Parser NodeSet Match Nucleus CapIndex Codec.

Open Scope Z_scope.

(** ** Data: tools/types.go *)

Record ToolParam := MkToolParam {
  tp_Name : gostring; tp_Type : gostring; tp_Description : gostring;
  tp_Required : bool; tp_Default : gostring
}.

Record ToolDefinition := MkToolDefinition {
  td_Name : gostring;
  td_Description : gostring;
  td_LongDescription : gostring;
  td_Category : gostring;
  td_Hidden : bool;
  td_Parameters : list ToolParam;
  td_InputSchema : option bytes
}.

Record ToolResult := MkToolResult { tr_Content : bytes; tr_IsError : bool }.

#[export] Instance tool_result_eq_dec : EqDecision ToolResult.
Proof. solve_decision. Defined.

Definition ToolHandler := bytes → outcome ToolResult.

Record AgentInfo := MkAgentInfo { ai_NodeID : gostring; ai_Impedance : float64 }.

Record ToolRequest := MkToolRequest { rq_Name : gostring; rq_ArgsJson : bytes }.

Record ToolResponse := MkToolResponse { rs_IsError : bool; rs_ContentJson : bytes }.

(** ** The registry: tools/registry.go *)

Record Registry := MkRegistry {
  r_tools : gmap gostring (ToolDefinition * ToolHandler);
  r_tracker : option Manifest
}.

Definition NewRegistry (tracker : option Manifest) : Registry := MkRegistry ∅ tracker.

Definition Registry_Register (r : Registry) (def : ToolDefinition) (handler : ToolHandler) : Registry :=
  MkRegistry (<[td_Name def := (def, handler)]> (r_tools r))
    ((λ m, Manifest_RegisterCapability m (go "tool:" ++ td_Name def)) <$> r_tracker r).

Definition Registry_InvokeLocal (r : Registry) (toolName : gostring) (args : bytes) : outcome ToolResult :=
  match r_tools r !! toolName with
  | None => Err (Wrapf "registry: %w: %s" (Errorf "tool not found"))
  | Some (_, handler) => handler args
  end.

Definition Registry_GetDefinition (r : Registry) (toolName : gostring) : option ToolDefinition :=
  fst <$> r_tools r !! toolName.

Section listing.
Context `{GoRange}.

Definition Registry_ListLocal (r : Registry) : list ToolDefinition :=
  filter (λ d, td_Hidden d = false) (map (λ e, fst e.2) (range_map (r_tools r))).

Definition Registry_ListLocalByCategory (r : Registry) (category : gostring) : list ToolDefinition :=
  filter (λ d, td_Category d = category ∧ td_Hidden d = false)
    (map (λ e, fst e.2) (range_map (r_tools r))).

End listing.

(** ** The wire protocol: tools/protocol.go *)

Definition maxToolFrameSize : Z := Z.shiftl 1 20.

Definition writeToolFrame (w : writer) (data : bytes) : writer * outcome unit :=
  if maxToolFrameSize <? Z.of_nat (length data) then (w, Err (Errorf "tools: frame too large: %d > %d"))
  else
    let '(w, ok) := Write w (PutUint32 (Z.of_nat (length data) mod 2 ^ 32)) in
    if negb ok then (w, Err (Errorf "short write"))
    else let '(w, ok) := Write w data in (w, if ok then Ret tt else Err (Errorf "short write")).

(** A connection as the protocol reads it: [io.ReadFull] over its [Read], and the
    bytes it has still to deliver. *)
Class Reader (R : Type) := {
  read_full : nat → R → (bytes + goerr) * R;
  reader_bytes : R → bytes
}.

(** A reader that delivers its bytes in order and nothing else. *)
Class ReaderLaws (R : Type) `{Reader R} := {
  read_full_result n r : fst (read_full n r) = fst (ReadFull n (reader_bytes r));
  read_full_rest n r : (n ≤ length (reader_bytes r))%nat → reader_bytes (snd (read_full n r)) = drop n (reader_bytes r)
}.

#[export] Instance bytes_Reader : Reader bytes := { read_full := ReadFull; reader_bytes r := r }.

#[export] Instance bytes_ReaderLaws : ReaderLaws bytes.
Proof. split; [done|]. intros n r Hn. simpl in *. unfold ReadFull. by rewrite decide_True. Qed.

Definition readToolFrame `{Reader R} (r : R) : (bytes + goerr) * R :=
  match read_full 4 r with
  | (inr e, r) => (inr e, r)
  | (inl hdr, r) =>
      let size := Uint32 hdr in
      if maxToolFrameSize <? size then (inr (Errorf "tools: frame too large: %d > %d"), r)
      else read_full (Z.to_nat size) r
  end.

(** The encodings of the protocol and of the gateway. *)
Class ToolCodec := {
  marshal_request : ToolRequest → option bytes;
  unmarshal_request : bytes → option ToolRequest;
  marshal_response : ToolResponse → option bytes;
  unmarshal_response : bytes → option ToolResponse;
  quote_error : gostring → goerr → bytes  (** the [%q] of the tool's name and error *)
}.

Section protocol.
Context `{ToolCodec}.

Definition dispatchLocal (registry : Registry) (req : ToolRequest) : outcome ToolResponse :=
  match Registry_InvokeLocal registry (rq_Name req) (rq_ArgsJson req) with
  | Ret result => Ret (MkToolResponse (tr_IsError result) (tr_Content result))
  | Err e => Ret (MkToolResponse true (quote_error (rq_Name req) e))
  | Panic => Panic
  | Diverge => Diverge
  end.

(** The loop of [ServeToolConn]: [in_] is the connection the client sends on, [w]
    what the server writes. Each turn consumes at least the 4 bytes of a header, so
    one turn more than there are bytes is enough. *)
Fixpoint serve_loop `{Reader R} (fuel : nat) (registry : Registry) (in_ : R) (w : writer)
    : writer * outcome unit :=
  match fuel with
  | O => (w, Diverge)
  | S fuel =>
      match readToolFrame in_ with
      | (inr e, _) =>
          (w, if decide (e = Errorf "EOF") then Ret tt else Err (Wrapf "tools: serve: read request: %w" e))
      | (inl reqData, in_) =>
          match unmarshal_request reqData with
          | None => (w, Err (Errorf "tools: serve: unmarshal request: %w"))
          | Some req =>
              match dispatchLocal registry req with
              | Ret resp =>
                  match marshal_response resp with
                  | None => (w, Err (Errorf "tools: serve: marshal response: %w"))
                  | Some respData =>
                      match writeToolFrame w respData with
                      | (w, Ret _) => serve_loop fuel registry in_ w
                      | (w, r) => (w, wrap_err "tools: serve: write response: %w" r)
                      end
                  end
              | Err e => (w, Err e)
              | Panic => (w, Panic)
              | Diverge => (w, Diverge)
              end
          end
      end
  end.

Definition ServeToolConn `{Reader R} (registry : Registry) (in_ : R) (w : writer) : writer * outcome unit :=
  serve_loop (S (length (reader_bytes in_))) registry in_ w.

(** [DialInvoke] up to its request being written, and from the response on. *)
Definition DialInvoke_request (w : writer) (toolName : gostring) (args : bytes) : writer * outcome unit :=
  match marshal_request (MkToolRequest toolName args) with
  | None => (w, Err (Errorf "tools: dial: marshal request: %w"))
  | Some reqData =>
      let '(w, r) := writeToolFrame w reqData in (w, wrap_err "tools: dial: write request: %w" r)
  end.

Definition DialInvoke_response (in_ : bytes) : outcome ToolResult * bytes :=
  match readToolFrame in_ with
  | (inr e, in_) => (Err (Wrapf "tools: dial: read response: %w" e), in_)
  | (inl respData, in_) =>
      (match unmarshal_response respData with
       | None => Err (Errorf "tools: dial: unmarshal response: %w")
       | Some resp => Ret (MkToolResult (rs_ContentJson resp) (rs_IsError resp))
       end, in_)
  end.

End protocol.

(** ** Discovery and remote invocation: tools/bridge.go, tools/invoke.go *)

(** [NeuronBridge.DiscoverTool]: the local index first, then sonar. *)
Definition DiscoverTool (lookup : gostring → list NodeCapEntry)
    (sonar : gostring → outcome (list AgentInfo)) (toolName : gostring) : outcome (list AgentInfo) :=
  let capability := go "tool:" ++ toolName in
  match lookup capability with
  | [] => wrap_err "bridge: discover %q: %w" (sonar capability)
  | entries => Ret (map (λ e, MkAgentInfo (nce_NodeID e) (nce_Impedance e)) entries)
  end.

(** What the invoker and the gateway ask of the mesh. *)
Record MeshBridge := MkMeshBridge {
  mb_DiscoverNodes : gostring → outcome (list AgentInfo);
  mb_InvokeRemote : gostring → gostring → bytes → outcome ToolResult
}.

Record NodeResult := MkNodeResult {
  nr_NodeID : gostring; nr_Content : bytes; nr_IsError : bool; nr_Error : option goerr
}.

#[export] Instance node_result_eq_dec : EqDecision NodeResult.
Proof. solve_decision. Defined.

Definition agent_less (a b : AgentInfo) : bool := f64_ltb (ai_Impedance a) (ai_Impedance b).

(** [ToolInfo.SortNodesByImpedance] *)
Definition SortNodesByImpedance `{GoSort} (nodes : list AgentInfo) : list AgentInfo :=
  sort_slice agent_less nodes.

Definition RemoteInvoker_Invoke `{GoSort} (mesh : MeshBridge) (nodeID toolName : gostring) (args : bytes)
    : outcome ToolResult :=
  nodeID ←
    (if decide (nodeID = []) then
       agents ← wrap_err "invoke: discover %q: %w" (mb_DiscoverNodes mesh toolName);
       match sort_slice agent_less agents with
       | [] => Err (Wrapf "invoke: %w: %s" (Errorf "no nodes available for tool"))
       | a :: _ => Ret (ai_NodeID a)
       end
     else Ret nodeID);
  mb_InvokeRemote mesh nodeID toolName args.

(** The goroutine of one node: [results[idx] = ...]. *)
Definition write_result {A} (f : gostring → A) (nodes : list gostring) (results : list A) (idx : nat)
    : list A :=
  match nodes !! idx with Some node => <[idx := f node]> results | None => results end.

(** A fan-out waits for all its goroutines; [order] is the order they finish in. *)
Definition fan_out {A} (zero : A) (f : gostring → A) (nodes : list gostring) (order : list nat) : list A :=
  foldl (write_result f nodes) (replicate (length nodes) zero) order.

(** [RemoteInvoker.FanOut]: per node its id and what the invocation returned. *)
Definition RemoteInvoker_FanOut (mesh : MeshBridge) (nodeIDs : list gostring) (toolName : gostring)
    (args : bytes) (order : list nat) : list (gostring * outcome ToolResult) :=
  match nodeIDs with
  | [] => []
  | _ => fan_out ([], Ret (MkToolResult [] false)) (λ node, (node, mb_InvokeRemote mesh node toolName args))
           nodeIDs order
  end.

(** ** The gateway: gateway/gateway.go, gateway/metatools.go *)

Record callToolArgs := MkCallToolArgs {
  ca_ToolName : gostring; ca_NodeName : gostring; ca_Args : bytes
}.

Record ListToolsEntry := MkListToolsEntry {
  le_Name : gostring; le_Description : gostring; le_Category : gostring
}.

Record Gateway := MkGateway {
  gw_registry : Registry;
  gw_mesh : option MeshBridge;
  gw_opts : list Option
}.

(** JSON of what the gateway reads and writes; an argument that does not parse
    leaves the fields it did not reach at their zero values. A response that holds
    raw JSON is encoded only if that is valid: [None] is [json.Marshal]'s error. *)
Class GatewayCodec := {
  json_error : goerr → bytes;
  json_call_response : list NodeResult → option bytes;
  json_list_response : list ListToolsEntry → option bytes;
  json_help_response : ToolDefinition → option bytes;
  parse_call_args : bytes → callToolArgs;
  parse_category : bytes → gostring;
  parse_tool_name : bytes → gostring
}.

Definition isNodesetPattern (s : gostring) : bool :=
  contains_any ["*"; "?"; "["; "!"; "&"; "^"; ","; "@"]%char s.

(** The nodes of [agents] the pattern matches, in order, or the pattern's error. *)
Fixpoint filter_agents (pattern : gostring) (opts : list Option) (agents : list AgentInfo)
    : outcome (list gostring) :=
  match agents with
  | [] => Ret []
  | a :: agents =>
      ok ← Match pattern (ai_NodeID a) opts;
      matched ← filter_agents pattern opts agents;
      Ret (if ok : bool then ai_NodeID a :: matched else matched)
  end.

Section gateway.
Context `{GatewayCodec} `{GoRange}.

Definition NewErrorResult (message : goerr) : ToolResult := MkToolResult (json_error message) true.

(** [content, _ := json.Marshal(v)]: an error of the encoder is dropped. *)
Definition NewJSONResult (v : option bytes) : ToolResult := MkToolResult (default [] v) false.

(** A tool-level error in place of a Go error. *)
Definition tool_error (m : outcome ToolResult) (format : string) : outcome ToolResult :=
  match m with Err e => Ret (NewErrorResult (Wrapf format e)) | _ => m end.

Definition HandleListTools (gw : Gateway) (args : bytes) : ToolResult :=
  let category := match args with [] => [] | _ => parse_category args end in
  let defs := match category with
              | [] => Registry_ListLocal (gw_registry gw)
              | _ => Registry_ListLocalByCategory (gw_registry gw) category
              end in
  NewJSONResult (json_list_response
    (map (λ d, MkListToolsEntry (td_Name d) (td_Description d) (td_Category d)) defs)).

Definition HandleToolHelp (gw : Gateway) (args : bytes) : ToolResult :=
  let toolName := match args with [] => [] | _ => parse_tool_name args end in
  match toolName with
  | [] => NewErrorResult (Errorf "tool_help requires 'tool_name' parameter")
  | _ =>
      match Registry_GetDefinition (gw_registry gw) toolName with
      | None => NewErrorResult (Errorf "tool not found: %s")
      | Some def => NewJSONResult (json_help_response def)
      end
  end.

Definition handleAutoRoute (gw : Gateway) (params : callToolArgs) : outcome ToolResult :=
  match Registry_GetDefinition (gw_registry gw) (ca_ToolName params) with
  | Some _ =>
      tool_error (Registry_InvokeLocal (gw_registry gw) (ca_ToolName params) (ca_Args params)) "%w"
  | None =>
      match gw_mesh gw with
      | None => Ret (NewErrorResult (Errorf "tool %q not found locally and no mesh connection"))
      | Some mesh =>
          match mb_DiscoverNodes mesh (ca_ToolName params) with
          | Err e => Ret (NewErrorResult (Wrapf "auto-route failed (discovery): %v" e))
          | Panic => Panic
          | Diverge => Diverge
          | Ret [] => Ret (NewErrorResult (Errorf "auto-route failed: no nodes available for tool %q"))
          | Ret (a :: _) =>
              tool_error (mb_InvokeRemote mesh (ai_NodeID a) (ca_ToolName params) (ca_Args params))
                "auto-route failed on %q: %v"
          end
      end
  end.

Definition handleUnicast (gw : Gateway) (params : callToolArgs) : outcome ToolResult :=
  match gw_mesh gw with
  | None => Ret (NewErrorResult (Errorf "remote invocation not available (no mesh connection)"))
  | Some mesh =>
      match mb_InvokeRemote mesh (ca_NodeName params) (ca_ToolName params) (ca_Args params) with
      | Err e => Ret (NewErrorResult (Wrapf "invoke on %q failed: %v" e))
      | Panic => Panic
      | Diverge => Diverge
      | Ret result =>
          Ret (NewJSONResult (json_call_response
            [MkNodeResult (ca_NodeName params) (tr_Content result) (tr_IsError result) None]))
      end
  end.

(** What a fan-out goroutine records for its node, if its invocation comes back. *)
Definition node_result (node : gostring) (m : outcome ToolResult) : NodeResult :=
  match m with
  | Ret result => MkNodeResult node (tr_Content result) (tr_IsError result) None
  | Err e => MkNodeResult node [] true (Some e)
  | _ => MkNodeResult node [] false None
  end.

(** [wg.Wait()]: a goroutine that panics ends the program, one that never returns is
    waited for. *)
Definition wait_all {A} (ms : list (outcome A)) : outcome unit :=
  if existsb (λ m, match m with Panic => true | _ => false end) ms then Panic
  else if existsb (λ m, match m with Diverge => true | _ => false end) ms then Diverge
  else Ret tt.

Definition handleFanOut (gw : Gateway) (params : callToolArgs) (order : list nat) : outcome ToolResult :=
  match gw_mesh gw with
  | None => Ret (NewErrorResult (Errorf "fan-out not available (no mesh connection)"))
  | Some mesh =>
      match mb_DiscoverNodes mesh (ca_ToolName params) with
      | Err e => Ret (NewErrorResult (Wrapf "discover nodes for %q: %v" e))
      | Panic => Panic
      | Diverge => Diverge
      | Ret agents =>
          match filter_agents (ca_NodeName params) (gw_opts gw) agents with
          | Err e => Ret (NewErrorResult (Wrapf "invalid pattern %q: %v" e))
          | Panic => Panic
          | Diverge => Diverge
          | Ret [] => Ret (NewErrorResult (Errorf "no nodes matching %q have tool %q"))
          | Ret matched =>
              let invoke := λ node, mb_InvokeRemote mesh node (ca_ToolName params) (ca_Args params) in
              _ ← wait_all (map invoke matched);
              Ret (NewJSONResult (json_call_response
                (fan_out (MkNodeResult [] [] false None) (λ node, node_result node (invoke node)) matched order)))
          end
      end
  end.

Definition HandleCallTool (gw : Gateway) (args : bytes) (order : list nat) : outcome ToolResult :=
  let params := match args with [] => MkCallToolArgs [] [] [] | _ => parse_call_args args end in
  if decide (ca_ToolName params = []) then
    Ret (NewErrorResult (Errorf "call_tool requires 'tool_name' parameter"))
  else if decide (ca_NodeName params = []) then handleAutoRoute gw params
  else if isNodesetPattern (ca_NodeName params) then handleFanOut gw params order
  else handleUnicast gw params.

Definition Gateway_Dispatch (gw : Gateway) (toolName : gostring) (args : bytes) (order : list nat)
    : outcome ToolResult :=
  if decide (toolName = go "list_tools") then Ret (HandleListTools gw args)
  else if decide (toolName = go "tool_help") then Ret (HandleToolHelp gw args)
  else if decide (toolName = go "call_tool") then HandleCallTool gw args order
  else Ret (NewErrorResult (Errorf "unknown meta-tool: ")).

End gateway.

(** ** Lemmas: frames *)

Lemma writeToolFrame_fits w d :
  Z.of_nat (length d) ≤ maxToolFrameSize → (length (framed d) ≤ w_room w)%nat →
  writeToolFrame w d = (MkWriter (w_data w ++ framed d) (w_room w - length (framed d)), Ret tt).
Proof.
  intros Hd Hr. assert (maxToolFrameSize = 1048576) as Hmax by done.
  unfold writeToolFrame. rewrite length_framed in *.
  rewrite (proj2 (Z.ltb_ge _ _)), Z.mod_small by lia.
  rewrite Write_fits by (rewrite length_PutUint32; lia). cbn [negb].
  rewrite Write_fits by (cbn [w_room]; rewrite length_PutUint32; lia). cbn [w_data w_room].
  unfold framed. rewrite (assoc_L (++)). do 2 f_equal. rewrite length_PutUint32. lia.
Qed.

Lemma readToolFrame_framed d tail :
  Z.of_nat (length d) ≤ maxToolFrameSize → readToolFrame (framed d ++ tail) = (inl d, tail).
Proof.
  intros Hd. assert (maxToolFrameSize = 1048576) as Hmax by done.
  unfold readToolFrame, framed. rewrite <-(assoc_L (++)). cbn [read_full bytes_Reader].
  rewrite read_header, Uint32_PutUint32, (proj2 (Z.ltb_ge _ _)) by lia.
  by rewrite Nat2Z.id, ReadFull_app.
Qed.

(** A frame is read from a connection as from its bytes. *)
Lemma readToolFrame_stream `{ReaderLaws R} (r : R) :
  fst (readToolFrame r) = fst (readToolFrame (reader_bytes r)) ∧
  ∀ d, fst (readToolFrame r) = inl d → reader_bytes (snd (readToolFrame r)) = snd (readToolFrame (reader_bytes r)).
Proof.
  assert (∀ n (r : R), (∃ b r', read_full n r = (inl b, r') ∧ ReadFull n (reader_bytes r) = (inl b, reader_bytes r')) ∨
    ∃ e r' rest, read_full n r = (inr e, r') ∧ ReadFull n (reader_bytes r) = (inr e, rest)) as Hstep.
  { intros n r'. pose proof (read_full_result n r') as H1. pose proof (read_full_rest n r') as H2.
    destruct (read_full n r') as [b rest] eqn:E. unfold ReadFull in *. simpl in H1, H2.
    case_decide as Hn; simpl in H1; subst b; [left|right].
    - exists (take n (reader_bytes r')), rest. by rewrite <-H2.
    - by eexists _, rest, _. }
  unfold readToolFrame. cbn [read_full bytes_Reader].
  destruct (Hstep 4%nat r) as [(b & r' & -> & ->)|(e & r' & rest & -> & ->)]; [|done].
  destruct (maxToolFrameSize <? Uint32 b); [done|].
  by destruct (Hstep (Z.to_nat (Uint32 b)) r') as [(b' & r2 & -> & ->)|(e & r2 & rest & -> & ->)].
Qed.

Section protocol_lemmas.
Context `{ToolCodec}.

(** Serving a connection is serving the bytes it delivers. *)
Lemma serve_loop_stream `{ReaderLaws R} fuel registry (r : R) w :
  serve_loop fuel registry r w = serve_loop fuel registry (reader_bytes r) w.
Proof.
  revert r w. induction fuel as [|fuel IH]; intros r w; [done|]. cbn [serve_loop].
  destruct (readToolFrame_stream r) as [Hf Hrest].
  destruct (readToolFrame r) as [[d|e] r'], (readToolFrame (reader_bytes r)) as [[d'|e'] rest]; simpl in *; simplify_eq; [|done].
  specialize (Hrest _ eq_refl). subst rest. destruct (unmarshal_request d'); [|done]. destruct (dispatchLocal _ _); [|done..].
  destruct (marshal_response _); [|done]. destruct (writeToolFrame _ _) as [w' []]; [apply IH|done..].
Qed.

Lemma ServeToolConn_stream `{ReaderLaws R} registry (r : R) w :
  ServeToolConn registry r w = ServeToolConn registry (reader_bytes r) w.
Proof. unfold ServeToolConn. apply serve_loop_stream. Qed.

(** What a caller on the node itself would get, tool errors included. *)
Definition local_answer (registry : Registry) (call : gostring * bytes) : option ToolResult :=
  match Registry_InvokeLocal registry call.1 call.2 with
  | Ret result => Some result
  | Err e => Some (MkToolResult (quote_error call.1 e) true)
  | _ => None
  end.

(** The call and its answer have encodings, which decode back, within the limit. *)
Definition encodable (registry : Registry) (call : gostring * bytes) (answer : ToolResult) : Prop :=
  let req := MkToolRequest call.1 call.2 in
  let resp := MkToolResponse (tr_IsError answer) (tr_Content answer) in
  local_answer registry call = Some answer ∧
  (∃ rd, marshal_request req = Some rd ∧ unmarshal_request rd = Some req ∧
     Z.of_nat (length rd) ≤ maxToolFrameSize) ∧
  (∃ d, marshal_response resp = Some d ∧ unmarshal_response d = Some resp ∧
     Z.of_nat (length d) ≤ maxToolFrameSize).

(** A client that writes all its requests, then reads as many responses. *)
Fixpoint send_all (w : writer) (calls : list (gostring * bytes)) : writer * outcome unit :=
  match calls with
  | [] => (w, Ret tt)
  | c :: calls =>
      match DialInvoke_request w c.1 c.2 with
      | (w, Ret _) => send_all w calls
      | r => r
      end
  end.

Fixpoint recv_all (n : nat) (in_ : bytes) : outcome (list ToolResult) * bytes :=
  match n with
  | O => (Ret [], in_)
  | S n =>
      match DialInvoke_response in_ with
      | (Ret r, in_) => let '(rs, in_) := recv_all n in_ in (rs ← rs; Ret (r :: rs), in_)
      | (Err e, in_) => (Err e, in_)
      | (Panic, in_) => (Panic, in_)
      | (Diverge, in_) => (Diverge, in_)
      end
  end.

Lemma local_answer_dispatch registry call answer :
  local_answer registry call = Some answer →
  dispatchLocal registry (MkToolRequest call.1 call.2)
  = Ret (MkToolResponse (tr_IsError answer) (tr_Content answer)).
Proof.
  unfold local_answer, dispatchLocal. simpl.
  destruct (Registry_InvokeLocal _ _ _); intros [= <-]; [by destruct a|done].
Qed.

(** [room n w]: [w] takes [n] more frames of the greatest size. *)
Definition room (n : nat) (w : writer) : Prop :=
  Z.of_nat n * (4 + maxToolFrameSize) ≤ Z.of_nat (w_room w).

Lemma room_frame n w d :
  room (S n) w → Z.of_nat (length d) ≤ maxToolFrameSize →
  (length (framed d) ≤ w_room w)%nat ∧
  room n (MkWriter (w_data w ++ framed d) (w_room w - length (framed d))).
Proof.
  assert (maxToolFrameSize = 1048576) as Hmax by done.
  unfold room. cbn [w_room]. rewrite length_framed, Hmax. lia.
Qed.

Lemma send_all_ok registry calls answers w :
  Forall2 (encodable registry) calls answers → room (length calls) w →
  ∃ rds w', send_all w calls = (w', Ret tt) ∧ w_data w' = w_data w ++ concat (map framed rds) ∧
    Forall2 (λ c rd, unmarshal_request rd = Some (MkToolRequest c.1 c.2) ∧
      Z.of_nat (length rd) ≤ maxToolFrameSize) calls rds.
Proof.
  intros Hc. revert w. induction Hc as [|c a calls answers (_ & (rd & Hm & Hu & Hl) & _) _ IH]; intros w Hr.
  { exists [], w. simpl. rewrite app_nil_r. auto. }
  cbn [send_all]. unfold DialInvoke_request. rewrite Hm.
  destruct (room_frame _ _ rd Hr Hl) as [Hfit Hr']. rewrite writeToolFrame_fits by done. cbn [wrap_err].
  destruct (IH _ Hr') as (rds & w' & -> & Hw & Hf). exists (rd :: rds), w'.
  split; [done|]. split; [|by constructor]. rewrite Hw. cbn [w_data map concat]. by rewrite (assoc_L (++)).
Qed.

Lemma serve_loop_ok registry calls answers rds fuel w :
  Forall2 (encodable registry) calls answers →
  Forall2 (λ c rd, unmarshal_request rd = Some (MkToolRequest c.1 c.2) ∧
    Z.of_nat (length rd) ≤ maxToolFrameSize) calls rds →
  room (length calls) w → (length calls < fuel)%nat →
  ∃ ds w', serve_loop fuel registry (concat (map framed rds)) w = (w', Ret tt) ∧
    w_data w' = w_data w ++ concat (map framed ds) ∧
    Forall2 (λ d a, unmarshal_response d = Some (MkToolResponse (tr_IsError a) (tr_Content a)) ∧
      Z.of_nat (length d) ≤ maxToolFrameSize) ds answers.
Proof.
  intros Hc. revert rds fuel w.
  induction Hc as [|c a calls answers (Ha & _ & (d & Hm & Hu & Hl)) _ IH];
    intros rds fuel w Hrds Hr Hfuel; destruct fuel as [|fuel]; [simpl in *; lia| |simpl in *; lia|].
  { apply Forall2_nil_inv_l in Hrds as ->. exists [], w. simpl. rewrite app_nil_r. auto. }
  apply Forall2_cons_inv_l in Hrds as (rd & rds' & (Hrd & Hrl) & Hrds & ->).
  cbn [map concat serve_loop]. rewrite readToolFrame_framed, Hrd by done.
  rewrite (local_answer_dispatch _ _ _ Ha), Hm.
  destruct (room_frame _ _ d Hr Hl) as [Hfit Hr']. rewrite writeToolFrame_fits by done.
  destruct (IH rds' fuel _ Hrds Hr') as (ds & w' & -> & Hw & Hf); [simpl in *; lia|].
  exists (d :: ds), w'. split; [done|]. split; [|by constructor].
  rewrite Hw. cbn [w_data map concat]. by rewrite (assoc_L (++)).
Qed.

Lemma recv_all_ok ds answers :
  Forall2 (λ d a, unmarshal_response d = Some (MkToolResponse (tr_IsError a) (tr_Content a)) ∧
    Z.of_nat (length d) ≤ maxToolFrameSize) ds answers →
  recv_all (length answers) (concat (map framed ds)) = (Ret answers, []).
Proof.
  induction 1 as [|d a ds answers (Hd & Hl) _ IH]; [done|].
  cbn [map concat length recv_all]. unfold DialInvoke_response.
  rewrite readToolFrame_framed, Hd by done. cbn [rs_ContentJson rs_IsError]. rewrite IH. by destruct a.
Qed.

(** C15: Calling a tool over the wire is calling it locally. For any sequence of
    calls whose requests and responses encode within the frame limit, the server
    loop answers all of them and ends cleanly at the end of the stream, and the
    client reads, call by call, exactly what the node's registry returns, with
    tool errors as error results. *)
Theorem remote_call_is_local_call (registry : Registry) (calls : list (gostring * bytes))
  (answers : list ToolResult) (w1 w2 : nat)
  (Hcalls : Forall2 (encodable registry) calls answers)
  (Hw1 : room (length calls) (MkWriter [] w1)) (Hw2 : room (length calls) (MkWriter [] w2)) :
  ∃ requests responses, send_all (MkWriter [] w1) calls = (requests, Ret tt) ∧
    ServeToolConn registry (w_data requests) (MkWriter [] w2) = (responses, Ret tt) ∧
    recv_all (length calls) (w_data responses) = (Ret answers, []).
Proof.
  destruct (send_all_ok registry calls answers (MkWriter [] w1) Hcalls Hw1) as (rds & q & Hq & Hqd & Hrds).
  destruct (serve_loop_ok registry calls answers rds (S (length (w_data q))) (MkWriter [] w2)
    Hcalls Hrds Hw2) as (ds & s & Hs & Hsd & Hds).
  { rewrite Hqd, (Forall2_length _ _ _ Hrds). simpl app. pose proof (length_concat_framed rds). lia. }
  exists q, s. split; [done|]. rewrite Hqd, Hsd. cbn [w_data app]. split.
  - unfold ServeToolConn. rewrite Hqd in Hs. exact Hs.
  - rewrite (Forall2_length _ _ _ Hcalls). by apply recv_all_ok.
Qed.

End protocol_lemmas.

(** ** Lemmas and properties: the registry *)

(** The last registration under a name. *)
Definition last_registered (regs : list (ToolDefinition * ToolHandler)) (name : gostring)
    : option (ToolDefinition * ToolHandler) :=
  last (filter (λ p, td_Name p.1 = name) regs).

Definition register_all (r : Registry) (regs : list (ToolDefinition * ToolHandler)) : Registry :=
  foldl (λ r p, Registry_Register r p.1 p.2) r regs.

Lemma register_all_tools m regs name :
  r_tools (register_all (NewRegistry m) regs) !! name = last_registered regs name.
Proof.
  induction regs as [|[d h] regs IH] using rev_ind; [apply lookup_empty|].
  unfold register_all, last_registered in *. rewrite foldl_snoc, filter_app. simpl.
  destruct (decide (td_Name d = name)) as [<-|Hne].
  - rewrite lookup_insert_eq, filter_cons_True, filter_nil by done. by rewrite last_snoc.
  - rewrite lookup_insert_ne, filter_cons_False, filter_nil by done. by rewrite app_nil_r.
Qed.

Lemma register_all_tracker m regs :
  ∃ m', r_tracker (register_all (NewRegistry (Some m)) regs) = Some m' ∧
    ∀ c, c ∈ m_capabilities m' ↔
      c ∈ m_capabilities m ∨ ∃ p, p ∈ regs ∧ c = go "tool:" ++ td_Name p.1.
Proof.
  induction regs as [|p regs (m' & Hm & Hc)] using rev_ind.
  { exists m. split; [done|]. intros c. split; [auto|]. by intros [|(p & Hp%elem_of_nil & _)]. }
  unfold register_all in *. rewrite foldl_snoc. simpl. rewrite Hm. eexists. split; [done|].
  intros c. unfold Manifest_RegisterCapability. simpl. rewrite elem_of_union, elem_of_singleton, Hc.
  setoid_rewrite elem_of_app. setoid_rewrite list_elem_of_singleton. naive_solver.
Qed.

(** The tool registry. After any registrations, in order: looking up and
    invoking a name uses the last registration under it, and an unregistered
    name is the "tool not found" error; the listings are exactly the registered
    tools that are not hidden, of all categories or of one; and the tracker
    advertises "tool:<name>" for every registered name on top of what it had. *)
Theorem registry_refines `{GoRange} (m : Manifest) (regs : list (ToolDefinition * ToolHandler)) :
  let r := register_all (NewRegistry (Some m)) regs in
  (∀ name, Registry_GetDefinition r name = fst <$> last_registered regs name) ∧
  (∀ name args, Registry_InvokeLocal r name args
     = match last_registered regs name with
       | Some (_, handler) => handler args
       | None => Err (Wrapf "registry: %w: %s" (Errorf "tool not found"))
       end) ∧
  (∀ d, d ∈ Registry_ListLocal r ↔
     td_Hidden d = false ∧ ∃ name, fst <$> last_registered regs name = Some d) ∧
  (∀ d c, d ∈ Registry_ListLocalByCategory r c ↔ td_Category d = c ∧ d ∈ Registry_ListLocal r) ∧
  ∃ m', r_tracker r = Some m' ∧ ∀ c, c ∈ m_capabilities m' ↔
    c ∈ m_capabilities m ∨ ∃ p, p ∈ regs ∧ c = go "tool:" ++ td_Name p.1.
Proof.
  intros r. assert (∀ d, d ∈ map (λ e, fst e.2) (range_map (r_tools r)) ↔
    ∃ name, fst <$> last_registered regs name = Some d) as Hall.
  { intros d. rewrite (list_elem_of_fmap (λ e : gostring * _, fst e.2)). split.
    - intros ([name [d' h]] & -> & Hin). rewrite range_map_perm in Hin.
      apply elem_of_map_to_list in Hin. unfold r in Hin. rewrite register_all_tools in Hin.
      exists name. by rewrite Hin.
    - intros (name & Hd). apply fmap_Some in Hd as ([d' h] & Hl & ->). exists (name, (d', h)).
      split; [done|]. rewrite range_map_perm. apply elem_of_map_to_list. unfold r.
      by rewrite register_all_tools. }
  split_and!.
  - intros name. unfold Registry_GetDefinition, r. by rewrite register_all_tools.
  - intros name args. unfold Registry_InvokeLocal, r. rewrite register_all_tools.
    by destruct (last_registered regs name) as [[]|].
  - intros d. unfold Registry_ListLocal. by rewrite list_elem_of_filter, Hall.
  - intros d c. unfold Registry_ListLocalByCategory, Registry_ListLocal.
    rewrite !list_elem_of_filter. tauto.
  - apply register_all_tracker.
Qed.

(** ** Lemmas and properties: invocation across nodes *)

Lemma fan_out_order {A} (zero : A) f nodes order :
  order ≡ₚ seq 0 (length nodes) → fan_out zero f nodes order = map f nodes.
Proof.
  intros Ho. assert (∀ order results, length results = length nodes → NoDup order →
    ∀ i, foldl (write_result f nodes) results order !! i
      = if decide (i ∈ order ∧ is_Some (nodes !! i)) then f <$> nodes !! i else results !! i) as Hgen.
  { clear order Ho. intros order. induction order as [|j order IH] using rev_ind; intros results Hl Hnd i.
    - rewrite decide_False; [done|]. by intros [Hi%elem_of_nil _].
    - apply NoDup_app in Hnd as (Hnd & Hj & _). rewrite foldl_snoc. unfold write_result at 1.
      assert (length (foldl (write_result f nodes) results order) = length nodes) as Hl'.
      { clear -Hl. revert results Hl. induction order as [|k order IH]; intros results Hl; simpl; [done|].
        apply IH. unfold write_result. case_match; [by rewrite length_insert|done]. }
      destruct (nodes !! j) as [node|] eqn:Hnode.
      + pose proof (lookup_lt_Some _ _ _ Hnode). destruct (decide (i = j)) as [->|Hij].
        * rewrite list_lookup_insert_eq by lia. rewrite decide_True, Hnode; [done|].
          split; [apply elem_of_app; right; by left|by rewrite Hnode].
        * rewrite list_lookup_insert_ne, IH by done.
          apply decide_ext. rewrite elem_of_app, list_elem_of_singleton. naive_solver.
      + rewrite IH by done. apply decide_ext. rewrite elem_of_app, list_elem_of_singleton.
        split; [naive_solver|]. intros [[?| ->] Hs]; [done|]. rewrite Hnode in Hs. by destruct Hs. }
  unfold fan_out. apply list_eq. intros i. rewrite Hgen; [|apply length_replicate|].
  - rewrite list_lookup_fmap. destruct (nodes !! i) as [node|] eqn:Hi.
    + rewrite decide_True; [done|]. split; [|eauto]. rewrite Ho. apply elem_of_seq.
      apply lookup_lt_Some in Hi. lia.
    + rewrite decide_False by (by intros [_ []]). simpl. apply lookup_ge_None in Hi.
      apply lookup_ge_None. by rewrite length_replicate.
  - rewrite Ho. apply NoDup_seq.
Qed.

Lemma filter_agents_spec pattern opts agents (matched : gostring → bool) :
  (∀ a, a ∈ agents → Match pattern (ai_NodeID a) opts = Ret (matched (ai_NodeID a))) →
  filter_agents pattern opts agents
  = Ret (filter (λ n, matched n = true) (map ai_NodeID agents)).
Proof.
  induction agents as [|a agents IH]; intros Hm; [done|]. cbn [filter_agents map].
  rewrite Hm by left. simpl. rewrite IH by (intros; apply Hm; by right). simpl.
  rewrite filter_cons. case_decide as E; destruct (matched (ai_NodeID a)); done.
Qed.

(** A value or an error. *)
Definition settled {A} (m : outcome A) : Prop := (∃ a, m = Ret a) ∨ ∃ e, m = Err e.

Lemma wait_all_settled {A} (ms : list (outcome A)) : Forall settled ms → wait_all ms = Ret tt.
Proof.
  intros Hms. unfold wait_all.
  assert (∀ f : outcome A → bool, (∀ m, settled m → f m = false) → existsb f ms = false) as Hf.
  { intros f Hf. induction Hms as [|m ms Hm Hms IH]; [done|]. simpl. by rewrite Hf. }
  rewrite !Hf; [done|by intros m [[a ->]|[e ->]]..].
Qed.

(** C18: Fan-out. When call_tool names a pattern that [Match] can decide for every
    discovered node, and the invocations come back with a result or an error, then
    in whichever order they finish the response encodes one result for each
    discovered node the pattern matches, in the order of discovery: the node's own
    result, or its error. With no matching node the response is an error. The
    encoder takes the nodes' contents as raw JSON and its error is dropped: all
    results come through exactly when every content is valid (or empty), and one
    node's invalid content leaves an empty response for all of them. *)
Theorem fan_out_complete `{GatewayCodec} `{GoRange} (json_valid : bytes → Prop)
  (gw : Gateway) (mesh : MeshBridge) (args : bytes)
  (agents : list AgentInfo) (matched : gostring → bool) (order : list nat) (params : callToolArgs)
  (Hjson : ∀ rs, is_Some (json_call_response rs) ↔ Forall (λ r, nr_Content r = [] ∨ json_valid (nr_Content r)) rs)
  (Hargs : args ≠ []) (Hparams : parse_call_args args = params)
  (Htool : ca_ToolName params ≠ []) (Hpat : isNodesetPattern (ca_NodeName params) = true)
  (Hmesh : gw_mesh gw = Some mesh) (Hdisc : mb_DiscoverNodes mesh (ca_ToolName params) = Ret agents)
  (Hmatch : ∀ a, a ∈ agents → Match (ca_NodeName params) (ai_NodeID a) (gw_opts gw)
     = Ret (matched (ai_NodeID a))) :
  let invoke := λ node, mb_InvokeRemote mesh node (ca_ToolName params) (ca_Args params) in
  let targets := filter (λ n, matched n = true) (map ai_NodeID agents) in
  let results := map (λ node, node_result node (invoke node)) targets in
  (∀ node, node ∈ targets → settled (invoke node)) → order ≡ₚ seq 0 (length targets) →
  if decide (targets = [])
  then HandleCallTool gw args order = Ret (NewErrorResult (Errorf "no nodes matching %q have tool %q"))
  else
    (Forall (λ r, nr_Content r = [] ∨ json_valid (nr_Content r)) results ∧
     ∃ content, json_call_response results = Some content ∧ HandleCallTool gw args order = Ret (MkToolResult content false)) ∨
    (¬ Forall (λ r, nr_Content r = [] ∨ json_valid (nr_Content r)) results ∧
     HandleCallTool gw args order = Ret (MkToolResult [] false)).
Proof.
  intros invoke targets results Hsettled Ho.
  assert (HandleCallTool gw args order =
    if decide (targets = []) then Ret (NewErrorResult (Errorf "no nodes matching %q have tool %q"))
    else Ret (NewJSONResult (json_call_response results))) as ->.
  { unfold HandleCallTool. destruct args as [|b args]; [done|]. rewrite Hparams, decide_False by done.
    rewrite decide_False; [|by intros E; rewrite E in Hpat]. rewrite Hpat.
    unfold handleFanOut. rewrite Hmesh, Hdisc, (filter_agents_spec _ _ _ matched Hmatch).
    fold targets. fold invoke. unfold results. clearbody targets. destruct targets as [|t targets]; [done|].
    rewrite wait_all_settled; [|apply Forall_forall; intros m (n & -> & Hn)%list_elem_of_fmap; by apply Hsettled].
    rewrite decide_False by done. cbn [mbind outcome_bind]. by rewrite fan_out_order. }
  case_decide; [done|]. unfold NewJSONResult.
  destruct (json_call_response results) as [content|] eqn:Hc.
  - left. split; [apply Hjson; rewrite Hc; by eexists|]. by exists content.
  - right. split; [|done]. intros Hall%Hjson. rewrite Hc in Hall. by destruct Hall.
Qed.

(** Faults stay inside. When the tools, the mesh and the pattern matcher
    return values or errors, [call_tool] always returns a result and never a Go
    error: an unparsable argument, an unknown tool, a failed discovery, a bad
    pattern or a failed call is an error result. And a tool the gateway has
    itself is run locally, whatever the mesh says. *)
Theorem call_tool_contains_faults `{GatewayCodec} `{GoRange} (gw : Gateway) (args : bytes) (order : list nat)
  (Htools : ∀ name a, settled (Registry_InvokeLocal (gw_registry gw) name a))
  (Hdisc : ∀ mesh name, gw_mesh gw = Some mesh → settled (mb_DiscoverNodes mesh name))
  (Hinvoke : ∀ mesh node name a, gw_mesh gw = Some mesh → settled (mb_InvokeRemote mesh node name a))
  (Hmatch : ∀ mesh agents a, gw_mesh gw = Some mesh →
     mb_DiscoverNodes mesh (ca_ToolName (parse_call_args args)) = Ret agents → a ∈ agents →
     settled (Match (ca_NodeName (parse_call_args args)) (ai_NodeID a) (gw_opts gw))) :
  returns (HandleCallTool gw args order) ∧
  ∀ params mesh', is_Some (Registry_GetDefinition (gw_registry gw) (ca_ToolName params)) →
    handleAutoRoute (MkGateway (gw_registry gw) mesh' (gw_opts gw)) params = handleAutoRoute gw params.
Proof.
  split; [|intros params mesh' [d Hd]; unfold handleAutoRoute; simpl; by rewrite Hd].
  unfold HandleCallTool. destruct args as [|b args]; [rewrite decide_True by done; by eexists|].
  set (params := parse_call_args (b :: args)) in *. clearbody params.
  assert (∀ m f, settled m → returns (tool_error m f)) as Herr.
  { intros m f [[a ->]|[e ->]]; [by exists a|by eexists]. }
  case_decide; [by eexists|]. case_decide; [|destruct (isNodesetPattern _)].
  - unfold handleAutoRoute. destruct (Registry_GetDefinition _ _); [by apply Herr|].
    destruct (gw_mesh gw) as [mesh|] eqn:Hm; [|by eexists].
    destruct (Hdisc mesh (ca_ToolName params) eq_refl) as [[[|a agents] ->]|[e ->]]; [by eexists| |by eexists].
    apply Herr. by apply Hinvoke.
  - unfold handleFanOut. destruct (gw_mesh gw) as [mesh|] eqn:Hm; [|by eexists].
    destruct (Hdisc mesh (ca_ToolName params) eq_refl) as [[agents Ha]|[e ->]]; [|by eexists].
    specialize (Hmatch mesh agents). rewrite Ha. assert (∀ a, a ∈ agents →
      settled (Match (ca_NodeName params) (ai_NodeID a) (gw_opts gw))) as Hm' by auto. clear Ha Hmatch.
    assert (settled (filter_agents (ca_NodeName params) (gw_opts gw) agents)) as [[[|t ts] ->]|[e ->]];
      [|by eexists| |by eexists].
    2: { rewrite wait_all_settled; [by eexists|]. apply Forall_forall. intros x (n & -> & _)%list_elem_of_fmap. by apply Hinvoke. }
    induction agents as [|a agents IH]; [left; by eexists|]. cbn [filter_agents].
    destruct (Hm' a ltac:(by left)) as [[b' ->]|[e ->]]; [|right; by eexists].
    cbn [mbind outcome_bind]. destruct IH as [[ts ->]|[e ->]]; [by intros; apply Hm'; right|left; by eexists|right; by eexists].
  - unfold handleUnicast. destruct (gw_mesh gw) as [mesh|] eqn:Hm; [|by eexists].
    destruct (Hinvoke mesh (ca_NodeName params) (ca_ToolName params) (ca_Args params) eq_refl)
      as [[r ->]|[e ->]]; by eexists.
Qed.

(** [Invoke] without a node picks the least loaded one. When the discovery
    lists nodes whose impedances are numbers, the tool runs on one of them and
    none has a lower impedance; with a node name, on that node. *)
Theorem Invoke_picks_least `{GoSort} (mesh : MeshBridge) (toolName : gostring) (args : bytes)
  (agents : list AgentInfo)
  (Hdisc : mb_DiscoverNodes mesh toolName = Ret agents) (Hne : agents ≠ [])
  (Hnan : ∀ a, a ∈ agents → is_nan (ai_Impedance a) = false) :
  (∃ a, a ∈ agents ∧
     RemoteInvoker_Invoke mesh [] toolName args = mb_InvokeRemote mesh (ai_NodeID a) toolName args ∧
     ∀ b, b ∈ agents → f64_ltb (ai_Impedance b) (ai_Impedance a) = false) ∧
  ∀ node, node ≠ [] → RemoteInvoker_Invoke mesh node toolName args = mb_InvokeRemote mesh node toolName args.
Proof.
  split.
  - unfold RemoteInvoker_Invoke. rewrite decide_True, Hdisc by done. cbn [wrap_err mbind outcome_bind].
    pose proof (sort_slice_perm agent_less agents) as Hp.
    pose proof (sort_slice_sorted agent_less agents) as Hs.
    destruct (sort_slice agent_less agents) as [|a l] eqn:E.
    + apply Permutation_nil in Hp. done.
    + exists a. split; [rewrite <-Hp; by left|]. split; [done|]. intros b Hb. rewrite <-Hp in Hb.
      assert (less_sorted agent_less (a :: l)) as Hsort.
      { apply Hs, f64_ltb_strict_weak, Forall_forall. auto. }
      apply elem_of_cons in Hb as [->|Hb]; [apply f64_ltb_irrefl|].
      apply StronglySorted_inv in Hsort as [_ Hsort]. rewrite Forall_forall in Hsort. by apply Hsort.
  - intros node Hnode. unfold RemoteInvoker_Invoke. by rewrite decide_False.
Qed.

(** ** Witnesses *)

(** A small encoding: the name's length in one byte, the name, the arguments. *)
#[local] Instance codec0 : ToolCodec := {
  marshal_request r := Some (byte_of (Z.of_nat (length (rq_Name r))) :: rq_Name r ++ rq_ArgsJson r);
  unmarshal_request b :=
    match b with
    | [] => None
    | n :: b => let n := Z.to_nat (of_byte n) in Some (MkToolRequest (take n b) (drop n b))
    end;
  marshal_response r := Some ((if rs_IsError r then one else zero) :: rs_ContentJson r);
  unmarshal_response b :=
    match b with
    | [] => None
    | e :: b => Some (MkToolResponse (bool_decide (e = one)) b)
    end;
  quote_error name e := name
}.

Definition echo_def : ToolDefinition := MkToolDefinition (go "echo") [] [] (go "system") false [] None.

Definition registry0 : Registry :=
  Registry_Register (NewRegistry None) echo_def (λ args, Ret (MkToolResult args false)).

Lemma remote_call_is_local_call_witness :
  ∃ requests responses,
    send_all (MkWriter [] (Z.to_nat 4000000)) [(go "echo", go "{}"); (go "none", [])]
      = (requests, Ret tt) ∧
    ServeToolConn registry0 (w_data requests) (MkWriter [] (Z.to_nat 4000000)) = (responses, Ret tt) ∧
    recv_all 2 (w_data responses)
    = (Ret [MkToolResult (go "{}") false; MkToolResult (go "none") true], []).
Proof.
  apply (remote_call_is_local_call registry0 [(go "echo", go "{}"); (go "none", [])]
    [MkToolResult (go "{}") false; MkToolResult (go "none") true]).
  - repeat constructor; try reflexivity; eexists; (split; [reflexivity|]); (split; [reflexivity|]);
      vm_compute; discriminate.
  - unfold room. cbn [w_room]. rewrite Z2Nat.id by lia. vm_compute. discriminate.
  - unfold room. cbn [w_room]. rewrite Z2Nat.id by lia. vm_compute. discriminate.
Defined.

#[local] Instance gateway_codec0 : GatewayCodec := {
  json_error e := go "error";
  json_call_response rs :=
    if decide (Forall (λ r, nr_Content r = [] ∨ nr_Content r ≠ go "?") rs)
    then Some (rs ≫= λ r, nr_NodeID r ++ nr_Content r) else None;
  json_list_response l := Some [];
  json_help_response d := Some [];
  parse_call_args b := MkCallToolArgs (go "t") (go "node[1-2]") b;
  parse_category b := [];
  parse_tool_name b := []
}.

Definition mesh0 : MeshBridge := MkMeshBridge
  (λ _, Ret [MkAgentInfo (go "node2") (f64_of_Z 3); MkAgentInfo (go "node9") (f64_of_Z 2);
             MkAgentInfo (go "node1") (f64_of_Z 1)])
  (λ node _ _, if decide (node = go "node1") then Err (Errorf "down") else Ret (MkToolResult (go "!") false)).

Definition gateway0 : Gateway := MkGateway registry0 (Some mesh0) [].

#[local] Existing Instance list_range.
#[local] Existing Instance insertion_GoSort.

Lemma fan_out_complete_witness :
  HandleCallTool gateway0 (go "{}") [1%nat; 0%nat] = Ret (MkToolResult (go "node2!node1") false).
Proof.
  assert (∀ rs, is_Some (json_call_response rs) ↔ Forall (λ r, nr_Content r = [] ∨ nr_Content r ≠ go "?") rs) as Hjson.
  { intros rs. unfold json_call_response, gateway_codec0. case_decide as Hd; [split; [by intros _|by eexists]|].
    split; [by intros []|done]. }
  pose proof (fan_out_complete (λ c, c ≠ go "?") gateway0 mesh0 (go "{}")
    [MkAgentInfo (go "node2") (f64_of_Z 3); MkAgentInfo (go "node9") (f64_of_Z 2);
     MkAgentInfo (go "node1") (f64_of_Z 1)]
    (λ n, bool_decide (n = go "node1") || bool_decide (n = go "node2")) [1%nat; 0%nat]
    (MkCallToolArgs (go "t") (go "node[1-2]") (go "{}")) Hjson ltac:(done) eq_refl ltac:(done) eq_refl eq_refl eq_refl) as Hf.
  destruct Hf as [(_ & content & Hc & E)|(Hbad & _)].
  - intros a [->|[->|[->|[]%elem_of_nil]%elem_of_cons]%elem_of_cons]%elem_of_cons; vm_compute; reflexivity.
  - intros node _. simpl. case_decide; [right|left]; by eexists.
  - apply Permutation_swap.
  - rewrite E. vm_compute in Hc. injection Hc as <-. reflexivity.
  - destruct Hbad. apply (bool_decide_unpack _). vm_compute. exact I.
Defined.

(** The same two nodes, one of which answers with text that is not JSON. *)
Lemma fan_out_one_bad_content :
  HandleCallTool (MkGateway registry0 (Some (MkMeshBridge (mb_DiscoverNodes mesh0)
      (λ node _ _, Ret (MkToolResult (if decide (node = go "node1") then go "?" else go "!") false)))) [])
    (go "{}") [0%nat; 1%nat] = Ret (MkToolResult [] false).
Proof. vm_compute. reflexivity. Qed.

Lemma Invoke_picks_least_witness :
  ∃ a, RemoteInvoker_Invoke mesh0 [] (go "t") [] = mb_InvokeRemote mesh0 (ai_NodeID a) (go "t") [] ∧
    f64_ltb (f64_of_Z 1) (ai_Impedance a) = false.
Proof.
  destruct (Invoke_picks_least mesh0 (go "t") []
    [MkAgentInfo (go "node2") (f64_of_Z 3); MkAgentInfo (go "node9") (f64_of_Z 2);
     MkAgentInfo (go "node1") (f64_of_Z 1)] eq_refl) as [(a & _ & H1 & H2) _]; [done| |].
  - intros a [->|[->|[->|[]%elem_of_nil]%elem_of_cons]%elem_of_cons]%elem_of_cons; reflexivity.
  - exists a. split; [exact H1|]. apply (H2 (MkAgentInfo (go "node1") (f64_of_Z 1))). right. right. left.
Defined.

Lemma call_tool_contains_faults_witness :
  returns (HandleCallTool gateway0 (go "{}") [0%nat; 1%nat]).
Proof.
  apply (call_tool_contains_faults gateway0 (go "{}") [0%nat; 1%nat]).
  - intros name a. unfold Registry_InvokeLocal. destruct (r_tools _ !! name) as [[d h]|] eqn:E.
    + unfold gateway0, registry0 in E. simpl in E. rewrite lookup_insert_Some in E.
      destruct E as [[_ E]|[_ E]]; [|by rewrite lookup_empty in E]. injection E as _ <-. left. by eexists.
    + right. by eexists.
  - intros mesh name [= <-]. left. by eexists.
  - intros mesh node name a [= <-]. simpl. case_decide; [right|left]; by eexists.
  - intros mesh agents a [= <-] [= <-].
    intros [->|[->|[->|[]%elem_of_nil]%elem_of_cons]%elem_of_cons]%elem_of_cons; left;
      eexists; vm_compute; reflexivity.
Defined.
