(* ===== verification/Relay.v ===== *)
(** * Relay circuits: GrpcDialer and the relay handlers of pkg/mesh/api

    A data stream to a node that is not a direct peer goes through relays: the
    dialer asks the next hop to open a circuit and waits for its answer; the next
    hop dials on, in the control loop of the peer that asked. The functions on one
    node are those of connect.go and control.go. The network is a set of nodes
    with a write queue and a wire per direction of a connection and one control
    loop per peer, which reads nothing while it waits for a circuit. Topology and
    routes are fixed during a run; circuit ids are fresh numbers where the code
    draws random UUIDs; opening a session's stream is a parameter. *)

From Stdlib Require Import Ascii.
From stdpp Require Import base numbers gmap strings sorting list functions.
From S2P Require Import Prelude GoStrings GoFloat Gradient Node.

Open Scope Z_scope.

(** ** Data *)

(** [RelayOpenFrame] and [RelayAcceptFrame]. *)
Inductive RelayFrame :=
| RelayOpen (TargetNodeId : gostring) (CircuitId : Z)
| RelayAccept (CircuitId : Z) (Success : bool).

(** The stream a dial returns: the peer it was opened to, and the circuit id in
    its relay header, if it has one. *)
Record stream := MkStream { st_peer : gostring; st_header : option Z }.

#[export] Instance stream_eq_dec : EqDecision stream.
Proof. solve_decision. Defined.

(** [session.Open()] to a peer; an error may be one of [isSessionDead]'s. *)
Inductive open_result := Opened | OpenErr (dead : bool).

(** How far [GrpcDialer] gets without waiting: a stream, an error, or a circuit to
    open through the connection [pc]. *)
Inductive dial_plan :=
| Dialed (s : stream)
| DialFailed (e : goerr)
| ViaRelay (peer : gostring).

Definition ErrPeerDead : goerr := Errorf "peer session dead".

Section dial.
(** [session.Open()] on the connection of a peer. *)
Context (session_Open : gostring → open_result).

(** [ctx_err] is [ctx.Err() != nil]. *)
Definition grpcDialerFallback (ctx_err : bool) (n : Node) (targetNodeID : gostring) : dial_plan :=
  if ctx_err then DialFailed (Wrapf "api: reroute %q: %w: %w" ErrPeerDead)
  else
    match GradientTable_BestRoute (n_gradient n) targetNodeID with
    | None => DialFailed (Wrapf "api: %w: no route to %q after session death: %w" ErrPeerDead)
    | Some route =>
        match peerManager_Get (n_peers n) (pc_NextHop route) with
        | None => DialFailed (Wrapf "api: %w: next-hop %q for %q not connected: %w" ErrPeerDead)
        | Some _ =>
            if decide (pc_NextHop route = targetNodeID) then
              match session_Open (pc_NextHop route) with
              | Opened => Dialed (MkStream (pc_NextHop route) None)
              | OpenErr _ => DialFailed (Wrapf "api: %w: reroute stream to %q via %q: %w" ErrPeerDead)
              end
            else ViaRelay (pc_NextHop route)
        end
    end.

(** [ctx_err] at entry and at the fallback. *)
Definition GrpcDialer (ctx_err ctx_err' : bool) (n : Node) (targetNodeID : gostring) : dial_plan :=
  if ctx_err then DialFailed (Errorf "api: grpc dialer to %q: %w")
  else
    match peerManager_Get (n_peers n) targetNodeID with
    | Some _ =>
        match session_Open targetNodeID with
        | Opened => Dialed (MkStream targetNodeID None)
        | OpenErr false => DialFailed (Errorf "api: open stream to %q: %w")
        | OpenErr true => grpcDialerFallback ctx_err' n targetNodeID
        end
    | None =>
        match GradientTable_BestRoute (n_gradient n) targetNodeID with
        | None => DialFailed (Errorf "api: no route to node %q")
        | Some route =>
            match peerManager_Get (n_peers n) (pc_NextHop route) with
            | None => DialFailed (Errorf "api: next hop %q for %q not connected")
            | Some _ => ViaRelay (pc_NextHop route)
            end
        end
    end.

End dial.

(** ** One node *)

(** A control loop inside [handleRelayOpenFrame]: it waits for the circuit [own]
    through the peer [via], to answer the circuit [reply]. *)
Record waiting := MkWaiting { wt_own : Z; wt_via : gostring; wt_reply : Z }.

Record rnode := MkRnode {
  rn_node : Node;
  rn_pendingCircuits : gmap Z stream;
  rn_relayWaiters : gmap Z (option bool);  (** a channel of capacity one *)
  rn_loops : gmap gostring waiting;  (** the control loops that wait, by peer *)
  rn_dials : gmap Z gostring;  (** the node's own dials: circuit and next hop *)
  rn_streams : list stream  (** what its own dials returned *)
}.

Definition set_pending (r : rnode) (m : gmap Z stream) : rnode :=
  MkRnode (rn_node r) m (rn_relayWaiters r) (rn_loops r) (rn_dials r) (rn_streams r).
Definition set_waiters (r : rnode) (m : gmap Z (option bool)) : rnode :=
  MkRnode (rn_node r) (rn_pendingCircuits r) m (rn_loops r) (rn_dials r) (rn_streams r).
Definition set_loops (r : rnode) (m : gmap gostring waiting) : rnode :=
  MkRnode (rn_node r) (rn_pendingCircuits r) (rn_relayWaiters r) m (rn_dials r) (rn_streams r).
Definition set_dials (r : rnode) (m : gmap Z gostring) : rnode :=
  MkRnode (rn_node r) (rn_pendingCircuits r) (rn_relayWaiters r) (rn_loops r) m (rn_streams r).
Definition add_stream (r : rnode) (s : stream) : rnode :=
  MkRnode (rn_node r) (rn_pendingCircuits r) (rn_relayWaiters r) (rn_loops r) (rn_dials r)
    (rn_streams r ++ [s]).

(** [handleRelayAcceptFrame]: a send that does not block. *)
Definition handleRelayAcceptFrame (r : rnode) (circuit : Z) (success : bool) : rnode :=
  match rn_relayWaiters r !! circuit with
  | Some None => set_waiters r (<[circuit := Some success]> (rn_relayWaiters r))
  | _ => r
  end.

(** A stream arriving with a relay header: the circuit is looked up and consumed,
    and the stream stitched to its continuation; [None] closes the stream. *)
Definition take_circuit (r : rnode) (circuit : Z) : option stream * rnode :=
  match rn_pendingCircuits r !! circuit with
  | None => (None, r)
  | Some target => (Some target, set_pending r (delete circuit (rn_pendingCircuits r)))
  end.

(** ** The network *)

Record net := MkNet {
  nt_node : gostring → rnode;
  nt_queue : gostring * gostring → list RelayFrame;  (** a connection's [writeCh] *)
  nt_wire : gostring * gostring → list RelayFrame;  (** written, not yet read *)
  nt_next : Z  (** the next fresh circuit id *)
}.

Definition set_node (N : net) (a : gostring) (r : rnode) : net :=
  MkNet (<[a := r]> (nt_node N)) (nt_queue N) (nt_wire N) (nt_next N).

(** [pc.sendControl(frame)] *)
Definition send (N : net) (a b : gostring) (f : RelayFrame) : net * bool :=
  if (length (nt_queue N (a, b)) <? controlWriteQueueSize)%nat
  then (MkNet (nt_node N) (<[(a, b) := nt_queue N (a, b) ++ [f]]> (nt_queue N)) (nt_wire N) (nt_next N), true)
  else (N, false).

Section network.
(** The session of a node to its peer. *)
Context (session_Open : gostring → gostring → open_result).

(** The first half of [dialRelayCircuit]: register the waiter and ask the next hop.
    A full queue fails the dial and drops the waiter. *)
Definition relay_begin (N : net) (a via target : gostring) : option (net * Z) :=
  let circuit := nt_next N in
  let '(N', ok) := send N a via (RelayOpen target circuit) in
  if ok then
    let r := nt_node N' a in
    Some (MkNet (<[a := set_waiters r (<[circuit := None]> (rn_relayWaiters r))]> (nt_node N'))
            (nt_queue N') (nt_wire N') (circuit + 1), circuit)
  else None.

(** The second half, once the answer is there: the waiter is removed and the
    stream opened and its header written. *)
Definition relay_finish (N : net) (a via : gostring) (own : Z) (success : bool) : net * option stream :=
  let r := nt_node N a in
  (set_node N a (set_waiters r (delete own (rn_relayWaiters r))),
   if success then
     match session_Open a via with
     | Opened => Some (MkStream via (Some own))
     | OpenErr _ => None
     end
   else None).

(** The end of [handleRelayOpenFrame]: the connection is stored under the
    opener's circuit id and the opener told. *)
Definition answer_open (N : net) (a p : gostring) (circuit : Z) (target : option stream) : net :=
  match target with
  | None => fst (send N a p (RelayAccept circuit false))
  | Some s =>
      let r := nt_node N a in
      let N := set_node N a (set_pending r (<[circuit := s]> (rn_pendingCircuits r))) in
      fst (send N a p (RelayAccept circuit true))
  end.

Definition handleRelayOpenFrame (N : net) (a p target : gostring) (circuit : Z) : net :=
  match GrpcDialer (session_Open a) false false (rn_node (nt_node N a)) target with
  | Dialed s => answer_open N a p circuit (Some s)
  | DialFailed _ => answer_open N a p circuit None
  | ViaRelay via =>
      match relay_begin N a via target with
      | None => answer_open N a p circuit None
      | Some (N, own) =>
          let r := nt_node N a in
          set_node N a (set_loops r (<[p := MkWaiting own via circuit]> (rn_loops r)))
      end
  end.

(** What can happen. [Dial] is a dial of the node itself, which [Cancel] gives up
    (its context ends); [Flush] is the writer goroutine of a connection; [Read] a
    control loop taking the next frame; [Resume] and [Return] a dial inside a
    control loop and a dial of the node itself going on with the answer; [Stitch]
    a stream arriving with the header of a circuit. *)
Inductive action :=
| Dial (a target : gostring)
| Flush (a b : gostring)
| Read (a p : gostring)
| Resume (a p : gostring)
| Return (a : gostring) (own : Z)
| Cancel (a : gostring) (own : Z)
| Stitch (a : gostring) (circuit : Z).

Definition act (N : net) (e : action) : option net :=
  match e with
  | Dial a target =>
      match GrpcDialer (session_Open a) false false (rn_node (nt_node N a)) target with
      | Dialed s => Some (set_node N a (add_stream (nt_node N a) s))
      | DialFailed _ => Some N
      | ViaRelay via =>
          match relay_begin N a via target with
          | None => Some N
          | Some (N, own) =>
              let r := nt_node N a in
              Some (set_node N a (set_dials r (<[own := via]> (rn_dials r))))
          end
      end
  | Flush a b =>
      match nt_queue N (a, b) with
      | [] => None
      | f :: q =>
          Some (MkNet (nt_node N) (<[(a, b) := q]> (nt_queue N))
                  (<[(a, b) := nt_wire N (a, b) ++ [f]]> (nt_wire N)) (nt_next N))
      end
  | Read a p =>
      match n_peers (rn_node (nt_node N a)) !! p, rn_loops (nt_node N a) !! p, nt_wire N (p, a) with
      | Some _, None, f :: w =>
          let N := MkNet (nt_node N) (nt_queue N) (<[(p, a) := w]> (nt_wire N)) (nt_next N) in
          Some match f with
               | RelayOpen target circuit => handleRelayOpenFrame N a p target circuit
               | RelayAccept circuit success =>
                   set_node N a (handleRelayAcceptFrame (nt_node N a) circuit success)
               end
      | _, _, _ => None
      end
  | Resume a p =>
      match rn_loops (nt_node N a) !! p with
      | None => None
      | Some w =>
          match rn_relayWaiters (nt_node N a) !! wt_own w with
          | Some (Some success) =>
              let '(N, target) := relay_finish N a (wt_via w) (wt_own w) success in
              let r := nt_node N a in
              let N := set_node N a (set_loops r (delete p (rn_loops r))) in
              Some (answer_open N a p (wt_reply w) target)
          | _ => None
          end
      end
  | Return a own =>
      match rn_dials (nt_node N a) !! own, rn_relayWaiters (nt_node N a) !! own with
      | Some via, Some (Some success) =>
          let '(N, s) := relay_finish N a via own success in
          let r := nt_node N a in
          let r := set_dials r (delete own (rn_dials r)) in
          Some (set_node N a (match s with Some s => add_stream r s | None => r end))
      | _, _ => None
      end
  | Cancel a own =>
      match rn_dials (nt_node N a) !! own with
      | None => None
      | Some _ =>
          let r := nt_node N a in
          Some (set_node N a (set_waiters (set_dials r (delete own (rn_dials r)))
                                (delete own (rn_relayWaiters r))))
      end
  | Stitch a circuit => Some (set_node N a (snd (take_circuit (nt_node N a) circuit)))
  end.

(** A run: a list of actions each of which can happen. *)
Fixpoint run (N : net) (es : list action) : option net :=
  match es with
  | [] => Some N
  | e :: es => N ← act N e; run N es
  end.

(** Where a stream leads: the node it was opened to, and on through the circuits
    pending there, for at most [fuel] hops. *)
Fixpoint leads_to (fuel : nat) (N : net) (s : stream) : option gostring :=
  match fuel with
  | O => None
  | S fuel =>
      match st_header s with
      | None => Some (st_peer s)
      | Some circuit =>
          s' ← rn_pendingCircuits (nt_node N (st_peer s)) !! circuit;
          leads_to fuel N s'
      end
  end.

End network.

#[local] Arguments GrpcDialer : simpl never.
#[local] Arguments relay_begin : simpl never.
#[local] Arguments answer_open : simpl never.

(** ** Lemmas: runs *)

Section facts.
Context (session_Open : gostring → gostring → open_result).
Local Abbreviation run := (run session_Open).
Local Abbreviation act := (act session_Open).

Lemma run_app N es es' : run N (es ++ es') = run N es ≫= λ N', run N' es'.
Proof.
  revert N. induction es as [|e es IH]; intros N; [done|]. simpl.
  destruct (act N e); simpl; [apply IH|done].
Qed.

Lemma send_node N a b f : nt_node (fst (send N a b f)) = nt_node N.
Proof. unfold send. by case_match. Qed.

Lemma send_next N a b f : nt_next (fst (send N a b f)) = nt_next N.
Proof. unfold send. by case_match. Qed.

Lemma relay_begin_Some N a via target N' own :
  relay_begin N a via target = Some (N', own) →
  own = nt_next N ∧ nt_next N' = nt_next N + 1 ∧
  nt_node N' = <[a := set_waiters (nt_node N a) (<[nt_next N := None]> (rn_relayWaiters (nt_node N a)))]>
    (nt_node N).
Proof.
  unfold relay_begin, send. destruct (_ <? _)%nat; [|done]. intros [= <- <-]. done.
Qed.

(** ** Two circuits that cross *)

(** What stays true at a node [b] once both of its control loops wait for a
    circuit through the other's peer. *)
Definition crossed (b p q : gostring) (own1 own2 : Z) (N : net) : Prop :=
  let r := nt_node N b in
  (∃ reply, rn_loops r !! p = Some (MkWaiting own1 q reply)) ∧
  (∃ reply, rn_loops r !! q = Some (MkWaiting own2 p reply)) ∧
  rn_relayWaiters r !! own1 = Some None ∧ rn_relayWaiters r !! own2 = Some None ∧
  rn_dials r !! own1 = None ∧ rn_dials r !! own2 = None ∧
  own1 < nt_next N ∧ own2 < nt_next N ∧
  ∀ x, is_Some (n_peers (rn_node r) !! x) ∨ is_Some (rn_loops r !! x) → x = p ∨ x = q.

Lemma answer_open_node N a p circuit target x :
  let r := nt_node N x in let r' := nt_node (answer_open N a p circuit target) x in
  rn_node r' = rn_node r ∧ rn_loops r' = rn_loops r ∧ rn_relayWaiters r' = rn_relayWaiters r ∧
  rn_dials r' = rn_dials r ∧ nt_next (answer_open N a p circuit target) = nt_next N.
Proof.
  unfold answer_open. destruct target as [s|]; rewrite send_node, send_next; [|done].
  unfold set_node. simpl. destruct (decide (x = a)) as [->|Hx].
  - by rewrite !fn_lookup_insert.
  - by rewrite fn_lookup_insert_ne.
Qed.

(** Changes at a node that leave [crossed] alone: the parts it speaks of. *)
Lemma crossed_frame b p q own1 own2 N N' :
  rn_node (nt_node N' b) = rn_node (nt_node N b) →
  rn_loops (nt_node N' b) = rn_loops (nt_node N b) →
  (∀ c, c = own1 ∨ c = own2 → rn_relayWaiters (nt_node N' b) !! c = rn_relayWaiters (nt_node N b) !! c) →
  (∀ c, c = own1 ∨ c = own2 → rn_dials (nt_node N' b) !! c = rn_dials (nt_node N b) !! c) →
  nt_next N ≤ nt_next N' →
  crossed b p q own1 own2 N → crossed b p q own1 own2 N'.
Proof.
  intros Hn Hl Hw Hd Hx. unfold crossed. rewrite Hn, Hl, !Hw, !Hd by auto.
  intros (?&?&?&?&?&?&?&?&?). split_and!; (done || lia).
Qed.

(** A node once crossed stays crossed, whatever happens. *)
Lemma crossed_step b p q own1 own2 N e N' :
  crossed b p q own1 own2 N → act N e = Some N' → crossed b p q own1 own2 N'.
Proof.
  intros Hc He. pose proof Hc as ((rp & Hp) & (rq & Hq) & Hw1 & Hw2 & Hd1 & Hd2 & Hn1 & Hn2 & Hpeer).
  assert (∀ N0, nt_node N0 = nt_node N → nt_next N0 = nt_next N →
    ∀ a via target N1 own, relay_begin N0 a via target = Some (N1, own) → ∀ f, (∀ r, rn_node (f r) = rn_node r ∧ rn_relayWaiters (f r) = rn_relayWaiters r ∧
      (a = b → rn_loops (f r) = rn_loops r) ∧
      (∀ c, c ≠ own → rn_dials (f r) !! c = rn_dials r !! c)) →
    crossed b p q own1 own2 (set_node N1 a (f (nt_node N1 a)))) as Hbegin.
  { intros N0 HN0 Hx0 a via target N1 own Hb f Hf.
    apply relay_begin_Some in Hb as (-> & Hnx & Hnode). rewrite HN0, Hx0 in *.
    destruct (Hf (nt_node N1 a)) as (Hf1 & Hf2 & Hf3 & Hf4).
    refine (crossed_frame b p q own1 own2 N _ _ _ _ _ _ Hc); unfold set_node; simpl; try lia.
    all: destruct (decide (b = a)) as [->|Hba];
      [rewrite fn_lookup_insert|rewrite fn_lookup_insert_ne by done; rewrite Hnode, fn_lookup_insert_ne by done; done].
    - rewrite Hf1, Hnode, fn_lookup_insert. done.
    - rewrite Hf3, Hnode, fn_lookup_insert by done. done.
    - intros c Hcc. rewrite Hf2, Hnode, fn_lookup_insert. simpl. rewrite lookup_insert_ne by lia. done.
    - intros c Hcc. rewrite Hf4, Hnode, fn_lookup_insert by lia. done. }
  assert (∀ a r, (a = b → rn_node r = rn_node (nt_node N b) ∧ rn_loops r = rn_loops (nt_node N b) ∧
      ∀ c, c = own1 ∨ c = own2 → rn_relayWaiters r !! c = rn_relayWaiters (nt_node N b) !! c ∧
        rn_dials r !! c = rn_dials (nt_node N b) !! c) →
    ∀ N1, (∀ y, y ≠ a → nt_node N1 y = nt_node N y) → nt_next N1 = nt_next N →
    crossed b p q own1 own2 (set_node N1 a r)) as Hset.
  { intros a r Hr N1 Hnode Hnx.
    refine (crossed_frame b p q own1 own2 N _ _ _ _ _ _ Hc); unfold set_node; simpl; try lia.
    all: destruct (decide (b = a)) as [<-|Hba];
      [rewrite fn_lookup_insert; destruct (Hr eq_refl) as (H1 & H2 & H3)|rewrite fn_lookup_insert_ne, Hnode by done; done].
    - done.
    - done.
    - intros c Hcc. by apply H3.
    - intros c Hcc. by apply H3. }
  destruct e as [a target|a x|a x|a x|a own|a own|a circuit]; simpl in He.
  - destruct (GrpcDialer _ _ _ _ _) as [st|err|via]; simplify_eq.
    + apply (Hset a); [|done..]. intros ->. done.
    + done.
    + destruct (relay_begin N a via target) as [[N1 own]|] eqn:Hb; simplify_eq; [|done].
      apply (Hbegin N eq_refl eq_refl _ _ _ _ _ Hb (λ r, set_dials r (<[own := via]> (rn_dials r)))).
      intros r. split_and!; try done. intros c Hco. simpl. by rewrite lookup_insert_ne.
  - destruct (nt_queue N (a, x)); simplify_eq. done.
  - destruct (n_peers (rn_node (nt_node N a)) !! x) as [pc|] eqn:Hpc; [|done].
    destruct (rn_loops (nt_node N a) !! x) eqn:Hlx; [done|].
    destruct (nt_wire N (x, a)) as [|f w]; [done|]. injection He as <-.
    assert (a ≠ b) as Hab.
    { intros ->. destruct (Hpeer x) as [->| ->]; [left; by rewrite Hpc|congruence..]. }
    set (N0 := MkNet _ _ _ _). destruct f as [target circuit|circuit success].
    + unfold handleRelayOpenFrame.
      assert (∀ t, crossed b p q own1 own2 (answer_open N0 a x circuit t)) as Hans.
      { intros t. destruct (answer_open_node N0 a x circuit t b) as (H1 & H2 & H3 & H4 & H5).
        refine (crossed_frame b p q own1 own2 N _ H1 H2 _ _ _ Hc); [|intros; by rewrite ?H3, ?H4..|rewrite H5; simpl; lia].
        intros. by rewrite H3. }
      destruct (GrpcDialer _ _ _ _ _) as [st|err|via]; [apply Hans..|].
      destruct (relay_begin N0 a via target) as [[N1 own]|] eqn:Hb; [|apply Hans].
      apply (Hbegin N0 eq_refl eq_refl _ _ _ _ _ Hb
        (λ r, set_loops r (<[x := MkWaiting own via circuit]> (rn_loops r)))). intros r. by split_and!.
    + by apply (Hset a).
  - destruct (rn_loops (nt_node N a) !! x) as [w|] eqn:Hlx; [|done].
    destruct (rn_relayWaiters (nt_node N a) !! wt_own w) as [[ok|]|] eqn:Hww; [|done..].
    assert (a ≠ b) as Hab.
    { intros ->. destruct (Hpeer x) as [->| ->]; [right; by rewrite Hlx|..]; simplify_eq; simpl in *; congruence. }
    injection He as <-.
    match goal with |- crossed _ _ _ _ _ (answer_open ?M _ _ _ ?t) =>
      destruct (answer_open_node M a x (wt_reply w) t b) as (H1 & H2 & H3 & H4 & H5); set (N1 := M) in * end.
    assert (nt_node N1 b = nt_node N b) as Hb.
    { unfold N1, set_node. simpl. by rewrite !fn_lookup_insert_ne. }
    rewrite Hb in *.
    refine (crossed_frame b p q own1 own2 N _ H1 H2 _ _ _ Hc); [intros; by rewrite H3|intros; by rewrite H4|].
    rewrite H5. done.
  - destruct (rn_dials (nt_node N a) !! own) as [via|] eqn:Hda; [|done].
    destruct (rn_relayWaiters (nt_node N a) !! own) as [[ok|]|] eqn:Hww; [|done..].
    injection He as <-. apply (Hset a).
    + intros ->. unfold set_node. simpl. rewrite fn_lookup_insert.
      assert (own ≠ own1 ∧ own ≠ own2) as [Hne1 Hne2] by (split; congruence).
      destruct (if ok then _ else _) as [s|]; simpl; (split_and!; [done|done|]); intros c Hcc;
        rewrite !lookup_delete_ne; (done || (destruct Hcc; congruence)).
    + intros y Hy. unfold set_node. simpl. by rewrite fn_lookup_insert_ne.
    + done.
  - destruct (rn_dials (nt_node N a) !! own) as [via|] eqn:Hda; [|done]. injection He as <-.
    apply (Hset a); [|done..]. intros ->. split_and!; [done..|].
    intros c Hcc. simpl. split; rewrite lookup_delete_ne; (done || (destruct Hcc; congruence)).
  - injection He as <-. apply (Hset a); [|done..]. intros ->. unfold take_circuit. by case_match.
Qed.

Lemma crossed_run b p q own1 own2 N es N' :
  crossed b p q own1 own2 N → run N es = Some N' → crossed b p q own1 own2 N'.
Proof.
  revert N. induction es as [|e es IH]; intros N Hc He; simpl in He; [by simplify_eq|].
  destruct (act N e) as [N1|] eqn:E; [|done]. eapply IH; [|exact He]. by eapply crossed_step.
Qed.

(** ** A circuit along a path *)

(** [a] and then the nodes of [rest] can take a circuit to [t] that [p] asks
    for: each is connected to the one before it and dials through the next, the
    last has [t] as its peer, and their control loops and connections are idle. *)
Fixpoint relay_path (N : net) (t p a : gostring) (rest : list gostring) : Prop :=
  is_Some (n_peers (rn_node (nt_node N a)) !! p) ∧ rn_loops (nt_node N a) !! p = None ∧
  match rest with
  | [] => GrpcDialer (session_Open a) false false (rn_node (nt_node N a)) t = Dialed (MkStream t None)
  | b :: rest =>
      GrpcDialer (session_Open a) false false (rn_node (nt_node N a)) t = ViaRelay b ∧
      session_Open a b = Opened ∧ is_Some (n_peers (rn_node (nt_node N a)) !! b) ∧
      rn_loops (nt_node N a) !! b = None ∧
      nt_queue N (a, b) = [] ∧ nt_wire N (a, b) = [] ∧ nt_queue N (b, a) = [] ∧ nt_wire N (b, a) = [] ∧
      relay_path N t a b rest
  end.

(** The stream [s] goes through the nodes [path], by the circuits pending there,
    and ends at [t]. *)
Fixpoint follows (N : net) (t : gostring) (s : stream) (path : list gostring) : Prop :=
  match path with
  | [] => s = MkStream t None
  | b :: path => ∃ own s', s = MkStream b (Some own) ∧
      rn_pendingCircuits (nt_node N b) !! own = Some s' ∧ follows N t s' path
  end.

Lemma follows_leads_to N t s path : follows N t s path → leads_to (S (length path)) N s = Some t.
Proof.
  revert s. induction path as [|b path IH]; intros s Hs; simpl in Hs; [by subst|].
  destruct Hs as (own & s' & -> & Hp & Hf). cbn [leads_to st_header st_peer length]. rewrite Hp. by apply IH.
Qed.

Lemma follows_frame N N' t s path :
  (∀ y, y ∈ path → nt_node N' y = nt_node N y) → follows N t s path → follows N' t s path.
Proof.
  revert s. induction path as [|b path IH]; intros s Hn; [done|]. simpl.
  intros (own & s' & -> & Hp & Hf). exists own, s'. rewrite Hn by left.
  split_and!; [done..|]. apply IH; [|done]. intros y Hy. apply Hn. by right.
Qed.

Lemma relay_path_frame N N' t p a rest :
  (∀ y, y ∈ a :: rest → rn_node (nt_node N' y) = rn_node (nt_node N y) ∧
     rn_loops (nt_node N' y) = rn_loops (nt_node N y)) →
  (∀ x y, x ∈ a :: rest → y ∈ a :: rest →
     nt_queue N' (x, y) = nt_queue N (x, y) ∧ nt_wire N' (x, y) = nt_wire N (x, y)) →
  relay_path N t p a rest → relay_path N' t p a rest.
Proof.
  revert p a. induction rest as [|b rest IH]; intros p a Hn Hl; simpl;
    destruct (Hn a ltac:(by left)) as [-> ->]; [done|].
  intros (?&?&?&?&?&?&?&?&?&?&Hrest).
  destruct (Hl a b) as [-> ->]; [by left|by right; left|].
  destruct (Hl b a) as [-> ->]; [by right; left|by left|].
  split_and!; try done. apply IH; [| |done].
  - intros y Hy. apply Hn. by right.
  - intros x y Hx Hy. apply Hl; by right.
Qed.

(** What one relay leaves behind: everything as it was, but for the request read
    from [(p, a)] and the answer written to [(a, p)], and the circuits of the
    relays themselves. *)
Record relayed (N N' : net) (p a : gostring) (rest : list gostring) (circuit : Z) : Prop := {
  rl_others : ∀ y, y ∉ a :: rest → nt_node N' y = nt_node N y;
  rl_static : ∀ y, rn_node (nt_node N' y) = rn_node (nt_node N y) ∧
    rn_loops (nt_node N' y) = rn_loops (nt_node N y) ∧ rn_dials (nt_node N' y) = rn_dials (nt_node N y);
  rl_queue : ∀ l, nt_queue N' l = nt_queue N l;
  rl_wire : ∀ l, nt_wire N' l = if decide (l = (p, a)) then []
    else if decide (l = (a, p)) then [RelayAccept circuit true] else nt_wire N l
}.

Lemma relay_one N t p a circuit :
  p ≠ a → relay_path N t p a [] → nt_wire N (p, a) = [RelayOpen t circuit] →
  nt_queue N (a, p) = [] → nt_wire N (a, p) = [] →
  ∃ N', run N [Read a p; Flush a p] = Some N' ∧ relayed N N' p a [] circuit ∧
    rn_pendingCircuits (nt_node N' a) !! circuit = Some (MkStream t None).
Proof.
  intros Hpa (Hpeer & Hloop & Hplan) Hw Hq Hwb. destruct Hpeer as [pc Hpeer].
  cbn [Relay.run Relay.act mbind option_bind]. rewrite Hpeer, Hloop, Hw. unfold handleRelayOpenFrame. simpl nt_node.
  rewrite Hplan. unfold answer_open, send. simpl. rewrite Hq. simpl. rewrite fn_lookup_insert.
  eexists. split; [done|]. split; [split|]; simpl.
  - intros y Hy. apply not_elem_of_cons in Hy as [Hy _]. by rewrite fn_lookup_insert_ne.
  - intros y. destruct (decide (y = a)) as [->|]; [by rewrite fn_lookup_insert|by rewrite fn_lookup_insert_ne].
  - intros l. destruct (decide (l = (a, p))) as [->|]; [by rewrite fn_lookup_insert|by rewrite !fn_lookup_insert_ne].
  - intros l. destruct (decide (l = (a, p))) as [->|Hl].
    + rewrite fn_lookup_insert, fn_lookup_insert_ne, Hwb by congruence. rewrite decide_False by congruence. done.
    + rewrite fn_lookup_insert_ne by done. destruct (decide (l = (p, a))) as [->|];
        [by rewrite fn_lookup_insert|by rewrite fn_lookup_insert_ne].
  - rewrite fn_lookup_insert. simpl. by rewrite lookup_insert_eq.
Qed.

(** Reading a request that needs a further relay, and passing it on. *)
Lemma relay_forward N t p a b circuit :
  p ≠ a → a ≠ b → p ≠ b →
  is_Some (n_peers (rn_node (nt_node N a)) !! p) → rn_loops (nt_node N a) !! p = None →
  GrpcDialer (session_Open a) false false (rn_node (nt_node N a)) t = ViaRelay b →
  nt_queue N (a, b) = [] → nt_wire N (a, b) = [] → nt_wire N (p, a) = [RelayOpen t circuit] →
  ∃ N', run N [Read a p; Flush a b] = Some N' ∧
    (∀ y, y ≠ a → nt_node N' y = nt_node N y) ∧
    nt_node N' a = set_loops (set_waiters (nt_node N a) (<[nt_next N := None]> (rn_relayWaiters (nt_node N a))))
      (<[p := MkWaiting (nt_next N) b circuit]> (rn_loops (nt_node N a))) ∧
    (∀ l, nt_queue N' l = nt_queue N l) ∧
    (∀ l, nt_wire N' l = if decide (l = (p, a)) then []
       else if decide (l = (a, b)) then [RelayOpen t (nt_next N)] else nt_wire N l).
Proof.
  intros Hpa Hab Hpb [pc Hpeer] Hloop Hplan Hq Hw Hwire.
  cbn [Relay.run Relay.act mbind option_bind]. rewrite Hpeer, Hloop, Hwire.
  unfold handleRelayOpenFrame. simpl nt_node. rewrite Hplan. unfold relay_begin, send. simpl. rewrite Hq. simpl.
  rewrite !fn_lookup_insert. eexists. split; [done|]. simpl. split_and!.
  - intros y Hy. by rewrite !fn_lookup_insert_ne.
  - by rewrite fn_lookup_insert.
  - intros l. destruct (decide (l = (a, b))) as [->|]; [by rewrite fn_lookup_insert|by rewrite !fn_lookup_insert_ne].
  - intros l. destruct (decide (l = (a, b))) as [->|Hl].
    + rewrite fn_lookup_insert, fn_lookup_insert_ne, Hw by congruence. rewrite decide_False by congruence. done.
    + rewrite fn_lookup_insert_ne by done. destruct (decide (l = (p, a))) as [->|];
        [by rewrite fn_lookup_insert|by rewrite fn_lookup_insert_ne].
Qed.

(** Reading the answer of the next hop, going on with the dial and answering. *)
Lemma relay_answer N p a b own circuit :
  p ≠ a → a ≠ b → p ≠ b →
  is_Some (n_peers (rn_node (nt_node N a)) !! b) → rn_loops (nt_node N a) !! b = None →
  rn_loops (nt_node N a) !! p = Some (MkWaiting own b circuit) →
  rn_relayWaiters (nt_node N a) !! own = Some None → session_Open a b = Opened →
  nt_wire N (b, a) = [RelayAccept own true] → nt_queue N (a, p) = [] → nt_wire N (a, p) = [] →
  ∃ N', run N [Read a b; Resume a p; Flush a p] = Some N' ∧
    (∀ y, y ≠ a → nt_node N' y = nt_node N y) ∧
    rn_node (nt_node N' a) = rn_node (nt_node N a) ∧
    rn_loops (nt_node N' a) = delete p (rn_loops (nt_node N a)) ∧
    rn_dials (nt_node N' a) = rn_dials (nt_node N a) ∧
    rn_pendingCircuits (nt_node N' a) !! circuit = Some (MkStream b (Some own)) ∧
    (∀ l, nt_queue N' l = nt_queue N l) ∧
    (∀ l, nt_wire N' l = if decide (l = (b, a)) then []
       else if decide (l = (a, p)) then [RelayAccept circuit true] else nt_wire N l).
Proof.
  intros Hpa Hab Hpb [pc Hpeer] Hloopb Hloopp Hwait Hopen Hwire Hq Hw.
  cbn [Relay.run Relay.act mbind option_bind]. rewrite Hpeer, Hloopb, Hwire. simpl nt_node.
  unfold handleRelayAcceptFrame. rewrite Hwait. cbn [mbind option_bind set_node nt_node].
  rewrite !fn_lookup_insert. cbn [rn_loops rn_relayWaiters set_waiters]. rewrite Hloopp.
  cbn [wt_own wt_via wt_reply]. rewrite lookup_insert_eq. unfold relay_finish. simpl. rewrite !fn_lookup_insert, Hopen.
  unfold answer_open, send. simpl. rewrite !fn_lookup_insert. simpl. rewrite Hq. simpl. rewrite !fn_lookup_insert.
  eexists. split; [done|]. simpl. rewrite !fn_lookup_insert. simpl. split_and!; try done.
  - intros y Hy. by rewrite !fn_lookup_insert_ne.
  - by rewrite lookup_insert_eq.
  - intros l. destruct (decide (l = (a, p))) as [->|]; [by rewrite fn_lookup_insert|by rewrite !fn_lookup_insert_ne].
  - intros l. destruct (decide (l = (a, p))) as [->|Hl].
    + rewrite fn_lookup_insert, fn_lookup_insert_ne, Hw by congruence. rewrite decide_False by congruence. done.
    + rewrite fn_lookup_insert_ne by done. destruct (decide (l = (b, a))) as [->|];
        [by rewrite fn_lookup_insert|by rewrite fn_lookup_insert_ne].
Qed.

Lemma relay_many N t p a rest circuit :
  NoDup (p :: a :: rest) → relay_path N t p a rest → nt_wire N (p, a) = [RelayOpen t circuit] →
  nt_queue N (a, p) = [] → nt_wire N (a, p) = [] →
  ∃ es N' s, run N es = Some N' ∧ relayed N N' p a rest circuit ∧
    rn_pendingCircuits (nt_node N' a) !! circuit = Some s ∧ follows N' t s rest.
Proof.
  revert N p a circuit. induction rest as [|b rest IH]; intros N p a circuit Hnd Hpath Hwire Hq Hw.
  { apply list.NoDup_cons in Hnd as [Hpa _]. assert (p ≠ a) as Hne by (intros ->; apply Hpa; left).
    destruct (relay_one N t p a circuit Hne Hpath Hwire Hq Hw) as (N' & Hr & Hrel & Hp).
    by exists [Read a p; Flush a p], N', (MkStream t None). }
  destruct Hpath as (Hpeer & Hloop & Hplan & Hopen & Hpeerb & Hloopb & Hqab & Hwab & Hqba & Hwba & Hrest).
  pose proof Hnd as [Hp Hnd']%list.NoDup_cons. pose proof (proj1 (list.NoDup_cons _ _) Hnd') as [Ha Hnd''].
  apply not_elem_of_cons in Hp as [Hpa Hp]. apply not_elem_of_cons in Hp as [Hpb Hp].
  apply not_elem_of_cons in Ha as [Hab Ha]. pose proof Hnd'' as [Hb _]%list.NoDup_cons.
  destruct (relay_forward N t p a b circuit Hpa Hab Hpb Hpeer Hloop Hplan Hqab Hwab Hwire)
    as (N1 & Hr1 & Hn1 & Ha1 & Hq1 & Hw1).
  assert (∀ y, y ∈ b :: rest → y ≠ a) as Hya by (intros y Hy ->; apply elem_of_cons in Hy as [|]; done).
  destruct (IH N1 a b (nt_next N)) as (es & N2 & s & Hr2 & Hrel & Hps & Hfol); [done| | | | |].
  { refine (relay_path_frame N N1 t a b rest _ _ Hrest).
    - intros y Hy. by rewrite Hn1 by auto.
    - intros x y Hx Hy. rewrite Hq1, Hw1. split; [done|].
      rewrite !decide_False; [done|..]; intros [= -> ->]; by eapply (Hya a). }
  { rewrite Hw1, decide_False, decide_True by congruence. done. }
  { by rewrite Hq1. }
  { rewrite Hw1, !decide_False by congruence. done. }
  destruct Hrel as [Ho2 Hs2 Hq2 Hw2].
  assert (nt_node N2 a = nt_node N1 a) as Ha2.
  { apply Ho2. intros Hin. by apply (Hya a). }
  destruct (relay_answer N2 p a b (nt_next N) circuit Hpa Hab Hpb) as
    (N3 & Hr3 & Hn3 & Hnode3 & Hloops3 & Hdials3 & Hpend3 & Hq3 & Hw3).
  - by rewrite Ha2, Ha1.
  - rewrite Ha2, Ha1. simpl. by rewrite lookup_insert_ne.
  - rewrite Ha2, Ha1. simpl. by rewrite lookup_insert_eq.
  - rewrite Ha2, Ha1. simpl. by rewrite lookup_insert_eq.
  - done.
  - rewrite Hw2, decide_False, decide_True by congruence. done.
  - by rewrite Hq2, Hq1.
  - rewrite Hw2, !decide_False, Hw1, !decide_False by congruence. done.
  - exists ([Read a p; Flush a b] ++ es ++ [Read a b; Resume a p; Flush a p]), N3,
      (MkStream b (Some (nt_next N))).
    split; [|split; [split|split]].
    + rewrite run_app, Hr1. cbn [mbind option_bind]. rewrite run_app, Hr2. exact Hr3.
    + intros y Hy. apply not_elem_of_cons in Hy as [Hy1 Hy2].
      by rewrite Hn3, Ho2, Hn1.
    + intros y. destruct (decide (y = a)) as [->|Hy].
      * rewrite Hnode3, Hloops3, Hdials3, Ha2, Ha1. simpl. split_and!; [done| |done].
        by rewrite delete_insert_id.
      * rewrite Hn3 by done. destruct (Hs2 y) as (-> & -> & ->). by rewrite Hn1.
    + intros l. by rewrite Hq3, Hq2, Hq1.
    + intros l. rewrite Hw3, Hw2, Hw1. repeat case_decide; simplify_eq; congruence.
    + done.
    + exists (nt_next N), s. split; [done|]. rewrite Hn3 by done. split; [done|].
      eapply follows_frame; [|exact Hfol]. intros y Hy. apply Hn3, Hya. by right.
Qed.

End facts.

(** ** Properties *)

(** The first steps of a dial: the request is on its way, and the dialer waits. *)
Lemma dial_begins (session_Open : gostring → gostring → open_result) (N : net) (x a t : gostring)
  (Hplan : GrpcDialer (session_Open x) false false (rn_node (nt_node N x)) t = ViaRelay a)
  (Hq : nt_queue N (x, a) = []) (Hw : nt_wire N (x, a) = []) :
  ∃ N1, run session_Open N [Dial x t; Flush x a] = Some N1 ∧
    (∀ y, y ≠ x → nt_node N1 y = nt_node N y) ∧
    nt_node N1 x = set_dials (set_waiters (nt_node N x) (<[nt_next N := None]> (rn_relayWaiters (nt_node N x))))
      (<[nt_next N := a]> (rn_dials (nt_node N x))) ∧
    (∀ l, nt_queue N1 l = nt_queue N l) ∧
    (∀ l, nt_wire N1 l = if decide (l = (x, a)) then [RelayOpen t (nt_next N)] else nt_wire N l).
Proof.
  cbn [run act mbind option_bind]. rewrite Hplan. unfold relay_begin, send. rewrite Hq. simpl.
  rewrite !fn_lookup_insert. eexists. split; [done|]. simpl. split_and!.
  - intros y Hy. by rewrite !fn_lookup_insert_ne.
  - by rewrite fn_lookup_insert.
  - intros l. destruct (decide (l = (x, a))) as [->|]; [by rewrite fn_lookup_insert|by rewrite !fn_lookup_insert_ne].
  - intros l. destruct (decide (l = (x, a))) as [->|];
      [by rewrite fn_lookup_insert, Hw|by rewrite fn_lookup_insert_ne].
Qed.

(** Its last steps: the answer is read, and the dial returns a stream. *)
Lemma dial_ends (session_Open : gostring → gostring → open_result) (N N2 : net) (x a : gostring)
  (Hopen : session_Open x a = Opened) (Hpeer : is_Some (n_peers (rn_node (nt_node N x)) !! a))
  (Hloop : rn_loops (nt_node N x) !! a = None)
  (Hx : nt_node N2 x = set_dials (set_waiters (nt_node N x) (<[nt_next N := None]> (rn_relayWaiters (nt_node N x))))
      (<[nt_next N := a]> (rn_dials (nt_node N x))))
  (Hw : nt_wire N2 (a, x) = [RelayAccept (nt_next N) true]) :
  ∃ N3, run session_Open N2 [Read x a; Return x (nt_next N)] = Some N3 ∧
    (∀ y, y ≠ x → nt_node N3 y = nt_node N2 y) ∧
    rn_streams (nt_node N3 x) = rn_streams (nt_node N x) ++ [MkStream a (Some (nt_next N))] ∧
    rn_loops (nt_node N3 x) = rn_loops (nt_node N x) ∧
    (∀ l, nt_queue N3 l = nt_queue N2 l) ∧
    (∀ l, nt_wire N3 l = if decide (l = (a, x)) then [] else nt_wire N2 l).
Proof.
  destruct Hpeer as [pc Hpc]. cbn [run act mbind option_bind]. rewrite Hx. cbn [rn_node rn_loops set_dials set_waiters].
  rewrite Hpc, Hloop, Hw. cbn [nt_node].
  unfold handleRelayAcceptFrame. rewrite Hx. cbn [rn_relayWaiters set_dials set_waiters].
  rewrite lookup_insert_eq. cbn [mbind option_bind nt_node set_node]. rewrite !fn_lookup_insert.
  cbn [rn_dials rn_relayWaiters set_dials set_waiters]. rewrite !lookup_insert_eq.
  unfold relay_finish. rewrite Hopen. eexists. split; [done|]. cbn [nt_node set_node nt_queue nt_wire].
  rewrite !fn_lookup_insert. split_and!; [|done|done|done|].
  - intros y Hy. by rewrite !fn_lookup_insert_ne.
  - intros l. destruct (decide (l = (a, x))) as [->|]; [by rewrite fn_lookup_insert|by rewrite fn_lookup_insert_ne].
Qed.

(** C16: A relay dial reaches its target. When the nodes of a path can relay to
    [t] (each connected to the next, dialing on through it, the last one with [t]
    as its peer; idle control loops; empty connections), a dial at [x] through the
    path can run to its end: [x] gets a stream that leads, circuit by circuit
    through exactly the nodes of the path, to [t], and the connections and the
    control loops of every node are as they were. *)
Theorem relay_dial_reaches_target (session_Open : gostring → gostring → open_result)
  (N : net) (x a t : gostring) (rest : list gostring)
  (Hnd : NoDup (x :: a :: rest))
  (Hplan : GrpcDialer (session_Open x) false false (rn_node (nt_node N x)) t = ViaRelay a)
  (Hopen : session_Open x a = Opened) (Hpeer : is_Some (n_peers (rn_node (nt_node N x)) !! a))
  (Hloop : rn_loops (nt_node N x) !! a = None)
  (Hq1 : nt_queue N (x, a) = []) (Hw1 : nt_wire N (x, a) = [])
  (Hq2 : nt_queue N (a, x) = []) (Hw2 : nt_wire N (a, x) = [])
  (Hpath : relay_path session_Open N t x a rest) :
  ∃ es N' s, run session_Open N es = Some N' ∧
    rn_streams (nt_node N' x) = rn_streams (nt_node N x) ++ [s] ∧
    follows N' t s (a :: rest) ∧ leads_to (S (S (length rest))) N' s = Some t ∧
    (∀ l, nt_queue N' l = nt_queue N l ∧ nt_wire N' l = nt_wire N l) ∧
    ∀ y, rn_loops (nt_node N' y) = rn_loops (nt_node N y).
Proof.
  pose proof Hnd as [Hx Hnd']%list.NoDup_cons. pose proof Hx as [Hxa Hx']%not_elem_of_cons.
  destruct (dial_begins session_Open N x a t) as (N1 & Hr1 & Hn1 & Hx1 & HQ1 & HW1); [done..|].
  assert (∀ y, y ∈ a :: rest → y ≠ x) as Hyx by (intros y Hy ->; done).
  destruct (relay_many session_Open N1 t x a rest (nt_next N) Hnd) as (es & N2 & s & Hr2 & Hrel & Hp2 & Hf2).
  { refine (relay_path_frame _ N N1 t x a rest _ _ Hpath).
    - intros y Hy. by rewrite Hn1 by auto.
    - intros u v Hu Hv. rewrite HQ1, HW1. split; [done|]. rewrite decide_False; [done|].
      intros [= -> ->]. by eapply (Hyx x). }
  { by rewrite HW1, decide_True. }
  { by rewrite HQ1. }
  { by rewrite HW1, decide_False by congruence. }
  destruct Hrel as [Ho2 Hs2 HQ2 HW2].
  assert (nt_node N2 x = nt_node N1 x) as Hx2 by (by apply Ho2).
  destruct (dial_ends session_Open N N2 x a) as (N3 & Hr3 & Hn3 & Hst3 & Hl3 & HQ3 & HW3);
    [done..|by rewrite Hx2|by rewrite HW2, decide_False, decide_True by congruence|].
  exists ([Dial x t; Flush x a] ++ es ++ [Read x a; Return x (nt_next N)]), N3, (MkStream a (Some (nt_next N))).
  assert (follows N3 t (MkStream a (Some (nt_next N))) (a :: rest)) as Hfol.
  { exists (nt_next N), s. rewrite Hn3 by auto. split_and!; [done..|].
    eapply follows_frame; [|exact Hf2]. intros y Hy. apply Hn3, Hyx. by right. }
  split_and!; [|done|done|exact (follows_leads_to N3 t _ (a :: rest) Hfol)| |].
  - rewrite run_app, Hr1. cbn [mbind option_bind]. rewrite run_app, Hr2. exact Hr3.
  - intros l. rewrite HQ3, HQ2, HQ1, HW3, HW2, HW1. split; [done|].
    repeat case_decide; simplify_eq; congruence.
  - intros y. destruct (decide (y = x)) as [->|]; [done|]. rewrite Hn3 by done.
    destruct (Hs2 y) as (_ & -> & _). by rewrite Hn1.
Qed.

(** C19: Two circuits that cross at a node block it for good. If the node [b] has
    two peers [p] and [q], and [p] asks for a circuit that [b] dials through [q]
    while [q] asks for one that [b] dials through [p], then after both requests
    are read neither control loop of [b] reads a frame again, whatever else
    happens: each waits for an answer only the other could read. *)
Theorem crossing_relays_deadlock (session_Open : gostring → gostring → open_result)
  (N : net) (b p q t1 t2 : gostring) (c1 c2 : Z) (w1 w2 : list RelayFrame)
  (Hpq : p ≠ q) (Hbp : b ≠ p) (Hbq : b ≠ q)
  (Hp : is_Some (n_peers (rn_node (nt_node N b)) !! p))
  (Hq : is_Some (n_peers (rn_node (nt_node N b)) !! q))
  (Honly : ∀ x, is_Some (n_peers (rn_node (nt_node N b)) !! x) → x = p ∨ x = q)
  (Hidle : rn_loops (nt_node N b) = ∅)
  (Hfresh : ∀ c, nt_next N ≤ c → rn_dials (nt_node N b) !! c = None)
  (Hroom1 : (length (nt_queue N (b, q)) < controlWriteQueueSize)%nat)
  (Hroom2 : (length (nt_queue N (b, p)) < controlWriteQueueSize)%nat)
  (Hplan1 : GrpcDialer (session_Open b) false false (rn_node (nt_node N b)) t1 = ViaRelay q)
  (Hplan2 : GrpcDialer (session_Open b) false false (rn_node (nt_node N b)) t2 = ViaRelay p)
  (Hw1 : nt_wire N (p, b) = RelayOpen t1 c1 :: w1)
  (Hw2 : nt_wire N (q, b) = RelayOpen t2 c2 :: w2) :
  ∃ N1, run session_Open N [Read b p; Read b q] = Some N1 ∧
    ∀ es N2, run session_Open N1 es = Some N2 →
      ∀ x, act session_Open N2 (Read b x) = None ∧ act session_Open N2 (Resume b x) = None.
Proof.
  assert (∃ N1, run session_Open N [Read b p; Read b q] = Some N1 ∧
    crossed b p q (nt_next N) (nt_next N + 1) N1) as (N1 & Hr & Hc).
  { destruct Hp as [pc Hpc], Hq as [qc Hqc]. apply Nat.ltb_lt in Hroom1, Hroom2.
    cbn [run act mbind option_bind]. rewrite Hpc, Hidle, lookup_empty, Hw1.
    unfold handleRelayOpenFrame. cbn [nt_node]. rewrite Hplan1. unfold relay_begin, send. cbn [nt_queue nt_node nt_next nt_wire].
    rewrite Hroom1. cbn [nt_node nt_queue nt_wire nt_next set_node].
    unfold set_node. cbn [mbind option_bind nt_node nt_queue nt_wire nt_next]. rewrite !fn_lookup_insert.
    cbn [rn_node rn_loops set_loops set_waiters]. rewrite Hqc, Hidle, lookup_insert_ne, lookup_empty by done.
    rewrite fn_lookup_insert_ne, Hw2 by congruence. cbn [nt_node nt_queue nt_wire nt_next].
    rewrite ?fn_lookup_insert. cbn [rn_node set_loops set_waiters].
    rewrite Hplan2. rewrite fn_lookup_insert_ne, Hroom2 by congruence.
    eexists. split; [done|]. unfold crossed. cbn [nt_node nt_next]. rewrite !fn_lookup_insert.
    cbn [rn_node rn_loops rn_relayWaiters rn_dials set_loops set_waiters nt_node]. rewrite ?fn_lookup_insert.
    cbn [rn_node rn_loops rn_relayWaiters rn_dials set_loops set_waiters].
    split_and!; [eexists; by rewrite lookup_insert_ne, lookup_insert_eq by done|eexists; by rewrite lookup_insert_eq|..].
    - rewrite lookup_insert_ne, lookup_insert_eq by lia. done.
    - by rewrite lookup_insert_eq.
    - apply Hfresh. lia.
    - apply Hfresh. lia.
    - lia.
    - lia.
    - intros x [Hx|Hx]; [by apply Honly|].
      destruct (decide (x = q)); [by right|]. destruct (decide (x = p)); [by left|].
      rewrite !lookup_insert_ne, lookup_empty in Hx by done. by destruct Hx. }
  exists N1. split; [exact Hr|]. intros es N2 Hes x.
  destruct (crossed_run _ _ _ _ _ _ _ _ _ Hc Hes) as ((r1 & H1) & (r2 & H2) & Hv1 & Hv2 & _ & _ & _ & _ & Hx).
  simpl. destruct (rn_loops (nt_node N2 b) !! x) as [w|] eqn:Hl.
  - split; [by destruct (n_peers _ !! x)|].
    destruct (Hx x) as [->| ->]; [right; by rewrite Hl|..]; simplify_eq; simpl; by rewrite ?Hv1, ?Hv2.
  - split; [|done]. destruct (n_peers (rn_node (nt_node N2 b)) !! x) eqn:Hpx; [|done].
    destruct (Hx x) as [->| ->]; [left; by rewrite Hpx|congruence..].
Qed.

(** ** Witnesses *)

(** The line E0 - A - B - C - E4, each node knowing both ends. *)
Definition quiet (n : Node) : rnode := MkRnode n ∅ ∅ ∅ ∅ [].

Definition route (n : Node) (target via : gostring) : Node :=
  set_gradient n (GradientTable_UpdateRoute 0 (n_gradient n) target via (f64_of_Z 9)).

Definition line_node (x : gostring) : Node :=
  let n := fresh_node x in
  if decide (x = go "E0") then route (join n (go "A")) (go "E4") (go "A")
  else if decide (x = go "A") then route (join (join n (go "E0")) (go "B")) (go "E4") (go "B")
  else if decide (x = go "B") then
    route (route (join (join n (go "A")) (go "C")) (go "E4") (go "C")) (go "E0") (go "A")
  else if decide (x = go "C") then route (join (join n (go "B")) (go "E4")) (go "E0") (go "B")
  else if decide (x = go "E4") then route (join n (go "C")) (go "E0") (go "C")
  else n.

Definition line5 : net := MkNet (λ x, quiet (line_node x)) (λ _, []) (λ _, []) 0.

Definition all_open : gostring → gostring → open_result := λ _ _, Opened.

(** E0 dials E4: through A, B and C. *)
Lemma relay_dial_reaches_target_witness :
  ∃ es N' s, run all_open line5 es = Some N' ∧ rn_streams (nt_node N' (go "E0")) = [s] ∧
    leads_to 4 N' s = Some (go "E4").
Proof.
  destruct (relay_dial_reaches_target all_open line5 (go "E0") (go "A") (go "E4") [go "B"; go "C"])
    as (es & N' & s & Hr & Hs & _ & Hl & _);
    [apply (bool_decide_unpack _); vm_compute; exact I|vm_compute; reflexivity|reflexivity|
     eexists; vm_compute; reflexivity|reflexivity..| |].
  - cbn [relay_path]. repeat apply conj; try reflexivity; try (eexists; vm_compute; reflexivity); vm_compute; reflexivity.
  - exists es, N', s. split; [exact Hr|]. split; [exact Hs|exact Hl].
Defined.

Definition crossing : list action :=
  [Dial (go "A") (go "E4"); Dial (go "C") (go "E0"); Flush (go "A") (go "B"); Flush (go "C") (go "B")].

Definition crossing_net : net := default line5 (run all_open line5 crossing).

(** A dials E4 while C dials E0: B never reads again. *)
Lemma crossing_relays_deadlock_witness :
  ∃ N N1, run all_open line5 crossing = Some N ∧
    run all_open N [Read (go "B") (go "A"); Read (go "B") (go "C")] = Some N1 ∧
    ∀ es N2, run all_open N1 es = Some N2 → act all_open N2 (Read (go "B") (go "A")) = None.
Proof.
  assert (run all_open line5 crossing = Some crossing_net) as E.
  { unfold crossing_net. assert (bool_decide (is_Some (run all_open line5 crossing)) = true) as Hs
      by (vm_compute; reflexivity). destruct (run all_open line5 crossing); [reflexivity|discriminate Hs]. }
  exists crossing_net.
  edestruct (crossing_relays_deadlock all_open crossing_net (go "B") (go "A") (go "C") (go "E4") (go "E0") 0 1 [] [])
    as (N1 & Hr & Hd); cycle -1.
  { exists N1. split; [exact E|]. split; [exact Hr|]. intros es N2 Hes. apply (Hd es N2 Hes). }
  all: try (vm_compute; discriminate).
  all: try (vm_compute; reflexivity).
  all: try (eexists; vm_compute; reflexivity).
  all: try (vm_compute; lia).
  - intros x [c Hx].
    assert (n_peers (rn_node (nt_node crossing_net (go "B"))) = <[go "C" := 1%nat]> {[go "A" := 0%nat]}) as Hpe
      by (vm_compute; reflexivity).
    rewrite Hpe in Hx. apply lookup_insert_Some in Hx as [[<- _]|[_ [<- _]%lookup_singleton_Some]]; [right|left]; reflexivity.
Defined.
