(* ===== verification/Process.v ===== *)
(** * The process tables of internal/sys/process

    The parsers of /proc files (process.go, wchan.go), the process tree around a
    target (tree.go), the filtered list of processes and the aggregation of thread
    wait channels. The contents of /proc files, the user database and
    [strconv.ParseFloat] are parameters; the nodes of a tree are a store by pid,
    shared through the child pointers. *)

From Stdlib Require Import Ascii.
From stdpp Require Import base numbers gmap strings sorting list.
From S2P Require Import Prelude GoStrings GoFloat GoNet.

Open Scope Z_scope.

(** ** Bytes *)

(** [bytes.LastIndexByte] *)
Fixpoint LastIndexByte (s : gostring) (c : ascii) : option nat :=
  match s with
  | [] => None
  | x :: s =>
      match LastIndexByte s c with
      | Some i => Some (S i)
      | None => if decide (x = c) then Some 0%nat else None
      end
  end.

(** [data[pos : pos+end]] for the first [sep] at or after [pos], or for the rest
    of the data; [s] is [data[pos:]]. *)
Definition upto (sep : ascii) (s : gostring) : gostring :=
  match strings_IndexByte s sep with Some i => take i s | None => s end.

(** The capacity of a pooled buffer: a file is read by one [Read] call. *)
Definition procBufSize : nat := 8192.

Definition readFileBuffered (content : option gostring) : outcome gostring :=
  match content with
  | Some data => Ret (take procBufSize data)
  | None => Err (Errorf "open")
  end.

(** ** process.go: the parsers *)

Record procStat := MkProcStat {
  ps_utime : Z;
  ps_stime : Z;
  ps_state : gostring;
  ps_name : gostring;
  ps_ppid : Z
}.

(** Bytes that are no digits are skipped; the value wraps. *)
Definition parseUintBytes (b : gostring) : Z :=
  foldl (λ n c, if is_digit c then u64 (n * 10 + digit_val c) else n) 0 b.

Definition parseState (b : gostring) : gostring :=
  match b with
  | [] => []
  | c :: _ =>
      if decide (c ∈ ["S"; "R"; "I"; "Z"; "D"; "T"; "t"]%char) then [c]
      else if decide (c ∈ ["X"; "x"]%char) then ["X"%char]
      else b
  end.

(** The loop over the fields behind the name: [rest] is [data[pos:]]. Every turn
    drops at least one byte. *)
Fixpoint stat_loop (fuel : nat) (fieldIdx : nat) (rest : gostring) (st : procStat) : procStat :=
  match fuel, rest with
  | O, _ | _, [] => st
  | S fuel, _ =>
      let field := upto " " rest in
      let rest := drop (S (length field)) rest in
      match fieldIdx with
      | 2%nat => stat_loop fuel (S fieldIdx) rest
               (MkProcStat (ps_utime st) (ps_stime st) (parseState field) (ps_name st) (ps_ppid st))
      | 3%nat => stat_loop fuel (S fieldIdx) rest
               (MkProcStat (ps_utime st) (ps_stime st) (ps_state st) (ps_name st) (i64 (parseUintBytes field)))
      | 13%nat => stat_loop fuel (S fieldIdx) rest
                (MkProcStat (parseUintBytes field) (ps_stime st) (ps_state st) (ps_name st) (ps_ppid st))
      | 14%nat => MkProcStat (ps_utime st) (parseUintBytes field) (ps_state st) (ps_name st) (ps_ppid st)
      | _ => stat_loop fuel (S fieldIdx) rest st
      end
  end.

Definition readStat (content : option gostring) : outcome procStat :=
  data ← readFileBuffered content;
  match LastIndexByte data ")" with
  | None => Err (Errorf "invalid stat format")
  | Some rparen =>
      let start := match strings_IndexByte data "(" with Some i => S i | None => 0%nat end in
      if (rparen <? start)%nat then Panic
      else
        let name := take (rparen - start) (drop start data) in
        Ret (stat_loop (length data) 2 (drop (rparen + 2) data) (MkProcStat 0 0 [] name 0))
  end.

Definition tab : ascii := ascii_of_N 9.

Definition is_blank (c : ascii) : bool := bool_decide (c = tab ∨ c = " "%char).

Fixpoint skip_while (p : ascii → bool) (s : gostring) : gostring :=
  match s with
  | c :: s' => if p c then skip_while p s' else s
  | [] => []
  end.

Fixpoint take_while (p : ascii → bool) (s : gostring) : gostring :=
  match s with
  | c :: s' => if p c then c :: take_while p s' else []
  | [] => []
  end.

(** The value [line[valStart:valEnd]] behind a prefix. *)
Definition status_value (line : gostring) : gostring :=
  take_while (λ c, negb (is_blank c)) (skip_while is_blank line).

Definition uidPrefix : gostring := go "Uid:" ++ [tab].
Definition vmRSSPrefix : gostring := go "VmRSS:" ++ [tab].

(** The loop of [readStatus]: uid and memory as found so far. *)
Fixpoint status_loop (fuel : nat) (rest : gostring) (uid vmRSS : option Z) : Z * Z :=
  match fuel, rest with
  | O, _ | _, [] => (default 0 uid, default 0 vmRSS)
  | S fuel, _ =>
      let line := upto newline rest in
      let '(uid, vmRSS) :=
        if strings_HasPrefix line uidPrefix then
          match status_value (drop (length uidPrefix) line) with
          | [] => (uid, vmRSS)
          | v => (Some (i64 (parseUintBytes v)), vmRSS)
          end
        else if strings_HasPrefix line vmRSSPrefix then
          match status_value (drop (length vmRSSPrefix) line) with
          | [] => (uid, vmRSS)
          | v => (uid, Some (u64 (parseUintBytes v * 1024)))
          end
        else (uid, vmRSS) in
      match uid, vmRSS with
      | Some u, Some m => (u, m)
      | _, _ => status_loop fuel (drop (S (length line)) rest) uid vmRSS
      end
  end.

Definition readStatus (content : option gostring) : outcome (Z * Z) :=
  data ← readFileBuffered content;
  Ret (status_loop (length data) data None None).

Definition nul : ascii := ascii_of_N 0.

Definition readCmdline (content : option gostring) : outcome gostring :=
  data ← readFileBuffered content;
  match data with
  | [] => Err (Errorf "empty cmdline")
  | _ => Ret (strings_TrimSpace (map (λ b, if decide (b = nul) then " "%char else b) data))
  end.

(** The pids among the names of a directory; [name[0]] of an empty name panics. *)
Definition getPIDs (names : list gostring) : outcome (list Z) :=
  foldM_go (λ pids name,
    match name with
    | [] => Panic
    | c :: _ =>
        if is_digit c then
          match strconv_Atoi name with Ret pid => Ret (pids ++ [pid]) | _ => Ret pids end
        else Ret pids
    end) [] names.

(** [user.LookupId] behind a cache. *)
Definition getUsername (lookupId : Z → option gostring) (uid : Z) (cache : gmap Z gostring)
    : gostring * gmap Z gostring :=
  match cache !! uid with
  | Some name => (name, cache)
  | None =>
      let name := default (strconv_Itoa uid) (lookupId uid) in (name, <[uid := name]> cache)
  end.

(** ** wchan.go *)

Record SystemSummary := MkSystemSummary {
  ss_TotalThreads : Z;
  ss_BlockedThreads : Z;
  ss_KernelThreads : Z
}.

Record WchanProcessDetails := MkWchanProcessDetails {
  wp_Count : Z;
  wp_ExamplePids : list Z;
  wp_OmittedPids : Z
}.

Record WchanDetails := MkWchanDetails {
  wd_TotalThreads : Z;
  wd_AffectedProcesses : gmap gostring WchanProcessDetails
}.

Record ThreadDetail := MkThreadDetail {
  td_TID : Z;
  td_Comm : gostring;
  td_Wchan : gostring;
  td_State : gostring
}.

Record ThreadWchanResult := MkThreadWchanResult {
  tw_SystemSummary : SystemSummary;
  tw_ThreadStates : gmap gostring Z;
  tw_BlockedWchan : gmap gostring WchanDetails;
  tw_Threads : list ThreadDetail
}.

Record threadResult := MkThreadResult {
  tr_wchan : gostring;
  tr_state : gostring;
  tr_comm : gostring;
  tr_tid : Z;
  tr_isKthread : bool
}.

(** The common names are returned as constants. *)
Definition parseWchan (b : gostring) : gostring :=
  let b := strings_TrimSpace b in
  if decide (b = []) then []
  else if decide (b = go "0") then go "0"
  else if decide (b = go "do_epoll_wait") then go "do_epoll_wait"
  else if decide (b = go "do_sys_poll") then go "do_sys_poll"
  else if decide (b = go "hrtimer_nanosleep") then go "hrtimer_nanosleep"
  else if decide (b = go "futex_wait_queue_me") then go "futex_wait_queue_me"
  else if decide (b = go "ep_poll") then go "ep_poll"
  else if decide (b = go "poll_schedule_timeout") then go "poll_schedule_timeout"
  else b.

Definition statePrefix : gostring := go "State:" ++ [tab].

Definition state_name (val : gostring) : gostring :=
  match val with
  | "S"%char :: _ => go "S (sleeping)"
  | "R"%char :: _ => go "R (running)"
  | "I"%char :: _ => go "I (idle)"
  | "Z"%char :: _ => go "Z (zombie)"
  | "D"%char :: _ => go "D (disk sleep)"
  | "T"%char :: _ => go "T (stopped)"
  | "t"%char :: _ => go "t (tracing stop)"
  | "X"%char :: _ | "x"%char :: _ => go "X (dead)"
  | _ => val
  end.

Fixpoint state_loop (fuel : nat) (rest : gostring) : gostring :=
  match fuel, rest with
  | O, _ | _, [] => []
  | S fuel, _ =>
      let line := upto newline rest in
      if strings_HasPrefix line statePrefix then state_name (drop (length statePrefix) line)
      else state_loop fuel (drop (S (length line)) rest)
  end.

Definition parseStateFromStatus (data : gostring) : gostring := state_loop (length data) data.

(** What a worker makes of a task: nothing when the thread is gone. *)
Definition read_thread (wchan status comm : option gostring) (tid : Z) (isKthread : bool) : option threadResult :=
  let text f content := match readFileBuffered content with Ret data => f data | _ => [] end in
  let state := text parseStateFromStatus status in
  if decide (state = []) then None
  else Some (MkThreadResult (text parseWchan wchan) state (text strings_TrimSpace comm) tid isKthread).

Definition is_kthread (stat : outcome procStat) : bool :=
  match stat with Ret st => ps_ppid st =? 2 | _ => false end.

Definition kthread_mark : gostring := go "[kthread] ".

Definition is_blocked (res : threadResult) : bool :=
  negb (bool_decide (tr_wchan res = [])) && negb (bool_decide (tr_wchan res = go "0")).

(** A kernel thread's state and wait channel are marked. *)
Definition mark_kthread (res : threadResult) : threadResult :=
  if tr_isKthread res then
    MkThreadResult (if is_blocked res then kthread_mark ++ tr_wchan res else tr_wchan res)
      (kthread_mark ++ tr_state res) (tr_comm res) (tr_tid res) true
  else res.

Definition incr (m : gmap gostring Z) (k : gostring) : gmap gostring Z :=
  <[k := i64 (default 0 (m !! k) + 1)]> m.

Definition add_example (d : WchanProcessDetails) (tid : Z) : WchanProcessDetails :=
  if (length (wp_ExamplePids d) <? 15)%nat
  then MkWchanProcessDetails (i64 (wp_Count d + 1)) (wp_ExamplePids d ++ [tid]) (wp_OmittedPids d)
  else MkWchanProcessDetails (i64 (wp_Count d + 1)) (wp_ExamplePids d) (i64 (wp_OmittedPids d + 1)).

Definition add_blocked (m : gmap gostring WchanDetails) (res : threadResult) : gmap gostring WchanDetails :=
  let wDetails := default (MkWchanDetails 0 ∅) (m !! tr_wchan res) in
  let procDetails := default (MkWchanProcessDetails 0 [] 0) (wd_AffectedProcesses wDetails !! tr_comm res) in
  <[tr_wchan res := MkWchanDetails (i64 (wd_TotalThreads wDetails + 1))
      (<[tr_comm res := add_example procDetails (tr_tid res)]> (wd_AffectedProcesses wDetails))]> m.

(** The body of the loop over the results. *)
Definition wchan_step (isMode1 : bool) (r : ThreadWchanResult) (res : threadResult) : ThreadWchanResult :=
  let s := tw_SystemSummary r in
  let kernel := if tr_isKthread res then i64 (ss_KernelThreads s + 1) else ss_KernelThreads s in
  let res := mark_kthread res in
  let blocked := if is_blocked res then i64 (ss_BlockedThreads s + 1) else ss_BlockedThreads s in
  let s := MkSystemSummary (i64 (ss_TotalThreads s + 1)) blocked kernel in
  if isMode1 then
    MkThreadWchanResult s (incr (tw_ThreadStates r) (tr_state res))
      (if is_blocked res then add_blocked (tw_BlockedWchan r) res else tw_BlockedWchan r) (tw_Threads r)
  else
    MkThreadWchanResult s (tw_ThreadStates r) (tw_BlockedWchan r)
      (tw_Threads r ++ [MkThreadDetail (tr_tid res) (tr_comm res) (tr_wchan res) (tr_state res)]).

(** [results] is what the workers send, in the order it arrives. *)
Definition GetThreadWchan (cancelled isMode1 : bool) (results : list threadResult) : outcome ThreadWchanResult :=
  let r := foldl (wchan_step isMode1) (MkThreadWchanResult (MkSystemSummary 0 0 0) ∅ ∅ []) results in
  if cancelled then Err (Errorf "context canceled") else Ret r.

(** ** tree.go: the store of nodes *)

(** A node of the tree; its children are pids of the store. *)
Record ProcessTreeNode := MkProcessTreeNode {
  tn_PID : Z;
  tn_PPID : Z;
  tn_UID : Z;
  tn_User : gostring;
  tn_Name : gostring;
  tn_State : gostring;
  tn_Cmdline : option gostring;
  tn_CPUPercent : float64;
  tn_MemoryBytes : Z;
  tn_Children : list Z
}.

Definition set_children (n : ProcessTreeNode) (children : list Z) : ProcessTreeNode :=
  MkProcessTreeNode (tn_PID n) (tn_PPID n) (tn_UID n) (tn_User n) (tn_Name n) (tn_State n)
    (tn_Cmdline n) (tn_CPUPercent n) (tn_MemoryBytes n) children.

Abbreviation node_store := (gmap Z ProcessTreeNode).

(** ** Samples *)

(** What the reads of one pass over /proc return. *)
Record snapshot := MkSnapshot {
  sn_uptime : option gostring;
  sn_stat : Z → option gostring;
  sn_status : Z → option gostring;
  sn_cmdline : Z → option gostring
}.

(** Ranging over a map keyed by pid. *)
Class PidRange := {
  range_pids : ∀ {V : Type}, gmap Z V → list (Z * V);
  range_pids_perm : ∀ {V : Type} (m : gmap Z V), range_pids m ≡ₚ map_to_list m
}.

Section sampling.
Context (ParseFloat : gostring → outcome float64) (lookupId : Z → option gostring).
Context `{PidRange} `{GoSort}.

Definition readUptime (content : option gostring) : outcome float64 :=
  data ← readFileBuffered content;
  match strings_IndexByte data " " with
  | None => Err (Errorf "invalid /proc/uptime format")
  | Some idx => ParseFloat (take idx data)
  end.

(** The stats of the first pass; a pid whose stat cannot be read is left out. *)
Definition first_stats (s : snapshot) (pids : list Z) : outcome (gmap Z procStat) :=
  foldM_go (λ stats pid,
    match readStat (sn_stat s pid) with
    | Ret stat => Ret (<[pid := stat]> stats)
    | Err _ => Ret stats
    | Panic => Panic
    | Diverge => Diverge
    end) ∅ pids.

Definition userHZ : float64 := f64_of_Z 100.

Definition cpu_percent (stat1 stat2 : procStat) (deltaUptime : float64) : float64 :=
  let processTimeDelta :=
    f64_of_Z (u64 (u64 (ps_utime stat2 - ps_utime stat1) + u64 (ps_stime stat2 - ps_stime stat1))) in
  f64_div (f64_mul (f64_of_Z 100) (f64_div processTimeDelta userHZ)) deltaUptime.

(** [deltaUptime], kept positive. *)
Definition uptime_delta (uptime1 uptime2 : float64) : float64 :=
  let deltaUptime := f64_sub uptime2 uptime1 in
  if f64_leb deltaUptime (f64_of_Z 0) then f64_ratio 1 1000 else deltaUptime.

(** ** process.go: GetList *)

Record Process := MkProcess {
  pr_PID : Z;
  pr_UID : Z;
  pr_User : gostring;
  pr_Name : gostring;
  pr_State : gostring;
  pr_Cmdline : option gostring;
  pr_CPUPercent : float64;
  pr_MemoryBytes : Z
}.

(** A regular expression is what it matches. *)
Record FilterOptions := MkFilterOptions {
  fo_SortBy : gostring;
  fo_Limit : Z;
  fo_UserRegex : option (gostring → bool);
  fo_NameRegex : option (gostring → bool);
  fo_StateRegex : option (gostring → bool);
  fo_CmdlineRegex : option (gostring → bool)
}.

Definition regex_ok (re : option (gostring → bool)) (s : gostring) : bool :=
  match re with Some f => f s | None => true end.

(** The body of the loop over the first stats. *)
Definition sample_process (second : snapshot) (opts : FilterOptions) (deltaUptime : float64)
    (acc : list Process * gmap Z gostring) (entry : Z * procStat) : outcome (list Process * gmap Z gostring) :=
  let '(results, userCache) := acc in
  let '(pid, stat1) := entry in
  match readStat (sn_stat second pid) with
  | Panic => Panic
  | Diverge => Diverge
  | Err _ => Ret acc
  | Ret stat2 =>
      match readStatus (sn_status second pid) with
      | Ret (uid, vmRSS) =>
          let cpuPercent := cpu_percent stat1 stat2 deltaUptime in
          let '(username, userCache) := getUsername lookupId uid userCache in
          if negb (regex_ok (fo_UserRegex opts) username) then Ret (results, userCache)
          else if negb (regex_ok (fo_NameRegex opts) (ps_name stat2)) then Ret (results, userCache)
          else if negb (regex_ok (fo_StateRegex opts) (ps_state stat2)) then Ret (results, userCache)
          else
            let cmdline := match readCmdline (sn_cmdline second pid) with Ret c => Some c | _ => None end in
            let keep := match fo_CmdlineRegex opts with
                        | Some re => match cmdline with Some c => re c | None => false end
                        | None => true
                        end in
            if negb keep then Ret (results, userCache)
            else Ret (results ++ [MkProcess pid uid username (ps_name stat2) (ps_state stat2) cmdline
                                    cpuPercent vmRSS], userCache)
      | _ => Ret acc
      end
  end.

Definition process_less (opts : FilterOptions) (a b : Process) : bool :=
  if decide (fo_SortBy opts = go "memory") then pr_MemoryBytes b <? pr_MemoryBytes a
  else f64_ltb (pr_CPUPercent b) (pr_CPUPercent a).

(** [pids] is the listing of /proc; [cancelled] is the context ending before the
    second sample. *)
Definition GetList (first second : snapshot) (pids : list Z) (cancelled : bool) (opts : FilterOptions)
    : outcome (list Process) :=
  uptime1 ← wrap_err "failed to read uptime: %w" (readUptime (sn_uptime first));
  stats1 ← first_stats first pids;
  if cancelled then Err (Errorf "context canceled")
  else
    uptime2 ← wrap_err "failed to read uptime: %w" (readUptime (sn_uptime second));
    '(results, _) ← foldM_go (sample_process second opts (uptime_delta uptime1 uptime2)) ([], ∅) (range_pids stats1);
    let results := sort_slice (process_less opts) results in
    Ret (if (0 <? fo_Limit opts) && (fo_Limit opts <? Z.of_nat (length results))
         then take (Z.to_nat (fo_Limit opts)) results else results).

(** ** tree.go: GetTree *)

Definition sample_node (second : snapshot) (deltaUptime : float64)
    (acc : node_store * gmap Z gostring) (entry : Z * procStat) : outcome (node_store * gmap Z gostring) :=
  let '(nodes, userCache) := acc in
  let '(pid, stat1) := entry in
  match readStat (sn_stat second pid) with
  | Panic => Panic
  | Diverge => Diverge
  | Err _ => Ret acc
  | Ret stat2 =>
      match readStatus (sn_status second pid) with
      | Ret (uid, vmRSS) =>
          let '(username, userCache) := getUsername lookupId uid userCache in
          let cmdline := match readCmdline (sn_cmdline second pid) with Ret c => Some c | _ => None end in
          Ret (<[pid := MkProcessTreeNode pid (ps_ppid stat2) uid username (ps_name stat2) (ps_state stat2)
                          cmdline (cpu_percent stat1 stat2 deltaUptime) vmRSS []]> nodes, userCache)
      | _ => Ret acc
      end
  end.

(** A process with no parent to link to. *)
Definition is_top (n : ProcessTreeNode) : bool := (tn_PID n =? 1) || (tn_PPID n =? 0).

(** One turn of the loop that links children to parents. *)
Definition link_child (nodes : node_store) (entry : Z * ProcessTreeNode) : node_store :=
  let node := entry.2 in
  if is_top node then nodes
  else alter (λ parent, set_children parent (tn_Children parent ++ [tn_PID node])) (tn_PPID node) nodes.

Definition link_children (nodes : node_store) : node_store :=
  foldl link_child nodes (range_pids nodes).

(** The upward loop: the pids visited, in order, and the last one. *)
Fixpoint climb (fuel : nat) (nodes : node_store) (curr : Z) : option (list Z * Z) :=
  match fuel with
  | O => None
  | S fuel =>
      match nodes !! curr with
      | None => Some ([curr], curr)
      | Some currNode =>
          if is_top currNode then Some ([curr], curr)
          else '(path, last) ← climb fuel nodes (tn_PPID currNode); Some (curr :: path, last)
      end
  end.

(** One turn of the pruning loop; the node of a pid that is not there is nil. *)
Definition prune (targetPID : Z) (pathNodes : gset Z) (nodes : node_store) (pid : Z) : outcome node_store :=
  if decide (pid = targetPID) then Ret nodes
  else
    match nodes !! pid with
    | None => Panic
    | Some node =>
        Ret (<[pid := set_children node
                 (match list_find (λ c, c ∈ pathNodes) (tn_Children node) with
                  | Some (_, nextInLineage) => [nextInLineage]
                  | None => []
                  end)]> nodes)
    end.

(** Everything after the samples. A climb that has not ended after one step per
    process never ends. *)
Definition tree_around (nodes : node_store) (targetPID : Z) : outcome (Z * node_store) :=
  let nodes := link_children nodes in
  match nodes !! targetPID with
  | None => Err (Errorf "target PID %d not found")
  | Some _ =>
      match climb (S (size nodes)) nodes targetPID with
      | None => Diverge
      | Some (path, curr) =>
          let pathNodes : gset Z := list_to_set path in
          nodes ← foldM_go (prune targetPID pathNodes) nodes
            (map fst (range_pids (set_to_map (λ pid, (pid, true)) pathNodes)));
          Ret (match nodes !! curr with Some _ => curr | None => targetPID end, nodes)
      end
  end.

(** The nodes of both samples, before they are linked. *)
Definition sample_nodes (first second : snapshot) (pids : list Z) (cancelled : bool) : outcome node_store :=
  uptime1 ← wrap_err "failed to read uptime: %w" (readUptime (sn_uptime first));
  stats1 ← first_stats first pids;
  if cancelled then Err (Errorf "context canceled")
  else
    uptime2 ← wrap_err "failed to read uptime: %w" (readUptime (sn_uptime second));
    '(nodes, _) ← foldM_go (sample_node second (uptime_delta uptime1 uptime2)) (∅, ∅) (range_pids stats1);
    Ret nodes.

Definition GetTree (first second : snapshot) (pids : list Z) (cancelled : bool) (targetPID : Z)
    : outcome (Z * node_store) :=
  nodes ← sample_nodes first second pids cancelled; tree_around nodes targetPID.

End sampling.

#[local] Arguments readFileBuffered : simpl never.

(** ** Lemmas: parsers *)

Lemma LastIndexByte_app s c s' : c ∉ s' → LastIndexByte (s ++ c :: s') c = Some (length s).
Proof.
  intros Hc. assert (LastIndexByte s' c = None) as Hn.
  { induction s' as [|x s' IH]; [done|]. apply not_elem_of_cons in Hc as [Hx Hc]. simpl. rewrite IH by done.
    by rewrite decide_False by congruence. }
  induction s as [|x s IH]; simpl.
  - by rewrite Hn, decide_True.
  - by rewrite IH.
Qed.

Lemma upto_app sep f rest : sep ∉ f → upto sep (f ++ sep :: rest) = f.
Proof. intros Hf. unfold upto. rewrite IndexByte_app by done. apply take_app_length. Qed.

Lemma upto_all sep f : sep ∉ f → upto sep f = f.
Proof. intros Hf. unfold upto. by rewrite (proj2 (IndexByte_None f sep)). Qed.

Lemma parseUintBytes_digits s acc n :
  Forall (λ c, is_digit c = true) s → atoi_digits acc s = Some n →
  foldl (λ n c, if is_digit c then u64 (n * 10 + digit_val c) else n) (u64 acc) s = u64 n.
Proof.
  revert acc. induction s as [|c s IH]; intros acc Hs Hn; simpl in *; [by simplify_eq|].
  apply Forall_cons in Hs as [Hc Hs]. rewrite Hc in *. rewrite <-(IH (acc * 10 + digit_val c)); [|done|done].
  f_equal. unfold u64. by rewrite Zplus_mod, Zmult_mod, Zmod_mod, <-Zmult_mod, <-Zplus_mod.
Qed.

Lemma parseUintBytes_udec n : 0 ≤ n < 2 ^ 64 → parseUintBytes (udec n) = n.
Proof.
  intros Hn. destruct (udec_spec n) as (_ & Hall & Hval & _); [lia|].
  unfold parseUintBytes. change 0 with (u64 0). erewrite parseUintBytes_digits; [|done|apply Hval].
  unfold u64. rewrite Z.mod_small; lia.
Qed.

(** One field of the loop. *)
Lemma stat_loop_field fuel idx f rest st :
  " "%char ∉ f →
  stat_loop (S fuel) idx (f ++ " "%char :: rest) st =
  match idx with
  | 2%nat => stat_loop fuel 3 rest (MkProcStat (ps_utime st) (ps_stime st) (parseState f) (ps_name st) (ps_ppid st))
  | 3%nat => stat_loop fuel 4 rest
      (MkProcStat (ps_utime st) (ps_stime st) (ps_state st) (ps_name st) (i64 (parseUintBytes f)))
  | 13%nat => stat_loop fuel 14 rest
      (MkProcStat (parseUintBytes f) (ps_stime st) (ps_state st) (ps_name st) (ps_ppid st))
  | 14%nat => MkProcStat (ps_utime st) (parseUintBytes f) (ps_state st) (ps_name st) (ps_ppid st)
  | _ => stat_loop fuel (S idx) rest st
  end.
Proof.
  intros Hf. cbn [stat_loop]. rewrite upto_app by done.
  assert (drop (S (length f)) (f ++ " "%char :: rest) = rest) as ->.
  { rewrite (cons_middle " "%char f rest), (assoc_L (++)), drop_app_length'; [done|]. rewrite length_app. simpl. lia. }
  destruct (f ++ " "%char :: rest) eqn:E; [by destruct f|].
  destruct idx as [|[|[|[|[|[|[|[|[|[|[|[|[|[|[|]]]]]]]]]]]]]]]; done.
Qed.

Lemma stat_loop_skip mid fuel idx rest st :
  Forall (λ f, " "%char ∉ f) mid → (4 ≤ idx)%nat → (idx + length mid ≤ 13)%nat →
  stat_loop (length mid + fuel) idx ((mid ≫= λ f, f ++ [" "%char]) ++ rest) st =
  stat_loop fuel (idx + length mid) rest st.
Proof.
  revert idx. induction mid as [|f mid IH]; intros idx Hmid H4 H13; [by rewrite Nat.add_0_r|].
  apply Forall_cons in Hmid as [Hf Hmid]. cbn [mbind list_bind length] in *.
  rewrite <-!(assoc_L (++)). cbn [app Nat.add]. rewrite stat_loop_field by done.
  replace (idx + S (length mid))%nat with (S idx + length mid)%nat by lia.
  rewrite <-IH by (done || lia).
  destruct idx as [|[|[|[|[|[|[|[|[|[|[|[|[|]]]]]]]]]]]]]; (done || lia).
Qed.

(** The name stands between the first opening and the last closing parenthesis. *)
Lemma readStat_parens (p name fields : gostring)
  (Hp : "("%char ∉ p) (Hf : ")"%char ∉ fields)
  (Hfit : (length (p ++ "("%char :: name ++ ")"%char :: " "%char :: fields) ≤ procBufSize)%nat) :
  let data := p ++ "("%char :: name ++ ")"%char :: " "%char :: fields in
  readStat (Some data) = Ret (stat_loop (length data) 2 fields (MkProcStat 0 0 [] name 0)).
Proof.
  cbn zeta. unfold readStat, readFileBuffered. rewrite take_ge by done. cbn [mbind outcome_bind].
  rewrite IndexByte_app by done.
  assert (p ++ "("%char :: name ++ ")"%char :: " "%char :: fields =
    (p ++ "("%char :: name) ++ ")"%char :: " "%char :: fields) as -> by by rewrite <-(assoc_L (++)).
  set (before := p ++ "("%char :: name).
  assert (length before = S (length p) + length name)%nat as Hlen by (unfold before; rewrite length_app; simpl; lia).
  rewrite LastIndexByte_app by (rewrite not_elem_of_cons; split; done).
  rewrite (proj2 (Nat.ltb_ge _ _)) by lia.
  assert (drop (S (length p)) (before ++ ")"%char :: " "%char :: fields) = name ++ ")"%char :: " "%char :: fields) as ->.
  { unfold before. rewrite <-(assoc_L (++)), drop_app_ge by lia.
    by replace (S (length p) - length p)%nat with 1%nat by lia. }
  replace (length before - S (length p))%nat with (length name) by lia. rewrite take_app_length.
  rewrite drop_app_ge by lia. by replace (length before + 2 - length before)%nat with 2%nat by lia.
Qed.

(** The fields from the state on: nine stand between the parent and the times. *)
Definition stat_fields (state : gostring) (ppid : Z) (mid : list gostring) (utime stime : Z)
    (tail : gostring) : gostring :=
  state ++ " "%char :: udec ppid ++ " "%char ::
  (mid ≫= λ f, f ++ [" "%char]) ++ udec utime ++ " "%char :: udec stime ++ tail.

Lemma stat_loop_fields (fuel : nat) (name state : gostring) (ppid : Z) (mid : list gostring)
  (utime stime : Z) (tail : gostring)
  (Hppid : 0 ≤ ppid ≤ MaxInt64) (Hu : 0 ≤ utime < 2 ^ 64) (Hs : 0 ≤ stime < 2 ^ 64)
  (Hst : " "%char ∉ state) (Hm : Forall (λ f, " "%char ∉ f) mid) (Hmid : length mid = 9%nat)
  (Hsep : tail = [] ∨ ∃ t, tail = " "%char :: t) :
  stat_loop (13 + fuel) 2 (stat_fields state ppid mid utime stime tail) (MkProcStat 0 0 [] name 0) =
  MkProcStat utime stime (parseState state) name ppid.
Proof.
  assert (" "%char ∉ udec ppid ∧ " "%char ∉ udec utime ∧ " "%char ∉ udec stime) as (Hb1 & Hb2 & Hb3)
    by (split_and!; apply udec_not_in; (done || lia)).
  change (13 + fuel)%nat with (S (S (9 + S (S fuel)))). rewrite <-Hmid. unfold stat_fields.
  rewrite stat_loop_field by done. rewrite stat_loop_field by done.
  rewrite stat_loop_skip by (done || rewrite ?Hmid; lia). rewrite Hmid. cbn [Nat.add]. rewrite stat_loop_field by done.
  cbn [ps_utime ps_stime ps_state ps_name ps_ppid].
  rewrite !parseUintBytes_udec, i64_id by (i64_lia || lia).
  destruct Hsep as [->|(t & ->)].
  - rewrite app_nil_r. cbn [stat_loop]. rewrite upto_all by done. rewrite parseUintBytes_udec by done.
    destruct (udec_spec stime) as (Hne & _); [lia|]. by destruct (udec stime).
  - rewrite stat_loop_field by done. cbn [ps_utime ps_state ps_name ps_ppid]. by rewrite parseUintBytes_udec.
Qed.

Lemma stat_fields_paren (state : gostring) (ppid : Z) (mid : list gostring) (utime stime : Z) (tail : gostring) :
  0 ≤ ppid → 0 ≤ utime → 0 ≤ stime → Forall (λ f, ")"%char ∉ f) (state :: mid) → ")"%char ∉ tail →
  ")"%char ∉ stat_fields state ppid mid utime stime tail.
Proof.
  intros Hp Hu Hs [Hst Hm]%Forall_cons Ht. unfold stat_fields.
  repeat (rewrite not_elem_of_app || rewrite not_elem_of_cons).
  split_and!; try done; try (apply udec_not_in; (done || lia)).
  intros (f & Hin & Hf)%list_elem_of_bind. rewrite Forall_forall in Hm.
  apply elem_of_app in Hin as [Hin|Hin%list_elem_of_singleton]; [|done]. by apply (Hm f Hf).
Qed.

Lemma length_stat_fields (state : gostring) (ppid : Z) (mid : list gostring) (utime stime : Z) (tail : gostring) :
  (length mid + 3 ≤ length (stat_fields state ppid mid utime stime tail))%nat.
Proof.
  unfold stat_fields. rewrite !length_app, !length_cons, !length_app, !length_cons, !length_app, !length_cons.
  assert (length mid ≤ length (mid ≫= λ f, f ++ [" "%char]))%nat; [|lia].
  induction mid as [|f mid IH]; [done|]. cbn [mbind list_bind length]. rewrite !length_app. simpl. lia.
Qed.

(** A line of /proc/<pid>/stat; [tail] is what follows the system time. *)
Definition stat_line (pid : Z) (name state : gostring) (ppid : Z) (mid : list gostring)
    (utime stime : Z) (tail : gostring) : gostring :=
  udec pid ++ go " (" ++ name ++ go ") " ++ stat_fields state ppid mid utime stime tail.

(** Reading a process's stat. Whatever the process's name holds (spaces and
    parentheses included), [readStat] of a well-formed line that fits the buffer
    returns the name, the state letter, the parent and the two CPU times. *)
Theorem readStat_line (pid : Z) (name state : gostring) (ppid : Z) (mid : list gostring)
  (utime stime : Z) (tail : gostring)
  (Hpid : 0 ≤ pid) (Hppid : 0 ≤ ppid ≤ MaxInt64) (Hu : 0 ≤ utime < 2 ^ 64) (Hs : 0 ≤ stime < 2 ^ 64)
  (Hstate : Forall (λ f, " "%char ∉ f ∧ ")"%char ∉ f) (state :: mid)) (Hmid : length mid = 9%nat)
  (Htail : ")"%char ∉ tail) (Hsep : tail = [] ∨ ∃ t, tail = " "%char :: t)
  (Hfit : (length (stat_line pid name state ppid mid utime stime tail) ≤ procBufSize)%nat) :
  readStat (Some (stat_line pid name state ppid mid utime stime tail)) =
  Ret (MkProcStat utime stime (parseState state) name ppid).
Proof.
  assert (stat_line pid name state ppid mid utime stime tail =
    (udec pid ++ [" "%char]) ++ "("%char :: name ++ ")"%char :: " "%char :: stat_fields state ppid mid utime stime tail) as Hline.
  { unfold stat_line. simpl. by rewrite <-!(assoc_L (++)). }
  rewrite Hline in *. assert (Forall (λ f, " "%char ∉ f) (state :: mid)) as [Hst Hm]%Forall_cons
    by (eapply Forall_impl; [exact Hstate|by intros ? []]).
  rewrite readStat_parens; [|rewrite not_elem_of_app; split; [by apply udec_not_in|set_solver]
    |apply stat_fields_paren; try (done || lia); (eapply Forall_impl; [exact Hstate|by intros ? []])|done].
  pose proof (length_stat_fields state ppid mid utime stime tail) as Hl. rewrite !length_app, !length_cons, !length_app.
  rewrite !length_cons. f_equal.
  match goal with |- stat_loop ?n _ _ _ = _ => replace n with (13 + (n - 13))%nat by (simpl; lia) end.
  by apply stat_loop_fields.
Qed.

(** ** Lemmas: the tree *)

(** The pid the upward loop goes to next. *)
Definition parent (nodes : node_store) (pid : Z) : option Z :=
  n ← nodes !! pid; if is_top n then None else Some (tn_PPID n).

(** The upward loop from [pid] visits [path] and stops at [root]. *)
Inductive chain (nodes : node_store) : Z → list Z → Z → Prop :=
| chain_end p : parent nodes p = None → chain nodes p [p] p
| chain_up p q path r : parent nodes p = Some q → chain nodes q path r → chain nodes p (p :: path) r.

(** The store as the samples leave it: keyed by pid, not linked yet. *)
Definition unlinked (nodes : node_store) : Prop :=
  map_Forall (λ pid n, tn_PID n = pid ∧ tn_Children n = []) nodes.

Lemma climb_eq fuel nodes p :
  climb (S fuel) nodes p =
  match parent nodes p with
  | None => Some ([p], p)
  | Some q => '(path, last) ← climb fuel nodes q; Some (p :: path, last)
  end.
Proof. unfold parent. simpl. destruct (nodes !! p) as [n|]; simpl; [|done]. by destruct (is_top n). Qed.

Lemma climb_chain fuel nodes p path r : climb fuel nodes p = Some (path, r) → chain nodes p path r.
Proof.
  revert p path r. induction fuel as [|fuel IH]; intros p path r; [done|]. rewrite climb_eq.
  destruct (parent nodes p) as [q|] eqn:Hq.
  - destruct (climb fuel nodes q) as [[path' r']|] eqn:E; simpl; [|done]. intros [= <- <-].
    econstructor; [done|]. by apply IH.
  - intros [= <- <-]. by constructor.
Qed.

Lemma chain_climb fuel nodes p path r :
  chain nodes p path r → (length path ≤ fuel)%nat → climb fuel nodes p = Some (path, r).
Proof.
  intros Hc. revert fuel. induction Hc as [p Hp|p q path r Hp Hc IH]; intros [|fuel] Hf; simpl in Hf; try lia.
  - by rewrite climb_eq, Hp.
  - rewrite climb_eq, Hp, IH by lia. done.
Qed.

Lemma chain_det nodes p path r path' r' :
  chain nodes p path r → chain nodes p path' r' → path = path' ∧ r = r'.
Proof.
  intros Hc. revert path' r'. induction Hc as [p Hp|p q path r Hp Hc IH]; intros path' r' Hc'; inversion Hc'; simplify_eq.
  - done.
  - edestruct IH as [-> ->]; done.
Qed.

(** Any pid on the way starts the rest of the way. *)
Lemma chain_from nodes p path r x :
  chain nodes p path r → x ∈ path → ∃ path', chain nodes x path' r ∧ path' `suffix_of` path.
Proof.
  intros Hc Hx. induction Hc as [p Hp|p q path r Hp Hc IH].
  - apply list_elem_of_singleton in Hx as ->. exists [p]. split; [by constructor|done].
  - apply elem_of_cons in Hx as [->|Hx]; [exists (p :: path); split; [by econstructor|done]|].
    destruct (IH Hx) as (path' & Hp' & Hs). exists path'. split; [done|]. by apply suffix_cons_r.
Qed.

Lemma chain_NoDup nodes p path r : chain nodes p path r → NoDup path.
Proof.
  induction 1 as [p Hp|p q path r Hp Hc IH]; [apply NoDup_singleton|]. constructor; [|done].
  intros Hin. destruct (chain_from _ _ _ _ _ Hc Hin) as (path' & Hc' & Hs%suffix_length).
  destruct (chain_det nodes p path' r (p :: path) r) as [-> _]; [done|by econstructor|]. simpl in Hs. lia.
Qed.

Lemma chain_last nodes p path r : chain nodes p path r → last path = Some r ∧ parent nodes r = None.
Proof. induction 1 as [p Hp|p q path r Hp Hc [IH1 IH2]]; [done|]. split; [|done]. by destruct path. Qed.

(** Every pid of the way but perhaps the last is there. *)
Lemma path_member nodes p path r x : chain nodes p path r → x ∈ path → x ≠ r → is_Some (nodes !! x).
Proof.
  induction 1 as [p Hp|p q path r Hp Hc IH]; intros Hx Hr.
  - by apply list_elem_of_singleton in Hx as ->.
  - apply elem_of_cons in Hx as [->|Hx]; [|by apply IH]. unfold parent in Hp. by destruct (nodes !! p).
Qed.

(** One step per process is enough for the climb. *)
Lemma chain_short nodes p path r : chain nodes p path r → (length path ≤ S (size nodes))%nat.
Proof.
  intros Hc. pose proof (chain_NoDup _ _ _ _ Hc) as Hnd.
  destruct (chain_last _ _ _ _ Hc) as [Hl _]. apply last_Some in Hl as (l & ->).
  rewrite length_app. simpl. apply NoDup_app in Hnd as (Hnd & Hr & _).
  rewrite <-(size_dom (D := gset Z)), <-(size_list_to_set (C := gset Z) l Hnd).
  enough (size (list_to_set l : gset Z) ≤ size (dom nodes))%nat by lia.
  apply subseteq_size. intros x Hx%elem_of_list_to_set. apply elem_of_dom.
  eapply path_member; [exact Hc|apply elem_of_app; by left|]. intros ->. by apply (Hr r Hx), list_elem_of_singleton.
Qed.

Lemma climb_None nodes p : climb (S (size nodes)) nodes p = None ↔ ∀ path r, ¬ chain nodes p path r.
Proof.
  split.
  - intros Hn path r Hc. erewrite chain_climb in Hn; [done|exact Hc|]. by eapply chain_short.
  - intros Hno. destruct (climb _ nodes p) as [[path r]|] eqn:E; [|done]. apply climb_chain in E. by destruct (Hno path r).
Qed.

Section tree.
Context `{PidRange}.

(** The children of [pid]: the processes that climb to it. *)
Definition is_child (nodes : node_store) (pid c : Z) : Prop := parent nodes c = Some pid.

Lemma link_fold (l : list (Z * ProcessTreeNode)) (nodes : node_store) pid :
  foldl link_child nodes l !! pid =
  (λ n, set_children n (tn_Children n ++
     map (λ e, tn_PID e.2) (filter (λ e, is_top e.2 = false ∧ tn_PPID e.2 = pid) l))) <$> nodes !! pid.
Proof.
  revert nodes. induction l as [|[k n] l IH]; intros nodes; cbn [foldl].
  - simpl. destruct (nodes !! pid) as [[]|]; simpl; [|done]. by rewrite app_nil_r.
  - rewrite IH. unfold link_child. cbn [snd]. rewrite filter_cons. destruct (is_top n) eqn:Ht.
    + by rewrite decide_False by (intros [? _]; simpl in *; congruence).
    + destruct (decide (tn_PPID n = pid)) as [<-|Hne].
      * rewrite decide_True by (split; done). rewrite lookup_alter_eq. destruct (nodes !! tn_PPID n) as [m|]; simpl; [|done].
        f_equal. unfold set_children. simpl. by rewrite <-(assoc_L (++)).
      * rewrite lookup_alter_ne by done. by rewrite decide_False by (intros [_ ?]; done).
Qed.

Lemma link_children_lookup nodes pid :
  unlinked nodes →
  ∃ cs, link_children nodes !! pid = (λ n, set_children n cs) <$> nodes !! pid ∧
    NoDup cs ∧ ∀ c, c ∈ cs ↔ is_child nodes pid c.
Proof.
  intros Hu. unfold link_children. set (kids := map (λ e, tn_PID e.2)
    (filter (λ e, is_top e.2 = false ∧ tn_PPID e.2 = pid) (range_pids nodes))).
  exists kids. rewrite link_fold. fold kids. split_and!.
  - destruct (nodes !! pid) as [n|] eqn:Hn; [|done]. simpl. apply Hu in Hn as [_ ->]. done.
  - assert (kids = map fst (filter (λ e, is_top e.2 = false ∧ tn_PPID e.2 = pid) (range_pids nodes))) as ->.
    { apply map_ext_Forall, Forall_forall. intros [k n] [_ Hin]%list_elem_of_filter. simpl.
      rewrite range_pids_perm, elem_of_map_to_list in Hin. by apply Hu in Hin as [? _]. }
    eapply sublist_NoDup; [|apply fmap_sublist, list.sublist_filter].
    change (NoDup ((range_pids nodes).*1)). rewrite range_pids_perm. apply NoDup_fst_map_to_list.
  - intros c. unfold is_child, parent, kids. rewrite list_elem_of_fmap. split.
    + intros ([k n] & -> & [[Ht Hp] Hin]%list_elem_of_filter). simpl in *.
      rewrite range_pids_perm, elem_of_map_to_list in Hin. pose proof (Hu _ _ Hin) as [-> _].
      rewrite Hin. simpl. rewrite Ht. by rewrite Hp.
    + destruct (nodes !! c) as [n|] eqn:Hn; simpl; [|done]. destruct (is_top n) eqn:Ht; [done|]. intros [= <-].
      exists (c, n). pose proof (Hu _ _ Hn) as [Hpid _]. split; [done|]. apply list_elem_of_filter.
      split; [done|]. by rewrite range_pids_perm, elem_of_map_to_list.
Qed.

Lemma link_children_parent nodes pid : unlinked nodes → parent (link_children nodes) pid = parent nodes pid.
Proof.
  intros Hu. destruct (link_children_lookup nodes pid Hu) as (cs & Hl & _). unfold parent. rewrite Hl.
  by destruct (nodes !! pid).
Qed.

Lemma chain_parent nodes nodes' p path r :
  (∀ x, parent nodes' x = parent nodes x) → chain nodes p path r → chain nodes' p path r.
Proof. intros Hp. induction 1 as [p Hn|p q path r Hn Hc IH]; [|econstructor]; (try constructor); try done; by rewrite Hp. Qed.

Lemma link_children_size nodes : unlinked nodes → size (link_children nodes) = size nodes.
Proof.
  intros Hu. rewrite <-!(size_dom (D := gset Z)). f_equal. apply set_eq. intros x. rewrite !elem_of_dom.
  destruct (link_children_lookup nodes x Hu) as (cs & -> & _). by destruct (nodes !! x).
Qed.

(** The only child kept at a node on the way. *)
Definition kept (P : gset Z) (n : ProcessTreeNode) : list Z :=
  match list_find (λ c, c ∈ P) (tn_Children n) with Some (_, c) => [c] | None => [] end.

Lemma prune_target t P nodes : prune t P nodes t = Ret nodes.
Proof. unfold prune. by rewrite decide_True. Qed.

Lemma prune_Some t P nodes p n :
  p ≠ t → nodes !! p = Some n → prune t P nodes p = Ret (<[p := set_children n (kept P n)]> nodes).
Proof. intros Hp Hn. unfold prune. by rewrite decide_False, Hn. Qed.

Lemma prune_None t P nodes p : p ≠ t → nodes !! p = None → prune t P nodes p = Panic.
Proof. intros Hp Hn. unfold prune. by rewrite decide_False, Hn. Qed.

(** The pruning loop, when every pid is there. *)
Lemma prune_fold target (P : gset Z) order (nodes : node_store) :
  NoDup order → (∀ x, x ∈ order → x ≠ target → is_Some (nodes !! x)) →
  ∃ nodes', foldM_go (prune target P) nodes order = Ret nodes' ∧
    ∀ x, nodes' !! x = (λ n, if decide (x ∈ order ∧ x ≠ target)
      then set_children n (kept P n) else n) <$> nodes !! x.
Proof.
  revert nodes. induction order as [|p order IH]; intros nodes Hnd Hall.
  { exists nodes. split; [done|]. intros x. by destruct (nodes !! x). }
  apply list.NoDup_cons in Hnd as [Hp Hnd]. cbn [foldM_go].
  destruct (decide (p = target)) as [->|Hpt].
  - rewrite prune_target. destruct (IH nodes Hnd) as (nodes' & Hr & Hn'); [intros; apply Hall; [by right|done]|].
    exists nodes'. split; [exact Hr|]. intros x. rewrite Hn'. destruct (nodes !! x); [|done]. simpl. f_equal.
    destruct (decide (x ∈ order ∧ x ≠ target)), (decide (x ∈ target :: order ∧ x ≠ target)); try done; set_solver.
  - destruct (Hall p) as [n Hn]; [by left|done|]. rewrite (prune_Some _ _ _ _ n) by done. cbn [mbind outcome_bind].
    edestruct IH as (nodes' & Hr & Hn'); [done| |].
    2: { exists nodes'. split; [exact Hr|]. intros x. rewrite Hn'.
      destruct (decide (x = p)) as [->|Hx].
      - rewrite lookup_insert_eq, Hn. simpl. rewrite decide_False by (intros [? _]; done).
        by rewrite decide_True by (split; [left|done]).
      - rewrite lookup_insert_ne by done. destruct (nodes !! x); [|done]. simpl. f_equal.
        destruct (decide (x ∈ order ∧ x ≠ target)), (decide (x ∈ p :: order ∧ x ≠ target)); try done; set_solver. }
    intros x Hx Hxt. destruct (decide (x = p)) as [->|]; [by rewrite lookup_insert_eq|].
    rewrite lookup_insert_ne by done. apply Hall; [by right|done].
Qed.

(** ... and when one is missing. *)
Lemma prune_fold_panic target (P : gset Z) order (nodes : node_store) x :
  x ∈ order → x ≠ target → nodes !! x = None → foldM_go (prune target P) nodes order = Panic.
Proof.
  revert nodes. induction order as [|p order IH]; intros nodes Hx Hxt Hn; [by apply elem_of_nil in Hx|].
  cbn [foldM_go]. destruct (decide (p = x)) as [->|Hpx].
  { by rewrite prune_None. }
  assert (x ∈ order) as Hx' by (apply elem_of_cons in Hx as [->|]; done).
  destruct (decide (p = target)) as [->|Hpt]; [rewrite prune_target; by apply IH|].
  destruct (nodes !! p) as [n|] eqn:Hp; [|by rewrite prune_None]. rewrite (prune_Some _ _ _ _ n) by done.
  cbn [mbind outcome_bind]. apply IH; [done|done|]. by rewrite lookup_insert_ne.
Qed.

Lemma path_order_perm (path : list Z) :
  NoDup path → map fst (range_pids (set_to_map (λ pid, (pid, true)) (list_to_set path : gset Z))) ≡ₚ path.
Proof.
  intros Hnd. change (map fst ?l) with (l.*1). rewrite range_pids_perm. apply NoDup_Permutation; [apply NoDup_fst_map_to_list|done|].
  intros x. rewrite list_elem_of_fmap. split.
  - intros ([k b] & -> & Hin%elem_of_map_to_list). simpl. apply lookup_set_to_map in Hin as (y & Hy & [= -> _]); [|by intros ? ? _ _ [=]].
    by apply elem_of_list_to_set in Hy.
  - intros Hx. exists (x, true). split; [done|]. apply elem_of_map_to_list, lookup_set_to_map; [by intros ? ? _ _ [=]|].
    exists x. by rewrite elem_of_list_to_set.
Qed.

(** The one process on the way whose parent is [q]. *)
Lemma chain_child nodes p path r q :
  chain nodes p path r → q ∈ path → q ≠ p → ∃ c, c ∈ path ∧ parent nodes c = Some q.
Proof.
  induction 1 as [p Hn|p p' path r Hp Hc IH]; intros Hq Hne.
  - by apply list_elem_of_singleton in Hq as ->.
  - apply elem_of_cons in Hq as [->|Hq]; [done|]. destruct (decide (q = p')) as [->|Hq'].
    + exists p. split; [by left|done].
    + destruct (IH Hq Hq') as (c & Hin & Hpc). exists c. split; [by right|done].
Qed.

End tree.

Lemma sample_node_unlinked lookupId second delta acc entry acc' :
  unlinked acc.1 → sample_node lookupId second delta acc entry = Ret acc' → unlinked acc'.1.
Proof.
  destruct acc as [nodes cache], entry as [pid st]. unfold sample_node. intros Hu Hs.
  destruct (readStat _) as [st2| | |]; simplify_eq; [|done].
  destruct (readStatus _) as [[uid rss]| | |]; simplify_eq; [|done..].
  destruct (getUsername _ _ _) as [name cache']. simplify_eq. simpl. by apply map_Forall_insert_2.
Qed.

Lemma sample_nodes_unlinked `{PidRange} ParseFloat lookupId first second pids cancelled nodes :
  sample_nodes ParseFloat lookupId first second pids cancelled = Ret nodes → unlinked nodes.
Proof.
  unfold sample_nodes. intros (u1 & _ & Hs)%outcome_bind_Ret. apply outcome_bind_Ret in Hs as (st & _ & Hs).
  destruct cancelled; [done|]. apply outcome_bind_Ret in Hs as (u2 & _ & Hs).
  apply outcome_bind_Ret in Hs as ([nodes' cache] & Hf & [= ->]). revert Hf.
  assert (unlinked (∅ : node_store, ∅ : gmap Z gostring).1) as Hu by apply map_Forall_empty. revert Hu.
  generalize (∅ : node_store, ∅ : gmap Z gostring) as acc. induction (range_pids st) as [|e l IH]; intros acc Hu Hf; simpl in Hf.
  - by simplify_eq.
  - apply outcome_bind_Ret in Hf as (acc' & Ha & Hf). eapply IH; [|exact Hf]. by eapply sample_node_unlinked.
Qed.

(** ** Lemmas: wait channels *)

(** The threads of [l] in the wait channel [w], and those of them named [comm]. *)
Definition waiting_in (w : gostring) (l : list threadResult) : list threadResult :=
  filter (λ res, is_blocked res = true ∧ tr_wchan res = w) l.

Definition named (comm : gostring) (l : list threadResult) : list threadResult :=
  filter (λ res, tr_comm res = comm) l.

(** What is reported of a list of threads, if there is one. *)
Definition process_details (l : list threadResult) : WchanProcessDetails :=
  MkWchanProcessDetails (Z.of_nat (length l)) (take 15 (map tr_tid l)) (Z.of_nat (length l - 15)).

Definition reported {A} (f : list threadResult → A) (l : list threadResult) : option A :=
  match l with [] => None | _ => Some (f l) end.

Lemma reported_default {A} (f : list threadResult → A) l d : f [] = d → default d (reported f l) = f l.
Proof. by destruct l. Qed.

Lemma reported_snoc {A} (f : list threadResult → A) l x : reported f (l ++ [x]) = Some (f (l ++ [x])).
Proof. by destruct l. Qed.

Lemma i64_succ n : 0 ≤ n < MaxInt64 → i64 (n + 1) = n + 1.
Proof. intros Hn. apply i64_id. i64_lia. Qed.

Lemma count_succ {A} (l : list A) x :
  Z.of_nat (length l) < MaxInt64 → i64 (Z.of_nat (length l) + 1) = Z.of_nat (length (l ++ [x])).
Proof. intros Hl. rewrite i64_succ, length_app by lia. simpl. lia. Qed.

Lemma add_example_snoc l x :
  Z.of_nat (length l) < MaxInt64 → add_example (process_details l) (tr_tid x) = process_details (l ++ [x]).
Proof.
  intros Hl. unfold add_example, process_details. cbn [wp_Count wp_ExamplePids wp_OmittedPids].
  rewrite (count_succ l x), length_take, length_map, map_app, length_app by done. cbn [map length].
  destruct (Nat.ltb_spec (15 `min` length l) 15).
  - rewrite !take_ge by (rewrite ?length_app, length_map; simpl; lia). f_equal; lia.
  - rewrite take_app_le by (rewrite length_map; lia). rewrite i64_succ by lia. f_equal; lia.
Qed.

Lemma length_named_le comm w l : (length (named comm (waiting_in w l)) ≤ length l)%nat.
Proof. unfold named, waiting_in. rewrite length_filter. apply length_filter. Qed.

(** What the aggregation has to be after the threads [l], marked. *)
Record wchan_report (l : list threadResult) (r : ThreadWchanResult) : Prop := {
  wr_total : ss_TotalThreads (tw_SystemSummary r) = Z.of_nat (length l);
  wr_blocked : ss_BlockedThreads (tw_SystemSummary r) = Z.of_nat (length (filter (λ t, is_blocked t = true) l));
  wr_kernel : ss_KernelThreads (tw_SystemSummary r) = Z.of_nat (length (filter (λ t, tr_isKthread t = true) l));
  wr_states : ∀ st, tw_ThreadStates r !! st =
    reported (λ l, Z.of_nat (length l)) (filter (λ t, tr_state t = st) l);
  wr_wchan : ∀ w, (wd_TotalThreads <$> tw_BlockedWchan r !! w) = reported (λ l, Z.of_nat (length l)) (waiting_in w l);
  wr_process : ∀ w comm, (tw_BlockedWchan r !! w ≫= λ d, wd_AffectedProcesses d !! comm) =
    reported process_details (named comm (waiting_in w l));
  wr_threads : tw_Threads r = []
}.

Lemma mark_kthread_keeps res :
  is_blocked (mark_kthread res) = is_blocked res ∧ tr_isKthread (mark_kthread res) = tr_isKthread res.
Proof.
  unfold mark_kthread. destruct (tr_isKthread res) eqn:Hk; [|done]. simpl. split; [|done].
  unfold is_blocked at 1. simpl. destruct (is_blocked res) eqn:Hb; [|exact Hb]. done.
Qed.

Lemma wchan_report_step l r res :
  Z.of_nat (length l) < MaxInt64 → wchan_report l r →
  wchan_report (l ++ [mark_kthread res]) (wchan_step true r res).
Proof.
  intros Hl [Ht Hb Hk Hst Hw Hp Hth]. destruct (mark_kthread_keeps res) as [Hmb Hmk].
  assert (∀ P : threadResult → Prop, ∀ H : ∀ x, Decision (P x), Z.of_nat (length (filter P l)) < MaxInt64) as Hlt.
  { intros P H. pose proof (length_filter P l). lia. }
  assert (∀ w comm, Z.of_nat (length (named comm (waiting_in w l))) < MaxInt64) as Hlt'.
  { intros w comm. pose proof (length_named_le comm w l). lia. }
  unfold wchan_step. split; cbn [tw_SystemSummary tw_ThreadStates tw_BlockedWchan tw_Threads ss_TotalThreads
    ss_BlockedThreads ss_KernelThreads].
  - rewrite Ht. by apply count_succ.
  - rewrite filter_snoc. destruct (is_blocked (mark_kthread res)).
    + rewrite decide_True, Hb by done. by apply count_succ.
    + by rewrite decide_False.
  - rewrite <-Hmk, filter_snoc. destruct (tr_isKthread (mark_kthread res)).
    + rewrite decide_True, Hk by done. by apply count_succ.
    + by rewrite decide_False.
  - intros st. unfold incr. rewrite filter_snoc.
    destruct (decide (tr_state (mark_kthread res) = st)) as [<-|Hne]; [|by rewrite lookup_insert_ne].
    rewrite lookup_insert_eq, Hst, reported_snoc, reported_default by done. f_equal. by apply count_succ.
  - intros w. unfold waiting_in. rewrite filter_snoc. destruct (is_blocked (mark_kthread res)) eqn:Hbl.
    + unfold add_blocked. destruct (decide (tr_wchan (mark_kthread res) = w)) as [<-|Hne].
      * rewrite decide_True, lookup_insert_eq, reported_snoc by done. simpl. f_equal. rewrite <-count_succ by done. do 2 f_equal.
        change (filter _ l) with (waiting_in (tr_wchan (mark_kthread res)) l).
        rewrite <-(reported_default (λ l, Z.of_nat (length l)) (waiting_in _ l) 0), <-Hw by done.
        by destruct (tw_BlockedWchan r !! _).
      * rewrite decide_False, lookup_insert_ne by (done || intros []; done). apply Hw.
    + rewrite decide_False by (intros []; done). apply Hw.
  - intros w comm. unfold named, waiting_in. rewrite filter_snoc. destruct (is_blocked (mark_kthread res)) eqn:Hbl.
    + unfold add_blocked. destruct (decide (tr_wchan (mark_kthread res) = w)) as [<-|Hne].
      * rewrite decide_True, lookup_insert_eq, filter_snoc by done. cbn [mbind option_bind wd_AffectedProcesses].
        destruct (decide (tr_comm (mark_kthread res) = comm)) as [<-|Hne].
        -- rewrite lookup_insert_eq, reported_snoc, <-add_example_snoc by apply Hlt'. do 2 f_equal.
           rewrite <-(reported_default process_details _ (MkWchanProcessDetails 0 [] 0)) by done.
           change (filter _ (filter _ l)) with (named (tr_comm (mark_kthread res)) (waiting_in (tr_wchan (mark_kthread res)) l)).
           rewrite <-Hp. by destruct (tw_BlockedWchan r !! _).
        -- rewrite lookup_insert_ne by done. etrans; [|apply Hp]. by destruct (tw_BlockedWchan r !! _).
      * rewrite decide_False, lookup_insert_ne by (done || intros []; done). apply Hp.
    + rewrite decide_False by (intros []; done). apply Hp.
  - done.
Qed.

Lemma wchan_report_all results r :
  Z.of_nat (length results) ≤ MaxInt64 →
  r = foldl (wchan_step true) (MkThreadWchanResult (MkSystemSummary 0 0 0) ∅ ∅ []) results →
  wchan_report (map mark_kthread results) r.
Proof.
  revert r. induction results as [|res results IH] using rev_ind; intros r Hl ->.
  - split; done.
  - rewrite length_app in Hl. simpl in Hl. rewrite foldl_snoc, map_app. apply wchan_report_step; [rewrite length_map; lia|].
    apply IH; [lia|done].
Qed.

(** ** Lemmas: the list of processes *)

Lemma StronglySorted_mono {A} (R S : A → A → Prop) l :
  (∀ x y, R x y → S x y) → StronglySorted R l → StronglySorted S l.
Proof. intros Hrs. induction 1 as [|x l Hl IH Hx]; constructor; [done|]. eapply Forall_impl; [exact Hx|]. apply Hrs. Qed.

(** The selection of a sampled process by the options. *)
Definition selected (opts : FilterOptions) (p : Process) : Prop :=
  regex_ok (fo_UserRegex opts) (pr_User p) = true ∧ regex_ok (fo_NameRegex opts) (pr_Name p) = true ∧
  regex_ok (fo_StateRegex opts) (pr_State p) = true ∧
  match fo_CmdlineRegex opts with
  | Some re => ∃ c, pr_Cmdline p = Some c ∧ re c = true
  | None => True
  end.

Lemma sample_process_app lookupId second opts delta acc entry acc' :
  sample_process lookupId second opts delta acc entry = Ret acc' →
  ∃ new, acc'.1 = acc.1 ++ new ∧ Forall (λ p, pr_PID p = entry.1 ∧ selected opts p) new ∧ (length new ≤ 1)%nat.
Proof.
  destruct acc as [ps cache], entry as [pid st]. unfold sample_process. intros Hs.
  assert (∀ c, acc' = (ps, c) → ∃ new, acc'.1 = ps ++ new ∧
    Forall (λ p, pr_PID p = pid ∧ selected opts p) new ∧ (length new ≤ 1)%nat) as Hnone.
  { intros c ->. exists []. split_and!; [by rewrite app_nil_r|constructor|simpl; lia]. }
  destruct (readStat _) as [st2| | |]; [|by simpl in Hs; simplify_eq; eapply Hnone|done..].
  destruct (readStatus _) as [[uid rss]| | |]; [|by simpl in Hs; simplify_eq; eapply Hnone..].
  destruct (getUsername _ _ _) as [name cache'].
  destruct (regex_ok _ name) eqn:H1; [|by simpl in Hs; simplify_eq; eapply Hnone].
  destruct (regex_ok _ (ps_name st2)) eqn:H2; [|by simpl in Hs; simplify_eq; eapply Hnone].
  destruct (regex_ok _ (ps_state st2)) eqn:H3; [|by simpl in Hs; simplify_eq; eapply Hnone].
  cbn [negb] in Hs. destruct (negb _) eqn:H4; [by simpl in Hs; simplify_eq; eapply Hnone|]. simplify_eq. eexists.
  split; [done|]. split; [|simpl; lia]. repeat constructor; try done. simpl.
  apply negb_false_iff in H4. destruct (fo_CmdlineRegex opts) as [re|]; [|done].
  destruct (match readCmdline _ with Ret c => Some c | _ => None end) as [c|]; [|done]. by exists c.
Qed.

Lemma sample_process_fold lookupId second opts delta l acc acc' :
  foldM_go (sample_process lookupId second opts delta) acc l = Ret acc' → NoDup l.*1 →
  ∃ new, acc'.1 = acc.1 ++ new ∧ Forall (selected opts) new ∧ NoDup (map pr_PID new) ∧
    ∀ p, p ∈ new → pr_PID p ∈ l.*1.
Proof.
  revert acc. induction l as [|e l IH]; intros acc Hf Hnd.
  { cbn [foldM_go] in Hf. simplify_eq. exists []. rewrite app_nil_r.
    split_and!; [done|constructor|constructor|by intros p ?%elem_of_nil]. }
  cbn [foldM_go] in Hf. apply outcome_bind_Ret in Hf as (acc1 & H1 & Hf).
  apply sample_process_app in H1 as (n1 & E1 & Hn1 & Hl1). rewrite fmap_cons in Hnd. apply list.NoDup_cons in Hnd as [He Hnd].
  destruct (IH _ Hf Hnd) as (n2 & E2 & Hn2 & Hnd2 & Hin2). exists (n1 ++ n2). rewrite Forall_forall in Hn1.
  split_and!.
  - by rewrite E2, E1, (assoc_L (++)).
  - apply Forall_app. split; [|done]. apply Forall_forall. intros p Hp. by apply Hn1.
  - rewrite map_app. apply NoDup_app. split_and!; [|intros x|done].
    + destruct n1 as [|p [|]]; [constructor|apply NoDup_singleton|simpl in Hl1; lia].
    + intros (p & -> & Hp)%list_elem_of_fmap (q & Hq & Hq2)%list_elem_of_fmap. apply He.
      destruct (Hn1 p Hp) as [<- _]. rewrite Hq. by apply Hin2.
  - intros p [Hp|Hp]%elem_of_app; rewrite fmap_cons, elem_of_cons; [left; by apply Hn1|right; by apply Hin2].
Qed.

(** ** Properties *)

(** C34: The process tree around a target. When the chain of parents of the target
    ends at a process that is there, GetTree returns that process; on the way
    each ancestor keeps as its only child the next process of the way, the target
    and every process off the way keep exactly their children. When the chain
    runs into a parent that was not sampled, it panics; when the chain never
    ends (parents that form a cycle), neither does GetTree. *)
Theorem GetTree_target `{PidRange} (ParseFloat : gostring → outcome float64) (lookupId : Z → option gostring)
  (first second : snapshot) (pids : list Z) (nodes : node_store) (targetPID : Z)
  (Hs : sample_nodes ParseFloat lookupId first second pids false = Ret nodes)
  (Htarget : is_Some (nodes !! targetPID)) :
  let result := GetTree ParseFloat lookupId first second pids false targetPID in
  (∀ path root, chain nodes targetPID path root → is_Some (nodes !! root) →
     ∃ nodes', result = Ret (root, nodes') ∧
       ∀ pid n, nodes !! pid = Some n → ∃ cs, nodes' !! pid = Some (set_children n cs) ∧
         if decide (pid ∈ path ∧ pid ≠ targetPID)
         then ∃ c, cs = [c] ∧ c ∈ path ∧ is_child nodes pid c
         else NoDup cs ∧ ∀ c, c ∈ cs ↔ is_child nodes pid c) ∧
  (∀ path root, chain nodes targetPID path root → nodes !! root = None →
     result = Panic) ∧
  ((∀ path root, ¬ chain nodes targetPID path root) → result = Diverge).
Proof.
  cbn zeta. unfold GetTree. rewrite Hs. cbn [mbind outcome_bind]. apply sample_nodes_unlinked in Hs as Hu.
  pose proof (link_children_parent nodes) as Hpar. pose proof (link_children_size nodes Hu) as Hsize.
  assert (∀ pid, is_Some (link_children nodes !! pid) ↔ is_Some (nodes !! pid)) as Hdom.
  { intros pid. destruct (link_children_lookup nodes pid Hu) as (cs & -> & _). apply fmap_is_Some. }
  assert (∃ n, link_children nodes !! targetPID = Some n) as [nt Hnt] by by apply Hdom.
  assert (∀ path r, chain nodes targetPID path r →
    climb (S (size (link_children nodes))) (link_children nodes) targetPID = Some (path, r)) as Hclimb.
  { intros path r Hc. apply chain_climb; [|rewrite Hsize; by eapply chain_short].
    eapply chain_parent; [|exact Hc]. intros x. by apply Hpar. }
  unfold tree_around. rewrite Hnt. split_and!.
  - intros path root Hc Hroot. rewrite (Hclimb path root Hc).
    pose proof (path_order_perm path (chain_NoDup _ _ _ _ Hc)) as Horder.
    set (order := map fst _) in *.
    edestruct (prune_fold targetPID (list_to_set path) order (link_children nodes)) as (nodes' & Hr & Hn').
    { rewrite Horder. by eapply chain_NoDup. }
    { intros x Hx Hxt. apply Hdom. rewrite Horder in Hx.
      destruct (decide (x = root)) as [->|]; [done|]. by eapply path_member. }
    rewrite Hr. cbn [mbind outcome_bind]. exists nodes'. split.
    { rewrite Hn'. apply Hdom in Hroot as [m ->]. done. }
    intros pid n Hn. destruct (link_children_lookup nodes pid Hu) as (cs & Hl & Hnd & Hcs).
    rewrite Hn', Hl, Hn. simpl.
    destruct (decide (pid ∈ path ∧ pid ≠ targetPID)) as [[Hin Hne]|Hoff].
    + rewrite decide_True by (by rewrite Horder). exists (kept (list_to_set path) (set_children n cs)).
      split; [by destruct n|]. unfold kept. simpl.
      destruct (chain_child _ _ _ _ _ Hc Hin Hne) as (c & Hcin & Hcp).
      destruct (list_find _ cs) as [[i c']|] eqn:Hf.
      * apply list_find_Some in Hf as (Hi & Hc'%elem_of_list_to_set & _). exists c'. split_and!; [done|done|].
        apply Hcs. by eapply list_elem_of_lookup_2.
      * apply list_find_None in Hf. rewrite Forall_forall in Hf. destruct (Hf c); [by apply Hcs|by apply elem_of_list_to_set].
    + rewrite decide_False by (by rewrite Horder). by exists cs.
  - intros path root Hc Hroot. rewrite (Hclimb path root Hc).
    pose proof (path_order_perm path (chain_NoDup _ _ _ _ Hc)) as Horder.
    erewrite (prune_fold_panic _ _ _ _ root); [done|..].
    + rewrite Horder. destruct (chain_last _ _ _ _ Hc) as [Hl _]. by apply last_Some_elem_of.
    + intros ->. rewrite Hroot in Htarget. by destruct Htarget.
    + apply eq_None_not_Some. rewrite Hdom, Hroot. by intros [].
  - intros Hno. rewrite (proj2 (climb_None _ _)); [done|]. intros path r Hc. apply (Hno path r).
    eapply chain_parent; [|exact Hc]. intros x. symmetry. by apply Hpar.
Qed.

(** The list of processes. What GetList returns holds only processes the
    options select, each pid once, at most [Limit] of them when a limit is set,
    in descending order of memory or CPU (unless a CPU percentage is NaN). *)
Theorem GetList_selects `{PidRange} `{GoSort} (ParseFloat : gostring → outcome float64)
  (lookupId : Z → option gostring) (first second : snapshot) (pids : list Z) (opts : FilterOptions)
  (results : list Process)
  (Hr : GetList ParseFloat lookupId first second pids false opts = Ret results) :
  Forall (selected opts) results ∧ NoDup (map pr_PID results) ∧
  (0 < fo_Limit opts → Z.of_nat (length results) ≤ fo_Limit opts) ∧
  (fo_SortBy opts = go "memory" → StronglySorted (λ p q, pr_MemoryBytes q ≤ pr_MemoryBytes p) results).
Proof.
  unfold GetList in Hr. apply outcome_bind_Ret in Hr as (u1 & _ & Hr). apply outcome_bind_Ret in Hr as (st & _ & Hr).
  apply outcome_bind_Ret in Hr as (u2 & _ & Hr). apply outcome_bind_Ret in Hr as ([ps cache] & Hf & [= <-]).
  apply sample_process_fold in Hf as (new & Hnew & Hsel & Hnd & _).
  2: { change (NoDup ((range_pids st).*1)). rewrite range_pids_perm. apply NoDup_fst_map_to_list. }
  simpl in Hnew. subst new. set (sorted := sort_slice (process_less opts) ps).
  assert (sorted ≡ₚ ps) as Hperm by apply sort_slice_perm.
  assert (Forall (selected opts) sorted) as Hs by by rewrite Hperm.
  assert (NoDup (map pr_PID sorted)) as Hn by (unfold map; fold (map pr_PID); by rewrite Hperm).
  assert (fo_SortBy opts = go "memory" → StronglySorted (λ p q, pr_MemoryBytes q ≤ pr_MemoryBytes p) sorted) as Hsorted.
  { intros Hby. assert (less_sorted (process_less opts) sorted) as Hls.
    - apply sort_slice_sorted.
      split; intros *; unfold process_less; rewrite !decide_True, ?Z.ltb_lt, ?Z.ltb_ge by done; lia.
    - eapply StronglySorted_mono; [|exact Hls]. intros p q. unfold process_less. rewrite decide_True by done.
      apply Z.ltb_ge. }
  destruct (Z.ltb_spec 0 (fo_Limit opts)); simpl; [|split_and!; [done|done|lia|done]].
  destruct (Z.ltb_spec (fo_Limit opts) (Z.of_nat (length sorted))); [|by split_and!].
  split_and!.
  - by apply Forall_take.
  - rewrite <-firstn_map. eapply sublist_NoDup; [exact Hn|apply sublist_take].
  - intros _. rewrite length_take. lia.
  - intros Hby. specialize (Hsorted Hby). rewrite <-(take_drop (Z.to_nat (fo_Limit opts)) sorted) in Hsorted.
    by apply StronglySorted_app_1_l in Hsorted.
Qed.

(** The report on blocked threads. In whatever order the workers' results
    arrive, GetThreadWchan counts every thread, every kernel thread and every
    blocked thread once, every state, and for each wait channel and command the
    number of threads with the first fifteen of their ids, the rest counted as
    omitted. *)
Theorem GetThreadWchan_counts (results : list threadResult) (Hlen : Z.of_nat (length results) ≤ MaxInt64) :
  ∃ r, GetThreadWchan false true results = Ret r ∧
    let marked := map mark_kthread results in
    tw_SystemSummary r = MkSystemSummary (Z.of_nat (length results))
      (Z.of_nat (length (filter (λ t, is_blocked t = true) marked)))
      (Z.of_nat (length (filter (λ t, tr_isKthread t = true) marked))) ∧
    (∀ st, tw_ThreadStates r !! st = reported (λ l, Z.of_nat (length l)) (filter (λ t, tr_state t = st) marked)) ∧
    (∀ w, (wd_TotalThreads <$> tw_BlockedWchan r !! w) = reported (λ l, Z.of_nat (length l)) (waiting_in w marked)) ∧
    (∀ w comm, (tw_BlockedWchan r !! w ≫= λ d, wd_AffectedProcesses d !! comm) =
      reported process_details (named comm (waiting_in w marked))) ∧
    tw_Threads r = [].
Proof.
  eexists. split; [done|]. cbn zeta.
  destruct (wchan_report_all results _ Hlen eq_refl) as [Ht Hb Hk Hs Hw Hp Hth]. split_and!; try done.
  rewrite <-Hb, <-Hk. rewrite length_map in Ht. rewrite <-Ht. by destruct (tw_SystemSummary _).
Qed.

(** ** Witnesses *)

Lemma readStat_line_witness :
  readStat (Some (stat_line 12 (go "a) (b") (go "S") 1 (replicate 9 (go "0")) 7 8 (go " 20 0"))) =
  Ret (MkProcStat 7 8 (go "S") (go "a) (b") 1).
Proof.
  apply (readStat_line 12 (go "a) (b") (go "S") 1 (replicate 9 (go "0")) 7 8 (go " 20 0")).
  - lia.
  - i64_lia.
  - lia.
  - lia.
  - repeat constructor; apply (bool_decide_unpack _); vm_compute; exact I.
  - reflexivity.
  - apply (bool_decide_unpack _). vm_compute. exact I.
  - right. exists (go "20 0"). reflexivity.
  - apply Nat.leb_le. vm_compute. reflexivity.
Defined.

Definition list_pids : PidRange :=
  {| range_pids := λ V (m : gmap Z V), map_to_list m;
     range_pids_perm := λ V (m : gmap Z V), reflexivity (map_to_list m) |}.

(** Init, a shell with two children, an orphan whose parent was not listed, and
    two processes that name each other as parents. *)
Definition parents0 : gmap Z Z := list_to_map [(1, 0); (10, 1); (20, 10); (21, 10); (30, 99); (40, 41); (41, 40)].

Definition snapshot0 : snapshot :=
  MkSnapshot (Some (go "1.0 1.0"))
    (λ pid, (λ ppid, stat_line pid (go "p") (go "S") ppid (replicate 9 (go "0")) pid 0 []) <$> parents0 !! pid)
    (λ pid, Some (uidPrefix ++ go "0" ++ [newline] ++ vmRSSPrefix ++ udec pid))
    (λ _, None).

Definition pids0 : list Z := [1; 10; 20; 21; 30; 40; 41].

Definition one_float (s : gostring) : outcome float64 := Ret (f64_of_Z 1).
Definition no_user (uid : Z) : option gostring := None.

Definition nodes0 : node_store :=
  match @sample_nodes one_float no_user list_pids snapshot0 snapshot0 pids0 false with Ret n => n | _ => ∅ end.

Lemma no_chain_of_cycle (nodes : node_store) p q :
  parent nodes p = Some q → parent nodes q = Some p → ∀ path r, ¬ chain nodes p path r.
Proof.
  intros Hp Hq path r Hc. assert (∀ x path r, chain nodes x path r → x = p ∨ x = q → False) as Hno.
  { clear path r Hc. induction 1 as [x Hx|x y path r Hx Hc IH]; intros [->| ->]; try congruence.
    - rewrite Hp in Hx. injection Hx as <-. auto.
    - rewrite Hq in Hx. injection Hx as <-. auto. }
  by eapply Hno; [exact Hc|left].
Qed.

Lemma GetTree_target_witness :
  (∃ nodes', @GetTree one_float no_user list_pids snapshot0 snapshot0 pids0 false 20 = Ret (1, nodes')) ∧
  @GetTree one_float no_user list_pids snapshot0 snapshot0 pids0 false 30 = Panic ∧
  @GetTree one_float no_user list_pids snapshot0 snapshot0 pids0 false 40 = Diverge.
Proof.
  assert (@sample_nodes one_float no_user list_pids snapshot0 snapshot0 pids0 false = Ret nodes0) as Hs
    by (vm_compute; reflexivity).
  split; [|split].
  - destruct (@GetTree_target list_pids one_float no_user snapshot0 snapshot0 pids0 nodes0 20 Hs) as (Hc & _ & _).
    { vm_compute. eexists. reflexivity. }
    destruct (Hc [20; 10; 1] 1) as (nodes' & E & _).
    + repeat (eapply chain_up; [vm_compute; reflexivity|]). apply chain_end. vm_compute. reflexivity.
    + vm_compute. eexists. reflexivity.
    + exists nodes'. exact E.
  - destruct (@GetTree_target list_pids one_float no_user snapshot0 snapshot0 pids0 nodes0 30 Hs) as (_ & Hc & _).
    { vm_compute. eexists. reflexivity. }
    apply (Hc [30; 99] 99).
    + eapply chain_up; [vm_compute; reflexivity|]. apply chain_end. vm_compute. reflexivity.
    + vm_compute. reflexivity.
  - destruct (@GetTree_target list_pids one_float no_user snapshot0 snapshot0 pids0 nodes0 40 Hs) as (_ & _ & Hc).
    { vm_compute. eexists. reflexivity. }
    apply Hc, (no_chain_of_cycle nodes0 40 41); vm_compute; reflexivity.
Defined.

Definition by_memory : FilterOptions := MkFilterOptions (go "memory") 2 None None None None.

Definition top_two : list Process :=
  match @GetList one_float no_user list_pids insertion_GoSort snapshot0 snapshot0 pids0 false by_memory with
  | Ret l => l | _ => [] end.

Lemma GetList_selects_witness :
  map pr_PID top_two = [41; 40] ∧ StronglySorted (λ p q, pr_MemoryBytes q ≤ pr_MemoryBytes p) top_two.
Proof.
  split; [vm_compute; reflexivity|].
  apply (@GetList_selects list_pids insertion_GoSort one_float no_user snapshot0 snapshot0 pids0 by_memory top_two).
  - vm_compute. reflexivity.
  - reflexivity.
Defined.

Lemma GetThreadWchan_counts_witness :
  ∃ r, GetThreadWchan false true
    [MkThreadResult (go "ep_poll") (go "S (sleeping)") (go "sshd") 7 false;
     MkThreadResult (go "0") (go "R (running)") (go "kworker") 8 true] = Ret r ∧
  tw_SystemSummary r = MkSystemSummary 2 1 1.
Proof.
  destruct (GetThreadWchan_counts
    [MkThreadResult (go "ep_poll") (go "S (sleeping)") (go "sshd") 7 false;
     MkThreadResult (go "0") (go "R (running)") (go "kworker") 8 true]) as (r & Hr & Hs & _).
  - vm_compute. discriminate.
  - exists r. split; [exact Hr|]. rewrite Hs. vm_compute. reflexivity.
Defined.
