(* ===== verification/Plugins.v ===== *)
(** * The tool plugins of internal/registry

    The category enum, the plugin registry and its bridge to the mesh's tool
    registry (Tools.v), the one-entry result cache, and the detection of a node's
    distribution and roles. SHA-256, the JSON of a result, and the lower-casing of
    text that is not ASCII are parameters. *)

From Stdlib Require Import Ascii.
From stdpp Require Import base numbers gmap strings sorting list.
From S2P Require Import Prelude GoStrings Nucleus.
From S2P Require Tools.

Open Scope Z_scope.

(** ** Text *)

(** [strings.Trim(s, cutset)] for a cutset of one byte. *)
Fixpoint trim_left (c : ascii) (s : gostring) : gostring :=
  match s with x :: s' => if decide (x = c) then trim_left c s' else s | [] => [] end.

Definition strings_Trim (s : gostring) (c : ascii) : gostring :=
  reverse (trim_left c (reverse (trim_left c s))).

(** ** category.go *)

(** A [Category] is a byte; the constants count from zero. *)
Abbreviation Category := Z (only parsing).

Definition CategoryUnknown : Z := 0.
Definition CategorySystem : Z := 1.
Definition CategoryCompute : Z := 2.
Definition CategoryMemory : Z := 3.
Definition CategoryNetwork : Z := 4.
Definition CategoryStorage : Z := 5.
Definition CategoryHardware : Z := 6.
Definition CategoryLifecycle : Z := 7.

Definition categoryNames : list gostring :=
  map go ["unknown"; "system"; "compute"; "memory"; "network"; "storage"; "hardware"; "lifecycle"]%string.

(** [categoryNames[c]], a panic out of range. *)
Definition name_at (c : Z) : outcome gostring :=
  if c <? 0 then Panic else match categoryNames !! Z.to_nat c with Some n => Ret n | None => Panic end.

Definition Category_String (c : Z) : outcome gostring :=
  if Z.of_nat (length categoryNames) <=? c then name_at CategoryUnknown else name_at c.

Definition AllCategories : list Z :=
  [CategorySystem; CategoryCompute; CategoryMemory; CategoryNetwork; CategoryStorage; CategoryHardware;
   CategoryLifecycle].

Definition CategoryNames : outcome (list gostring) := mapM_go Category_String AllCategories.

Definition ErrUnknownCategory : goerr := Errorf "registry: unknown category %q (valid: %s)".

(** The loop of [ParseCategory]. *)
Fixpoint find_category (all : list Z) (name : gostring) : outcome Z :=
  match all with
  | [] => _ ← CategoryNames; Err ErrUnknownCategory
  | c :: all => n ← name_at c; if decide (n = name) then Ret c else find_category all name
  end.

Section category.
Context `{UnicodeLower} (json_string : gostring → gostring) (json_parse_string : gostring → option gostring).

Definition ParseCategory (s : gostring) : outcome Z := find_category AllCategories (strings_ToLower s).

Definition Category_MarshalJSON (c : Z) : outcome gostring := json_string <$> Category_String c.

Definition Category_UnmarshalJSON (data : gostring) : outcome Z :=
  match json_parse_string data with
  | None => Err (Errorf "registry: category must be a JSON string: %w")
  | Some s => ParseCategory s
  end.

End category.

(** ** contract.go, result.go *)

Record ToolParam := MkToolParam {
  tp_Name : gostring; tp_Type : gostring; tp_Description : gostring;
  tp_Required : bool; tp_Default : gostring
}.

Inductive ResultStatus := StatusOK | StatusWarning | StatusError | StatusDegraded.

#[export] Instance status_eq_dec : EqDecision ResultStatus.
Proof. solve_decision. Defined.

Record ResultMetadata := MkResultMetadata {
  rm_ExecutionTimeMs : Z; rm_Timestamp : gostring; rm_FilteringMethod : gostring
}.

Record ToolResult := MkToolResult {
  tr_ToolName : gostring;
  tr_NodeID : gostring;
  tr_Status : ResultStatus;
  tr_Summary : gostring;
  tr_Data : gostring;
  tr_Metadata : ResultMetadata
}.

(** The tool contract. [Execute] may return a nil result with a nil error. *)
Record Tool := MkTool {
  t_Name : gostring;
  t_Description : gostring;
  t_Help : gostring;
  t_Category : Z;
  t_Parameters : list ToolParam;
  t_Hidden : bool;
  t_IsSupported : bool * gostring;
  t_Execute : gostring → outcome (option ToolResult)
}.

(** ** registry.go *)

Record PluginRegistry := MkPluginRegistry {
  pg_nodeID : gostring;
  pg_supportedMap : gmap gostring Tool;
  pg_supportedList : list Tool;
  pg_unsupported : gmap gostring gostring;
  pg_allMap : gmap gostring Tool
}.

(** The global pool, as the [init] functions fill it. *)
Definition Register (globalTools : list Tool) (t : Tool) : list Tool := globalTools ++ [t].

Definition add_plugin (pr : PluginRegistry) (t : Tool) : PluginRegistry :=
  let all := <[t_Name t := t]> (pg_allMap pr) in
  let '(ok, reason) := t_IsSupported t in
  if ok : bool
  then MkPluginRegistry (pg_nodeID pr) (<[t_Name t := t]> (pg_supportedMap pr)) (pg_supportedList pr ++ [t])
         (pg_unsupported pr) all
  else MkPluginRegistry (pg_nodeID pr) (pg_supportedMap pr) (pg_supportedList pr)
         (<[t_Name t := reason]> (pg_unsupported pr)) all.

Definition NewPluginRegistryFrom (nodeID : gostring) (tools : list Tool) : PluginRegistry :=
  foldl add_plugin (MkPluginRegistry nodeID ∅ [] ∅ ∅) tools.

Definition NewPluginRegistry (globalTools : list Tool) (nodeID : gostring) : PluginRegistry :=
  NewPluginRegistryFrom nodeID globalTools.

Definition PluginRegistry_GetTool (pr : PluginRegistry) (name : gostring) : option Tool :=
  pg_supportedMap pr !! name.
Definition PluginRegistry_GetAnyTool (pr : PluginRegistry) (name : gostring) : option Tool :=
  pg_allMap pr !! name.

(** ** bridge.go *)

Section bridge.
(** The JSON of a result and of an error message, and the milliseconds a call takes. *)
Context (json_result : ToolResult → gostring) (json_error : goerr → gostring) (elapsed : Z).

Definition mesh_param (p : ToolParam) : Tools.ToolParam :=
  Tools.MkToolParam (tp_Name p) (tp_Type p) (tp_Description p) (tp_Required p) (tp_Default p).

(** The handler a tool is wrapped in; a nil result is dereferenced. *)
Definition bridge_handler (nodeID : gostring) (tool : Tool) : Tools.ToolHandler := λ args,
  match t_Execute tool args with
  | Err e => Ret (Tools.MkToolResult (json_error e) true)
  | Panic => Panic
  | Diverge => Diverge
  | Ret None => Panic
  | Ret (Some r) =>
      let m := tr_Metadata r in
      Ret (Tools.MkToolResult
        (json_result (MkToolResult (tr_ToolName r) nodeID (tr_Status r) (tr_Summary r) (tr_Data r)
           (MkResultMetadata elapsed (rm_Timestamp m) (rm_FilteringMethod m)))) false)
  end.

Definition bridge_tool (nodeID : gostring) (tool : Tool) : outcome (Tools.ToolDefinition * Tools.ToolHandler) :=
  category ← Category_String (t_Category tool);
  Ret (Tools.MkToolDefinition (t_Name tool) (t_Description tool) (t_Help tool) category (t_Hidden tool)
         (map mesh_param (t_Parameters tool)) None, bridge_handler nodeID tool).

Definition BridgeToMesh (pr : PluginRegistry) (meshReg : Tools.Registry) : outcome Tools.Registry :=
  foldM_go (λ r tool, '(def, handler) ← bridge_tool (pg_nodeID pr) tool; Ret (Tools.Registry_Register r def handler))
    meshReg (pg_supportedList pr).

End bridge.

(** ** cache.go *)

(** Results are shared through pointers, and their data through slices: a store of
    results by address, in which the data is the address of its bytes (a nil slice
    is one without bytes), and a store of the bytes. *)
Record result_cell := MkCell {
  rc_ToolName : gostring;
  rc_NodeID : gostring;
  rc_Status : ResultStatus;
  rc_Summary : gostring;
  rc_Data : nat;
  rc_Metadata : ResultMetadata
}.

Record heap := MkHeap { hp_results : list result_cell; hp_data : list gostring }.

Definition empty_heap : heap := MkHeap [] [].

(** The cell of a result whose data is at [data]. *)
Definition cell_of (v : ToolResult) (data : nat) : result_cell :=
  MkCell (tr_ToolName v) (tr_NodeID v) (tr_Status v) (tr_Summary v) data (tr_Metadata v).

Definition set_data (c : result_cell) (data : nat) : result_cell :=
  MkCell (rc_ToolName c) (rc_NodeID c) (rc_Status c) (rc_Summary c) data (rc_Metadata c).

(** The result at an address, its data read from the store. *)
Definition deref (h : heap) (p : nat) : option ToolResult :=
  c ← hp_results h !! p;
  d ← hp_data h !! rc_Data c;
  Some (MkToolResult (rc_ToolName c) (rc_NodeID c) (rc_Status c) (rc_Summary c) d (rc_Metadata c)).

Definition make_data (h : heap) (d : gostring) : heap * nat :=
  (MkHeap (hp_results h) (hp_data h ++ [d]), length (hp_data h)).

Definition new_result (h : heap) (c : result_cell) : heap * nat :=
  (MkHeap (hp_results h ++ [c]) (hp_data h), length (hp_results h)).

(** A result a tool returns. *)
Definition alloc (h : heap) (v : ToolResult) : heap * nat :=
  let '(h, a) := make_data h (tr_Data v) in new_result h (cell_of v a).

(** [cp := *r] shares the data; bytes, if there are any, get a store of their
    own. *)
Definition copyResult (h : heap) (r : option nat) : heap * option nat :=
  match r ≫= λ p, hp_results h !! p with
  | None => (h, None)
  | Some cp =>
      let '(h, cp) :=
        match hp_data h !! rc_Data cp with
        | Some ((_ :: _) as d) => let '(h, a) := make_data h d in (h, set_data cp a)
        | _ => (h, cp)
        end in
      let '(h, p) := new_result h cp in (h, Some p)
  end.

Record cachedTool := MkCachedTool {
  ct_ttl : Z;
  ct_lastHash : gostring;
  ct_lastRes : option nat;
  ct_expiresAt : Z
}.

(** [WithCache]; [zero_time] is the zero time of the expiry. *)
Definition WithCache (zero_time ttl : Z) : cachedTool := MkCachedTool ttl [] None zero_time.

Section cache.
Context (sha256 : gostring → gostring).

(** The fast path's test. *)
Definition cache_hit (c : cachedTool) (now : Z) (args : gostring) : bool :=
  bool_decide (ct_lastHash c = sha256 args) && (now <? ct_expiresAt c).

(** [Execute], with the clock read at [now] and, after the tool, at [now']; [out]
    is what the tool returns if it is run. *)
Definition cached_Execute (h : heap) (c : cachedTool) (now now' : Z) (args : gostring)
    (out : outcome (option ToolResult)) : heap * cachedTool * outcome (option nat) :=
  if cache_hit c now args then
    let '(h, cachedRes) := copyResult h (ct_lastRes c) in (h, c, Ret cachedRes)
  else
    match out with
    | Ret None => (h, c, Panic)
    | Ret (Some v) =>
        let '(h, res) := alloc h v in
        if decide (tr_Status v = StatusOK ∨ tr_Status v = StatusWarning) then
          let '(h, copy) := copyResult h (Some res) in
          (h, MkCachedTool (ct_ttl c) (sha256 args) copy (now' + ct_ttl c), Ret (Some res))
        else (h, c, Ret (Some res))
    | Err e => (h, c, Err e)
    | Panic => (h, c, Panic)
    | Diverge => (h, c, Diverge)
    end.

(** Callers call, assign to the fields of results they were given (the data
    becoming a slice of their own), and write to the bytes of data they were
    given. *)
Inductive cache_op :=
| Call (now now' : Z) (args : gostring) (out : outcome (option ToolResult))
| Mutate (p : nat) (v : ToolResult)
| Overwrite (a : nat) (d : gostring).

(** The store, the cache, and the results and the data handed out so far. *)
Record cache_state := MkCacheState {
  cs_heap : heap;
  cs_cache : cachedTool;
  cs_handed : list nat;
  cs_data : list nat
}.

Definition new_cache (zero_time ttl : Z) : cache_state := MkCacheState empty_heap (WithCache zero_time ttl) [] [].

(** The caller has the result at [p], and with it its data. *)
Definition hand_out (h : heap) (c : cachedTool) (handed data : list nat) (r : outcome (option nat)) : cache_state :=
  match r with
  | Ret (Some p) =>
      MkCacheState h c (p :: handed) (match hp_results h !! p with Some cell => rc_Data cell :: data | None => data end)
  | _ => MkCacheState h c handed data
  end.

Definition cache_step (st : cache_state) (op : cache_op) : option cache_state :=
  let '(MkCacheState h c handed data) := st in
  match op with
  | Call now now' args out =>
      let '(h, c, r) := cached_Execute h c now now' args out in Some (hand_out h c handed data r)
  | Mutate p v =>
      if decide (p ∈ handed) then
        let '(h, a) := make_data h (tr_Data v) in
        Some (MkCacheState (MkHeap (<[p := cell_of v a]> (hp_results h)) (hp_data h)) c handed (a :: data))
      else None
  | Overwrite a d =>
      if decide (a ∈ data ∧ (length <$> hp_data h !! a) = Some (length d))
      then Some (MkCacheState (MkHeap (hp_results h) (<[a := d]> (hp_data h))) c handed data) else None
  end.

Fixpoint cache_run (st : cache_state) (ops : list cache_op) : option cache_state :=
  match ops with
  | [] => Some st
  | op :: ops => st ← cache_step st op; cache_run st ops
  end.

End cache.

(** ** detect.go *)

Definition quote : ascii := ascii_of_N 34.

(** The lines of /etc/os-release; a later line of a key wins. *)
Definition os_release_line (m : gmap gostring gostring) (line : gostring) : gmap gostring gostring :=
  let line := strings_TrimSpace line in
  match line with
  | [] => m
  | "#"%char :: _ => m
  | _ =>
      match strings_IndexByte line "=" with
      | None => m
      | Some i => <[take i line := strings_Trim (drop (S i) line) quote]> m
      end
  end.

Definition ReadOSRelease (content : option gostring) : gmap gostring gostring :=
  match content with
  | None => ∅
  | Some data => foldl os_release_line ∅ (strings_Split data (ascii_of_N 10))
  end.

Definition IsDistro `{UnicodeLower} (release : gmap gostring gostring) (names : list gostring) : bool :=
  let id := strings_ToLower (default [] (release !! go "ID")) in
  existsb (λ name, bool_decide (strings_ToLower name = id)) names.

Record NodeRoleInfo := MkNodeRoleInfo {
  nr_IsSFA : bool; nr_IsMGS : bool; nr_IsMDS : bool; nr_IsOSS : bool; nr_IsClient : bool;
  nr_MGSs : list gostring; nr_MDTs : list gostring; nr_OSTs : list gostring; nr_Clients : list gostring
}.

Definition HasStorageRole (n : NodeRoleInfo) : bool :=
  nr_IsSFA n || nr_IsMGS n || nr_IsMDS n || nr_IsOSS n || nr_IsClient n.

Definition Roles (n : NodeRoleInfo) : list gostring :=
  let roles :=
    (if nr_IsSFA n then [go "sfa"] else []) ++ (if nr_IsMGS n then [go "mgs"] else []) ++
    (if nr_IsMDS n then [go "mds"] else []) ++ (if nr_IsOSS n then [go "oss"] else []) ++
    (if nr_IsClient n then [go "client"] else []) in
  match roles with [] => [go "generic"] | _ => roles end.

(** [dir] is [os.ReadDir]: the names of the entries and whether each is a directory. *)
Definition listSubdirs (dir : gostring → option (list (gostring * bool))) (path : gostring) : list gostring :=
  match dir path with
  | None => []
  | Some entries => map fst (filter (λ e, e.2 = true) entries)
  end.

Definition DetectNodeRoles (PathExists : gostring → bool) (dir : gostring → option (list (gostring * bool)))
    : NodeRoleInfo :=
  let nonempty (l : list gostring) := match l with [] => false | _ => true end in
  let isSFA := PathExists (go "/sys/module/jsysdd") || PathExists (go "/sys/class/jsys") ||
               PathExists (go "/sys/module/jnvme") || PathExists (go "/sys/class/jnvme") in
  let mgs := listSubdirs dir (go "/sys/fs/lustre/mgs") in
  let mdt := listSubdirs dir (go "/sys/fs/lustre/mdt") in
  let ost := listSubdirs dir (go "/sys/fs/lustre/obdfilter") in
  let clients := listSubdirs dir (go "/sys/fs/lustre/llite") in
  MkNodeRoleInfo isSFA (nonempty mgs) (nonempty mdt) (nonempty ost) (nonempty clients) mgs mdt ost clients.

(** ** Lemmas: categories *)

Lemma find_category_spec all name :
  Forall (λ c, ∃ n, name_at c = Ret n) all →
  (∀ c, find_category all name = Ret c → c ∈ all ∧ name_at c = Ret name) ∧
  ((∀ c, c ∈ all → name_at c ≠ Ret name) → find_category all name = Err ErrUnknownCategory).
Proof.
  induction 1 as [|c all (n & Hn) Hall [IH1 IH2]]; simpl.
  { vm_compute. split; [done|by intros _]. }
  rewrite Hn. simpl. destruct (decide (n = name)) as [->|Hne].
  - split; [intros c' [= <-]; split; [left|done]|intros Hno; destruct (Hno c); [left|done]].
  - split; [intros c' Hc'; destruct (IH1 c' Hc'); split; [by right|done]|].
    intros Hno. apply IH2. intros c' Hc'. apply Hno. by right.
Qed.

Lemma AllCategories_named : Forall (λ c, ∃ n, name_at c = Ret n) AllCategories.
Proof. repeat (constructor; [vm_compute; eexists; reflexivity|]). constructor. Qed.

Lemma find_named : Forall (λ c, ∀ n, name_at c = Ret n → find_category AllCategories n = Ret c ∧
  is_ascii n = true ∧ map lower_byte n = n) AllCategories.
Proof. repeat (constructor; [intros n [= <-]; vm_compute; auto|]). constructor. Qed.

Lemma Category_String_valid : Forall (λ c, Category_String c = name_at c) AllCategories.
Proof. repeat (constructor; [done|]). constructor. Qed.

(** ** Lemmas: the plugin registry *)

Definition supported (t : Tool) : Prop := (t_IsSupported t).1 = true.

#[export] Instance supported_dec t : Decision (supported t).
Proof. unfold supported. apply _. Defined.

Lemma add_plugin_yes pr t :
  supported t → add_plugin pr t = MkPluginRegistry (pg_nodeID pr) (<[t_Name t := t]> (pg_supportedMap pr))
    (pg_supportedList pr ++ [t]) (pg_unsupported pr) (<[t_Name t := t]> (pg_allMap pr)).
Proof. unfold supported, add_plugin. destruct (t_IsSupported t) as [[] reason]; done. Qed.

Lemma add_plugin_no pr t :
  ¬ supported t → add_plugin pr t = MkPluginRegistry (pg_nodeID pr) (pg_supportedMap pr) (pg_supportedList pr)
    (<[t_Name t := (t_IsSupported t).2]> (pg_unsupported pr)) (<[t_Name t := t]> (pg_allMap pr)).
Proof. unfold supported, add_plugin. by destruct (t_IsSupported t) as [[] reason]. Qed.

Lemma add_plugin_all nodeID tools :
  let pr := NewPluginRegistryFrom nodeID tools in
  pg_nodeID pr = nodeID ∧
  pg_supportedList pr = filter supported tools ∧
  (∀ name, pg_allMap pr !! name = last (filter (λ t, t_Name t = name) tools)) ∧
  (∀ name, pg_supportedMap pr !! name = last (filter (λ t, t_Name t = name) (filter supported tools))) ∧
  (∀ name, pg_unsupported pr !! name =
     (λ t, (t_IsSupported t).2) <$> last (filter (λ t, t_Name t = name) (filter (λ t, ¬ supported t) tools))).
Proof.
  assert (∀ (P : Tool → Prop) (H : ∀ t, Decision (P t)) l t, filter P (l ++ [t]) = filter P l ++ if decide (P t) then [t] else []) as Hsn.
  { intros P HP l t. rewrite filter_app, filter_cons, filter_nil. by case_decide. }
  unfold NewPluginRegistryFrom. induction tools as [|t tools (Hn & Hl & Ha & Hs & Hu)] using rev_ind; [done|].
  cbn zeta. rewrite foldl_snoc. set (pr := foldl add_plugin _ tools) in *. rewrite !Hsn.
  assert (∀ (l : list Tool) name, last (filter (λ t0, t_Name t0 = name) (l ++ [t])) =
    if decide (t_Name t = name) then Some t else last (filter (λ t0, t_Name t0 = name) l)) as Hlast.
  { intros l name. rewrite Hsn. destruct (decide (t_Name t = name)); [by rewrite last_snoc|by rewrite app_nil_r]. }
  assert (∀ {V} (m : gmap gostring V) v name, <[t_Name t := v]> m !! name = if decide (t_Name t = name) then Some v else m !! name) as Hins.
  { intros V m v name. by rewrite lookup_insert. }
  destruct (decide (supported t)) as [Hsup|Hsup].
  - rewrite add_plugin_yes by done. cbn [pg_nodeID pg_supportedList pg_allMap pg_supportedMap pg_unsupported].
    rewrite Hn, Hl. split_and!; [done|done| | |].
    + intros name. by rewrite Hins, Hlast, Ha.
    + intros name. by rewrite Hins, Hlast, Hs.
    + intros name. rewrite decide_False by (intros Hno; by apply Hno). rewrite app_nil_r. apply Hu.
  - rewrite add_plugin_no by done. cbn [pg_nodeID pg_supportedList pg_allMap pg_supportedMap pg_unsupported].
    rewrite Hn, Hl, app_nil_r. split_and!; [done|done| | |].
    + intros name. by rewrite Hins, Hlast, Ha.
    + intros name. apply Hs.
    + intros name. rewrite decide_True by done. rewrite Hins, Hlast. destruct (decide (t_Name t = name)); [done|apply Hu].
Qed.

(** ** Lemmas: the cache *)

Section cache_lemmas.
Context (sha256 : gostring → gostring).

(** A result nobody outside has: neither the cell nor bytes of its data. *)
Definition private (h : heap) (handed data : list nat) (q : nat) (res : ToolResult) : Prop :=
  q ∉ handed ∧ deref h q = Some res ∧ ∀ c, hp_results h !! q = Some c → rc_Data c ∈ data → tr_Data res = [].

(** The cached result is private, and what a call for arguments of its hash
    returned. *)
Definition cache_inv (ttl : Z) (ops : list cache_op) (st : cache_state) : Prop :=
  let '(MkCacheState h c handed data) := st in
  ct_ttl c = ttl ∧ Forall (λ p, (p < length (hp_results h))%nat) handed ∧ Forall (λ a, (a < length (hp_data h))%nat) data ∧
  match ct_lastRes c with
  | None => ct_lastHash c = []
  | Some q => ∃ now t args res, private h handed data q res ∧ ct_lastHash c = sha256 args ∧
      Call now t args (Ret (Some res)) ∈ ops ∧ ct_expiresAt c = t + ttl ∧
      (tr_Status res = StatusOK ∨ tr_Status res = StatusWarning)
  end.

Lemma cache_inv_mono ttl ops op st : cache_inv ttl ops st → cache_inv ttl (ops ++ [op]) st.
Proof.
  destruct st as [h c handed data]. intros (Ht & Hh & Hd & Hc). split_and!; [done..|].
  destruct (ct_lastRes c) as [q|]; [|done]. destruct Hc as (now & t & args & res & H1 & H2 & H3 & H4).
  exists now, t, args, res. split_and!; try tauto. apply elem_of_app. by left.
Qed.

(** What a store that has only grown says of the old addresses. *)
Definition grows (h h' : heap) : Prop := hp_results h `prefix_of` hp_results h' ∧ hp_data h `prefix_of` hp_data h'.

Lemma grows_deref h h' p v : grows h h' → deref h p = Some v → deref h' p = Some v.
Proof.
  intros [[l1 H1] [l2 H2]] Hd. unfold deref in *. apply bind_Some in Hd as (c & Hc & (d & Hd & E)%bind_Some).
  rewrite H1, (lookup_app_l_Some _ _ _ _ Hc). simpl. by rewrite H2, (lookup_app_l_Some _ _ _ _ Hd).
Qed.

Lemma alloc_spec h v :
  let '(h', p) := alloc h v in
  grows h h' ∧ p = length (hp_results h) ∧ deref h' p = Some v ∧ length (hp_results h') = S (length (hp_results h)) ∧
  length (hp_data h') = S (length (hp_data h)) ∧
  ∃ c, hp_results h' !! p = Some c ∧ rc_Data c = length (hp_data h).
Proof.
  unfold alloc, make_data, new_result, grows, deref. cbn [hp_results hp_data].
  rewrite !length_app, lookup_app_r, Nat.sub_diag by lia. simpl. rewrite lookup_app_r, Nat.sub_diag by lia. simpl.
  split_and!; [by apply prefix_app_r|by apply prefix_app_r|done|by destruct v|lia|lia|by eexists].
Qed.

(** A copy is a new cell, and its bytes, if it has any, are new. *)
Lemma copyResult_spec h q v :
  deref h q = Some v →
  ∃ h' p c, copyResult h (Some q) = (h', Some p) ∧ grows h h' ∧ p = length (hp_results h) ∧ deref h' p = Some v ∧
    length (hp_results h') = S (length (hp_results h)) ∧ hp_results h' !! p = Some c ∧
    (rc_Data c < length (hp_data h'))%nat ∧ (rc_Data c = length (hp_data h) ∨ tr_Data v = []).
Proof.
  intros Hd. unfold deref in Hd. apply bind_Some in Hd as (c & Hc & (d & Hd & [= <-])%bind_Some).
  unfold copyResult. cbn [mbind option_bind]. rewrite Hc, Hd. apply lookup_lt_Some in Hd as Hlt.
  destruct d as [|b d]; unfold make_data, new_result; eexists _, _, _; (split; [reflexivity|]);
    unfold grows, deref; cbn [hp_results hp_data]; rewrite !length_app, lookup_app_r, Nat.sub_diag by lia; simpl.
  - rewrite Hd. split_and!; [by apply prefix_app_r|done|done|done|lia|done|done|by right].
  - rewrite lookup_app_r, Nat.sub_diag by lia. simpl.
    split_and!; [by apply prefix_app_r|by apply prefix_app_r|done|done|lia|done|rewrite ?length_app; simpl; lia|by left].
Qed.

(** A private result stays private while the store grows and new addresses are
    handed out. *)
Lemma private_grows h h' handed data q res p c :
  private h handed data q res → grows h h' → Forall (λ a, (a < length (hp_data h))%nat) data →
  hp_results h' !! p = Some c → p = length (hp_results h) → (rc_Data c = length (hp_data h) ∨ tr_Data res = []) →
  private h' (p :: handed) (rc_Data c :: data) q res.
Proof.
  intros (Hq & Hd & Hp) Hg Hdata Hc -> Hfresh. pose proof Hd as Hd'. unfold deref in Hd'.
  apply bind_Some in Hd' as (cq & Hcq & (d & Hdq & [= <-])%bind_Some).
  apply lookup_lt_Some in Hcq as Hlt. apply lookup_lt_Some in Hdq as Hltd. split_and!.
  - rewrite not_elem_of_cons. split; [lia|done].
  - by eapply grows_deref.
  - intros c' Hc'. destruct Hg as [[l1 H1] _]. rewrite H1, (lookup_app_l_Some _ _ _ _ Hcq) in Hc'. injection Hc' as <-.
    intros [He|Hin]%elem_of_cons; [|by eapply Hp]. destruct Hfresh as [Hf|Hf]; [lia|exact Hf].
Qed.

(** Handing out a new result whose data is new or empty. *)
Lemma hand_out_inv ttl ops h h' c handed data p cell :
  cache_inv ttl ops (MkCacheState h c handed data) → grows h h' → hp_results h' !! p = Some cell →
  p = length (hp_results h) → (rc_Data cell < length (hp_data h'))%nat →
  (rc_Data cell = length (hp_data h) ∨ ∀ q res, ct_lastRes c = Some q → deref h q = Some res → tr_Data res = []) →
  cache_inv ttl ops (hand_out h' c handed data (Ret (Some p))).
Proof.
  intros (Ht & Hh & Hd & Hc) Hg Hcell Hp Hlt Hfresh. unfold hand_out. rewrite Hcell. pose proof Hg as [[l1 H1] [l2 H2]].
  apply lookup_lt_Some in Hcell as Hl. split_and!; [done| | |].
  - constructor; [lia|]. eapply Forall_impl; [exact Hh|]. intros q Hq. rewrite H1, length_app. simpl in *. lia.
  - constructor; [lia|]. eapply Forall_impl; [exact Hd|]. intros a Ha. rewrite H2, length_app. simpl in *. lia.
  - destruct (ct_lastRes c) as [q|]; [|done]. destruct Hc as (now & t & args & res & Hpr & Hrest).
    exists now, t, args, res. split; [|exact Hrest]. eapply private_grows; [exact Hpr|done..|].
    destruct Hfresh as [|Hf]; [by left|right]. apply (Hf q); [done|apply Hpr].
Qed.

Lemma cache_call_inv ttl ops h c handed data now now' args out :
  cache_inv ttl ops (MkCacheState h c handed data) →
  let '(h', c', r) := cached_Execute sha256 h c now now' args out in
  cache_inv ttl (ops ++ [Call now now' args out]) (hand_out h' c' handed data r).
Proof.
  intros Hinv. pose proof (cache_inv_mono ttl ops (Call now now' args out) _ Hinv) as Hinv'.
  unfold cached_Execute. destruct (cache_hit sha256 c now args).
  - destruct (ct_lastRes c) as [q|] eqn:Hq; [|exact Hinv'].
    destruct Hinv as (_ & _ & _ & Hc). rewrite Hq in Hc. destruct Hc as (n & t & a & res & (_ & Hd & _) & _).
    destruct (copyResult_spec h q res Hd) as (h' & p & cell & -> & Hg & Hp & Hd' & Hl & Hcell & Hlt & Hfresh).
    eapply hand_out_inv; [exact Hinv'|done..|]. destruct Hfresh as [|He]; [by left|right]. intros q' res' Hq' Hd2. congruence.
  - destruct out as [[v|]| | |]; [|exact Hinv'..]. pose proof (alloc_spec h v) as Ha.
    destruct (alloc h v) as [h1 res] eqn:Ealloc. destruct Ha as (Hg & Hp & Hd & Hl & Hld & cell & Hcell & Hdata).
    destruct (decide _) as [Hok|]; [|eapply hand_out_inv; [exact Hinv'|done|done|done|lia|by left]].
    destruct (copyResult_spec h1 res v Hd) as (h2 & p & cell2 & -> & Hg2 & Hp2 & Hd2 & Hl2 & Hcell2 & Hlt2 & Hfresh2).
    destruct Hinv as (Ht & Hh & Hdt & _). destruct Hg as [[l1 H1] [l2 H2]], Hg2 as [[l3 H3] [l4 H4]].
    assert (hp_results h2 !! res = Some cell) as Hcell'.
    { rewrite H3. by rewrite (lookup_app_l_Some _ _ _ _ Hcell). }
    unfold hand_out. rewrite Hcell'. split_and!; [done| | |].
    + constructor; [lia|]. eapply Forall_impl; [exact Hh|]. intros x Hx. cbn beta in Hx. lia.
    + constructor; [rewrite H4, length_app; lia|]. eapply Forall_impl; [exact Hdt|].
      intros x Hx. cbn beta in Hx. rewrite H4, length_app. lia.
    + cbn [ct_lastRes ct_lastHash ct_expiresAt]. exists now, now', args, v. split_and!; [|done| |by rewrite Ht|done].
      * split_and!.
        -- rewrite not_elem_of_cons. split; [lia|]. intros Hin. rewrite Forall_forall in Hh. apply Hh in Hin. lia.
        -- done.
        -- rewrite Hcell2. intros c' [= <-]. destruct Hfresh2 as [Hf|Hf]; [|by intros _]. rewrite Hf.
           intros [Hx|Hx]%elem_of_cons; [lia|]. rewrite Forall_forall in Hdt. apply Hdt in Hx. lia.
      * apply elem_of_app. right. by left.
Qed.

Lemma cache_step_inv ttl ops st op st' :
  cache_inv ttl ops st → cache_step sha256 st op = Some st' → cache_inv ttl (ops ++ [op]) st'.
Proof.
  intros Hinv Hstep. pose proof (cache_inv_mono ttl ops op st Hinv) as Hinv'. destruct st as [h c handed data].
  destruct op as [now now' args out|p v|a d]; simpl in Hstep.
  - pose proof (cache_call_inv ttl ops h c handed data now now' args out Hinv) as Hc.
    destruct (cached_Execute _ _ _ _ _ _ _) as [[h' c'] r]. by simplify_eq.
  - destruct (decide (p ∈ handed)) as [Hp|]; simplify_eq. destruct Hinv' as (Ht & Hh & Hd & Hc).
    split_and!; [done|cbn [hp_data hp_results]; by rewrite length_insert| |].
    + cbn [hp_data]. rewrite length_app. simpl. constructor; [lia|]. eapply Forall_impl; [exact Hd|]. intros x Hx. simpl in *. lia.
    + destruct (ct_lastRes c) as [q|]; [|done]. destruct Hc as (n & t & args & res & (Hq & Hdq & Hpr) & Hrest).
      exists n, t, args, res. split; [|exact Hrest]. unfold deref in Hdq.
      apply bind_Some in Hdq as (cq & Hcq & (d & Hdd & [= <-])%bind_Some). apply lookup_lt_Some in Hdd as Hlt.
      assert (p ≠ q) by (by intros ->). unfold private, deref. cbn [hp_results hp_data].
      rewrite list_lookup_insert_ne, Hcq by done. simpl. rewrite (lookup_app_l_Some _ _ _ _ Hdd). split_and!; [done|done|].
      intros c' [= <-] [Hx|Hx]%elem_of_cons; [lia|]. by eapply Hpr.
  - destruct (decide _) as [[Ha Hlen]|]; simplify_eq. destruct Hinv' as (Ht & Hh & Hd & Hc).
    split_and!; [done|done|cbn [hp_data hp_results]; by rewrite length_insert|].
    destruct (ct_lastRes c) as [q|]; [|done]. destruct Hc as (n & t & args & res & (Hq & Hdq & Hpr) & Hrest).
    exists n, t, args, res. split; [|exact Hrest]. pose proof Hdq as Hd'. unfold deref in Hdq.
    apply bind_Some in Hdq as (cq & Hcq & (dq & Hdd & [= <-])%bind_Some).
    split_and!; [done| |exact Hpr]. unfold deref. cbn [hp_results hp_data]. rewrite Hcq. simpl.
    destruct (decide (a = rc_Data cq)) as [->|]; [|by rewrite list_lookup_insert_ne, Hdd].
    pose proof (Hpr cq Hcq Ha) as He. cbn [tr_Data] in He. subst dq. rewrite Hdd in Hlen. simpl in Hlen.
    destruct d; [|done]. rewrite list_lookup_insert_eq by (by apply lookup_lt_Some in Hdd). done.
Qed.

Lemma cache_run_inv ttl ops ops' st st' :
  cache_inv ttl ops st → cache_run sha256 st ops' = Some st' → cache_inv ttl (ops ++ ops') st'.
Proof.
  revert ops st. induction ops' as [|op ops' IH]; intros ops st Hinv Hrun; simpl in Hrun.
  - simplify_eq. by rewrite app_nil_r.
  - destruct (cache_step sha256 st op) as [st1|] eqn:Hs; simpl in Hrun; [|done].
    rewrite cons_middle, (assoc_L (++)). eapply IH; [|exact Hrun]. by eapply cache_step_inv.
Qed.

End cache_lemmas.

(** ** Properties *)

Lemma name_at_names c n : name_at c = Ret n → n ∈ categoryNames.
Proof.
  unfold name_at. destruct (c <? 0); [done|]. destruct (categoryNames !! Z.to_nat c) as [m|] eqn:Hm; [|done].
  intros [= <-]. by eapply list_elem_of_lookup_2.
Qed.

(** C37: The category enum is closed. [String] of any byte value is one of the
    names and never panics; what [ParseCategory] returns is always a valid
    category, and exactly the one whose name the text is but for case; any other
    text is the error that lists the names; and every valid category survives
    JSON, for an encoding that reads back the eight names. *)
Theorem categories_closed `{UnicodeLower} (json_string : gostring → gostring)
  (json_parse_string : gostring → option gostring)
  (Hjson : ∀ s, s ∈ categoryNames → json_parse_string (json_string s) = Some s) :
  (∀ c, 0 ≤ c < 256 → ∃ n, Category_String c = Ret n ∧ n ∈ categoryNames) ∧
  (∀ s c, ParseCategory s = Ret c ↔ c ∈ AllCategories ∧ Category_String c = Ret (strings_ToLower s)) ∧
  (∀ s, ParseCategory s = Err ErrUnknownCategory ∨ ∃ c, ParseCategory s = Ret c) ∧
  (∀ c, c ∈ AllCategories → ∃ data, Category_MarshalJSON json_string c = Ret data ∧
     Category_UnmarshalJSON json_parse_string data = Ret c).
Proof.
  pose proof find_named as Hnamed. pose proof Category_String_valid as Hvalid. rewrite Forall_forall in Hnamed, Hvalid.
  assert (∀ s c, ParseCategory s = Ret c ↔ c ∈ AllCategories ∧ Category_String c = Ret (strings_ToLower s)) as Hparse.
  { intros s c. unfold ParseCategory. split.
    - intros [Hc Hn]%(find_category_spec _ _ AllCategories_named). split; [done|]. by rewrite Hvalid.
    - intros [Hc Hn]. rewrite Hvalid in Hn by done. by apply Hnamed. }
  split_and!; [|done| |].
  - intros c Hc. unfold Category_String. change (Z.of_nat (length categoryNames)) with 8.
    destruct (Z.leb_spec 8 c); [exists (go "unknown"); split; [done|left]|]. unfold name_at.
    destruct (Z.ltb_spec c 0); [lia|]. destruct (categoryNames !! Z.to_nat c) as [n|] eqn:Hn.
    + exists n. split; [done|]. by eapply list_elem_of_lookup_2.
    + apply lookup_ge_None in Hn. simpl in Hn. lia.
  - intros s. destruct (decide (Exists (λ c, name_at c = Ret (strings_ToLower s)) AllCategories)) as [He|He].
    + right. apply Exists_exists in He as (c & Hc & Hn). exists c. apply Hparse. split; [done|]. by rewrite Hvalid.
    + left. apply (find_category_spec _ _ AllCategories_named). intros c Hc Hn. apply He, Exists_exists. by exists c.
  - intros c Hc. assert (∃ n, name_at c = Ret n) as [n Hn].
    { pose proof AllCategories_named as Hall. rewrite Forall_forall in Hall. by apply Hall. }
    exists (json_string n). unfold Category_MarshalJSON, Category_UnmarshalJSON. rewrite Hvalid, Hn by done. split; [done|].
    rewrite Hjson by (by eapply name_at_names). apply Hparse. split; [done|]. rewrite Hvalid, Hn by done.
    destruct (Hnamed c Hc n Hn) as (_ & Hascii & Hlow). unfold strings_ToLower. by rewrite Hascii, Hlow.
Qed.

(** The node serves exactly its supported plugins. Of any list of plugins, the
    registry lists the supported ones in order; a name finds the last plugin
    under it, among the supported ones for [GetTool]; and once bridged into a
    fresh mesh registry, whose categories are valid, invoking a name runs the
    plugin [GetTool] finds, its result stamped with the node's id and its errors
    turned into error results, and any other name is "tool not found". *)
Theorem bridge_serves_supported (json_result : ToolResult → gostring) (json_error : goerr → gostring)
  (elapsed : Z) (nodeID : gostring) (tools : list Tool) (m : option Manifest)
  (Hcat : Forall (λ t, 0 ≤ t_Category t < 256) tools) :
  let pr := NewPluginRegistryFrom nodeID tools in
  pg_supportedList pr = filter supported tools ∧
  (∀ name, PluginRegistry_GetAnyTool pr name = last (filter (λ t, t_Name t = name) tools)) ∧
  (∀ name, PluginRegistry_GetTool pr name = last (filter (λ t, t_Name t = name) (filter supported tools))) ∧
  ∃ r, BridgeToMesh json_result json_error elapsed pr (Tools.NewRegistry m) = Ret r ∧
    ∀ name args, Tools.Registry_InvokeLocal r name args =
      match PluginRegistry_GetTool pr name with
      | Some t => bridge_handler json_result json_error elapsed nodeID t args
      | None => Err (Wrapf "registry: %w: %s" (Errorf "tool not found"))
      end.
Proof.
  intros pr. destruct (add_plugin_all nodeID tools) as (Hid & Hlist & Hall & Hsup & _). fold pr in Hid, Hlist, Hall, Hsup.
  split_and!; [done|exact Hall|exact Hsup|].
  set (entry := λ t, match bridge_tool json_result json_error elapsed nodeID t with
                     | Ret e => e
                     | _ => (Tools.MkToolDefinition [] [] [] [] false [] None, λ _, Panic)
                     end).
  assert (∀ t, t ∈ tools → bridge_tool json_result json_error elapsed nodeID t = Ret (entry t) ∧
    Tools.td_Name (entry t).1 = t_Name t ∧ (entry t).2 = bridge_handler json_result json_error elapsed nodeID t) as Hentry.
  { intros t Ht. rewrite Forall_forall in Hcat. specialize (Hcat t Ht). unfold entry, bridge_tool.
    assert (∃ n, Category_String (t_Category t) = Ret n) as [n ->]; [|done].
    unfold Category_String. destruct (Z.leb_spec (Z.of_nat (length categoryNames)) (t_Category t)); [by eexists|].
    unfold name_at. destruct (Z.ltb_spec (t_Category t) 0); [lia|].
    destruct (lookup_lt_is_Some_2 categoryNames (Z.to_nat (t_Category t))) as [n ->]; [lia|by eexists]. }
  assert (∀ l r, (∀ t, t ∈ l → t ∈ tools) →
    foldM_go (λ r tool, '(def, handler) ← bridge_tool json_result json_error elapsed nodeID tool;
      Ret (Tools.Registry_Register r def handler)) r l = Ret (Tools.register_all r (map entry l))) as Hfold.
  { induction l as [|t l IH]; intros r Hin; [done|]. cbn [foldM_go].
    destruct (Hentry t) as (Ht & _ & _); [apply Hin; by left|]. rewrite Ht. simpl. destruct (entry t) as [def handler] eqn:He.
    simpl. rewrite IH by (intros; apply Hin; by right). unfold Tools.register_all. simpl. done. }
  exists (Tools.register_all (Tools.NewRegistry m) (map entry (filter supported tools))). split.
  - unfold BridgeToMesh. rewrite Hid, Hlist. apply Hfold. by intros t [_ ?]%list_elem_of_filter.
  - intros name args. unfold Tools.Registry_InvokeLocal. rewrite Tools.register_all_tools. unfold Tools.last_registered, PluginRegistry_GetTool.
    rewrite Hsup.
    assert (filter (λ p, Tools.td_Name p.1 = name) (map entry (filter supported tools)) =
      map entry (filter (λ t, t_Name t = name) (filter supported tools))) as ->.
    { assert (∀ t, t ∈ filter supported tools → t ∈ tools) as Hin by (by intros t [_ ?]%list_elem_of_filter).
      revert Hin. generalize (filter supported tools) as l. induction l as [|t l IH]; intros Hin; [done|]. cbn [map].
      destruct (Hentry t) as (_ & Hn & _); [apply Hin; by left|].
      rewrite !filter_cons. rewrite IH by (intros; apply Hin; by right).
      destruct (decide (Tools.td_Name (entry t).1 = name)), (decide (t_Name t = name)); try congruence; done. }
    change (map entry ?l) with (entry <$> l). rewrite fmap_last. unfold fmap, option_fmap, option_map.
    destruct (last (filter _ (filter supported tools))) as [t|] eqn:Hl; [|done].
    apply last_Some_elem_of, list_elem_of_filter in Hl as [_ [_ Ht]%list_elem_of_filter].
    destruct (Hentry t Ht) as (_ & _ & Hh). destruct (entry t) as [def handler]. simpl in *. by rewrite Hh.
Qed.

(** C36: The result cache. After any calls, with callers free to assign to the
    results they were given and to overwrite the bytes of their data, a call either
    runs the tool and returns what it returns, or returns a copy of the unaltered
    result of an earlier call with the same arguments that ended ok or with a
    warning less than a ttl ago (for a hash that tells apart the arguments used). The
    copy is new, and so are its bytes if it has any. *)
Theorem cached_Execute_sound (sha256 : gostring → gostring) (zero_time ttl : Z) (ops : list cache_op)
  (h : heap) (c : cachedTool) (handed data : list nat)
  (now now' : Z) (args : gostring) (out : outcome (option ToolResult))
  (Hsha : ∀ s, sha256 s ≠ [])
  (Hinj : ∀ n t a o, Call n t a o ∈ ops → sha256 a = sha256 args → a = args)
  (Hrun : cache_run sha256 (new_cache zero_time ttl) ops = Some (MkCacheState h c handed data)) :
  let '(h', _, r) := cached_Execute sha256 h c now now' args out in
  let value := (λ p, p ≫= deref h') <$> r in
  (value = match out with Ret None => Panic | _ => out end) ∨
  ∃ n t res, value = Ret (Some res) ∧
    (∀ p, r = Ret (Some p) → p ∉ handed ∧
       ∀ cell, hp_results h' !! p = Some cell → rc_Data cell ∈ data → tr_Data res = []) ∧
    Call n t args (Ret (Some res)) ∈ ops ∧ now < t + ttl ∧
    (tr_Status res = StatusOK ∨ tr_Status res = StatusWarning).
Proof.
  assert (cache_inv sha256 ttl ops (MkCacheState h c handed data)) as (Ht & Hh & Hdt & Hc).
  { apply (cache_run_inv sha256 ttl [] ops (new_cache zero_time ttl)); [by split_and!|exact Hrun]. }
  unfold cached_Execute. destruct (cache_hit sha256 c now args) eqn:Hhit.
  - apply andb_true_iff in Hhit as [He%bool_decide_eq_true Hnow%Z.ltb_lt].
    destruct (ct_lastRes c) as [q|]; [|rewrite Hc in He; by destruct (Hsha args)].
    destruct Hc as (n & t & a & res & (_ & Hd & _) & H2 & H3 & H4 & H5).
    destruct (copyResult_spec h q res Hd) as (h' & p & cell & -> & _ & Hp & Hd' & _ & Hcell & _ & Hfresh).
    right. exists n, t, res. rewrite (Hinj _ _ _ _ H3) in H3 by congruence.
    split_and!; [simpl; by rewrite Hd'| |done|lia|done]. intros p' [= <-]. split.
    + intros Hin. rewrite Forall_forall in Hh. apply Hh in Hin. lia.
    + rewrite Hcell. intros c' [= <-] Hin. destruct Hfresh as [Hf|Hf]; [|exact Hf].
      rewrite Forall_forall in Hdt. apply Hdt in Hin. lia.
  - destruct out as [[v|]| | |]; try (by left). pose proof (alloc_spec h v) as Ha.
    destruct (alloc h v) as [h1 p]. destruct Ha as (_ & _ & Hd & _). destruct (decide _); [|left; simpl; by rewrite Hd].
    destruct (copyResult_spec h1 p v Hd) as (h2 & p2 & cell & -> & Hg & _). left. simpl. by rewrite (grows_deref _ _ _ _ Hg Hd).
Qed.

(** ** Lemmas: roles *)

Lemma Roles_generic n : Roles n = [go "generic"] ↔ HasStorageRole n = false.
Proof. unfold Roles, HasStorageRole. destruct n as [[] [] [] [] [] ? ? ? ?]; simpl; by split. Qed.

(** ** Witnesses *)

Definition ascii_only : UnicodeLower := λ s, s.

Lemma categories_closed_witness :
  @ParseCategory ascii_only (go "Storage") = Ret CategoryStorage ∧
  (∃ data, Category_MarshalJSON (λ s, s) 7 = Ret data ∧ @Category_UnmarshalJSON ascii_only Some data = Ret 7).
Proof.
  destruct (@categories_closed ascii_only (λ s, s) Some (λ s _, eq_refl)) as (_ & Hp & _ & Hj). split.
  - apply Hp. split; [apply (bool_decide_unpack _); vm_compute; exact I|vm_compute; reflexivity].
  - apply Hj. apply (bool_decide_unpack _). vm_compute. exact I.
Defined.

Definition result0 : ToolResult := MkToolResult (go "loadavg") [] StatusOK [] (go "{}") (MkResultMetadata 0 [] []).

Definition loadavg : Tool :=
  MkTool (go "loadavg") [] [] CategorySystem [] false (true, []) (λ _, Ret (Some result0)).
Definition zfs : Tool :=
  MkTool (go "zfs_status") [] [] CategoryStorage [] false (false, go "no zpool") (λ _, Ret None).

Lemma bridge_serves_supported_witness :
  ∃ r, BridgeToMesh tr_NodeID (λ _, []) 3 (NewPluginRegistryFrom (go "n1") [loadavg; zfs]) (Tools.NewRegistry None) = Ret r ∧
    Tools.Registry_InvokeLocal r (go "loadavg") [] = Ret (Tools.MkToolResult (go "n1") false) ∧
    Tools.Registry_InvokeLocal r (go "zfs_status") [] = Err (Wrapf "registry: %w: %s" (Errorf "tool not found")).
Proof.
  destruct (bridge_serves_supported tr_NodeID (λ _, []) 3 (go "n1") [loadavg; zfs] None) as (_ & _ & _ & r & Hr & Hi).
  - repeat constructor; vm_compute; discriminate.
  - exists r. split; [exact Hr|]. split; rewrite Hi; vm_compute; reflexivity.
Defined.

(** A call, a caller that overwrites the bytes of its result and then its fields,
    and the same call again. *)
Definition spoiled : list cache_op :=
  [Call 5 6 (go "{}") (Ret (Some result0)); Overwrite 0 (go "xx");
   Mutate 0 (MkToolResult [] [] StatusError [] [] (MkResultMetadata 0 [] []))].

Lemma cached_Execute_sound_witness :
  ∃ h c handed data, cache_run (λ s, go "h" ++ s) (new_cache (-1) 10) spoiled = Some (MkCacheState h c handed data) ∧
    let '(h', _, r) := cached_Execute (λ s, go "h" ++ s) h c 15 16 (go "{}") Panic in
    (λ p, p ≫= deref h') <$> r = Ret (Some result0).
Proof.
  eexists _, _, _, _. split; [vm_compute; reflexivity|].
  assert (∀ n t a o, Call n t a o ∈ spoiled → go "h" ++ a = go "h" ++ go "{}" → a = go "{}") as Hinj
    by (intros n t a o _ [= He]; exact He).
  pose proof (λ h c handed data, cached_Execute_sound (λ s, go "h" ++ s) (-1) 10 _ h c handed data
    15 16 (go "{}") Panic ltac:(discriminate) Hinj) as Hs.
  specialize (Hs _ _ _ _ eq_refl). vm_compute in Hs |- *.
  destruct Hs as [Hs|(n & t & res & Hv & _)]; [discriminate Hs|reflexivity].
Defined.
