(* ===== verification/Delegate.v ===== *)
(** * Credential delegation over the control plane

    [RequestCredential] (pkg/mesh/api/credential.go) and the two credential
    handlers of control.go, on top of the vault. A pending request is a channel of
    capacity one under its nonce; the control loops and the requesting goroutines
    interleave freely. *)

From Stdlib Require Import Ascii.
From stdpp Require Import base numbers gmap strings sorting list.
From S2P Require Import Prelude GoStrings Codec Vault.

Open Scope Z_scope.

(** [CredentialGrantResult]: the sealed credential of the frame and the public key
    of the peer it came from. *)
Record CredentialGrantResult := MkGrantResult { gr_Sealed : bytes; gr_SenderPub : bytes }.

(** ** The granting side *)

Section delegation.
Context `{Crypto}.

(** [handleCredentialRequestFrame]: the sealed credential sent back, if any; a
    node without a vault, a rejected request and a request nothing matches are
    silent. *)
Definition handleCredentialRequestFrame (vault : option Vault) (now now' : Z) (rand : option bytes)
    (req : CredentialRequest) : outcome (option bytes) :=
  match vault with
  | None => Ret None
  | Some v =>
      match Vault_HandleRequest now now' rand v req with
      | Ret grant => Ret grant
      | Err _ => Ret None
      | Panic => Panic
      | Diverge => Diverge
      end
  end.

(** ** The requesting side *)

(** The requester: its private key, the channels of the pending requests by
    nonce, and what the requests returned. *)
Record requester := MkRequester {
  rq_privKey : bytes;
  rq_credResolvers : gmap bytes (option CredentialGrantResult);
  rq_returned : list (bytes * option Credential)
}.

(** [handleCredentialGrantFrame]: a send to every pending request that does not
    block. *)
Definition handleCredentialGrantFrame (r : requester) (res : CredentialGrantResult) : requester :=
  MkRequester (rq_privKey r)
    ((λ ch, match ch with None => Some res | Some _ => ch end) <$> rq_credResolvers r) (rq_returned r).

Inductive delegate_op :=
| Ask (nonce : bytes)  (** a request registers its channel *)
| Grant (res : CredentialGrantResult)  (** a control loop handles a grant frame *)
| Receive (now : Z) (nonce : bytes)  (** a request takes what is in its channel *)
| Cancel (nonce : bytes).  (** the context of a request ends *)

(** One turn of the loop of [RequestCredential]: a grant that does not open is
    dropped and the request waits on. *)
Definition delegate_step (r : requester) (op : delegate_op) : option requester :=
  let finish nonce out :=
    MkRequester (rq_privKey r) (delete nonce (rq_credResolvers r)) (rq_returned r ++ [(nonce, out)]) in
  match op with
  | Ask nonce =>
      match rq_credResolvers r !! nonce with
      | None => Some (MkRequester (rq_privKey r) (<[nonce := None]> (rq_credResolvers r)) (rq_returned r))
      | Some _ => None
      end
  | Grant res => Some (handleCredentialGrantFrame r res)
  | Receive now nonce =>
      match rq_credResolvers r !! nonce with
      | Some (Some res) =>
          match UnsealGrantWithNonce now (gr_Sealed res) (rq_privKey r) (gr_SenderPub res) nonce with
          | Ret payload => Some (finish nonce (Some (sp_Credential payload)))
          | Err _ => Some (MkRequester (rq_privKey r) (<[nonce := None]> (rq_credResolvers r)) (rq_returned r))
          | _ => None
          end
      | _ => None
      end
  | Cancel nonce =>
      match rq_credResolvers r !! nonce with
      | Some _ => Some (finish nonce None)
      | None => None
      end
  end.

Fixpoint delegate_run (r : requester) (ops : list delegate_op) : option requester :=
  match ops with
  | [] => Some r
  | op :: ops => r ← delegate_step r op; delegate_run r ops
  end.

(** ** Lemmas *)

Lemma delegate_run_app r ops ops' :
  delegate_run r (ops ++ ops') = delegate_run r ops ≫= λ r, delegate_run r ops'.
Proof.
  revert r. induction ops as [|op ops IH]; intros r; [done|]. simpl. destruct (delegate_step r op); simpl; [apply IH|done].
Qed.

(** The operation neither takes from, ends nor restarts the request of [nonce]. *)
Definition leaves (nonce : bytes) (op : delegate_op) : Prop :=
  match op with Ask n | Receive _ n | Cancel n => n ≠ nonce | Grant _ => True end.

Lemma step_leaves r op r' nonce :
  leaves nonce op → delegate_step r op = Some r' →
  rq_privKey r' = rq_privKey r ∧
  (∀ res, rq_credResolvers r !! nonce = Some (Some res) → rq_credResolvers r' !! nonce = Some (Some res)) ∧
  (∀ p, p ∈ rq_returned r' → p.1 = nonce → p ∈ rq_returned r).
Proof.
  intros Hop Hs. destruct op as [n|res|now n|n]; simpl in *.
  - destruct (rq_credResolvers r !! n); simplify_eq. simpl. by split_and!; intros; rewrite ?lookup_insert_ne.
  - simplify_eq. simpl. split_and!; try done. intros res' Hl. by rewrite lookup_fmap, Hl.
  - destruct (rq_credResolvers r !! n) as [[res|]|]; [|done..].
    destruct (UnsealGrantWithNonce _ _ _ _ _); simplify_eq; simpl.
    + split_and!; [done|by intros; rewrite lookup_delete_ne|].
      intros p [Hp|Hp%list_elem_of_singleton]%elem_of_app; [done|]. by subst p; intros [=].
    + by split_and!; intros; rewrite ?lookup_insert_ne.
  - destruct (rq_credResolvers r !! n); simplify_eq. simpl. split_and!; [done|by intros; rewrite lookup_delete_ne|].
    intros p [Hp|Hp%list_elem_of_singleton]%elem_of_app; [done|]. by subst p; intros [=].
Qed.

Lemma run_leaves r ops r' nonce :
  Forall (leaves nonce) ops → delegate_run r ops = Some r' →
  rq_privKey r' = rq_privKey r ∧
  (∀ res, rq_credResolvers r !! nonce = Some (Some res) → rq_credResolvers r' !! nonce = Some (Some res)).
Proof.
  intros Hall. revert r. induction Hall as [|op ops Hop Hall IH]; intros r Hr; simpl in Hr; [by simplify_eq|].
  destruct (delegate_step r op) as [r1|] eqn:Hs; simpl in Hr; [|done].
  destruct (step_leaves r op r1 nonce Hop Hs) as (Hk & Hch & _). destruct (IH r1 Hr) as [Hk' Hch'].
  split; [congruence|]. auto.
Qed.

Definition no_grant (op : delegate_op) : Prop := match op with Grant _ => False | _ => True end.

(** The channel of the request holds no grant that opens for it. *)
Definition hopeless (r : requester) (nonce : bytes) : Prop :=
  match rq_credResolvers r !! nonce with
  | Some (Some res) => ∀ now, ¬ ∃ payload,
      UnsealGrantWithNonce now (gr_Sealed res) (rq_privKey r) (gr_SenderPub res) nonce = Ret payload
  | _ => True
  end.

Lemma hopeless_step r op r' nonce :
  no_grant op → hopeless r nonce → delegate_step r op = Some r' →
  rq_privKey r' = rq_privKey r ∧ hopeless r' nonce ∧
  ∀ c, (nonce, Some c) ∈ rq_returned r' → (nonce, Some c) ∈ rq_returned r.
Proof.
  intros Hng Hh Hs. unfold hopeless in *. destruct op as [n|res|now n|n]; simpl in *; [|done|..].
  - destruct (rq_credResolvers r !! n) eqn:Hn; simplify_eq. simpl. split_and!; [done| |done].
    destruct (decide (n = nonce)) as [->|]; [by rewrite lookup_insert_eq|by rewrite lookup_insert_ne].
  - destruct (rq_credResolvers r !! n) as [[res|]|] eqn:Hn; [|done..].
    destruct (UnsealGrantWithNonce _ _ _ _ _) as [payload| | |] eqn:Hu; simplify_eq; simpl.
    + destruct (decide (n = nonce)) as [->|Hne].
      { rewrite Hn in Hh. destruct (Hh now). by exists payload. }
      split_and!; [done|by rewrite lookup_delete_ne|].
      intros c [Hc|Hc%list_elem_of_singleton]%elem_of_app; [done|]. by injection Hc as -> _.
    + split_and!; [done| |done].
      destruct (decide (n = nonce)) as [->|]; [by rewrite lookup_insert_eq|by rewrite lookup_insert_ne].
  - destruct (rq_credResolvers r !! n) eqn:Hn; simplify_eq. simpl. split_and!; [done| |].
    + destruct (decide (n = nonce)) as [->|]; [by rewrite lookup_delete_eq|by rewrite lookup_delete_ne].
    + intros c [Hc|Hc%list_elem_of_singleton]%elem_of_app; [done|]. by destruct n.
Qed.

Lemma hopeless_run r ops r' nonce :
  Forall no_grant ops → hopeless r nonce → delegate_run r ops = Some r' →
  ∀ c, (nonce, Some c) ∈ rq_returned r' → (nonce, Some c) ∈ rq_returned r.
Proof.
  intros Hall. revert r. induction Hall as [|op ops Hop Hall IH]; intros r Hh Hr; simpl in Hr; [by simplify_eq|].
  destruct (delegate_step r op) as [r1|] eqn:Hs; simpl in Hr; [|done].
  destruct (hopeless_step r op r1 nonce Hop Hh Hs) as (Hk & Hh1 & Hret). intros c Hc. by apply Hret, (IH r1).
Qed.

End delegation.

(** ** Properties *)

(** C28: A delegated credential reaches its requester. A node with a vault answers
    a valid request it has a credential for with a grant; when that grant is
    handled at the requester while the channel of the request is empty, then
    whatever else the requester does meanwhile (other grants included), the
    request returns that credential the next time it looks, within the grant's
    five minutes. *)
Theorem credential_delegated `{CryptoLaws} (v : Vault) (req : CredentialRequest) (now now' later : Z)
  (cred : Credential) (rand plaintext : bytes) (r r1 : requester) (ops : list delegate_op)
  (Hvalid : validateRequest now req = Ret tt)
  (Hmatch : Vault_Match v (cr_HostPattern req) = Ret (Some cred))
  (Hreq : cr_RequesterPubKey req = ed_pub (rq_privKey r))
  (Hk : length (rq_privKey r) = 64%nat) (Hv : length (v_privateKey v) = 64%nat) (Hrand : length rand = 24%nat)
  (Hnow : 0 ≤ now' ≤ 2 ^ 62) (Hlater : later ≤ now' + DelegationGrantTTL)
  (Hjson : let payload := MkSealedPayload cred (cr_Nonce req) now' (now' + DelegationGrantTTL) in
     json_payload payload = Some plaintext ∧ json_parse_payload plaintext = Some payload)
  (Hpending : rq_credResolvers r !! cr_Nonce req = Some None)
  (Hops : Forall (leaves (cr_Nonce req)) ops) :
  ∃ sealed, handleCredentialRequestFrame (Some v) now now' (Some rand) req = Ret (Some sealed) ∧
    (delegate_run r (Grant (MkGrantResult sealed (ed_pub (v_privateKey v))) :: ops) = Some r1 →
     ∃ r2, delegate_step r1 (Receive later (cr_Nonce req)) = Some r2 ∧
       rq_returned r2 = rq_returned r1 ++ [(cr_Nonce req, Some cred)] ∧
       rq_credResolvers r2 !! cr_Nonce req = None).
Proof.
  destruct Hjson as [Hjson Hparse]. assert (DelegationGrantTTL = 300000000000) as HT by done.
  destruct (Unseal_SealGrant now' DelegationGrantTTL cred (rq_privKey r) (v_privateKey v) (cr_Nonce req) rand plaintext)
    as (sealed & Hs & Hu); try done; [i64_lia|].
  exists sealed. split.
  - unfold handleCredentialRequestFrame, Vault_HandleRequest. rewrite Hvalid. cbn [mbind outcome_bind].
    rewrite Hmatch. cbn [mbind outcome_bind]. by rewrite Hreq, Hs.
  - intros Hrun. cbn [delegate_run delegate_step mbind option_bind] in Hrun.
    set (res := MkGrantResult sealed (ed_pub (v_privateKey v))) in *.
    destruct (run_leaves _ _ _ _ Hops Hrun) as [Hkey Hch].
    assert (rq_credResolvers r1 !! cr_Nonce req = Some (Some res)) as Hr1.
    { apply Hch. simpl. by rewrite lookup_fmap, Hpending. }
    cbn [delegate_step]. rewrite Hr1, Hkey. cbn [rq_privKey handleCredentialGrantFrame gr_Sealed gr_SenderPub res].
    rewrite Hu, decide_True, (proj2 (Z.leb_le _ _)) by done. eexists. split; [done|]. simpl.
    by rewrite lookup_delete_eq.
Qed.

(** A grant can be lost. Two requests are pending with empty channels; when a
    grant that does not open for the first is handled before the first request's
    own grant, and no turn of the first request comes between the two, then its
    grant is dropped: it never returns a credential, whatever is received or
    cancelled later, unless a new grant arrives. *)
Theorem grant_can_be_lost `{Crypto} (r r' : requester) (nonce : bytes)
  (other own : CredentialGrantResult) (ops : list delegate_op)
  (Hpending : rq_credResolvers r !! nonce = Some None)
  (Hother : ∀ now, ¬ ∃ payload,
     UnsealGrantWithNonce now (gr_Sealed other) (rq_privKey r) (gr_SenderPub other) nonce = Ret payload)
  (Hops : Forall no_grant ops)
  (Hrun : delegate_run r (Grant other :: Grant own :: ops) = Some r') :
  ∀ c, (nonce, Some c) ∈ rq_returned r' → (nonce, Some c) ∈ rq_returned r.
Proof.
  cbn [delegate_run delegate_step mbind option_bind] in Hrun. intros c Hc.
  eapply (hopeless_run _ _ _ nonce Hops) in Hrun; [|unfold hopeless|exact Hc]; [exact Hrun|].
  simpl. rewrite !lookup_fmap, Hpending. simpl. exact Hother.
Qed.

(** ** Witnesses *)

Definition key0 : bytes := replicate 64 zero.
Definition nonce0 : bytes := cr_Nonce request0.
Definition requester0 : requester := MkRequester key0 {[nonce0 := None]} [].

Lemma credential_delegated_witness :
  ∃ sealed, @handleCredentialRequestFrame crypto0 (Some vault0) 600 1000 (Some (replicate 24 zero)) request0 = Ret (Some sealed) ∧
    ∃ r1 r2, @delegate_run crypto0 requester0 [Grant (MkGrantResult sealed (replicate 32 zero))] = Some r1 ∧
      @delegate_step crypto0 r1 (Receive 2000 nonce0) = Some r2 ∧ rq_returned r2 = [(nonce0, Some cred0)].
Proof.
  destruct (@credential_delegated crypto0 crypto_laws0 vault0 request0 600 1000 2000 cred0 (replicate 24 zero) [] requester0
    (MkRequester key0 {[nonce0 := Some (MkGrantResult (replicate 40 zero) (replicate 32 zero))]} []) [])
    as (sealed & Hs & Hr); try (vm_compute; reflexivity); try (vm_compute; split; reflexivity).
  - vm_compute. split; discriminate.
  - vm_compute. discriminate.
  - constructor.
  - assert (sealed = replicate 40 zero) as -> by (vm_compute in Hs; injection Hs as <-; reflexivity).
    exists (replicate 40 zero). split; [exact Hs|]. destruct Hr as (r2 & H1 & H2 & _); [vm_compute; reflexivity|].
    eexists _, r2. split; [vm_compute; reflexivity|]. split; [exact H1|exact H2].
Defined.

Lemma grant_can_be_lost_witness :
  ∃ r', @delegate_run crypto0 requester0
      (Grant (MkGrantResult [] []) :: Grant (MkGrantResult (replicate 40 zero) (replicate 32 zero)) ::
       [Receive 2000 nonce0; Cancel nonce0]) = Some r' ∧
    (nonce0, Some cred0) ∉ rq_returned r'.
Proof.
  eexists. split; [vm_compute; reflexivity|]. intros Hin.
  eapply (@grant_can_be_lost crypto0 requester0 _ nonce0 (MkGrantResult [] [])
    (MkGrantResult (replicate 40 zero) (replicate 32 zero)) [Receive 2000 nonce0; Cancel nonce0]) in Hin.
  - apply elem_of_nil in Hin. exact Hin.
  - vm_compute. reflexivity.
  - intros now (payload & Hp). vm_compute in Hp. discriminate Hp.
  - repeat constructor.
  - vm_compute. reflexivity.
Defined.
