(* ===== verification/Circuit.v ===== *)
(** * Stitched circuits: routing/circuit.go, bufpool.go, bufpool_shard.go

    The forwarding buffers' pools, the copy loop of one direction of a circuit, and
    the watchdog that closes an idle one. A pool's buffers have identities, so
    that who owns which can be said; the two ends of a direction are what their
    reads and writes return. *)

From Stdlib Require Import Ascii.
From stdpp Require Import base numbers gmap strings sorting list.
From S2P Require Import Prelude GoStrings Codec.

Open Scope Z_scope.

(** ** Buffer pools *)

(** A buffer: its identity and its capacity. *)
Record buffer := MkBuffer { bf_id : nat; bf_cap : Z }.

(** [bufPool]: a channel's contents, oldest first, with its capacity. *)
Record bufPool := MkBufPool { bp_ch : list buffer; bp_capacity : nat; bp_bufSize : Z }.

Definition newBufPool (capacity : nat) (bufSize : Z) : bufPool := MkBufPool [] capacity bufSize.

(** [get]; [fresh] is the identity of a buffer [make] allocates. *)
Definition bufPool_get (p : bufPool) (fresh : nat) : buffer * bufPool :=
  match bp_ch p with
  | buf :: ch => (buf, MkBufPool ch (bp_capacity p) (bp_bufSize p))
  | [] => (MkBuffer fresh (bp_bufSize p), p)
  end.

(** A send that does not block. *)
Definition try_send (p : bufPool) (buf : buffer) : option bufPool :=
  if (length (bp_ch p) <? bp_capacity p)%nat
  then Some (MkBufPool (bp_ch p ++ [buf]) (bp_capacity p) (bp_bufSize p))
  else None.

Definition bufPool_put (p : bufPool) (buf : buffer) : bufPool :=
  if negb (bf_cap buf =? bp_bufSize p) then p else default p (try_send p buf).

(** [shardedBufPool] *)
Record shardedBufPool := MkShardedBufPool {
  sp_shards : list bufPool;
  sp_getCounter : Z;
  sp_putCounter : Z
}.

Definition newShardedBufPool (gomaxprocs : Z) (totalCapacity bufSize : Z) : shardedBufPool :=
  let numShards := if gomaxprocs <? 1 then 1 else gomaxprocs in
  let perShard := Z.quot totalCapacity numShards in
  let perShard := if perShard <? 1 then 1 else perShard in
  MkShardedBufPool (replicate (Z.to_nat numShards) (newBufPool (Z.to_nat perShard) bufSize)) 0 0.

(** The shards in the order a call tries them: from the counter's shard on. *)
Definition shard_order (counter : Z) (numShards : nat) : list nat :=
  let idx := Z.to_nat (counter mod 2 ^ 64 mod Z.of_nat numShards) in
  map (λ i, Nat.modulo (idx + i) numShards) (seq 0 numShards).

(** The first shard of [order] with a buffer, and the shards without it. *)
Fixpoint take_from (shards : list bufPool) (order : list nat) : option (buffer * list bufPool) :=
  match order with
  | [] => None
  | i :: order =>
      match shards !! i with
      | Some p =>
          match bp_ch p with
          | buf :: ch => Some (buf, <[i := MkBufPool ch (bp_capacity p) (bp_bufSize p)]> shards)
          | [] => take_from shards order
          end
      | None => take_from shards order
      end
  end.

Definition shardedBufPool_get (sp : shardedBufPool) (fresh : nat) : buffer * shardedBufPool :=
  let counter := (sp_getCounter sp + 1) mod 2 ^ 64 in
  let size := match sp_shards sp with p :: _ => bp_bufSize p | [] => 0 end in
  match take_from (sp_shards sp) (shard_order counter (length (sp_shards sp))) with
  | Some (buf, shards) => (buf, MkShardedBufPool shards counter (sp_putCounter sp))
  | None => (MkBuffer fresh size, MkShardedBufPool (sp_shards sp) counter (sp_putCounter sp))
  end.

Fixpoint give_to (shards : list bufPool) (buf : buffer) (order : list nat) : option (list bufPool) :=
  match order with
  | [] => None
  | i :: order =>
      match shards !! i with
      | Some p =>
          match try_send p buf with
          | Some p => Some (<[i := p]> shards)
          | None => give_to shards buf order
          end
      | None => give_to shards buf order
      end
  end.

Definition shardedBufPool_put (sp : shardedBufPool) (buf : buffer) : shardedBufPool :=
  let size := match sp_shards sp with p :: _ => bp_bufSize p | [] => 0 end in
  if negb (bf_cap buf =? size) then sp
  else
    let counter := (sp_putCounter sp + 1) mod 2 ^ 64 in
    MkShardedBufPool
      (default (sp_shards sp) (give_to (sp_shards sp) buf (shard_order counter (length (sp_shards sp)))))
      (sp_getCounter sp) counter.

(** ** The copy loop *)

(** What a [Read] returns: the bytes, and an error. *)
Record read_result := MkRead { rd_data : bytes; rd_err : option goerr }.

(** What a [Write] returns: how many bytes went out, and an error. *)
Record write_result := MkWrite { wr_n : nat; wr_err : option goerr }.

Definition EOF : goerr := Errorf "EOF".
Definition ErrShortWrite : goerr := Errorf "short write".

(** [copyPooledTracked]: the bytes that went out, the total, the returned error and
    the number of times the tracker was touched. [None] is a loop that has not
    ended when the listed results are used up. *)
Fixpoint copyPooledTracked (reads : list read_result) (writes : list write_result) (out : bytes) (total : Z)
    (touched : nat) : option (bytes * Z * option goerr * nat) :=
  match reads with
  | [] => None
  | MkRead data readErr :: reads =>
      let next writes out total touched :=
        match readErr with
        | Some e => Some (out, total, if decide (e = EOF) then None else Some e, touched)
        | None => copyPooledTracked reads writes out total touched
        end in
      match data with
      | [] => next writes out total touched
      | _ =>
          match writes with
          | [] => None
          | MkWrite nw writeErr :: writes =>
              let out := out ++ take nw data in
              let total := if (0 <? nw)%nat then i64 (total + Z.of_nat nw) else total in
              match writeErr with
              | Some e => Some (out, total, Some e, S touched)
              | None =>
                  if (length data =? nw)%nat then next writes out total (S touched)
                  else Some (out, total, Some ErrShortWrite, S touched)
              end
          end
      end
  end.

(** ** The watchdog *)

Definition millisecond : Z := 1000000.

Definition DefaultIdleTimeout : Z := 5 * 60 * second.

Definition checkInterval (timeout : Z) : Z :=
  let checkInterval := Z.quot timeout 2 in
  if checkInterval <? 10 * millisecond then 10 * millisecond
  else if 30 * second <? checkInterval then 30 * second
  else checkInterval.

(** [tracker.idleDuration() >= timeout] at [now]. *)
Definition is_idle (lastActive : Z → Z) (timeout now : Z) : bool := timeout <=? time_Sub now (lastActive now).

(** The watchdog's loop over the ticks until the stitch ends at [stop]: the time
    the connections are closed, if they are. *)
Fixpoint watchdog (fuel : nat) (lastActive : Z → Z) (timeout interval now stop : Z) : option Z :=
  match fuel with
  | O => None
  | S fuel =>
      let now := now + interval in
      if stop <=? now then None
      else if is_idle lastActive timeout now then Some now
      else watchdog fuel lastActive timeout interval now stop
  end.

(** [startIdleWatchdog] from [start] on: a tick per interval. *)
Definition startIdleWatchdog (lastActive : Z → Z) (timeout start stop : Z) : option Z :=
  watchdog (Z.to_nat ((stop - start) / checkInterval timeout)) lastActive timeout (checkInterval timeout) start stop.

(** ** Lemmas: pools *)

(** Users take buffers and give back those they hold, at most once each. *)
Inductive pool_op := Get | Put (buf : buffer).

(** The pool, the buffers in use, and the next identity [make] gives. *)
Record pool_state := MkPoolState { po_pool : bufPool; po_held : list buffer; po_next : nat }.

Definition pool_step (s : pool_state) (op : pool_op) : option pool_state :=
  match op with
  | Get =>
      let '(buf, p) := bufPool_get (po_pool s) (po_next s) in
      Some (MkPoolState p (buf :: po_held s) (S (po_next s)))
  | Put buf =>
      match list_find (λ b, bf_id b = bf_id buf) (po_held s) with
      | Some (i, b) => Some (MkPoolState (bufPool_put (po_pool s) b) (delete i (po_held s)) (po_next s))
      | None => None
      end
  end.

Fixpoint pool_run (s : pool_state) (ops : list pool_op) : option pool_state :=
  match ops with
  | [] => Some s
  | op :: ops => s ← pool_step s op; pool_run s ops
  end.

(** No buffer is in two places, and none is of the wrong size. *)
Definition pool_inv (capacity : nat) (size : Z) (s : pool_state) : Prop :=
  let all := bp_ch (po_pool s) ++ po_held s in
  NoDup (map bf_id all) ∧ Forall (λ b, bf_cap b = size ∧ (bf_id b < po_next s)%nat) all ∧
  bp_capacity (po_pool s) = capacity ∧ bp_bufSize (po_pool s) = size ∧
  (length (bp_ch (po_pool s)) ≤ capacity)%nat.

Lemma pool_step_inv capacity size s op s' :
  pool_inv capacity size s → pool_step s op = Some s' → pool_inv capacity size s'.
Proof.
  destruct s as [[ch c z] held next]. intros (Hnd & Hall & Hc & Hz & Hl) Hs. simpl in *. subst c z.
  destruct op as [|buf]; simpl in Hs.
  - unfold bufPool_get in Hs. simpl in Hs. destruct ch as [|b ch]; simplify_eq; unfold pool_inv; simpl in *.
    + split_and!; [|constructor; [simpl; lia|]|done|done|lia].
      * constructor; [|done]. intros (b & Hb & Hin)%list_elem_of_fmap. rewrite Forall_forall in Hall.
        apply Hall in Hin as [_ Hlt]. simpl in Hb. lia.
      * eapply Forall_impl; [exact Hall|]. simpl. intros b []. split; [done|lia].
    + assert (ch ++ b :: held ≡ₚ b :: ch ++ held) as Hp by by rewrite Permutation_middle.
      split_and!; [|by rewrite Hp; eapply Forall_impl; [exact Hall|]; simpl; intros ? []; split; [done|lia]|done|done|lia].
      unfold map. fold (map bf_id). change (NoDup (bf_id <$> (ch ++ b :: held))). by rewrite Hp.
  - destruct (list_find _ held) as [[i b]|] eqn:Hf; simplify_eq. apply list_find_Some in Hf as (Hi & _ & _).
    assert (held ≡ₚ b :: delete i held) as Hp by by apply delete_Permutation.
    assert (NoDup (bf_id <$> (ch ++ b :: delete i held))) as Hnd' by (rewrite <-Hp; exact Hnd).
    assert (Forall (λ b, bf_cap b = size ∧ (bf_id b < next)%nat) (ch ++ b :: delete i held)) as Hall'
      by (rewrite <-Hp; exact Hall).
    assert (bf_cap b = size) as Hb.
    { rewrite Forall_forall in Hall'. apply Hall'. apply elem_of_app. right. by left. }
    unfold bufPool_put, try_send. simpl. rewrite Hb, Z.eqb_refl. simpl.
    destruct (Nat.ltb_spec (length ch) capacity); unfold pool_inv; simpl.
    + rewrite <-(assoc_L (++)). simpl. split_and!; try done. rewrite length_app. simpl. lia.
    + split_and!; try done.
      * rewrite fmap_app, fmap_cons, <-Permutation_middle in Hnd'. apply list.NoDup_cons in Hnd' as [_ Hnd'].
        by rewrite <-fmap_app in Hnd'.
      * rewrite <-Permutation_middle in Hall'. by apply Forall_cons in Hall' as [_ ?].
Qed.

Lemma pool_run_inv capacity size s ops s' :
  pool_inv capacity size s → pool_run s ops = Some s' → pool_inv capacity size s'.
Proof.
  revert s. induction ops as [|op ops IH]; intros s Hi Hr; simpl in Hr; [by simplify_eq|].
  destruct (pool_step s op) as [s1|] eqn:Hs; simpl in Hr; [|done]. eapply IH; [|exact Hr]. by eapply pool_step_inv.
Qed.

(** The order of a call visits every shard once. *)
Lemma shard_order_perm counter n : shard_order counter n ≡ₚ seq 0 n.
Proof.
  unfold shard_order. destruct (decide (n = 0)%nat) as [->|Hn]; [done|].
  set (idx := Z.to_nat _). assert (idx < n)%nat as Hidx.
  { unfold idx. pose proof (Z.mod_pos_bound (counter mod 2 ^ 64) (Z.of_nat n)). lia. }
  apply NoDup_Permutation; [|apply NoDup_seq|].
  - change (NoDup ((λ i, (idx + i) `mod` n)%nat <$> seq 0 n)). apply NoDup_fmap_2_strong; [|apply NoDup_seq].
    intros i j Hi Hj Heq. apply elem_of_seq in Hi, Hj.
    assert (∀ k, (k < n)%nat → ((idx + k) `mod` n = if decide (idx + k < n) then idx + k else idx + k - n)%nat) as Hmod.
    { intros k Hk. case_decide; [by rewrite Nat.mod_small|].
      rewrite <-(Nat.mod_unique (idx + k) n 1 (idx + k - n)); lia. }
    rewrite !Hmod in Heq by lia. repeat case_decide; lia.
  - intros x. rewrite list_elem_of_fmap. split.
    + intros (i & -> & _). apply elem_of_seq. pose proof (Nat.mod_upper_bound (idx + i) n). lia.
    + intros Hx%elem_of_seq. exists (if decide (idx ≤ x) then x - idx else n - idx + x)%nat.
      rewrite elem_of_seq. case_decide; (split; [|lia]).
      * rewrite Nat.mod_small; lia.
      * rewrite <-(Nat.mod_unique (idx + (n - idx + x)) n 1 x); lia.
Qed.

(** The buffers of all the shards. *)
Definition pooled (shards : list bufPool) : list buffer := shards ≫= bp_ch.

Lemma take_from_None shards order :
  take_from shards order = None → ∀ i p, i ∈ order → shards !! i = Some p → bp_ch p = [].
Proof.
  induction order as [|j order IH]; simpl; [by intros _ i p ?%elem_of_nil|].
  intros Ht i p [->|Hi]%elem_of_cons Hp; [|destruct (shards !! j) as [q|]; [destruct (bp_ch q); [by eapply IH|done]|by eapply IH]].
  rewrite Hp in Ht. by destruct (bp_ch p).
Qed.

Lemma take_from_Some shards order buf shards' :
  take_from shards order = Some (buf, shards') →
  pooled shards ≡ₚ buf :: pooled shards' ∧ length shards' = length shards.
Proof.
  induction order as [|j order IH]; simpl; [done|]. destruct (shards !! j) as [p|] eqn:Hp; [|apply IH].
  destruct (bp_ch p) as [|b ch] eqn:Hch; [apply IH|]. intros [= <- <-]. split; [|by rewrite length_insert].
  unfold pooled. rewrite <-(take_drop_middle shards j p Hp) at 1. rewrite insert_take_drop by (by eapply lookup_lt_Some).
  rewrite !bind_app, !bind_cons. simpl. rewrite Hch. cbn [app]. by rewrite <-Permutation_middle.
Qed.

Lemma give_to_None shards buf order :
  give_to shards buf order = None → ∀ i p, i ∈ order → shards !! i = Some p → (bp_capacity p ≤ length (bp_ch p))%nat.
Proof.
  induction order as [|j order IH]; simpl; [by intros _ i p ?%elem_of_nil|].
  intros Ht i p [->|Hi]%elem_of_cons Hp.
  - rewrite Hp in Ht. unfold try_send in Ht. by destruct (Nat.ltb_spec (length (bp_ch p)) (bp_capacity p)).
  - destruct (shards !! j) as [q|]; [destruct (try_send q buf); [done|by eapply IH]|by eapply IH].
Qed.

Lemma give_to_Some shards buf order shards' :
  give_to shards buf order = Some shards' →
  pooled shards' ≡ₚ buf :: pooled shards ∧ length shards' = length shards.
Proof.
  induction order as [|j order IH]; simpl; [done|]. destruct (shards !! j) as [p|] eqn:Hp; [|apply IH].
  destruct (try_send p buf) as [p'|] eqn:Hs; [|apply IH]. intros [= <-]. split; [|by rewrite length_insert].
  unfold try_send in Hs. destruct (_ <? _)%nat; [|done]. injection Hs as <-.
  unfold pooled. rewrite <-(take_drop_middle shards j p Hp) at 2. rewrite insert_take_drop by (by eapply lookup_lt_Some).
  rewrite !bind_app, !bind_cons. simpl. rewrite <-(assoc_L (++)). simpl. by rewrite !Permutation_middle.
Qed.

(** ** Lemmas: the watchdog *)

Lemma checkInterval_bounds timeout :
  10 * millisecond ≤ checkInterval timeout ≤ 30 * second ∧
  (20 * millisecond ≤ timeout → 2 * checkInterval timeout ≤ timeout).
Proof.
  unfold checkInterval, millisecond, second. assert (10 * 1000000 ≤ 30 * 1000000000) by lia.
  destruct (Z.ltb_spec (Z.quot timeout 2) (10 * 1000000)).
  - split; [lia|]. intros Ht. assert (10 * 1000000 ≤ Z.quot timeout 2); [|lia].
    apply Z.quot_le_lower_bound; lia.
  - destruct (Z.ltb_spec (30 * 1000000000) (Z.quot timeout 2)); (split; [lia|]); intros Ht;
      pose proof (Z.mul_quot_le timeout 2 ltac:(lia) ltac:(lia)); lia.
Qed.

Lemma watchdog_Some fuel lastActive timeout interval now stop c :
  0 < interval → watchdog fuel lastActive timeout interval now stop = Some c →
  is_idle lastActive timeout c = true ∧ now < c < stop ∧
  ∀ k, 0 < k → now + k * interval < c → is_idle lastActive timeout (now + k * interval) = false.
Proof.
  intros Hi. revert now. induction fuel as [|fuel IH]; intros now; simpl; [done|].
  destruct (Z.leb_spec stop (now + interval)); [done|].
  destruct (is_idle lastActive timeout (now + interval)) eqn:Hidle.
  - intros [= <-]. split_and!; [done|lia|lia|]. intros k Hk Hlt. nia.
  - intros Hw. destruct (IH _ Hw) as (H1 & H2 & H3). split_and!; [done|lia|lia|]. intros k Hk Hlt.
    destruct (decide (k = 1)) as [->|]; [by rewrite Z.mul_1_l|].
    replace (now + k * interval) with (now + interval + (k - 1) * interval) in * by lia. apply H3; lia.
Qed.

(** A tick that finds the circuit idle closes it, or one before did. *)
Lemma watchdog_fires fuel lastActive timeout interval now stop k :
  0 < interval → 0 < k ≤ Z.of_nat fuel → now + k * interval < stop →
  is_idle lastActive timeout (now + k * interval) = true →
  ∃ c, watchdog fuel lastActive timeout interval now stop = Some c ∧ c ≤ now + k * interval.
Proof.
  intros Hi. revert now k. induction fuel as [|fuel IH]; intros now k Hk Hstop Hidle; [lia|]. simpl.
  destruct (Z.leb_spec stop (now + interval)); [nia|].
  destruct (is_idle lastActive timeout (now + interval)) eqn:Hid; [exists (now + interval); split; [done|nia]|].
  destruct (decide (k = 1)) as [->|]; [by rewrite Z.mul_1_l, Hid in Hidle|].
  destruct (IH (now + interval) (k - 1)) as (c & Hc & Hle); [lia|lia|by replace (now + interval + (k - 1) * interval) with (now + k * interval) by lia|].
  exists c. split; [done|lia].
Qed.

(** ** Properties *)

(** The contract of [io.Writer]: no write reports more bytes than it was given. *)
Fixpoint writes_fit (reads : list read_result) (writes : list write_result) : Prop :=
  match reads with
  | [] => True
  | r :: reads =>
      match rd_data r, writes with
      | [], _ => writes_fit reads writes
      | _, [] => True
      | _, w :: writes => (wr_n w ≤ length (rd_data r))%nat ∧ writes_fit reads writes
      end
  end.

(** Buffers have one owner. Whatever users take from a pool and give back, at
    no time is a buffer both in the pool and in use, or in use twice; the pool
    never holds more than its capacity; and every buffer is of the pool's size. *)
Theorem buffers_have_one_owner (capacity : nat) (bufSize : Z) (ops : list pool_op) (s : pool_state)
  (Hrun : pool_run (MkPoolState (newBufPool capacity bufSize) [] 0) ops = Some s) :
  let all := bp_ch (po_pool s) ++ po_held s in
  NoDup (map bf_id all) ∧ Forall (λ b, bf_cap b = bufSize) all ∧ (length (bp_ch (po_pool s)) ≤ capacity)%nat.
Proof.
  apply (pool_run_inv capacity bufSize) in Hrun as (Hnd & Hall & _ & _ & Hl).
  - split_and!; [done| |done]. eapply Forall_impl; [exact Hall|]. by intros b [].
  - unfold pool_inv. simpl. split_and!; [constructor|constructor|done|done|lia].
Qed.

(** The sharded pool wastes nothing. [get] allocates only when every shard is
    empty, and otherwise takes one pooled buffer and leaves the others; [put] of a
    buffer of the right size drops it only when every shard is full, and
    otherwise adds it to the others. *)
Theorem shards_steal (sp : shardedBufPool) (fresh : nat) (buf : buffer)
  (Hsize : ∃ p shards, sp_shards sp = p :: shards ∧ bf_cap buf = bp_bufSize p) :
  (let '(got, sp') := shardedBufPool_get sp fresh in
   if decide (pooled (sp_shards sp) = [])
   then bf_id got = fresh ∧ sp_shards sp' = sp_shards sp
   else pooled (sp_shards sp) ≡ₚ got :: pooled (sp_shards sp')) ∧
  (let sp' := shardedBufPool_put sp buf in
   if decide (Forall (λ p, (bp_capacity p ≤ length (bp_ch p))%nat) (sp_shards sp))
   then sp_shards sp' = sp_shards sp
   else pooled (sp_shards sp') ≡ₚ buf :: pooled (sp_shards sp)).
Proof.
  destruct Hsize as (p0 & shards0 & Hsp & Hcap). split.
  - unfold shardedBufPool_get. set (order := shard_order _ _).
    destruct (take_from (sp_shards sp) order) as [[got shards]|] eqn:Ht.
    + apply take_from_Some in Ht as [Hp _]. rewrite decide_False; [done|].
      intros He. rewrite He in Hp. by apply Permutation_nil_cons in Hp.
    + rewrite decide_True; [done|]. unfold pooled.
      assert (Forall (λ p, bp_ch p = []) (sp_shards sp)) as Hall.
      { apply Forall_lookup. intros i p Hp. eapply take_from_None; [exact Ht| |exact Hp].
        unfold order. rewrite shard_order_perm. apply elem_of_seq. apply lookup_lt_Some in Hp. lia. }
      clear -Hall. induction Hall as [|p shards Hp Hall IH]; [done|]. simpl. by rewrite Hp.
  - assert (match sp_shards sp with p :: _ => bp_bufSize p | [] => 0 end = bf_cap buf) as Hm by (rewrite Hsp; done).
    unfold shardedBufPool_put. rewrite Hm, Z.eqb_refl. cbn [negb sp_shards]. set (order := shard_order _ _).
    destruct (give_to (sp_shards sp) buf order) as [shards|] eqn:Hg; simpl.
    + rewrite decide_False; [by apply give_to_Some in Hg as [? _]|]. intros Hfull.
      assert (give_to (sp_shards sp) buf order = None) as Hn; [|by rewrite Hn in Hg].
      clear -Hfull. generalize order as l. induction l as [|i l IH]; simpl; [done|].
      destruct (sp_shards sp !! i) as [p|] eqn:Hp; [|done]. unfold try_send.
      rewrite (proj2 (Nat.ltb_ge _ _)); [done|]. by eapply (Forall_lookup_1 _ _ _ _ Hfull).
    + rewrite decide_True; [done|]. apply Forall_lookup. intros i p Hp.
      eapply give_to_None; [exact Hg| |exact Hp]. unfold order. rewrite shard_order_perm. apply elem_of_seq.
      apply lookup_lt_Some in Hp. lia.
Qed.

(** What a direction of a circuit forwards. When no write reports more bytes
    than it was given, the bytes that went out are a prefix of the bytes read and
    the returned total counts them; a nil error means that everything up to the
    end of the input went out. *)
Theorem copy_forwards_prefix (reads : list read_result) (writes : list write_result)
  (out : bytes) (total : Z) (err : option goerr) (touched : nat)
  (Hwrites : writes_fit reads writes)
  (Hsize : Z.of_nat (length (reads ≫= rd_data)) ≤ MaxInt64)
  (Hrun : copyPooledTracked reads writes [] 0 0 = Some (out, total, err, touched)) :
  out `prefix_of` (reads ≫= rd_data) ∧ total = Z.of_nat (length out) ∧
  (err = None → ∃ before last, before ++ [last] `prefix_of` reads ∧ rd_err last = Some EOF ∧
     out = (before ++ [last]) ≫= rd_data).
Proof.
  assert (∀ reads writes out0 n touched0,
    writes_fit reads writes →
    Z.of_nat (length out0 + length (reads ≫= rd_data)) ≤ MaxInt64 → n = Z.of_nat (length out0) →
    copyPooledTracked reads writes out0 n touched0 = Some (out, total, err, touched) →
    ∃ more, out = out0 ++ more ∧ more `prefix_of` (reads ≫= rd_data) ∧ total = Z.of_nat (length out) ∧
      (err = None → ∃ before last, before ++ [last] `prefix_of` reads ∧ rd_err last = Some EOF ∧
        more = (before ++ [last]) ≫= rd_data)) as Hgen.
  { clear. intros reads. induction reads as [|[data readErr] reads IH]; intros writes out0 n touched0 Hw Hsz Hn Hrun; [done|].
    cbn [copyPooledTracked] in Hrun. cbn [mbind list_bind rd_data] in *. rewrite length_app in Hsz.
    assert (∀ writes n touched0, writes_fit reads writes →
      n = Z.of_nat (length (out0 ++ data)) →
      match readErr with
      | Some e => Some (out0 ++ data, n, if decide (e = EOF) then None else Some e, touched0)
      | None => copyPooledTracked reads writes (out0 ++ data) n touched0
      end = Some (out, total, err, touched) →
      ∃ more, out = out0 ++ more ∧ more `prefix_of` (data ++ (reads ≫= rd_data)) ∧ total = Z.of_nat (length out) ∧
        (err = None → ∃ before last, before ++ [last] `prefix_of` MkRead data readErr :: reads ∧ rd_err last = Some EOF ∧
          more = (before ++ [last]) ≫= rd_data)) as Hnext.
    { intros writes' n' t' Hw' Hn' Hr. destruct readErr as [e|].
      - simplify_eq. exists data. split_and!; [done|by apply prefix_app_r|done|].
        intros He. exists [], (MkRead data (Some e)). split_and!.
        + simpl. apply prefix_cons, prefix_nil.
        + destruct (decide (e = EOF)) as [->|]; [done|discriminate He].
        + cbn [app mbind list_bind rd_data]. by rewrite app_nil_r.
      - destruct (IH writes' (out0 ++ data) n' t') as (more & -> & Hp & Ht & He); try done; [rewrite length_app; lia|].
        exists (data ++ more). split_and!; [by rewrite (assoc_L (++))|by apply prefix_app|done|].
        intros Herr. destruct (He Herr) as (before & l & Hb & Hl & ->). exists (MkRead data None :: before), l.
        split_and!; [by apply prefix_cons|done|done]. }
    destruct data as [|b data].
    { apply (Hnext writes n touched0); [exact Hw|by rewrite app_nil_r|by rewrite app_nil_r]. }
    destruct writes as [|[nw writeErr] writes]; [done|]. destruct Hw as [Hnw Hw]. cbn [rd_data wr_n] in Hnw.
    set (data' := b :: data) in *.
    assert ((if (0 <? nw)%nat then i64 (n + Z.of_nat nw) else n) = Z.of_nat (length (out0 ++ take nw data'))) as Htot.
    { rewrite length_app, length_take. destruct (Nat.ltb_spec 0 nw); [rewrite i64_id by i64_lia; lia|lia]. }
    rewrite Htot in Hrun.
    assert (∀ e t, Some (out0 ++ take nw data', Z.of_nat (length (out0 ++ take nw data')), Some e, t) = Some (out, total, err, touched) →
      ∃ more, out = out0 ++ more ∧ more `prefix_of` (data' ++ (reads ≫= rd_data)) ∧ total = Z.of_nat (length out) ∧
        (err = None → ∃ before last, before ++ [last] `prefix_of` MkRead data' readErr :: reads ∧ rd_err last = Some EOF ∧
          more = (before ++ [last]) ≫= rd_data)) as Herr.
    { intros e t [= <- <- <- <-]. exists (take nw data'). split_and!; [done| |done|done].
      apply prefix_app_r, prefix_take. }
    destruct writeErr as [e|]; [by eapply Herr|]. destruct (Nat.eqb_spec (length data') nw) as [Heq|]; [|by eapply Herr].
    rewrite take_ge in Hrun by lia. eapply Hnext; [exact Hw|done|exact Hrun]. }
  destruct (Hgen reads writes [] 0 0%nat) as (more & -> & H1 & H2 & H3); try done.
Qed.

(** The idle watchdog. It closes a circuit only at a tick at which nothing has
    flowed for the timeout; and a circuit on which nothing flows any more is
    closed, less than one check interval after its timeout (or after the start)
    when it lasts that long: less than one and a half timeouts after the last
    activity, for timeouts of at least 20 milliseconds. *)
Theorem idle_circuit_closed (lastActive : Z → Z) (timeout start stop : Z)
  (Ht : 0 < timeout) (Hs : 0 ≤ start) (Hbound : stop ≤ MaxInt64) (Hla : ∀ t, 0 ≤ lastActive t) :
  (∀ c, startIdleWatchdog lastActive timeout start stop = Some c → lastActive c + timeout ≤ c) ∧
  (∀ t0, start ≤ t0 → (∀ t, t0 ≤ t → lastActive t = t0) → t0 + timeout + checkInterval timeout < stop →
     (∀ t, start ≤ t < t0 → t < lastActive t + timeout) →
     ∃ c, startIdleWatchdog lastActive timeout start stop = Some c ∧
       t0 + timeout ≤ c < t0 + timeout + checkInterval timeout ∧
       (20 * millisecond ≤ timeout → 2 * (c - t0) < 3 * timeout)).
Proof.
  destruct (checkInterval_bounds timeout) as [HI Hhalf]. assert (millisecond = 1000000) as Hms by done.
  set (I := checkInterval timeout) in *.
  assert (∀ c, startIdleWatchdog lastActive timeout start stop = Some c → lastActive c + timeout ≤ c) as Hsafe.
  { intros c Hc. apply watchdog_Some in Hc as (Hidle & Hc & _); [|lia]. apply Z.leb_le in Hidle. specialize (Hla c).
    unfold time_Sub in Hidle. i64_lia. }
  split; [done|]. intros t0 Ht0 Hlast Hstop Hactive.
  set (k := (t0 + timeout - start + I - 1) / I).
  assert (t0 + timeout ≤ start + k * I < t0 + timeout + I) as Hk.
  { unfold k. pose proof (Z.mul_div_le (t0 + timeout - start + I - 1) I ltac:(lia)).
    pose proof (Z.mul_succ_div_gt (t0 + timeout - start + I - 1) I ltac:(lia)). lia. }
  destruct (watchdog_fires (Z.to_nat ((stop - start) / I)) lastActive timeout I start stop k) as (c & Hc & Hle); [lia| |lia| |].
  - split; [nia|]. rewrite Z2Nat.id by (apply Z.div_pos; lia). apply Z.div_le_lower_bound; nia.
  - unfold is_idle. rewrite Hlast by lia. apply Z.leb_le. unfold time_Sub. i64_lia.
  - assert (startIdleWatchdog lastActive timeout start stop = Some c) as Hc' by exact Hc. apply Hsafe in Hc' as Hcs.
    apply watchdog_Some in Hc as (_ & Hcr & _); [|lia].
    assert (t0 ≤ c).
    { destruct (Z.le_gt_cases t0 c) as [|Hlt]; [done|]. specialize (Hactive c). lia. }
    rewrite Hlast in Hcs by done. exists c. split_and!; [done|lia|lia|lia].
Qed.

(** ** Witnesses *)

Lemma buffers_have_one_owner_witness :
  ∃ s, pool_run (MkPoolState (newBufPool 1 32768) [] 0)
      [Get; Get; Put (MkBuffer 0 32768); Put (MkBuffer 1 32768); Get] = Some s ∧
    (length (bp_ch (po_pool s)) ≤ 1)%nat ∧ NoDup (map bf_id (bp_ch (po_pool s) ++ po_held s)).
Proof.
  eexists. split; [vm_compute; reflexivity|].
  destruct (buffers_have_one_owner 1 32768 [Get; Get; Put (MkBuffer 0 32768); Put (MkBuffer 1 32768); Get] _ eq_refl)
    as (Hnd & _ & Hl). split; [exact Hl|exact Hnd].
Defined.

Definition two_shards : shardedBufPool :=
  MkShardedBufPool [newBufPool 1 8; MkBufPool [MkBuffer 3 8] 1 8] 1 1.

(** The call starts at the empty shard and takes from the other. *)
Lemma shards_steal_witness :
  (shardedBufPool_get two_shards 9).1 = MkBuffer 3 8 ∧
  pooled (sp_shards two_shards) ≡ₚ [MkBuffer 3 8] ++ pooled (sp_shards (shardedBufPool_get two_shards 9).2).
Proof.
  split; [vm_compute; reflexivity|].
  destruct (shards_steal two_shards 9 (MkBuffer 4 8)) as [Hg _]; [eexists _, _; split; reflexivity|].
  destruct (decide (pooled (sp_shards two_shards) = [])) as [He|_]; [vm_compute in He; discriminate He|].
  destruct (shardedBufPool_get two_shards 9) as [got sp'] eqn:E. vm_compute in E. injection E as <- <-. exact Hg.
Defined.

Definition reads0 : list read_result := [MkRead (go "ab") None; MkRead (go "c") (Some EOF)].

Lemma copy_forwards_prefix_witness :
  copyPooledTracked reads0 [MkWrite 2 None; MkWrite 1 None] [] 0 0 = Some (go "abc", 3, None, 2%nat) ∧
  go "abc" `prefix_of` (reads0 ≫= rd_data).
Proof.
  split; [vm_compute; reflexivity|].
  apply (copy_forwards_prefix reads0 [MkWrite 2 None; MkWrite 1 None] (go "abc") 3 None 2).
  - repeat split; vm_compute; lia.
  - vm_compute. discriminate.
  - vm_compute. reflexivity.
Defined.

(** Active until one second, then silent, with the timeout at its default. *)
Lemma idle_circuit_closed_witness :
  ∃ c, startIdleWatchdog (λ t, Z.max 0 (Z.min t second)) DefaultIdleTimeout 0 (1000 * second) = Some c ∧
    second + DefaultIdleTimeout ≤ c < second + DefaultIdleTimeout + 30 * second.
Proof.
  assert (second = 1000000000) as Hs by reflexivity. assert (DefaultIdleTimeout = 300000000000) as Hd by reflexivity.
  assert (checkInterval DefaultIdleTimeout = 30000000000) as Hc by (vm_compute; reflexivity).
  destruct (idle_circuit_closed (λ t, Z.max 0 (Z.min t second)) DefaultIdleTimeout 0 (1000 * second)) as [Hsafe Hlive].
  - lia.
  - lia.
  - i64_lia.
  - intros t. lia.
  - destruct (Hlive second) as (c & H1 & H2 & _); [lia|intros t Ht; lia|lia|intros t Ht; lia|].
    exists c. split; [exact H1|lia].
Defined.
