(* ===== verification/Stitch.v ===== *)
(** * A stitched circuit as a whole: routing/circuit.go, [StitchWithTimeout]

    The two directions of a circuit, its watchdog and the call that waits for
    them, as a machine whose events are what the goroutines do, in any order: a
    [Read] or [Write] returns, a connection is closed, the ticker fires. The copy
    loop, the buffer pool and the watchdog's test are those of Circuit.v. What the
    machine leaves open is what the connections return: a [Read] may return any
    part of what has arrived or an error, a [Write] any count up to the length.

    After a local [Close], [net.Conn] documents that blocked operations are
    unblocked and return errors; the streams of a multiplexer keep their read
    side. Which of the two holds is the parameter [reads_after_close]. *)

From Stdlib Require Import Ascii.
From stdpp Require Import base numbers gmap strings functions list.
From S2P Require Import Prelude GoStrings Codec Circuit.

Open Scope Z_scope.

(** ** State *)

(** The two connections; a direction is named by the one it reads. *)
Inductive side := SideA | SideB.

#[export] Instance side_eq_dec : EqDecision side.
Proof. solve_decision. Defined.

Definition other (d : side) : side := match d with SideA => SideB | SideB => SideA end.

(** A connection: all that its peer has sent, what has not been read of it,
    whether the peer has ended, and whether it was closed here. *)
Record conn := MkConn { cn_sent : bytes; cn_in : bytes; cn_eof : bool; cn_closed : bool }.

(** Where the goroutine of a direction is. Between a [Read] and its [Write] it
    holds the chunk and the error that came with it. *)
Inductive pc := PStart | PRead (buf : buffer) | PWrite (buf : buffer) (data : bytes) (readErr : option goerr)
  | PClose | PDone.

(** A direction: the total and the error, the bytes that went out, and the
    results of its calls so far. *)
Record dir := MkDir {
  d_pc : pc;
  d_n : Z;
  d_err : option goerr;
  d_out : bytes;
  d_reads : list read_result;
  d_writes : list write_result
}.

(** The watchdog: not started, waiting for a tick, closing, returned. *)
Inductive watch := WOff | WRun | WClosing (conns : list side) | WExit.

Record StitchResult := MkStitchResult {
  BytesAtoB : Z;
  BytesBtoA : Z;
  ErrAtoB : option goerr;
  ErrBtoA : option goerr
}.

Record stitch := MkStitch {
  st_conn : side → conn;
  st_dir : side → dir;
  st_pool : pool_state;
  st_timeout : Z;
  st_lastActive : Z;
  st_watch : watch;
  st_result : option StitchResult
}.

Definition new_dir : dir := MkDir PStart 0 None [] [] [].

Definition new_conn : conn := MkConn [] [] false false.

(** The call at [now], with two connections of which [isConn] says which are a
    [net.Conn], and the process' pool. *)
Definition StitchWithTimeout (isConn : side → bool) (idleTimeout now : Z) (pool : pool_state) : stitch :=
  MkStitch (λ _, new_conn) (λ _, new_dir) pool idleTimeout now
    (if (0 <? idleTimeout) && (isConn SideA && isConn SideB) then WRun else WOff) None.

Definition Stitch (isConn : side → bool) (now : Z) (pool : pool_state) : stitch :=
  StitchWithTimeout isConn DefaultIdleTimeout now pool.

Definition set_conn (d : side) (c : conn) (s : stitch) : stitch :=
  MkStitch (<[d := c]> (st_conn s)) (st_dir s) (st_pool s) (st_timeout s) (st_lastActive s) (st_watch s) (st_result s).

Definition set_dir (d : side) (x : dir) (s : stitch) : stitch :=
  MkStitch (st_conn s) (<[d := x]> (st_dir s)) (st_pool s) (st_timeout s) (st_lastActive s) (st_watch s) (st_result s).

Definition set_pool (p : pool_state) (s : stitch) : stitch :=
  MkStitch (st_conn s) (st_dir s) p (st_timeout s) (st_lastActive s) (st_watch s) (st_result s).

Definition touch (now : Z) (s : stitch) : stitch :=
  MkStitch (st_conn s) (st_dir s) (st_pool s) (st_timeout s) now (st_watch s) (st_result s).

Definition set_watch (w : watch) (s : stitch) : stitch :=
  MkStitch (st_conn s) (st_dir s) (st_pool s) (st_timeout s) (st_lastActive s) w (st_result s).

Definition close_conn (c : conn) : conn := MkConn (cn_sent c) (cn_in c) (cn_eof c) true.

(** ** A direction's steps *)

Definition set_pc (p : pc) (x : dir) : dir := MkDir p (d_n x) (d_err x) (d_out x) (d_reads x) (d_writes x).

(** The loop returns, and the goroutine stores its error. *)
Definition dir_return (err : option goerr) (x : dir) : dir :=
  MkDir PClose (d_n x) err (d_out x) (d_reads x) (d_writes x).

(** The end of an iteration: the test of [readErr]. *)
Definition dir_next (buf : buffer) (readErr : option goerr) (x : dir) : dir :=
  match readErr with
  | Some e => dir_return (if decide (e = EOF) then None else Some e) x
  | None => set_pc (PRead buf) x
  end.

(** [src.Read] has returned. *)
Definition dir_read (buf : buffer) (data : bytes) (readErr : option goerr) (x : dir) : dir :=
  let x := MkDir (d_pc x) (d_n x) (d_err x) (d_out x) (d_reads x ++ [MkRead data readErr]) (d_writes x) in
  match data with
  | [] => dir_next buf readErr x
  | _ => set_pc (PWrite buf data readErr) x
  end.

(** [dst.Write] has returned. *)
Definition dir_write (buf : buffer) (data : bytes) (readErr : option goerr) (nw : nat) (writeErr : option goerr)
    (x : dir) : dir :=
  let x := MkDir (d_pc x) (if (0 <? nw)%nat then i64 (d_n x + Z.of_nat nw) else d_n x) (d_err x)
    (d_out x ++ take nw data) (d_reads x) (d_writes x ++ [MkWrite nw writeErr]) in
  match writeErr with
  | Some e => dir_return (Some e) x
  | None => if (length data =? nw)%nat then dir_next buf readErr x else dir_return (Some ErrShortWrite) x
  end.

(** The deferred [bufferPool.put], once the loop has returned. *)
Definition release (x : dir) (buf : buffer) (pool : pool_state) : option pool_state :=
  match d_pc x with PClose => pool_step pool (Put buf) | _ => Some pool end.

(** ** The connections *)

Inductive stitch_event :=
  | Deliver (d : side) (data : bytes)
  | Finish (d : side)
  | Start (d : side)
  | Read (d : side) (n : nat) (e : option goerr) (now : Z)
  | Write (d : side) (nw : nat) (e : option goerr)
  | Close (d : side)
  | Tick (now : Z)
  | WatchClose
  | WatchStop
  | Return.

(** A [Write] returns at most the length, and an error once the connection is
    closed. *)
Definition write_ok (c : conn) (len nw : nat) (e : option goerr) : bool :=
  (nw <=? len)%nat && (negb (cn_closed c) || match e with Some _ => true | None => false end).

Section transport.

Context (reads_after_close : bool).

(** A [Read] returns at most what has arrived and fits, [EOF] only when the peer
    has ended and all of it is read, and nothing but an error other than [EOF]
    when the connection is closed for reading. *)
Definition read_ok (c : conn) (size : Z) (n : nat) (e : option goerr) : bool :=
  if cn_closed c && negb reads_after_close then
    (n =? 0)%nat && match e with Some e => bool_decide (e ≠ EOF) | None => false end
  else
    (n <=? length (cn_in c))%nat && (Z.of_nat n <=? size) &&
    match e with
    | Some e => bool_decide (e ≠ EOF) || (n =? length (cn_in c))%nat && cn_eof c
    | None => true
    end.

Definition stitch_step (s : stitch) (ev : stitch_event) : option stitch :=
  match ev with
  | Deliver d data =>
      let c := st_conn s d in
      if cn_eof c then None
      else Some (set_conn d (MkConn (cn_sent c ++ data) (cn_in c ++ data) false (cn_closed c)) s)
  | Finish d =>
      let c := st_conn s d in Some (set_conn d (MkConn (cn_sent c) (cn_in c) true (cn_closed c)) s)
  | Start d =>
      match d_pc (st_dir s d) with
      | PStart =>
          let buf := (bufPool_get (po_pool (st_pool s)) (po_next (st_pool s))).1 in
          pool ← pool_step (st_pool s) Get;
          Some (set_dir d (set_pc (PRead buf) (st_dir s d)) (set_pool pool s))
      | _ => None
      end
  | Read d n e now =>
      match d_pc (st_dir s d) with
      | PRead buf =>
          let c := st_conn s d in
          if read_ok c (bf_cap buf) n e then
            let data := take n (cn_in c) in
            let x := dir_read buf data e (st_dir s d) in
            pool ← release x buf (st_pool s);
            let s := set_conn d (MkConn (cn_sent c) (drop n (cn_in c)) (cn_eof c) (cn_closed c))
                       (set_dir d x (set_pool pool s)) in
            Some (match data with [] => s | _ => touch now s end)
          else None
      | _ => None
      end
  | Write d nw e =>
      match d_pc (st_dir s d) with
      | PWrite buf data readErr =>
          if write_ok (st_conn s (other d)) (length data) nw e then
            let x := dir_write buf data readErr nw e (st_dir s d) in
            pool ← release x buf (st_pool s);
            Some (set_dir d x (set_pool pool s))
          else None
      | _ => None
      end
  | Close d =>
      match d_pc (st_dir s d) with
      | PClose =>
          Some (set_conn (other d) (close_conn (st_conn s (other d))) (set_dir d (set_pc PDone (st_dir s d)) s))
      | _ => None
      end
  | Tick now =>
      match st_watch s with
      | WRun =>
          Some (if is_idle (λ _, st_lastActive s) (st_timeout s) now then set_watch (WClosing [SideA; SideB]) s else s)
      | _ => None
      end
  | WatchClose =>
      match st_watch s with
      | WClosing (d :: ds) =>
          Some (set_watch (match ds with [] => WExit | _ => WClosing ds end)
                 (set_conn d (close_conn (st_conn s d)) s))
      | _ => None
      end
  | WatchStop =>
      match st_watch s, st_result s with
      | WRun, Some _ => Some (set_watch WExit s)
      | _, _ => None
      end
  | Return =>
      match d_pc (st_dir s SideA), d_pc (st_dir s SideB), st_result s with
      | PDone, PDone, None =>
          let xA := st_dir s SideA in
          let xB := st_dir s SideB in
          Some (MkStitch (st_conn s) (st_dir s) (st_pool s) (st_timeout s) (st_lastActive s) (st_watch s)
                  (Some (MkStitchResult (d_n xA) (d_n xB) (d_err xA) (d_err xB))))
      | _, _, _ => None
      end
  end.

Fixpoint stitch_run (s : stitch) (evs : list stitch_event) : option stitch :=
  match evs with
  | [] => Some s
  | ev :: evs => s ← stitch_step s ev; stitch_run s evs
  end.

End transport.

(** The direction whose goroutine makes the event. *)
Definition event_dir (ev : stitch_event) : option side :=
  match ev with
  | Start d | Read d _ _ _ | Write d _ _ | Close d => Some d
  | _ => None
  end.

Definition moves (d : side) (evs : list stitch_event) : nat :=
  length (filter (λ ev, event_dir ev = Some d) evs).

(** ** Invariants *)

Definition read_bytes (x : dir) : bytes := d_reads x ≫= rd_data.

(** Everything the peer sent is read and went out. *)
Definition drained (c : conn) : Prop := cn_in c = [] ∧ cn_eof c = true.

(** The state of a direction with the connection it reads; [closed] is whether
    the one it writes is. *)
Definition dir_inv (c : conn) (x : dir) (closed : bool) : Prop :=
  read_bytes x ++ cn_in c = cn_sent c ∧ d_n x = i64 (Z.of_nat (length (d_out x))) ∧
  match d_pc x with
  | PStart | PRead _ => d_out x = read_bytes x ∧ ∃ t, ∀ rs ws,
      copyPooledTracked (d_reads x ++ rs) (d_writes x ++ ws) [] 0 0 = copyPooledTracked rs ws (d_out x) (d_n x) t
  | PWrite _ data e => data ≠ [] ∧ d_out x ++ data = read_bytes x ∧ (e = Some EOF → drained c) ∧ ∃ t, ∀ rs ws,
      copyPooledTracked (d_reads x ++ rs) (d_writes x ++ ws) [] 0 0 =
      copyPooledTracked (MkRead data e :: rs) ws (d_out x) (d_n x) t
  | PClose | PDone =>
      d_out x `prefix_of` read_bytes x ∧ (d_err x = None → d_out x = read_bytes x ∧ drained c) ∧
      (∃ t, copyPooledTracked (d_reads x) (d_writes x) [] 0 0 = Some (d_out x, d_n x, d_err x, t)) ∧
      (d_pc x = PDone → closed = true)
  end.

(** ** Lemmas: one direction *)

Lemma read_bytes_snoc x r p n e o ws :
  read_bytes (MkDir p n e o (d_reads x ++ [r]) ws) = read_bytes x ++ rd_data r.
Proof. unfold read_bytes. cbn [d_reads]. by rewrite bind_app, bind_singleton. Qed.

(** The end of an iteration, reached with everything read written. *)
Lemma dir_next_inv c x buf e closed t :
  read_bytes x ++ cn_in c = cn_sent c → d_n x = i64 (Z.of_nat (length (d_out x))) → d_out x = read_bytes x →
  (e = Some EOF → drained c) →
  (∀ rs ws, copyPooledTracked (d_reads x ++ rs) (d_writes x ++ ws) [] 0 0 =
    match e with
    | Some e => Some (d_out x, d_n x, if decide (e = EOF) then None else Some e, t)
    | None => copyPooledTracked rs ws (d_out x) (d_n x) t
    end) →
  dir_inv c (dir_next buf e x) closed.
Proof.
  intros Hs Hn Ho He Hc. destruct e as [e|]; (split; [exact Hs|split; [exact Hn|]]); simpl.
  - split_and!; [by rewrite Ho| | |done].
    + intros Hd. split; [done|]. apply He. destruct (decide (e = EOF)) as [->|]; done.
    + exists t. by rewrite <-(Hc [] []), !app_nil_r.
  - split; [exact Ho|by exists t].
Qed.

Lemma dir_return_inv c x err closed t :
  read_bytes x ++ cn_in c = cn_sent c → d_n x = i64 (Z.of_nat (length (d_out x))) → d_out x `prefix_of` read_bytes x →
  (∀ rs ws, copyPooledTracked (d_reads x ++ rs) (d_writes x ++ ws) [] 0 0 = Some (d_out x, d_n x, Some err, t)) →
  dir_inv c (dir_return (Some err) x) closed.
Proof.
  intros Hs Hn Ho Hc. split; [exact Hs|split; [exact Hn|]]. simpl. split_and!; [done|done| |done].
  exists t. by rewrite <-(Hc [] []), !app_nil_r.
Qed.

Lemma dir_read_inv hold c x closed buf n e :
  dir_inv c x closed → d_pc x = PRead buf → read_ok hold c (bf_cap buf) n e = true →
  dir_inv (MkConn (cn_sent c) (drop n (cn_in c)) (cn_eof c) (cn_closed c)) (dir_read buf (take n (cn_in c)) e x) closed.
Proof.
  intros (Hs & Hn & Hx) Hpc Hok. rewrite Hpc in Hx. destruct Hx as (Ho & t & Hc).
  assert (e = Some EOF → drop n (cn_in c) = [] ∧ cn_eof c = true) as He.
  { intros ->. unfold read_ok in Hok. rewrite bool_decide_eq_false_2 in Hok by naive_solver. destruct (cn_closed c && negb hold).
    - by rewrite andb_false_r in Hok.
    - rewrite !andb_true_iff in Hok. simpl in Hok. rewrite andb_true_iff in Hok. destruct Hok as (_ & ->%Nat.eqb_eq & Heof).
      by rewrite drop_all. }
  unfold dir_read. set (data := take n (cn_in c)) in *. set (x' := MkDir _ _ _ _ _ _).
  assert (read_bytes x' = read_bytes x ++ data) as Hr by apply read_bytes_snoc.
  assert (read_bytes x' ++ drop n (cn_in c) = cn_sent c) as Hs'.
  { rewrite Hr, <-(assoc_L (++)). unfold data. by rewrite take_drop. }
  assert (∀ rs ws, copyPooledTracked (d_reads x' ++ rs) (d_writes x' ++ ws) [] 0 0 =
    copyPooledTracked (MkRead data e :: rs) ws (d_out x) (d_n x) t) as Hc'.
  { intros rs ws. unfold x'. cbn [d_reads d_writes]. rewrite <-(assoc_L (++)). apply Hc. }
  clearbody data. destruct data as [|b data].
  - eapply (dir_next_inv _ x' _ _ _ t); [exact Hs'|exact Hn| |exact He|].
    + by rewrite Hr, app_nil_r.
    + intros rs ws. rewrite Hc'. by destruct e.
  - split; [exact Hs'|split; [exact Hn|]]. simpl. split_and!; [done| |exact He|by exists t].
    unfold x' in *. rewrite <-Ho in Hr. by rewrite <-Hr.
Qed.

Lemma dir_write_inv c x closed buf data readErr nw e :
  dir_inv c x closed → d_pc x = PWrite buf data readErr → (nw ≤ length data)%nat →
  dir_inv c (dir_write buf data readErr nw e x) closed.
Proof.
  intros (Hs & Hn & Hx) Hpc Hnw. rewrite Hpc in Hx. destruct Hx as (Hd & Ho & He & t & Hc).
  unfold dir_write. set (x' := MkDir _ _ _ _ _ _).
  assert (d_n x' = i64 (Z.of_nat (length (d_out x')))) as Hn'.
  { unfold x'. cbn [d_n d_out]. rewrite length_app, length_take, Nat.min_l, Nat2Z.inj_add by done.
    destruct (Nat.ltb_spec 0 nw); [by rewrite Hn, i64_add_l|]. replace nw with 0%nat by lia. by rewrite Z.add_0_r. }
  assert (d_out x' `prefix_of` read_bytes x') as Hp.
  { change (read_bytes x') with (read_bytes x). rewrite <-Ho. apply prefix_app, prefix_take. }
  assert (∀ rs ws, copyPooledTracked (d_reads x' ++ rs) (d_writes x' ++ ws) [] 0 0 =
    match e with
    | Some e => Some (d_out x', d_n x', Some e, S t)
    | None =>
        if (length data =? nw)%nat then
          match readErr with
          | Some e => Some (d_out x', d_n x', if decide (e = EOF) then None else Some e, S t)
          | None => copyPooledTracked rs ws (d_out x') (d_n x') (S t)
          end
        else Some (d_out x', d_n x', Some ErrShortWrite, S t)
    end) as Hc'.
  { intros rs ws. unfold x'. cbn [d_reads d_writes d_out d_n]. rewrite <-(assoc_L (++)), Hc.
    destruct data as [|b data]; [done|]. reflexivity. }
  destruct e as [e|]; [by eapply dir_return_inv|]. destruct (Nat.eqb_spec (length data) nw) as [<-|]; [|by eapply dir_return_inv].
  eapply (dir_next_inv _ x' _ _ _ (S t)); [exact Hs|exact Hn'| |exact He|exact Hc'].
  unfold x'. cbn [d_out]. rewrite take_ge by lia. exact Ho.
Qed.

Lemma dir_close_inv c x closed : dir_inv c x closed → d_pc x = PClose → dir_inv c (set_pc PDone x) true.
Proof. intros (Hs & Hn & Hx) Hpc. rewrite Hpc in Hx. split; [exact Hs|split; [exact Hn|]]. simpl.
  destruct Hx as (? & ? & ? & _). by split_and!.
Qed.

(** The peer's doing, and closing. *)
Lemma dir_inv_deliver c x closed data :
  dir_inv c x closed → cn_eof c = false →
  dir_inv (MkConn (cn_sent c ++ data) (cn_in c ++ data) false (cn_closed c)) x closed.
Proof.
  intros (Hs & Hn & Hx) Heof. split; [cbn [cn_in cn_sent]; by rewrite (assoc_L (++)), Hs|split; [exact Hn|]]. unfold drained in *.
  rewrite Heof in Hx. destruct (d_pc x); naive_solver.
Qed.

Lemma dir_inv_finish c x closed :
  dir_inv c x closed → dir_inv (MkConn (cn_sent c) (cn_in c) true (cn_closed c)) x closed.
Proof.
  intros (Hs & Hn & Hx). split; [exact Hs|split; [exact Hn|]]. unfold drained in *. destruct (d_pc x); naive_solver.
Qed.

Lemma dir_inv_close c x closed : dir_inv c x closed → dir_inv (close_conn c) x closed.
Proof. done. Qed.

Lemma dir_inv_closed c x closed closed' : dir_inv c x closed → (closed = true → closed' = true) → dir_inv c x closed'.
Proof.
  intros (Hs & Hn & Hx) Hc. split; [exact Hs|split; [exact Hn|]]. destruct (d_pc x); try exact Hx;
    destruct Hx as (H1 & H2 & H3 & H4); split_and!; auto.
Qed.

(** ** Lemmas: the buffers *)

(** The buffer a direction works with. *)
Definition pc_bufs (p : pc) : list buffer :=
  match p with PRead buf | PWrite buf _ _ => [buf] | _ => [] end.

Definition in_use (s : stitch) : list buffer :=
  pc_bufs (d_pc (st_dir s SideA)) ++ pc_bufs (d_pc (st_dir s SideB)).

Lemma in_use_split d s :
  in_use s ≡ₚ pc_bufs (d_pc (st_dir s d)) ++ pc_bufs (d_pc (st_dir s (other d))).
Proof. destruct d; [done|]. unfold in_use. by rewrite (comm (++)). Qed.

Lemma in_use_set d x s : in_use (set_dir d x s) ≡ₚ pc_bufs (d_pc x) ++ pc_bufs (d_pc (st_dir s (other d))).
Proof.
  rewrite (in_use_split d). unfold set_dir. cbn [st_dir]. rewrite fn_lookup_insert, fn_lookup_insert_ne; [done|by destruct d].
Qed.

Lemma pool_get_held p p' :
  pool_step p Get = Some p' → po_held p' = (bufPool_get (po_pool p) (po_next p)).1 :: po_held p.
Proof. simpl. destruct (bufPool_get _ _) as [buf q]. by intros [= <-]. Qed.

Lemma pool_put_held capacity size p buf rest :
  pool_inv capacity size p → po_held p ≡ₚ buf :: rest →
  ∃ p', pool_step p (Put buf) = Some p' ∧ po_held p' ≡ₚ rest.
Proof.
  intros (Hnd & _) Hp. simpl. destruct (list_find _ (po_held p)) as [[i b]|] eqn:Hf.
  - eexists. split; [reflexivity|]. apply list_find_Some in Hf as (Hi & Hb & _).
    assert (buf :: rest ≡ₚ b :: delete i (po_held p)) as Hi' by (etrans; [symmetry; exact Hp|by apply delete_Permutation]).
    enough (b = buf) as -> by (symmetry; by apply (Permutation_cons_inv (a := buf))).
    assert (NoDup (bf_id <$> buf :: rest)) as Hnd'.
    { rewrite <-Hp. change (map bf_id) with (fmap (M := list) bf_id) in Hnd. rewrite fmap_app in Hnd.
      by apply list.NoDup_app in Hnd as (_ & _ & ?). }
    assert (b ∈ buf :: rest) as [->|Hin]%elem_of_cons by (rewrite <-Hp; by apply list_elem_of_lookup_2 in Hi); [done|].
    apply list.NoDup_cons in Hnd' as [Hnot _]. destruct Hnot. rewrite <-Hb. by apply list_elem_of_fmap_2.
  - apply list_find_None in Hf. rewrite Forall_forall in Hf. destruct (Hf buf); [|done]. rewrite Hp. by left.
Qed.

(** A direction keeps its buffer until its loop returns. *)
Definition keeps (buf : buffer) (x : dir) : Prop := d_pc x = PClose ∨ d_pc x ≠ PClose ∧ pc_bufs (d_pc x) = [buf].

Lemma dir_next_keeps buf e x : keeps buf (dir_next buf e x).
Proof. destruct e; [by left|by right]. Qed.

Lemma dir_read_keeps buf data e x : keeps buf (dir_read buf data e x).
Proof. destruct data; [apply dir_next_keeps|by right]. Qed.

Lemma dir_write_keeps buf data readErr nw e x : keeps buf (dir_write buf data readErr nw e x).
Proof. unfold dir_write. destruct e; [by left|]. destruct (_ =? _)%nat; [apply dir_next_keeps|by left]. Qed.

Lemma release_held capacity size x buf p rest :
  keeps buf x → pool_inv capacity size p → po_held p ≡ₚ buf :: rest →
  ∃ p', release x buf p = Some p' ∧ pool_inv capacity size p' ∧ po_held p' ≡ₚ pc_bufs (d_pc x) ++ rest.
Proof.
  intros Hk Hi Hp. unfold release. destruct Hk as [->|[Hne ->]].
  - destruct (pool_put_held _ _ _ _ _ Hi Hp) as (p' & Hs & Hp'). exists p'. split_and!; [done| |done].
    by eapply pool_step_inv.
  - exists p. by destruct (d_pc x).
Qed.

(** ** Lemmas: the machine's invariant *)

(** The pool is sound, the buffers held are those of the directions and
    [held0], those of other circuits; both directions are as their loops say; and
    a result is that of directions that are done. *)
Record stitch_inv (capacity : nat) (size : Z) (held0 : list buffer) (s : stitch) : Prop := {
  inv_pool : pool_inv capacity size (st_pool s);
  inv_held : po_held (st_pool s) ≡ₚ in_use s ++ held0;
  inv_dirs : ∀ d, dir_inv (st_conn s d) (st_dir s d) (cn_closed (st_conn s (other d)));
  inv_result : ∀ r, st_result s = Some r → (∀ d, d_pc (st_dir s d) = PDone) ∧
    r = MkStitchResult (d_n (st_dir s SideA)) (d_n (st_dir s SideB)) (d_err (st_dir s SideA)) (d_err (st_dir s SideB))
}.

Lemma inv_running capacity size held0 s d :
  stitch_inv capacity size held0 s → d_pc (st_dir s d) ≠ PDone → st_result s = None.
Proof. intros Hi Hd. destruct (st_result s) as [r|] eqn:Hr; [|done]. apply (inv_result _ _ _ _ Hi) in Hr as [Hr _]. by destruct Hd. Qed.

(** A direction and the connection it reads change. *)
Lemma dirs_update s d c x :
  (∀ d, dir_inv (st_conn s d) (st_dir s d) (cn_closed (st_conn s (other d)))) →
  dir_inv c x (cn_closed (st_conn s (other d))) → (cn_closed (st_conn s d) = true → cn_closed c = true) →
  ∀ d', dir_inv ((<[d := c]> (st_conn s)) d') ((<[d := x]> (st_dir s)) d') (cn_closed ((<[d := c]> (st_conn s)) (other d'))).
Proof.
  intros Hi Hx Hc d'. destruct (decide (d' = d)) as [->|Hne].
  - by rewrite !fn_lookup_insert, fn_lookup_insert_ne by (by destruct d).
  - assert (d = other d') as -> by (by destruct d, d'). rewrite !fn_lookup_insert, !fn_lookup_insert_ne by done.
    eapply dir_inv_closed; [apply Hi|exact Hc].
Qed.

Lemma conn_update capacity size held0 s d c :
  stitch_inv capacity size held0 s →
  dir_inv c (st_dir s d) (cn_closed (st_conn s (other d))) → (cn_closed (st_conn s d) = true → cn_closed c = true) →
  stitch_inv capacity size held0 (set_conn d c s).
Proof.
  intros Hi Hx Hc. split; [apply Hi|apply Hi| |apply Hi]. intros d'.
  pose proof (dirs_update _ _ _ _ (inv_dirs _ _ _ _ Hi) Hx Hc d') as H. cbn [set_conn st_conn st_dir].
  destruct (decide (d' = d)) as [->|Hne]; [by rewrite (fn_lookup_insert (st_dir s)) in H|by rewrite (fn_lookup_insert_ne (st_dir s)) in H].
Qed.

(** A direction that is running moves, with its buffer. *)
Lemma dir_update capacity size held0 s d c x p :
  stitch_inv capacity size held0 s → d_pc (st_dir s d) ≠ PDone → pool_inv capacity size p →
  po_held p ≡ₚ (pc_bufs (d_pc x) ++ pc_bufs (d_pc (st_dir s (other d)))) ++ held0 →
  dir_inv c x (cn_closed (st_conn s (other d))) → (cn_closed (st_conn s d) = true → cn_closed c = true) →
  stitch_inv capacity size held0 (set_conn d c (set_dir d x (set_pool p s))).
Proof.
  intros Hi Hrun Hp Hheld Hx Hc. split; cbn [set_conn set_dir set_pool st_pool st_result].
  - exact Hp.
  - rewrite Hheld. f_equiv. symmetry. exact (in_use_set d x (set_pool p s)).
  - exact (dirs_update s d c x (inv_dirs _ _ _ _ Hi) Hx Hc).
  - intros r Hr. by rewrite (inv_running _ _ _ _ _ Hi Hrun) in Hr.
Qed.

(** Each step of a direction succeeds and keeps the invariant. *)
Lemma start_moves capacity size held0 s d :
  stitch_inv capacity size held0 s → d_pc (st_dir s d) = PStart →
  ∃ s', (∀ hold, stitch_step hold s (Start d) = Some s') ∧ stitch_inv capacity size held0 s'.
Proof.
  intros Hi Hpc. cbn [stitch_step]. rewrite Hpc. set (buf := (bufPool_get _ _).1).
  destruct (pool_step (st_pool s) Get) as [p|] eqn:Hg; [|simpl in Hg; by destruct (bufPool_get _ _)].
  eexists. split; [reflexivity|]. pose proof (inv_dirs _ _ _ _ Hi d) as (H1 & H2 & H3). rewrite Hpc in H3.
  split; cbn [set_dir set_pool st_pool st_result st_conn st_dir].
  - eapply pool_step_inv; [apply Hi|exact Hg].
  - rewrite (pool_get_held _ _ Hg), (inv_held _ _ _ _ Hi), (in_use_split d), Hpc.
    change (in_use _) with (in_use (set_dir d (set_pc (PRead buf) (st_dir s d)) s)). by rewrite in_use_set.
  - intros d'. destruct (decide (d' = d)) as [->|Hne]; [|rewrite fn_lookup_insert_ne by done; apply Hi].
    rewrite fn_lookup_insert. by split; [|split].
  - intros r Hr. rewrite (inv_running _ _ _ _ d Hi) in Hr; [done|by rewrite Hpc].
Qed.

Lemma read_moves hold capacity size held0 s d buf n e now :
  stitch_inv capacity size held0 s → d_pc (st_dir s d) = PRead buf →
  read_ok hold (st_conn s d) (bf_cap buf) n e = true →
  ∃ s', stitch_step hold s (Read d n e now) = Some s' ∧ stitch_inv capacity size held0 s'.
Proof.
  intros Hi Hpc Hok. cbn [stitch_step]. rewrite Hpc, Hok. cbv zeta.
  set (data := take n _). set (x := dir_read buf data e (st_dir s d)).
  destruct (release_held capacity size x buf (st_pool s) (pc_bufs (d_pc (st_dir s (other d))) ++ held0)) as (p & Hp & Hpi & Hph).
  { apply dir_read_keeps. }
  { apply Hi. }
  { rewrite (inv_held _ _ _ _ Hi), (in_use_split d), Hpc. done. }
  rewrite Hp. cbn [mbind option_bind]. eexists. split; [reflexivity|].
  match goal with |- context [match data with [] => ?s1 | _ => _ end] => assert (stitch_inv capacity size held0 s1) as Hs1 end.
  { apply dir_update; [done|by rewrite Hpc|done|by rewrite <-(assoc_L (++))| |done].
    eapply dir_read_inv; [apply Hi|done|exact Hok]. }
  destruct data; [exact Hs1|]. split; apply Hs1.
Qed.

Lemma write_moves hold capacity size held0 s d buf data readErr nw e :
  stitch_inv capacity size held0 s → d_pc (st_dir s d) = PWrite buf data readErr →
  write_ok (st_conn s (other d)) (length data) nw e = true →
  ∃ s', stitch_step hold s (Write d nw e) = Some s' ∧ stitch_inv capacity size held0 s'.
Proof.
  intros Hi Hpc Hok. cbn [stitch_step]. rewrite Hpc, Hok. cbv zeta.
  set (x := dir_write buf data readErr nw e (st_dir s d)).
  destruct (release_held capacity size x buf (st_pool s) (pc_bufs (d_pc (st_dir s (other d))) ++ held0)) as (p & Hp & Hpi & Hph).
  { apply dir_write_keeps. }
  { apply Hi. }
  { rewrite (inv_held _ _ _ _ Hi), (in_use_split d), Hpc. done. }
  rewrite Hp. cbn [mbind option_bind]. eexists. split; [reflexivity|].
  assert (stitch_inv capacity size held0 (set_conn d (st_conn s d) (set_dir d x (set_pool p s)))) as Hs1.
  { apply dir_update; [done|by rewrite Hpc|done|by rewrite <-(assoc_L (++))| |done].
    eapply dir_write_inv; [apply Hi|done|]. unfold write_ok in Hok. apply andb_true_iff in Hok as [Hok _]. by apply Nat.leb_le. }
  split; [apply Hs1|apply Hs1| |apply Hs1]. intros d'. pose proof (inv_dirs _ _ _ _ Hs1 d') as H.
  cbn [set_conn st_conn] in H. destruct d, d'; exact H.
Qed.

Lemma close_moves capacity size held0 s d :
  stitch_inv capacity size held0 s → d_pc (st_dir s d) = PClose →
  ∃ s', (∀ hold, stitch_step hold s (Close d) = Some s') ∧ stitch_inv capacity size held0 s'.
Proof.
  intros Hi Hpc. cbn [stitch_step]. rewrite Hpc. eexists. split; [reflexivity|].
  assert (stitch_inv capacity size held0 (set_conn (other d) (close_conn (st_conn s (other d))) s)) as Hc.
  { apply conn_update; [done|apply dir_inv_close, Hi|done]. }
  split; cbn [set_dir set_conn st_pool st_result st_conn st_dir].
  - apply Hi.
  - rewrite (inv_held _ _ _ _ Hi), (in_use_split d), Hpc. f_equiv.
    change (in_use _) with (in_use (set_dir d (set_pc PDone (st_dir s d)) s)). by rewrite in_use_set.
  - intros d'. pose proof (inv_dirs _ _ _ _ Hc d') as H. cbn [set_conn st_conn st_dir] in H.
    destruct (decide (d' = d)) as [->|Hne]; [|by rewrite (fn_lookup_insert_ne (st_dir s)) by done].
    rewrite !fn_lookup_insert. cbn [close_conn cn_closed]. by apply (dir_close_inv _ _ _ H).
  - intros r Hr. rewrite (inv_running _ _ _ _ d Hi) in Hr; [done|by rewrite Hpc].
Qed.

Lemma stitch_step_inv hold capacity size held0 s ev s' :
  stitch_inv capacity size held0 s → stitch_step hold s ev = Some s' → stitch_inv capacity size held0 s'.
Proof.
  intros Hi Hs. pose proof (inv_dirs _ _ _ _ Hi) as Hd. destruct ev as [d data|d|d|d n e now|d nw e|d|now| | |]; pose proof Hs as Hstep; simpl in Hs.
  - destruct (cn_eof (st_conn s d)) eqn:He; [done|]. simplify_eq. apply conn_update; [done|by apply dir_inv_deliver|done].
  - simplify_eq. apply conn_update; [done|by apply dir_inv_finish|done].
  - destruct (d_pc (st_dir s d)) eqn:Hpc; try done. destruct (start_moves _ _ _ _ _ Hi Hpc) as (s1 & H1 & ?).
    rewrite H1 in Hstep. by simplify_eq.
  - destruct (d_pc (st_dir s d)) as [|buf| | |] eqn:Hpc; try done. destruct (read_ok _ _ _ _ _) eqn:Hok; [|done].
    destruct (read_moves _ _ _ _ _ _ _ _ _ now Hi Hpc Hok) as (s1 & H1 & ?). rewrite H1 in Hstep. by simplify_eq.
  - destruct (d_pc (st_dir s d)) as [| |buf data readErr| |] eqn:Hpc; try done. destruct (write_ok _ _ _ _) eqn:Hok; [|done].
    destruct (write_moves hold _ _ _ _ _ _ _ _ _ _ Hi Hpc Hok) as (s1 & H1 & ?). rewrite H1 in Hstep. by simplify_eq.
  - destruct (d_pc (st_dir s d)) eqn:Hpc; try done. destruct (close_moves _ _ _ _ _ Hi Hpc) as (s1 & H1 & ?).
    rewrite H1 in Hstep. by simplify_eq.
  - destruct (st_watch s); simplify_eq. destruct (is_idle _ _ _); [|done]. split; apply Hi.
  - destruct (st_watch s) as [| |[|d ds]|]; simplify_eq. assert (stitch_inv capacity size held0 (set_conn d (close_conn (st_conn s d)) s)) as Hc.
    { apply conn_update; [done|apply dir_inv_close, Hd|done]. }
    split; apply Hc.
  - destruct (st_watch s), (st_result s) eqn:Hr; simplify_eq. split; apply Hi.
  - destruct (d_pc (st_dir s SideA)) eqn:HA, (d_pc (st_dir s SideB)) eqn:HB, (st_result s); simplify_eq.
    split; [apply Hi|apply Hi|apply Hd|]. intros r [= <-]. split; [by intros []|done].
Qed.

Lemma stitch_run_inv hold capacity size held0 s evs s' :
  stitch_inv capacity size held0 s → stitch_run hold s evs = Some s' → stitch_inv capacity size held0 s'.
Proof.
  revert s. induction evs as [|ev evs IH]; intros s Hi Hr; simpl in Hr; [by simplify_eq|].
  destruct (stitch_step hold s ev) as [s1|] eqn:Hs; simpl in Hr; [|done]. eapply IH; [|exact Hr]. by eapply stitch_step_inv.
Qed.

Lemma stitch_init_inv capacity size isConn timeout now pool :
  pool_inv capacity size pool → stitch_inv capacity size (po_held pool) (StitchWithTimeout isConn timeout now pool).
Proof.
  intros Hp. split; [exact Hp|done| |done]. intros d. split; [done|split; [done|]]. split; [done|]. by exists 0%nat.
Qed.

(** ** Lemmas: the end of a circuit *)

(** The calls a direction has left once the connection it reads is closed. *)
Definition steps_left (p : pc) : nat :=
  match p with PStart => 3 | PRead _ => 2 | PWrite _ _ _ => 3 | PClose => 1 | PDone => 0 end.

Lemma steps_left_bound p : (steps_left p ≤ 3)%nat.
Proof. destruct p; simpl; lia. Qed.

Lemma dir_write_left buf data readErr nw e x : (steps_left (d_pc (dir_write buf data readErr nw e x)) ≤ 2)%nat.
Proof. unfold dir_write. destruct e; simpl; [lia|]. destruct (_ =? _)%nat; [destruct readErr|]; simpl; lia. Qed.

Lemma fn_insert_side {A} (f : side → A) d d' a : (<[d := a]> f) d' = if decide (d = d') then a else f d'.
Proof. destruct (decide (d = d')) as [->|]; [apply fn_lookup_insert|by apply fn_lookup_insert_ne]. Qed.

(** Splits a step into its cases, down to the new state. *)
Ltac step_cases H :=
  simpl in H; repeat (case_match; try discriminate); simplify_option_eq; simpl in *.

Lemma closed_stays hold s ev s' d :
  stitch_step hold s ev = Some s' → cn_closed (st_conn s d) = true → cn_closed (st_conn s' d) = true.
Proof.
  intros Hs Hc. destruct ev; step_cases Hs; try exact Hc; rewrite fn_insert_side; by destruct (decide _) as [->|].
Qed.

(** A direction that has closed its connections moves only so often. *)
Lemma closed_step s ev s' d :
  stitch_step false s ev = Some s' → cn_closed (st_conn s d) = true →
  (steps_left (d_pc (st_dir s' d)) + (if decide (event_dir ev = Some d) then 1 else 0) ≤ steps_left (d_pc (st_dir s d)))%nat.
Proof.
  intros Hs Hc. destruct (decide (event_dir ev = Some d)) as [He|He].
  - destruct ev; simpl in He; simplify_eq; cbn [stitch_step] in Hs; destruct (d_pc (st_dir s d)) as [|buf|buf data readErr| |]; try done.
    + destruct (pool_step _ _); [|done]. cbn [mbind option_bind] in Hs. simplify_eq. cbn [st_dir set_dir set_pool set_conn]. rewrite fn_lookup_insert. simpl. lia.
    + unfold read_ok in Hs. rewrite Hc in Hs. cbn [andb negb] in Hs. destruct (Nat.eqb_spec n 0) as [->|]; [|done].
      destruct e as [e|]; [|done]. destruct (bool_decide _); [|done]. rewrite take_0 in Hs. cbv zeta in Hs. cbn [andb] in Hs. destruct (release _ _ _); [|done].
      cbn [mbind option_bind] in Hs. simplify_eq. cbn [st_dir set_dir set_pool set_conn]. rewrite fn_lookup_insert. simpl. lia.
    + destruct (write_ok _ _ _ _); [|done]. destruct (release _ _ _); [|done]. cbn [mbind option_bind] in Hs. simplify_eq. cbn [st_dir set_dir set_pool set_conn]. rewrite fn_lookup_insert.
      pose proof (dir_write_left buf data readErr nw e (st_dir s d)). unfold steps_left in *. lia.
    + simplify_eq. cbn [st_dir set_dir set_pool set_conn]. rewrite fn_lookup_insert. simpl. lia.
  - rewrite Nat.add_0_r. destruct ev; step_cases Hs; try lia; rewrite fn_insert_side, decide_False by naive_solver; lia.
Qed.

Lemma closed_run s evs s' d :
  stitch_run false s evs = Some s' → cn_closed (st_conn s d) = true →
  (steps_left (d_pc (st_dir s' d)) + moves d evs ≤ steps_left (d_pc (st_dir s d)))%nat.
Proof.
  revert s. induction evs as [|ev evs IH]; intros s Hr Hc; simpl in Hr; [simplify_eq; unfold moves; simpl; lia|].
  destruct (stitch_step false s ev) as [s1|] eqn:Hs; simpl in Hr; [|done].
  pose proof (closed_stays _ _ _ _ _ Hs Hc) as Hc1. pose proof (closed_step _ _ _ _ Hs Hc). pose proof (IH _ Hr Hc1).
  unfold moves in *. rewrite filter_cons. destruct (decide _); simpl; lia.
Qed.

(** With both connections closed nothing blocks. *)
Lemma closed_can_move capacity size held0 s d :
  stitch_inv capacity size held0 s → (∀ d, cn_closed (st_conn s d) = true) → d_pc (st_dir s d) ≠ PDone →
  ∃ ev, event_dir ev = Some d ∧ is_Some (stitch_step false s ev).
Proof.
  intros Hi Hc Hpc. destruct (d_pc (st_dir s d)) as [|buf|buf data readErr| |] eqn:Hp; [| | | |done].
  - destruct (start_moves _ _ _ _ _ Hi Hp) as (s' & H & _). exists (Start d). split; [done|]. rewrite H. by eexists.
  - destruct (read_moves false _ _ _ _ _ _ 0%nat (Some ErrShortWrite) 0 Hi Hp) as (s' & H & _).
    { unfold read_ok. by rewrite Hc. }
    exists (Read d 0 (Some ErrShortWrite) 0). split; [done|]. rewrite H. by eexists.
  - destruct (write_moves false _ _ _ _ _ _ _ _ 0%nat (Some ErrShortWrite) Hi Hp) as (s' & H & _).
    { unfold write_ok. by rewrite Hc. }
    exists (Write d 0 (Some ErrShortWrite)). split; [done|]. rewrite H. by eexists.
  - destruct (close_moves _ _ _ _ _ Hi Hp) as (s' & H & _). exists (Close d). split; [done|]. rewrite H. by eexists.
Qed.

Lemma run_closed hold s evs s' d :
  stitch_run hold s evs = Some s' → cn_closed (st_conn s d) = true → cn_closed (st_conn s' d) = true.
Proof.
  revert s. induction evs as [|ev evs IH]; intros s Hr Hc; simpl in Hr; [by simplify_eq|].
  destruct (stitch_step hold s ev) as [s1|] eqn:Hs; simpl in Hr; [|done]. eapply IH; [exact Hr|]. by eapply closed_stays.
Qed.

(** A direction reads nothing from a closed connection. *)
Lemma dir_write_reads buf data readErr nw e x : d_reads (dir_write buf data readErr nw e x) = d_reads x.
Proof. unfold dir_write. destruct e; [done|]. destruct (_ =? _)%nat; [by destruct readErr|done]. Qed.

Lemma closed_reads_step s ev s' d :
  stitch_step false s ev = Some s' → cn_closed (st_conn s d) = true → read_bytes (st_dir s' d) = read_bytes (st_dir s d).
Proof.
  intros Hs Hc. destruct (decide (event_dir ev = Some d)) as [He|He].
  - destruct ev; simpl in He; simplify_eq; cbn [stitch_step] in Hs; destruct (d_pc (st_dir s d)) as [|buf|buf data readErr| |]; try done.
    + destruct (pool_step _ _); [|done]. cbn [mbind option_bind] in Hs. simplify_eq. cbn [st_dir set_dir set_pool set_conn].
      by rewrite fn_lookup_insert.
    + unfold read_ok in Hs. rewrite Hc in Hs. cbn [andb negb] in Hs. destruct (Nat.eqb_spec n 0) as [->|]; [|done].
      destruct e as [e|]; [|done]. destruct (bool_decide _); [|done]. rewrite take_0 in Hs. cbv zeta in Hs. cbn [andb] in Hs.
      destruct (release _ _ _); [|done]. cbn [mbind option_bind] in Hs. simplify_eq. cbn [st_dir set_dir set_pool set_conn].
      rewrite fn_lookup_insert. unfold read_bytes. simpl. by rewrite bind_app, app_nil_r.
    + destruct (write_ok _ _ _ _); [|done]. cbv zeta in Hs. destruct (release _ _ _); [|done]. cbn [mbind option_bind] in Hs.
      simplify_eq. cbn [st_dir set_dir set_pool set_conn]. rewrite fn_lookup_insert. unfold read_bytes. by rewrite dir_write_reads.
    + simplify_eq. cbn [st_dir set_dir set_pool set_conn]. by rewrite fn_lookup_insert.
  - destruct ev; step_cases Hs; try done; rewrite fn_insert_side, decide_False by naive_solver; done.
Qed.

Lemma closed_reads s evs s' d :
  stitch_run false s evs = Some s' → cn_closed (st_conn s d) = true → read_bytes (st_dir s' d) = read_bytes (st_dir s d).
Proof.
  revert s. induction evs as [|ev evs IH]; intros s Hr Hc; simpl in Hr; [by simplify_eq|].
  destruct (stitch_step false s ev) as [s1|] eqn:Hs; simpl in Hr; [|done].
  rewrite (IH _ Hr) by (by eapply closed_stays). by eapply closed_reads_step.
Qed.

(** ** Properties *)

Definition n_of (r : StitchResult) (d : side) : Z := match d with SideA => BytesAtoB r | SideB => BytesBtoA r end.

Definition err_of (r : StitchResult) (d : side) : option goerr :=
  match d with SideA => ErrAtoB r | SideB => ErrBtoA r end.

(** C30: What a stitched circuit has done when it returns, whatever the order in
    which its goroutines ran and whatever their connections returned. Both
    connections are closed and both buffers are back in the pool. In each
    direction the bytes that went out are a prefix of those the peer sent, and
    the result counts them; a nil error means that the peer has ended and all
    that it sent went out; and the result is that of the copy loop on the results
    its calls got, so that the interleaving is not to be seen in it. *)
Theorem stitch_forwards (hold : bool) (capacity : nat) (size : Z) (isConn : side → bool) (timeout now : Z)
  (pool : pool_state) (evs : list stitch_event) (s : stitch) (r : StitchResult)
  (Hpool : pool_inv capacity size pool)
  (Hrun : stitch_run hold (StitchWithTimeout isConn timeout now pool) evs = Some s)
  (Hresult : st_result s = Some r)
  (Hsize : ∀ d, Z.of_nat (length (cn_sent (st_conn s d))) ≤ MaxInt64) :
  (∀ d, let c := st_conn s d in let x := st_dir s d in
    cn_closed c = true ∧ d_out x `prefix_of` cn_sent c ∧ n_of r d = Z.of_nat (length (d_out x)) ∧
    (err_of r d = None → d_out x = cn_sent c ∧ cn_eof c = true) ∧
    ∃ touched, copyPooledTracked (d_reads x) (d_writes x) [] 0 0 = Some (d_out x, n_of r d, err_of r d, touched)) ∧
  po_held (st_pool s) ≡ₚ po_held pool.
Proof.
  assert (stitch_inv capacity size (po_held pool) s) as Hi by (eapply stitch_run_inv; [by apply stitch_init_inv|exact Hrun]).
  destruct (inv_result _ _ _ _ Hi _ Hresult) as [Hdone ->]. split.
  - intros d. pose proof (inv_dirs _ _ _ _ Hi d) as (Hs & Hn & Hx). pose proof (inv_dirs _ _ _ _ Hi (other d)) as (_ & _ & Hy).
    rewrite Hdone in Hx, Hy. destruct Hx as (Hp & He & Hcopy & _), Hy as (_ & _ & _ & Hc). specialize (Hsize d). cbv zeta. rewrite <-Hs in Hsize |- *.
    assert (n_of (MkStitchResult (d_n (st_dir s SideA)) (d_n (st_dir s SideB)) (d_err (st_dir s SideA)) (d_err (st_dir s SideB))) d
      = d_n (st_dir s d)) as -> by (by destruct d).
    assert (err_of (MkStitchResult (d_n (st_dir s SideA)) (d_n (st_dir s SideB)) (d_err (st_dir s SideA)) (d_err (st_dir s SideB))) d
      = d_err (st_dir s d)) as -> by (by destruct d).
    split_and!; [|by apply prefix_app_r| | |exact Hcopy].
    + assert (d = other (other d)) as -> by (by destruct d). by apply Hc.
    + apply prefix_length in Hp. rewrite length_app in Hsize. rewrite Hn, i64_id; [done|i64_lia].
    + intros Hnone. destruct (He Hnone) as (-> & Hin & Heof). by rewrite Hin, app_nil_r.
  - rewrite (inv_held _ _ _ _ Hi). unfold in_use. by rewrite !Hdone.
Qed.

(** C31: A circuit that goes silent ends. When the watchdog runs and its tick finds
    the circuit idle, it closes both connections. On connections whose blocked
    calls return once they are closed, each direction then makes at most three
    more calls, whatever happens in between; one that is not done can always make
    its next; and when both are done the call returns their result. *)
Theorem stitch_ends (capacity : nat) (size : Z) (isConn : side → bool) (timeout start now : Z) (pool : pool_state)
  (evs : list stitch_event) (s : stitch)
  (Hpool : pool_inv capacity size pool)
  (Hrun : stitch_run false (StitchWithTimeout isConn timeout start pool) evs = Some s)
  (Hwatch : st_watch s = WRun) (Hidle : is_idle (λ _, st_lastActive s) (st_timeout s) now = true) :
  ∃ s1, stitch_run false s [Tick now; WatchClose; WatchClose] = Some s1 ∧ (∀ d, cn_closed (st_conn s1 d) = true) ∧
  ∀ evs' s', stitch_run false s1 evs' = Some s' →
    (∀ d, (moves d evs' ≤ 3)%nat) ∧
    (∀ d, d_pc (st_dir s' d) ≠ PDone → ∃ ev, event_dir ev = Some d ∧ is_Some (stitch_step false s' ev)) ∧
    ((∀ d, d_pc (st_dir s' d) = PDone) → st_result s' = None →
      ∃ s'' r, stitch_step false s' Return = Some s'' ∧ st_result s'' = Some r).
Proof.
  assert (stitch_inv capacity size (po_held pool) s) as Hi by (eapply stitch_run_inv; [by apply stitch_init_inv|exact Hrun]).
  cbn [stitch_run stitch_step mbind option_bind]. rewrite Hwatch, Hidle. cbn [mbind option_bind set_watch st_watch].
  eexists. split; [reflexivity|]. match goal with |- (∀ d, cn_closed (st_conn ?x d) = true) ∧ _ => set (s1 := x) end.
  assert (stitch_run false s [Tick now; WatchClose; WatchClose] = Some s1) as Hr1.
  { cbn [stitch_run stitch_step mbind option_bind]. by rewrite Hwatch, Hidle. }
  assert (∀ d, cn_closed (st_conn s1 d) = true) as Hc by (by intros []).
  split; [exact Hc|]. intros evs' s' Hr.
  assert (stitch_inv capacity size (po_held pool) s') as Hi' by (eapply stitch_run_inv; [eapply stitch_run_inv; [exact Hi|exact Hr1]|exact Hr]).
  split_and!.
  - intros d. pose proof (closed_run _ _ _ d Hr (Hc d)). pose proof (steps_left_bound (d_pc (st_dir s1 d))). lia.
  - intros d. eapply closed_can_move; [exact Hi'|]. intros d'. by eapply run_closed.
  - intros Hdone Hnone. cbn [stitch_step]. rewrite !Hdone, Hnone. by eexists _, _.
Qed.

(** One direction ends the other. Once a direction is done, the connection that
    the other reads is closed: on connections that return from a closed [Read]
    with an error, the other makes at most three more calls and reads nothing
    more, so what its peer had still to say, an answer to the first peer's last
    request, is lost. *)
Theorem half_close_is_full (capacity : nat) (size : Z) (isConn : side → bool) (timeout start : Z) (pool : pool_state)
  (evs evs' : list stitch_event) (s s' : stitch) (d : side)
  (Hpool : pool_inv capacity size pool)
  (Hrun : stitch_run false (StitchWithTimeout isConn timeout start pool) evs = Some s)
  (Hdone : d_pc (st_dir s d) = PDone) (Hrun' : stitch_run false s evs' = Some s') :
  (moves (other d) evs' ≤ 3)%nat ∧ read_bytes (st_dir s' (other d)) = read_bytes (st_dir s (other d)).
Proof.
  assert (stitch_inv capacity size (po_held pool) s) as Hi by (eapply stitch_run_inv; [by apply stitch_init_inv|exact Hrun]).
  pose proof (inv_dirs _ _ _ _ Hi d) as (_ & _ & Hx). rewrite Hdone in Hx. destruct Hx as (_ & _ & _ & Hc). specialize (Hc eq_refl).
  split; [|by eapply closed_reads].
  pose proof (closed_run _ _ _ _ Hrun' Hc). pose proof (steps_left_bound (d_pc (st_dir s (other d)))). lia.
Qed.

(** The timeout is the circuit's, not a direction's: a [Read] with data in either
    direction keeps the watchdog from closing for the whole timeout, however
    long the other direction has been idle. *)
Theorem one_way_traffic_keeps_circuit (hold : bool) (s s1 : stitch) (d : side) (n : nat) (e : option goerr) (t now : Z)
  (Hread : stitch_step hold s (Read d n e t) = Some s1) (Hn : (0 < n)%nat) (Hwatch : st_watch s = WRun)
  (Hnow : t ≤ now < t + st_timeout s) (Hrange : 0 ≤ t ∧ now ≤ MaxInt64) :
  stitch_step hold s1 (Tick now) = Some s1.
Proof.
  assert (st_lastActive s1 = t ∧ st_timeout s1 = st_timeout s ∧ st_watch s1 = WRun) as (H1 & H2 & H3).
  { cbn [stitch_step] in Hread. destruct (d_pc _) as [|buf| | |]; try done. destruct (read_ok _ _ _ _ _) eqn:Hok; [|done].
    cbv zeta in Hread. destruct (release _ _ _); [|done]. cbn [mbind option_bind] in Hread. simplify_eq.
    destruct (take n (cn_in (st_conn s d))) as [|b data] eqn:Ht; [|done]. unfold read_ok in Hok.
    destruct (cn_closed _ && negb hold); [destruct (Nat.eqb_spec n 0); [lia|done]|].
    rewrite !andb_true_iff in Hok. destruct Hok as ((Hl & _) & _). apply Nat.leb_le in Hl.
    apply (f_equal length) in Ht. rewrite length_take in Ht. simpl in Ht. lia. }
  cbn [stitch_step]. rewrite H3. unfold is_idle. rewrite H1, H2. destruct (Z.leb_spec (st_timeout s) (time_Sub now t)) as [Hle|]; [|done].
  unfold time_Sub in Hle. i64_lia.
Qed.

(** ** Witnesses *)

Definition pool0 : pool_state := MkPoolState (newBufPool 256 (32 * 1024)) [] 0.

Lemma pool0_inv : pool_inv 256 (32 * 1024) pool0.
Proof. split_and!; [constructor|constructor|done|done|simpl; lia]. Qed.

(** A sends a request and ends its side; it goes out, and B's connection is closed
    with it, so that the answer is not read. *)
Definition request : list stitch_event :=
  [Start SideB; Deliver SideA (go "get"); Finish SideA; Start SideA; Read SideA 2 None 5; Write SideA 2 None;
   Read SideA 1 (Some EOF) 7; Write SideA 1 None; Close SideA].

Definition after_request : list stitch_event :=
  [Deliver SideB (go "ok"); Read SideB 0 (Some ErrShortWrite) 8; Close SideB; Return; WatchStop].

Definition both : side → bool := λ _, true.

Lemma stitch_forwards_witness :
  ∃ s r, stitch_run false (StitchWithTimeout both second 0 pool0) (request ++ after_request) = Some s ∧
    st_result s = Some r ∧ r = MkStitchResult 3 0 None (Some ErrShortWrite) ∧
    d_out (st_dir s SideA) = cn_sent (st_conn s SideA) ∧ po_held (st_pool s) ≡ₚ [].
Proof.
  eexists _, _. split; [vm_compute; reflexivity|]. split; [reflexivity|]. split; [reflexivity|].
  destruct (stitch_forwards false 256 (32 * 1024) both second 0 pool0 (request ++ after_request) _ _
    pool0_inv ltac:(vm_compute; reflexivity) eq_refl) as [Hd Hp].
  - intros []; vm_compute; discriminate.
  - split; [|exact Hp]. by apply (Hd SideA).
Defined.

Lemma stitch_ends_witness :
  ∃ s s1, stitch_run false (StitchWithTimeout both second 0 pool0) [Start SideA; Deliver SideB (go "x"); Start SideB] = Some s ∧
    stitch_run false s [Tick (2 * second); WatchClose; WatchClose] = Some s1 ∧ ∀ d, cn_closed (st_conn s1 d) = true.
Proof.
  eexists. destruct (stitch_ends 256 (32 * 1024) both second 0 (2 * second) pool0
    [Start SideA; Deliver SideB (go "x"); Start SideB] _ pool0_inv ltac:(vm_compute; reflexivity)) as (s1 & Hr & Hc & _).
  - reflexivity.
  - vm_compute. reflexivity.
  - exists s1. split; [vm_compute; reflexivity|]. split; [exact Hr|exact Hc].
Defined.

Lemma half_close_is_full_witness :
  ∃ s s', stitch_run false (StitchWithTimeout both second 0 pool0) request = Some s ∧
    stitch_run false s after_request = Some s' ∧ read_bytes (st_dir s SideB) = [] ∧
    read_bytes (st_dir s' SideB) = read_bytes (st_dir s SideB) ∧ cn_sent (st_conn s' SideB) = go "ok".
Proof.
  eexists _, _. split; [vm_compute; reflexivity|]. split; [vm_compute; reflexivity|]. split; [reflexivity|]. split; [|reflexivity].
  destruct (half_close_is_full 256 (32 * 1024) both second 0 pool0 request after_request _ _ SideA
    pool0_inv ltac:(vm_compute; reflexivity) eq_refl ltac:(vm_compute; reflexivity)) as [_ H]. exact H.
Defined.

(** A has sent a byte that is not read yet. *)
Definition one_byte : stitch :=
  default (StitchWithTimeout both second 0 pool0)
    (stitch_run false (StitchWithTimeout both second 0 pool0) [Start SideA; Deliver SideA (go "x")]).

Lemma one_way_traffic_keeps_circuit_witness :
  ∃ s1, stitch_step false one_byte (Read SideA 1 None second) = Some s1 ∧ stitch_step false s1 (Tick (second + 1)) = Some s1.
Proof.
  eexists. split; [vm_compute; reflexivity|].
  apply (one_way_traffic_keeps_circuit false one_byte _ SideA 1 None second (second + 1)); [vm_compute; reflexivity|lia|reflexivity| |].
  - split; vm_compute; [discriminate|reflexivity].
  - split; vm_compute; discriminate.
Defined.
