(* ===== verification/Pair.v ===== *)
(** * Pairing of connections: membrane/pair.go

    The pending control connections of a listener, and the data connections
    that join them. A connection is its identity; every call carries the time
    it reads. The calls hold one mutex, so a history of the table is a list of
    calls in the order they got it. *)

From Stdlib Require Import Ascii.
From stdpp Require Import base numbers gmap strings list.
From S2P Require Import Prelude GoStrings.

Open Scope Z_scope.

(** ** Data *)

Abbreviation conn := nat.

Record PairResult := MkPairResult { pr_Control : conn; pr_Data : conn }.

#[export] Instance pair_result_eq_dec : EqDecision PairResult.
Proof. solve_decision. Defined.

Record pendingEntry := MkPendingEntry { pe_token : gostring; pe_conn : conn; pe_created : Z }.

(** [closeCh] is [pp_closed]: a closed channel is never open again. *)
Record PendingPairs := MkPendingPairs {
  pp_pending : gmap gostring pendingEntry;
  pp_timeout : Z;
  pp_closed : bool
}.

Definition DefaultPairTimeout : Z := 10 * second.

Definition NewPendingPairsWithTimeout (timeout : Z) : PendingPairs := MkPendingPairs ∅ timeout false.

Definition NewPendingPairs : PendingPairs := NewPendingPairsWithTimeout DefaultPairTimeout.

(** [time.NewTicker] of [cleanupLoop], which panics in its goroutine. *)
Definition cleanupInterval (timeout : Z) : outcome Z :=
  let d := Z.quot timeout 2 in if d <=? 0 then Panic else Ret d.

(** ** Operations *)

(** [subtle.ConstantTimeCompare]: the bytes' differences are gathered with [or]. *)
Definition ConstantTimeCompare (x y : gostring) : Z :=
  if negb (length x =? length y)%nat then 0
  else
    let v := foldl (λ v p, N.lor v (N.lxor (N_of_ascii p.1) (N_of_ascii p.2))) 0%N (zip x y) in
    if (v =? 0)%N then 1 else 0.

Definition RegisterControl (pp : PendingPairs) (now : Z) (peerID token : gostring) (c : conn) : PendingPairs :=
  MkPendingPairs (<[peerID := MkPendingEntry token c now]> (pp_pending pp)) (pp_timeout pp) (pp_closed pp).

Definition drop_pending (pp : PendingPairs) (peerID : gostring) : PendingPairs :=
  MkPendingPairs (delete peerID (pp_pending pp)) (pp_timeout pp) (pp_closed pp).

Definition CompleteData (pp : PendingPairs) (now : Z) (peerID token : gostring) (dataConn : conn)
    : outcome PairResult * PendingPairs :=
  match pp_pending pp !! peerID with
  | None => (Err (Errorf "membrane: no pending control connection for peer %q"), pp)
  | Some entry =>
      if pp_timeout pp <? time_Sub now (pe_created entry)
      then (Err (Errorf "membrane: pending pairing for peer %q expired"), drop_pending pp peerID)
      else if negb (ConstantTimeCompare (pe_token entry) token =? 1)
      then (Err (Errorf "membrane: pair token mismatch for peer %q"), pp)
      else (Ret (MkPairResult (pe_conn entry) dataConn), drop_pending pp peerID)
  end.

Definition purgeExpired (pp : PendingPairs) (now : Z) : PendingPairs :=
  MkPendingPairs (filter (λ e, ¬ pp_timeout pp < time_Sub now (pe_created e.2)) (pp_pending pp))
    (pp_timeout pp) (pp_closed pp).

(** [Close]: closing a closed channel panics. *)
Definition PendingPairs_Close (pp : PendingPairs) : outcome PendingPairs :=
  if pp_closed pp then Panic else Ret (MkPendingPairs (pp_pending pp) (pp_timeout pp) true).

(** ** Histories *)

(** A call, and what it did: a completion carries its result. *)
Inductive pair_event :=
| Registered (peerID token : gostring) (c : conn)
| Completed (peerID token : gostring) (dataConn : conn) (r : outcome PairResult)
| Purged
| Closed.

(** One call at time [now]. A tick of a closed table's ticker no longer purges;
    closing a table twice panics. *)
Inductive pair_step (pp : PendingPairs) (now : Z) : pair_event → PendingPairs → Prop :=
| step_register peerID token c :
    pair_step pp now (Registered peerID token c) (RegisterControl pp now peerID token c)
| step_complete peerID token d r pp' :
    CompleteData pp now peerID token d = (r, pp') →
    pair_step pp now (Completed peerID token d r) pp'
| step_purge :
    pp_closed pp = false → pair_step pp now Purged (purgeExpired pp now)
| step_close pp' :
    PendingPairs_Close pp = Ret pp' → pair_step pp now Closed pp'.

(** A history from a new table: the events with their times, and the table and
    time they lead to. The clock does not run backwards. *)
Inductive history (timeout : Z) : list (Z * pair_event) → Z → PendingPairs → Prop :=
| history_new t0 : history timeout [] t0 (NewPendingPairsWithTimeout timeout)
| history_step log t pp now e pp' :
    history timeout log t pp → t ≤ now → pair_step pp now e pp' →
    history timeout (log ++ [(now, e)]) now pp'.

(** The event leaves a pending entry of [peerID] alone, unless it has expired. *)
Definition spares (peerID : gostring) (e : Z * pair_event) : Prop :=
  match e.2 with
  | Registered p _ _ => p ≠ peerID
  | Completed p _ _ (Ret _) => p ≠ peerID
  | _ => True
  end.

(** [peerID] is waiting: it registered the entry, and since then it has neither
    registered again nor been paired. *)
Definition waiting (log : list (Z * pair_event)) (peerID : gostring) (entry : pendingEntry) : Prop :=
  ∃ before after,
    log = before ++ (pe_created entry, Registered peerID (pe_token entry) (pe_conn entry)) :: after ∧
    Forall (spares peerID) after.

(** ** Lemmas *)

Lemma ConstantTimeCompare_spec x y : ConstantTimeCompare x y = if decide (x = y) then 1 else 0.
Proof.
  unfold ConstantTimeCompare. destruct (Nat.eqb_spec (length x) (length y)) as [Hl|Hl]; cbn [negb].
  2:{ rewrite decide_False; [done|]. by intros ->. }
  set (f := λ (v : N) (p : ascii * ascii), N.lor v (N.lxor (N_of_ascii p.1) (N_of_ascii p.2))).
  assert (∀ v, foldl f v (zip x y) = 0%N ↔ v = 0%N ∧ x = y) as Hf.
  { revert y Hl. induction x as [|a x IH]; intros [|b y] Hl v; try done; simpl; [naive_solver|].
    rewrite IH by (by simpl in Hl; lia). unfold f at 1. simpl. rewrite N.lor_eq_0_iff, N.lxor_eq_0_iff.
    split; [|naive_solver]. intros [[-> Hab] ->]. split; [done|].
    by rewrite <-(ascii_N_embedding a), Hab, ascii_N_embedding. }
  case_decide as He; destruct (N.eqb_spec (foldl f 0%N (zip x y)) 0) as [H0|H0]; try done;
    rewrite Hf in H0; naive_solver.
Qed.

Lemma expired_mono timeout created t now :
  t ≤ now → timeout < time_Sub t created → timeout < time_Sub now created.
Proof. unfold time_Sub. lia. Qed.

Lemma waiting_snoc log now e peerID entry :
  waiting (log ++ [(now, e)]) peerID entry ↔
  (waiting log peerID entry ∧ spares peerID (now, e)) ∨
  (pe_created entry = now ∧ e = Registered peerID (pe_token entry) (pe_conn entry)).
Proof.
  split.
  - intros (before & after & Heq & Hall). destruct after as [|x after _] using rev_ind.
    + apply app_inj_tail in Heq as [_ [= <- <-]]. by right.
    + rewrite app_comm_cons, (assoc_L (++)) in Heq. apply app_inj_tail in Heq as [-> <-]. left.
      apply Forall_app in Hall as [Ha [Hs _]%Forall_cons]. split; [by exists before, after|done].
  - intros [[(before & after & -> & Hall) Hs]|[<- ->]].
    + exists before, (after ++ [(now, e)]). split; [by rewrite <-(assoc_L (++))|].
      apply Forall_app. by split; [|apply Forall_singleton].
    + exists log, []. by split; [|constructor].
Qed.

(** The table is the waiting entries, up to expired ones. *)
Definition pair_inv (timeout : Z) (log : list (Z * pair_event)) (t : Z) (pp : PendingPairs) : Prop :=
  pp_timeout pp = timeout ∧
  (∀ peerID entry, pp_pending pp !! peerID = Some entry → waiting log peerID entry) ∧
  ∀ peerID entry, waiting log peerID entry →
    pp_pending pp !! peerID = Some entry ∨ timeout < time_Sub t (pe_created entry).

Lemma history_inv timeout log t pp : history timeout log t pp → pair_inv timeout log t pp.
Proof.
  induction 1 as [t0|log t pp now e pp' Hh (Ht & Hin & Hout) Hle Hstep].
  { split_and!; [done|by intros ?? ?|]. intros p entry (b & a & Heq & _). by destruct b. }
  assert (∀ entry, timeout < time_Sub t (pe_created entry) → timeout < time_Sub now (pe_created entry)) as Hexp
    by (intros entry; by apply expired_mono).
  destruct Hstep as [p0 tok c|p0 tok d r pp' Hc|Hclosed|pp' Hclose].
  - split_and!; [done| |]; intros p entry; rewrite waiting_snoc; simpl;
      (destruct (decide (p = p0)) as [->|Hne]; [rewrite lookup_insert_eq|rewrite lookup_insert_ne by done]).
    + intros [= <-]. by right.
    + intros H%Hin. by left.
    + intros [[_ []]|[Hcr [= -> ->]]]; [done|]. left. destruct entry. naive_solver.
    + intros [[[]%Hout _]|[_ [= ?]]]; eauto; congruence.
  - unfold CompleteData in Hc. rewrite Ht in Hc. destruct (pp_pending pp !! p0) as [entry0|] eqn:He.
    2:{ injection Hc as <- <-. split_and!; [done| |]; intros p entry; rewrite waiting_snoc; simpl.
        - intros H%Hin. by left. - intros [[[]%Hout _]|[_ ?]]; eauto; congruence. }
    destruct (Z.ltb_spec timeout (time_Sub now (pe_created entry0))) as [Hold|Hfresh].
    + injection Hc as <- <-. split_and!; [done| |]; intros p entry; rewrite waiting_snoc; simpl.
      * intros [_ H%Hin]%lookup_delete_Some. by left.
      * intros [[[Hp|]%Hout _]|[_ ?]]; eauto; [|congruence]. destruct (decide (p = p0)) as [->|].
        -- right. congruence.
        -- left. by rewrite lookup_delete_ne.
    + destruct (negb _); injection Hc as <- <-; (split_and!; [done| |]); intros p entry; rewrite waiting_snoc; simpl.
      * intros H%Hin. by left.
      * intros [[[]%Hout _]|[_ ?]]; eauto; congruence.
      * intros [Hne H%Hin]%lookup_delete_Some. by left.
      * intros [[[Hp|]%Hout Hne]|[_ ?]]; eauto; [|congruence]. left. by rewrite lookup_delete_ne.
  - split_and!; [done| |]; intros p entry; rewrite waiting_snoc; simpl; rewrite Ht.
    + intros [H%Hin _]%map_lookup_filter_Some. by left.
    + intros [[[Hp|]%Hout _]|[_ ?]]; eauto; [|congruence].
      destruct (decide (timeout < time_Sub now (pe_created entry))); [by right|left].
      by apply map_lookup_filter_Some.
  - assert (pp_timeout pp' = pp_timeout pp ∧ pp_pending pp' = pp_pending pp) as [Htt Hpp].
    { unfold PendingPairs_Close in Hclose. destruct (pp_closed pp); [done|]. by injection Hclose as <-. }
    split_and!; [congruence| |]; intros p entry; rewrite waiting_snoc, Hpp; simpl.
    + intros H%Hin. by left.
    + intros [[[]%Hout _]|[_ ?]]; eauto; congruence.
Qed.

Lemma CompleteData_entry pp now peerID token d r :
  fst (CompleteData pp now peerID token d) = Ret r ↔
  ∃ entry, pp_pending pp !! peerID = Some entry ∧ pe_token entry = token ∧
    time_Sub now (pe_created entry) ≤ pp_timeout pp ∧ r = MkPairResult (pe_conn entry) d.
Proof.
  unfold CompleteData. destruct (pp_pending pp !! peerID) as [entry|]; [|naive_solver].
  destruct (Z.ltb_spec (pp_timeout pp) (time_Sub now (pe_created entry))) as [Hold|Hfresh].
  { split; [done|]. intros (entry' & [= <-] & _ & ? & _). lia. }
  rewrite ConstantTimeCompare_spec. case_decide; simpl; naive_solver.
Qed.

(** A registration after a successful completion of the peer stands behind it. *)
Lemma waiting_after log mid t1 peerID tok1 d1 r1 entry :
  waiting (log ++ (t1, Completed peerID tok1 d1 (Ret r1)) :: mid) peerID entry →
  (pe_created entry, Registered peerID (pe_token entry) (pe_conn entry)) ∈ mid.
Proof.
  intros (before & after & Heq & Hall).
  apply app_eq_inv in Heq as [(k & Hb & Ha)|(k & Hb & Ha)].
  - destruct k as [|x k]; [done|]. injection Ha as <- ->.
    apply Forall_app in Hall as [_ [Hs _]%Forall_cons]. by destruct Hs.
  - destruct k as [|x k]; [done|]. injection Ha as <- ->. set_solver.
Qed.

(** ** Properties *)

(** C20: A data connection is paired with exactly the control connection that waits
    for it. After any history of the table (registrations, completions, purges by
    the ticker, and [Close], which stops the ticker and leaves the entries: a closed
    table still pairs), [CompleteData] succeeds if and only if its peer is waiting with
    the same token and has not waited longer than the timeout; the result joins that
    control connection with the data connection. *)
Theorem pairing_exact (timeout : Z) (log : list (Z * pair_event)) (t now : Z) (pp : PendingPairs)
  (peerID token : gostring) (d : conn) (r : PairResult)
  (Hlog : history timeout log t pp) (Hnow : t ≤ now) :
  fst (CompleteData pp now peerID token d) = Ret r ↔
  ∃ entry, waiting log peerID entry ∧ pe_token entry = token ∧
    time_Sub now (pe_created entry) ≤ timeout ∧ r = MkPairResult (pe_conn entry) d.
Proof.
  apply history_inv in Hlog as (Ht & Hin & Hout). rewrite CompleteData_entry, Ht. split.
  - intros (entry & H%Hin & ?). by exists entry.
  - intros (entry & [Hp|Hexp]%Hout & Htok & Hfresh & Hr); [by exists entry|].
    apply (expired_mono _ _ _ now) in Hexp; [lia|done].
Qed.

(** A registration is used once. In any history, between two successful
    completions of one peer the peer has registered anew, with the token and the
    control connection of the second. *)
Theorem pairing_single_use (timeout : Z) (log mid : list (Z * pair_event)) (t t1 t2 : Z) (pp : PendingPairs)
  (peerID tok1 tok2 : gostring) (d1 d2 : conn) (r1 r2 : PairResult)
  (Hlog : history timeout (log ++ (t1, Completed peerID tok1 d1 (Ret r1)) :: mid ++
     [(t2, Completed peerID tok2 d2 (Ret r2))]) t pp) :
  ∃ t', (t', Registered peerID tok2 (pr_Control r2)) ∈ mid.
Proof.
  rewrite app_comm_cons, (assoc_L (++)) in Hlog.
  inversion Hlog as [t0 Hnil|log' t' pp0 now e pp' Hh Hle Hstep Heq]; subst.
  { symmetry in Hnil. by apply app_nil in Hnil as [_ ?]. }
  apply app_inj_tail in Heq as [-> [= -> ->]].
  inversion Hstep as [| p tok d r pp1 Hc | |]; subst.
  apply history_inv in Hh as (_ & Hin & _).
  destruct (CompleteData_entry pp0 t2 peerID tok2 d2 r2) as [Hent _].
  destruct Hent as (entry & Hw%Hin & <- & _ & ->); [by rewrite Hc|].
  exists (pe_created entry). by eapply waiting_after.
Qed.

(** [Close] clears no entry: what was pending before is still paired after. *)
Lemma close_keeps_entries (pp pp' : PendingPairs) (now : Z) (peerID token : gostring) (d : conn) :
  PendingPairs_Close pp = Ret pp' →
  fst (CompleteData pp' now peerID token d) = fst (CompleteData pp now peerID token d).
Proof.
  unfold PendingPairs_Close. destruct (pp_closed pp); [done|]. intros [= <-]. unfold CompleteData. cbn [pp_pending pp_timeout].
  destruct (pp_pending pp !! peerID) as [entry|]; [|done]. by repeat case_match.
Qed.

(** An expired entry is removed by the attempt to complete it. *)
Lemma expired_attempt_removes (pp : PendingPairs) (now : Z) (peerID token : gostring) (d : conn) (entry : pendingEntry) :
  pp_pending pp !! peerID = Some entry → pp_timeout pp < time_Sub now (pe_created entry) →
  pp_pending (CompleteData pp now peerID token d).2 !! peerID = None.
Proof.
  intros He Ht. unfold CompleteData. rewrite He, (proj2 (Z.ltb_lt _ _) Ht). simpl. apply lookup_delete_eq.
Qed.

(** ** Witnesses *)

Definition log0 : list (Z * pair_event) :=
  [(1, Registered (go "n1") (go "tok") 7%nat)] ++
  (2, Completed (go "n1") (go "tok") 8%nat (Ret (MkPairResult 7 8))) ::
  [(3, Registered (go "n1") (go "kot") 9%nat)] ++
  [(4, Completed (go "n1") (go "kot") 10%nat (Ret (MkPairResult 9 10)))].

Lemma history0 : history 100 log0 4 (NewPendingPairsWithTimeout 100).
Proof.
  assert (∀ pp pp', pp_pending pp = pp_pending pp' → pp_timeout pp = pp_timeout pp' →
    pp_closed pp = pp_closed pp' → pp = pp') as Heq by (intros [] []; simpl; congruence).
  set (h0 := history_new 100 0).
  pose proof (history_step 100 _ _ _ 1 _ _ h0 ltac:(lia) (step_register _ _ (go "n1") (go "tok") 7%nat)) as h1.
  eapply history_step in h1; [|instantiate (1 := 2); lia|by apply (step_complete _ 2 (go "n1") (go "tok") 8%nat)].
  eapply history_step in h1; [|instantiate (1 := 3); lia|apply (step_register _ 3 (go "n1") (go "kot") 9%nat)].
  eapply history_step in h1; [|instantiate (1 := 4); lia|by apply (step_complete _ 4 (go "n1") (go "kot") 10%nat)].
  exact h1.
Qed.

(** A registration, then [Close]. *)
Definition closed_table : PendingPairs :=
  MkPendingPairs (pp_pending (RegisterControl (NewPendingPairsWithTimeout 100) 1 (go "n1") (go "tok") 7%nat)) 100 true.

Lemma pairing_exact_witness :
  history 100 [(1, Registered (go "n1") (go "tok") 7%nat); (2, Closed)] 2 closed_table ∧
  fst (CompleteData closed_table 50 (go "n1") (go "tok") 8%nat) = Ret (MkPairResult 7 8).
Proof.
  assert (history 100 [(1, Registered (go "n1") (go "tok") 7%nat); (2, Closed)] 2 closed_table) as Hh.
  { pose proof (history_step 100 [] 0 _ 1 _ _ (history_new 100 0) ltac:(lia) (step_register _ _ (go "n1") (go "tok") 7%nat)) as h1.
    eapply (history_step 100 _ _ _ 2 Closed _ h1); [lia|]. by apply step_close. }
  split; [exact Hh|]. apply (pairing_exact 100 _ 2 50 _ _ _ _ _ Hh); [lia|].
  exists (MkPendingEntry (go "tok") 7 1). split_and!; try done. exists [], [(2, Closed)]. split; [done|].
  by repeat constructor.
Defined.

Lemma pairing_single_use_witness :
  history 100 log0 4 (NewPendingPairsWithTimeout 100) ∧
  ∃ t', (t', Registered (go "n1") (go "kot") 9%nat) ∈ [(3, Registered (go "n1") (go "kot") 9%nat)].
Proof.
  split; [exact history0|].
  exact (pairing_single_use 100 [(1, Registered (go "n1") (go "tok") 7%nat)] [(3, Registered (go "n1") (go "kot") 9%nat)]
    4 2 4 _ (go "n1") (go "tok") (go "kot") 8%nat 10%nat (MkPairResult 7 8) (MkPairResult 9 10) history0).
Defined.
