(* ===== verification/Transfer.v ===== *)
(** * Streams between nodes: mesh/transfer.go and the bundles of mesh/pki.go

    The listener that serves binary uploads and tool calls on one port, telling
    them apart by the first byte; the upload's two sides; and the certificate
    bundle written before the membrane handshake. A connection delivers its
    bytes in chunks; an upload's incoming side says how it ends. *)

From Stdlib Require Import Ascii.
From stdpp Require Import base numbers gmap strings list.
From S2P Require Import Prelude Codec Tools.

Open Scope Z_scope.

(** ** Connections, and one with its first byte put back: [prefixConn] *)

(** What a network connection has to deliver: every [Read] returns at most one
    chunk. *)
Abbreviation chunks := (list bytes).

(** [Read] into a buffer of [n] bytes: [None] at the end. *)
Definition chunks_Read (n : nat) (c : chunks) : option bytes * chunks :=
  match c with
  | [] => (None, [])
  | b :: c => (Some (take n b), if decide (drop n b = []) then c else drop n b :: c)
  end.

Record prefixConn := MkPrefixConn { pc_Conn : chunks; pc_prefix : bytes }.

Definition prefixConn_Read (n : nat) (c : prefixConn) : option bytes * prefixConn :=
  if decide (0 < length (pc_prefix c))%nat
  then (Some (take n (pc_prefix c)), MkPrefixConn (pc_Conn c) (drop n (pc_prefix c)))
  else let '(b, rest) := chunks_Read n (pc_Conn c) in (b, MkPrefixConn rest (pc_prefix c)).

(** A [net.Conn] to read from: its [Read], the bytes still to come, and how many
    chunks hold them. *)
Class NetConn (C : Type) := {
  conn_Read : nat → C → option bytes * C;
  conn_stream : C → bytes;
  conn_chunks : C → nat
}.

(** [Read] returns the next bytes, as many as it says; one that takes no byte uses
    up a chunk; and it ends where the bytes do. *)
Class NetConnLaws (C : Type) `{NetConn C} := {
  conn_Read_stream n c b c' :
    conn_Read n c = (Some b, c') → conn_stream c = b ++ conn_stream c' ∧ (length b ≤ n)%nat;
  conn_Read_measure n c b c' :
    (0 < n)%nat → conn_Read n c = (Some b, c') →
    (n - length b + S (conn_chunks c') < n + S (conn_chunks c))%nat;
  conn_Read_end n c c' : conn_Read n c = (None, c') → conn_stream c = []
}.

#[export] Instance chunks_NetConn : NetConn chunks :=
  { conn_Read := chunks_Read; conn_stream c := concat c; conn_chunks c := length c }.

#[export] Instance prefixConn_NetConn : NetConn prefixConn :=
  { conn_Read := prefixConn_Read; conn_stream c := pc_prefix c ++ concat (pc_Conn c); conn_chunks c := length (pc_Conn c) }.

(** [io.ReadFull] over [Read]. *)
Fixpoint readFull_loop `{NetConn C} (fuel n : nat) (got : bytes) (c : C) : (bytes + goerr) * C :=
  if decide (n = 0)%nat then (inl got, c)
  else
    match fuel with
    | O => (inr (Errorf "fuel"), c)
    | S fuel =>
        match conn_Read n c with
        | (Some b, c) => readFull_loop fuel (n - length b) (got ++ b) c
        | (None, c) => (inr (Errorf (if decide (got = []) then "EOF" else "unexpected EOF")), c)
        end
    end.

Definition conn_ReadFull `{NetConn C} (n : nat) (c : C) : (bytes + goerr) * C :=
  readFull_loop (n + S (conn_chunks c)) n [] c.

#[export] Instance conn_Reader `{NetConn C} : Reader C :=
  { read_full := conn_ReadFull; reader_bytes := conn_stream }.

(** ** Uploads *)

Definition MagicBinaryTransfer : ascii := byte_of 1.

(** The receiving side's disk: whether the update file opens, and how many bytes
    fit. *)
Record disk := MkDisk { dk_opens : bool; dk_room : nat }.

(** [handleBinaryTransfer]: [in_] arrives, then the stream ends, cleanly or not.
    The result is the file's new contents ([None]: untouched) and what is
    answered before the connection closes. *)
Definition handleBinaryTransfer (d : disk) (in_ : bytes) (clean : bool) : option bytes * bytes :=
  if negb (dk_opens d) then (None, [byte_of 1])
  else if (length in_ <=? dk_room d)%nat && clean then (Some in_, [byte_of 0])
  else (Some (take (dk_room d) in_), []).

(** [DialUploadBinary] up to the end of its writing: [path] is the source file. *)
Definition DialUploadBinary_send (w : writer) (path : option bytes) : writer * outcome unit :=
  let '(w, ok) := Write w [MagicBinaryTransfer] in
  if negb ok then (w, Err (Errorf "write magic byte: %w"))
  else
    match path with
    | None => (w, Err (Errorf "open source file: %w"))
    | Some f =>
        let '(w, ok) := Write w f in
        (w, if ok then Ret tt else Err (Errorf "stream binary: %w"))
    end.

(** ... and its wait for the status. *)
Definition DialUploadBinary_status (in_ : bytes) : outcome unit :=
  match ReadFull 1 in_ with
  | (inl buf, _) =>
      if decide (buf = [byte_of 0]) then Ret tt else Err (Errorf "remote node reported transfer error")
  | (inr e, _) => if decide (e = Errorf "EOF") then Ret tt else Err (Wrapf "read status: %w" e)
  end.

(** ** The listener *)

(** What serving one connection came to. *)
Inductive served :=
| Dropped
| Uploaded (file : option bytes) (answer : bytes)
| ToolConn (answers : writer) (r : outcome unit).

(** The goroutine of [ServeMultiplexedListener], on a connection that ends cleanly
    or not. *)
Definition serve_connection `{ToolCodec} (registry : Registry) (d : disk) (c : chunks) (clean : bool)
    (w : writer) : served :=
  match conn_ReadFull 1 c with
  | (inl magic, c) =>
      if decide (magic = [MagicBinaryTransfer])
      then let '(file, answer) := handleBinaryTransfer d (conn_stream c) clean in Uploaded file answer
      else
        let pc := MkPrefixConn c magic in
        let '(w, r) := ServeToolConn registry pc w in ToolConn w r
  | (inr _, _) => Dropped
  end.

(** ** Certificate bundles: mesh/pki.go *)

Record certBundle := MkCertBundle { cb_CertPEM : bytes; cb_KeyPEM : bytes; cb_CaPEM : bytes }.

#[export] Instance cert_bundle_eq_dec : EqDecision certBundle.
Proof. solve_decision. Defined.

Definition writeField (w : writer) (data : bytes) : writer * outcome unit :=
  let '(w, ok) := Write w (PutUint32 (Z.of_nat (length data) mod 2 ^ 32)) in
  if negb ok then (w, Err (Errorf "short write"))
  else let '(w, ok) := Write w data in (w, if ok then Ret tt else Err (Errorf "short write")).

(** The loop of [writeCertBundle]. *)
Fixpoint write_fields (w : writer) (l : list bytes) : writer * outcome unit :=
  match l with
  | [] => (w, Ret tt)
  | data :: l =>
      match writeField w data with
      | (w, Ret _) => write_fields w l
      | (w, r) => (w, wrap_err "write cert bundle: %w" r)
      end
  end.

Definition writeCertBundle (w : writer) (bundle : certBundle) : writer * outcome unit :=
  write_fields w [cb_CertPEM bundle; cb_KeyPEM bundle; cb_CaPEM bundle].

Definition maxField : Z := Z.shiftl 1 20.

Definition readField (r : bytes) : outcome bytes * bytes :=
  match ReadFull 4 r with
  | (inr e, r) => (Err e, r)
  | (inl lenBuf, r) =>
      let n := Uint32 lenBuf in
      if maxField <? n then (Err (Errorf "field too large: %d bytes"), r)
      else match ReadFull (Z.to_nat n) r with
           | (inr e, r) => (Err e, r)
           | (inl data, r) => (Ret data, r)
           end
  end.

(** [readCertBundle]; the parsing of the key pair and of the CA is third-party
    code, which accepts or refuses. *)
Definition readCertBundle (X509KeyPair : bytes → bytes → bool) (AppendCertsFromPEM : bytes → bool)
    (r : bytes) : outcome certBundle * bytes :=
  match readField r with
  | (Ret certPEM, r) =>
      match readField r with
      | (Ret keyPEM, r) =>
          match readField r with
          | (Ret caPEM, r) =>
              (if negb (X509KeyPair certPEM keyPEM) then Err (Errorf "x509 key pair: %w")
               else if negb (AppendCertsFromPEM caPEM) then Err (Errorf "failed to parse CA cert")
               else Ret (MkCertBundle certPEM keyPEM caPEM), r)
          | (e, r) => (wrap_err "read CA: %w" (e ≫= λ _, Panic), r)
          end
      | (e, r) => (wrap_err "read key: %w" (e ≫= λ _, Panic), r)
      end
  | (e, r) => (wrap_err "read cert: %w" (e ≫= λ _, Panic), r)
  end.

(** ** Lemmas: connections *)

Lemma chunks_Read_spec n c b c' :
  chunks_Read n c = (Some b, c') →
  concat c = b ++ concat c' ∧ (length b ≤ n)%nat ∧ ((0 < n)%nat → (n - length b + length c' < n + length c)%nat).
Proof.
  destruct c as [|ch cs]; [done|]. intros [= <- <-]. rewrite length_take. case_decide as Hd; simpl.
  - split_and!; [|lia|lia]. f_equal. rewrite <-(take_drop n ch) at 1. by rewrite Hd, app_nil_r.
  - rewrite (assoc_L (++)), take_drop. split_and!; [done|lia|]. intros Hn. destruct ch; [by rewrite drop_nil in Hd|]. simpl. lia.
Qed.

#[export] Instance chunks_NetConnLaws : NetConnLaws chunks.
Proof.
  split; simpl.
  - intros n c b c' H. by apply chunks_Read_spec in H as (? & ? & _).
  - intros n c b c' Hn H. apply chunks_Read_spec in H as (_ & _ & H). specialize (H Hn). lia.
  - intros n [|ch cs] c'; [done|]. simpl. done.
Qed.

#[export] Instance prefixConn_NetConnLaws : NetConnLaws prefixConn.
Proof.
  assert (∀ c, ¬ (0 < length (pc_prefix c))%nat → pc_prefix c = []) as Hnil by (intros [cs []]; simpl; [done|lia]).
  split; simpl; intros n c; unfold prefixConn_Read; case_decide as Hp.
  - intros b c' [= <- <-]. simpl. rewrite (assoc_L (++)), take_drop, length_take. split; [done|lia].
  - intros b c'. rewrite (Hnil c Hp). destruct (chunks_Read n (pc_Conn c)) as [o rest] eqn:E. intros [= -> <-].
    apply chunks_Read_spec in E as (E1 & E2 & _). done.
  - intros b c' Hn [= <- <-]. simpl. rewrite length_take. lia.
  - intros b c' Hn. destruct (chunks_Read n (pc_Conn c)) as [o rest] eqn:E. intros [= -> <-]. simpl.
    apply chunks_Read_spec in E as (_ & _ & E). specialize (E Hn). lia.
  - done.
  - intros c'. rewrite (Hnil c Hp). destruct (pc_Conn c) as [|ch cs]; [done|]. simpl. done.
Qed.

Lemma readFull_loop_spec `{NetConnLaws C} fuel n got (c : C) :
  (n + S (conn_chunks c) ≤ fuel)%nat →
  fst (readFull_loop fuel n got c) =
    (if decide (n ≤ length (conn_stream c))%nat then inl (got ++ take n (conn_stream c))
     else inr (Errorf (if decide (got ++ conn_stream c = []) then "EOF" else "unexpected EOF"))) ∧
  ((n ≤ length (conn_stream c))%nat → conn_stream (snd (readFull_loop fuel n got c)) = drop n (conn_stream c)).
Proof.
  revert n got c. induction fuel as [|fuel IH]; intros n got c Hfuel; [lia|]. cbn [readFull_loop].
  destruct (decide (n = 0)%nat) as [->|Hn].
  { rewrite decide_True by lia. simpl. by rewrite take_0, app_nil_r. }
  destruct (conn_Read n c) as [[b|] c'] eqn:HR.
  - destruct (conn_Read_stream _ _ _ _ HR) as [Hs Hb].
    destruct (IH (n - length b)%nat (got ++ b) c') as [HA HB].
    { apply conn_Read_measure in HR; lia. }
    rewrite HA, <-!(assoc_L (++)), Hs, length_app. split.
    + repeat case_decide; try lia; try done; by rewrite take_app_ge by lia.
    + intros Hle. rewrite HB by lia. by rewrite drop_app_ge by lia.
  - apply conn_Read_end in HR as Hs. rewrite Hs, app_nil_r. split; [|simpl; intros ?; lia].
    cbn [fst]. by rewrite (decide_False (P := (n ≤ length [])%nat)) by (simpl; lia).
Qed.

(** Reading in full from a connection is reading from its bytes. *)
#[export] Instance conn_ReaderLaws `{NetConnLaws C} : ReaderLaws C.
Proof.
  split; intros n c; cbn [read_full reader_bytes conn_Reader]; unfold conn_ReadFull, ReadFull;
    destruct (readFull_loop_spec (n + S (conn_chunks c)) n [] c) as [HA HB]; [lia| |lia|exact HB].
  rewrite HA. by case_decide.
Qed.

(** ** Lemmas: fields and frames *)

Lemma readField_framed d r : Z.of_nat (length d) ≤ maxField → readField (framed d ++ r) = (Ret d, r).
Proof.
  intros Hd. assert (maxField = 1048576) as Hm by done. unfold readField, framed. rewrite <-(assoc_L (++)).
  rewrite read_header, Uint32_PutUint32, (proj2 (Z.ltb_ge _ _)) by lia. by rewrite Nat2Z.id, ReadFull_app.
Qed.

Lemma writeField_fits w d :
  Z.of_nat (length d) < 2 ^ 32 → (4 + length d ≤ w_room w)%nat →
  writeField w d = (MkWriter (w_data w ++ framed d) (w_room w - (4 + length d)), Ret tt).
Proof.
  intros Hd Hr. unfold writeField. rewrite Z.mod_small, Write_fits by (rewrite ?length_PutUint32; lia). cbn [negb].
  rewrite Write_fits by (simpl; lia). unfold framed. cbn [w_data w_room]. rewrite <-(assoc_L (++)), length_PutUint32.
  do 2 f_equal. lia.
Qed.

(** A tool frame within the limit starts with a zero byte. *)
Lemma framed_first d :
  Z.of_nat (length d) ≤ maxToolFrameSize → ∃ rest, framed d = byte_of 0 :: rest.
Proof.
  intros Hd. assert (maxToolFrameSize = 1048576) as Hm by done. unfold framed, PutUint32. eexists. simpl. f_equal.
  rewrite Z.shiftr_div_pow2, Z.div_small by lia. done.
Qed.

(** The listener's first read: a byte, and the connection behind it. *)
Lemma first_byte (c : chunks) b rest :
  concat c = b :: rest → ∃ c', conn_ReadFull 1 c = (inl [b], c') ∧ conn_stream c' = rest.
Proof.
  intros Hc. pose proof (read_full_result 1 c) as HA. pose proof (read_full_rest 1 c) as HB.
  cbn [read_full reader_bytes conn_Reader conn_stream chunks_NetConn] in HA, HB. rewrite Hc in HA, HB.
  destruct (conn_ReadFull 1 c) as [r c']. simpl in HA, HB. exists c'. subst r. split; [done|]. apply HB. lia.
Qed.

Lemma serve_upload `{ToolCodec} registry d c rest clean w :
  concat c = MagicBinaryTransfer :: rest →
  serve_connection registry d c clean w
  = Uploaded (fst (handleBinaryTransfer d rest clean)) (snd (handleBinaryTransfer d rest clean)).
Proof.
  intros Hc. unfold serve_connection. destruct (first_byte c _ _ Hc) as (c' & -> & ->).
  rewrite decide_True by done. by destruct (handleBinaryTransfer _ _ _).
Qed.

(** ** Properties *)

(** Reading through a connection whose first bytes were put back is reading the
    whole stream: whatever chunks the network delivers (empty ones included),
    [io.ReadFull] returns the next bytes of the prefix and the chunks behind it,
    and leaves the rest; at a stream that is too short it fails as it would on
    the stream itself. *)
Theorem prefixConn_transparent (n : nat) (c : prefixConn) :
  fst (conn_ReadFull n c) = fst (ReadFull n (conn_stream c)) ∧
  ((n ≤ length (conn_stream c))%nat → conn_stream (snd (conn_ReadFull n c)) = drop n (conn_stream c)).
Proof. split; [exact (read_full_result (R := prefixConn) n c)|exact (read_full_rest (R := prefixConn) n c)]. Qed.

(** C21: The listener tells uploads from tool calls, in whatever chunks the bytes
    arrive. A client that opens with a tool call of at most the frame limit is
    served exactly as the tool server serves the connection itself: such a frame
    starts with a zero byte, which is put back in front of the rest and read again.
    And what an uploader sends goes to the update file. *)
Theorem listener_demultiplexes `{ToolCodec} (registry : Registry) (d : disk) (w : writer) (c : chunks) :
  (∀ frame rest clean, Z.of_nat (length frame) ≤ maxToolFrameSize → concat c = framed frame ++ rest →
     serve_connection registry d c clean w
     = let '(w, r) := ServeToolConn registry c w in ToolConn w r) ∧
  (∀ cw cw' path r clean, DialUploadBinary_send cw path = (cw', r) → w_data cw = [] → w_data cw' ≠ [] →
     concat c = w_data cw' →
     ∃ sent, serve_connection registry d c clean w
       = Uploaded (fst (handleBinaryTransfer d sent clean)) (snd (handleBinaryTransfer d sent clean)) ∧
       (∀ f, path = Some f → r = Ret tt → sent = f)).
Proof.
  split.
  - intros frame rest clean Hf Hc. destruct (framed_first frame Hf) as [tl Hfr]. rewrite Hfr in Hc. simpl in Hc.
    unfold serve_connection. destruct (first_byte c _ _ Hc) as (c' & -> & Hrest).
    rewrite decide_False by discriminate. cbv zeta. rewrite (ServeToolConn_stream (R := prefixConn)), (ServeToolConn_stream (R := chunks)).
    cbn [reader_bytes conn_Reader conn_stream prefixConn_NetConn chunks_NetConn pc_prefix pc_Conn] in *.
    by rewrite Hrest, Hc.
  - intros cw cw' path r clean Hsend Hnil Hne Hc. unfold DialUploadBinary_send, Write in Hsend. rewrite Hnil in Hsend.
    destruct (w_room cw) as [|room]; simpl in Hsend; rewrite ?take_nil, ?Nat.sub_0_r in Hsend.
    { injection Hsend as <- <-. done. }
    destruct path as [f|].
    + injection Hsend as <- <-. exists (take room f). split; [by apply serve_upload|].
      intros ? [= <-]. case_bool_decide; [|done]. intros _. by rewrite take_ge.
    + injection Hsend as <- <-. exists []. split; [by apply serve_upload|done].
Qed.

(** The certificate bundle. A bundle whose fields are at most a MiB and parse is
    read back as it was written, and the reader stops exactly behind it, so that
    the handshake that follows finds its first byte; a bundle with a larger
    first field is refused. *)
Theorem certBundle_roundtrip (X509KeyPair : bytes → bytes → bool) (AppendCertsFromPEM : bytes → bool)
  (b : certBundle) (room : nat) (tail : bytes)
  (Hparse : X509KeyPair (cb_CertPEM b) (cb_KeyPEM b) = true) (Hca : AppendCertsFromPEM (cb_CaPEM b) = true)
  (Hlen : Forall (λ f, Z.of_nat (length f) < 2 ^ 32) [cb_CertPEM b; cb_KeyPEM b; cb_CaPEM b])
  (Hroom : (12 + length (cb_CertPEM b) + length (cb_KeyPEM b) + length (cb_CaPEM b) ≤ room)%nat) :
  ∃ w, writeCertBundle (MkWriter [] room) b = (w, Ret tt) ∧
    (Forall (λ f, Z.of_nat (length f) ≤ maxField) [cb_CertPEM b; cb_KeyPEM b; cb_CaPEM b] →
     readCertBundle X509KeyPair AppendCertsFromPEM (w_data w ++ tail) = (Ret b, tail)) ∧
    (maxField < Z.of_nat (length (cb_CertPEM b)) →
     fst (readCertBundle X509KeyPair AppendCertsFromPEM (w_data w ++ tail))
     = Err (Wrapf "read cert: %w" (Errorf "field too large: %d bytes"))).
Proof.
  destruct b as [cert key ca]. cbn [cb_CertPEM cb_KeyPEM cb_CaPEM] in *.
  apply Forall_cons in Hlen as [H1 [H2 [H3 _]%Forall_cons]%Forall_cons].
  exists (MkWriter (framed cert ++ framed key ++ framed ca)
    (room - (4 + length cert) - (4 + length key) - (4 + length ca))). split_and!.
  - unfold writeCertBundle. cbn [write_fields cb_CertPEM cb_KeyPEM cb_CaPEM].
    do 3 (rewrite writeField_fits by (cbn [w_room]; (done || lia)); cbn [w_data w_room]).
    by rewrite app_nil_l, <-(assoc_L (++)).
  - intros [L1 [L2 [L3 _]%Forall_cons]%Forall_cons]%Forall_cons. cbn [w_data]. unfold readCertBundle.
    rewrite <-!(assoc_L (++)). do 3 (rewrite readField_framed by done). by rewrite Hparse, Hca.
  - intros Hbig. cbn [w_data]. unfold readCertBundle, readField, framed. rewrite <-!(assoc_L (++)).
    rewrite read_header, Uint32_PutUint32 by lia. by rewrite (proj2 (Z.ltb_lt _ _)).
Qed.

(** ** Witnesses *)

#[local] Instance codec0 : ToolCodec := {
  marshal_request r := Some (rq_Name r);
  unmarshal_request b := Some (MkToolRequest b []);
  marshal_response r := Some (rs_ContentJson r);
  unmarshal_response b := Some (MkToolResponse false b);
  quote_error name e := name
}.

(** The first chunk holds the magic byte alone, the second is empty. *)
Definition in_chunks (b : bytes) : chunks := [take 1 b; []; drop 1 b].

Lemma listener_demultiplexes_witness :
  Z.of_nat (length (go "none")) ≤ maxToolFrameSize ∧
  serve_connection (NewRegistry None) (MkDisk true 9) (in_chunks (framed (go "none"))) true (MkWriter [] 100)
  = ToolConn (MkWriter (framed (go "none")) 92) (Ret tt) ∧
  ∃ sent, serve_connection (NewRegistry None) (MkDisk true 9) (in_chunks (MagicBinaryTransfer :: go "elf")) true (MkWriter [] 100)
    = Uploaded (fst (handleBinaryTransfer (MkDisk true 9) sent true))
        (snd (handleBinaryTransfer (MkDisk true 9) sent true)) ∧ sent = go "elf".
Proof.
  destruct (listener_demultiplexes (NewRegistry None) (MkDisk true 9) (MkWriter [] 100) (in_chunks (framed (go "none"))))
    as [Htool _].
  destruct (listener_demultiplexes (NewRegistry None) (MkDisk true 9) (MkWriter [] 100)
    (in_chunks (MagicBinaryTransfer :: go "elf"))) as [_ Hup].
  assert (Z.of_nat (length (go "none")) ≤ maxToolFrameSize) as Hf by (vm_compute; discriminate).
  split_and!; [exact Hf|by rewrite (Htool (go "none") [] true Hf eq_refl)|].
  destruct (Hup (MkWriter [] 9) (MkWriter (MagicBinaryTransfer :: go "elf") 5) (Some (go "elf")) (Ret tt) true)
    as (sent & Hs & Hsent); try done.
  exists sent. split; [exact Hs|by apply Hsent].
Defined.

Definition bundle0 : certBundle := MkCertBundle (go "cert") (go "key") (go "ca").

Lemma certBundle_roundtrip_witness :
  ∃ w, writeCertBundle (MkWriter [] 100) bundle0 = (w, Ret tt) ∧
    readCertBundle (λ _ _, true) (λ _, true) (w_data w ++ go "tls") = (Ret bundle0, go "tls").
Proof.
  destruct (certBundle_roundtrip (λ _ _, true) (λ _, true) bundle0 100 (go "tls")) as (w & Hw & Hr & _).
  - reflexivity.
  - reflexivity.
  - repeat constructor.
  - simpl. lia.
  - exists w. split; [exact Hw|]. apply Hr. repeat constructor; vm_compute; discriminate.
Defined.
