(* ===== verification/Upload.v ===== *)
(** * A binary upload as a whole: mesh/transfer.go

    [DialUploadBinary] on one node, the listener's goroutine with
    [handleBinaryTransfer] on the other, and the connection between them, as a
    machine whose events are what the two goroutines do, in any order. What the
    machine leaves open is what the connection does: how many bytes a [Read] or a
    [Write] moves (at most [window] are in flight, so that a receiver that stops
    reading stops the sender), that it breaks and loses what is in flight, that a
    deadline passes, that a write to an end that was closed is taken or refused.
    The status is read with the function of Transfer.v, and what the receiver did
    is related to its [handleBinaryTransfer]. *)

From Stdlib Require Import Ascii.
From stdpp Require Import base numbers gmap strings list.
From S2P Require Import Prelude Codec Transfer.

Open Scope Z_scope.

(** ** State *)

(** Where [DialUploadBinary] is; [CCopy rest] is the copy loop with [rest] of the
    source left to send. *)
Inductive client_pc :=
| CMagic
| COpen
| CCopy (rest : bytes)
| CCloseWrite
| CStatus
| CDone (r : outcome unit).

(** How the receiving goroutine ended: no first byte; the update file did not
    open; the copy to the disk failed; reading from the connection failed; the
    whole stream is stored. *)
Inductive server_end := EndNoMagic | EndNoFile | EndDisk | EndRead | EndStored.

(** Where the receiving goroutine is; it ends by closing the connection. *)
Inductive server_pc := SMagic | SOpen | SCopy | SAnswer (e : server_end) | SDone (e : server_end).

(** The bytes in flight each way, whether the client has closed its write half,
    the update file ([None]: as it was before) and whether the connection is
    broken. *)
Record upload := MkUpload {
  u_client : client_pc;
  u_server : server_pc;
  u_wire : bytes;
  u_fin : bool;
  u_file : option bytes;
  u_answer : bytes;
  u_broken : bool
}.

Definition upload_start : upload := MkUpload CMagic SMagic [] false None [] false.

Definition set_client (c : client_pc) (s : upload) : upload :=
  MkUpload c (u_server s) (u_wire s) (u_fin s) (u_file s) (u_answer s) (u_broken s).

Definition set_server (p : server_pc) (s : upload) : upload :=
  MkUpload (u_client s) p (u_wire s) (u_fin s) (u_file s) (u_answer s) (u_broken s).

Definition with_wire (b : bytes) (s : upload) : upload :=
  MkUpload (u_client s) (u_server s) b (u_fin s) (u_file s) (u_answer s) (u_broken s).

Definition set_fin (s : upload) : upload :=
  MkUpload (u_client s) (u_server s) (u_wire s) true (u_file s) (u_answer s) (u_broken s).

Definition set_file (f : bytes) (s : upload) : upload :=
  MkUpload (u_client s) (u_server s) (u_wire s) (u_fin s) (Some f) (u_answer s) (u_broken s).

Definition set_answer (b : bytes) (s : upload) : upload :=
  MkUpload (u_client s) (u_server s) (u_wire s) (u_fin s) (u_file s) b (u_broken s).

Definition server_closed (s : upload) : bool :=
  match u_server s with SDone _ => true | _ => false end.

(** The status byte an end is answered with. *)
Definition end_answer (e : server_end) : bytes :=
  match e with
  | EndStored => [byte_of 0]
  | EndNoFile => [byte_of 1]
  | _ => []
  end.

(** ** Events *)

Inductive upload_event :=
  | ClientWrite (n : nat)
  | ClientWriteFails
  | ClientOpen
  | ClientReadFails
  | ClientCopied
  | ClientCloseWrite
  | ClientStatus
  | ClientStatusFails (e : goerr)
  | ServerMagic
  | ServerNoMagic
  | ServerOpen
  | ServerRead (n : nat)
  | ServerEOF
  | ServerReadFails
  | ServerAnswer
  | Break (kept kept_answer : nat).

(** A break of the connection, a deadline that passes, a source that cannot be
    read to its end. *)
Definition disturbance (ev : upload_event) : bool :=
  match ev with
  | ClientReadFails | ClientStatusFails _ | ServerNoMagic | ServerReadFails | Break _ _ => true
  | _ => false
  end.

Section machine.

(** The source file ([None]: it does not open), the receiver's disk, the bytes
    the connection holds, and whether closing the client's write half leaves it
    its read half ([CloseWrite], or a stream whose [Close] is that). *)
Context (path : option bytes) (d : disk) (window : nat) (half_close : bool).

(** [conn.Write] takes some bytes; those written to a broken connection are lost. *)
Definition client_send (b : bytes) (s : upload) : upload :=
  if u_broken s then s else with_wire (u_wire s ++ b) s.

(** [DialUploadBinary] returns, and its deferred [Close] runs. *)
Definition client_return (r : outcome unit) (s : upload) : upload := set_fin (set_client (CDone r) s).

Definition client_step (s : upload) (ev : upload_event) : option upload :=
  match u_client s, ev with
  | CMagic, ClientWrite _ =>
      if (length (u_wire s) <? window)%nat then Some (set_client COpen (client_send [MagicBinaryTransfer] s)) else None
  | CMagic, ClientWriteFails =>
      if u_broken s || server_closed s then Some (client_return (Err (Errorf "write magic byte: %w")) s) else None
  | COpen, ClientOpen =>
      Some (match path with
            | Some f => set_client (CCopy f) s
            | None => client_return (Err (Errorf "open source file: %w")) s
            end)
  | CCopy rest, ClientWrite n =>
      if (0 <? n)%nat && (n <=? length rest)%nat && (length (u_wire s) + n <=? window)%nat
      then Some (set_client (CCopy (drop n rest)) (client_send (take n rest) s)) else None
  | CCopy _, ClientReadFails => Some (client_return (Err (Errorf "stream binary: %w")) s)
  | CCopy _, ClientWriteFails =>
      if u_broken s || server_closed s then Some (client_return (Err (Errorf "stream binary: %w")) s) else None
  | CCopy rest, ClientCopied => if decide (rest = []) then Some (set_client CCloseWrite s) else None
  | CCloseWrite, ClientCloseWrite => Some (set_fin (set_client CStatus s))
  | CStatus, ClientStatus =>
      if half_close && (negb (bool_decide (u_answer s = [])) || server_closed s || u_broken s)
      then Some (client_return (DialUploadBinary_status (u_answer s)) s) else None
  | CStatus, ClientStatusFails e => Some (client_return (Err (Wrapf "read status: %w" e)) s)
  | _, _ => None
  end.

(** The deferred [Close] of [handleBinaryTransfer], after the status, which a
    broken connection loses. *)
Definition server_return (e : server_end) (s : upload) : upload :=
  let s := set_server (SDone e) s in
  if u_broken s then s else set_answer (u_answer s ++ end_answer e) s.

(** The copy to the file of what one [Read] returned: what fits is written. *)
Definition server_store (b : bytes) (s : upload) : upload :=
  let file := default [] (u_file s) in
  if (length file + length b <=? dk_room d)%nat then set_file (file ++ b) s
  else set_server (SAnswer EndDisk) (set_file (file ++ take (dk_room d - length file) b) s).

Definition server_step (s : upload) (ev : upload_event) : option upload :=
  match u_server s, ev with
  | SMagic, ServerMagic =>
      match u_wire s with
      | b :: rest => if decide (b = MagicBinaryTransfer) then Some (set_server SOpen (with_wire rest s)) else None
      | [] => None
      end
  | SMagic, ServerNoMagic => Some (set_server (SDone EndNoMagic) s)
  | SOpen, ServerOpen =>
      Some (if dk_opens d then set_server SCopy (set_file [] s) else set_server (SAnswer EndNoFile) s)
  | SCopy, ServerRead n =>
      if (0 <? n)%nat && (n <=? length (u_wire s))%nat
      then Some (server_store (take n (u_wire s)) (with_wire (drop n (u_wire s)) s)) else None
  | SCopy, ServerEOF =>
      if bool_decide (u_wire s = []) && (u_fin s || u_broken s) then Some (set_server (SAnswer EndStored) s) else None
  | SCopy, ServerReadFails => if u_broken s then Some (set_server (SAnswer EndRead) s) else None
  | SAnswer e, ServerAnswer => Some (server_return e s)
  | _, _ => None
  end.

Definition upload_step (s : upload) (ev : upload_event) : option upload :=
  match ev with
  | Break kept kept_answer =>
      if u_broken s then None
      else Some (MkUpload (u_client s) (u_server s) (take kept (u_wire s)) (u_fin s) (u_file s)
                   (take kept_answer (u_answer s)) true)
  | ClientWrite _ | ClientWriteFails | ClientOpen | ClientReadFails | ClientCopied | ClientCloseWrite
  | ClientStatus | ClientStatusFails _ => client_step s ev
  | _ => server_step s ev
  end.

Fixpoint upload_run (s : upload) (evs : list upload_event) : option upload :=
  match evs with
  | [] => Some s
  | ev :: evs => s ← upload_step s ev; upload_run s evs
  end.

End machine.

(** ** Invariant *)

Section invariant.

Context (path : option bytes) (d : disk).

(** The update file holds [q], a part of the [g] that was sent. *)
Definition stored (g : bytes) (s : upload) (q : bytes) : Prop :=
  u_file s = Some q ∧ dk_opens d = true ∧ (length q ≤ dk_room d)%nat ∧ (MagicBinaryTransfer :: q) `prefix_of` g.

Definition complete (g : bytes) (s : upload) : Prop :=
  u_fin s = true ∧ ∃ q, u_file s = Some q ∧ g = MagicBinaryTransfer :: q.

Definition ended (g : bytes) (s : upload) (e : server_end) : Prop :=
  match e with
  | EndNoMagic => u_file s = None
  | EndNoFile => u_file s = None ∧ dk_opens d = false ∧ [MagicBinaryTransfer] `prefix_of` g
  | EndDisk => dk_opens d = true ∧ ∃ x, (MagicBinaryTransfer :: x) `prefix_of` g ∧ (dk_room d < length x)%nat ∧
      u_file s = Some (take (dk_room d) x)
  | EndRead => u_broken s = true ∧ ∃ q, stored g s q
  | EndStored => ∃ q, stored g s q
  end.

(** What the receiver has taken and what is in flight make up what was sent,
    unless the connection is broken. *)
Definition in_flight (taken g : bytes) (s : upload) : Prop :=
  u_answer s = [] ∧ (taken ++ u_wire s) `prefix_of` g ∧ (u_broken s = false → taken ++ u_wire s = g).

Definition server_inv (g : bytes) (s : upload) : Prop :=
  match u_server s with
  | SMagic => u_file s = None ∧ in_flight [] g s
  | SOpen => u_file s = None ∧ in_flight [MagicBinaryTransfer] g s
  | SCopy => ∃ q, stored g s q ∧ in_flight (MagicBinaryTransfer :: q) g s
  | SAnswer e => e ≠ EndNoMagic ∧ u_answer s = [] ∧ ended g s e ∧
      (e = EndStored → u_broken s = false → complete g s)
  | SDone e => ended g s e ∧ u_answer s `prefix_of` end_answer e ∧
      (u_broken s = false → u_answer s = end_answer e) ∧ (e = EndStored → u_answer s ≠ [] → complete g s)
  end.

Definition remote_error : outcome unit := Err (Errorf "remote node reported transfer error").

(** What a client that returned knows. *)
Definition returned (g : bytes) (s : upload) (r : outcome unit) : Prop :=
  (g = [] → u_broken s || server_closed s = true) ∧
  (r = Ret tt → ∃ f, path = Some f ∧ g = MagicBinaryTransfer :: f ∧
     (u_broken s = true ∨ ∃ e, u_server s = SDone e ∧ (u_file s = Some f ∨ e = EndNoMagic ∨ e = EndDisk))) ∧
  (r = remote_error → u_server s = SDone EndNoFile).

Definition client_inv (g : bytes) (s : upload) : Prop :=
  g `prefix_of` (MagicBinaryTransfer :: default [] path) ∧
  match u_client s with
  | CMagic => g = [] ∧ u_fin s = false
  | COpen => g = [MagicBinaryTransfer] ∧ u_fin s = false
  | CCopy rest => u_fin s = false ∧ ∃ sent, path = Some (sent ++ rest) ∧ g = MagicBinaryTransfer :: sent
  | CCloseWrite => u_fin s = false ∧ ∃ f, path = Some f ∧ g = MagicBinaryTransfer :: f
  | CStatus => u_fin s = true ∧ ∃ f, path = Some f ∧ g = MagicBinaryTransfer :: f
  | CDone r => u_fin s = true ∧ returned g s r
  end.

Definition upload_inv (g : bytes) (s : upload) : Prop := client_inv g s ∧ server_inv g s.

(** ** Lemmas: the client *)

Lemma stored_more g g' s s' q : g `prefix_of` g' → u_file s' = u_file s → stored g s q → stored g' s' q.
Proof. intros Hg Hf (E & Ho & Hl & Hp). split; [congruence|]. split_and!; [done|done|by trans g]. Qed.

Lemma ended_more g g' s s' e :
  g `prefix_of` g' → u_file s' = u_file s → u_broken s' = u_broken s → ended g s e → ended g' s' e.
Proof.
  intros Hg Hf Hb. pose proof (λ q, stored_more g g' s s' q Hg Hf) as Hst. destruct e; simpl; rewrite ?Hf, ?Hb.
  - done.
  - intros (? & ? & ?). split_and!; [done|done|by trans g].
  - intros (? & x & ? & ? & ?). split; [done|]. exists x. split; [by trans g|done].
  - intros (? & q & ?). split; [done|]. exists q. by apply Hst.
  - intros (q & ?). exists q. by apply Hst.
Qed.

Lemma send_fields b s :
  u_server (client_send b s) = u_server s ∧ u_fin (client_send b s) = u_fin s ∧ u_file (client_send b s) = u_file s ∧
  u_answer (client_send b s) = u_answer s ∧ u_broken (client_send b s) = u_broken s ∧
  u_wire (client_send b s) = u_wire s ++ (if u_broken s then [] else b).
Proof. unfold client_send. destruct (u_broken s) eqn:E; simpl; rewrite ?E, ?app_nil_r; done. Qed.

(** Sending more, from an open end. *)
Lemma send_inv g s b c : u_fin s = false → server_inv g s → server_inv (g ++ b) (set_client c (client_send b s)).
Proof.
  intros Hfin. assert (g `prefix_of` g ++ b) as Hg by by apply prefix_app_r.
  destruct (send_fields b s) as (Es & Ef & El & Ea & Eb & Ew).
  assert (∀ taken, in_flight taken g s → in_flight taken (g ++ b) (set_client c (client_send b s))) as Hfl.
  { intros taken (Ha & Hp & Hb). unfold in_flight. simpl. rewrite Ea, Eb, Ew, (assoc_L (++)). split; [exact Ha|].
    destruct (u_broken s); [|by rewrite Hb]. rewrite app_nil_r. split; [by trans g|done]. }
  assert (∀ e, ended g s e → ended (g ++ b) (set_client c (client_send b s)) e) as Hen
    by (intros e; by apply ended_more).
  assert (¬ complete g s) as Hnc by (intros [? _]; congruence).
  unfold server_inv. simpl. rewrite Es, El, Ea, Eb. destruct (u_server s) as [| | |e|e].
  - intros [? ?]. auto.
  - intros [? ?]. auto.
  - intros (q & Hq & ?). exists q. split; [by apply (stored_more g _ s)|auto].
  - intros (? & ? & ? & ?). split_and!; naive_solver.
  - intros (? & ? & ? & ?). split_and!; naive_solver.
Qed.

(** What the receiver's side does not read. *)
Lemma server_inv_client g s s' :
  u_server s' = u_server s → u_wire s' = u_wire s → u_file s' = u_file s → u_answer s' = u_answer s →
  u_broken s' = u_broken s → (u_fin s = true → u_fin s' = true) → server_inv g s → server_inv g s'.
Proof.
  intros Es Ew Ef Ea Eb Hfin. unfold server_inv. rewrite Es.
  assert (complete g s → complete g s') as Hc.
  { intros [? (q & ? & ?)]. split; [auto|]. exists q. by rewrite Ef. }
  assert (∀ e, ended g s e → ended g s' e) as He by (intros e; by apply ended_more).
  unfold in_flight. rewrite Ew, Ef, Ea, Eb. destruct (u_server s) as [| | |e|e]; [done|done| |naive_solver|naive_solver].
  intros (q & ? & ?). exists q. split; [by apply (stored_more g _ s)|done].
Qed.

Lemma client_return_inv g s r :
  upload_inv g s → returned g s r → upload_inv g (client_return r s).
Proof.
  intros [[Hg _] Hs] Hr. split; [split; [exact Hg|]; simpl; split; [done|exact Hr]|].
  by apply (server_inv_client g s).
Qed.

(** A client that fails before its wait for the status. *)
Lemma returned_error g s (e : goerr) :
  Err e ≠ remote_error → (g = [] → u_broken s || server_closed s = true) → returned g s (Err e).
Proof. intros ? ?. by split_and!. Qed.

(** An answer was written by a receiver that has ended. *)
Lemma answer_done g s : server_inv g s → u_answer s ≠ [] → ∃ e, u_server s = SDone e.
Proof. unfold server_inv, in_flight. destruct (u_server s); naive_solver. Qed.

Lemma status_inv g s f :
  upload_inv g s → u_client s = CStatus → path = Some f → g = MagicBinaryTransfer :: f →
  negb (bool_decide (u_answer s = [])) || server_closed s || u_broken s = true →
  returned g s (DialUploadBinary_status (u_answer s)).
Proof.
  intros [_ Hs] Hc Hf Hg Hsees. split; [by rewrite Hg|]. destruct (decide (u_answer s = [])) as [Ha|Ha].
  - rewrite Ha. split; [intros _|done]. exists f. split_and!; [done|done|].
    rewrite bool_decide_eq_true_2 in Hsees by done. destruct (u_broken s) eqn:Eb; [by left|]. right.
    unfold server_closed in Hsees. unfold server_inv in Hs. destruct (u_server s) as [| | | |e]; try done. exists e. split; [done|].
    destruct Hs as (He & _ & Hans & _). rewrite Hans in Ha by done. destruct e; try done; auto.
    destruct He as [He _]. congruence.
  - destruct (answer_done g s Hs Ha) as [e He]. unfold server_inv in Hs. rewrite He in Hs.
    destruct Hs as (Hend & Hp & _ & Hst). destruct e; simpl in Hp; try (by apply prefix_nil_inv in Hp).
    + assert (u_answer s = [byte_of 1]) as ->.
      { destruct (u_answer s) as [|b l]; [done|]. apply prefix_cons_inv_1 in Hp as Hb.
        apply prefix_cons_inv_2, prefix_nil_inv in Hp. by subst. }
      by split.
    + assert (u_answer s = [byte_of 0]) as E.
      { destruct (u_answer s) as [|b l]; [done|]. apply prefix_cons_inv_1 in Hp as Hb.
        apply prefix_cons_inv_2, prefix_nil_inv in Hp. by subst. }
      rewrite E. split; [intros _|done]. exists f. split_and!; [done|done|]. right. exists EndStored.
      split; [done|left]. destruct (Hst eq_refl Ha) as [_ (q & Hq & Hgq)]. congruence.
Qed.

End invariant.

Section steps.

Context (path : option bytes) (d : disk) (window : nat) (half_close : bool).

Abbreviation cstep := (client_step path window half_close).
Abbreviation ustep := (upload_step path d window half_close).
Abbreviation urun := (upload_run path d window half_close).
Abbreviation inv := (upload_inv path d).

(** ** Lemmas: every step keeps the invariant *)

Lemma client_fails_inv g s e :
  inv g s → Err e ≠ remote_error → (g = [] → u_broken s || server_closed s = true) →
  inv g (client_return (Err e) s).
Proof. intros. apply client_return_inv; [done|]. by apply returned_error. Qed.

(** A client that has only moved on. *)
Lemma client_moves_inv g s c : server_inv d g s → client_inv path g (set_client c s) → inv g (set_client c s).
Proof. intros ? ?. split; [done|]. by apply (server_inv_client d g s). Qed.

Lemma client_send_inv g s b c :
  u_fin s = false → server_inv d g s → client_inv path (g ++ b) (set_client c (client_send b s)) →
  inv (g ++ b) (set_client c (client_send b s)).
Proof. intros. split; [done|]. by apply send_inv. Qed.

Lemma client_step_inv g s ev s' : inv g s → cstep s ev = Some s' → ∃ g', inv g' s'.
Proof.
  intros Hi. pose proof Hi as [[Hg Hc] Hs]. unfold client_step.
  destruct (u_client s) as [| |rest| | |r] eqn:Ec; destruct ev; try done.
  - destruct Hc as [-> Hfin]. case_match; [|done]. intros [= <-]. exists ([] ++ [MagicBinaryTransfer]).
    apply client_send_inv; [done..|]. destruct (send_fields [MagicBinaryTransfer] s) as (_ & E & _).
    split; simpl; [by apply prefix_cons, prefix_nil|]. by rewrite E.
  - case_match; [|done]. intros [= <-]. exists g. by apply client_fails_inv.
  - destruct Hc as [-> Hfin]. intros [= <-]. exists [MagicBinaryTransfer]. destruct path as [f|] eqn:Ep; rewrite <-?Ep in *.
    + apply client_moves_inv; [done|]. split; [done|]. simpl. split; [done|]. by exists [].
    + by apply client_fails_inv.
  - destruct Hc as (Hfin & sent & Hf & ->). case_match eqn:En; [|done]. intros [= <-].
    exists ((MagicBinaryTransfer :: sent) ++ take n rest). destruct (send_fields (take n rest) s) as (_ & E & _).
    apply client_send_inv; [done..|]. split; simpl.
    + rewrite Hf. simpl. apply prefix_cons, prefix_app, prefix_take.
    + rewrite E. split; [done|]. exists (sent ++ take n rest). by rewrite <-(assoc_L (++)), take_drop.
  - destruct Hc as (Hfin & sent & Hf & ->). case_match eqn:Eb; [|done]. intros [= <-]. eexists. by apply client_fails_inv.
  - destruct Hc as (Hfin & sent & Hf & ->). intros [= <-]. eexists. by apply client_fails_inv.
  - destruct Hc as (Hfin & sent & Hf & ->). case_decide as Hnil; [|done]. subst rest. rewrite app_nil_r in Hf.
    intros [= <-]. eexists. apply client_moves_inv; [done|]. split; [done|]. simpl. split; [done|]. by exists sent.
  - destruct Hc as (Hfin & f & Hf & Hr). intros [= <-]. exists g. split.
    + split; [done|]. simpl. split; [done|]. by exists f.
    + by apply (server_inv_client d g s).
  - destruct Hc as (Hfin & f & Hf & Hr). case_match eqn:Eb; [|done]. apply andb_true_iff in Eb as [_ Eb]. intros [= <-].
    exists g. apply client_return_inv; [done|]. by apply (status_inv path d g s f).
  - destruct Hc as (Hfin & f & Hf & Hr). intros [= <-]. exists g. apply client_fails_inv; [done|done|by rewrite Hr].
Qed.

(** The receiver's steps leave what the client knows. *)
Lemma client_inv_server g s s' :
  u_client s' = u_client s → u_fin s' = u_fin s → u_broken s' = u_broken s →
  (∀ e, u_server s ≠ SDone e) → client_inv path g s → client_inv path g s'.
Proof.
  intros Ec Ef Eb Hn [Hg Hc]. split; [exact Hg|]. rewrite Ec. destruct (u_client s); rewrite ?Ef; try done.
  destruct Hc as [? (H1 & H2 & H3)]. split; [done|]. split; [|split].
  - intros Hnil. rewrite Eb. specialize (H1 Hnil). unfold server_closed in *. rewrite orb_true_iff in *.
    destruct H1 as [H1|H1]; [by left|]. destruct (u_server s); naive_solver.
  - intros Hr. destruct (H2 Hr) as (f & ? & ? & [?|(e & He & _)]); [|naive_solver].
    exists f. split_and!; [done|done|left]. congruence.
  - intros Hr. by apply H3, Hn in Hr.
Qed.

Lemma server_store_inv g s q n :
  u_server s = SCopy → stored d g s q → in_flight (MagicBinaryTransfer :: q) g s → (n ≤ length (u_wire s))%nat →
  server_inv d g (server_store d (take n (u_wire s)) (with_wire (drop n (u_wire s)) s)).
Proof.
  intros Es (Hq & Ho & Hl & Hp) (Ha & Hw & Hb) Hn.
  assert (((MagicBinaryTransfer :: q) ++ take n (u_wire s)) `prefix_of` g) as Hpre.
  { trans ((MagicBinaryTransfer :: q) ++ u_wire s); [apply prefix_app, prefix_take|done]. }
  unfold server_store. simpl. rewrite Hq. simpl. case_match eqn:Eroom.
  - apply Nat.leb_le in Eroom. unfold server_inv. simpl. rewrite Es. exists (q ++ take n (u_wire s)).
    split; [split_and!; simpl; [done|done|by rewrite length_app|done]|]. split; [done|]. simpl.
    rewrite <-(assoc_L (++)), take_drop. done.
  - apply Nat.leb_gt in Eroom. unfold server_inv. simpl. split_and!; [done|done|done| |done].
    exists (q ++ take n (u_wire s)). rewrite length_app. split_and!; [done|lia|]. simpl. f_equal.
    by rewrite take_app_ge by done.
Qed.

Lemma server_return_inv g s e :
  server_inv d g s → u_server s = SAnswer e → server_inv d g (server_return e s).
Proof.
  unfold server_inv. intros Hs Es. rewrite Es in Hs. destruct Hs as (Hn & Ha & He & Hc). unfold server_return.
  assert (∀ s', u_file s' = u_file s → u_broken s' = u_broken s → ended d g s' e) as Hend
    by (intros s' ? ?; by apply (ended_more d g g s)).
  simpl. destruct (u_broken s) eqn:Eb; simpl.
  - split_and!; [by apply Hend|rewrite Ha; apply prefix_nil|congruence|done].
  - rewrite Ha. split_and!; [by apply Hend|done|done|]. intros -> _. by apply Hc.
Qed.

Lemma server_step_inv g s ev s' : inv g s → server_step d s ev = Some s' → inv g s'.
Proof.
  intros [Hc Hs] Hstep.
  assert (u_client s' = u_client s ∧ u_fin s' = u_fin s ∧ u_broken s' = u_broken s ∧ ∀ e, u_server s ≠ SDone e) as (? & ? & ? & ?).
  { unfold server_step, server_store, server_return in Hstep.
    destruct (u_server s); destruct ev; repeat case_match; simplify_eq; done. }
  split; [by apply (client_inv_server g s)|]. pose proof Hs as Hs'. unfold server_inv in Hs'. unfold server_step in Hstep.
  destruct (u_server s) as [| | |e|e] eqn:Es; destruct ev; try done.
  - destruct (u_wire s) as [|b rest] eqn:Ew; [done|]. case_decide as Hb; [|done]. injection Hstep as <-. subst b.
    destruct Hs' as (Hf & Ha & Hp & He). rewrite Ew in Hp, He. unfold server_inv. simpl. done.
  - injection Hstep as <-. destruct Hs' as (Hf & Ha & _). unfold server_inv. simpl. split_and!; [done| | |done]; by rewrite Ha.
  - destruct Hs' as (Hf & Ha & Hp & He).
    assert ([MagicBinaryTransfer] `prefix_of` g) as Hm by (trans ([MagicBinaryTransfer] ++ u_wire s); [by apply prefix_app_r|done]).
    injection Hstep as <-. destruct (dk_opens d) eqn:Ed; unfold server_inv; simpl.
    + exists []. split; [split_and!; simpl; [done|done|lia|done]|done].
    + split_and!; done.
  - destruct Hs' as (q & Hq & Hfl). case_match eqn:En; [|done]. injection Hstep as <-.
    rewrite andb_true_iff, Nat.ltb_lt, Nat.leb_le in En. destruct En as [_ En]. by apply (server_store_inv g s q).
  - destruct Hs' as (q & Hq & Ha & Hp & He). case_match eqn:Ew; [|done]. injection Hstep as <-.
    rewrite andb_true_iff, bool_decide_eq_true in Ew. destruct Ew as [Ew Hfin]. rewrite Ew, app_nil_r in He.
    unfold server_inv. simpl. split_and!; [done|done|by exists q|]. intros _ Hb. rewrite Hb, orb_false_r in Hfin.
    split; [done|]. exists q. split; [by destruct Hq|]. by rewrite He.
  - destruct Hs' as (q & Hq & Ha & _). case_match eqn:Eb; [|done]. injection Hstep as <-.
    unfold server_inv. simpl. split_and!; [done..|by exists q|done].
  - injection Hstep as <-. by apply server_return_inv.
Qed.

Lemma prefix_take_of (n : nat) (k k' g : bytes) : (k ++ k') `prefix_of` g → (k ++ take n k') `prefix_of` g.
Proof. intros H. trans (k ++ k'); [apply prefix_app, prefix_take|done]. Qed.

Lemma break_inv g s kw ka :
  u_broken s = false → inv g s →
  inv g (MkUpload (u_client s) (u_server s) (take kw (u_wire s)) (u_fin s) (u_file s) (take ka (u_answer s)) true).
Proof.
  intros Eb [[Hg Hc] Hs]. split.
  - split; [exact Hg|]. simpl. destruct (u_client s); try done. destruct Hc as [? (H1 & H2 & H3)].
    split; [done|]. split_and!; [done| |done]. intros Hr. destruct (H2 Hr) as (f & ? & ? & _). exists f. auto.
  - assert (∀ q, stored d g s q → stored d g (MkUpload (u_client s) (u_server s) (take kw (u_wire s)) (u_fin s)
      (u_file s) (take ka (u_answer s)) true) q) as Hst by done.
    unfold server_inv in *. simpl. destruct (u_server s) as [| | |e|e].
    + destruct Hs as (? & Ha & Hp & _). unfold in_flight. simpl. rewrite Ha, take_nil. split_and!; [done|done| |done].
      by apply (prefix_take_of kw []).
    + destruct Hs as (? & Ha & Hp & _). unfold in_flight. simpl. rewrite Ha, take_nil. split_and!; [done|done| |done].
      by apply (prefix_take_of kw [MagicBinaryTransfer]).
    + destruct Hs as (q & Hq & Ha & Hp & _). exists q. unfold in_flight. simpl. rewrite Ha, take_nil.
      split; [done|]. split_and!; [done| |done]. by apply (prefix_take_of kw (_ :: q)).
    + destruct Hs as (? & Ha & He & Hst'). rewrite Ha, take_nil. split_and!; [done|done| |done]. destruct e; try done. naive_solver.
    + destruct Hs as (He & Hp & _ & Hcomp). split_and!; [|by trans (u_answer s); [apply prefix_take|]|done|].
      * destruct e; try done. naive_solver.
      * intros He' Hne. apply Hcomp; [done|]. intros Ha. by rewrite Ha, take_nil in Hne.
Qed.

Lemma upload_step_inv g s ev s' : inv g s → ustep s ev = Some s' → ∃ g', inv g' s'.
Proof.
  intros Hi Hstep. destruct ev; simpl in Hstep;
    try (by apply (client_step_inv g s _ s' Hi Hstep)); try (exists g; by apply (server_step_inv g s _ s' Hi Hstep)).
  exists g. destruct (u_broken s) eqn:Eb; [done|]. injection Hstep as <-. by apply break_inv.
Qed.

Lemma upload_start_inv : inv [] upload_start.
Proof. split; split; simpl; try done; apply prefix_nil. Qed.

Lemma upload_run_inv s evs s' g : inv g s → urun s evs = Some s' → ∃ g', inv g' s'.
Proof.
  revert s g. induction evs as [|ev evs IH]; intros s g Hi; simpl; [intros [= <-]; by exists g|].
  destruct (ustep s ev) as [s1|] eqn:E; [|done]. simpl. destruct (upload_step_inv g s ev s1 Hi E) as [g1 H1].
  by apply (IH s1 g1).
Qed.

(** ** Lemmas: the run ends *)

Definition client_left (c : client_pc) : nat :=
  match c with
  | CMagic => 2 * length (default [] path) + 8
  | COpen => 2 * length (default [] path) + 5
  | CCopy rest => 2 * length rest + 4
  | CCloseWrite => 3
  | CStatus => 2
  | CDone _ => 0
  end.

Definition server_left (p : server_pc) : nat :=
  match p with SMagic => 4 | SOpen => 3 | SCopy => 2 | SAnswer _ => 1 | SDone _ => 0 end.

Definition upload_left (s : upload) : nat :=
  client_left (u_client s) + server_left (u_server s) + length (u_wire s) + (if u_broken s then 0 else 1).

Lemma upload_step_left s ev s' : ustep s ev = Some s' → (upload_left s' < upload_left s)%nat.
Proof.
  destruct s as [c p w fin file ans br]. unfold upload_left, upload_step, client_step, server_step, client_return.
  unfold server_return, server_store, client_send, set_client, set_server, with_wire, set_fin, set_file, set_answer.
  destruct ev, c, p; simpl; try done; repeat case_match; simplify_eq; intros; simplify_eq/=;
    rewrite ?length_app, ?length_take, ?length_drop in *; simpl in *;
    repeat match goal with H : (_ && _) = true |- _ => apply andb_true_iff in H as [? ?] end;
    rewrite ?Nat.ltb_lt, ?Nat.leb_le in *; try lia.
Qed.

(** ** Lemmas: an undisturbed run *)

(** The receiver has something to do. *)
Lemma server_moves g s :
  inv g s → u_broken s = false → server_closed s = false → (u_wire s ≠ [] ∨ u_fin s = true ∧ g ≠ []) →
  ∃ ev, disturbance ev = false ∧ is_Some (ustep s ev).
Proof.
  intros [[Hg _] Hs] Hb Hcl Hw. unfold server_inv in Hs. unfold server_closed in Hcl.
  destruct (u_server s) as [| | |e|e] eqn:Es; [| | | |done].
  - destruct Hs as (_ & _ & _ & Hwire). specialize (Hwire Hb). simpl in Hwire.
    exists ServerMagic. simpl. unfold server_step. rewrite Es. subst g.
    destruct (u_wire s) as [|b rest]; [naive_solver|]. apply prefix_cons_inv_1 in Hg as ->. split; [done|]. by rewrite decide_True.
  - exists ServerOpen. simpl. unfold server_step. by rewrite Es.
  - destruct (decide (u_wire s = [])) as [Hnil|Hne].
    + destruct Hw as [?|[Hfin _]]; [done|]. exists ServerEOF. simpl. unfold server_step. rewrite Es, Hnil, Hfin. done.
    + exists (ServerRead 1). simpl. unfold server_step. rewrite Es. destruct (u_wire s); [done|]. done.
  - exists ServerAnswer. simpl. unfold server_step. by rewrite Es.
Qed.

Lemma upload_progress g s :
  (0 < window)%nat → half_close = true → inv g s → u_broken s = false →
  (∃ r e, u_client s = CDone r ∧ u_server s = SDone e) ∨ ∃ ev, disturbance ev = false ∧ is_Some (ustep s ev).
Proof.
  intros Hwin Hhalf Hi Hb. pose proof Hi as [[Hg Hc] Hs].
  destruct (server_closed s) eqn:Hcl.
  - unfold server_closed in Hcl. destruct (u_server s) as [| | | |e] eqn:Es; try done.
    destruct (u_client s) as [| |rest| | |r] eqn:Ec; [right..|left; by exists r, e];
      [exists ClientWriteFails|exists ClientOpen|exists ClientWriteFails|exists ClientCloseWrite|exists ClientStatus];
      (split; [done|]); simpl; unfold client_step, server_closed; rewrite Ec, ?Es, ?Hhalf, ?orb_true_r; done.
  - right. pose proof (server_moves g s Hi Hb Hcl) as Hmove. destruct (u_client s) as [| |rest| | |r] eqn:Ec.
    + destruct Hc as [-> _]. destruct (decide (u_wire s = [])) as [Hnil|Hne]; [|by apply Hmove; left].
      exists (ClientWrite 0). split; [done|]. simpl. unfold client_step. rewrite Ec, Hnil.
      by rewrite (proj2 (Nat.ltb_lt _ _)).
    + exists ClientOpen. split; [done|]. simpl. unfold client_step. by rewrite Ec.
    + destruct (decide (rest = [])) as [->|Hrest].
      { exists ClientCopied. split; [done|]. simpl. unfold client_step. by rewrite Ec. }
      destruct (decide (u_wire s = [])) as [Hnil|Hne]; [|by apply Hmove; left].
      exists (ClientWrite 1). split; [done|]. simpl. unfold client_step. rewrite Ec, Hnil. destruct rest; [done|].
      simpl. destruct window; [lia|done].
    + exists ClientCloseWrite. split; [done|]. simpl. unfold client_step. by rewrite Ec.
    + destruct Hc as (Hfin & f & _ & ->). apply Hmove. by right.
    + destruct Hc as (Hfin & Hr & _). apply Hmove. right. split; [done|]. intros Hnil. specialize (Hr Hnil).
      by rewrite Hb, Hcl in Hr.
Qed.

Lemma upload_run_left s evs s' : urun s evs = Some s' → (upload_left s' + length evs ≤ upload_left s)%nat.
Proof.
  revert s. induction evs as [|ev evs IH]; intros s; simpl; [intros [= <-]; lia|].
  destruct (ustep s ev) as [s1|] eqn:E; [|done]. simpl. intros H%IH. apply upload_step_left in E. lia.
Qed.

(** No disturbance so far, and room for the whole file: the receiver stores it,
    and the only end of a client whose source opens is success. *)
Definition quiet (s : upload) : Prop :=
  u_broken s = false ∧
  match u_server s with SAnswer e | SDone e => e = EndStored | _ => True end ∧
  match u_client s with CDone r => path ≠ None → r = Ret tt | _ => True end.

Lemma quiet_answer g s : inv g s → quiet s → server_closed s = true → u_answer s = [byte_of 0] ∧ u_fin s = true.
Proof.
  intros [_ Hs] (Hb & He & _) Hcl. unfold server_closed, server_inv in *. destruct (u_server s) as [| | | |e]; try done.
  subst e. destruct Hs as (_ & _ & Ha & Hc). specialize (Ha Hb). split; [done|]. apply Hc; [done|]. by rewrite Ha.
Qed.

Lemma quiet_open g s : inv g s → quiet s → u_fin s = false → u_broken s || server_closed s = false.
Proof.
  intros Hi Hq Hfin. destruct (server_closed s) eqn:E.
  - destruct (quiet_answer g s Hi Hq E). congruence.
  - destruct Hq as [-> _]. done.
Qed.

Lemma quiet_client g s ev s' :
  disturbance ev = false → inv g s → quiet s → cstep s ev = Some s' → quiet s'.
Proof.
  intros Hd Hi Hq. pose proof Hi as [[Hg Hc] Hs]. pose proof Hq as (Hb & He & _). unfold client_step.
  assert (∀ b c, match c with CDone _ => False | _ => True end → quiet (set_client c (client_send b s))) as Hsend.
  { intros b c Hcd. destruct (send_fields b s) as (E1 & _ & _ & _ & E2 & _). unfold quiet. simpl.
    rewrite E1, E2. split_and!; [done|done|]. by destruct c. }
  assert (∀ c, match c with CDone _ => False | _ => True end → quiet (set_client c s)) as Hmove.
  { intros c Hcd. split_and!; [done|done|]. simpl. by destruct c. }
  assert (∀ r, (path ≠ None → r = Ret tt) → quiet (client_return r s)) as Hret by (intros r Hr; by split_and!).
  clear He. destruct (u_client s) as [| |rest| | |r] eqn:Ec; destruct ev; try done.
  - case_match; [|done]. intros [= <-]. by apply Hsend.
  - destruct Hc as [_ Hfin]. by rewrite (quiet_open g s Hi Hq Hfin).
  - destruct path; intros [= <-]; [by apply Hmove|by apply Hret].
  - case_match; [|done]. intros [= <-]. by apply Hsend.
  - destruct Hc as [Hfin _]. by rewrite (quiet_open g s Hi Hq Hfin).
  - case_decide; [|done]. intros [= <-]. by apply Hmove.
  - intros [= <-]. exact (Hmove CStatus I).
  - case_match eqn:Esee; [|done]. intros [= <-]. apply Hret. intros _.
    assert (u_answer s = [byte_of 0]) as ->; [|done].
    apply (quiet_answer g s Hi Hq). rewrite andb_true_iff, !orb_true_iff, negb_true_iff, bool_decide_eq_false in Esee.
    destruct Esee as [_ [[Hne|?]|?]]; [|done|congruence].
    destruct (answer_done d g s Hs Hne) as [e Hdone]. unfold server_closed. by rewrite Hdone.
Qed.

Lemma quiet_server g s ev s' :
  dk_opens d = true → (length (default [] path) ≤ dk_room d)%nat → disturbance ev = false →
  inv g s → quiet s → server_step d s ev = Some s' → quiet s'.
Proof.
  intros Ho Hroom Hd [[Hg _] Hs] (Hb & He & Hq). unfold server_inv in Hs. unfold server_step.
  assert (∀ p s1, u_client s1 = u_client s → u_broken s1 = false →
    match p with SAnswer e | SDone e => e = EndStored | _ => True end → quiet (set_server p s1)) as Hmove.
  { clear He. intros p s1 Ec Eb Hp. split_and!; simpl; [done|done|]. by rewrite Ec. }
  destruct (u_server s) as [| | |e|e] eqn:Es; simpl in He; destruct ev; try done.
  - destruct (u_wire s); [done|]. case_decide; [|done]. intros [= <-]. by apply Hmove.
  - intros [= <-]. rewrite Ho. by apply Hmove.
  - destruct Hs as (q & (Hfile & _) & _ & Hp & _). destruct (_ && _) eqn:En; [|done].
    rewrite andb_true_iff, Nat.leb_le in En. destruct En as [_ En]. intros [= <-]. unfold server_store. simpl.
    rewrite Hfile. simpl. rewrite (proj2 (Nat.leb_le _ _)).
    { split_and!; simpl; [done|by rewrite Es|done]. }
    assert (Hpf := transitivity Hp Hg). apply prefix_length in Hpf. simpl in Hpf.
    rewrite length_app in Hpf. rewrite length_take. lia.
  - destruct (_ && _); [|done]. intros [= <-]. by apply Hmove.
  - intros [= <-]. unfold server_return. simpl. rewrite Hb. split_and!; done.
Qed.

Lemma quiet_run g s evs s' :
  dk_opens d = true → (length (default [] path) ≤ dk_room d)%nat → Forall (λ ev, disturbance ev = false) evs →
  inv g s → quiet s → urun s evs = Some s' → quiet s'.
Proof.
  intros Ho Hroom Hd. revert g s. induction Hd as [|ev evs Hev _ IH]; intros g s Hi Hq; simpl; [by intros [= <-]|].
  destruct (ustep s ev) as [s1|] eqn:E; [|done]. simpl. destruct (upload_step_inv g s ev s1 Hi E) as [g1 Hi1].
  apply (IH g1 s1 Hi1). destruct ev; simpl in E; try done;
    solve [by apply (quiet_client g s _ s1 Hev) in E | by apply (quiet_server g s _ s1 Ho Hroom Hev) in E].
Qed.

(** ** Lemmas: the outcomes *)

Lemma upload_file g s : inv g s →
  u_file s = None ∨ ∃ q, u_file s = Some q ∧ q `prefix_of` default [] path ∧ (length q ≤ dk_room d)%nat.
Proof.
  intros [[Hg _] Hs]. assert (∀ q, stored d g s q →
    u_file s = Some q ∧ q `prefix_of` default [] path ∧ (length q ≤ dk_room d)%nat) as Hst.
  { intros q (? & _ & ? & Hp). split_and!; [done| |done]. exact (prefix_cons_inv_2 _ _ _ _ (transitivity Hp Hg)). }
  assert (∀ e, ended d g s e → u_file s = None ∨ ∃ q, stored d g s q) as Hend.
  { intros e He. destruct e; simpl in He; [by left|left; tauto| |right; tauto|by right].
    destruct He as (? & x & Hx & Hl & Hf). right. exists (take (dk_room d) x). split_and!; [done|done| |].
    - rewrite length_take. lia.
    - exact (prefix_take_of (dk_room d) [_] x g Hx). }
  unfold server_inv in Hs. destruct (u_server s) as [| | |e|e]; [left; tauto|left; tauto| | |].
  - destruct Hs as (q & Hq & _). eauto.
  - destruct Hs as (_ & _ & He & _). destruct (Hend e He) as [?|[q ?]]; eauto.
  - destruct Hs as (He & _). destruct (Hend e He) as [?|[q ?]]; eauto.
Qed.

(** What a receiver has done is what [handleBinaryTransfer] does with a part of
    the stream that was sent. *)
Lemma upload_refines g s e :
  inv g s → u_server s = SDone e → e ≠ EndNoMagic →
  ∃ in_ clean, in_ `prefix_of` default [] path ∧ handleBinaryTransfer d in_ clean = (u_file s, end_answer e).
Proof.
  intros [[Hg _] Hs] Es Hne. unfold server_inv in Hs. rewrite Es in Hs. destruct Hs as [He _].
  assert (∀ x, (MagicBinaryTransfer :: x) `prefix_of` g → x `prefix_of` default [] path) as Hsub.
  { intros x Hx. exact (prefix_cons_inv_2 _ _ _ _ (transitivity Hx Hg)). }
  unfold handleBinaryTransfer. destruct e; simpl in He; [done| | | |].
  - destruct He as (-> & -> & ?). exists [], true. by split; [apply prefix_nil|].
  - destruct He as (-> & x & Hx & Hl & ->). exists x, true. split; [by apply Hsub|].
    by rewrite (proj2 (Nat.leb_gt _ _)).
  - destruct He as (_ & q & -> & -> & Hl & Hq). exists q, false. split; [by apply Hsub|]. simpl.
    by rewrite andb_false_r, take_ge by done.
  - destruct He as (q & -> & -> & Hl & Hq). exists q, true. split; [by apply Hsub|]. simpl.
    by rewrite (proj2 (Nat.leb_le _ _)).
Qed.

Lemma upload_nil g s :
  inv g s → u_client s = CDone (Ret tt) →
  ∃ f, path = Some f ∧ (u_file s = Some f ∨ u_broken s = true ∨ u_server s = SDone EndNoMagic ∨
    u_server s = SDone EndDisk ∧ (dk_room d < length f)%nat ∧ u_file s = Some (take (dk_room d) f)).
Proof.
  intros [[_ Hc] Hs] Ec. rewrite Ec in Hc. destruct Hc as (_ & _ & Hr & _).
  destruct (Hr eq_refl) as (f & Hf & -> & Hcase). exists f. split; [done|].
  destruct Hcase as [?|(e & Es & [?|[->| ->]])]; [auto..|]. do 3 right.
  unfold server_inv in Hs. rewrite Es in Hs. destruct Hs as ((_ & x & Hx & Hl & Hfile) & _).
  apply prefix_cons_inv_2 in Hx. pose proof (prefix_length _ _ Hx). split_and!; [done|lia|].
  rewrite Hfile. destruct Hx as [y ->]. by rewrite take_app_le by lia.
Qed.

End steps.

(** ** Properties *)


(** ** Witnesses *)

(** One byte is in flight at most. *)
Definition run0 : list upload_event :=
  [ClientWrite 1; ServerMagic; ClientOpen; ServerOpen; ClientWrite 1; ServerRead 1; ClientWrite 1; ServerRead 1;
   ClientCopied; ClientCloseWrite; ServerEOF; ServerAnswer; ClientStatus].

Definition done0 : upload :=
  MkUpload (CDone (Ret tt)) (SDone EndStored) [] true (Some (go "ab")) [byte_of 0] false.


(** A disk with room for one byte of two: the client returns nil. *)
Example full_disk_is_success :
  upload_run (Some (go "ab")) (MkDisk true 1) 9 true upload_start
    [ClientWrite 1; ClientOpen; ClientWrite 2; ServerMagic; ServerOpen; ServerRead 2; ClientCopied; ClientCloseWrite;
     ServerAnswer; ClientStatus]
  = Some (MkUpload (CDone (Ret tt)) (SDone EndDisk) [] true (Some (go "a")) [] false).
Proof. reflexivity. Qed.

(** A source that does not open: the receiver's file is emptied, and the copy
    counts as complete. *)
Example missing_source_empties_file :
  upload_run None (MkDisk true 9) 9 true upload_start
    [ClientWrite 1; ClientOpen; ServerMagic; ServerOpen; ServerEOF; ServerAnswer]
  = Some (MkUpload (CDone (Err (Errorf "open source file: %w"))) (SDone EndStored) [] true (Some []) [byte_of 0] false).
Proof. reflexivity. Qed.

(** A receiver whose file does not open, and a sender with more than the window:
    its write fails before it reads the status. *)
Example refused_upload_fails :
  upload_run (Some (go "abc")) (MkDisk false 9) 1 true upload_start
    [ClientWrite 1; ServerMagic; ServerOpen; ServerAnswer; ClientOpen; ClientWrite 1; ClientWriteFails]
  = Some (MkUpload (CDone (Err (Errorf "stream binary: %w"))) (SDone EndNoFile) (go "a") true None [byte_of 1] false).
Proof. reflexivity. Qed.
