(* ===== verification/Config.v ===== *)
(** * The configuration: config/config.go

    mesh.toml as the program holds it, the addresses and credentials it seeds the
    mesh with, and the copy without credentials that is deployed to other nodes.
    Maps and slices are references into a heap, because what the copy shares
    with its source is the point of [Stripped]. Decoding TOML and reading key
    files are parameters. *)

From Stdlib Require Import Ascii.
From stdpp Require Import base numbers gmap strings list.
From S2P Require Import Prelude GoStrings Codec Vault.

Open Scope Z_scope.

(** ** Data *)

Abbreviation loc := nat.

Record NodeConfig := MkNodeConfig { nc_ID : gostring; nc_MeshPort : Z; nc_SSHPort : Z }.

(** [Addresses] is the array of a slice that spans it; [None] is nil. *)
Record Host := MkHost { ho_Addresses : option loc; ho_MeshPort : Z; ho_SSHPort : Z }.

Record CredentialEntry := MkCredentialEntry {
  ce_Pattern : gostring;
  ce_Type : gostring;
  ce_Username : gostring;
  ce_Password : gostring;
  ce_KeyFile : gostring;
  ce_CertFile : gostring
}.

Record ProxyEntry := MkProxyEntry { pe_Pattern : gostring; pe_URL : gostring }.

#[export] Instance proxy_entry_eq_dec : EqDecision ProxyEntry.
Proof. solve_decision. Defined.

Record MeshConfig := MkMeshConfig {
  mc_Node : NodeConfig;
  mc_Hosts : option loc;
  mc_Credentials : list CredentialEntry;
  mc_Proxies : option loc;
  mc_Groups : option loc
}.

(** The arrays of strings and of proxies, and the maps; [hp_next] is the next
    free location. *)
Record heap := MkHeap {
  hp_strs : gmap loc (list gostring);
  hp_proxies : gmap loc (list ProxyEntry);
  hp_hosts : gmap loc (gmap gostring Host);
  hp_groups : gmap loc (gmap gostring (option loc));
  hp_next : loc
}.

Definition alloc_strs (h : heap) (a : list gostring) : heap * loc :=
  (MkHeap (<[hp_next h := a]> (hp_strs h)) (hp_proxies h) (hp_hosts h) (hp_groups h) (S (hp_next h)), hp_next h).

Definition alloc_proxies (h : heap) (a : list ProxyEntry) : heap * loc :=
  (MkHeap (hp_strs h) (<[hp_next h := a]> (hp_proxies h)) (hp_hosts h) (hp_groups h) (S (hp_next h)), hp_next h).

Definition alloc_hosts (h : heap) (m : gmap gostring Host) : heap * loc :=
  (MkHeap (hp_strs h) (hp_proxies h) (<[hp_next h := m]> (hp_hosts h)) (hp_groups h) (S (hp_next h)), hp_next h).

Definition alloc_groups (h : heap) (m : gmap gostring (option loc)) : heap * loc :=
  (MkHeap (hp_strs h) (hp_proxies h) (hp_hosts h) (<[hp_next h := m]> (hp_groups h)) (S (hp_next h)), hp_next h).

(** What is at a location. *)
Definition strs_at (h : heap) (l : loc) : list gostring := default [] (hp_strs h !! l).
Definition proxies_at (h : heap) (l : loc) : list ProxyEntry := default [] (hp_proxies h !! l).
Definition hosts_at (h : heap) (l : loc) : gmap gostring Host := default ∅ (hp_hosts h !! l).
Definition groups_at (h : heap) (l : loc) : gmap gostring (option loc) := default ∅ (hp_groups h !! l).

(** [Default] *)
Definition Default (h : heap) : heap * MeshConfig :=
  let '(h, hosts) := alloc_hosts h ∅ in
  (h, MkMeshConfig (MkNodeConfig [] 4443 22) (Some hosts) [] None None).

(** ** Ports and addresses *)

Definition GetMeshPort (h : Host) (defaultPort : Z) : Z :=
  if 0 <? ho_MeshPort h then ho_MeshPort h else defaultPort.

Definition GetSSHPort (h : Host) (defaultPort : Z) : Z :=
  if 0 <? ho_SSHPort h then ho_SSHPort h else defaultPort.

Definition addr_with_port (port : Z) (addr : gostring) : gostring :=
  if negb (bool_decide (":"%char ∈ addr)) then addr ++ go ":" ++ strconv_Itoa port else addr.

(** The result is a new map of new slices. *)
Definition KnownHosts (h : heap) (mc : MeshConfig) : gmap gostring (list gostring) :=
  let hosts := match mc_Hosts mc with Some l => hosts_at h l | None => ∅ end in
  (λ host, map (addr_with_port (GetMeshPort host (nc_MeshPort (mc_Node mc))))
     (match ho_Addresses host with Some a => strs_at h a | None => [] end)) <$> hosts.

(** ** Credentials *)

(** [os.UserHomeDir] fails with [None]. *)
Definition expandTilde (home : option gostring) (path : gostring) : gostring :=
  if strings_HasPrefix path (go "~/")
  then match home with Some home => home ++ drop 1 path | None => path end
  else path.

Definition CredSSHKey : Z := 1.
Definition CredSSHPassword : Z := 2.
Definition CredTLSCert : Z := 3.

Section credentials.
(** [os.ReadFile] *)
Context (ReadFile : gostring → option bytes) (home : option gostring).

Definition entryToCredential (entry : CredentialEntry) : outcome Credential :=
  if decide (ce_Type entry = go "ssh_key") then
    match ReadFile (expandTilde home (ce_KeyFile entry)) with
    | None => Err (Errorf "read key file %s: %w")
    | Some keyData => Ret (MkCredential CredSSHKey (ce_Username entry) [] keyData [])
    end
  else if decide (ce_Type entry = go "ssh_password") then
    Ret (MkCredential CredSSHPassword (ce_Username entry) (ce_Password entry) [] [])
  else if decide (ce_Type entry = go "tls_cert") then
    match ReadFile (expandTilde home (ce_CertFile entry)) with
    | None => Err (Errorf "read cert file %s: %w")
    | Some certData => Ret (MkCredential CredTLSCert [] [] [] certData)
    end
  else Err (Errorf "unknown credential type: %q (expected ssh_key, ssh_password, or tls_cert)").

(** [LoadCredentials]: the vault after the call, and its error if any. *)
Fixpoint load_entries (entries : list CredentialEntry) (v : Vault) : Vault * outcome unit :=
  match entries with
  | [] => (v, Ret tt)
  | entry :: entries =>
      match entryToCredential entry with
      | Ret cred => load_entries entries (Vault_Store v (ce_Pattern entry) cred)
      | Err e => (v, Err (Wrapf "config: credential[%d] (%s): %w" e))
      | Panic => (v, Panic)
      | Diverge => (v, Diverge)
      end
  end.

Definition LoadCredentials (mc : MeshConfig) (v : Vault) : Vault * outcome unit :=
  load_entries (mc_Credentials mc) v.

End credentials.

(** ** The copy without credentials: [Stripped] *)

(** [make] and [copy] of a slice of strings that is not nil. *)
Definition copy_strs (h : heap) (s : option loc) : heap * option loc :=
  match s with
  | None => (h, None)
  | Some l => let '(h, a) := alloc_strs h (strs_at h l) in (h, Some a)
  end.

(** The loop over a map whose values hold a slice of strings each. *)
Fixpoint copy_entries {V} (addr : V → option loc) (set_addr : V → option loc → V) (h : heap)
    (l : list (gostring * V)) (m : gmap gostring V) : heap * gmap gostring V :=
  match l with
  | [] => (h, m)
  | (k, v) :: l =>
      let '(h, a) := copy_strs h (addr v) in
      copy_entries addr set_addr h l (<[k := set_addr v a]> m)
  end.

Definition set_Addresses (v : Host) (a : option loc) : Host := MkHost a (ho_MeshPort v) (ho_SSHPort v).

Section stripped.
Context `{GoRange}.

Definition strip_hosts (h : heap) (hosts : option loc) : heap * option loc :=
  match hosts with
  | None => (h, None)
  | Some l =>
      let '(h, m) := copy_entries ho_Addresses set_Addresses h (range_map (hosts_at h l)) ∅ in
      let '(h, l) := alloc_hosts h m in (h, Some l)
  end.

Definition strip_proxies (h : heap) (proxies : option loc) : heap * option loc :=
  match proxies with
  | None => (h, None)
  | Some l => let '(h, a) := alloc_proxies h (proxies_at h l) in (h, Some a)
  end.

(** A group whose slice is nil is left out. *)
Definition strip_groups (h : heap) (groups : option loc) : heap * option loc :=
  match groups with
  | None => (h, None)
  | Some l =>
      let '(h, m) := copy_entries id (λ _ a, a) h (filter (λ e, is_Some e.2) (range_map (groups_at h l))) ∅ in
      let '(h, l) := alloc_groups h m in (h, Some l)
  end.

Definition Stripped (h : heap) (mc : MeshConfig) : heap * MeshConfig :=
  let '(h, hosts) := strip_hosts h (mc_Hosts mc) in
  let '(h, proxies) := strip_proxies h (mc_Proxies mc) in
  let '(h, groups) := strip_groups h (mc_Groups mc) in
  (h, MkMeshConfig (mc_Node mc) hosts [] proxies groups).

End stripped.

(** ** Lemmas: reading a heap *)

(** The two heaps hold the same at the locations of [P]. *)
Definition agree (P : loc → Prop) (h h' : heap) : Prop :=
  ∀ l, P l → strs_at h l = strs_at h' l ∧ proxies_at h l = proxies_at h' l ∧
    hosts_at h l = hosts_at h' l ∧ groups_at h l = groups_at h' l.

(** The locations reached through a value are in [P]. *)
Definition all_in {V} (P : loc → Prop) (addr : V → option loc) (m : gmap gostring V) : Prop :=
  ∀ k v a, m !! k = Some v → addr v = Some a → P a.

Definition reaches_only (P : loc → Prop) (h : heap) (mc : MeshConfig) : Prop :=
  (∀ l, mc_Hosts mc = Some l → P l ∧ all_in P ho_Addresses (hosts_at h l)) ∧
  (∀ l, mc_Proxies mc = Some l → P l) ∧
  (∀ l, mc_Groups mc = Some l → P l ∧ all_in P id (groups_at h l)).

(** A configuration by value. *)
Record config_value := MkConfigValue {
  cv_Node : NodeConfig;
  cv_Hosts : option (gmap gostring (option (list gostring) * Z * Z));
  cv_Credentials : list CredentialEntry;
  cv_Proxies : option (list ProxyEntry);
  cv_Groups : option (gmap gostring (option (list gostring)))
}.

Definition host_value (h : heap) (v : Host) : option (list gostring) * Z * Z :=
  (strs_at h <$> ho_Addresses v, ho_MeshPort v, ho_SSHPort v).

Definition group_value (h : heap) (g : option loc) : option (list gostring) := strs_at h <$> g.

Definition view (h : heap) (mc : MeshConfig) : config_value :=
  MkConfigValue (mc_Node mc) ((λ l, host_value h <$> hosts_at h l) <$> mc_Hosts mc) (mc_Credentials mc)
    (proxies_at h <$> mc_Proxies mc) ((λ l, group_value h <$> groups_at h l) <$> mc_Groups mc).

(** What [Stripped] promises to keep. *)
Definition strip_value (c : config_value) : config_value :=
  MkConfigValue (cv_Node c) (cv_Hosts c) [] (cv_Proxies c)
    ((λ m, filter (λ e, is_Some e.2) m) <$> cv_Groups c).

Lemma agree_sym P h h' : agree P h h' → agree P h' h.
Proof. intros H l Hl. destruct (H l Hl) as (-> & -> & -> & ->). done. Qed.

Lemma agree_trans (P : loc → Prop) h h1 h2 : agree P h h1 → agree P h1 h2 → agree P h h2.
Proof. intros H1 H2 l Hl. destruct (H1 l Hl) as (-> & -> & -> & ->). by apply H2. Qed.

Lemma agree_weaken (P Q : loc → Prop) h h' : (∀ l, Q l → P l) → agree P h h' → agree Q h h'.
Proof. intros HPQ H l Hl. by apply H, HPQ. Qed.

Lemma fmap_agree {V W} (P : loc → Prop) (addr : V → option loc) (f g : V → W) (m : gmap gostring V) :
  all_in P addr m → (∀ v, (∀ a, addr v = Some a → P a) → f v = g v) → f <$> m = g <$> m.
Proof.
  intros Hall Hfg. apply map_fmap_ext. intros k v Hv. apply Hfg. intros a Ha. by eapply Hall.
Qed.

Lemma view_agree P h h' mc : reaches_only P h mc → agree P h h' → view h' mc = view h mc.
Proof.
  intros (Hh & Hp & Hg) Ha. destruct mc as [node hosts creds proxies groups]. unfold view. simpl in *. f_equal.
  - destruct hosts as [l|]; [|done]. destruct (Hh l eq_refl) as [Hl Hall]. simpl. f_equal.
    destruct (Ha l Hl) as (_ & _ & <- & _). eapply fmap_agree; [exact Hall|]. intros [[a|] mp sp] Hv; [|done].
    unfold host_value. simpl. by destruct (Ha a (Hv a eq_refl)) as (<- & _).
  - destruct proxies as [l|]; [|done]. simpl. by destruct (Ha l (Hp l eq_refl)) as (_ & <- & _).
  - destruct groups as [l|]; [|done]. destruct (Hg l eq_refl) as [Hl Hall]. simpl. f_equal.
    destruct (Ha l Hl) as (_ & _ & _ & <-). eapply fmap_agree; [exact Hall|]. intros [a|] Hv; [|done].
    unfold group_value. simpl. by destruct (Ha a (Hv a eq_refl)) as (<- & _).
Qed.

(** ** Lemmas: copying *)

(** [h'] is [h] with more allocated. *)
Definition extends (h h' : heap) : Prop :=
  agree (λ l, l < hp_next h)%nat h h' ∧ (hp_next h ≤ hp_next h')%nat.

Lemma extends_refl h : extends h h.
Proof. by split. Qed.

Lemma extends_trans h h1 h2 : extends h h1 → extends h1 h2 → extends h h2.
Proof.
  intros [H1 L1] [H2 L2]. split; [|lia]. eapply agree_trans; [exact H1|].
  eapply agree_weaken; [|exact H2]. simpl. lia.
Qed.

Lemma lookup_alloc {A} (m : gmap loc A) n a l : (l < n)%nat → <[n := a]> m !! l = m !! l.
Proof. intros. apply lookup_insert_ne. lia. Qed.

Lemma alloc_extends (h h' : heap) :
  (hp_next h ≤ hp_next h')%nat →
  (∀ l, (l < hp_next h)%nat → hp_strs h' !! l = hp_strs h !! l ∧ hp_proxies h' !! l = hp_proxies h !! l ∧
     hp_hosts h' !! l = hp_hosts h !! l ∧ hp_groups h' !! l = hp_groups h !! l) →
  extends h h'.
Proof.
  intros Hn H. split; [|done]. intros l Hl. destruct (H l Hl) as (H1 & H2 & H3 & H4).
  unfold strs_at, proxies_at, hosts_at, groups_at. by rewrite H1, H2, H3, H4.
Qed.

(** A copy [a] of the slice [s], made after [h]. *)
Definition copied (h h' : heap) (s a : option loc) : Prop :=
  match s, a with
  | None, None => True
  | Some l, Some a => (hp_next h ≤ a < hp_next h')%nat ∧ strs_at h' a = strs_at h l
  | _, _ => False
  end.

Lemma copy_strs_spec h s h' a :
  copy_strs h s = (h', a) → extends h h' ∧ copied h h' s a.
Proof.
  unfold copy_strs. destruct s as [l|]; intros [= <- <-]; [|by split; [apply extends_refl|]].
  split; [apply alloc_extends; simpl; [lia|]; intros l' Hl'; by rewrite lookup_alloc|].
  simpl. split; [lia|]. unfold strs_at at 1. simpl. by rewrite lookup_insert_eq.
Qed.

Lemma copied_extends h h1 h' h2 s a :
  extends h h1 → extends h' h2 → (∀ l, s = Some l → (l < hp_next h)%nat) →
  copied h1 h' s a → copied h h2 s a.
Proof.
  intros [Ha Hn] [Ha' Hn'] Hs. destruct s as [l|], a as [a|]; try done. simpl. intros [Hr Heq].
  split; [lia|]. destruct (Ha' a) as (<- & _); [lia|]. rewrite Heq. destruct (Ha l) as (-> & _); [by apply Hs|done].
Qed.

(** The loop copies the slice of every entry, in whatever order it is given. *)
Lemma copy_entries_spec {V} (addr : V → option loc) set_addr (l : list (gostring * V)) :
  ∀ h m h' m', copy_entries addr set_addr h l m = (h', m') → NoDup l.*1 →
  Forall (λ e, ∀ a, addr e.2 = Some a → (a < hp_next h)%nat) l →
  extends h h' ∧ (∀ k, k ∉ l.*1 → m' !! k = m !! k) ∧
  ∀ k v, (k, v) ∈ l → ∃ a, m' !! k = Some (set_addr v a) ∧ copied h h' (addr v) a.
Proof.
  induction l as [|[k0 v0] l IH]; intros h m h' m' Hc Hnd Hall; simpl in Hc.
  { injection Hc as <- <-. split_and!; [apply extends_refl|done|set_solver]. }
  destruct (copy_strs h (addr v0)) as [h1 a0] eqn:H0. apply copy_strs_spec in H0 as [He0 Hc0].
  apply NoDup_cons in Hnd as [Hk0 Hnd]. apply Forall_cons in Hall as [Hv0 Hall].
  destruct (IH _ _ _ _ Hc Hnd) as (He & Hother & Hin).
  { eapply Forall_impl; [exact Hall|]. intros e He a Ha. apply He in Ha. destruct He0. lia. }
  split_and!; [by eapply extends_trans| |].
  - intros k Hk. simpl in Hk. rewrite Hother by set_solver. apply lookup_insert_ne. set_solver.
  - intros k v [[= -> ->]|Hv]%elem_of_cons.
    + exists a0. rewrite Hother by done. rewrite lookup_insert_eq. split; [done|].
      eapply copied_extends; [apply extends_refl|exact He|exact Hv0|exact Hc0].
    + destruct (Hin k v Hv) as (a & Ha & Hcp). exists a. split; [done|].
      eapply copied_extends; [exact He0|apply extends_refl| |exact Hcp].
      rewrite Forall_forall in Hall. apply (Hall _ Hv).
Qed.

(** Allocated between two heaps. *)
Definition fresh (h h' : heap) (l : loc) : Prop := (hp_next h ≤ l < hp_next h')%nat.

Lemma copy_map {V W} (addr : V → option loc) set_addr (val : heap → V → W) h l m h' m' :
  l ≡ₚ map_to_list m → copy_entries addr set_addr h l ∅ = (h', m') →
  all_in (λ a, a < hp_next h)%nat addr m →
  (∀ v a, addr (set_addr v a) = a) →
  (∀ v a, copied h h' (addr v) a → val h' (set_addr v a) = val h v) →
  extends h h' ∧ all_in (fresh h h') addr m' ∧ val h' <$> m' = val h <$> m.
Proof.
  intros Hl Hc Hall Hget Hval.
  destruct (copy_entries_spec addr set_addr l h ∅ h' m' Hc) as (He & Hother & Hin).
  { rewrite Hl. apply NoDup_fst_map_to_list. }
  { rewrite Hl. apply Forall_forall. intros [k v] Hv%elem_of_map_to_list a Ha. by eapply Hall. }
  assert (∀ k v, (k, v) ∈ l ↔ m !! k = Some v) as Hm by (intros k v; by rewrite Hl, elem_of_map_to_list).
  assert (∀ k, match m !! k with
               | Some v => ∃ a, m' !! k = Some (set_addr v a) ∧ copied h h' (addr v) a
               | None => m' !! k = None end) as Hk.
  { intros k. destruct (m !! k) as [v|] eqn:Hv; [by apply Hin, Hm|]. rewrite Hother; [apply lookup_empty|].
    intros ([k' v] & -> & Hkv)%list_elem_of_fmap. apply Hm in Hkv. simpl in *. congruence. }
  split_and!; [done| |].
  - intros k v' a Hv' Ha. specialize (Hk k). destruct (m !! k) as [v|]; [|congruence].
    destruct Hk as (a' & Hk & Hcp). rewrite Hk in Hv'. injection Hv' as <-. rewrite Hget in Ha. subst a'.
    unfold copied in Hcp. by destruct (addr v); [destruct Hcp|].
  - apply map_eq. intros k. rewrite !lookup_fmap. specialize (Hk k). destruct (m !! k) as [v|]; [|by rewrite Hk].
    destruct Hk as (a & -> & Hcp). simpl. by rewrite (Hval v a Hcp).
Qed.

(** The parts of a configuration as configurations of their own. *)
Definition part (hosts proxies groups : option loc) : MeshConfig :=
  MkMeshConfig (MkNodeConfig [] 0 0) hosts [] proxies groups.

Definition below (h : heap) (l : loc) : Prop := (l < hp_next h)%nat.

Section strip_lemmas.
Context `{GoRange}.

Lemma strip_hosts_spec h s h' s' :
  strip_hosts h s = (h', s') → reaches_only (below h) h (part s None None) →
  extends h h' ∧ reaches_only (fresh h h') h' (part s' None None) ∧
  view h' (part s' None None) = view h (part s None None).
Proof.
  unfold strip_hosts. intros Hs (Hr & _ & _). destruct s as [l|].
  2:{ injection Hs as <- <-. split_and!; [apply extends_refl| |done]. by split_and!. }
  destruct (copy_entries _ _ _ _ _) as [h1 m] eqn:Hc. injection Hs as <- <-. simpl in Hr.
  destruct (Hr l eq_refl) as [Hl Hall].
  destruct (copy_map ho_Addresses set_Addresses host_value h _ (hosts_at h l) h1 m (range_map_perm _) Hc Hall)
    as (He & Hf & Hv); [done| |].
  { intros [s mp sp] a. unfold host_value, copied, set_Addresses. simpl.
    destruct s as [s|], a as [a|]; try done. simpl. by intros [_ ->]. }
  assert (extends h1 (fst (alloc_hosts h1 m))) as Ha
    by (apply alloc_extends; simpl; [lia|]; intros l' Hl'; by rewrite lookup_alloc).
  assert (hosts_at (fst (alloc_hosts h1 m)) (hp_next h1) = m) as Hm
    by (unfold hosts_at; simpl; by rewrite lookup_insert_eq).
  split_and!; [by eapply extends_trans| |].
  - split_and!; simpl; [|done|done]. intros ? [= <-]. simpl in Hm. rewrite Hm. destruct He as [_ Hn]. split; [split; simpl; lia|].
    intros k v a Hk Haddr. destruct (Hf k v a Hk Haddr). split; simpl; lia.
  - unfold view. simpl. do 2 f_equal. simpl in Hm. rewrite Hm, <-Hv. apply map_fmap_ext. intros k v Hk.
    unfold host_value. destruct v as [[a|] mp sp]; [|done]. simpl.
    destruct (proj1 Ha a) as (-> & _); [|done]. by destruct (Hf k _ a Hk eq_refl).
Qed.

Lemma strip_proxies_spec h s h' s' :
  strip_proxies h s = (h', s') →
  extends h h' ∧ reaches_only (fresh h h') h' (part None s' None) ∧
  view h' (part None s' None) = view h (part None s None).
Proof.
  unfold strip_proxies. intros Hs. destruct s as [l|].
  2:{ injection Hs as <- <-. split_and!; [apply extends_refl| |done]. by split_and!. }
  injection Hs as <- <-. split_and!.
  - apply alloc_extends; simpl; [lia|]. intros l' Hl'. by rewrite lookup_alloc.
  - split_and!; simpl; [done| |done]. intros ? [= <-]. split; simpl; lia.
  - unfold view. simpl. do 2 f_equal. unfold proxies_at at 1. simpl. by rewrite lookup_insert_eq.
Qed.

Lemma filter_perm_map_to_list {V} (P : gostring * V → Prop) `{∀ e, Decision (P e)} (m : gmap gostring V) :
  filter P (range_map m) ≡ₚ map_to_list (filter P m).
Proof.
  apply NoDup_Permutation; [|apply NoDup_map_to_list|].
  - apply NoDup_filter. rewrite range_map_perm. apply NoDup_map_to_list.
  - intros [k v]. rewrite list_elem_of_filter, range_map_perm, !elem_of_map_to_list, map_lookup_filter_Some. tauto.
Qed.

Lemma strip_groups_spec h s h' s' :
  strip_groups h s = (h', s') → reaches_only (below h) h (part None None s) →
  extends h h' ∧ reaches_only (fresh h h') h' (part None None s') ∧
  view h' (part None None s') = strip_value (view h (part None None s)).
Proof.
  unfold strip_groups. intros Hs (_ & _ & Hr). destruct s as [l|].
  2:{ injection Hs as <- <-. split_and!; [apply extends_refl| |done]. by split_and!. }
  destruct (copy_entries _ _ _ _ _) as [h1 m] eqn:Hc. injection Hs as <- <-. simpl in Hr.
  destruct (Hr l eq_refl) as [Hl Hall].
  destruct (copy_map id (λ _ a, a) group_value h _ (filter (λ e, is_Some e.2) (groups_at h l)) h1 m
    (filter_perm_map_to_list _ _) Hc) as (He & Hf & Hv); [|done| |].
  { intros k v a [Hk _]%map_lookup_filter_Some. by eapply Hall. }
  { intros s a. unfold group_value, copied. simpl. destruct s as [s|], a as [a|]; try done. simpl. by intros [_ ->]. }
  assert (extends h1 (fst (alloc_groups h1 m))) as Ha
    by (apply alloc_extends; simpl; [lia|]; intros l' Hl'; by rewrite lookup_alloc).
  assert (groups_at (fst (alloc_groups h1 m)) (hp_next h1) = m) as Hm
    by (unfold groups_at; simpl; by rewrite lookup_insert_eq).
  split_and!; [by eapply extends_trans| |].
  - split_and!; simpl; [done|done|]. intros ? [= <-]. simpl in Hm. rewrite Hm. destruct He as [_ Hn]. split; [split; simpl; lia|].
    intros k v a Hk Haddr. destruct (Hf k v a Hk Haddr). split; simpl; lia.
  - unfold view, strip_value. simpl. do 2 f_equal. simpl in Hm. rewrite Hm.
    transitivity (group_value h <$> filter (λ e, is_Some e.2) (groups_at h l)).
    + rewrite <-Hv. apply map_fmap_ext. intros k v Hk. unfold group_value. destruct v as [a|]; [|done]. simpl.
      destruct (proj1 Ha a) as (-> & _); [|done]. by destruct (Hf k _ a Hk eq_refl).
    + apply map_eq. intros k. rewrite lookup_fmap, !map_lookup_filter, lookup_fmap.
      destruct (groups_at h l !! k) as [[a|]|]; simpl; repeat case_guard; simpl in *; naive_solver.
Qed.

End strip_lemmas.

Lemma view_parts h node a creds b c :
  view h (MkMeshConfig node a creds b c) =
  MkConfigValue node (cv_Hosts (view h (part a None None))) creds (cv_Proxies (view h (part None b None)))
    (cv_Groups (view h (part None None c))).
Proof. done. Qed.

Lemma reaches_parts P h node a creds b c :
  reaches_only P h (MkMeshConfig node a creds b c) ↔
  reaches_only P h (part a None None) ∧ reaches_only P h (part None b None) ∧ reaches_only P h (part None None c).
Proof. unfold reaches_only. simpl. naive_solver. Qed.

Lemma reaches_agree (P Q : loc → Prop) h h' mc :
  (∀ l, P l → Q l) → agree P h h' → reaches_only P h mc → reaches_only Q h' mc.
Proof.
  intros HPQ Ha (Hh & Hp & Hg). split_and!.
  - intros l Hl. destruct (Hh l Hl) as [HP Hall]. destruct (Ha l HP) as (_ & _ & <- & _). split; [auto|].
    intros k v a Hk Hv. by eapply HPQ, Hall.
  - auto.
  - intros l Hl. destruct (Hg l Hl) as [HP Hall]. destruct (Ha l HP) as (_ & _ & _ & <-). split; [auto|].
    intros k v a Hk Hv. by eapply HPQ, Hall.
Qed.

(** A part made between [h] and [h'] is unharmed by later allocation. *)
Lemma fresh_part h0 h h' h1 mc :
  extends h0 h → extends h h' → extends h' h1 → reaches_only (fresh h h') h' mc →
  reaches_only (fresh h0 h1) h1 mc ∧ view h1 mc = view h' mc.
Proof.
  intros [_ L0] [_ L] [Ha L1] Hr.
  assert (agree (fresh h h') h' h1) as Hag by (eapply agree_weaken; [|exact Ha]; unfold fresh; simpl; lia).
  split; [|by eapply view_agree].
  eapply reaches_agree; [|exact Hag|exact Hr]. unfold fresh. lia.
Qed.

(** ** Lemmas: credentials *)

(** The credential stored under a pattern. *)
Definition credential_of (v : Vault) (pattern : gostring) : option Credential :=
  cred_of (v_entries v) pattern.

Definition store_all (v : Vault) (l : list (CredentialEntry * Credential)) : Vault :=
  foldl (λ v p, Vault_Store v (ce_Pattern p.1) p.2) v l.

Lemma credential_of_store_all v l p :
  credential_of (store_all v l) p =
  match last (filter (λ x, ce_Pattern x.1 = p) l) with Some (_, c) => Some c | None => credential_of v p end.
Proof.
  induction l as [|[e c] l IH] using rev_ind; [done|]. unfold store_all. rewrite foldl_app. simpl.
  unfold credential_of, Vault_Store. cbn [v_entries]. rewrite store_entry_lookup, filter_app, filter_cons, filter_nil.
  cbn [fst]. destruct (decide (ce_Pattern e = p)) as [<-|Hp].
  - by rewrite decide_True, last_snoc.
  - rewrite decide_False by congruence. by rewrite app_nil_r.
Qed.

Lemma load_entries_result ReadFile home entries v :
  let conv := entryToCredential ReadFile home in
  match load_entries ReadFile home entries v with
  | (v', r) => ∃ done creds rest, entries = done ++ rest ∧ Forall2 (λ e c, conv e = Ret c) done creds ∧
      v' = store_all v (zip done creds) ∧
      match rest with
      | [] => r = Ret tt
      | bad :: _ => ∃ err, conv bad = Err err ∧ r = Err (Wrapf "config: credential[%d] (%s): %w" err)
      end
  end.
Proof.
  cbn zeta. revert v. induction entries as [|e entries IH]; intros v; cbn [load_entries].
  { by exists [], [], []. }
  destruct (entryToCredential ReadFile home e) as [c|err| |] eqn:He.
  - specialize (IH (Vault_Store v (ce_Pattern e) c)). destruct (load_entries _ _ _ _) as [v' r].
    destruct IH as (done & creds & rest & -> & Hall & -> & Hr). exists (e :: done), (c :: creds), rest.
    split_and!; [done|by constructor|done|done].
  - exists [], [], (e :: entries). split_and!; [done|constructor|done|by exists err].
  - exfalso. unfold entryToCredential in He. by repeat case_match.
  - exfalso. unfold entryToCredential in He. by repeat case_match.
Qed.

(** ** Properties *)

(** C23: [Stripped] is a deep copy without the credentials. By value the copy is the
    configuration with no credentials (and without groups whose slice is nil);
    every map and array it reaches was allocated by the call. So nothing written
    to the copy changes the original, and nothing written to the original changes
    the copy. *)
Theorem Stripped_deep_copy `{GoRange} (h h' : heap) (mc s : MeshConfig)
  (Hwf : reaches_only (below h) h mc) (Hs : Stripped h mc = (h', s)) :
  view h' s = strip_value (view h mc) ∧ reaches_only (fresh h h') h' s ∧
  (∀ h'', agree (below h) h' h'' → view h'' mc = view h mc) ∧
  (∀ h'', agree (fresh h h') h' h'' → view h'' s = view h' s).
Proof.
  destruct mc as [node hosts creds proxies groups]. unfold Stripped in Hs. cbn [mc_Hosts mc_Proxies mc_Groups mc_Node] in Hs.
  destruct (strip_hosts h hosts) as [h1 hosts'] eqn:H1. destruct (strip_proxies h1 proxies) as [h2 proxies'] eqn:H2.
  destruct (strip_groups h2 groups) as [h3 groups'] eqn:H3. injection Hs as <- <-.
  pose proof Hwf as (W1 & W2 & W3)%reaches_parts.
  apply strip_hosts_spec in H1 as (E1 & R1 & V1); [|done]. apply strip_proxies_spec in H2 as (E2 & R2 & V2).
  pose proof (extends_trans _ _ _ E1 E2) as E12.
  apply strip_groups_spec in H3 as (E3 & R3 & V3).
  2:{ eapply reaches_agree; [|exact (proj1 E12)|exact W3]. destruct E12. unfold below. lia. }
  pose proof (extends_trans _ _ _ E12 E3) as E. pose proof (extends_refl h) as E0.
  destruct (fresh_part h h h1 h3 _ E0 E1 (extends_trans _ _ _ E2 E3) R1) as [R1' V1'].
  destruct (fresh_part h h1 h2 h3 _ E1 E2 E3 R2) as [R2' V2'].
  destruct (fresh_part h h2 h3 h3 _ E12 E3 (extends_refl h3) R3) as [R3' _].
  assert (reaches_only (fresh h h3) h3 (MkMeshConfig node hosts' [] proxies' groups')) as R by by apply reaches_parts.
  split_and!; [|done| |by intros h'' Ha; eapply view_agree].
  - rewrite !view_parts, V1', V2', V1, V2, V3.
    rewrite (view_agree (below h) h h1 (part None proxies None) W2 (proj1 E1)).
    rewrite (view_agree (below h) h h2 (part None None groups) W3 (proj1 E12)). done.
  - intros h'' Ha. eapply view_agree; [exact Hwf|]. eapply agree_trans; [exact (proj1 E)|exact Ha].
Qed.

(** Loading credentials. Entries are converted in order until one fails. If none
    fails, the vault holds under each pattern the credential of the last entry with
    it, and keeps its other credentials. If one fails, the call returns its
    error, and the vault has the entries before it and no others. *)
Theorem LoadCredentials_loads (ReadFile : gostring → option bytes) (home : option gostring)
  (mc : MeshConfig) (v v' : Vault) (r : outcome unit)
  (Hload : LoadCredentials ReadFile home mc v = (v', r)) :
  ∃ loaded creds rest, mc_Credentials mc = loaded ++ rest ∧
    Forall2 (λ e c, entryToCredential ReadFile home e = Ret c) loaded creds ∧
    (∀ p, credential_of v' p =
       match last (filter (λ x, ce_Pattern x.1 = p) (zip loaded creds)) with
       | Some (_, c) => Some c
       | None => credential_of v p
       end) ∧
    match rest with
    | [] => r = Ret tt
    | bad :: _ => ∃ e, entryToCredential ReadFile home bad = Err e ∧
        r = Err (Wrapf "config: credential[%d] (%s): %w" e)
    end.
Proof.
  pose proof (load_entries_result ReadFile home (mc_Credentials mc) v) as H. unfold LoadCredentials in Hload.
  rewrite Hload in H. destruct H as (loaded & creds & rest & Heq & Hall & -> & Hr).
  exists loaded, creds, rest. split_and!; [done|done|apply credential_of_store_all|done].
Qed.

(** The addresses a configuration seeds. Every host keeps its addresses, in
    order. An address without a colon gets the port of its host, or else of the
    node, and splits back at its only colon; an address with one is taken to have
    its port, so a bare IPv6 address stays without. *)
Theorem KnownHosts_ports (h : heap) (mc : MeshConfig) (l : loc) (id : gostring) (host : Host)
  (Hl : mc_Hosts mc = Some l) (Hhost : hosts_at h l !! id = Some host) :
  let port := if 0 <? ho_MeshPort host then ho_MeshPort host else nc_MeshPort (mc_Node mc) in
  ∃ addrs, KnownHosts h mc !! id = Some addrs ∧
    Forall2 (λ addr a,
      if decide (":"%char ∈ addr) then a = addr
      else strings_Split a ":" = [addr; strconv_Itoa port] ∧
        (0 ≤ port ≤ MaxInt64 → strconv_Atoi (strconv_Itoa port) = Ret port))
      (match ho_Addresses host with Some s => strs_at h s | None => [] end) addrs.
Proof.
  cbn zeta. unfold KnownHosts. rewrite Hl, lookup_fmap, Hhost. eexists. split; [done|]. fold (GetMeshPort host (nc_MeshPort (mc_Node mc))).
  set (port := GetMeshPort _ _). induction (match ho_Addresses host with Some s => strs_at h s | None => [] end) as [|addr rest IH];
    [constructor|]. cbn [map]. constructor; [|exact IH]. unfold addr_with_port. case_decide as Hc.
  - by rewrite bool_decide_true.
  - rewrite bool_decide_false by done. cbn [negb]. split; [|apply Atoi_Itoa].
    change (go ":" ++ strconv_Itoa port) with (":"%char :: strconv_Itoa port).
    rewrite strings_Split_app by done. by rewrite strings_Split_no_sep by by apply Itoa_not_in.
Qed.

(** ** Witnesses *)

Definition heap0 : heap :=
  MkHeap {[0%nat := [go "10.0.0.1"; go "10.0.0.2:9"]; 1%nat := [go "n1"]]} {[2%nat := [MkProxyEntry (go "*") (go "http://p")]]}
    {[3%nat := {[go "n1" := MkHost (Some 0%nat) 0 0]}]} {[4%nat := {[go "g" := Some 1%nat]}]} 5.

Definition config0 : MeshConfig :=
  MkMeshConfig (MkNodeConfig (go "gw") 4443 22) (Some 3%nat)
    [MkCredentialEntry (go "*") (go "ssh_password") (go "root") (go "pw") [] [];
     MkCredentialEntry (go "n1") (go "telnet") [] [] [] []] (Some 2%nat) (Some 4%nat).

Lemma Stripped_deep_copy_witness :
  let '(h', s) := @Stripped list_range heap0 config0 in
  view h' s = strip_value (view heap0 config0) ∧
  view (MkHeap (<[5%nat := []]> (hp_strs h')) (hp_proxies h') (hp_hosts h') (hp_groups h') (hp_next h')) config0
  = view heap0 config0.
Proof.
  destruct (@Stripped list_range heap0 config0) as [h' s] eqn:Hs.
  destruct (@Stripped_deep_copy list_range heap0 h' config0 s) as (Hv & _ & Horig & _).
  - split_and!.
    + intros l [= <-]. split; [unfold below; simpl; lia|]. intros k v a Hk Ha.
      change (hosts_at heap0 3) with ({[go "n1" := MkHost (Some 0%nat) 0 0]} : gmap gostring Host) in Hk.
      apply lookup_singleton_Some in Hk as [_ <-]. injection Ha as <-. unfold below. simpl. lia.
    + intros l [= <-]. unfold below. simpl. lia.
    + intros l [= <-]. split; [unfold below; simpl; lia|]. intros k v a Hk Ha.
      change (groups_at heap0 4) with ({[go "g" := Some 1%nat]} : gmap gostring (option loc)) in Hk.
      apply lookup_singleton_Some in Hk as [_ <-]. injection Ha as <-. unfold below. simpl. lia.
  - exact Hs.
  - split; [exact Hv|]. apply Horig. intros l Hl. unfold below in Hl. simpl in Hl.
    unfold strs_at, proxies_at, hosts_at, groups_at. cbn [hp_strs hp_proxies hp_hosts hp_groups].
    rewrite lookup_insert_ne by lia. split_and!; reflexivity.
Defined.

Lemma LoadCredentials_loads_witness :
  let '(v', r) := LoadCredentials (λ _, None) None config0 (MkVault [] [] []) in
  r = Err (Wrapf "config: credential[%d] (%s): %w"
    (Errorf "unknown credential type: %q (expected ssh_key, ssh_password, or tls_cert)")) ∧
  ∃ loaded creds rest, mc_Credentials config0 = loaded ++ rest ∧
    Forall2 (λ e c, entryToCredential (λ _, None) None e = Ret c) loaded creds.
Proof.
  destruct (LoadCredentials (λ _, None) None config0 (MkVault [] [] [])) as [v' r] eqn:Hl.
  destruct (LoadCredentials_loads _ _ _ _ _ _ Hl) as (loaded & creds & rest & H1 & H2 & _).
  split; [vm_compute in Hl; by injection Hl as _ <-|by exists loaded, creds, rest].
Defined.

Lemma KnownHosts_ports_witness :
  KnownHosts heap0 config0 !! go "n1" = Some [go "10.0.0.1:4443"; go "10.0.0.2:9"] ∧
  ∃ addrs, KnownHosts heap0 config0 !! go "n1" = Some addrs ∧ length addrs = 2%nat.
Proof.
  split; [vm_compute; reflexivity|].
  destruct (KnownHosts_ports heap0 config0 3 (go "n1") (MkHost (Some 0%nat) 0 0)) as (addrs & Ha & Hf).
  - reflexivity.
  - vm_compute. reflexivity.
  - exists addrs. split; [exact Ha|]. apply Forall2_length in Hf. by rewrite <-Hf.
Defined.
