(* ===== verification/Overview.v ===== *)
(** * The mesh overview: the snapshot of api/neuron.go and mcp/mesh_overview.go

    A node's view of the topology, and the overview the gateway builds from its
    own view and from what every node answers: the nodes, the edges, the counts,
    and a Mermaid graph. JSON, the formatting of a float, and upper-casing are
    parameters. *)

From Stdlib Require Import Ascii.
From stdpp Require Import base numbers gmap strings sorting list.
From S2P Require Import Prelude GoStrings GoFloat Codec Nucleus Gradient CapIndex Resolver Node.
From S2P Require Tools.

Open Scope Z_scope.

(** ** The snapshot of a node *)

Record NodeSummary := MkNodeSummary {
  ns_NodeID : gostring;
  ns_Impedance : float64;
  ns_NextHop : gostring;
  ns_Capabilities : list gostring;
  ns_IsDirect : bool
}.

Record TopologySnapshot := MkTopologySnapshot {
  ts_NodeID : gostring;
  ts_DirectPeers : Z;
  ts_KnownNodes : Z;
  ts_ResolverEntries : Z;
  ts_NodeDetails : list NodeSummary
}.

Definition node_summary (capSnap : gmap gostring (list gostring)) (directSet : gset gostring)
    (e : gostring * PathCost) : NodeSummary :=
  MkNodeSummary e.1 (pc_TotalCost e.2) (pc_NextHop e.2) (default [] (capSnap !! e.1)) (bool_decide (e.1 ∈ directSet)).

Definition MeshTopology `{GoRange} (now : Z) (n : Node) : TopologySnapshot :=
  let routes := GradientTable_AllRoutes (n_gradient n) in
  let capSnap := CapabilityIndex_Snapshot (n_capIndex n) in
  let directPeers := peerManager_All (n_peers n) in
  let directSet := list_to_set (omap (λ i, pc_nodeID <$> n_conns n !! i) directPeers) in
  MkTopologySnapshot (Manifest_NodeID (n_manifest n)) (Z.of_nat (length directPeers)) (Z.of_nat (size routes))
    (Z.of_nat (length (Resolver_AllEntries now (n_resolver n))))
    (map (node_summary capSnap directSet) (range_map routes)).

(** ** Data of the overview *)

Record NodeOverview := MkNodeOverview {
  no_NodeID : gostring;
  no_Hostname : gostring;
  no_Roles : list gostring;
  no_OS : gostring;
  no_Arch : gostring;
  no_CPUs : Z;
  no_Kernel : gostring;
  no_Distro : gostring;
  no_Impedance : float64;
  no_IsDirect : bool;
  no_NextHop : gostring;
  no_PeerCount : Z;
  no_Tools : list gostring;
  no_ProtocolVersion : Z;
  no_ApplicationVersion : gostring;
  no_Status : gostring;
  no_Error : gostring
}.

Record MeshEdge := MkMeshEdge { me_From : gostring; me_To : gostring; me_Impedance : float64 }.

#[export] Instance mesh_edge_eq_dec : EqDecision MeshEdge.
Proof. solve_decision. Defined.

Record MeshOverview := MkMeshOverview {
  mo_GatewayNodeID : gostring;
  mo_TotalNodes : Z;
  mo_DirectPeers : Z;
  mo_RoleCounts : gmap gostring Z;
  mo_VersionCounts : gmap gostring Z;
  mo_Nodes : list NodeOverview;
  mo_Edges : list MeshEdge;
  mo_MermaidGraph : gostring
}.

(** What the JSON of a result decodes to. *)
Record fanResult := MkFanResult { fr_NodeID : gostring; fr_Content : bytes; fr_IsError : bool }.

Record sysInfo := MkSysInfo {
  si_Hostname : gostring;
  si_OS : gostring;
  si_Arch : gostring;
  si_CPUs : Z;
  si_Kernel : gostring;
  si_Distro : gostring;
  si_Roles : list gostring;
  si_ProtocolVersion : Z;
  si_ApplicationVersion : gostring
}.

Record topoDetail := MkTopoDetail { td_NodeID : gostring; td_Impedance : float64; td_IsDirect : bool }.

(** The encodings. A decoding that fails is [inr] with the error's text. *)
Class OverviewCodec := {
  marshal_fanout : gostring → bytes;
  decode_fanout : bytes → option (list fanResult);
  decode_sysinfo : bytes → sysInfo + gostring;
  decode_topo : bytes → option (list topoDetail);
  decode_direct_peers : bytes → Z;
  fmt_2f : float64 → gostring;
  strings_ToUpper : gostring → gostring
}.

(** ** Building blocks *)

Section overview.
Context `{OverviewCodec}.

Definition parseSysInfoResult (nodeID : gostring) (content : bytes) : NodeOverview :=
  let generic := [go "generic"] in
  match decode_sysinfo content with
  | inr err =>
      MkNodeOverview nodeID [] generic [] [] 0 [] [] (S754_zero false) false [] 0 [] 0 [] (go "unreachable") err
  | inl d =>
      MkNodeOverview nodeID (si_Hostname d)
        (if decide (0 < length (si_Roles d))%nat then si_Roles d else generic)
        (si_OS d) (si_Arch d) (si_CPUs d) (si_Kernel d) (si_Distro d) (S754_zero false) false [] 0 []
        (si_ProtocolVersion d) (si_ApplicationVersion d) (go "ok") []
  end.

Definition extractTools (capabilities : list gostring) : list gostring :=
  map (drop 5) (filter (λ c, strings_HasPrefix c (go "tool:") = true) capabilities).

(** The gateway's view of the node. *)
Definition enrich (gwView : gmap gostring NodeSummary) (no : NodeOverview) : NodeOverview :=
  match gwView !! no_NodeID no with
  | None => no
  | Some gv =>
      MkNodeOverview (no_NodeID no) (no_Hostname no) (no_Roles no) (no_OS no) (no_Arch no) (no_CPUs no)
        (no_Kernel no) (no_Distro no) (ns_Impedance gv) (ns_IsDirect gv) (ns_NextHop gv) (no_PeerCount no)
        (extractTools (ns_Capabilities gv)) (no_ProtocolVersion no) (no_ApplicationVersion no) (no_Status no) (no_Error no)
  end.

Definition set_PeerCount (no : NodeOverview) (c : Z) : NodeOverview :=
  MkNodeOverview (no_NodeID no) (no_Hostname no) (no_Roles no) (no_OS no) (no_Arch no) (no_CPUs no)
    (no_Kernel no) (no_Distro no) (no_Impedance no) (no_IsDirect no) (no_NextHop no) c (no_Tools no)
    (no_ProtocolVersion no) (no_ApplicationVersion no) (no_Status no) (no_Error no).

(** [counts[k]++]; a count of things in memory does not overflow. *)
Definition count (m : gmap gostring Z) (k : gostring) : gmap gostring Z :=
  <[k := default 0 (m !! k) + 1]> m.

Abbreviation edge_set := (gmap (gostring * gostring) MeshEdge).

(** The endpoints of an edge in order. *)
Definition edge_key (a b : gostring) : gostring * gostring := if str_ltb b a then (b, a) else (a, b).

Definition addEdge (edgeSet : edge_set) (a b : gostring) (impedance : float64) : edge_set :=
  let key := edge_key a b in
  match edgeSet !! key with
  | None => <[key := MkMeshEdge key.1 key.2 impedance]> edgeSet
  | Some _ => edgeSet
  end.

Definition parseTopoEdges (edgeSet : edge_set) (reporterID : gostring) (content : bytes) : edge_set :=
  match decode_topo content with
  | None => edgeSet
  | Some details =>
      foldl (λ es nd, if td_IsDirect nd : bool then addEdge es reporterID (td_NodeID nd) (td_Impedance nd) else es)
        edgeSet details
  end.

(** *** The Mermaid graph *)

Definition sanitizeMermaidID (id : gostring) : gostring :=
  map (λ c, if decide (c ∈ ["-"; "."; " "]%char) then "_"%char else c) id.

Definition primaryRole (roles : list gostring) : gostring :=
  match filter (λ p, p ∈ roles) (map go ["sfa"; "mgs"; "mds"; "oss"; "client"]%string) with
  | p :: _ => p
  | [] => go "generic"
  end.

Definition nl : gostring := [ascii_of_N 10].
Definition quote : gostring := [ascii_of_N 34].

Definition classDefs : gostring :=
  concat (map (λ l, go l ++ nl)
    ["    classDef gateway fill:#f39c12,color:white"; "    classDef mgs fill:#e74c3c,color:white";
     "    classDef mds fill:#3498db,color:white"; "    classDef oss fill:#2ecc71,color:white";
     "    classDef sfa fill:#9b59b6,color:white"; "    classDef client fill:#95a5a6,color:white";
     "    classDef generic fill:#bdc3c7"; ""]%string).

Definition renderNode (node : NodeOverview) : gostring :=
  go "    " ++ sanitizeMermaidID (no_NodeID node) ++ go "[" ++ quote ++ no_NodeID node ++ go "<br/>" ++
  strings_ToUpper (strings_Join (no_Roles node) (go "+")) ++ quote ++ go "]:::" ++ primaryRole (no_Roles node) ++ nl.

Definition renderEdge (edge : MeshEdge) : gostring :=
  go "    " ++ sanitizeMermaidID (me_From edge) ++ go " ---|" ++ fmt_2f (me_Impedance edge) ++ go "| " ++
  sanitizeMermaidID (me_To edge) ++ nl.

Definition renderMermaid (gatewayNodeID : gostring) (nodes : list NodeOverview) (edges : list MeshEdge) : gostring :=
  if bool_decide (nodes = []) && bool_decide (edges = [])
  then go "graph TD" ++ nl ++ go "    empty[" ++ quote ++ go "No nodes in mesh" ++ quote ++ go "]"
  else
    go "graph TD" ++ nl ++ classDefs ++
    go "    " ++ sanitizeMermaidID gatewayNodeID ++ go "[" ++ quote ++ gatewayNodeID ++ go "<br/>MCP Gateway" ++ quote ++
    go "]:::gateway" ++ nl ++
    concat (map renderNode nodes) ++ nl ++ concat (map renderEdge edges).

(** ** The handler *)

(** [Dispatch] of a meta-tool; [None] is an error. *)
Context (Dispatch : gostring → bytes → option Tools.ToolResult).
Context `{GoRange} `{GoSort}.
(** Ranging over the set of edges. *)
Context (range_edges : edge_set → list MeshEdge)
  (range_edges_perm : ∀ m, range_edges m ≡ₚ map snd (map_to_list m)).

(** [byNode]; [None] is the nil map of a failed fan-out, which ranges like an empty one. *)
Definition fanOutTool (toolName : gostring) : gmap gostring bytes :=
  match Dispatch (go "call_tool") (marshal_fanout toolName) with
  | Some result =>
      match decode_fanout (Tools.tr_Content result) with
      | None => ∅
      | Some rs =>
          foldl (λ m r, if negb (fr_IsError r) && bool_decide (0 < length (fr_Content r))%nat
                        then <[fr_NodeID r := fr_Content r]> m else m) ∅ rs
      end
  | None => ∅
  end.

Definition node_less (a b : NodeOverview) : bool := str_ltb (no_NodeID a) (no_NodeID b).

Definition edge_less (a b : MeshEdge) : bool :=
  if bool_decide (me_From a ≠ me_From b) then str_ltb (me_From a) (me_From b) else str_ltb (me_To a) (me_To b).

(** The loop over the answers to get_system_info: the nodes and both counts. *)
Definition add_node (gwView : gmap gostring NodeSummary)
    (acc : gmap gostring NodeOverview * gmap gostring Z * gmap gostring Z) (e : gostring * bytes)
    : gmap gostring NodeOverview * gmap gostring Z * gmap gostring Z :=
  let '(nodeMap, roleCounts, versionCounts) := acc in
  let no := enrich gwView (parseSysInfoResult e.1 e.2) in
  (<[e.1 := no]> nodeMap, foldl count roleCounts (no_Roles no),
   if bool_decide (no_ApplicationVersion no ≠ []) then count versionCounts (no_ApplicationVersion no) else versionCounts).

(** The gateway's own edges. *)
Definition gateway_edges (gwTopo : TopologySnapshot) : edge_set :=
  foldl (λ es ns, if ns_IsDirect ns : bool then addEdge es (ts_NodeID gwTopo) (ns_NodeID ns) (ns_Impedance ns) else es)
    ∅ (ts_NodeDetails gwTopo).

Definition add_peer_count (nodeMap : gmap gostring NodeOverview) (e : gostring * bytes) : gmap gostring NodeOverview :=
  match nodeMap !! e.1 with
  | Some no => <[e.1 := set_PeerCount no (decode_direct_peers e.2)]> nodeMap
  | None => nodeMap
  end.

(** [Execute]; the time stamp is left out. *)
Definition Execute (gwTopo : TopologySnapshot) : MeshOverview :=
  let gwView := foldl (λ m ns, <[ns_NodeID ns := ns]> m) ∅ (ts_NodeDetails gwTopo) in
  let sysInfoByNode := fanOutTool (go "get_system_info") in
  let topoByNode := fanOutTool (go "get_mesh_topology") in
  let '(nodeMap, roleCounts, versionCounts) := foldl (add_node gwView) (∅, ∅, ∅) (range_map sysInfoByNode) in
  let edgeSet := foldl (λ es e, parseTopoEdges es e.1 e.2) (gateway_edges gwTopo) (range_map topoByNode) in
  let nodeMap := foldl add_peer_count nodeMap (range_map topoByNode) in
  let nodes := sort_slice node_less (map snd (range_map nodeMap)) in
  let edges := sort_slice edge_less (range_edges edgeSet) in
  MkMeshOverview (ts_NodeID gwTopo) (Z.of_nat (size nodeMap)) (ts_DirectPeers gwTopo) roleCounts versionCounts
    nodes edges (renderMermaid (ts_NodeID gwTopo) nodes edges).

(** ** Lemmas: edges *)

(** Adding reported edges [(a, b, impedance)] in turn. *)
Definition add_reports (es : edge_set) (l : list (gostring * gostring * float64)) : edge_set :=
  foldl (λ es t, addEdge es t.1.1 t.1.2 t.2) es l.

Definition gateway_reports (gwTopo : TopologySnapshot) : list (gostring * gostring * float64) :=
  map (λ ns, (ts_NodeID gwTopo, ns_NodeID ns, ns_Impedance ns)) (filter (λ ns, ns_IsDirect ns = true) (ts_NodeDetails gwTopo)).

Definition node_reports (e : gostring * bytes) : list (gostring * gostring * float64) :=
  map (λ nd, (e.1, td_NodeID nd, td_Impedance nd)) (filter (λ nd, td_IsDirect nd = true) (default [] (decode_topo e.2))).

Lemma foldl_filter_map {A B C} (f : A → C → A) (g : B → C) (p : B → bool) (l : list B) (a : A) :
  foldl (λ a x, if p x then f a (g x) else a) a l = foldl f a (map g (filter (λ x, p x = true) l)).
Proof.
  revert a. induction l as [|x l IH]; intros a; [done|]. rewrite filter_cons. simpl.
  destruct (p x) eqn:Hp; [rewrite decide_True by done|rewrite decide_False by done]; simpl; apply IH.
Qed.

Lemma gateway_edges_reports gwTopo : gateway_edges gwTopo = add_reports ∅ (gateway_reports gwTopo).
Proof.
  unfold gateway_edges, add_reports, gateway_reports.
  exact (foldl_filter_map (λ es t, addEdge es t.1.1 t.1.2 t.2)
    (λ ns, (ts_NodeID gwTopo, ns_NodeID ns, ns_Impedance ns)) ns_IsDirect _ _).
Qed.

Lemma parseTopoEdges_reports es r c : parseTopoEdges es r c = add_reports es (node_reports (r, c)).
Proof.
  unfold parseTopoEdges, node_reports, add_reports. cbn [fst snd]. destruct (decode_topo c) as [ds|]; [|done].
  exact (foldl_filter_map (λ es t, addEdge es t.1.1 t.1.2 t.2) (λ nd, (r, td_NodeID nd, td_Impedance nd)) td_IsDirect _ _).
Qed.

Lemma fold_reports es l : foldl (λ es e, parseTopoEdges es e.1 e.2) es l = add_reports es (l ≫= node_reports).
Proof.
  revert es. induction l as [|[r c] l IH]; intros es; [done|]. cbn [foldl fst snd mbind list_bind].
  rewrite IH, parseTopoEdges_reports. unfold add_reports. by rewrite foldl_app.
Qed.

(** The first report of a pair of nodes gives the edge. *)
Lemma add_reports_lookup es l k :
  add_reports es l !! k =
  match es !! k with
  | Some e => Some e
  | None => (λ t, MkMeshEdge k.1 k.2 t.2) <$> head (filter (λ t, edge_key t.1.1 t.1.2 = k) l)
  end.
Proof.
  revert es. unfold add_reports. induction l as [|[[a b] i] l IH]; intros es; [simpl; by destruct (es !! k)|].
  cbn [foldl fst snd]. rewrite IH, filter_cons. cbn [fst snd]. unfold addEdge.
  destruct (decide (edge_key a b = k)) as [<-|Hk].
  - destruct (es !! edge_key a b) eqn:He; [by rewrite He|]. by rewrite lookup_insert_eq.
  - destruct (es !! edge_key a b) eqn:He; [done|]. by rewrite lookup_insert_ne.
Qed.

Lemma edge_key_le a b : str_le (edge_key a b).1 (edge_key a b).2.
Proof.
  unfold edge_key. destruct (str_ltb b a) eqn:E1; simpl; [by destruct (proj1 (str_ltb_le _ _) E1)|].
  unfold str_ltb in E1. by apply negb_false_iff in E1.
Qed.

Lemma edge_key_sym a b : edge_key a b = edge_key b a.
Proof.
  unfold edge_key. destruct (str_ltb b a) eqn:E1, (str_ltb a b) eqn:E2; try done.
  - apply str_ltb_le in E1 as [L1 Hne]. apply str_ltb_le in E2 as [L2 _]. destruct Hne. by apply (anti_symm str_le).
  - unfold str_ltb in *. apply negb_false_iff in E1, E2. f_equal; by apply (anti_symm str_le).
Qed.

Lemma edge_key_inj g a b : edge_key g a = edge_key g b → a = b.
Proof. unfold edge_key. repeat case_match; congruence. Qed.

(** ** Lemmas: nodes *)

Lemma count_fold m l r :
  default 0 (foldl count m l !! r) = default 0 (m !! r) + Z.of_nat (length (filter (λ x, x = r) l)).
Proof.
  revert m. induction l as [|x l IH]; intros m; simpl; [lia|]. rewrite IH, filter_cons. unfold count.
  destruct (decide (x = r)) as [->|Hx]; [rewrite lookup_insert_eq|rewrite lookup_insert_ne by done]; simpl; lia.
Qed.

Definition base (gwView : gmap gostring NodeSummary) (e : gostring * bytes) : NodeOverview :=
  enrich gwView (parseSysInfoResult e.1 e.2).

Definition versions (no : NodeOverview) : list gostring :=
  if bool_decide (no_ApplicationVersion no ≠ []) then [no_ApplicationVersion no] else [].

Lemma base_NodeID gwView e : no_NodeID (base gwView e) = e.1.
Proof. unfold base, enrich, parseSysInfoResult. by repeat case_match. Qed.

Lemma add_node_fold gwView l nm rc vc :
  foldl (add_node gwView) (nm, rc, vc) l =
  (foldl (λ m e, <[e.1 := base gwView e]> m) nm l, foldl count rc (l ≫= λ e, no_Roles (base gwView e)),
   foldl count vc (l ≫= λ e, versions (base gwView e))).
Proof.
  revert nm rc vc. induction l as [|e l IH]; intros nm rc vc; [done|]. cbn [foldl mbind list_bind].
  rewrite !foldl_app. unfold add_node at 2. fold (base gwView e). rewrite IH. do 2 f_equal.
  unfold versions. by case_bool_decide.
Qed.

(** What a peer count leaves alone. *)
Definition signature (no : NodeOverview) : gostring * list gostring * gostring :=
  (no_NodeID no, no_Roles no, no_ApplicationVersion no).

Lemma add_peer_count_signature nm l : signature <$> foldl add_peer_count nm l = signature <$> nm.
Proof.
  revert nm. induction l as [|e l IH]; intros nm; [done|]. cbn [foldl]. rewrite IH. unfold add_peer_count.
  destruct (nm !! e.1) as [no|] eqn:Hno; [|done]. rewrite fmap_insert. apply insert_id. by rewrite lookup_fmap, Hno.
Qed.

(** The signatures of the final nodes, in any order. *)
Lemma node_signatures (gwView : gmap gostring NodeSummary) (sys : gmap gostring bytes) (topo : list (gostring * bytes)) :
  let nm := foldl add_peer_count (foldl (λ (m : gmap gostring NodeOverview) e, <[e.1 := base gwView e]> m) ∅ (range_map sys)) topo in
  map signature (map snd (range_map nm)) ≡ₚ map (λ e, signature (base gwView e)) (range_map sys).
Proof.
  cbn zeta. set (nm0 := foldl (λ (m : gmap gostring NodeOverview) e, <[e.1 := base gwView e]> m) ∅ (range_map sys)).
  assert (NoDup (map fst (range_map sys))) as Hnd by (rewrite range_map_perm; apply NoDup_fst_map_to_list).
  assert (∀ l (m : gmap gostring NodeOverview) k, NoDup (map fst l) → foldl (λ m e, <[e.1 := base gwView e]> m) m l !! k =
    match list_to_map (M := gmap gostring bytes) l !! k with Some c => Some (base gwView (k, c)) | None => m !! k end) as Hlook.
  { induction l as [|[k0 c0] l IH]; intros m k Hl; simpl; [done|]. apply NoDup_cons in Hl as [Hk0 Hl].
    rewrite IH by done. destruct (decide (k = k0)) as [->|].
    - rewrite lookup_insert_eq. rewrite not_elem_of_list_to_map_1 by done. by rewrite lookup_insert_eq.
    - by rewrite !lookup_insert_ne. }
  assert (∀ nm : gmap gostring NodeOverview,
    map snd (map_to_list (signature <$> nm)) ≡ₚ map signature (map snd (map_to_list nm))) as Hsig.
  { intros nm. rewrite map_to_list_fmap. change (prod_map id signature <$> map_to_list nm) with
      (map (prod_map id signature) (map_to_list nm)). by rewrite !map_map. }
  rewrite range_map_perm, <-Hsig, add_peer_count_signature, Hsig.
  transitivity (map signature (map (base gwView) (range_map sys))); [|by rewrite map_map].
  f_equiv.
  assert (nm0 = list_to_map (map (λ e, (e.1, base gwView e)) (range_map sys))) as ->.
  { apply map_eq. intros k. unfold nm0. rewrite Hlook by done. rewrite lookup_empty.
      destruct (list_to_map (range_map sys) !! k) as [c|] eqn:Hc.
      - symmetry. apply elem_of_list_to_map; [by rewrite map_map|]. apply elem_of_list_to_map in Hc; [|done].
        apply list_elem_of_fmap. by exists (k, c).
      - symmetry. apply not_elem_of_list_to_map_1. rewrite <-list_fmap_compose.
        by apply not_elem_of_list_to_map_2 in Hc. }
    rewrite map_to_list_to_map by (by rewrite map_map). by rewrite map_map.
Qed.

(** ** Lemmas: the result *)

(** Node [a] (or the gateway) reports [b] as a direct peer at this cost. *)
Definition reported (gwTopo : TopologySnapshot) (topo : gmap gostring bytes) (a b : gostring) (i : float64) : Prop :=
  (a = ts_NodeID gwTopo ∧ ∃ ns, ns ∈ ts_NodeDetails gwTopo ∧ ns_IsDirect ns = true ∧ b = ns_NodeID ns ∧ i = ns_Impedance ns) ∨
  ∃ c ds nd, topo !! a = Some c ∧ decode_topo c = Some ds ∧ nd ∈ ds ∧ td_IsDirect nd = true ∧
    b = td_NodeID nd ∧ i = td_Impedance nd.

Lemma reported_reports gwTopo topo a b i :
  (a, b, i) ∈ gateway_reports gwTopo ++ (range_map topo ≫= node_reports) ↔ reported gwTopo topo a b i.
Proof.
  unfold gateway_reports, reported. rewrite elem_of_app. f_equiv.
  - rewrite list_elem_of_fmap. setoid_rewrite list_elem_of_filter. split.
    + intros (ns & [= -> -> ->] & Hd & Hin). eauto 10.
    + intros [-> (ns & Hin & Hd & -> & ->)]. eauto.
  - rewrite list_elem_of_bind. unfold node_reports. split.
    + intros ([r c] & (nd & [= -> -> ->] & [Hd Hin]%list_elem_of_filter)%list_elem_of_fmap & Hr).
      rewrite range_map_perm, elem_of_map_to_list in Hr. simpl in Hin.
      destruct (decode_topo c) as [ds|] eqn:Hds; [|by apply elem_of_nil in Hin]. eauto 10.
    + intros (c & ds & nd & Hr & Hds & Hin & Hd & -> & ->). exists (a, c). split.
      * apply list_elem_of_fmap. exists nd. split; [done|]. apply list_elem_of_filter. simpl. by rewrite Hds.
      * by rewrite range_map_perm, elem_of_map_to_list.
Qed.

Lemma Execute_edges gwTopo :
  let topo := fanOutTool (go "get_mesh_topology") in
  mo_Edges (Execute gwTopo) = sort_slice edge_less
    (range_edges (add_reports ∅ (gateway_reports gwTopo ++ (range_map topo ≫= node_reports)))).
Proof.
  cbn zeta. unfold Execute. rewrite add_node_fold. cbn [mo_Edges].
  rewrite gateway_edges_reports, fold_reports. unfold add_reports. by rewrite foldl_app.
Qed.

(** The edges are the entries of the set, which are keyed by their ends. *)
Lemma elem_of_range_edges l e :
  e ∈ range_edges (add_reports ∅ l) ↔ add_reports ∅ l !! (me_From e, me_To e) = Some e.
Proof.
  rewrite range_edges_perm, list_elem_of_fmap. split.
  - intros ([k e'] & Heq & Hk%elem_of_map_to_list). simpl in Heq. subst e'. pose proof Hk as Hk'.
    rewrite add_reports_lookup, lookup_empty in Hk. apply fmap_Some in Hk as (t & _ & ->). simpl. by destruct k.
  - intros He. exists ((me_From e, me_To e), e). split; [done|]. by apply elem_of_map_to_list.
Qed.

Lemma NoDup_range_edges l : NoDup (range_edges (add_reports ∅ l)).
Proof.
  rewrite range_edges_perm. apply NoDup_fmap_2_strong; [|apply NoDup_map_to_list].
  intros [k e] [k' e'] Hk%elem_of_map_to_list Hk'%elem_of_map_to_list Heq. simpl in Heq. subst e'.
  f_equal. rewrite add_reports_lookup, lookup_empty in Hk, Hk'.
  apply fmap_Some in Hk as (t & _ & ->). apply fmap_Some in Hk' as (t' & _ & He). injection He as E1 E2 _.
  destruct k, k'; simpl in *; congruence.
Qed.

Lemma elem_of_edges gwTopo e :
  let topo := fanOutTool (go "get_mesh_topology") in
  e ∈ mo_Edges (Execute gwTopo) ↔
  ∃ t, head (filter (λ t, edge_key t.1.1 t.1.2 = (me_From e, me_To e))
    (gateway_reports gwTopo ++ (range_map topo ≫= node_reports))) = Some t ∧ t.2 = me_Impedance e.
Proof.
  cbn zeta. rewrite Execute_edges, sort_slice_perm, elem_of_range_edges, add_reports_lookup, lookup_empty, fmap_Some.
  destruct e as [f t i]. simpl. split; intros (r & Hr & He); exists r; (split; [exact Hr|]); congruence.
Qed.

Lemma edge_less_spec a b :
  edge_less a b = true ↔
  str_ltb (me_From a) (me_From b) = true ∨ (me_From a = me_From b ∧ str_ltb (me_To a) (me_To b) = true).
Proof.
  unfold edge_less. case_bool_decide as Hne; [naive_solver|]. rewrite Hne.
  split; [naive_solver|]. intros [Hlt|[_ Hlt]]; [|done].
  by apply str_ltb_le in Hlt as [_ ?].
Qed.

Lemma edge_less_strict : StrictOrder (λ a b, edge_less a b = true).
Proof.
  destruct str_ltb_strict as [Hirr Htr]. split.
  - intros e [He|[_ He]]%edge_less_spec; by apply Hirr in He.
  - intros a b c. rewrite !edge_less_spec. intros [Hab|[Hf Hab]] [Hbc|[Hf' Hbc]].
    + left. by eapply Htr. + left. congruence. + left. congruence.
    + right. split; [congruence|by eapply Htr].
Qed.

Lemma node_less_strict : StrictOrder (λ a b, node_less a b = true).
Proof. destruct str_ltb_strict as [Hirr Htr]. unfold node_less. split; [intros a; apply Hirr|intros a b c; apply Htr]. Qed.

Lemma bind_map {A B C} (g : A → B) (f : B → list C) (l : list A) : map g l ≫= f = l ≫= λ x, f (g x).
Proof. exact (list_fmap_bind g f l). Qed.

(** ** Properties *)

(** The nodes of the overview. They are exactly the nodes that answered
    get_system_info without an error, once each, sorted by name, and TotalNodes
    counts them; RoleCounts and VersionCounts count, over these nodes, every role
    and every known version. *)
Theorem overview_nodes (gwTopo : TopologySnapshot) :
  let o := Execute gwTopo in
  StronglySorted (λ a b, node_less a b = true) (mo_Nodes o) ∧
  (∀ id, id ∈ map no_NodeID (mo_Nodes o) ↔ is_Some (fanOutTool (go "get_system_info") !! id)) ∧
  mo_TotalNodes o = Z.of_nat (length (mo_Nodes o)) ∧
  (∀ r, default 0 (mo_RoleCounts o !! r) = Z.of_nat (length (filter (λ x, x = r) (mo_Nodes o ≫= no_Roles)))) ∧
  (∀ v, default 0 (mo_VersionCounts o !! v) = Z.of_nat (length (filter (λ x, x = v) (mo_Nodes o ≫= versions)))).
Proof.
  cbn zeta. unfold Execute. rewrite add_node_fold. cbn [mo_Nodes mo_TotalNodes mo_RoleCounts mo_VersionCounts].
  set (sys := fanOutTool (go "get_system_info")).
  set (gwView := foldl (λ m ns, <[ns_NodeID ns := ns]> m) ∅ (ts_NodeDetails gwTopo)).
  pose proof (node_signatures gwView sys (range_map (fanOutTool (go "get_mesh_topology")))) as Hsig. cbn zeta in Hsig.
  set (nm := foldl add_peer_count _ _) in *.
  assert (map signature (sort_slice node_less (map snd (range_map nm))) ≡ₚ map (λ e, signature (base gwView e)) (range_map sys)) as Hs
    by by rewrite sort_slice_perm.
  set (nodes := sort_slice node_less (map snd (range_map nm))) in *.
  assert (map no_NodeID nodes ≡ₚ map fst (range_map sys)) as Hids.
  { apply (Permutation_map (λ s, s.1.1)) in Hs. rewrite !map_map in Hs. etrans; [exact Hs|].
    apply reflexive_eq, map_ext. intros e. apply base_NodeID. }
  assert (NoDup (map no_NodeID nodes)) as Hnd by (rewrite Hids, range_map_perm; apply NoDup_fst_map_to_list).
  assert (∀ (f : gostring * list gostring * gostring → list gostring) r,
    length (filter (λ x, x = r) (range_map sys ≫= λ e, f (signature (base gwView e)))) =
    length (filter (λ x, x = r) (nodes ≫= λ no, f (signature no)))) as Hcount.
  { intros f r. apply Permutation_length. f_equiv. symmetry. apply (bind_Permutation f) in Hs.
    by rewrite !bind_map in Hs. }
  split_and!.
  - apply sort_slice_strict; [|apply node_less_strict|].
    + apply (NoDup_fmap_1 no_NodeID). by unfold nodes in Hnd; rewrite sort_slice_perm in Hnd.
    + intros a b Ha Hb. unfold node_less. destruct (str_ltb_total (no_NodeID a) (no_NodeID b)) as [?|[?|?]]; auto.
      right. left. unfold nodes in Hnd. rewrite sort_slice_perm in Hnd. by eapply NoDup_key_inj.
  - intros id. rewrite Hids, range_map_perm, list_elem_of_fmap. split.
    + intros ([k c] & -> & Hc%elem_of_map_to_list). by exists c.
    + intros [c Hc]. exists (id, c). split; [done|]. by apply elem_of_map_to_list.
  - unfold nodes. rewrite sort_slice_perm, length_map, range_map_perm, length_map_to_list. done.
  - intros r. rewrite count_fold, lookup_empty. simpl. by rewrite (Hcount (λ s, s.1.2)).
  - intros v. rewrite count_fold, lookup_empty. etrans; [apply Z.add_0_l|]. apply (f_equal Z.of_nat).
    exact (Hcount (λ s, if bool_decide (s.2 ≠ []) then [s.2] else []) v).
Qed.

(** C24: The edges of the overview. They are sorted, each pair of nodes once, with its
    ends in order. Every edge carries a cost one of its ends reports for the other
    as a direct peer, and every such report has its edge; what the gateway itself
    reports takes precedence, if its snapshot lists every node once. *)
Theorem overview_edges (gwTopo : TopologySnapshot) :
  let edges := mo_Edges (Execute gwTopo) in
  let topo := fanOutTool (go "get_mesh_topology") in
  StronglySorted (λ a b, edge_less a b = true) edges ∧
  (∀ e, e ∈ edges → str_le (me_From e) (me_To e) ∧
     ∃ a b, edge_key a b = (me_From e, me_To e) ∧ reported gwTopo topo a b (me_Impedance e)) ∧
  (∀ a b i, reported gwTopo topo a b i → ∃ e, e ∈ edges ∧ (me_From e, me_To e) = edge_key a b) ∧
  (NoDup (map ns_NodeID (ts_NodeDetails gwTopo)) → ∀ ns, ns ∈ ts_NodeDetails gwTopo → ns_IsDirect ns = true →
     let k := edge_key (ts_NodeID gwTopo) (ns_NodeID ns) in MkMeshEdge k.1 k.2 (ns_Impedance ns) ∈ edges).
Proof.
  cbn zeta. set (topo := fanOutTool (go "get_mesh_topology")).
  assert (∀ k t l, head (filter (λ t : gostring * gostring * float64, edge_key t.1.1 t.1.2 = k) l) = Some t →
    edge_key t.1.1 t.1.2 = k ∧ t ∈ l) as Hhead.
  { intros k t l Ht. apply head_Some_elem_of in Ht. by apply list_elem_of_filter in Ht. }
  split_and!.
  - rewrite Execute_edges. apply sort_slice_strict; [apply NoDup_range_edges|apply edge_less_strict|].
    intros a b Ha%elem_of_range_edges Hb%elem_of_range_edges. rewrite !edge_less_spec.
    destruct (str_ltb_total (me_From a) (me_From b)) as [?|[Hf|?]]; [auto| |auto].
    destruct (str_ltb_total (me_To a) (me_To b)) as [?|[Ht|?]]; [auto| |auto].
    right. left. rewrite Hf, Ht, Hb in Ha. congruence.
  - intros e (t & Ht & Hi)%elem_of_edges. apply Hhead in Ht as [Hk Hin]. split.
    { pose proof (edge_key_le t.1.1 t.1.2) as Hle. by rewrite Hk in Hle. }
    exists t.1.1, t.1.2. split; [done|]. rewrite <-Hi. apply reported_reports. by destruct t as [[]].
  - intros a b i Hr%reported_reports. setoid_rewrite elem_of_edges.
    destruct (head (filter (λ t : gostring * gostring * float64, edge_key t.1.1 t.1.2 = edge_key a b)
      (gateway_reports gwTopo ++ (range_map topo ≫= node_reports)))) as [t|] eqn:Hh.
    + exists (MkMeshEdge (edge_key a b).1 (edge_key a b).2 t.2). simpl. rewrite <-surjective_pairing. eauto.
    + apply head_None in Hh. exfalso. apply (not_elem_of_nil (a, b, i)). rewrite <-Hh. by apply list_elem_of_filter.
  - intros Hnd ns Hns Hd. apply elem_of_edges. simpl. rewrite <-surjective_pairing, filter_app.
    assert ((ts_NodeID gwTopo, ns_NodeID ns, ns_Impedance ns) ∈ filter (λ t : gostring * gostring * float64,
      edge_key t.1.1 t.1.2 = edge_key (ts_NodeID gwTopo) (ns_NodeID ns)) (gateway_reports gwTopo)) as Hin.
    { apply list_elem_of_filter. split; [done|]. apply list_elem_of_fmap. exists ns. split; [done|].
      by apply list_elem_of_filter. }
    destruct (filter _ (gateway_reports gwTopo)) as [|t l] eqn:Hf; [by apply elem_of_nil in Hin|].
    exists t. split; [done|]. assert (t ∈ t :: l) as Ht by left. rewrite <-Hf in Ht.
    apply list_elem_of_filter in Ht as [Hk (ns' & -> & [_ Hns']%list_elem_of_filter)%list_elem_of_fmap]. simpl in *.
    apply edge_key_inj in Hk. by rewrite (NoDup_key_inj ns_NodeID _ ns' ns Hnd Hns' Hns Hk).
Qed.

End overview.

(** A node's own snapshot lists every node once. *)
Lemma MeshTopology_NoDup `{GoRange} now n : NoDup (map ns_NodeID (ts_NodeDetails (MeshTopology now n))).
Proof. unfold MeshTopology. cbn [ts_NodeDetails]. rewrite map_map. apply NoDup_fst_range. Qed.

(** ** Witnesses *)

#[local] Existing Instance list_range.
#[local] Existing Instance insertion_GoSort.

#[local] Instance codec0 : OverviewCodec := {
  marshal_fanout t := t;
  decode_fanout b := Some [MkFanResult (go "b") (go "x") false; MkFanResult (go "a") (go "y") false;
                           MkFanResult (go "c") (go "z") true];
  decode_sysinfo b := if decide (b = go "x") then inr (go "bad")
                      else inl (MkSysInfo b [] [] 4 [] [] [go "oss"; go "mds"] 1 (go "v1"));
  decode_topo b := Some [MkTopoDetail (go "gw") (f64_of_Z 9) true; MkTopoDetail (go "a") (f64_of_Z 2) false];
  decode_direct_peers b := 1;
  fmt_2f x := go "1.00";
  strings_ToUpper s := s
}.

Definition topo0 : TopologySnapshot :=
  MkTopologySnapshot (go "gw") 1 2 0
    [MkNodeSummary (go "a") (f64_of_Z 3) (go "a") [go "tool:echo"] true;
     MkNodeSummary (go "b") (f64_of_Z 5) (go "a") [] false].

Definition dispatch0 : gostring → bytes → option Tools.ToolResult := λ _ _, Some (Tools.MkToolResult [] false).

Definition edges_of0 (m : gmap (gostring * gostring) MeshEdge) : list MeshEdge := map snd (map_to_list m).

Lemma overview_nodes_witness :
  map no_NodeID (mo_Nodes (Execute dispatch0 edges_of0 topo0)) = [go "a"; go "b"] ∧
  default 0 (mo_RoleCounts (Execute dispatch0 edges_of0 topo0) !! go "oss") = 1.
Proof.
  split; [vm_compute; reflexivity|].
  destruct (overview_nodes dispatch0 edges_of0 topo0) as (_ & _ & _ & Hroles & _).
  rewrite Hroles. vm_compute. reflexivity.
Defined.

Lemma overview_edges_witness :
  NoDup (map ns_NodeID (ts_NodeDetails topo0)) ∧
  mo_Edges (Execute dispatch0 edges_of0 topo0)
  = [MkMeshEdge (go "a") (go "gw") (f64_of_Z 3); MkMeshEdge (go "b") (go "gw") (f64_of_Z 9)] ∧
  MkMeshEdge (go "a") (go "gw") (f64_of_Z 3) ∈ mo_Edges (Execute dispatch0 edges_of0 topo0).
Proof.
  assert (NoDup (map ns_NodeID (ts_NodeDetails topo0))) as Hnd by by_decide.
  split_and!; [exact Hnd|vm_compute; reflexivity|].
  destruct (overview_edges dispatch0 edges_of0 (λ m, reflexivity _) topo0) as (_ & _ & _ & Hgw).
  apply (Hgw Hnd (MkNodeSummary (go "a") (f64_of_Z 3) (go "a") [go "tool:echo"] true)); [left|reflexivity].
Defined.
