(* ===== verification/McpServer.v ===== *)
(** * The MCP server: mcp/server.go

    The four tools the server offers to a language model: listing and describing
    tools from what nodes advertise and the local plugins know, calling a tool
    after its arguments are checked against the tool's parameters, and the mesh
    overview. The MCP library, JSON and the conversion of a float that is out of
    an integer's range are parameters. *)

From Stdlib Require Import Ascii.
From stdpp Require Import base numbers gmap strings sorting list.
From S2P Require Import Prelude GoStrings GoFloat Codec Plugins Overview.
From S2P Require Tools.

Open Scope Z_scope.

(** ** Data *)

(** A decoded JSON value. *)
Inductive json_value :=
| JNull
| JBool (b : bool)
| JNumber (f : float64)
| JString (s : gostring)
| JArray (l : list json_value)
| JObject (m : list (gostring * json_value)).

Record CallToolInput := MkCallToolInput {
  ci_ToolName : gostring;
  ci_NodeName : gostring;
  ci_Args : gmap gostring json_value
}.

(** The provider of the topology is what its snapshot returns. *)
Record Server := MkServer {
  sv_topology : option TopologySnapshot;
  sv_plugins : option PluginRegistry
}.

(** A reply: an error's text (the format that built it) or a text. *)
Inductive reply :=
| ErrorText (format : string)
| Text (isError : bool) (text : bytes).

(** What a handler decides: to answer, or to hand the call to the gateway. *)
Inductive action :=
| Reply (r : reply)
| ToMesh (toolName : gostring) (args : bytes).

Class ServerCodec := {
  json_category : gostring → bytes;
  json_tool_name : gostring → bytes;
  json_call_input : CallToolInput → bytes;
  json_overview : MeshOverview → bytes;
  int_of_float : float64 → Z  (** [int(f)] *)
}.

(** ** Handlers *)

Section server.
Context `{ServerCodec} `{Tools.GatewayCodec} `{UnicodeLower} `{GoRange}.

(** [dispatchToMesh] *)
Definition dispatchToMesh (Dispatch : gostring → bytes → outcome Tools.ToolResult) (toolName : gostring)
    (args : bytes) : outcome reply :=
  match Dispatch toolName args with
  | Err e => Ret (ErrorText "dispatch error: %v")
  | Ret res => Ret (Text (Tools.tr_IsError res) (Tools.tr_Content res))
  | Panic => Panic
  | Diverge => Diverge
  end.

Definition respond (Dispatch : gostring → bytes → outcome Tools.ToolResult) (a : action) : outcome reply :=
  match a with
  | Reply r => Ret r
  | ToMesh toolName args => dispatchToMesh Dispatch toolName args
  end.

(** The names behind the tool: capabilities of the known nodes. *)
Definition activeTools (snap : TopologySnapshot) : gset gostring :=
  list_to_set (ts_NodeDetails snap ≫= λ node,
    map (drop 5) (filter (λ c, strings_HasPrefix c (go "tool:") = true) (ns_Capabilities node))).

(** The loop over the active tools. *)
Fixpoint list_entries (plugins : PluginRegistry) (category : Z) (names : list gostring)
    : outcome (list Tools.ListToolsEntry) :=
  match names with
  | [] => Ret []
  | toolName :: names =>
      match PluginRegistry_GetAnyTool plugins toolName with
      | None => list_entries plugins category names
      | Some tool =>
          if t_Hidden tool then list_entries plugins category names
          else if negb (category =? CategoryUnknown) && negb (t_Category tool =? category)
          then list_entries plugins category names
          else
            c ← Category_String (t_Category tool);
            entries ← list_entries plugins category names;
            Ret (Tools.MkListToolsEntry (t_Name tool) (t_Description tool) c :: entries)
      end
  end.

(** [data, _ := json.Marshal(v)] *)
Definition marshaled (v : option bytes) : bytes := default [] v.

Definition handleListTools (s : Server) (category : gostring) : outcome action :=
  let parsed := match category with [] => Ret CategoryUnknown | _ => ParseCategory category end in
  match parsed with
  | Err e => Ret (Reply (ErrorText "registry: unknown category %q (valid: %s)"))
  | Panic => Panic
  | Diverge => Diverge
  | Ret filter =>
      match sv_topology s, sv_plugins s with
      | Some snap, Some plugins =>
          entries ← list_entries plugins filter (map fst (range_map (gset_to_gmap tt (activeTools snap))));
          Ret (Reply (Text false (marshaled (Tools.json_list_response entries))))
      | _, _ =>
          if negb (filter =? CategoryUnknown)
          then c ← Category_String filter; Ret (ToMesh (go "list_tools") (json_category c))
          else Ret (ToMesh (go "list_tools") [])
      end
  end.

Definition handleToolHelp (s : Server) (toolName : gostring) : outcome action :=
  match sv_plugins s with
  | None => Ret (ToMesh (go "tool_help") (json_tool_name toolName))
  | Some plugins =>
      match PluginRegistry_GetAnyTool plugins toolName with
      | None => Ret (Reply (ErrorText "tool not found: %s"))
      | Some tool =>
          category ← Category_String (t_Category tool);
          Ret (Reply (Text false (marshaled (Tools.json_help_response
            (Tools.MkToolDefinition (t_Name tool) (t_Description tool) (t_Help tool) category false
               (map mesh_param (t_Parameters tool)) None)))))
      end
  end.

(** The switch over a parameter's type; any other type accepts every value. *)
Definition type_ok (type : gostring) (val : json_value) : bool :=
  if decide (type = go "string") then match val with JString _ => true | _ => false end
  else if decide (type = go "boolean") then match val with JBool _ => true | _ => false end
  else if decide (type = go "number") then match val with JNumber _ => true | _ => false end
  else if decide (type = go "integer") then
    match val with JNumber f => f64_eqb f (f64_of_Z (int_of_float f)) | _ => false end
  else if decide (type = go "array") then match val with JArray _ => true | _ => false end
  else true.

Definition missing_argument : string :=
  "invalid arguments for '%s': missing required argument '%s'. Please call 'get_tool_help' with tool_name='%s' to see the full schema.".
Definition wrong_type : string :=
  "invalid arguments for '%s': argument '%s' must be of type '%s'. Please call 'get_tool_help' with tool_name='%s' to see the full schema.".
Definition unknown_argument : string :=
  "invalid arguments for '%s': unknown argument '%s'. Please call 'get_tool_help' with tool_name='%s' to see the full schema.".

(** The loop over the parameters: the error of the first that is violated. *)
Fixpoint check_params (params : list ToolParam) (args : gmap gostring json_value) : option string :=
  match params with
  | [] => None
  | param :: params =>
      match args !! tp_Name param with
      | None | Some JNull => if tp_Required param then Some missing_argument else check_params params args
      | Some val => if negb (type_ok (tp_Type param) val) then Some wrong_type else check_params params args
      end
  end.

(** The loop over the arguments. *)
Fixpoint check_unknown (params : list ToolParam) (argNames : list gostring) : option string :=
  match argNames with
  | [] => None
  | argName :: argNames =>
      if existsb (λ param, bool_decide (tp_Name param = argName)) params then check_unknown params argNames
      else Some unknown_argument
  end.

Definition check_args (tool : Tool) (args : gmap gostring json_value) : option string :=
  match check_params (t_Parameters tool) args with
  | Some e => Some e
  | None => check_unknown (t_Parameters tool) (map fst (range_map args))
  end.

Definition handleCallTool (s : Server) (input : CallToolInput) : action :=
  let forward := ToMesh (go "call_tool") (json_call_input input) in
  match sv_plugins s with
  | None => forward
  | Some plugins =>
      match PluginRegistry_GetAnyTool plugins (ci_ToolName input) with
      | None => forward
      | Some tool =>
          match check_args tool (ci_Args input) with
          | Some e => Reply (ErrorText e)
          | None => forward
          end
      end
  end.

(** [handleMeshOverview]; [Execute] is the overview of a snapshot. *)
Definition handleMeshOverview (Execute : TopologySnapshot → MeshOverview) (s : Server) : action :=
  match sv_topology s with
  | None => Reply (ErrorText "get_mesh_overview not available: no mesh topology provider configured")
  | Some snap => Reply (Text false (json_overview (Execute snap)))
  end.

(** ** Lemmas and properties: calling a tool *)

(** The values a parameter's type admits. *)
Inductive has_type : gostring → json_value → Prop :=
| ty_string s : has_type (go "string") (JString s)
| ty_boolean b : has_type (go "boolean") (JBool b)
| ty_number f : has_type (go "number") (JNumber f)
| ty_integer f : f64_eqb f (f64_of_Z (int_of_float f)) = true → has_type (go "integer") (JNumber f)
| ty_array l : has_type (go "array") (JArray l)
| ty_other t v :
    t ∉ map go ["string"; "boolean"; "number"; "integer"; "array"]%string → has_type t v.

(** The arguments fit the tool's parameters. An argument that is null counts as
    absent. *)
Record conforms (tool : Tool) (args : gmap gostring json_value) : Prop := {
  cf_required p : p ∈ t_Parameters tool → tp_Required p = true →
    ∃ v, args !! tp_Name p = Some v ∧ v ≠ JNull;
  cf_types p v : p ∈ t_Parameters tool → args !! tp_Name p = Some v → v ≠ JNull → has_type (tp_Type p) v;
  cf_known k : is_Some (args !! k) → ∃ p, p ∈ t_Parameters tool ∧ tp_Name p = k
}.

Lemma type_ok_spec t v : type_ok t v = true ↔ has_type t v.
Proof.
  split.
  - unfold type_ok. intros Ht.
    destruct (decide (t = go "string")) as [->|E1]; [destruct v; (done || constructor)|].
    destruct (decide (t = go "boolean")) as [->|E2]; [destruct v; (done || constructor)|].
    destruct (decide (t = go "number")) as [->|E3]; [destruct v; (done || constructor)|].
    destruct (decide (t = go "integer")) as [->|E4]; [destruct v; (done || by constructor)|].
    destruct (decide (t = go "array")) as [->|E5]; [destruct v; (done || constructor)|].
    apply ty_other. simpl map. rewrite !elem_of_cons, elem_of_nil. tauto.
  - intros []; try done. unfold type_ok. simpl map in *.
    repeat (rewrite decide_False by (intros ->; set_solver)). done.
Qed.

Lemma check_params_None params args :
  check_params params args = None ↔
  ∀ p, p ∈ params → match args !! tp_Name p with
                    | None | Some JNull => tp_Required p = false
                    | Some v => has_type (tp_Type p) v
                    end.
Proof.
  induction params as [|p params IH]; simpl; [split; [set_solver|done]|].
  assert (∀ Q : ToolParam → Prop, (∀ p', p' ∈ p :: params → Q p') ↔ Q p ∧ ∀ p', p' ∈ params → Q p') as Hcons by set_solver.
  rewrite Hcons, <-IH. clear IH Hcons.
  destruct (args !! tp_Name p) as [[]|]; try (rewrite <-type_ok_spec; destruct (type_ok _ _); simpl; naive_solver);
    destruct (tp_Required p); naive_solver.
Qed.

Lemma check_unknown_None params names :
  check_unknown params names = None ↔ ∀ k, k ∈ names → ∃ p, p ∈ params ∧ tp_Name p = k.
Proof.
  induction names as [|k names IH]; simpl; [split; [set_solver|done]|].
  destruct (existsb _ params) eqn:He.
  - rewrite IH. apply existsb_exists in He as (p & Hp%list_elem_of_In & Hk%bool_decide_eq_true). set_solver.
  - split; [done|]. intros Hall. destruct (Hall k) as (p & Hp & Hk); [left|].
    apply not_true_iff_false in He as []. apply existsb_exists. exists p.
    split; [by apply list_elem_of_In|by apply bool_decide_eq_true].
Qed.

Lemma check_args_None tool args : check_args tool args = None ↔ conforms tool args.
Proof.
  assert (∀ k, k ∈ map fst (range_map args) ↔ is_Some (args !! k)) as Hdom.
  { intros k. rewrite range_map_perm, list_elem_of_fmap. split.
    - intros ([k' v] & -> & Hv%elem_of_map_to_list). by exists v.
    - intros [v Hv]. exists (k, v). split; [done|]. by apply elem_of_map_to_list. }
  assert (check_args tool args = None ↔
    check_params (t_Parameters tool) args = None ∧ check_unknown (t_Parameters tool) (map fst (range_map args)) = None) as ->.
  { unfold check_args. destruct (check_params _ _); naive_solver. }
  rewrite check_params_None, check_unknown_None. split.
  - intros [Hp Hk]. split.
    + intros p Hin Hreq. specialize (Hp p Hin). destruct (args !! tp_Name p) as [[]|]; try congruence; by eexists.
    + intros p v Hin Hv Hnull. specialize (Hp p Hin). rewrite Hv in Hp. by destruct v.
    + intros k Hk'%Hdom. by apply Hk.
  - intros [Hreq Hty Hkn]. split.
    + intros p Hin. destruct (args !! tp_Name p) as [v|] eqn:Hv.
      * destruct v; try (by apply (Hty p)). destruct (tp_Required p) eqn:Hr; [|done].
        destruct (Hreq p Hin Hr) as (v & Hv' & Hnull). congruence.
      * destruct (tp_Required p) eqn:Hr; [|done]. destruct (Hreq p Hin Hr) as (v & Hv' & _). congruence.
    + intros k Hk%Hdom. by apply Hkn.
Qed.

Lemma check_args_Some tool args e :
  check_args tool args = Some e → e ∈ [missing_argument; wrong_type; unknown_argument].
Proof.
  unfold check_args. assert (∀ params, check_params params args = Some e → e ∈ [missing_argument; wrong_type]) as Hp.
  { induction params as [|p params IH]; simpl; [done|]. repeat case_match; intros; simplify_eq; set_solver. }
  assert (∀ params names, check_unknown params names = Some e → e = unknown_argument) as Hu.
  { intros params names. induction names; simpl; [done|]. case_match; naive_solver. }
  destruct (check_params _ _) eqn:Hc; [intros [= ->]; apply Hp in Hc; set_solver|intros ->%Hu; set_solver].
Qed.

(** ** Lemmas: listing tools *)

Lemma elem_of_activeTools snap name :
  name ∈ activeTools snap ↔ ∃ node, node ∈ ts_NodeDetails snap ∧ (go "tool:" ++ name) ∈ ns_Capabilities node.
Proof.
  unfold activeTools. rewrite elem_of_list_to_set, list_elem_of_bind. split.
  - intros (node & (c & -> & [Hpre Hc]%list_elem_of_filter)%list_elem_of_fmap & Hnode). exists node. split; [done|].
    unfold strings_HasPrefix in Hpre. apply bool_decide_eq_true in Hpre as [rest ->].
    change (drop 5 (go "tool:" ++ rest)) with rest. done.
  - intros (node & Hnode & Hc). exists node. split; [|done]. apply list_elem_of_fmap. exists (go "tool:" ++ name).
    split; [done|]. apply list_elem_of_filter. split; [|done]. apply bool_decide_eq_true. by exists name.
Qed.

Definition listed (category : Z) (tool : Tool) : Prop :=
  t_Hidden tool = false ∧ (category = CategoryUnknown ∨ t_Category tool = category).

Lemma list_entries_spec plugins category names
  (Hkeys : ∀ name tool, PluginRegistry_GetAnyTool plugins name = Some tool → t_Name tool = name ∧ 0 ≤ t_Category tool < 256)
  (Hcat : ∀ c, 0 ≤ c < 256 → ∃ n, Category_String c = Ret n) (Hnd : NoDup names) :
  ∃ entries, list_entries plugins category names = Ret entries ∧
    NoDup (map Tools.le_Name entries) ∧
    ∀ entry, entry ∈ entries ↔ ∃ tool n, t_Name tool ∈ names ∧
      PluginRegistry_GetAnyTool plugins (t_Name tool) = Some tool ∧ listed category tool ∧
      Category_String (t_Category tool) = Ret n ∧ entry = Tools.MkListToolsEntry (t_Name tool) (t_Description tool) n.
Proof.
  induction names as [|name names IH]; [exists []; split_and!; [done|constructor|set_solver]|].
  apply NoDup_cons in Hnd as [Hname Hnd]. destruct (IH Hnd) as (entries & He & Hne & Hin). cbn [list_entries].
  assert (∀ tool n, t_Name tool ∈ name :: names → PluginRegistry_GetAnyTool plugins (t_Name tool) = Some tool →
    listed category tool → Category_String (t_Category tool) = Ret n →
    (PluginRegistry_GetAnyTool plugins name = Some tool ∧ t_Name tool = name) ∨ t_Name tool ∈ names) as Hsplit.
  { intros tool n [<-|?]%elem_of_cons Ht _ _; [by left|by right]. }
  destruct (PluginRegistry_GetAnyTool plugins name) as [tool|] eqn:Ht.
  2:{ exists entries. split_and!; [done|done|]. intros entry. rewrite Hin. split.
      - intros (tool & n & ? & ?). exists tool, n. set_solver.
      - intros (tool & n & Hn & H1' & H2' & H3' & ->). destruct (Hsplit tool n Hn H1' H2' H3') as [[? _]|?]; [done|].
        by exists tool, n. }
  destruct (Hkeys name tool Ht) as [Hn Hc]. destruct (Hcat _ Hc) as [c Hstr].
  assert (t_Hidden tool || (negb (category =? CategoryUnknown) && negb (t_Category tool =? category)) = true ↔
    ¬ listed category tool) as Hlisted.
  { unfold listed. destruct (t_Hidden tool); simpl; [naive_solver|].
    destruct (Z.eqb_spec category CategoryUnknown), (Z.eqb_spec (t_Category tool) category); simpl; naive_solver. }
  destruct (decide (listed category tool)) as [Hl|Hl].
  - exists (Tools.MkListToolsEntry (t_Name tool) (t_Description tool) c :: entries). split_and!.
    + destruct (t_Hidden tool) eqn:Hh; [destruct Hl; congruence|].
      destruct (negb _ && negb _) eqn:Hneg; [exfalso; by apply Hlisted in Hl|]. rewrite Hstr. simpl. by rewrite He.
    + simpl. constructor; [|done]. intros (e & Hne' & (t & n & Hin' & _ & _ & _ & ->)%Hin)%list_elem_of_fmap.
      simpl in Hne'. rewrite <-Hne', Hn in Hin'. done.
    + intros entry. rewrite elem_of_cons, Hin. split.
      * intros [->|(t & n & ? & ?)]; [|exists t, n; set_solver]. exists tool, c. rewrite Hn. set_solver.
      * intros (t & n & Hn' & H1' & H2' & H3' & ->). destruct (Hsplit t n Hn' H1' H2' H3') as [[[= <-] _]|?].
        -- left. congruence. -- right. by exists t, n.
  - exists entries. split_and!; [|done|].
    + apply Hlisted in Hl. destruct (t_Hidden tool); [done|]. simpl in Hl. by rewrite Hl.
    + intros entry. rewrite Hin. split.
      * intros (t & n & ? & ?). exists t, n. set_solver.
      * intros (t & n & Hn' & H1' & H2' & H3' & ->). destruct (Hsplit t n Hn' H1' H2' H3') as [[[= <-] _]|?]; [done|].
        by exists t, n.
Qed.

(** What a registry built from plugins holds, for [list_entries_spec]. *)
Lemma registry_keys nodeID tools name tool :
  Forall (λ t, 0 ≤ t_Category t < 256) tools →
  PluginRegistry_GetAnyTool (NewPluginRegistryFrom nodeID tools) name = Some tool →
  t_Name tool = name ∧ 0 ≤ t_Category tool < 256.
Proof.
  intros Hcat Ht. destruct (add_plugin_all nodeID tools) as (_ & _ & Hall & _). unfold PluginRegistry_GetAnyTool in Ht.
  rewrite Hall in Ht. apply last_Some_elem_of, list_elem_of_filter in Ht as [Hn Hin].
  rewrite Forall_forall in Hcat. split; [done|by apply Hcat].
Qed.

Lemma Category_String_byte c : 0 ≤ c < 256 → ∃ n, Category_String c = Ret n.
Proof.
  intros Hc. unfold Category_String. destruct (Z.leb_spec (Z.of_nat (length categoryNames)) c); [by eexists|].
  unfold name_at. rewrite (proj2 (Z.ltb_ge _ _)) by lia.
  destruct (lookup_lt_is_Some_2 categoryNames (Z.to_nat c)) as [n ->]; [lia|by eexists].
Qed.

(** ** Properties *)

(** C25: A call is checked before it leaves. With the plugins at hand, a call of a
    tool they know is handed to the gateway if and only if its arguments conform
    to the tool's parameters: none that is required is absent or null, every
    other has its parameter's type, and none is unknown. A call that does not
    conform is answered with one of the three argument errors and never
    dispatched; a call of an unknown tool is handed on unchecked. *)
Theorem call_tool_checked (Dispatch : gostring → bytes → outcome Tools.ToolResult) (s : Server)
  (plugins : PluginRegistry) (input : CallToolInput) (Hs : sv_plugins s = Some plugins) :
  (match PluginRegistry_GetAnyTool plugins (ci_ToolName input) with
   | None => handleCallTool s input = ToMesh (go "call_tool") (json_call_input input)
   | Some tool =>
       (handleCallTool s input = ToMesh (go "call_tool") (json_call_input input) ↔ conforms tool (ci_Args input)) ∧
       (¬ conforms tool (ci_Args input) → ∃ e, e ∈ [missing_argument; wrong_type; unknown_argument] ∧
          respond Dispatch (handleCallTool s input) = Ret (ErrorText e))
   end).
Proof.
  unfold handleCallTool. rewrite Hs. destruct (PluginRegistry_GetAnyTool plugins (ci_ToolName input)) as [tool|]; [|done].
  rewrite <-check_args_None. destruct (check_args tool (ci_Args input)) as [e|] eqn:He.
  - split; [done|]. intros _. exists e. split; [by eapply check_args_Some|done].
  - done.
Qed.

(** What the tool list holds. For plugins registered from a pool of tools, the
    server lists exactly the tools that some known node advertises, the plugins
    know, are not hidden, and are of the category asked for (any, if none is);
    each once. A category that does not parse is answered with an error. *)
Theorem list_tools_exact (nodeID : gostring) (tools : list Tool) (snap : TopologySnapshot) (category : gostring)
  (Hcat : Forall (λ t, 0 ≤ t_Category t < 256) tools) :
  let plugins := NewPluginRegistryFrom nodeID tools in
  let answer := handleListTools (MkServer (Some snap) (Some plugins)) category in
  match (match category with [] => Ret CategoryUnknown | _ => ParseCategory category end) with
  | Ret c =>
      ∃ entries, answer = Ret (Reply (Text false (marshaled (Tools.json_list_response entries)))) ∧
        NoDup (map Tools.le_Name entries) ∧
        ∀ entry, entry ∈ entries ↔ ∃ node tool n, node ∈ ts_NodeDetails snap ∧
          (go "tool:" ++ t_Name tool) ∈ ns_Capabilities node ∧
          PluginRegistry_GetAnyTool plugins (t_Name tool) = Some tool ∧ listed c tool ∧
          Category_String (t_Category tool) = Ret n ∧ entry = Tools.MkListToolsEntry (t_Name tool) (t_Description tool) n
  | Err _ => answer = Ret (Reply (ErrorText "registry: unknown category %q (valid: %s)"))
  | _ => True
  end.
Proof.
  cbn zeta. unfold handleListTools. cbn [sv_topology sv_plugins].
  destruct (match category with [] => Ret CategoryUnknown | _ => ParseCategory category end) as [c|e| |]; try done.
  set (names := map fst (range_map (gset_to_gmap tt (activeTools snap)))).
  assert (∀ k, k ∈ names ↔ k ∈ activeTools snap) as Hnames.
  { intros k. unfold names. rewrite range_map_perm, list_elem_of_fmap. split.
    - intros ([k' []] & -> & Hk%elem_of_map_to_list). by apply lookup_gset_to_gmap_Some in Hk as [].
    - intros Hk. exists (k, tt). split; [done|]. apply elem_of_map_to_list. by apply lookup_gset_to_gmap_Some. }
  destruct (list_entries_spec (NewPluginRegistryFrom nodeID tools) c names) as (entries & He & Hnd & Hin).
  - intros name tool. by apply registry_keys.
  - apply Category_String_byte.
  - unfold names. rewrite range_map_perm. apply NoDup_fst_map_to_list.
  - exists entries. rewrite He. split_and!; [done|done|]. intros entry. rewrite Hin. split.
    + intros (tool & n & (node & Hnode & Hc)%Hnames%elem_of_activeTools & H'). by exists node, tool, n.
    + intros (node & tool & n & Hnode & Hc & H'). exists tool, n. split; [|exact H'].
      apply Hnames, elem_of_activeTools. by exists node.
Qed.

End server.

(** ** Witnesses *)

#[local] Existing Instance list_range.
#[local] Existing Instance ascii_only.

#[local] Instance server_codec0 : ServerCodec := {
  json_category c := c;
  json_tool_name n := n;
  json_call_input i := ci_NodeName i;
  json_overview o := mo_MermaidGraph o;
  int_of_float f := 7
}.

#[local] Instance gateway_codec0 : Tools.GatewayCodec := {
  Tools.json_error e := [];
  Tools.json_call_response r := Some [];
  Tools.json_list_response l := Some (concat (map Tools.le_Name l));
  Tools.json_help_response d := Some (Tools.td_Name d);
  Tools.parse_call_args b := Tools.MkCallToolArgs [] [] b;
  Tools.parse_category b := b;
  Tools.parse_tool_name b := b
}.

Definition param0 : ToolParam := MkToolParam (go "limit") (go "integer") [] true [].
Definition tool0 : Tool :=
  MkTool (go "ps") [] [] CategorySystem [param0] false (true, []) (λ _, Ret None).
Definition plugins0 : PluginRegistry := NewPluginRegistryFrom (go "gw") [tool0].
Definition topology0 : TopologySnapshot :=
  MkTopologySnapshot (go "gw") 1 1 0 [MkNodeSummary (go "a") (f64_of_Z 1) (go "a") [go "tool:ps"; go "tool:zfs"] true].
Definition call0 (args : gmap gostring json_value) : CallToolInput := MkCallToolInput (go "ps") (go "a") args.

Lemma call_tool_checked_witness :
  let s := MkServer None (Some plugins0) in
  conforms tool0 {[go "limit" := JNumber (f64_of_Z 7)]} ∧
  respond (λ _ _, Panic) (handleCallTool s (call0 ∅)) = Ret (ErrorText missing_argument) ∧
  ∃ e, e ∈ [missing_argument; wrong_type; unknown_argument] ∧
    respond (λ _ _, Panic) (handleCallTool s (call0 {[go "limit" := JString []]})) = Ret (ErrorText e).
Proof.
  cbn zeta. split_and!.
  - pose proof (call_tool_checked (λ _ _, Panic) (MkServer None (Some plugins0)) plugins0
      (call0 {[go "limit" := JNumber (f64_of_Z 7)]}) eq_refl) as Hc. vm_compute (PluginRegistry_GetAnyTool _ _) in Hc.
    apply Hc. vm_compute. reflexivity.
  - vm_compute. reflexivity.
  - pose proof (call_tool_checked (λ _ _, Panic) (MkServer None (Some plugins0)) plugins0
      (call0 {[go "limit" := JString []]}) eq_refl) as Hc. vm_compute (PluginRegistry_GetAnyTool _ _) in Hc.
    apply Hc. intros [_ Hty _]. specialize (Hty param0 (JString [])). apply type_ok_spec in Hty; [done|left| |done].
    vm_compute. reflexivity.
Defined.

Lemma list_tools_exact_witness :
  handleListTools (MkServer (Some topology0) (Some plugins0)) [] = Ret (Reply (Text false (go "ps"))) ∧
  ∃ entries, handleListTools (MkServer (Some topology0) (Some plugins0)) [] =
    Ret (Reply (Text false (marshaled (Tools.json_list_response entries)))) ∧ NoDup (map Tools.le_Name entries).
Proof.
  split; [vm_compute; reflexivity|].
  destruct (list_tools_exact (go "gw") [tool0] topology0 []) as (entries & He & Hnd & _); [by repeat constructor|].
  exists entries. split; [exact He|exact Hnd].
Defined.
