(* ===== verification/Cpu.v ===== *)
(** * The CPU topology: sys/cpu/topology.go

    The kernel's lists of CPUs, and the tree of NUMA nodes, L3 domains, cores and
    threads built from sysfs. The file system is a parameter: what each file and
    directory reads as, [None] for any error (a cancelled context is one). *)

From Stdlib Require Import Ascii.
From stdpp Require Import base numbers gmap strings sorting list.
From S2P Require Import Prelude GoStrings RangeSet.

Open Scope Z_scope.

(** ** Data *)

Record SystemSummary := MkSystemSummary {
  ss_TotalLogicalCPUs : Z;
  ss_TotalNumaNodes : Z;
  ss_IsNuma : bool;
  ss_SMTEnabled : bool;
  ss_L3TopologyAbstracted : bool
}.

Record PhysicalCore := MkPhysicalCore {
  pc_SocketID : Z;
  pc_CoreID : Z;
  pc_LogicalThreads : list Z
}.

#[export] Instance core_eq_dec : EqDecision PhysicalCore.
Proof. solve_decision. Defined.

Record L3CacheDomain := MkL3CacheDomain {
  ld_SharedLogicalCPUs : list Z;
  ld_PhysicalCores : list PhysicalCore
}.

#[export] Instance domain_eq_dec : EqDecision L3CacheDomain.
Proof. solve_decision. Defined.

(** [NumaNode] *)
Abbreviation NumaNode := (gmap gostring L3CacheDomain).

Record SystemTopology := MkSystemTopology {
  st_SystemSummary : SystemSummary;
  st_Topology : gmap gostring NumaNode
}.

(** [sort.Ints] *)
Definition sort_Ints (l : list Z) : list Z := merge_sort Z.le l.

(** ** Lists of CPUs *)

(** [for i := start; i <= end; i++]: the loop of [rangeSet.Expand]. *)
Definition cpu_range (start end_ : Z) : outcome (list Z) :=
  match range_values (Rang start end_) with Some l => Ret l | None => Diverge end.

Definition parse_part (part : gostring) : outcome (list Z) :=
  if bool_decide ("-"%char ∈ part) then
    match strings_Split part "-" with
    | [a; b] =>
        match strconv_Atoi a, strconv_Atoi b with
        | Ret start, Ret end_ => if start <=? end_ then cpu_range start end_ else Ret []
        | _, _ => Ret []
        end
    | _ => Ret []
    end
  else match strconv_Atoi part with Ret val => Ret [val] | _ => Ret [] end.

Definition ParseCPUList (listStr : gostring) : outcome (list Z) :=
  match listStr with
  | [] => Ret []
  | _ => parts ← mapM_go parse_part (strings_Split listStr ","); Ret (sort_Ints (concat parts))
  end.

(** ** Reading sysfs *)

Section sysfs.
(** A file or directory under the base, by its path's parts. *)
Context (ReadFile : list gostring → option gostring).
Context (ReadDir : list gostring → option (list (gostring * bool))).
(** Ranging over a map with integer keys. *)
Context (range_ints : ∀ V : Type, gmap Z V → list (Z * V)).
Arguments range_ints {V} _.

Definition nodeBase : list gostring := [go "devices/system/node"].
Definition cpuBase : list gostring := [go "devices/system/cpu"].

Definition readFileWithContext (path : list gostring) : option gostring := strings_TrimSpace <$> ReadFile path.

(** The number behind a directory's prefix. *)
Definition dir_number (prefix : gostring) (entry : gostring * bool) : option Z :=
  if entry.2 && strings_HasPrefix entry.1 prefix
  then match strconv_Atoi (drop (length prefix) entry.1) with Ret id => Some id | _ => None end
  else None.

(** One directory of the nodes. *)
Definition add_numa_node (numaNodes : gmap Z (list Z)) (entry : gostring * bool) : outcome (gmap Z (list Z)) :=
  match dir_number (go "node") entry with
  | None => Ret numaNodes
  | Some nodeID =>
      match readFileWithContext (nodeBase ++ [entry.1; go "cpulist"]) with
      | None => Ret numaNodes
      | Some listStr =>
          cpus ← ParseCPUList listStr;
          Ret (if decide (0 < length cpus)%nat then <[nodeID := cpus]> numaNodes else numaNodes)
      end
  end.

(** The nodes with their CPUs, and whether there is more than one. *)
Definition numa_nodes : outcome (gmap Z (list Z) * bool) :=
  numaNodes ← match ReadDir nodeBase with None => Ret ∅ | Some entries => foldM_go add_numa_node ∅ entries end;
  Ret
    (if decide (size numaNodes ≤ 1)%nat then
       (match map_to_list numaNodes with
        | [] =>
            let cpus := match ReadDir cpuBase with
                        | None => []
                        | Some entries => sort_Ints (omap (dir_number (go "cpu")) entries)
                        end in
            {[0 := cpus]}
        | (_, v) :: _ => {[0 := v]}
        end, false)
     else (numaNodes, true)).

(** ** One CPU *)

(** What the loop body reads for a CPU. *)
Record cpu_info := MkCpuInfo {
  cp_socketID : Z;
  cp_coreID : Z;
  cp_siblings : list Z;
  cp_l3 : option (list Z)  (** [None]: no L3 information *)
}.

Definition cpu_file (cpuID : Z) (file : gostring) : option gostring :=
  readFileWithContext (cpuBase ++ [go "cpu" ++ strconv_Itoa cpuID; file]).

(** A number in a file, or zero. *)
Definition cpu_number (cpuID : Z) (file : gostring) : Z :=
  match cpu_file cpuID file with
  | Some s => match strconv_Atoi s with Ret id => id | _ => 0 end
  | None => 0
  end.

Definition read_cpu (cpuID : Z) : outcome cpu_info :=
  siblings ← match cpu_file cpuID (go "topology/thread_siblings_list") with
             | Some s => ParseCPUList s
             | None => Ret [cpuID]
             end;
  l3 ← match cpu_file cpuID (go "cache/index3/shared_cpu_list") with
       | Some s => Some <$> ParseCPUList s
       | None => Ret None
       end;
  Ret (MkCpuInfo (cpu_number cpuID (go "topology/physical_package_id")) (cpu_number cpuID (go "topology/core_id"))
         siblings l3).

(** The siblings file was read, and names more than one thread. *)
Definition is_smt (cpuID : Z) (i : cpu_info) : bool :=
  match cpu_file cpuID (go "topology/thread_siblings_list") with
  | Some _ => (1 <? length (cp_siblings i))%nat
  | None => false
  end.

(** ** One node *)

Record l3Info := MkL3Info { li_sharedCpus : list Z; li_cores : gmap Z PhysicalCore }.

(** The domain's number, and its CPUs. *)
Definition l3_of (cpus : list Z) (i : cpu_info) : Z * list Z :=
  match cp_l3 i with
  | Some [] => (0, [])
  | Some (c :: l) => (c, c :: l)
  | None => (0, cpus)
  end.

Definition core_of (i : cpu_info) : PhysicalCore := MkPhysicalCore (cp_socketID i) (cp_coreID i) (cp_siblings i).

Definition add_cpu (cpus : list Z) (l3Domains : gmap Z l3Info) (i : cpu_info) : gmap Z l3Info :=
  let '(l3ID, l3Cpus) := l3_of cpus i in
  let domain := default (MkL3Info l3Cpus ∅) (l3Domains !! l3ID) in
  let cores := match li_cores domain !! cp_coreID i with
               | None => <[cp_coreID i := core_of i]> (li_cores domain)
               | Some _ => li_cores domain
               end in
  <[l3ID := MkL3Info (li_sharedCpus domain) cores]> l3Domains.

(** The loop over the sorted domains. *)
Fixpoint name_domains (l3Idx : nat) (ids : list Z) (l3Domains : gmap Z l3Info) : NumaNode :=
  match ids with
  | [] => ∅
  | l3ID :: ids =>
      let domain := default (MkL3Info [] ∅) (l3Domains !! l3ID) in
      let coreIDs := sort_Ints (map fst (range_ints (li_cores domain))) in
      let pCores := omap (λ cid, li_cores domain !! cid) coreIDs in
      <[go "l3_domain_" ++ strconv_Itoa (Z.of_nat l3Idx) := MkL3CacheDomain (li_sharedCpus domain) pCores]>
        (name_domains (S l3Idx) ids l3Domains)
  end.

Definition build_node (l3Domains : gmap Z l3Info) : NumaNode :=
  name_domains 0 (sort_Ints (map fst (range_ints l3Domains))) l3Domains.

(** The node of a list of CPUs, with its two flags. *)
Definition node_of (cpus : list Z) : outcome (NumaNode * bool * bool) :=
  infos ← mapM_go read_cpu cpus;
  Ret (build_node (foldl (add_cpu cpus) ∅ infos),
       existsb (λ p, is_smt p.1 p.2) (zip cpus infos),
       existsb (λ i, match cp_l3 i with None => true | Some _ => false end) infos).

(** ** The topology *)

Definition add_node (acc : gmap gostring NumaNode * Z * bool * bool) (node : Z * list Z)
    : outcome (gmap gostring NumaNode * Z * bool * bool) :=
  let '(topology, totalLogicalCPUs, hasSMT, l3Abstracted) := acc in
  '(numaNode, smt, abstracted) ← node_of node.2;
  Ret (<[go "numa_node_" ++ strconv_Itoa node.1 := numaNode]> topology,
       i64 (totalLogicalCPUs + Z.of_nat (length node.2)), hasSMT || smt, l3Abstracted || abstracted).

Definition GetTopology : outcome SystemTopology :=
  '(numaNodes, isNuma) ← numa_nodes;
  '(topology, total, hasSMT, l3Abstracted) ← foldM_go add_node (∅, 0, false, false) (range_ints numaNodes);
  Ret (MkSystemTopology (MkSystemSummary total (Z.of_nat (size numaNodes)) isNuma hasSMT l3Abstracted) topology).

End sysfs.

(** ** Lemmas: lists of CPUs *)

Lemma sort_Ints_perm l : sort_Ints l ≡ₚ l.
Proof. apply merge_sort_Permutation. Qed.

Lemma sort_Ints_sorted l : StronglySorted Z.le (sort_Ints l).
Proof. apply StronglySorted_merge_sort; apply _. Qed.

Lemma sort_Ints_id l : StronglySorted Z.le l → sort_Ints l = l.
Proof.
  intros Hl. apply (StronglySorted_unique Z.le); [apply sort_Ints_sorted|done|apply sort_Ints_perm].
Qed.

Lemma Itoa_inj a b : strconv_Itoa a = strconv_Itoa b → a = b.
Proof.
  assert (∀ n, 0 ≤ n → atoi_digits 0 (udec n) = Some n) as Hval by (intros n Hn; apply udec_spec; lia).
  assert (∀ n, 0 ≤ n → "-"%char ∉ udec n) as Hneg by (intros n Hn; by apply udec_not_in).
  unfold strconv_Itoa. destruct (Z.ltb_spec a 0), (Z.ltb_spec b 0); intros Heq.
  - injection Heq as Heq. apply (f_equal (atoi_digits 0)) in Heq. rewrite !Hval in Heq by lia. injection Heq. lia.
  - destruct (Hneg b); [lia|]. rewrite <-Heq. left.
  - destruct (Hneg a); [lia|]. rewrite Heq. left.
  - apply (f_equal (atoi_digits 0)) in Heq. rewrite !Hval in Heq by lia. congruence.
Qed.

(** The kernel's format of a range. *)
Definition format_range (r : Z * Z) : gostring :=
  if r.1 =? r.2 then strconv_Itoa r.1 else strconv_Itoa r.1 ++ "-"%char :: strconv_Itoa r.2.

Definition good_range (r : Z * Z) : Prop := 0 ≤ r.1 ≤ r.2 ∧ r.2 < MaxInt64.

Definition range_cpus (r : Z * Z) : list Z := seqZ r.1 (r.2 - r.1 + 1).

Lemma parse_part_format r : good_range r → parse_part (format_range r) = Ret (range_cpus r).
Proof.
  destruct r as [lo hi]. unfold good_range, format_range, range_cpus, parse_part. simpl. intros [Hlo Hhi].
  assert (∀ n, 0 ≤ n → "-"%char ∉ strconv_Itoa n) as Hno by (intros n Hn; rewrite Itoa_digits by done; by apply udec_not_in).
  destruct (Z.eqb_spec lo hi) as [->|Hne].
  - rewrite bool_decide_false by (apply Hno; lia). rewrite Atoi_Itoa by lia.
    replace (hi - hi + 1) with 1 by lia. by rewrite seqZ_cons, seqZ_nil by lia.
  - rewrite bool_decide_true by (apply elem_of_app; right; left).
    rewrite strings_Split_app by (apply Hno; lia). rewrite strings_Split_no_sep by (apply Hno; lia).
    rewrite !Atoi_Itoa by lia. rewrite (proj2 (Z.leb_le lo hi)) by lia. unfold cpu_range, range_values.
    by rewrite count_up_spec by (simpl; i64_lia).
Qed.

(** ** Lemmas: the domains of a node *)

Lemma head_filter_snoc {A} (P : A → Prop) `{∀ x, Decision (P x)} (l : list A) (x : A) :
  head (filter P (l ++ [x])) =
  match head (filter P l) with Some y => Some y | None => if decide (P x) then Some x else None end.
Proof.
  rewrite filter_app. destruct (filter P l) as [|y l']; [|done]. simpl. rewrite filter_cons, filter_nil. by case_decide.
Qed.

(** The core of a number in a domain. *)
Definition core_at (l3Domains : gmap Z l3Info) (d c : Z) : option PhysicalCore :=
  l3Domains !! d ≫= λ dom, li_cores dom !! c.

(** Every domain has the CPUs of the first CPU in it, every core is the first of
    its number in its domain. *)
Lemma domains_spec cpus infos d :
  let doms := foldl (add_cpu cpus) ∅ infos in
  (li_sharedCpus <$> doms !! d = (λ i, (l3_of cpus i).2) <$> head (filter (λ i, (l3_of cpus i).1 = d) infos)) ∧
  (∀ c, core_at doms d c = core_of <$> head (filter (λ i, (l3_of cpus i).1 = d ∧ cp_coreID i = c) infos)) ∧
  (∀ c core, core_at doms d c = Some core → pc_CoreID core = c).
Proof.
  cbn zeta. induction infos as [|i infos (IH1 & IH2 & IH3)] using rev_ind.
  { split_and!; [done|done|]. intros c core Hc. done. }
  rewrite foldl_snoc. set (doms := foldl (add_cpu cpus) ∅ infos) in *.
  rewrite head_filter_snoc. unfold add_cpu.
  destruct (l3_of cpus i) as [l3 shared] eqn:Hl3. simpl fst. simpl snd.
  destruct (decide (d = l3)) as [->|Hd].
  2:{ unfold core_at in *. split_and!.
      - rewrite lookup_insert_ne, decide_False by done. rewrite IH1. by case_match.
      - intros c. rewrite head_filter_snoc, Hl3. simpl. rewrite lookup_insert_ne, decide_False by naive_solver.
        rewrite IH2. by case_match.
      - intros c core. rewrite lookup_insert_ne by done. apply IH3. }
  unfold core_at in *. rewrite !lookup_insert_eq. simpl. split_and!.
  - rewrite decide_True by done. destruct (doms !! l3) as [dom|]; simpl in *;
      destruct (head (filter (λ i, (l3_of cpus i).1 = l3) infos)) as [y|]; simpl in *; rewrite ?Hl3; simpl in *; congruence.
  - intros c. rewrite head_filter_snoc, Hl3. simpl. specialize (IH2 c).
    destruct (head (filter (λ i, (l3_of cpus i).1 = l3 ∧ cp_coreID i = c) infos)) as [y|]; simpl in *.
    + destruct (doms !! l3) as [dom|]; simpl in *; [|done].
      destruct (li_cores dom !! cp_coreID i) eqn:Hcore; [done|]. rewrite lookup_insert_ne; [done|]. intros Heq. rewrite Heq in Hcore. congruence.
    + destruct (decide (c = cp_coreID i)) as [->|Hc].
      * rewrite decide_True by done. destruct (doms !! l3) as [dom|]; simpl in *.
        -- rewrite IH2. by rewrite lookup_insert_eq.
        -- by rewrite lookup_empty, lookup_insert_eq.
      * rewrite decide_False by naive_solver. destruct (doms !! l3) as [dom|]; simpl in *.
        -- destruct (li_cores dom !! cp_coreID i); [done|by rewrite lookup_insert_ne].
        -- by rewrite lookup_empty, lookup_insert_ne, lookup_empty.
  - intros c core. destruct (doms !! l3) as [dom|]; simpl in *.
    + destruct (li_cores dom !! cp_coreID i) eqn:Hcore; [apply IH3|].
      intros [[<- <-]|[_ ?]]%lookup_insert_Some; [done|by apply IH3].
    + rewrite lookup_empty. intros [[<- <-]|[_ Hc]]%lookup_insert_Some; [done|by rewrite lookup_empty in Hc].
Qed.

(** ** The hardware *)

(** A machine: the socket of a CPU, the number of its core, which the kernel
    gives within the socket, and its L3 cache. *)
Record machine := MkMachine {
  hw_socket : Z → Z;
  hw_core : Z → Z;
  hw_cache : Z → Z
}.

Definition same_core (hw : machine) (c c' : Z) : Prop := hw_socket hw c' = hw_socket hw c ∧ hw_core hw c' = hw_core hw c.

#[export] Instance same_core_dec hw c c' : Decision (same_core hw c c').
Proof. unfold same_core. apply _. Defined.

(** A core is behind one L3 cache, a cache is in one socket, and the numbers are
    ints. *)
Record machine_ok (hw : machine) : Prop := {
  mo_core c c' : same_core hw c c' → hw_cache hw c' = hw_cache hw c;
  mo_cache c c' : hw_cache hw c' = hw_cache hw c → hw_socket hw c' = hw_socket hw c;
  mo_int c : 0 ≤ hw_socket hw c ≤ MaxInt64 ∧ 0 ≤ hw_core hw c ≤ MaxInt64
}.

(** The files of a CPU, on a machine whose CPUs are [all]: its two numbers, the
    list of its core's CPUs, and with [l3] that of its cache's (a virtual machine
    has no such file). *)
Record describes (ReadFile : list gostring → option gostring) (hw : machine) (all : list Z) (l3 : bool) (c : Z) : Prop := {
  ds_package : cpu_file ReadFile c (go "topology/physical_package_id") = Some (strconv_Itoa (hw_socket hw c));
  ds_core : cpu_file ReadFile c (go "topology/core_id") = Some (strconv_Itoa (hw_core hw c));
  ds_siblings : ∃ s, cpu_file ReadFile c (go "topology/thread_siblings_list") = Some s ∧
    ParseCPUList s = Ret (filter (same_core hw c) all);
  ds_cache : if l3 then ∃ s, cpu_file ReadFile c (go "cache/index3/shared_cpu_list") = Some s ∧
               ParseCPUList s = Ret (filter (λ c', hw_cache hw c' = hw_cache hw c) all)
             else cpu_file ReadFile c (go "cache/index3/shared_cpu_list") = None
}.

Section node.
Context (range_ints : ∀ V : Type, gmap Z V → list (Z * V)).
Context (range_ints_perm : ∀ V (m : gmap Z V), range_ints V m ≡ₚ map_to_list m).

(** The rendering of a domain. *)
Definition rendered (dom : l3Info) : L3CacheDomain :=
  MkL3CacheDomain (li_sharedCpus dom)
    (omap (λ cid, li_cores dom !! cid) (sort_Ints (map fst (range_ints _ (li_cores dom))))).

Definition domain_name (n : nat) : gostring := go "l3_domain_" ++ strconv_Itoa (Z.of_nat n).

Lemma domain_name_inj n n' : domain_name n = domain_name n' → n = n'.
Proof. unfold domain_name. intros Heq%app_inv_head%Itoa_inj. lia. Qed.

Lemma elem_of_keys {V} (m : gmap Z V) k : k ∈ sort_Ints (map fst (range_ints V m)) ↔ is_Some (m !! k).
Proof.
  rewrite sort_Ints_perm, range_ints_perm, list_elem_of_fmap. split.
  - intros ([k' v] & -> & Hv%elem_of_map_to_list). by exists v.
  - intros [v Hv]. exists (k, v). split; [done|]. by apply elem_of_map_to_list.
Qed.

Lemma elem_of_rendered dom core :
  (∀ c core, li_cores dom !! c = Some core → pc_CoreID core = c) →
  core ∈ ld_PhysicalCores (rendered dom) ↔ li_cores dom !! pc_CoreID core = Some core.
Proof.
  intros Hid. simpl. rewrite list_elem_of_omap. setoid_rewrite elem_of_keys. split.
  - intros (c & _ & Hc). by rewrite (Hid _ _ Hc).
  - intros Hc. exists (pc_CoreID core). split; [by eexists|done].
Qed.

Lemma name_domains_lookup idx ids doms name dom :
  name_domains range_ints idx ids doms !! name = Some dom ↔
  ∃ k id, ids !! k = Some id ∧ name = domain_name (idx + k) ∧ dom = rendered (default (MkL3Info [] ∅) (doms !! id)).
Proof.
  revert idx. induction ids as [|id ids IH]; intros idx; cbn [name_domains].
  { rewrite lookup_empty. split; [done|]. by intros (k & id & ? & _). }
  fold (domain_name idx). fold (rendered (default (MkL3Info [] ∅) (doms !! id))). rewrite lookup_insert_Some, IH. split.
  - intros [[<- <-]|[_ (k & id' & Hk & -> & ->)]].
    + exists 0%nat, id. by rewrite Nat.add_0_r.
    + exists (S k), id'. by rewrite Nat.add_succ_r.
  - intros ([|k] & id' & Hk & -> & ->); simpl in Hk.
    + injection Hk as ->. left. by rewrite Nat.add_0_r.
    + right. split; [|by exists k, id'; rewrite Nat.add_succ_r]. intros Heq%domain_name_inj. lia.
Qed.


Lemma build_node_of doms d info :
  doms !! d = Some info → ∃ k, sort_Ints (map fst (range_ints _ doms)) !! k = Some d ∧
    build_node range_ints doms !! domain_name k = Some (rendered info).
Proof.
  intros Hd. assert (d ∈ sort_Ints (map fst (range_ints _ doms))) as [k Hk]%list_elem_of_lookup by by apply elem_of_keys.
  exists k. split; [done|]. apply name_domains_lookup. exists k, d. by rewrite Hd.
Qed.

(** A CPU's place in a node. *)
Definition placed (node : NumaNode) (c : Z) (name : gostring) (core : PhysicalCore) : Prop :=
  ∃ dom, node !! name = Some dom ∧ core ∈ ld_PhysicalCores dom ∧ c ∈ pc_LogicalThreads core.

(** Places are cores of domains. *)
Lemma placed_spec cpus infos c name core :
  let doms := foldl (add_cpu cpus) ∅ infos in
  placed (build_node range_ints doms) c name core ↔
  ∃ k d, sort_Ints (map fst (range_ints _ doms)) !! k = Some d ∧ name = domain_name k ∧
    core_at doms d (pc_CoreID core) = Some core ∧ c ∈ pc_LogicalThreads core.
Proof.
  cbn zeta. set (doms := foldl (add_cpu cpus) ∅ infos).
  assert (∀ d info, doms !! d = Some info → ∀ c core, li_cores info !! c = Some core → pc_CoreID core = c) as Hid.
  { intros d info Hd c' core' Hc. destruct (domains_spec cpus infos d) as (_ & _ & H). apply H.
    unfold core_at. fold doms. by rewrite Hd. }
  unfold placed. split.
  - intros (dom & (k & d & Hk & -> & ->)%name_domains_lookup & Hcore & Hc). exists k, d.
    assert (is_Some (doms !! d)) as [info Hd] by (apply elem_of_keys; by eapply list_elem_of_lookup_2).
    rewrite Hd in Hcore. apply elem_of_rendered in Hcore; [|by eapply Hid].
    split_and!; [done|done| |done]. unfold core_at. by rewrite Hd.
  - intros (k & d & Hk & -> & Hcore & Hc). unfold core_at in Hcore. destruct (doms !! d) as [info|] eqn:Hd; [|done].
    exists (rendered info). split_and!; [|apply elem_of_rendered; [by eapply Hid|done]|done].
    apply name_domains_lookup. exists k, d. by rewrite Hd.
Qed.

End node.

(** ** Lemmas: a node of a machine *)

Lemma head_filter_map {A B} (P : B → Prop) `{∀ x, Decision (P x)} (f : A → B) (l : list A) :
  head (filter P (map f l)) = f <$> head (filter (λ x, P (f x)) l).
Proof. induction l as [|x l IH]; [done|]. simpl. rewrite !filter_cons. by case_decide. Qed.

Section described.
Context (range_ints : ∀ V : Type, gmap Z V → list (Z * V)).
Context (range_ints_perm : ∀ V (m : gmap Z V), range_ints V m ≡ₚ map_to_list m).
Context (hw : machine) (all cpus : list Z) (l3 : bool).
Context (Hhw : machine_ok hw) (Hall : cpus ⊆ all).

(** What the loop reads for a CPU. *)
Definition cpu_of (c : Z) : cpu_info :=
  MkCpuInfo (hw_socket hw c) (hw_core hw c) (filter (same_core hw c) all)
    (if l3 then Some (filter (λ c', hw_cache hw c' = hw_cache hw c) all) else None).

(** The CPUs of a CPU's cache, as far as they are known. *)
Definition cache_cpus (c : Z) : list Z :=
  if l3 then filter (λ c', hw_cache hw c' = hw_cache hw c) all else cpus.

(** The CPU is in the tree: with L3 information, or on the socket of the first CPU
    with its core number. *)
Definition in_tree (c : Z) : Prop :=
  l3 = true ∨ ∃ c0, head (filter (λ c', hw_core hw c' = hw_core hw c) cpus) = Some c0 ∧ hw_socket hw c0 = hw_socket hw c.

Lemma read_described ReadFile :
  Forall (describes ReadFile hw all l3) cpus → mapM_go (read_cpu ReadFile) cpus = Ret (map cpu_of cpus).
Proof.
  intros Hd. apply mapM_go_Ret. clear Hall. induction Hd as [|c l [Hp Hc (s & Hs & Hsib) Hl3] _ IH]; [constructor|].
  simpl. constructor; [|exact IH]. destruct (mo_int hw Hhw c). unfold read_cpu, cpu_number. rewrite Hs, Hsib, Hp, Hc, !Atoi_Itoa by done.
  unfold cpu_of. destruct l3; [|by rewrite Hl3]. destruct Hl3 as (s' & -> & Hcache). by rewrite Hcache.
Qed.

Definition domain_id (c : Z) : Z := (l3_of cpus (cpu_of c)).1.

Lemma domain_id_cache c c' : c ∈ cpus → c' ∈ cpus →
  domain_id c = domain_id c' ↔ (l3 = true → hw_cache hw c = hw_cache hw c').
Proof.
  intros Hc Hc'. unfold domain_id, cpu_of. destruct l3; simpl; [|naive_solver].
  assert (∀ x, x ∈ cpus → ∃ h l, filter (λ c', hw_cache hw c' = hw_cache hw x) all = h :: l ∧ hw_cache hw h = hw_cache hw x) as Hhd.
  { intros x Hx%Hall. assert (x ∈ filter (λ c', hw_cache hw c' = hw_cache hw x) all) as Hf by by apply list_elem_of_filter.
    destruct (filter _ all) as [|h l] eqn:E; [by apply elem_of_nil in Hf|]. exists h, l. split; [done|].
    assert (h ∈ filter (λ c', hw_cache hw c' = hw_cache hw x) all) as Hh by (rewrite E; left).
    by apply list_elem_of_filter in Hh as [? _]. }
  split.
  - destruct (Hhd c Hc) as (h & l & -> & Hh), (Hhd c' Hc') as (h' & l' & -> & Hh'). simpl. congruence.
  - intros E. by rewrite E.
Qed.

Lemma l3_shared c : c ∈ cpus → (l3_of cpus (cpu_of c)).2 = cache_cpus c.
Proof. intros Hc%Hall. unfold l3_of, cpu_of, cache_cpus. destruct l3; [|done]. simpl. by destruct (filter _ all). Qed.

Lemma cache_cpus_eq c c' : c ∈ cpus → c' ∈ cpus → domain_id c = domain_id c' → cache_cpus c = cache_cpus c'.
Proof. intros Hc Hc' Hd. pose proof (proj1 (domain_id_cache c c' Hc Hc') Hd) as Hcache. clear Hd. unfold cache_cpus. destruct l3; [|done]. by rewrite (Hcache eq_refl). Qed.

(** The first of the node's CPUs with a domain and a core number. *)
Definition first_cpu (d n : Z) : option Z := head (filter (λ c, domain_id c = d ∧ hw_core hw c = n) cpus).

Lemma first_cpu_Some d n y : first_cpu d n = Some y → y ∈ cpus ∧ domain_id y = d ∧ hw_core hw y = n.
Proof. intros Hy%head_Some_elem_of. apply list_elem_of_filter in Hy. naive_solver. Qed.

(** It is on the socket of every CPU with that number in its domain, where there
    is L3 information. *)
Lemma first_cpu_socket c y : c ∈ cpus → first_cpu (domain_id c) (hw_core hw c) = Some y →
  hw_socket hw y = hw_socket hw c ↔ in_tree c.
Proof.
  intros Hc Hy. destruct (first_cpu_Some _ _ _ Hy) as (Hyin & Hyd & _). pose proof (domain_id_cache y c Hyin Hc) as Hdom.
  unfold in_tree, first_cpu in *. destruct l3 eqn:El3.
  - split; [by left|intros _]. apply (mo_cache hw Hhw). by apply Hdom.
  - assert (filter (λ c', domain_id c' = domain_id c ∧ hw_core hw c' = hw_core hw c) cpus
      = filter (λ c', hw_core hw c' = hw_core hw c) cpus) as Heq.
    { apply list_filter_iff. intros x. unfold domain_id, cpu_of. rewrite El3. simpl. naive_solver. }
    rewrite <-Heq, Hy. naive_solver.
Qed.

Lemma core_at_described d n :
  core_at (foldl (add_cpu cpus) ∅ (map cpu_of cpus)) d n = (λ y, core_of (cpu_of y)) <$> first_cpu d n.
Proof.
  destruct (domains_spec cpus (map cpu_of cpus) d) as (_ & -> & _). rewrite head_filter_map. by rewrite <-option_fmap_compose.
Qed.

Lemma same_core_domain c y : c ∈ cpus → y ∈ cpus → same_core hw y c → domain_id y = domain_id c.
Proof. intros Hc Hy Hs. apply domain_id_cache; [done..|]. intros _. symmetry. by apply (mo_core hw Hhw). Qed.

(** Where a CPU of the node is. *)
Lemma placed_described c : c ∈ cpus →
  ∃ k y,
    (∃ dom, build_node range_ints (foldl (add_cpu cpus) ∅ (map cpu_of cpus)) !! domain_name k = Some dom ∧
       ld_SharedLogicalCPUs dom = cache_cpus c) ∧
    hw_core hw y = hw_core hw c ∧ (hw_socket hw y = hw_socket hw c ↔ in_tree c) ∧
    ∀ name core, placed (build_node range_ints (foldl (add_cpu cpus) ∅ (map cpu_of cpus))) c name core ↔
      name = domain_name k ∧ core = core_of (cpu_of y) ∧ hw_socket hw y = hw_socket hw c.
Proof.
  intros Hc. set (doms := foldl (add_cpu cpus) ∅ (map cpu_of cpus)).
  destruct (first_cpu (domain_id c) (hw_core hw c)) as [y|] eqn:Hy.
  2:{ apply head_None in Hy. destruct (not_elem_of_nil c). rewrite <-Hy. by apply list_elem_of_filter. }
  pose proof (first_cpu_Some _ _ _ Hy) as (Hyin & Hyd & Hyn).
  pose proof (core_at_described (domain_id c) (hw_core hw c)) as Hat. rewrite Hy in Hat. simpl in Hat. fold doms in Hat.
  assert (∃ info, doms !! domain_id c = Some info ∧ li_sharedCpus info = cache_cpus c) as (info & Hinfo & Hsh).
  { destruct (domains_spec cpus (map cpu_of cpus) (domain_id c)) as (Hsh & _). fold doms in Hsh. rewrite head_filter_map in Hsh.
    unfold core_at in Hat. destruct (doms !! domain_id c) as [info|]; [|done]. exists info. split; [done|].
    destruct (head (filter _ cpus)) as [z|] eqn:Hz; [|done]. apply head_Some_elem_of, list_elem_of_filter in Hz as [Hzd Hz].
    simpl in Hsh. rewrite l3_shared in Hsh by done. injection Hsh as ->. by apply cache_cpus_eq. }
  destruct (build_node_of range_ints range_ints_perm _ _ _ Hinfo) as (k & Hk & Hdom).
  exists k, y. split_and!; [by eexists|done|by apply first_cpu_socket|].
  intros name core. unfold doms. rewrite placed_spec by done. fold doms. split.
  - intros (k' & d' & Hk' & -> & Hcore & Hin). unfold doms in Hcore. rewrite core_at_described in Hcore.
    apply fmap_Some in Hcore as (y' & Hy' & ->). pose proof (first_cpu_Some _ _ _ Hy') as (Hy'in & Hy'd & _).
    simpl in Hin. apply list_elem_of_filter in Hin as [Hsame _]. pose proof (same_core_domain c y' Hc Hy'in Hsame) as Hd.
    assert (d' = domain_id c) as -> by congruence. simpl in Hy'. destruct Hsame as [Hs Hn]. rewrite <-Hn, Hy in Hy'.
    injection Hy' as ->. split_and!; [|done|done]. f_equal. eapply NoDup_lookup; [|exact Hk'|exact Hk].
    rewrite sort_Ints_perm, range_ints_perm. apply NoDup_fst_map_to_list.
  - intros (-> & -> & Hs). exists k, (domain_id c). split_and!; [done|done| |].
    + simpl. by rewrite Hyn.
    + simpl. apply list_elem_of_filter. split; [|by apply Hall]. by split.
Qed.

End described.

(** ** Lemmas: the fold over the nodes *)

Section topology.
Context (ReadFile : list gostring → option gostring).
Context (range_ints : ∀ V : Type, gmap Z V → list (Z * V)).
Context (range_ints_perm : ∀ V (m : gmap Z V), range_ints V m ≡ₚ map_to_list m).

Definition node_name (id : Z) : gostring := go "numa_node_" ++ strconv_Itoa id.

Lemma node_name_inj id id' : node_name id = node_name id' → id = id'.
Proof. unfold node_name. by intros Heq%app_inv_head%Itoa_inj. Qed.

Definition total_cpus (l : list (Z * list Z)) : Z := foldr (λ p n, Z.of_nat (length p.2) + n) 0 l.

(** A flag of the nodes. *)
Definition some_node (flag : NumaNode * bool * bool → bool) (l : list (Z * list Z)) : Prop :=
  ∃ p r, p ∈ l ∧ node_of ReadFile range_ints p.2 = Ret r ∧ flag r = true.

Lemma numa_fold (l : list (Z * list Z)) :
  ∀ m n s a t, NoDup (map fst l) → foldM_go (add_node ReadFile range_ints) (m, n, s, a) l = Ret t →
  let '(m', n', s', a') := t in
  (∀ id, match list_to_map (M := gmap Z (list Z)) l !! id with
         | Some cpus => ∃ r, node_of ReadFile range_ints cpus = Ret r ∧ m' !! node_name id = Some r.1.1
         | None => m' !! node_name id = m !! node_name id end) ∧
  (∀ name, name ∉ map (λ p, node_name p.1) l → m' !! name = m !! name) ∧
  (in_i64 n → n' = i64 (n + total_cpus l)) ∧
  (s' = true ↔ s = true ∨ some_node (λ r, r.1.2) l) ∧ (a' = true ↔ a = true ∨ some_node (λ r, r.2) l).
Proof.
  induction l as [|[id cpus] l IH]; intros m n s a t Hnd Hf; simpl in Hf.
  { injection Hf as <-. split_and!; [done|done|intros Hn; by rewrite Z.add_0_r, i64_id| |];
      (split; [auto|intros [?|(p & r & Hp & _)]; [done|by apply elem_of_nil in Hp]]). }
  apply NoDup_cons in Hnd as [Hid Hnd].
  destruct (node_of ReadFile range_ints cpus) as [[[node smt] abs]| | |] eqn:Hnode; simpl in Hf; try done.
  specialize (IH _ _ _ _ _ Hnd Hf). destruct t as [[[m' n'] s'] a']. destruct IH as (H1 & H2 & H3 & H4 & H5).
  assert (∀ (flag : NumaNode * bool * bool → bool), some_node flag ((id, cpus) :: l) ↔
    flag (node, smt, abs) = true ∨ some_node flag l) as Hsome.
  { intros flag. unfold some_node. split.
    - intros (p & r & [->|Hp]%elem_of_cons & Hr & Hfl); [left; simpl in Hr; congruence|right; eauto].
    - intros [Hfl|(p & r & Hp & Hr & Hfl)]; [exists (id, cpus), (node, smt, abs); split_and!; [left|done|done]|].
      exists p, r. split_and!; [by right|done|done]. }
  split_and!.
  - intros id'. specialize (H1 id'). simpl. destruct (decide (id' = id)) as [->|Hne].
    + rewrite lookup_insert_eq. rewrite not_elem_of_list_to_map_1 in H1 by done. exists (node, smt, abs).
      split; [done|]. by rewrite H1, lookup_insert_eq.
    + rewrite lookup_insert_ne by done. destruct (list_to_map l !! id') as [cpus'|]; [done|].
      rewrite H1, lookup_insert_ne; [done|]. by intros Heq%node_name_inj.
  - intros name Hname. simpl in Hname. rewrite H2 by set_solver. apply lookup_insert_ne. set_solver.
  - intros Hn. rewrite H3 by apply i64_range. rewrite i64_add_l. simpl. f_equal. lia.
  - rewrite H4, orb_true_iff, Hsome. simpl. tauto.
  - rewrite H5, orb_true_iff, Hsome. simpl. tauto.
Qed.

(** *** Totality: when every list parses, so does the tree. *)

Context (ReadDir : list gostring → option (list (gostring * bool))).
Context (lists_parse : ∀ path s, ReadFile path = Some s → ∃ l, ParseCPUList (strings_TrimSpace s) = Ret l).

Lemma file_parses path s : readFileWithContext ReadFile path = Some s → ∃ l, ParseCPUList s = Ret l.
Proof. intros (raw & Hr & ->)%fmap_Some. by eapply lists_parse. Qed.

Lemma mapM_go_total {A B} (f : A → outcome B) l : (∀ x, ∃ y, f x = Ret y) → ∃ ys, mapM_go f l = Ret ys.
Proof.
  intros Hf. induction l as [|x l [ys IH]]; [by eexists|]. destruct (Hf x) as [y Hy].
  exists (y :: ys). simpl. by rewrite Hy; simpl; rewrite IH.
Qed.

Lemma foldM_go_total {A B} (f : B → A → outcome B) l : (∀ b x, ∃ b', f b x = Ret b') → ∀ b, ∃ b', foldM_go f b l = Ret b'.
Proof.
  intros Hf. induction l as [|x l IH]; intros b; [by eexists|]. destruct (Hf b x) as [b' Hb].
  destruct (IH b') as [b'' Hb']. exists b''. simpl. by rewrite Hb.
Qed.

Lemma read_cpu_total c : ∃ i, read_cpu ReadFile c = Ret i.
Proof.
  assert (∀ file dflt, ∃ l, match cpu_file ReadFile c file with Some s => ParseCPUList s | None => Ret dflt end = Ret l) as Hsib.
  { intros file dflt. destruct (cpu_file _ _ _) as [s|] eqn:Hs; [by apply file_parses in Hs|by eexists]. }
  assert (∀ file, ∃ l, match cpu_file ReadFile c file with Some s => Some <$> ParseCPUList s | None => Ret None end = Ret l) as Hl3.
  { intros file. destruct (cpu_file _ _ _) as [s|] eqn:Hs; [|by eexists]. apply file_parses in Hs as [l ->]. simpl. by eexists. }
  unfold read_cpu. destruct (Hsib (go "topology/thread_siblings_list") [c]) as [l ->].
  destruct (Hl3 (go "cache/index3/shared_cpu_list")) as [l' Hl']. rewrite Hl'. simpl. by eexists.
Qed.

Lemma node_of_total cpus : ∃ r, node_of ReadFile range_ints cpus = Ret r.
Proof.
  destruct (mapM_go_total (read_cpu ReadFile) cpus read_cpu_total) as [infos Hi].
  unfold node_of. rewrite Hi. simpl. by eexists.
Qed.

Lemma add_node_total acc node : ∃ acc', add_node ReadFile range_ints acc node = Ret acc'.
Proof.
  destruct acc as [[[m n] s] a]. unfold add_node. destruct (node_of_total node.2) as [[[nn smt] ab] ->]. simpl. by eexists.
Qed.

Lemma numa_nodes_total : ∃ nodes numa, numa_nodes ReadFile ReadDir = Ret (nodes, numa) ∧ nodes ≠ ∅ ∧ (numa = true ↔ (1 < size nodes)%nat).
Proof.
  unfold numa_nodes.
  assert (∃ m, match ReadDir nodeBase with None => Ret ∅ | Some entries => foldM_go (add_numa_node ReadFile) ∅ entries end = Ret m) as [m ->].
  { destruct (ReadDir nodeBase) as [entries|]; [|by eexists]. apply foldM_go_total. intros b e. unfold add_numa_node.
    destruct (dir_number _ _); [|by eexists]. destruct (readFileWithContext _ _) as [s|] eqn:Hs; [|by eexists].
    destruct (file_parses _ _ Hs) as [l ->]. simpl. by eexists. }
  simpl. case_decide as Hsize.
  - eexists _, false. split; [done|].
    assert (∀ (x : Z) (l : list Z), ({[x := l]} : gmap Z (list Z)) ≠ ∅ ∧ (false = true ↔ (1 < size ({[x := l]} : gmap Z (list Z)))%nat)) as Hone.
    { intros x l. split; [apply map_non_empty_singleton|]. rewrite map_size_singleton. split; [done|lia]. }
    destruct (map_to_list m) as [|[k v] l']; apply Hone.
  - exists m, true. split_and!; [done| |split; [lia|done]]. intros ->. rewrite map_size_empty in Hsize. lia.
Qed.

Lemma total_cpus_perm l l' : l ≡ₚ l' → total_cpus l = total_cpus l'.
Proof. unfold total_cpus. induction 1; simpl; lia. Qed.

Lemma some_node_perm flag l l' : l ≡ₚ l' → some_node flag l ↔ some_node flag l'.
Proof. intros Hl. unfold some_node. by setoid_rewrite Hl. Qed.

Lemma add_node_keys l : ∀ m n s a t, foldM_go (add_node ReadFile range_ints) (m, n, s, a) l = Ret t →
  ∀ name node, t.1.1.1 !! name = Some node → m !! name = Some node ∨ ∃ id, id ∈ map fst l ∧ name = node_name id.
Proof.
  induction l as [|[id cpus] l IH]; intros m n s a t Hf name node Ht; simpl in Hf.
  { injection Hf as <-. by left. }
  destruct (node_of ReadFile range_ints cpus) as [[[nd smt] ab]| | |]; simpl in Hf; try done.
  destruct (IH _ _ _ _ _ Hf _ _ Ht) as [Hm|(id' & Hid & ->)]; [|right; exists id'; split; [by right|done]].
  apply lookup_insert_Some in Hm as [[<- _]|[_ ?]]; [right; exists id; split; [left|done]|by left].
Qed.

End topology.

(** ** Properties *)

(** The kernel's lists parse to the CPUs they name. For ranges printed in the
    kernel's format, [ParseCPUList] returns their CPUs, sorted; ranges in
    ascending order give the CPUs as they stand. *)
Theorem ParseCPUList_ranges (ranges : list (Z * Z)) (Hr : ranges ≠ []) (Hgood : Forall good_range ranges) :
  let cpus := ranges ≫= range_cpus in
  (∃ l, ParseCPUList (strings_Join (map format_range ranges) (go ",")) = Ret l ∧ l ≡ₚ cpus ∧ StronglySorted Z.le l) ∧
  (StronglySorted Z.le cpus → ParseCPUList (strings_Join (map format_range ranges) (go ",")) = Ret cpus).
Proof.
  cbn zeta. assert (ParseCPUList (strings_Join (map format_range ranges) (go ",")) = Ret (sort_Ints (ranges ≫= range_cpus))) as ->.
  2:{ split; [|intros Hs; by rewrite sort_Ints_id]. eexists. split_and!; [done|apply sort_Ints_perm|apply sort_Ints_sorted]. }
  assert (∀ c, is_digit c = false → c ≠ "-"%char → Forall (λ s, c ∉ s) (map format_range ranges)) as Hsep.
  { intros c Hc Hm. apply Forall_map, Forall_forall. intros [lo hi] _. unfold format_range. simpl.
    case_match; [by apply Itoa_not_in|]. rewrite not_elem_of_app, not_elem_of_cons. split_and!; [by apply Itoa_not_in|done|by apply Itoa_not_in]. }
  assert (mapM_go parse_part (map format_range ranges) = Ret (map range_cpus ranges)) as Hmap.
  { clear Hr Hsep. induction Hgood as [|r ranges Hr _ IH]; [done|]. simpl. rewrite parse_part_format by done. simpl. by rewrite IH. }
  unfold ParseCPUList. destruct (strings_Join _ _) as [|x s] eqn:Hj.
  { exfalso. destruct ranges as [|[lo hi] ranges]; [done|]. apply Forall_cons in Hgood as [[Hlo _] _].
    assert (format_range (lo, hi) ≠ []) as Hne.
    { unfold format_range. simpl in *. rewrite (Itoa_digits lo) by lia. destruct (udec_spec lo) as (Hu & _); [lia|].
      destruct (lo =? hi); [exact Hu|]. by intros [? _]%app_nil. }
    simpl in Hj. destruct (map format_range ranges); [done|]. by apply app_nil in Hj as [? _]. }
  rewrite <-Hj. change (go ",") with [","%char]. rewrite strings_Split_Join; [|by destruct ranges|by apply Hsep].
  rewrite Hmap. simpl. do 2 f_equal. clear. induction ranges; simpl; [done|]. by f_equal.
Qed.

(** C26: The tree of a node against the hardware. When sysfs describes a machine
    whose core numbers are unique within a socket only, whose cores are behind one
    L3 cache each and whose caches are in one socket each, the node's tree is
    built, and a CPU is in it exactly when the machine has L3 information, or the
    first CPU of the node with its core number is on its own socket (so that of
    two sockets without L3 information, one core of each shared number is lost). A
    CPU in the tree is at one place: a core with its socket, its core number and
    the CPUs of its core, in a domain that lists the CPUs of its cache, or the
    node's where there is no L3 information. *)
Theorem cpus_placed_once (ReadFile : list gostring → option gostring)
  (range_ints : ∀ V : Type, gmap Z V → list (Z * V))
  (Hrange : ∀ V (m : gmap Z V), range_ints V m ≡ₚ map_to_list m)
  (hw : machine) (all cpus : list Z) (l3 : bool) (Hhw : machine_ok hw) (Hall : cpus ⊆ all)
  (Hsysfs : Forall (describes ReadFile hw all l3) cpus) :
  ∃ node smt abstracted, node_of ReadFile range_ints cpus = Ret (node, smt, abstracted) ∧
    ∀ c, c ∈ cpus →
      ((∃ name core, placed node c name core) ↔ in_tree hw cpus l3 c) ∧
      ∀ name core, placed node c name core →
        core = MkPhysicalCore (hw_socket hw c) (hw_core hw c) (filter (same_core hw c) all) ∧
        (∃ dom, node !! name = Some dom ∧ ld_SharedLogicalCPUs dom = cache_cpus hw all cpus l3 c) ∧
        ∀ name' core', placed node c name' core' → name' = name ∧ core' = core.
Proof.
  unfold node_of. rewrite (read_described hw all cpus l3 Hhw ReadFile Hsysfs). simpl. eexists _, _, _. split; [done|].
  intros c Hc. destruct (placed_described range_ints Hrange hw all cpus l3 Hhw Hall c Hc) as (k & y & Hk & Hy & Hin & Hpl).
  split.
  - rewrite <-Hin. split.
    + by intros (name & core & (_ & _ & ?)%Hpl).
    + intros Hs. eexists _, _. by apply Hpl.
  - intros name core (-> & -> & Hs)%Hpl. split_and!; [|done|].
    + unfold core_of. simpl. f_equal; [done..|]. apply list_filter_iff. intros x. unfold same_core. by rewrite Hs, Hy.
    + by intros name' core' (-> & -> & _)%Hpl.
Qed.

(** The whole tree. When every list of CPUs it reads parses (their ranges do not
    reach the largest int), [GetTopology] returns, with at least one node; the tree
    has exactly the nodes sysfs names (one node when there are none or one), each
    with its own tree; and the summary counts the nodes and their CPUs, and says
    whether some node has SMT, or a CPU without L3 information. *)
Theorem GetTopology_complete (ReadFile : list gostring → option gostring) (ReadDir : list gostring → option (list (gostring * bool)))
  (range_ints : ∀ V : Type, gmap Z V → list (Z * V))
  (Hrange : ∀ V (m : gmap Z V), range_ints V m ≡ₚ map_to_list m)
  (Hread : ∀ path s, ReadFile path = Some s → ∃ l, ParseCPUList (strings_TrimSpace s) = Ret l) :
  ∃ nodes numa t, numa_nodes ReadFile ReadDir = Ret (nodes, numa) ∧ GetTopology ReadFile ReadDir range_ints = Ret t ∧
    nodes ≠ ∅ ∧
    (∀ name node, st_Topology t !! name = Some node ↔
       ∃ id cpus smt abs, nodes !! id = Some cpus ∧ name = node_name id ∧ node_of ReadFile range_ints cpus = Ret (node, smt, abs)) ∧
    let s := st_SystemSummary t in
    ss_TotalNumaNodes s = Z.of_nat (size nodes) ∧ (ss_IsNuma s = true ↔ (1 < size nodes)%nat) ∧
    ss_TotalLogicalCPUs s = i64 (total_cpus (map_to_list nodes)) ∧
    (ss_SMTEnabled s = true ↔ some_node ReadFile range_ints (λ r, r.1.2) (map_to_list nodes)) ∧
    (ss_L3TopologyAbstracted s = true ↔ some_node ReadFile range_ints (λ r, r.2) (map_to_list nodes)).
Proof.
  destruct (numa_nodes_total ReadFile ReadDir Hread) as (nodes & numa & Hn & Hne & Hnuma).
  destruct (foldM_go_total (add_node ReadFile range_ints) (range_ints _ nodes)
    (add_node_total ReadFile range_ints Hread) (∅, 0, false, false)) as [[[[m n] smt] ab] Hf].
  eexists nodes, numa, _. split_and!; [done|unfold GetTopology; rewrite Hn; simpl; rewrite Hf; simpl; reflexivity|done|..]; simpl.
  all: pose proof (Hrange _ nodes) as Hp.
  all: assert (NoDup (map fst (range_ints _ nodes))) as Hnd by (rewrite Hp; apply NoDup_fst_map_to_list).
  all: destruct (numa_fold ReadFile range_ints Hrange (range_ints _ nodes) ∅ 0 false false (m, n, smt, ab) Hnd Hf) as (H1 & H2 & H3 & H4 & H5).
  - intros name node. assert (list_to_map (range_ints _ nodes) = nodes) as Hmap.
    { rewrite (list_to_map_proper _ (map_to_list nodes)) by done. apply list_to_map_to_list. }
    rewrite Hmap in H1. split.
    + intros Hname. destruct (add_node_keys ReadFile range_ints _ _ _ _ _ _ Hf name node Hname) as [Hm|(id & Hid & ->)]; [done|].
      specialize (H1 id). rewrite Hp, list_elem_of_fmap in Hid. destruct Hid as ([id' cpus] & -> & Hid%elem_of_map_to_list).
      simpl in *. rewrite Hid in H1. destruct H1 as ([[nd sm] a] & Hnode & Hl). rewrite Hname in Hl. injection Hl as ->.
      by exists id', cpus, sm, a.
    + intros (id & cpus & sm & a & Hid & -> & Hnode). specialize (H1 id). rewrite Hid in H1.
      destruct H1 as (r & Hr & ->). rewrite Hnode in Hr. by injection Hr as <-.
  - assert (∀ (b : bool) (P : Prop), (b = true ↔ false = true ∨ P) → b = true ↔ P) as Hflag by naive_solver.
    do 2 (split; [done|]). split; [rewrite H3 by i64_lia; simpl; f_equal; by apply total_cpus_perm|].
    split; apply Hflag.
    + by rewrite H4, (some_node_perm _ _ _ _ _ Hp).
    + by rewrite H5, (some_node_perm _ _ _ _ _ Hp).
Qed.

(** A core is lost. On a machine of two sockets with one node and no L3
    information (a virtual machine), the first core of each socket has the number
    0: the second is not in the tree, though its CPU is counted. *)
Theorem same_core_number_lost :
  let ReadFile path := match path with
    | [_; cpu; file] =>
        if decide (file = go "topology/core_id") then Some (go "0")
        else if decide (file = go "topology/physical_package_id") then Some (if decide (cpu = go "cpu0") then go "0" else go "1")
        else if decide (file = go "topology/thread_siblings_list") then Some (if decide (cpu = go "cpu0") then go "0" else go "1")
        else None
    | _ => None
    end in
  let ReadDir path := if decide (path = cpuBase) then Some [(go "cpu0", true); (go "cpu1", true)] else None in
  ∃ t, GetTopology ReadFile ReadDir (λ V m, map_to_list m) = Ret t ∧ ss_TotalLogicalCPUs (st_SystemSummary t) = 2 ∧
    st_Topology t = {[node_name 0 := {[domain_name 0 := MkL3CacheDomain [0; 1] [MkPhysicalCore 0 0 [0]]]}]}.
Proof. cbn zeta. eexists. split_and!; [vm_compute; reflexivity|done|vm_compute; reflexivity]. Qed.

(** ** Witnesses *)

Lemma ParseCPUList_ranges_witness :
  let ranges := [(0, 2); (5, 5)] in
  ranges ≠ [] ∧ Forall good_range ranges ∧ ParseCPUList (strings_Join (map format_range ranges) (go ",")) = Ret [0; 1; 2; 5].
Proof.
  cbn zeta. assert (Forall good_range [(0, 2); (5, 5)]) as Hg by (repeat constructor; simpl; i64_lia).
  split_and!; [done|done|]. eapply (ParseCPUList_ranges [(0, 2); (5, 5)]); [done|done|].
  vm_compute. repeat constructor; done.
Defined.

Definition two_threads : list gostring → option gostring := λ path,
  match path with
  | [_; _; file] => if decide (file = go "topology/thread_siblings_list") then Some (go "0-1") else None
  | _ => None
  end.

(** Two sockets of one core each, both with the number 0. *)
Definition two_sockets : machine := MkMachine (λ c, if decide (c = 0) then 0 else 1) (λ _, 0) (λ c, if decide (c = 0) then 0 else 1).

Definition two_sockets_sysfs : list gostring → option gostring := λ path,
  match path with
  | [_; cpu; file] =>
      let n := if decide (cpu = go "cpu0") then go "0" else go "1" in
      if decide (file = go "topology/core_id") then Some (go "0") else Some n
  | _ => None
  end.

Lemma cpus_placed_once_witness :
  Forall (describes two_sockets_sysfs two_sockets [0; 1] true) [0; 1] ∧
  ∃ node smt abstracted, node_of two_sockets_sysfs (λ V m, map_to_list m) [0; 1] = Ret (node, smt, abstracted) ∧
    ∃ name core, placed node 1 name core.
Proof.
  assert (Forall (describes two_sockets_sysfs two_sockets [0; 1] true) [0; 1]) as Hd.
  { constructor; [|constructor; [|constructor]];
      (split; [reflexivity|reflexivity|eexists; split; [reflexivity|vm_compute; reflexivity]..]). }
  split; [exact Hd|].
  destruct (cpus_placed_once two_sockets_sysfs (λ V m, map_to_list m) ltac:(done) two_sockets [0; 1] [0; 1] true)
    as (node & smt & abstracted & Hnode & Hc).
  - split; [by intros c c' [Hs _]|done|]. intros c. unfold MaxInt64, two_sockets. simpl. case_decide; lia.
  - done.
  - exact Hd.
  - exists node, smt, abstracted. split; [exact Hnode|]. apply (Hc 1); [right; left|]. left. reflexivity.
Defined.

Lemma GetTopology_complete_witness :
  ∃ t, GetTopology two_threads (λ _, None) (λ V m, map_to_list m) = Ret t ∧
    ss_TotalNumaNodes (st_SystemSummary t) = 1.
Proof.
  destruct (GetTopology_complete two_threads (λ _, None) (λ V m, map_to_list m)) as (nodes & numa & t & Hn & Ht & _ & _ & Hs & _).
  - done.
  - intros path s Hs. unfold two_threads in Hs. repeat case_match; simplify_eq. eexists. vm_compute. reflexivity.
  - exists t. split; [done|]. rewrite Hs. vm_compute in Hn. injection Hn as <- _. reflexivity.
Defined.
