(* ===== verification/GoOs.v ===== *)
(** * Reading numbers and files: what the readers of procfs and sysfs share

    The values [strconv.ParseUint] and [ParseInt] return, also with an error the
    caller ignores; [math.Round] and [math.Min]; and the file system as what each
    file, directory and link reads as. *)

From Stdlib Require Import Ascii.
From stdpp Require Import base numbers gmap strings sorting list.
From S2P Require Import Prelude GoStrings GoFloat GoNet.

Open Scope Z_scope.

(** ** Numbers *)

(** [d.Seconds()] of a duration *)
Definition Seconds (d : Z) : float64 :=
  f64_add (f64_of_Z (Z.quot d second)) (f64_div (f64_of_Z (Z.rem d second)) (f64_of_Z second)).

Definition MaxUint64 : Z := 18446744073709551615.

Variant num_error := ErrSyntax | ErrRange.

(** [strconv.ParseUint(s, 10, 64)]: the value, which is the largest one when
    digits overflow, and the error. *)
Fixpoint uint_loop (n : Z) (s : gostring) : Z * option num_error :=
  match s with
  | [] => (n, None)
  | c :: s =>
      if is_digit c then
        let n1 := n * 10 + digit_val c in
        if MaxUint64 <? n1 then (MaxUint64, Some ErrRange) else uint_loop n1 s
      else (0, Some ErrSyntax)
  end.

Definition ParseUint (s : gostring) : Z * option num_error :=
  match s with [] => (0, Some ErrSyntax) | _ => uint_loop 0 s end.

(** [strconv.ParseInt(s, 10, 64)], and the value and error of [strconv.Atoi]. *)
Definition ParseInt (s : gostring) : Z * option num_error :=
  let '(neg, body) :=
    match s with
    | "-"%char :: r => (true, r)
    | "+"%char :: r => (false, r)
    | _ => (false, s)
    end in
  match ParseUint body with
  | (_, Some ErrSyntax) => (0, Some ErrSyntax)
  | (un, _) =>
      if (neg : bool) then if 2 ^ 63 <? un then (MinInt64, Some ErrRange) else (- un, None)
      else if 2 ^ 63 <=? un then (MaxInt64, Some ErrRange) else (un, None)
  end.

(** [v, _ := ...] *)
Definition uint_of (s : gostring) : Z := (ParseUint s).1.
Definition int_of (s : gostring) : Z := (ParseInt s).1.

(** [math.Round]: to the nearest integer, halves away from zero. *)
Definition math_Round (x : float64) : float64 :=
  match x with
  | S754_finite s m e =>
      if 0 <=? e then x
      else
        let k := - e in
        let q := Z.shiftr (Z.pos m + Z.shiftl 1 (k - 1)) k in
        binary_normalize 53 1024 (if s then - q else q) 0 s
  | _ => x
  end.

Definition signbit (x : float64) : bool :=
  match x with S754_zero s | S754_infinity s | S754_finite s _ _ => s | S754_nan => false end.

(** [math.Min] *)
Definition math_Min (x y : float64) : float64 :=
  match x, y with
  | S754_infinity true, _ | _, S754_infinity true => S754_infinity true
  | S754_nan, _ | _, S754_nan => S754_nan
  | S754_zero _, S754_zero _ => if signbit x then x else y
  | _, _ => if f64_ltb x y then x else y
  end.

(** [math.Max] *)
Definition math_Max (x y : float64) : float64 :=
  match x, y with
  | S754_infinity false, _ | _, S754_infinity false => S754_infinity false
  | S754_nan, _ | _, S754_nan => S754_nan
  | S754_zero _, S754_zero _ => if signbit x then y else x
  | _, _ => if f64_ltb y x then x else y
  end.

(** ** Files *)

Record dir_entry := MkDirEntry { de_Name : gostring; de_IsDir : bool; de_Symlink : bool }.

(** The error [os.IsNotExist] is true of. *)
Definition ErrNotExist : goerr := Errorf "file does not exist".

Definition IsNotExist (e : goerr) : bool := bool_decide (e = ErrNotExist).

(** A file system at the moment of a call. A path is the list of the elements
    [filepath.Join] puts together. [Stat] tells whether a path is a directory; names in
    a directory are distinct. *)
Class FileSystem := {
  ReadFile : list gostring → gostring + goerr;
  ReadDir : list gostring → list dir_entry + goerr;
  Stat : list gostring → bool + goerr;
  Readlink : list gostring → gostring + goerr;
  ReadDir_names p l : ReadDir p = inl l → NoDup (map de_Name l)
}.

(** [registry.PathExists] *)
Definition path_exists `{FileSystem} (path : list gostring) : bool := match Stat path with inl _ => true | inr _ => false end.

(** A file as trimmed text, empty on any error. *)
Definition read_trimmed `{FileSystem} (path : list gostring) : gostring :=
  match ReadFile path with inl data => strings_TrimSpace data | inr _ => [] end.

(** The lines a scanner gives before the first that is too long for it, split
    into fields. *)
Definition scan_fields (data : gostring) : list (list gostring) :=
  map strings_Fields (scan_lines (raw_lines data)).1.

(** [os.Open] and a scanner over the lines; the scanner's error, if a line is
    too long. *)
Definition scan_file `{FileSystem} (path : list gostring) : list (list gostring) * option goerr + goerr :=
  match ReadFile path with
  | inr e => inr e
  | inl data => inl (scan_fields data, if (scan_lines (raw_lines data)).2 then Some ErrTooLong else None)
  end.

(** ** Lemmas *)

Lemma digit_val_nonneg c : is_digit c = true → 0 ≤ digit_val c.
Proof. unfold is_digit, digit_val. intros [Hc%N.leb_le _]%andb_prop. lia. Qed.

Lemma uint_loop_range n s : 0 ≤ n ≤ MaxUint64 → 0 ≤ (uint_loop n s).1 ≤ MaxUint64.
Proof.
  revert n. induction s as [|c s IH]; intros n Hn; simpl; [done|].
  destruct (is_digit c) eqn:Hc; [|done].
  pose proof (digit_val_nonneg c Hc).
  destruct (Z.ltb_spec MaxUint64 (n * 10 + digit_val c)); [done|]. apply IH. lia.
Qed.

Lemma uint_of_range s : 0 ≤ uint_of s < 2 ^ 64.
Proof.
  assert (0 ≤ uint_of s ≤ MaxUint64); [|unfold MaxUint64 in *; lia].
  unfold uint_of, ParseUint. destruct s; [done|]. by apply uint_loop_range.
Qed.

(** The text of a number in range has its value and no error. *)
Lemma uint_loop_digits n s v :
  0 ≤ n → atoi_digits n s = Some v → v ≤ MaxUint64 → uint_loop n s = (v, None).
Proof.
  revert n. induction s as [|c s IH]; intros n Hn Hv Hmax; simpl in *; [by injection Hv as ->|].
  destruct (is_digit c) eqn:Hc; [|done].
  pose proof (digit_val_nonneg c Hc).
  assert (n * 10 + digit_val c ≤ v) as Hle.
  { clear -Hv Hn Hc. pose proof (digit_val_nonneg c Hc). assert (0 ≤ n * 10 + digit_val c) as H0 by lia. revert Hv H0. generalize (n * 10 + digit_val c). clear.
    induction s as [|c s IH]; intros n Hv H0; simpl in *; [by injection Hv as ->|]. destruct (is_digit c) eqn:Hc; [|done].
    pose proof (digit_val_nonneg c Hc). apply IH in Hv; lia. }
  rewrite (proj2 (Z.ltb_ge _ _)) by lia. apply IH; [lia|done|done].
Qed.

Lemma ParseUint_udec v : 0 ≤ v ≤ MaxUint64 → ParseUint (udec v) = (v, None).
Proof.
  intros Hv. destruct (udec_spec v) as (Hne & _ & Hval & _); [lia|]. specialize (Hval 0). unfold ParseUint. destruct (udec v) eqn:Hu; [done|].
  rewrite <-Hu in *. apply uint_loop_digits; [lia|done|lia].
Qed.

Lemma ParseInt_Itoa v : in_i64 v → ParseInt (strconv_Itoa v) = (v, None).
Proof.
  intros Hv. unfold ParseInt, strconv_Itoa. destruct (Z.ltb_spec v 0).
  - rewrite ParseUint_udec by (unfold MaxUint64; i64_lia). rewrite (proj2 (Z.ltb_ge _ _)) by i64_lia. f_equal. lia.
  - destruct (udec_spec v) as (Hne & Hd & _); [lia|].
    assert (match udec v with "-"%char :: r => (true, r) | "+"%char :: r => (false, r) | _ => (false, udec v) end = (false, udec v)) as ->.
    { destruct (udec v) as [|c s]; [done|]. apply Forall_cons in Hd as [Hc _]. repeat case_match; done. }
    rewrite ParseUint_udec by (unfold MaxUint64; i64_lia). by rewrite (proj2 (Z.leb_gt _ _)) by i64_lia.
Qed.

(** Numbers are words. *)
Lemma word_udec n : 0 ≤ n → word (udec n).
Proof. intros Hn. destruct (udec_spec n Hn) as (Hne & Hd & _). split; [done|by apply digits_solid]. Qed.

Lemma word_Itoa n : word (strconv_Itoa n).
Proof.
  unfold strconv_Itoa. destruct (Z.ltb_spec n 0); [|by apply word_udec].
  split; [done|]. constructor; [done|]. apply word_udec. lia.
Qed.

Lemma uint_of_udec n : 0 ≤ n ≤ MaxUint64 → uint_of (udec n) = n.
Proof. intros Hn. unfold uint_of. by rewrite ParseUint_udec. Qed.

Lemma int_of_Itoa n : in_i64 n → int_of (strconv_Itoa n) = n.
Proof. intros Hn. unfold int_of. by rewrite ParseInt_Itoa. Qed.

Lemma scan_file_words `{FileSystem} path ls :
  ReadFile path = inl (print_lines ls) → Forall word_line ls → scan_file path = inl (ls, None).
Proof. intros Hr Hl. unfold scan_file, scan_fields. rewrite Hr. by destruct (scan_words ls Hl) as [-> ->]. Qed.

(** ** Lemmas: the first of a sorted slice *)

Lemma ltb_strict_weak {A} (key : A → Z) (l : list A) : strict_weak (λ a b, key a <? key b) l.
Proof. split; intros; rewrite ?Z.ltb_lt in *; lia. Qed.

Lemma str_strict_weak {A} (key : A → gostring) (l : list A) : strict_weak (λ a b, str_ltb (key a) (key b)) l.
Proof.
  destruct str_ltb_strict as [Hirr Htr]. split.
  - intros a _. apply not_true_iff_false, Hirr.
  - intros a b c _ _ _. apply Htr.
  - intros a b c _ _ _ Hab. destruct (str_ltb_total (key a) (key c)) as [?|[Heq|?]]; [by left|right; by rewrite <-Heq|].
    right. by apply (Htr _ (key a)).
Qed.

(** Larger numbers first, then another order. *)
Definition larger_then {A} (n : A → Z) (less : A → A → bool) (a b : A) : bool := if n a =? n b then less a b else n b <? n a.

Lemma larger_then_strict_weak {A} (n : A → Z) less (l : list A) : strict_weak less l → strict_weak (larger_then n less) l.
Proof.
  intros [Hirr Htr Hco]. unfold larger_then. split.
  - intros a Ha. rewrite Z.eqb_refl. by apply Hirr.
  - intros a b c Ha Hb Hc. destruct (Z.eqb_spec (n a) (n b)), (Z.eqb_spec (n b) (n c)), (Z.eqb_spec (n a) (n c)); rewrite ?Z.ltb_lt; try lia. by apply Htr.
  - intros a b c Ha Hb Hc. destruct (Z.eqb_spec (n a) (n b)), (Z.eqb_spec (n c) (n b)), (Z.eqb_spec (n a) (n c)); rewrite ?Z.ltb_lt; try lia. by apply Hco.
Qed.

(** The first of a sorted slice, and the others: none of them is before one of the
    first. *)
Lemma take_sort_slice `{GoSort} {A} (less : A → A → bool) (l : list A) (n : nat) :
  strict_weak less l →
  ∃ rest, take n (sort_slice less l) ++ rest ≡ₚ l ∧ less_sorted less (take n (sort_slice less l)) ∧
    (length (take n (sort_slice less l)) = n ∨ rest = []) ∧
    ∀ x y, x ∈ take n (sort_slice less l) → y ∈ rest → less y x = false.
Proof.
  intros Hsw. apply sort_slice_sorted in Hsw. exists (drop n (sort_slice less l)).
  unfold less_sorted in *. rewrite <-(take_drop n (sort_slice less l)) in Hsw. apply StronglySorted_app in Hsw as (Hx & Hs & _). split_and!.
  - rewrite take_drop. apply sort_slice_perm.
  - done.
  - destruct (decide (n ≤ length (sort_slice less l))%nat); [left; by rewrite length_take_le|right; apply drop_ge; lia].
  - intros x y Hx' Hy. by apply Hx.
Qed.

Lemma StronglySorted_weaken {A} (R S : A → A → Prop) l : (∀ a b, R a b → S a b) → StronglySorted R l → StronglySorted S l.
Proof.
  intros HRS Hl. induction Hl as [|x l Hl IH Hx]; constructor; [done|]. eapply Forall_impl; [exact Hx|]. intros y. apply HRS.
Qed.

(** The same where the relations are only compared on elements of the list. *)
Lemma StronglySorted_in {A} (R S : A → A → Prop) l : (∀ a b, a ∈ l → b ∈ l → R a b → S a b) → StronglySorted R l → StronglySorted S l.
Proof.
  intros HRS Hl. induction Hl as [|x l Hl IH Hx]; constructor.
  - apply IH. intros a b Ha Hb. apply HRS; by right.
  - rewrite Forall_forall in *. intros y Hy. apply HRS; [left|by right|by apply Hx].
Qed.

Lemma StronglySorted_map {A B} (f : A → B) (R : B → B → Prop) l : StronglySorted (λ a b, R (f a) (f b)) l → StronglySorted R (map f l).
Proof. induction 1 as [|x l _ IH Hx]; constructor; [done|]. by apply Forall_map. Qed.

(** The [k] largest. *)
Lemma take_larger `{GoSort} {A} (n : A → Z) (less : A → A → bool) (l : list A) (k : nat) :
  strict_weak less l →
  ∃ others, take k (sort_slice (larger_then n less) l) ++ others ≡ₚ l ∧
    (length (take k (sort_slice (larger_then n less) l)) = k ∨ others = []) ∧
    StronglySorted (λ a b, n b ≤ n a) (take k (sort_slice (larger_then n less) l)) ∧
    ∀ a b, a ∈ take k (sort_slice (larger_then n less) l) → b ∈ others → n b ≤ n a.
Proof.
  intros Hsw. destruct (take_sort_slice (larger_then n less) l k) as (others & Hperm & Hsorted & Hlen & Hle); [by apply larger_then_strict_weak|].
  assert (∀ a b, larger_then n less b a = false → n b ≤ n a) as Hless.
  { intros a b. unfold larger_then. destruct (Z.eqb_spec (n b) (n a)); [lia|]. rewrite Z.ltb_ge. lia. }
  exists others. split_and!; [done|done| |by eauto]. eapply StronglySorted_weaken; [|exact Hsorted]. auto.
Qed.

(** ** Lemmas: ranging over a map *)

Lemma range_keys `{GoRange} {V} (m : gmap gostring V) n : n ∈ map fst (range_map m) ↔ is_Some (m !! n).
Proof.
  rewrite list_elem_of_fmap. split.
  - intros ([k v] & -> & Hin). rewrite range_map_perm in Hin. apply elem_of_map_to_list in Hin. by eexists.
  - intros [v Hv]. exists (n, v). split; [done|]. rewrite range_map_perm. by apply elem_of_map_to_list.
Qed.

Lemma range_keys_NoDup `{GoRange} {V} (m : gmap gostring V) : NoDup (map fst (range_map m)).
Proof. change (NoDup ((range_map m).*1)). rewrite range_map_perm. apply NoDup_fst_map_to_list. Qed.

(** ** A file system in memory *)

Definition assoc {A} (path : list gostring) (l : list (list gostring * A)) : option A :=
  snd <$> head (filter (λ e, e.1 = path) l).

#[export] Instance dir_entry_eq_dec : EqDecision dir_entry.
Proof. solve_decision. Defined.

(** Files, directories (listings that repeat a name cannot be read) and links. *)
Program Definition mem_fs (files : list (list gostring * gostring)) (dirs : list (list gostring * list dir_entry))
    (links : list (list gostring * gostring)) : FileSystem := {|
  ReadFile p := match assoc p files with Some data => inl data | None => inr ErrNotExist end;
  ReadDir p := match assoc p dirs with
               | Some l => if decide (NoDup (map de_Name l)) then inl l else inr (Errorf "input/output error")
               | None => inr ErrNotExist
               end;
  Stat p := match assoc p dirs with
            | Some _ => inl true
            | None => match assoc p files with Some _ => inl false | None => inr ErrNotExist end
            end;
  Readlink p := match assoc p links with Some t => inl t | None => inr ErrNotExist end
|}.
Next Obligation. intros files dirs links p l. simpl. destruct (assoc p dirs); [|done]. case_decide; congruence. Qed.
