(* ===== verification/GoHex.v ===== *)
(** * Hexadecimal numbers: [strconv] in base 16, and what the kernel prints *)

From Stdlib Require Import Ascii.
From stdpp Require Import base numbers strings list.
From S2P Require Import Prelude GoStrings GoNet GoOs.

Open Scope Z_scope.

(** The loop of [strconv.ParseUint(s, 16, bits)] *)
Fixpoint hex_loop (bits n : Z) (s : gostring) : Z * option num_error :=
  match s with
  | [] => (n, None)
  | c :: s =>
      match hex_val c with
      | None => (0, Some ErrSyntax)
      | Some d => let n1 := n * 16 + d in if 2 ^ bits <=? n1 then (2 ^ bits - 1, Some ErrRange) else hex_loop bits n1 s
      end
  end.

Definition ParseUint16 (bits : Z) (s : gostring) : Z * option num_error := match s with [] => (0, Some ErrSyntax) | _ => hex_loop bits 0 s end.

(** The value of [strconv.ParseInt(s, 16, bits)], whose error is ignored. *)
Definition int16_of (bits : Z) (s : gostring) : Z :=
  let '(neg, body) := match s with "-"%char :: r => (true, r) | "+"%char :: r => (false, r) | _ => (false, s) end in
  match ParseUint16 bits body with
  | (_, Some ErrSyntax) => 0
  | (un, _) =>
      if (neg : bool) then if 2 ^ (bits - 1) <? un then - 2 ^ (bits - 1) else - un
      else if 2 ^ (bits - 1) <=? un then 2 ^ (bits - 1) - 1 else un
  end.

(** ** Printing *)

Definition hex_upper (d : Z) : ascii := if d <? 10 then ascii_of_N (Z.to_N (d + 48)) else ascii_of_N (Z.to_N (d + 55)).
Definition hex_lower (d : Z) : ascii := if d <? 10 then ascii_of_N (Z.to_N (d + 48)) else ascii_of_N (Z.to_N (d + 87)).

(** Digits that are read back. *)
Class HexDigits (digit : Z → ascii) := hex_digit_spec d : 0 ≤ d < 16 → hex_val (digit d) = Some d ∧ solid (digit d) = true.

(** The last [n] digits of a number, as the kernel prints it. *)
Fixpoint hexn_of (digit : Z → ascii) (n : nat) (v : Z) : gostring :=
  match n with O => [] | S n => hexn_of digit n (v / 16) ++ [digit (v mod 16)] end.

Abbreviation hexn := (hexn_of hex_upper).

Lemma HexDigits_all digit : Forall (λ d, hex_val (digit d) = Some d ∧ solid (digit d) = true) (seqZ 0 16) → HexDigits digit.
Proof. rewrite Forall_forall. intros H d Hd. apply H. apply elem_of_seqZ. lia. Qed.

#[export] Instance hex_upper_digits : HexDigits hex_upper.
Proof. apply HexDigits_all. by_decide. Qed.

#[export] Instance hex_lower_digits : HexDigits hex_lower.
Proof. apply HexDigits_all. by_decide. Qed.

Lemma hex_loop_app bits n s t m : hex_loop bits n s = (m, None) → hex_loop bits n (s ++ t) = hex_loop bits m t.
Proof.
  revert n. induction s as [|c s IH]; intros n; simpl; [intros Heq; by injection Heq as ->|].
  destruct (hex_val c); [|done]. destruct (2 ^ bits <=? _); [done|]. apply IH.
Qed.

Section hexn.
Context {digit : Z → ascii} `{!HexDigits digit}.

Lemma hex_loop_hexn bits k v : 0 ≤ v → 0 ≤ bits → 16 ^ Z.of_nat k ≤ 2 ^ bits → hex_loop bits 0 (hexn_of digit k v) = (v mod 16 ^ Z.of_nat k, None).
Proof.
  intros Hv Hb. revert v Hv. induction k as [|k IH]; intros v Hv Hk; [simpl; by rewrite Z.mod_1_r|].
  rewrite Nat2Z.inj_succ, Z.pow_succ_r by lia. rewrite Nat2Z.inj_succ, Z.pow_succ_r in Hk by lia. cbn [hexn_of].
  assert (0 < 16 ^ Z.of_nat k) as Hpos by (apply Z.pow_pos_nonneg; lia).
  assert (16 ^ Z.of_nat k ≤ 2 ^ bits) as Hk' by lia.
  assert (0 ≤ v / 16) as Hv' by (apply Z.div_pos; lia).
  rewrite (hex_loop_app _ _ _ _ _ (IH (v / 16) Hv' Hk')). cbn [hex_loop].
  destruct (hex_digit_spec (v mod 16)) as [-> _]; [apply Z.mod_pos_bound; lia|].
  assert (v / 16 mod 16 ^ Z.of_nat k * 16 + v mod 16 = v mod (16 * 16 ^ Z.of_nat k)) as ->.
  { rewrite Z.rem_mul_r by lia. lia. }
  rewrite (proj2 (Z.leb_gt _ _)); [done|]. pose proof (Z.mod_pos_bound v (16 * 16 ^ Z.of_nat k)). lia.
Qed.

Lemma ParseUint16_hexn bits k v : (0 < k)%nat → 0 ≤ v < 16 ^ Z.of_nat k → 0 ≤ bits → 16 ^ Z.of_nat k ≤ 2 ^ bits → ParseUint16 bits (hexn_of digit k v) = (v, None).
Proof.
  intros Hk Hv Hb Hle. unfold ParseUint16. destruct (hexn_of digit k v) eqn:E.
  - destruct k; [lia|]. cbn [hexn_of] in E. by apply app_nil in E as [_ ?].
  - rewrite <-E, hex_loop_hexn by lia. by rewrite Z.mod_small.
Qed.

Lemma length_hexn k v : length (hexn_of digit k v) = k.
Proof. revert v. induction k as [|k IH]; intros v; [done|]. simpl. rewrite length_app, IH. simpl. lia. Qed.

Lemma word_hexn k v : (0 < k)%nat → word (hexn_of digit k v).
Proof.
  intros Hk. split; [intros E; apply (f_equal length) in E; rewrite length_hexn in E; simpl in E; lia|]. clear Hk.
  revert v. induction k as [|k IH]; intros v; [constructor|]. cbn [hexn_of]. apply Forall_app. split; [apply IH|].
  constructor; [|done]. apply hex_digit_spec. apply Z.mod_pos_bound. lia.
Qed.

Lemma hexn_not_in c k v : hex_val c = None → c ∉ hexn_of digit k v.
Proof.
  intros Hc. revert v. induction k as [|k IH]; intros v; [apply not_elem_of_nil|]. cbn [hexn_of]. rewrite elem_of_app, list_elem_of_singleton.
  intros [Hin|Heq]; [by apply (IH (v / 16))|]. destruct (hex_digit_spec (digit := digit) (v mod 16)) as [Hd _]; [apply Z.mod_pos_bound; lia|]. congruence.
Qed.

Lemma hexn_inj bits k v w : (0 < k)%nat → 0 ≤ bits → 16 ^ Z.of_nat k ≤ 2 ^ bits → 0 ≤ v < 16 ^ Z.of_nat k → 0 ≤ w < 16 ^ Z.of_nat k →
  hexn_of digit k v = hexn_of digit k w → v = w.
Proof.
  intros Hk Hb Hle Hv Hw Heq. pose proof (ParseUint16_hexn bits k v Hk Hv Hb Hle) as Hpv.
  rewrite Heq, (ParseUint16_hexn bits k w Hk Hw Hb Hle) in Hpv. congruence.
Qed.

End hexn.
