(* ===== verification/DiskIO.v ===== *)
(** * Disks: sys/storage/diskstats.go, scheduler.go and nvme.go

    The counters of /proc/diskstats and the rates between two samples, as the tool
    get_disk_io_stats reports them; the audit of I/O schedulers; and the health of
    NVMe drives. The JSON of a drive's report is a parameter. *)

From Stdlib Require Import Ascii.
From stdpp Require Import base numbers gmap strings sorting list.
From S2P Require Import Prelude GoStrings GoFloat GoNet GoOs.

Open Scope Z_scope.

(** ** diskstats.go *)

Record DiskStat := MkDiskStat {
  ds_Major : Z;
  ds_Minor : Z;
  ds_DeviceName : gostring;
  ds_ReadsCompleted : Z;
  ds_SectorsRead : Z;
  ds_WritesCompleted : Z;
  ds_SectorsWritten : Z;
  ds_QueueDepth : Z;
  ds_TimeInIOMs : Z
}.

Record DeviceIOMetrics := MkDeviceIOMetrics {
  dm_DeviceName : gostring;
  dm_ReadIOPS : float64;
  dm_WriteIOPS : float64;
  dm_ReadMBs : float64;
  dm_WriteMBs : float64;
  dm_AvgLatencyMs : float64;
  dm_QueueDepthCurrent : Z;
  dm_QueueDepthMax : option Z;
  dm_UtilizationPct : float64
}.

Record DiskSummary := MkDiskSummary {
  su_TotalReadMBs : float64;
  su_TotalWriteMBs : float64;
  su_HighLatencyDevices : list gostring
}.

(** One line, if it has the fields of a device. *)
Definition parse_stat (fields : list gostring) : option DiskStat :=
  if (length fields <? 14)%nat then None
  else
    let field i := nth i fields [] in
    Some (MkDiskStat (int_of (field 0%nat)) (int_of (field 1%nat)) (field 2%nat) (uint_of (field 3%nat))
            (uint_of (field 5%nat)) (uint_of (field 7%nat)) (uint_of (field 9%nat)) (int_of (field 11%nat))
            (uint_of (field 12%nat))).

Definition ParseDiskStats `{FileSystem} (path : list gostring) : outcome (list DiskStat) :=
  match scan_file path with
  | inr err => Err err
  | inl (lines, Some err) => Err err
  | inl (lines, None) => Ret (omap parse_stat lines)
  end.

Definition GetQueueDepthMax `{FileSystem} (devName : gostring) : outcome (option Z) :=
  match ReadFile [go "block"; devName; go "queue"; go "nr_requests"] with
  | inr err => if IsNotExist err then Ret None else Err err
  | inl data =>
      match ParseInt (strings_TrimSpace data) with
      | (_, Some _) => Err (Errorf "strconv.Atoi")
      | (val, None) => Ret (Some val)
      end
  end.

Definition isIgnoredDevice (name : gostring) : bool :=
  existsb (strings_HasPrefix name) [go "loop"; go "ram"; go "zram"; go "nbd"].

(** [float64(interval.Milliseconds())]; [interval.Seconds()] is [Seconds]. *)
Definition Milliseconds (d : Z) : Z := Z.quot d 1000000.

(** The later stat of a name wins. *)
Definition start_map (start : list DiskStat) : gmap gostring DiskStat :=
  foldl (λ m s, <[ds_DeviceName s := s]> m) ∅ start.

(** The growth of a counter, as the subtraction of two words. *)
Definition delta (field : DiskStat → Z) (s e : DiskStat) : float64 := f64_of_Z (u64 (field e - field s)).

Definition utilization (intervalMs deltaTimeMs : float64) : float64 :=
  if f64_ltb (f64_of_Z 0) intervalMs
  then math_Min (f64_of_Z 100) (f64_mul (f64_div deltaTimeMs intervalMs) (f64_of_Z 100))
  else f64_of_Z 0.

Definition rate_MBs (sectors intervalSecs : float64) : float64 :=
  f64_div (f64_div (f64_mul sectors (f64_of_Z 512)) (f64_of_Z 1000000)) intervalSecs.

Definition device_metrics (interval : Z) (s e : DiskStat) : DeviceIOMetrics :=
  let intervalSecs := Seconds interval in
  let intervalMs := f64_of_Z (Milliseconds interval) in
  let readOps := delta ds_ReadsCompleted s e in
  let writeOps := delta ds_WritesCompleted s e in
  let totalOps := f64_add readOps writeOps in
  let deltaTimeMs := delta ds_TimeInIOMs s e in
  MkDeviceIOMetrics (ds_DeviceName e) (f64_div readOps intervalSecs) (f64_div writeOps intervalSecs)
    (rate_MBs (delta ds_SectorsRead s e) intervalSecs) (rate_MBs (delta ds_SectorsWritten s e) intervalSecs)
    (if f64_ltb (f64_of_Z 0) totalOps then f64_div deltaTimeMs totalOps else f64_of_Z 0)
    (ds_QueueDepth e) None (utilization intervalMs deltaTimeMs).

Definition CalculateMetrics (start end_ : list DiskStat) (interval : Z) : list DeviceIOMetrics :=
  let startMap := start_map start in
  if f64_leb (Seconds interval) (f64_of_Z 0) then []
  else
    omap (λ e, if isIgnoredDevice (ds_DeviceName e) then None
               else (λ s, device_metrics interval s e) <$> startMap !! ds_DeviceName e) end_.

Definition AggregateSummary (metrics : list DeviceIOMetrics) (latencyThresholdMs : float64) : DiskSummary :=
  foldl (λ summary m,
    MkDiskSummary (f64_add (su_TotalReadMBs summary) (dm_ReadMBs m)) (f64_add (su_TotalWriteMBs summary) (dm_WriteMBs m))
      (if f64_ltb latencyThresholdMs (dm_AvgLatencyMs m)
       then su_HighLatencyDevices summary ++ [dm_DeviceName m] else su_HighLatencyDevices summary))
    (MkDiskSummary (f64_of_Z 0) (f64_of_Z 0) []) metrics.

(** The tool get_disk_io_stats: two samples, of the file system before and after
    the pause, and the queue depths after it. The result is an error or a payload. *)
Definition with_queue_depth `{FileSystem} (m : DeviceIOMetrics) : DeviceIOMetrics :=
  MkDeviceIOMetrics (dm_DeviceName m) (dm_ReadIOPS m) (dm_WriteIOPS m) (dm_ReadMBs m) (dm_WriteMBs m) (dm_AvgLatencyMs m)
    (dm_QueueDepthCurrent m) (match GetQueueDepthMax (dm_DeviceName m) with Ret depth => depth | _ => None end)
    (dm_UtilizationPct m).

Definition diskio_Execute (before after : FileSystem) (cancelled : bool) (threshold : option float64) (sleepInterval : Z)
    : outcome (DiskSummary * list DeviceIOMetrics) :=
  let threshold := default (f64_of_Z 20) threshold in
  startStats ← @ParseDiskStats before [go "/proc/diskstats"];
  if cancelled then Err (Errorf "context canceled during sampling")
  else
    endStats ← @ParseDiskStats after [go "/proc/diskstats"];
    let metrics := map (@with_queue_depth after) (CalculateMetrics startStats endStats sleepInterval) in
    Ret (AggregateSummary metrics threshold, metrics).

(** ** scheduler.go *)

Record SchedulerInfo := MkSchedulerInfo {
  si_DeviceName : gostring;
  si_ActiveScheduler : gostring;
  si_AvailableSchedulers : list gostring;
  si_ReadAheadKB : Z;
  si_TuningWarning : bool;
  si_WarningReasons : list gostring
}.

Record SchedulerPayload := MkSchedulerPayload {
  sp_DevicesAudited : Z;
  sp_TuningWarningsDetected : Z;
  sp_Devices : list SchedulerInfo
}.

Definition readAheadWarningThreshold : Z := 4096.

(** A field in brackets names the active scheduler. *)
Definition bracketed (f : gostring) : bool := strings_HasPrefix f (go "[") && strings_HasSuffix f (go "]").

Definition add_scheduler (acc : gostring * list gostring) (f : gostring) : gostring * list gostring :=
  if bracketed f
  then let active := drop 1 (take (length f - 1) f) in (active, acc.2 ++ [active])
  else (acc.1, acc.2 ++ [f]).

Definition parseSchedulerString (raw : gostring) : gostring * list gostring :=
  match strings_TrimSpace raw with
  | [] => (go "none", [go "none"])
  | raw =>
      match foldl add_scheduler (go "none", []) (strings_Fields raw) with
      | (_, []) => (go "none", [go "none"])
      | r => r
      end
  end.

Definition readScheduler `{FileSystem} (devName : gostring) : gostring :=
  read_trimmed [go "block"; devName; go "queue"; go "scheduler"].

Definition readReadAheadKB `{FileSystem} (devName : gostring) : Z :=
  match ReadFile [go "block"; devName; go "queue"; go "read_ahead_kb"] with
  | inr _ => 0
  | inl data => match ParseInt (strings_TrimSpace data) with (val, None) => val | _ => 0 end
  end.

Definition isSchedulerDevice `{FileSystem} (name : gostring) : bool :=
  negb (isIgnoredDevice name) &&
  match Stat [go "block"; name; go "partition"] with inl _ => false | inr _ => true end.

(** The reasons for a warning. *)
Definition scheduler_reasons (name active : gostring) (readAhead : Z) : list gostring :=
  (if strings_HasPrefix name (go "nvme") && negb (bool_decide (active = go "none"))
   then [go "NVMe device should use the 'none' scheduler; '" ++ active ++ go "' adds unnecessary CPU overhead"] else []) ++
  (if readAheadWarningThreshold <=? readAhead
   then [go "High read-ahead (" ++ strconv_Itoa readAhead ++ go " KB) may cause cache thrashing"] else []).

Definition evaluateWarnings (info : SchedulerInfo) : SchedulerInfo :=
  let reasons := si_WarningReasons info ++
    scheduler_reasons (si_DeviceName info) (si_ActiveScheduler info) (si_ReadAheadKB info) in
  MkSchedulerInfo (si_DeviceName info) (si_ActiveScheduler info) (si_AvailableSchedulers info) (si_ReadAheadKB info)
    (0 <? length reasons)%nat reasons.

Definition scheduler_of `{FileSystem} (name : gostring) : SchedulerInfo :=
  let '(active, available) := parseSchedulerString (readScheduler name) in
  evaluateWarnings (MkSchedulerInfo name active available (readReadAheadKB name) false []).

Definition GetSchedulerInfo `{FileSystem} `{GoSort} : outcome SchedulerPayload :=
  match ReadDir [go "block"] with
  | inr err => Err (Wrapf "read block dir: %w" err)
  | inl entries =>
      let devices := map scheduler_of (filter isSchedulerDevice (map de_Name entries)) in
      let sorted := sort_slice (name_less si_DeviceName) devices in
      Ret (MkSchedulerPayload (Z.of_nat (length sorted)) (Z.of_nat (length (filter si_TuningWarning devices))) sorted)
  end.

(** ** nvme.go *)

Record NVMeDrive := MkNVMeDrive {
  nd_DeviceName : gostring;
  nd_TemperatureC : Z;
  nd_PercentUsed : Z;
  nd_AvailableSparePct : Z;
  nd_MediaErrors : Z;
  nd_CriticalWarning : Z;
  nd_Status : gostring;
  nd_WarningReasons : list gostring
}.

(** What either report says about a drive; the fields have the order of
    [nvmeSmartLog]. *)
Record nvmeSmartLog := MkSmartLog {
  sl_Temperature : Z;
  sl_PercentUsed : Z;
  sl_AvailSpare : Z;
  sl_MediaErrors : Z;
  sl_CriticalWarning : Z
}.

(** The regular expression of controllers: nvme and digits. *)
Definition is_controller (name : gostring) : bool :=
  strings_HasPrefix name (go "nvme") &&
  match drop 4 name with [] => false | digits => forallb is_digit digits end.

Definition DiscoverNVMeDevices `{FileSystem} : outcome (list gostring) :=
  match ReadDir [go "class"; go "nvme"] with
  | inr err => if IsNotExist err then Ret [] else Err err
  | inl entries =>
      Ret (sort_Strings (map de_Name
             (filter (λ e, Is_true ((de_IsDir e || de_Symlink e) && is_controller (de_Name e))) entries)))
  end.

(** Kelvin, if it is that hot. *)
Definition celsius (t : Z) : Z := if 200 <? t then i64 (t - 273) else t.

Definition nvme_reasons (temperature percentUsed mediaErrors criticalWarning : Z) : list gostring :=
  (if 75 <? temperature then [go "Thermal Warning: Temperature is " ++ strconv_Itoa temperature ++ go "°C (Throttling likely)"] else []) ++
  (if 90 <? percentUsed then [go "Degradation: Drive has consumed " ++ strconv_Itoa percentUsed ++ go "% of rated life span"] else []) ++
  (if 0 <? mediaErrors then [go "Data Integrity: " ++ strconv_Itoa mediaErrors ++ go " unrecovered media errors detected"] else []) ++
  (if 0 <? criticalWarning then [go "Hardware: Controller reports critical warning bitmask " ++ strconv_Itoa criticalWarning] else []).

Section nvme.
(** The two decodings of a report: smartctl's, with the health log if there is
    one, and nvme-cli's. *)
Context (unmarshal_smartctl : gostring → outcome (option nvmeSmartLog)) (unmarshal_nvme : gostring → outcome nvmeSmartLog).

Definition ParseNVMeOutput (jsonData devName : gostring) : outcome NVMeDrive :=
  log ← match unmarshal_smartctl jsonData with Ret (Some log) => Ret log | _ => unmarshal_nvme jsonData end;
  let t := celsius (sl_Temperature log) in
  let reasons := nvme_reasons t (sl_PercentUsed log) (sl_MediaErrors log) (sl_CriticalWarning log) in
  Ret (MkNVMeDrive devName t (sl_PercentUsed log) (sl_AvailSpare log) (sl_MediaErrors log) (sl_CriticalWarning log)
         (if (0 <? length reasons)%nat then go "critical" else go "healthy") reasons).

End nvme.

(** ** Lemmas: rates *)

Lemma delta_same_order field s e :
  0 ≤ field s < 2 ^ 64 → 0 ≤ field e < 2 ^ 64 →
  delta field s e = f64_of_Z (if field s <=? field e then field e - field s else 2 ^ 64 + field e - field s).
Proof.
  intros Hs He. unfold delta. f_equal. destruct (Z.leb_spec (field s) (field e)); [apply u64_id; lia|].
  unfold u64. rewrite <-(Z_mod_plus_full _ 1). rewrite Z.mod_small; lia.
Qed.

Lemma delta_sign field s e : has_sign false (delta field s e).
Proof. unfold delta, f64_of_Z. apply binary_normalize_sign. apply u64_range. Qed.

(** A positive number is an infinity or a finite one with its sign. *)
Lemma positive_cases x : f64_ltb (f64_of_Z 0) x = true → x = S754_infinity false ∨ ∃ m e, x = S754_finite false m e.
Proof. destruct x as [|[]| |[]]; try done; eauto. Qed.

Lemma min_100_range x : has_sign false x → let r := math_Min (f64_of_Z 100) x in f64_leb (f64_of_Z 0) r = true ∧ f64_leb r (f64_of_Z 100) = true.
Proof.
  cbn zeta. destruct x as [[]|[]| |[] m e]; try done. intros _. unfold math_Min.
  destruct (f64_of_Z 100) as [| | |[] m' e'] eqn:H100; try done.
  destruct (f64_ltb _ _) eqn:Hlt; rewrite <-H100 in *; [by vm_compute|]. split; [done|].
  rewrite H100 in *. unfold f64_ltb, f64_leb, SFltb, SFleb in *. simpl in *.
  rewrite (Z.compare_antisym e' e).
  destruct (e' ?= e); simpl in *; try done. change (Pos.compare_cont Eq m' m) with (m' ?= m)%positive in *.
  change (Pos.compare_cont Eq m m') with (m ?= m')%positive in *. rewrite (Pos.compare_antisym m' m).
  by destruct (m' ?= m)%positive.
Qed.

Lemma utilization_range interval deltaMs :
  in_i64 interval → has_sign false deltaMs →
  let r := utilization (f64_of_Z (Milliseconds interval)) deltaMs in
  f64_leb (f64_of_Z 0) r = true ∧ f64_leb r (f64_of_Z 100) = true.
Proof.
  intros Hi Hd. cbn zeta. unfold utilization. destruct (f64_ltb (f64_of_Z 0) _) eqn:Hpos; [|done].
  apply min_100_range. destruct (positive_cases _ Hpos) as [Hinf|(m & e & ->)].
  - exfalso. unfold Milliseconds in *.
    destruct (decide (0 ≤ interval)) as [H0|H0].
    + pose proof (f64_of_Z_finite (Z.quot interval 1000000)) as Hf. rewrite Hinf in Hf. simpl in Hf.
      pose proof (Z.quot_pos interval 1000000 H0 ltac:(lia)).
      pose proof (Z.quot_le_upper_bound interval 1000000 (2 ^ 63) ltac:(lia)). 
      assert (false = true) by (apply Hf; i64_lia). done.
    + pose proof (Z.quot_opp_l interval 1000000 ltac:(lia)) as Hq.
      pose proof (Z.quot_pos (- interval) 1000000 ltac:(lia) ltac:(lia)).
      destruct (Z.quot interval 1000000) as [|p|p]; [done|lia|].
      unfold f64_of_Z, binary_normalize in Hinf. pose proof (binary_round_sign true p 0) as Hs. by rewrite Hinf in Hs.
  - destruct (f64_of_Z 100) as [| | |[] m' e'] eqn:E; try done.
    apply f64_mul_pos_sign. by apply f64_div_sign.
Qed.

Lemma start_map_lookup start name :
  start_map start !! name = last (filter (λ s, ds_DeviceName s = name) start).
Proof.
  unfold start_map. induction start as [|s start IH] using rev_ind; [done|].
  rewrite foldl_snoc, filter_app, filter_cons, filter_nil. destruct (decide (ds_DeviceName s = name)) as [<-|Hne].
  - by rewrite lookup_insert_eq, last_snoc.
  - by rewrite lookup_insert_ne, app_nil_r.
Qed.

Lemma AggregateSummary_high metrics thr :
  su_HighLatencyDevices (AggregateSummary metrics thr) =
  map dm_DeviceName (filter (λ m, f64_ltb thr (dm_AvgLatencyMs m) = true) metrics).
Proof.
  unfold AggregateSummary. induction metrics as [|m metrics IH] using rev_ind; [done|].
  rewrite foldl_snoc, filter_app, filter_cons, filter_nil, map_app. cbn [su_HighLatencyDevices]. rewrite IH.
  destruct (f64_ltb thr (dm_AvgLatencyMs m)); simpl; by rewrite ?app_nil_r.
Qed.

(** ** Lemmas: the lines of /proc/diskstats *)

(** A line as the kernel prints it; the columns the program skips are numbers. *)
Record diskstats_line := MkLine { dl_stat : DiskStat; dl_rmerged : Z; dl_rms : Z; dl_wmerged : Z; dl_wms : Z; dl_weighted : Z }.

Definition line_fields (l : diskstats_line) : list gostring :=
  let s := dl_stat l in
  [strconv_Itoa (ds_Major s); strconv_Itoa (ds_Minor s); ds_DeviceName s; udec (ds_ReadsCompleted s); udec (dl_rmerged l);
   udec (ds_SectorsRead s); udec (dl_rms l); udec (ds_WritesCompleted s); udec (dl_wmerged l); udec (ds_SectorsWritten s);
   udec (dl_wms l); strconv_Itoa (ds_QueueDepth s); udec (ds_TimeInIOMs s); udec (dl_weighted l)].

Definition is_u64 (n : Z) : Prop := 0 ≤ n ≤ MaxUint64.

(** What the kernel prints: 64-bit counters and a name without spaces. *)
Record good_line (l : diskstats_line) : Prop := {
  gl_ints : in_i64 (ds_Major (dl_stat l)) ∧ in_i64 (ds_Minor (dl_stat l)) ∧ in_i64 (ds_QueueDepth (dl_stat l));
  gl_counters : Forall is_u64 [ds_ReadsCompleted (dl_stat l); ds_SectorsRead (dl_stat l); ds_WritesCompleted (dl_stat l);
                               ds_SectorsWritten (dl_stat l); ds_TimeInIOMs (dl_stat l)];
  gl_skipped : Forall is_u64 [dl_rmerged l; dl_rms l; dl_wmerged l; dl_wms l; dl_weighted l];
  gl_name : word (ds_DeviceName (dl_stat l));
  gl_short : Z.of_nat (length (strings_Join (line_fields l) (go " "))) < MaxScanTokenSize
}.

Lemma parse_line l : good_line l → parse_stat (line_fields l) = Some (dl_stat l).
Proof.
  destruct l as [[] ? ? ? ? ?]. intros [(H1 & H2 & H3) Hc _ _ _]. simpl in *.
  decompose_Forall_hyps. unfold is_u64, parse_stat in *. simpl.
  by rewrite !uint_of_udec, !int_of_Itoa by done.
Qed.

Lemma good_line_words l : good_line l → word_line (line_fields l).
Proof.
  intros [_ Hc Hs Hn Hl]. split_and!; [done| |done]. unfold line_fields. decompose_Forall_hyps. unfold is_u64 in *.
  repeat constructor; try apply word_Itoa; try (apply word_udec; lia); apply Hn.
Qed.

(** ** Lemmas: schedulers *)

Lemma add_schedulers acc fs :
  Forall (λ f, bracketed f = false) fs → foldl add_scheduler acc fs = (acc.1, acc.2 ++ fs).
Proof.
  intros Hfs. revert acc. induction Hfs as [|f fs Hf _ IH]; intros [a l]; simpl; [by rewrite app_nil_r|].
  rewrite IH. unfold add_scheduler. rewrite Hf. simpl. by rewrite <-app_assoc.
Qed.

Lemma bracketed_spec a : bracketed (go "[" ++ a ++ go "]") = true ∧ drop 1 (take (length (go "[" ++ a ++ go "]") - 1) (go "[" ++ a ++ go "]")) = a.
Proof.
  split.
  - unfold bracketed, strings_HasPrefix, strings_HasSuffix. apply andb_true_iff. split; apply bool_decide_eq_true.
    + by eexists.
    + exists (go "[" ++ a). by rewrite <-app_assoc.
  - rewrite !length_app. cbn [length go String.list_ascii_of_string]. replace (1 + (length a + 1) - 1)%nat with (S (length a)) by lia. cbn [app take drop]. by rewrite take_app_length.
Qed.

Lemma add_active acc a : add_scheduler acc (go "[" ++ a ++ go "]") = (a, acc.2 ++ [a]).
Proof. unfold add_scheduler. by destruct (bracketed_spec a) as [-> ->]. Qed.

Lemma scheduler_warns n a r :
  (0 <? length (scheduler_reasons n a r))%nat = true ↔
  strings_HasPrefix n (go "nvme") = true ∧ a ≠ go "none" ∨ readAheadWarningThreshold ≤ r.
Proof.
  rewrite Nat.ltb_lt. unfold scheduler_reasons. rewrite length_app.
  destruct (strings_HasPrefix n (go "nvme")), (decide (a = go "none")), (Z.leb_spec readAheadWarningThreshold r);
    rewrite ?bool_decide_true, ?bool_decide_false by done; cbn [negb andb length];
    (split; [intros ?; first [by left|by right|lia]|intros [[??]|?]; first [done|lia]]).
Qed.

(** ** Properties *)

(** What the kernel prints is read back: every line of 64-bit counters with a
    name without spaces gives its device, in order; a line too long for the
    scanner's buffer makes the whole sample an error. *)
Theorem ParseDiskStats_roundtrip `{FileSystem} (path : list gostring) (ls : list diskstats_line)
  (Hread : ReadFile path = inl (print_lines (map line_fields ls))) (Hgood : Forall good_line ls) :
  ParseDiskStats path = Ret (map dl_stat ls).
Proof.
  unfold ParseDiskStats. erewrite scan_file_words; [|exact Hread|].
  - f_equal. clear Hread. induction Hgood as [|l ls Hl _ IH]; [done|]. cbn [map omap list_omap]. by rewrite parse_line, IH.
  - apply Forall_map. eapply Forall_impl; [exact Hgood|apply good_line_words].
Qed.

(** C35: The rates of an interval. Devices are reported in the order of the second
    sample, those that are not virtual and were there at the first; the
    utilisation is a percentage, whatever the counters did; and the devices of
    high latency are those above the threshold, in the same order. *)
Theorem CalculateMetrics_devices (start end_ : list DiskStat) (interval : Z) (threshold : float64)
  (Hi : in_i64 interval) (Hpos : f64_leb (Seconds interval) (f64_of_Z 0) = false) :
  let metrics := CalculateMetrics start end_ interval in
  map dm_DeviceName metrics =
    filter (λ n, isIgnoredDevice n = false ∧ n ∈ map ds_DeviceName start) (map ds_DeviceName end_) ∧
  (∀ m, m ∈ metrics → ∃ s e, last (filter (λ s, ds_DeviceName s = dm_DeviceName m) start) = Some s ∧
     e ∈ end_ ∧ m = device_metrics interval s e ∧
     f64_leb (f64_of_Z 0) (dm_UtilizationPct m) = true ∧ f64_leb (dm_UtilizationPct m) (f64_of_Z 100) = true) ∧
  su_HighLatencyDevices (AggregateSummary metrics threshold) =
    map dm_DeviceName (filter (λ m, f64_ltb threshold (dm_AvgLatencyMs m) = true) metrics).
Proof.
  cbn zeta. unfold CalculateMetrics. rewrite Hpos. split_and!; [| |apply AggregateSummary_high].
  - clear Hpos. induction end_ as [|e end_ IH]; [done|]. cbn [omap map list_omap]. rewrite filter_cons.
    destruct (isIgnoredDevice (ds_DeviceName e)).
    + by rewrite decide_False by naive_solver.
    + rewrite start_map_lookup. destruct (last _) as [s|] eqn:Hs; simpl.
      * rewrite decide_True; [by f_equal|]. split; [done|].
        apply last_Some_elem_of, list_elem_of_filter in Hs as [Hs Hin]. apply list_elem_of_fmap. by exists s.
      * rewrite decide_False; [done|]. intros [_ (s & Hn & Hin)%list_elem_of_fmap].
        apply last_None in Hs. destruct (not_elem_of_nil s). rewrite <-Hs. by apply list_elem_of_filter.
  - intros m (e & He & Hm)%list_elem_of_omap. destruct (isIgnoredDevice _); [done|].
    rewrite start_map_lookup in Hm. apply fmap_Some in Hm as (s & Hs & ->). exists s, e.
    split_and!; [done|done|done|..]; by apply utilization_range, delta_sign.
Qed.

(** A counter is a word: the growth between two samples is the difference, and
    when a counter was reset in between (a device went away and came back), the
    difference wraps around and the device is reported with a rate of some 10^19. *)
Theorem counter_growth (field : DiskStat → Z) (s e : DiskStat) (Hs : is_u64 (field s)) (He : is_u64 (field e)) :
  (field s ≤ field e → delta field s e = f64_of_Z (field e - field s)) ∧
  (field e < field s → delta field s e = f64_of_Z (2 ^ 64 - (field s - field e))).
Proof.
  unfold is_u64, MaxUint64 in *. rewrite delta_same_order by lia. split; intros Hle.
  - by rewrite (proj2 (Z.leb_le _ _)) by done.
  - rewrite (proj2 (Z.leb_gt _ _)) by done. f_equal. lia.
Qed.

(** The kernel's list of schedulers, the active one in brackets, is read back. *)
Theorem scheduler_roundtrip (before after : list gostring) (active : gostring)
  (Hw : Forall (λ f, word f ∧ bracketed f = false) (before ++ after)) (Ha : Forall (λ c, solid c = true) active) :
  parseSchedulerString (strings_Join (before ++ [go "[" ++ active ++ go "]"] ++ after) (go " ")) =
    (active, before ++ [active] ++ after).
Proof.
  set (l := before ++ [go "[" ++ active ++ go "]"] ++ after).
  assert (Forall word l) as Hl.
  { apply Forall_app in Hw as [Hb Hf]. unfold l. rewrite !Forall_app. split_and!; [by eapply Forall_impl; [exact Hb|]; intros ? [??]| |by eapply Forall_impl; [exact Hf|]; intros ? [??]].
    constructor; [|done]. split; [done|]. rewrite !Forall_app. split_and!; [by repeat constructor|done|by repeat constructor]. }
  assert (l ≠ []) as Hne by by unfold l; destruct before.
  destruct (Join_ends l Hne Hl) as (c & d & s & E & Hd & (t & Ec) & Hc & _).
  unfold parseSchedulerString. rewrite (TrimSpace_ends _ c d t) by eauto. rewrite Ec. cbv iota. rewrite <-Ec, Fields_Join by done.
  apply Forall_app in Hw as [Hb Hf]. unfold l. rewrite !foldl_app.
  rewrite (add_schedulers _ before) by (eapply Forall_impl; [exact Hb|]; by intros ? [??]).
  cbn [foldl]. rewrite add_active. rewrite (add_schedulers _ after) by (eapply Forall_impl; [exact Hf|]; by intros ? [??]).
  simpl. rewrite <-app_assoc. by destruct before.
Qed.

(** The audit: each block device that is neither virtual nor a partition, once, in
    order of names, with what its files say; a warning exactly where the rules ask
    for one; and the counts of both. *)
Theorem GetSchedulerInfo_audit `{FileSystem} `{GoSort} (entries : list dir_entry) (Hread : ReadDir [go "block"] = inl entries) :
  ∃ p, GetSchedulerInfo = Ret p ∧
  StronglySorted (λ a b, name_less si_DeviceName a b = true) (sp_Devices p) ∧
  (∀ d, d ∈ sp_Devices p ↔ ∃ n, n ∈ map de_Name entries ∧ isSchedulerDevice n = true ∧ d = scheduler_of n) ∧
  (∀ d, d ∈ sp_Devices p → (si_TuningWarning d = true ↔
     strings_HasPrefix (si_DeviceName d) (go "nvme") = true ∧ si_ActiveScheduler d ≠ go "none" ∨
     readAheadWarningThreshold ≤ si_ReadAheadKB d)) ∧
  sp_DevicesAudited p = Z.of_nat (length (sp_Devices p)) ∧
  sp_TuningWarningsDetected p = Z.of_nat (length (filter si_TuningWarning (sp_Devices p))).
Proof.
  unfold GetSchedulerInfo. rewrite Hread. eexists. split; [done|]. simpl.
  set (devices := map scheduler_of _).
  assert (map si_DeviceName devices = filter isSchedulerDevice (map de_Name entries)) as Hnames.
  { unfold devices. rewrite map_map. rewrite <-(map_id (filter _ _)) at 2. apply map_ext. intros n.
    unfold scheduler_of. by destruct (parseSchedulerString _). }
  split_and!.
  - apply sort_by_name. rewrite Hnames. apply NoDup_filter. by eapply ReadDir_names.
  - intros d. rewrite sort_slice_perm. unfold devices. rewrite list_elem_of_fmap. setoid_rewrite list_elem_of_filter. split.
    + intros (n & -> & Hn & Hin). exists n. split_and!; [done|by apply Is_true_true|done].
    + intros (n & Hin & Hn & ->). exists n. split_and!; [done|by apply Is_true_true|done].
  - intros d. rewrite sort_slice_perm. unfold devices. intros (n & -> & _)%list_elem_of_fmap.
    unfold scheduler_of. destruct (parseSchedulerString _) as [active available]. apply scheduler_warns.
  - done.
  - by rewrite sort_slice_perm.
Qed.

(** A drive's health: of the two reports the smartctl one is taken if it is there;
    a drive is critical exactly if it is hot, worn, has media errors or warns, with
    one reason for each. *)
Theorem nvme_health (unmarshal_smartctl : gostring → outcome (option nvmeSmartLog))
  (unmarshal_nvme : gostring → outcome nvmeSmartLog) (jsonData devName : gostring) (d : NVMeDrive)
  (Hd : ParseNVMeOutput unmarshal_smartctl unmarshal_nvme jsonData devName = Ret d) :
  (∃ log, (unmarshal_smartctl jsonData = Ret (Some log) ∨
           (∀ log', unmarshal_smartctl jsonData ≠ Ret (Some log')) ∧ unmarshal_nvme jsonData = Ret log) ∧
     nd_TemperatureC d = celsius (sl_Temperature log) ∧ nd_PercentUsed d = sl_PercentUsed log ∧
     nd_MediaErrors d = sl_MediaErrors log ∧ nd_CriticalWarning d = sl_CriticalWarning log) ∧
  let faults := [75 <? nd_TemperatureC d; 90 <? nd_PercentUsed d; 0 <? nd_MediaErrors d; 0 <? nd_CriticalWarning d] in
  length (nd_WarningReasons d) = length (filter (λ b, b = true) faults) ∧
  (nd_Status d = go "critical" ↔ true ∈ faults) ∧ (nd_Status d = go "healthy" ↔ true ∉ faults).
Proof.
  unfold ParseNVMeOutput in Hd.
  assert (∃ log, (unmarshal_smartctl jsonData = Ret (Some log) ∨
      (∀ log', unmarshal_smartctl jsonData ≠ Ret (Some log')) ∧ unmarshal_nvme jsonData = Ret log) ∧
    match unmarshal_smartctl jsonData with Ret (Some log) => Ret log | _ => unmarshal_nvme jsonData end = Ret log) as (log & Hlog & E).
  { destruct (unmarshal_smartctl jsonData) as [[log|]| | |]; [by exists log; auto|..];
      (destruct (unmarshal_nvme jsonData) as [log| | |]; [|done..]); exists log; naive_solver. }
  rewrite E in Hd. injection Hd as <-. split; [by exists log|]. simpl. unfold nvme_reasons.
  destruct (75 <? _), (90 <? _), (0 <? _), (0 <? _); cbn [length app Nat.ltb Nat.leb filter list_filter];
    (split; [reflexivity|]); split; (split; [intros Hx|intros Hx]); first [discriminate Hx|reflexivity|by_decide|exfalso; revert Hx; by_decide].
Qed.

(** ** Witnesses *)

Definition sample_line (reads time : Z) : diskstats_line :=
  MkLine (MkDiskStat 259 0 (go "nvme0n1") reads (reads * 8) 0 0 0 time) 0 0 0 0 0.

Lemma sample_line_good reads time :
  0 ≤ reads ≤ 1000000 → 0 ≤ time ≤ 1000000 →
  Z.of_nat (length (strings_Join (line_fields (sample_line reads time)) (go " "))) < MaxScanTokenSize →
  good_line (sample_line reads time).
Proof.
  intros Hr Ht Hl. split; [|..|done]; simpl.
  - unfold sample_line. simpl. i64_lia.
  - rewrite !Forall_cons, Forall_nil. unfold is_u64, MaxUint64. simpl. lia.
  - rewrite !Forall_cons, Forall_nil. unfold is_u64, MaxUint64. simpl. lia.
  - split; [done|]. by repeat constructor.
Qed.

Definition sample_fs (reads time : Z) : FileSystem :=
  mem_fs [([go "/proc/diskstats"], print_lines [line_fields (sample_line reads time)]);
          ([go "block"; go "nvme0n1"; go "queue"; go "scheduler"], go "[none] mq-deadline");
          ([go "block"; go "nvme0n1"; go "queue"; go "read_ahead_kb"], go "4096")]
    [([go "block"], [MkDirEntry (go "nvme0n1") false true; MkDirEntry (go "loop0") false true])] [].

Lemma ParseDiskStats_roundtrip_witness :
  Forall good_line [sample_line 1000 40] ∧
  @ParseDiskStats (sample_fs 1000 40) [go "/proc/diskstats"] = Ret [dl_stat (sample_line 1000 40)].
Proof.
  assert (Forall good_line [sample_line 1000 40]) as Hg.
  { constructor; [|constructor]; apply sample_line_good; [lia|lia|by vm_compute]. }
  split; [done|].
  apply (@ParseDiskStats_roundtrip (sample_fs 1000 40) [go "/proc/diskstats"] [sample_line 1000 40]); [by vm_compute|done].
Defined.

Lemma CalculateMetrics_devices_witness :
  let start := [dl_stat (sample_line 1000 40)] in
  let end_ := [dl_stat (sample_line 1500 290)] in
  f64_leb (Seconds (500 * 1000000)) (f64_of_Z 0) = false ∧
  map dm_DeviceName (CalculateMetrics start end_ (500 * 1000000)) = [go "nvme0n1"] ∧
  ∃ m, m ∈ CalculateMetrics start end_ (500 * 1000000) ∧ dm_UtilizationPct m = f64_of_Z 50 ∧ dm_ReadIOPS m = f64_of_Z 1000.
Proof.
  cbn zeta. assert (f64_leb (Seconds (500 * 1000000)) (f64_of_Z 0) = false) as Hs by by vm_compute.
  split; [done|].
  destruct (CalculateMetrics_devices [dl_stat (sample_line 1000 40)] [dl_stat (sample_line 1500 290)] (500 * 1000000)
    (f64_of_Z 20)) as (Hn & _ & _); [i64_lia|done|].
  split; [rewrite Hn; by vm_compute|]. eexists. split; [vm_compute; left|]. split; by vm_compute.
Defined.

(** A device that came back between two samples of the tool: one read is
    reported as more than 10^19 reads per second. *)
Lemma counter_growth_witness :
  let s := dl_stat (sample_line 1000 40) in let e := dl_stat (sample_line 1 0) in
  is_u64 (ds_ReadsCompleted s) ∧ is_u64 (ds_ReadsCompleted e) ∧
  delta ds_ReadsCompleted s e = f64_of_Z (2 ^ 64 - 999) ∧
  ∃ summary m, diskio_Execute (sample_fs 1000 40) (sample_fs 1 0) false None (500 * 1000000) = Ret (summary, [m]) ∧
    f64_ltb (f64_of_Z (10 ^ 19)) (dm_ReadIOPS m) = true.
Proof.
  cbn zeta. assert (is_u64 1000 ∧ is_u64 1) as [H1 H2] by (unfold is_u64, MaxUint64; lia).
  split_and!; [done|done| |].
  - apply (counter_growth ds_ReadsCompleted (dl_stat (sample_line 1000 40)) (dl_stat (sample_line 1 0)) H1 H2). simpl. lia.
  - eexists _, _. split; [vm_compute; reflexivity|by vm_compute].
Defined.

Lemma scheduler_roundtrip_witness :
  parseSchedulerString (go "[mq-deadline] kyber none") = (go "mq-deadline", [go "mq-deadline"; go "kyber"; go "none"]).
Proof.
  apply (scheduler_roundtrip [] [go "kyber"; go "none"] (go "mq-deadline")).
  - repeat constructor; try done.
  - by repeat constructor.
Defined.

Lemma GetSchedulerInfo_audit_witness :
  ∃ p, @GetSchedulerInfo (sample_fs 0 0) insertion_GoSort = Ret p ∧ sp_DevicesAudited p = 1 ∧ sp_TuningWarningsDetected p = 1.
Proof.
  destruct (@GetSchedulerInfo_audit (sample_fs 0 0) insertion_GoSort
    [MkDirEntry (go "nvme0n1") false true; MkDirEntry (go "loop0") false true]) as (p & Hp & _ & _ & _ & Ha & Hw); [by vm_compute|].
  exists p. split; [done|]. rewrite Ha, Hw. vm_compute in Hp. injection Hp as <-. by vm_compute.
Defined.

Lemma nvme_health_witness :
  let log := MkSmartLog 350 12 100 0 0 in
  ∃ d, ParseNVMeOutput (λ _, Ret (Some log)) (λ _, Err (Errorf "json")) [] (go "nvme0") = Ret d ∧ nd_Status d = go "critical".
Proof.
  cbn zeta. eexists. split; [reflexivity|].
  apply (nvme_health (λ _, Ret (Some (MkSmartLog 350 12 100 0 0))) (λ _, Err (Errorf "json")) [] (go "nvme0")); [reflexivity|].
  vm_compute. left.
Defined.
