(* ===== verification/Mounts.v ===== *)
(** * Mounts: sys/storage/mounts.go and the tool get_mount_usage

    The lines of /proc/self/mountinfo, the file systems worth asking, and what
    statfs says about each: an answer, an error, or nothing before the timeout.
    What the call gives for a path is a parameter. *)

From Stdlib Require Import Ascii.
From stdpp Require Import base numbers gmap strings sorting list.
From S2P Require Import Prelude GoStrings GoFloat GoNet GoOs.

Open Scope Z_scope.

(** ** mounts.go *)

Record MountCapacity := MkMountCapacity {
  mc_TotalGiB : float64; mc_UsedGiB : float64; mc_FreeGiB : float64; mc_UsagePct : float64
}.

Record MountInodes := MkMountInodes { mi_Total : Z; mi_Used : Z; mi_Free : Z; mi_UsagePct : float64 }.

Record MountStats := MkMountStats {
  ms_MountPoint : gostring;
  ms_Filesystem : gostring;
  ms_Device : gostring;
  ms_Status : gostring;
  ms_Error : gostring;
  ms_Capacity : MountCapacity;
  ms_Inodes : MountInodes
}.

Record mountEntry := MkMountEntry { me_MountPoint : gostring; me_Filesystem : gostring; me_Device : gostring }.

#[export] Instance mountEntry_eq_dec : EqDecision mountEntry.
Proof. solve_decision. Defined.

(** The index of the separator field. *)
Definition sep_index (fields : list gostring) : option nat := fst <$> list_find (λ f, f = go "-") fields.

Definition mount_of_fields (fields : list gostring) : option mountEntry :=
  if (length fields <? 7)%nat then None
  else
    sepIdx ← sep_index fields;
    fsType ← fields !! (sepIdx + 1)%nat;
    device ← fields !! (sepIdx + 2)%nat;
    Some (MkMountEntry (nth 4 fields []) fsType device).

Definition parseMounts `{FileSystem} : list mountEntry :=
  match scan_file [go "/proc"; go "self/mountinfo"] with
  | inr _ => []
  | inl (lines, _) => omap mount_of_fields lines
  end.

Definition shouldKeepMount (m : mountEntry) : bool :=
  if bool_decide (me_Filesystem m = go "tmpfs") || bool_decide (me_Filesystem m = go "devtmpfs") then false
  else strings_HasPrefix (me_Device m) (go "/dev/") || bool_decide (":"%char ∈ me_Device m) || bool_decide ("@"%char ∈ me_Device m).

(** [unix.Statfs_t], the fields that are read. *)
Record Statfs_t := MkStatfs { sf_Bsize : Z; sf_Blocks : Z; sf_Bavail : Z; sf_Files : Z; sf_Ffree : Z }.

(** What the select in [statfsWithTimeout] sees first. *)
Variant statfs_result :=
| StatfsDone (buf : Statfs_t)
| StatfsFailed (err : gostring)
| StatfsTimeout
| StatfsCancelled (err : gostring).

(** [defaultStatfsTimeout] in milliseconds. *)
Definition defaultStatfsTimeoutMs : Z := 2000.

Definition round1 (x : float64) : float64 := f64_div (math_Round (f64_mul x (f64_of_Z 10))) (f64_of_Z 10).

Definition roundGiB (bytes : float64) : float64 := round1 (f64_div bytes (f64_of_Z (1024 * 1024 * 1024))).

Definition capacity_of (buf : Statfs_t) : MountCapacity :=
  let bsize := f64_of_Z (sf_Bsize buf) in
  let totalBytes := f64_mul (f64_of_Z (sf_Blocks buf)) bsize in
  let freeBytes := f64_mul (f64_of_Z (sf_Bavail buf)) bsize in
  let usedBytes := f64_sub totalBytes freeBytes in
  MkMountCapacity (roundGiB totalBytes) (roundGiB usedBytes) (roundGiB freeBytes)
    (if f64_ltb (f64_of_Z 0) totalBytes then round1 (f64_mul (f64_div usedBytes totalBytes) (f64_of_Z 100)) else f64_of_Z 0).

Definition inodes_of (buf : Statfs_t) : MountInodes :=
  let used := if sf_Ffree buf <? sf_Files buf then sf_Files buf - sf_Ffree buf else 0 in
  MkMountInodes (sf_Files buf) used (sf_Ffree buf)
    (if 0 <? sf_Files buf then round1 (f64_mul (f64_div (f64_of_Z used) (f64_of_Z (sf_Files buf))) (f64_of_Z 100)) else f64_of_Z 0).

(** The zero values of a mount that gave no answer. *)
Definition no_capacity : MountCapacity := MkMountCapacity (f64_of_Z 0) (f64_of_Z 0) (f64_of_Z 0) (f64_of_Z 0).
Definition no_inodes : MountInodes := MkMountInodes 0 0 0 (f64_of_Z 0).

(** [statfsWithTimeout] on a fresh entry, and the status the caller sets. *)
Definition mount_stats (statfs : gostring → statfs_result) (m : mountEntry) : MountStats :=
  let hung err := MkMountStats (me_MountPoint m) (me_Filesystem m) (me_Device m) (go "hung") err no_capacity no_inodes in
  match statfs (me_MountPoint m) with
  | StatfsDone buf =>
      MkMountStats (me_MountPoint m) (me_Filesystem m) (me_Device m) (go "ok") [] (capacity_of buf) (inodes_of buf)
  | StatfsFailed err => hung (go "statfs error: " ++ err)
  | StatfsTimeout => hung (go "statfs timed out after " ++ strconv_Itoa defaultStatfsTimeoutMs ++ go "ms")
  | StatfsCancelled err => hung err
  end.

Definition GetMountStats `{FileSystem} (statfs : gostring → statfs_result) : list MountStats :=
  map (mount_stats statfs) (filter shouldKeepMount parseMounts).

(** ** The tool's summary *)

Record UsageSummary := MkUsageSummary {
  us_TotalMountsChecked : Z; us_HungMountsDetected : Z; us_CapacityWarnings : Z; us_InodeWarnings : Z
}.

Definition count_mount (summary : UsageSummary) (s : MountStats) : UsageSummary :=
  if bool_decide (ms_Status s = go "hung")
  then MkUsageSummary (us_TotalMountsChecked summary) (us_HungMountsDetected summary + 1) (us_CapacityWarnings summary) (us_InodeWarnings summary)
  else
    MkUsageSummary (us_TotalMountsChecked summary) (us_HungMountsDetected summary)
      (if f64_ltb (f64_of_Z 85) (mc_UsagePct (ms_Capacity s)) then us_CapacityWarnings summary + 1 else us_CapacityWarnings summary)
      (if f64_ltb (f64_of_Z 85) (mi_UsagePct (ms_Inodes s)) then us_InodeWarnings summary + 1 else us_InodeWarnings summary).

Definition mountusage_Execute `{FileSystem} (statfs : gostring → statfs_result) : UsageSummary * list MountStats :=
  let stats := GetMountStats statfs in
  (foldl count_mount (MkUsageSummary (Z.of_nat (length stats)) 0 0 0) stats, stats).

(** ** Lemmas *)

(** The fields of a line: six, the optional ones, the separator, and three. *)
Record mountinfo_line := MkMountLine {
  ml_id : gostring; ml_parent : gostring; ml_majorMinor : gostring; ml_root : gostring; ml_mountPoint : gostring;
  ml_options : gostring; ml_optional : list gostring; ml_fsType : gostring; ml_source : gostring; ml_super : gostring
}.

Definition mount_fields (l : mountinfo_line) : list gostring :=
  [ml_id l; ml_parent l; ml_majorMinor l; ml_root l; ml_mountPoint l; ml_options l] ++ ml_optional l ++
  [go "-"; ml_fsType l; ml_source l; ml_super l].

(** The kernel prints words, and a lone dash only as the separator. *)
Definition good_mount_line (l : mountinfo_line) : Prop :=
  word_line (mount_fields l) ∧
  go "-" ∉ [ml_id l; ml_parent l; ml_majorMinor l; ml_root l; ml_mountPoint l; ml_options l] ++ ml_optional l.

Lemma sep_index_fields pre post : go "-" ∉ pre → sep_index (pre ++ go "-" :: post) = Some (length pre).
Proof.
  intros Hpre. unfold sep_index.
  assert (list_find (λ f, f = go "-") (pre ++ go "-" :: post) = Some (length pre, go "-")) as ->; [|done].
  apply list_find_Some. split_and!; [by rewrite lookup_app_r, Nat.sub_diag|done|].
  intros j y Hj Hlt ->. rewrite lookup_app_l in Hj by done. by apply list_elem_of_lookup_2 in Hj.
Qed.

Lemma mount_of_line l :
  good_mount_line l →
  mount_of_fields (mount_fields l) = Some (MkMountEntry (ml_mountPoint l) (ml_fsType l) (ml_source l)).
Proof.
  intros [_ Hsep]. unfold mount_of_fields, mount_fields in *. rewrite !app_assoc in *.
  set (pre := [_; _; _; _; _; _] ++ ml_optional l) in *.
  assert (7 ≤ length (pre ++ [go "-"; ml_fsType l; ml_source l; ml_super l]))%nat as Hlen
    by (unfold pre; rewrite !length_app; simpl; lia).
  rewrite (proj2 (Nat.ltb_ge _ _)) by done. rewrite sep_index_fields by done. cbn [mbind option_bind].
  assert (∀ k l', (pre ++ l') !! (length pre + k)%nat = l' !! k) as Hlook by (intros k l'; by rewrite lookup_app_r, Nat.add_comm, Nat.add_sub by lia).
  rewrite !Hlook. reflexivity.
Qed.

Lemma count_mounts stats s0 :
  let s := foldl count_mount s0 stats in
  us_TotalMountsChecked s = us_TotalMountsChecked s0 ∧
  us_HungMountsDetected s = us_HungMountsDetected s0 + Z.of_nat (length (filter (λ m, ms_Status m = go "hung") stats)) ∧
  us_CapacityWarnings s = us_CapacityWarnings s0 +
    Z.of_nat (length (filter (λ m, ms_Status m ≠ go "hung" ∧ f64_ltb (f64_of_Z 85) (mc_UsagePct (ms_Capacity m)) = true) stats)) ∧
  us_InodeWarnings s = us_InodeWarnings s0 +
    Z.of_nat (length (filter (λ m, ms_Status m ≠ go "hung" ∧ f64_ltb (f64_of_Z 85) (mi_UsagePct (ms_Inodes m)) = true) stats)).
Proof.
  cbn zeta. revert s0. induction stats as [|m stats IH]; intros s0; [simpl; lia|]. cbn [foldl].
  destruct (IH (count_mount s0 m)) as (-> & -> & -> & ->). rewrite !filter_cons. unfold count_mount.
  destruct (decide (ms_Status m = go "hung")) as [Hh|Hh].
  - rewrite bool_decide_true by done. rewrite !(decide_False (P := _ ∧ _)) by naive_solver. cbn [us_TotalMountsChecked us_HungMountsDetected us_CapacityWarnings us_InodeWarnings length]. lia.
  - rewrite bool_decide_false by done. cbn [us_TotalMountsChecked us_HungMountsDetected us_CapacityWarnings us_InodeWarnings].
    repeat split; (destruct (f64_ltb _ _); [rewrite decide_True by done|rewrite decide_False by naive_solver]); simpl; lia.
Qed.

(** ** Properties *)

(** Every line the kernel prints gives its mount: the mount point, the type and the
    source, however many optional fields there are. *)
Theorem parseMounts_roundtrip `{FileSystem} (ls : list mountinfo_line)
  (Hread : ReadFile [go "/proc"; go "self/mountinfo"] = inl (print_lines (map mount_fields ls)))
  (Hgood : Forall good_mount_line ls) :
  parseMounts = map (λ l, MkMountEntry (ml_mountPoint l) (ml_fsType l) (ml_source l)) ls.
Proof.
  unfold parseMounts. erewrite scan_file_words; [|exact Hread|].
  - clear Hread. induction Hgood as [|l ls Hl _ IH]; [done|]. cbn [map omap list_omap]. by rewrite mount_of_line, IH.
  - apply Forall_map. eapply Forall_impl; [exact Hgood|]. by intros l [? _].
Qed.

(** The report: one entry per mount that is kept, in order; kept are the mounts
    of block devices and network file systems that are not in memory; a mount is
    "ok" exactly if statfs answered in time, and only then has figures; and the
    summary counts each entry once, the hung ones apart. *)
Theorem mount_report `{FileSystem} (statfs : gostring → statfs_result) :
  let '(summary, stats) := mountusage_Execute statfs in
  map (λ s, MkMountEntry (ms_MountPoint s) (ms_Filesystem s) (ms_Device s)) stats = filter shouldKeepMount parseMounts ∧
  (∀ m, shouldKeepMount m = true ↔ me_Filesystem m ∉ [go "tmpfs"; go "devtmpfs"] ∧
     (go "/dev/" `prefix_of` me_Device m ∨ ":"%char ∈ me_Device m ∨ "@"%char ∈ me_Device m)) ∧
  (∀ s, s ∈ stats →
     (ms_Status s = go "ok" ∧ ms_Error s = [] ∧
        ∃ buf, statfs (ms_MountPoint s) = StatfsDone buf ∧ ms_Capacity s = capacity_of buf ∧ ms_Inodes s = inodes_of buf) ∨
     (ms_Status s = go "hung" ∧ (∀ buf, statfs (ms_MountPoint s) ≠ StatfsDone buf) ∧
        ms_Capacity s = no_capacity ∧ ms_Inodes s = no_inodes)) ∧
  us_TotalMountsChecked summary = Z.of_nat (length stats) ∧
  us_HungMountsDetected summary = Z.of_nat (length (filter (λ s, ms_Status s = go "hung") stats)) ∧
  us_CapacityWarnings summary =
    Z.of_nat (length (filter (λ s, ms_Status s ≠ go "hung" ∧ f64_ltb (f64_of_Z 85) (mc_UsagePct (ms_Capacity s)) = true) stats)) ∧
  us_InodeWarnings summary =
    Z.of_nat (length (filter (λ s, ms_Status s ≠ go "hung" ∧ f64_ltb (f64_of_Z 85) (mi_UsagePct (ms_Inodes s)) = true) stats)).
Proof.
  unfold mountusage_Execute. set (stats := GetMountStats statfs).
  destruct (count_mounts stats (MkUsageSummary (Z.of_nat (length stats)) 0 0 0)) as (-> & -> & -> & ->).
  split_and!; [| | |done|done|done|done].
  - unfold stats, GetMountStats. rewrite map_map. rewrite <-(map_id (filter _ _)) at 2. apply map_ext. intros [mp fs dev].
    unfold mount_stats. simpl. by destruct (statfs mp).
  - intros m. unfold shouldKeepMount. rewrite !elem_of_cons, elem_of_nil, <-strings_HasPrefix_spec.
    do 2 (case_bool_decide; [naive_solver|]). simpl. rewrite !orb_true_iff, !bool_decide_eq_true. naive_solver.
  - intros s Hs. unfold stats, GetMountStats in Hs. apply list_elem_of_fmap in Hs as (m & -> & _).
    unfold mount_stats. destruct (statfs (me_MountPoint m)) as [buf|err| |err] eqn:Hr; simpl; [left|right..].
    + split_and!; [done|done|]. by exists buf.
    + by rewrite Hr.
    + by rewrite Hr.
    + by rewrite Hr.
Qed.

(** Inodes: what is used and what is free make up the total, also where a file
    system reports more free inodes than it has. *)
Theorem inodes_bounded (buf : Statfs_t) (Hf : 0 ≤ sf_Files buf < 2 ^ 64) (Hr : 0 ≤ sf_Ffree buf < 2 ^ 64) :
  let i := inodes_of buf in
  0 ≤ mi_Used i ≤ mi_Total i ∧ (sf_Ffree buf ≤ sf_Files buf → mi_Used i + mi_Free i = mi_Total i).
Proof. simpl. destruct (Z.ltb_spec (sf_Ffree buf) (sf_Files buf)); lia. Qed.

(** How the kernel prints a path: spaces, tabs, newlines and backslashes as octal
    escapes. *)
Definition mangle (path : gostring) : gostring :=
  path ≫= λ c,
    if decide (c = " "%char) then go "\040"
    else if decide (c = "009"%char) then go "\011"
    else if decide (c = "010"%char) then go "\012"
    else if decide (c = "\"%char) then go "\134"
    else [c].

(** Escapes are not undone: a mount point with a space is asked for under the name
    the kernel escaped, which is not its path. If that name does not exist, the
    mount is reported as hung. *)
Theorem escaped_mount_hung (statfs : gostring → statfs_result) (path fsType device : gostring)
  (Hspace : " "%char ∈ path) (Hmissing : statfs (mangle path) = StatfsFailed (go "no such file or directory")) :
  mangle path ≠ path ∧
  let s := mount_stats statfs (MkMountEntry (mangle path) fsType device) in
  ms_Status s = go "hung" ∧ ms_MountPoint s = mangle path.
Proof.
  split.
  - intros Heq. assert (" "%char ∉ mangle path) as Hno; [|by rewrite Heq in Hno].
    unfold mangle. rewrite list_elem_of_bind. intros (c & Hc & _). revert Hc. repeat case_decide; by_decide || (intros Hc%list_elem_of_singleton; congruence).
  - unfold mount_stats. simpl. by rewrite Hmissing.
Qed.

(** A line that does not fit the scanner's buffer ends the list: the mounts after it
    are not reported, and nothing tells so. *)
Theorem long_line_hides_rest `{FileSystem} (data : gostring) (before after : list gostring) (long : gostring)
  (Hread : ReadFile [go "/proc"; go "self/mountinfo"] = inl data)
  (Hlines : raw_lines data = before ++ long :: after)
  (Hshort : Forall (λ l, Z.of_nat (length l) < MaxScanTokenSize) before) (Hlong : MaxScanTokenSize ≤ Z.of_nat (length long)) :
  parseMounts = omap mount_of_fields (map (λ l, strings_Fields (drop_cr l)) before).
Proof.
  unfold parseMounts, scan_file, scan_fields. rewrite Hread, Hlines.
  assert ((scan_lines (before ++ long :: after)).1 = map drop_cr before) as ->; [|by rewrite map_map].
  clear -Hshort Hlong. induction Hshort as [|l before Hl _ IH]; cbn [app scan_lines].
  - by rewrite (proj2 (Z.leb_le _ _)).
  - rewrite (proj2 (Z.leb_gt _ _)) by done. destruct (scan_lines _). simpl in *. by rewrite IH.
Qed.

(** ** Witnesses *)

Definition root_line : mountinfo_line :=
  MkMountLine (go "29") (go "1") (go "259:2") (go "/") (go "/") (go "rw,relatime") [go "shared:1"] (go "ext4") (go "/dev/nvme0n1p2") (go "rw").

Definition home_line : mountinfo_line :=
  MkMountLine (go "40") (go "29") (go "0:45") (go "/") (go "/home") (go "rw") [] (go "nfs4") (go "fs1:/home") (go "rw").

Definition mounts_fs : FileSystem :=
  mem_fs [([go "/proc"; go "self/mountinfo"], print_lines [mount_fields root_line; mount_fields home_line])] [] [].

Lemma parseMounts_roundtrip_witness :
  Forall good_mount_line [root_line; home_line] ∧
  @parseMounts mounts_fs = [MkMountEntry (go "/") (go "ext4") (go "/dev/nvme0n1p2"); MkMountEntry (go "/home") (go "nfs4") (go "fs1:/home")].
Proof.
  assert (Forall good_mount_line [root_line; home_line]) as Hall by (repeat constructor; unfold good_mount_line; by_decide).
  split; [done|]. apply (@parseMounts_roundtrip mounts_fs [root_line; home_line]); [by vm_compute|done].
Defined.

Lemma inodes_bounded_witness : mi_Used (inodes_of (MkStatfs 4096 0 0 10 12)) = 0 ∧ 0 ≤ mi_Used (inodes_of (MkStatfs 4096 0 0 10 12)) ≤ 10.
Proof. split; [done|]. apply (inodes_bounded (MkStatfs 4096 0 0 10 12)); simpl; lia. Defined.

Lemma escaped_mount_hung_witness :
  mangle (go "/mnt/my disk") = go "/mnt/my\040disk" ∧
  ms_Status (mount_stats (λ _, StatfsFailed (go "no such file or directory"))
    (MkMountEntry (go "/mnt/my\040disk") (go "ext4") (go "/dev/sdb1"))) = go "hung".
Proof.
  split; [by vm_compute|].
  apply (escaped_mount_hung (λ _, StatfsFailed (go "no such file or directory")) (go "/mnt/my disk")); [by_decide|done].
Defined.

Lemma long_line_hides_rest_witness :
  let overlay := replicate 65536 "x"%char in
  let lines := strings_Join (mount_fields root_line) (go " ") ++ [newline] ++ overlay ++ [newline] ++
    strings_Join (mount_fields home_line) (go " ") ++ [newline] in
  @parseMounts (mem_fs [([go "/proc"; go "self/mountinfo"], lines)] [] []) =
    [MkMountEntry (go "/") (go "ext4") (go "/dev/nvme0n1p2")].
Proof.
  cbn zeta. set (overlay := replicate 65536 "x"%char).
  erewrite (@long_line_hides_rest (mem_fs _ [] []) _ [strings_Join (mount_fields root_line) (go " ")]
    [strings_Join (mount_fields home_line) (go " ")] overlay); [by vm_compute|reflexivity| | |].
  - by_decide.
  - constructor; [by vm_compute|done].
  - unfold overlay. rewrite length_replicate. vm_compute. done.
Defined.
