(* ===== verification/BlockTopo.v ===== *)
(** * The storage stack: sys/storage/block.go

    Physical disks with their partitions, software RAID arrays from /proc/mdstat,
    device-mapper targets, and swap areas, joined with the mounted file systems by
    device number. The regular expressions of mdstat are matchers of their own:
    each is deterministic, so the first match is the only one at its position. *)

From Stdlib Require Import Ascii.
From stdpp Require Import base numbers gmap strings sorting list.
From S2P Require Import Prelude GoStrings GoFloat GoNet GoOs Mounts.

Open Scope Z_scope.

(** ** Data *)

Record Partition := MkPartition { pt_Name : gostring; pt_SizeGiB : float64; pt_Holders : list gostring }.

Record PhysicalDevice := MkPhysicalDevice {
  pd_DeviceName : gostring;
  pd_MajorMinor : gostring;
  pd_Model : gostring;
  pd_SizeGiB : float64;
  pd_Transport : gostring;
  pd_Partitions : list Partition
}.

Record MDArray := MkMDArray {
  md_ArrayName : gostring;
  md_KernelName : gostring;
  md_Level : gostring;
  md_State : gostring;
  md_Slaves : list gostring;
  md_MountPoint : gostring;
  md_Filesystem : gostring
}.

Record DeviceMapper := MkDeviceMapper {
  dv_DMName : gostring;
  dv_KernelName : gostring;
  dv_Slaves : list gostring;
  dv_MountPoint : gostring;
  dv_Filesystem : gostring
}.

Record SwapDevice := MkSwapDevice {
  sw_Filename : gostring; sw_Type : gostring; sw_SizeKiB : Z; sw_UsedKiB : Z; sw_Priority : Z
}.

Record BlockMount := MkBlockMount { bm_MajorMinor : gostring; bm_MountPoint : gostring; bm_Filesystem : gostring }.

Record BlockTopology := MkBlockTopology {
  bt_PhysicalDevices : list PhysicalDevice;
  bt_MDArrays : list MDArray;
  bt_DeviceMapper : list DeviceMapper;
  bt_SwapDevices : list SwapDevice
}.

Definition Contains (s sub : gostring) : bool := match strings_Index s sub with Some _ => true | None => false end.

(** ** Physical devices *)

Definition blockDir : gostring := go "class/block".

Definition virtual_prefixes : list gostring := [go "dm-"; go "md"; go "loop"; go "ram"; go "zram"; go "nbd"].

Definition isPhysicalDevice `{FileSystem} (name : gostring) : bool :=
  if existsb (strings_HasPrefix name) virtual_prefixes then false
  else match Stat [blockDir; name; go "device"] with inl isDir => isDir | inr _ => false end.

Definition isPartition `{FileSystem} (name : gostring) : bool :=
  match Stat [blockDir; name; go "partition"] with inl _ => true | inr _ => false end.

Definition readMajorMinor `{FileSystem} (devName : gostring) : gostring := read_trimmed [blockDir; devName; go "dev"].

Definition readModel `{FileSystem} (devName : gostring) : gostring := read_trimmed [blockDir; devName; go "device/model"].

Definition sectorsToGiB (sectors : Z) : float64 :=
  round1 (f64_div (f64_mul (f64_of_Z sectors) (f64_of_Z 512)) (f64_of_Z (1024 * 1024 * 1024))).

Definition readSizeGiB `{FileSystem} (devName : gostring) : float64 :=
  match ReadFile [blockDir; devName; go "size"] with
  | inr _ => f64_of_Z 0
  | inl data =>
      match ParseInt (strings_TrimSpace data) with (sectors, None) => sectorsToGiB sectors | _ => f64_of_Z 0 end
  end.

Definition detectTransport `{FileSystem} (devName : gostring) : gostring :=
  if strings_HasPrefix devName (go "nvme") then go "pcie"
  else
    match Readlink [blockDir; devName; go "device"] with
    | inr _ => go "unknown"
    | inl target =>
        if Contains target (go "virtio") then go "virtio"
        else if Contains target (go "usb") then go "usb"
        else if Contains target (go "/ata") then go "sata"
        else if Contains target (go "scsi") then go "sas"
        else go "unknown"
    end.

Definition dir_names `{FileSystem} (path : list gostring) : list gostring :=
  match ReadDir path with inl entries => map de_Name entries | inr _ => [] end.

Definition readHolders `{FileSystem} (devName : gostring) : list gostring := sort_Strings (dir_names [blockDir; devName; go "holders"]).

Definition readSlaves `{FileSystem} (devName : gostring) : list gostring := sort_Strings (dir_names [blockDir; devName; go "slaves"]).

(** An entry that is taken for a partition of a device. *)
Definition partition_of `{FileSystem} (parentDev name : gostring) : bool :=
  strings_HasPrefix name parentDev && negb (bool_decide (name = parentDev)) && isPartition name.

Section devices.
Context `{FileSystem} `{GoSort}.

Definition discoverPartitions (parentDev : gostring) : list Partition :=
  sort_slice (name_less pt_Name)
    (map (λ name, MkPartition name (readSizeGiB name) (readHolders name))
       (filter (partition_of parentDev) (dir_names [blockDir]))).

Definition physical_device (name : gostring) : PhysicalDevice :=
  MkPhysicalDevice name (readMajorMinor name) (readModel name) (readSizeGiB name) (detectTransport name) (discoverPartitions name).

Definition discoverPhysicalDevices : list PhysicalDevice :=
  sort_slice (name_less pd_DeviceName)
    (map physical_device (filter (λ n, Is_true (isPhysicalDevice n && negb (isPartition n))) (dir_names [blockDir]))).

End devices.

(** ** Mounts by device number, and swap areas *)

Definition block_mount (fields : list gostring) : option BlockMount :=
  if (length fields <? 7)%nat then None
  else
    let fsType := match sep_index fields with Some sepIdx => nth (sepIdx + 1) fields [] | None => [] end in
    Some (MkBlockMount (nth 2 fields []) (nth 4 fields []) fsType).

(** A later line of the same device wins. *)
Definition parseMountInfo `{FileSystem} : gmap gostring BlockMount :=
  match scan_file [go "/proc"; go "self/mountinfo"] with
  | inr _ => ∅
  | inl (lines, _) => foldl (λ mounts m, <[bm_MajorMinor m := m]> mounts) ∅ (omap block_mount lines)
  end.

Definition swap_of (fields : list gostring) : option SwapDevice :=
  if (length fields <? 5)%nat then None
  else
    let field i := nth i fields [] in
    Some (MkSwapDevice (field 0%nat) (field 1%nat) (int_of (field 2%nat)) (int_of (field 3%nat)) (int_of (field 4%nat))).

Definition parseSwaps `{FileSystem} : list SwapDevice :=
  match scan_file [go "/proc"; go "swaps"] with
  | inr _ => []
  | inl (lines, _) => omap swap_of (drop 1 lines)
  end.

(** ** /proc/mdstat *)

(** The longest prefix of a class of characters, and the rest. *)
Fixpoint span (p : ascii → bool) (s : gostring) : gostring * gostring :=
  match s with
  | [] => ([], [])
  | c :: r => if p c then let '(a, b) := span p r in (c :: a, b) else ([], s)
  end.

(** The classes of regular expressions: word characters and white space. *)
Definition is_word (c : ascii) : bool :=
  let n := N_of_ascii c in
  is_digit c || ((65 <=? n) && (n <=? 90))%N || ((97 <=? n) && (n <=? 122))%N || (n =? 95)%N.

Definition is_space (c : ascii) : bool :=
  let n := N_of_ascii c in (n =? 9)%N || (n =? 10)%N || (n =? 12)%N || (n =? 13)%N || (n =? 32)%N.

(** One or more characters of a class. *)
Definition span1 (p : ascii → bool) (s : gostring) : option (gostring * gostring) :=
  match span p s with ([], _) => None | r => Some r end.

Arguments span1 : simpl never.

(** A literal character. *)
Definition lit (c : ascii) (s : gostring) : option gostring :=
  match s with x :: r => if decide (x = c) then Some r else None | [] => None end.

(** The line of an array: its name, level and components. *)
Definition mdLine (s : gostring) : option (gostring * gostring * gostring) :=
  s1 ← lit "m" s;
  s2 ← lit "d" s1;
  '(digits, s3) ← span1 is_digit s2;
  s4 ← lit ":" (span is_space s3).2;
  '(_, s5) ← span1 is_word (span is_space s4).2;
  '(_, s6) ← span1 is_space s5;
  '(level, s7) ← span1 is_word s6;
  '(_, components) ← span1 is_space s7;
  Some (go "md" ++ digits, level, components).

(** What follows the name of a component: its number in brackets. *)
Definition md_index (s : gostring) : option gostring :=
  s1 ← lit "[" s; '(_, s2) ← span1 is_digit s1; lit "]" s2.

(** All components. A match starts at the first character of a word; if the
    whole word has no number behind it, neither has a part of it. *)
Fixpoint md_drives (fuel : nat) (s : gostring) : list gostring :=
  match fuel with
  | O => []
  | S fuel =>
      match s with
      | [] => []
      | c :: r =>
          match span1 is_word s with
          | None => md_drives fuel r
          | Some (w, rest) =>
              match md_index rest with
              | Some rest => w :: md_drives fuel rest
              | None => md_drives fuel rest
              end
          end
      end
  end.

(** The counts of drives at the start of a string: wanted and active. *)
Definition md_status_here (s : gostring) : option (gostring * gostring) :=
  s1 ← lit "[" s;
  '(total, s2) ← span1 is_digit s1;
  s3 ← lit "/" s2;
  '(active, s4) ← span1 is_digit s3;
  s5 ← lit "]" s4;
  '(_, s6) ← span1 is_space s5;
  s7 ← lit "[" s6;
  '(_, s8) ← span1 (λ c, bool_decide (c = "U"%char) || bool_decide (c = "_"%char)) s7;
  _ ← lit "]" s8;
  Some (total, active).

(** ... and at the first place where they are. *)
Fixpoint md_status (s : gostring) : option (gostring * gostring) :=
  match md_status_here s with
  | Some r => Some r
  | None => match s with [] => None | _ :: r => md_status r end
  end.

Definition md_state (next : option gostring) : gostring :=
  match next ≫= md_status with
  | Some (total, active) => if int_of active <? int_of total then go "degraded" else go "active"
  | None => go "active"
  end.

Fixpoint md_arrays (lines : list gostring) : list MDArray :=
  match lines with
  | [] => []
  | line :: rest =>
      match mdLine line with
      | None => md_arrays rest
      | Some (name, level, components) =>
          MkMDArray name name level (md_state (head rest)) (sort_Strings (md_drives (S (length components)) components)) [] []
          :: md_arrays rest
      end
  end.

Definition parseMDStat `{FileSystem} : list MDArray :=
  match ReadFile [go "/proc"; go "mdstat"] with
  | inr _ => []
  | inl data => md_arrays (strings_Split data newline)
  end.

(** ** Virtual layers *)

Definition enrichMDArray `{FileSystem} (mounts : gmap gostring BlockMount) (a : MDArray) : MDArray :=
  let sysSlaves := readSlaves (md_KernelName a) in
  let slaves := match sysSlaves with [] => md_Slaves a | _ => sysSlaves end in
  match mounts !! readMajorMinor (md_KernelName a) with
  | Some entry =>
      MkMDArray (md_ArrayName a) (md_KernelName a) (md_Level a) (md_State a) slaves (bm_MountPoint entry) (bm_Filesystem entry)
  | None =>
      MkMDArray (md_ArrayName a) (md_KernelName a) (md_Level a) (md_State a) slaves (md_MountPoint a) (md_Filesystem a)
  end.

Definition enrichMDArrays `{FileSystem} (mounts : gmap gostring BlockMount) : list MDArray :=
  map (enrichMDArray mounts) parseMDStat.

Definition device_mapper `{FileSystem} (mounts : gmap gostring BlockMount) (name : gostring) : DeviceMapper :=
  let dmName := match ReadFile [blockDir; name; go "dm/name"] with inl data => strings_TrimSpace data | inr _ => name end in
  match mounts !! readMajorMinor name with
  | Some entry => MkDeviceMapper dmName name (readSlaves name) (bm_MountPoint entry) (bm_Filesystem entry)
  | None => MkDeviceMapper dmName name (readSlaves name) [] []
  end.

Definition discoverDeviceMapper `{FileSystem} `{GoSort} (mounts : gmap gostring BlockMount) : list DeviceMapper :=
  sort_slice (name_less dv_KernelName)
    (map (device_mapper mounts) (filter (λ n, Is_true (strings_HasPrefix n (go "dm-"))) (dir_names [blockDir]))).

Definition GetBlockTopology `{FileSystem} `{GoSort} : BlockTopology :=
  let mounts := parseMountInfo in
  MkBlockTopology discoverPhysicalDevices (enrichMDArrays mounts) (discoverDeviceMapper mounts) parseSwaps.

(** ** Lemmas: devices *)

Lemma NoDup_dir_names `{FileSystem} path : NoDup (dir_names path).
Proof. unfold dir_names. destruct (ReadDir path) eqn:Hr; [by eapply ReadDir_names|constructor]. Qed.

Lemma partition_of_spec `{FileSystem} parent name :
  partition_of parent name = true ↔ parent `prefix_of` name ∧ name ≠ parent ∧ isPartition name = true.
Proof.
  unfold partition_of. rewrite !andb_true_iff, strings_HasPrefix_spec, negb_true_iff, bool_decide_eq_false. naive_solver.
Qed.

(** The shape of both listings: what a test keeps, built by name, sorted. *)
Lemma sorted_listing `{FileSystem} `{GoSort} {A} (name : A → gostring) (mk : gostring → A) (keep : gostring → bool) path :
  (∀ n, name (mk n) = n) →
  let l := sort_slice (name_less name) (map mk (filter (λ n, Is_true (keep n)) (dir_names path))) in
  StronglySorted (λ a b, name_less name a b = true) l ∧
  ∀ x, x ∈ l ↔ ∃ n, n ∈ dir_names path ∧ keep n = true ∧ x = mk n.
Proof.
  intros Hname. cbn zeta. split.
  - apply sort_by_name. rewrite map_map, (map_ext _ (λ n, n) Hname), map_id. apply NoDup_filter, NoDup_dir_names.
  - intros x. rewrite sort_slice_perm, list_elem_of_fmap. setoid_rewrite list_elem_of_filter. setoid_rewrite Is_true_true. naive_solver.
Qed.

Lemma partitions_of `{FileSystem} `{GoSort} parent :
  StronglySorted (λ a b, name_less pt_Name a b = true) (discoverPartitions parent) ∧
  ∀ p, p ∈ discoverPartitions parent ↔ ∃ n, n ∈ dir_names [blockDir] ∧
    (parent `prefix_of` n ∧ n ≠ parent ∧ isPartition n = true) ∧ p = MkPartition n (readSizeGiB n) (readHolders n).
Proof.
  destruct (sorted_listing pt_Name (λ n, MkPartition n (readSizeGiB n) (readHolders n)) (partition_of parent) [blockDir])
    as [Hs Hin]; [done|]. split; [exact Hs|]. intros p. setoid_rewrite <-partition_of_spec. apply Hin.
Qed.

(** ** Lemmas: regular expressions *)

Lemma span_app p a r : Forall (λ c, p c = true) a → match r with c :: _ => p c = false | [] => True end → span p (a ++ r) = (a, r).
Proof.
  intros Ha Hr. induction Ha as [|c a Hc _ IH]; simpl.
  - destruct r as [|c r]; [done|]. simpl. by rewrite Hr.
  - by rewrite Hc, IH.
Qed.

Lemma span_none p r : match r with c :: _ => p c = false | [] => True end → span p r = ([], r).
Proof. apply (span_app p []). constructor. Qed.

Lemma span1_app p a r :
  a ≠ [] → Forall (λ c, p c = true) a → match r with c :: _ => p c = false | [] => True end → span1 p (a ++ r) = Some (a, r).
Proof. intros Hne Ha Hr. unfold span1. rewrite span_app by done. by destruct a. Qed.

(** A component as the kernel prints it: the drive, its number, and flags such as
    (F) after it. *)
Record md_component := MkComponent { co_drive : gostring; co_number : gostring; co_flags : gostring }.

Definition print_component (c : md_component) : gostring :=
  co_drive c ++ go "[" ++ co_number c ++ go "]" ++ co_flags c.

Definition flags_text (s : gostring) : Prop := s = [] ∨ ∃ f, s = go "(" ++ [f] ++ go ")" ∧ is_word f = true.

Definition good_component (c : md_component) : Prop :=
  co_drive c ≠ [] ∧ Forall (λ x, is_word x = true) (co_drive c) ∧
  co_number c ≠ [] ∧ Forall (λ x, is_digit x = true) (co_number c) ∧ flags_text (co_flags c).

Lemma md_drive_step fuel c rest :
  good_component c → md_drives (S fuel) (print_component c ++ rest) = co_drive c :: md_drives fuel (co_flags c ++ rest).
Proof.
  intros (Hd & Hw & Hn & Hg & _). unfold print_component. rewrite <-!app_assoc.
  destruct (co_drive c) as [|x d] eqn:Hdrive; [done|]. cbn [app md_drives].
  change (x :: d ++ ?r) with ((x :: d) ++ r). rewrite span1_app by done. unfold md_index. simpl.
  by rewrite (span1_app is_digit (co_number c) ("]"%char :: co_flags c ++ rest)).
Qed.

Lemma md_drives_skip fuel x rest : is_word x = false → md_drives (S fuel) (x :: rest) = md_drives fuel rest.
Proof. intros Hx. cbn [md_drives]. unfold span1. simpl. by rewrite Hx. Qed.

Lemma md_drives_word fuel w x rest :
  w ≠ [] → Forall (λ c, is_word c = true) w → is_word x = false → x ≠ "["%char →
  md_drives (S fuel) (w ++ x :: rest) = md_drives fuel (x :: rest).
Proof.
  intros Hne Hw Hx Hb. destruct w as [|c w]; [done|]. cbn [app md_drives].
  change (c :: w ++ ?r) with ((c :: w) ++ r). rewrite span1_app by done. unfold md_index, lit. simpl. by rewrite decide_False.
Qed.

(** Fuel beyond the length makes no difference. *)
Lemma span_length p s : (length (span p s).2 ≤ length s)%nat.
Proof. induction s as [|c s IH]; simpl; [done|]. destruct (p c); [|done]. destruct (span p s). simpl in *. lia. Qed.

Lemma span1_length p s a b : span1 p s = Some (a, b) → (length b < length s)%nat.
Proof.
  unfold span1. destruct s as [|c s]; simpl; [done|]. destruct (p c); [|done].
  pose proof (span_length p s) as Hl. destruct (span p s) as [x y]. simpl in *. intros [= <- <-]. lia.
Qed.

Lemma lit_length c s r : lit c s = Some r → (length r < length s)%nat.
Proof. unfold lit. destruct s; [done|]. case_decide; [|done]. intros [= ->]. simpl. lia. Qed.

Lemma md_index_length s r : md_index s = Some r → (length r < length s)%nat.
Proof.
  unfold md_index. destruct (lit "[" s) as [s1|] eqn:H1; [|done]. simpl. destruct (span1 is_digit s1) as [[d s2]|] eqn:H2; [|done].
  simpl. intros H3. apply lit_length in H1, H3. apply span1_length in H2. lia.
Qed.

Lemma md_drives_fuel fuel fuel' s : (length s < fuel)%nat → (length s < fuel')%nat → md_drives fuel s = md_drives fuel' s.
Proof.
  revert fuel' s. induction fuel as [|fuel IH]; intros fuel' s Hf Hf'; [lia|]. destruct fuel' as [|fuel']; [lia|].
  cbn [md_drives]. destruct s as [|c r]; [done|].
  destruct (span1 is_word (c :: r)) as [[w rest]|] eqn:Hs; [|apply IH; simpl in *; lia].
  apply span1_length in Hs. simpl in *. destruct (md_index rest) as [rest'|] eqn:Hi.
  - apply md_index_length in Hi. f_equal. apply IH; lia.
  - apply IH; lia.
Qed.

(** Flags hold no drive. *)
Lemma md_drives_flags fuel flags rest :
  flags_text flags → match rest with x :: _ => x = " "%char | [] => True end →
  (length (flags ++ rest) < fuel)%nat → ∃ fuel', (length rest < fuel')%nat ∧ md_drives fuel (flags ++ rest) = md_drives fuel' rest.
Proof.
  intros [->|(f & -> & Hf)] Hr Hlen; [by exists fuel|]. simpl in *. destruct fuel as [|[|[|fuel]]]; [lia..|].
  exists fuel. split; [lia|]. rewrite md_drives_skip by done.
  rewrite (md_drives_word _ [f] ")"%char rest) by (try done; by repeat constructor). by rewrite md_drives_skip.
Qed.

Lemma md_drives_print cs fuel :
  Forall good_component cs → (length (strings_Join (map print_component cs) (go " ")) < fuel)%nat →
  md_drives fuel (strings_Join (map print_component cs) (go " ")) = map co_drive cs.
Proof.
  intros Hcs. revert fuel. induction Hcs as [|c cs Hc Hcs IH]; intros fuel Hlen; [by destruct fuel|].
  destruct fuel as [|fuel]; [lia|].
  assert (strings_Join (map print_component (c :: cs)) (go " ") = print_component c ++
    match cs with [] => [] | _ => " "%char :: strings_Join (map print_component cs) (go " ") end) as E.
  { destruct cs; simpl; [by rewrite app_nil_r|done]. }
  rewrite E in *. clear E. set (tail := match cs with [] => [] | _ => _ end) in *. rewrite md_drive_step by done. cbn [map]. f_equal.
  destruct Hc as (_ & _ & _ & _ & Hfl).
  assert (length (co_flags c ++ tail) < fuel)%nat as Hl.
  { unfold print_component in Hlen. rewrite !length_app in *. simpl in Hlen. lia. }
  destruct (md_drives_flags fuel (co_flags c) tail Hfl) as (fuel' & Hf' & ->); [|exact Hl|].
  - unfold tail. by destruct cs.
  - unfold tail in *. destruct cs as [|c' cs]; [by destruct fuel'|]. destruct fuel' as [|fuel']; [lia|].
    rewrite md_drives_skip by done. apply IH. cbn [length] in Hf'. lia.
Qed.

Lemma span1_space r : match r with c :: _ => is_space c = false | [] => True end → span1 is_space (" "%char :: r) = Some ([" "%char], r).
Proof. intros Hr. apply (span1_app is_space [" "%char] r); [done|by repeat constructor|done]. Qed.

Lemma word_not_space c : is_word c = true → is_space c = false.
Proof. unfold is_word, is_digit, is_space. by destruct c as [[] [] [] [] [] [] [] []]. Qed.

Lemma word_head w r : w ≠ [] → Forall (λ c, is_word c = true) w → match w ++ r with c :: _ => is_space c = false | [] => True end.
Proof. destruct w as [|c w]; [done|]. intros _ [Hc _]%Forall_cons. by apply word_not_space. Qed.

(** The front of the line of an array, up to the text after its state. *)
Lemma mdLine_front digits state r :
  digits ≠ [] → Forall (λ c, is_digit c = true) digits → state ≠ [] → Forall (λ c, is_word c = true) state →
  match r with c :: _ => is_space c = false | [] => True end →
  mdLine (go "md" ++ digits ++ go " : " ++ state ++ " "%char :: r) =
  '(level, s7) ← span1 is_word r; '(_, components) ← span1 is_space s7; Some (go "md" ++ digits, level, components).
Proof.
  intros Hd Hdd Hs Hsw Hr. unfold mdLine. simpl. rewrite (span1_app is_digit digits) by done. simpl.
  rewrite (span_none is_space (state ++ " "%char :: r)) by by apply word_head. simpl.
  rewrite (span1_app is_word state) by done. simpl. by rewrite span1_space.
Qed.

(** The line of an array of two words: its state and its level. *)
Lemma mdLine_print digits state level components :
  digits ≠ [] → Forall (λ c, is_digit c = true) digits → state ≠ [] → Forall (λ c, is_word c = true) state →
  level ≠ [] → Forall (λ c, is_word c = true) level →
  match components with c :: _ => is_space c = false | [] => True end →
  mdLine (go "md" ++ digits ++ go " : " ++ state ++ go " " ++ level ++ go " " ++ components) = Some (go "md" ++ digits, level, components).
Proof.
  intros Hd Hdd Hs Hsw Hl Hlw Hc. change (go " " ++ ?r) with (" "%char :: r). rewrite mdLine_front by (done || by apply word_head).
  rewrite (span1_app is_word level) by done. cbn. by rewrite span1_space.
Qed.

(** A status line: text without brackets, the counts, the map of drives. *)
Lemma md_status_print pre total active flags post :
  "["%char ∉ pre → total ≠ [] → Forall (λ c, is_digit c = true) total → active ≠ [] → Forall (λ c, is_digit c = true) active →
  flags ≠ [] → Forall (λ c, c ∈ [ "U"%char; "_"%char ]) flags →
  md_status (pre ++ go "[" ++ total ++ go "/" ++ active ++ go "] [" ++ flags ++ go "]" ++ post) = Some (total, active).
Proof.
  intros Hpre Ht Htd Ha Had Hf Hff. induction pre as [|c pre IH].
  - assert (∀ s, md_status s = match md_status_here s with Some r => Some r | None => match s with [] => None | _ :: r => md_status r end end) as ->
      by by intros [].
    assert (md_status_here ([] ++ go "[" ++ total ++ go "/" ++ active ++ go "] [" ++ flags ++ go "]" ++ post) = Some (total, active)) as ->; [|done].
    unfold md_status_here. simpl. rewrite (span1_app is_digit total) by done. simpl. rewrite (span1_app is_digit active) by done. simpl.
    rewrite span1_app; [done|done| |done]. eapply Forall_impl; [exact Hff|]. intros c.
    rewrite !elem_of_cons, elem_of_nil. by intros [->|[->|[]]].
  - apply not_elem_of_cons in Hpre as [Hc Hpre]. cbn [app md_status]. rewrite IH by done. unfold md_status_here. simpl.
    by rewrite decide_False.
Qed.

Lemma parseMountInfo_lookup `{FileSystem} lines err mm :
  scan_file [go "/proc"; go "self/mountinfo"] = inl (lines, err) →
  parseMountInfo !! mm = last (filter (λ m, bm_MajorMinor m = mm) (omap block_mount lines)).
Proof.
  intros Hs. unfold parseMountInfo. rewrite Hs. generalize (omap block_mount lines). intros l.
  induction l as [|m l IH] using rev_ind; [done|].
  rewrite foldl_snoc, filter_app, filter_cons, filter_nil. destruct (decide (bm_MajorMinor m = mm)) as [<-|Hne].
  - by rewrite lookup_insert_eq, last_snoc.
  - by rewrite lookup_insert_ne, app_nil_r.
Qed.

(** ** Properties *)

(** The disks: every block device with hardware behind it that is no partition,
    once, in order of names, with what sysfs says about it; and under each the
    partitions whose name extends its name, in the same way. *)
Theorem physical_devices_exact `{FileSystem} `{GoSort} :
  let devices := discoverPhysicalDevices in
  StronglySorted (λ a b, name_less pd_DeviceName a b = true) devices ∧
  (∀ d, d ∈ devices ↔ ∃ n, n ∈ dir_names [blockDir] ∧ (isPhysicalDevice n = true ∧ isPartition n = false) ∧ d = physical_device n) ∧
  (∀ d, d ∈ devices → StronglySorted (λ a b, name_less pt_Name a b = true) (pd_Partitions d) ∧
     ∀ p, p ∈ pd_Partitions d ↔ ∃ n, n ∈ dir_names [blockDir] ∧
       (pd_DeviceName d `prefix_of` n ∧ n ≠ pd_DeviceName d ∧ isPartition n = true) ∧ p = MkPartition n (readSizeGiB n) (readHolders n)).
Proof.
  cbn zeta. destruct (sorted_listing pd_DeviceName physical_device (λ n, isPhysicalDevice n && negb (isPartition n)) [blockDir])
    as [Hs Hin]; [done|]. split_and!; [exact Hs| |].
  - intros d. setoid_rewrite <-negb_true_iff. setoid_rewrite <-andb_true_iff. apply Hin.
  - intros d (n & _ & _ & ->)%Hin. apply partitions_of.
Qed.

(** A partition can be listed twice: where the name of one disk begins with the name of
    another (nvme0n1 and nvme0n10, sda and sdaa), the partitions of the first are
    also listed under the second. *)
Theorem partition_listed_twice `{FileSystem} `{GoSort} (d d' : PhysicalDevice)
  (Hd : d ∈ discoverPhysicalDevices) (Hd' : d' ∈ discoverPhysicalDevices)
  (Hne : d ≠ d') (Hpre : pd_DeviceName d `prefix_of` pd_DeviceName d') :
  pd_Partitions d' ⊆ pd_Partitions d.
Proof.
  destruct (sorted_listing pd_DeviceName physical_device (λ n, isPhysicalDevice n && negb (isPartition n)) [blockDir])
    as [_ Hin]; [done|]. apply Hin in Hd as (n & Hn & _ & ->). apply Hin in Hd' as (n' & Hn' & _ & ->).
  intros p Hp. simpl in *. apply partitions_of in Hp as (m & Hm & (Hpm & Hmn & Hpart) & ->). apply partitions_of.
  exists m. split_and!; [done|by etrans| |done|done]. intros ->. apply Hne. f_equal. by apply (anti_symm prefix).
Qed.

(** A running array is read back from mdstat: its name, level and drives, and it is
    degraded exactly if fewer drives are active than wanted. *)
Theorem mdstat_roundtrip (digits state level : gostring) (components : list md_component) (pre flags post : gostring)
  (total active : Z) (rest : list gostring)
  (Hdigits : digits ≠ [] ∧ Forall (λ c, is_digit c = true) digits)
  (Hstate : state ≠ [] ∧ Forall (λ c, is_word c = true) state)
  (Hlevel : level ≠ [] ∧ Forall (λ c, is_word c = true) level)
  (Hcomp : Forall good_component components)
  (Hpre : "["%char ∉ " "%char :: pre) (Hflags : flags ≠ [] ∧ Forall (λ c, c ∈ ["U"%char; "_"%char]) flags)
  (Hcounts : 0 ≤ total ≤ MaxInt64 ∧ 0 ≤ active ≤ MaxInt64) :
  md_arrays ((go "md" ++ digits ++ go " : " ++ state ++ go " " ++ level ++ go " " ++ strings_Join (map print_component components) (go " ")) ::
             ((" "%char :: pre) ++ go "[" ++ udec total ++ go "/" ++ udec active ++ go "] [" ++ flags ++ go "]" ++ post) :: rest) =
  MkMDArray (go "md" ++ digits) (go "md" ++ digits) level (if active <? total then go "degraded" else go "active")
    (sort_Strings (map co_drive components)) [] [] :: md_arrays rest.
Proof.
  destruct Hdigits, Hstate, Hlevel, Hflags, Hcounts. cbn [md_arrays head]. rewrite mdLine_print; try done.
  - destruct (udec_spec total) as (Ht & Htd & _); [lia|]. destruct (udec_spec active) as (Ha & Had & _); [lia|].
    f_equal. f_equal.
    + unfold md_state. change (Some ?x ≫= md_status) with (md_status x). rewrite md_status_print by done.
      rewrite <-(Itoa_digits total), <-(Itoa_digits active) by lia. by rewrite !int_of_Itoa by i64_lia.
    + f_equal. apply md_drives_print; [done|lia].
  - destruct components as [|c components]; [done|]. apply Forall_cons in Hcomp as [(Hd & Hw & _) _].
    assert (∃ r, strings_Join (map print_component (c :: components)) (go " ") = co_drive c ++ r) as [r ->].
    { unfold print_component. destruct components; simpl; rewrite <-?app_assoc; by eexists. }
    by apply word_head.
Qed.

(** Arrays that are not running normally are left out: a read-only one, whose
    state is followed by a note in parentheses, and an inactive one, which has no
    level. *)
Theorem mdstat_hides_arrays (digits state drive rest : gostring)
  (Hdigits : digits ≠ [] ∧ Forall (λ c, is_digit c = true) digits)
  (Hstate : state ≠ [] ∧ Forall (λ c, is_word c = true) state)
  (Hdrive : drive ≠ [] ∧ Forall (λ c, is_word c = true) drive) (lines : list gostring) :
  md_arrays ((go "md" ++ digits ++ go " : " ++ state ++ go " (" ++ rest) :: lines) = md_arrays lines ∧
  md_arrays ((go "md" ++ digits ++ go " : " ++ state ++ go " " ++ drive ++ go "[" ++ rest) :: lines) = md_arrays lines.
Proof.
  destruct Hdigits, Hstate, Hdrive. split; cbn [md_arrays].
  - assert (mdLine (go "md" ++ digits ++ go " : " ++ state ++ " "%char :: ("("%char :: rest)) = None) as Hnone; [|change (go " (" ++ rest) with (" "%char :: "("%char :: rest); by rewrite Hnone].
    by rewrite mdLine_front.
  - assert (mdLine (go "md" ++ digits ++ go " : " ++ state ++ " "%char :: (drive ++ "["%char :: rest)) = None) as Hnone;
      [|change (go " " ++ drive ++ go "[" ++ rest) with (" "%char :: drive ++ "["%char :: rest); by rewrite Hnone].
    rewrite mdLine_front by (done || by apply word_head). by rewrite (span1_app is_word drive).
Qed.

(** Virtual layers are joined with mounts by device number: a target carries the
    mount point of the last line of mountinfo with its number, and none if there
    is no such line. *)
Theorem device_mapper_mounts `{FileSystem} `{GoSort} (lines : list (list gostring)) (err : option goerr)
  (Hscan : scan_file [go "/proc"; go "self/mountinfo"] = inl (lines, err)) :
  let dms := bt_DeviceMapper GetBlockTopology in
  StronglySorted (λ a b, name_less dv_KernelName a b = true) dms ∧
  (∀ n, n ∈ map dv_KernelName dms ↔ n ∈ dir_names [blockDir] ∧ go "dm-" `prefix_of` n) ∧
  ∀ d, d ∈ dms →
    match last (filter (λ m, bm_MajorMinor m = readMajorMinor (dv_KernelName d)) (omap block_mount lines)) with
    | Some m => dv_MountPoint d = bm_MountPoint m ∧ dv_Filesystem d = bm_Filesystem m
    | None => dv_MountPoint d = [] ∧ dv_Filesystem d = []
    end.
Proof.
  cbn zeta. unfold GetBlockTopology, discoverDeviceMapper. cbn [bt_DeviceMapper].
  assert (∀ n, dv_KernelName (device_mapper parseMountInfo n) = n) as Hname by (intros n; unfold device_mapper; by destruct (_ !! _)).
  destruct (sorted_listing dv_KernelName (device_mapper parseMountInfo) (λ n, strings_HasPrefix n (go "dm-")) [blockDir] Hname)
    as [Hs Hin]. split_and!; [exact Hs| |].
  - intros n. rewrite list_elem_of_fmap. setoid_rewrite Hin. rewrite <-strings_HasPrefix_spec. split.
    + intros (d & -> & m & Hm & Hpre & ->). by rewrite Hname.
    + intros [Hn Hpre]. exists (device_mapper parseMountInfo n). split; [by rewrite Hname|by exists n].
  - intros d (n & _ & _ & ->)%Hin. rewrite Hname. unfold device_mapper. rewrite (parseMountInfo_lookup lines err) by done.
    by destruct (last _).
Qed.

(** ** Witnesses *)

Definition dev (name : string) : dir_entry := MkDirEntry (go name) false true.

(** Two disks of one driver, the tenth and the first, with a partition each; a
    volume on the second. *)
Definition two_disks : FileSystem :=
  mem_fs
    [([blockDir; go "nvme0n1p1"; go "partition"], go "1"); ([blockDir; go "nvme0n10p1"; go "partition"], go "1");
     ([blockDir; go "nvme0n10p1"; go "size"], go "2097152"); ([blockDir; go "dm-0"; go "dev"], go "253:0");
     ([go "/proc"; go "self/mountinfo"], print_lines [mount_fields (MkMountLine (go "29") (go "1") (go "253:0") (go "/") (go "/data")
        (go "rw") [] (go "xfs") (go "/dev/mapper/data") (go "rw"))])]
    [([blockDir], [dev "dm-0"; dev "nvme0n1"; dev "nvme0n10"; dev "nvme0n10p1"; dev "nvme0n1p1"]);
     ([blockDir; go "nvme0n1"; go "device"], []); ([blockDir; go "nvme0n10"; go "device"], [])] [].

Definition disk (n : nat) : PhysicalDevice :=
  nth n (@discoverPhysicalDevices two_disks insertion_GoSort) (MkPhysicalDevice [] [] [] (f64_of_Z 0) [] []).

Lemma partition_listed_twice_witness :
  pd_DeviceName (disk 0) = go "nvme0n1" ∧ map pt_Name (pd_Partitions (disk 0)) = [go "nvme0n10p1"; go "nvme0n1p1"] ∧
  pd_Partitions (disk 1) ⊆ pd_Partitions (disk 0).
Proof.
  split; [by vm_compute|]. split; [by vm_compute|].
  apply (@partition_listed_twice two_disks insertion_GoSort).
  - vm_compute. left.
  - vm_compute. right. left.
  - vm_compute. discriminate.
  - exists (go "0"). by vm_compute.
Defined.

Lemma mdstat_roundtrip_witness :
  md_arrays [go "md0 : active raid1 sdb1[1] sda1[0](F)"; go "      1047552 blocks super 1.2 [2/1] [U_]"] =
  [MkMDArray (go "md0") (go "md0") (go "raid1") (go "degraded") [go "sda1"; go "sdb1"] [] []].
Proof.
  apply (mdstat_roundtrip (go "0") (go "active") (go "raid1")
    [MkComponent (go "sdb1") (go "1") []; MkComponent (go "sda1") (go "0") (go "(F)")] (go "     1047552 blocks super 1.2 ") (go "U_") [] 2 1 []).
  - split; [done|by repeat constructor].
  - split; [done|by repeat constructor].
  - split; [done|by repeat constructor].
  - constructor; [|constructor; [|constructor]]; (split; [done|]; split; [by repeat constructor|]; split; [done|]; split; [by repeat constructor|]);
      [by left|right; by exists "F"%char].
  - by_decide.
  - split; [done|]. by_decide.
  - i64_lia.
Defined.

Lemma mdstat_hides_arrays_witness :
  md_arrays [go "md0 : active (auto-read-only) raid1 sdb1[1] sda1[0]"] = [] ∧
  md_arrays [go "md1 : inactive sdb2[1](S)"] = [].
Proof.
  split.
  - apply (mdstat_hides_arrays (go "0") (go "active") (go "sdb1") (go "auto-read-only) raid1 sdb1[1] sda1[0]")); (split; [done|by repeat constructor]).
  - apply (mdstat_hides_arrays (go "1") (go "inactive") (go "sdb2") (go "1](S)")); (split; [done|by repeat constructor]).
Defined.

Lemma device_mapper_mounts_witness :
  ∃ d, bt_DeviceMapper (@GetBlockTopology two_disks insertion_GoSort) = [d] ∧ dv_MountPoint d = go "/data" ∧ dv_Filesystem d = go "xfs".
Proof.
  eexists. split; [vm_compute; reflexivity|].
  set (d := MkDeviceMapper _ _ _ _ _).
  destruct (@device_mapper_mounts two_disks insertion_GoSort
    [mount_fields (MkMountLine (go "29") (go "1") (go "253:0") (go "/") (go "/data") (go "rw") [] (go "xfs") (go "/dev/mapper/data") (go "rw"))]
    None) as (_ & _ & Hd); [by vm_compute|].
  apply (Hd d). vm_compute. left.
Defined.
