(* ===== verification/Memory.v ===== *)
(** * Memory: sys/memory, sys/hardware/edac.go and the tools on top of them

    Free pages by order (/proc/buddyinfo), huge pages and their distribution over
    NUMA nodes (with registry/tools/hugepageinfo), and the error counters of memory
    controllers (with registry/tools/numaedacerrors). *)

From Stdlib Require Import Ascii.
From stdpp Require Import base numbers gmap strings sorting list.
From S2P Require Import Prelude GoStrings GoFloat GoNet GoOs.

Open Scope Z_scope.

(** ** buddyinfo.go *)

Record ZoneInfo := MkZoneInfo {
  zi_Node : Z;
  zi_Zone : gostring;
  zi_FragmentationScore : Z;
  zi_TotalFreeMB : Z;
  zi_Orders : list Z
}.

Record BuddyInfoResult := MkBuddyInfoResult {
  bi_FragmentationScore : Z;
  bi_TotalFreeMB : Z;
  bi_Zones : list ZoneInfo
}.

(** [int64(count) * (1 << order) * 4096] *)
Definition bytes_in_order (order : nat) (count : Z) : Z := i64 (i64 (count * i64 (2 ^ Z.of_nat order)) * 4096).

(** The loop over the orders: bytes in the orders up to three, and in all. *)
Fixpoint order_bytes (order : nat) (small total : Z) (counts : list Z) : Z * Z :=
  match counts with
  | [] => (small, total)
  | count :: counts =>
      let b := bytes_in_order order count in
      order_bytes (S order) (if (order <=? 3)%nat then i64 (small + b) else small) (i64 (total + b)) counts
  end.

Definition score (small total : Z) : Z := if 0 <? total then Z.quot (i64 (small * 100)) total else 0.

(** One line: the zone, and its two sums. *)
Definition parse_zone (line : gostring) : option (ZoneInfo * Z * Z) :=
  let line := strings_TrimSpace line in
  let parts := strings_Fields line in
  if bool_decide (line = []) || (length parts <? 4)%nat then None
  else
    match strconv_Atoi (strings_TrimSuffix (nth 1 parts []) (go ",")) with
    | Ret nodeID =>
        let orderCounts := map int_of (drop 4 parts) in
        let '(small, total) := order_bytes 0 0 0 orderCounts in
        Some (MkZoneInfo nodeID (nth 3 parts []) (score small total) (Z.quot total (1024 * 1024)) orderCounts, small, total)
    | _ => None
    end.

(** [cancelled i]: the context is cancelled when line [i] has been read. *)
Definition ParseBuddyInfo (cancelled : nat → bool) (data : gostring) : outcome BuddyInfoResult :=
  let '(lines, long) := scan_lines (raw_lines data) in
  if existsb cancelled (seq 0 (length lines)) then Err (Errorf "context canceled")
  else if (long : bool) then Err ErrTooLong
  else
    let zones := omap parse_zone lines in
    let globalBytes0to3 := foldl (λ n z, i64 (n + z.1.2)) 0 zones in
    let globalBytesTotal := foldl (λ n z, i64 (n + z.2)) 0 zones in
    Ret (MkBuddyInfoResult (score globalBytes0to3 globalBytesTotal) (Z.quot globalBytesTotal (1024 * 1024)) (map (λ z, z.1.1) zones)).

(** ** hugepage.go *)

Record StaticHugepages := MkStaticHugepages {
  sh_PageSizeKB : Z; sh_TotalPages : Z; sh_FreePages : Z; sh_ReservedPages : Z; sh_TotalSizeMB : float64; sh_UsagePct : float64
}.

Record THPStats := MkTHPStats {
  th_FaultAllocations : Z; th_FaultFallbacks : Z; th_CollapseAllocations : Z; th_IsStallingRisk : bool
}.

Record HugePageInfo := MkHugePageInfo {
  hp_THPEnabledMode : gostring;
  hp_THPDefragPolicy : gostring;
  hp_StaticHugepages : StaticHugepages;
  hp_THPStats : option THPStats
}.

(** The four counters of /proc/meminfo: total, free, reserved, page size. *)
Definition meminfo_line (acc : Z * Z * Z * Z) (fields : list gostring) : Z * Z * Z * Z :=
  let '(total, free, rsvd, size) := acc in
  match fields with
  | key :: value :: _ =>
      let val := uint_of value in
      if bool_decide (key = go "HugePages_Total:") then (val, free, rsvd, size)
      else if bool_decide (key = go "HugePages_Free:") then (total, val, rsvd, size)
      else if bool_decide (key = go "HugePages_Rsvd:") then (total, free, val, size)
      else if bool_decide (key = go "Hugepagesize:") then (total, free, rsvd, val)
      else acc
  | _ => acc
  end.

Definition vmstat_line (acc : Z * Z * Z) (fields : list gostring) : Z * Z * Z :=
  let '(alloc, fallback, collapse) := acc in
  match fields with
  | key :: value :: _ =>
      let val := uint_of value in
      if bool_decide (key = go "thp_fault_alloc") then (val, fallback, collapse)
      else if bool_decide (key = go "thp_fault_fallback") then (alloc, val, collapse)
      else if bool_decide (key = go "thp_collapse_alloc") then (alloc, fallback, val)
      else acc
  | _ => acc
  end.

Definition static_hugepages (c : Z * Z * Z * Z) : StaticHugepages :=
  let '(total, free, rsvd, size) := c in
  MkStaticHugepages size total free rsvd (f64_div (f64_of_Z (u64 (total * size))) (f64_of_Z 1024))
    (if total =? 0 then f64_of_Z 0
     else f64_mul (f64_div (f64_of_Z (u64 (total - free))) (f64_of_Z total)) (f64_of_Z 100)).

Definition thp_mode (content : gostring) : outcome gostring :=
  match strings_IndexByte content "[", strings_IndexByte content "]" with
  | Some start, Some end_ =>
      if decide (start < end_)%nat then Ret (drop (S start) (take end_ content))
      else Err (Errorf "failed to parse mode from %s")
  | _, _ => Err (Errorf "failed to parse mode from %s")
  end.

Definition parseTHPMode `{FileSystem} (path : list gostring) : outcome gostring :=
  match ReadFile path with inr err => Err err | inl data => thp_mode (strings_TrimSpace data) end.

Definition thp_stats (enabledMode defragPolicy : gostring) (c : Z * Z * Z) : THPStats :=
  let '(alloc, fallback, collapse) := c in
  MkTHPStats alloc fallback collapse
    ((bool_decide (enabledMode = go "always") && bool_decide (defragPolicy = go "always")) || (0 <? fallback)).

Definition getHugePageInfoFromPaths `{FileSystem} (meminfoPath thpEnabledPath thpDefragPath vmstatPath : list gostring)
    : outcome HugePageInfo :=
  match scan_file meminfoPath with
  | inr err => Err (Wrapf "failed to open meminfo: %w" err)
  | inl (lines, _) =>
      let static := static_hugepages (foldl meminfo_line (0, 0, 0, 0) lines) in
      match parseTHPMode thpEnabledPath with
      | Ret enabledMode =>
          let defragPolicy := match parseTHPMode thpDefragPath with Ret p => p | _ => go "unknown" end in
          let counters := match scan_file vmstatPath with inl (lines, _) => foldl vmstat_line (0, 0, 0) lines | inr _ => (0, 0, 0) end in
          Ret (MkHugePageInfo enabledMode defragPolicy static (Some (thp_stats enabledMode defragPolicy counters)))
      | _ => Ret (MkHugePageInfo (go "unsupported") (go "unsupported") static None)
      end
  end.

Definition GetHugePageInfo `{FileSystem} : outcome HugePageInfo :=
  getHugePageInfoFromPaths [go "/proc/meminfo"] [go "/sys/kernel/mm/transparent_hugepage/enabled"]
    [go "/sys/kernel/mm/transparent_hugepage/defrag"] [go "/proc/vmstat"].

(** ** hugepageinfo.go: the pools of the nodes *)

Record NodeHugePages := MkNodeHugePages { nh_Node : Z; nh_SizeKB : Z; nh_Total : Z; nh_Free : Z; nh_Surplus : Z }.

Definition nodePath : gostring := go "/sys/devices/system/node".

(** The digits of a name between a prefix and a suffix. *)
Definition digits_between (prefix suffix name : gostring) : option gostring :=
  if strings_HasPrefix name prefix && strings_HasSuffix name suffix && (length prefix + length suffix <? length name)%nat then
    let digits := take (length name - length prefix - length suffix) (drop (length prefix) name) in
    if forallb is_digit digits then Some digits else None
  else None.

Definition readHugeCount `{FileSystem} (path : list gostring) : Z :=
  match ReadFile path with
  | inr _ => 0
  | inl data => match ParseUint (strings_TrimSpace data) with (v, None) => v | _ => 0 end
  end.

(** One pool of one node. *)
Definition node_pool `{FileSystem} (nodeID : Z) (node : gostring) (se : dir_entry) : option NodeHugePages :=
  if de_IsDir se then
    digits ← digits_between (go "hugepages-") (go "kB") (de_Name se);
    match ParseUint digits with
    | (sizeKB, None) =>
        let count file := readHugeCount [nodePath; node; go "hugepages"; de_Name se; file] in
        Some (MkNodeHugePages nodeID sizeKB (count (go "nr_hugepages")) (count (go "free_hugepages")) (count (go "surplus_hugepages")))
    | _ => None
    end
  else None.

Definition node_pools `{FileSystem} (e : dir_entry) : list NodeHugePages :=
  if de_IsDir e then
    match digits_between (go "node") [] (de_Name e) with
    | None => []
    | Some digits =>
        match strconv_Atoi digits with
        | Ret nodeID =>
            match ReadDir [nodePath; de_Name e; go "hugepages"] with
            | inl sizeEntries => omap (node_pool nodeID (de_Name e)) sizeEntries
            | inr _ => []
            end
        | _ => []
        end
    end
  else [].

Definition pool_less (a b : NodeHugePages) : bool :=
  if nh_Node a =? nh_Node b then nh_SizeKB a <? nh_SizeKB b else nh_Node a <? nh_Node b.

Definition collectPerNodeHugePages `{FileSystem} `{GoSort} : list NodeHugePages :=
  match ReadDir [nodePath] with
  | inr _ => []
  | inl entries => sort_slice pool_less (entries ≫= node_pools)
  end.

(** The node with the most free pages, the first of them; [None] if no node has
    any. *)
Definition find_donor (nodes : list NodeHugePages) : option NodeHugePages :=
  foldl (λ donor n,
    if (0 <? nh_Free n) && match donor with None => true | Some d => nh_Free d <? nh_Free n end then Some n else donor) None nodes.

Definition exhausted (n : NodeHugePages) : bool := (0 <? nh_Total n) && (nh_Free n =? 0).

Definition imbalance_warning (n donor : NodeHugePages) : gostring :=
  go "HugePages exhausted on node " ++ strconv_Itoa (nh_Node n) ++ go " while node " ++ strconv_Itoa (nh_Node donor) ++
  go " has " ++ strconv_Itoa (nh_Free donor) ++ go " free — NUMA-pinned allocations may fail".

Definition by_size (perNode : list NodeHugePages) : gmap Z (list NodeHugePages) :=
  foldl (λ m n, <[nh_SizeKB n := default [] (m !! nh_SizeKB n) ++ [n]]> m) ∅ perNode.

Definition size_warnings (nodes : list NodeHugePages) : list gostring :=
  match find_donor nodes with
  | None => []
  | Some donor => map (λ n, imbalance_warning n donor) (filter exhausted nodes)
  end.

(** The sizes are the keys of a map: distinct, so the order they are ranged over
    does not survive the sort. *)
Definition evaluateNodeImbalance `{GoSort} (perNode : list NodeHugePages) : list gostring :=
  let bySize := by_size perNode in
  sort_slice Z.ltb (map fst (map_to_list bySize)) ≫= λ size, size_warnings (default [] (bySize !! size)).

(** ** edac.go *)

Record FailingDIMM := MkFailingDIMM {
  fd_Label : gostring; fd_DevType : gostring; fd_CECount : Z; fd_UECount : Z; fd_Location : gostring
}.

Record EDACController := MkEDACController {
  ec_ControllerID : Z; ec_CECount : Z; ec_UECount : Z; ec_FailingDIMMs : list FailingDIMM
}.

Record EDACErrorsInfo := MkEDACErrorsInfo {
  ed_SubsystemActive : bool;
  ed_TotalCorrectableErrors : Z;
  ed_TotalUncorrectableErrors : Z;
  ed_HealthStatus : gostring;
  ed_UptimeSeconds : float64;
  ed_Controllers : list EDACController
}.

Definition edacRoot : gostring := go "/sys/devices/system/edac/mc".

Definition readUint64Safe `{FileSystem} (path : list gostring) : Z :=
  match ReadFile path with inr _ => 0 | inl data => uint_of (strings_TrimSpace data) end.

(** [bytes.Trim(data, "\x00")] *)
Fixpoint drop_nuls (s : gostring) : gostring :=
  match s with c :: r => if decide (c = "000"%char) then drop_nuls r else s | [] => [] end.

Definition trim_nuls (s : gostring) : gostring := reverse (drop_nuls (reverse (drop_nuls s))).

Definition readStringSafe `{FileSystem} (path : list gostring) : gostring :=
  match ReadFile path with inr _ => [] | inl data => strings_TrimSpace (trim_nuls data) end.

(** A counter, under its second name if it is zero under the first. *)
Definition dimm_count `{FileSystem} (mc name first second : gostring) : Z :=
  let n := readUint64Safe [edacRoot; mc; name; first] in
  if n =? 0 then readUint64Safe [edacRoot; mc; name; second] else n.

Definition failing_dimm `{FileSystem} (mc : gostring) (entry : dir_entry) : option FailingDIMM :=
  let name := de_Name entry in
  if negb (de_IsDir entry) || negb (existsb (strings_HasPrefix name) [go "dimm"; go "rank"; go "csrow"]) then None
  else
    let ce := dimm_count mc name (go "dimm_ce_count") (go "ce_count") in
    let ue := dimm_count mc name (go "dimm_ue_count") (go "ue_count") in
    if (0 <? ce) || (0 <? ue) then
      Some (MkFailingDIMM (readStringSafe [edacRoot; mc; name; go "dimm_label"]) (readStringSafe [edacRoot; mc; name; go "dimm_dev_type"])
              ce ue (mc ++ go "/" ++ name))
    else None.

Definition parseFailingDIMMs `{FileSystem} (mc : gostring) : list FailingDIMM :=
  match ReadDir [edacRoot; mc] with inr _ => [] | inl entries => omap (failing_dimm mc) entries end.

Definition controller_of `{FileSystem} (entry : dir_entry) : option EDACController :=
  let mc := de_Name entry in
  if negb (de_IsDir entry) || negb (strings_HasPrefix mc (go "mc")) then None
  else
    match strconv_Atoi (drop 2 mc) with
    | Ret mcID =>
        let ceCount := readUint64Safe [edacRoot; mc; go "ce_count"] in
        let ueCount := readUint64Safe [edacRoot; mc; go "ue_count"] in
        Some (MkEDACController mcID ceCount ueCount (if (0 <? ceCount) || (0 <? ueCount) then parseFailingDIMMs mc else []))
    | _ => None
    end.

Definition health_of (correctable uncorrectable : Z) : gostring :=
  if 0 <? uncorrectable then go "critical" else if 0 <? correctable then go "warning" else go "healthy".

Definition getEDACErrorsInfoFromPath `{FileSystem} (uptime : float64) : EDACErrorsInfo :=
  let inactive := MkEDACErrorsInfo false 0 0 (go "degraded") uptime [] in
  if match Stat [edacRoot] with inr err => IsNotExist err | inl _ => false end then inactive
  else
    match ReadDir [edacRoot] with
    | inr _ => inactive
    | inl entries =>
        let controllers := omap controller_of entries in
        let ce := foldl (λ n c, u64 (n + ec_CECount c)) 0 controllers in
        let ue := foldl (λ n c, u64 (n + ec_UECount c)) 0 controllers in
        MkEDACErrorsInfo true ce ue (health_of ce ue) uptime controllers
    end.

(** [ParseFloat] gives the value also with an error. *)
Definition GetEDACErrorsInfo `{FileSystem} (ParseFloat : gostring → float64) : EDACErrorsInfo :=
  let uptime := match ReadFile [go "/proc/uptime"] with
                | inl data => match strings_Fields data with f :: _ => ParseFloat f | [] => f64_of_Z 0 end
                | inr _ => f64_of_Z 0
                end in
  getEDACErrorsInfoFromPath uptime.

(** ** Lemmas: free pages *)

(** Bytes in an order, without wrap-around; in the small orders, and in all. *)
Definition order_size (order : nat) (count : Z) : Z := count * 2 ^ Z.of_nat order * 4096.

Fixpoint zone_total (order : nat) (counts : list Z) : Z :=
  match counts with [] => 0 | count :: counts => order_size order count + zone_total (S order) counts end.

Fixpoint zone_small (order : nat) (counts : list Z) : Z :=
  match counts with
  | [] => 0
  | count :: counts => (if (order <=? 3)%nat then order_size order count else 0) + zone_small (S order) counts
  end.

Lemma order_size_nonneg order count : 0 ≤ count → 0 ≤ order_size order count.
Proof. intros Hc. unfold order_size. pose proof (Z.pow_nonneg 2 (Z.of_nat order)). nia. Qed.

Lemma zone_bounds order counts : Forall (λ c, 0 ≤ c) counts → 0 ≤ zone_small order counts ≤ zone_total order counts.
Proof.
  intros Hc. revert order. induction Hc as [|c counts Hc _ IH]; intros order; simpl; [lia|].
  specialize (IH (S order)). pose proof (order_size_nonneg order c Hc). destruct (order <=? 3)%nat; lia.
Qed.

Lemma bytes_in_order_exact order count : 0 ≤ count → order_size order count ≤ MaxInt64 → bytes_in_order order count = order_size order count.
Proof.
  intros Hc Hm. unfold bytes_in_order, order_size in *.
  destruct (decide (count = 0)) as [->|Hne]; [by rewrite !Z.mul_0_l|].
  pose proof (Z.pow_pos_nonneg 2 (Z.of_nat order) ltac:(lia) ltac:(lia)) as Hp.
  rewrite (i64_id (2 ^ Z.of_nat order)) by (unfold in_i64, MinInt64; unfold MaxInt64 in *; nia).
  rewrite (i64_id (count * 2 ^ Z.of_nat order)) by (unfold in_i64, MinInt64; unfold MaxInt64 in *; nia).
  apply i64_id. unfold in_i64, MinInt64. unfold MaxInt64 in *. nia.
Qed.

Lemma order_bytes_exact order small total counts :
  Forall (λ c, 0 ≤ c) counts → 0 ≤ small ≤ total → total + zone_total order counts ≤ MaxInt64 →
  order_bytes order small total counts = (small + zone_small order counts, total + zone_total order counts).
Proof.
  intros Hc. revert order small total. induction Hc as [|c counts Hc Hcs IH]; intros order small total Hst Hm; simpl in *.
  { by rewrite !Z.add_0_r. }
  pose proof (order_size_nonneg order c Hc). pose proof (zone_bounds (S order) counts Hcs).
  rewrite bytes_in_order_exact by lia. rewrite !i64_id by i64_lia.
  rewrite IH by (destruct (order <=? 3)%nat; lia). f_equal; destruct (order <=? 3)%nat; lia.
Qed.

Lemma score_range small total : 0 ≤ small ≤ total → total * 100 ≤ MaxInt64 →
  0 ≤ score small total ≤ 100 ∧ (0 < total → score small total = small * 100 / total).
Proof.
  intros Hs Hm. unfold score. destruct (Z.ltb_spec 0 total); [|lia].
  rewrite i64_id by i64_lia. rewrite Z.quot_div_nonneg by lia.
  split; [|done]. split; [apply Z.div_pos; lia|]. apply Z.div_le_upper_bound; lia.
Qed.

Lemma parse_zone_sums line z small total :
  parse_zone line = Some (z, small, total) →
  order_bytes 0 0 0 (zi_Orders z) = (small, total) ∧ zi_FragmentationScore z = score small total ∧
  zi_TotalFreeMB z = Z.quot total (1024 * 1024).
Proof.
  unfold parse_zone. case_match; [done|]. destruct (strconv_Atoi _); try done.
  destruct (order_bytes 0 0 0 _) as [s t] eqn:E. intros [= <- <- <-]. done.
Qed.

(** The sum over the zones. *)
Definition zones_total (zones : list ZoneInfo) : Z := foldr (λ z n, zone_total 0 (zi_Orders z) + n) 0 zones.
Definition zones_small (zones : list ZoneInfo) : Z := foldr (λ z n, zone_small 0 (zi_Orders z) + n) 0 zones.

Definition good_zones (zones : list ZoneInfo) : Prop := Forall (λ z, Forall (λ c, 0 ≤ c) (zi_Orders z)) zones.

Lemma zones_bounds zones : good_zones zones → 0 ≤ zones_small zones ≤ zones_total zones.
Proof.
  induction 1 as [|z zones Hz _ IH]; simpl; [lia|]. pose proof (zone_bounds 0 _ Hz). lia.
Qed.

Lemma zone_in zones z :
  good_zones zones → z ∈ zones →
  Forall (λ c, 0 ≤ c) (zi_Orders z) ∧ 0 ≤ zone_small 0 (zi_Orders z) ≤ zone_total 0 (zi_Orders z) ∧
  zone_total 0 (zi_Orders z) ≤ zones_total zones.
Proof.
  induction 1 as [|z' zones Hz Hzs IH]; intros Hin; [by apply elem_of_nil in Hin|]. simpl.
  pose proof (zone_bounds 0 _ Hz). pose proof (zones_bounds zones Hzs).
  apply elem_of_cons in Hin as [->|Hin]; [split; [done|lia]|]. destruct (IH Hin) as (? & ? & ?). split; [done|lia].
Qed.

Lemma foldr_map {A B C} (f : B → C → C) (h : A → B) c l : foldr f c (map h l) = foldr (λ x, f (h x)) c l.
Proof. induction l; simpl; congruence. Qed.

(** A sum that stays in range does not wrap around. *)
Lemma sum_i64 {A} (f g : A → Z) l n :
  (∀ x, x ∈ l → f x = g x ∧ 0 ≤ g x) → 0 ≤ n → n + foldr (λ x m, g x + m) 0 l ≤ MaxInt64 →
  foldl (λ n x, i64 (n + f x)) n l = n + foldr (λ x m, g x + m) 0 l.
Proof.
  revert n. induction l as [|x l IH]; intros n Hf Hn Hm; simpl in *; [lia|].
  destruct (Hf x) as [E Hg]; [left|].
  assert (0 ≤ foldr (λ x m, g x + m) 0 l) as Hpos.
  { assert (∀ y, y ∈ l → 0 ≤ g y) as Hl by (intros y Hy; apply Hf; by right).
    clear -Hl. induction l as [|y l IH]; simpl; [lia|]. pose proof (Hl y ltac:(left)).
    assert (0 ≤ foldr (λ x m, g x + m) 0 l) by (apply IH; intros z Hz; apply Hl; by right). lia. }
  rewrite E, i64_id by i64_lia. rewrite IH; [lia|intros y Hy; apply Hf; by right|lia|lia].
Qed.

Lemma sum_i64_0 {A} (f g : A → Z) l :
  (∀ x, x ∈ l → f x = g x ∧ 0 ≤ g x) → foldr (λ x m, g x + m) 0 l ≤ MaxInt64 →
  foldl (λ n x, i64 (n + f x)) 0 l = foldr (λ x m, g x + m) 0 l.
Proof. intros Hf Hm. by rewrite (sum_i64 f g). Qed.

(** ** Lemmas: the nodes' pools *)

Lemma by_size_lookup perNode size :
  default [] (by_size perNode !! size) = filter (λ n, nh_SizeKB n = size) perNode ∧
  (is_Some (by_size perNode !! size) ↔ size ∈ map nh_SizeKB perNode).
Proof.
  unfold by_size. induction perNode as [|n perNode [IH1 IH2]] using rev_ind.
  { split; [done|]. split; [by intros [? ?]|by intros ?%elem_of_nil]. }
  rewrite foldl_snoc, filter_app, filter_cons, filter_nil, map_app. destruct (decide (nh_SizeKB n = size)) as [<-|Hne].
  - rewrite lookup_insert_eq. simpl. rewrite IH1. split; [done|]. split; [|by eexists]. intros _. apply elem_of_app. right. left.
  - rewrite lookup_insert_ne by done. rewrite app_nil_r. split; [done|]. rewrite IH2. set_solver.
Qed.

(** The donor is the first of the nodes with the most free pages. *)
Lemma find_donor_spec nodes :
  match find_donor nodes with
  | Some d => ∃ l1 l2, nodes = l1 ++ d :: l2 ∧ 0 < nh_Free d ∧ (∀ n, n ∈ l1 → nh_Free n < nh_Free d) ∧ (∀ n, n ∈ l2 → nh_Free n ≤ nh_Free d)
  | None => ∀ n, n ∈ nodes → nh_Free n ≤ 0
  end.
Proof.
  unfold find_donor. induction nodes as [|n nodes IH] using rev_ind; [by intros n ?%elem_of_nil|].
  rewrite foldl_snoc. destruct (foldl _ None nodes) as [d|].
  - destruct IH as (l1 & l2 & -> & Hpos & H1 & H2).
    destruct (Z.ltb_spec 0 (nh_Free n)), (Z.ltb_spec (nh_Free d) (nh_Free n)); simpl.
    2-4: exists l1, (l2 ++ [n]); split_and!; [by rewrite <-app_assoc|done|done|]; intros m [Hm| ->%list_elem_of_singleton]%elem_of_app; [by apply H2|lia].
    exists (l1 ++ d :: l2), []. split_and!; [done|done| |by intros m ?%elem_of_nil].
    intros m [Hm|[-> |Hm]%elem_of_cons]%elem_of_app; [specialize (H1 m Hm)| |specialize (H2 m Hm)]; lia.
  - destruct (Z.ltb_spec 0 (nh_Free n)); simpl.
    + exists nodes, []. split_and!; [done|done| |by intros m ?%elem_of_nil]. intros m Hm. specialize (IH m Hm). lia.
    + intros m [Hm| ->%list_elem_of_singleton]%elem_of_app; [by apply IH|lia].
Qed.

(** ** Lemmas: memory controllers *)

Lemma sum_u64 {A} (f : A → Z) l n : foldl (λ n c, u64 (n + f c)) (u64 n) l = u64 (n + foldr (λ c m, f c + m) 0 l).
Proof.
  revert n. induction l as [|x l IH]; intros n; simpl; [by rewrite Z.add_0_r|].
  assert (u64 (u64 n + f x) = u64 (n + f x)) as -> by (unfold u64; by rewrite Zplus_mod_idemp_l).
  rewrite IH. f_equal. lia.
Qed.

(** ** Lemmas: huge pages *)

(** The value of the last line of a name. *)
Definition counter (key : gostring) (lines : list (list gostring)) : Z :=
  default 0 (last (omap (λ f, match f with k :: v :: _ => if decide (k = key) then Some (uint_of v) else None | _ => None end) lines)).

Lemma counter_snoc key lines f :
  counter key (lines ++ [f]) =
  match f with k :: v :: _ => if decide (k = key) then uint_of v else counter key lines | _ => counter key lines end.
Proof.
  unfold counter. rewrite omap_app. simpl. destruct f as [|k [|v f]]; simpl; rewrite ?app_nil_r; try done.
  destruct (decide (k = key)); simpl; [by rewrite last_snoc|by rewrite app_nil_r].
Qed.

Lemma meminfo_counters lines :
  foldl meminfo_line (0, 0, 0, 0) lines =
  (counter (go "HugePages_Total:") lines, counter (go "HugePages_Free:") lines, counter (go "HugePages_Rsvd:") lines,
   counter (go "Hugepagesize:") lines).
Proof.
  induction lines as [|f lines IH] using rev_ind; [done|]. rewrite foldl_snoc, IH, !counter_snoc. unfold meminfo_line.
  destruct f as [|k [|v f]]; try done. repeat case_bool_decide; subst; simpl; by repeat case_decide.
Qed.

Lemma vmstat_counters lines :
  foldl vmstat_line (0, 0, 0) lines =
  (counter (go "thp_fault_alloc") lines, counter (go "thp_fault_fallback") lines, counter (go "thp_collapse_alloc") lines).
Proof.
  induction lines as [|f lines IH] using rev_ind; [done|]. rewrite foldl_snoc, IH, !counter_snoc. unfold vmstat_line.
  destruct f as [|k [|v f]]; try done. repeat case_bool_decide; subst; simpl; by repeat case_decide.
Qed.

Lemma thp_mode_brackets pre mode post :
  "["%char ∉ pre → "]"%char ∉ pre ++ mode → thp_mode (pre ++ "["%char :: mode ++ "]"%char :: post) = Ret mode.
Proof.
  intros Hpre Hmode. unfold thp_mode. rewrite IndexByte_app by done.
  assert (pre ++ "["%char :: mode ++ "]"%char :: post = (pre ++ "["%char :: mode) ++ "]"%char :: post) as -> by (by rewrite <-app_assoc).
  rewrite IndexByte_app by (rewrite elem_of_app, elem_of_cons; rewrite elem_of_app in Hmode; naive_solver).
  rewrite decide_True by (rewrite length_app; simpl; lia). rewrite take_app_length. f_equal.
  rewrite (cons_middle "["%char pre mode), app_assoc, drop_app_length'; [done|]. rewrite length_app. simpl. lia.
Qed.

(** ** Properties *)

(** Fragmentation. Where counts are counts and all memory is below 2^63/100 bytes,
    nothing wraps around: free memory is the sum over the orders in MiB, rounded down,
    and a score is the percentage, rounded down, of it that is in blocks of at most eight
    pages, for each zone and for the machine. *)
Theorem buddy_scores (data : gostring) (r : BuddyInfoResult)
  (Hr : ParseBuddyInfo (λ _, false) data = Ret r) (Hgood : good_zones (bi_Zones r))
  (Hmax : zones_total (bi_Zones r) * 100 ≤ MaxInt64) :
  (∀ z, z ∈ bi_Zones r → 0 ≤ zi_FragmentationScore z ≤ 100 ∧
     zi_TotalFreeMB z = zone_total 0 (zi_Orders z) / (1024 * 1024) ∧
     (0 < zone_total 0 (zi_Orders z) → zi_FragmentationScore z = zone_small 0 (zi_Orders z) * 100 / zone_total 0 (zi_Orders z))) ∧
  0 ≤ bi_FragmentationScore r ≤ 100 ∧ bi_TotalFreeMB r = zones_total (bi_Zones r) / (1024 * 1024) ∧
  (0 < zones_total (bi_Zones r) → bi_FragmentationScore r = zones_small (bi_Zones r) * 100 / zones_total (bi_Zones r)).
Proof.
  unfold ParseBuddyInfo in Hr. destruct (scan_lines (raw_lines data)) as [lines long].
  destruct (existsb (λ _, false) _); [done|]. destruct long; [done|]. injection Hr as <-. simpl in *.
  set (zones := omap parse_zone lines) in *.
  assert (∀ z, z ∈ zones → order_bytes 0 0 0 (zi_Orders z.1.1) = (z.1.2, z.2) ∧ zi_FragmentationScore z.1.1 = score z.1.2 z.2 ∧
    zi_TotalFreeMB z.1.1 = Z.quot z.2 (1024 * 1024)) as Hz.
  { intros [[z small] total] (line & _ & Hl)%list_elem_of_omap. by eapply parse_zone_sums. }
  assert (∀ z, z ∈ zones → z.1.1 ∈ map (λ z, z.1.1) zones) as Hmap by (intros z Hin; apply list_elem_of_fmap; by exists z).
  assert (∀ z, z ∈ zones → z.1.2 = zone_small 0 (zi_Orders z.1.1) ∧ z.2 = zone_total 0 (zi_Orders z.1.1)) as Hsum.
  { intros z Hin. destruct (Hz z Hin) as [E _]. destruct (zone_in _ _ Hgood (Hmap z Hin)) as (Hc & Hb & Ht).
    rewrite order_bytes_exact in E by (done || lia || i64_lia). injection E. lia. }
  pose proof (zones_bounds _ Hgood) as Hb. split.
  - intros z' (z & -> & Hin)%list_elem_of_fmap. destruct (Hz z Hin) as (_ & -> & ->). destruct (Hsum z Hin) as [-> ->].
    destruct (zone_in _ _ Hgood (Hmap z Hin)) as (Hc & Hzb & Ht).
    destruct (score_range (zone_small 0 (zi_Orders z.1.1)) (zone_total 0 (zi_Orders z.1.1))); [lia|lia|].
    split_and!; [lia|lia|by apply Z.quot_div_nonneg; lia|done].
  - assert (foldl (λ n z, i64 (n + z.1.2)) 0 zones = zones_small (map (λ z, z.1.1) zones) ∧
            foldl (λ n z, i64 (n + z.2)) 0 zones = zones_total (map (λ z, z.1.1) zones)) as [-> ->].
    { unfold zones_small, zones_total in *. rewrite !foldr_map in *.
      split; (apply sum_i64_0; [|lia]); intros z Hin;
        (split; [apply Hsum, Hin|]); destruct (zone_in _ _ Hgood (Hmap z Hin)); lia. }
    destruct (score_range (zones_small (map (λ z, z.1.1) zones)) (zones_total (map (λ z, z.1.1) zones))); [lia|lia|].
    split_and!; [lia|lia|by apply Z.quot_div_nonneg; lia|done].
Qed.

(** Huge pages: each counter is the value of the last line of its name, zero if there
    is none; without transparent huge pages the rest is left out; with them, a
    risk of stalls is reported exactly if both modes are "always" or an
    allocation has fallen back. *)
Theorem hugepages_reported `{FileSystem} (meminfo enabled defrag vmstat : list gostring) (lines vlines : list (list gostring))
  (e1 e2 : option goerr) (mode : gostring)
  (Hmem : scan_file meminfo = inl (lines, e1)) (Hvm : scan_file vmstat = inl (vlines, e2)) (Hmode : parseTHPMode enabled = Ret mode) :
  ∃ info stats, getHugePageInfoFromPaths meminfo enabled defrag vmstat = Ret info ∧ hp_THPStats info = Some stats ∧
    hp_THPEnabledMode info = mode ∧
    (let s := hp_StaticHugepages info in
     sh_TotalPages s = counter (go "HugePages_Total:") lines ∧ sh_FreePages s = counter (go "HugePages_Free:") lines ∧
     sh_ReservedPages s = counter (go "HugePages_Rsvd:") lines ∧ sh_PageSizeKB s = counter (go "Hugepagesize:") lines ∧
     (sh_TotalPages s = 0 → sh_UsagePct s = f64_of_Z 0) ∧
     (0 ≤ sh_FreePages s ≤ sh_TotalPages s → 0 < sh_TotalPages s < 2 ^ 64 →
        sh_UsagePct s = f64_mul (f64_ratio (sh_TotalPages s - sh_FreePages s) (sh_TotalPages s)) (f64_of_Z 100))) ∧
    th_FaultFallbacks stats = counter (go "thp_fault_fallback") vlines ∧
    (th_IsStallingRisk stats = true ↔
       mode = go "always" ∧ parseTHPMode defrag = Ret (go "always") ∨ 0 < th_FaultFallbacks stats).
Proof.
  unfold getHugePageInfoFromPaths. rewrite Hmem, Hvm, Hmode, meminfo_counters, vmstat_counters.
  eexists _, _. split; [reflexivity|]. split; [reflexivity|]. split; [done|]. split_and!; cbn -[go counter]; try done.
  - intros ->. done.
  - intros Hf Ht. rewrite (proj2 (Z.eqb_neq _ _)) by lia. by rewrite u64_id by lia.
  - rewrite orb_true_iff, andb_true_iff, !bool_decide_eq_true, Z.ltb_lt.
    assert (match parseTHPMode defrag with Ret p => p | _ => go "unknown" end = go "always" ↔ parseTHPMode defrag = Ret (go "always")) as ->; [|done].
    destruct (parseTHPMode defrag); split; naive_solver.
Qed.

(** The imbalance of nodes: a warning for each node that has allocated huge pages
    and none free while another node has free ones of the same size; it names a node
    with the most free pages. *)
Theorem imbalance_warnings `{GoSort} (perNode : list NodeHugePages) (w : gostring) (Hfree : Forall (λ n, 0 ≤ nh_Free n) perNode) :
  w ∈ evaluateNodeImbalance perNode ↔
  ∃ n donor, n ∈ perNode ∧ 0 < nh_Total n ∧ nh_Free n = 0 ∧ w = imbalance_warning n donor ∧
    find_donor (filter (λ m, nh_SizeKB m = nh_SizeKB n) perNode) = Some donor ∧
    donor ∈ perNode ∧ nh_SizeKB donor = nh_SizeKB n ∧ 0 < nh_Free donor ∧
    ∀ m, m ∈ perNode → nh_SizeKB m = nh_SizeKB n → nh_Free m ≤ nh_Free donor.
Proof.
  unfold evaluateNodeImbalance. rewrite list_elem_of_bind. setoid_rewrite sort_slice_perm.
  assert (∀ size, default [] (by_size perNode !! size) = filter (λ n, nh_SizeKB n = size) perNode) as Hsize by (intros; apply by_size_lookup).
  split.
  - intros (size & Hw & _). rewrite Hsize in Hw. unfold size_warnings in Hw.
    pose proof (find_donor_spec (filter (λ n, nh_SizeKB n = size) perNode)) as Hd.
    destruct (find_donor _) as [donor|] eqn:Hdonor; [|by apply elem_of_nil in Hw].
    apply list_elem_of_fmap in Hw as (n & -> & [Hex [<- Hn]%list_elem_of_filter]%list_elem_of_filter).
    apply Is_true_true in Hex. unfold exhausted in Hex. destruct Hd as (l1 & l2 & E & Hpos & H1 & H2).
    assert (∀ m, m ∈ perNode → nh_SizeKB m = nh_SizeKB n → m ∈ l1 ++ donor :: l2) as Hin
      by (intros m Hm Hs; rewrite <-E; by apply list_elem_of_filter).
    assert (donor ∈ filter (λ m, nh_SizeKB m = nh_SizeKB n) perNode) as [Hds Hdin]%list_elem_of_filter by (rewrite E; apply elem_of_app; right; left).
    exists n, donor. split_and!; [done|lia|lia|done|done|done|done|done|].
    intros m Hm Hs. specialize (Hin m Hm Hs). apply elem_of_app in Hin as [Hin|[-> |Hin]%elem_of_cons]; [specialize (H1 m Hin); lia|lia|by apply H2].
  - intros (n & donor & Hn & Ht & Hf & -> & Hd & _). exists (nh_SizeKB n). split.
    + rewrite Hsize. unfold size_warnings. rewrite Hd. apply list_elem_of_fmap. exists n. split; [done|].
      apply list_elem_of_filter. split; [|by apply list_elem_of_filter]. apply Is_true_true. unfold exhausted. lia.
    + assert (is_Some (by_size perNode !! nh_SizeKB n)) as [v Hv] by (apply by_size_lookup, list_elem_of_fmap; by exists n).
      apply list_elem_of_fmap. exists (nh_SizeKB n, v). split; [done|]. by apply elem_of_map_to_list.
Qed.

(** Memory errors: one controller per directory mc<n>, in order; the totals are the
    sums of their counters as 64-bit words, and decide the health; a module is listed
    exactly if its controller and it have errors. *)
Theorem edac_report `{FileSystem} (uptime : float64) (entries : list dir_entry)
  (Hstat : Stat [edacRoot] ≠ inr ErrNotExist) (Hread : ReadDir [edacRoot] = inl entries) :
  let info := getEDACErrorsInfoFromPath uptime in
  ed_SubsystemActive info = true ∧ ed_Controllers info = omap controller_of entries ∧
  ed_TotalCorrectableErrors info = u64 (foldr (λ c m, ec_CECount c + m) 0 (ed_Controllers info)) ∧
  ed_TotalUncorrectableErrors info = u64 (foldr (λ c m, ec_UECount c + m) 0 (ed_Controllers info)) ∧
  (ed_HealthStatus info = go "critical" ↔ 0 < ed_TotalUncorrectableErrors info) ∧
  (ed_HealthStatus info = go "healthy" ↔ ed_TotalUncorrectableErrors info = 0 ∧ ed_TotalCorrectableErrors info = 0) ∧
  ∀ c d, c ∈ ed_Controllers info → d ∈ ec_FailingDIMMs c →
    (0 < ec_CECount c ∨ 0 < ec_UECount c) ∧ (0 < fd_CECount d ∨ 0 < fd_UECount d).
Proof.
  cbn zeta. unfold getEDACErrorsInfoFromPath.
  assert (match Stat [edacRoot] with inr err => IsNotExist err | inl _ => false end = false) as ->.
  { destruct (Stat [edacRoot]); [done|]. unfold IsNotExist. apply bool_decide_eq_false. congruence. }
  rewrite Hread. cbn -[go health_of].
  set (ce := foldl _ 0 _). set (ue := foldl (λ n c, u64 (n + ec_UECount c)) 0 _).
  assert (ce = u64 (foldr (λ c m, ec_CECount c + m) 0 (omap controller_of entries)) ∧
          ue = u64 (foldr (λ c m, ec_UECount c + m) 0 (omap controller_of entries))) as [Hce Hue]
    by (split; [apply (sum_u64 ec_CECount _ 0)|apply (sum_u64 ec_UECount _ 0)]).
  assert (0 ≤ ce ∧ 0 ≤ ue) as [Hc0 Hu0] by (rewrite Hce, Hue; split; apply u64_range).
  split_and!; [done|done|done|done| | |].
  - unfold health_of. destruct (Z.ltb_spec 0 ue); [split; [done|done]|]. destruct (Z.ltb_spec 0 ce); (split; [done|lia]).
  - unfold health_of. destruct (Z.ltb_spec 0 ue); [split; [done|lia]|]. destruct (Z.ltb_spec 0 ce); (split; [|]); try done; lia.
  - intros c d (e & _ & He)%list_elem_of_omap Hd. unfold controller_of in He.
    case_match; [done|]. destruct (strconv_Atoi _) as [mcID| | |]; try done.
    injection He as <-. cbn [ec_CECount ec_UECount ec_FailingDIMMs] in *.
    destruct ((0 <? readUint64Safe _) || (0 <? readUint64Safe _)) eqn:Herr; [|by apply elem_of_nil in Hd].
    rewrite orb_true_iff, !Z.ltb_lt in Herr. split; [exact Herr|].
    unfold parseFailingDIMMs in Hd. destruct (ReadDir [edacRoot; de_Name e]); [|by apply elem_of_nil in Hd].
    apply list_elem_of_omap in Hd as (x & _ & Hx). unfold failing_dimm in Hx. case_match; [done|].
    destruct ((0 <? dimm_count _ _ _ _) || _) eqn:Hce'; [|done]. injection Hx as <-. simpl.
    by rewrite orb_true_iff, !Z.ltb_lt in Hce'.
Qed.

(** ** Witnesses *)

Definition buddy_text : gostring := go "Node 0, zone      DMA      1      0      0      0      1" ++ [newline].

Lemma buddy_scores_witness :
  ∃ r, ParseBuddyInfo (λ _, false) buddy_text = Ret r ∧ good_zones (bi_Zones r) ∧ bi_FragmentationScore r = 1 * 100 / 17 ∧ bi_TotalFreeMB r = 0.
Proof.
  eexists. split; [vm_compute; reflexivity|]. set (r := MkBuddyInfoResult _ _ _).
  assert (good_zones (bi_Zones r)) as Hg by (repeat constructor; done). split; [done|].
  destruct (buddy_scores buddy_text r) as (_ & _ & Hmb & Hs); [by vm_compute|done|by vm_compute|].
  split; [rewrite Hs; by vm_compute|rewrite Hmb; by vm_compute].
Defined.

Definition huge_fs : FileSystem :=
  mem_fs [([go "/proc/meminfo"], print_lines [[go "HugePages_Total:"; go "8"]; [go "HugePages_Free:"; go "2"]]);
          ([go "/proc/vmstat"], print_lines [[go "thp_fault_fallback"; go "3"]]);
          ([go "/sys/kernel/mm/transparent_hugepage/enabled"], go "always [madvise] never")] [] [].

Lemma hugepages_reported_witness :
  ∃ info stats, @GetHugePageInfo huge_fs = Ret info ∧ hp_THPStats info = Some stats ∧ th_IsStallingRisk stats = true ∧
    sh_UsagePct (hp_StaticHugepages info) = f64_of_Z 75.
Proof.
  destruct (@hugepages_reported huge_fs [go "/proc/meminfo"] [go "/sys/kernel/mm/transparent_hugepage/enabled"]
    [go "/sys/kernel/mm/transparent_hugepage/defrag"] [go "/proc/vmstat"]
    [[go "HugePages_Total:"; go "8"]; [go "HugePages_Free:"; go "2"]] [[go "thp_fault_fallback"; go "3"]] None None (go "madvise"))
    as (info & stats & Hi & Hs & _ & (Ht & Hf & _ & _ & _ & Hp) & Hfb & Hr); [by vm_compute|by vm_compute|by vm_compute|].
  exists info, stats. split_and!; [exact Hi|done| |].
  - apply Hr. right. rewrite Hfb. by vm_compute.
  - rewrite Hp; rewrite ?Ht, ?Hf; [by vm_compute|by vm_compute|by vm_compute].
Defined.

Lemma imbalance_warnings_witness :
  let pools := [MkNodeHugePages 0 2048 16 0 0; MkNodeHugePages 1 2048 16 5 0] in
  Forall (λ n, 0 ≤ nh_Free n) pools ∧
  imbalance_warning (MkNodeHugePages 0 2048 16 0 0) (MkNodeHugePages 1 2048 16 5 0) ∈ @evaluateNodeImbalance insertion_GoSort pools.
Proof.
  cbn zeta. assert (Forall (λ n, 0 ≤ nh_Free n) [MkNodeHugePages 0 2048 16 0 0; MkNodeHugePages 1 2048 16 5 0]) as Hf by (repeat constructor; simpl; lia).
  split; [exact Hf|]. apply (@imbalance_warnings insertion_GoSort _ _ Hf).
  eexists _, _. split_and!; [left|done|done|reflexivity|by vm_compute|right; left|done|done|].
  intros m [-> |[-> |[]%elem_of_nil]%elem_of_cons]%elem_of_cons _; simpl; lia.
Defined.

Definition edac_fs : FileSystem :=
  mem_fs [([edacRoot; go "mc0"; go "ce_count"], go "4"); ([edacRoot; go "mc0"; go "dimm0"; go "dimm_ce_count"], go "4");
          ([edacRoot; go "mc0"; go "dimm0"; go "dimm_label"], go "CPU_0_DIMM_A1")]
    [([edacRoot], [MkDirEntry (go "mc0") true false]); ([edacRoot; go "mc0"], [MkDirEntry (go "dimm0") true false])] [].

Lemma edac_report_witness :
  let info := @getEDACErrorsInfoFromPath edac_fs (f64_of_Z 0) in
  ed_TotalCorrectableErrors info = 4 ∧ ed_HealthStatus info ≠ go "healthy" ∧ ed_HealthStatus info ≠ go "critical" ∧
  map (λ c, map fd_Label (ec_FailingDIMMs c)) (ed_Controllers info) = [[go "CPU_0_DIMM_A1"]].
Proof.
  cbn zeta. destruct (@edac_report edac_fs (f64_of_Z 0) [MkDirEntry (go "mc0") true false]) as (_ & Hc & Hce & Hue & Hcrit & Hh & _);
    [by vm_compute|by vm_compute|].
  split_and!.
  - rewrite Hce, Hc. by vm_compute.
  - rewrite Hh, Hce, Hc. vm_compute. by intros [_ ?].
  - rewrite Hcrit, Hue, Hc. by vm_compute.
  - rewrite Hc. by vm_compute.
Defined.
