(* ===== verification/Lifecycle.v ===== *)
(** * Lifecycle operations: registry/tools/lifecycle

    Installing, upgrading and removing a node as lists of structured operations
    (ops.go), the tools that schedule them (lifecycle.go), the unit file
    (service.go), and the lock that finds a running instance (abstractlock.go).

    A machine is its files, the commands run on it and the processes alive. Every
    system call may fail: which ones do, and what a failed write or removal leaves
    behind, is a parameter, so theorems hold for every pattern of failures.
    Directories are not modelled apart from the files in them. *)

From Stdlib Require Import Ascii.
From stdpp Require Import base numbers gmap strings sorting list.
From S2P Require Import Prelude GoStrings.

Open Scope Z_scope.

(** ** service.go *)

Definition defaultInstallPath : gostring := go "/opt/cortex-mcp/bin/cortex-mcp".
Definition ServiceName : gostring := go "cortex-mcp".
Definition serviceUnitDir : gostring := go "/etc/systemd/system".

Definition InstallRemotePath (custom : gostring) : gostring := match custom with [] => defaultInstallPath | _ => custom end.

Definition serviceUnitPath : gostring := serviceUnitDir ++ go "/" ++ ServiceName ++ go ".service".

Definition generateServiceUnit (binaryPath : gostring) : gostring := go "[Unit]
Description=Cortex Mesh Node
After=network-online.target
Wants=network-online.target

[Service]
Type=simple
ExecStart=" ++ binaryPath ++ go " daemon
Restart=on-failure
RestartSec=5
LimitNOFILE=65535

[Install]
WantedBy=multi-user.target
".

(** ** ops.go: the plans *)

(** An operation, with the fields its action reads. *)
Inductive LifecycleOp :=
| SpawnDetached (args : gostring)
| Systemctl (args : gostring)
| WriteFile (path content : gostring)
| RemoveFile (path : gostring)
| RemoveDir (path : gostring)
| CopyBinary (path : gostring)
| CopyFile (src path : gostring)
| KillAbstractSocket (path : gostring)
| OtherAction (action : gostring).

Definition lock_socket : gostring := go "@cortex-mcp-lock".

Definition SelfInstallOps : list LifecycleOp :=
  [CopyBinary defaultInstallPath; WriteFile serviceUnitPath (generateServiceUnit defaultInstallPath); Systemctl (go "daemon-reload");
   Systemctl (go "enable " ++ ServiceName); Systemctl (go "--no-block restart " ++ ServiceName)].

(** [os.Executable()] may fail. *)
Definition SelfUninstallOps (executable : option gostring) : list LifecycleOp :=
  let execPath := default (go "/opt/cortex-mcp/bin/cortex-mcp") executable in
  [SpawnDetached (go "systemd-run --unit=cortex-mcp-cleanup " ++ execPath ++ go " local-op uninstall")].

(** [os.UserHomeDir()] may fail. *)
Definition DetachedUninstallOps (home : option gostring) : list LifecycleOp :=
  [Systemctl (go "stop " ++ ServiceName); Systemctl (go "disable " ++ ServiceName); RemoveFile serviceUnitPath;
   Systemctl (go "daemon-reload"); KillAbstractSocket lock_socket; RemoveDir (go "/opt/cortex-mcp")] ++
  match home with Some home => [RemoveDir (home ++ go "/.cortex-mcp")] | None => [] end.

Definition nodeUpgradeOps (srcPath : gostring) : list LifecycleOp :=
  [CopyFile srcPath defaultInstallPath; Systemctl (go "daemon-reload"); Systemctl (go "--no-block restart " ++ ServiceName)].

(** Splitting at single spaces. The loop is over runes; on text that is valid
    UTF-8 it is the loop over bytes. *)
Fixpoint space_loop (current s : gostring) : list gostring :=
  match s with
  | [] => match current with [] => [] | _ => [current] end
  | c :: s => if decide (c = " "%char) then current :: space_loop [] s else space_loop (current ++ [c]) s
  end.

Definition splitSimple (s : gostring) : list gostring := space_loop [] s.

Definition splitArgs (s : gostring) : list gostring := filter (λ part, part ≠ []) (splitSimple s).

(** ** The machine *)

Record LockPayload := MkLockPayload { lp_PID : Z; lp_Path : gostring }.

(** A file: content and permission bits. *)
Definition file : Type := gostring * Z.

Record machine := MkMachine {
  m_files : gmap gostring file;
  m_commands : list (list gostring);
  m_alive : gset Z;
  m_clock : nat  (** system calls so far *)
}.

(** What the program cannot know: which system calls fail; how much a failed write
    leaves, if it opened the file; what a failed removal of a tree has removed; the
    path of the running binary; what one read of the lock's socket gives, and
    what its JSON says. *)
Record world := MkWorld {
  w_fails : nat → bool;
  w_partial : nat → option nat;
  w_removed : nat → gset gostring;
  w_executable : option gostring;
  w_socket : outcome gostring;
  w_json : gostring → option LockPayload
}.

Section machine.
Context (w : world).

Definition M (A : Type) : Type := machine → machine * outcome A.

Definition ret {A} (a : A) : M A := λ m, (m, Ret a).
Definition throw {A} (e : goerr) : M A := λ m, (m, Err e).
Definition bind {A B} (x : M A) (k : A → M B) : M B := λ m,
  match x m with
  | (m, Ret a) => k a m
  | (m, Err e) => (m, Err e)
  | (m, Panic) => (m, Panic)
  | (m, Diverge) => (m, Diverge)
  end.
Definition wrap {A} (format : string) (x : M A) : M A := λ m, let '(m, r) := x m in (m, wrap_err format r).
(** The error is looked at and dropped. *)
Definition try_ {A} (x : M A) : M (outcome A) := λ m,
  let '(m, r) := x m in
  match r with Ret _ | Err _ => (m, Ret r) | Panic => (m, Panic) | Diverge => (m, Diverge) end.

(** One system call: its effect if it succeeds, and if it fails. *)
Definition syscall {A} (name : string) (ok failed : nat → machine → machine) (result : machine → outcome A) : M A := λ m,
  let tick m := MkMachine (m_files m) (m_commands m) (m_alive m) (S (m_clock m)) in
  if w_fails w (m_clock m) then (tick (failed (m_clock m) m), Err (Errorf name))
  else (tick (ok (m_clock m) m), result m).

Definition set_files (f : gmap gostring file → gmap gostring file) (m : machine) : machine :=
  MkMachine (f (m_files m)) (m_commands m) (m_alive m) (m_clock m).

Definition no_effect (_ : nat) (m : machine) : machine := m.

Definition os_MkdirAll (path : gostring) : M unit := syscall "mkdir" no_effect no_effect (λ _, Ret tt).

(** [os.WriteFile] truncates the file before it writes; an existing file keeps its
    permissions. *)
Definition written (old : option file) (data : gostring) (mode : Z) : file := (data, match old with Some (_, m) => m | None => mode end).

Definition os_WriteFile (path data : gostring) (mode : Z) : M unit :=
  syscall "write" (λ _, set_files (λ fs, <[path := written (fs !! path) data mode]> fs))
    (λ t, match w_partial w t with
          | Some n => set_files (λ fs, <[path := written (fs !! path) (take n data) mode]> fs)
          | None => id
          end) (λ _, Ret tt).

Definition os_ReadFile (path : gostring) : M gostring :=
  syscall "read" no_effect no_effect
    (λ m, match m_files m !! path with Some f => Ret f.1 | None => Err (Errorf "no such file or directory") end).

Definition os_Remove (path : gostring) : M unit :=
  syscall "remove" (λ _, set_files (delete path)) no_effect
    (λ m, match m_files m !! path with Some _ => Ret tt | None => Err (Errorf "no such file or directory") end).

(** A path is the directory or below it. *)
Definition below (dir path : gostring) : bool := bool_decide (path = dir) || strings_HasPrefix path (dir ++ go "/").

Definition os_RemoveAll (dir : gostring) : M unit :=
  syscall "removeall" (λ _, set_files (filter (λ kv, below dir kv.1 = false)))
    (λ t, set_files (filter (λ kv, ¬ (below dir kv.1 = true ∧ kv.1 ∈ w_removed w t)))) (λ _, Ret tt).

Definition os_Rename (src dst : gostring) : M unit :=
  syscall "rename"
    (λ _, set_files (λ fs, match fs !! src with Some f => <[dst := f]> (delete src fs) | None => fs end)) no_effect
    (λ m, match m_files m !! src with Some _ => Ret tt | None => Err (Errorf "no such file or directory") end).

(** Starting a command; waiting for it gives an error if it fails. *)
Definition run_command (argv : list gostring) : M unit :=
  let started (_ : nat) m := MkMachine (m_files m) (m_commands m ++ [argv]) (m_alive m) (m_clock m) in
  syscall "exec" started started (λ _, Ret tt).

Definition os_Executable : M gostring := λ m,
  match w_executable w with Some p => (m, Ret p) | None => (m, Err (Errorf "os.Executable")) end.

Definition kill (pid : Z) : M unit :=
  syscall "kill" (λ _ m, MkMachine (m_files m) (m_commands m) (m_alive m ∖ {[pid]}) (m_clock m)) no_effect
    (λ m, if decide (pid ∈ m_alive m) then Ret tt else Err (Errorf "os: process already finished")).

(** ** abstractlock.go *)

Definition readPayloadFromSocket : outcome LockPayload :=
  buf ← w_socket w;
  let data := take 1024 buf in
  match w_json w data with
  | Some payload => Ret payload
  | None => match strconv_Atoi data with Ret pid => Ret (MkLockPayload pid []) | _ => Err (Errorf "invalid payload: %w") end
  end.

Definition KillLockedProcess : M unit :=
  match readPayloadFromSocket with
  | Ret payload =>
      bind (wrap "kill process %d: %w" (kill (lp_PID payload))) (λ _,
      if bool_decide (lp_Path payload ≠ []) && strings_HasPrefix (lp_Path payload) (go "/tmp/")
      then bind (try_ (os_Remove (lp_Path payload))) (λ _, ret tt)
      else ret tt)
  | Err e => throw (Wrapf "read payload from socket: %w" e)
  | Panic => λ m, (m, Panic)
  | Diverge => λ m, (m, Diverge)
  end.

(** ** ops.go: execution *)

(** Replacing a binary: written next to it, then renamed over it. *)
Definition replace_file (data path : gostring) (write_msg rename_msg : string) : M unit :=
  let tmpPath := path ++ go ".tmp" in
  bind (wrap "mkdir path: %w" (os_MkdirAll path)) (λ _,
  bind (wrap write_msg (os_WriteFile tmpPath data 493)) (λ _,
  bind (try_ (os_Rename tmpPath path)) (λ r,
  match r with
  | Err e => bind (try_ (os_Remove tmpPath)) (λ _, throw (Wrapf rename_msg e))
  | _ => ret tt
  end))).

Definition ExecuteOp (op : LifecycleOp) : M unit :=
  match op with
  | SpawnDetached args =>
      match splitArgs args with
      | [] => λ m, (m, Panic)
      | argv => wrap "spawn_detached: %w" (run_command argv)
      end
  | Systemctl args => run_command (go "systemctl" :: splitArgs args)
  | WriteFile path content => bind (wrap "mkdir path: %w" (os_MkdirAll path)) (λ _, os_WriteFile path content 420)
  | RemoveFile path => os_Remove path
  | RemoveDir path => os_RemoveAll path
  | CopyBinary path =>
      bind (wrap "resolve executable: %w" os_Executable) (λ src,
      bind (wrap "read binary: %w" (os_ReadFile src)) (λ data,
      replace_file data path "write tmp binary: %w" "rename tmp binary: %w"))
  | CopyFile src path =>
      bind (wrap "read source: %w" (os_ReadFile src)) (λ data,
      replace_file data path "write tmp file: %w" "rename tmp file: %w")
  | KillAbstractSocket _ => bind (try_ KillLockedProcess) (λ _, ret tt)
  | OtherAction _ => throw (Errorf "unknown lifecycle action: %s")
  end.

Fixpoint ExecuteOps (ops : list LifecycleOp) : M unit :=
  match ops with
  | [] => ret tt
  | op :: ops => bind (wrap "%s %s: %w" (ExecuteOp op)) (λ _, ExecuteOps ops)
  end.

(** ** lifecycle.go: the tools *)

(** What a tool answers, and what runs in the background after it. *)
Record scheduled := MkScheduled {
  sc_operations : list LifecycleOp;
  sc_status : gostring;
  sc_background : option (list LifecycleOp * bool)  (** and whether the process exits then *)
}.

Definition schedule (live : bool) (ops : list LifecycleOp) (exits : bool) : scheduled :=
  MkScheduled ops (if live then go "scheduled" else go "dry_run") (if live then Some (ops, exits) else None).

Definition Install_Execute (live : bool) : outcome scheduled :=
  match w_executable w with
  | None => Err (Errorf "resolve executable: %v")
  | Some _ => Ret (schedule live SelfInstallOps false)
  end.

Definition Uninstall_Execute (live : bool) : outcome scheduled :=
  match w_executable w with
  | None => Err (Errorf "resolve executable: %v")
  | Some binaryPath =>
      let ops :=
        if strings_HasPrefix binaryPath defaultInstallPath || strings_HasPrefix binaryPath (go "/opt/")
        then SelfUninstallOps (Some binaryPath) else [KillAbstractSocket lock_socket] in
      Ret (schedule live ops (negb (strings_HasPrefix binaryPath (go "/opt/"))))
  end.

Definition Restart_Execute (live : bool) : scheduled := schedule live [Systemctl (go "restart " ++ ServiceName)] false.
Definition Stop_Execute (live : bool) : scheduled := schedule live [Systemctl (go "stop " ++ ServiceName)] false.

(** The path of the arguments, empty if there is none. *)
Definition Upgrade_Execute (live : bool) (path : outcome gostring) : outcome scheduled :=
  match path with
  | Ret [] => Err (Errorf "path is required: provide the path to the new binary")
  | Ret path => Ret (schedule live (nodeUpgradeOps path) false)
  | _ => Err (Errorf "parse args: %v")
  end.

End machine.

(** ** Lemmas: arguments *)

Lemma space_loop_solid current s : " "%char ∉ s → space_loop current s = match current ++ s with [] => [] | r => [r] end.
Proof.
  revert current. induction s as [|c s IH]; intros current Hs; simpl; [by rewrite app_nil_r; destruct current|].
  apply not_elem_of_cons in Hs as [Hc Hs]. rewrite decide_False by done. rewrite IH by done. by rewrite <-app_assoc.
Qed.

Lemma space_loop_app current s rest : " "%char ∉ s → space_loop current (s ++ " "%char :: rest) = (current ++ s) :: space_loop [] rest.
Proof.
  revert current. induction s as [|c s IH]; intros current Hs; simpl; [by rewrite app_nil_r|].
  apply not_elem_of_cons in Hs as [Hc Hs]. rewrite decide_False by done. rewrite IH by done. by rewrite <-app_assoc.
Qed.

(** ** Lemmas: system calls *)

Section lemmas.
Context (w : world).

(** A machine whose files are those of another one, but for some paths. *)
Definition same_but (paths : list gostring) (m m' : machine) : Prop := ∀ p, p ∉ paths → m_files m' !! p = m_files m !! p.

Lemma same_but_refl paths m : same_but paths m m.
Proof. done. Qed.

Lemma same_but_trans paths m m' m'' : same_but paths m m' → same_but paths m' m'' → same_but paths m m''.
Proof. intros H1 H2 p Hp. by rewrite H2, H1. Qed.

Lemma WriteFile_same path data mode m : same_but [path] m (os_WriteFile w path data mode m).1.
Proof.
  intros p Hp. apply not_elem_of_cons in Hp as [Hp _]. unfold os_WriteFile, syscall. destruct (w_fails w _); simpl; [|by rewrite lookup_insert_ne].
  destruct (w_partial w _); simpl; [by rewrite lookup_insert_ne|done].
Qed.

Lemma tmp_ne path : path ++ go ".tmp" ≠ path.
Proof. intros Heq. apply (f_equal length) in Heq. rewrite length_app in Heq. simpl in Heq. lia. Qed.

Lemma replace_file_spec data path msg1 msg2 m m' r :
  replace_file w data path msg1 msg2 m = (m', r) →
  let tmp := path ++ go ".tmp" in
  same_but [path; tmp] m m' ∧ m_commands m' = m_commands m ∧ m_alive m' = m_alive m ∧
  ((r = Ret tt ∧ (∃ mode, m_files m' !! path = Some (data, mode)) ∧ m_files m' !! tmp = None) ∨
   (∃ e, r = Err e ∧ m_files m' !! path = m_files m !! path)).
Proof.
  cbn zeta. pose proof (tmp_ne path) as Hne. set (tmp := path ++ go ".tmp") in *.
  unfold replace_file, bind, wrap, try_, os_MkdirAll, os_WriteFile, os_Rename, os_Remove, syscall, no_effect, set_files. fold tmp.
  destruct (w_fails w (m_clock m)); simpl.
  { intros Hrun; injection Hrun as <- <-. split_and!; [done..|]. right. by eexists. }
  destruct (w_fails w (S (m_clock m))); simpl.
  { intros Hrun; injection Hrun as <- <-. destruct (w_partial w (S (m_clock m))); simpl; (split_and!; [|done|done|right; eexists; split; [done|]]); simpl.
    - intros p Hp. simpl. rewrite lookup_insert_ne by set_solver. done.
    - by rewrite lookup_insert_ne.
    - done.
    - done. }
  rewrite lookup_insert_eq. destruct (w_fails w (S (S (m_clock m)))); simpl.
  - destruct (w_fails w (S (S (S (m_clock m))))); simpl; rewrite ?lookup_insert_eq; simpl; intros Hrun; injection Hrun as <- <-; simpl; (split_and!; [|done|done|right; eexists; split; [done|]]); simpl.
    + intros p Hp. simpl. by rewrite lookup_insert_ne by set_solver.
    + by rewrite lookup_insert_ne.
    + intros p Hp. simpl. rewrite lookup_delete_ne by set_solver. by rewrite lookup_insert_ne by set_solver.
    + by rewrite lookup_delete_ne, lookup_insert_ne.
  - intros Hrun; injection Hrun as <- <-. simpl. split_and!; [|done|done|left; split_and!; [done| |]].
    + intros p Hp. simpl. rewrite lookup_insert_ne by set_solver. rewrite lookup_delete_ne by set_solver. by rewrite lookup_insert_ne by set_solver.
    + eexists. by rewrite lookup_insert_eq.
    + rewrite lookup_insert_ne by done. by rewrite lookup_delete_eq.
Qed.

(** Reading has no effect but for the clock. *)
Lemma ReadFile_files path m m' r : os_ReadFile w path m = (m', r) →
  m_files m' = m_files m ∧ m_commands m' = m_commands m ∧ m_alive m' = m_alive m ∧
  (∀ data, r = Ret data → ∃ mode, m_files m !! path = Some (data, mode)) ∧ (returns r ∨ ∃ e, r = Err e).
Proof.
  unfold os_ReadFile, syscall, no_effect. destruct (w_fails w _); intros Hrun; injection Hrun as <- <-; simpl; (split_and!; [done..| |]).
  - intros data. done.
  - right. by eexists.
  - intros data. destruct (m_files m !! path) as [[d mode]|]; [|done]. intros Hd; injection Hd as ->. by eexists.
  - destruct (m_files m !! path); [left|right]; by eexists.
Qed.

(** A list of operations, as the chain of its operations. *)
Inductive runs : list LifecycleOp → machine → machine → Prop :=
| runs_nil m : runs [] m m
| runs_cons op ops m m1 m2 : ExecuteOp w op m = (m1, Ret tt) → runs ops m1 m2 → runs (op :: ops) m m2.

Lemma ExecuteOps_runs ops m m' : ExecuteOps w ops m = (m', Ret tt) ↔ runs ops m m'.
Proof.
  revert m. induction ops as [|op ops IH]; intros m; simpl.
  - unfold ret. split; [intros Heq; injection Heq as ->; constructor|by inversion 1].
  - unfold bind, wrap. destruct (ExecuteOp w op m) as [m1 r] eqn:Hop. split.
    + destruct r as [[]| | |]; try done. intros H%IH. by econstructor.
    + inversion 1 as [|? ? ? m1' ? Hop' Hr]; subst. rewrite Hop in Hop'. injection Hop' as -> ->. simpl. by apply IH.
Qed.

(** The first operation of a list, and the others if it succeeds. *)
Lemma ExecuteOps_cons op ops m m' r : ExecuteOps w (op :: ops) m = (m', r) →
  ∃ m1 r1, ExecuteOp w op m = (m1, r1) ∧ (r1 = Ret tt ∧ ExecuteOps w ops m1 = (m', r) ∨ m' = m1 ∧ r1 ≠ Ret tt).
Proof.
  simpl. unfold bind, wrap. destruct (ExecuteOp w op m) as [m1 r1]. intros Hrun. exists m1, r1. split; [done|].
  destruct r1 as [[]|e| |]; simpl in Hrun; [by left|injection Hrun as <- _; by right..].
Qed.

(** The paths an operation may change; removing trees and killing are apart. *)
Definition op_paths (op : LifecycleOp) : list gostring :=
  match op with
  | CopyBinary path | CopyFile _ path => [path; path ++ go ".tmp"]
  | WriteFile path _ | RemoveFile path => [path]
  | _ => []
  end.

Definition plain_op (op : LifecycleOp) : bool :=
  match op with RemoveDir _ | KillAbstractSocket _ => false | _ => true end.

Lemma run_command_files argv m m' r : run_command w argv m = (m', r) → m_files m' = m_files m.
Proof. unfold run_command, syscall. destruct (w_fails w _); intros Heq; by injection Heq as <- <-. Qed.

Lemma copy_step (op : LifecycleOp) (src path : gostring) (m m' : machine) (r : outcome unit)
  (Hop : op = CopyFile src path ∨ op = CopyBinary path ∧ w_executable w = Some src) (Hrun : ExecuteOp w op m = (m', r)) :
  same_but [path; path ++ go ".tmp"] m m' ∧
  ((r = Ret tt ∧ ∃ data mode mode', m_files m !! src = Some (data, mode) ∧ m_files m' !! path = Some (data, mode')) ∨
   (∃ e, r = Err e ∧ m_files m' !! path = m_files m !! path)).
Proof.
  assert (∃ msg1 msg2 msg3, bind (wrap msg1 (os_ReadFile w src)) (λ data, replace_file w data path msg2 msg3) m = (m', r)) as (msg1 & msg2 & msg3 & E).
  { destruct Hop as [-> |[-> Hexe]]; unfold ExecuteOp in Hrun; [eexists _, _, _; exact Hrun|].
    unfold bind at 1, wrap at 1, os_Executable in Hrun. rewrite Hexe in Hrun. eexists _, _, _. exact Hrun. }
  clear Hop Hrun. unfold bind, wrap in E. destruct (os_ReadFile w src m) as [m1 r1] eqn:Hread.
  apply ReadFile_files in Hread as (Hf & _ & _ & Hdata & Hr).
  destruct r1 as [data|e| |]; simpl in E; [|injection E as <- <-|by destruct Hr as [[??]|[??]]..].
  - destruct (Hdata data eq_refl) as [mode Hsrc]. apply replace_file_spec in E as (Hsame & _ & _ & Hcases). split.
    + intros p Hp. by rewrite Hsame, Hf.
    + destruct Hcases as [(-> & [mode' Hp] & _)|(e & -> & Hp)]; [left|right].
      * split; [done|]. by exists data, mode, mode'.
      * exists e. split; [done|]. by rewrite Hp, Hf.
  - split; [by intros p _; rewrite Hf|]. right. eexists. split; [done|]. by rewrite Hf.
Qed.

Lemma ExecuteOp_same op m m' r : plain_op op = true → ExecuteOp w op m = (m', r) → same_but (op_paths op) m m'.
Proof.
  destruct op as [args|args|path content|path|path|path|src path|path|action]; intros Hplain Hrun; try done.
  - simpl in Hrun. destruct (splitArgs args); [by injection Hrun as <- <-|]. unfold wrap in Hrun.
    destruct (run_command w _ m) eqn:E. apply run_command_files in E. injection Hrun as <- <-. intros p _. by rewrite E.
  - simpl in Hrun. apply run_command_files in Hrun. intros p _. by rewrite Hrun.
  - simpl in Hrun. unfold bind at 1, wrap at 1, os_MkdirAll, syscall at 1 in Hrun. unfold no_effect in Hrun.
    destruct (w_fails w (m_clock m)); [by injection Hrun as <- <-|]. simpl in Hrun.
    set (m1 := MkMachine _ _ _ _) in Hrun. pose proof (WriteFile_same path content 420 m1) as Hw. rewrite Hrun in Hw. exact Hw.
  - simpl in Hrun. unfold os_Remove, syscall in Hrun. intros p Hp. apply not_elem_of_cons in Hp as [Hp _].
    destruct (w_fails w _); injection Hrun as <- <-; [done|]. simpl. by rewrite lookup_delete_ne.
  - destruct (w_executable w) as [src|] eqn:Hexe; [by eapply copy_step in Hrun as [? _]; [|right]|].
    simpl in Hrun. unfold bind at 1, wrap at 1, os_Executable in Hrun. rewrite Hexe in Hrun. by injection Hrun as <- <-.
  - by eapply copy_step in Hrun as [? _]; [|left].
  - simpl in Hrun. by injection Hrun as <- <-.
Qed.

Lemma ExecuteOps_same p ops m m' r :
  Forall (λ op, plain_op op = true ∧ p ∉ op_paths op) ops → ExecuteOps w ops m = (m', r) → m_files m' !! p = m_files m !! p.
Proof.
  intros Hops. revert m. induction Hops as [|op ops [Hplain Hp] _ IH]; intros m; simpl; [intros Heq; by injection Heq as <- <-|].
  unfold bind, wrap. destruct (ExecuteOp w op m) as [m1 r1] eqn:Hop. apply ExecuteOp_same in Hop; [|done].
  destruct r1 as [[]|e| |]; simpl; [intros Hrun%IH; by rewrite Hrun, Hop|intros Heq; injection Heq as <- _; by apply Hop..].
Qed.

(** ** Lemmas: operations where no system call fails *)

Hypothesis Hok : ∀ n, w_fails w n = false.

Lemma Systemctl_ok args m : ∃ m', ExecuteOp w (Systemctl args) m = (m', Ret tt) ∧ m_files m' = m_files m ∧
  m_commands m' = m_commands m ++ [go "systemctl" :: splitArgs args].
Proof. simpl. unfold run_command, syscall. rewrite Hok. by eexists. Qed.

Lemma WriteFile_ok path content m : ∃ m', ExecuteOp w (WriteFile path content) m = (m', Ret tt) ∧ m_commands m' = m_commands m ∧
  ∃ mode, m_files m' = <[path := (content, mode)]> (m_files m).
Proof.
  simpl. unfold bind, wrap, os_MkdirAll, os_WriteFile, syscall, no_effect, set_files, written. rewrite !Hok. eexists. split; [done|].
  split; [done|]. by eexists.
Qed.

Lemma CopyBinary_ok src data mode path m (Hexe : w_executable w = Some src) (Hsrc : m_files m !! src = Some (data, mode)) :
  ∃ m', ExecuteOp w (CopyBinary path) m = (m', Ret tt) ∧ m_commands m' = m_commands m ∧ ∃ mode', m_files m' !! path = Some (data, mode').
Proof.
  unfold ExecuteOp, bind at 1, wrap at 1, os_Executable. rewrite Hexe. cbn [wrap_err].
  unfold bind at 1, wrap at 1, os_ReadFile, syscall, no_effect. rewrite Hok, Hsrc. cbn [wrap_err fst].
  destruct (replace_file w data path _ _ _) as [m' r] eqn:E. pose proof E as E'. apply replace_file_spec in E as (_ & Hc & _ & [(-> & Hp & _)|(e & -> & _)]).
  { exists m'. by split_and!. }
  revert E'. unfold replace_file, bind, wrap, try_, os_MkdirAll, os_WriteFile, os_Rename, syscall, no_effect, set_files. rewrite !Hok. simpl.
  rewrite ?Hok, ?lookup_insert_eq. simpl. rewrite ?Hok, ?lookup_insert_eq. done.
Qed.

Lemma Remove_ok path m : is_Some (m_files m !! path) → ∃ m', os_Remove w path m = (m', Ret tt) ∧ m_files m' = delete path (m_files m).
Proof. intros [f Hf]. unfold os_Remove, syscall. rewrite Hok, Hf. by eexists. Qed.

Lemma RemoveFile_ok path m : is_Some (m_files m !! path) →
  ∃ m', ExecuteOp w (RemoveFile path) m = (m', Ret tt) ∧ m_files m' = delete path (m_files m).
Proof. apply Remove_ok. Qed.

Lemma RemoveDir_ok dir m : ∃ m', ExecuteOp w (RemoveDir dir) m = (m', Ret tt) ∧
  ∀ p f, m_files m' !! p = Some f ↔ m_files m !! p = Some f ∧ below dir p = false.
Proof.
  simpl. unfold os_RemoveAll, syscall. rewrite Hok. eexists. split; [done|]. intros p f. simpl. by rewrite map_lookup_filter_Some.
Qed.

Lemma Kill_ok socket m (Hsocket : returns (w_socket w) ∨ ∃ e, w_socket w = Err e) :
  ∃ m', ExecuteOp w (KillAbstractSocket socket) m = (m', Ret tt) ∧
    (m_files m' = m_files m ∨
     ∃ payload, readPayloadFromSocket w = Ret payload ∧ strings_HasPrefix (lp_Path payload) (go "/tmp/") = true ∧
       m_files m' = delete (lp_Path payload) (m_files m)).
Proof.
  simpl. unfold KillLockedProcess.
  assert (returns (readPayloadFromSocket w) ∨ ∃ e, readPayloadFromSocket w = Err e) as [[payload ->]|[e ->]].
  { unfold readPayloadFromSocket. destruct Hsocket as [[buf ->]|[e ->]]; simpl; [|right; by eexists].
    destruct (w_json w _); [left; by eexists|]. destruct (strconv_Atoi _); [left; by eexists|right; by eexists..]. }
  2: { eexists. split; [done|by left]. }
  unfold bind, wrap, try_, kill, syscall, ret. rewrite Hok. destruct (decide (lp_PID payload ∈ m_alive m)); simpl; [|eexists; split; [done|by left]].
  destruct (_ && _) eqn:Hcond; simpl; [|eexists; split; [done|by left]].
  apply andb_true_iff in Hcond as [_ Hpre]. unfold os_Remove, syscall. rewrite Hok. simpl.
  destruct (m_files m !! lp_Path payload); eexists; (split; [done|]); right; by exists payload.
Qed.

Lemma home_ok (home : option gostring) m : ∃ m',
  runs match home with Some home => [RemoveDir (home ++ go "/.cortex-mcp")] | None => [] end m m' ∧
  ∀ p f, m_files m' !! p = Some f ↔ m_files m !! p = Some f ∧ ∀ h, home = Some h → below (h ++ go "/.cortex-mcp") p = false.
Proof.
  destruct home as [h|].
  - destruct (RemoveDir_ok (h ++ go "/.cortex-mcp") m) as (m' & H & F). exists m'. split; [econstructor; [exact H|constructor]|].
    intros p f. rewrite F. naive_solver.
  - exists m. split; [constructor|]. naive_solver.
Qed.

End lemmas.

(** ** Properties *)

(** Arguments: words joined by single spaces are split into the words, and also with
    any number of spaces between them. *)
Theorem splitArgs_words (words : list (gostring * nat)) (Hw : Forall (λ p, p.1 ≠ [] ∧ " "%char ∉ p.1) words) :
  splitArgs (words ≫= λ p, replicate p.2 " "%char ++ p.1 ++ [" "%char]) = map fst words.
Proof.
  unfold splitArgs, splitSimple. induction Hw as [|[x n] words [Hne Hx] Hw IH]; [done|]. rewrite bind_cons.
  cbn [map fst snd]. rewrite <-IH, <-!app_assoc. generalize (words ≫= λ p : gostring * nat, replicate p.2 " "%char ++ p.1 ++ [" "%char]). intros rest.
  clear -Hne Hx. simpl in Hne, Hx. induction n as [|n IHn]; simpl.
  - rewrite space_loop_app by done. rewrite filter_cons. by rewrite decide_True.
  - rewrite filter_cons, decide_False by naive_solver. exact IHn.
Qed.

(** A binary is replaced whole. Whatever system calls fail, copying to a path either
    succeeds and leaves exactly the source there, or fails and leaves what was
    there; nothing else changes but the temporary file next to it. *)
Theorem copy_atomic (w : world) (op : LifecycleOp) (src path : gostring) (m m' : machine) (r : outcome unit)
  (Hop : op = CopyFile src path ∨ op = CopyBinary path ∧ w_executable w = Some src) (Hrun : ExecuteOp w op m = (m', r)) :
  same_but [path; path ++ go ".tmp"] m m' ∧
  ((r = Ret tt ∧ ∃ data mode mode', m_files m !! src = Some (data, mode) ∧ m_files m' !! path = Some (data, mode')) ∨
   (∃ e, r = Err e ∧ m_files m' !! path = m_files m !! path)).
Proof. by eapply copy_step. Qed.

(** A list of operations is done in order up to the first that fails: it succeeds
    exactly if each operation does on the machine the ones before it leave, and
    an error is that of one operation, after all before it and none behind it. *)
Theorem ExecuteOps_stops (w : world) (ops : list LifecycleOp) (m m' : machine) :
  (ExecuteOps w ops m = (m', Ret tt) ↔ runs w ops m m') ∧
  (∀ e, ExecuteOps w ops m = (m', Err e) ↔
     ∃ before op after m1 e', ops = before ++ op :: after ∧ runs w before m m1 ∧
       ExecuteOp w op m1 = (m', Err e') ∧ e = Wrapf "%s %s: %w" e').
Proof.
  split; [apply ExecuteOps_runs|]. intros e. split.
  - revert m. induction ops as [|op ops IH]; intros m; simpl; [done|]. unfold bind, wrap.
    destruct (ExecuteOp w op m) as [m1 r] eqn:Hop. destruct r as [[]|e1| |]; simpl; [| |done..].
    + intros (before & op' & after & m2 & e' & -> & Hb & Ho & ->)%IH. exists (op :: before), op', after, m2, e'.
      split_and!; [done|by econstructor|done|done].
    + intros Heq. injection Heq as -> <-. exists [], op, ops, m, e1. split_and!; [done|constructor|done|done].
  - intros (before & op & after & m1 & e' & -> & Hb & Ho & ->). induction Hb as [m|op' ops m m2 m3 Hop Hrs IH]; simpl; unfold bind, wrap.
    + by rewrite Ho.
    + rewrite Hop. simpl. by apply IH.
Qed.

(** C38: Installing never leaves half a binary. Wherever the installation stops, what is at
    the install path is what was there before, or the running binary. *)
Theorem install_never_partial (w : world) (m m' : machine) (r : outcome unit) (Hrun : ExecuteOps w SelfInstallOps m = (m', r)) :
  m_files m' !! defaultInstallPath = m_files m !! defaultInstallPath ∨
  ∃ src data mode mode', w_executable w = Some src ∧ m_files m !! src = Some (data, mode) ∧
    m_files m' !! defaultInstallPath = Some (data, mode').
Proof.
  apply ExecuteOps_cons in Hrun as (m1 & r1 & Hcopy & Hrest).
  assert (m_files m' !! defaultInstallPath = m_files m1 !! defaultInstallPath) as Hsame.
  { destruct Hrest as [[_ Hrest]|[-> _]]; [|done]. eapply (ExecuteOps_same w); [|exact Hrest].
    by_decide. }
  destruct (w_executable w) as [src|] eqn:Hexe.
  - eapply (copy_step w _ src) in Hcopy as (_ & [(_ & data & mode & mode' & ? & ?)|(e & _ & ?)]); [|left; by etrans|by right].
    right. exists src, data, mode, mode'. split_and!; [done|done|]. by etrans; [exact Hsame|].
  - left. rewrite Hsame. simpl in Hcopy. unfold bind at 1, wrap at 1, os_Executable in Hcopy. rewrite Hexe in Hcopy. by injection Hcopy as <- _.
Qed.

(** Without failures, installing gives a running service: the binary at its path, the
    unit file that starts it, and systemd told to reload, enable and start it. *)
Theorem install_complete (w : world) (m : machine) (src data : gostring) (mode : Z)
  (Hok : ∀ n, w_fails w n = false) (Hexe : w_executable w = Some src) (Hsrc : m_files m !! src = Some (data, mode)) :
  ∃ m' mode1 mode2, ExecuteOps w SelfInstallOps m = (m', Ret tt) ∧
    m_files m' !! defaultInstallPath = Some (data, mode1) ∧
    m_files m' !! serviceUnitPath = Some (generateServiceUnit defaultInstallPath, mode2) ∧
    m_commands m' = m_commands m ++ [[go "systemctl"; go "daemon-reload"]; [go "systemctl"; go "enable"; go "cortex-mcp"];
      [go "systemctl"; go "--no-block"; go "restart"; go "cortex-mcp"]].
Proof.
  destruct (CopyBinary_ok w Hok src data mode defaultInstallPath m Hexe Hsrc) as (m1 & H1 & C1 & mode1 & F1).
  destruct (WriteFile_ok w Hok serviceUnitPath (generateServiceUnit defaultInstallPath) m1) as (m2 & H2 & C2 & mode2 & F2).
  destruct (Systemctl_ok w Hok (go "daemon-reload") m2) as (m3 & H3 & F3 & C3).
  destruct (Systemctl_ok w Hok (go "enable " ++ ServiceName) m3) as (m4 & H4 & F4 & C4).
  destruct (Systemctl_ok w Hok (go "--no-block restart " ++ ServiceName) m4) as (m5 & H5 & F5 & C5).
  exists m5, mode1, mode2. split_and!.
  - apply ExecuteOps_runs. unfold SelfInstallOps. repeat (econstructor; [eassumption|]). constructor.
  - rewrite F5, F4, F3, F2. rewrite lookup_insert_ne; [exact F1|by_decide].
  - by rewrite F5, F4, F3, F2, lookup_insert_eq.
  - by rewrite C5, C4, C3, C2, C1, <-!app_assoc.
Qed.

(** Removing stops at its first step where that fails: if systemd does not stop the
    unit (it does not know the unit, say), nothing is removed and no process is
    killed. *)
Theorem uninstall_blocked (w : world) (home : option gostring) (m : machine) (Hstop : w_fails w (m_clock m) = true) :
  ∃ m' e, ExecuteOps w (DetachedUninstallOps home) m = (m', Err e) ∧ m_files m' = m_files m ∧ m_alive m' = m_alive m ∧
    m_commands m' = m_commands m ++ [[go "systemctl"; go "stop"; go "cortex-mcp"]].
Proof.
  unfold DetachedUninstallOps. cbn [ExecuteOps ExecuteOp app]. unfold bind at 1, wrap at 1, run_command, syscall. rewrite Hstop.
  by eexists _, _.
Qed.

(** Without failures, removing an installed node succeeds whatever the lock's socket
    says: the unit file and everything under the two directories of the program are
    gone, and no other file is, but a temporary binary the lock names. *)
Theorem uninstall_complete (w : world) (home : option gostring) (m : machine)
  (Hok : ∀ n, w_fails w n = false) (Hsocket : returns (w_socket w) ∨ ∃ e, w_socket w = Err e) (Hunit : is_Some (m_files m !! serviceUnitPath)) :
  ∃ m', ExecuteOps w (DetachedUninstallOps home) m = (m', Ret tt) ∧
    (∀ p, is_Some (m_files m' !! p) → p ≠ serviceUnitPath ∧ below (go "/opt/cortex-mcp") p = false ∧
       ∀ h, home = Some h → below (h ++ go "/.cortex-mcp") p = false) ∧
    (∀ p, p ≠ serviceUnitPath → below (go "/opt/cortex-mcp") p = false →
       (∀ h, home = Some h → below (h ++ go "/.cortex-mcp") p = false) →
       (∀ payload, readPayloadFromSocket w = Ret payload → lp_Path payload = p → strings_HasPrefix p (go "/tmp/") = false) →
       m_files m' !! p = m_files m !! p).
Proof.
  destruct (Systemctl_ok w Hok (go "stop " ++ ServiceName) m) as (m1 & H1 & F1 & _).
  destruct (Systemctl_ok w Hok (go "disable " ++ ServiceName) m1) as (m2 & H2 & F2 & _).
  destruct (RemoveFile_ok w Hok serviceUnitPath m2) as (m3 & H3 & F3); [by rewrite F2, F1|].
  destruct (Systemctl_ok w Hok (go "daemon-reload") m3) as (m4 & H4 & F4 & _).
  destruct (Kill_ok w Hok lock_socket m4 Hsocket) as (m5 & H5 & F5).
  destruct (RemoveDir_ok w Hok (go "/opt/cortex-mcp") m5) as (m6 & H6 & F6).
  destruct (home_ok w Hok home m6) as (m7 & H7 & F7).
  exists m7. split; [|split].
  - apply ExecuteOps_runs. unfold DetachedUninstallOps. simpl app. repeat (econstructor; [eassumption|]). exact H7.
  - intros p [f Hp]. apply F7 in Hp as [Hp Hhome]. apply F6 in Hp as [Hp Hopt]. split_and!; [|done|done].
    intros ->. destruct F5 as [F5|(payload & _ & _ & F5)]; rewrite F5 in Hp; [|apply lookup_delete_Some in Hp as [_ Hp]];
      rewrite F4, F3, lookup_delete_eq in Hp; done.
  - intros p Hunit' Hopt Hhome Htmp. apply option_eq. intros f. rewrite F7, F6. transitivity (m_files m5 !! p = Some f); [naive_solver|].
    assert (m_files m4 !! p = m_files m !! p) as <- by (by rewrite F4, F3, F2, F1, lookup_delete_ne).
    destruct F5 as [-> |(payload & Hpay & Hpre & ->)]; [done|]. rewrite lookup_delete_ne; [done|]. intros <-. by rewrite (Htmp payload) in Hpre.
Qed.

(** ** Witnesses *)

Definition quiet_world : world :=
  MkWorld (λ _, false) (λ _, None) (λ _, ∅) (Some (go "/tmp/cortex-mcp-new")) (Err (Errorf "connection refused")) (λ _, None).

(** The same, where system call [n] fails, and a failed write leaves three bytes. *)
Definition failing_world (n : nat) : world :=
  MkWorld (Nat.eqb n) (λ _, Some 3%nat) (λ _, ∅) (Some (go "/tmp/cortex-mcp-new")) (Err (Errorf "connection refused")) (λ _, None).

Definition fresh_machine : machine :=
  MkMachine (list_to_map [(go "/tmp/cortex-mcp-new", (go "binary 2", 493)); (defaultInstallPath, (go "binary 1", 493));
    (serviceUnitPath, (go "unit", 420)); (go "/etc/hosts", (go "hosts", 420))]) [] ∅ 0.

Lemma splitArgs_words_witness :
  splitArgs (go "enable   cortex-mcp ") = [go "enable"; go "cortex-mcp"] ∧
  splitArgs ([(go "enable", 0%nat); (go "cortex-mcp", 2%nat)] ≫= λ p, replicate p.2 " "%char ++ p.1 ++ [" "%char]) =
    map fst [(go "enable", 0%nat); (go "cortex-mcp", 2%nat)].
Proof. split; [vm_compute; reflexivity|]. apply splitArgs_words. repeat constructor; by_decide. Defined.

(** The temporary file cannot be written whole: the old binary stays. *)
Lemma copy_atomic_witness :
  let '(m', r) := ExecuteOp (failing_world 2) (CopyFile (go "/tmp/cortex-mcp-new") defaultInstallPath) fresh_machine in
  same_but [defaultInstallPath; defaultInstallPath ++ go ".tmp"] fresh_machine m' ∧
  ((r = Ret tt ∧ ∃ data mode mode', m_files fresh_machine !! go "/tmp/cortex-mcp-new" = Some (data, mode) ∧
      m_files m' !! defaultInstallPath = Some (data, mode')) ∨
   (∃ e, r = Err e ∧ m_files m' !! defaultInstallPath = m_files fresh_machine !! defaultInstallPath)).
Proof.
  destruct (ExecuteOp _ _ _) as [m' r] eqn:E. eapply copy_atomic; [left; reflexivity|exact E].
Defined.

Lemma install_never_partial_witness :
  let '(m', r) := ExecuteOps (failing_world 3) SelfInstallOps fresh_machine in
  m_files m' !! defaultInstallPath = m_files fresh_machine !! defaultInstallPath ∨
  ∃ src data mode mode', w_executable (failing_world 3) = Some src ∧ m_files fresh_machine !! src = Some (data, mode) ∧
    m_files m' !! defaultInstallPath = Some (data, mode').
Proof.
  destruct (ExecuteOps _ _ _) as [m' r] eqn:E. eapply install_never_partial. exact E.
Defined.

Lemma install_complete_witness :
  ∃ m' mode1 mode2, ExecuteOps quiet_world SelfInstallOps fresh_machine = (m', Ret tt) ∧
    m_files m' !! defaultInstallPath = Some (go "binary 2", mode1) ∧
    m_files m' !! serviceUnitPath = Some (generateServiceUnit defaultInstallPath, mode2) ∧
    m_commands m' = m_commands fresh_machine ++ [[go "systemctl"; go "daemon-reload"]; [go "systemctl"; go "enable"; go "cortex-mcp"];
      [go "systemctl"; go "--no-block"; go "restart"; go "cortex-mcp"]].
Proof. apply (install_complete quiet_world fresh_machine (go "/tmp/cortex-mcp-new") (go "binary 2") 493); reflexivity. Defined.

Lemma uninstall_blocked_witness :
  ∃ m' e, ExecuteOps (failing_world 0) (DetachedUninstallOps (Some (go "/root"))) fresh_machine = (m', Err e) ∧
    m_files m' = m_files fresh_machine ∧ m_alive m' = m_alive fresh_machine ∧
    m_commands m' = m_commands fresh_machine ++ [[go "systemctl"; go "stop"; go "cortex-mcp"]].
Proof. apply uninstall_blocked. reflexivity. Defined.

Lemma uninstall_complete_witness :
  ∃ m', ExecuteOps quiet_world (DetachedUninstallOps (Some (go "/root"))) fresh_machine = (m', Ret tt) ∧
    (∀ p, is_Some (m_files m' !! p) → p ≠ serviceUnitPath ∧ below (go "/opt/cortex-mcp") p = false ∧
       ∀ h, Some (go "/root") = Some h → below (h ++ go "/.cortex-mcp") p = false) ∧
    (∀ p, p ≠ serviceUnitPath → below (go "/opt/cortex-mcp") p = false →
       (∀ h, Some (go "/root") = Some h → below (h ++ go "/.cortex-mcp") p = false) →
       (∀ payload, readPayloadFromSocket quiet_world = Ret payload → lp_Path payload = p → strings_HasPrefix p (go "/tmp/") = false) →
       m_files m' !! p = m_files fresh_machine !! p).
Proof. apply uninstall_complete; [reflexivity|right; eexists; reflexivity|eexists; vm_compute; reflexivity]. Defined.
