(* ===== verification/SharedMem.v ===== *)
(** * Shared memory: the tool get_shared_memory

    The three surfaces of registry/tools/sharedmemory/sharedmemory.go: the System V
    segments of /proc/sysvipc/shm, the files under /dev/shm, and the tmpfs mounts
    with their use; and what is worth a warning.

    /dev/shm is a tree of what the walk finds. What statfs answers and when the
    context is cancelled are parameters. Warnings and notes are kept as the values
    they are printed from. *)

From Stdlib Require Import Ascii.
From stdpp Require Import base numbers gmap strings sorting list.
From S2P Require Import Prelude GoStrings GoFloat GoNet GoOs Plugins Mounts.

Open Scope Z_scope.

(** ** Data *)

Definition tmpfsUsageWarnPct : float64 := f64_of_Z 80.
Definition topEntries : nat := 20.

Record rawSegment := MkRawSegment { rs_shmID : Z; rs_sizeBytes : Z; rs_cpid : Z; rs_lpid : Z; rs_nattch : Z }.

Record SysvSegment := MkSysvSegment {
  sv_ShmID : Z; sv_SizeMB : float64; sv_Nattch : Z; sv_CreatorPID : Z; sv_CreatorAlive : bool; sv_LastPID : Z; sv_Orphaned : bool
}.

Record SysvInfo := MkSysvInfo {
  si_Segments : list SysvSegment; si_SegmentCount : Z; si_TotalMB : float64; si_OrphanedCount : Z; si_OrphanedMB : float64
}.

Record rawFile := MkRawFile { rf_name : gostring; rf_sizeBytes : Z; rf_uid : Z; rf_mtime : Z }.

Record PosixFile := MkPosixFile { pf_Name : gostring; pf_SizeMB : float64; pf_UID : Z; pf_MTime : gostring }.

Record PosixInfo := MkPosixInfo { px_Files : list PosixFile; px_FileCount : Z; px_TotalMB : float64 }.

Record TmpfsMount := MkTmpfsMount { tm_Mount : gostring; tm_UsedMB : float64; tm_TotalMB : float64; tm_UsedPct : float64; tm_Status : gostring }.

Variant shm_note := NotePosix (err : goerr) | NoteMountinfo (err : goerr) | NoteTmpfs (mount : gostring) (err : statfs_result).

Variant shm_warning := WarnOrphaned (count : Z) (mb : float64) | WarnTmpfs (m : TmpfsMount).

Record Output := MkOutput {
  so_Sysv : SysvInfo; so_Posix : option PosixInfo; so_Tmpfs : list TmpfsMount; so_Notes : list shm_note; so_WarningReasons : list shm_warning
}.

(** ** Units *)

Definition round1 (v : float64) : float64 := f64_div (math_Round (f64_mul v (f64_of_Z 10))) (f64_of_Z 10).

Definition toMB (bytes : Z) : float64 := round1 (f64_div (f64_of_Z bytes) (f64_mul (f64_of_Z 1024) (f64_of_Z 1024))).

(** ** System V segments *)

(** The column of each name of the header; the last one, if a name is repeated. *)
Definition columns (header : list gostring) : gmap gostring nat :=
  foldl (λ col p, <[p.2 := p.1]> col) ∅ (imap pair header).

Definition required_columns : list gostring := [go "shmid"; go "size"; go "cpid"; go "lpid"; go "nattch"].

(** A number without an error. *)
Definition parsed (p : Z * option num_error) : option Z := match p with (v, None) => Some v | _ => None end.

Definition segment_of (col : gmap gostring nat) (fields : list gostring) : option rawSegment :=
  let field name := idx ← col !! (name : gostring); fields !! (idx : nat) in
  shmID ← s ← field (go "shmid"); parsed (ParseInt s);
  sizeBytes ← s ← field (go "size"); parsed (ParseUint s);
  cpid ← s ← field (go "cpid"); parsed (ParseInt s);
  lpid ← s ← field (go "lpid"); parsed (ParseInt s);
  nattch ← s ← field (go "nattch"); parsed (ParseUint s);
  Some (MkRawSegment shmID sizeBytes cpid lpid nattch).

Definition parseSysvShm (data : gostring) : outcome (list rawSegment) :=
  match scan_fields data with
  | [] => Err (Errorf "empty file")
  | header :: rows =>
      let col := columns header in
      if decide (Forall (λ required, is_Some (col !! required)) required_columns)
      then Ret (omap (segment_of col) rows) else Err (Errorf "header missing %q column")
  end.

Definition segment_less : rawSegment → rawSegment → bool := larger_then rs_sizeBytes (λ a b, rs_shmID a <? rs_shmID b).

Definition sysv_segment `{FileSystem} (seg : rawSegment) : SysvSegment :=
  MkSysvSegment (rs_shmID seg) (toMB (rs_sizeBytes seg)) (rs_nattch seg) (rs_cpid seg)
    (path_exists [go "/proc"; strconv_Itoa (rs_cpid seg)]) (rs_lpid seg) (rs_nattch seg =? 0).

(** The totals over all segments: bytes, and the count and bytes of orphans. *)
Definition count_segment (totals : Z * Z * Z) (seg : rawSegment) : Z * Z * Z :=
  let '(totalBytes, count, orphanedBytes) := totals in
  let totalBytes := u64 (totalBytes + rs_sizeBytes seg) in
  if rs_nattch seg =? 0 then (totalBytes, count + 1, u64 (orphanedBytes + rs_sizeBytes seg)) else (totalBytes, count, orphanedBytes).

Definition buildSysv `{FileSystem} `{GoSort} (segments : list rawSegment) : SysvInfo :=
  let '(totalBytes, count, orphanedBytes) := foldl count_segment (0, 0, 0) segments in
  MkSysvInfo (map sysv_segment (take topEntries (sort_slice segment_less segments)))
    (Z.of_nat (length segments)) (toMB totalBytes) count (toMB orphanedBytes).

(** ** Files of /dev/shm *)

(** What the walk finds: a directory with the entries it could read; or anything
    else, with its size (an [int64]), owner and time if it is a regular file
    and its information could be read. *)
Inductive shm_tree :=
| ShmDir (entries : list (gostring * shm_tree))
| ShmEntry (info : option (Z * Z * Z)).

(** The path relative to the root. *)
Definition join_rel (dir name : gostring) : gostring := match dir with [] => name | _ => dir ++ go "/" ++ name end.

Fixpoint walk (rel : gostring) (t : shm_tree) : list rawFile :=
  match t with
  | ShmEntry (Some (size, uid, mtime)) => [MkRawFile rel (u64 size) uid mtime]
  | ShmEntry None => []
  | ShmDir entries =>
      (fix walk_all es := match es with [] => [] | (name, t) :: es => walk (join_rel rel name) t ++ walk_all es end) entries
  end.

Definition file_less : rawFile → rawFile → bool := larger_then rf_sizeBytes (λ a b, str_ltb (rf_name a) (rf_name b)).

Definition listPosixShm `{GoSort} (rfc3339 : Z → gostring) (root : list (gostring * shm_tree) + goerr) : outcome PosixInfo :=
  match root with
  | inr err => Err err
  | inl entries =>
      let files := walk [] (ShmDir entries) in
      let totalBytes := foldl (λ total f, u64 (total + rf_sizeBytes f)) 0 files in
      Ret (MkPosixInfo
        (map (λ f, MkPosixFile (rf_name f) (toMB (rf_sizeBytes f)) (rf_uid f) (rfc3339 (rf_mtime f))) (take topEntries (sort_slice file_less files)))
        (Z.of_nat (length files)) (toMB totalBytes))
  end.

(** ** tmpfs mounts *)

Definition tmpfs_point (fields : list gostring) : option gostring :=
  if (length fields <? 7)%nat then None
  else
    sepIdx ← sep_index fields;
    fsType ← fields !! (sepIdx + 1)%nat;
    if decide (fsType = go "tmpfs") then Some (nth 4 fields []) else None.

Fixpoint unseen (seen : gset gostring) (points : list gostring) : list gostring :=
  match points with
  | [] => []
  | p :: points => if decide (p ∈ seen) then unseen seen points else p :: unseen ({[p]} ∪ seen) points
  end.

Definition parseTmpfsMounts (data : gostring) : list gostring := unseen ∅ (omap tmpfs_point (scan_fields data)).

(** The used and total bytes of an answer. *)
Definition statfs_bytes (buf : Statfs_t) : Z * Z :=
  let bsize := u64 (sf_Bsize buf) in
  let total := u64 (sf_Blocks buf * bsize) in
  let avail := u64 (sf_Bavail buf * bsize) in
  (if avail <? total then total - avail else 0, total).

Definition tmpfs_entry (mount : gostring) (buf : Statfs_t) : TmpfsMount :=
  let '(used, total) := statfs_bytes buf in
  MkTmpfsMount mount (toMB used) (toMB total)
    (if 0 <? total then round1 (f64_mul (f64_div (f64_of_Z used) (f64_of_Z total)) (f64_of_Z 100)) else f64_of_Z 0) (go "ok").

Definition hung_entry (mount : gostring) : TmpfsMount := MkTmpfsMount mount (f64_of_Z 0) (f64_of_Z 0) (f64_of_Z 0) (go "hung").

(** [ctx i] is [ctx.Err()] as it is before the [i]-th mount, and [failed i] as it is
    after a failure of that mount. *)
Fixpoint collectTmpfs (statfs : gostring → statfs_result) (ctx failed : nat → bool) (i : nat) (mounts : list gostring) :
    option (list TmpfsMount * list shm_note) :=
  match mounts with
  | [] => Some ([], [])
  | mount :: mounts =>
      if ctx i then None
      else
        let rest := collectTmpfs statfs ctx failed (S i) mounts in
        match statfs mount with
        | StatfsDone buf => '(entries, notes) ← rest; Some (tmpfs_entry mount buf :: entries, notes)
        | r => if failed i then None else '(entries, notes) ← rest; Some (hung_entry mount :: entries, NoteTmpfs mount r :: notes)
        end
  end.

(** ** The tool *)

Definition buildWarnings (sysv : SysvInfo) (tmpfs : list TmpfsMount) : list shm_warning :=
  (if 0 <? si_OrphanedCount sysv then [WarnOrphaned (si_OrphanedCount sysv) (si_OrphanedMB sysv)] else []) ++
  map WarnTmpfs (filter (λ m, tm_Status m = go "ok" ∧ f64_ltb tmpfsUsageWarnPct (tm_UsedPct m) = true) tmpfs).

Definition shm_Execute `{FileSystem} `{GoSort} (rfc3339 : Z → gostring) (shm_root : list (gostring * shm_tree) + goerr)
    (statfs : gostring → statfs_result) (canceled : bool) (ctx failed : nat → bool) : outcome (ResultStatus * Output) :=
  if canceled then Err (Errorf "context canceled: %v")
  else match ReadFile [go "/proc"; go "sysvipc"; go "shm"] with
  | inr err => Err (Wrapf "failed to read %s: %v" err)
  | inl shmData =>
      segments ← wrap_err "failed to parse %s: %v" (parseSysvShm shmData);
      let sysv := buildSysv segments in
      let '(posix, posix_notes) :=
        match listPosixShm rfc3339 shm_root with Ret info => (Some info, []) | Err err => (None, [NotePosix err]) | _ => (None, []) end in
      '(tmpfs, tmpfs_notes) ←
        match ReadFile [go "/proc"; go "self"; go "mountinfo"] with
        | inr err => Ret ([], [NoteMountinfo err])
        | inl mountData =>
            match collectTmpfs statfs ctx failed 0 (parseTmpfsMounts mountData) with
            | Some r => Ret r
            | None => Err (Errorf "context canceled during tmpfs statfs: %v")
            end
        end;
      let notes := posix_notes ++ tmpfs_notes in
      let warnings := buildWarnings sysv tmpfs in
      Ret (match warnings, notes with _ :: _, _ => StatusWarning | [], _ :: _ => StatusDegraded | [], [] => StatusOK end,
           MkOutput sysv posix tmpfs notes warnings)
  end.

(** ** Lemmas: the table of segments *)

Lemma columns_notin header (name : gostring) (i : nat) col : name ∉ header →
  foldl (λ (col : gmap gostring nat) p, <[p.2 := p.1]> col) col (imap (λ k, pair (i + k)%nat) header) !! name = col !! name.
Proof.
  revert i col. induction header as [|h header IH]; intros i col Hn; [done|]. apply not_elem_of_cons in Hn as [Hne Hn].
  simpl. rewrite (imap_ext _ (λ k, pair (S i + k)%nat)) by (intros; simpl; f_equal; lia). rewrite IH by done. by rewrite lookup_insert_ne.
Qed.

Lemma columns_lookup header (name : gostring) : NoDup header → name ∈ header →
  ∃ i, columns header !! name = Some i ∧ header !! i = Some name.
Proof.
  unfold columns. intros Hnd Hin.
  assert (∀ i col, ∃ k, foldl (λ (col : gmap gostring nat) p, <[p.2 := p.1]> col) col (imap (λ k, pair (i + k)%nat) header) !! name = Some (i + k)%nat ∧ header !! k = Some name) as H.
  { induction Hnd as [|h header Hh Hnd IH]; [by apply elem_of_nil in Hin|]. intros i col.
    simpl. rewrite (imap_ext _ (λ k, pair (S i + k)%nat)) by (intros; simpl; f_equal; lia).
    destruct (decide (name = h)) as [->|Hne].
    - exists 0%nat. rewrite columns_notin by done. by rewrite lookup_insert_eq.
    - apply elem_of_cons in Hin as [?|Hin]; [done|]. destruct (IH Hin (S i) (<[h:=(i + 0)%nat]> col)) as (k & Hk & Hl).
      exists (S k). split; [|done]. rewrite Hk. f_equal. lia. }
  destruct (H 0%nat ∅) as (k & Hk & Hl). exists k. split; [|done]. exact Hk.
Qed.

(** A row as the kernel prints it under a header: the numbers of a segment in
    their columns, and anything in the others. *)
Definition print_row (header : list gostring) (row : rawSegment * (gostring → gostring)) : list gostring :=
  let '(seg, other) := row in
  map (λ name,
    if decide (name = go "shmid") then strconv_Itoa (rs_shmID seg)
    else if decide (name = go "size") then udec (rs_sizeBytes seg)
    else if decide (name = go "cpid") then strconv_Itoa (rs_cpid seg)
    else if decide (name = go "lpid") then strconv_Itoa (rs_lpid seg)
    else if decide (name = go "nattch") then udec (rs_nattch seg)
    else other name) header.

Definition good_segment (seg : rawSegment) : Prop :=
  in_i64 (rs_shmID seg) ∧ 0 ≤ rs_sizeBytes seg ≤ MaxUint64 ∧ in_i64 (rs_cpid seg) ∧ in_i64 (rs_lpid seg) ∧ 0 ≤ rs_nattch seg ≤ MaxUint64.

Lemma print_row_field header row (name : gostring) : NoDup header → name ∈ header →
  (idx ← columns header !! name; print_row header row !! (idx : nat)) = head (print_row [name] row).
Proof.
  intros Hnd Hin. destruct (columns_lookup header name Hnd Hin) as (i & -> & Hi). destruct row as [seg other]. simpl. by rewrite list_lookup_fmap, Hi.
Qed.

Lemma segment_of_row header row : NoDup header → Forall (λ n, n ∈ header) required_columns → good_segment row.1 →
  segment_of (columns header) (print_row header row) = Some row.1.
Proof.
  intros Hnd Hreq (H1 & H2 & H3 & H4 & H5). unfold required_columns in Hreq. decompose_Forall_hyps.
  unfold segment_of. rewrite !print_row_field by done. destruct row as [[id size cpid lpid nattch] other]. simpl in *.
  rewrite !ParseInt_Itoa, !ParseUint_udec by done. done.
Qed.

Lemma count_segments segments b0 c0 o0 : 
  foldl count_segment (b0, c0, o0) segments =
  (foldl (λ n seg, u64 (n + rs_sizeBytes seg)) b0 segments, c0 + Z.of_nat (length (filter (λ seg, rs_nattch seg = 0) segments)),
   foldl (λ n seg, u64 (n + rs_sizeBytes seg)) o0 (filter (λ seg, rs_nattch seg = 0) segments)).
Proof.
  revert b0 c0 o0. induction segments as [|seg segments IH]; intros b0 c0 o0; [simpl; by rewrite Z.add_0_r|].
  cbn [foldl]. unfold count_segment at 2. rewrite filter_cons. destruct (Z.eqb_spec (rs_nattch seg) 0).
  - rewrite decide_True by done. rewrite IH. cbn [length foldl]. f_equal; f_equal. lia.
  - by rewrite decide_False, IH by done.
Qed.

Definition sum_sizes (segments : list rawSegment) : Z := foldr (λ seg n, rs_sizeBytes seg + n) 0 segments.

Lemma sum_sizes_exact segments b : 0 ≤ b → Forall (λ seg, 0 ≤ rs_sizeBytes seg) segments → b + sum_sizes segments < 2 ^ 64 →
  foldl (λ n seg, u64 (n + rs_sizeBytes seg)) b segments = b + sum_sizes segments.
Proof.
  intros Hb Hs. revert b Hb. induction Hs as [|seg segments Hseg Hs IH]; intros b Hb Hlt; simpl in *; [lia|].
  assert (0 ≤ sum_sizes segments) by (clear -Hs; induction Hs; simpl; lia).
  rewrite u64_id by lia. rewrite IH by lia. lia.
Qed.

Lemma sum_sizes_filter P `{∀ x, Decision (P x)} segments : Forall (λ seg, 0 ≤ rs_sizeBytes seg) segments →
  0 ≤ sum_sizes (filter P segments) ≤ sum_sizes segments.
Proof. induction 1 as [|seg segments Hseg Hs IH]; [done|]. rewrite filter_cons. case_decide; simpl; lia. Qed.

(** ** Lemmas: mounts and files *)

Lemma unseen_spec seen points : NoDup (unseen seen points) ∧ ∀ p, p ∈ unseen seen points ↔ p ∈ points ∧ p ∉ seen.
Proof.
  revert seen. induction points as [|q points IH]; intros seen; simpl; [split; [constructor|set_solver]|].
  case_decide as Hq; [destruct (IH seen) as [Hnd Hin]; split; [done|]|destruct (IH ({[q]} ∪ seen)) as [Hnd Hin]; split].
  - intros p. rewrite Hin. set_solver.
  - constructor; [|done]. rewrite Hin. set_solver.
  - intros p. rewrite elem_of_cons, Hin. destruct (decide (p = q)); set_solver.
Qed.

(** A regular file of a tree, by its path. *)
Inductive file_at : gostring → shm_tree → rawFile → Prop :=
| file_here rel size uid mtime : file_at rel (ShmEntry (Some (size, uid, mtime))) (MkRawFile rel (u64 size) uid mtime)
| file_below rel entries name t f : (name, t) ∈ entries → file_at (join_rel rel name) t f → file_at rel (ShmDir entries) f.

Lemma walk_entries rel entries : walk rel (ShmDir entries) = entries ≫= λ p, walk (join_rel rel p.1) p.2.
Proof. induction entries as [|[name t] entries IH]; [done|]. rewrite bind_cons. simpl in *. by rewrite <-IH. Qed.

Fixpoint tree_height (t : shm_tree) : nat :=
  match t with
  | ShmEntry _ => 0%nat
  | ShmDir entries => S ((fix heights es := match es with [] => 0%nat | (_, t) :: es => Nat.max (tree_height t) (heights es) end) entries)
  end.

Lemma tree_height_entry name t entries : (name, t) ∈ entries → (tree_height t < tree_height (ShmDir entries))%nat.
Proof.
  simpl. induction entries as [|[n' t'] entries IH]; intros Hin; [by apply elem_of_nil in Hin|].
  apply elem_of_cons in Hin as [Heq|Hin]; [injection Heq as -> ->; lia|]. specialize (IH Hin). lia.
Qed.

Lemma walk_spec rel t f : f ∈ walk rel t ↔ file_at rel t f.
Proof.
  split.
  - remember (tree_height t) as h eqn:Hh. revert rel t Hh. induction (lt_wf h) as [h _ IH]. intros rel t -> Hf.
    destruct t as [entries|[[[size uid] mtime]|]].
    + rewrite walk_entries in Hf. apply list_elem_of_bind in Hf as ([name t] & Hf & Hin). econstructor; [exact Hin|].
      eapply IH; [by eapply tree_height_entry|done|exact Hf].
    + simpl in Hf. apply list_elem_of_singleton in Hf as ->. constructor.
    + by apply elem_of_nil in Hf.
  - induction 1 as [|rel entries name t f Hin _ IH]; [by left|]. rewrite walk_entries. apply list_elem_of_bind. by exists (name, t).
Qed.

(** What the report says of a mount, by what statfs said. *)
Definition answer (mount : gostring) (r : statfs_result) : TmpfsMount :=
  match r with StatfsDone buf => tmpfs_entry mount buf | _ => hung_entry mount end.

Definition silent (r : statfs_result) : bool := match r with StatfsDone _ => false | _ => true end.

Lemma collectTmpfs_spec statfs ctx failed i mounts entries notes :
  collectTmpfs statfs ctx failed i mounts = Some (entries, notes) →
  entries = map (λ mount, answer mount (statfs mount)) mounts ∧
  notes = map (λ mount, NoteTmpfs mount (statfs mount)) (filter (λ mount, silent (statfs mount) = true) mounts).
Proof.
  revert i entries notes. induction mounts as [|mount mounts IH]; intros i entries notes; simpl; [intros Heq; by injection Heq as <- <-|].
  rewrite filter_cons. destruct (ctx i); [done|]. destruct (statfs mount) eqn:Hr; simpl; try (destruct (failed i); [done|]);
    destruct (collectTmpfs _ _ _ _ _) as [[entries' notes']|] eqn:E; try done; intros Heq; injection Heq as <- <-;
    apply IH in E as [-> ->]; rewrite ?Hr; done.
Qed.

Lemma filter_nil_iff {A} (P : A → Prop) `{∀ x, Decision (P x)} l : filter P l = [] ↔ ∀ x, x ∈ l → ¬ P x.
Proof.
  split; [|apply filter_false]. intros Hl x Hx HP. apply (not_elem_of_nil x). rewrite <-Hl. by apply list_elem_of_filter.
Qed.

Lemma map_nil_iff {A B} (f : A → B) l : map f l = [] ↔ l = [].
Proof. by destruct l. Qed.

Lemma buildWarnings_nil sysv tmpfs : buildWarnings sysv tmpfs ≠ [] ↔
  0 < si_OrphanedCount sysv ∨ ∃ m, m ∈ tmpfs ∧ tm_Status m = go "ok" ∧ f64_ltb tmpfsUsageWarnPct (tm_UsedPct m) = true.
Proof.
  unfold buildWarnings. destruct (Z.ltb_spec 0 (si_OrphanedCount sysv)) as [Hlt|Hge]; cbn [app].
  - split; [by left|done].
  - split.
    + intros Hne. right. destruct (filter _ tmpfs) as [|m l] eqn:E; [done|]. exists m.
      assert (m ∈ filter (λ m, tm_Status m = go "ok" ∧ f64_ltb tmpfsUsageWarnPct (tm_UsedPct m) = true) tmpfs) as [??]%list_elem_of_filter by (rewrite E; left). done.
    + intros [?|(m & Hm & Hp)]; [lia|]. intros E%map_eq_nil. by apply (proj1 (filter_nil_iff _ _) E m Hm).
Qed.

(** ** Properties *)

(** The table of segments. Whatever columns the kernel prints, in whatever order, each
    row gives its segment, if the header has the five columns. *)
Theorem parseSysvShm_roundtrip (header : list gostring) (rows : list (rawSegment * (gostring → gostring)))
  (Hnd : NoDup header) (Hreq : Forall (λ n, n ∈ header) required_columns) (Hrows : Forall (λ row, good_segment row.1) rows)
  (Hw : Forall word_line (header :: map (print_row header) rows)) :
  parseSysvShm (print_lines (header :: map (print_row header) rows)) = Ret (map fst rows).
Proof.
  unfold parseSysvShm, scan_fields. destruct (scan_words _ Hw) as [_ ->]. rewrite decide_True.
  - f_equal. clear Hw. induction Hrows as [|row rows Hrow _ IH]; [done|]. cbn [map omap list_omap]. rewrite segment_of_row by done. by rewrite IH.
  - eapply Forall_impl; [exact Hreq|]. intros n Hn. by destruct (columns_lookup header n Hnd Hn) as (i & -> & _).
Qed.

(** The report on segments. Up to twenty are listed, none smaller than one that is not,
    the largest first; a segment is marked orphaned exactly if nobody is attached; counts
    and sizes are those of all segments, listed or not. *)
Theorem buildSysv_report `{FileSystem} `{GoSort} (segments : list rawSegment)
  (Hs : Forall (λ seg, 0 ≤ rs_sizeBytes seg) segments) (Hsum : sum_sizes segments < 2 ^ 64) :
  let info := buildSysv segments in
  let orphans := filter (λ seg, rs_nattch seg = 0) segments in
  (∃ shown others, si_Segments info = map sysv_segment shown ∧ shown ++ others ≡ₚ segments ∧
     (length shown = topEntries ∨ others = []) ∧
     StronglySorted (λ a b, rs_sizeBytes b ≤ rs_sizeBytes a) shown ∧
     ∀ a b, a ∈ shown → b ∈ others → rs_sizeBytes b ≤ rs_sizeBytes a) ∧
  (∀ v, v ∈ si_Segments info → sv_Orphaned v = true ↔ sv_Nattch v = 0) ∧
  si_SegmentCount info = Z.of_nat (length segments) ∧ si_TotalMB info = toMB (sum_sizes segments) ∧
  si_OrphanedCount info = Z.of_nat (length orphans) ∧ si_OrphanedMB info = toMB (sum_sizes orphans).
Proof.
  cbn zeta. unfold buildSysv. rewrite count_segments. cbn [si_Segments si_SegmentCount si_TotalMB si_OrphanedCount si_OrphanedMB].
  pose proof (sum_sizes_filter (λ seg, rs_nattch seg = 0) segments Hs).
  assert (Forall (λ seg, 0 ≤ rs_sizeBytes seg) (filter (λ seg, rs_nattch seg = 0) segments)) as Hf.
  { rewrite Forall_forall in *. intros seg [_ Hseg]%list_elem_of_filter. auto. }
  rewrite !sum_sizes_exact, !Z.add_0_l by (done || lia).
  split_and!; [|intros v (seg & -> & _)%list_elem_of_fmap; simpl; apply Z.eqb_eq|done..].
  destruct (take_larger rs_sizeBytes (λ a b, rs_shmID a <? rs_shmID b) segments topEntries) as (others & Htop); [apply ltb_strict_weak|].
  by eexists _, others.
Qed.

(** The mounts: each tmpfs mount point once. *)
Theorem parseTmpfsMounts_once (ls : list mountinfo_line) (Hgood : Forall good_mount_line ls) :
  let mounts := parseTmpfsMounts (print_lines (map mount_fields ls)) in
  NoDup mounts ∧ ∀ p, p ∈ mounts ↔ ∃ l, l ∈ ls ∧ ml_fsType l = go "tmpfs" ∧ ml_mountPoint l = p.
Proof.
  cbn zeta. unfold parseTmpfsMounts, scan_fields. destruct (scan_words (map mount_fields ls)) as [_ ->].
  { apply Forall_map. eapply Forall_impl; [exact Hgood|]. by intros l [? _]. }
  destruct (unseen_spec ∅ (omap tmpfs_point (map mount_fields ls))) as [Hnd Hin]. split; [exact Hnd|].
  intros p. rewrite Hin, list_elem_of_omap. rewrite Forall_forall in Hgood.
  assert (∀ l, l ∈ ls → tmpfs_point (mount_fields l) = if decide (ml_fsType l = go "tmpfs") then Some (ml_mountPoint l) else None) as Hp.
  { intros l [_ Hsep]%Hgood. unfold tmpfs_point. set (pre := _ ++ ml_optional l) in Hsep.
    assert (mount_fields l = pre ++ [go "-"; ml_fsType l; ml_source l; ml_super l]) as E by (unfold mount_fields, pre; by rewrite <-(assoc_L (++))).
    assert (nth 4 (mount_fields l) [] = ml_mountPoint l) as -> by done. rewrite E.
    rewrite (proj2 (Nat.ltb_ge _ _)) by (unfold pre; rewrite !length_app; simpl; lia).
    rewrite sep_index_fields by done. cbn [mbind option_bind].
    rewrite lookup_app_r by lia. replace (length pre + 1 - length pre)%nat with 1%nat by lia. done. }
  split.
  - intros [(fields & (l & -> & Hl)%list_elem_of_fmap & Hf) _]. rewrite Hp in Hf by done. case_decide; [|done]. injection Hf as <-. by exists l.
  - intros (l & Hl & Ht & <-). split; [|set_solver]. exists (mount_fields l). split; [by apply list_elem_of_fmap_2|]. by rewrite Hp, decide_True.
Qed.

(** The files of /dev/shm: the regular files of the tree, counted; up to twenty of them
    are listed, none smaller than one that is not; nothing is listed if the directory
    cannot be read. *)
Theorem listPosixShm_files `{GoSort} (rfc3339 : Z → gostring) (entries : list (gostring * shm_tree)) :
  ∃ info files, listPosixShm rfc3339 (inl entries) = Ret info ∧ (∀ f, f ∈ files ↔ file_at [] (ShmDir entries) f) ∧
    px_FileCount info = Z.of_nat (length files) ∧
    ∃ shown others, shown ++ others ≡ₚ files ∧ (length shown = topEntries ∨ others = []) ∧
      px_Files info = map (λ f, MkPosixFile (rf_name f) (toMB (rf_sizeBytes f)) (rf_uid f) (rfc3339 (rf_mtime f))) shown ∧
      StronglySorted (λ a b, rf_sizeBytes b ≤ rf_sizeBytes a) shown ∧
      ∀ a b, a ∈ shown → b ∈ others → rf_sizeBytes b ≤ rf_sizeBytes a.
Proof.
  set (files := walk [] (ShmDir entries)). eexists _, files. split; [done|]. split; [apply walk_spec|]. split; [done|].
  destruct (take_larger rf_sizeBytes (λ a b, str_ltb (rf_name a) (rf_name b)) files topEntries) as (others & Hp & Hlen & Hrest); [apply str_strict_weak|].
  by eexists _, others.
Qed.

(** The verdict. The tool warns exactly if a segment is orphaned or a mount that statfs
    answered for is more than 80% full; without a warning it is degraded exactly if
    /dev/shm, the mounts, or one mount could not be read; every tmpfs mount is reported,
    with figures where statfs answered. *)
Theorem shm_verdict `{FileSystem} `{GoSort} rfc3339 shm_root statfs canceled ctx failed (status : ResultStatus) (out : Output)
  (Hrun : shm_Execute rfc3339 shm_root statfs canceled ctx failed = Ret (status, out)) :
  (status = StatusWarning ↔ 0 < si_OrphanedCount (so_Sysv out) ∨
     ∃ m, m ∈ so_Tmpfs out ∧ tm_Status m = go "ok" ∧ f64_ltb tmpfsUsageWarnPct (tm_UsedPct m) = true) ∧
  (status = StatusOK ↔ status ≠ StatusWarning ∧ so_Notes out = []) ∧ status ≠ StatusError ∧
  (so_Notes out = [] ↔ is_Some (so_Posix out) ∧ ∃ data, ReadFile [go "/proc"; go "self"; go "mountinfo"] = inl data ∧
     ∀ mount, mount ∈ parseTmpfsMounts data → ∃ buf, statfs mount = StatfsDone buf) ∧
  (∀ data, ReadFile [go "/proc"; go "self"; go "mountinfo"] = inl data →
     so_Tmpfs out = map (λ mount, answer mount (statfs mount)) (parseTmpfsMounts data)).
Proof.
  unfold shm_Execute in Hrun. destruct canceled; [done|]. destruct (ReadFile [go "/proc"; go "sysvipc"; go "shm"]) as [shmData|]; [|done].
  destruct (parseSysvShm shmData) as [segments|e| |]; [|done..]. cbn [wrap_err mbind outcome_bind] in Hrun.
  set (posix := match listPosixShm rfc3339 shm_root with Ret _ => _ | _ => _ end) in Hrun.
  assert (snd posix = [] ↔ is_Some (fst posix)) as Hposix.
  { unfold posix, listPosixShm. destruct shm_root; simpl; (split; [by eauto|]); [done|by intros [? ?]]. }
  destruct posix as [px px_notes]. simpl in Hposix.
  set (mounts := match ReadFile _ with inl _ => _ | inr _ => _ end) in Hrun.
  destruct mounts as [[tmpfs tm_notes]|e| |] eqn:Hm; [|done..]. cbn [mbind outcome_bind] in Hrun. injection Hrun as <- <-.
  cbn [so_Sysv so_Posix so_Tmpfs so_Notes].
  pose proof (buildWarnings_nil (buildSysv segments) tmpfs) as Hwarn.
  assert ((tm_notes = [] ↔ ∃ data, ReadFile [go "/proc"; go "self"; go "mountinfo"] = inl data ∧
            ∀ mount, mount ∈ parseTmpfsMounts data → ∃ buf, statfs mount = StatfsDone buf) ∧
          (∀ data, ReadFile [go "/proc"; go "self"; go "mountinfo"] = inl data → tmpfs = map (λ mount, answer mount (statfs mount)) (parseTmpfsMounts data))) as [Hnotes Htm].
  { subst mounts. destruct (ReadFile [go "/proc"; go "self"; go "mountinfo"]) as [data|err].
    - destruct (collectTmpfs _ _ _ _ _) as [[es ns]|] eqn:Hc; [|done]. injection Hm as <- <-. apply collectTmpfs_spec in Hc as [-> ->].
      split; [|by intros d Hd; injection Hd as ->]. rewrite map_nil_iff, filter_nil_iff. split.
      + intros Hall. exists data. split; [done|]. intros mount Hin. specialize (Hall mount Hin). destruct (statfs mount); [by eexists|by destruct Hall..].
      + intros (d & Hd & Hall) mount Hin. injection Hd as ->. destruct (Hall mount Hin) as [buf ->]. done.
    - injection Hm as <- <-. split; [split; [done|by intros (d & Hd & _)]|done]. }
  split_and!; [| | | |exact Htm].
  - rewrite <-Hwarn. destruct (buildWarnings _ _); [|done]. destruct (px_notes ++ tm_notes); split; try done.
  - destruct (buildWarnings _ _); destruct (px_notes ++ tm_notes); naive_solver.
  - destruct (buildWarnings _ _); destruct (px_notes ++ tm_notes); done.
  - rewrite <-Hposix, <-Hnotes. split; [apply app_nil|intros [-> ->]; done].
Qed.

(** ** Witnesses *)

Definition shm_header : list gostring := [go "key"; go "shmid"; go "perms"; go "size"; go "cpid"; go "lpid"; go "nattch"; go "rss"].

Definition shm_rows : list (rawSegment * (gostring → gostring)) :=
  [(MkRawSegment 3 1048576 812 812 0, λ _, go "0"); (MkRawSegment 7 2097152 900 901 2, λ _, go "0")].

Lemma parseSysvShm_roundtrip_witness :
  Forall word_line (shm_header :: map (print_row shm_header) shm_rows) ∧
  parseSysvShm (print_lines (shm_header :: map (print_row shm_header) shm_rows)) =
    Ret [MkRawSegment 3 1048576 812 812 0; MkRawSegment 7 2097152 900 901 2].
Proof.
  split; [by_decide|]. apply (parseSysvShm_roundtrip shm_header shm_rows); [by_decide|by_decide|repeat constructor; by_decide|by_decide].
Defined.

Definition shm_fs : FileSystem :=
  mem_fs [([go "/proc"; go "sysvipc"; go "shm"], print_lines (shm_header :: map (print_row shm_header) shm_rows));
          ([go "/proc"; go "self"; go "mountinfo"],
           print_lines [[go "25"; go "1"; go "0:23"; go "/"; go "/dev/shm"; go "rw"; go "shared:3"; go "-"; go "tmpfs"; go "tmpfs"; go "rw"]])] [] [].

Definition shm_statfs (_ : gostring) : statfs_result := StatfsDone (MkStatfs 4096 1000 100 10 5).

Lemma buildSysv_report_witness :
  let info := @buildSysv shm_fs insertion_GoSort (map fst shm_rows) in
  Forall (λ seg, 0 ≤ rs_sizeBytes seg) (map fst shm_rows) ∧ si_SegmentCount info = 2 ∧ si_OrphanedCount info = 1 ∧ si_OrphanedMB info = toMB 1048576.
Proof.
  cbn zeta. assert (Forall (λ seg, 0 ≤ rs_sizeBytes seg) (map fst shm_rows)) as Hs by (repeat constructor; simpl; lia).
  split; [exact Hs|].
  destruct (@buildSysv_report shm_fs insertion_GoSort (map fst shm_rows) Hs) as (_ & _ & Hc & _ & Ho & Hm); [by vm_compute|].
  split; [exact Hc|split; [rewrite Ho; by vm_compute|rewrite Hm; by vm_compute]].
Defined.

Lemma parseTmpfsMounts_once_witness :
  let l := MkMountLine (go "25") (go "1") (go "0:23") (go "/") (go "/dev/shm") (go "rw") [go "shared:3"] (go "tmpfs") (go "tmpfs") (go "rw") in
  good_mount_line l ∧ go "/dev/shm" ∈ parseTmpfsMounts (print_lines (map mount_fields [l; l])).
Proof.
  cbn zeta. set (l := MkMountLine _ _ _ _ _ _ _ _ _ _). assert (good_mount_line l) as Hl by (split; by_decide). split; [exact Hl|].
  apply (parseTmpfsMounts_once [l; l]); [apply Forall_cons_2; [exact Hl|apply Forall_cons_2; [exact Hl|apply Forall_nil_2]]|]. exists l. split; [left|split; reflexivity].
Defined.

(** One orphaned segment, and a mount that is 90% full. *)
Lemma shm_verdict_witness :
  ∃ out, @shm_Execute shm_fs insertion_GoSort (λ _, go "2026-01-01T00:00:00Z") (inr ErrNotExist) shm_statfs false (λ _, false) (λ _, false)
    = Ret (StatusWarning, out) ∧ map tm_Mount (so_Tmpfs out) = [go "/dev/shm"] ∧ so_Notes out ≠ [].
Proof.
  assert (∃ out, @shm_Execute shm_fs insertion_GoSort (λ _, go "2026-01-01T00:00:00Z") (inr ErrNotExist) shm_statfs false (λ _, false) (λ _, false)
    = Ret (StatusWarning, out)) as [out Hout] by (eexists; vm_compute; reflexivity).
  exists out. split; [exact Hout|].
  destruct (@shm_verdict shm_fs insertion_GoSort _ _ _ _ _ _ _ _ Hout) as (_ & _ & _ & Hn & Ht). split.
  - erewrite Ht by (vm_compute; reflexivity). by vm_compute.
  - intros Heq. apply Hn in Heq as [[px Hpx] _]. clear Hn Ht. vm_compute in Hout. injection Hout as <-. discriminate Hpx.
Defined.
