(* ===== verification/FileLocks.v ===== *)
(** * File locks: the tool get_file_locks

    registry/tools/filelocks/filelocks.go: the lines of /proc/locks, held locks
    counted by type, mode and holder, and the processes blocked on them. *)

From Stdlib Require Import Ascii.
From stdpp Require Import base numbers gmap strings sorting list.
From S2P Require Import Prelude GoStrings GoNet GoOs.

Open Scope Z_scope.

(** ** Data *)

Definition topHoldersLimit : nat := 15.
Definition waitersListLimit : nat := 15.

Record LockEntry := MkLockEntry { le_Type : gostring; le_Mode : gostring; le_PID : Z; le_Blocked : bool }.

Record Waiter := MkWaiter { wt_PID : Z; wt_Comm : gostring; wt_Type : gostring; wt_Mode : gostring }.

Record Holder := MkHolder { ho_PID : Z; ho_Comm : gostring; ho_LockCount : Z }.

Record ByType := MkByType { bt_POSIX : Z; bt_FLOCK : Z; bt_OFDLCK : Z; bt_LEASE : Z }.

Record ByMode := MkByMode { bm_Read : Z; bm_Write : Z }.

Record BlockedWaiters := MkBlockedWaiters { bw_Count : Z; bw_Waiters : list Waiter }.

Record Data := MkData {
  ld_TotalLocks : Z; ld_ByType : ByType; ld_ByMode : ByMode; ld_BlockedWaiters : BlockedWaiters;
  ld_TopHolders : list Holder; ld_WarningReasons : list Z  (** the number each reason is printed with *)
}.

(** ** Parsing *)

Definition parseLockLine (line : gostring) : option LockEntry :=
  let fields := strings_Fields (strings_TrimSpace line) in
  if (length fields <? 5)%nat then None
  else
    let blocked := bool_decide (nth 1 fields [] = go "->") in
    let idx := if blocked then 2%nat else 1%nat in
    if (length fields <? idx + 4)%nat then None
    else
      match ParseInt (nth (idx + 3) fields []) with
      | (pid, None) => Some (MkLockEntry (nth idx fields []) (nth (idx + 2) fields []) pid blocked)
      | _ => None
      end.

Definition parseLocks (data : gostring) : list LockEntry := omap parseLockLine (strings_Split data newline).

(** ** Aggregation *)

Definition resolveComm `{FileSystem} (pid : Z) : gostring :=
  if pid <? 0 then go "OFD (no owner pid)"
  else
    match ReadFile [go "/proc"; strconv_Itoa pid; go "comm"] with
    | inr _ => go "unknown"
    | inl raw => match strings_TrimSpace raw with [] => go "unknown" | comm => comm end
    end.

Definition count_type (b : ByType) (type : gostring) : ByType :=
  let '(MkByType p f o l) := b in
  if decide (type = go "POSIX") then MkByType (p + 1) f o l
  else if decide (type = go "FLOCK") then MkByType p (f + 1) o l
  else if decide (type = go "OFDLCK") then MkByType p f (o + 1) l
  else if decide (type = go "LEASE") then MkByType p f o (l + 1)
  else b.

Definition count_mode (b : ByMode) (mode : gostring) : ByMode :=
  let '(MkByMode r w) := b in
  if decide (mode = go "READ") then MkByMode (r + 1) w else if decide (mode = go "WRITE") then MkByMode r (w + 1) else b.

(** The counters of the loop over the entries. *)
Record tally := MkTally { ta_waiting : BlockedWaiters; ta_total : Z; ta_type : ByType; ta_mode : ByMode; ta_holders : gmap Z Z }.

Definition count_lock `{FileSystem} (t : tally) (e : LockEntry) : tally :=
  if le_Blocked e then
    let '(MkBlockedWaiters count waiters) := ta_waiting t in
    MkTally
      (MkBlockedWaiters (count + 1)
        (if (length waiters <? waitersListLimit)%nat
         then waiters ++ [MkWaiter (le_PID e) (resolveComm (le_PID e)) (le_Type e) (le_Mode e)] else waiters))
      (ta_total t) (ta_type t) (ta_mode t) (ta_holders t)
  else
    MkTally (ta_waiting t) (ta_total t + 1) (count_type (ta_type t) (le_Type e)) (count_mode (ta_mode t) (le_Mode e))
      (<[le_PID e := default 0 (ta_holders t !! le_PID e) + 1]> (ta_holders t)).

Definition no_locks : tally := MkTally (MkBlockedWaiters 0 []) 0 (MkByType 0 0 0 0) (MkByMode 0 0) ∅.

(** The holders, before their names are looked up. *)
Definition holder_less : Z * Z → Z * Z → bool := larger_then snd (λ a b, fst a <? fst b).

(** [range_holders] is the order in which the map of holders is ranged over. *)
Definition buildData `{FileSystem} `{GoSort} (range_holders : gmap Z Z → list (Z * Z)) (entries : list LockEntry) : Data :=
  let t := foldl count_lock no_locks entries in
  let holders := take topHoldersLimit (sort_slice holder_less (range_holders (ta_holders t))) in
  MkData (ta_total t) (ta_type t) (ta_mode t) (ta_waiting t)
    (map (λ h, MkHolder h.1 (resolveComm h.1) h.2) holders)
    (if 0 <? bw_Count (ta_waiting t) then [bw_Count (ta_waiting t)] else []).

(** The tool: whether it warns, and the data. *)
Definition filelocks_Execute `{FileSystem} `{GoSort} (range_holders : gmap Z Z → list (Z * Z)) (canceled : bool) : outcome (bool * Data) :=
  if canceled then Err (Errorf "cancelled: ")
  else
    match ReadFile [go "/proc"; go "locks"] with
    | inr err => Err (Wrapf "failed to read %s: %v" err)
    | inl raw => let data := buildData range_holders (parseLocks raw) in Ret (bool_decide (ld_WarningReasons data ≠ []), data)
    end.

(** ** Lemmas *)

Section lemmas.
Context `{FileSystem}.

Definition blocked (entries : list LockEntry) : list LockEntry := filter (λ e, le_Blocked e = true) entries.
Definition held (entries : list LockEntry) : list LockEntry := filter (λ e, le_Blocked e = false) entries.

Definition of_type (type : gostring) (entries : list LockEntry) : Z := Z.of_nat (length (filter (λ e, le_Type e = type) entries)).
Definition of_mode (mode : gostring) (entries : list LockEntry) : Z := Z.of_nat (length (filter (λ e, le_Mode e = mode) entries)).
Definition of_pid (pid : Z) (entries : list LockEntry) : Z := Z.of_nat (length (filter (λ e, le_PID e = pid) entries)).

Definition waiter_of (e : LockEntry) : Waiter := MkWaiter (le_PID e) (resolveComm (le_PID e)) (le_Type e) (le_Mode e).

(** One more entry in a class, or not. *)
Lemma count_snoc (P : LockEntry → Prop) `{∀ e, Decision (P e)} l e :
  Z.of_nat (length (filter P (l ++ [e]))) = Z.of_nat (length (filter P l)) + if decide (P e) then 1 else 0.
Proof. rewrite filter_app, filter_cons, length_app. case_decide; simpl; lia. Qed.

Lemma count_type_snoc l e :
  count_type (MkByType (of_type (go "POSIX") l) (of_type (go "FLOCK") l) (of_type (go "OFDLCK") l) (of_type (go "LEASE") l)) (le_Type e) =
  MkByType (of_type (go "POSIX") (l ++ [e])) (of_type (go "FLOCK") (l ++ [e])) (of_type (go "OFDLCK") (l ++ [e])) (of_type (go "LEASE") (l ++ [e])).
Proof.
  unfold of_type. rewrite !count_snoc. unfold count_type.
  assert (go "POSIX" ≠ go "FLOCK" ∧ go "POSIX" ≠ go "OFDLCK" ∧ go "POSIX" ≠ go "LEASE" ∧ go "FLOCK" ≠ go "OFDLCK" ∧
    go "FLOCK" ≠ go "LEASE" ∧ go "OFDLCK" ≠ go "LEASE") as (? & ? & ? & ? & ? & ?) by (split_and!; by_decide).
  repeat case_decide; try (f_equal; lia); congruence.
Qed.

Lemma count_mode_snoc l e :
  count_mode (MkByMode (of_mode (go "READ") l) (of_mode (go "WRITE") l)) (le_Mode e) =
  MkByMode (of_mode (go "READ") (l ++ [e])) (of_mode (go "WRITE") (l ++ [e])).
Proof.
  unfold of_mode. rewrite !count_snoc. unfold count_mode. assert (go "READ" ≠ go "WRITE") by by_decide.
  repeat case_decide; try (f_equal; lia); congruence.
Qed.

(** The state of the loop after some entries. *)
Record tally_ok (entries : list LockEntry) (t : tally) : Prop := {
  ok_count : bw_Count (ta_waiting t) = Z.of_nat (length (blocked entries));
  ok_waiters : bw_Waiters (ta_waiting t) = take waitersListLimit (map waiter_of (blocked entries));
  ok_total : ta_total t = Z.of_nat (length (held entries));
  ok_type : ta_type t = MkByType (of_type (go "POSIX") (held entries)) (of_type (go "FLOCK") (held entries))
                                 (of_type (go "OFDLCK") (held entries)) (of_type (go "LEASE") (held entries));
  ok_mode : ta_mode t = MkByMode (of_mode (go "READ") (held entries)) (of_mode (go "WRITE") (held entries));
  ok_holders : ∀ pid, ta_holders t !! pid = if decide (0 < of_pid pid (held entries)) then Some (of_pid pid (held entries)) else None
}.

Lemma count_lock_ok entries t e : tally_ok entries t → tally_ok (entries ++ [e]) (count_lock t e).
Proof.
  intros [Hc Hw Ht Hty Hmo Hh]. unfold count_lock.
  assert (blocked (entries ++ [e]) = blocked entries ++ if le_Blocked e then [e] else []) as Hb
    by (unfold blocked; rewrite filter_snoc; destruct (le_Blocked e); simpl; by rewrite ?app_nil_r).
  assert (held (entries ++ [e]) = held entries ++ if le_Blocked e then [] else [e]) as Hd
    by (unfold held; rewrite filter_snoc; destruct (le_Blocked e); simpl; by rewrite ?app_nil_r).
  destruct (le_Blocked e).
  - destruct (ta_waiting t) as [count waiters] eqn:Hwt. simpl in Hc, Hw. rewrite app_nil_r in Hd.
    split; rewrite ?Hb, ?Hd; simpl; try done.
    + rewrite length_app. simpl. lia.
    + rewrite map_app. simpl. subst waiters. rewrite length_take, length_map. set (n := length (blocked entries)).
      destruct (Nat.ltb_spec (waitersListLimit `min` n) waitersListLimit).
      * rewrite !take_ge; [done| |rewrite length_map; lia]. rewrite length_app, length_map. simpl. lia.
      * by rewrite take_app_le by (rewrite length_map; lia).
  - rewrite app_nil_r in Hb. split; rewrite ?Hb, ?Hd; simpl; try done.
    + rewrite length_app. simpl. lia.
    + rewrite Hty. apply count_type_snoc.
    + rewrite Hmo. apply count_mode_snoc.
    + intros pid. rewrite lookup_insert. unfold of_pid. rewrite count_snoc. fold (of_pid pid (held entries)). destruct (decide (le_PID e = pid)) as [<-|Hne].
      * rewrite Hh. assert (0 ≤ of_pid (le_PID e) (held entries)) by (unfold of_pid; lia). repeat case_decide; simpl; try lia; f_equal; lia.
      * rewrite Z.add_0_r. apply Hh.
Qed.

Lemma tally_spec entries : tally_ok entries (foldl count_lock no_locks entries).
Proof.
  induction entries as [|e entries IH] using rev_ind; [by split|]. rewrite foldl_app. by apply count_lock_ok.
Qed.

End lemmas.

(** A line of the kernel's table. *)
Record lock_line := MkLockLine {
  ll_id : gostring; ll_blocked : bool; ll_type : gostring; ll_kind : gostring; ll_mode : gostring; ll_pid : Z;
  ll_inode : gostring; ll_start : gostring; ll_end : gostring
}.

Definition lock_fields (l : lock_line) : list gostring :=
  ll_id l :: (if ll_blocked l then [go "->"] else []) ++
  [ll_type l; ll_kind l; ll_mode l; strconv_Itoa (ll_pid l); ll_inode l; ll_start l; ll_end l].

Definition good_lock_line (l : lock_line) : Prop := word_line (lock_fields l) ∧ ll_type l ≠ go "->" ∧ in_i64 (ll_pid l).

Lemma of_pid_pos pid l : 0 < of_pid pid l ↔ ∃ e, e ∈ l ∧ le_PID e = pid.
Proof.
  unfold of_pid. split.
  - intros Hlt. destruct (filter _ l) as [|e l'] eqn:E; [simpl in Hlt; lia|]. exists e.
    assert (e ∈ filter (λ e, le_PID e = pid) l) as [??]%list_elem_of_filter by (rewrite E; left). done.
  - intros (e & He & Hp). assert (e ∈ filter (λ e, le_PID e = pid) l) as Hin by (by apply list_elem_of_filter).
    destruct (filter _ l); [by apply elem_of_nil in Hin|simpl; lia].
Qed.

(** ** Properties *)

(** Every line of the table gives its lock, held or waited for. *)
Theorem parseLocks_roundtrip (ls : list lock_line) (Hgood : Forall good_lock_line ls) :
  parseLocks (print_lines (map lock_fields ls)) = map (λ l, MkLockEntry (ll_type l) (ll_mode l) (ll_pid l) (ll_blocked l)) ls.
Proof.
  unfold parseLocks. rewrite split_words; [|apply Forall_map; eapply Forall_impl; [exact Hgood|by intros l []]|by vm_compute].
  induction Hgood as [|l ls (Hw & Ht & Hp) _ IH]; [done|]. cbn [map omap list_omap]. rewrite IH.
  unfold parseLockLine. destruct (word_line_text _ Hw) as (_ & -> & ->). unfold lock_fields. destruct (ll_blocked l).
  - cbn -[go ParseInt strconv_Itoa bool_decide]. rewrite bool_decide_true by done. cbn -[go ParseInt strconv_Itoa]. by rewrite ParseInt_Itoa.
  - cbn -[go ParseInt strconv_Itoa bool_decide]. rewrite bool_decide_false by done. cbn -[go ParseInt strconv_Itoa]. by rewrite ParseInt_Itoa.
Qed.

(** The report. Held and blocked locks are counted apart, held ones by type and mode;
    the first fifteen blocked processes are listed, and up to fifteen holders, the ones
    with the most locks, each with its count; it warns exactly if a process is blocked. *)
Theorem locks_report `{FileSystem} `{GoSort} (range_holders : gmap Z Z → list (Z * Z))
  (Hrange : ∀ m, range_holders m ≡ₚ map_to_list m) (entries : list LockEntry) :
  let data := buildData range_holders entries in
  (ld_TotalLocks data = Z.of_nat (length (held entries)) ∧
   ld_ByType data = MkByType (of_type (go "POSIX") (held entries)) (of_type (go "FLOCK") (held entries))
                             (of_type (go "OFDLCK") (held entries)) (of_type (go "LEASE") (held entries)) ∧
   ld_ByMode data = MkByMode (of_mode (go "READ") (held entries)) (of_mode (go "WRITE") (held entries))) ∧
  (bw_Count (ld_BlockedWaiters data) = Z.of_nat (length (blocked entries)) ∧
   bw_Waiters (ld_BlockedWaiters data) = take 15 (map waiter_of (blocked entries)) ∧
   (ld_WarningReasons data ≠ [] ↔ ∃ e, e ∈ entries ∧ le_Blocked e = true)) ∧
  ∃ shown others, ld_TopHolders data = map (λ pid, MkHolder pid (resolveComm pid) (of_pid pid (held entries))) shown ∧
    NoDup (shown ++ others) ∧ (∀ pid, pid ∈ shown ++ others ↔ ∃ e, e ∈ held entries ∧ le_PID e = pid) ∧
    (length shown = 15%nat ∨ others = []) ∧
    StronglySorted (λ p q, of_pid q (held entries) ≤ of_pid p (held entries)) shown ∧
    ∀ p q, p ∈ shown → q ∈ others → of_pid q (held entries) ≤ of_pid p (held entries).
Proof.
  cbn zeta. unfold buildData. destruct (tally_spec entries) as [Hc Hw Ht Hty Hmo Hh]. set (t := foldl _ _ _) in *.
  cbn [ld_TotalLocks ld_ByType ld_ByMode ld_BlockedWaiters ld_WarningReasons ld_TopHolders].
  split_and!; [done|done|done|done|done| |].
  - rewrite Hc. destruct (Z.ltb_spec 0 (Z.of_nat (length (blocked entries)))) as [Hlt|Hge]; (split; [|done || intros Hex]).
    + intros _. destruct (blocked entries) as [|e l] eqn:E; [simpl in Hlt; lia|]. exists e.
      assert (e ∈ blocked entries) as [??]%list_elem_of_filter by (rewrite E; left). done.
    + done.
    + intros _. destruct Hex as (e & He & Hb). assert (e ∈ blocked entries) as Hin by (by apply list_elem_of_filter).
      destruct (blocked entries); [by apply elem_of_nil in Hin|simpl in Hge; lia].
  - destruct (take_larger snd (λ a b, fst a <? fst b) (range_holders (ta_holders t)) topHoldersLimit) as (others & Hperm & Hlen & Hsorted & Hle);
      [apply ltb_strict_weak|]. fold holder_less in *. set (shown := take topHoldersLimit _) in *.
    assert (∀ h, h ∈ shown ++ others → h.2 = of_pid h.1 (held entries) ∧ 0 < of_pid h.1 (held entries)) as Hcount.
    { intros [pid n] Hin. rewrite Hperm, Hrange, elem_of_map_to_list, Hh in Hin. simpl. case_decide; [|done]. by injection Hin as <-. }
    exists (map fst shown), (map fst others). rewrite <-map_app. split_and!.
    + rewrite map_map. apply map_ext_Forall, Forall_forall. intros h Hin. destruct (Hcount h) as [<- _]; [set_solver|done].
    + change (NoDup ((shown ++ others).*1)). rewrite Hperm, Hrange. apply NoDup_fst_map_to_list.
    + intros pid. rewrite list_elem_of_fmap. split.
      * intros (h & -> & Hin). destruct (Hcount h Hin) as [_ Hpos]. by apply of_pid_pos.
      * intros Hex%of_pid_pos. exists (pid, of_pid pid (held entries)). split; [done|]. rewrite Hperm, Hrange, elem_of_map_to_list, Hh. by rewrite decide_True.
    + rewrite length_map. destruct Hlen as [?| ->]; [by left|by right].
    + apply StronglySorted_map. eapply StronglySorted_in; [|exact Hsorted]. intros a b Ha Hb.
      rewrite <-(proj1 (Hcount a ltac:(set_solver))), <-(proj1 (Hcount b ltac:(set_solver))). done.
    + intros p q (a & -> & Ha)%list_elem_of_fmap (b & -> & Hb)%list_elem_of_fmap.
      rewrite <-(proj1 (Hcount a ltac:(set_solver))), <-(proj1 (Hcount b ltac:(set_solver))). by apply Hle.
Qed.

(** ** Witnesses *)

Definition lock_lines : list lock_line :=
  [MkLockLine (go "1:") false (go "POSIX") (go "ADVISORY") (go "WRITE") 1234 (go "08:01:12345") (go "0") (go "EOF");
   MkLockLine (go "1:") true (go "POSIX") (go "ADVISORY") (go "WRITE") 5678 (go "08:01:12345") (go "0") (go "EOF");
   MkLockLine (go "2:") false (go "OFDLCK") (go "ADVISORY") (go "READ") (-1) (go "08:01:99") (go "0") (go "EOF")].

Definition lock_entries : list LockEntry :=
  [MkLockEntry (go "POSIX") (go "WRITE") 1234 false; MkLockEntry (go "POSIX") (go "WRITE") 5678 true; MkLockEntry (go "OFDLCK") (go "READ") (-1) false].

Lemma parseLocks_roundtrip_witness : parseLocks (print_lines (map lock_fields lock_lines)) = lock_entries.
Proof.
  apply (parseLocks_roundtrip lock_lines).
  repeat (apply Forall_cons_2; [split; [by_decide|split; [by_decide|split; by vm_compute]]|]). apply Forall_nil_2.
Defined.

Lemma locks_report_witness :
  let data := @buildData (mem_fs [] [] []) insertion_GoSort map_to_list lock_entries in
  ld_TotalLocks data = 2 ∧ bw_Waiters (ld_BlockedWaiters data) = [MkWaiter 5678 (go "unknown") (go "POSIX") (go "WRITE")] ∧ ld_WarningReasons data ≠ [].
Proof.
  destruct (@locks_report (mem_fs [] [] []) insertion_GoSort map_to_list (λ m, reflexivity _) lock_entries) as ((Ht & _) & (_ & Hw & Hr) & _).
  split; [rewrite Ht; reflexivity|split; [rewrite Hw; by vm_compute|]].
  apply Hr. eexists. split; [right; left|reflexivity].
Defined.
