(* ===== verification/Oom.v ===== *)
(** * OOM kills: the tool query_oom_events

    registry/tools/oomevents/oomevents.go: the records of the kernel's log that tell
    of a kill, the two records of one kill put together, and the newest events.

    [strconv.ParseFloat], the printing of times, and what the kernel's log holds are
    parameters. *)

From Stdlib Require Import Ascii.
From stdpp Require Import base numbers gmap strings sorting list.
From S2P Require Import Prelude GoStrings GoFloat GoNet GoOs Process.

Open Scope Z_scope.

Definition defaultLastN : Z := 10.
Definition maxLastN : Z := 50.

(** ** Data *)

Record OOMEvent := MkOOMEvent {
  ev_Time : option gostring; ev_VictimPID : Z; ev_VictimComm : gostring;
  ev_TotalVMMB : float64; ev_AnonRSSMB : float64; ev_FileRSSMB : float64; ev_ShmemRSSMB : float64;
  ev_Constraint : gostring; ev_Memcg : gostring; ev_Scope : gostring
}.

Record killedRecord := MkKilled {
  kr_pid : Z; kr_comm : gostring; kr_totalVMKB : Z; kr_anonRSSKB : Z; kr_fileRSSKB : Z; kr_shmemRSSKB : Z; kr_cgroupScope : bool
}.

Record oomKillRecord := MkOomKill { ok_constraint : gostring; ok_oomMemcg : gostring; ok_taskMemcg : gostring; ok_task : gostring; ok_pid : Z }.

Definition kbToMB (kb : Z) : float64 := f64_div (math_Round (f64_mul (f64_div (f64_of_Z kb) (f64_of_Z 1024)) (f64_of_Z 10))) (f64_of_Z 10).

(** ** Lines *)

Definition killedGlobalPrefix : gostring := go "Out of memory: Killed process ".
Definition killedCgroupPrefix : gostring := go "Memory cgroup out of memory: Killed process ".

Definition size_field (rec : killedRecord) (field : gostring) : killedRecord :=
  match strings_Cut (strings_TrimSuffix field (go ",")) ":"%char with
  | None => rec
  | Some (key, text) =>
      match ParseInt (strings_TrimSuffix text (go "kB")) with
      | (val, None) =>
          let '(MkKilled pid comm vm anon file shmem cg) := rec in
          if decide (key = go "total-vm") then MkKilled pid comm val anon file shmem cg
          else if decide (key = go "anon-rss") then MkKilled pid comm vm val file shmem cg
          else if decide (key = go "file-rss") then MkKilled pid comm vm anon val shmem cg
          else if decide (key = go "shmem-rss") then MkKilled pid comm vm anon file val cg
          else rec
      | _ => rec
      end
  end.

Definition parseKilledLine (msg : gostring) : option killedRecord :=
  '(msg, cgroupScope) ←
    (if strings_HasPrefix msg killedGlobalPrefix then Some (drop (length killedGlobalPrefix) msg, false)
     else if strings_HasPrefix msg killedCgroupPrefix then Some (drop (length killedCgroupPrefix) msg, true)
     else None);
  sp ← strings_IndexByte msg " "%char;
  if decide (sp = 0%nat) then None
  else
    match strconv_Atoi (take sp msg) with
    | Ret pid =>
        let rest := drop (S sp) msg in
        if negb (strings_HasPrefix rest (go "(")) then None
        else
          end_ ← match strings_Index rest (go ") total-vm:") with Some i => Some i | None => LastIndexByte rest ")"%char end;
          if decide (end_ = 0%nat) then None
          else
            Some (foldl size_field (MkKilled pid (take (end_ - 1) (drop 1 rest)) 0 0 0 0 cgroupScope)
                    (strings_Fields (drop (S end_) rest)))
    | _ => None
    end.

Definition context_field (rec : oomKillRecord) (part : gostring) : oomKillRecord :=
  match strings_Cut part "="%char with
  | None => rec
  | Some (key, val) =>
      let '(MkOomKill constraint oomMemcg taskMemcg task pid) := rec in
      if decide (key = go "constraint") then MkOomKill val oomMemcg taskMemcg task pid
      else if decide (key = go "oom_memcg") then MkOomKill constraint val taskMemcg task pid
      else if decide (key = go "task_memcg") then MkOomKill constraint oomMemcg val task pid
      else if decide (key = go "task") then MkOomKill constraint oomMemcg taskMemcg val pid
      else if decide (key = go "pid") then MkOomKill constraint oomMemcg taskMemcg task (int_of val)
      else rec
  end.

Definition oomKillPrefix : gostring := go "oom-kill:".

Definition parseOOMKillLine (msg : gostring) : option oomKillRecord :=
  if strings_HasPrefix msg oomKillPrefix
  then Some (foldl context_field (MkOomKill [] [] [] [] 0) (strings_Split (drop (length oomKillPrefix) msg) ","%char))
  else None.

Section parse.
Context (ParseFloat : gostring → outcome float64) (rfc3339 : Z → gostring).

Definition parseLinePrefix (line : gostring) : option float64 * gostring :=
  let msg := strings_TrimSpace line in
  let msg :=
    if strings_HasPrefix msg (go "<") then
      match strings_IndexByte msg ">"%char with
      | Some idx =>
          if (0 <? idx)%nat && (idx <=? 4)%nat
          then match strconv_Atoi (take (idx - 1) (drop 1 msg)) with Ret _ => strings_TrimSpace (drop (S idx) msg) | _ => msg end
          else msg
      | None => msg
      end
    else msg in
  if strings_HasPrefix msg (go "[") then
    match strings_IndexByte msg "]"%char with
    | Some idx =>
        if (0 <? idx)%nat
        then match ParseFloat (strings_TrimSpace (take (idx - 1) (drop 1 msg))) with
             | Ret ts => (Some ts, strings_TrimSpace (drop (S idx) msg))
             | _ => (None, msg)
             end
        else (None, msg)
    | None => (None, msg)
    end
  else (None, msg).

(** [time.Duration(x)]: towards zero; what does not fit gives the least number, as it
    does on amd64. *)
Definition Duration_of (x : float64) : Z :=
  match x with
  | S754_zero _ => 0
  | S754_finite s m e =>
      let v := if 0 <=? e then Z.shiftl (Z.pos m) e else Z.shiftr (Z.pos m) (- e) in
      let v := if s then - v else v in
      if (MinInt64 <=? v) && (v <=? MaxInt64) then v else MinInt64
  | _ => MinInt64
  end.

Definition offsetToRFC3339 (btime : Z) (offset : float64) : gostring :=
  rfc3339 (btime * second + Duration_of (f64_mul offset (f64_of_Z second))).

Definition timeOf (btime : option Z) (offset : option float64) : option gostring :=
  match offset, btime with Some offset, Some btime => Some (offsetToRFC3339 btime offset) | _, _ => None end.

(** ** Events *)

Definition memcg_of (c : oomKillRecord) : gostring := match ok_oomMemcg c with [] => ok_taskMemcg c | m => m end.

Definition scope_of (cgroup : bool) : gostring := if cgroup then go "cgroup" else go "global".

Definition is_memcg (c : oomKillRecord) : bool := bool_decide (ok_constraint c = go "CONSTRAINT_MEMCG").

Definition context_event (btime : option Z) (offset : option float64) (c : oomKillRecord) : OOMEvent :=
  MkOOMEvent (timeOf btime offset) (ok_pid c) (ok_task c) (f64_of_Z 0) (f64_of_Z 0) (f64_of_Z 0) (f64_of_Z 0)
    (ok_constraint c) (memcg_of c) (scope_of (is_memcg c)).

(** The event of a kill, with its context if it has one. *)
Definition kill_event (btime : option Z) (offset : option float64) (k : killedRecord) (context : option oomKillRecord) : OOMEvent :=
  MkOOMEvent (timeOf btime offset) (kr_pid k) (kr_comm k)
    (kbToMB (kr_totalVMKB k)) (kbToMB (kr_anonRSSKB k)) (kbToMB (kr_fileRSSKB k)) (kbToMB (kr_shmemRSSKB k))
    (match context with Some c => ok_constraint c | None => [] end)
    (match context with Some c => memcg_of c | None => [] end)
    (scope_of (kr_cgroupScope k || match context with Some c => is_memcg c | None => false end)).

(** The loop's state: the events, and a context that waits for its kill. *)
Definition oom_state : Type := list OOMEvent * option (oomKillRecord * option float64).

Definition flushPending (btime : option Z) (st : oom_state) : oom_state :=
  let '(events, pending) := st in
  match pending with None => (events, None) | Some (c, offset) => (events ++ [context_event btime offset c], None) end.

Definition oom_step (btime : option Z) (st : oom_state) (line : gostring) : oom_state :=
  let '(offset, msg) := parseLinePrefix (strings_TrimSpace line) in
  match msg with
  | [] => st
  | _ =>
      match parseOOMKillLine msg with
      | Some kill => ((flushPending btime st).1, Some (kill, offset))
      | None =>
          match parseKilledLine msg with
          | None => st
          | Some killed =>
              match st with
              | (events, Some (c, _)) =>
                  if decide (ok_pid c = kr_pid killed) then (events ++ [kill_event btime offset killed (Some c)], None)
                  else ((flushPending btime st).1 ++ [kill_event btime offset killed None], None)
              | (events, None) => (events ++ [kill_event btime offset killed None], None)
              end
          end
      end
  end.

Definition parseOOMEvents (raw : gostring) (btime : option Z) : list OOMEvent :=
  (flushPending btime (foldl (oom_step btime) ([], None) (strings_Split raw newline))).1.

(** ** The tool *)

(** The first line that says btime decides. *)
Fixpoint btime_of (lines : list gostring) : option Z :=
  match lines with
  | [] => None
  | line :: lines =>
      if strings_HasPrefix line (go "btime ")
      then match ParseInt (strings_TrimSpace (drop (length (go "btime ")) line)) with (v, None) => Some v | _ => None end
      else btime_of lines
  end.

Definition readBtime `{FileSystem} : option Z :=
  match ReadFile [go "/proc"; go "stat"] with inr _ => None | inl data => btime_of (strings_Split data newline) end.

Record Output := MkOutput { oo_Events : list OOMEvent; oo_TotalFound : Z; oo_CountByComm : gmap gostring Z }.

Definition count_comm (counts : gmap gostring Z) (ev : OOMEvent) : gmap gostring Z :=
  <[ev_VictimComm ev := default 0 (counts !! ev_VictimComm ev) + 1]> counts.

Definition clamp_last (n : Z) : Z :=
  let n := if n <=? 0 then defaultLastN else n in if maxLastN <? n then maxLastN else n.

(** [lastN] is the number the arguments give, [klog] and [dmesg] what the two ways to
    read the log give. The flag tells whether the result is a warning. *)
Definition oom_Execute `{FileSystem} (canceled : bool) (lastN : outcome Z) (klog dmesg : outcome gostring) : outcome (bool * Output) :=
  if canceled then Err (Errorf "context canceled before execution: %v")
  else
    match lastN with
    | Ret n =>
        buf ← match klog with
              | Ret ((_ :: _) as buf) => Ret buf
              | _ => match dmesg with Ret out => Ret out | _ => Err (Errorf "failed to read kernel ring buffer (klogctl: %v; dmesg: %v)") end
              end;
        let all := parseOOMEvents buf readBtime in
        Ret (bool_decide (all ≠ []),
             MkOutput (take (Z.to_nat (clamp_last n)) (reverse all)) (Z.of_nat (length all)) (foldl count_comm ∅ all))
    | _ => Err (Errorf "invalid arguments: %v")
    end.

End parse.

(** ** Lemmas *)

Lemma Index_first (s rest : gostring) (c : ascii) (tl : gostring) :
  c ∉ tl → strings_Index s (c :: tl) = None → strings_Index (s ++ (c :: tl) ++ rest) (c :: tl) = Some (length s).
Proof.
  intros Hc. set (sep := c :: tl). assert (∀ l, strings_HasPrefix (sep ++ l) sep = true) as Hself by (intros l; apply strings_HasPrefix_spec; by exists l).
  induction s as [|x s IH]; intros Hs.
  - simpl. specialize (Hself rest). unfold sep in *. simpl in *. by rewrite Hself.
  - cbn [app strings_Index] in *. destruct (strings_HasPrefix (x :: s) sep) eqn:Hp; [done|].
    destruct (strings_HasPrefix (x :: s ++ sep ++ rest) sep) eqn:Hp'.
    + exfalso. apply strings_HasPrefix_spec in Hp'.
      destruct (prefix_weak_total sep (x :: s) (x :: s ++ sep ++ rest) Hp') as [H|[k Hk]]; [by exists (sep ++ rest)|by apply strings_HasPrefix_spec in H; rewrite H in Hp|].
      destruct Hp' as [k2 Hk2]. rewrite Hk in Hk2 at 2. change (x :: s ++ sep ++ rest) with ((x :: s) ++ sep ++ rest) in Hk2.
      rewrite <-app_assoc in Hk2. apply app_inv_head in Hk2. destruct k as [|c' k].
      * rewrite app_nil_r in Hk. rewrite <-Hk in Hp. specialize (Hself []). rewrite app_nil_r in Hself. congruence.
      * injection Hk2 as <- _. injection Hk as <- Hk. apply Hc. rewrite Hk. set_solver.
    + destruct (strings_Index s sep); [done|]. by rewrite IH.
Qed.

(** A number of kB as the kernel prints it. *)
Definition size_text (key : gostring) (v : Z) : gostring := key ++ go ":" ++ udec v ++ go "kB,".

Lemma size_field_text rec key v : ":"%char ∉ key → 0 ≤ v ≤ MaxInt64 →
  size_field rec (size_text key v) =
  let '(MkKilled pid comm vm anon file shmem cg) := rec in
  if decide (key = go "total-vm") then MkKilled pid comm v anon file shmem cg
  else if decide (key = go "anon-rss") then MkKilled pid comm vm v file shmem cg
  else if decide (key = go "file-rss") then MkKilled pid comm vm anon v shmem cg
  else if decide (key = go "shmem-rss") then MkKilled pid comm vm anon file v cg
  else rec.
Proof.
  intros Hk Hv. unfold size_field, size_text.
  change (key ++ go ":" ++ udec v ++ go "kB,") with (key ++ ":"%char :: udec v ++ go "kB" ++ go ",").
  assert (key ++ ":"%char :: udec v ++ go "kB" ++ go "," = (key ++ ":"%char :: udec v ++ go "kB") ++ go ",") as -> by (by rewrite <-app_assoc; simpl; rewrite <-app_assoc).
  rewrite TrimSuffix_app, Cut_app, TrimSuffix_app by done. rewrite <-Itoa_digits by lia. by rewrite ParseInt_Itoa by i64_lia.
Qed.

(** What the kernel prints of a kill, with the fields it prints behind the sizes. *)
Definition killed_text (k : killedRecord) (tail : list gostring) : gostring :=
  (if kr_cgroupScope k then killedCgroupPrefix else killedGlobalPrefix) ++ strconv_Itoa (kr_pid k) ++ go " (" ++ kr_comm k ++ go ") " ++
  strings_Join ([size_text (go "total-vm") (kr_totalVMKB k); size_text (go "anon-rss") (kr_anonRSSKB k);
                 size_text (go "file-rss") (kr_fileRSSKB k); size_text (go "shmem-rss") (kr_shmemRSSKB k)] ++ tail) (go " ").

(** The fields behind are words, and none is another size. *)
Definition other_field (f : gostring) : Prop :=
  word f ∧ match strings_Cut (strings_TrimSuffix f (go ",")) ":"%char with
           | Some (key, _) => key ∉ [go "total-vm"; go "anon-rss"; go "file-rss"; go "shmem-rss"]
           | None => True
           end.

#[export] Instance other_field_dec f : Decision (other_field f).
Proof. unfold other_field. apply and_dec; [apply _|]. destruct (strings_Cut _ _) as [[key text]|]; apply _. Defined.

Definition good_killed (k : killedRecord) : Prop :=
  0 ≤ kr_pid k ≤ MaxInt64 ∧ 0 ≤ kr_totalVMKB k ≤ MaxInt64 ∧ 0 ≤ kr_anonRSSKB k ≤ MaxInt64 ∧
  0 ≤ kr_fileRSSKB k ≤ MaxInt64 ∧ 0 ≤ kr_shmemRSSKB k ≤ MaxInt64 ∧ strings_Index (kr_comm k) (go ") total-vm:") = None.

Lemma size_field_other rec f : other_field f → size_field rec f = rec.
Proof.
  intros [_ Hf]. unfold size_field. destruct (strings_Cut _ _) as [[key text]|]; [|done].
  destruct (ParseInt _) as [v [|]]; [done|]. destruct rec. rewrite !not_elem_of_cons in Hf. destruct Hf as (? & ? & ? & ? & _).
  by rewrite !decide_False by done.
Qed.

Lemma size_fields_other rec fs : Forall other_field fs → foldl size_field rec fs = rec.
Proof. intros Hfs. revert rec. induction Hfs as [|f fs Hf _ IH]; intros rec; [done|]. simpl. by rewrite size_field_other. Qed.

Lemma word_size_text key v : Forall (λ c, solid c = true) key → 0 ≤ v → word (size_text key v).
Proof.
  intros Hk Hv. unfold size_text. split; [destruct key; done|]. destruct (word_udec v Hv) as [_ Hu].
  rewrite !Forall_app. split_and!; [done|by repeat constructor|done|by repeat constructor].
Qed.

Lemma parseKilledLine_text k tail : good_killed k → Forall other_field tail → parseKilledLine (killed_text k tail) = Some k.
Proof.
  intros (Hpid & Hvm & Hanon & Hfile & Hshmem & Hcomm) Htail. unfold parseKilledLine, killed_text.
  set (fields := [_; _; _; _] ++ tail). set (rest := strings_Join fields (go " ")).
  set (prefix := if kr_cgroupScope k then killedCgroupPrefix else killedGlobalPrefix).
  set (msg := strconv_Itoa (kr_pid k) ++ go " (" ++ kr_comm k ++ go ") " ++ rest).
  assert ((if strings_HasPrefix (prefix ++ msg) killedGlobalPrefix then Some (drop (length killedGlobalPrefix) (prefix ++ msg), false)
     else if strings_HasPrefix (prefix ++ msg) killedCgroupPrefix then Some (drop (length killedCgroupPrefix) (prefix ++ msg), true)
     else None) = Some (msg, kr_cgroupScope k)) as ->.
  { unfold prefix. destruct (kr_cgroupScope k).
    - rewrite (proj2 (strings_HasPrefix_spec _ killedCgroupPrefix)) by (by exists msg). rewrite drop_app_length.
      assert (strings_HasPrefix (killedCgroupPrefix ++ msg) killedGlobalPrefix = false) as ->; [|done].
      apply not_true_iff_false. rewrite strings_HasPrefix_spec. intros [x Hx]. discriminate Hx.
    - rewrite (proj2 (strings_HasPrefix_spec _ killedGlobalPrefix)) by (by exists msg). by rewrite drop_app_length. }
  cbn [mbind option_bind]. unfold msg. change (go " (" ++ kr_comm k ++ go ") " ++ rest) with (" "%char :: go "(" ++ kr_comm k ++ go ") " ++ rest).
  rewrite IndexByte_app by (apply Itoa_not_in; done). cbn [mbind option_bind].
  destruct (word_Itoa (kr_pid k)) as [Hne _]. rewrite decide_False by (destruct (strconv_Itoa (kr_pid k)); done).
  rewrite take_app_length, Atoi_Itoa by done.
  assert (∀ l, drop (S (length (strconv_Itoa (kr_pid k)))) (strconv_Itoa (kr_pid k) ++ " "%char :: l) = l) as ->.
  { intros l. rewrite drop_app_ge by lia. by replace (S _ - _)%nat with 1%nat by lia. }
  assert (strings_HasPrefix (go "(" ++ kr_comm k ++ go ") " ++ rest) (go "(") = true) as -> by (apply strings_HasPrefix_spec; by eexists).
  cbn [negb].
  assert (∃ r', rest = go "total-vm:" ++ r') as [r' Hr'].
  { unfold rest, fields. cbn [strings_Join app]. unfold size_text at 1. destruct tail; eexists; rewrite <-!app_assoc; reflexivity. }
  assert (strings_Index (go "(" ++ kr_comm k ++ go ") " ++ rest) (go ") total-vm:") = Some (S (length (kr_comm k)))) as ->.
  { rewrite Hr'. pose proof (Index_first (go "(" ++ kr_comm k) r' ")"%char (go " total-vm:")) as Hi. rewrite <-app_assoc in Hi. apply Hi; [by_decide|].
    change (go "(" ++ kr_comm k) with ("("%char :: kr_comm k). cbn [strings_Index]. change (")"%char :: go " total-vm:") with (go ") total-vm:"). rewrite Hcomm.
    assert (strings_HasPrefix ("("%char :: kr_comm k) (go ") total-vm:") = false) as ->; [|done].
    apply not_true_iff_false. rewrite strings_HasPrefix_spec. intros [x Hx]. discriminate Hx. }
  cbn [mbind option_bind]. rewrite decide_False by done. cbn [Nat.sub]. rewrite Nat.sub_0_r. change (drop 1 (go "(" ++ ?l)) with l.
  rewrite take_app_length.
  assert (drop (S (S (length (kr_comm k)))) (go "(" ++ kr_comm k ++ go ") " ++ rest) = " "%char :: rest) as ->.
  { change (go "(" ++ ?l) with ("("%char :: l). cbn [drop]. rewrite drop_app_ge by lia. by replace (S _ - _)%nat with 1%nat by lia. }
  assert (Forall word fields) as Hwords.
  { unfold fields. rewrite Forall_app. split; [repeat (apply Forall_cons_2; [apply word_size_text; [by repeat constructor|lia]|]); apply Forall_nil_2|].
    eapply Forall_impl; [exact Htail|by intros ? []]. }
  assert (strings_Fields (" "%char :: rest) = fields) as -> by (rewrite Fields_space; by apply Fields_Join).
  unfold fields. rewrite foldl_app, size_fields_other by done. cbn [foldl].
  rewrite !size_field_text by (done || by_decide). by destruct k.
Qed.

(** The context of a kill as the kernel prints it: key and value pairs, and parts that
    are no pair, such as global_oom. *)
Definition pair_text (p : gostring * option gostring) : gostring := match p with (key, Some val) => key ++ go "=" ++ val | (word, None) => word end.

Definition context_text (parts : list (gostring * option gostring)) : gostring :=
  oomKillPrefix ++ strings_Join (map pair_text parts) (go ",").

(** No part holds a comma, and no key an equals sign. *)
Definition good_part (p : gostring * option gostring) : Prop :=
  ","%char ∉ pair_text p ∧ "="%char ∉ p.1.

(** The last value of a key. *)
Definition value_of (parts : list (gostring * option gostring)) (key : gostring) : gostring :=
  default [] (last (omap (λ p, if decide (p.1 = key) then p.2 else None) parts)).

Lemma parseOOMKillLine_fold parts : Forall good_part parts → parts ≠ [] →
  parseOOMKillLine (context_text parts) = Some (foldl context_field (MkOomKill [] [] [] [] 0) (map pair_text parts)).
Proof.
  intros Hp Hne. unfold parseOOMKillLine, context_text.
  rewrite (proj2 (strings_HasPrefix_spec _ _)) by (by eexists). rewrite drop_app_length. change (go ",") with [","%char]. rewrite strings_Split_Join; [done|by destruct parts|].
  apply Forall_map. eapply Forall_impl; [exact Hp|]. by intros p [? _].
Qed.

Lemma context_fields parts : Forall good_part parts →
  foldl context_field (MkOomKill [] [] [] [] 0) (map pair_text parts) =
  MkOomKill (value_of parts (go "constraint")) (value_of parts (go "oom_memcg")) (value_of parts (go "task_memcg"))
    (value_of parts (go "task")) (int_of (value_of parts (go "pid"))).
Proof.
  intros Hp. induction parts as [|[key val] parts IH] using rev_ind; [by vm_compute|].
  apply Forall_app in Hp as [Hp Hlast]. apply Forall_cons in Hlast as [[_ Hkey] _]. rewrite map_app, foldl_app, IH by done. cbn [map foldl].
  assert (∀ k, value_of (parts ++ [(key, val)]) k = if decide (key = k) then match val with Some v => v | None => value_of parts k end else value_of parts k) as Hval.
  { intros k. unfold value_of. rewrite omap_app. cbn [omap list_omap fst snd]. case_decide; [|by rewrite app_nil_r].
    destruct val; [by rewrite last_snoc|by rewrite app_nil_r]. }
  rewrite !Hval. unfold context_field. destruct val as [val|]; simpl in Hkey.
  - cbn [pair_text]. change (key ++ go "=" ++ val) with (key ++ "="%char :: val). rewrite Cut_app by done.
    assert (NoDup [go "constraint"; go "oom_memcg"; go "task_memcg"; go "task"; go "pid"]) as Hnd by by_decide.
    repeat (apply NoDup_cons in Hnd as [? Hnd]). rewrite !not_elem_of_cons in *. clear IH Hval. destruct_and!.
    repeat case_decide; try done; exfalso; congruence.
  - cbn [pair_text]. assert (strings_Cut key "="%char = None) as -> by (unfold strings_Cut; by rewrite (proj2 (IndexByte_None _ _))).
    by repeat case_decide.
Qed.

Section records.
Context (ParseFloat : gostring → outcome float64) (rfc3339 : Z → gostring).

(** The records the loop acts on, with the offset of their line. *)
Variant oom_record := RContext (offset : option float64) (c : oomKillRecord) | RKill (offset : option float64) (k : killedRecord).

Definition record_of (line : gostring) : option oom_record :=
  let '(offset, msg) := parseLinePrefix ParseFloat (strings_TrimSpace line) in
  match msg with
  | [] => None
  | _ => match parseOOMKillLine msg with Some c => Some (RContext offset c) | None => RKill offset <$> parseKilledLine msg end
  end.

(** The incidents of a list of records: a context and the kill of the same process right
    behind it are one; any other record is one by itself. *)
Inductive incidents (btime : option Z) : list oom_record → list OOMEvent → Prop :=
| inc_nil : incidents btime [] []
| inc_pair o c o' k rs es : ok_pid c = kr_pid k → incidents btime rs es →
    incidents btime (RContext o c :: RKill o' k :: rs) (kill_event rfc3339 btime o' k (Some c) :: es)
| inc_context o c rs es : (∀ o' k rs', rs = RKill o' k :: rs' → ok_pid c ≠ kr_pid k) → incidents btime rs es →
    incidents btime (RContext o c :: rs) (context_event rfc3339 btime o c :: es)
| inc_kill o k rs es : incidents btime rs es → incidents btime (RKill o k :: rs) (kill_event rfc3339 btime o k None :: es).

Lemma oom_step_record btime st line :
  oom_step ParseFloat rfc3339 btime st line =
  match record_of line with
  | None => st
  | Some (RContext o c) => ((flushPending rfc3339 btime st).1, Some (c, o))
  | Some (RKill o k) =>
      match st with
      | (events, Some (c, _)) =>
          if decide (ok_pid c = kr_pid k) then (events ++ [kill_event rfc3339 btime o k (Some c)], None)
          else ((flushPending rfc3339 btime st).1 ++ [kill_event rfc3339 btime o k None], None)
      | (events, None) => (events ++ [kill_event rfc3339 btime o k None], None)
      end
  end.
Proof.
  unfold oom_step, record_of. destruct (parseLinePrefix _ _) as [o [|x msg]]; [done|].
  destruct (parseOOMKillLine _); [done|]. destruct (parseKilledLine _); [|done]. destruct st as [events [[c o']|]]; done.
Qed.

Lemma events_incidents btime lines :
  (∀ events, ∃ es, incidents btime (omap record_of lines) es ∧
     (flushPending rfc3339 btime (foldl (oom_step ParseFloat rfc3339 btime) (events, None) lines)).1 = events ++ es) ∧
  (∀ events o c, ∃ es, incidents btime (RContext o c :: omap record_of lines) es ∧
     (flushPending rfc3339 btime (foldl (oom_step ParseFloat rfc3339 btime) (events, Some (c, o)) lines)).1 = events ++ es).
Proof.
  induction lines as [|line lines [IH1 IH2]]; split.
  - intros events. exists []. split; [constructor|]. by rewrite app_nil_r.
  - intros events o c. eexists. split; [apply inc_context; [done|constructor]|done].
  - intros events. cbn [foldl omap list_omap]. rewrite oom_step_record. destruct (record_of line) as [[o c|o k]|].
    + apply IH2.
    + destruct (IH1 (events ++ [kill_event rfc3339 btime o k None])) as (es & Hes & E). eexists. split; [by apply inc_kill|]. by rewrite E, <-app_assoc.
    + apply IH1.
  - intros events o c. cbn [foldl omap list_omap]. rewrite oom_step_record. destruct (record_of line) as [[o' c'|o' k]|].
    + cbn [flushPending fst]. destruct (IH2 (events ++ [context_event rfc3339 btime o c]) o' c') as (es & Hes & E).
      eexists. split; [apply inc_context; [done|exact Hes]|]. by rewrite E, <-app_assoc.
    + case_decide.
      * destruct (IH1 (events ++ [kill_event rfc3339 btime o' k (Some c)])) as (es & Hes & E). eexists. split; [by apply inc_pair|]. by rewrite E, <-app_assoc.
      * cbn [flushPending fst]. destruct (IH1 ((events ++ [context_event rfc3339 btime o c]) ++ [kill_event rfc3339 btime o' k None])) as (es & Hes & E).
        eexists. split; [|by rewrite E, <-!app_assoc]. apply inc_context; [|by apply inc_kill]. intros ? ? ? Heq. by injection Heq as _ <- _.
    + apply IH2.
Qed.

(** A line of the log. *)
Definition log_line (priority : Z) (stamp msg : gostring) : gostring :=
  go "<" ++ strconv_Itoa priority ++ go ">[" ++ stamp ++ go "] " ++ msg.

Lemma parseLinePrefix_line priority stamp msg ts :
  0 ≤ priority < 1000 → "]"%char ∉ stamp → ParseFloat (strings_TrimSpace stamp) = Ret ts →
  (∃ c t, msg = c :: t ∧ solid c = true) → (∃ u d, msg = u ++ [d] ∧ solid d = true) →
  parseLinePrefix ParseFloat (strings_TrimSpace (log_line priority stamp msg)) = (Some ts, msg).
Proof.
  intros Hpri Hstamp Hts (c & t & Hc & Hsc) (u & d & Hu & Hd).
  assert (strings_TrimSpace (" "%char :: msg) = msg) as Hmsg by (rewrite TrimSpace_space; by eapply TrimSpace_ends; eauto).
  set (inner := go "[" ++ stamp ++ go "] " ++ msg).
  assert (log_line priority stamp msg = go "<" ++ strconv_Itoa priority ++ go ">" ++ inner) as -> by done.
  assert (∀ s c t, s = c :: t → solid c = true → strings_TrimSpace (s ++ inner) = s ++ inner) as Htrim.
  { intros s c' t' -> Hc'. eapply TrimSpace_ends; [done| |exact Hc'|exact Hd]. unfold inner. rewrite Hu. eexists. rewrite !(assoc_L (++)). done. }
  assert (strings_TrimSpace (go "<" ++ strconv_Itoa priority ++ go ">" ++ inner) = go "<" ++ strconv_Itoa priority ++ go ">" ++ inner) as Hline.
  { rewrite !(assoc_L (++)). by eapply Htrim. }
  assert (strings_TrimSpace inner = inner) as Hinner.
  { change inner with (go "[" ++ (stamp ++ go "] " ++ msg)). eapply (TrimSpace_ends _ "["%char d); [done| |done|exact Hd].
    rewrite Hu. eexists. rewrite !(assoc_L (++)). done. }
  unfold parseLinePrefix. rewrite !Hline.
  assert (strings_HasPrefix (go "<" ++ strconv_Itoa priority ++ go ">" ++ inner) (go "<") = true) as -> by (apply strings_HasPrefix_spec; by eexists).
  change (go "<" ++ strconv_Itoa priority ++ go ">" ++ inner) with ("<"%char :: strconv_Itoa priority ++ ">"%char :: inner).
  rewrite app_comm_cons, IndexByte_app by (apply not_elem_of_cons; split; [done|by apply Itoa_not_in]).
  cbn [length]. rewrite (proj2 (Nat.ltb_lt _ _)) by lia.
  assert (length (strconv_Itoa priority) ≤ 3)%nat as Hlen.
  { rewrite Itoa_digits by lia. etrans; [apply (udec_length_mono priority 999); lia|]. by vm_compute. }
  rewrite (proj2 (Nat.leb_le _ _)) by lia. cbn [andb Nat.sub]. rewrite Nat.sub_0_r. cbn [app drop].
  rewrite drop_0, take_app_length, Atoi_Itoa by (unfold MaxInt64; lia).
  assert (∀ l, drop (S (length (strconv_Itoa priority))) (strconv_Itoa priority ++ ">"%char :: l) = l) as ->.
  { intros l. rewrite drop_app_ge by lia. by replace (S _ - _)%nat with 1%nat by lia. }
  rewrite Hinner. assert (strings_HasPrefix inner (go "[") = true) as -> by (apply strings_HasPrefix_spec; by eexists).
  unfold inner. change (go "[" ++ stamp ++ go "] " ++ msg) with (("["%char :: stamp) ++ "]"%char :: " "%char :: msg).
  rewrite IndexByte_app by (apply not_elem_of_cons; by split). cbn [length]. rewrite (proj2 (Nat.ltb_lt _ _)) by lia.
  cbn [Nat.sub app drop]. rewrite Nat.sub_0_r, drop_0, take_app_length, Hts.
  assert (drop (S (length stamp)) (stamp ++ "]"%char :: " "%char :: msg) = " "%char :: msg) as ->.
  { rewrite drop_app_ge by lia. by replace (S _ - _)%nat with 1%nat by lia. }
  by rewrite Hmsg.
Qed.

Lemma incidents_unique btime rs es es' : incidents btime rs es → incidents btime rs es' → es = es'.
Proof.
  intros Hes. revert es'. induction Hes as [|o c o' k rs es Hpid _ IH|o c rs es Hno _ IH|o k rs es _ IH]; intros es'; inversion 1; subst.
  - done.
  - f_equal. by apply IH.
  - exfalso. match goal with H : ∀ o' k rs', _ = RKill _ _ :: _ → _ |- _ => by eapply H end.
  - exfalso. by eapply Hno.
  - f_equal. by apply IH.
  - f_equal. by apply IH.
Qed.

Lemma killed_text_ends k tail : good_killed k → Forall other_field tail →
  (∃ c t, killed_text k tail = c :: t ∧ solid c = true) ∧ (∃ u d, killed_text k tail = u ++ [d] ∧ solid d = true) ∧
  parseOOMKillLine (killed_text k tail) = None.
Proof.
  intros (_ & ? & ? & ? & ? & _) Htail. unfold killed_text. set (fields := [_; _; _; _] ++ tail).
  assert (Forall word fields) as Hwords.
  { unfold fields. rewrite Forall_app. split; [repeat (apply Forall_cons_2; [apply word_size_text; [by repeat constructor|lia]|]); apply Forall_nil_2|].
    eapply Forall_impl; [exact Htail|by intros ? []]. }
  destruct (Join_ends fields) as (_ & d & s & Hd & Hsd & _); [done|exact Hwords|]. split_and!.
  - destruct (kr_cgroupScope k); by eexists _, _.
  - rewrite Hd. eexists _, d. split; [|exact Hsd]. by rewrite !(assoc_L (++)).
  - unfold parseOOMKillLine. destruct (strings_HasPrefix _ _) eqn:Hp; [|done]. apply strings_HasPrefix_spec in Hp as [x Hx].
    by destruct (kr_cgroupScope k).
Qed.

End records.

(** ** Properties *)

(** C40: Kills in the log: the events are the incidents of its records, in order. The record of
    a kill is joined with the context right before it if they are of one process; every
    other record makes an event of its own, so that none is lost and none is counted
    twice. *)
Theorem oom_events_are_incidents (ParseFloat : gostring → outcome float64) (rfc3339 : Z → gostring) (raw : gostring) (btime : option Z)
  (es : list OOMEvent) :
  incidents rfc3339 btime (omap (record_of ParseFloat) (strings_Split raw newline)) es ↔ es = parseOOMEvents ParseFloat rfc3339 raw btime.
Proof.
  destruct (events_incidents ParseFloat rfc3339 btime (strings_Split raw newline)) as [Hinc _].
  destruct (Hinc []) as (es' & Hes & E). simpl in E. unfold parseOOMEvents. rewrite E. split; [|by intros ->].
  intros H. by eapply incidents_unique.
Qed.

(** The records the kernel prints are read back: the process, its name with any
    characters but the text that follows it, and the sizes; and of a context the last value
    of each key. *)
Theorem oom_records_roundtrip (ParseFloat : gostring → outcome float64) (priority : Z) (stamp : gostring) (ts : float64)
  (Hpri : 0 ≤ priority < 1000) (Hstamp : "]"%char ∉ stamp) (Hts : ParseFloat (strings_TrimSpace stamp) = Ret ts)
  (k : killedRecord) (tail : list gostring) (Hk : good_killed k) (Htail : Forall other_field tail)
  (parts : list (gostring * option gostring)) (Hparts : Forall good_part parts) (Hne : parts ≠ [])
  (Hend : ∃ u d, context_text parts = u ++ [d] ∧ solid d = true) :
  record_of ParseFloat (log_line priority stamp (killed_text k tail)) = Some (RKill (Some ts) k) ∧
  record_of ParseFloat (log_line priority stamp (context_text parts)) =
    Some (RContext (Some ts) (MkOomKill (value_of parts (go "constraint")) (value_of parts (go "oom_memcg"))
      (value_of parts (go "task_memcg")) (value_of parts (go "task")) (int_of (value_of parts (go "pid"))))).
Proof.
  split; unfold record_of.
  - destruct (killed_text_ends k tail Hk Htail) as (Hc & Hd & Hno).
    rewrite (parseLinePrefix_line ParseFloat _ _ _ ts) by done. destruct Hc as (c & t & E & _). rewrite E. rewrite <-E.
    rewrite Hno, parseKilledLine_text by done. done.
  - rewrite (parseLinePrefix_line ParseFloat _ _ _ ts); [|done|done|done|by eexists _, _|done].
    rewrite parseOOMKillLine_fold, context_fields by done. done.
Qed.

(** A task whose name holds a comma is cut there. *)
Theorem comma_cuts_name (before after : gostring) (Hb : ","%char ∉ before) (Ha : "="%char ∉ after) (Hac : ","%char ∉ after) :
  ∃ c', parseOOMKillLine (oomKillPrefix ++ go "constraint=CONSTRAINT_NONE,task=" ++ before ++ go "," ++ after ++ go ",pid=7,uid=0") = Some c' ∧
    ok_task c' = before ∧ ok_pid c' = 7.
Proof.
  pose (parts := [(go "constraint", Some (go "CONSTRAINT_NONE")); (go "task", Some before); (after, None); (go "pid", Some (go "7")); (go "uid", Some (go "0"))]).
  assert (Forall good_part parts) as Hp.
  { unfold parts. apply Forall_cons_2; [split; by_decide|]. apply Forall_cons_2; [split; [|by_decide]|].
    { cbn [pair_text]. rewrite !not_elem_of_app. split_and!; [by_decide|by_decide|done]. }
    apply Forall_cons_2; [by split|]. repeat (apply Forall_cons_2; [split; by_decide|]). apply Forall_nil_2. }
  assert (oomKillPrefix ++ go "constraint=CONSTRAINT_NONE,task=" ++ before ++ go "," ++ after ++ go ",pid=7,uid=0" = context_text parts) as -> by reflexivity.
  rewrite parseOOMKillLine_fold, context_fields by done. eexists. split; [done|]. cbn [ok_task ok_pid]. unfold value_of, parts.
  cbn [omap list_omap fst snd].
  assert (∀ k (v : gostring), (if decide (after = k) then None else @None gostring) = None) as Hafter by (intros; by case_decide).
  rewrite !Hafter by done. split.
  - by repeat (rewrite decide_False by by_decide || rewrite decide_True by done).
  - by repeat (rewrite decide_False by by_decide || rewrite decide_True by done).
Qed.

(** With vm.oom_kill_allocating_task set the kernel says so in the record of the kill,
    which is then not recognised. *)
Theorem allocating_task_missed (rest : gostring) :
  parseKilledLine (go "Out of memory (oom_kill_allocating_task): Killed process " ++ rest) = None.
Proof.
  unfold parseKilledLine.
  assert (∀ p, take 15 p ≠ go "Out of memory (" → (15 ≤ length p)%nat →
    strings_HasPrefix (go "Out of memory (oom_kill_allocating_task): Killed process " ++ rest) p = false) as Hno.
  { intros p Hne Hlen. apply not_true_iff_false. rewrite strings_HasPrefix_spec. intros [x Hx]. apply Hne.
    rewrite <-(take_app_le p x) by done. rewrite <-Hx. reflexivity. }
  rewrite !Hno; [done|by_decide|vm_compute; lia|by_decide|vm_compute; lia].
Qed.

(** The report: the newest events first, as many as asked for and at most fifty; every event
    found is counted, in all and by name, also those that are not shown; and it warns
    exactly if there is one. *)
Theorem oom_report `{FileSystem} (ParseFloat : gostring → outcome float64) (rfc3339 : Z → gostring) (n : Z) (klog dmesg : outcome gostring)
  (warns : bool) (out : Output) (Hrun : oom_Execute ParseFloat rfc3339 false (Ret n) klog dmesg = Ret (warns, out)) :
  ∃ buf, (klog = Ret buf ∨ dmesg = Ret buf) ∧
    let all := parseOOMEvents ParseFloat rfc3339 buf readBtime in
    let shown := length (oo_Events out) in
    oo_Events out = reverse (drop (length all - shown) all) ∧
    Z.of_nat shown = Z.min (Z.of_nat (length all)) (if n <=? 0 then 10 else Z.min n 50) ∧
    oo_TotalFound out = Z.of_nat (length all) ∧
    (∀ comm, default 0 (oo_CountByComm out !! comm) = Z.of_nat (length (filter (λ ev, ev_VictimComm ev = comm) all))) ∧
    (warns = true ↔ all ≠ []).
Proof.
  unfold oom_Execute in Hrun.
  set (read := match klog with Ret _ => _ | _ => _ end) in Hrun. destruct read as [buf| | |] eqn:Hread; [|done..].
  cbn [mbind outcome_bind] in Hrun. injection Hrun as <- <-. exists buf. split.
  { subst read. destruct klog as [[|x b]| | |]; [|injection Hread as <-; by left|..]; (destruct dmesg; [|done..]); injection Hread as <-; by right. }
  cbn [oo_Events oo_TotalFound oo_CountByComm]. set (all := parseOOMEvents _ _ _ _).
  assert (0 ≤ clamp_last n ∧ clamp_last n = if n <=? 0 then 10 else Z.min n 50) as [Hpos Hclamp].
  { unfold clamp_last, defaultLastN, maxLastN. destruct (Z.leb_spec n 0); simpl; [lia|]. destruct (Z.ltb_spec 50 n); lia. }
  rewrite length_take, length_reverse. split_and!.
  - rewrite take_reverse. f_equal. f_equal. lia.
  - rewrite <-Hclamp. lia.
  - done.
  - intros comm. assert (∀ counts, default 0 (foldl count_comm counts all !! comm) =
      default 0 (counts !! comm) + Z.of_nat (length (filter (λ ev, ev_VictimComm ev = comm) all))) as Hc.
    { induction all as [|ev all IH]; intros counts; [simpl; lia|]. cbn [foldl]. rewrite IH, filter_cons. unfold count_comm. rewrite lookup_insert.
      destruct (decide (ev_VictimComm ev = comm)) as [->|]; simpl; lia. }
    rewrite Hc. by rewrite lookup_empty.
  - apply bool_decide_eq_true.
Qed.

(** ** Witnesses *)

Definition sample_kill : killedRecord := MkKilled 4321 (go "my app)") 1048576 524288 1024 0 true.

Definition sample_context : list (gostring * option gostring) :=
  [(go "constraint", Some (go "CONSTRAINT_MEMCG")); (go "nodemask", Some (go "(null)")); (go "oom_memcg", Some (go "/job=1"));
   (go "task_memcg", Some (go "/job=1/step")); (go "task", Some (go "my app)")); (go "pid", Some (go "4321")); (go "uid", Some (go "0"))].

Definition sample_float (s : gostring) : outcome float64 := if decide (s = go "12.5") then Ret (f64_div (f64_of_Z 25) (f64_of_Z 2)) else Err (Errorf "invalid syntax").

Lemma oom_records_roundtrip_witness :
  record_of sample_float (log_line 3 (go "   12.5") (killed_text sample_kill [go "UID:0"; go "pgtables:1024kB"; go "oom_score_adj:0"])) =
    Some (RKill (Some (f64_div (f64_of_Z 25) (f64_of_Z 2))) sample_kill) ∧
  record_of sample_float (log_line 6 (go "   12.5") (context_text sample_context)) =
    Some (RContext (Some (f64_div (f64_of_Z 25) (f64_of_Z 2)))
      (MkOomKill (go "CONSTRAINT_MEMCG") (go "/job=1") (go "/job=1/step") (go "my app)") 4321)).
Proof.
  assert (good_killed sample_kill) as Hk by (unfold good_killed, MaxInt64; simpl; split_and!; try lia; by vm_compute).
  assert (Forall other_field [go "UID:0"; go "pgtables:1024kB"; go "oom_score_adj:0"]) as Ht.
  { by_decide. }
  assert (Forall good_part sample_context) as Hp.
  { unfold sample_context. repeat (apply Forall_cons_2; [split; by_decide|]). apply Forall_nil_2. }
  assert (∃ u d, context_text sample_context = u ++ [d] ∧ solid d = true) as Hend.
  { exists (removelast (context_text sample_context)), "0"%char. split; by vm_compute. }
  split.
  - apply (oom_records_roundtrip sample_float 3 (go "   12.5") _ ltac:(lia) ltac:(by_decide) ltac:(by vm_compute)
      sample_kill [go "UID:0"; go "pgtables:1024kB"; go "oom_score_adj:0"] Hk Ht sample_context Hp ltac:(done) Hend).
  - apply (oom_records_roundtrip sample_float 6 (go "   12.5") _ ltac:(lia) ltac:(by_decide) ltac:(by vm_compute)
      sample_kill [go "UID:0"; go "pgtables:1024kB"; go "oom_score_adj:0"] Hk Ht sample_context Hp ltac:(done) Hend).
Defined.

Lemma comma_cuts_name_witness :
  ∃ c', parseOOMKillLine (oomKillPrefix ++ go "constraint=CONSTRAINT_NONE,task=" ++ go "a" ++ go "," ++ go "b" ++ go ",pid=7,uid=0") = Some c' ∧
    ok_task c' = go "a" ∧ ok_pid c' = 7.
Proof. apply comma_cuts_name; by_decide. Defined.

Definition sample_log : gostring :=
  log_line 6 (go "   12.5") (context_text sample_context) ++ [newline] ++
  log_line 3 (go "   12.5") (killed_text sample_kill [go "UID:0"]) ++ [newline].

Lemma oom_report_witness :
  ∃ out, @oom_Execute sample_float (λ _, go "2026-01-01T00:00:00Z") (mem_fs [] [] []) false (Ret 0) (Ret sample_log) (Err (Errorf "dmesg")) = Ret (true, out) ∧
    oo_TotalFound out = 1 ∧ default 0 (oo_CountByComm out !! go "my app)") = 1.
Proof.
  assert (∃ out, @oom_Execute sample_float (λ _, go "2026-01-01T00:00:00Z") (mem_fs [] [] []) false (Ret 0) (Ret sample_log) (Err (Errorf "dmesg")) = Ret (true, out))
    as [out Hout] by (eexists; vm_compute; reflexivity).
  exists out. split; [exact Hout|].
  destruct (@oom_report (mem_fs [] [] []) sample_float _ 0 _ _ _ _ Hout) as (buf & [Hb|Hb] & _ & _ & Ht & Hc & _); [|discriminate Hb].
  injection Hb as <-. rewrite Ht, Hc. split; by vm_compute.
Defined.
