(* ===== verification/Pressure.v ===== *)
(** * Pressure stalls: the tool get_pressure_stall_info

    registry/tools/pressurestall/pressurestall.go: the files of /proc/pressure and the
    thresholds. [strconv.ParseFloat] and the printing of a float64 are parameters. *)

From Stdlib Require Import Ascii.
From stdpp Require Import base numbers gmap strings sorting list.
From S2P Require Import Prelude GoStrings GoFloat GoNet GoOs.

Open Scope Z_scope.

(** ** Data *)

Definition cpuSomeAvg10Threshold : float64 := f64_of_Z 40.
Definition memoryFullAvg10Threshold : float64 := f64_of_Z 10.
Definition ioFullAvg10Threshold : float64 := f64_of_Z 10.

Definition psiResources : list gostring := [go "cpu"; go "memory"; go "io"; go "irq"].

Record PSILine := MkPSILine { ps_Avg10 : float64; ps_Avg60 : float64; ps_Avg300 : float64; ps_TotalUsec : Z }.

Record ResourcePressure := MkResourcePressure { rp_Some : option PSILine; rp_Full : option PSILine }.

Record Output := MkOutput {
  po_Resources : gmap gostring ResourcePressure;
  po_Notes : list (gostring * goerr);  (** the resource that was skipped, and why *)
  po_WarningReasons : list gostring
}.

Section psi.
Context (ParseFloat : gostring → outcome float64) (fmt_2f : float64 → gostring).

(** ** Parsing *)

Definition psi_field (rec : PSILine) (kv : gostring) : outcome PSILine :=
  match strings_Cut kv "="%char with
  | None => Err (Errorf "malformed PSI field %q in line %q")
  | Some (key, val) =>
      let '(MkPSILine a b c t) := rec in
      if decide (key ∈ [go "avg10"; go "avg60"; go "avg300"]) then
        f ← wrap_err "malformed PSI %s value %q: %w" (ParseFloat val);
        Ret (if decide (key = go "avg10") then MkPSILine f b c t
             else if decide (key = go "avg60") then MkPSILine a f c t
             else MkPSILine a b f t)
      else if decide (key = go "total") then
        match ParseUint val with
        | (u, None) => Ret (MkPSILine a b c u)
        | (_, Some _) => Err (Errorf "malformed PSI total value %q: %w")
        end
      else Err (Errorf "unknown PSI field %q in line %q")
  end.

Definition zero_line : PSILine := MkPSILine (f64_of_Z 0) (f64_of_Z 0) (f64_of_Z 0) 0.

Definition parsePSILine (line : gostring) : outcome (gostring * PSILine) :=
  match strings_Fields line with
  | kind :: fields =>
      if negb (length fields =? 4)%nat then Err (Errorf "malformed PSI line %q: want 5 fields, got %d")
      else if negb (bool_decide (kind ∈ [go "some"; go "full"])) then Err (Errorf "malformed PSI line %q: unknown record kind %q")
      else rec ← foldM_go psi_field zero_line fields; Ret (kind, rec)
  | [] => Err (Errorf "malformed PSI line %q: want 5 fields, got %d")
  end.

(** One line: the pressure so far, and how many lines were parsed. *)
Definition psi_step (acc : ResourcePressure * Z) (line : gostring) : outcome (ResourcePressure * Z) :=
  let '(rp, parsed) := acc in
  match strings_TrimSpace line with
  | [] => Ret acc
  | line =>
      '(kind, rec) ← parsePSILine line;
      Ret (if decide (kind = go "some") then MkResourcePressure (Some rec) (rp_Full rp)
           else if decide (kind = go "full") then MkResourcePressure (rp_Some rp) (Some rec)
           else rp, parsed + 1)
  end.

Definition parsePressureFile (data : gostring) : outcome ResourcePressure :=
  '(rp, parsed) ← foldM_go psi_step (MkResourcePressure None None, 0) (strings_Split (strings_TrimSpace data) newline);
  if parsed =? 0 then Err (Errorf "empty PSI file") else Ret rp.

(** ** Warnings *)

(** The average of ten seconds of a resource, if it has that record. *)
Definition avg10 (resources : gmap gostring ResourcePressure) (name : gostring) (record : ResourcePressure → option PSILine) : option float64 :=
  rp ← resources !! name; ps_Avg10 <$> record rp.

Definition breach (value : option float64) (threshold : float64) (text : float64 → gostring) : list gostring :=
  match value with Some v => if f64_ltb threshold v then [text v] else [] | None => [] end.

Definition cpu_text (v : float64) : gostring := go "cpu some avg10 " ++ fmt_2f v ++ go "% exceeds 40% (significant CPU contention)".
Definition memory_text (v : float64) : gostring := go "memory full avg10 " ++ fmt_2f v ++ go "% exceeds 10% (severe memory pressure)".
Definition io_text (v : float64) : gostring := go "io full avg10 " ++ fmt_2f v ++ go "% exceeds 10% (severe I/O saturation)".

Definition evaluateWarnings (resources : gmap gostring ResourcePressure) : list gostring :=
  sort_Strings (
    breach (avg10 resources (go "cpu") rp_Some) cpuSomeAvg10Threshold cpu_text ++
    breach (avg10 resources (go "memory") rp_Full) memoryFullAvg10Threshold memory_text ++
    breach (avg10 resources (go "io") rp_Full) ioFullAvg10Threshold io_text).

(** ** The tool *)

Definition read_resource `{FileSystem} (acc : gmap gostring ResourcePressure * list (gostring * goerr)) (res : gostring) :
    gmap gostring ResourcePressure * list (gostring * goerr) :=
  let '(resources, notes) := acc in
  match ReadFile [go "/proc"; go "pressure"; res] with
  | inr _ => acc
  | inl data =>
      match parsePressureFile data with
      | Ret rp => (<[res := rp]> resources, notes)
      | Err err => (resources, notes ++ [(res, err)])
      | _ => acc
      end
  end.

(** The flag tells whether the result is a warning. *)
Definition psi_Execute `{FileSystem} (canceled : bool) : outcome (bool * Output) :=
  if canceled then Err (Errorf "context canceled: %v")
  else
    let '(resources, notes) := foldl read_resource (∅, []) psiResources in
    if decide (size resources = 0%nat) then Err (Errorf "no PSI resources readable under %s/pressure")
    else
      let warnings := evaluateWarnings resources in
      Ret (bool_decide (warnings ≠ []), MkOutput resources notes warnings).

(** ** Lemmas *)

(** A line as the kernel prints it. *)
Definition psi_words (kind a b c : gostring) (total : Z) : list gostring :=
  [kind; go "avg10=" ++ a; go "avg60=" ++ b; go "avg300=" ++ c; go "total=" ++ udec total].

Lemma parsePSILine_words kind a b c total fa fb fc :
  kind ∈ [go "some"; go "full"] → word_line (psi_words kind a b c total) → 0 ≤ total ≤ MaxUint64 →
  ParseFloat a = Ret fa → ParseFloat b = Ret fb → ParseFloat c = Ret fc →
  parsePSILine (strings_Join (psi_words kind a b c total) (go " ")) = Ret (kind, MkPSILine fa fb fc total).
Proof.
  intros Hkind Hw Ht Ha Hb Hc. unfold parsePSILine. destruct (word_line_text _ Hw) as (_ & _ & ->). unfold psi_words.
  cbn [length Nat.eqb negb]. rewrite bool_decide_true by done. cbn [negb].
  assert (∀ key v rec, "="%char ∉ key → psi_field rec (key ++ go "=" ++ v) = 
    let '(MkPSILine a b c t) := rec in
      if decide (key ∈ [go "avg10"; go "avg60"; go "avg300"]) then
        f ← wrap_err "malformed PSI %s value %q: %w" (ParseFloat v);
        Ret (if decide (key = go "avg10") then MkPSILine f b c t
             else if decide (key = go "avg60") then MkPSILine a f c t
             else MkPSILine a b f t)
      else if decide (key = go "total") then
        match ParseUint v with
        | (u, None) => Ret (MkPSILine a b c u)
        | (_, Some _) => Err (Errorf "malformed PSI total value %q: %w")
        end
      else Err (Errorf "unknown PSI field %q in line %q")) as Hfield.
  { intros key v rec Hk. unfold psi_field. change (key ++ go "=" ++ v) with (key ++ "="%char :: v). by rewrite Cut_app. }
  cbn [foldM_go].
  change (go "avg10=" ++ a) with (go "avg10" ++ go "=" ++ a). change (go "avg60=" ++ b) with (go "avg60" ++ go "=" ++ b).
  change (go "avg300=" ++ c) with (go "avg300" ++ go "=" ++ c). change (go "total=" ++ udec total) with (go "total" ++ go "=" ++ udec total).
  rewrite Hfield by by_decide. unfold zero_line. rewrite decide_True by by_decide. rewrite Ha. cbn [wrap_err mbind outcome_bind]. rewrite decide_True by done.
  rewrite Hfield by by_decide. rewrite decide_True by by_decide. rewrite Hb. cbn [wrap_err mbind outcome_bind]. rewrite decide_False, decide_True by (done || by_decide).
  rewrite Hfield by by_decide. rewrite decide_True by by_decide. rewrite Hc. cbn [wrap_err mbind outcome_bind]. rewrite !decide_False by by_decide.
  rewrite Hfield by by_decide. rewrite decide_False, decide_True by (done || by_decide). by rewrite ParseUint_udec.
Qed.

End psi.

(** A line with the values of its texts. *)
Record psi_row := MkPsiRow { pr_kind : gostring; pr_a : gostring; pr_b : gostring; pr_c : gostring; pr_total : Z; pr_line : PSILine }.

Definition row_words (r : psi_row) : list gostring := psi_words (pr_kind r) (pr_a r) (pr_b r) (pr_c r) (pr_total r).

Definition good_row (ParseFloat : gostring → outcome float64) (r : psi_row) : Prop :=
  pr_kind r ∈ [go "some"; go "full"] ∧ word_line (row_words r) ∧ 0 ≤ pr_total r ≤ MaxUint64 ∧ ps_TotalUsec (pr_line r) = pr_total r ∧
  ParseFloat (pr_a r) = Ret (ps_Avg10 (pr_line r)) ∧ ParseFloat (pr_b r) = Ret (ps_Avg60 (pr_line r)) ∧ ParseFloat (pr_c r) = Ret (ps_Avg300 (pr_line r)).

(** The last line of a kind. *)
Definition record_of (kind : gostring) (rows : list psi_row) : option PSILine := pr_line <$> last (filter (λ r, pr_kind r = kind) rows).

Lemma psi_step_row ParseFloat rp parsed r : good_row ParseFloat r →
  psi_step ParseFloat (rp, parsed) (strings_Join (row_words r) (go " ")) =
  Ret (if decide (pr_kind r = go "some") then MkResourcePressure (Some (pr_line r)) (rp_Full rp) else MkResourcePressure (rp_Some rp) (Some (pr_line r)), parsed + 1).
Proof.
  intros (Hk & Hw & Ht & Htot & Ha & Hb & Hc). unfold psi_step. destruct (word_line_text _ Hw) as (_ & -> & _).
  destruct (strings_Join (row_words r) (go " ")) as [|x s] eqn:E.
  { exfalso. unfold row_words, psi_words in E. cbn [strings_Join] in E. apply elem_of_cons in Hk as [Hk|Hk]; [|apply list_elem_of_singleton in Hk]; by rewrite Hk in E. }
  rewrite <-E. unfold row_words. erewrite parsePSILine_words by done. cbn [mbind outcome_bind].
  assert (MkPSILine (ps_Avg10 (pr_line r)) (ps_Avg60 (pr_line r)) (ps_Avg300 (pr_line r)) (pr_total r) = pr_line r) as -> by (rewrite <-Htot; by destruct (pr_line r)).
  apply elem_of_cons in Hk as [->|Hk]; [by rewrite !decide_True|]. apply list_elem_of_singleton in Hk as ->.
  rewrite !(decide_False (P := go "full" = go "some")) by by_decide. by rewrite decide_True.
Qed.

Lemma psi_rows ParseFloat rows rp parsed : Forall (good_row ParseFloat) rows →
  foldM_go (psi_step ParseFloat) (rp, parsed) (map (λ r, strings_Join (row_words r) (go " ")) rows) =
  Ret (MkResourcePressure (match record_of (go "some") rows with Some l => Some l | None => rp_Some rp end)
                          (match record_of (go "full") rows with Some l => Some l | None => rp_Full rp end), parsed + Z.of_nat (length rows)).
Proof.
  intros Hrows. revert rp parsed. induction Hrows as [|r rows Hr _ IH]; intros rp parsed; [simpl; rewrite Z.add_0_r; by destruct rp|].
  cbn [map foldM_go]. rewrite psi_step_row by done. cbn [mbind outcome_bind]. rewrite IH. f_equal. f_equal; [|simpl; lia].
  destruct Hr as (Hk & _). unfold record_of. rewrite !filter_cons. assert (go "some" ≠ go "full") by by_decide.
  apply elem_of_cons in Hk as [Hk|Hk]; [|apply list_elem_of_singleton in Hk]; rewrite !Hk.
  - rewrite !decide_True, !decide_False by done. rewrite last_cons. by destruct (last (filter (λ r, pr_kind r = go "some") rows)).
  - rewrite !(decide_False (P := go "full" = go "some")), !decide_True by done. rewrite last_cons. by destruct (last (filter (λ r, pr_kind r = go "full") rows)).
Qed.

(** What a resource gives: nothing if its file cannot be read. *)
Definition psi_resource `{FileSystem} (ParseFloat : gostring → outcome float64) (res : gostring) : option (outcome ResourcePressure) :=
  match ReadFile [go "/proc"; go "pressure"; res] with inl data => Some (parsePressureFile ParseFloat data) | inr _ => None end.

Lemma psi_resource_Some `{FileSystem} ParseFloat res r : psi_resource ParseFloat res = Some r ↔
  ∃ data, ReadFile [go "/proc"; go "pressure"; res] = inl data ∧ parsePressureFile ParseFloat data = r.
Proof.
  unfold psi_resource. destruct (ReadFile _) as [data|]; split; try done.
  - intros Heq. injection Heq as <-. by exists data.
  - intros (d & Hd & <-). by injection Hd as ->.
  - by intros (d & Hd & _).
Qed.

Lemma read_resource_cases `{FileSystem} ParseFloat m n r : read_resource ParseFloat (m, n) r =
  match psi_resource ParseFloat r with Some (Ret rp) => (<[r := rp]> m, n) | Some (Err e) => (m, n ++ [(r, e)]) | _ => (m, n) end.
Proof. unfold read_resource, psi_resource. destruct (ReadFile _); [|done]. by destruct (parsePressureFile _ _). Qed.

Lemma read_resources `{FileSystem} ParseFloat l resources notes :
  foldl (read_resource ParseFloat) (∅, []) l = (resources, notes) →
  (∀ res rp, resources !! res = Some rp ↔ res ∈ l ∧ psi_resource ParseFloat res = Some (Ret rp)) ∧
  (∀ res err, (res, err) ∈ notes ↔ res ∈ l ∧ psi_resource ParseFloat res = Some (Err err)).
Proof.
  revert resources notes. induction l as [|r l IH] using rev_ind; intros resources notes.
  - simpl. intros Heq. injection Heq as <- <-. split; intros; rewrite ?lookup_empty, !elem_of_nil; naive_solver.
  - rewrite foldl_app. destruct (foldl _ _ l) as [m n]. destruct (IH m n eq_refl) as [IHm IHn]. cbn [foldl]. rewrite read_resource_cases.
    assert (∀ (P : gostring → Prop) (res : gostring), (P r → False) → (res ∈ l ++ [r] ∧ P res ↔ res ∈ l ∧ P res)) as Hskip.
    { intros P res Hr. rewrite elem_of_app, list_elem_of_singleton. split; [intros [[?| ->] ?]; [done|by destruct Hr]|naive_solver]. }
    destruct (psi_resource ParseFloat r) as [[rp|err| |]|] eqn:Hp; intros Heq; injection Heq as <- <-; split; intros res x;
      try (rewrite (Hskip (λ res, psi_resource ParseFloat res = _)) by (by rewrite Hp); first [apply IHm|apply IHn]).
    + rewrite lookup_insert, elem_of_app, list_elem_of_singleton. destruct (decide (r = res)) as [<-|Hne].
      * rewrite Hp. split; [intros Heq; injection Heq as ->; by split; [right|]|intros [_ Heq]; by injection Heq as ->].
      * rewrite IHm. naive_solver.
    + rewrite !elem_of_app, !list_elem_of_singleton, IHn. split.
      * intros [[? ?]|Heq]; [by split; [left|]|]. injection Heq as -> ->. by split; [right|].
      * intros [[?| ->] Hx]; [by left|]. right. rewrite Hp in Hx. by injection Hx as ->.
Qed.

(** ** Properties *)

(** A file the kernel prints is read back: the averages and the total of each of its one or
    two records, and nothing for a record it does not have. *)
Theorem psi_file_roundtrip (ParseFloat : gostring → outcome float64) (rows : list psi_row)
  (Hne : rows ≠ []) (Hrows : Forall (good_row ParseFloat) rows) :
  parsePressureFile ParseFloat (print_lines (map row_words rows)) =
  Ret (MkResourcePressure (record_of (go "some") rows) (record_of (go "full") rows)).
Proof.
  unfold parsePressureFile. rewrite split_trimmed, map_map, psi_rows; [|done|by destruct rows|].
  - cbn [mbind outcome_bind]. destruct rows; [done|]. rewrite (proj2 (Z.eqb_neq _ _)) by (simpl; lia).
    by repeat destruct (record_of _ _).
  - apply Forall_map. eapply Forall_impl; [exact Hrows|]. by intros r (_ & ? & _).
Qed.

(** The warnings: one for each threshold that is exceeded, of processor, disk and memory in
    this order; an average that is not a number exceeds none. *)
Theorem psi_warnings (fmt_2f : float64 → gostring) (resources : gmap gostring ResourcePressure) :
  evaluateWarnings fmt_2f resources =
    breach (avg10 resources (go "cpu") rp_Some) cpuSomeAvg10Threshold (cpu_text fmt_2f) ++
    breach (avg10 resources (go "io") rp_Full) ioFullAvg10Threshold (io_text fmt_2f) ++
    breach (avg10 resources (go "memory") rp_Full) memoryFullAvg10Threshold (memory_text fmt_2f) ∧
  (∀ v threshold text, breach v threshold text ≠ [] ↔ ∃ x, v = Some x ∧ is_nan x = false ∧ f64_ltb threshold x = true).
Proof.
  split.
  - symmetry. apply sort_Strings_unique; [|by rewrite (comm (++) (breach (avg10 resources (go "io") _) _ _))].
    assert (∀ x y, str_le (cpu_text fmt_2f x) (io_text fmt_2f y) ∧ str_le (cpu_text fmt_2f x) (memory_text fmt_2f y) ∧
      str_le (io_text fmt_2f x) (memory_text fmt_2f y)) as Hle by done.
    unfold breach. destruct (avg10 resources (go "cpu") rp_Some) as [a|], (avg10 resources (go "io") rp_Full) as [b|], (avg10 resources (go "memory") rp_Full) as [c|];
      repeat case_match; cbn [app]; repeat constructor; by apply Hle.
  - intros v threshold text. unfold breach. destruct v as [x|]; [|split; [done|by intros (? & ? & _)]].
    destruct (f64_ltb threshold x) eqn:E; [|split; [done|intros (y & Hy & _ & Hlt); injection Hy as <-; congruence]].
    split; [|done]. intros _. exists x. split_and!; [done| |done]. destruct x; try done. unfold f64_ltb, SFltb in E. by destruct threshold.
Qed.

(** The report: each resource whose file can be read is reported or, if its file is
    malformed, noted with the reason; it fails exactly if none could be reported. *)
Theorem psi_report `{FileSystem} (ParseFloat : gostring → outcome float64) (fmt_2f : float64 → gostring) :
  let readable res := ∃ rp data, ReadFile [go "/proc"; go "pressure"; res] = inl data ∧ parsePressureFile ParseFloat data = Ret rp in
  match psi_Execute ParseFloat fmt_2f false with
  | Ret (warns, out) =>
      (∃ res, res ∈ psiResources ∧ readable res) ∧
      (∀ res rp, po_Resources out !! res = Some rp ↔ res ∈ psiResources ∧
         ∃ data, ReadFile [go "/proc"; go "pressure"; res] = inl data ∧ parsePressureFile ParseFloat data = Ret rp) ∧
      (∀ res err, (res, err) ∈ po_Notes out ↔ res ∈ psiResources ∧
         ∃ data, ReadFile [go "/proc"; go "pressure"; res] = inl data ∧ parsePressureFile ParseFloat data = Err err) ∧
      (warns = true ↔ evaluateWarnings fmt_2f (po_Resources out) ≠ [])
  | Err _ => ∀ res, res ∈ psiResources → ¬ readable res
  | _ => False
  end.
Proof.
  cbn zeta. unfold psi_Execute. destruct (foldl (read_resource ParseFloat) (∅, []) psiResources) as [resources notes] eqn:E.
  destruct (read_resources ParseFloat psiResources resources notes E) as [Hr Hn]. setoid_rewrite psi_resource_Some in Hr.
  setoid_rewrite psi_resource_Some in Hn. case_decide as Hsize.
  - intros res Hin (rp & data & Hd & Hp). assert (resources !! res = Some rp) as Hl by (apply Hr; eauto).
    apply map_size_empty_inv in Hsize. by rewrite Hsize, lookup_empty in Hl.
  - cbn [po_Resources po_Notes]. split_and!; [|exact Hr|exact Hn|apply bool_decide_eq_true].
    destruct (map_choose resources) as (res & rp & Hl); [intros ->; by rewrite map_size_empty in Hsize|].
    apply Hr in Hl as (Hin & data & Hd & Hp). exists res. split; [done|]. by exists rp, data.
Qed.

(** ** Witnesses *)

Definition half : float64 := f64_div (f64_of_Z 91) (f64_of_Z 2).

Definition sample_float (s : gostring) : outcome float64 :=
  if decide (s = go "45.50") then Ret half else if decide (s = go "0.00") then Ret (f64_of_Z 0) else Err (Errorf "invalid syntax").

Definition cpu_rows : list psi_row :=
  [MkPsiRow (go "some") (go "45.50") (go "0.00") (go "0.00") 12345 (MkPSILine half (f64_of_Z 0) (f64_of_Z 0) 12345);
   MkPsiRow (go "full") (go "0.00") (go "0.00") (go "0.00") 0 (MkPSILine (f64_of_Z 0) (f64_of_Z 0) (f64_of_Z 0) 0)].

Lemma psi_file_roundtrip_witness :
  parsePressureFile sample_float (print_lines (map row_words cpu_rows)) =
  Ret (MkResourcePressure (Some (MkPSILine half (f64_of_Z 0) (f64_of_Z 0) 12345)) (Some (MkPSILine (f64_of_Z 0) (f64_of_Z 0) (f64_of_Z 0) 0))).
Proof.
  apply (psi_file_roundtrip sample_float cpu_rows); [done|].
  repeat (apply Forall_cons_2; [split; [by_decide|split; [by_decide|split; [by_decide|split_and!; by vm_compute]]]|]). apply Forall_nil_2.
Defined.
