(* ===== verification/NetThroughput.v ===== *)
(** * Network throughput: the tool get_network_throughput

    registry/tools/networkthroughput/networkthroughput.go: two samples of /proc/net/dev, the
    rates between them, and the warnings. [strconv.ParseFloat] is a parameter; a map of
    the source is ranged over in any order. *)

From Stdlib Require Import Ascii.
From stdpp Require Import base numbers gmap strings sorting list.
From S2P Require Import Prelude GoStrings GoFloat GoNet GoOs.

Open Scope Z_scope.

(** ** Data *)

Definition millisecond : Z := 1000000.
Definition defaultWindow : Z := 500 * millisecond.
Definition minWindowMs : Z := 10.
Definition maxWindowMs : Z := 5000.
Definition utilizationWarnPct : float64 := f64_of_Z 90.

Record ifCounters := MkIfCounters {
  ic_rxBytes : Z; ic_rxPackets : Z; ic_rxErrs : Z; ic_rxDrop : Z; ic_txBytes : Z; ic_txPackets : Z; ic_txErrs : Z; ic_txDrop : Z
}.

Definition wrapped (c second : ifCounters) : bool :=
  (ic_rxBytes second <? ic_rxBytes c) || (ic_rxPackets second <? ic_rxPackets c) ||
  (ic_rxErrs second <? ic_rxErrs c) || (ic_rxDrop second <? ic_rxDrop c) ||
  (ic_txBytes second <? ic_txBytes c) || (ic_txPackets second <? ic_txPackets c) ||
  (ic_txErrs second <? ic_txErrs c) || (ic_txDrop second <? ic_txDrop c).

Record InterfaceRate := MkInterfaceRate {
  ir_Name : gostring; ir_RxMbps : float64; ir_TxMbps : float64; ir_RxPps : float64; ir_TxPps : float64;
  ir_RxDropsPerS : float64; ir_TxDropsPerS : float64; ir_RxErrsPerS : float64; ir_TxErrsPerS : float64;
  ir_LinkSpeedMbps : option float64; ir_UtilizationPct : option float64
}.

Record Summary := MkSummary { sm_TotalRxMbps : float64; sm_TotalTxMbps : float64; sm_BusiestInterface : gostring; sm_InterfacesMeasured : Z }.

(** A warning, by what it is printed from. *)
Variant rate_warning := DropsObserved (name : gostring) | ErrorsObserved (name : gostring) | NearSaturation (name : gostring) (util : float64).

Definition round1 (v : float64) : float64 := f64_div (math_Round (f64_mul v (f64_of_Z 10))) (f64_of_Z 10).
Definition round2 (v : float64) : float64 := f64_div (math_Round (f64_mul v (f64_of_Z 100))) (f64_of_Z 100).

(** ** Reading *)

(** The sample_duration_ms of the arguments, if it is there; an error if they are malformed. *)
Definition parseArgs (sampleDurationMs : outcome (option Z)) : outcome Z :=
  match sampleDurationMs with
  | Ret None => Ret defaultWindow
  | Ret (Some ms) =>
      let ms := if ms <? minWindowMs then minWindowMs else ms in
      let ms := if maxWindowMs <? ms then maxWindowMs else ms in
      Ret (i64 (ms * millisecond))
  | _ => Err (Errorf "failed to parse arguments: %v")
  end.

(** The first twelve fields as numbers. *)
Definition counter_values (fields : list gostring) : option (list Z) :=
  mapM (λ f, match ParseUint f with (v, None) => Some v | _ => None end) (take 12 fields).

Definition netdev_row (line : gostring) : option (gostring * ifCounters) :=
  '(name, rest) ← strings_Cut line ":"%char;
  let name := strings_TrimSpace name in
  if bool_decide (name = []) || bool_decide (name = go "lo") || bool_decide (" "%char ∈ name) then None
  else
    let fields := strings_Fields rest in
    if (length fields <? 12)%nat then None
    else
      vals ← counter_values fields;
      let v i := nth i vals 0 in
      Some (name, MkIfCounters (v 0%nat) (v 1%nat) (v 2%nat) (v 3%nat) (v 8%nat) (v 9%nat) (v 10%nat) (v 11%nat)).

Definition parseNetDev (content : gostring) : gmap gostring ifCounters :=
  foldl (λ counters row, <[row.1 := row.2]> counters) ∅ (omap netdev_row (strings_Split content newline)).

Definition readSnapshot (content : gostring + goerr) : outcome (gmap gostring ifCounters) :=
  match content with inr err => Err (Wrapf "failed to read %s: %v" err) | inl content => Ret (parseNetDev content) end.

Definition readLinkSpeed `{FileSystem} (ParseFloat : gostring → outcome float64) (iface : gostring) : option float64 :=
  match ReadFile [go "/sys"; go "class"; go "net"; iface; go "speed"] with
  | inr _ => None
  | inl raw => match ParseFloat (strings_TrimSpace raw) with Ret speed => if f64_leb speed (f64_of_Z 0) then None else Some speed | _ => None end
  end.

(** ** Rates *)

Definition mbps (a b : Z) (secs : float64) : float64 :=
  round2 (f64_div (f64_div (f64_mul (f64_of_Z (u64 (b - a))) (f64_of_Z 8)) (f64_of_Z 1000000)) secs).

Definition per_second (a b : Z) (secs : float64) : float64 := round1 (f64_div (f64_of_Z (u64 (b - a))) secs).

Definition interface_rate (speeds : gmap gostring float64) (secs : float64) (name : gostring) (a b : ifCounters) : InterfaceRate :=
  let zero := f64_of_Z 0 in
  let w := wrapped a b in
  let rate f x y := if w then zero else f x y secs in
  let rx := rate mbps (ic_rxBytes a) (ic_rxBytes b) in
  let tx := rate mbps (ic_txBytes a) (ic_txBytes b) in
  MkInterfaceRate name rx tx
    (rate per_second (ic_rxPackets a) (ic_rxPackets b)) (rate per_second (ic_txPackets a) (ic_txPackets b))
    (rate per_second (ic_rxDrop a) (ic_rxDrop b)) (rate per_second (ic_txDrop a) (ic_txDrop b))
    (rate per_second (ic_rxErrs a) (ic_rxErrs b)) (rate per_second (ic_txErrs a) (ic_txErrs b))
    (speeds !! name) ((λ speed, round1 (f64_mul (f64_div (math_Max rx tx) speed) (f64_of_Z 100))) <$> speeds !! name).

Definition disappeared (name : gostring) : gostring := name ++ go ": disappeared during sample window; skipped".
Definition appeared (name : gostring) : gostring := name ++ go ": appeared during sample window; skipped".
Definition reset (name : gostring) : gostring := name ++ go ": counter wrap or reset detected; rates reported as 0 for this window".

Definition window_secs (elapsed : Z) : float64 := if f64_leb (Seconds elapsed) (f64_of_Z 0) then f64_of_Z 1 else Seconds elapsed.

Definition computeRates `{GoRange} (first second : gmap gostring ifCounters) (elapsed : Z) (speeds : gmap gostring float64) :
    list InterfaceRate * list gostring :=
  let secs := window_secs elapsed in
  let in_second name := bool_decide (is_Some (second !! (name : gostring))) in
  let in_first name := bool_decide (is_Some (first !! (name : gostring))) in
  let firsts := map fst (range_map first) in
  let names := sort_Strings (filter (λ n, in_second n = true) firsts) in
  let notes := sort_Strings (map disappeared (filter (λ n, in_second n = false) firsts) ++
                             map appeared (filter (λ n, in_first n = false) (map fst (range_map second)))) in
  let pairs := omap (λ n, a ← first !! n; b ← second !! n; Some (n, a, b)) names in
  (map (λ p, let '(n, a, b) := p in interface_rate speeds secs n a b) pairs,
   notes ++ omap (λ p, let '(n, a, b) := p in if wrapped a b then Some (reset n) else None) pairs).

(** ** Warnings and summary *)

Definition positive (x : float64) : bool := f64_ltb (f64_of_Z 0) x.

Definition interface_warnings (i : InterfaceRate) : list rate_warning :=
  (if positive (ir_RxDropsPerS i) || positive (ir_TxDropsPerS i) then [DropsObserved (ir_Name i)] else []) ++
  (if positive (ir_RxErrsPerS i) || positive (ir_TxErrsPerS i) then [ErrorsObserved (ir_Name i)] else []) ++
  match ir_UtilizationPct i with
  | Some util => if f64_ltb utilizationWarnPct util then [NearSaturation (ir_Name i) util] else []
  | None => []
  end.

Definition buildWarnings (interfaces : list InterfaceRate) : list rate_warning := interfaces ≫= interface_warnings.

(** The totals, and the busiest interface so far with its rate. *)
Definition add_interface (s : float64 * float64 * option (gostring * float64)) (i : InterfaceRate) : float64 * float64 * option (gostring * float64) :=
  let '(totalRx, totalTx, busiest) := s in
  let combined := f64_add (ir_RxMbps i) (ir_TxMbps i) in
  (f64_add totalRx (ir_RxMbps i), f64_add totalTx (ir_TxMbps i),
   match busiest with
   | None => Some (ir_Name i, combined)
   | Some (_, rate) => if f64_ltb rate combined then Some (ir_Name i, combined) else busiest
   end).

Definition buildSummary (interfaces : list InterfaceRate) : Summary :=
  let '(totalRx, totalTx, busiest) := foldl add_interface (f64_of_Z 0, f64_of_Z 0, None) interfaces in
  MkSummary (round2 totalRx) (round2 totalTx) (match busiest with Some (n, _) => n | None => [] end) (Z.of_nat (length interfaces)).

(** ** The tool *)

Record Data := MkData {
  nd_WindowMs : Z; nd_Interfaces : list InterfaceRate; nd_Summary : Summary; nd_WarningReasons : list rate_warning; nd_Notes : list gostring
}.

(** [first] and [second] are what the two reads of /proc/net/dev give, [elapsed] the time
    between them, [canceled] whether the context ended in between. The flag tells
    whether the result is a warning. *)
Definition throughput_Execute `{FileSystem} `{GoRange} (ParseFloat : gostring → outcome float64) (args : outcome (option Z))
    (first second : gostring + goerr) (canceled : bool) (elapsed : Z) : outcome (bool * Data) :=
  _ ← parseArgs args;
  first ← readSnapshot first;
  if canceled then Err (Errorf "context cancelled during sampling window: ")
  else
    second ← readSnapshot second;
    let speeds := omap (λ name, readLinkSpeed ParseFloat name) (map_imap (λ name _, Some name) second) in
    let '(interfaces, notes) := computeRates first second elapsed speeds in
    let warnings := buildWarnings interfaces in
    Ret (bool_decide (warnings ≠ []), MkData (Z.quot elapsed millisecond) interfaces (buildSummary interfaces) warnings notes).

(** ** Lemmas *)

(** A row as the kernel prints it: the name, and sixteen numbers. *)
Definition netdev_words (r : gostring * list Z) : list gostring := (r.1 ++ go ":") :: map udec r.2.

Definition good_netdev_row (r : gostring * list Z) : Prop :=
  word_line (netdev_words r) ∧ ":"%char ∉ r.1 ∧ r.1 ≠ [] ∧ r.1 ≠ go "lo" ∧ length r.2 = 16%nat ∧ Forall (λ v, 0 ≤ v ≤ MaxUint64) r.2.

Definition counters_of (vals : list Z) : ifCounters :=
  let v i := nth i vals 0 in MkIfCounters (v 0%nat) (v 1%nat) (v 2%nat) (v 3%nat) (v 8%nat) (v 9%nat) (v 10%nat) (v 11%nat).

Lemma counter_values_udec vals : Forall (λ v, 0 ≤ v ≤ MaxUint64) vals → counter_values (map udec vals) = Some (take 12 vals).
Proof.
  intros Hv. unfold counter_values. rewrite firstn_map. assert (Forall (λ v, 0 ≤ v ≤ MaxUint64) (take 12 vals)) as Ht by (by apply Forall_take).
  clear Hv. induction Ht as [|v vs Hv _ IH]; [done|]. cbn [map mapM]. rewrite ParseUint_udec by done. cbn [mbind option_bind]. by rewrite IH.
Qed.

Lemma netdev_row_words r : good_netdev_row r → netdev_row (strings_Join (netdev_words r) (go " ")) = Some (r.1, counters_of r.2).
Proof.
  destruct r as [name vals]. intros (Hw & Hc & Hne & Hlo & Hlen & Hv). simpl in Hc, Hne, Hlo, Hlen, Hv.
  assert (word name) as Hname.
  { destruct Hw as (_ & Hw & _). apply Forall_cons in Hw as [[_ Hs] _]. split; [done|]. by apply Forall_app in Hs as [? _]. }
  assert (strings_Join (netdev_words (name, vals)) (go " ") = name ++ ":"%char :: " "%char :: strings_Join (map udec vals) (go " ")) as ->.
  { destruct vals; [done|]. unfold netdev_words. cbn [fst snd map strings_Join]. by rewrite <-!(assoc_L (++)). }
  unfold netdev_row. rewrite Cut_app by done. cbn [mbind option_bind]. rewrite TrimSpace_solid by apply Hname.
  rewrite !bool_decide_false by (done || (apply solid_not_in; [done|apply Hname])). cbn [orb].
  rewrite Fields_space, Fields_Join.
  - rewrite length_map, Hlen. cbn [Nat.ltb Nat.leb]. rewrite counter_values_udec by done. cbn [mbind option_bind].
    do 12 (destruct vals as [|? vals]; [done|]). done.
  - apply Forall_map. eapply Forall_impl; [exact Hv|]. intros v [Hv' _]. by apply word_udec.
Qed.

Lemma foldl_insert_rows {V} (rows : list (gostring * V)) (m : gmap gostring V) name v :
  NoDup (map fst rows) → (∀ r, r ∈ rows → m !! r.1 = None) →
  foldl (λ m r, <[r.1 := r.2]> m) m rows !! name = Some v ↔ m !! name = Some v ∨ (name, v) ∈ rows.
Proof.
  revert m. induction rows as [|[k x] rows IH]; intros m Hnd Hm; [set_solver|]. cbn [map] in Hnd. apply NoDup_cons in Hnd as [Hk Hnd].
  cbn [foldl fst snd]. rewrite IH; [|done|].
  - rewrite lookup_insert_Some, elem_of_cons. specialize (Hm (k, x)). simpl in Hm. split.
    + intros [[[-> ->]|[? ?]]|?]; auto.
    + intros [Hl|[Heq|?]]; [|injection Heq as -> ->; auto|auto]. left. right. split; [|done]. intros ->. rewrite Hm in Hl by left. done.
  - intros r Hr. rewrite lookup_insert_ne; [apply Hm; by right|]. intros Heq. apply Hk. apply list_elem_of_fmap. by exists r.
Qed.

Lemma u64_diff a b : 0 ≤ a → a ≤ b < 2 ^ 64 → u64 (b - a) = b - a.
Proof. intros Ha [Hb Hlt]. apply u64_id. clear -Ha Hb Hlt. lia. Qed.

(** The rates of a pair of samples, and that they are what was counted. *)
Definition counted (c : ifCounters) : Prop :=
  Forall (λ v, 0 ≤ v < 2 ^ 64) [ic_rxBytes c; ic_rxPackets c; ic_rxErrs c; ic_rxDrop c; ic_txBytes c; ic_txPackets c; ic_txErrs c; ic_txDrop c].

Definition combined (i : InterfaceRate) : float64 := f64_add (ir_RxMbps i) (ir_TxMbps i).

(** The busiest of a list: none before it is as busy, none behind it busier. *)
Definition busiest_of (ifs : list InterfaceRate) (name : gostring) (rate : float64) : Prop :=
  ∃ before i after, ifs = before ++ i :: after ∧ ir_Name i = name ∧ combined i = rate ∧
    (∀ j, j ∈ before → f64_ltb (combined j) (combined i) = true) ∧ (∀ j, j ∈ after → f64_ltb (combined i) (combined j) = false).

Lemma add_interfaces ifs : Forall (λ i, is_nan (combined i) = false) ifs →
  match (foldl add_interface (f64_of_Z 0, f64_of_Z 0, None) ifs).2 with
  | None => ifs = []
  | Some (name, rate) => busiest_of ifs name rate
  end.
Proof.
  induction ifs as [|i ifs IH] using rev_ind; intros Hnan; [done|]. apply Forall_app in Hnan as [Hnan Hi]. apply Forall_cons in Hi as [Hi _].
  rewrite foldl_app. specialize (IH Hnan). destruct (foldl _ _ ifs) as [[rx tx] b]. cbn [foldl add_interface snd] in *. fold (combined i).
  destruct b as [[name rate]|].
  - destruct IH as (before & k & after & -> & Hn & Hr & Hb & Ha). destruct (f64_ltb rate (combined i)) eqn:Hlt.
    + exists (before ++ k :: after), i, []. split_and!; [done|done|done| |by intros j ?%elem_of_nil].
      intros j [Hj|[->|Hj]%elem_of_cons]%elem_of_app; subst rate; [by eapply f64_ltb_trans; [apply Hb|]|done|].
      apply not_false_iff_true. intros Hji. assert (f64_ltb (combined k) (combined i) = false) as H; [|congruence].
      eapply (f64_ltb_ge_trans (combined i) (combined j) (combined k)); [|done|by apply Ha].
      rewrite Forall_forall in Hnan. apply Hnan. set_solver.
    + exists before, k, (after ++ [i]). rewrite <-(assoc_L (++)). split_and!; [done|done|done|done|].
      intros j [Hj| ->%list_elem_of_singleton]%elem_of_app; [by apply Ha|by rewrite Hr].
  - subst ifs. exists [], i, []. split_and!; [done|done|done|by intros j ?%elem_of_nil..].
Qed.

(** ** Properties *)

(** A sample is read as the kernel prints it: each interface but the loopback with its
    counters. *)
Theorem parseNetDev_roundtrip (headers : list gostring) (rows : list (gostring * list Z))
  (Hh : Forall (λ h, newline ∉ h ∧ ":"%char ∉ h) headers) (Hrows : Forall good_netdev_row rows) (Hnd : NoDup (map fst rows)) (name : gostring) (c : ifCounters) :
  parseNetDev (concat (map (λ h, h ++ [newline]) headers) ++ print_lines (map netdev_words rows)) !! name = Some c ↔
  ∃ vals, (name, vals) ∈ rows ∧ c = counters_of vals.
Proof.
  assert (omap netdev_row (strings_Split (concat (map (λ h, h ++ [newline]) headers) ++ print_lines (map netdev_words rows)) newline) =
    map (λ r, (r.1, counters_of r.2)) rows) as E.
  { assert (omap netdev_row (strings_Split (print_lines (map netdev_words rows)) newline) = map (λ r, (r.1, counters_of r.2)) rows) as <-.
    { rewrite split_words; [|apply Forall_map; eapply Forall_impl; [exact Hrows|by intros r [? _]]|done].
      clear Hnd. induction Hrows as [|r rows Hr _ IH]; [done|]. cbn [map omap list_omap]. rewrite netdev_row_words by done. by rewrite IH. }
    induction Hh as [|h headers [Hn Hc] _ IH]; [done|]. cbn [map concat]. rewrite <-!(assoc_L (++)).
    change ([newline] ++ ?l) with (newline :: l). rewrite strings_Split_app by done. cbn [omap list_omap].
    assert (netdev_row h = None) as ->; [|exact IH]. unfold netdev_row, strings_Cut. by rewrite (proj2 (IndexByte_None _ _)). }
  unfold parseNetDev. rewrite E, foldl_insert_rows.
  - rewrite lookup_empty, list_elem_of_fmap. split.
    + intros [?|([n vals] & Heq & Hin)]; [done|]. injection Heq as -> ->. by exists vals.
    + intros (vals & Hin & ->). right. by exists (name, vals).
  - by rewrite map_map.
  - intros r _. apply lookup_empty.
Qed.

(** The rates. Reported are the interfaces of both samples, each once, in order of names.
    Where a counter went back all rates are zero and a note says so; else no subtraction
    wraps around. The interfaces of one sample only are noted. *)
Theorem rates_report `{GoRange} (first second : gmap gostring ifCounters) (elapsed : Z) (speeds : gmap gostring float64)
  (Hc : ∀ n c, first !! n = Some c ∨ second !! n = Some c → counted c) :
  let '(interfaces, notes) := computeRates first second elapsed speeds in
  StronglySorted str_le (map ir_Name interfaces) ∧ NoDup (map ir_Name interfaces) ∧
  (∀ i, i ∈ interfaces ↔ ∃ n a b, first !! n = Some a ∧ second !! n = Some b ∧ i = interface_rate speeds (window_secs elapsed) n a b) ∧
  (∀ i a b, i ∈ interfaces → first !! ir_Name i = Some a → second !! ir_Name i = Some b →
     if wrapped a b
     then [ir_RxMbps i; ir_TxMbps i; ir_RxPps i; ir_TxPps i; ir_RxDropsPerS i; ir_TxDropsPerS i; ir_RxErrsPerS i; ir_TxErrsPerS i] = replicate 8 (f64_of_Z 0)
     else u64 (ic_rxBytes b - ic_rxBytes a) = ic_rxBytes b - ic_rxBytes a ∧ u64 (ic_txBytes b - ic_txBytes a) = ic_txBytes b - ic_txBytes a ∧
          u64 (ic_rxPackets b - ic_rxPackets a) = ic_rxPackets b - ic_rxPackets a ∧ u64 (ic_txPackets b - ic_txPackets a) = ic_txPackets b - ic_txPackets a ∧
          u64 (ic_rxDrop b - ic_rxDrop a) = ic_rxDrop b - ic_rxDrop a ∧ u64 (ic_txDrop b - ic_txDrop a) = ic_txDrop b - ic_txDrop a ∧
          u64 (ic_rxErrs b - ic_rxErrs a) = ic_rxErrs b - ic_rxErrs a ∧ u64 (ic_txErrs b - ic_txErrs a) = ic_txErrs b - ic_txErrs a) ∧
  (∀ note, note ∈ notes ↔
     (∃ n, note = disappeared n ∧ is_Some (first !! n) ∧ second !! n = None) ∨
     (∃ n, note = appeared n ∧ first !! n = None ∧ is_Some (second !! n)) ∨
     (∃ n a b, note = reset n ∧ first !! n = Some a ∧ second !! n = Some b ∧ wrapped a b = true)).
Proof.
  unfold computeRates. set (firsts := map fst (range_map first)). set (seconds := map fst (range_map second)).
  set (names := sort_Strings _). set (pairs := omap _ names).
  assert (∀ n, n ∈ firsts ↔ is_Some (first !! n)) as Hfirst by (intros n; apply range_keys).
  assert (∀ n, n ∈ seconds ↔ is_Some (second !! n)) as Hsecond by (intros n; apply range_keys).
  assert (∀ n, n ∈ names ↔ is_Some (first !! n) ∧ is_Some (second !! n)) as Hnames.
  { intros n. unfold names. rewrite elem_of_sort_Strings, list_elem_of_filter, bool_decide_eq_true, Hfirst. tauto. }
  assert (∀ n a b, (n, a, b) ∈ pairs ↔ first !! n = Some a ∧ second !! n = Some b) as Hpairs.
  { intros n a b. unfold pairs. rewrite list_elem_of_omap. split.
    - intros (m & _ & Hm). apply bind_Some in Hm as (x & Hx & Hm). apply bind_Some in Hm as (y & Hy & Hm). by injection Hm as -> -> ->.
    - intros [Ha Hb]. exists n. split; [apply Hnames; by rewrite Ha, Hb|]. by rewrite Ha, Hb. }
  assert (map ir_Name (map (λ p, let '(n, a, b) := p in interface_rate speeds (window_secs elapsed) n a b) pairs) = names) as Hn.
  { unfold pairs. assert (∀ n, n ∈ names → ∃ a b, first !! n = Some a ∧ second !! n = Some b) as Hin by (intros n [[a ?] [b ?]]%Hnames; by exists a, b).
    clear -Hin. induction names as [|n names IH]; [done|]. destruct (Hin n) as (a & b & Ha & Hb); [left|]. cbn [omap list_omap]. rewrite Ha, Hb.
    cbn [mbind option_bind map]. f_equal. apply IH. intros; apply Hin; by right. }
  split_and!.
  - rewrite Hn. apply sort_Strings_sorted.
  - rewrite Hn. apply NoDup_sort_Strings, NoDup_filter. unfold firsts. apply range_keys_NoDup.
  - intros i. rewrite list_elem_of_fmap. split.
    + intros ([[n a] b] & -> & [Ha Hb]%Hpairs). by exists n, a, b.
    + intros (n & a & b & Ha & Hb & ->). exists (n, a, b). split; [done|by apply Hpairs].
  - intros i a b ([[n a'] b'] & -> & [Ha' Hb']%Hpairs)%list_elem_of_fmap Ha Hb. simpl in Ha, Hb.
    assert (a' = a) as -> by congruence. assert (b' = b) as -> by congruence. destruct (wrapped a b) eqn:Hw; [unfold interface_rate; by rewrite Hw|].
    pose proof (Hc n a (or_introl Ha)) as Hca. pose proof (Hc n b (or_intror Hb)) as Hcb.
    unfold counted in Hca, Hcb. rewrite !Forall_cons in Hca, Hcb. unfold wrapped in Hw. rewrite !orb_false_iff, !Z.ltb_ge in Hw.
    destruct_and!. split_and!; apply u64_diff; try done; lia.
  - intros note. rewrite elem_of_app, elem_of_sort_Strings, elem_of_app, !list_elem_of_fmap, list_elem_of_omap.
    setoid_rewrite list_elem_of_filter. setoid_rewrite bool_decide_eq_false. setoid_rewrite Hfirst. setoid_rewrite Hsecond.
    setoid_rewrite <-eq_None_not_Some. split.
    + intros [[(n & -> & ? & ?)|(n & -> & ? & ?)]|([[n a] b] & [Ha Hb]%Hpairs & Hr)].
      * left. by exists n.
      * right. left. by exists n.
      * right. right. exists n, a, b. destruct (wrapped a b); [|done]. by injection Hr as <-.
    + intros [(n & -> & ? & ?)|[(n & -> & ? & ?)|(n & a & b & -> & Ha & Hb & Hw)]].
      * left. left. by exists n.
      * left. right. by exists n.
      * right. exists (n, a, b). split; [by apply Hpairs|]. by rewrite Hw.
Qed.

(** The summary counts all interfaces and names the busiest, the first in order of names
    among equals. *)
Theorem busiest_interface (interfaces : list InterfaceRate) (Hnan : Forall (λ i, is_nan (combined i) = false) interfaces) :
  let s := buildSummary interfaces in
  sm_InterfacesMeasured s = Z.of_nat (length interfaces) ∧
  (interfaces = [] → sm_BusiestInterface s = []) ∧
  (interfaces ≠ [] → ∃ rate, busiest_of interfaces (sm_BusiestInterface s) rate).
Proof.
  cbn zeta. unfold buildSummary. pose proof (add_interfaces interfaces Hnan) as Hb.
  destruct (foldl _ _ interfaces) as [[rx tx] b] eqn:E. cbn [snd] in Hb. cbn [sm_InterfacesMeasured sm_BusiestInterface]. split_and!; [done| |].
  - intros ->. simpl in E. by injection E as _ _ <-.
  - intros Hne. destruct b as [[name rate]|]; [|done]. by exists rate.
Qed.

(** ** Witnesses *)

Definition netdev_headers : list gostring := [go "Inter-|   Receive  |  Transmit"; go " face |bytes    packets errs drop"].

Definition netdev_rows : list (gostring * list Z) := [(go "eth0", [100; 2; 0; 0; 0; 0; 0; 0; 50; 1; 0; 0; 0; 0; 0; 0])].

Definition eth0_before : ifCounters := MkIfCounters 100 2 0 0 50 1 0 0.
Definition eth0_after : ifCounters := MkIfCounters 1000100 902 0 3 50 1 0 0.

Lemma parseNetDev_roundtrip_witness :
  parseNetDev (concat (map (λ h, h ++ [newline]) netdev_headers) ++ print_lines (map netdev_words netdev_rows)) !! go "eth0" = Some eth0_before.
Proof.
  apply (parseNetDev_roundtrip netdev_headers netdev_rows).
  - by_decide.
  - apply Forall_cons_2; [|apply Forall_nil_2]. split_and!; [by_decide|by_decide|by_decide|by_decide|by_decide|].
    repeat (apply Forall_cons_2; [split; by vm_compute|]). apply Forall_nil_2.
  - by_decide.
  - eexists. split; [left|reflexivity].
Defined.

Lemma rates_report_witness :
  let first : gmap gostring ifCounters := {[go "eth0" := eth0_before; go "veth1" := eth0_before]} in
  let second : gmap gostring ifCounters := {[go "eth0" := eth0_after]} in
  let '(interfaces, notes) := @computeRates list_range first second 500000000 ∅ in
  interface_rate ∅ (window_secs 500000000) (go "eth0") eth0_before eth0_after ∈ interfaces ∧ disappeared (go "veth1") ∈ notes.
Proof.
  cbn zeta. set (first := {[go "eth0" := eth0_before; go "veth1" := eth0_before]} : gmap gostring ifCounters).
  set (second := {[go "eth0" := eth0_after]} : gmap gostring ifCounters).
  assert (∀ n c, first !! n = Some c ∨ second !! n = Some c → counted c) as Hc.
  { assert (counted eth0_before ∧ counted eth0_after) as [Hb Ha] by (split; unfold counted; by_decide).
    intros n c [Hn|Hn]; [apply lookup_insert_Some in Hn as [[_ <-]|[_ Hn]]; [done|]|]; by apply lookup_singleton_Some in Hn as [_ <-]. }
  pose proof (@rates_report list_range first second 500000000 ∅ Hc) as Hr. destruct (computeRates _ _ _ _) as [interfaces notes].
  destruct Hr as (_ & _ & Hi & _ & Hn). split.
  - apply Hi. exists (go "eth0"), eth0_before, eth0_after. split_and!; by vm_compute.
  - apply Hn. left. exists (go "veth1"). split_and!; [done|vm_compute; by eexists|by vm_compute].
Defined.

Lemma busiest_interface_witness :
  let l := [interface_rate ∅ (window_secs 500000000) (go "eth0") eth0_before eth0_after] in
  Forall (λ i, is_nan (combined i) = false) l ∧ ∃ rate, busiest_of l (sm_BusiestInterface (buildSummary l)) rate.
Proof.
  cbn zeta. assert (Forall (λ i, is_nan (combined i) = false) [interface_rate ∅ (window_secs 500000000) (go "eth0") eth0_before eth0_after]) as H
    by (repeat constructor; by vm_compute).
  split; [exact H|]. by apply busiest_interface.
Defined.
