(* ===== verification/Cgroup.v ===== *)
(** * Cgroup limits: the tool get_cgroup_limits

    registry/tools/cgrouplimits/cgrouplimits.go: the limits one cgroup sets, the limits in
    force for it (those of all cgroups above it, too), and the two modes of the tool.

    A directory is the list of its elements, deepest first. The value of
    [strconv.ParseFloat], which is looked at also where there is an error, is a parameter. *)

From Stdlib Require Import Ascii.
From stdpp Require Import base numbers gmap strings sorting list.
From S2P Require Import Prelude GoStrings GoFloat GoNet GoOs Cpu.

Open Scope Z_scope.

(** ** Data *)

Record CPUResourceLimits := MkCPULimits { cl_AllowedLogicalCores : float64; cl_IsUnlimited : bool; cl_ThrottlingDetected : bool; cl_ThrottledTimeMs : Z }.

Record CpusetResourceLimits := MkCpusetLimits { cs_AllowedCPUs : list Z; cs_AllowedNUMANodes : list Z; cs_IsPinned : bool }.

Record MemoryResourceLimits := MkMemoryLimits { ml_LimitMB : Z; ml_CurrentUsageMB : Z; ml_IsUnlimited : bool; ml_OOMKillsDetected : Z }.

Record ResourceLimits := MkResourceLimits { rl_CPU : CPUResourceLimits; rl_Cpuset : CpusetResourceLimits; rl_Memory : MemoryResourceLimits }.

(** What the tool answers: nothing for version 1; the limits of one process; or those
    of the workload managers. *)
Variant CgroupLimitsResult :=
| CgroupV1
| CgroupTarget (pid : Z) (path : gostring) (limits : ResourceLimits)
| CgroupGlobal (managers : gmap gostring ResourceLimits).

(** ** One cgroup *)

Definition cpu_list_part (part : gostring) : outcome (list Z) :=
  if bool_decide ("-"%char ∈ part) then
    match strings_Split part "-"%char with
    | [a; b] => if int_of a <=? int_of b then cpu_range (int_of a) (int_of b) else Ret []
    | _ => Ret []
    end
  else Ret [int_of part].

Definition parseCPUList (val : gostring) : outcome (list Z) :=
  let val := strings_TrimSpace val in
  if bool_decide (val = []) || bool_decide (val = go "max") then Ret []
  else parts ← mapM_go cpu_list_part (strings_Split val ","%char); Ret (concat parts).

Section limits.
Context (ParseFloat : gostring → float64).

(** The limit of cpu.max: cores, or none. *)
Definition cpu_max (data : gostring) : option float64 :=
  let val := strings_TrimSpace data in
  if strings_HasPrefix val (go "max") then None
  else
    match strings_Fields val with
    | max :: period :: _ =>
        if f64_ltb (f64_of_Z 0) (ParseFloat period) then Some (f64_div (ParseFloat max) (ParseFloat period)) else None
    | _ => None
    end.

(** The lines of two fields that begin with a key. *)
Definition stat_values (key : gostring) (data : gostring) : list Z :=
  omap (λ fields, match fields with [k; v] => if decide (k = key) then Some (int_of v) else None | _ => None end) (scan_fields data).

Definition or_file {A} `{FileSystem} (path : list gostring) (absent : A) (present : gostring → A) : A :=
  match ReadFile path with inr _ => absent | inl data => present data end.

Definition parseLimits `{FileSystem} (cgroupDir : gostring) : outcome ResourceLimits :=
  let cores := or_file [cgroupDir; go "cpu.max"] None cpu_max in
  let throttled := or_file [cgroupDir; go "cpu.stat"] false (λ d, existsb (λ nr, 0 <? nr) (stat_values (go "nr_throttled") d)) in
  let time := or_file [cgroupDir; go "cpu.stat"] 0 (λ d, default 0 ((λ usec, Z.quot usec 1000) <$> last (stat_values (go "throttled_usec") d))) in
  cpus ← or_file [cgroupDir; go "cpuset.cpus"] (Ret []) parseCPUList;
  mems ← or_file [cgroupDir; go "cpuset.mems"] (Ret []) parseCPUList;
  let memory_max :=
    or_file [cgroupDir; go "memory.max"] None
      (λ d, let val := strings_TrimSpace d in if decide (val = go "max") then None else Some (Z.quot (int_of val) (1024 * 1024))) in
  let current := or_file [cgroupDir; go "memory.current"] 0 (λ d, Z.quot (int_of (strings_TrimSpace d)) (1024 * 1024)) in
  let kills := or_file [cgroupDir; go "memory.events"] 0 (λ d, default 0 (last (stat_values (go "oom_kill") d))) in
  Ret (MkResourceLimits
    (MkCPULimits (default (f64_of_Z 0) cores) (bool_decide (cores = None)) throttled time)
    (MkCpusetLimits cpus mems (bool_decide (cpus ≠ []) || bool_decide (mems ≠ [])))
    (MkMemoryLimits (default 0 memory_max) current (bool_decide (memory_max = None)) kills)).

(** ** The limits in force *)

Definition merge_limits (isLeaf : bool) (effective local : ResourceLimits) : ResourceLimits :=
  let e := rl_CPU effective in let l := rl_CPU local in
  let em := rl_Memory effective in let lm := rl_Memory local in
  let tighter := negb (cl_IsUnlimited l) && (cl_IsUnlimited e || f64_ltb (cl_AllowedLogicalCores l) (cl_AllowedLogicalCores e)) in
  let mtighter := negb (ml_IsUnlimited lm) && (ml_IsUnlimited em || (ml_LimitMB lm <? ml_LimitMB em)) in
  MkResourceLimits
    (MkCPULimits (if tighter then cl_AllowedLogicalCores l else cl_AllowedLogicalCores e) (if tighter then false else cl_IsUnlimited e)
      (cl_ThrottlingDetected e || cl_ThrottlingDetected l) (Z.max (cl_ThrottledTimeMs e) (cl_ThrottledTimeMs l)))
    (if cs_IsPinned (rl_Cpuset local) && negb (cs_IsPinned (rl_Cpuset effective)) then rl_Cpuset local else rl_Cpuset effective)
    (MkMemoryLimits (if mtighter then ml_LimitMB lm else ml_LimitMB em) (if isLeaf then ml_CurrentUsageMB lm else ml_CurrentUsageMB em)
      (if mtighter then false else ml_IsUnlimited em) (Z.max (ml_OOMKillsDetected em) (ml_OOMKillsDetected lm))).

Definition no_limits : ResourceLimits :=
  MkResourceLimits (MkCPULimits (f64_of_Z 0) true false 0) (MkCpusetLimits [] [] false) (MkMemoryLimits 0 0 true 0).

(** The text of a directory. *)
Definition render (dir : list gostring) : gostring :=
  match dir with [] => go "/" | _ => concat (map (λ e, go "/" ++ e) (reverse dir)) end.

Definition cgroup_root : list gostring := [go "cgroup"; go "fs"; go "sys"].

(** The loop goes up as long as the directory exists, to the root of the hierarchy. *)
Fixpoint climb `{FileSystem} (dir : list gostring) (isLeaf : bool) (effective : ResourceLimits) : outcome ResourceLimits :=
  let current := render dir in
  if negb (path_exists [current]) then Ret effective
  else
    local ← parseLimits current;
    let effective := merge_limits isLeaf effective local in
    if bool_decide (current = render cgroup_root) || bool_decide (current = go "/") then Ret effective
    else
      match dir with
      | [] => Ret effective
      | _ :: parent => if strings_HasPrefix (render parent) (render cgroup_root) then climb parent false effective else Ret effective
      end.

Definition getEffectiveLimits `{FileSystem} (dir : list gostring) : outcome ResourceLimits := climb dir true no_limits.

(** ** The tool *)

(** [filepath.Join] of a directory and a path: empty elements and dots go, two dots take
    the element before them. *)
Definition join_element (dir : list gostring) (e : gostring) : list gostring :=
  if bool_decide (e = []) || bool_decide (e = go ".") then dir else if decide (e = go "..") then tail dir else e :: dir.

Definition filepath_Join (dir : list gostring) (path : gostring) : list gostring := foldl join_element dir (strings_Split path "/"%char).

(** The path of the line of version 2. *)
Fixpoint unified_path (lines : list gostring) : gostring :=
  match lines with
  | [] => []
  | line :: lines =>
      match strings_Cut line ":"%char with
      | Some (id, rest) =>
          match strings_Cut rest ":"%char with
          | Some (controllers, path) => if bool_decide (id = go "0") && bool_decide (controllers = []) then path else unified_path lines
          | None => unified_path lines
          end
      | None => unified_path lines
      end
  end.

Definition executeTargetedMode `{FileSystem} (pid : Z) : outcome CgroupLimitsResult :=
  match ReadFile [go "/proc"; strconv_Itoa pid; go "cgroup"] with
  | inr err => Err (Wrapf "failed to read %s: %v" err)
  | inl data =>
      match unified_path (scan_lines (raw_lines data)).1 with
      | [] => Err (Errorf "could not find unified cgroup path (0::) in proc file")
      | path => limits ← getEffectiveLimits (filepath_Join cgroup_root path); Ret (CgroupTarget pid path limits)
      end
  end.

Definition managers : list gostring := [go "slurm"; go "kubepods.slice"; go "docker"; go "system.slice/docker.service"].

Definition add_manager `{FileSystem} (found : gmap gostring ResourceLimits) (mgr : gostring) : outcome (gmap gostring ResourceLimits) :=
  let dir := filepath_Join cgroup_root mgr in
  if path_exists [render dir] then limits ← getEffectiveLimits dir; Ret (<[mgr := limits]> found) else Ret found.

Definition executeGlobalMode `{FileSystem} : outcome CgroupLimitsResult := CgroupGlobal <$> foldM_go add_manager ∅ managers.

(** The target_pid of the arguments, if it is there. *)
Definition cgroup_Execute `{FileSystem} (args : outcome (option Z)) : outcome CgroupLimitsResult :=
  if negb (path_exists [render cgroup_root; go "cgroup.controllers"]) then Ret CgroupV1
  else
    match args with
    | Ret (Some pid) => executeTargetedMode pid
    | Ret None => executeGlobalMode
    | _ => Err (Errorf "invalid arguments: %v")
    end.

End limits.

(** ** Lemmas: the directories that are read *)

Section lemmas.
Context `{FileSystem} (ParseFloat : gostring → float64).

(** The directories the climb reads, the leaf first. *)
Fixpoint visited (dir : list gostring) : list gostring :=
  let current := render dir in
  if negb (path_exists [current]) then []
  else
    current ::
    if bool_decide (current = render cgroup_root) || bool_decide (current = go "/") then []
    else match dir with [] => [] | _ :: parent => if strings_HasPrefix (render parent) (render cgroup_root) then visited parent else [] end.

(** All limits put together, the leaf's first. *)
Definition merge_all (locals : list ResourceLimits) : ResourceLimits :=
  match locals with [] => no_limits | leaf :: locals => foldl (merge_limits false) (merge_limits true no_limits leaf) locals end.

Lemma climb_false dir eff : climb ParseFloat dir false eff =
  (locals ← mapM_go (parseLimits ParseFloat) (visited dir); Ret (foldl (merge_limits false) eff locals)).
Proof.
  revert eff. induction dir as [|e dir IH]; intros eff; unfold climb, visited; fold climb; fold visited.
  - destruct (negb _); [done|]. cbn [mapM_go]. destruct (parseLimits _ _); [|done..]. cbn [mbind outcome_bind].
    by destruct (_ || _).
  - set (current := render (e :: dir)). destruct (negb (path_exists [current])); [done|]. cbn [mapM_go].
    destruct (parseLimits _ _) as [local| | |]; [|done..]. cbn [mbind outcome_bind].
    destruct (_ || _); [done|]. destruct (strings_HasPrefix _ _); [|done]. rewrite IH. by destruct (mapM_go _ (visited dir)).
Qed.

Lemma getEffectiveLimits_visited dir : getEffectiveLimits ParseFloat dir =
  (locals ← mapM_go (parseLimits ParseFloat) (visited dir); Ret (merge_all locals)).
Proof.
  unfold getEffectiveLimits. destruct dir as [|e dir]; unfold climb, visited; fold climb; fold visited.
  - destruct (negb _); [done|]. cbn [mapM_go]. destruct (parseLimits _ _); [|done..]. cbn [mbind outcome_bind]. by destruct (_ || _).
  - set (current := render (e :: dir)). destruct (negb (path_exists [current])); [done|]. cbn [mapM_go].
    destruct (parseLimits _ _) as [local| | |]; [|done..]. cbn [mbind outcome_bind].
    destruct (_ || _); [done|]. destruct (strings_HasPrefix _ _); [|done]. rewrite climb_false. by destruct (mapM_go _ (visited dir)).
Qed.

Lemma render_app c : render (c ++ cgroup_root) = render cgroup_root ++ concat (map (λ e, go "/" ++ e) (reverse c)).
Proof.
  unfold render at 1. destruct (c ++ cgroup_root) as [|x l] eqn:E; [by destruct c|]. rewrite <-E.
  rewrite reverse_app, map_app, concat_app. done.
Qed.

Lemma visited_all comps :
  (∀ k, (k ≤ length comps)%nat → path_exists [render (drop k comps ++ cgroup_root)] = true) →
  visited (comps ++ cgroup_root) = map (λ k, render (drop k comps ++ cgroup_root)) (seq 0 (S (length comps))).
Proof.
  induction comps as [|e comps IH]; intros Hex.
  - specialize (Hex 0%nat ltac:(simpl; lia)). cbn [drop app] in Hex. change ([] ++ cgroup_root) with cgroup_root. cbn [length seq map drop app].
    change cgroup_root with (go "cgroup" :: [go "fs"; go "sys"]) at 1. unfold visited; fold visited. change (go "cgroup" :: [go "fs"; go "sys"]) with cgroup_root.
    rewrite Hex. cbn [negb]. by rewrite bool_decide_true.
  - pose proof (Hex 0%nat ltac:(simpl; lia)) as H0. cbn [drop] in H0. change ((e :: comps) ++ cgroup_root) with (e :: (comps ++ cgroup_root)).
    unfold visited; fold visited. change (e :: (comps ++ cgroup_root)) with ((e :: comps) ++ cgroup_root). rewrite H0. cbn [negb].
    assert (length (render cgroup_root) < length (render ((e :: comps) ++ cgroup_root)))%nat as Hlen.
    { rewrite render_app, length_app, reverse_cons, map_app, concat_app, length_app. simpl. lia. }
    rewrite !bool_decide_false by (intros Heq; rewrite Heq in Hlen; vm_compute in Hlen; lia). cbn [orb].
    assert (strings_HasPrefix (render (comps ++ cgroup_root)) (render cgroup_root) = true) as -> by (apply strings_HasPrefix_spec; rewrite render_app; by eexists).
    rewrite IH; [|intros k Hk; apply (Hex (S k)); simpl; lia].
    cbn [length]. rewrite <-(cons_seq (S (length comps)) 0). cbn [map drop]. f_equal. rewrite <-fmap_S_seq. by rewrite map_map.
Qed.

(** ** Lemmas: what is in force *)

Definition cpu_limited (l : ResourceLimits) : Prop := cl_IsUnlimited (rl_CPU l) = false.
Definition memory_limited (l : ResourceLimits) : Prop := ml_IsUnlimited (rl_Memory l) = false.
Definition cores (l : ResourceLimits) : float64 := cl_AllowedLogicalCores (rl_CPU l).
Definition limit_mb (l : ResourceLimits) : Z := ml_LimitMB (rl_Memory l).
Definition pinned (l : ResourceLimits) : bool := cs_IsPinned (rl_Cpuset l).

(** What is in force where all of [locals] apply, the leaf's first. *)
Record in_force (locals : list ResourceLimits) (e : ResourceLimits) : Prop := {
  if_cpu : cpu_limited e ↔ ∃ l, l ∈ locals ∧ cpu_limited l;
  if_cores : cpu_limited e → ∃ l, l ∈ locals ∧ cpu_limited l ∧ cores l = cores e;
  if_cores_least : ∀ l, l ∈ locals → cpu_limited l → f64_ltb (cores l) (cores e) = false;
  if_memory : memory_limited e ↔ ∃ l, l ∈ locals ∧ memory_limited l;
  if_mb : memory_limited e → ∃ l, l ∈ locals ∧ memory_limited l ∧ limit_mb l = limit_mb e;
  if_mb_least : ∀ l, l ∈ locals → memory_limited l → limit_mb e ≤ limit_mb l;
  if_throttled : cl_ThrottlingDetected (rl_CPU e) = true ↔ ∃ l, l ∈ locals ∧ cl_ThrottlingDetected (rl_CPU l) = true;
  if_time : ∀ l, l ∈ locals → cl_ThrottledTimeMs (rl_CPU l) ≤ cl_ThrottledTimeMs (rl_CPU e);
  if_kills : ∀ l, l ∈ locals → ml_OOMKillsDetected (rl_Memory l) ≤ ml_OOMKillsDetected (rl_Memory e);
  if_pinned : match head (filter (λ l, pinned l = true) locals) with
              | Some l => rl_Cpuset e = rl_Cpuset l
              | None => rl_Cpuset e = rl_Cpuset no_limits
              end;
  if_usage : ml_CurrentUsageMB (rl_Memory e) = match head locals with Some l => ml_CurrentUsageMB (rl_Memory l) | None => 0 end
}.

Lemma in_force_pinned locals e : in_force locals e → pinned e = existsb pinned locals.
Proof.
  intros [_ _ _ _ _ _ _ _ _ Hp _]. unfold pinned. destruct (head (filter _ locals)) as [l|] eqn:E; rewrite Hp.
  - apply head_Some in E as [l' E]. assert (l ∈ filter (λ l, pinned l = true) locals) as [Hl Hin]%list_elem_of_filter by (rewrite E; left).
    unfold pinned in Hl. rewrite Hl. symmetry. apply existsb_exists. exists l. split; [by apply list_elem_of_In|done].
  - symmetry. apply not_true_iff_false. intros (l & Hl%list_elem_of_In & Hpl)%existsb_exists.
    assert (l ∈ filter (λ l, pinned l = true) locals) as Hin by (by apply list_elem_of_filter). destruct (filter _ locals); [by apply elem_of_nil in Hin|done].
Qed.
Lemma in_force_nil : in_force [] no_limits.
Proof.
  split; try done; try (by intros ? ?%elem_of_nil); try (split; [done|by intros (? & ?%elem_of_nil & _)]).
Qed.

Lemma merge_cpu leaf e l :
  let m := merge_limits leaf e l in
  (cpu_limited m ↔ cpu_limited e ∨ cpu_limited l) ∧
  (m = m → (cpu_limited l ∧ (¬ cpu_limited e ∨ f64_ltb (cores l) (cores e) = true) ∧ cores m = cores l) ∨
           ((¬ cpu_limited l ∨ cpu_limited e ∧ f64_ltb (cores l) (cores e) = false) ∧ cores m = cores e)).
Proof.
  cbn zeta. unfold merge_limits, cpu_limited, cores. cbn [rl_CPU cl_IsUnlimited cl_AllowedLogicalCores].
  destruct (cl_IsUnlimited (rl_CPU l)), (cl_IsUnlimited (rl_CPU e)); cbn [negb andb orb]; try destruct (f64_ltb _ _); naive_solver.
Qed.

Lemma merge_memory leaf e l :
  let m := merge_limits leaf e l in
  (memory_limited m ↔ memory_limited e ∨ memory_limited l) ∧
  (m = m → (memory_limited l ∧ (¬ memory_limited e ∨ limit_mb l < limit_mb e) ∧ limit_mb m = limit_mb l) ∨
           ((¬ memory_limited l ∨ memory_limited e ∧ limit_mb e ≤ limit_mb l) ∧ limit_mb m = limit_mb e)).
Proof.
  cbn zeta. unfold merge_limits, memory_limited, limit_mb. cbn [rl_Memory ml_IsUnlimited ml_LimitMB].
  destruct (ml_IsUnlimited (rl_Memory l)), (ml_IsUnlimited (rl_Memory e)); cbn [negb andb orb];
    try destruct (Z.ltb_spec (ml_LimitMB (rl_Memory l)) (ml_LimitMB (rl_Memory e))); naive_solver.
Qed.

Lemma in_force_step locals e l :
  Forall (λ l, is_nan (cores l) = false) (locals ++ [l]) → in_force locals e →
  in_force (locals ++ [l]) (merge_limits (bool_decide (locals = [])) e l).
Proof.
  intros Hnan Hf. pose proof (in_force_pinned _ _ Hf) as Hpin. destruct Hf as [Hc Hcs Hcl Hm Hms Hml Ht Htime Hk Hp Hu].
  set (m := merge_limits _ e l). destruct (merge_cpu (bool_decide (locals = [])) e l) as [Mc Mcs]. destruct (merge_memory (bool_decide (locals = [])) e l) as [Mm Mms].
  specialize (Mcs eq_refl). specialize (Mms eq_refl). fold m in Mc, Mcs, Mm, Mms.
  assert (∀ P : ResourceLimits → Prop, (∃ x, x ∈ locals ++ [l] ∧ P x) ↔ (∃ x, x ∈ locals ∧ P x) ∨ P l) as Hex.
  { intros P. setoid_rewrite elem_of_app. setoid_rewrite list_elem_of_singleton. naive_solver. }
  rewrite Forall_forall in Hnan. split.
  - by rewrite Mc, Hex, Hc.
  - intros Hlim%Mc. rewrite Hex. destruct Mcs as [(Hl & _ & ->)|(Hl & ->)]; [by right|]. left.
    apply Hcs. naive_solver.
  - intros x [Hx|Hx%list_elem_of_singleton]%elem_of_app Hlx.
    + assert (cpu_limited e) as He by (apply Hc; eauto). destruct Mcs as [(Hl & [?|Hlt] & ->)|(_ & ->)]; [done| |by apply Hcl].
      apply not_true_is_false. intros Hxl. assert (f64_ltb (cores x) (cores e) = false) as Hge by (by apply Hcl).
      assert (f64_ltb (cores x) (cores e) = true) by (by eapply f64_ltb_trans). congruence.
    + subst x. destruct Mcs as [(_ & _ & ->)|([?|[_ ?]] & ->)]; [apply f64_ltb_irrefl|done|done].
  - by rewrite Mm, Hex, Hm.
  - intros Hlim%Mm. rewrite Hex. destruct Mms as [(Hl & _ & ->)|(Hl & ->)]; [by right|]. left. apply Hms. naive_solver.
  - intros x [Hx|Hx%list_elem_of_singleton]%elem_of_app Hlx.
    + assert (memory_limited e) as He by (apply Hm; eauto). specialize (Hml x Hx Hlx). destruct Mms as [(Hl & [?|Hlt] & ->)|(_ & ->)]; [done|lia|done].
    + subst x. destruct Mms as [(_ & _ & ->)|([?|[_ ?]] & ->)]; [lia|done|done].
  - rewrite Hex, <-Ht. unfold m, merge_limits. cbn [rl_CPU cl_ThrottlingDetected]. apply orb_true_iff.
  - intros x [Hx|Hx%list_elem_of_singleton]%elem_of_app; unfold m, merge_limits; cbn [rl_CPU cl_ThrottledTimeMs]; [specialize (Htime x Hx)|subst x]; lia.
  - intros x [Hx|Hx%list_elem_of_singleton]%elem_of_app; unfold m, merge_limits; cbn [rl_Memory ml_OOMKillsDetected]; [specialize (Hk x Hx)|subst x]; lia.
  - rewrite filter_snoc. assert (rl_Cpuset m = if pinned l && negb (pinned e) then rl_Cpuset l else rl_Cpuset e) as -> by done.
    destruct (head (filter (λ l, pinned l = true) locals)) as [f|] eqn:E.
    + assert (head (if decide (pinned l = true) then filter (λ l, pinned l = true) locals ++ [l] else filter (λ l, pinned l = true) locals) = Some f) as ->.
      { case_decide; [|done]. destruct (filter _ locals); [done|]. exact E. }
      assert (pinned e = true) as ->; [|by rewrite andb_false_r]. rewrite Hpin. apply existsb_exists. exists f.
      apply head_Some in E as [t E]. assert (f ∈ filter (λ l, pinned l = true) locals) as [? Hin]%list_elem_of_filter by (rewrite E; left).
      split; [by apply list_elem_of_In|done].
    + assert (pinned e = false) as -> by (unfold pinned; by rewrite Hp). destruct (filter _ locals); [|done].
      destruct (pinned l); [by rewrite decide_True|by rewrite decide_False].
  - unfold m, merge_limits. cbn [rl_Memory ml_CurrentUsageMB]. destruct locals; [done|]. rewrite bool_decide_false by done. exact Hu.
Qed.

Lemma merge_all_in_force locals : Forall (λ l, is_nan (cores l) = false) locals → in_force locals (merge_all locals).
Proof.
  induction locals as [|l locals IH] using rev_ind; intros Hnan; [apply in_force_nil|].
  assert (merge_all (locals ++ [l]) = merge_limits (bool_decide (locals = [])) (merge_all locals) l) as ->.
  { destruct locals as [|leaf locals]; [done|]. cbn [app merge_all]. by rewrite foldl_app. }
  apply in_force_step; [done|]. apply IH. by apply Forall_app in Hnan as [? _].
Qed.
End lemmas.

(** ** Properties *)

(** C27: The limits in force for a cgroup. Where it and all cgroups above it exist, each of them up
    to the root counts: the number of cores and the memory are the least any of them allows
    (and unlimited exactly if none limits them), throttling and kills anywhere are
    reported, the processors are those of the nearest cgroup that is pinned, and the use of memory is
    the cgroup's own. *)
Theorem effective_limits `{FileSystem} (ParseFloat : gostring → float64) (comps : list gostring) (locals : list ResourceLimits)
  (Hex : ∀ k, (k ≤ length comps)%nat → path_exists [render (drop k comps ++ cgroup_root)] = true)
  (Hl : mapM_go (parseLimits ParseFloat) (map (λ k, render (drop k comps ++ cgroup_root)) (seq 0 (S (length comps)))) = Ret locals)
  (Hnan : Forall (λ l, is_nan (cores l) = false) locals) :
  ∃ e, getEffectiveLimits ParseFloat (comps ++ cgroup_root) = Ret e ∧ in_force locals e.
Proof.
  exists (merge_all locals). split; [|by apply merge_all_in_force].
  rewrite getEffectiveLimits_visited, visited_all by done. by rewrite Hl.
Qed.

(** A process's cgroup: the path of the line of version 2, wherever it is among those of
    version 1. *)
Theorem unified_path_line (before after : list gostring) (path : gostring)
  (Hb : Forall (λ line, ∃ id rest, line = id ++ go ":" ++ rest ∧ ":"%char ∉ id ∧ id ≠ go "0") before) :
  unified_path (before ++ (go "0::" ++ path) :: after) = path.
Proof.
  induction Hb as [|line before (id & rest & -> & Hid & Hne) _ IH]; [done|]. cbn [app unified_path].
  change (id ++ go ":" ++ rest) with (id ++ ":"%char :: rest). rewrite Cut_app by done.
  destruct (strings_Cut rest ":"%char) as [[c p]|]; [|exact IH]. by rewrite bool_decide_false.
Qed.

(** ** Witnesses *)

Definition sample_float (s : gostring) : float64 := match strconv_Atoi s with Ret v => f64_of_Z v | _ => f64_of_Z 0 end.

(** A job whose step may use two cores, in a job that is pinned and may use 1 GiB. *)
Definition cgroup_fs : FileSystem :=
  let root := go "/sys/fs/cgroup" in
  let job := go "/sys/fs/cgroup/job" in
  let step := go "/sys/fs/cgroup/job/step" in
  mem_fs [([step; go "cpu.max"], go "200000 100000"); ([job; go "cpu.max"], go "max 100000");
          ([job; go "memory.max"], go "1073741824"); ([step; go "memory.max"], go "max");
          ([job; go "cpuset.cpus"], go "0-3"); ([step; go "memory.current"], go "10485760")]
         [([root], []); ([job], []); ([step], [])] [].

Lemma effective_limits_witness :
  ∃ e, @getEffectiveLimits sample_float cgroup_fs (filepath_Join cgroup_root (go "/job/step")) = Ret e ∧
    cores e = f64_of_Z 2 ∧ limit_mb e = 1024 ∧ cs_AllowedCPUs (rl_Cpuset e) = [0; 1; 2; 3] ∧ ml_CurrentUsageMB (rl_Memory e) = 10.
Proof.
  change (filepath_Join cgroup_root (go "/job/step")) with ([go "step"; go "job"] ++ cgroup_root).
  destruct (@effective_limits cgroup_fs sample_float [go "step"; go "job"]
    [MkResourceLimits (MkCPULimits (f64_of_Z 2) false false 0) (MkCpusetLimits [] [] false) (MkMemoryLimits 0 10 true 0);
     MkResourceLimits (MkCPULimits (f64_of_Z 0) true false 0) (MkCpusetLimits [0; 1; 2; 3] [] true) (MkMemoryLimits 1024 0 false 0);
     no_limits]) as (e & He & Hf).
  - intros [|[|[|k]]] Hk; [by vm_compute..|simpl in Hk; lia].
  - by vm_compute.
  - repeat (apply Forall_cons_2; [by vm_compute|]). apply Forall_nil_2.
  - exists e. split; [exact He|]. destruct Hf as [Hc Hcs _ Hm Hms _ _ _ _ Hp Hu].
    assert (rl_Cpuset e = MkCpusetLimits [0; 1; 2; 3] [] true) as -> by exact Hp. simpl in Hu. split_and!; [| |done|done].
    + destruct Hcs as (l & Hl & Hlim & <-); [apply Hc; eexists; split; [left|done]|].
      apply elem_of_cons in Hl as [->|[->|[->|[]%elem_of_nil]%elem_of_cons]%elem_of_cons]; [done|discriminate Hlim|discriminate Hlim].
    + destruct Hms as (l & Hl & Hlim & <-); [apply Hm; eexists; split; [right; left|done]|].
      apply elem_of_cons in Hl as [->|[->|[->|[]%elem_of_nil]%elem_of_cons]%elem_of_cons]; [discriminate Hlim|done|discriminate Hlim].
Defined.

Lemma unified_path_line_witness :
  unified_path [go "12:cpu,cpuacct:/old"; go "0::/job/step"; go "1:name=systemd:/x"] = go "/job/step".
Proof.
  apply (unified_path_line [go "12:cpu,cpuacct:/old"] [go "1:name=systemd:/x"] (go "/job/step")).
  apply Forall_cons_2; [|apply Forall_nil_2]. exists (go "12"), (go "cpu,cpuacct:/old"). split_and!; [reflexivity|by_decide|by_decide].
Defined.

(** A cgroup that restricts memory nodes alone counts as pinned, and hides the processors its
    parent is restricted to. *)
Theorem mems_hide_cpus :
  let root := go "/sys/fs/cgroup" in
  let fs := mem_fs [([go "/sys/fs/cgroup/job/step"; go "cpuset.mems"], go "0"); ([go "/sys/fs/cgroup/job"; go "cpuset.cpus"], go "0-3")]
              [([root], []); ([go "/sys/fs/cgroup/job"], []); ([go "/sys/fs/cgroup/job/step"], [])] [] in
  rl_Cpuset <$> @getEffectiveLimits sample_float fs (filepath_Join cgroup_root (go "/job")) = Ret (MkCpusetLimits [0; 1; 2; 3] [] true) ∧
  rl_Cpuset <$> @getEffectiveLimits sample_float fs (filepath_Join cgroup_root (go "/job/step")) = Ret (MkCpusetLimits [] [0] true).
Proof. by vm_compute. Qed.
