(* ===== verification/Routes.v ===== *)
(** * Routing table: the tool get_routing_table

    registry/tools/routingtable/routingtable.go: the kernel's two tables in hexadecimal, the
    fallback to the ip command, and the count of default gateways. What ip prints,
    decoded from JSON, is a parameter. *)

From Stdlib Require Import Ascii.
From stdpp Require Import base numbers gmap strings sorting list.
From S2P Require Import Prelude GoStrings GoNet GoOs GoHex.

Open Scope Z_scope.

(** ** Addresses of the standard library *)

(** [net.IPv4(...).String()] *)
Definition dotted (b : list Z) : gostring := strings_Join (map udec b) (go ".").

Definition hex_digit (d : Z) : ascii := if d <? 10 then ascii_of_N (Z.to_N (d + 48)) else ascii_of_N (Z.to_N (d + 87)).

(** A group of sixteen bits without leading zeros. *)
Definition group_text (g : Z) : gostring :=
  let digits := map (λ k, hex_digit (Z.shiftr g (4 * k) mod 16)) [3; 2; 1; 0] in
  (fix strip (n : nat) (s : gostring) := match n, s with S n, "0"%char :: s => strip n s | _, _ => s end) 3%nat digits.

(** The length of the run of zeros at the front, and the longest run: the first of the
    longest that have at least two groups. *)
Fixpoint zero_run (groups : list Z) : nat := match groups with 0 :: gs => S (zero_run gs) | _ => 0%nat end.

Fixpoint longest_run (i : nat) (groups : list Z) (best : nat * nat) : nat * nat :=
  match groups with
  | [] => best
  | _ :: gs => let n := zero_run groups in longest_run (S i) gs (if (snd best <? n)%nat && (2 <=? n)%nat then (i, n) else best)
  end.

Definition groups_of (b : list Z) : list Z := map (λ k, nth (2 * k) b 0 * 256 + nth (2 * k + 1) b 0) (seq 0 8).

(** [net.IP.String()] of sixteen bytes *)
Definition ip16_String (b : list Z) : gostring :=
  if bool_decide (take 12 b = replicate 10 0 ++ [255; 255]) then dotted (drop 12 b)
  else
    let gs := groups_of b in
    let '(i, n) := longest_run 0 gs (0%nat, 0%nat) in
    let join l := strings_Join (map group_text l) (go ":") in
    if decide (n = 0%nat) then join gs else join (take i gs) ++ go "::" ++ join (drop (i + n) gs).

(** The leading ones of a mask, if only zeros follow. *)
Definition mask_bits (b : list Z) : list bool := b ≫= λ v, map (λ k, Z.testbit v k) [7; 6; 5; 4; 3; 2; 1; 0].

Fixpoint leading_ones (bits : list bool) : nat := match bits with true :: bs => S (leading_ones bs) | _ => 0%nat end.

Definition mask_Size (b : list Z) : Z :=
  let bits := mask_bits b in
  let n := leading_ones bits in
  if existsb id (drop n bits) then 0 else Z.of_nat n.

(** ** Data *)

Record RouteEntry := MkRoute {
  rt_Interface : gostring; rt_Destination : gostring; rt_Gateway : gostring; rt_Mask : gostring; rt_PrefixLen : Z; rt_Metric : Z;
  rt_Flags : gostring; rt_Protocol : gostring; rt_Family : gostring
}.

Record RoutingTableData := MkTable { tb_IPv4Routes : list RouteEntry; tb_IPv6Routes : list RouteEntry }.

(** ** Parsing *)

Definition byte_of (val k : Z) : Z := Z.land (Z.shiftr val k) 255.

Definition parseIPv4Hex (hexStr : gostring) : option gostring :=
  match ParseUint16 32 hexStr with
  | (val, None) => Some (dotted [byte_of val 0; byte_of val 8; byte_of val 16; byte_of val 24])
  | _ => None
  end.

Definition parseIPv6Hex (hexStr : gostring) : option gostring :=
  if negb (length hexStr =? 32)%nat then None
  else
    bytes ← mapM (λ i, match ParseUint16 8 (take 2 (drop (2 * i) hexStr)) with (b, None) => Some b | _ => None end) (seq 0 16);
    Some (ip16_String bytes).

(** Of an address in dotted form. *)
Definition maskToPrefixLen (maskStr : gostring) : Z :=
  if net_ParseIP maskStr then
    match strings_Split maskStr "."%char with
    | [a; b; c; d] => mask_Size [int_of a; int_of b; int_of c; int_of d]
    | _ => 0
    end
  else 0.

Definition flag_words (flags : Z) : gostring :=
  strings_Join
    ((if Z.testbit flags 0 then [go "UP"] else []) ++ (if Z.testbit flags 1 then [go "GATEWAY"] else []) ++
     (if Z.testbit flags 2 then [go "HOST"] else [])) (go "|").

Definition ipv4_route (line : gostring) : option RouteEntry :=
  let line := strings_TrimSpace line in
  if bool_decide (line = []) || strings_HasPrefix line (go "Iface") then None
  else
    match strings_Fields line with
    | iface :: destHex :: gwHex :: flagsHex :: _ :: _ :: metric :: maskHex :: _ =>
        dest ← parseIPv4Hex destHex;
        gw ← parseIPv4Hex gwHex;
        mask ← parseIPv4Hex maskHex;
        Some (MkRoute iface dest gw mask (maskToPrefixLen mask) (int_of metric) (flag_words (ParseUint16 32 flagsHex).1) [] (go "ipv4"))
    | _ => None
    end.

Definition parseIPv4Routes (data : gostring) : list RouteEntry := omap ipv4_route (strings_Split data newline).

Definition ipv6_route (line : gostring) : option RouteEntry :=
  let line := strings_TrimSpace line in
  if bool_decide (line = []) then None
  else
    match strings_Fields line with
    | destHex :: prefixHex :: _ :: _ :: gwHex :: metricHex :: _ :: _ :: flagsHex :: iface :: _ =>
        dest ← parseIPv6Hex destHex;
        gw ← parseIPv6Hex gwHex;
        Some (MkRoute iface dest gw [] (int16_of 32 prefixHex) (int16_of 32 metricHex) (flag_words (ParseUint16 32 flagsHex).1) [] (go "ipv6"))
    | _ => None
    end.

Definition parseIPv6Routes (data : gostring) : list RouteEntry := omap ipv6_route (strings_Split data newline).

Record rawIpRoute := MkRawRoute {
  rr_Dst : gostring; rr_Gateway : gostring; rr_Dev : gostring; rr_Metric : Z; rr_Protocol : gostring;
  rr_Nexthops : list (gostring * gostring)  (** gateway and device *)
}.

Definition raw_routes (family : gostring) (item : rawIpRoute) : list RouteEntry :=
  let v4 := bool_decide (family = go "ipv4") in
  let '(dest, prefixLen) :=
    if decide (rr_Dst item = go "default") then (if v4 then go "0.0.0.0" else go "::", 0)
    else
      match strings_Split (rr_Dst item) "/"%char with
      | [dest; len] => (dest, int_of len)
      | dest :: _ => (dest, if v4 then 32 else 128)
      | [] => ([], 0)
      end in
  let route dev gateway := MkRoute dev dest gateway [] prefixLen (rr_Metric item) [] (rr_Protocol item) family in
  match rr_Nexthops item with
  | [] => [route (rr_Dev item) (rr_Gateway item)]
  | nexthops => map (λ nh, route nh.2 nh.1) nexthops
  end.

(** ** The tool *)

(** Default routes that go through a gateway. *)
Definition is_gateway4 (r : RouteEntry) : bool := bool_decide (rt_Destination r = go "0.0.0.0") && bool_decide (rt_Gateway r ≠ go "0.0.0.0").
Definition is_gateway6 (r : RouteEntry) : bool :=
  bool_decide (rt_Destination r = go "::") && bool_decide (rt_Gateway r ≠ go "::") && bool_decide (rt_Gateway r ≠ []).

Definition gatewaysCount (data : RoutingTableData) : Z :=
  Z.of_nat (length (filter (λ r, is_gateway4 r = true) (tb_IPv4Routes data)) + length (filter (λ r, is_gateway6 r = true) (tb_IPv6Routes data))).

(** The table of the kernel, or if it gives no route, what ip prints. *)
Definition load_routes `{FileSystem} (path : list gostring) (parse : gostring → list RouteEntry) (family : gostring)
    (ip : outcome (list rawIpRoute)) : list RouteEntry :=
  let native := if path_exists path then match ReadFile path with inl content => parse content | inr _ => [] end else [] in
  match native with
  | [] => match ip with Ret raw => raw ≫= raw_routes family | _ => [] end
  | _ => native
  end.

Definition routing_Execute `{FileSystem} (ip4 ip6 : outcome (list rawIpRoute)) : RoutingTableData * Z :=
  let data := MkTable (load_routes [go "/proc/net"; go "route"] parseIPv4Routes (go "ipv4") ip4)
                      (load_routes [go "/proc/net"; go "ipv6_route"] parseIPv6Routes (go "ipv6") ip6) in
  (data, gatewaysCount data).

(** ** Lemmas *)

(** Four bytes as the kernel of a little-endian machine prints them. *)
Definition hex4 (b : list Z) : gostring := match b with [a; b; c; d] => hexn 8 (a + 256 * b + 65536 * c + 16777216 * d) | _ => [] end.

Definition octets (n : nat) (b : list Z) : Prop := length b = n ∧ Forall (λ v, 0 ≤ v < 256) b.

Lemma parseIPv4Hex_octets b : octets 4 b → parseIPv4Hex (hex4 b) = Some (dotted b).
Proof.
  intros [Hlen Hb]. do 4 (destruct b as [|? b]; [done|]). destruct b; [|done]. rewrite !Forall_cons in Hb. destruct_and!.
  unfold parseIPv4Hex, hex4. rewrite ParseUint16_hexn; [|lia|change (16 ^ Z.of_nat 8) with 4294967296; lia|lia|done].
  unfold byte_of. change 255 with (Z.ones 8). rewrite !Z.land_ones, !Z.shiftr_div_pow2 by lia.
  change (2 ^ 0) with 1. change (2 ^ 8) with 256. change (2 ^ 16) with 65536. change (2 ^ 24) with 16777216.
  do 2 f_equal. f_equal; [|f_equal; [|f_equal; [|f_equal]]]; Z.to_euclidean_division_equations; lia.
Qed.

(** The bytes of the mask of a prefix. *)
Definition mask_octet (p k : Z) : Z := 256 - 2 ^ (8 - Z.max 0 (Z.min 8 (p - 8 * k))).
Definition mask_octets (p : Z) : list Z := map (mask_octet p) [0; 1; 2; 3].

Lemma mask_prefixes p : 0 ≤ p ≤ 32 → maskToPrefixLen (dotted (mask_octets p)) = p ∧ octets 4 (mask_octets p).
Proof.
  intros Hp. assert (Forall (λ p, maskToPrefixLen (dotted (mask_octets p)) = p ∧ (length (mask_octets p) = 4%nat ∧ Forall (λ v, 0 ≤ v < 256) (mask_octets p))) (seqZ 0 33)) as H.
  { apply (bool_decide_eq_true_1 (Forall _ _)). by vm_compute. }
  rewrite Forall_forall in H. apply H, elem_of_seqZ. lia.
Qed.

(** A route as the kernel prints it. *)
Record route_line := MkRouteLine {
  rl_iface : gostring; rl_dest : list Z; rl_gw : list Z; rl_flags : Z; rl_metric : Z; rl_prefix : Z
}.

Definition route_words (r : route_line) : list gostring :=
  [rl_iface r; hex4 (rl_dest r); hex4 (rl_gw r); hexn 4 (rl_flags r); go "0"; go "0"; strconv_Itoa (rl_metric r); hex4 (mask_octets (rl_prefix r)); go "0"; go "0"; go "0"].

Definition good_route (r : route_line) : Prop :=
  word_line (route_words r) ∧ strings_HasPrefix (rl_iface r) (go "Iface") = false ∧ octets 4 (rl_dest r) ∧ octets 4 (rl_gw r) ∧
  0 ≤ rl_flags r < 65536 ∧ in_i64 (rl_metric r) ∧ 0 ≤ rl_prefix r ≤ 32.

Lemma HasPrefix_solid f rest p : Forall (λ c, solid c = true) p → strings_HasPrefix f p = false → strings_HasPrefix (f ++ " "%char :: rest) p = false.
Proof.
  intros Hp Hf. apply not_true_iff_false. rewrite strings_HasPrefix_spec. intros Hpre.
  destruct (prefix_weak_total p f (f ++ " "%char :: rest) Hpre) as [H|[k Hk]]; [by eexists|apply strings_HasPrefix_spec in H; congruence|].
  destruct Hpre as [k' Hk']. rewrite Hk, <-app_assoc in Hk'. apply app_inv_head in Hk'. destruct k as [|c k].
  - rewrite app_nil_r in Hk. subst p. assert (strings_HasPrefix f f = true) by (apply strings_HasPrefix_spec; exists []; by rewrite app_nil_r). congruence.
  - injection Hk' as <- _. rewrite Hk in Hp. apply Forall_app in Hp as [_ Hp]. by apply Forall_cons in Hp as [? _].
Qed.

(** ** Properties *)

(** The IPv4 table is read as the kernel prints it: the addresses byte by byte, and the mask as
    the length of the prefix. *)
Theorem parseIPv4Routes_roundtrip (rs : list route_line) (Hrs : Forall good_route rs) :
  parseIPv4Routes (print_lines (map route_words rs)) =
  map (λ r, MkRoute (rl_iface r) (dotted (rl_dest r)) (dotted (rl_gw r)) (dotted (mask_octets (rl_prefix r))) (rl_prefix r) (rl_metric r)
    (flag_words (rl_flags r)) [] (go "ipv4")) rs.
Proof.
  unfold parseIPv4Routes. rewrite split_words; [|apply Forall_map; eapply Forall_impl; [exact Hrs|by intros r [? _]]|done].
  induction Hrs as [|r rs Hr _ IH]; [done|]. cbn [map omap list_omap]. rewrite IH. clear IH.
  destruct Hr as (Hw & Hi & Hd & Hg & Hf & Hm & Hp). unfold ipv4_route. destruct (word_line_text _ Hw) as (_ & -> & ->).
  assert (∃ rest, strings_Join (route_words r) (go " ") = rl_iface r ++ " "%char :: rest) as [rest Hrest] by (eexists; reflexivity).
  rewrite Hrest, HasPrefix_solid; [|by repeat constructor|done]. rewrite bool_decide_false by (by destruct (rl_iface r)). cbn [orb].
  unfold route_words. destruct (mask_prefixes (rl_prefix r) Hp) as [Hlen Hoct]. rewrite !parseIPv4Hex_octets by done. cbn [mbind option_bind].
  rewrite Hlen, int_of_Itoa by done. rewrite ParseUint16_hexn by (done || lia). done.
Qed.

(** An IPv6 address is read from its 32 digits. *)
Theorem parseIPv6Hex_roundtrip (b : list Z) (Hb : octets 16 b) : parseIPv6Hex (concat (map (hexn 2) b)) = Some (ip16_String b).
Proof.
  destruct Hb as [Hlen Hb]. unfold parseIPv6Hex.
  assert (length (concat (map (hexn 2) b)) = 32%nat) as ->.
  { clear Hb. do 16 (destruct b as [|? b]; [done|]). by destruct b. }
  cbn [Nat.eqb negb].
  assert (mapM (λ i, match ParseUint16 8 (take 2 (drop (2 * i) (concat (map (hexn 2) b)))) with (v, None) => Some v | _ => None end) (seq 0 16) = Some b) as ->; [|done].
  assert (∀ i v, b !! i = Some v → take 2 (drop (2 * i) (concat (map (hexn 2) b))) = hexn 2 v) as Htake.
  { clear. induction b as [|x b IH]; intros i v Hi; [done|]. destruct i as [|i]; [by injection Hi as ->|].
    replace (2 * S i)%nat with (S (S (2 * i))) by lia. cbn [map concat]. exact (IH i v Hi). }
  apply mapM_Some, Forall2_same_length_lookup. split; [by rewrite length_seq, Hlen|]. intros i k v Hk Hv.
  apply lookup_seq in Hk as [-> _]. cbn [Nat.add]. rewrite (Htake _ _ Hv). rewrite Forall_forall in Hb.
  rewrite ParseUint16_hexn; [done|lia|apply Hb; by eapply list_elem_of_lookup_2|lia|done].
Qed.

(** The kernel's table is preferred; what ip prints counts only where it has no route. *)
Theorem native_first `{FileSystem} (path : list gostring) (parse : gostring → list RouteEntry) (family content : gostring)
  (ip : outcome (list rawIpRoute)) (Hex : path_exists path = true) (Hread : ReadFile path = inl content) (Hne : parse content ≠ []) :
  load_routes path parse family ip = parse content.
Proof. unfold load_routes. rewrite Hex, Hread. by destruct (parse content). Qed.

(** A default route of a point-to-point device has no gateway, and is counted as one where
    it is read from ip. *)
Theorem route_without_gateway_counted (dev protocol : gostring) (metric : Z) :
  filter (λ r, is_gateway4 r = true) (raw_routes (go "ipv4") (MkRawRoute (go "default") [] dev metric protocol [])) =
  raw_routes (go "ipv4") (MkRawRoute (go "default") [] dev metric protocol []).
Proof. by vm_compute. Qed.

(** A metric of IPv6 beyond 2^31 is cut: that of the route the kernel keeps for what it
    cannot reach is 2^32 - 1. *)
Theorem ipv6_metric_cut (m : Z) (Hm : 2 ^ 31 ≤ m < 2 ^ 32) : int16_of 32 (hexn 8 m) = 2 ^ 31 - 1.
Proof.
  unfold int16_of. assert (ParseUint16 32 (hexn 8 m) = (m, None)) as Hp by (apply ParseUint16_hexn; [lia|change (16 ^ Z.of_nat 8) with (2 ^ 32); lia|lia|done]).
  destruct (word_hexn (digit:=hex_upper) 8 m) as [Hne Hs]; [lia|].
  assert (match hexn 8 m with "-"%char :: r => (true, r) | "+"%char :: r => (false, r) | _ => (false, hexn 8 m) end = (false, hexn 8 m)) as ->.
  { assert (∃ d t, hexn 8 m = hex_upper d :: t ∧ 0 ≤ d < 16) as (d & t & -> & Hd).
    { eexists _, _. split; [reflexivity|]. apply Z.mod_pos_bound. lia. }
    destruct (hex_digit_spec (digit:=hex_upper) d Hd) as [Hv _]. repeat case_match; try done. }
  rewrite Hp. change (2 ^ (32 - 1)) with (2 ^ 31). rewrite (proj2 (Z.leb_le _ _)) by lia. done.
Qed.

(** ** Witnesses *)

Definition sample_routes : list route_line :=
  [MkRouteLine (go "eth0") [0; 0; 0; 0] [192; 168; 1; 1] 3 100 0; MkRouteLine (go "eth0") [192; 168; 1; 0] [0; 0; 0; 0] 1 100 24].

Lemma parseIPv4Routes_roundtrip_witness :
  parseIPv4Routes (print_lines (map route_words sample_routes)) =
  [MkRoute (go "eth0") (go "0.0.0.0") (go "192.168.1.1") (go "0.0.0.0") 0 100 (go "UP|GATEWAY") [] (go "ipv4");
   MkRoute (go "eth0") (go "192.168.1.0") (go "0.0.0.0") (go "255.255.255.0") 24 100 (go "UP") [] (go "ipv4")].
Proof.
  apply (parseIPv4Routes_roundtrip sample_routes). unfold sample_routes.
  repeat (apply Forall_cons_2; [unfold good_route, octets, in_i64; by_decide|]).
  apply Forall_nil_2.
Defined.

Lemma parseIPv6Hex_roundtrip_witness : parseIPv6Hex (go "FE800000000000000000000000000001") = Some (go "fe80::1").
Proof. apply (parseIPv6Hex_roundtrip [254; 128; 0; 0; 0; 0; 0; 0; 0; 0; 0; 0; 0; 0; 0; 1]). split; [done|by_decide]. Defined.

Lemma native_first_witness :
  let content := print_lines (map route_words sample_routes) in
  @load_routes (mem_fs [([go "/proc/net"; go "route"], content)] [] []) [go "/proc/net"; go "route"] parseIPv4Routes (go "ipv4") (Ret []) = parseIPv4Routes content.
Proof. apply native_first; [by vm_compute|by vm_compute|by vm_compute]. Defined.

Lemma ipv6_metric_cut_witness : int16_of 32 (go "FFFFFFFF") = 2147483647.
Proof. apply (ipv6_metric_cut 4294967295). lia. Defined.
