(* ===== verification/LustreJobs.v ===== *)
(** * Lustre job statistics: the tool get_lustre_job_stats

    registry/tools/lustrejobstats/lustrejobstats.go: the job_stats files of a server's
    targets, the totals of each job over all of them, and the leaderboards. The regular
    expressions of the source are the functions that match them; the maps of the source
    are ranged over in any order. *)

From Stdlib Require Import Ascii.
From stdpp Require Import base numbers gmap strings sorting list.
From S2P Require Import Prelude GoStrings GoFloat GoNet GoOs.

Open Scope Z_scope.

(** ** Data *)

Definition defaultLimit : Z := 15.
Definition maxLimit : Z := 50.

Definition jobStatsTargetTypes : list gostring := [go "obdfilter"; go "mdt"].

Record JobIOStats := MkJobIOStats {
  jio_JobID : gostring; jio_WriteMB : float64; jio_WriteOps : Z; jio_ReadMB : float64; jio_ReadOps : Z; jio_Targets : list gostring
}.

Record JobMetadataStats := MkJobMetadataStats { jm_JobID : gostring; jm_TotalOps : Z; jm_TopOp : gostring; jm_Targets : list gostring }.

Record jobCounter := MkJobCounter { jc_Samples : Z; jc_Sum : Z }.

Record jobRecord := MkJobRecord { jr_JobID : gostring; jr_Counters : gmap gostring jobCounter }.

Record jobAggregate := MkJobAggregate {
  ag_jobID : gostring;
  ag_readBytes : Z; ag_readOps : Z; ag_writeBytes : Z; ag_writeOps : Z;
  ag_mdOps : gmap gostring Z; ag_totalMDOps : Z;
  ag_ioTargets : gset gostring; ag_mdTargets : gset gostring
}.

(** The status, and whether the note about disabled statistics is given, are those of
    the result. *)
Record Data := MkData {
  da_TargetsScanned : Z; da_TotalJobsTracked : Z;
  da_TopJobsByWrite : list JobIOStats; da_TopJobsByRead : list JobIOStats; da_TopJobsByMetadataOps : list JobMetadataStats;
  da_ParseErrors : Z; da_Note : bool
}.

Inductive JobStatus := JobsOK | JobsNoTargets | JobsDegraded.

(** ** The regular expressions *)

(** [\s] *)
Definition re_space (c : ascii) : bool := existsb (λ n, (N_of_ascii c =? n)%N) [9; 10; 12; 13; 32]%N.

(** [\w] *)
Definition re_letter (c : ascii) : bool :=
  let n := N_of_ascii c in ((65 <=? n) && (n <=? 90) || (97 <=? n) && (n <=? 122) || (n =? 95))%N.
Definition re_word (c : ascii) : bool := re_letter c || is_digit c.

Fixpoint skip_space (s : gostring) : gostring := match s with c :: r => if re_space c then skip_space r else s | [] => [] end.

(** The longest run of characters of a class. *)
Fixpoint run (class : ascii → bool) (s : gostring) : gostring := match s with c :: r => if class c then c :: run class r else [] | [] => [] end.

(** [jobIDRe], on a line that starts with a dash: the group. *)
Definition jobIDRe (trimmed : gostring) : option gostring :=
  let r := skip_space (drop 1 trimmed) in
  if strings_HasPrefix r (go "job_id:") then Some (skip_space (drop 7 r)) else None.

Definition expect (c : ascii) (s : gostring) : option gostring :=
  match s with x :: r => if decide (x = c) then Some r else None | [] => None end.

(** [counterRe]: the key and the text between the braces; the last brace closes. *)
Definition counterRe (trimmed : gostring) : option (gostring * gostring) :=
  let key := run re_word trimmed in
  if re_letter (hd " "%char trimmed) then
    r ← expect ":"%char (drop (length key) trimmed);
    rest ← expect "{"%char (skip_space r);
    body ← expect "}"%char (skip_space (reverse rest));
    Some (key, reverse body)
  else None.

(** [samplesRe] and [sumRe]: the digits after the first label that digits follow. *)
Definition number_at (label s : gostring) : gostring :=
  if strings_HasPrefix s label then run is_digit (skip_space (drop (length label) s)) else [].

Fixpoint number_after (label s : gostring) : option gostring :=
  match number_at label s with
  | [] => match s with [] => None | _ :: r => number_after label r end
  | ds => Some ds
  end.

(** ** Parsing *)

Definition quote : ascii := ascii_of_N 34.

Definition unquoteJobID (s : gostring) : gostring :=
  match s with
  | first :: ((_ :: _) as rest) =>
      if bool_decide (List.last rest first = first) && (bool_decide (first = quote) || bool_decide (first = "'"%char))
      then removelast rest else s
  | _ => s
  end.

(** The records so far, the errors, and the record being read. *)
Definition job_state : Type := list jobRecord * Z * option jobRecord.

Definition job_flush (jobs : list jobRecord) (cur : option jobRecord) : list jobRecord := match cur with Some r => jobs ++ [r] | None => jobs end.

(** The value of a line with a counter, or [None] if it cannot be read. *)
Definition job_counter (body : gostring) : option jobCounter :=
  match number_after (go "samples:") body with
  | None => None
  | Some ds =>
      match ParseUint ds with
      | (_, Some _) => None
      | (samples, None) =>
          let sum := match number_after (go "sum:") body with
                     | Some ds => match ParseUint ds with (v, None) => v | (_, Some _) => 0 end
                     | None => 0
                     end in
          Some (MkJobCounter samples sum)
      end
  end.

Definition job_line (st : job_state) (line : gostring) : job_state :=
  let '(jobs, errs, cur) := st in
  let trimmed := strings_TrimSpace line in
  if bool_decide (trimmed = []) || bool_decide (trimmed = go "job_stats:") then st
  else if strings_HasPrefix trimmed (go "-") then
    let jobs := job_flush jobs cur in
    match match jobIDRe trimmed with Some m => unquoteJobID (strings_TrimSpace m) | None => [] end with
    | [] => (jobs, errs + 1, None)
    | id => (jobs, errs, Some (MkJobRecord id ∅))
    end
  else
    match cur with
    | None => st
    | Some rec =>
        if strings_HasPrefix trimmed (go "snapshot_time:") then st
        else
          match counterRe trimmed with
          | None => (jobs, if bool_decide ("{"%char ∈ trimmed) then errs + 1 else errs, cur)
          | Some (key, body) =>
              match job_counter body with
              | None => (jobs, errs + 1, cur)
              | Some c => (jobs, errs, Some (MkJobRecord (jr_JobID rec) (<[key := c]> (jr_Counters rec))))
              end
          end
    end.

Definition parseJobStats (data : gostring) : list jobRecord * Z :=
  let '(jobs, errs, cur) := foldl job_line ([], 0, None) (strings_Split data newline) in
  (job_flush jobs cur, errs).

(** ** Totals *)

Definition new_aggregate (id : gostring) : jobAggregate := MkJobAggregate id 0 0 0 0 ∅ 0 ∅ ∅.

Definition if_active (c : jobCounter) (target : gostring) (s : gset gostring) : gset gostring :=
  if (0 <? jc_Samples c) || (0 <? jc_Sum c) then {[target]} ∪ s else s.

Definition add_counter (targetName : gostring) (isMDT : bool) (agg : jobAggregate) (e : gostring * jobCounter) : jobAggregate :=
  let '(MkJobAggregate id rb ro wb wo md total io mt) := agg in
  let '(name, c) := e in
  if decide (name = go "read_bytes") then
    MkJobAggregate id (u64 (rb + jc_Sum c)) (u64 (ro + jc_Samples c)) wb wo md total (if_active c targetName io) mt
  else if decide (name = go "write_bytes") then
    MkJobAggregate id rb ro (u64 (wb + jc_Sum c)) (u64 (wo + jc_Samples c)) md total (if_active c targetName io) mt
  else if isMDT && (0 <? jc_Samples c) then
    MkJobAggregate id rb ro wb wo (<[name := u64 (default 0 (md !! name) + jc_Samples c)]> md) (u64 (total + jc_Samples c)) io ({[targetName]} ∪ mt)
  else agg.

Definition aggregate_record `{GoRange} (targetName : gostring) (isMDT : bool) (aggs : gmap gostring jobAggregate) (rec : jobRecord) :
    gmap gostring jobAggregate :=
  let agg := default (new_aggregate (jr_JobID rec)) (aggs !! jr_JobID rec) in
  <[jr_JobID rec := foldl (add_counter targetName isMDT) agg (range_map (jr_Counters rec))]> aggs.

Definition aggregateRecords `{GoRange} (aggs : gmap gostring jobAggregate) (records : list jobRecord) (targetName : gostring) (isMDT : bool) :
    gmap gostring jobAggregate :=
  foldl (aggregate_record targetName isMDT) aggs records.

(** ** Leaderboards *)

Definition mbFromBytes (b : Z) : float64 :=
  f64_div (math_Round (f64_mul (f64_div (f64_of_Z b) (f64_of_Z (2 ^ 20))) (f64_of_Z 10))) (f64_of_Z 10).

Definition sortedTargets (set : gset gostring) : list gostring := sort_Strings (elements set).

Definition io_bytes (byWrite : bool) (a : jobAggregate) : Z := if byWrite then ag_writeBytes a else ag_readBytes a.
Definition io_ops (byWrite : bool) (a : jobAggregate) : Z := if byWrite then ag_writeOps a else ag_readOps a.

(** The orders of the two leaderboards. *)
Definition io_less (byWrite : bool) : jobAggregate → jobAggregate → bool :=
  larger_then (io_bytes byWrite) (larger_then (io_ops byWrite) (name_less ag_jobID)).
Definition meta_less : jobAggregate → jobAggregate → bool := larger_then ag_totalMDOps (name_less ag_jobID).

Definition io_active (byWrite : bool) (a : jobAggregate) : bool := (0 <? io_bytes byWrite a) || (0 <? io_ops byWrite a).
Definition meta_active (a : jobAggregate) : bool := 0 <? ag_totalMDOps a.

(** The active jobs, sorted and cut. *)
Definition leaders `{GoRange} `{GoSort} (active : jobAggregate → bool) (less : jobAggregate → jobAggregate → bool)
    (aggs : gmap gostring jobAggregate) (limit : Z) : list jobAggregate :=
  take (Z.to_nat limit) (sort_slice less (filter (λ a, active a = true) (map snd (range_map aggs)))).

Definition io_stats (agg : jobAggregate) : JobIOStats :=
  MkJobIOStats (ag_jobID agg) (mbFromBytes (ag_writeBytes agg)) (ag_writeOps agg)
    (mbFromBytes (ag_readBytes agg)) (ag_readOps agg) (sortedTargets (ag_ioTargets agg)).

Definition buildIOTop `{GoRange} `{GoSort} (aggs : gmap gostring jobAggregate) (limit : Z) (byWrite : bool) : list JobIOStats :=
  map io_stats (leaders (io_active byWrite) (io_less byWrite) aggs limit).

Definition better_op (best : gostring * Z) (e : gostring * Z) : gostring * Z :=
  let '(name, count) := e in
  if (best.2 <? count) || (count =? best.2) && (bool_decide (best.1 = []) || str_ltb name best.1) then (name, count) else best.

Definition topOp `{GoRange} (ops : gmap gostring Z) : gostring := (foldl better_op ([], 0) (range_map ops)).1.

Definition meta_stats `{GoRange} (agg : jobAggregate) : JobMetadataStats :=
  MkJobMetadataStats (ag_jobID agg) (ag_totalMDOps agg) (topOp (ag_mdOps agg)) (sortedTargets (ag_mdTargets agg)).

Definition buildMetaTop `{GoRange} `{GoSort} (aggs : gmap gostring jobAggregate) (limit : Z) : list JobMetadataStats :=
  map meta_stats (leaders meta_active meta_less aggs limit).

(** ** The tool *)

(** Under /sys if it is there, else under /proc. *)
Definition resolvePath `{FileSystem} (subpath : list gostring) : option (list gostring) :=
  let sysPath := [go "/sys"; go "fs"; go "lustre"] ++ subpath in
  let procPath := [go "/proc"; go "fs"; go "lustre"] ++ subpath in
  if path_exists sysPath then Some sysPath else if path_exists procPath then Some procPath else None.

Definition listSubdirs `{FileSystem} (dir : list gostring) : list gostring :=
  match ReadDir dir with
  | inr _ => []
  | inl entries =>
      filter (λ name, strings_HasPrefix name (go ".") = false ∧ Stat (dir ++ [name]) = inl true) (map de_Name entries)
  end.

Definition getSubdirs `{FileSystem} (subpath : gostring) : list gostring :=
  match resolvePath [subpath] with Some dir => listSubdirs dir | None => [] end.

Definition clamp_limit (limit : Z) : Z :=
  let limit := if limit <=? 0 then defaultLimit else limit in if maxLimit <? limit then maxLimit else limit.

(** The targets to scan, with their type. *)
Definition job_targets `{FileSystem} (target : gostring) : list (gostring * gostring) :=
  jobStatsTargetTypes ≫= λ ttype,
    map (pair ttype) (filter (λ name, target = [] ∨ name = target) (getSubdirs ttype)).

(** One target: the totals and the errors, where its file can be read. *)
Definition scan_target `{FileSystem} `{GoRange} (st : gmap gostring jobAggregate * Z) (ref : gostring * gostring) : gmap gostring jobAggregate * Z :=
  let '(aggs, parseErrors) := st in
  match resolvePath [ref.1; ref.2; go "job_stats"] with
  | None => st
  | Some path =>
      match ReadFile path with
      | inr _ => st
      | inl raw =>
          let '(records, errs) := parseJobStats raw in
          (aggregateRecords aggs records ref.2 (bool_decide (ref.1 = go "mdt")), parseErrors + errs)
      end
  end.

Definition jobs_status (data : Data) : JobStatus :=
  if da_TargetsScanned data =? 0 then JobsNoTargets else if da_TotalJobsTracked data =? 0 then JobsDegraded else JobsOK.

(** [canceled] is the target before which the context has ended, if it ends. *)
Definition jobs_Execute `{FileSystem} `{GoRange} `{GoSort} (args : outcome (gostring * Z)) (canceled : option nat) : outcome (JobStatus * Data) :=
  match args with
  | Ret (target, limit) =>
      let limit := clamp_limit limit in
      let targets := job_targets target in
      if bool_decide (target ≠ []) && bool_decide (targets = []) then Err (Errorf "target %q not found on this node")
      else if match canceled with Some n => (n <? length targets)%nat | None => false end then Err (Errorf "cancelled: ")
      else
        let '(aggs, parseErrors) := foldl scan_target (∅, 0) targets in
        let data := MkData (Z.of_nat (length targets)) (Z.of_nat (size aggs)) (buildIOTop aggs limit true) (buildIOTop aggs limit false)
                      (if bool_decide (go "mdt" ∈ map fst targets) then buildMetaTop aggs limit else []) parseErrors
                      (negb (bool_decide (targets = [])) && (Z.of_nat (size aggs) =? 0)) in
        Ret (jobs_status data, data)
  | _ => Err (Errorf "failed to parse arguments: ")
  end.

(** ** Lemmas: totals *)

(** A counter as it occurs in the file of a target. *)
Record occurrence := MkOcc { oc_target : gostring; oc_mdt : bool; oc_name : gostring; oc_counter : jobCounter }.

Definition named (n : gostring) (occ : list occurrence) : list occurrence := filter (λ o, oc_name o = n) occ.

Definition sum_of (f : jobCounter → Z) (occ : list occurrence) : Z := foldr (λ o s, f (oc_counter o) + s) 0 occ.

(** A metadata operation: of an MDT, not input or output, and done at least once. *)
Definition is_md (o : occurrence) : Prop :=
  oc_mdt o = true ∧ oc_name o ∉ [go "read_bytes"; go "write_bytes"] ∧ 0 < jc_Samples (oc_counter o).

#[export] Instance is_md_dec o : Decision (is_md o).
Proof. unfold is_md. apply _. Defined.

Definition md (occ : list occurrence) : list occurrence := filter is_md occ.

Definition io_seen (o : occurrence) : Prop :=
  oc_name o ∈ [go "read_bytes"; go "write_bytes"] ∧ (0 < jc_Samples (oc_counter o) ∨ 0 < jc_Sum (oc_counter o)).

(** The totals of a job over the counters that occur for it, modulo 2^64. *)
Record job_totals (id : gostring) (occ : list occurrence) (a : jobAggregate) : Prop := {
  jt_id : ag_jobID a = id;
  jt_readBytes : ag_readBytes a = u64 (sum_of jc_Sum (named (go "read_bytes") occ));
  jt_readOps : ag_readOps a = u64 (sum_of jc_Samples (named (go "read_bytes") occ));
  jt_writeBytes : ag_writeBytes a = u64 (sum_of jc_Sum (named (go "write_bytes") occ));
  jt_writeOps : ag_writeOps a = u64 (sum_of jc_Samples (named (go "write_bytes") occ));
  jt_mdOps n : ag_mdOps a !! n = match named n (md occ) with [] => None | l => Some (u64 (sum_of jc_Samples l)) end;
  jt_totalMDOps : ag_totalMDOps a = u64 (sum_of jc_Samples (md occ));
  jt_ioTargets t : t ∈ ag_ioTargets a ↔ ∃ o, o ∈ occ ∧ io_seen o ∧ oc_target o = t;
  jt_mdTargets t : t ∈ ag_mdTargets a ↔ ∃ o, o ∈ md occ ∧ oc_target o = t
}.

Lemma sum_of_app f a b : sum_of f (a ++ b) = sum_of f a + sum_of f b.
Proof. induction a as [|o a IH]; [done|]. cbn [sum_of foldr app] in *. unfold sum_of in *. lia. Qed.

#[export] Instance sum_of_perm f : Proper ((≡ₚ) ==> eq) (sum_of f).
Proof. induction 1; cbn [sum_of foldr] in *; unfold sum_of in *; lia. Qed.

Lemma u64_add_l a b : u64 (u64 a + b) = u64 (a + b).
Proof. unfold u64. apply Zplus_mod_idemp_l. Qed.

(** Adding up in [uint64] one counter more. *)
Lemma u64_sum_snoc f occ o : u64 (u64 (sum_of f occ) + f (oc_counter o)) = u64 (sum_of f (occ ++ [o])).
Proof. rewrite u64_add_l, sum_of_app. cbn [sum_of foldr]. by rewrite Z.add_0_r. Qed.

Lemma named_snoc n occ o : named n (occ ++ [o]) = if decide (oc_name o = n) then named n occ ++ [o] else named n occ.
Proof. exact (filter_snoc (λ o, oc_name o = n) occ o). Qed.

Lemma md_snoc occ o : md (occ ++ [o]) = if decide (is_md o) then md occ ++ [o] else md occ.
Proof. exact (filter_snoc is_md occ o). Qed.

Lemma job_totals_perm id occ occ' a : occ ≡ₚ occ' → job_totals id occ a → job_totals id occ' a.
Proof.
  intros Hp [? ? ? ? ? Hmd ? Hio Hmt].
  assert (∀ n, named n occ ≡ₚ named n occ') as Hn by (intros n; unfold named; by rewrite Hp).
  assert (md occ ≡ₚ md occ') as Hm by (unfold md; by rewrite Hp).
  split; rewrite <-?Hn, <-?Hm; try done.
  - intros n. rewrite Hmd. assert (named n (md occ) ≡ₚ named n (md occ')) as Hnm by (unfold named; by rewrite Hm).
    destruct (named n (md occ)) as [|o l], (named n (md occ')) as [|o' l']; [done|by apply Permutation_nil in Hnm|by symmetry in Hnm; apply Permutation_nil in Hnm|].
    by rewrite Hnm.
  - intros t. rewrite Hio. by setoid_rewrite Hp.
  - intros t. rewrite Hmt. by setoid_rewrite Hm.
Qed.

(** The totals are determined. *)
Lemma job_totals_unique id occ a b : job_totals id occ a → job_totals id occ b → a = b.
Proof.
  intros [? ? ? ? ? Ha ? Hai Ham] [? ? ? ? ? Hb ? Hbi Hbm]. destruct a, b. simpl in *. subst. f_equal.
  - apply map_eq. intros n. by rewrite Ha, Hb.
  - apply leibniz_equiv. intros t. by rewrite Hai, Hbi.
  - apply leibniz_equiv. intros t. by rewrite Ham, Hbm.
Qed.

Lemma job_totals_new id : job_totals id [] (new_aggregate id).
Proof. split; try done; intros t; [split; [intros ?%not_elem_of_empty; done|by intros (o & ?%elem_of_nil & _)]..]. Qed.

Lemma seen_snoc (P : occurrence → Prop) occ o t :
  (∃ o', o' ∈ occ ++ [o] ∧ P o' ∧ oc_target o' = t) ↔ (∃ o', o' ∈ occ ∧ P o' ∧ oc_target o' = t) ∨ P o ∧ oc_target o = t.
Proof.
  setoid_rewrite elem_of_app. setoid_rewrite list_elem_of_singleton. split.
  - intros (o' & [?| ->] & ?); [left; by exists o'|by right].
  - intros [(o' & ? & ?)|?]; [exists o'; by split; [left|]|exists o; by split; [right|]].
Qed.

Lemma md_seen occ t : (∃ o, o ∈ md occ ∧ oc_target o = t) ↔ ∃ o, o ∈ occ ∧ is_md o ∧ oc_target o = t.
Proof. unfold md. setoid_rewrite list_elem_of_filter. naive_solver. Qed.

Lemma if_active_seen c target io occ isMDT name : name ∈ [go "read_bytes"; go "write_bytes"] →
  (∀ t, t ∈ io ↔ ∃ o, o ∈ occ ∧ io_seen o ∧ oc_target o = t) →
  ∀ t, t ∈ if_active c target io ↔ ∃ o, o ∈ occ ++ [MkOcc target isMDT name c] ∧ io_seen o ∧ oc_target o = t.
Proof.
  intros Hn Hio t. rewrite seen_snoc, <-Hio. unfold if_active, io_seen. cbn [oc_name oc_counter oc_target].
  destruct (Z.ltb_spec 0 (jc_Samples c)), (Z.ltb_spec 0 (jc_Sum c)); cbn [orb];
    rewrite ?elem_of_union, ?elem_of_singleton; intuition (done || lia).
Qed.

Lemma add_counter_totals id occ a target isMDT name c : job_totals id occ a →
  job_totals id (occ ++ [MkOcc target isMDT name c]) (add_counter target isMDT a (name, c)).
Proof.
  intros [? ? ? ? ? Hmd ? Hio Hmt]. destruct a as [id' rb ro wb wo mo total io mt]. cbn [ag_jobID ag_readBytes ag_readOps ag_writeBytes ag_writeOps ag_mdOps ag_totalMDOps ag_ioTargets ag_mdTargets] in *. subst.
  set (o := MkOcc target isMDT name c).
  assert (¬ is_md o → md (occ ++ [o]) = md occ) as Hmd1 by (intros; by rewrite md_snoc, decide_False).
  assert (∀ n, oc_name o ≠ n → named n (occ ++ [o]) = named n occ) as Hn1 by (intros; by rewrite named_snoc, decide_False).
  assert (named (oc_name o) (occ ++ [o]) = named (oc_name o) occ ++ [o]) as Hn2 by (by rewrite named_snoc, decide_True).
  setoid_rewrite md_seen in Hmt. unfold add_counter. case_decide as Hr; [|case_decide as Hw].
  - subst name. assert (¬ is_md o) as Hno by (intros (_ & Hnot & _); apply Hnot; left).
    split; cbn [ag_jobID ag_readBytes ag_readOps ag_writeBytes ag_writeOps ag_mdOps ag_totalMDOps ag_ioTargets ag_mdTargets]; rewrite ?Hmd1, ?(Hn1 (go "write_bytes")) by (done || by_decide); try done.
    + change (go "read_bytes") with (oc_name o). rewrite Hn2.  apply (u64_sum_snoc jc_Sum _ o).
    + change (go "read_bytes") with (oc_name o). rewrite Hn2.  apply (u64_sum_snoc jc_Samples _ o).
    + apply if_active_seen; [by_decide|done].
    + intros t. by rewrite Hmt, md_seen.
  - subst name. assert (¬ is_md o) as Hno by (intros (_ & Hnot & _); apply Hnot; right; left).
    split; cbn [ag_jobID ag_readBytes ag_readOps ag_writeBytes ag_writeOps ag_mdOps ag_totalMDOps ag_ioTargets ag_mdTargets]; rewrite ?Hmd1, ?(Hn1 (go "read_bytes")) by (done || by_decide); try done.
    + change (go "write_bytes") with (oc_name o). rewrite Hn2. apply (u64_sum_snoc jc_Sum _ o).
    + change (go "write_bytes") with (oc_name o). rewrite Hn2. apply (u64_sum_snoc jc_Samples _ o).
    + apply if_active_seen; [by_decide|done].
    + intros t. by rewrite Hmt, md_seen.
  - assert (name ∉ [go "read_bytes"; go "write_bytes"]) as Hnot by (rewrite !elem_of_cons, elem_of_nil; naive_solver).
    assert (∀ t, t ∈ io ↔ ∃ o', o' ∈ occ ++ [o] ∧ io_seen o' ∧ oc_target o' = t) as Hio'.
    { intros t. rewrite seen_snoc, Hio. unfold io_seen at 3. cbn. naive_solver. }
    destruct (isMDT && (0 <? jc_Samples c)) eqn:Hc.
    + apply andb_true_iff in Hc as [-> Hs]. apply Z.ltb_lt in Hs. assert (is_md o) as Ho by done.
      split; cbn [ag_jobID ag_readBytes ag_readOps ag_writeBytes ag_writeOps ag_mdOps ag_totalMDOps ag_ioTargets ag_mdTargets]; rewrite ?md_snoc, ?decide_True, ?Hn1 by done; try done.
      * intros n. rewrite named_snoc. cbn [oc_name o]. rewrite lookup_insert. case_decide as Hn; [|by rewrite Hmd]. subst n.
        rewrite Hmd. pose proof (u64_sum_snoc jc_Samples (named name (md occ)) o) as Hsum. cbn [oc_counter o] in Hsum.
        destruct (named name (md occ)) as [|o' l] eqn:E; cbn [default app].
        -- f_equal. cbn. by rewrite Z.add_0_r.
        -- exact (f_equal Some Hsum).
      * apply (u64_sum_snoc jc_Samples _ o).
      * intros t. rewrite elem_of_union, elem_of_singleton, Hmt. setoid_rewrite <-(decide_True (P := is_md o) (md occ ++ [o]) (md occ)) at 1; [|done].
        rewrite <-md_snoc, md_seen, seen_snoc. cbn. naive_solver.
    + assert (¬ is_md o) as Hno. { intros (Hm & _ & Hs). cbn in *. subst isMDT. apply Z.ltb_lt in Hs. by rewrite Hs in Hc. }
      split; cbn [ag_jobID ag_readBytes ag_readOps ag_writeBytes ag_writeOps ag_mdOps ag_totalMDOps ag_ioTargets ag_mdTargets]; rewrite ?Hmd1, ?Hn1 by done; try done. intros t. by rewrite Hmt, md_seen.
Qed.

Lemma add_counters_totals id occ a target isMDT l : job_totals id occ a →
  job_totals id (occ ++ map (λ e, MkOcc target isMDT e.1 e.2) l) (foldl (add_counter target isMDT) a l).
Proof.
  revert occ a. induction l as [|[name c] l IH]; intros occ a Ha; cbn [map foldl]; [by rewrite app_nil_r|].
  rewrite cons_middle, (assoc_L (++)). by apply IH, add_counter_totals.
Qed.

(** What a scan has read: the records of each target with its type. *)
Definition scanned : Type := list (gostring * bool * jobRecord).

Definition counters_of (e : gostring * bool * jobRecord) : list occurrence :=
  map (λ x, MkOcc e.1.1 e.1.2 x.1 x.2) (map_to_list (jr_Counters e.2)).

Definition of_job (id : gostring) (s : scanned) : scanned := filter (λ e, jr_JobID e.2 = id) s.

(** The totals of a scan: a job for each identifier of a record, with its totals. *)
Definition scan_totals (s : scanned) (aggs : gmap gostring jobAggregate) : Prop :=
  ∀ id, match aggs !! id with
        | Some a => of_job id s ≠ [] ∧ job_totals id (of_job id s ≫= counters_of) a
        | None => of_job id s = []
        end.

Lemma of_job_snoc id s e : of_job id (s ++ [e]) = if decide (jr_JobID e.2 = id) then of_job id s ++ [e] else of_job id s.
Proof. exact (filter_snoc (λ e, jr_JobID e.2 = id) s e). Qed.

Lemma aggregate_record_totals `{GoRange} s aggs target isMDT rec : scan_totals s aggs →
  scan_totals (s ++ [(target, isMDT, rec)]) (aggregate_record target isMDT aggs rec).
Proof.
  intros Hs id. unfold aggregate_record. rewrite lookup_insert, of_job_snoc. cbn [snd]. case_decide as Hid; [|exact (Hs id)].
  split; [by intros [_ ?]%app_nil|]. rewrite bind_app. cbn [mbind list_bind]. rewrite app_nil_r.
  eapply job_totals_perm; [|eapply add_counters_totals].
  - apply Permutation_app_head. exact (Permutation_map _ (range_map_perm (jr_Counters rec))).
  - specialize (Hs id). rewrite Hid. destruct (aggs !! id); [by destruct Hs|]. rewrite Hs. apply job_totals_new.
Qed.

Lemma aggregateRecords_totals `{GoRange} s aggs target isMDT records : scan_totals s aggs →
  scan_totals (s ++ map (λ r, (target, isMDT, r)) records) (aggregateRecords aggs records target isMDT).
Proof.
  revert s aggs. unfold aggregateRecords. induction records as [|r records IH]; intros s aggs Hs; cbn [map foldl]; [by rewrite app_nil_r|].
  rewrite cons_middle, (assoc_L (++)). by apply IH, aggregate_record_totals.
Qed.

Lemma scan_totals_unique s m1 m2 : scan_totals s m1 → scan_totals s m2 → m1 = m2.
Proof.
  intros H1 H2. apply map_eq. intros id. specialize (H1 id). specialize (H2 id).
  destruct (m1 !! id), (m2 !! id); try naive_solver. f_equal. destruct H1, H2. by eapply job_totals_unique.
Qed.

Lemma scan_totals_ids s aggs id a : scan_totals s aggs → aggs !! id = Some a → ag_jobID a = id.
Proof. intros Hs Ha. specialize (Hs id). rewrite Ha in Hs. by destruct Hs as [_ []]. Qed.

(** ** Lemmas: leaderboards *)

Lemma larger_then_strict {A} (n : A → Z) less :
  StrictOrder (λ a b : A, less a b = true) → StrictOrder (λ a b, larger_then n less a b = true).
Proof.
  intros [Hirr Htr]. unfold larger_then. split.
  - intros a. unfold complement. rewrite Z.eqb_refl. apply Hirr.
  - intros a b c. destruct (Z.eqb_spec (n a) (n b)), (Z.eqb_spec (n b) (n c)), (Z.eqb_spec (n a) (n c)); rewrite ?Z.ltb_lt; try lia. apply Htr.
Qed.

Lemma larger_then_total {A} (n : A → Z) less (a b : A) :
  less a b = true ∨ a = b ∨ less b a = true → larger_then n less a b = true ∨ a = b ∨ larger_then n less b a = true.
Proof.
  intros Htot. unfold larger_then. destruct (Z.eqb_spec (n a) (n b)) as [->|]; [by rewrite Z.eqb_refl|].
  destruct (Z.eqb_spec (n b) (n a)); [lia|]. rewrite !Z.ltb_lt. lia.
Qed.

Lemma name_less_strict {A} (name : A → gostring) : StrictOrder (λ a b, name_less name a b = true).
Proof.
  destruct str_ltb_strict as [Hirr Htr]. unfold name_less. split; [intros a; apply Hirr|intros a b c; apply Htr].
Qed.

(** An order of jobs that decides between any two with different identifiers. *)
Record job_order (less : jobAggregate → jobAggregate → bool) : Prop := {
  jo_strict : StrictOrder (λ a b, less a b = true);
  jo_total a b : ag_jobID a ≠ ag_jobID b → less a b = true ∨ less b a = true
}.

Lemma by_id_order : job_order (name_less ag_jobID).
Proof.
  split; [apply name_less_strict|]. intros a b Hne. unfold name_less.
  destruct (str_ltb_total (ag_jobID a) (ag_jobID b)) as [?|[?|?]]; [by left|done|by right].
Qed.

Lemma larger_order n less : job_order less → job_order (larger_then n less).
Proof.
  intros [Hs Ht]. split; [by apply larger_then_strict|]. intros a b Hne.
  destruct (larger_then_total n less a b) as [?|[?|?]]; [destruct (Ht a b Hne); tauto|by left|congruence|by right].
Qed.

Lemma io_less_order byWrite : job_order (io_less byWrite).
Proof. by apply larger_order, larger_order, by_id_order. Qed.

Lemma meta_less_order : job_order meta_less.
Proof. by apply larger_order, by_id_order. Qed.

(** The jobs of a map are known by their identifiers. *)
Definition keyed (aggs : gmap gostring jobAggregate) : Prop := ∀ id a, aggs !! id = Some a → ag_jobID a = id.

Lemma elem_of_jobs `{GoRange} (aggs : gmap gostring jobAggregate) (a : jobAggregate) : a ∈ map snd (range_map aggs) ↔ ∃ id, aggs !! id = Some a.
Proof.
  rewrite list_elem_of_fmap. split.
  - intros ([id x] & -> & Hin). rewrite range_map_perm in Hin. exists id. by apply elem_of_map_to_list.
  - intros [id Ha]. exists (id, a). split; [done|]. rewrite range_map_perm. by apply elem_of_map_to_list.
Qed.

Lemma jobs_NoDup `{GoRange} aggs : keyed aggs → NoDup (map snd (range_map aggs)).
Proof.
  intros Hk. apply (NoDup_fmap_1 ag_jobID). rewrite map_map.
  rewrite (map_ext_in _ fst); [apply range_keys_NoDup|]. intros [id a] Hin. cbn.
  apply (Hk id a), elem_of_map_to_list. rewrite <-(range_map_perm aggs). by apply list_elem_of_In.
Qed.

(** A leaderboard: the active jobs that come first, in order; as many as the limit
    allows. *)
Record leaderboard (active : jobAggregate → bool) (less : jobAggregate → jobAggregate → bool) (aggs : gmap gostring jobAggregate)
    (limit : Z) (l : list jobAggregate) : Prop := {
  lb_sorted : StronglySorted (λ a b, less a b = true) l;
  lb_active a : a ∈ l → active a = true ∧ aggs !! ag_jobID a = Some a;
  lb_first id a : aggs !! id = Some a → active a = true → a ∉ l → Z.of_nat (length l) = limit ∧ ∀ b, b ∈ l → less b a = true;
  lb_short : Z.of_nat (length l) ≤ limit
}.

Section leaders.
Context (active : jobAggregate → bool) (less : jobAggregate → jobAggregate → bool) (Hless : job_order less)
  (aggs : gmap gostring jobAggregate) (Hkeyed : keyed aggs) (limit : Z) (Hlimit : 0 ≤ limit).

Definition candidates `{GoRange} : list jobAggregate := filter (λ a, active a = true) (map snd (range_map aggs)).

Lemma elem_of_candidates `{GoRange} a : a ∈ candidates ↔ active a = true ∧ aggs !! ag_jobID a = Some a.
Proof.
  unfold candidates. rewrite list_elem_of_filter, elem_of_jobs. split; [|naive_solver].
  intros [? [id Ha]]. by rewrite (Hkeyed id a Ha).
Qed.

Lemma candidates_sorted `{GoRange} `{GoSort} : StronglySorted (λ a b, less a b = true) (sort_slice less candidates).
Proof.
  destruct Hless as [Hs Ht]. apply sort_slice_strict; [by apply NoDup_filter, jobs_NoDup|done|].
  intros a b [_ Ha]%elem_of_candidates [_ Hb]%elem_of_candidates. destruct (decide (ag_jobID a = ag_jobID b)) as [Heq|Hne].
  - right. left. congruence.
  - destruct (Ht a b Hne); tauto.
Qed.

Lemma leaders_first `{GoRange} `{GoSort} : leaderboard active less aggs limit (leaders active less aggs limit).
Proof.
  pose proof candidates_sorted as Hsort. unfold leaders. fold candidates. set (l := sort_slice less candidates) in *.
  assert (∀ a, a ∈ l ↔ active a = true ∧ aggs !! ag_jobID a = Some a) as Hl.
  { intros a. rewrite <-elem_of_candidates. unfold l. by rewrite sort_slice_perm. }
  rewrite <-(take_drop (Z.to_nat limit) l) in Hsort. apply StronglySorted_app in Hsort as (Hcross & Hs & _). split.
  - done.
  - intros a Ha. apply Hl. rewrite <-(take_drop (Z.to_nat limit) l). apply elem_of_app. by left.
  - intros id a Ha Hact Hnot. assert (a ∈ l) as Hin by (apply Hl; split; [done|by rewrite (Hkeyed id a Ha)]).
    rewrite <-(take_drop (Z.to_nat limit) l) in Hin. apply elem_of_app in Hin as [?|Hin]; [done|]. split; [|intros b Hb; by apply Hcross].
    destruct (decide (length l ≤ Z.to_nat limit)%nat) as [Hle|]; [by rewrite drop_ge, elem_of_nil in Hin|]. rewrite length_take. lia.
  - rewrite length_take. lia.
Qed.

(** Neither the order of the map nor what the sort does matters. *)
Lemma leaders_unique (R1 R2 : GoRange) (S1 S2 : GoSort) :
  @leaders R1 S1 active less aggs limit = @leaders R2 S2 active less aggs limit.
Proof.
  unfold leaders. f_equal. fold (@candidates R1) (@candidates R2).
  apply (StronglySorted_unique_strong (λ a b, less a b = true)); [|apply candidates_sorted..|].
  - intros a b _ _ Hab Hba. destruct (jo_strict _ Hless) as [Hirr Htr]. exfalso. by apply (Hirr a), (Htr _ b).
  - rewrite !sort_slice_perm. unfold candidates. by rewrite !range_map_perm.
Qed.

End leaders.

(** ** Lemmas: the dominant operation *)

(** The best of a list of operations: none is done more often, and of those done as
    often it is the first in order. *)
Definition dominant (l : list (gostring * Z)) (best : gostring * Z) : Prop :=
  best ∈ l ∧ ∀ e, e ∈ l → e.2 < best.2 ∨ e.2 = best.2 ∧ str_le best.1 e.1.

Lemma better_op_dominant l best e : e.1 ≠ [] → 0 ≤ e.2 → (l = [] ∧ best = ([], 0) ∨ best.1 ≠ [] ∧ dominant l best) →
  better_op best e ≠ ([], 0) ∧ (better_op best e).1 ≠ [] ∧ dominant (l ++ [e]) (better_op best e).
Proof.
  destruct e as [name count]. cbn [fst snd]. intros Hne Hc Hbest. unfold better_op.
  assert (∀ x, x ∈ l → (∀ e, e ∈ l → e.2 < x.2 ∨ e.2 = x.2 ∧ str_le x.1 e.1) → count < x.2 ∨ count = x.2 ∧ str_le x.1 name → dominant (l ++ [(name, count)]) x) as Hkeep.
  { intros x Hx Hall Hxc. split; [apply elem_of_app; by left|]. intros e [?| ->%list_elem_of_singleton]%elem_of_app; [by apply Hall|done]. }
  destruct Hbest as [[-> ->]|(Hb & Hin & Hall)]; cbn [fst snd].
  - destruct (0 <? count) eqn:E; cbn [orb].
    + split_and!; [by injection 1|done|]. split; [left|]. intros e ->%list_elem_of_singleton. right. by split; [|apply str_le_refl].
    + apply Z.ltb_ge in E. rewrite (proj2 (Z.eqb_eq _ _)) by lia. cbn. split_and!; [by injection 1|done|].
      split; [left|]. intros e ->%list_elem_of_singleton. right. by split; [|apply str_le_refl].
  - rewrite bool_decide_false by done. cbn [orb]. destruct best as [bn bc]. cbn [fst snd] in *.
    destruct (Z.ltb_spec bc count); cbn [orb]; [|destruct (Z.eqb_spec count bc); cbn [andb]; [destruct (str_ltb name bn) eqn:E|]].
    + split_and!; [by injection 1|done|]. split; [apply elem_of_app; right; left|].
      intros x [He| ->%list_elem_of_singleton]%elem_of_app; [destruct (Hall x He) as [?|[? _]]; left; cbn; lia|right; by split; [|apply str_le_refl]].
    + apply str_ltb_le in E as [E _]. split_and!; [by injection 1|done|]. split; [apply elem_of_app; right; left|].
      intros x [He| ->%list_elem_of_singleton]%elem_of_app; [|right; by split; [|apply str_le_refl]]. cbn.
      destruct (Hall x He) as [?|[? Hle]]; [left; lia|right; split; [lia|by transitivity bn]].
    + split_and!; [by intros [= ? _]|done|]. apply Hkeep; [done|done|]. right. split; [done|]. destruct (str_le_total bn name); [done|].
      destruct (decide (name = bn)) as [->|]; [apply str_le_refl|]. assert (str_ltb name bn = true) as Hlt by by apply str_ltb_le. by rewrite Hlt in E.
    + split_and!; [by intros [= ? _]|done|]. apply Hkeep; [done|done|]. left. cbn. lia.
Qed.

Lemma topOp_fold l : l ≠ [] → Forall (λ e : gostring * Z, e.1 ≠ [] ∧ 0 ≤ e.2) l → dominant l (foldl better_op ([], 0) l).
Proof.
  intros Hne Hall.
  assert (l = [] ∧ foldl better_op ([], 0) l = ([], 0) ∨ (foldl better_op ([], 0) l).1 ≠ [] ∧ dominant l (foldl better_op ([], 0) l)) as [[? _]|[_ ?]]; [|done..].
  clear Hne. induction l as [|e l IH] using rev_ind; [by left|]. right. apply Forall_app in Hall as [Hl [[? ?] _]%Forall_cons].
  rewrite foldl_app. cbn [foldl]. destruct (better_op_dominant l (foldl better_op ([], 0) l) e) as (_ & ? & ?); [done|done|by apply IH|done].
Qed.

Lemma dominant_unique l l' a b : l ≡ₚ l' → NoDup (map fst l) → dominant l a → dominant l' b → a = b.
Proof.
  intros Hp Hnd [Ha Ha'] [Hb Hb']. rewrite <-Hp in Hb. setoid_rewrite <-Hp in Hb'.
  apply (NoDup_key_inj fst l); [done..|]. destruct (Ha' b Hb) as [?|[? Hab]], (Hb' a Ha) as [?|[? Hba]]; try lia.
  by apply (anti_symm str_le).
Qed.

(** ** Lemmas: what the server prints *)

Definition spaces (n : nat) : gostring := replicate n " "%char.

(** A number padded to a width. *)
Definition padded (w : nat) (v : Z) : gostring := spaces (w - length (udec v)) ++ udec v.

(** A counter, with its range and sum if it has them. *)
Record shown_counter := MkShownCounter { sc_name : gostring; sc_samples : Z; sc_unit : gostring; sc_range : option (Z * Z * Z) }.

Definition counter_tail (c : shown_counter) : gostring :=
  match sc_range c with
  | Some (least, most, sum) => sc_unit c ++ go ", min:" ++ padded 8 least ++ go ", max:" ++ padded 8 most ++ go ", sum:" ++ padded 16 sum ++ go " "
  | None => sc_unit c ++ go " "
  end.

Definition counter_body (c : shown_counter) : gostring := go " samples: " ++ padded 11 (sc_samples c) ++ go ", unit:  " ++ counter_tail c.

Definition counter_text (c : shown_counter) : gostring := sc_name c ++ go ":" ++ spaces (16 - length (sc_name c)) ++ go "{" ++ counter_body c ++ go "}".

Definition shown_value (c : shown_counter) : jobCounter := MkJobCounter (sc_samples c) (match sc_range c with Some (_, _, sum) => sum | None => 0 end).

Definition good_key (name : gostring) : Prop :=
  name ≠ [] ∧ Forall (λ c, re_word c = true) name ∧ re_letter (hd " "%char name) = true ∧ name ≠ go "snapshot_time".

Definition good_counter (c : shown_counter) : Prop :=
  good_key (sc_name c) ∧ 0 ≤ sc_samples c ≤ MaxUint64 ∧ sc_unit c ∈ [go "bytes"; go "reqs"; go "usecs"] ∧
  match sc_range c with Some (least, most, sum) => 0 ≤ least ∧ 0 ≤ most ∧ 0 ≤ sum ≤ MaxUint64 | None => True end.

(** A job; its identifier may be quoted. *)
Record shown_job := MkShownJob { sj_id : gostring; sj_quoted : bool; sj_snapshot : Z; sj_counters : list shown_counter }.

Definition id_text (j : shown_job) : gostring := if sj_quoted j then quote :: sj_id j ++ [quote] else sj_id j.

Definition job_lines (j : shown_job) : list gostring :=
  (go "- job_id:" ++ spaces 10 ++ id_text j) :: (go "  snapshot_time:   " ++ udec (sj_snapshot j)) ::
  map (λ c, go "  " ++ counter_text c) (sj_counters j).

Definition job_stats_file (js : list shown_job) : gostring := concat (map (λ l, l ++ [newline]) (go "job_stats:" :: (js ≫= job_lines))).

Definition good_job (j : shown_job) : Prop :=
  sj_id j ≠ [] ∧ newline ∉ sj_id j ∧ (sj_quoted j = false → Forall (λ c, solid c = true) (sj_id j) ∧ unquoteJobID (sj_id j) = sj_id j) ∧
  0 ≤ sj_snapshot j ∧ Forall good_counter (sj_counters j).

Definition shown_record (j : shown_job) : jobRecord :=
  MkJobRecord (sj_id j) (foldl (λ m c, <[sc_name c := shown_value c]> m) ∅ (sj_counters j)).

Lemma run_class class a c r : Forall (λ x, class x = true) a → class c = false → run class (a ++ c :: r) = a.
Proof. intros Ha Hc. induction Ha as [|x a Hx _ IH]; cbn [run app]; [by rewrite Hc|]. by rewrite Hx, IH. Qed.

Lemma skip_spaces n s : skip_space (spaces n ++ s) = skip_space s.
Proof. induction n as [|n IH]; [done|exact IH]. Qed.

Lemma solid_no_re_space c : solid c = true → re_space c = false.
Proof.
  intros Hc. apply not_true_iff_false. unfold re_space. rewrite existsb_exists. intros (n & Hn & Heq%N.eqb_eq).
  unfold solid in Hc. rewrite Heq in Hc. by repeat destruct Hn as [<-|Hn].
Qed.

Lemma skip_solid c s : solid c = true → skip_space (c :: s) = c :: s.
Proof. intros Hc. cbn [skip_space]. by rewrite (solid_no_re_space c Hc). Qed.

Lemma run_padded w v c r : 0 ≤ v → is_digit c = false → run is_digit (skip_space (padded w v ++ c :: r)) = udec v.
Proof.
  intros Hv Hc. destruct (udec_spec v) as (Hne & Hd & _); [done|]. unfold padded. rewrite <-(assoc_L (++)), skip_spaces.
  destruct (udec v) as [|d s] eqn:E; [done|]. rewrite <-app_comm_cons, skip_solid; [by apply (run_class is_digit (d :: s))|].
  apply is_digit_solid. by apply Forall_cons in Hd as [? _].
Qed.

(** Text without the letters su: no label sum: in it. *)
Fixpoint quiet (s : gostring) : bool :=
  match s with
  | [] => true
  | c :: r => (negb (bool_decide (c = "s"%char)) || match r with [] => false | d :: _ => negb (bool_decide (d = "u"%char)) end) && quiet r
  end.

Lemma quiet_app a b : quiet a = true → quiet b = true → quiet (a ++ b) = true.
Proof.
  intros Ha Hb. induction a as [|c a IH]; [done|]. cbn [quiet app] in *. apply andb_true_iff in Ha as [Hc Ha]. rewrite IH by done.
  rewrite andb_true_r. destruct a as [|d a]; [|done]. cbn [app]. by destruct (bool_decide (c = "s"%char)).
Qed.

Lemma quiet_padded w v : 0 ≤ v → quiet (padded w v) = true.
Proof.
  intros Hv. apply quiet_app; [by induction (w - length (udec v))%nat|].
  destruct (udec_spec v) as (_ & Hd & _); [done|]. induction Hd as [|c s Hc _ IH]; [done|]. cbn [quiet]. rewrite IH, andb_true_r.
  rewrite bool_decide_false; [done|]. by intros ->.
Qed.

Lemma number_after_quiet a r : quiet a = true → number_after (go "sum:") (a ++ r) = number_after (go "sum:") r.
Proof.
  intros Ha. induction a as [|c a IH]; [done|]. cbn [quiet] in Ha. apply andb_true_iff in Ha as [Hc Ha].
  cbn [app number_after]. rewrite IH by done. unfold number_at. destruct (strings_HasPrefix _ _) eqn:Hp; [exfalso|done].
  apply strings_HasPrefix_spec in Hp as [x Hx]. change (go "sum:" ++ x) with ("s"%char :: "u"%char :: go "m:" ++ x) in Hx.
  injection Hx as -> Hx. cbn [negb orb] in Hc. rewrite bool_decide_true in Hc by done. destruct a as [|d a]; [done|].
  injection Hx as -> _. by rewrite bool_decide_true in Hc.
Qed.

Lemma number_after_sum w v r : 0 ≤ v → number_after (go "sum:") (go "sum:" ++ padded w v ++ " "%char :: r) = Some (udec v).
Proof.
  intros Hv. destruct (udec_spec v) as (Hne & _); [done|]. set (s := padded w v ++ " "%char :: r).
  change (go "sum:" ++ s) with ("s"%char :: go "um:" ++ s). cbn [number_after].
  assert (number_at (go "sum:") ("s"%char :: go "um:" ++ s) = udec v) as ->; [|by destruct (udec v)].
  unfold number_at. change ("s"%char :: go "um:" ++ s) with (go "sum:" ++ s). rewrite (proj2 (strings_HasPrefix_spec _ _)) by by exists s.
  rewrite drop_app_length. by apply run_padded.
Qed.

Lemma job_counter_body c : good_counter c → job_counter (counter_body c) = Some (shown_value c).
Proof.
  intros (_ & Hs & Hu & Hr). unfold job_counter.
  assert (number_after (go "samples:") (counter_body c) = Some (udec (sc_samples c))) as ->.
  { destruct (udec_spec (sc_samples c)) as (Hne & _); [lia|]. unfold counter_body. set (s := padded 11 (sc_samples c) ++ go ", unit:  " ++ counter_tail c).
    change (go " samples: " ++ s) with (" "%char :: go "samples:" ++ " "%char :: s). cbn [number_after].
    assert (number_at (go "samples:") (" "%char :: go "samples:" ++ " "%char :: s) = []) as -> by done.
    assert (number_at (go "samples:") (go "samples:" ++ " "%char :: s) = udec (sc_samples c)) as Hat.
    { unfold number_at. rewrite (proj2 (strings_HasPrefix_spec _ _)) by by eexists. rewrite drop_app_length.
      change (skip_space (" "%char :: s)) with (skip_space s). unfold s. apply run_padded; [lia|done]. }
    change (go "samples:" ++ " "%char :: s) with ("s"%char :: go "amples:" ++ " "%char :: s) in *. cbn [number_after]. rewrite Hat. by destruct (udec _). }
  rewrite ParseUint_udec by lia. unfold shown_value. f_equal. f_equal.
  unfold counter_body, counter_tail. destruct (sc_range c) as [[[least most] sum]|].
  - assert (quiet (sc_unit c ++ go ", min:") = true) as Hunit.
    { repeat (apply elem_of_cons in Hu as [->|Hu]; [done|]). by apply elem_of_nil in Hu. }
    rewrite !(assoc_L (++)). rewrite <-!(assoc_L (++)). rewrite (number_after_quiet (go " samples: ")) by done.
    rewrite number_after_quiet by (apply quiet_padded; lia). rewrite (number_after_quiet (go ", unit:  ")) by done.
    rewrite (assoc_L (++) (sc_unit c)), number_after_quiet by done. rewrite number_after_quiet by (apply quiet_padded; lia).
    rewrite (number_after_quiet (go ", max:")) by done. rewrite number_after_quiet by (apply quiet_padded; lia).
    change (go ", sum:" ++ padded 16 sum ++ go " ") with (go ", " ++ go "sum:" ++ padded 16 sum ++ [" "%char]). rewrite (number_after_quiet (go ", ")) by done.
    rewrite number_after_sum by lia. by rewrite ParseUint_udec by lia.
  - assert (quiet (sc_unit c ++ go " ") = true) as Hunit.
    { repeat (apply elem_of_cons in Hu as [->|Hu]; [done|]). by apply elem_of_nil in Hu. }
    rewrite <-(app_nil_r (go " samples: " ++ _)), number_after_quiet; [done|].
    apply quiet_app; [done|]. apply quiet_app; [apply quiet_padded; lia|]. by apply quiet_app.
Qed.

Lemma letter_word_solid c : re_word c = true → solid c = true.
Proof.
  unfold re_word, re_letter, is_digit, solid. rewrite orb_true_iff, !andb_true_iff, !orb_true_iff, !andb_true_iff, !N.leb_le, N.eqb_eq. lia.
Qed.

Lemma TrimSpace_two s c d : (∃ t, s = c :: t) → (∃ u, s = u ++ [d]) → solid c = true → solid d = true → strings_TrimSpace (go "  " ++ s) = s.
Proof.
  intros [t Ht] Hd Hc Hsd. change (go "  " ++ s) with (" "%char :: " "%char :: s). rewrite !TrimSpace_space. by eapply TrimSpace_ends.
Qed.

Lemma expect_cons c r : expect c (c :: r) = Some r.
Proof. unfold expect. by rewrite decide_True. Qed.

(** A counter's line: its text, and what it is not. *)
Lemma counter_line_text c : good_counter c →
  strings_TrimSpace (go "  " ++ counter_text c) = counter_text c ∧ counter_text c ≠ [] ∧ counter_text c ≠ go "job_stats:" ∧
  strings_HasPrefix (counter_text c) (go "-") = false ∧ strings_HasPrefix (counter_text c) (go "snapshot_time:") = false ∧
  counterRe (counter_text c) = Some (sc_name c, counter_body c).
Proof.
  intros ((Hne & Hw & Hl & Hst) & _). unfold counter_text. set (rest := spaces (16 - length (sc_name c)) ++ go "{" ++ counter_body c ++ go "}").
  change (go ":" ++ rest) with (":"%char :: rest). assert (run re_word (sc_name c ++ ":"%char :: rest) = sc_name c) as Hrun by by apply run_class.
  assert (∃ u, sc_name c ++ ":"%char :: rest = u ++ ["}"%char]) as Hend.
  { exists (sc_name c ++ ":"%char :: spaces (16 - length (sc_name c)) ++ go "{" ++ counter_body c). unfold rest. by rewrite <-!(assoc_L (++)), <-app_comm_cons, <-!(assoc_L (++)). }
  destruct (sc_name c) as [|x name] eqn:En; [done|]. cbn [hd] in Hl. assert (solid x = true) as Hx by (apply letter_word_solid; unfold re_word; by rewrite Hl).
  split_and!.
  - eapply TrimSpace_two; [by eexists|exact Hend|done|done].
  - done.
  - intros Heq. destruct Hend as [u Hu]. rewrite Heq in Hu. apply (f_equal last) in Hu. by rewrite last_snoc in Hu.
  - apply not_true_iff_false. intros [r Hr]%strings_HasPrefix_spec. injection Hr as -> _. done.
  - apply not_true_iff_false. intros [r Hr]%strings_HasPrefix_spec. rewrite Hr in Hrun. apply Hst. rewrite <-Hrun.
    change (go "snapshot_time:" ++ r) with (go "snapshot_time" ++ ":"%char :: r). by apply run_class; [by_decide|].
  - unfold counterRe. cbv zeta. rewrite Hrun, drop_app_length. change (hd " "%char ((x :: name) ++ ":"%char :: rest)) with x. rewrite Hl.
    rewrite expect_cons. unfold rest. cbn [mbind option_bind]. rewrite skip_spaces.
    change (go "{" ++ counter_body c ++ go "}") with ("{"%char :: counter_body c ++ ["}"%char]). rewrite skip_solid, expect_cons by done.
    cbn [mbind option_bind]. rewrite reverse_snoc, skip_solid, expect_cons by done. cbn [mbind option_bind]. by rewrite reverse_involutive.
Qed.

Lemma job_line_counter jobs errs rec c : good_counter c →
  job_line (jobs, errs, Some rec) (go "  " ++ counter_text c) =
  (jobs, errs, Some (MkJobRecord (jr_JobID rec) (<[sc_name c := shown_value c]> (jr_Counters rec)))).
Proof.
  intros Hc. destruct (counter_line_text c Hc) as (Htrim & Hne & Hj & Hd & Hs & Hre). unfold job_line.
  rewrite Htrim, !bool_decide_false, Hd, Hs, Hre by done. cbn [orb]. by rewrite job_counter_body.
Qed.

Lemma id_text_ends j : good_job j → (∃ c t, id_text j = c :: t ∧ solid c = true) ∧ (∃ u d, id_text j = u ++ [d] ∧ solid d = true).
Proof.
  intros (Hne & _ & Hid & _). unfold id_text. destruct (sj_quoted j).
  - split; [by eexists _, _|]. by exists (quote :: sj_id j), quote.
  - destruct (Hid eq_refl) as [Hs _]. split.
    + destruct (sj_id j) as [|c t]; [done|]. exists c, t. by apply Forall_cons in Hs as [? _].
    + destruct (exists_last Hne) as (u & d & E). exists u, d. split; [done|]. rewrite E in Hs. apply Forall_app in Hs as [_ Hs]. by apply Forall_cons in Hs as [? _].
Qed.

Lemma unquote_id_text j : good_job j → unquoteJobID (id_text j) = sj_id j.
Proof.
  intros (Hne & _ & Hid & _). unfold id_text. destruct (sj_quoted j); [|by apply Hid].
  destruct (sj_id j) as [|c t]; [done|]. unfold unquoteJobID. cbn [app]. change (c :: t ++ [quote]) with ((c :: t) ++ [quote]).
  rewrite last_last, removelast_last. by rewrite !(bool_decide_true (quote = quote)).
Qed.

Lemma job_line_head jobs errs cur j : good_job j →
  job_line (jobs, errs, cur) (go "- job_id:" ++ spaces 10 ++ id_text j) = (job_flush jobs cur, errs, Some (MkJobRecord (sj_id j) ∅)).
Proof.
  intros Hj. destruct (id_text_ends j Hj) as [(c & t & Ht & Hc) (u & d & Hu & Hd)]. pose proof (unquote_id_text j Hj) as Hunq. destruct Hj as (Hne & _).
  assert (strings_TrimSpace (id_text j) = id_text j) as Htrim by (eapply TrimSpace_ends; eauto).
  unfold job_line. erewrite (TrimSpace_ends (go "- job_id:" ++ spaces 10 ++ id_text j) "-"%char d); [|done| |done|done].
  2: { rewrite Hu, !(assoc_L (++)). by eexists. }
  rewrite !bool_decide_false by (intros Heq; discriminate Heq). cbn [orb]. rewrite (proj2 (strings_HasPrefix_spec _ _)) by by eexists.
  assert (jobIDRe (go "- job_id:" ++ spaces 10 ++ id_text j) = Some (id_text j)) as ->.
  { unfold jobIDRe. change (drop 1 (go "- job_id:" ++ spaces 10 ++ id_text j)) with (" "%char :: go "job_id:" ++ spaces 10 ++ id_text j).
    change (skip_space (" "%char :: go "job_id:" ++ spaces 10 ++ id_text j)) with (go "job_id:" ++ spaces 10 ++ id_text j).
    rewrite (proj2 (strings_HasPrefix_spec _ _)) by by eexists. f_equal. change (drop 7 (go "job_id:" ++ spaces 10 ++ id_text j)) with (spaces 10 ++ id_text j).
    by rewrite skip_spaces, Ht, skip_solid. }
  rewrite Htrim, Hunq. by destruct (sj_id j).
Qed.

Lemma job_line_snapshot jobs errs rec v : 0 ≤ v → job_line (jobs, errs, Some rec) (go "  snapshot_time:   " ++ udec v) = (jobs, errs, Some rec).
Proof.
  intros Hv. destruct (udec_spec v) as (Hne & Hd & _); [done|]. destruct (exists_last Hne) as (u & d & E).
  assert (solid d = true). { rewrite E in Hd. apply Forall_app in Hd as [_ Hd]. apply is_digit_solid. by apply Forall_cons in Hd as [? _]. }
  unfold job_line. change (go "  snapshot_time:   " ++ udec v) with (go "  " ++ go "snapshot_time:   " ++ udec v).
  rewrite (TrimSpace_two _ "s"%char d); [|by eexists| |done|done].
  2: { rewrite E, (assoc_L (++)). by eexists. }
  rewrite !bool_decide_false by (intros Heq; discriminate Heq). cbn [orb].
  assert (strings_HasPrefix (go "snapshot_time:   " ++ udec v) (go "-") = false) as -> by by apply bool_decide_false; intros [? [=]].
  rewrite (proj2 (strings_HasPrefix_spec _ _)); [done|]. by exists (go "   " ++ udec v).
Qed.

Lemma job_lines_read jobs errs cur j : good_job j →
  foldl job_line (jobs, errs, cur) (job_lines j) = (job_flush jobs cur, errs, Some (shown_record j)).
Proof.
  intros Hj. unfold job_lines. cbn [foldl]. rewrite job_line_head by done. destruct Hj as (_ & _ & _ & Hs & Hc). rewrite job_line_snapshot by done.
  unfold shown_record. generalize (∅ : gmap gostring jobCounter). induction Hc as [|c l Hc _ IH]; intros m; [done|].
  cbn [map foldl]. rewrite job_line_counter by done. cbn [jr_JobID jr_Counters]. apply IH.
Qed.

Lemma jobs_read js jobs errs cur : Forall good_job js →
  let '(jobs', errs', cur') := foldl job_line (jobs, errs, cur) (js ≫= job_lines) in
  job_flush jobs' cur' = job_flush jobs cur ++ map shown_record js ∧ errs' = errs.
Proof.
  intros Hjs. revert jobs cur. induction Hjs as [|j js Hj _ IH]; intros jobs cur; [by cbn; rewrite app_nil_r|].
  cbn [mbind list_bind]. rewrite foldl_app, job_lines_read by done. specialize (IH (job_flush jobs cur) (Some (shown_record j))).
  cbn [job_flush map] in *. by rewrite cons_middle, (assoc_L (++)).
Qed.

Lemma clean_app (a b : gostring) : newline ∉ a → newline ∉ b → newline ∉ a ++ b.
Proof. rewrite elem_of_app. tauto. Qed.

Lemma clean_spaces n : newline ∉ spaces n.
Proof. intros [? _]%elem_of_replicate. done. Qed.

Lemma clean_padded w v : 0 ≤ v → newline ∉ padded w v.
Proof. intros. apply clean_app; [apply clean_spaces|by apply udec_not_in]. Qed.

(** Text put together of pieces without a newline. *)
Ltac clean :=
  repeat match goal with
  | |- _ ∉ _ ++ _ => apply clean_app
  | |- _ ∉ spaces _ => apply clean_spaces
  | |- _ ∉ padded _ _ => apply clean_padded; lia
  | |- _ ∉ udec _ => apply udec_not_in; [lia|done]
  | |- _ ∉ go _ => by_decide
  | |- _ ∉ [_] => by_decide
  | _ => assumption
  end.

Lemma job_lines_clean j : good_job j → Forall (λ l, newline ∉ l) (job_lines j).
Proof.
  intros (_ & Hid & _ & Hs & Hc). unfold job_lines. constructor; [|constructor].
  - clean. unfold id_text. destruct (sj_quoted j); [|done]. change (quote :: sj_id j ++ [quote]) with ([quote] ++ sj_id j ++ [quote]). clean.
  - clean.
  - apply Forall_map. eapply Forall_impl; [exact Hc|]. intros c ((_ & Hw & _) & Hn & Hu & Hr). unfold counter_text, counter_body, counter_tail.
    assert (newline ∉ sc_name c) as Hname. { intros Hin. rewrite Forall_forall in Hw. by specialize (Hw newline Hin). }
    assert (newline ∉ sc_unit c) as Hunit. { repeat (apply elem_of_cons in Hu as [->|Hu]; [by_decide|]). by apply elem_of_nil in Hu. }
    destruct (sc_range c) as [[[least most] sum]|]; clean.
Qed.

(** The keys of the counters are not empty. *)
Definition keys_ok (r : jobRecord) : Prop := jr_Counters r !! [] = None.

Lemma counterRe_key s key body : counterRe s = Some (key, body) → key ≠ [].
Proof.
  unfold counterRe. cbv zeta. destruct (re_letter _) eqn:Hl; [|done].
  assert (run re_word s ≠ []) as Hne by (destruct s as [|c s]; [done|]; cbn [run hd] in *; unfold re_word; by rewrite Hl).
  destruct (expect ":"%char _) as [r|]; [|done]. cbn [mbind option_bind]. destruct (expect "{"%char _) as [rest|]; [|done]. cbn [mbind option_bind].
  destruct (expect "}"%char _) as [b|]; [|done]. cbn [mbind option_bind]. by intros [= <- _].
Qed.

Lemma job_line_keys st line : Forall keys_ok (job_flush st.1.1 st.2) → Forall keys_ok (job_flush (job_line st line).1.1 (job_line st line).2).
Proof.
  destruct st as [[jobs errs] cur]. cbn [fst snd]. intros Hst. unfold job_line. cbv zeta.
  destruct (_ || _); [done|]. destruct (strings_HasPrefix _ _).
  - destruct (match jobIDRe _ with Some m => _ | None => [] end); cbn [fst snd job_flush]; [done|]. apply Forall_app. split; [done|]. by constructor.
  - destruct cur as [rec|]; [|done]. destruct (strings_HasPrefix _ _); [done|]. destruct (counterRe _) as [[key body]|] eqn:E; [|done].
    destruct (job_counter body) as [c|]; [|done]. cbn [fst snd job_flush] in *. apply Forall_app in Hst as [Hj [Hr _]%Forall_cons].
    apply Forall_app. split; [done|]. constructor; [|done]. unfold keys_ok in *. cbn [jr_Counters].
    rewrite lookup_insert_ne; [done|]. by eapply counterRe_key.
Qed.

Lemma parse_keys data : Forall keys_ok (parseJobStats data).1.
Proof.
  unfold parseJobStats. set (st := ([], 0, None) : job_state). assert (Forall keys_ok (job_flush st.1.1 st.2)) as Hst by constructor.
  generalize dependent st. induction (strings_Split data newline) as [|l ls IH]; intros st Hst; cbn [foldl].
  - by destruct st as [[jobs errs] cur].
  - by apply IH, job_line_keys.
Qed.

(** ** Lemmas: a scan *)

(** What is read of a target: nothing if its file is not there. *)
Definition read_target `{FileSystem} (ref : gostring * gostring) : list jobRecord * Z :=
  match resolvePath [ref.1; ref.2; go "job_stats"] with
  | Some path => match ReadFile path with inl raw => parseJobStats raw | inr _ => ([], 0) end
  | None => ([], 0)
  end.

Definition scan_of `{FileSystem} (targets : list (gostring * gostring)) : scanned :=
  targets ≫= λ ref, map (λ r, (ref.2, bool_decide (ref.1 = go "mdt"), r)) (read_target ref).1.

Definition errors_of `{FileSystem} (targets : list (gostring * gostring)) : Z := foldr (λ ref n, (read_target ref).2 + n) 0 targets.

Lemma scan_target_read `{FileSystem} `{GoRange} aggs errs ref :
  scan_target (aggs, errs) ref = (aggregateRecords aggs (read_target ref).1 ref.2 (bool_decide (ref.1 = go "mdt")), errs + (read_target ref).2).
Proof.
  unfold scan_target, read_target. destruct (resolvePath _) as [path|]; [|by cbn; rewrite Z.add_0_r].
  destruct (ReadFile path) as [raw|]; [|by cbn; rewrite Z.add_0_r]. by destruct (parseJobStats raw).
Qed.

Lemma scan_targets `{FileSystem} `{GoRange} targets s aggs errs : scan_totals s aggs →
  scan_totals (s ++ scan_of targets) (foldl scan_target (aggs, errs) targets).1 ∧
  (foldl scan_target (aggs, errs) targets).2 = errs + errors_of targets.
Proof.
  revert s aggs errs. unfold scan_of, errors_of. induction targets as [|ref targets IH]; intros s aggs errs Hs; cbn [foldl mbind list_bind foldr].
  - by rewrite app_nil_r, Z.add_0_r.
  - rewrite scan_target_read, (assoc_L (++)), Z.add_assoc. by apply IH, aggregateRecords_totals.
Qed.

Lemma scan_all `{FileSystem} `{GoRange} targets :
  scan_totals (scan_of targets) (foldl scan_target (∅, 0) targets).1 ∧ (foldl scan_target (∅, 0) targets).2 = errors_of targets.
Proof. apply (scan_targets targets [] ∅ 0). intros id. by rewrite lookup_empty. Qed.

Lemma scan_keys `{FileSystem} targets : Forall (λ e, keys_ok e.2) (scan_of targets).
Proof.
  unfold scan_of. induction targets as [|ref targets IH]; [constructor|]. cbn [mbind list_bind]. apply Forall_app. split; [|done].
  apply Forall_map. unfold read_target. destruct (resolvePath _) as [path|]; [|constructor]. destruct (ReadFile path); [|constructor]. apply parse_keys.
Qed.

Lemma clamp_limit_range limit : 1 ≤ clamp_limit limit ≤ 50.
Proof. unfold clamp_limit, defaultLimit, maxLimit. zcases; lia. Qed.

Lemma topOp_unique (R1 R2 : GoRange) ops : ops !! [] = None → (∀ n v, ops !! n = Some v → 0 ≤ v) → @topOp R1 ops = @topOp R2 ops.
Proof.
  intros Hnil Hpos. unfold topOp. f_equal.
  assert (@range_map R1 _ ops ≡ₚ @range_map R2 _ ops) as Hp by by rewrite !range_map_perm.
  assert (∀ R : GoRange, Forall (λ e : gostring * Z, e.1 ≠ [] ∧ 0 ≤ e.2) (range_map ops)) as Hall.
  { intros R. apply Forall_forall. intros [n v] Hin. rewrite range_map_perm in Hin. apply elem_of_map_to_list in Hin. cbn.
    split; [|by eapply Hpos]. intros ->. congruence. }
  destruct (decide (@range_map R1 _ ops = [])) as [E1|N1].
  - rewrite E1 in *. by rewrite (Permutation_nil Hp).
  - eapply dominant_unique; [exact Hp|exact (@range_keys_NoDup R1 _ ops)|by apply topOp_fold|]. apply topOp_fold; [|done].
    intros E2. rewrite E2 in Hp. by symmetry in Hp; apply Permutation_nil in Hp.
Qed.

Lemma scanned_ops s aggs id a : Forall (λ e, keys_ok e.2) s → scan_totals s aggs → aggs !! id = Some a →
  ag_mdOps a !! [] = None ∧ ∀ n v, ag_mdOps a !! n = Some v → 0 ≤ v.
Proof.
  intros Hk Hs Ha. specialize (Hs id). rewrite Ha in Hs. destruct Hs as [_ [_ _ _ _ _ Hmd _ _ _]]. split.
  - rewrite Hmd. destruct (named [] _) as [|o l] eqn:E; [done|]. exfalso.
    assert (o ∈ named [] (md (of_job id s ≫= counters_of))) as Hin by (rewrite E; left).
    apply list_elem_of_filter in Hin as [Hn [_ Hin]%list_elem_of_filter]. apply list_elem_of_bind in Hin as (e & Hin & [_ He]%list_elem_of_filter).
    apply list_elem_of_fmap in Hin as ([n c] & -> & Hin). cbn in Hn. subst n. apply elem_of_map_to_list in Hin.
    rewrite Forall_forall in Hk. specialize (Hk e He). unfold keys_ok in Hk. congruence.
  - intros n v. rewrite Hmd. destruct (named n _); [done|]. intros [= <-]. apply u64_range.
Qed.

(** The operation that is named as the top of an active job is its dominant one. *)
Lemma active_topOp `{GoRange} s aggs id a : Forall (λ e, keys_ok e.2) s → scan_totals s aggs → meta_active a = true → aggs !! id = Some a →
  ∃ n, dominant (map_to_list (ag_mdOps a)) (topOp (ag_mdOps a), n).
Proof.
  intros Hk Hs Hact Ha. destruct (scanned_ops s aggs id a Hk Hs Ha) as [Hnil Hpos]. specialize (Hs id). rewrite Ha in Hs. destruct Hs as [_ [_ _ _ _ _ Hmd Htot _ _]].
  assert (range_map (ag_mdOps a) ≠ []) as Hne.
  { intros E. assert (ag_mdOps a = ∅) as E'. { apply map_to_list_empty_iff, Permutation_nil. by rewrite <-E, range_map_perm. }
    unfold meta_active in Hact. rewrite Htot in Hact. destruct (md _) as [|o l] eqn:El; [done|].
    specialize (Hmd (oc_name o)). rewrite E', lookup_empty in Hmd. cbn [named] in Hmd. unfold named in Hmd. rewrite filter_cons, decide_True in Hmd by done. done. }
  assert (dominant (range_map (ag_mdOps a)) (foldl better_op ([], 0) (range_map (ag_mdOps a)))) as [Hin Hall].
  { apply topOp_fold; [done|]. apply Forall_forall. intros [n v] Hin. rewrite range_map_perm in Hin. apply elem_of_map_to_list in Hin. cbn.
    split; [|by eapply Hpos]. intros ->. congruence. }
  exists (foldl better_op ([], 0) (range_map (ag_mdOps a))).2. unfold topOp. rewrite <-surjective_pairing.
  split; [by rewrite <-range_map_perm|]. intros e He. apply Hall. by rewrite range_map_perm.
Qed.

(** ** Properties *)

(** A file the server prints is read back without errors: each job with its identifier,
    quoted or not, and its counters; of counters of one name the last. *)
Theorem parseJobStats_roundtrip (js : list shown_job) (Hjs : Forall good_job js) :
  parseJobStats (job_stats_file js) = (map shown_record js, 0).
Proof.
  unfold parseJobStats, job_stats_file. rewrite Split_lines.
  - rewrite foldl_app. cbn [foldl]. rewrite (eq_refl : job_line ([], 0, None) (go "job_stats:") = ([], 0, None)).
    pose proof (jobs_read js [] 0 None Hjs) as Hread. destruct (foldl job_line ([], 0, None) (js ≫= job_lines)) as [[jobs errs] cur].
    destruct Hread as [Hjobs ->]. cbn [job_line strings_TrimSpace] in *. exact (f_equal (λ l, (l, 0)) Hjobs).
  - constructor; [by_decide|]. clear -Hjs. induction Hjs as [|j js Hj _ IH]; [constructor|]. cbn [mbind list_bind]. apply Forall_app. split; [by apply job_lines_clean|done].
Qed.

(** C29: The report. Its totals are those of the records in the files that can be read, and each
    leaderboard has the first of the jobs that are active in its dimension, by the
    amount, then the operations, then the identifier; it is shorter than the limit only if
    it has all of them. Metadata operations are reported where an MDT was scanned, with the
    operation a job did most. *)
Theorem jobs_report `{FileSystem} `{GoRange} `{GoSort} (target : gostring) (limit : Z) (status : JobStatus) (data : Data)
  (Hrun : jobs_Execute (Ret (target, limit)) None = Ret (status, data)) :
  ∃ aggs written read meta, scan_totals (scan_of (job_targets target)) aggs ∧
    (leaderboard (io_active true) (io_less true) aggs (clamp_limit limit) written ∧ da_TopJobsByWrite data = map io_stats written) ∧
    (leaderboard (io_active false) (io_less false) aggs (clamp_limit limit) read ∧ da_TopJobsByRead data = map io_stats read) ∧
    (leaderboard meta_active meta_less aggs (clamp_limit limit) meta ∧
     da_TopJobsByMetadataOps data = (if decide (go "mdt" ∈ map fst (job_targets target)) then map meta_stats meta else []) ∧
     ∀ a, a ∈ meta → ∃ n, dominant (map_to_list (ag_mdOps a)) (topOp (ag_mdOps a), n)) ∧
    da_TargetsScanned data = Z.of_nat (length (job_targets target)) ∧ da_TotalJobsTracked data = Z.of_nat (size aggs) ∧
    da_ParseErrors data = errors_of (job_targets target) ∧ (da_Note data = true ↔ status = JobsDegraded) ∧
    status = (if decide (job_targets target = []) then JobsNoTargets else if decide (aggs = ∅) then JobsDegraded else JobsOK).
Proof.
  unfold jobs_Execute in Hrun. destruct (bool_decide (target ≠ []) && _); [done|]. destruct (scan_all (job_targets target)) as [Hs He].
  destruct (foldl scan_target (∅, 0) (job_targets target)) as [aggs errs]. cbn [fst snd] in *. injection Hrun as <- <-. unfold jobs_status.
  assert (keyed aggs) as Hk by (intros id a; by apply (scan_totals_ids _ _ _ _ Hs)). pose proof (clamp_limit_range limit) as Hc.
  exists aggs, (leaders (io_active true) (io_less true) aggs (clamp_limit limit)), (leaders (io_active false) (io_less false) aggs (clamp_limit limit)),
    (leaders meta_active meta_less aggs (clamp_limit limit)). cbn [da_TargetsScanned da_TotalJobsTracked da_TopJobsByWrite da_TopJobsByRead da_TopJobsByMetadataOps da_ParseErrors da_Note].
  assert (leaderboard meta_active meta_less aggs (clamp_limit limit) (leaders meta_active meta_less aggs (clamp_limit limit))) as Hmeta
    by (apply leaders_first; [apply meta_less_order|done|lia]).
  assert (Z.of_nat (size aggs) =? 0 = bool_decide (aggs = ∅)) as ->.
  { apply eq_true_iff_eq. rewrite Z.eqb_eq, bool_decide_eq_true, <-map_size_empty_iff. lia. }
  assert (Z.of_nat (length (job_targets target)) =? 0 = bool_decide (job_targets target = [])) as ->.
  { apply eq_true_iff_eq. rewrite Z.eqb_eq, bool_decide_eq_true, <-length_zero_iff_nil. lia. }
  split_and!; [done|apply leaders_first; [apply io_less_order|done|lia]|done|apply leaders_first; [apply io_less_order|done|lia]|done|done| | |done|done|done| |].
  - unfold buildMetaTop. by repeat case_decide || case_bool_decide.
  - intros a Ha. apply (lb_active _ _ _ _ _ Hmeta) in Ha as [Hact Ha]. by apply (active_topOp (scan_of (job_targets target)) aggs (ag_jobID a) a (scan_keys _)).
  - repeat case_decide || case_bool_decide; done.
  - repeat case_decide || case_bool_decide; done.
Qed.

(** The report depends on the files alone: neither on the orders in which maps are visited
    nor on what the sort does with equals. *)
Theorem jobs_deterministic `{FileSystem} (R1 R2 : GoRange) (S1 S2 : GoSort) (args : outcome (gostring * Z)) (canceled : option nat) :
  @jobs_Execute _ R1 S1 args canceled = @jobs_Execute _ R2 S2 args canceled.
Proof.
  unfold jobs_Execute. destruct args as [[target limit]| | |]; try done. destruct (bool_decide (target ≠ []) && _); [done|].
  destruct (match canceled with Some n => _ | None => false end); [done|].
  pose proof (@scan_all _ R1 (job_targets target)) as [Hs1 He1]. pose proof (@scan_all _ R2 (job_targets target)) as [Hs2 He2].
  destruct (foldl (@scan_target _ R1) (∅, 0) (job_targets target)) as [aggs errs], (foldl (@scan_target _ R2) (∅, 0) (job_targets target)) as [aggs2 errs2].
  cbn [fst snd] in *. subst errs errs2. rewrite <-(scan_totals_unique _ _ _ Hs1 Hs2).
  assert (keyed aggs) as Hk by (intros id a; by apply (scan_totals_ids _ _ _ _ Hs1)).
  assert (∀ byWrite, @buildIOTop R1 S1 aggs (clamp_limit limit) byWrite = @buildIOTop R2 S2 aggs (clamp_limit limit) byWrite) as Hio.
  { intros byWrite. unfold buildIOTop. f_equal. apply leaders_unique; [apply io_less_order|done]. }
  assert (@buildMetaTop R1 S1 aggs (clamp_limit limit) = @buildMetaTop R2 S2 aggs (clamp_limit limit)) as Hmeta; [|by rewrite !Hio, Hmeta].
  unfold buildMetaTop. rewrite (leaders_unique meta_active meta_less meta_less_order aggs Hk (clamp_limit limit) R1 R2 S1 S2).
  apply map_ext_in. intros a Ha%list_elem_of_In. pose proof (clamp_limit_range limit).
  destruct (lb_active _ _ _ _ _ (@leaders_first meta_active meta_less meta_less_order aggs Hk (clamp_limit limit) ltac:(lia) R2 S2) a Ha) as [_ Hin].
  unfold meta_stats. f_equal. destruct (scanned_ops _ _ _ _ (scan_keys _) Hs1 Hin). by apply topOp_unique.
Qed.

(** ** Witnesses *)

Definition sample_job : shown_job :=
  MkShownJob (go "dd.0") true 1700000000
    [MkShownCounter (go "write_bytes") 3 (go "bytes") (Some (4096, 1048576, 2101248)); MkShownCounter (go "open") 7 (go "reqs") None].

Lemma parseJobStats_roundtrip_witness :
  parseJobStats (job_stats_file [sample_job]) =
  ([MkJobRecord (go "dd.0") (<[go "open" := MkJobCounter 7 0]> (<[go "write_bytes" := MkJobCounter 3 2101248]> ∅))], 0).
Proof.
  apply (parseJobStats_roundtrip [sample_job]). constructor; [|constructor]. split; [done|]. split; [by_decide|]. split; [done|]. split; [by vm_compute|].
  repeat constructor; try done; try by_decide; by vm_compute.
Defined.

(** A server with one metadata target. *)
Definition job_fs : FileSystem :=
  let mdt := [go "/sys"; go "fs"; go "lustre"; go "mdt"] in
  mem_fs [(mdt ++ [go "fs-MDT0000"; go "job_stats"], job_stats_file [sample_job])]
    [(mdt, [MkDirEntry (go "fs-MDT0000") true false]); (mdt ++ [go "fs-MDT0000"], [])] [].

Lemma jobs_report_witness :
  ∃ data, @jobs_Execute job_fs list_range insertion_GoSort (Ret ([], 0)) None = Ret (JobsOK, data) ∧
    (∃ written, da_TopJobsByWrite data = map io_stats written) ∧ da_TargetsScanned data = 1 ∧
    map jm_TopOp (da_TopJobsByMetadataOps data) = [go "open"].
Proof.
  assert (∃ data, @jobs_Execute job_fs list_range insertion_GoSort (Ret ([], 0)) None = Ret (JobsOK, data) ∧
    map jm_TopOp (da_TopJobsByMetadataOps data) = [go "open"]) as (data & Hdata & Htop) by (eexists; split; vm_compute; reflexivity).
  exists data. split; [exact Hdata|].
  destruct (@jobs_report job_fs list_range insertion_GoSort _ _ _ _ Hdata) as (aggs & written & read & meta & _ & [_ Hw] & _ & _ & Hn & _).
  split_and!; [by exists written| |exact Htop]. rewrite Hn. by vm_compute.
Defined.
