(* ===== verification/Conntrack.v ===== *)
(** * Connection tracking: the tool get_conntrack_summary

    registry/tools/conntracksummary/conntracksummary.go: the size of the table of tracked
    connections, the counters of each CPU added up by column, and the warnings. *)

From Stdlib Require Import Ascii.
From stdpp Require Import base numbers gmap strings sorting list.
From S2P Require Import Prelude GoStrings GoFloat GoNet GoOs GoHex.

Open Scope Z_scope.

(** ** Data *)

Definition usageWarnThresholdPct : float64 := f64_of_Z 80.

Record Counters := MkCounters { ct_Invalid : Z; ct_InsertFailed : Z; ct_Drop : Z; ct_EarlyDrop : Z; ct_SearchRestart : Z }.

(** The reasons for a warning, with what their texts show. *)
Inductive ct_warning := TableFull (usagePct : float64) | Dropped (n : Z) | EarlyDropped (n : Z) | InsertsFailed (n : Z).

Record Output := MkOutput {
  cto_Count : Z; cto_Max : Z; cto_UsagePct : float64; cto_CountersAvailable : bool; cto_CPUCount : Z;
  cto_Counters : option Counters; cto_WarningReasons : list ct_warning
}.

(** ** Reading *)

Definition readUintFile `{FileSystem} (path : list gostring) : outcome Z :=
  match ReadFile path with
  | inr e => Err e
  | inl data =>
      match ParseUint (strings_TrimSpace data) with
      | (v, None) => Ret v
      | (_, Some ErrSyntax) => Err (Wrapf "%s: %w" (Errorf "invalid syntax"))
      | (_, Some ErrRange) => Err (Wrapf "%s: %w" (Errorf "value out of range"))
      end
  end.

(** The fields of a CPU on top of the sums: one that is not a number counts nothing. *)
Fixpoint add_fields (sums : list Z) (fields : list gostring) : list Z :=
  match sums, fields with
  | s :: sums, f :: fields => (match ParseUint16 64 f with (v, None) => u64 (s + v) | (_, Some _) => s end) :: add_fields sums fields
  | _, _ => sums
  end.

Definition add_cpu (acc : list Z * Z) (line : gostring) : list Z * Z :=
  match strings_Fields line with [] => acc | fields => (add_fields acc.1 fields, acc.2 + 1) end.

(** The place of each column; of two with one name the last. *)
Definition column_index `{UnicodeLower} (header : list gostring) : gmap gostring nat :=
  foldl (λ m '(i, name), <[strings_ToLower name := i]> m) ∅ (imap pair header).

Definition sum_of_column (colIndex : gmap gostring nat) (sums : list Z) (name : gostring) : Z :=
  match colIndex !! name with Some i => default 0 (sums !! i) | None => 0 end.

Definition parseConntrackStat `{UnicodeLower} (data : gostring) : outcome (Counters * Z) :=
  match filter (λ l, l ≠ []) (map strings_TrimSpace (strings_Split data newline)) with
  | first :: ((_ :: _) as rows) =>
      let header := strings_Fields first in
      let '(sums, cpus) := foldl add_cpu (replicate (length header) 0, 0) rows in
      if cpus =? 0 then Err (Errorf "nf_conntrack stat: no per-CPU rows found")
      else
        let sumOf := sum_of_column (column_index header) sums in
        Ret (MkCounters (sumOf (go "invalid")) (sumOf (go "insert_failed")) (sumOf (go "drop")) (sumOf (go "early_drop"))
               (sumOf (go "search_restart")), cpus)
  | _ => Err (Errorf "nf_conntrack stat: expected header plus per-CPU rows, got %d line(s)")
  end.

(** ** Verdict *)

Definition computeUsagePct (count max : Z) : float64 :=
  if max =? 0 then f64_of_Z 0
  else f64_div (math_Round (f64_mul (f64_div (f64_of_Z count) (f64_of_Z max)) (f64_of_Z 10000))) (f64_of_Z 100).

Definition collectWarnings (usagePct : float64) (counters : option Counters) : list ct_warning :=
  (if f64_ltb usageWarnThresholdPct usagePct then [TableFull usagePct] else []) ++
  match counters with
  | None => []
  | Some c =>
      (if 0 <? ct_Drop c then [Dropped (ct_Drop c)] else []) ++
      (if 0 <? ct_EarlyDrop c then [EarlyDropped (ct_EarlyDrop c)] else []) ++
      (if 0 <? ct_InsertFailed c then [InsertsFailed (ct_InsertFailed c)] else [])
  end.

Definition netfilter : list gostring := [go "/proc"; go "sys"; go "net"; go "netfilter"].

(** The flag tells whether the result is a warning. *)
Definition conntrack_Execute `{FileSystem} `{UnicodeLower} (canceled : bool) : outcome (bool * Output) :=
  if canceled then Err (Errorf "execution cancelled: %v")
  else
    match readUintFile (netfilter ++ [go "nf_conntrack_count"]) with
    | Ret count =>
        let max := match readUintFile (netfilter ++ [go "nf_conntrack_max"]) with Ret max => max | _ => 0 end in
        let usage := computeUsagePct count max in
        let stat := match ReadFile [go "/proc"; go "net"; go "stat"; go "nf_conntrack"] with
                    | inl statData => match parseConntrackStat statData with Ret r => Some r | _ => None end
                    | inr _ => None
                    end in
        let warnings := collectWarnings usage (fst <$> stat) in
        Ret (bool_decide (warnings ≠ []),
             MkOutput count max usage (bool_decide (is_Some stat)) (default 0 (snd <$> stat)) (fst <$> stat) warnings)
    | _ => Err (Errorf "failed to read nf_conntrack_count (%v); conntrack module may not be loaded")
    end.

(** ** Lemmas *)

(** A CPU's counters as the kernel prints them. *)
Definition cpu_words (row : list Z) : list gostring := map (hexn_of hex_lower 8) row.

Definition good_cpu (header : list gostring) (row : list Z) : Prop :=
  length row = length header ∧ Forall (λ v, 0 ≤ v < 2 ^ 32) row ∧ word_line (cpu_words row).

(** The sum of a column over the CPUs. *)
Definition column_sum (cpus : list (list Z)) (i : nat) : Z := foldr (λ row s, default 0 (row !! i) + s) 0 cpus.

Lemma column_sum_range cpus header i : Forall (good_cpu header) cpus → 0 ≤ column_sum cpus i ≤ Z.of_nat (length cpus) * (2 ^ 32 - 1).
Proof.
  induction 1 as [|row cpus (_ & Hv & _) _ IH]; [done|]. cbn [column_sum foldr length]. fold (column_sum cpus i).
  assert (0 ≤ default 0 (row !! i) < 2 ^ 32); [|lia]. destruct (row !! i) eqn:E; [|done]. cbn. rewrite Forall_lookup in Hv. by eapply Hv.
Qed.

Lemma add_fields_words sums row : length sums = length row → Forall (λ v, 0 ≤ v < 2 ^ 32) row →
  add_fields sums (cpu_words row) = zip_with (λ s v, u64 (s + v)) sums row.
Proof.
  intros Hlen Hv. revert sums Hlen. induction Hv as [|v row Hv _ IH]; intros [|s sums] Hlen; try done. injection Hlen as Hlen.
  cbn [cpu_words map add_fields zip_with]. rewrite ParseUint16_hexn; [|lia|change (16 ^ Z.of_nat 8) with (2 ^ 32); lia|lia|by apply Z.leb_le]. f_equal. by apply IH.
Qed.

(** The sums after some CPUs, which cannot wrap around for less than 2^32 of them. *)
Lemma add_cpus header cpus : header ≠ [] → Forall (good_cpu header) cpus → Z.of_nat (length cpus) < 2 ^ 32 →
  foldl add_cpu (replicate (length header) 0, 0) (map (λ r, strings_Join (cpu_words r) (go " ")) cpus) =
  (map (column_sum cpus) (seq 0 (length header)), Z.of_nat (length cpus)).
Proof.
  intros Hne. induction cpus as [|row cpus IH] using rev_ind; intros Hc Hlen.
  - cbn [map foldl length]. f_equal. apply list_eq. intros i. rewrite list_lookup_fmap. destruct (decide (i < length header)%nat).
    + rewrite lookup_replicate_2, lookup_seq_lt by done. done.
    + rewrite (lookup_ge_None_2 (replicate _ _)), (lookup_ge_None_2 (seq _ _)) by (rewrite ?length_replicate, ?length_seq; lia). done.
  - apply Forall_app in Hc as [Hc [Hr _]%Forall_cons]. rewrite length_app in Hlen. cbn [length] in Hlen.
    rewrite map_app, foldl_app, IH by (done || lia). cbn [map foldl]. unfold add_cpu. destruct Hr as (Hrl & Hv & Hw).
    destruct (word_line_text _ Hw) as (_ & _ & ->). destruct row as [|v row]; [by destruct header|]. cbn [cpu_words map].
    change (hexn_of hex_lower 8 v :: map (hexn_of hex_lower 8) row) with (cpu_words (v :: row)).
    cbn [fst snd]. rewrite add_fields_words; [|by rewrite length_map, length_seq, Hrl|done]. rewrite length_app. f_equal; [|cbn [length]; lia].
    apply list_eq. intros i. rewrite lookup_zip_with, !list_lookup_fmap. destruct (decide (i < length header)%nat) as [Hi|Hi].
    + rewrite lookup_seq_lt by done. cbn. destruct (lookup_lt_is_Some_2 (v :: row) i) as [x Hx]; [by rewrite Hrl|]. rewrite Hx. cbn.
      f_equal. pose proof (column_sum_range cpus header i Hc). assert (column_sum (cpus ++ [v :: row]) i = column_sum cpus i + x) as ->.
      { clear -Hx. induction cpus as [|r cpus IH]; cbn [column_sum foldr app]; [rewrite Hx; cbn; lia|]. unfold column_sum in *. rewrite IH. lia. }
      apply u64_id. rewrite Forall_lookup in Hv. specialize (Hv i x Hx). lia.
    + by rewrite !(lookup_ge_None_2 (seq _ _)) by (rewrite length_seq; lia).
Qed.

(** The place of a name. *)
Fixpoint place (name : gostring) (header : list gostring) : option nat :=
  match header with [] => None | n :: header => if decide (n = name) then Some 0%nat else S <$> place name header end.

Lemma place_None name header : name ∉ header → place name header = None.
Proof.
  induction header as [|n header IH]; [done|]. rewrite not_elem_of_cons. intros [Hne Hn]. cbn [place]. rewrite decide_False by done. by rewrite IH.
Qed.

Lemma column_index_from `{UnicodeLower} (f : nat → nat) (m : gmap gostring nat) header name : NoDup header → Forall (λ n, strings_ToLower n = n) header →
  foldl (λ m '(i, name), <[strings_ToLower name := i]> m) m (imap (λ i n, (f i, n)) header) !! name =
  match place name header with Some i => Some (f i) | None => m !! name end.
Proof.
  revert f m. induction header as [|n header IH]; intros f m Hnd Hlow; [done|]. apply NoDup_cons in Hnd as [Hn Hnd]. apply Forall_cons in Hlow as [Hl Hlow].
  cbn [imap foldl place]. change (imap ((λ i n, (f i, n)) ∘ S) header) with (imap (λ i n, (f (S i), n)) header).
  rewrite (IH (λ i, f (S i))), Hl by done. rewrite lookup_insert. case_decide as Heq.
  - subst name. by rewrite place_None.
  - by destruct (place name header).
Qed.

Lemma place_lt name header i : place name header = Some i → (i < length header)%nat.
Proof.
  revert i. induction header as [|n header IH]; intros i; [done|]. cbn [place length]. case_decide; [intros [= <-]; lia|].
  destruct (place name header) as [k|]; [|done]. intros [= <-]. specialize (IH k eq_refl). lia.
Qed.

(** The sum of the column of a name, and nothing where there is none. *)
Definition total (header : list gostring) (cpus : list (list Z)) (name : gostring) : Z :=
  match place name header with Some i => column_sum cpus i | None => 0 end.

Lemma printed_lines ls : Forall word_line ls →
  filter (λ l, l ≠ []) (map strings_TrimSpace (strings_Split (print_lines ls) newline)) = map (λ l, strings_Join l (go " ")) ls.
Proof.
  intros Hls. unfold print_lines. rewrite <-(map_map (λ l, strings_Join l (go " ")) (λ s, s ++ [newline])).
  rewrite Split_lines by (apply Forall_map; eapply Forall_impl; [exact Hls|]; by intros l (? & _)%word_line_text).
  rewrite map_app, filter_app. cbn [map]. rewrite (filter_false _ [strings_TrimSpace []]) by (intros x ->%list_elem_of_singleton; by intros []).
  rewrite app_nil_r. induction Hls as [|l ls Hl _ IH]; [done|]. cbn [map]. destruct (word_line_text l Hl) as (_ & -> & Hf).
  rewrite filter_cons, decide_True, IH; [done|]. intros E. rewrite E in Hf. destruct Hl as (Hne & _). by rewrite <-Hf in Hne.
Qed.

(** ** Properties *)

(** The statistics of fewer than 2^32 CPUs are added up by the names of the columns,
    whatever their order and number; no sum wraps around. *)
Theorem conntrack_stat_sums `{UnicodeLower} (header : list gostring) (cpus : list (list Z))
  (Hh : word_line header) (Hnd : NoDup header) (Hlow : Forall (λ n, strings_ToLower n = n) header)
  (Hne : cpus ≠ []) (Hc : Forall (good_cpu header) cpus) (Hlen : Z.of_nat (length cpus) < 2 ^ 32) :
  parseConntrackStat (print_lines (header :: map cpu_words cpus)) =
  Ret (MkCounters (total header cpus (go "invalid")) (total header cpus (go "insert_failed")) (total header cpus (go "drop"))
         (total header cpus (go "early_drop")) (total header cpus (go "search_restart")), Z.of_nat (length cpus)).
Proof.
  unfold parseConntrackStat. rewrite printed_lines.
  2: { constructor; [done|]. apply Forall_map. eapply Forall_impl; [exact Hc|]. by intros r (_ & _ & ?). }
  cbn [map]. rewrite map_map. destruct (word_line_text _ Hh) as (_ & _ & ->).
  destruct (map (λ r, strings_Join (cpu_words r) (go " ")) cpus) as [|l ls] eqn:E; [by destruct cpus|]. rewrite <-E.
  rewrite add_cpus by (done || apply Hh). rewrite (proj2 (Z.eqb_neq _ _)) by (destruct cpus; [done|cbn [length]; lia]).
  assert (∀ name, sum_of_column (column_index header) (map (column_sum cpus) (seq 0 (length header))) name = total header cpus name) as Hsum; [|by rewrite !Hsum].
  intros name. unfold sum_of_column, total, column_index. rewrite (column_index_from (λ i, i)) by done.
  destruct (place name header) as [i|] eqn:Hp; [|done]. apply place_lt in Hp. by rewrite list_lookup_fmap, lookup_seq_lt.
Qed.

(** The report degrades file by file: it fails only without the number of connections; an
    unreadable maximum counts as zero and gives no verdict on the use; without
    statistics there are no counters, and no warnings from them. *)
Theorem conntrack_report `{FileSystem} `{UnicodeLower} :
  match conntrack_Execute false with
  | Ret (warns, out) =>
      readUintFile (netfilter ++ [go "nf_conntrack_count"]) = Ret (cto_Count out) ∧
      (∀ m, readUintFile (netfilter ++ [go "nf_conntrack_max"]) = Ret m → cto_Max out = m) ∧
      (¬ returns (readUintFile (netfilter ++ [go "nf_conntrack_max"])) → cto_Max out = 0 ∧ cto_UsagePct out = f64_of_Z 0) ∧
      (∀ c n, cto_Counters out = Some c ∧ cto_CPUCount out = n ↔ ∃ data,
         ReadFile [go "/proc"; go "net"; go "stat"; go "nf_conntrack"] = inl data ∧ parseConntrackStat data = Ret (c, n)) ∧
      (cto_CountersAvailable out = true ↔ is_Some (cto_Counters out)) ∧
      (warns = true ↔ f64_ltb usageWarnThresholdPct (cto_UsagePct out) = true ∨
         ∃ c, cto_Counters out = Some c ∧ (0 < ct_Drop c ∨ 0 < ct_EarlyDrop c ∨ 0 < ct_InsertFailed c))
  | Err _ => ¬ returns (readUintFile (netfilter ++ [go "nf_conntrack_count"]))
  | _ => False
  end.
Proof.
  unfold conntrack_Execute, returns. destruct (readUintFile (netfilter ++ [go "nf_conntrack_count"])) as [count| | |]; [|naive_solver..].
  set (max := match readUintFile (netfilter ++ [go "nf_conntrack_max"]) with Ret m => m | _ => 0 end).
  cbn [cto_Count cto_Max cto_UsagePct cto_Counters cto_CPUCount cto_CountersAvailable].
  set (stat := match ReadFile [go "/proc"; go "net"; go "stat"; go "nf_conntrack"] with inl _ => _ | inr _ => None end).
  assert (∀ r, stat = Some r ↔ ∃ data, ReadFile [go "/proc"; go "net"; go "stat"; go "nf_conntrack"] = inl data ∧ parseConntrackStat data = Ret r) as Hstat.
  { intros r. unfold stat. destruct (ReadFile [go "/proc"; go "net"; go "stat"; go "nf_conntrack"]) as [data|]; [|split; [done|by intros (d & Hd & _)]].
    split.
    - destruct (parseConntrackStat data) eqn:E; intros Heq; try done. injection Heq as <-. by exists data.
    - intros (d & Hd & Hp). injection Hd as ->. by rewrite Hp. }
  split_and!; [done| | | | |].
  - intros m Hm. unfold max. by rewrite Hm.
  - intros Hno. unfold max. destruct (readUintFile (netfilter ++ [go "nf_conntrack_max"])); [exfalso; eauto|done..].
  - intros c n. rewrite <-Hstat. destruct stat as [[c' n']|]; cbn; naive_solver.
  - rewrite bool_decide_eq_true, fmap_is_Some. done.
  - rewrite bool_decide_eq_true. unfold collectWarnings. destruct (f64_ltb usageWarnThresholdPct _); [naive_solver|].
    destruct stat as [[c n]|]; cbn [fmap option_fmap option_map fst app]; [|naive_solver].
    destruct (Z.ltb_spec 0 (ct_Drop c)), (Z.ltb_spec 0 (ct_EarlyDrop c)), (Z.ltb_spec 0 (ct_InsertFailed c)); cbn [app];
      (split; [intros ?; right; exists c; split; [done|]; (lia || done)|intros [?|(c' & Heq & Hor)]; [done|]; injection Heq as <-; (done || lia)]).
Qed.

(** ** Witnesses *)

Definition sample_header : list gostring := [go "entries"; go "invalid"; go "insert_failed"; go "drop"; go "early_drop"].

Lemma conntrack_stat_sums_witness :
  @parseConntrackStat (λ s, s) (print_lines (sample_header :: map cpu_words [[10; 1; 2; 4294967295; 0]; [10; 5; 0; 1; 0]])) =
  Ret (MkCounters 6 2 4294967296 0 0, 2).
Proof.
  apply (@conntrack_stat_sums (λ s, s) sample_header [[10; 1; 2; 4294967295; 0]; [10; 5; 0; 1; 0]]); [by_decide|by_decide| |done| |done].
  - by_decide.
  - repeat (apply Forall_cons_2; [split; [reflexivity|split; [by_decide|by_decide]]|]). apply Forall_nil_2.
Defined.
