(* ===== verification/Bond.v ===== *)
(** * Link aggregation: the tool get_bond_status

    registry/tools/bondstatus/bondstatus.go: the files of /proc/net/bonding, a section for
    the bond and one for each slave, with the warnings. *)

From Stdlib Require Import Ascii.
From stdpp Require Import base numbers gmap strings sorting list.
From S2P Require Import Prelude GoStrings GoNet GoOs.

Open Scope Z_scope.

(** ** Data *)

Record Slave := MkSlave { sl_Name : gostring; sl_MIIStatus : gostring; sl_SpeedMbps : Z; sl_Duplex : gostring; sl_LinkFailureCount : Z }.

(** The reasons for a warning, with what their texts show. *)
Inductive bond_warning := BondStatus (status : gostring) | SlaveStatus (slave status : gostring) | LinkFailures (slave : gostring) (n : Z).

Record Bond := MkBond {
  bo_Name : gostring; bo_Mode : gostring; bo_MIIStatus : gostring; bo_ActiveSlave : gostring; bo_LACPRate : gostring; bo_PartnerMAC : gostring;
  bo_Slaves : list Slave; bo_WarningReasons : list bond_warning
}.

Record SystemSummary := MkSummary { bs_TotalBonds : Z; bs_BondsUp : Z; bs_TotalSlaves : Z; bs_SlavesUp : Z; bs_BondsWithWarnings : Z }.

(** ** Parsing *)

Definition fieldValue (line prefix : gostring) : option gostring :=
  if strings_HasPrefix line prefix then Some (strings_TrimSpace (drop (length prefix) line)) else None.

Definition parseSpeedMbps (raw : gostring) : Z :=
  match strings_Fields raw with
  | [] => 0
  | f :: _ => match ParseInt f with (v, None) => if v <? 0 then 0 else v | (_, Some _) => 0 end
  end.

Section bond.
Context `{UnicodeLower}.

(** A line of the first section. A text that lower-cases to the last label is as long as
    the label. *)
Definition bond_line (b : Bond) (line : gostring) : Bond :=
  let '(MkBond name mode mii active lacp mac slaves w) := b in
  match fieldValue line (go "Bonding Mode:") with
  | Some v => MkBond name v mii active lacp mac slaves w
  | None =>
  match fieldValue line (go "MII Status:") with
  | Some v => MkBond name mode v active lacp mac slaves w
  | None =>
  match fieldValue line (go "Currently Active Slave:") with
  | Some v => MkBond name mode mii (if decide (v = go "None") then active else v) lacp mac slaves w
  | None =>
  match fieldValue line (go "Partner Mac Address:") with
  | Some v => MkBond name mode mii active lacp v slaves w
  | None =>
      if strings_HasPrefix (strings_ToLower line) (go "lacp rate:")
      then MkBond name mode mii active (strings_TrimSpace (drop 10 line)) mac slaves w
      else b
  end end end end.

(** A line of a slave's section. *)
Definition slave_line (s : Slave) (line : gostring) : Slave :=
  let '(MkSlave name mii speed duplex failures) := s in
  match fieldValue line (go "MII Status:") with
  | Some v => MkSlave name v speed duplex failures
  | None =>
  match fieldValue line (go "Speed:") with
  | Some v => MkSlave name mii (parseSpeedMbps v) duplex failures
  | None =>
  match fieldValue line (go "Duplex:") with
  | Some v => MkSlave name mii speed v failures
  | None =>
  match fieldValue line (go "Link Failure Count:") with
  | Some v => match ParseInt v with (n, None) => MkSlave name mii speed duplex (if 0 <=? n then n else failures) | (_, Some _) => s end
  | None => s
  end end end end.

Definition with_slaves (b : Bond) (slaves : list Slave) : Bond :=
  let '(MkBond name mode mii active lacp mac _ w) := b in MkBond name mode mii active lacp mac slaves w.

(** A line that is not blank: the section of the slave read last takes the lines that
    follow it. *)
Definition bond_text (b : Bond) (line : gostring) : Bond :=
  match fieldValue line (go "Slave Interface:") with
  | Some v => with_slaves b (bo_Slaves b ++ [MkSlave v [] 0 [] 0])
  | None =>
      match last (bo_Slaves b) with
      | None => bond_line b line
      | Some s => with_slaves b (removelast (bo_Slaves b) ++ [slave_line s line])
      end
  end.

Definition bond_step (b : Bond) (rawLine : gostring) : Bond :=
  match strings_TrimSpace rawLine with [] => b | line => bond_text b line end.

Definition slave_warnings (s : Slave) : list bond_warning :=
  (if decide (sl_MIIStatus s ≠ go "up") then [SlaveStatus (sl_Name s) (sl_MIIStatus s)] else []) ++
  (if 0 <? sl_LinkFailureCount s then [LinkFailures (sl_Name s) (sl_LinkFailureCount s)] else []).

Definition bond_warnings (b : Bond) : list bond_warning :=
  (if decide (bo_MIIStatus b ≠ go "up") then [BondStatus (bo_MIIStatus b)] else []) ++ (bo_Slaves b ≫= slave_warnings).

Definition new_bond (name : gostring) : Bond := MkBond name [] [] [] [] [] [] [].

Definition parseBondFile (name content : gostring) : Bond :=
  let b := foldl bond_step (new_bond name) (strings_Split content newline) in
  MkBond (bo_Name b) (bo_Mode b) (bo_MIIStatus b) (bo_ActiveSlave b) (bo_LACPRate b) (bo_PartnerMAC b) (bo_Slaves b) (bond_warnings b).

(** ** The tool *)

Definition count_bond (s : SystemSummary) (b : Bond) : SystemSummary :=
  let '(MkSummary total up slaves slavesUp warned) := s in
  MkSummary total (if decide (bo_MIIStatus b = go "up") then up + 1 else up) (slaves + Z.of_nat (length (bo_Slaves b)))
    (foldl (λ n s, if decide (sl_MIIStatus s = go "up") then n + 1 else n) slavesUp (bo_Slaves b))
    (if decide (bo_WarningReasons b = []) then warned else warned + 1).

Definition read_bond `{FileSystem} (e : dir_entry) : option Bond :=
  if de_IsDir e then None
  else match ReadFile [go "/proc"; go "net"; go "bonding"; de_Name e] with
       | inr _ => None
       | inl content => Some (parseBondFile (de_Name e) content)
       end.

(** The flag tells whether the result is a warning; [canceled] is the check of the context
    that finds it ended, if one does: the first is made before the directory is read, and
    one before each entry. *)
Definition bond_Execute `{FileSystem} (canceled : option nat) : outcome (bool * SystemSummary * list Bond) :=
  if decide (canceled = Some 0%nat) then Err (Errorf "context canceled before execution: %v")
  else
    match ReadDir [go "/proc"; go "net"; go "bonding"] with
    | inr _ => Err (Errorf "cannot read %s: %v")
    | inl entries =>
        if match canceled with Some n => (n <=? length entries)%nat | None => false end then Err (Errorf "context canceled during procfs walk: %v")
        else
          let bonds := omap read_bond entries in
          let summary := foldl count_bond (MkSummary (Z.of_nat (length bonds)) 0 0 0 0) bonds in
          Ret (existsb (λ b, negb (bool_decide (bo_WarningReasons b = []))) bonds, summary, bonds)
    end.

End bond.

#[export] Instance bond_warning_eq_dec : EqDecision bond_warning.
Proof. solve_decision. Defined.

(** ** A reference: the file as sections of lines *)

Definition solid_lines (content : gostring) : list gostring := filter (λ l, l ≠ []) (map strings_TrimSpace (strings_Split content newline)).

(** The lines of the bond, and for each slave its name and its lines. *)
Fixpoint sections (lines : list gostring) : list gostring * list (gostring * list gostring) :=
  match lines with
  | [] => ([], [])
  | l :: lines =>
      let '(head, blocks) := sections lines in
      match fieldValue l (go "Slave Interface:") with
      | Some name => ([], (name, head) :: blocks)
      | None => (l :: head, blocks)
      end
  end.

(** The last line of a section that has a value of some kind decides. *)
Definition last_value {A} (value : gostring → option A) (lines : list gostring) : option A := last (omap value lines).

Definition labelled (label : gostring) (line : gostring) : option gostring := fieldValue line label.

Definition active_value (line : gostring) : option gostring :=
  v ← fieldValue line (go "Currently Active Slave:"); if decide (v = go "None") then None else Some v.

Definition header_labels : list gostring := [go "Bonding Mode:"; go "MII Status:"; go "Currently Active Slave:"; go "Partner Mac Address:"].

Definition lacp_value `{UnicodeLower} (line : gostring) : option gostring :=
  if existsb (strings_HasPrefix line) header_labels then None
  else if strings_HasPrefix (strings_ToLower line) (go "lacp rate:") then Some (strings_TrimSpace (drop 10 line)) else None.

Definition failures_value (line : gostring) : option Z :=
  v ← fieldValue line (go "Link Failure Count:");
  match ParseInt v with (n, None) => if 0 <=? n then Some n else None | (_, Some _) => None end.

Definition slave_of (block : gostring * list gostring) : Slave :=
  MkSlave block.1 (default [] (last_value (labelled (go "MII Status:")) block.2))
    (default 0 (last_value (λ l, parseSpeedMbps <$> fieldValue l (go "Speed:")) block.2))
    (default [] (last_value (labelled (go "Duplex:")) block.2)) (default 0 (last_value failures_value block.2)).

Definition bond_of `{UnicodeLower} (name : gostring) (s : list gostring * list (gostring * list gostring)) : Bond :=
  MkBond name (default [] (last_value (labelled (go "Bonding Mode:")) s.1)) (default [] (last_value (labelled (go "MII Status:")) s.1))
    (default [] (last_value active_value s.1)) (default [] (last_value lacp_value s.1))
    (default [] (last_value (labelled (go "Partner Mac Address:")) s.1)) (map slave_of s.2) [].

(** ** Lemmas *)

Lemma last_value_snoc {A} (value : gostring → option A) ls l :
  last_value value (ls ++ [l]) = match value l with Some v => Some v | None => last_value value ls end.
Proof.
  unfold last_value. rewrite omap_app. cbn [omap list_omap]. destruct (value l) as [v|]; [by rewrite last_snoc|by rewrite app_nil_r].
Qed.

(** Labels that start with different letters are not on one line. *)
Lemma fieldValue_excl line a b v : fieldValue line a = Some v → hd_error a ≠ hd_error b → a ≠ [] → b ≠ [] → fieldValue line b = None.
Proof.
  unfold fieldValue. destruct (strings_HasPrefix line a) eqn:Ha; [|done]. intros _ Hne Hna Hnb.
  destruct (strings_HasPrefix line b) eqn:Hb; [exfalso|done]. apply strings_HasPrefix_spec in Ha as [x ->], Hb as [y Hy].
  destruct a as [|c a], b as [|d b]; try done. cbn in *. injection Hy as -> _. done.
Qed.

Ltac excl := match goal with H : fieldValue ?l ?a = Some ?v |- _ =>
  rewrite ?(fieldValue_excl l a _ v H) by (by_decide || done) end.

Lemma slave_lines name ls : foldl slave_line (MkSlave name [] 0 [] 0) ls = slave_of (name, ls).
Proof.
  induction ls as [|l ls IH] using rev_ind; [done|]. rewrite foldl_app, IH. cbn [foldl]. unfold slave_of. cbn [fst snd].
  rewrite !last_value_snoc. unfold slave_line, labelled, failures_value.
  destruct (fieldValue l (go "MII Status:")) as [v|] eqn:E1; [by excl|].
  destruct (fieldValue l (go "Speed:")) as [v|] eqn:E2; [by excl|].
  destruct (fieldValue l (go "Duplex:")) as [v|] eqn:E3; [by excl|].
  destruct (fieldValue l (go "Link Failure Count:")) as [v|]; [|done]. cbn [mbind option_bind fmap option_fmap option_map default].
  destruct (ParseInt v) as [n [e|]]; [done|]. by destruct (0 <=? n).
Qed.

Lemma bond_lines `{UnicodeLower} name ls : foldl bond_line (new_bond name) ls = bond_of name (ls, []).
Proof.
  induction ls as [|l ls IH] using rev_ind; [done|]. rewrite foldl_app, IH. cbn [foldl]. unfold bond_of. cbn [fst snd].
  rewrite !last_value_snoc. unfold bond_line, labelled, active_value, lacp_value.
  assert (∀ a v, fieldValue l a = Some v → a ∈ header_labels → existsb (strings_HasPrefix l) header_labels = true) as Hlab.
  { intros a v Hv Ha. apply existsb_exists. exists a. split; [by apply list_elem_of_In|]. unfold fieldValue in Hv. by destruct (strings_HasPrefix l a). }
  destruct (fieldValue l (go "Bonding Mode:")) as [v|] eqn:E1; [rewrite (Hlab _ _ E1) by by_decide; by excl|].
  destruct (fieldValue l (go "MII Status:")) as [v|] eqn:E2; [rewrite (Hlab _ _ E2) by by_decide; by excl|].
  destruct (fieldValue l (go "Currently Active Slave:")) as [v|] eqn:E3; [rewrite (Hlab _ _ E3) by by_decide; excl; cbn [mbind option_bind]; by case_decide|].
  destruct (fieldValue l (go "Partner Mac Address:")) as [v|] eqn:E4; [by rewrite (Hlab _ _ E4) by by_decide|]. cbn [mbind option_bind].
  assert (existsb (strings_HasPrefix l) header_labels = false) as ->; [|by destruct (strings_HasPrefix (strings_ToLower l) _)].
  unfold fieldValue in *. unfold header_labels. cbn [existsb].
  by destruct (strings_HasPrefix l (go "Bonding Mode:")), (strings_HasPrefix l (go "MII Status:")), (strings_HasPrefix l (go "Currently Active Slave:")), (strings_HasPrefix l (go "Partner Mac Address:")).
Qed.

Lemma bond_steps `{UnicodeLower} b ls :
  foldl bond_step b ls = foldl bond_text b (filter (λ l, l ≠ []) (map strings_TrimSpace ls)).
Proof.
  revert b. induction ls as [|l ls IH]; intros b; [done|]. cbn [map foldl]. rewrite filter_cons, IH. unfold bond_step.
  case_decide as Hl; cbn [foldl]; by destruct (strings_TrimSpace l).
Qed.

Lemma with_slaves_twice b s t : with_slaves (with_slaves b s) t = with_slaves b t.
Proof. by destruct b. Qed.

Lemma bo_Slaves_with b s : bo_Slaves (with_slaves b s) = s.
Proof. by destruct b. Qed.

(** Once a slave is read, the lines go to it until the next. *)
Lemma bond_slaves `{UnicodeLower} lines b before name ls :
  bo_Slaves b = before ++ [slave_of (name, ls)] →
  foldl bond_text b lines =
  with_slaves b (before ++ slave_of (name, ls ++ (sections lines).1) :: map slave_of (sections lines).2).
Proof.
  revert b before name ls. induction lines as [|l lines IH]; intros b before name ls Hb; cbn [foldl sections].
  - cbn [fst snd map]. rewrite app_nil_r, <-Hb. by destruct b.
  - unfold bond_text at 2. rewrite Hb. destruct (sections lines) as [head blocks] eqn:Es. destruct (fieldValue l (go "Slave Interface:")) as [v|] eqn:Ev.
    + rewrite (IH _ (before ++ [slave_of (name, ls)]) v []) by (by rewrite bo_Slaves_with).
      cbn [fst snd map app]. by rewrite with_slaves_twice, <-(assoc_L (++)), app_nil_r.
    + rewrite last_snoc, removelast_last. assert (slave_line (slave_of (name, ls)) l = slave_of (name, ls ++ [l])) as ->.
      { by rewrite <-!slave_lines, foldl_app. }
      rewrite (IH _ before name (ls ++ [l])) by (by rewrite bo_Slaves_with). rewrite with_slaves_twice. cbn [fst snd]. by rewrite <-(assoc_L (++)).
Qed.

Lemma bond_sections `{UnicodeLower} name ls lines :
  foldl bond_text (bond_of name (ls, [])) lines = bond_of name (ls ++ (sections lines).1, (sections lines).2).
Proof.
  revert ls. induction lines as [|l lines IH]; intros ls; cbn [foldl sections]; [by rewrite app_nil_r|].
  destruct (sections lines) as [head blocks] eqn:Es. unfold bond_text at 2. destruct (fieldValue l (go "Slave Interface:")) as [v|] eqn:Ev.
  - cbn [bo_Slaves bond_of map snd app]. rewrite (bond_slaves lines _ [] v []) by done. rewrite Es. cbn [fst snd map app]. by rewrite app_nil_r.
  - cbn [bo_Slaves bond_of map snd last]. assert (bond_line (bond_of name (ls, [])) l = bond_of name (ls ++ [l], [])) as ->.
    { by rewrite <-!bond_lines, foldl_app. }
    rewrite IH. cbn [fst snd]. by rewrite <-(assoc_L (++)).
Qed.

Lemma slave_warnings_nil s : slave_warnings s = [] ↔ sl_MIIStatus s = go "up" ∧ sl_LinkFailureCount s ≤ 0.
Proof. unfold slave_warnings. case_decide; destruct (Z.ltb_spec 0 (sl_LinkFailureCount s)); cbn [app]; split; naive_solver lia. Qed.

(** How many of a list. *)
Definition count {A} (P : A → Prop) `{∀ x, Decision (P x)} (l : list A) : Z := Z.of_nat (length (filter P l)).

Lemma count_cons {A} (P : A → Prop) `{∀ x, Decision (P x)} x l : count P (x :: l) = if decide (P x) then 1 + count P l else count P l.
Proof. unfold count. rewrite filter_cons. case_decide; [|done]. cbn [length]. lia. Qed.

Definition slave_up (s : Slave) : Prop := sl_MIIStatus s = go "up".
Definition bond_up (b : Bond) : Prop := bo_MIIStatus b = go "up".

Lemma count_slaves n l : foldl (λ n s, if decide (sl_MIIStatus s = go "up") then n + 1 else n) n l = n + count slave_up l.
Proof.
  revert n. induction l as [|s l IH]; intros n; [by rewrite Z.add_0_r|]. cbn [foldl]. rewrite IH, count_cons.
  destruct (decide (sl_MIIStatus s = go "up")) as [E|E]; [rewrite (decide_True (P := slave_up s))|rewrite (decide_False (P := slave_up s))]; (done || lia).
Qed.

Lemma count_bonds t u sl su w l : foldl count_bond (MkSummary t u sl su w) l =
  MkSummary t (u + count bond_up l) (sl + Z.of_nat (length (l ≫= bo_Slaves))) (su + count slave_up (l ≫= bo_Slaves))
    (w + count (λ b, bo_WarningReasons b ≠ []) l).
Proof.
  revert u sl su w. induction l as [|b l IH]; intros u sl su w; [cbn; by rewrite !Z.add_0_r|].
  cbn [foldl count_bond mbind list_bind]. rewrite IH, count_slaves, !count_cons, length_app.
  assert (count slave_up (bo_Slaves b ++ (l ≫= bo_Slaves)) = count slave_up (bo_Slaves b) + count slave_up (l ≫= bo_Slaves)) as ->.
  { unfold count. rewrite filter_app, length_app. lia. }
  f_equal; [|lia|lia|].
  - destruct (decide (bo_MIIStatus b = go "up")) as [E|E]; [rewrite (decide_True (P := bond_up b))|rewrite (decide_False (P := bond_up b))]; (done || lia).
  - destruct (decide (bo_WarningReasons b = [])) as [E|E]; [rewrite decide_False by (intros []; done)|rewrite decide_True by done]; lia.
Qed.

(** ** Properties *)

(** A file is read as its sections: the lines before the first slave describe the bond, the
    lines after a slave's name up to the next that slave; of the lines of a section with one
    label the last counts, where a speed that is not known is zero, and a count that is not
    a number is passed over. *)
Theorem parseBondFile_sections `{UnicodeLower} (name content : gostring) :
  let b := bond_of name (sections (solid_lines content)) in
  parseBondFile name content =
  MkBond name (bo_Mode b) (bo_MIIStatus b) (bo_ActiveSlave b) (bo_LACPRate b) (bo_PartnerMAC b) (bo_Slaves b) (bond_warnings b).
Proof.
  cbn zeta. unfold parseBondFile. rewrite bond_steps. fold (solid_lines content).
  change (new_bond name) with (bond_of name ([], [])). rewrite bond_sections. cbn [app fst snd]. by destruct (sections (solid_lines content)).
Qed.

(** The report has one bond for each file that can be read; its numbers are those of the bonds and
    slaves, and it is a warning exactly if some bond or slave is not up or a slave has lost
    its link. *)
Theorem bond_report `{UnicodeLower} `{FileSystem} (entries : list dir_entry) (Hdir : ReadDir [go "/proc"; go "net"; go "bonding"] = inl entries) :
  ∃ warns summary bonds, bond_Execute None = Ret (warns, summary, bonds) ∧
    (∀ b, b ∈ bonds ↔ ∃ e content, e ∈ entries ∧ de_IsDir e = false ∧
       ReadFile [go "/proc"; go "net"; go "bonding"; de_Name e] = inl content ∧ b = parseBondFile (de_Name e) content) ∧
    summary = MkSummary (Z.of_nat (length bonds)) (count bond_up bonds) (Z.of_nat (length (bonds ≫= bo_Slaves))) (count slave_up (bonds ≫= bo_Slaves))
                (count (λ b, bo_WarningReasons b ≠ []) bonds) ∧
    (warns = false ↔ ∀ b, b ∈ bonds → bond_up b ∧ ∀ s, s ∈ bo_Slaves b → slave_up s ∧ sl_LinkFailureCount s ≤ 0).
Proof.
  unfold bond_Execute. rewrite decide_False by done. rewrite Hdir, count_bonds. eexists _, _, _. split; [reflexivity|].
  assert (∀ b, b ∈ omap read_bond entries ↔ ∃ e content, e ∈ entries ∧ de_IsDir e = false ∧
       ReadFile [go "/proc"; go "net"; go "bonding"; de_Name e] = inl content ∧ b = parseBondFile (de_Name e) content) as Hbonds.
  { intros b. rewrite list_elem_of_omap. unfold read_bond. split.
    - intros (e & He & Hb). destruct (de_IsDir e) eqn:Hd; [done|]. destruct (ReadFile _) as [content|] eqn:Hc; [|done]. injection Hb as <-. by exists e, content.
    - intros (e & content & He & Hd & Hc & ->). exists e. by rewrite Hd, Hc. }
  split_and!; [exact Hbonds|done|]. rewrite <-not_true_iff_false, existsb_exists. split.
  - intros Hno b Hb. assert (bo_WarningReasons b = []) as Hw.
    { destruct (decide (bo_WarningReasons b = [])) as [|Hw]; [done|]. destruct Hno. exists b. split; [by apply list_elem_of_In|]. by rewrite bool_decide_false. }
    apply Hbonds in Hb as (e & content & _ & _ & _ & ->). cbn [bo_WarningReasons parseBondFile] in Hw. unfold bond_warnings in Hw.
    apply app_nil in Hw as [Hup Hs]. unfold bond_up, slave_up. cbn [bo_MIIStatus bo_Slaves parseBondFile]. split; [destruct (decide (bo_MIIStatus (foldl bond_step (new_bond (de_Name e)) (strings_Split content newline)) = go "up")); [done|by rewrite decide_True in Hup]|].
    intros s Hin. apply slave_warnings_nil. destruct (slave_warnings s) as [|w ws] eqn:E; [done|]. exfalso.
    assert (w ∈ (bo_Slaves (foldl bond_step (new_bond (de_Name e)) (strings_Split content newline)) ≫= slave_warnings)) as Hw.
    { apply list_elem_of_bind. exists s. split; [rewrite E; left|done]. }
    rewrite Hs in Hw. by apply elem_of_nil in Hw.
  - intros Hall (b & Hin%list_elem_of_In & Hw). destruct (Hall b Hin) as [Hup Hs]. apply Hbonds in Hin as (e & content & _ & _ & _ & ->).
    rewrite bool_decide_true in Hw; [done|]. cbn [bo_WarningReasons parseBondFile]. unfold bond_warnings, bond_up, slave_up in *. cbn [bo_MIIStatus bo_Slaves parseBondFile] in *.
    rewrite Hup, decide_False by (by intros []). cbn [app]. 
    assert (∀ l : list Slave, (l ≫= λ _, @nil bond_warning) = []) as Hnil by by induction l.
    rewrite (bind_ext_in _ (λ _, [])); [apply Hnil|].
    intros s Hsin. apply slave_warnings_nil. by apply Hs.
Qed.

(** ** Witnesses *)

Definition bond_fs : FileSystem :=
  let dir := [go "/proc"; go "net"; go "bonding"] in
  mem_fs [(dir ++ [go "bond0"], print_lines [[go "Bonding"; go "Mode:"; go "fault-tolerance"]; [go "MII"; go "Status:"; go "up"];
            [go "Slave"; go "Interface:"; go "eth0"]; [go "MII"; go "Status:"; go "up"]; [go "Speed:"; go "10000"; go "Mbps"]; [go "Link"; go "Failure"; go "Count:"; go "2"]])]
    [(dir, [MkDirEntry (go "bond0") false false])] [].

Lemma bond_report_witness :
  ∃ summary bonds, @bond_Execute (λ s, s) bond_fs None = Ret (true, summary, bonds) ∧ bs_SlavesUp summary = 1 ∧
    map bo_WarningReasons bonds = [[LinkFailures (go "eth0") 2]].
Proof.
  destruct (@bond_report (λ s, s) bond_fs [MkDirEntry (go "bond0") false false]) as (warns & summary & bonds & Hrun & _ & Hs & _); [by vm_compute|].
  assert (∃ r, @bond_Execute (λ s, s) bond_fs None = Ret r ∧ map bo_WarningReasons r.2 = [[LinkFailures (go "eth0") 2]] ∧ r.1.1 = true ∧
    count slave_up (r.2 ≫= bo_Slaves) = 1) as ([[w s] b] & Hr & Hb & Hw & Hc) by (eexists; split; [vm_compute; reflexivity|split_and!; vm_compute; reflexivity]).
  rewrite Hr in Hrun. injection Hrun as -> -> ->. cbn [fst snd] in *. subst warns. exists summary, bonds. split; [exact Hr|]. split; [|exact Hb]. by rewrite Hs.
Defined.
