(* ===== verification/Listening.v ===== *)
(** * Listening services: the tool get_listening_services

    registry/tools/listeningservices/listeningservices.go: the kernel's four tables of
    sockets, the search of /proc for the processes that hold them, and the report. *)

From Stdlib Require Import Ascii.
From stdpp Require Import base numbers gmap strings sorting list.
From S2P Require Import Prelude GoStrings GoNet GoOs GoHex.
From S2P Require Routes.

Open Scope Z_scope.

(** ** Data *)

Definition maxListeners : nat := 200.
Definition cmdlineMaxLen : nat := 80.
Definition tcpListenState : gostring := go "0A".

Record sockEntry := MkSock { so_proto : gostring; so_address : gostring; so_port : Z; so_uid : Z; so_inode : Z }.

Record Listener := MkListener {
  li_Proto : gostring; li_Address : gostring; li_Port : Z; li_Wildcard : bool; li_UID : Z;
  li_PID : Z; li_Comm : gostring; li_Cmdline : gostring
}.

Record Unresolved := MkUnresolved { un_Proto : gostring; un_Port : Z; un_Inode : Z; un_UID : Z }.

Record Summary := MkSummary { ls_TCPListeners : Z; ls_UDPSockets : Z; ls_Resolved : Z; ls_Unresolved : Z; ls_ProcessesScanned : Z; ls_FDDirsSkipped : Z }.

(** The note is about directories that could not be read. *)
Record Data := MkData { ld_Listeners : list Listener; ld_Unresolved : list Unresolved; ld_Summary : Summary; ld_Truncated : bool; ld_Note : bool }.

Record scanStats := MkStats { st_processesScanned : Z; st_fdDirsSkipped : Z }.

(** ** The tables of sockets *)

Definition word_bytes (w : Z) : list Z := map (Routes.byte_of w) [0; 8; 16; 24].

Definition parseHexIPv4 (hexStr : gostring) : option gostring :=
  if negb (length hexStr =? 8)%nat then None
  else match ParseUint16 32 hexStr with (val, None) => Some (Routes.dotted (word_bytes val)) | (_, Some _) => None end.

Definition parseHexIPv6 (hexStr : gostring) : option gostring :=
  if negb (length hexStr =? 32)%nat then None
  else
    words ← mapM (λ i, match ParseUint16 32 (take 8 (drop (i * 8) hexStr)) with (w, None) => Some w | (_, Some _) => None end) (seq 0 4);
    Some (Routes.ip16_String (words ≫= word_bytes)).

Definition parseHexPort (hexStr : gostring) : option Z :=
  match ParseUint16 16 hexStr with (port, None) => Some port | (_, Some _) => None end.

Definition atoi (s : gostring) : option Z := match strconv_Atoi s with Ret v => Some v | _ => None end.

Definition parseSocketLine (proto line : gostring) : option sockEntry :=
  let fields := strings_Fields (strings_TrimSpace line) in
  match fields with
  | sl :: localAddress :: _ :: state :: _ :: _ :: _ :: uid :: _ :: inode :: _ =>
      if decide (sl = go "sl") then None
      else if strings_HasPrefix proto (go "tcp") && negb (bool_decide (state = tcpListenState)) then None
      else
        match strings_Split localAddress ":"%char with
        | [host; hexPort] =>
            port ← parseHexPort hexPort;
            if strings_HasPrefix proto (go "udp") && (port =? 0) then None
            else
              address ← (if strings_HasSuffix proto (go "6") then parseHexIPv6 host else parseHexIPv4 host);
              uid ← atoi uid; inode ← atoi inode;
              Some (MkSock proto address port uid inode)
        | _ => None
        end
  | _ => None
  end.

Definition parseSocketFile (content proto : gostring) : list sockEntry := omap (parseSocketLine proto) (strings_Split content newline).

Definition read_table `{FileSystem} (proto : gostring) : list sockEntry :=
  match ReadFile [go "/proc"; go "net"; proto] with inl content => parseSocketFile content proto | inr _ => [] end.

Definition collectSockets `{FileSystem} : outcome (list sockEntry) :=
  match ReadFile [go "/proc"; go "net"; go "tcp"] with
  | inr _ => Err (Errorf "failed to read %s: %v")
  | inl content => Ret (parseSocketFile content (go "tcp") ++ ([go "tcp6"; go "udp"; go "udp6"] ≫= read_table))
  end.

(** ** The processes *)

(** The error [os.IsPermission] is true of. *)
Definition ErrPermission : goerr := Errorf "permission denied".

(** The inode a link of a process names. *)
Definition socket_link (target : gostring) : option Z :=
  if strings_HasPrefix target (go "socket:[") && strings_HasSuffix target (go "]")
  then atoi (take (length target - 1 - 8) (drop 8 target)) else None.

Definition scan_fd `{FileSystem} (dir : list gostring) (pid : Z) (m : gmap Z Z) (fd : dir_entry) : gmap Z Z :=
  match Readlink (dir ++ [de_Name fd]) with
  | inr _ => m
  | inl target => match socket_link target with Some inode => <[inode := pid]> m | None => m end
  end.

Definition scan_process `{FileSystem} (st : gmap Z Z * scanStats) (entry : dir_entry) : gmap Z Z * scanStats :=
  let '(m, MkStats scanned skipped) := st in
  if negb (de_IsDir entry) then st
  else
    match atoi (de_Name entry) with
    | None => st
    | Some pid =>
        let fdDir := [go "/proc"; de_Name entry; go "fd"] in
        match ReadDir fdDir with
        | inr e => (m, MkStats scanned (if decide (e = ErrPermission) then skipped + 1 else skipped))
        | inl fds => (foldl (scan_fd fdDir pid) m fds, MkStats (scanned + 1) skipped)
        end
    end.

(** [canceled] is the entry before which the context has ended, if it ends. *)
Definition buildInodePIDMap `{FileSystem} (canceled : option nat) : outcome (gmap Z Z * scanStats) :=
  match ReadDir [go "/proc"] with
  | inr _ => Err (Errorf "failed to read %s: %v")
  | inl entries =>
      if match canceled with Some n => (n <? length entries)%nat | None => false end then Err (Errorf "context canceled")
      else Ret (foldl scan_process (∅, MkStats 0 0) entries)
  end.

Definition readComm `{FileSystem} (pid : Z) : gostring := read_trimmed [go "/proc"; strconv_Itoa pid; go "comm"].

Definition readCmdline `{FileSystem} (pid : Z) : gostring :=
  match ReadFile [go "/proc"; strconv_Itoa pid; go "cmdline"] with
  | inr _ => []
  | inl raw => take cmdlineMaxLen (strings_TrimSpace (map (λ c, if decide (c = ascii_of_N 0) then " "%char else c) raw))
  end.

(** ** The report *)

Definition wildcard (address : gostring) : bool := bool_decide (address = go "0.0.0.0") || bool_decide (address = go "::").

Definition listener_of `{FileSystem} (pids : gmap Z Z) (s : sockEntry) : Listener :=
  match pids !! so_inode s with
  | Some pid => MkListener (so_proto s) (so_address s) (so_port s) (wildcard (so_address s)) (so_uid s) pid (readComm pid) (readCmdline pid)
  | None => MkListener (so_proto s) (so_address s) (so_port s) (wildcard (so_address s)) (so_uid s) 0 [] []
  end.

Definition is_tcp (s : sockEntry) : bool := strings_HasPrefix (so_proto s) (go "tcp").

Definition add_socket `{FileSystem} (pids : gmap Z Z) (d : list Listener * list Unresolved * Summary) (s : sockEntry) :
    list Listener * list Unresolved * Summary :=
  let '(listeners, unresolved, MkSummary tcp udp res unres scanned skipped) := d in
  let tcp' := if is_tcp s then tcp + 1 else tcp in
  let udp' := if is_tcp s then udp else udp + 1 in
  match pids !! so_inode s with
  | Some _ => (listeners ++ [listener_of pids s], unresolved, MkSummary tcp' udp' (res + 1) unres scanned skipped)
  | None => (listeners ++ [listener_of pids s], unresolved ++ [MkUnresolved (so_proto s) (so_port s) (so_inode s) (so_uid s)],
             MkSummary tcp' udp' res (unres + 1) scanned skipped)
  end.

Definition listener_less (a b : Listener) : bool :=
  if negb (li_Port a =? li_Port b) then li_Port a <? li_Port b
  else if negb (bool_decide (li_Proto a = li_Proto b)) then str_ltb (li_Proto a) (li_Proto b)
  else str_ltb (li_Address a) (li_Address b).

Definition listening_Execute `{FileSystem} `{GoSort} (canceled : option nat) : outcome Data :=
  sockets ← collectSockets;
  '(pids, stats) ← wrap_err "cancelled: %w" (buildInodePIDMap canceled);
  let '(listeners, unresolved, summary) :=
    foldl (add_socket pids) ([], [], MkSummary 0 0 0 0 (st_processesScanned stats) (st_fdDirsSkipped stats)) sockets in
  let sorted := sort_slice listener_less listeners in
  Ret (MkData (take maxListeners sorted) unresolved summary (maxListeners <? length sorted)%nat (0 <? ls_FDDirsSkipped summary)).



(** ** Lemmas: the order of listeners *)

(** Names in order first, then another order. *)
Definition name_then {A} (name : A → gostring) (less : A → A → bool) (a b : A) : bool :=
  if decide (name a = name b) then less a b else str_ltb (name a) (name b).

Lemma name_then_strict_weak {A} (name : A → gostring) less (l : list A) : strict_weak less l → strict_weak (name_then name less) l.
Proof.
  intros [Hirr Htr Hco]. destruct str_ltb_strict as [Nirr Ntr]. unfold name_then. split.
  - intros a Ha. rewrite decide_True by done. by apply Hirr.
  - intros a b c Ha Hb Hc. repeat case_decide; try congruence; intros Hx Hy;
      first [by apply (Htr a b c) | congruence | by eapply Ntr | exfalso; apply (Nirr (name a)), (Ntr _ (name b)); congruence].
  - intros a b c Ha Hb Hc. repeat case_decide; try congruence; intros Hab; [by apply Hco|..];
      destruct (str_ltb_total (name a) (name c)) as [?|[?|?]]; try congruence; try (by left).
    all: first [left; congruence|right; congruence|right; by apply (Ntr _ (name a))].
Qed.

Lemma listener_less_lex a b : listener_less a b = larger_then (λ l, - li_Port l) (name_then li_Proto (name_less li_Address)) a b.
Proof.
  unfold listener_less, larger_then, name_then, name_less. destruct (Z.eqb_spec (li_Port a) (li_Port b)) as [->|].
  - rewrite Z.eqb_refl. cbn [negb]. case_decide; [by rewrite bool_decide_true|by rewrite bool_decide_false].
  - rewrite (proj2 (Z.eqb_neq _ _)) by lia. cbn [negb]. apply eq_true_iff_eq. rewrite !Z.ltb_lt. lia.
Qed.

Lemma listener_less_strict_weak l : strict_weak listener_less l.
Proof.
  destruct (larger_then_strict_weak (λ l, - li_Port l) (name_then li_Proto (name_less li_Address)) l) as [Hirr Htr Hco].
  { apply name_then_strict_weak, str_strict_weak. }
  split; intros *; rewrite !listener_less_lex; eauto.
Qed.

Lemma listener_less_port a b : listener_less b a = false → li_Port a ≤ li_Port b.
Proof. unfold listener_less. destruct (Z.eqb_spec (li_Port b) (li_Port a)) as [->|]; [done|]. cbn [negb]. rewrite Z.ltb_ge. lia. Qed.

(** ** Lemmas: the search of the processes *)

(** A descriptor that is a link to the socket. *)
Definition fd_names `{FileSystem} (dir : list gostring) (inode : Z) (fd : dir_entry) : Prop :=
  ∃ target, Readlink (dir ++ [de_Name fd]) = inl target ∧ socket_link target = Some inode.

(** A process whose descriptors can be listed has one that is the socket. *)
Definition holder `{FileSystem} (inode pid : Z) (e : dir_entry) : Prop :=
  de_IsDir e = true ∧ atoi (de_Name e) = Some pid ∧ ∃ fds, ReadDir [go "/proc"; de_Name e; go "fd"] = inl fds ∧
    ∃ fd, fd ∈ fds ∧ fd_names [go "/proc"; de_Name e; go "fd"] inode fd.

Definition holds `{FileSystem} (entries : list dir_entry) (inode pid : Z) : Prop := ∃ e, e ∈ entries ∧ holder inode pid e.

(** Every entry of a map is right, and what has a right entry has one. *)
Definition locates (right : Z → Z → Prop) (m : gmap Z Z) : Prop :=
  (∀ inode pid, m !! inode = Some pid → right inode pid) ∧ (∀ inode pid, right inode pid → is_Some (m !! inode)).

Lemma locates_insert (right right' : Z → Z → Prop) m inode pid :
  locates right m → (∀ i p, right' i p ↔ right i p ∨ i = inode ∧ p = pid) → locates right' (<[inode := pid]> m).
Proof.
  intros [H1 H2] Hr. split.
  - intros i p. rewrite lookup_insert, Hr. case_decide as Hi; [intros [= <-]; by right|intros Hl; left; by apply H1].
  - intros i p. rewrite lookup_insert, Hr. case_decide as Hi; [done|]. intros [Hl|[-> _]]; [by eapply H2|done].
Qed.

Lemma locates_ext (right right' : Z → Z → Prop) m : locates right m → (∀ i p, right' i p ↔ right i p) → locates right' m.
Proof. intros [H1 H2] Hr. split; intros i p; rewrite Hr; [apply H1|apply H2]. Qed.

Lemma exists_snoc {A} (P : A → Prop) (l : list A) x : (∃ y, y ∈ l ++ [x] ∧ P y) ↔ (∃ y, y ∈ l ∧ P y) ∨ P x.
Proof.
  setoid_rewrite elem_of_app. setoid_rewrite list_elem_of_singleton. split.
  - intros (y & [Hy| ->] & HP); [left; by exists y|by right].
  - intros [(y & Hy & HP)|HP]; [exists y; by split; [left|]|exists x; by split; [right|]].
Qed.

Lemma scan_fds `{FileSystem} dir pid right m fds : locates right m →
  locates (λ i p, right i p ∨ p = pid ∧ ∃ fd, fd ∈ fds ∧ fd_names dir i fd) (foldl (scan_fd dir pid) m fds).
Proof.
  intros Hm. induction fds as [|fd fds IH] using rev_ind.
  { eapply locates_ext; [exact Hm|]. intros i p. split; [intros [?|(_ & fd & Hfd & _)]; [done|by apply elem_of_nil in Hfd]|by left]. }
  rewrite foldl_app. cbn [foldl]. unfold scan_fd. destruct (Readlink (dir ++ [de_Name fd])) as [target|e] eqn:El; [destruct (socket_link target) as [inode|] eqn:Es|].
  - eapply locates_insert; [exact IH|]. intros i p. rewrite exists_snoc. assert (fd_names dir i fd ↔ i = inode) as ->; [|tauto].
    unfold fd_names. split; [intros (t & Ht & Hs); congruence|intros ->; by exists target].
  - eapply locates_ext; [exact IH|]. intros i p. rewrite exists_snoc. assert (fd_names dir i fd ↔ False) as ->; [|tauto].
    unfold fd_names. split; [intros (t & Ht & Hs); congruence|done].
  - eapply locates_ext; [exact IH|]. intros i p. rewrite exists_snoc. assert (fd_names dir i fd ↔ False) as ->; [|tauto].
    unfold fd_names. split; [intros (t & Ht & Hs); congruence|done].
Qed.

Lemma scan_processes `{FileSystem} entries :
  let '(m, MkStats scanned skipped) := foldl scan_process (∅, MkStats 0 0) entries in
  locates (holds entries) m ∧ 0 ≤ scanned ∧ 0 ≤ skipped.
Proof.
  induction entries as [|e entries IH] using rev_ind.
  - cbn. split; [|done]. split; [intros i p; by rewrite lookup_empty|]. intros i p (e & He & _). by apply elem_of_nil in He.
  - rewrite foldl_app. cbn [foldl]. destruct (foldl scan_process (∅, MkStats 0 0) entries) as [m [scanned skipped]]. destruct IH as (Hm & Hsc & Hsk).
    assert (∀ i p, holds (entries ++ [e]) i p ↔ holds entries i p ∨ holder i p e) as Hsplit by (intros i p; apply exists_snoc).
    unfold holder in Hsplit.
    unfold scan_process. destruct (de_IsDir e) eqn:Ed; cbn [negb].
    2: { split; [|done]. eapply locates_ext; [exact Hm|]. intros i p. rewrite Hsplit. naive_solver. }
    destruct (atoi (de_Name e)) as [pid|] eqn:Ea.
    2: { split; [|done]. eapply locates_ext; [exact Hm|]. intros i p. rewrite Hsplit. naive_solver. }
    destruct (ReadDir [go "/proc"; de_Name e; go "fd"]) as [fds|err] eqn:Er.
    2: { split; [|case_decide; lia]. eapply locates_ext; [exact Hm|]. intros i p. rewrite Hsplit. naive_solver. }
    split; [|lia]. eapply locates_ext; [by apply (scan_fds [go "/proc"; de_Name e; go "fd"] pid)|]. intros i p. rewrite Hsplit. split.
    + intros [?|(_ & Hp & fds' & Hf & Hfd)]; [by left|]. injection Hp as ->. injection Hf as ->. by right.
    + intros [?|(-> & Hfd)]; [by left|]. right. split_and!; [done|done|]. by exists fds.
Qed.

Definition unresolved_of (s : sockEntry) : Unresolved := MkUnresolved (so_proto s) (so_port s) (so_inode s) (so_uid s).

Lemma add_sockets `{FileSystem} pids ls us tcp udp res unres sc sk sockets :
  foldl (add_socket pids) (ls, us, MkSummary tcp udp res unres sc sk) sockets =
  (ls ++ map (listener_of pids) sockets, us ++ map unresolved_of (filter (λ s, pids !! so_inode s = None) sockets),
   MkSummary (tcp + Z.of_nat (length (filter (λ s, is_tcp s = true) sockets))) (udp + Z.of_nat (length (filter (λ s, is_tcp s = false) sockets)))
     (res + Z.of_nat (length (filter (λ s, pids !! so_inode s ≠ None) sockets)))
     (unres + Z.of_nat (length (filter (λ s, pids !! so_inode s = None) sockets))) sc sk).
Proof.
  revert ls us tcp udp res unres. induction sockets as [|s sockets IH]; intros ls us tcp udp res unres; [cbn; by rewrite !app_nil_r, !Z.add_0_r|].
  cbn [foldl map]. rewrite !filter_cons. unfold add_socket at 2.
  destruct (pids !! so_inode s) as [pid|] eqn:Ep, (is_tcp s) eqn:Et; rewrite IH; repeat case_decide; try congruence;
    cbn [length map]; rewrite <-!(assoc_L (++)); f_equal; try done; f_equal; lia.
Qed.

(** ** Lemmas: the tables of sockets *)

(** A row of a table: the address as one word of four bytes, or four of them. *)
Record sock_row := MkSockRow {
  sr_sl : Z; sr_words : list (list Z); sr_port : Z; sr_remote : gostring; sr_state : Z; sr_queues : gostring; sr_timer : gostring; sr_retransmit : gostring;
  sr_uid : Z; sr_timeout : gostring; sr_inode : Z; sr_rest : list gostring
}.

Definition sock_words (r : sock_row) : list gostring :=
  [udec (sr_sl r) ++ go ":"; concat (map Routes.hex4 (sr_words r)) ++ go ":" ++ hexn 4 (sr_port r); sr_remote r; hexn 2 (sr_state r);
   sr_queues r; sr_timer r; sr_retransmit r; udec (sr_uid r); sr_timeout r; udec (sr_inode r)] ++ sr_rest r.

Definition is_v6 (proto : gostring) : bool := strings_HasSuffix proto (go "6").

Definition good_sock (proto : gostring) (r : sock_row) : Prop :=
  word_line (sock_words r) ∧ 0 ≤ sr_sl r ∧ length (sr_words r) = (if is_v6 proto then 4 else 1)%nat ∧ Forall (Routes.octets 4) (sr_words r) ∧
  0 ≤ sr_port r < 65536 ∧ 0 ≤ sr_state r < 256 ∧ 0 ≤ sr_uid r ≤ MaxInt64 ∧ 0 ≤ sr_inode r ≤ MaxInt64.

(** What the tool takes: sockets of TCP that listen, and of UDP that are bound. *)
Definition taken (proto : gostring) (r : sock_row) : Prop :=
  if strings_HasPrefix proto (go "tcp") then sr_state r = 10 else sr_port r ≠ 0.

#[export] Instance taken_dec proto r : Decision (taken proto r).
Proof. unfold taken. destruct (strings_HasPrefix _ _); apply _. Defined.

Definition address_text (proto : gostring) (r : sock_row) : gostring :=
  if is_v6 proto then Routes.ip16_String (concat (sr_words r)) else Routes.dotted (concat (sr_words r)).

Definition sock_of (proto : gostring) (r : sock_row) : sockEntry :=
  MkSock proto (address_text proto r) (sr_port r) (sr_uid r) (sr_inode r).

Lemma hex4_word b : Routes.octets 4 b → ∃ w, ParseUint16 32 (Routes.hex4 b) = (w, None) ∧ word_bytes w = b ∧ length (Routes.hex4 b) = 8%nat ∧ ":"%char ∉ Routes.hex4 b.
Proof.
  intros [Hlen Hb]. do 4 (destruct b as [|? b]; [done|]). destruct b; [|done]. rewrite !Forall_cons in Hb. destruct_and!.
  eexists. unfold Routes.hex4. rewrite ParseUint16_hexn; [|lia|change (16 ^ Z.of_nat 8) with 4294967296; lia|lia|done]. split; [done|]. split_and!.
  - unfold word_bytes, Routes.byte_of. cbn [map]. change 255 with (Z.ones 8). rewrite !Z.land_ones, !Z.shiftr_div_pow2 by lia.
    change (2 ^ 0) with 1. change (2 ^ 8) with 256. change (2 ^ 16) with 65536. change (2 ^ 24) with 16777216.
    f_equal; [|f_equal; [|f_equal; [|f_equal]]]; Z.to_euclidean_division_equations; lia.
  - apply length_hexn.
  - by apply hexn_not_in.
Qed.

Lemma take_block (a b c : gostring) n k : n = length a → length b = k → take k (drop n (a ++ b ++ c)) = b.
Proof. intros -> <-. by rewrite drop_app_length, take_app_length. Qed.

Lemma parse_address proto r : good_sock proto r →
  (if is_v6 proto then parseHexIPv6 (concat (map Routes.hex4 (sr_words r))) else parseHexIPv4 (concat (map Routes.hex4 (sr_words r)))) = Some (address_text proto r).
Proof.
  intros (_ & _ & Hlen & Hw & _). unfold address_text. destruct (sr_words r) as [|b1 ws]; [by destruct (is_v6 proto)|].
  apply Forall_cons in Hw as [(w1 & P1 & B1 & L1 & _)%hex4_word Hw]. destruct (is_v6 proto).
  - destruct ws as [|b2 [|b3 [|b4 [|? ?]]]]; try done. rewrite !Forall_cons in Hw.
    destruct Hw as ((w2 & P2 & B2 & L2 & _)%hex4_word & (w3 & P3 & B3 & L3 & _)%hex4_word & (w4 & P4 & B4 & L4 & _)%hex4_word & _).
    unfold parseHexIPv6. cbn [map concat]. rewrite !length_app, L1, L2, L3, L4. cbn [length Nat.add Nat.eqb negb].
    change (seq 0 4) with [0; 1; 2; 3]%nat. cbn [mapM Nat.mul Nat.add].
    set (s := Routes.hex4 b1 ++ Routes.hex4 b2 ++ Routes.hex4 b3 ++ Routes.hex4 b4 ++ []).
    assert (take 8 (drop 0 s) = Routes.hex4 b1) as -> by exact (take_block [] (Routes.hex4 b1) _ 0 8 eq_refl L1).
    assert (take 8 (drop 8 s) = Routes.hex4 b2) as -> by (apply take_block; [by rewrite L1|done]).
    assert (take 8 (drop 16 s) = Routes.hex4 b3) as -> by (unfold s; rewrite (assoc_L (++)); apply take_block; [by rewrite length_app, L1, L2|done]).
    assert (take 8 (drop 24 s) = Routes.hex4 b4) as -> by (unfold s; rewrite !(assoc_L (++)); rewrite <-(assoc_L (++) _ (Routes.hex4 b4)); apply take_block; [by rewrite !length_app, L1, L2, L3|done]).
    rewrite P1, P2, P3, P4.
    cbn [mbind option_bind mret option_ret list_bind]. by rewrite B1, B2, B3, B4.
  - destruct ws; [|done]. unfold parseHexIPv4. cbn [map concat]. rewrite !app_nil_r, L1, P1. cbn [Nat.eqb negb]. by rewrite B1.
Qed.

Lemma address_no_colon proto r : good_sock proto r → ":"%char ∉ concat (map Routes.hex4 (sr_words r)).
Proof.
  intros (_ & _ & _ & Hw & _). induction Hw as [|b ws (w & _ & _ & _ & Hb)%hex4_word _ IH]; [apply not_elem_of_nil|].
  cbn [map concat]. rewrite elem_of_app. tauto.
Qed.

Lemma atoi_udec v : 0 ≤ v ≤ MaxInt64 → atoi (udec v) = Some v.
Proof. intros Hv. unfold atoi. by rewrite <-(Itoa_digits v), Atoi_Itoa by lia. Qed.

Lemma parseSocketLine_words proto r : proto ∈ [go "tcp"; go "tcp6"; go "udp"; go "udp6"] → good_sock proto r →
  parseSocketLine proto (strings_Join (sock_words r) (go " ")) = if decide (taken proto r) then Some (sock_of proto r) else None.
Proof.
  intros Hproto Hr. pose proof (parse_address proto r Hr) as Haddr. pose proof (address_no_colon proto r Hr) as Hcolon.
  destruct Hr as (Hw & Hsl & _ & _ & Hport & Hst & Huid & Hino). unfold parseSocketLine.
  destruct (word_line_text _ Hw) as (_ & -> & ->). unfold sock_words. cbn [app].
  rewrite decide_False.
  2: { intros Heq. apply (f_equal last) in Heq. change (udec (sr_sl r) ++ go ":") with (udec (sr_sl r) ++ [":"%char]) in Heq. by rewrite last_snoc in Heq. }
  change (go ":" ++ hexn 4 (sr_port r)) with (":"%char :: hexn 4 (sr_port r)).
  rewrite strings_Split_app, strings_Split_no_sep by (done || by apply hexn_not_in).
  unfold parseHexPort. rewrite ParseUint16_hexn by (done || (change (16 ^ Z.of_nat 4) with 65536; lia) || lia). cbn [mbind option_bind].
  fold (is_v6 proto). rewrite Haddr. cbn [mbind option_bind]. rewrite !atoi_udec by done. cbn [mbind option_bind].
  assert (bool_decide (hexn 2 (sr_state r) = tcpListenState) = bool_decide (sr_state r = 10)) as ->.
  { apply bool_decide_ext. split; [|by intros ->]. intros Heq. apply (hexn_inj (digit := hex_upper) 16 2); [lia|lia|done|done|done|]. exact Heq. }
  fold (sock_of proto r). unfold taken, sock_of.
  repeat (apply elem_of_cons in Hproto as [->|Hproto]); [..|by apply elem_of_nil in Hproto].
  - change (strings_HasPrefix (go "tcp") (go "tcp")) with true. change (strings_HasPrefix (go "tcp") (go "udp")) with false. cbn [andb].
    destruct (bool_decide_reflect (sr_state r = 10)); cbn [negb]; by case_decide.
  - change (strings_HasPrefix (go "tcp6") (go "tcp")) with true. change (strings_HasPrefix (go "tcp6") (go "udp")) with false. cbn [andb].
    destruct (bool_decide_reflect (sr_state r = 10)); cbn [negb]; by case_decide.
  - change (strings_HasPrefix (go "udp") (go "tcp")) with false. change (strings_HasPrefix (go "udp") (go "udp")) with true. cbn [andb].
    destruct (Z.eqb_spec (sr_port r) 0); by case_decide.
  - change (strings_HasPrefix (go "udp6") (go "tcp")) with false. change (strings_HasPrefix (go "udp6") (go "udp")) with true. cbn [andb].
    destruct (Z.eqb_spec (sr_port r) 0); by case_decide.
Qed.

(** ** Properties *)

(** A table the kernel prints is read back: its listening sockets of TCP, or its bound
    sockets of UDP, each with address, port, owner and inode. *)
Theorem parseSocketFile_roundtrip (proto : gostring) (header : list gostring) (rows : list sock_row)
  (Hproto : proto ∈ [go "tcp"; go "tcp6"; go "udp"; go "udp6"]) (Hh : word_line (go "sl" :: header)) (Hrows : Forall (good_sock proto) rows) :
  parseSocketFile (print_lines ((go "sl" :: header) :: map sock_words rows)) proto = map (sock_of proto) (filter (taken proto) rows).
Proof.
  unfold parseSocketFile. rewrite split_words; [|constructor; [done|]; apply Forall_map; eapply Forall_impl; [exact Hrows|by intros r [? _]]|done].
  cbn [omap list_omap]. assert (parseSocketLine proto (strings_Join (go "sl" :: header) (go " ")) = None) as ->.
  { unfold parseSocketLine. destruct (word_line_text _ Hh) as (_ & -> & ->). do 9 (destruct header as [|? header]; [done|]). by rewrite decide_True. }
  induction Hrows as [|r rows Hr _ IH]; [done|]. cbn [map omap list_omap]. rewrite parseSocketLine_words, filter_cons by done.
  case_decide; cbn [map]; [by f_equal|done].
Qed.

(** The report counts each socket once, as TCP or UDP and as resolved or not; it lists the 200
    with the lowest ports in order, or all where there are no more; and a socket is joined to a
    process that holds it, whenever some process whose descriptors can be listed does. *)
Theorem listening_report `{FileSystem} `{GoSort} (data : Data) (Hrun : listening_Execute None = Ret data) :
  ∃ sockets entries pids, collectSockets = Ret sockets ∧ ReadDir [go "/proc"] = inl entries ∧
    (∀ inode pid, pids !! inode = Some pid → holds entries inode pid) ∧
    (∀ inode pid, holds entries inode pid → is_Some (pids !! inode)) ∧
    (∃ others, ld_Listeners data ++ others ≡ₚ map (listener_of pids) sockets ∧ less_sorted listener_less (ld_Listeners data) ∧
       (∀ a b, a ∈ ld_Listeners data → b ∈ others → li_Port a ≤ li_Port b) ∧
       if ld_Truncated data then length (ld_Listeners data) = maxListeners ∧ others ≠ [] else others = []) ∧
    ld_Unresolved data = map unresolved_of (filter (λ s, pids !! so_inode s = None) sockets) ∧
    ls_TCPListeners (ld_Summary data) + ls_UDPSockets (ld_Summary data) = Z.of_nat (length sockets) ∧
    ls_Unresolved (ld_Summary data) = Z.of_nat (length (ld_Unresolved data)) ∧
    ls_Resolved (ld_Summary data) + ls_Unresolved (ld_Summary data) = Z.of_nat (length sockets) ∧
    (ld_Note data = true ↔ 0 < ls_FDDirsSkipped (ld_Summary data)).
Proof.
  unfold listening_Execute, buildInodePIDMap in Hrun. destruct collectSockets as [sockets| | |]; try done. cbn [mbind outcome_bind] in Hrun.
  destruct (ReadDir [go "/proc"]) as [entries|] eqn:Hdir; [|done]. cbn [wrap_err mbind outcome_bind] in Hrun.
  pose proof (scan_processes entries) as Hscan. destruct (foldl scan_process (∅, MkStats 0 0) entries) as [pids [scanned skipped]]. destruct Hscan as ([Hp1 Hp2] & _).
  rewrite add_sockets, !Z.add_0_l in Hrun. cbn [app st_processesScanned st_fdDirsSkipped ls_FDDirsSkipped] in Hrun. injection Hrun as <-.
  exists sockets, entries, pids. cbn [ld_Listeners ld_Unresolved ld_Summary ld_Truncated ld_Note ls_TCPListeners ls_UDPSockets ls_Unresolved ls_Resolved ls_FDDirsSkipped].
  assert (∀ (P Q : sockEntry → Prop) `{!∀ x, Decision (P x)} `{!∀ x, Decision (Q x)} l, (∀ s, Q s ↔ ¬ P s) → (length (filter P l) + length (filter Q l) = length l)%nat) as Hcount.
  { intros P Q ? ? l Hpq. induction l as [|s l IH]; [done|]. rewrite !filter_cons. specialize (Hpq s). repeat case_decide; cbn [length]; tauto || lia. }
  split_and!; [done|done|exact Hp1|exact Hp2| |done| |by rewrite length_map| |apply Z.ltb_lt].
  - destruct (take_sort_slice listener_less (map (listener_of pids) sockets) maxListeners (listener_less_strict_weak _)) as (others & Hperm & Hsorted & Hlen & Hle).
    exists others. split_and!; [done|done|intros a b Ha Hb; apply listener_less_port; by apply Hle|].
    assert (length (sort_slice listener_less (map (listener_of pids) sockets)) = length (take maxListeners (sort_slice listener_less (map (listener_of pids) sockets))) + length others)%nat as Hl.
    { rewrite <-length_app, Hperm. by rewrite sort_slice_perm. }
    rewrite length_take in Hl |- *. destruct (Nat.ltb_spec maxListeners (length (sort_slice listener_less (map (listener_of pids) sockets)))).
    + split; [lia|]. intros ->. change (length (@nil Listener)) with 0%nat in Hl. lia.
    + apply length_zero_iff_nil. lia.
  - rewrite <-Nat2Z.inj_add. f_equal. apply Hcount. intros s. by destruct (is_tcp s).
  - rewrite <-Nat2Z.inj_add. f_equal. rewrite Nat.add_comm. by apply Hcount.
Qed.

(** ** Witnesses *)

Definition ssh_row : sock_row :=
  MkSockRow 0 [[127; 0; 0; 1]] 22 (go "00000000:0000") 10 (go "00000000:00000000") (go "00:00000000") (go "00000000") 0 (go "0") 4711 [go "1"].

Lemma parseSocketFile_roundtrip_witness :
  parseSocketFile (print_lines ((go "sl" :: [go "local_address"; go "rem_address"]) :: map sock_words [ssh_row])) (go "tcp") =
  [MkSock (go "tcp") (go "127.0.0.1") 22 0 4711].
Proof.
  apply (parseSocketFile_roundtrip (go "tcp") [go "local_address"; go "rem_address"] [ssh_row]); [by_decide|by_decide|].
  constructor; [|constructor]. split; [by_decide|]. split; [done|]. split; [done|]. split; [|by vm_compute].
  constructor; [|constructor]. split; [done|]. repeat (constructor; [by vm_compute|]). constructor.
Defined.

Definition ssh_fs : FileSystem :=
  mem_fs [([go "/proc"; go "net"; go "tcp"], print_lines ((go "sl" :: [go "local_address"]) :: map sock_words [ssh_row]));
          ([go "/proc"; go "812"; go "comm"], go "sshd")]
    [([go "/proc"], [MkDirEntry (go "812") true false; MkDirEntry (go "uptime") false false]); ([go "/proc"; go "812"; go "fd"], [MkDirEntry (go "3") false true])]
    [([go "/proc"; go "812"; go "fd"; go "3"], go "socket:[4711]")].

Lemma listening_report_witness :
  ∃ data, @listening_Execute ssh_fs insertion_GoSort None = Ret data ∧ map li_Comm (ld_Listeners data) = [go "sshd"] ∧
    ls_Unresolved (ld_Summary data) = Z.of_nat (length (ld_Unresolved data)).
Proof.
  assert (∃ data, @listening_Execute ssh_fs insertion_GoSort None = Ret data ∧ map li_Comm (ld_Listeners data) = [go "sshd"]) as (data & Hd & Hc)
    by (eexists; split; [vm_compute; reflexivity|vm_compute; reflexivity]).
  exists data. split; [exact Hd|]. split; [exact Hc|].
  by destruct (@listening_report ssh_fs insertion_GoSort data Hd) as (sockets & entries & pids & _ & _ & _ & _ & _ & _ & _ & Hu & _).
Defined.
