(* ===== verification/Arp.v ===== *)
(** * Neighbors: the tool get_arp_neighbors

    registry/tools/arpneighbors/arpneighbors.go: the kernel's ARP table, what ip knows
    beyond it, and the report with the broken neighbors first. What ip prints, decoded from
    JSON, is a parameter. *)

From Stdlib Require Import Ascii.
From stdpp Require Import base numbers gmap strings sorting list.
From S2P Require Import Prelude GoStrings GoNet GoOs GoHex.

Open Scope Z_scope.

(** ** Data *)

Definition maxEntries : nat := 50.

Record Neighbor := MkNeighbor { nb_IP : gostring; nb_Device : gostring; nb_MAC : gostring; nb_State : gostring; nb_Family : gostring }.

#[export] Instance Neighbor_eq_dec : EqDecision Neighbor.
Proof. solve_decision. Defined.

Inductive arp_note := NoNote | NotFound | ExecFailed | Unparseable.

Record Output := MkOutput {
  ao_TotalEntries : Z; ao_EntriesShown : Z; ao_Truncated : bool; ao_IPv6Included : bool;
  ao_CountsByState : gmap gostring Z; ao_Entries : list Neighbor; ao_Failed : list Neighbor; ao_Note : arp_note
}.

Record ipNeighEntry := MkIPNeigh { ie_Dst : gostring; ie_Dev : gostring; ie_Lladdr : gostring; ie_State : list gostring }.

(** [strings.TrimPrefix(s, prefix)] *)
Definition strings_TrimPrefix (s prefix : gostring) : gostring := if strings_HasPrefix s prefix then drop (length prefix) s else s.

(** [sort.SliceStable]: equals keep their order. *)
Fixpoint insert_stable {A} (less : A → A → bool) (x : A) (l : list A) : list A :=
  match l with [] => [x] | y :: l' => if less y x then y :: insert_stable less x l' else x :: l end.

Definition sort_stable {A} (less : A → A → bool) (l : list A) : list A := foldr (insert_stable less) [] l.

Section arp.
Context `{UnicodeLower}.

(** ** Parsing *)

Definition flagsToState (flags : gostring) : gostring :=
  match ParseUint16 64 (strings_TrimPrefix (strings_ToLower (strings_TrimSpace flags)) (go "0x")) with
  | (_, Some _) => go "unknown"
  | (v, None) =>
      if negb (Z.land v 4 =? 0) then go "permanent"
      else if negb (Z.land v 2 =? 0) then go "reachable"
      else go "incomplete"
  end.

Definition arp_line (rawLine : gostring) : option Neighbor :=
  let line := strings_TrimSpace rawLine in
  if bool_decide (line = []) || strings_HasPrefix line (go "IP address") then None
  else
    match strings_Fields line with
    | ip :: _ :: flags :: mac :: _ :: device :: _ =>
        Some (MkNeighbor ip device (if decide (mac = go "00:00:00:00:00:00") then [] else mac) (flagsToState flags) (go "ipv4"))
    | _ => None
    end.

Definition parseProcArp (content : gostring) : list Neighbor := omap arp_line (strings_Split content newline).

Definition ip_neighbor (e : ipNeighEntry) : option Neighbor :=
  if decide (ie_Dst e = []) then None
  else Some (MkNeighbor (ie_Dst e) (ie_Dev e) (ie_Lladdr e)
               (match ie_State e with s :: _ => strings_ToLower s | [] => go "unknown" end)
               (if decide (":"%char ∈ ie_Dst e) then go "ipv6" else go "ipv4")).

Definition parseIPNeighJSON (raw : outcome (list ipNeighEntry)) : outcome (list Neighbor) :=
  (λ l : list ipNeighEntry, omap ip_neighbor l) <$> wrap_err "cannot parse ip neigh JSON: %w" raw.

(** ** Merging *)

Definition neighbor_key (n : Neighbor) : gostring := nb_IP n ++ go "%" ++ nb_Device n.

Definition adopt (old n : Neighbor) : Neighbor :=
  MkNeighbor (nb_IP old) (nb_Device old) (if decide (nb_MAC old = []) then nb_MAC n else nb_MAC old) (nb_State n) (nb_Family old).

(** One entry of ip: the entries with the place of each key. *)
Definition merge_neighbor (st : list Neighbor * gmap gostring nat) (n : Neighbor) : list Neighbor * gmap gostring nat :=
  let '(merged, index) := st in
  match index !! neighbor_key n with
  | Some i => (alter (λ old, adopt old n) i merged, index)
  | None => (merged ++ [n], <[neighbor_key n := length merged]> index)
  end.

Definition base_index (base : list Neighbor) : gmap gostring nat :=
  foldl (λ m '(i, n), <[neighbor_key n := i]> m) ∅ (imap pair base).

Definition mergeNeighbors (base extra : list Neighbor) : list Neighbor := (foldl merge_neighbor (base, base_index base) extra).1.

(** ** The report *)

Definition statePriority (state : gostring) : Z :=
  if decide (state = go "failed") then 0 else if decide (state = go "incomplete") then 1 else 2.

Definition count_state (m : gmap gostring Z) (n : Neighbor) : gmap gostring Z := <[nb_State n := default 0 (m !! nb_State n) + 1]> m.

(** The entries, whether ip contributed, the note, and whether any source was read. [ip] is
    whether the command is found, whether it runs, and what its output decodes to. *)
Definition arp_sources `{FileSystem} (ip : option (option (outcome (list ipNeighEntry)))) : list Neighbor * bool * arp_note * bool :=
  let '(base, procOK) :=
    match ReadFile [go "/proc"; go "net"; go "arp"] with inl data => (parseProcArp data, true) | inr _ => ([], false) end in
  match ip with
  | None => (base, false, NotFound, procOK)
  | Some None => (base, false, ExecFailed, procOK)
  | Some (Some out) =>
      match parseIPNeighJSON out with
      | Ret extra => (mergeNeighbors base extra, true, NoNote, true)
      | _ => (base, false, Unparseable, procOK)
      end
  end.

Definition arp_output (entries : list Neighbor) (ipv6Included : bool) (note : arp_note) : Output :=
  let counts := foldl count_state ∅ entries in
  let failed := filter (λ e, nb_State e = go "failed") entries in
  let sorted := sort_stable (λ a b, statePriority (nb_State a) <? statePriority (nb_State b)) entries in
  let shown := take maxEntries sorted in
  MkOutput (Z.of_nat (length entries)) (Z.of_nat (length shown)) (maxEntries <? length sorted)%nat ipv6Included counts shown failed note.

(** The flag tells whether the result is a warning. *)
Definition arp_Execute `{FileSystem} (canceled : bool) (ip : option (option (outcome (list ipNeighEntry)))) : outcome (bool * Output) :=
  if canceled then Err (Errorf "context canceled before execution: %v")
  else
    let '(entries, ipv6Included, note, available) := arp_sources ip in
    if negb available then Err (Errorf "no neighbor data available: /proc/net/arp unreadable and 'ip neigh' unusable")
    else let out := arp_output entries ipv6Included note in Ret (bool_decide (ao_Failed out ≠ []), out).

End arp.

(** ** Lemmas: merging *)

Definition key_in (l : list Neighbor) (n : Neighbor) : Prop := neighbor_key n ∈ map neighbor_key l.

#[export] Instance key_in_dec l n : Decision (key_in l n).
Proof. unfold key_in. apply _. Defined.

(** The first entry of each key that is not among those before. *)
Fixpoint fresh (seen extra : list Neighbor) : list Neighbor :=
  match extra with
  | [] => []
  | n :: extra => if decide (key_in seen n) then fresh seen extra else n :: fresh (seen ++ [n]) extra
  end.

Definition of_key (n : Neighbor) (extra : list Neighbor) : list Neighbor := filter (λ e, neighbor_key e = neighbor_key n) extra.

Definition indexed (merged : list Neighbor) (index : gmap gostring nat) : Prop :=
  NoDup (map neighbor_key merged) ∧ ∀ k i, index !! k = Some i ↔ map neighbor_key merged !! i = Some k.

Lemma adopt_key old n : neighbor_key (adopt old n) = neighbor_key old.
Proof. done. Qed.

Lemma adopt_all_key old l : neighbor_key (foldl adopt old l) = neighbor_key old.
Proof. revert old. induction l as [|n l IH]; intros old; [done|]. cbn [foldl]. by rewrite IH. Qed.

Lemma adopt_self n : adopt n n = n.
Proof. destruct n as [ip dev mac st fam]. unfold adopt. cbn. by case_decide. Qed.

Lemma indexed_in merged index n : indexed merged index → (key_in merged n ↔ is_Some (index !! neighbor_key n)).
Proof.
  intros [_ Hi]. unfold key_in. rewrite list_elem_of_lookup. split.
  - intros [i Hl]. exists i. by apply Hi.
  - intros [i Hl]. exists i. by apply Hi.
Qed.

(** One step on a table without repeated keys. *)
Lemma merge_neighbor_step merged index n : indexed merged index →
  let merged' := map (λ m, if decide (neighbor_key n = neighbor_key m) then adopt m n else m) merged ++ (if decide (key_in merged n) then [] else [n]) in
  (merge_neighbor (merged, index) n).1 = merged' ∧ indexed merged' (merge_neighbor (merged, index) n).2.
Proof.
  intros Hidx. pose proof Hidx as [Hnd Hi]. cbn zeta. unfold merge_neighbor. pose proof (indexed_in merged index n Hidx) as Hin.
  assert (map neighbor_key (map (λ m, if decide (neighbor_key n = neighbor_key m) then adopt m n else m) merged) = map neighbor_key merged) as Hkeys.
  { rewrite map_map. apply map_ext. intros m. by case_decide. }
  destruct (index !! neighbor_key n) as [i|] eqn:E; cbn [fst snd].
  - rewrite decide_True by (apply Hin; by eexists). rewrite app_nil_r. split.
    + apply Hi in E. apply list_eq. intros j. rewrite list_lookup_fmap. destruct (decide (j = i)) as [->|Hj].
      * rewrite list_lookup_alter. rewrite list_lookup_fmap in E. destruct (merged !! i) as [m|]; [|done]. cbn in *. injection E as Hk. by rewrite !decide_True.
      * rewrite list_lookup_alter_ne by done. destruct (merged !! j) as [m|] eqn:Em; [|done]. cbn. rewrite decide_False; [done|]. intros Hk.
        destruct Hj. eapply NoDup_lookup; [exact Hnd| |exact E]. rewrite list_lookup_fmap, Em. cbn. by rewrite Hk.
    + unfold indexed. by rewrite Hkeys.
  - rewrite decide_False by (rewrite Hin; by intros []). assert (∀ m, m ∈ merged → neighbor_key n ≠ neighbor_key m) as Hne.
    { intros m Hm Hk. assert (key_in merged n) as [i Hx]%Hin by (unfold key_in; rewrite Hk; by apply list_elem_of_fmap_2). done. }
    assert (map (λ m, if decide (neighbor_key n = neighbor_key m) then adopt m n else m) merged = merged) as ->.
    { rewrite <-(map_id merged) at 2. apply map_ext_in. intros m Hm%list_elem_of_In. by rewrite decide_False by by apply Hne. }
    split; [done|]. split; rewrite map_app; cbn [map].
    + apply NoDup_app. split_and!; [done| |apply NoDup_singleton]. intros k Hk ->%list_elem_of_singleton.
      apply list_elem_of_fmap in Hk as (m & Hk & Hm). by apply (Hne m).
    + intros k j. rewrite lookup_insert. case_decide as Hk.
      * subst k. split; [intros [= <-]; rewrite lookup_app_r by (by rewrite length_map); by rewrite length_map, Nat.sub_diag|].
        intros [Hl|[Hle Hl]]%lookup_app_Some; [apply Hi in Hl; congruence|].
        rewrite length_map in *. destruct (j - length merged)%nat eqn:Ej; [|done]. f_equal. lia.
      * rewrite Hi. rewrite lookup_app. destruct (map neighbor_key merged !! j) eqn:El; [done|]. split; [done|].
        destruct (j - length (map neighbor_key merged))%nat; [|done]. cbn. intros [= ?]. done.
Qed.

(** Only the keys that were seen matter. *)
Lemma fresh_keys seen seen' extra : map neighbor_key seen = map neighbor_key seen' → fresh seen extra = fresh seen' extra.
Proof.
  revert seen seen'. induction extra as [|n extra IH]; intros seen seen' Hk; [done|]. cbn [fresh].
  assert (key_in seen n ↔ key_in seen' n) as Hiff by (unfold key_in; by rewrite Hk).
  case_decide; case_decide; try tauto; [by apply IH|]. f_equal. apply IH. by rewrite !map_app, Hk.
Qed.

Lemma fresh_new seen extra m : m ∈ fresh seen extra → ¬ key_in seen m.
Proof.
  revert seen. induction extra as [|n extra IH]; intros seen; cbn [fresh]; [by intros ?%elem_of_nil|]. case_decide as Hn; [apply IH|].
  intros [->|Hm]%elem_of_cons; [done|]. apply IH in Hm. unfold key_in in *. rewrite map_app, elem_of_app in Hm. tauto.
Qed.

(** What becomes of an entry: every later one of its key is adopted. *)
Definition adopted (extra : list Neighbor) (m : Neighbor) : Neighbor := foldl adopt m (of_key m extra).

Lemma adopted_other n extra m : neighbor_key n ≠ neighbor_key m → adopted (n :: extra) m = adopted extra m.
Proof. intros Hne. unfold adopted, of_key. by rewrite filter_cons, decide_False. Qed.

Lemma adopted_first n extra : adopted (n :: extra) n = adopted extra n.
Proof. unfold adopted, of_key. rewrite filter_cons, decide_True by done. cbn [foldl]. by rewrite adopt_self. Qed.

Lemma merge_neighbors merged index extra : indexed merged index →
  (foldl merge_neighbor (merged, index) extra).1 = map (adopted extra) (merged ++ fresh merged extra) ∧
  NoDup (map neighbor_key (foldl merge_neighbor (merged, index) extra).1).
Proof.
  revert merged index. induction extra as [|n extra IH]; intros merged index Hidx.
  { cbn [foldl fresh fst]. rewrite app_nil_r. split; [|by destruct Hidx]. symmetry. apply map_id. }
  cbn [foldl]. pose proof (merge_neighbor_step merged index n Hidx) as [Hm Hi].
  destruct (merge_neighbor (merged, index) n) as [merged' index']. cbn [fst snd] in *. subst merged'.
  destruct (IH _ _ Hi) as [Heq Hnd]. split; [|exact Hnd]. rewrite Heq. clear Heq Hnd Hi IH.
  set (upd := λ m, if decide (neighbor_key n = neighbor_key m) then adopt m n else m) in *.
  assert (∀ m, adopted extra (upd m) = adopted (n :: extra) m) as Hstep.
  { intros m. unfold adopted, of_key, upd. rewrite filter_cons. by case_decide. }
  rewrite (fresh_keys _ (merged ++ (if decide (key_in merged n) then [] else [n]))).
  2: { rewrite !map_app, map_map. f_equal. apply map_ext. intros m. unfold upd. by case_decide. }
  rewrite !map_app, map_map, <-(assoc_L (++)). f_equal; [by apply map_ext|]. cbn [fresh].
  assert (∀ m seen, m ∈ fresh seen extra → key_in seen n → adopted extra m = adopted (n :: extra) m) as Hfresh.
  { intros m seen Hm%fresh_new Hn. rewrite adopted_other; [done|]. intros Hk. apply Hm. unfold key_in in *. by rewrite <-Hk. }
  case_decide as Hn; cbn [map app].
  - rewrite app_nil_r. apply map_ext_in. intros m Hm%list_elem_of_In. by eapply Hfresh.
  - rewrite adopted_first. f_equal. apply map_ext_in. intros m Hm%list_elem_of_In. eapply Hfresh; [exact Hm|].
    unfold key_in. rewrite map_app. apply elem_of_app. right. left.
Qed.

Lemma base_index_from (f : nat → nat) (m : gmap gostring nat) base : NoDup (map neighbor_key base) →
  ∀ k i, foldl (λ m '(i, n), <[neighbor_key n := i]> m) m (imap (λ i n, (f i, n)) base) !! k = Some i ↔
    (∃ j, map neighbor_key base !! j = Some k ∧ i = f j) ∨ k ∉ map neighbor_key base ∧ m !! k = Some i.
Proof.
  revert f m. induction base as [|n base IH]; intros f m Hnd k i.
  { cbn. split; [intros; right; split; [apply not_elem_of_nil|done]|intros [(j & Hj & _)|[_ ?]]; done]. }
  cbn [map] in Hnd. apply NoDup_cons in Hnd as [Hn Hnd]. cbn [imap foldl map]. change (imap ((λ i n, (f i, n)) ∘ S) base) with (imap (λ i n, (f (S i), n)) base).
  rewrite (IH (λ i, f (S i))) by done. rewrite lookup_insert, not_elem_of_cons. split.
  - intros [(j & Hj & ->)|[Hk Hl]]; [left; by exists (S j)|]. case_decide as Heq; [subst k; injection Hl as <-; left; by exists 0%nat|right; by split].
  - intros [([|j] & Hj & ->)|[[Hne Hk] Hl]].
    + cbn in Hj. injection Hj as <-. right. by rewrite decide_True.
    + left. by exists j.
    + right. split; [done|]. by rewrite decide_False.
Qed.

Lemma base_indexed base : NoDup (map neighbor_key base) → indexed base (base_index base).
Proof.
  intros Hnd. split; [done|]. intros k i. unfold base_index. rewrite (base_index_from (λ i, i)) by done. rewrite lookup_empty. naive_solver.
Qed.

(** ** Lemmas: the order of the report *)

Definition with_priority (p : Z) (l : list Neighbor) : list Neighbor := filter (λ n, statePriority (nb_State n) = p) l.

Lemma statePriority_range s : statePriority s = 0 ∨ statePriority s = 1 ∨ statePriority s = 2.
Proof. unfold statePriority. repeat case_decide; lia. Qed.

(** An entry is put before the first that is not of smaller priority. *)
Lemma insert_after x (before after : list Neighbor) :
  Forall (λ y, statePriority (nb_State y) < statePriority (nb_State x)) before → Forall (λ y, statePriority (nb_State x) ≤ statePriority (nb_State y)) after →
  insert_stable (λ a b, statePriority (nb_State a) <? statePriority (nb_State b)) x (before ++ after) = before ++ x :: after.
Proof.
  intros Hb Ha. induction Hb as [|y before Hy _ IH]; cbn [app insert_stable].
  - destruct Ha as [|y after Hy _]; [done|]. cbn [insert_stable]. by rewrite (proj2 (Z.ltb_ge _ _)).
  - rewrite (proj2 (Z.ltb_lt _ _)) by done. by rewrite IH.
Qed.

Lemma sort_priority l : sort_stable (λ a b, statePriority (nb_State a) <? statePriority (nb_State b)) l = with_priority 0 l ++ with_priority 1 l ++ with_priority 2 l.
Proof.
  assert (∀ p l, Forall (λ y, statePriority (nb_State y) = p) (with_priority p l)) as Hall.
  { intros p k. apply Forall_forall. by intros y [? _]%list_elem_of_filter. }
  induction l as [|x l IH]; [done|]. change (sort_stable ?less (x :: l)) with (insert_stable less x (sort_stable less l)). rewrite IH. unfold with_priority. rewrite !filter_cons. fold (with_priority 0 l) (with_priority 1 l) (with_priority 2 l).
  pose proof (Hall 0 l) as H0. pose proof (Hall 1 l) as H1. pose proof (Hall 2 l) as H2.
  assert (∀ p q l, Forall (λ y, statePriority (nb_State y) = q) l → p ≤ q → Forall (λ y, p ≤ statePriority (nb_State y)) l) as Hge.
  { intros p q k Hk Hpq. eapply Forall_impl; [exact Hk|]. cbn. lia. }
  assert (∀ p q l, Forall (λ y, statePriority (nb_State y) = q) l → q < p → Forall (λ y, statePriority (nb_State y) < p) l) as Hlt.
  { intros p q k Hk Hpq. eapply Forall_impl; [exact Hk|]. cbn. lia. }
  destruct (statePriority_range (nb_State x)) as [E|[E|E]]; rewrite E; cbn [decide].
  - rewrite (decide_True (P := 0 = 0)), !decide_False by lia. apply (insert_after x []); rewrite ?E; [constructor|]. rewrite !Forall_app. split_and!; eapply Hge; (done || lia).
  - rewrite (decide_True (P := 1 = 1)), !decide_False by lia. apply insert_after; rewrite ?E; [eapply Hlt; (done || lia)|]. rewrite !Forall_app. split_and!; eapply Hge; (done || lia).
  - rewrite (decide_True (P := 2 = 2)), !decide_False by lia. rewrite !(assoc_L (++)). apply insert_after; rewrite ?E; [|eapply Hge; (done || lia)].
    rewrite !Forall_app. split_and!; eapply Hlt; (done || lia).
Qed.

Lemma count_states m l s : default 0 (foldl count_state m l !! s) = default 0 (m !! s) + Z.of_nat (length (filter (λ n, nb_State n = s) l)).
Proof.
  revert m. induction l as [|n l IH]; intros m; [by rewrite Z.add_0_r|]. cbn [foldl]. rewrite IH, filter_cons. unfold count_state at 1. rewrite lookup_insert.
  case_decide as Hs; [subst s; cbn [from_option id length]; lia|done].
Qed.

Lemma length_sort_stable {A} (less : A → A → bool) l : length (sort_stable less l) = length l.
Proof.
  assert (∀ x k, length (insert_stable less x k) = S (length k)) as Hins.
  { intros x k. induction k as [|y k IH]; [done|]. cbn [insert_stable]. destruct (less y x); [cbn [length]; by rewrite IH|done]. }
  induction l as [|x l IH]; [done|]. change (sort_stable less (x :: l)) with (insert_stable less x (sort_stable less l)). by rewrite Hins, IH.
Qed.

Lemma fresh_covers_keys seen extra k : k ∈ map neighbor_key seen ∨ k ∈ map neighbor_key (fresh seen extra) ↔ k ∈ map neighbor_key seen ∨ k ∈ map neighbor_key extra.
Proof.
  revert seen. induction extra as [|n extra IH]; intros seen; [done|]. cbn [fresh map]. rewrite elem_of_cons. case_decide as Hn; cbn [map].
  - rewrite IH. unfold key_in in Hn. split; [tauto|]. intros [?|[->|?]]; tauto.
  - rewrite elem_of_cons. specialize (IH (seen ++ [n])). rewrite map_app, elem_of_app in IH. cbn [map] in IH. rewrite list_elem_of_singleton in IH. tauto.
Qed.

Lemma fresh_covers seen extra n : key_in seen n ∨ key_in (fresh seen extra) n ↔ key_in seen n ∨ key_in extra n.
Proof. apply fresh_covers_keys. Qed.

(** ** Properties *)

(** Merging keeps one entry for each address of a device: those of the kernel's table first,
    then the others in the order ip names them. Each has the state ip gives it last,
    and keeps its hardware address if it has one. *)
Theorem mergeNeighbors_keyed (base extra : list Neighbor) (Hnd : NoDup (map neighbor_key base)) :
  mergeNeighbors base extra = map (adopted extra) (base ++ fresh base extra) ∧
  NoDup (map neighbor_key (mergeNeighbors base extra)) ∧
  (∀ n, key_in (mergeNeighbors base extra) n ↔ key_in base n ∨ key_in extra n) ∧
  (∀ n e, n ∈ mergeNeighbors base extra → last (of_key n extra) = Some e → nb_State n = nb_State e) ∧
  (∀ n m, n ∈ base → m ∈ mergeNeighbors base extra → neighbor_key m = neighbor_key n → nb_MAC n ≠ [] → nb_MAC m = nb_MAC n).
Proof.
  destruct (merge_neighbors base (base_index base) extra (base_indexed base Hnd)) as [Heq Hnd']. fold (mergeNeighbors base extra) in *.
  assert (∀ l n, neighbor_key (foldl adopt n l) = neighbor_key n) as Hak by (intros; apply adopt_all_key).
  assert (∀ n, neighbor_key (adopted extra n) = neighbor_key n) as Hadk by (intros; apply Hak).
  split_and!; [done|done| | |].
  - intros n. unfold key_in. rewrite Heq, map_map. rewrite (map_ext _ neighbor_key) by done. rewrite map_app, elem_of_app. apply fresh_covers.
  - intros n e Hn He. rewrite Heq in Hn. apply list_elem_of_fmap in Hn as (m & -> & _). unfold adopted, of_key in *. rewrite Hak in He.
    destruct (filter _ extra) as [|x l] using rev_ind; [done|]. rewrite last_snoc in He. injection He as ->. by rewrite foldl_app.
  - intros n m Hn Hm Hk Hmac. rewrite Heq in Hm. apply list_elem_of_fmap in Hm as (o & -> & Ho). rewrite Hadk in Hk.
    assert (o = n) as ->.
    { rewrite Heq, map_map, (map_ext _ neighbor_key) in Hnd' by done. apply (NoDup_key_inj neighbor_key (base ++ fresh base extra)); [done|done| |done]. apply elem_of_app. by left. }
    unfold adopted. generalize (of_key n extra). intros l. induction l as [|x l IH] using rev_ind; [done|]. rewrite foldl_app. cbn [foldl adopt nb_MAC].
    rewrite IH. by rewrite decide_False.
Qed.

(** The report: neighbors that failed come first, then those being resolved, then the others,
    each group in its order and all cut after fifty; every failed one is listed, also one
    that was cut; the counts are those of all entries. *)
Theorem arp_report `{UnicodeLower} `{FileSystem} (ip : option (option (outcome (list ipNeighEntry)))) (warns : bool) (out : Output)
  (Hrun : arp_Execute false ip = Ret (warns, out)) :
  ∃ entries, ao_TotalEntries out = Z.of_nat (length entries) ∧
    ao_Entries out = take maxEntries (with_priority 0 entries ++ with_priority 1 entries ++ with_priority 2 entries) ∧
    (ao_Truncated out = true ↔ Z.of_nat maxEntries < Z.of_nat (length entries)) ∧
    ao_Failed out = with_priority 0 entries ∧ (warns = true ↔ ∃ n, n ∈ entries ∧ nb_State n = go "failed") ∧
    (∀ s, default 0 (ao_CountsByState out !! s) = Z.of_nat (length (filter (λ n, nb_State n = s) entries))) ∧
    (∀ base extra, ReadFile [go "/proc"; go "net"; go "arp"] = inl base → ip = Some (Some (Ret extra)) →
       entries = mergeNeighbors (parseProcArp base) (omap ip_neighbor extra)).
Proof.
  unfold arp_Execute in Hrun. destruct (arp_sources ip) as [[[entries included] note] available] eqn:Es. destruct available; [|done]. cbn [negb] in Hrun. remember (arp_output entries included note) as o eqn:Ho. injection Hrun as <- <-.
  assert (ao_Failed o = with_priority 0 entries) as Hfailed.
  { subst o. apply list_filter_iff. intros n. unfold statePriority. repeat case_decide; split; (done || lia). }
  exists entries. rewrite Hfailed. split_and!; [by subst o| | |done| | |].
  - rewrite <-sort_priority. by subst o.
  - subst o. unfold arp_output, ao_Truncated. rewrite Nat.ltb_lt, length_sort_stable. lia.
  - rewrite bool_decide_eq_true. assert (∀ n, n ∈ with_priority 0 entries ↔ n ∈ entries ∧ nb_State n = go "failed") as Hin.
    { intros n. rewrite <-Hfailed. subst o. unfold arp_output, ao_Failed. rewrite list_elem_of_filter. tauto. }
    setoid_rewrite <-Hin. destruct (with_priority 0 entries) as [|n l]; [split; [by intros []|by intros (n & ?%elem_of_nil)]|]. split; [|done]. intros _. exists n. left.
  - intros s. subst o. unfold arp_output, ao_CountsByState. by rewrite count_states, lookup_empty.
  - intros base extra Hb ->. unfold arp_sources in Es. rewrite Hb in Es. by injection Es as <- _ _.
Qed.

(** ** Witnesses *)

Definition arp_table : gostring := print_lines [[go "IP"; go "address"; go "HW"; go "type"];
  [go "10.0.0.1"; go "0x1"; go "0x2"; go "aa:bb:cc:dd:ee:ff"; go "*"; go "eth0"]; [go "10.0.0.2"; go "0x1"; go "0x0"; go "00:00:00:00:00:00"; go "*"; go "eth0"]].

Definition arp_fs : FileSystem := mem_fs [([go "/proc"; go "net"; go "arp"], arp_table)] [] [].

Definition ip_neigh : list ipNeighEntry := [MkIPNeigh (go "10.0.0.2") (go "eth0") [] [go "FAILED"]; MkIPNeigh (go "fe80::1") (go "eth0") (go "aa:aa:aa:aa:aa:aa") [go "STALE"]].

Lemma mergeNeighbors_keyed_witness :
  map neighbor_key (mergeNeighbors (@parseProcArp (λ s, s) arp_table) (omap (@ip_neighbor (λ s, s)) ip_neigh)) = [go "10.0.0.1%eth0"; go "10.0.0.2%eth0"; go "fe80::1%eth0"] ∧
  NoDup (map neighbor_key (mergeNeighbors (@parseProcArp (λ s, s) arp_table) (omap (@ip_neighbor (λ s, s)) ip_neigh))).
Proof. split; [by vm_compute|]. apply mergeNeighbors_keyed. by_decide. Defined.

Lemma arp_report_witness :
  ∃ out, @arp_Execute (λ s, s) arp_fs false (Some (Some (Ret ip_neigh))) = Ret (true, out) ∧ map nb_IP (ao_Entries out) = [go "10.0.0.2"; go "10.0.0.1"; go "fe80::1"] ∧
    ∃ entries, ao_Failed out = with_priority 0 entries.
Proof.
  assert (∃ out, @arp_Execute (λ s, s) arp_fs false (Some (Some (Ret ip_neigh))) = Ret (true, out) ∧ map nb_IP (ao_Entries out) = [go "10.0.0.2"; go "10.0.0.1"; go "fe80::1"])
    as (out & Hout & Hips) by (eexists; split; [vm_compute; reflexivity|vm_compute; reflexivity]).
  exists out. split; [exact Hout|]. split; [exact Hips|].
  destruct (@arp_report (λ s, s) arp_fs _ _ _ Hout) as (entries & _ & _ & _ & Hf & _). by exists entries.
Defined.
